(* ===== verification/_CoqProject ===== *)
-Q . S2P
Prelude.v
ReplayWindow.v
Packet.v
SecureDatagram.v
PeerSession.v
OperationBroker.v
TokenBucket.v
Compressor.v
RpcPacket.v
IpParse.v
Acl.v
GraphAlgo.v
RouteTable.v
LinkState.v
RouteSession.v
RouteSync.v
IpReassembler.v
FlowTable.v
UdpFragments.v
Credentials.v
RouteWire.v
CredentialTrust.v
RouteService.v
RouteInbound.v
AclFilter.v
Dhcp.v
CidrTable.v
TcpProxy.v
ProxyReply.v
UdpProxy.v
IcmpProxy.v
PublicIpv6.v
UdpDatagram.v
UdpSessions.v
PeerLiveness.v
PeerConns.v
PeerMap.v
PacketRouter.v
