(* ===== verification/Prelude.v ===== *)
(** * EasyTier core: a verification library

    EasyTier is a peer-to-peer VPN.  This library models the logic of its core crate
    (src/easytier-core) in Rocq and proves what its components owe each other.  Paths
    below are relative to src/easytier-core/src.

    ** The program and its parts

    A packet travels through these parts.  [gateway] takes it from a virtual device or an
    embedded stack (data plane); the ACL judges it; the route says through which neighbour
    it goes; it is compressed, encrypted by the session with its destination, given to a
    connection of the neighbour and framed for the tunnel.  On the way in the same parts run
    backwards; packets for networks behind this node go through the proxies.  Beside the
    packets the peers exchange link state over an RPC layer whose messages are split into
    packets; peers without the network secret are admitted by credentials.  Addresses come
    from DHCP and from the public IPv6 service.

    ** Files

    Each file models the sources its own header names, with the names of the code: a
    struct is a record, a method a definition that takes and returns the state.

    - Prelude: machine integers, byte strings and slices, folds that can panic, hash map
      iteration ([HashIter]), shared by all files.
    - Packets.  Packet: packet/mod.rs and hole_punch.rs, the header layouts and [ZCPacket].
      Compressor: packet/compressor.rs, compressor/zstd.rs and the content compression of
      rpc/packet.rs.  IpParse: packet/ip.rs and flow.rs.  IpReassembler:
      gateway/proxy/ip_reassembler.rs.  RpcPacket: rpc/packet.rs, splitting and merging.
    - Sessions.  ReplayWindow and SecureDatagram: tunnel/secure_datagram.rs.  PeerSession:
      peers/conn/peer_session.rs, the handshake on both sides over SecureDatagram sessions.
      UdpDatagram: socket/udp/packet.rs, the datagrams of the UDP tunnel.  UdpSessions:
      socket/udp/layer.rs and session.rs, the sessions that share a socket.
    - Connections.  PeerLiveness: peers/conn/peer_conn_liveness.rs, peer_conn_ping.rs and the
      latency window of tunnel/stats.rs.  PeerConns: peers/conn/peer.rs and peer_flow.rs, the
      connections of one peer.  PeerMap: peers/conn/peer_map.rs, foreign_network/client.rs and
      [send_msg_internal] of peers/peer_manager.rs, the way of a packet, over PeerConns and the
      next hops of a route.  PacketRouter: the packet paths of peers/peer_manager.rs, from the
      connections to the host and back, over PeerMap, AclFilter and Compressor.
    - Routing, all of peers/route.  GraphAlgo: graph_algo.rs.  RouteWire: route_peer_wire.rs.
      RouteTable, LinkState, CredentialTrust, RouteSession, RouteSync, RouteService and
      RouteInbound: peer_ospf_route.rs; the database (LinkState) with its trust maps
      (CredentialTrust) is what RouteTable is computed from and what RouteSync sends, within
      the sessions and the election of RouteSession; RouteService keeps the tables and the own
      rows, RouteInbound takes in what a neighbour sends.
    - Policy.  Acl: peers/acl/processor.rs, with TokenBucket: foundation/token_bucket.rs.
      AclFilter: peers/acl/filter.rs, the packets in front of Acl.  Credentials:
      peers/credential_manager.rs.
    - Addresses.  Dhcp: gateway/dhcp.rs and config/dhcp.rs.  PublicIpv6: peers/public_ipv6.
    - Data plane.  FlowTable: gateway/dataplane/flow.rs.  UdpFragments:
      dataplane/packet.rs, udp_fragments.rs and the packet filter of dataplane/mod.rs,
      which reads the flow table.
    - Proxies, all of gateway/proxy.  CidrTable: cidr_table.rs, the proxied networks.  TcpProxy,
      UdpProxy and IcmpProxy: the three engines, over CidrTable; ProxyReply: the packets the
      last two answer with.
    - OperationBroker: foundation/operation_broker.rs, the hand-over of operations to an
      embedding host.

    ** How the code is modelled

    A panic (an index out of range, [unwrap], [expect], [unreachable!]) is [None] of an
    outer option, an error that the code returns is a value ([result], [option], an error
    type).  Integers are [Z] with their width written out, wrapping where a release build
    wraps.  A call that runs under a lock is one step; where the code relies on interleaving
    (FlowTable, UdpFragments, RouteSync, RouteSession, Credentials, PublicIpv6, UdpSessions,
    PeerLiveness, PeerConns, PeerMap) the calls or atomic actions are the steps of a relation or of a run, and the invariants are proved over all
    runs.  Clocks, random numbers and the iteration order of hash maps are arguments.

    Code outside src/ is a parameter with the behaviour it documents: ciphers, HMAC, base64
    and x25519, zstd, prost, petgraph and the standard heap, smoltcp's packet views, the
    cidr crate, hashers, ordered hash maps, the credential storage.  Each such interface is a class
    or a hypothesis of a section, and the witnesses instantiate it with concrete functions.

    Loops that are not structural carry fuel, and theorems say that the fuel given is enough:
    two more than the number of edges in Dijkstra (a push is paid for by an edge), one more
    than the length of the payload in composing fragments, the length of the packet in the
    IPv6 walk, one more than the entries of the map in the eviction loops of the fragments, and
    five stages for adding a connection.

    ** What the theorems say

    - Connections.  [echo_proves_round_trip], [closed_after_five_losses], [pings_keep_coming],
      [average_of_recent]: what the pings say.  [packet_gets_live_conn], [active_flow_stays],
      [closed_conns_removed], [conns_share_identity]: the connections of a peer.
      [way_is_nearest], [clean_keeps_live]: the map of peers.  [packet_hops_bounded],
      [packet_goes_to_owner], [p2p_only_never_relays], [pipeline_delivers_in_order]: the routers.  [sessions_kept_apart],
      [connect_needs_sack], [handshake_connects], [tunnel_packet_arrives]: the UDP sessions.
    - Security.  [commit_never_twice], [accept_refines_spec], [nonces_distinct],
      [decrypt_commit_agrees], [session_roundtrip]: no replay, no reused nonce, and what is
      encrypted is decrypted.  [handshake_agrees]: both ends hold one key.
      [credentials_unique], [revocation_takes_effect], [published_iff_trusted]: a credential
      key belongs to one owner at all times.
    - Routing.  [dijkstra_finds_shortest_paths], [next_hops_are_best],
      [proxy_network_owner]: the table follows the shortest paths of the topology.
      [topology_converges], [versions_advance], [conn_bitmap_roundtrip], [no_peer_info_lost],
      [request_brings_up_to_date]: the databases agree in the end, over lost, late and
      repeated messages.  [current_request_same_identity], [inbound_admission],
      [election_single_initiator]: the sessions.  [credential_peer_speaks_for_itself],
      [accepted_from_credential_peer], [suppressed_never_served], [group_cache_follows]: what
      a peer without the secret can say.
    - Data path.  [convert_type_preserves], [merge_any_order], [composed_packets_reassemble],
      [packet_compression_roundtrip], [parse_ip_total], [flow_key_reads_back]: packets
      survive framing, splitting and parsing.  [zero_count_means_empty],
      [lease_keeps_its_flow], [fast_gate_transparent], [tails_wait_for_first],
      [packets_never_duplicated], [filter_within_budget]: the data plane's filter.
      [nat_roundtrip], [tcp_engine_safe], [udp_reply_delivered], [echo_reply_delivered]: the
      proxies.
    - Addresses.  [ipv6_decision_ok], [leased_addresses_distinct], [acquire_outcome],
      [host_follows_service]: no address is used twice, and the host has what was leased.
    - Policy.  [only_replies_bypass], [reply_is_let_in]: what the ACL lets in as an answer.  [acl_cache_transparent], [highest_priority_wins], [acl_never_panics],
      [grants_bounded]: caching is invisible and limits hold.
    - Errors and life cycles.  [failed_call_changes_nothing], [restart_recovers_credentials],
      [broker_never_panics], [broker_delivers_once].

    Lemmas that show a defect of the code are kept beside the theorem they bound, for example
    [accept_replays_on_32_bit_usize], [oversized_reassembly] or [stale_bitmap_skips_row].

    ** Not modelled

    Pure I/O and orchestration: sockets and tunnels, tasks and their drivers, STUN and hole
    punching, listeners, management services.  Third-party logic: the ciphers, the embedded TCP
    stack, serde configuration formats.  Around the core: the host program, bindings and user
    interfaces.  Core logic that is left: the admission and the tasks of the peer manager,
    the Noise handshake and receive loop of a connection (peer_conn.rs), the relay sessions
    (relay_peer_map.rs; a packet for them is a result, their decryption an argument), the foreign
    networks (foreign_network/mod.rs), the admission of peers (admission.rs), the RPC client
    and server, the PROXY protocol, socks5 and magic DNS.  Of the modelled files: the tasks
    that drive sessions and clean-ups in peer_ospf_route.rs, the facade of [PeerRoute], the
    provider task of public IPv6, the dialer of the UDP layer, log lines, metrics,
    constructors used only by socks5 and STUN, and [Debug] implementations. *)

From stdpp Require Export base gmap list numbers strings sorting sets.
From Stdlib Require Export ZArith Lia.
Local Open Scope Z_scope.

(** ** Machine integers

    A Rust [uN] is a [Z] in the range of [N] bits; the wrap-around, checked and
    saturating operations are written out with their width. *)

Declare Scope rust_scope.
Delimit Scope rust_scope with rust.

Definition is_uint (w x : Z) : Prop := 0 <= x < 2 ^ w.

#[export] Instance is_uint_dec w x : Decision (is_uint w x).
Proof. unfold is_uint. apply _. Defined.

Definition uint_max (w : Z) : Z := 2 ^ w - 1.

Definition wrap (w x : Z) : Z := x mod 2 ^ w.

Definition wrapping_add (w a b : Z) : Z := wrap w (a + b).

Definition wrapping_sub (w a b : Z) : Z := wrap w (a - b).

Definition checked_add (w a b : Z) : option Z :=
  if a + b <=? uint_max w then Some (a + b) else None.

Definition saturating_add (w a b : Z) : Z := Z.min (a + b) (uint_max w).

Definition saturating_mul (w a b : Z) : Z := Z.min (a * b) (uint_max w).

Definition saturating_sub (a b : Z) : Z := Z.max 0 (a - b).

Definition div_ceil (a b : Z) : Z := (a + b - 1) / b.

(** ** Results

    [Result<A, E>] of the source; [let?] is its [?] operator. *)

Inductive result (A E : Type) : Type :=
| Ok (a : A)
| Err (e : E).
Arguments Ok {A E} a.
Arguments Err {A E} e.

Definition is_ok {A E} (r : result A E) : bool :=
  match r with Ok _ => true | Err _ => false end.

Notation "'let?' x ':=' m 'in' k" :=
  (match m with Ok x => k | Err e => Err e end)
  (at level 10, x pattern, m at level 100, k at level 200)
  : rust_scope.

#[export] Instance result_eq_dec {A E} `{EqDecision A, EqDecision E} : EqDecision (result A E).
Proof. solve_decision. Defined.

(** ** Byte strings

    A byte is a [Z] below 256; [to_le]/[from_le] and [to_be]/[from_be] are the
    fixed-width little- and big-endian encodings. *)

Definition is_byte (b : Z) : Prop := 0 <= b < 256.

Abbreviation bytes := (list Z) (only parsing).

Definition is_bytes (l : list Z) : Prop := Forall is_byte l.

Fixpoint from_le (l : list Z) : Z :=
  match l with
  | [] => 0
  | b :: r => b + 256 * from_le r
  end.

Fixpoint to_le (n : nat) (z : Z) : list Z :=
  match n with
  | O => []
  | S n => z mod 256 :: to_le n (z / 256)
  end.

Definition from_be (l : list Z) : Z := from_le (reverse l).

Definition to_be (n : nat) (z : Z) : list Z := reverse (to_le n z).

(** ** Hash maps *)

(** The iteration order of a hash map. *)
Class HashIter := {
  iter : ∀ {K A} `{Countable K}, gmap K A → list (K * A);
  iter_perm : ∀ {K A} `{Countable K} (m : gmap K A), iter m ≡ₚ map_to_list m
}.

#[export] Instance map_to_list_iter : HashIter.
Proof. by exists (λ K A _ _, map_to_list). Defined.

(** ** Slices

    Rust indexes and slices panic when out of range: they return [None] here. *)

Definition len {A} (l : list A) : Z := Z.of_nat (length l).

(** [l.get(off..)] and [&l[off..]]. *)
Definition slice_from {A} (l : list A) (off : Z) : option (list A) :=
  if (0 <=? off) && (off <=? len l) then Some (drop (Z.to_nat off) l) else None.

(** [l.get(a..b)] and [&l[a..b]]. *)
Definition slice_range {A} (l : list A) (a b : Z) : option (list A) :=
  if (0 <=? a) && (a <=? b) && (b <=? len l)
  then Some (take (Z.to_nat (b - a)) (drop (Z.to_nat a) l)) else None.

(** [l[i]]. *)
Definition index {A} (l : list A) (i : Z) : option A :=
  if 0 <=? i then l !! Z.to_nat i else None.

(** [l[a..].copy_from_slice(src)] writes [src] over the end of [l], and
    [l[a..b].copy_from_slice(src)] over a range; both panic when the lengths differ. *)
Definition write_range {A} (l : list A) (a b : Z) (src : list A) : option (list A) :=
  if (0 <=? a) && (a <=? b) && (b <=? len l) && (len src =? b - a)
  then Some (take (Z.to_nat a) l ++ src ++ drop (Z.to_nat b) l) else None.

(** [Iterator::find_map]. *)
Fixpoint find_map {A B} (f : A → option B) (l : list A) : option B :=
  match l with
  | [] => None
  | x :: rest => match f x with Some b => Some b | None => find_map f rest end
  end.

(** A loop whose body can panic. *)
Fixpoint try_fold {A B} (f : A → B → option A) (l : list B) (a : A) : option A :=
  match l with
  | [] => Some a
  | x :: r => a' ← f a x; try_fold f r a'
  end.

Create HintDb rust.
Create Rewrite HintDb rust.

(** Case analysis on every [if] and [match] of the goal, keeping the equations. *)
Ltac split_matches :=
  repeat match goal with
  | |- context [match ?x with _ => _ end] => let E := fresh "E" in destruct x eqn:E
  end.

(** Turns boolean comparisons of the context into propositions. *)
Ltac bool_to_prop :=
  repeat match goal with
  | H : (_ <? _) = true |- _ => apply Z.ltb_lt in H
  | H : (_ <? _) = false |- _ => apply Z.ltb_ge in H
  | H : (_ <=? _) = true |- _ => apply Z.leb_le in H
  | H : (_ <=? _) = false |- _ => apply Z.leb_gt in H
  | H : (_ =? _) = true |- _ => apply Z.eqb_eq in H
  | H : (_ =? _) = false |- _ => apply Z.eqb_neq in H
  | H : _ && _ = true |- _ => apply andb_true_iff in H as [? ?]
  | H : _ || _ = false |- _ => apply orb_false_iff in H as [? ?]
  | H : negb _ = true |- _ => apply negb_true_iff in H
  | H : negb _ = false |- _ => apply negb_false_iff in H
  end.

Lemma pow256_pos (n : nat) : 0 < 256 ^ Z.of_nat n.
Proof. apply Z.pow_pos_nonneg; lia. Qed.

Lemma pow256_S (n : nat) : 256 ^ Z.of_nat (S n) = 256 * 256 ^ Z.of_nat n.
Proof. rewrite Nat2Z.inj_succ, Z.pow_succ_r; lia. Qed.

Lemma from_le_bound l : is_bytes l → 0 <= from_le l < 256 ^ Z.of_nat (length l).
Proof.
  induction 1 as [|b l Hb Hl IH]; simpl length; [simpl; lia|].
  rewrite pow256_S. unfold is_byte in Hb. simpl. lia.
Qed.

Lemma length_to_le n z : length (to_le n z) = n.
Proof. revert z; induction n; intros; simpl; auto. Qed.

Lemma to_le_bytes n z : is_bytes (to_le n z).
Proof.
  revert z; induction n; intros z; simpl; constructor.
  - unfold is_byte. apply Z.mod_pos_bound. lia.
  - apply IHn.
Qed.

Lemma from_le_to_le n z : from_le (to_le n z) = z mod 256 ^ Z.of_nat n.
Proof.
  revert z; induction n as [|n IH]; intros z; [simpl; by rewrite Z.mod_1_r|].
  cbn [to_le from_le]. rewrite IH, pow256_S.
  pose proof (pow256_pos n).
  rewrite Z.rem_mul_r by lia. lia.
Qed.

Lemma to_le_from_le l : is_bytes l → to_le (length l) (from_le l) = l.
Proof.
  induction 1 as [|b l Hb Hl IH]; [done|]. unfold is_byte in Hb. cbn [length to_le from_le].
  rewrite (Z.add_comm b), (Z.mul_comm 256), Z.div_add_l by lia.
  rewrite (Z.add_comm _ b), Z_mod_plus_full, Z.mod_small by lia.
  rewrite (Z.div_small b), Z.add_0_r by lia. by rewrite IH.
Qed.

Lemma from_le_app l1 l2 :
  from_le (l1 ++ l2) = from_le l1 + 256 ^ Z.of_nat (length l1) * from_le l2.
Proof.
  induction l1 as [|b l IH]; [simpl; lia|].
  cbn [app from_le length]. rewrite IH, pow256_S. lia.
Qed.

Lemma length_to_be n z : length (to_be n z) = n.
Proof. unfold to_be. by rewrite length_reverse, length_to_le. Qed.

Lemma to_be_bytes n z : is_bytes (to_be n z).
Proof. unfold to_be, is_bytes. rewrite Forall_reverse. apply to_le_bytes. Qed.

Lemma from_be_to_be n z : from_be (to_be n z) = z mod 256 ^ Z.of_nat n.
Proof. unfold from_be, to_be. rewrite reverse_involutive. apply from_le_to_le. Qed.

Lemma to_be_from_be l : is_bytes l → to_be (length l) (from_be l) = l.
Proof.
  intros H. unfold to_be, from_be. rewrite <- (length_reverse l), to_le_from_le.
  - apply reverse_involutive.
  - by apply Forall_reverse.
Qed.

(** ** Integers *)

Lemma wrapping_sub_small w a b : is_uint w (a - b) → wrapping_sub w a b = a - b.
Proof. apply Z.mod_small. Qed.

Lemma checked_add_Some w a b x :
  checked_add w a b = Some x → x = a + b ∧ a + b <= uint_max w.
Proof.
  unfold checked_add. destruct (Z.leb_spec (a + b) (uint_max w)); [|done]. by intros [= <-].
Qed.

Lemma wrapping_add_small w a b : is_uint w (a + b) → wrapping_add w a b = a + b.
Proof. intros H. apply Z.mod_small. exact H. Qed.

(** ** Slices *)

Lemma len_nonneg {A} (l : list A) : 0 <= len l.
Proof. unfold len. lia. Qed.

Lemma len_app {A} (l1 l2 : list A) : len (l1 ++ l2) = len l1 + len l2.
Proof. unfold len. rewrite length_app. lia. Qed.

Lemma len_cons {A} (x : A) l : len (x :: l) = 1 + len l.
Proof. unfold len. cbn [length]. lia. Qed.

Lemma len_snoc {A} (l : list A) x : len (l ++ [x]) = len l + 1.
Proof. by rewrite len_app. Qed.

Lemma len_imap {A B} (f : nat → A → B) l : len (imap f l) = len l.
Proof. unfold len. by rewrite length_imap. Qed.

Lemma len_to_le n z : len (to_le n z) = Z.of_nat n.
Proof. unfold len. by rewrite length_to_le. Qed.

Lemma len_drop {A} (l : list A) off : 0 <= off <= len l → len (drop (Z.to_nat off) l) = len l - off.
Proof. unfold len. rewrite length_drop. lia. Qed.

Lemma slice_from_Some {A} (l : list A) off :
  0 <= off <= len l → slice_from l off = Some (drop (Z.to_nat off) l).
Proof.
  intros. unfold slice_from.
  destruct (Z.leb_spec 0 off), (Z.leb_spec off (len l)); (done || lia).
Qed.

Lemma slice_from_app {A} (l1 l2 : list A) off :
  off = len l1 → slice_from (l1 ++ l2) off = Some l2.
Proof.
  intros ->. rewrite slice_from_Some.
  - unfold len. rewrite Nat2Z.id. by rewrite drop_app_length.
  - rewrite len_app. pose proof (len_nonneg l1). pose proof (len_nonneg l2). lia.
Qed.

Lemma slice_range_app {A} (l1 l2 l3 : list A) a b :
  a = len l1 → b = len l1 + len l2 → slice_range (l1 ++ l2 ++ l3) a b = Some l2.
Proof.
  intros -> ->. unfold slice_range. rewrite !len_app.
  pose proof (len_nonneg l1). pose proof (len_nonneg l2). pose proof (len_nonneg l3).
  destruct (Z.leb_spec 0 (len l1)), (Z.leb_spec (len l1) (len l1 + len l2)),
    (Z.leb_spec (len l1 + len l2) (len l1 + (len l2 + len l3))); try lia. simpl.
  replace (len l1 + len l2 - len l1) with (len l2) by lia. unfold len.
  rewrite !Nat2Z.id, drop_app_length. by rewrite take_app_length.
Qed.

Lemma write_range_app {A} (l1 l2 l3 src : list A) a b :
  a = len l1 → b = len l1 + len l2 → len src = len l2 →
  write_range (l1 ++ l2 ++ l3) a b src = Some (l1 ++ src ++ l3).
Proof.
  intros -> -> Hs. unfold write_range. rewrite !len_app.
  pose proof (len_nonneg l1). pose proof (len_nonneg l2). pose proof (len_nonneg l3).
  destruct (Z.leb_spec 0 (len l1)), (Z.leb_spec (len l1) (len l1 + len l2)),
    (Z.leb_spec (len l1 + len l2) (len l1 + (len l2 + len l3))); try lia. simpl.
  destruct (Z.eqb_spec (len src) (len l1 + len l2 - len l1)); [|lia].
  f_equal. unfold len. rewrite Nat2Z.id. rewrite take_app_length. do 2 f_equal.
  replace (Z.to_nat (Z.of_nat (length l1) + Z.of_nat (length l2)))
    with (length l1 + length l2)%nat by lia.
  rewrite drop_app_add. by rewrite drop_app_length.
Qed.

Lemma slice_range_Some {A} (l : list A) a b :
  0 <= a <= b → b <= len l →
  ∃ p m r, l = p ++ m ++ r ∧ len p = a ∧ len m = b - a ∧ slice_range l a b = Some m.
Proof.
  intros Ha Hb. exists (take (Z.to_nat a) l), (take (Z.to_nat (b - a)) (drop (Z.to_nat a) l)),
    (drop (Z.to_nat (b - a)) (drop (Z.to_nat a) l)). unfold len in *.
  rewrite !take_drop. split; [done|]. rewrite !length_take, length_drop.
  split; [lia|]. split; [lia|]. unfold slice_range, len.
  destruct (Z.leb_spec 0 a), (Z.leb_spec a b), (Z.leb_spec b (Z.of_nat (length l))); done || lia.
Qed.

Lemma index_Some {A} (l : list A) i :
  0 <= i < len l → ∃ x, index l i = Some x ∧ x ∈ l.
Proof.
  intros Hi. unfold index. destruct (Z.leb_spec 0 i); [|lia].
  destruct (lookup_lt_is_Some_2 l (Z.to_nat i)) as [x Hx]; [unfold len in Hi; lia|].
  exists x. split; [done|]. by eapply list_elem_of_lookup_2.
Qed.

Lemma index_lt {A} (l : list A) i x : index l i = Some x → 0 <= i < len l ∧ x ∈ l.
Proof.
  unfold index, len. destruct (Z.leb_spec 0 i); [|done]. intros Hx. split.
  - apply lookup_lt_Some in Hx. lia.
  - by eapply list_elem_of_lookup_2.
Qed.

Lemma slice_from_extend {A} (l r m : list A) off :
  slice_from l off = Some r → slice_from (l ++ m) off = Some (r ++ m).
Proof.
  unfold slice_from, len. rewrite length_app.
  destruct (Z.leb_spec 0 off), (Z.leb_spec off (Z.of_nat (length l))); try done. intros [= <-].
  destruct (Z.leb_spec off (Z.of_nat (length l + length m))); [|lia]. cbn [andb].
  f_equal. apply drop_app_le. lia.
Qed.

Lemma slice_from_slice {A} (l l1 : list A) a b :
  slice_from l a = Some l1 → 0 <= b → slice_from l1 b = slice_from l (a + b).
Proof.
  unfold slice_from. intros H Hb.
  destruct (Z.leb_spec 0 a), (Z.leb_spec a (len l)); simplify_eq/=; [|done..].
  destruct (Z.leb_spec 0 b); [|lia]. destruct (Z.leb_spec 0 (a + b)); [|lia].
  rewrite len_drop by lia.
  destruct (Z.leb_spec b (len l - a)), (Z.leb_spec (a + b) (len l)); simpl; try lia; [|done].
  rewrite drop_drop. do 2 f_equal. lia.
Qed.

Lemma len_split {A} (l : list A) a b :
  len l = a + b → 0 <= a → 0 <= b →
  ∃ l1 l2, l = l1 ++ l2 ∧ len l1 = a ∧ len l2 = b.
Proof.
  intros Hl Ha Hb. exists (take (Z.to_nat a) l), (drop (Z.to_nat a) l).
  unfold len in *. rewrite take_drop, length_take, length_drop. split_and!; [done|lia|lia].
Qed.

Lemma take_app_len {A} (l1 l2 : list A) n : length l1 = n → take n (l1 ++ l2) = l1.
Proof. intros <-. apply take_app_length. Qed.

Lemma drop_app_len {A} (l1 l2 : list A) n : length l1 = n → drop n (l1 ++ l2) = l2.
Proof. intros <-. apply drop_app_length. Qed.

Lemma to_le_roundtrip n z : 0 <= z < 256 ^ Z.of_nat n → from_le (to_le n z) = z.
Proof. intros. rewrite from_le_to_le. by apply Z.mod_small. Qed.

(** ** Sets *)

Lemma elem_of_add_same `{Countable A} (x : A) (S : gset A) : x ∈ {[x]} ∪ S.
Proof. apply elem_of_union. left. by apply elem_of_singleton. Qed.

Lemma elem_of_add_other `{Countable A} (x y : A) (S : gset A) : y ∈ S → y ∈ {[x]} ∪ S.
Proof. intros. apply elem_of_union. by right. Qed.

#[export] Hint Resolve elem_of_add_same elem_of_add_other : rust.

(** ** Bits of bytes *)

Lemma byte_testbit_high b i : is_byte b → 8 <= i → Z.testbit b i = false.
Proof.
  intros Hb Hi. unfold is_byte in Hb.
  destruct (decide (b = 0)) as [->|]; [apply Z.bits_0|].
  apply Z.bits_above_log2; [lia|]. apply Z.log2_lt_pow2; [lia|].
  assert (2 ^ 8 <= 2 ^ i) by (apply Z.pow_le_mono_r; lia). lia.
Qed.

Lemma byte_of_testbit b :
  0 <= b → (∀ i, 8 <= i → Z.testbit b i = false) → is_byte b.
Proof.
  intros H0 H. split; [done|].
  assert (b = b mod 2 ^ 8) as ->.
  { apply Z.bits_inj'. intros n Hn. destruct (decide (n < 8)).
    - by rewrite Z.mod_pow2_bits_low.
    - rewrite Z.mod_pow2_bits_high by lia. apply H. lia. }
  by apply Z.mod_pos_bound.
Qed.

Lemma lor_byte a b : is_byte a → is_byte b → is_byte (Z.lor a b).
Proof.
  intros Ha Hb. apply byte_of_testbit.
  - apply Z.lor_nonneg. unfold is_byte in *. lia.
  - intros i Hi. rewrite Z.lor_spec, !byte_testbit_high; auto.
Qed.

Lemma wrap_byte x : is_byte (wrap 8 x).
Proof. unfold wrap. apply Z.mod_pos_bound. lia. Qed.

Lemma shiftr_byte b n : is_byte b → 0 <= n → is_byte (Z.shiftr b n).
Proof.
  intros Hb Hn. unfold is_byte in *. rewrite Z.shiftr_div_pow2 by done.
  split; [apply Z.div_pos; lia|]. apply Z.div_lt_upper_bound; [lia|].
  assert (1 <= 2 ^ n) by (apply Z.pow_le_mono_r with (b := 0); lia). nia.
Qed.

Lemma land_1_testbit x n : 0 <= n → (Z.land (Z.shiftr x n) 1 =? 1) = Z.testbit x n.
Proof.
  intros Hn. change 1 with (Z.ones 1) at 1. rewrite Z.land_ones by lia.
  rewrite Z.shiftr_div_pow2, <- Z.testbit_spec' by done. by destruct (Z.testbit x n).
Qed.

Lemma is_bytes_lookup (l : list Z) (i : nat) :
  is_bytes l → (i < length l)%nat → is_byte (l !!! i).
Proof.
  intros Hl Hi. destruct (lookup_lt_is_Some_2 _ _ Hi) as [x Hx].
  rewrite (list_lookup_total_correct _ _ _ Hx).
  exact (proj1 (Forall_lookup _ _) Hl _ _ Hx).
Qed.

Lemma is_bytes_insert (l : list Z) (i : nat) x :
  is_bytes l → is_byte x → is_bytes (<[i:=x]> l).
Proof. intros. by apply Forall_insert. Qed.

Lemma is_bytes_replicate n : is_bytes (replicate n 0).
Proof. apply Forall_replicate. unfold is_byte. lia. Qed.

#[export] Hint Resolve to_le_bytes to_be_bytes lor_byte wrap_byte shiftr_byte
  is_bytes_lookup is_bytes_insert is_bytes_replicate : rust.
#[export] Hint Rewrite length_to_le length_to_be : rust.

(** ** Loops *)

Lemma try_fold_app {A B} (f : A → B → option A) l1 l2 a :
  try_fold f (l1 ++ l2) a = (a' ← try_fold f l1 a; try_fold f l2 a').
Proof. revert a. induction l1 as [|x l1 IH]; intros a; cbn; [done|]. destruct (f a x); cbn; auto. Qed.

(** The induction rule of a loop: [P done a] holds of the state [a] after the items
    [done]; no round panics. *)
Lemma try_fold_inv {A B} (P : list B → A → Prop) (f : A → B → option A) l a :
  P [] a →
  (∀ done x a, x ∈ l → P done a → ∃ a', f a x = Some a' ∧ P (done ++ [x]) a') →
  ∃ a', try_fold f l a = Some a' ∧ P l a'.
Proof.
  intros H0 Hs. induction l as [|x l IH] using rev_ind; cbn; [eauto|].
  destruct IH as (a1 & E1 & P1); [intros; apply Hs; set_solver|].
  destruct (Hs l x a1) as (a2 & E2 & P2); [set_solver|done|].
  exists a2. rewrite try_fold_app, E1. cbn. by rewrite E2.
Qed.

Lemma foldl_inv {A B} (P : list B → A → Prop) (f : A → B → A) l a :
  P [] a → (∀ done x a, x ∈ l → P done a → P (done ++ [x]) (f a x)) → P l (foldl f a l).
Proof.
  intros H0 Hs. induction l as [|x l IH] using rev_ind; cbn; [done|].
  rewrite foldl_app. cbn. apply Hs; [set_solver|]. apply IH. intros; apply Hs; set_solver.
Qed.

(** The same rule for a loop that is known to have ended without a panic. *)
Lemma try_fold_pres {A B} (P : list B → A → Prop) (f : A → B → option A) l a a' :
  P [] a →
  (∀ done x a a', x ∈ l → P done a → f a x = Some a' → P (done ++ [x]) a') →
  try_fold f l a = Some a' → P l a'.
Proof.
  intros H0 Hs. revert a'. induction l as [|x l IH] using rev_ind; cbn; [by intros a' [= <-]|].
  intros a'. rewrite try_fold_app. destruct (try_fold f l a) as [a1|] eqn:E; [|done]. cbn.
  destruct (f a1 x) as [a2|] eqn:E2; cbn; [|done]. intros [= <-].
  eapply Hs; [set_solver| |done]. apply IH; [|done]. intros; eapply Hs; [set_solver|done..].
Qed.

Lemma find_map_Some {A B} (f : A → option B) l b : find_map f l = Some b → ∃ x, x ∈ l ∧ f x = Some b.
Proof.
  induction l as [|x l IH]; cbn; [done|]. destruct (f x) eqn:E; [|intros H'; destruct (IH H') as (y & ? & ?)].
  - intros [= ->]. exists x. split; [by left|done].
  - exists y. split; [by right|done].
Qed.

Lemma find_map_None {A B} (f : A → option B) l : find_map f l = None → ∀ x, x ∈ l → f x = None.
Proof.
  induction l as [|x l IH]; cbn; [intros _ y []%elem_of_nil|]. destruct (f x) eqn:E; [done|].
  intros Hl y [->|Hy]%elem_of_cons; auto.
Qed.

(** The same with the items still to come, for loops over items without repetition. *)
Lemma try_fold_split {A B} (P : list B → A → Prop) (f : A → B → option A) l a a' :
  P [] a →
  (∀ done x rest a a', l = done ++ x :: rest → P done a → f a x = Some a' → P (done ++ [x]) a') →
  try_fold f l a = Some a' → P l a'.
Proof.
  intros H0 Hs E. apply (try_fold_pres (λ done a, done `prefix_of` l → P done a) f l a a'); [done| |done|done].
  intros done x a1 a2 _ IH Hf Hp. pose proof Hp as [rest Er]. rewrite <- app_assoc in Er. cbn in Er.
  apply (Hs done x rest a1 a2 Er); [|done]. apply IH. by eapply prefix_app_l.
Qed.
