(* ===== verification/ReplayWindow.v ===== *)
(** * The anti-replay window of the secure datagram layer

    Models [ReplayWindow256] of easytier-core/src/tunnel/secure_datagram.rs: the
    32-byte bitmap, its bit operations, the in-place shift, [accept] and
    [can_accept].  The width of [usize] is a parameter of the model because the
    code narrows a [u64] difference with [as usize]. *)

From stdpp Require Import base gmap list numbers.
From Stdlib Require Import ZArith Lia.
From S2P Require Import Prelude.
Local Open Scope Z_scope.

Module ReplayWindow256.

Record t : Type := mk {
  max_seq : Z;
  bitmap : list Z;
  valid : bool
}.

#[export] Instance t_eq_dec : EqDecision t.
Proof. solve_decision. Defined.

(** [#[derive(Default)]]. *)
Definition default : t := mk 0 (replicate 32 0) false.

Definition clear (_ : t) : t := mk 0 (replicate 32 0) false.

Definition test_bit (w : t) (idx : Z) : bool :=
  let byte := idx / 8 in
  let bit := idx mod 8 in
  Z.land (Z.shiftr (bitmap w !!! Z.to_nat byte) bit) 1 =? 1.

Definition set_bit (w : t) (idx : Z) : t :=
  let byte := Z.to_nat (idx / 8) in
  let bit := idx mod 8 in
  mk (max_seq w)
     (<[byte := Z.lor (bitmap w !!! byte) (wrap 8 (Z.shiftl 1 bit))]> (bitmap w))
     (valid w).

(** One iteration of the byte loop of [shift_right]. *)
Definition shift_byte_step (byte_shift : nat) (bm : list Z) (i : nat) : list Z :=
  <[i := if (byte_shift <=? i)%nat then bm !!! (i - byte_shift)%nat else 0]> bm.

(** The byte loop runs over [(0..len).rev()], in place. *)
Definition shift_bytes (byte_shift : nat) (bm : list Z) : list Z :=
  foldl (shift_byte_step byte_shift) bm (reverse (seq 0 (length bm))).

(** The bit loop walks the bitmap upwards, threading the carry. *)
Fixpoint shift_bits (bit_shift carry : Z) (bm : list Z) : list Z :=
  match bm with
  | [] => []
  | b :: r =>
      let new_carry := Z.shiftr b (8 - bit_shift) in
      Z.lor (wrap 8 (Z.shiftl b bit_shift)) carry :: shift_bits bit_shift new_carry r
  end.

Definition shift_right (w : t) (shift : Z) : t :=
  if shift =? 0 then w
  else if 256 <=? shift then mk (max_seq w) (replicate 32 0) (valid w)
  else
    let byte_shift := Z.to_nat (shift / 8) in
    let bit_shift := shift mod 8 in
    let bm1 := if (0 <? byte_shift)%nat then shift_bytes byte_shift (bitmap w) else bitmap w in
    let bm2 := if 0 <? bit_shift then shift_bits bit_shift 0 bm1 else bm1 in
    mk (max_seq w) bm2 (valid w).

Section Usize.
(** The number of bits of [usize]: 64 on the desktop and server targets, 32 on
    the 32-bit ones. *)
Context (usize_bits : Z).

Definition accept (w : t) (seq : Z) : t * bool :=
  if negb (valid w) then (set_bit (mk seq (bitmap w) true) 0, true)
  else if max_seq w <? seq then
    let shift := wrap usize_bits (seq - max_seq w) in
    let w1 := shift_right w shift in
    (set_bit (mk seq (bitmap w1) (valid w1)) 0, true)
  else
    let delta := wrap usize_bits (max_seq w - seq) in
    if 256 <=? delta then (w, false)
    else if test_bit w delta then (w, false)
    else (set_bit w delta, true).

Definition can_accept (w : t) (seq : Z) : bool :=
  if negb (valid w) || (max_seq w <? seq) then true
  else
    let delta := wrap usize_bits (max_seq w - seq) in
    (delta <? 256) && negb (test_bit w delta).

(** A run of [accept] calls: the sequence numbers that were accepted, in order. *)
Fixpoint accept_all (w : t) (seqs : list Z) : t * list Z :=
  match seqs with
  | [] => (w, [])
  | s :: r =>
      let '(w1, ok) := accept w s in
      let '(w2, acc) := accept_all w1 r in
      (w2, if ok then s :: acc else acc)
  end.

End Usize.

(** The type invariant: 32 bytes, and an untouched window is all zero. *)
Definition wf (w : t) : Prop :=
  length (bitmap w) = 32%nat ∧ is_bytes (bitmap w) ∧ is_uint 64 (max_seq w) ∧
  (valid w = false → bitmap w = replicate 32 0).

(** ** Bit-level facts *)

Lemma test_bit_testbit w i :
  0 <= i → test_bit w i = Z.testbit (bitmap w !!! Z.to_nat (i / 8)) (i mod 8).
Proof. intros. unfold test_bit. apply land_1_testbit. apply Z.mod_pos_bound. lia. Qed.

Lemma byte_index (i : Z) : 0 <= i < 256 → (Z.to_nat (i / 8) < 32)%nat.
Proof.
  intros. assert (0 <= i / 8 < 32); [|lia].
  split; [apply Z.div_pos; lia | apply Z.div_lt_upper_bound; lia].
Qed.

Lemma byte_index_eq (i j : Z) :
  0 <= i → 0 <= j →
  Z.to_nat (i / 8) = Z.to_nat (j / 8) → i mod 8 = j mod 8 → i = j.
Proof.
  intros Hi Hj Hd Hm. pose proof (Z.div_pos i 8). pose proof (Z.div_pos j 8).
  rewrite (Z.div_mod i 8), (Z.div_mod j 8) by lia. rewrite Hm.
  assert (i / 8 = j / 8) by lia. lia.
Qed.

Lemma test_bit_set_bit w i j :
  length (bitmap w) = 32%nat → 0 <= i < 256 → 0 <= j < 256 →
  test_bit (set_bit w i) j = (i =? j) || test_bit w j.
Proof.
  intros Hlen Hi Hj. rewrite !test_bit_testbit by lia. unfold set_bit; cbn [bitmap].
  pose proof (byte_index i Hi). pose proof (byte_index j Hj).
  pose proof (Z.mod_pos_bound i 8). pose proof (Z.mod_pos_bound j 8).
  destruct (decide (Z.to_nat (i / 8) = Z.to_nat (j / 8))) as [E|E].
  - rewrite E, list_lookup_total_insert_eq by lia.
    rewrite Z.lor_spec, orb_comm. f_equal. unfold wrap.
    rewrite Z.mod_pow2_bits_low, Z.shiftl_1_l, Z.pow2_bits_eqb by lia.
    destruct (Z.eqb_spec (i mod 8) (j mod 8)), (Z.eqb_spec i j); subst; try done.
    exfalso. apply n. by apply byte_index_eq; try lia.
  - rewrite list_lookup_total_insert_ne by done.
    destruct (Z.eqb_spec i j); subst; done.
Qed.

Lemma shift_bytes_loop k bm c m :
  (m + c = length bm)%nat →
  let r := foldl (shift_byte_step k) bm (reverse (seq m c)) in
  length r = length bm ∧
  ∀ i, (i < length bm)%nat →
    r !!! i = if (m <=? i)%nat then (if (k <=? i)%nat then bm !!! (i - k)%nat else 0)
              else bm !!! i.
Proof.
  revert m; induction c as [|c IH]; intros m Hm; simpl.
  - split; [done|]. intros i Hi. by destruct (Nat.leb_spec m i); [lia|].
  - rewrite reverse_cons, foldl_app. simpl.
    destruct (IH (S m)) as [Hl Hi]; [lia|].
    set (r := foldl (shift_byte_step k) bm (reverse (seq (S m) c))) in *.
    unfold shift_byte_step. split; [by rewrite length_insert|].
    intros i Hil. destruct (decide (i = m)) as [->|Hne].
    + rewrite list_lookup_total_insert_eq by lia.
      rewrite Nat.leb_refl. destruct (Nat.leb_spec k m); [|done].
      rewrite Hi by lia. destruct (Nat.leb_spec (S m) (m - k)); [lia|done].
    + rewrite list_lookup_total_insert_ne by done. rewrite Hi by done.
      destruct (Nat.leb_spec (S m) i), (Nat.leb_spec m i); try done; lia.
Qed.

Lemma shift_bytes_lookup k bm i :
  (i < length bm)%nat →
  shift_bytes k bm !!! i = if (k <=? i)%nat then bm !!! (i - k)%nat else 0.
Proof.
  intros Hi. destruct (shift_bytes_loop k bm (length bm) 0) as [_ H]; [lia|].
  unfold shift_bytes. by rewrite H.
Qed.

Lemma shift_bytes_wf k bm :
  is_bytes bm → length (shift_bytes k bm) = length bm ∧ is_bytes (shift_bytes k bm).
Proof.
  intros Hb. destruct (shift_bytes_loop k bm (length bm) 0) as [Hl _]; [lia|].
  split; [done|]. apply (proj2 (Forall_lookup_total _ _)). intros i Hi.
  fold (shift_bytes k bm) in Hl. rewrite shift_bytes_lookup by lia.
  destruct (Nat.leb_spec k i); [apply is_bytes_lookup; [done|lia]|].
  unfold is_byte; lia.
Qed.

Lemma shift_bits_length s c bm : length (shift_bits s c bm) = length bm.
Proof. revert c; induction bm; intros; simpl; auto. Qed.

Lemma shift_bits_bytes s c bm :
  0 <= s <= 8 → is_byte c → is_bytes bm → is_bytes (shift_bits s c bm).
Proof.
  intros Hs Hc Hb; revert c Hc.
  induction Hb; intros c Hc; simpl; constructor; auto with rust.
  apply IHHb. apply shiftr_byte; [done|lia].
Qed.

Lemma shift_bits_lookup s c bm i :
  (i < length bm)%nat →
  shift_bits s c bm !!! i =
    Z.lor (wrap 8 (Z.shiftl (bm !!! i) s))
          (match i with O => c | S i' => Z.shiftr (bm !!! i') (8 - s) end).
Proof.
  revert c i; induction bm as [|b r IH]; intros c i Hi; simpl in Hi; [lia|].
  destruct i as [|i]; [done|]. cbn [shift_bits].
  change ((?x :: ?l) !!! S i) with (l !!! i).
  rewrite IH by lia. by destruct i.
Qed.

Lemma shift_bits_testbit s bm j :
  0 < s < 8 → is_bytes bm → 0 <= j < 8 * Z.of_nat (length bm) →
  Z.testbit (shift_bits s 0 bm !!! Z.to_nat (j / 8)) (j mod 8) =
    (s <=? j) && Z.testbit (bm !!! Z.to_nat ((j - s) / 8)) ((j - s) mod 8).
Proof.
  intros Hs Hb Hj. pose proof (Z.mod_pos_bound j 8) as Hm.
  pose proof (Z.div_mod j 8) as Hdm. pose proof (Z.div_pos j 8).
  assert (j / 8 < Z.of_nat (length bm)) by (apply Z.div_lt_upper_bound; lia).
  rewrite shift_bits_lookup by lia. rewrite Z.lor_spec. unfold wrap.
  rewrite Z.mod_pow2_bits_low, Z.shiftl_spec by lia.
  destruct (Z.leb_spec s (j mod 8)) as [Hle|Hlt].
  - (* the bit stays in its byte, the carry has no such bit *)
    assert ((j - s) / 8 = j / 8 ∧ (j - s) mod 8 = j mod 8 - s) as [-> ->].
    { assert (j - s = 8 * (j / 8) + (j mod 8 - s)) by lia.
      split; symmetry; [eapply Z.div_unique|eapply Z.mod_unique]; eauto; lia. }
    destruct (Z.leb_spec s j) as [_|]; [|lia].
    destruct (Z.to_nat (j / 8)) eqn:E; [rewrite Z.bits_0, orb_false_r; done|].
    rewrite Z.shiftr_spec, (byte_testbit_high _ (j mod 8 + (8 - s))), orb_false_r;
      [done|apply is_bytes_lookup; [done|lia]|lia|lia].
  - rewrite Z.testbit_neg_r by lia. simpl.
    destruct (Z.to_nat (j / 8)) eqn:E.
    + rewrite Z.bits_0. destruct (Z.leb_spec s j); [lia|done].
    + assert ((j - s) / 8 = j / 8 - 1 ∧ (j - s) mod 8 = j mod 8 + (8 - s)) as [-> ->].
      { assert (j - s = 8 * (j / 8 - 1) + (j mod 8 + (8 - s))) by lia.
        split; symmetry; [eapply Z.div_unique|eapply Z.mod_unique]; eauto; lia. }
      destruct (Z.leb_spec s j) as [_|]; [|lia]. simpl.
      replace (Z.to_nat (j / 8 - 1)) with n by lia.
      rewrite Z.shiftr_spec by lia. done.
Qed.

Lemma shift_bytes_testbit k bm j :
  0 <= j < 8 * Z.of_nat (length bm) →
  Z.testbit (shift_bytes k bm !!! Z.to_nat (j / 8)) (j mod 8) =
    (8 * Z.of_nat k <=? j) &&
    Z.testbit (bm !!! Z.to_nat ((j - 8 * Z.of_nat k) / 8)) ((j - 8 * Z.of_nat k) mod 8).
Proof.
  intros Hj. pose proof (Z.div_pos j 8). pose proof (Z.div_mod j 8).
  pose proof (Z.mod_pos_bound j 8).
  assert (j / 8 < Z.of_nat (length bm)) by (apply Z.div_lt_upper_bound; lia).
  rewrite shift_bytes_lookup by lia.
  replace (j - 8 * Z.of_nat k) with (j + (- Z.of_nat k) * 8) by lia.
  rewrite Z.div_add, Z_mod_plus_full by lia.
  destruct (Nat.leb_spec k (Z.to_nat (j / 8))), (Z.leb_spec (8 * Z.of_nat k) j);
    simpl; rewrite ?Z.bits_0; try done; try lia.
  do 2 f_equal. lia.
Qed.

Lemma test_bit_shift_right w s j :
  length (bitmap w) = 32%nat → is_bytes (bitmap w) → 0 <= s → 0 <= j < 256 →
  test_bit (shift_right w s) j = (s <=? j) && test_bit w (j - s).
Proof.
  intros Hlen Hb Hs Hj. unfold shift_right.
  destruct (Z.eqb_spec s 0) as [->|Hs0].
  { destruct (Z.leb_spec 0 j); [|lia]. by rewrite Z.sub_0_r. }
  destruct (Z.leb_spec 256 s) as [Hbig|Hsmall].
  { destruct (Z.leb_spec s j); [lia|]. rewrite test_bit_testbit by lia; cbn [bitmap].
    rewrite lookup_total_replicate_2 by (by apply byte_index). apply Z.bits_0. }
  pose proof (Z.div_mod s 8) as Hdm. pose proof (Z.mod_pos_bound s 8) as Hm.
  pose proof (Z.div_pos s 8) as Hp.
  rewrite test_bit_testbit by lia. cbn [bitmap].
  set (bm1 := if (0 <? Z.to_nat (s / 8))%nat then _ else _).
  assert (Hbm1 : length bm1 = 32%nat ∧ is_bytes bm1 ∧ ∀ j', 0 <= j' < 256 →
    Z.testbit (bm1 !!! Z.to_nat (j' / 8)) (j' mod 8) =
      (8 * (s / 8) <=? j') && Z.testbit (bitmap w !!! Z.to_nat ((j' - 8 * (s / 8)) / 8))
                                ((j' - 8 * (s / 8)) mod 8)).
  { subst bm1. destruct (Nat.ltb_spec 0 (Z.to_nat (s / 8))) as [Hk|Hk].
    - destruct (shift_bytes_wf (Z.to_nat (s / 8)) _ Hb). split_and!; [lia|done|].
      intros j' Hj'. rewrite shift_bytes_testbit by lia. by rewrite Z2Nat.id by lia.
    - assert (s / 8 = 0) as -> by lia. split_and!; [lia|done|]. intros j' Hj'.
      rewrite Z.mul_0_r, Z.sub_0_r. by destruct (Z.leb_spec 0 j'); [|lia]. }
  destruct Hbm1 as (Hl1 & Hb1 & Ht1).
  destruct (Z.ltb_spec 0 (s mod 8)) as [Hbit|Hbit].
  - rewrite shift_bits_testbit by (done || lia).
    destruct (Z.leb_spec (s mod 8) j), (Z.leb_spec s j); simpl; try done; try lia.
    + rewrite Ht1 by lia. destruct (Z.leb_spec (8 * (s / 8)) (j - s mod 8)); [|lia].
      rewrite test_bit_testbit by lia. simpl. by replace (j - s mod 8 - 8 * (s / 8)) with (j - s) by lia.
    + rewrite Ht1 by lia. by destruct (Z.leb_spec (8 * (s / 8)) (j - s mod 8)); [lia|].
  - rewrite Ht1 by lia. replace (8 * (s / 8)) with s by lia.
    destruct (Z.leb_spec s j); simpl; [|done]. by rewrite test_bit_testbit by lia.
Qed.

Lemma shift_right_fields w s :
  max_seq (shift_right w s) = max_seq w ∧ valid (shift_right w s) = valid w.
Proof. unfold shift_right. by repeat case_match. Qed.

Lemma shift_right_bitmap_wf w s :
  length (bitmap w) = 32%nat → is_bytes (bitmap w) → 0 <= s →
  length (bitmap (shift_right w s)) = 32%nat ∧ is_bytes (bitmap (shift_right w s)).
Proof.
  intros Hl Hb Hs. unfold shift_right.
  destruct (s =? 0); [done|]. destruct (256 <=? s); [by split; [|apply is_bytes_replicate]|].
  cbn [bitmap]. pose proof (Z.mod_pos_bound s 8).
  set (bm1 := if (0 <? Z.to_nat (s / 8))%nat then _ else _).
  assert (length bm1 = 32%nat ∧ is_bytes bm1) as [? ?].
  { subst bm1. case_match; [|done].
    destruct (shift_bytes_wf (Z.to_nat (s / 8)) _ Hb). split; [lia|done]. }
  case_match; [|done]. rewrite shift_bits_length. split; [done|].
  apply shift_bits_bytes; [lia| |done]. unfold is_byte; lia.
Qed.

Lemma set_bit_bitmap_wf w i :
  length (bitmap w) = 32%nat → is_bytes (bitmap w) → 0 <= i < 256 →
  length (bitmap (set_bit w i)) = 32%nat ∧ is_bytes (bitmap (set_bit w i)).
Proof.
  intros Hl Hb Hi. unfold set_bit; cbn [bitmap]. rewrite length_insert. split; [done|].
  pose proof (byte_index i Hi). apply is_bytes_insert; [done|].
  apply lor_byte; [|apply wrap_byte]. apply is_bytes_lookup; [done|lia].
Qed.

(** ** The abstract window and the refinement

    The specification remembers the whole set of accepted sequence numbers: a
    number is accepted when it is above all of them, or when it is new and less
    than 256 below the largest. *)

Definition spec_accepts (S : gset Z) (seq : Z) : bool :=
  bool_decide (set_Forall (λ s, s < seq) S) ||
  (bool_decide (seq ∉ S) && bool_decide (set_Forall (λ s, s - seq < 256) S)).

Record refines (w : t) (S : gset Z) : Prop := {
  ref_wf : wf w;
  ref_empty : valid w = false → S = ∅;
  ref_max : valid w = true → max_seq w ∈ S ∧ set_Forall (λ s, s <= max_seq w) S;
  ref_bits : valid w = true →
    ∀ d, 0 <= d < 256 → test_bit w d = bool_decide (max_seq w - d ∈ S)
}.

Lemma wf_default : wf default.
Proof.
  split_and!; [done|apply is_bytes_replicate|unfold is_uint; simpl; lia|done].
Qed.

Lemma refines_default : refines default ∅.
Proof. split; try done; apply wf_default. Qed.

Lemma test_bit_zero w i : bitmap w = replicate 32 0 → 0 <= i < 256 → test_bit w i = false.
Proof.
  intros E Hi. rewrite test_bit_testbit, E by lia.
  rewrite lookup_total_replicate_2 by (by apply byte_index). apply Z.bits_0.
Qed.

Lemma set_bit_fields w i :
  max_seq (set_bit w i) = max_seq w ∧ valid (set_bit w i) = valid w.
Proof. done. Qed.

Lemma spec_accepts_fresh S seq : spec_accepts S seq = true → seq ∉ S.
Proof.
  unfold spec_accepts. intros [H|H]%orb_true_iff.
  - apply bool_decide_eq_true in H. intros Hin. specialize (H seq Hin). simpl in H. lia.
  - apply andb_true_iff in H as [H _]. by apply bool_decide_eq_true in H.
Qed.

Lemma spec_accepts_above S s seq :
  s ∈ S → set_Forall (λ x, x <= s) S → s < seq → spec_accepts S seq = true.
Proof.
  intros _ Hmax Hlt. unfold spec_accepts. apply orb_true_iff. left.
  apply bool_decide_eq_true. intros x Hx. specialize (Hmax x Hx). simpl in *. lia.
Qed.

Lemma spec_accepts_below S s seq :
  s ∈ S → set_Forall (λ x, x <= s) S → seq <= s →
  spec_accepts S seq = bool_decide (seq ∉ S) && (s - seq <? 256).
Proof.
  intros Hs Hmax Hle. unfold spec_accepts.
  rewrite (bool_decide_eq_false_2 (set_Forall (λ x, x < seq) S))
    by (intros H; specialize (H s Hs); simpl in H; lia). simpl. f_equal.
  destruct (Z.ltb_spec (s - seq) 256).
  - apply bool_decide_eq_true. intros x Hx. specialize (Hmax x Hx). simpl in *. lia.
  - apply bool_decide_eq_false. intros H'. specialize (H' s Hs). simpl in H'. lia.
Qed.

(** Recording a sequence number below the current maximum. *)
Lemma refines_set_low w S d :
  refines w S → valid w = true → 0 <= d < 256 → is_uint 64 (max_seq w - d) →
  refines (set_bit w d) ({[max_seq w - d]} ∪ S).
Proof.
  intros [Hwf He Hm Hb] Hv Hd Hr. destruct Hwf as (Hl & Hby & Hmx & _).
  destruct (set_bit_bitmap_wf w d Hl Hby Hd) as [Hl' Hby'].
  destruct (Hm Hv) as [Hin Hall]. specialize (Hb Hv).
  split.
  - split_and!; [done|done|done|]. cbn. congruence.
  - cbn. congruence.
  - intros _. cbn. split; [auto with rust|]. intros x Hx.
    apply elem_of_union in Hx as [Hx%elem_of_singleton|Hx]; [subst; lia|by apply Hall].
  - intros _ d' Hd'. cbn [max_seq set_bit]. rewrite test_bit_set_bit, Hb by done.
    destruct (Z.eqb_spec d d') as [->|Hne]; simpl.
    + symmetry. apply bool_decide_eq_true. rewrite ?Z.sub_0_r. auto with rust.
    + apply bool_decide_ext. rewrite elem_of_union, elem_of_singleton. split; [auto|].
      intros [?|?]; [lia|done].
Qed.

(** Moving the window up to a new maximum. *)
Lemma refines_new_max w S seq :
  refines w S → valid w = true → max_seq w < seq → is_uint 64 seq →
  refines (set_bit (mk seq (bitmap (shift_right w (seq - max_seq w))) true) 0) ({[seq]} ∪ S).
Proof.
  intros [Hwf He Hm Hb] Hv Hlt Hs. destruct Hwf as (Hl & Hby & Hmx & _).
  destruct (shift_right_bitmap_wf w (seq - max_seq w) Hl Hby) as [Hl1 Hb1]; [lia|].
  set (w1 := mk seq (bitmap (shift_right w (seq - max_seq w))) true).
  destruct (set_bit_bitmap_wf w1 0) as [Hl2 Hb2]; [done|done|lia|].
  destruct (Hm Hv) as [Hin Hall]. specialize (Hb Hv). split.
  - by split_and!.
  - done.
  - intros _. cbn. split; [auto with rust|]. intros x Hx.
    apply elem_of_union in Hx as [->%elem_of_singleton|Hx]; [lia|].
    specialize (Hall x Hx). simpl in Hall. lia.
  - intros _ d Hd. cbn [max_seq set_bit w1]. rewrite test_bit_set_bit by (done || lia).
    destruct (Z.eqb_spec 0 d) as [<-|Hne]; simpl.
    { symmetry. apply bool_decide_eq_true. rewrite ?Z.sub_0_r. auto with rust. }
    change (test_bit w1 d) with (test_bit (shift_right w (seq - max_seq w)) d).
    rewrite test_bit_shift_right by (done || lia).
    destruct (Z.leb_spec (seq - max_seq w) d); simpl.
    + rewrite Hb by lia. replace (max_seq w - (d - (seq - max_seq w))) with (seq - d) by lia.
      apply bool_decide_ext. rewrite elem_of_union, elem_of_singleton. split; [auto|].
      intros [?|?]; [lia|done].
    + symmetry. apply bool_decide_eq_false. rewrite elem_of_union, elem_of_singleton.
      intros [?|Hx]; [lia|]. specialize (Hall _ Hx). simpl in Hall. lia.
Qed.

(** The first sequence number of an untouched window. *)
Lemma refines_first w S seq :
  refines w S → valid w = false → is_uint 64 seq →
  refines (set_bit (mk seq (bitmap w) true) 0) ({[seq]} ∪ S).
Proof.
  intros [(Hl & Hby & Hmx & Hz) He _ _] Hv Hs. specialize (Hz Hv). rewrite (He Hv).
  destruct (set_bit_bitmap_wf (mk seq (bitmap w) true) 0) as [Hl2 Hb2]; [done|done|lia|].
  split.
  - by split_and!.
  - done.
  - intros _. cbn. split; [auto with rust|]. intros x Hx. apply elem_of_union in Hx as [->%elem_of_singleton|[]%not_elem_of_empty]; lia.
  - intros _ d Hd. cbn [max_seq set_bit]. rewrite test_bit_set_bit by (done || lia).
    rewrite test_bit_zero, orb_false_r by (cbn; done || lia).
    destruct (Z.eqb_spec 0 d) as [<-|Hne]; symmetry;
      [apply bool_decide_eq_true; rewrite Z.sub_0_r; auto with rust|apply bool_decide_eq_false].
    rewrite elem_of_union, elem_of_singleton. intros [?|[]%not_elem_of_empty]; lia.
Qed.

Lemma wrap_u64_diff a b : is_uint 64 a → is_uint 64 b → b <= a → wrap 64 (a - b) = a - b.
Proof. unfold is_uint, wrap. intros. apply Z.mod_small. lia. Qed.

Lemma accept_refines_aux w S seq :
  refines w S → is_uint 64 seq →
  snd (accept 64 w seq) = spec_accepts S seq ∧
  refines (fst (accept 64 w seq)) (if spec_accepts S seq then {[seq]} ∪ S else S).
Proof.
  intros HR Hs. pose proof HR as [(Hl & Hby & Hmx & Hz) He Hm Hb]. unfold accept.
  destruct (valid w) eqn:Hv; simpl.
  - destruct (Hm eq_refl) as [Hin Hall]. destruct (Z.ltb_spec (max_seq w) seq) as [Hlt|Hge].
    + rewrite (spec_accepts_above S (max_seq w) seq) by done. split; [done|].
      rewrite wrap_u64_diff by (done || lia).
      destruct (shift_right_fields w (seq - max_seq w)) as [_ ->]. rewrite Hv.
      by apply refines_new_max.
    + rewrite (spec_accepts_below S (max_seq w) seq) by done.
      rewrite wrap_u64_diff by (done || lia).
      destruct (Z.leb_spec 256 (max_seq w - seq)) as [Hfar|Hnear].
      { destruct (Z.ltb_spec (max_seq w - seq) 256); [lia|]. by rewrite andb_false_r. }
      destruct (Z.ltb_spec (max_seq w - seq) 256) as [_|]; [|lia]. rewrite andb_true_r.
      rewrite Hb by (done || lia). replace (max_seq w - (max_seq w - seq)) with seq by lia.
      destruct (decide (seq ∈ S)).
      * rewrite bool_decide_eq_true_2 by done. rewrite bool_decide_eq_false_2 by auto. done.
      * rewrite bool_decide_eq_false_2 by done. rewrite bool_decide_eq_true_2 by done.
        split; [done|]. simpl. pose proof (refines_set_low w S (max_seq w - seq)) as Hlow.
        replace (max_seq w - (max_seq w - seq)) with seq in Hlow by lia.
        apply Hlow; (done || lia).
  - rewrite (He eq_refl) in *. split; [done|]. simpl. by apply refines_first.
Qed.

Lemma accept_all_spec w S seqs :
  refines w S → Forall (is_uint 64) seqs →
  NoDup (snd (accept_all 64 w seqs)) ∧
  (∀ x, x ∈ snd (accept_all 64 w seqs) → (x ∉ S) ∧ (x ∈ seqs)) ∧
  refines (fst (accept_all 64 w seqs)) (list_to_set (snd (accept_all 64 w seqs)) ∪ S).
Proof.
  intros HR Hall. revert w S HR. induction Hall as [|s r Hs Hr IH]; intros w S HR; simpl.
  { split_and!; [constructor|by intros x ?%elem_of_nil|by rewrite union_empty_l_L]. }
  destruct (accept_refines_aux w S s HR Hs) as [Hb HR1].
  destruct (accept 64 w s) as [w1 ok] eqn:E1; simpl in *. subst ok.
  destruct (accept_all 64 w1 r) as [w2 acc] eqn:E2; simpl.
  pose proof (spec_accepts_fresh S s) as Hfresh.
  specialize (IH _ _ HR1). rewrite E2 in IH. simpl in IH. destruct IH as (Hnd & Hsub & HR2).
  destruct (spec_accepts S s).
  - split_and!.
    + constructor; [|done]. intros [Hin _]%Hsub. auto with rust.
    + intros x [->|Hx]%elem_of_cons; [split; [auto|left]|].
      apply Hsub in Hx as [Hx ?]. rewrite elem_of_cons. split; auto with rust.
    + simpl. by replace ({[s]} ∪ list_to_set acc ∪ S) with (list_to_set acc ∪ ({[s]} ∪ S))
        by (clear; set_solver).
  - split_and!; [done| |done]. intros x [? ?]%Hsub. rewrite elem_of_cons. auto.
Qed.

(** C2: the bit-packed window implements the abstract window: from related
    states [accept] decides as the specification does, and the new states are
    related again, on a target whose [usize] has 64 bits. *)
Theorem accept_refines_spec w S seq :
  refines w S → is_uint 64 seq →
  snd (accept 64 w seq) = spec_accepts S seq ∧
  refines (fst (accept 64 w seq)) (if spec_accepts S seq then {[seq]} ∪ S else S).
Proof. apply accept_refines_aux. Qed.

Lemma accept_refines_spec_witness :
  snd (accept 64 default 7) = true ∧
  refines (fst (accept 64 default 7)) ({[7]} ∪ ∅).
Proof.
  apply (accept_refines_spec default ∅ 7 refines_default).
  unfold is_uint. split; [lia|reflexivity].
Defined.

(** No replay: over any run of [accept] calls on a fresh window, no sequence
    number is accepted twice, and the final window records exactly the accepted
    numbers. *)
Theorem accept_never_twice seqs :
  Forall (is_uint 64) seqs →
  NoDup (snd (accept_all 64 default seqs)) ∧
  refines (fst (accept_all 64 default seqs)) (list_to_set (snd (accept_all 64 default seqs))).
Proof.
  intros H. destruct (accept_all_spec default ∅ seqs refines_default H) as (Hn & _ & HR).
  split; [done|]. by rewrite union_empty_r_L in HR.
Qed.

Lemma accept_never_twice_witness :
  snd (accept_all 64 default [5; 5; 300; 5; 299; 299]) = [5; 300; 299] ∧
  NoDup (snd (accept_all 64 default [5; 5; 300; 5; 299; 299])).
Proof.
  split; [vm_compute; reflexivity|]. apply accept_never_twice.
  repeat constructor; unfold is_uint; try lia.
Defined.

(** The read-only check agrees with the committing one, whatever the width of
    [usize]. *)
Lemma can_accept_accept ub w seq : can_accept ub w seq = snd (accept ub w seq).
Proof.
  unfold can_accept, accept. destruct (valid w); simpl; [|done].
  destruct (max_seq w <? seq); [done|].
  set (d := wrap ub (max_seq w - seq)).
  destruct (Z.leb_spec 256 d), (Z.ltb_spec d 256); try lia; [done|].
  by destruct (test_bit w d).
Qed.

Lemma accept_wf ub w seq : 0 <= ub → wf w → is_uint 64 seq → wf (fst (accept ub w seq)).
Proof.
  intros Hub Hwf Hs. pose proof Hwf as (Hl & Hby & Hmx & Hz). unfold accept.
  assert (Hpos : ∀ x, 0 <= wrap ub x).
  { intros x. unfold wrap. apply Z.mod_pos_bound, Z.pow_pos_nonneg; lia. }
  destruct (valid w) eqn:Hv; simpl.
  - destruct (Z.ltb_spec (max_seq w) seq); simpl.
    + destruct (shift_right_bitmap_wf w (wrap ub (seq - max_seq w)) Hl Hby) as [? ?]; [auto|].
      destruct (shift_right_fields w (wrap ub (seq - max_seq w))) as [_ ->].
      match goal with |- wf (set_bit ?w1 0) =>
        destruct (set_bit_bitmap_wf w1 0) as [? ?]; [done|done|lia|] end.
      split_and!; [done|done|done|]. cbn. congruence.
    + destruct (Z.leb_spec 256 (wrap ub (max_seq w - seq))); [done|].
      destruct (test_bit w _); [done|].
      destruct (set_bit_bitmap_wf w (wrap ub (max_seq w - seq)) Hl Hby) as [? ?]; [auto|].
      split_and!; [done|done|done|]. cbn. congruence.
  - destruct (set_bit_bitmap_wf (mk seq (bitmap w) true) 0) as [? ?]; [done|done|lia|].
    split_and!; [done|done|done|done].
Qed.

(** On a target whose [usize] has 32 bits the [as usize] narrowing of the
    distance breaks the window: once the maximum has moved past 2^32 a number that
    was accepted 2^32 + 5 positions ago is accepted a second time, while a 64-bit
    [usize] rejects it. *)
Theorem accept_replays_on_32_bit_usize :
  snd (accept_all 32 default [0; 2 ^ 31; 5 + 2 ^ 32; 0]) = [0; 2 ^ 31; 5 + 2 ^ 32; 0] ∧
  snd (accept_all 64 default [0; 2 ^ 31; 5 + 2 ^ 32; 0]) = [0; 2 ^ 31; 5 + 2 ^ 32].
Proof. split; vm_compute; reflexivity. Qed.
End ReplayWindow256.
