(* ===== verification/Packet.v ===== *)
(** * Tunnel packets and their headers

    Models easytier-core/src/packet/mod.rs and packet/hole_punch.rs: the packed
    little-endian headers, the header flags, the header offsets of every packet
    type, and [ZCPacket], the buffer that is re-framed in place when a packet moves
    between tunnels.  A packet buffer is a list of bytes; a panic (an index out of
    range, [unwrap] on [None], [unreachable!]) is [None] of the option type.
    Memory exposed by [set_len] on an uninitialised buffer is an argument [uninit]. *)

From stdpp Require Import base gmap list numbers.
From Stdlib Require Import ZArith Lia.
From S2P Require Import Prelude.
Local Open Scope Z_scope.

(** ** Addresses and flow keys *)

Inductive IpAddr : Type :=
| IpV4 (bits : Z)
| IpV6 (bits : Z).

#[export] Instance IpAddr_eq_dec : EqDecision IpAddr.
Proof. solve_decision. Defined.

(** An address with the length of its network (config/mod.rs). *)
Record IpPrefix : Type := mkPrefix { prefix_address : IpAddr; prefix_len : Z }.

Record SocketAddr : Type := mkSocketAddr { sa_ip : IpAddr; sa_port : Z }.

#[export] Instance SocketAddr_eq_dec : EqDecision SocketAddr.
Proof. solve_decision. Defined.

#[export] Instance ip_addr_countable : Countable IpAddr.
Proof.
  apply (inj_countable' (λ a, match a with IpV4 b => inl b | IpV6 b => inr b end)
    (λ s, match s with inl b => IpV4 b | inr b => IpV6 b end)). by intros [].
Defined.

#[export] Instance socket_addr_countable : Countable SocketAddr.
Proof. apply (inj_countable' (λ a, (sa_ip a, sa_port a)) (λ p, mkSocketAddr p.1 p.2)). by intros []. Defined.

Record FlowKey : Type := mkFlowKey {
  fk_src : SocketAddr;
  fk_dst : SocketAddr;
  fk_protocol : Z
}.

(** ** Sizes *)

Definition TCP_TUNNEL_HEADER_SIZE : Z := 4.
Definition UDP_TUNNEL_HEADER_SIZE : Z := 8.
Definition WG_TUNNEL_HEADER_SIZE : Z := 20.
Definition PEER_MANAGER_HEADER_SIZE : Z := 16.
Definition FOREIGN_NETWORK_HEADER_SIZE : Z := 10.
Definition AEAD_TAG_SIZE : Z := 16.
Definition AEAD_NONCE_SIZE : Z := 12.
Definition AEAD_TAIL_SIZE : Z := AEAD_TAG_SIZE + AEAD_NONCE_SIZE.
Definition COMPRESSOR_TAIL_SIZE : Z := 1.
Definition TAIL_RESERVED_SIZE : Z := Z.max AEAD_TAIL_SIZE COMPRESSOR_TAIL_SIZE.

(** ** Packet types *)

Inductive UdpPacketType : Type :=
| UdpInvalid | UdpSyn | UdpSack | UdpData | UdpFin | UdpHolePunch
| UdpV4HolePunch | UdpV6HolePunch.

Definition udp_packet_type_u8 (t : UdpPacketType) : Z :=
  match t with
  | UdpInvalid => 0 | UdpSyn => 1 | UdpSack => 2 | UdpData => 3 | UdpFin => 4
  | UdpHolePunch => 5 | UdpV4HolePunch => 6 | UdpV6HolePunch => 7
  end.

Inductive PacketType : Type :=
| Invalid | Data | HandShake | RoutePacket | Ping | Pong | TaRpc | Route | RpcReq | RpcResp
| ForeignNetworkPacket | KcpSrc | KcpDst | QuicSrc | QuicDst
| NoiseHandshakeMsg1 | NoiseHandshakeMsg2 | NoiseHandshakeMsg3
| RelayHandshake | RelayHandshakeAck | DataWithKcpSrcModified | DataWithQuicSrcModified.

Definition packet_type_u8 (t : PacketType) : Z :=
  match t with
  | Invalid => 0 | Data => 1 | HandShake => 2 | RoutePacket => 3 | Ping => 4 | Pong => 5
  | TaRpc => 6 | Route => 7 | RpcReq => 8 | RpcResp => 9 | ForeignNetworkPacket => 10
  | KcpSrc => 11 | KcpDst => 12 | QuicSrc => 16 | QuicDst => 17
  | NoiseHandshakeMsg1 => 13 | NoiseHandshakeMsg2 => 14 | NoiseHandshakeMsg3 => 15
  | RelayHandshake => 20 | RelayHandshakeAck => 21
  | DataWithKcpSrcModified => 18 | DataWithQuicSrcModified => 19
  end.

(** ** Header flags *)

Module Flags.
Definition ENCRYPTED : Z := 1.
Definition LATENCY_FIRST : Z := 2.
Definition EXIT_NODE : Z := 4.
Definition NO_PROXY : Z := 8.
Definition COMPRESSED : Z := 16.
Definition LIVENESS_PROBE : Z := 32.
Definition NOT_SEND_TO_TUN : Z := 64.
Definition LIVENESS_ECHO : Z := 128.

(** The bitflags operations; every bit is declared ([const _ = !0]), so
    [from_bits] never fails. *)
Definition contains (flags m : Z) : bool := Z.land flags m =? m.
Definition insert (flags m : Z) : Z := Z.lor flags m.
Definition remove (flags m : Z) : Z := Z.ldiff flags m.
Definition put (flags m : Z) (b : bool) : Z := if b then insert flags m else remove flags m.
End Flags.

(** ** The peer manager header *)

Module PeerManagerHeader.

Record t : Type := mk {
  from_peer_id : Z;
  to_peer_id : Z;
  packet_type : Z;
  flags : Z;
  forward_counter : Z;
  reserved : Z;
  hdr_len : Z
}.

(** The packed, little-endian layout of the struct. *)
Definition to_bytes (h : t) : list Z :=
  to_le 4 (from_peer_id h) ++ to_le 4 (to_peer_id h) ++
  [packet_type h; flags h; forward_counter h; reserved h] ++ to_le 4 (hdr_len h).

Definition from_prefix (l : list Z) : option t :=
  if len l <? PEER_MANAGER_HEADER_SIZE then None
  else Some {|
    from_peer_id := from_le (take 4 l);
    to_peer_id := from_le (take 4 (drop 4 l));
    packet_type := l !!! 8%nat;
    flags := l !!! 9%nat;
    forward_counter := l !!! 10%nat;
    reserved := l !!! 11%nat;
    hdr_len := from_le (take 4 (drop 12 l))
  |}.

Definition with_flags (h : t) (f : Z) : t :=
  mk (from_peer_id h) (to_peer_id h) (packet_type h) f (forward_counter h) (reserved h)
     (hdr_len h).

Definition with_reserved (h : t) (r : Z) : t :=
  mk (from_peer_id h) (to_peer_id h) (packet_type h) (flags h) (forward_counter h) r
     (hdr_len h).

Definition with_packet_type (h : t) (p : Z) : t :=
  mk (from_peer_id h) (to_peer_id h) p (flags h) (forward_counter h) (reserved h) (hdr_len h).

Definition is_encrypted (h : t) : bool := Flags.contains (flags h) Flags.ENCRYPTED.
Definition set_encrypted (h : t) (encrypted : bool) : t :=
  with_flags h (Flags.put (flags h) Flags.ENCRYPTED encrypted).
Definition is_latency_first (h : t) : bool := Flags.contains (flags h) Flags.LATENCY_FIRST.
Definition is_exit_node (h : t) : bool := Flags.contains (flags h) Flags.EXIT_NODE.
Definition is_no_proxy (h : t) : bool := Flags.contains (flags h) Flags.NO_PROXY.
Definition is_compressed (h : t) : bool := Flags.contains (flags h) Flags.COMPRESSED.
Definition set_latency_first (h : t) (latency_first : bool) : t :=
  with_flags h (Flags.put (flags h) Flags.LATENCY_FIRST latency_first).
Definition set_exit_node (h : t) (exit_node : bool) : t :=
  with_flags h (Flags.put (flags h) Flags.EXIT_NODE exit_node).
Definition set_no_proxy (h : t) (no_proxy : bool) : t :=
  with_flags h (Flags.put (flags h) Flags.NO_PROXY no_proxy).
Definition set_compressed (h : t) (compressed : bool) : t :=
  with_flags h (Flags.put (flags h) Flags.COMPRESSED compressed).

Definition liveness_probe_token (h : t) : option Z :=
  if Flags.contains (flags h) Flags.LIVENESS_PROBE then Some (reserved h) else None.
Definition liveness_echo_token (h : t) : option Z :=
  if Flags.contains (flags h) Flags.LIVENESS_ECHO then Some (reserved h) else None.

Definition clear_liveness_marker (h : t) : t :=
  with_reserved
    (with_flags h (Flags.remove (flags h) (Z.lor Flags.LIVENESS_PROBE Flags.LIVENESS_ECHO))) 0.

Definition set_liveness_marker (h : t) (marker token : Z) : t :=
  let h1 := clear_liveness_marker h in
  with_reserved (with_flags h1 (Flags.insert (flags h1) marker)) token.

Definition set_liveness_probe (h : t) (token : Z) : t :=
  set_liveness_marker h Flags.LIVENESS_PROBE token.
Definition set_liveness_echo (h : t) (token : Z) : t :=
  set_liveness_marker h Flags.LIVENESS_ECHO token.

(** [assert_eq!] on the current type, then the internal type. *)
Definition mark_kcp_src_modified (h : t) : option t :=
  if packet_type h =? packet_type_u8 Data
  then Some (with_packet_type h (packet_type_u8 DataWithKcpSrcModified)) else None.
Definition mark_quic_src_modified (h : t) : option t :=
  if packet_type h =? packet_type_u8 Data
  then Some (with_packet_type h (packet_type_u8 DataWithQuicSrcModified)) else None.

Definition set_not_send_to_tun (h : t) (not_send_to_tun : bool) : t :=
  with_flags h (Flags.put (flags h) Flags.NOT_SEND_TO_TUN not_send_to_tun).
Definition is_not_send_to_tun (h : t) : bool := Flags.contains (flags h) Flags.NOT_SEND_TO_TUN.

Definition wf (h : t) : Prop :=
  is_uint 32 (from_peer_id h) ∧ is_uint 32 (to_peer_id h) ∧ is_byte (packet_type h) ∧
  is_byte (flags h) ∧ is_byte (forward_counter h) ∧ is_byte (reserved h) ∧
  is_uint 32 (hdr_len h).

End PeerManagerHeader.

(** ** The UDP tunnel header *)

Module UDPTunnelHeader.

Record t : Type := mk { conn_id : Z; msg_type : Z; padding : Z; udp_len : Z }.

Definition to_bytes (h : t) : list Z :=
  to_le 4 (conn_id h) ++ [msg_type h; padding h] ++ to_le 2 (udp_len h).

Definition from_prefix (l : list Z) : option t :=
  if len l <? UDP_TUNNEL_HEADER_SIZE then None
  else Some {|
    conn_id := from_le (take 4 l);
    msg_type := l !!! 4%nat;
    padding := l !!! 5%nat;
    udp_len := from_le (take 2 (drop 6 l))
  |}.

End UDPTunnelHeader.

(** ** The foreign network header *)

Module ForeignNetworkPacketHeader.

Record t : Type := mk {
  header_len : Z;
  dst_peer_id : Z;
  network_name_offset : Z;
  network_name_len : Z
}.

Definition to_bytes (h : t) : list Z :=
  to_le 2 (header_len h) ++ to_le 4 (dst_peer_id h) ++ to_le 2 (network_name_offset h) ++
  to_le 2 (network_name_len h).

Definition from_prefix (l : list Z) : option t :=
  if len l <? FOREIGN_NETWORK_HEADER_SIZE then None
  else Some {|
    header_len := from_le (take 2 l);
    dst_peer_id := from_le (take 4 (drop 2 l));
    network_name_offset := from_le (take 2 (drop 6 l));
    network_name_len := from_le (take 2 (drop 8 l))
  |}.

(** [network_name.len() as u16] truncates; the u16 sum wraps. *)
Definition new (dst : Z) (network_name : list Z) : t :=
  let offset := wrap 16 FOREIGN_NETWORK_HEADER_SIZE in
  let name_len := wrap 16 (len network_name) in
  {| header_len := wrapping_add 16 offset name_len;
     dst_peer_id := dst;
     network_name_offset := offset;
     network_name_len := name_len |}.

(** The name as bytes: the slice panics when out of range; [from_utf8] of the
    standard library then validates it, which is the argument [utf8_valid]. *)
Definition get_network_name (utf8_valid : list Z → bool) (h : t) (payload : list Z)
    : option (list Z) :=
  name ← slice_range payload (network_name_offset h)
           (network_name_offset h + network_name_len h);
  if utf8_valid name then Some name else None.

Definition get_dst_peer_id (h : t) : Z := dst_peer_id h.
Definition get_header_len (h : t) : Z := header_len h.

End ForeignNetworkPacketHeader.

(** ** Compression algorithms *)

Inductive CompressorAlgo : Type := CompressNone | ZstdDefault.

Definition compressor_algo_u8 (a : CompressorAlgo) : Z :=
  match a with CompressNone => 0 | ZstdDefault => 1 end.

Inductive CompressionAlgoPb : Type := PbInvalid | PbNone | PbZstd.

Definition compressor_algo_try_from (v : CompressionAlgoPb)
    : result CompressorAlgo CompressionAlgoPb :=
  match v with
  | PbZstd => Ok ZstdDefault
  | PbNone => Ok CompressNone
  | PbInvalid => Err v
  end.

Definition compression_algo_pb_try_from (v : CompressorAlgo) : CompressionAlgoPb :=
  match v with ZstdDefault => PbZstd | CompressNone => PbNone end.

(** [CompressorAlgo::is_available] depends on the build feature for zstd. *)
Definition compressor_is_available (zstd_available : bool) (a : CompressorAlgo) : bool :=
  match a with CompressNone => true | ZstdDefault => zstd_available end.

Definition compressor_tail_get_algo (algo : Z) : option CompressorAlgo :=
  if algo =? 1 then Some ZstdDefault else None.
Definition compressor_tail_new (a : CompressorAlgo) : Z := compressor_algo_u8 a.

(** ** Offsets *)

Inductive ZCPacketType : Type := TCP | UDP | WG | NIC | DummyTunnel.

#[export] Instance ZCPacketType_eq_dec : EqDecision ZCPacketType.
Proof. solve_decision. Defined.

Record ZCPacketOffsets : Type := mkOffsets {
  payload_offset_of : Z;
  peer_manager_header_offset : Z;
  tcp_tunnel_header_offset : Z;
  udp_tunnel_header_offset : Z;
  wg_tunnel_header_offset : Z;
  dummy_tunnel_header_offset : Z
}.

Definition PAYLOAD_OFFSET_FOR_NIC_PACKET : Z :=
  Z.max (Z.max TCP_TUNNEL_HEADER_SIZE UDP_TUNNEL_HEADER_SIZE) WG_TUNNEL_HEADER_SIZE
  + PEER_MANAGER_HEADER_SIZE.

Definition INVALID_OFFSET : Z := uint_max 64.

Definition get_converted_offset (old_hdr_size new_hdr_size : Z) : Z :=
  if old_hdr_size <? new_hdr_size then INVALID_OFFSET else old_hdr_size - new_hdr_size.

Definition get_packet_offsets (t : ZCPacketType) : ZCPacketOffsets :=
  match t with
  | TCP => mkOffsets
      (TCP_TUNNEL_HEADER_SIZE + PEER_MANAGER_HEADER_SIZE)
      TCP_TUNNEL_HEADER_SIZE
      0
      (get_converted_offset TCP_TUNNEL_HEADER_SIZE UDP_TUNNEL_HEADER_SIZE)
      (get_converted_offset TCP_TUNNEL_HEADER_SIZE WG_TUNNEL_HEADER_SIZE)
      (get_converted_offset TCP_TUNNEL_HEADER_SIZE 0)
  | UDP => mkOffsets
      (UDP_TUNNEL_HEADER_SIZE + PEER_MANAGER_HEADER_SIZE)
      UDP_TUNNEL_HEADER_SIZE
      (get_converted_offset UDP_TUNNEL_HEADER_SIZE TCP_TUNNEL_HEADER_SIZE)
      0
      (get_converted_offset UDP_TUNNEL_HEADER_SIZE WG_TUNNEL_HEADER_SIZE)
      (get_converted_offset UDP_TUNNEL_HEADER_SIZE 0)
  | WG => mkOffsets
      (WG_TUNNEL_HEADER_SIZE + PEER_MANAGER_HEADER_SIZE)
      WG_TUNNEL_HEADER_SIZE
      (get_converted_offset WG_TUNNEL_HEADER_SIZE TCP_TUNNEL_HEADER_SIZE)
      (get_converted_offset WG_TUNNEL_HEADER_SIZE UDP_TUNNEL_HEADER_SIZE)
      0
      (get_converted_offset WG_TUNNEL_HEADER_SIZE 0)
  | NIC => mkOffsets
      PAYLOAD_OFFSET_FOR_NIC_PACKET
      (PAYLOAD_OFFSET_FOR_NIC_PACKET - PEER_MANAGER_HEADER_SIZE)
      (PAYLOAD_OFFSET_FOR_NIC_PACKET - PEER_MANAGER_HEADER_SIZE - TCP_TUNNEL_HEADER_SIZE)
      (PAYLOAD_OFFSET_FOR_NIC_PACKET - PEER_MANAGER_HEADER_SIZE - UDP_TUNNEL_HEADER_SIZE)
      (PAYLOAD_OFFSET_FOR_NIC_PACKET - PEER_MANAGER_HEADER_SIZE - WG_TUNNEL_HEADER_SIZE)
      (PAYLOAD_OFFSET_FOR_NIC_PACKET - PEER_MANAGER_HEADER_SIZE)
  | DummyTunnel => mkOffsets
      PEER_MANAGER_HEADER_SIZE
      0
      (get_converted_offset 0 TCP_TUNNEL_HEADER_SIZE)
      (get_converted_offset 0 UDP_TUNNEL_HEADER_SIZE)
      (get_converted_offset 0 WG_TUNNEL_HEADER_SIZE)
      0
  end.

(** ** The packet buffer *)

Module ZCPacket.

Record t : Type := mk {
  inner : list Z;
  packet_type : ZCPacketType;
  flow_key : option FlowKey
}.

Definition with_inner (p : t) (buf : list Z) : t := mk buf (packet_type p) (flow_key p).

Definition bytes_from_offset (p : t) (offset : Z) : option (list Z) :=
  slice_from (inner p) offset.

Definition new_nic_packet : t := mk [] NIC None.

Definition new_from_buf (buf : list Z) (ty : ZCPacketType) : t := mk buf ty None.

(** [reserve(n)] and [set_len(n)] on an empty buffer expose [n] unspecified bytes. *)
Definition set_len (uninit : list Z) (n : Z) : list Z := resize (Z.to_nat n) 0 uninit.

Definition payload_offset (p : t) : Z := payload_offset_of (get_packet_offsets (packet_type p)).

Definition payload (p : t) : option (list Z) := slice_from (inner p) (payload_offset p).

(** [mut_payload()[a..b].copy_from_slice(src)]. *)
Definition write_payload (p : t) (a b : Z) (src : list Z) : option t :=
  buf ← write_range (inner p) (payload_offset p + a) (payload_offset p + b) src;
  Some (with_inner p buf).

(** [payload_len] is a usize subtraction. *)
Definition payload_len (p : t) : Z := wrap 64 (len (inner p) - payload_offset p).

Definition buf_len (p : t) : Z := len (inner p).

Definition new_with_payload (uninit pl : list Z) : option t :=
  let ret := new_nic_packet in
  let payload_off := payload_offset ret in
  let total_len := payload_off + len pl in
  let ret := with_inner ret (set_len uninit total_len) in
  write_payload ret 0 (len (inner ret) - payload_off) pl.

Definition new_for_tun (uninit : list Z) (packet_info_len : Z) : t :=
  let ret := new_nic_packet in
  let total_len := wrap 64 (payload_offset ret - packet_info_len) in
  with_inner ret (set_len uninit total_len).

Definition peer_manager_header (p : t) : option PeerManagerHeader.t :=
  bytes ← bytes_from_offset p (peer_manager_header_offset (get_packet_offsets (packet_type p)));
  PeerManagerHeader.from_prefix bytes.

(** A mutation through [mut_peer_manager_header]: the header is rewritten in the
    buffer; [None] when the buffer has no header. *)
Definition update_peer_manager_header (p : t) (f : PeerManagerHeader.t → PeerManagerHeader.t)
    : option t :=
  let off := peer_manager_header_offset (get_packet_offsets (packet_type p)) in
  hdr ← peer_manager_header p;
  buf ← write_range (inner p) off (off + PEER_MANAGER_HEADER_SIZE)
          (PeerManagerHeader.to_bytes (f hdr));
  Some (with_inner p buf).

Definition udp_tunnel_header (p : t) : option UDPTunnelHeader.t :=
  bytes ← bytes_from_offset p (udp_tunnel_header_offset (get_packet_offsets (packet_type p)));
  UDPTunnelHeader.from_prefix bytes.

Definition update_udp_tunnel_header (p : t) (f : UDPTunnelHeader.t → UDPTunnelHeader.t)
    : option t :=
  let off := udp_tunnel_header_offset (get_packet_offsets (packet_type p)) in
  hdr ← udp_tunnel_header p;
  buf ← write_range (inner p) off (off + UDP_TUNNEL_HEADER_SIZE)
          (UDPTunnelHeader.to_bytes (f hdr));
  Some (with_inner p buf).

(** The offset addition is a usize addition. *)
Definition udp_payload (p : t) : option (list Z) :=
  slice_from (inner p)
    (wrapping_add 64 (udp_tunnel_header_offset (get_packet_offsets (packet_type p)))
       UDP_TUNNEL_HEADER_SIZE).

Definition fill_peer_manager_hdr (p : t) (from_id to_id ty : Z) : option t :=
  let pl := payload_len p in
  update_peer_manager_header p (λ _,
    {| PeerManagerHeader.from_peer_id := from_id;
       PeerManagerHeader.to_peer_id := to_id;
       PeerManagerHeader.packet_type := ty;
       PeerManagerHeader.flags := 0;
       PeerManagerHeader.forward_counter := 1;
       PeerManagerHeader.reserved := 0;
       PeerManagerHeader.hdr_len := wrap 32 pl |}).

Definition tunnel_payload (p : t) : option (list Z) :=
  slice_from (inner p) (peer_manager_header_offset (get_packet_offsets (packet_type p))).

Definition new_for_foreign_network (uninit network_name : list Z) (dst : Z) (foreign : t)
    : option t :=
  let hdr := ForeignNetworkPacketHeader.new dst network_name in
  foreign_payload ← tunnel_payload foreign;
  let total_payload_len := ForeignNetworkPacketHeader.get_header_len hdr + len foreign_payload in
  let ret := new_nic_packet in
  let payload_off := payload_offset ret in
  let ret := with_inner ret (set_len uninit (payload_off + total_payload_len)) in
  let name_offset := ForeignNetworkPacketHeader.network_name_offset hdr in
  let name_len := ForeignNetworkPacketHeader.network_name_len hdr in
  ret ← write_payload ret 0 FOREIGN_NETWORK_HEADER_SIZE (ForeignNetworkPacketHeader.to_bytes hdr);
  ret ← write_payload ret name_offset (name_offset + name_len) network_name;
  ret ← write_payload ret (ForeignNetworkPacketHeader.get_header_len hdr)
          (len (inner ret) - payload_off) foreign_payload;
  ret ← fill_peer_manager_hdr ret 0 0 (packet_type_u8 ForeignNetworkPacket);
  Some (mk (inner ret) (packet_type ret) (flow_key foreign)).

(** The offset of the target's tunnel header inside a packet of type [t];
    [NIC] is [unreachable!()]. *)
Definition converted_header_offset (o : ZCPacketOffsets) (target : ZCPacketType) : option Z :=
  match target with
  | TCP => Some (tcp_tunnel_header_offset o)
  | UDP => Some (udp_tunnel_header_offset o)
  | WG => Some (wg_tunnel_header_offset o)
  | DummyTunnel => Some (dummy_tunnel_header_offset o)
  | NIC => None
  end.

Definition convert_type (uninit : list Z) (p : t) (target : ZCPacketType) : option t :=
  if decide (target = packet_type p) then Some p else
  new_offset ← converted_header_offset (get_packet_offsets (packet_type p)) target;
  if new_offset =? INVALID_OFFSET then
    tp ← tunnel_payload p;
    let new_pm_offset := peer_manager_header_offset (get_packet_offsets target) in
    let buf := set_len uninit new_pm_offset ++ tp in
    let packet := new_from_buf buf target in
    Some (mk (inner packet) (packet_type packet) (flow_key p))
  else
    buf ← slice_from (inner p) new_offset;
    Some (mk buf target (flow_key p)).

Definition is_lossy (p : t) : bool :=
  match peer_manager_header p with
  | Some hdr => PeerManagerHeader.packet_type hdr =? packet_type_u8 Data
  | None => false
  end.

(** The outer option is a panic, the inner one the returned [Option]. *)
Definition foreign_network_hdr (p : t) : option (option ForeignNetworkPacketHeader.t) :=
  hdr ← peer_manager_header p;
  if PeerManagerHeader.packet_type hdr =? packet_type_u8 ForeignNetworkPacket then
    pl ← payload p; Some (ForeignNetworkPacketHeader.from_prefix pl)
  else Some None.

Definition foreign_network_inner_packet_info (p : t)
    : option (option (PeerManagerHeader.t * Z)) :=
  match peer_manager_header p with
  | None => Some None
  | Some outer =>
      if negb (PeerManagerHeader.packet_type outer =? packet_type_u8 ForeignNetworkPacket)
      then Some None
      else
        pl ← payload p;
        Some (hdr ← ForeignNetworkPacketHeader.from_prefix pl;
              inner_packet ← slice_from pl (ForeignNetworkPacketHeader.get_header_len hdr);
              pm ← PeerManagerHeader.from_prefix inner_packet;
              Some (pm, len inner_packet - PEER_MANAGER_HEADER_SIZE))
  end.

Definition foreign_network_inner_packet_type (p : t) : option (option Z) :=
  info ← foreign_network_inner_packet_info p;
  Some (pm ← info; Some (PeerManagerHeader.packet_type (fst pm))).

Definition foreign_network_packet (p : t) : option t :=
  mhdr ← foreign_network_hdr p;
  hdr ← mhdr;
  let foreign_hdr_len := ForeignNetworkPacketHeader.get_header_len hdr in
  buf ← slice_from (inner p) (foreign_hdr_len + payload_offset p);
  Some (mk buf DummyTunnel (flow_key p)).

Definition get_src_peer_id (p : t) : option Z :=
  PeerManagerHeader.from_peer_id <$> peer_manager_header p.

Definition get_dst_peer_id (p : t) : option Z :=
  PeerManagerHeader.to_peer_id <$> peer_manager_header p.

(** The buffer holds at least the tunnel header space and the peer manager header. *)
Definition wf (p : t) : Prop := payload_offset p <= len (inner p).

End ZCPacket.

(** ** Hole punch packets *)

Definition HOLE_PUNCH_PACKET_BODY_LEN : Z := 16.

Definition new_udp_packet (f : UDPTunnelHeader.t → UDPTunnelHeader.t) (udp_body : list Z)
    : option ZCPacket.t :=
  let buf := replicate (Z.to_nat (UDP_TUNNEL_HEADER_SIZE + len udp_body)) 0 in
  buf ← write_range buf UDP_TUNNEL_HEADER_SIZE (len buf) udp_body;
  ZCPacket.update_udp_tunnel_header (ZCPacket.new_from_buf buf UDP) f.

(** [body] is the random filling of the [buf_len] bytes. *)
Definition new_hole_punch_packet (tid buf_len : Z) (body : list Z) : option ZCPacket.t :=
  new_udp_packet
    (λ h, {| UDPTunnelHeader.conn_id := tid;
             UDPTunnelHeader.msg_type := udp_packet_type_u8 UdpHolePunch;
             UDPTunnelHeader.padding := UDPTunnelHeader.padding h;
             UDPTunnelHeader.udp_len := buf_len |})
    (resize (Z.to_nat buf_len) 0 body).

Definition hole_punch_packet_tid (data : list Z) (body_len : Z) : option Z :=
  if negb (len data =? UDP_TUNNEL_HEADER_SIZE + body_len) then None
  else
    header ← UDPTunnelHeader.from_prefix data;
    if (UDPTunnelHeader.msg_type header =? udp_packet_type_u8 UdpHolePunch) &&
       (UDPTunnelHeader.udp_len header =? body_len)
    then Some (UDPTunnelHeader.conn_id header) else None.

(** * Properties *)

Module PacketFacts.

Lemma pm_header_len h : len (PeerManagerHeader.to_bytes h) = PEER_MANAGER_HEADER_SIZE.
Proof. done. Qed.

Lemma pm_header_roundtrip h rest :
  PeerManagerHeader.wf h →
  PeerManagerHeader.from_prefix (PeerManagerHeader.to_bytes h ++ rest) = Some h.
Proof.
  intros (H1 & H2 & _ & _ & _ & _ & H7). unfold is_uint in *.
  unfold PeerManagerHeader.from_prefix. rewrite len_app, pm_header_len.
  pose proof (len_nonneg rest).
  destruct (Z.ltb_spec (PEER_MANAGER_HEADER_SIZE + len rest) PEER_MANAGER_HEADER_SIZE); [lia|].
  destruct h as [a b c d e f g]; cbn in *.
  rewrite take_0. pose proof (to_le_roundtrip 4 a H1) as Ea.
  pose proof (to_le_roundtrip 4 b H2) as Eb. pose proof (to_le_roundtrip 4 g H7) as Eg.
  cbn in Ea, Eb, Eg. cbn [from_le]. by rewrite Ea, Eb, Eg.
Qed.

Lemma udp_header_roundtrip h rest :
  is_uint 32 (UDPTunnelHeader.conn_id h) → is_uint 16 (UDPTunnelHeader.udp_len h) →
  UDPTunnelHeader.from_prefix (UDPTunnelHeader.to_bytes h ++ rest) = Some h.
Proof.
  intros H1 H2. unfold is_uint in *. unfold UDPTunnelHeader.from_prefix. rewrite len_app.
  pose proof (len_nonneg rest). change (len (UDPTunnelHeader.to_bytes h)) with 8.
  destruct (Z.ltb_spec (8 + len rest) UDP_TUNNEL_HEADER_SIZE) as [Hlt|];
    [unfold UDP_TUNNEL_HEADER_SIZE in Hlt; lia|].
  destruct h as [a b c d]; cbn in *.
  rewrite take_0. pose proof (to_le_roundtrip 4 a H1) as Ea.
  pose proof (to_le_roundtrip 2 d H2) as Ed. cbn in Ea, Ed. cbn [from_le]. by rewrite Ea, Ed.
Qed.

Lemma foreign_header_roundtrip h rest :
  is_uint 16 (ForeignNetworkPacketHeader.header_len h) →
  is_uint 32 (ForeignNetworkPacketHeader.dst_peer_id h) →
  is_uint 16 (ForeignNetworkPacketHeader.network_name_offset h) →
  is_uint 16 (ForeignNetworkPacketHeader.network_name_len h) →
  ForeignNetworkPacketHeader.from_prefix (ForeignNetworkPacketHeader.to_bytes h ++ rest) = Some h.
Proof.
  intros H1 H2 H3 H4. unfold is_uint in *. unfold ForeignNetworkPacketHeader.from_prefix.
  rewrite len_app. pose proof (len_nonneg rest).
  change (len (ForeignNetworkPacketHeader.to_bytes h)) with 10.
  destruct (Z.ltb_spec (10 + len rest) FOREIGN_NETWORK_HEADER_SIZE) as [Hlt|];
    [unfold FOREIGN_NETWORK_HEADER_SIZE in Hlt; lia|].
  destruct h as [a b c d]; cbn in *.
  rewrite take_0. pose proof (to_le_roundtrip 2 a H1) as Ea.
  pose proof (to_le_roundtrip 4 b H2) as Eb. pose proof (to_le_roundtrip 2 c H3) as Ec.
  pose proof (to_le_roundtrip 2 d H4) as Ed.
  cbn in Ea, Eb, Ec, Ed. cbn [from_le]. by rewrite Ea, Eb, Ec, Ed.
Qed.

(** ** Flags *)

Lemma contains_pow2 f i : 0 <= i → Flags.contains f (2 ^ i) = Z.testbit f i.
Proof.
  intros Hi. unfold Flags.contains. destruct (Z.testbit f i) eqn:E.
  - apply Z.eqb_eq. apply Z.bits_inj'. intros n Hn.
    rewrite Z.land_spec, Z.pow2_bits_eqb by done.
    destruct (Z.eqb_spec i n) as [<-|]; [by rewrite E|by rewrite andb_false_r].
  - apply Z.eqb_neq. intros H. apply (f_equal (λ x, Z.testbit x i)) in H.
    rewrite Z.land_spec, E, Z.pow2_bits_true in H by done. done.
Qed.

Lemma put_testbit f i b j :
  0 <= i → 0 <= j →
  Z.testbit (Flags.put f (2 ^ i) b) j = if i =? j then b else Z.testbit f j.
Proof.
  intros Hi Hj. unfold Flags.put, Flags.insert, Flags.remove. destruct b.
  - rewrite Z.lor_spec, Z.pow2_bits_eqb by done.
    destruct (i =? j); [apply orb_true_r|apply orb_false_r].
  - rewrite Z.ldiff_spec, Z.pow2_bits_eqb by done.
    destruct (i =? j); [apply andb_false_r|apply andb_true_r].
Qed.

Lemma flag_put_contains f i b j :
  0 <= i → 0 <= j →
  Flags.contains (Flags.put f (2 ^ i) b) (2 ^ j) = if i =? j then b else Flags.contains f (2 ^ j).
Proof. intros. rewrite !contains_pow2, put_testbit by done. done. Qed.

(** Rewrites the flag constants as powers of two and reads the bit. *)
Ltac flag_bits :=
  change Flags.ENCRYPTED with (2 ^ 0) in *; change Flags.LATENCY_FIRST with (2 ^ 1) in *;
  change Flags.EXIT_NODE with (2 ^ 2) in *; change Flags.NO_PROXY with (2 ^ 3) in *;
  change Flags.COMPRESSED with (2 ^ 4) in *; change Flags.LIVENESS_PROBE with (2 ^ 5) in *;
  change Flags.NOT_SEND_TO_TUN with (2 ^ 6) in *; change Flags.LIVENESS_ECHO with (2 ^ 7) in *.

Lemma clear_marker_flags h j :
  0 <= j →
  Z.testbit (PeerManagerHeader.flags (PeerManagerHeader.clear_liveness_marker h)) j =
    if (j =? 5) || (j =? 7) then false else Z.testbit (PeerManagerHeader.flags h) j.
Proof.
  intros Hj. cbn. unfold Flags.remove. flag_bits.
  rewrite Z.ldiff_spec, Z.lor_spec, !Z.pow2_bits_eqb by lia.
  rewrite (Z.eqb_sym 5), (Z.eqb_sym 7).
  destruct (j =? 5), (j =? 7); simpl; rewrite ?andb_false_r, ?andb_true_r; done.
Qed.

(** The liveness markers are exclusive and lose nothing else: after
    [set_liveness_probe] the probe token is the one written, there is no echo
    token, and the six other flags are unchanged; symmetrically for the echo. *)
Theorem liveness_marker_exclusive h token :
  (PeerManagerHeader.liveness_probe_token (PeerManagerHeader.set_liveness_probe h token)
     = Some token ∧
   PeerManagerHeader.liveness_echo_token (PeerManagerHeader.set_liveness_probe h token) = None ∧
   PeerManagerHeader.liveness_echo_token (PeerManagerHeader.set_liveness_echo h token)
     = Some token ∧
   PeerManagerHeader.liveness_probe_token (PeerManagerHeader.set_liveness_echo h token) = None) ∧
  (∀ m, m ∈ [Flags.ENCRYPTED; Flags.LATENCY_FIRST; Flags.EXIT_NODE; Flags.NO_PROXY;
             Flags.COMPRESSED; Flags.NOT_SEND_TO_TUN] →
    Flags.contains (PeerManagerHeader.flags (PeerManagerHeader.set_liveness_probe h token)) m =
      Flags.contains (PeerManagerHeader.flags h) m ∧
    Flags.contains (PeerManagerHeader.flags (PeerManagerHeader.set_liveness_echo h token)) m =
      Flags.contains (PeerManagerHeader.flags h) m).
Proof.
  assert (Hbit : ∀ k j, 0 <= j → (k = 5 ∨ k = 7) →
    Z.testbit (PeerManagerHeader.flags (PeerManagerHeader.set_liveness_marker h (2 ^ k) token)) j =
    if k =? j then true else if (j =? 5) || (j =? 7) then false
    else Z.testbit (PeerManagerHeader.flags h) j).
  { intros k j Hj Hk. rewrite <- clear_marker_flags by done. cbn [PeerManagerHeader.flags
      PeerManagerHeader.set_liveness_marker PeerManagerHeader.with_reserved
      PeerManagerHeader.with_flags]. unfold Flags.insert.
    rewrite Z.lor_spec, Z.pow2_bits_eqb by lia.
    destruct (k =? j); [apply orb_true_r|apply orb_false_r]. }
  unfold PeerManagerHeader.liveness_probe_token, PeerManagerHeader.liveness_echo_token,
    PeerManagerHeader.set_liveness_probe, PeerManagerHeader.set_liveness_echo.
  flag_bits. split.
  - rewrite !contains_pow2, !Hbit by lia. done.
  - intros m Hm. repeat (apply elem_of_cons in Hm as [->|Hm]); [..|by apply elem_of_nil in Hm];
      rewrite !contains_pow2, !Hbit by lia; done.
Qed.

(** The setters and getters of the boolean header flags. *)
Definition flag_ops : list ((PeerManagerHeader.t → bool → PeerManagerHeader.t) *
                            (PeerManagerHeader.t → bool)) :=
  [(PeerManagerHeader.set_encrypted, PeerManagerHeader.is_encrypted);
   (PeerManagerHeader.set_latency_first, PeerManagerHeader.is_latency_first);
   (PeerManagerHeader.set_exit_node, PeerManagerHeader.is_exit_node);
   (PeerManagerHeader.set_no_proxy, PeerManagerHeader.is_no_proxy);
   (PeerManagerHeader.set_compressed, PeerManagerHeader.is_compressed);
   (PeerManagerHeader.set_not_send_to_tun, PeerManagerHeader.is_not_send_to_tun)].

(** Every flag setter sets exactly its own flag: for any two of the six
    boolean flags, reading the second after writing the first gives the written
    value when they are the same flag and the old value otherwise. *)
Theorem flag_setters_independent h b i j s g s' g' :
  flag_ops !! i = Some (s, g) → flag_ops !! j = Some (s', g') →
  g' (s h b) = if decide (i = j) then b else g' h.
Proof.
  intros Hi Hj.
  destruct i as [|[|[|[|[|[|i]]]]]]; [..|done]; simplify_eq/=;
  (destruct j as [|[|[|[|[|[|j]]]]]]; [..|done]); simplify_eq/=;
  cbv [PeerManagerHeader.set_encrypted PeerManagerHeader.is_encrypted
       PeerManagerHeader.set_latency_first PeerManagerHeader.is_latency_first
       PeerManagerHeader.set_exit_node PeerManagerHeader.is_exit_node
       PeerManagerHeader.set_no_proxy PeerManagerHeader.is_no_proxy
       PeerManagerHeader.set_compressed PeerManagerHeader.is_compressed
       PeerManagerHeader.set_not_send_to_tun PeerManagerHeader.is_not_send_to_tun
       PeerManagerHeader.with_flags PeerManagerHeader.flags];
  flag_bits; rewrite flag_put_contains by lia; first [done | by case_decide].
Qed.

Lemma flag_setters_independent_witness :
  PeerManagerHeader.is_exit_node
    (PeerManagerHeader.set_no_proxy (PeerManagerHeader.mk 1 2 1 4 1 0 0) true) = true.
Proof.
  apply (flag_setters_independent (PeerManagerHeader.mk 1 2 1 4 1 0 0) true 3 2 _ _ _ _
           eq_refl eq_refl).
Defined.

(** ** Re-framing *)

Lemma slice_from_end {A} (l l1 : list A) a : slice_from l a = Some l1 → len l1 = len l - a.
Proof.
  unfold slice_from. intros H.
  destruct (Z.leb_spec 0 a), (Z.leb_spec a (len l)); simplify_eq/=. apply len_drop. lia.
Qed.

Lemma len_set_len u n : 0 <= n → len (ZCPacket.set_len u n) = n.
Proof. intros. unfold ZCPacket.set_len, len. rewrite length_resize. lia. Qed.

(** The header offset of a type, as the distance between its payload and its
    peer manager header. *)
Lemma payload_after_header ty :
  payload_offset_of (get_packet_offsets ty) =
    peer_manager_header_offset (get_packet_offsets ty) + PEER_MANAGER_HEADER_SIZE.
Proof. by destruct ty. Qed.

(** Everything above the tunnel header is a function of the tunnel payload. *)
Lemma same_tunnel_payload p q tp :
  ZCPacket.tunnel_payload p = Some tp → ZCPacket.tunnel_payload q = Some tp →
  ZCPacket.payload q = ZCPacket.payload p ∧
  ZCPacket.peer_manager_header q = ZCPacket.peer_manager_header p.
Proof.
  unfold ZCPacket.tunnel_payload, ZCPacket.payload, ZCPacket.peer_manager_header,
    ZCPacket.bytes_from_offset, ZCPacket.payload_offset.
  intros Hp Hq. rewrite Hp, Hq. split; [|done]. rewrite !payload_after_header.
  by rewrite <- (slice_from_slice _ _ _ _ Hp), <- (slice_from_slice _ _ _ _ Hq) by done.
Qed.

Lemma convert_offset_spec ty target off :
  target ≠ ty →
  ZCPacket.converted_header_offset (get_packet_offsets ty) target = Some off →
  off = INVALID_OFFSET ∨
  (0 <= off ∧ off <> INVALID_OFFSET ∧
   off + peer_manager_header_offset (get_packet_offsets target) =
   peer_manager_header_offset (get_packet_offsets ty)).
Proof.
  intros Hne H. destruct ty, target; vm_compute in H; try done; inversion H; subst;
    try (by left); right; vm_compute; repeat split; done.
Qed.

Lemma convert_type_tunnel_payload u p target :
  ZCPacket.wf p → target ≠ NIC →
  ∃ q, ZCPacket.convert_type u p target = Some q ∧
    ZCPacket.packet_type q = target ∧ ZCPacket.flow_key q = ZCPacket.flow_key p ∧
    ZCPacket.tunnel_payload q = ZCPacket.tunnel_payload p ∧
    is_Some (ZCPacket.tunnel_payload p).
Proof.
  intros Hwf Hnic. unfold ZCPacket.wf, ZCPacket.payload_offset in Hwf.
  assert (Hpm : 0 <= peer_manager_header_offset (get_packet_offsets (ZCPacket.packet_type p)))
    by (by destruct (ZCPacket.packet_type p)).
  rewrite payload_after_header in Hwf. unfold PEER_MANAGER_HEADER_SIZE in Hwf.
  assert (Htp : is_Some (ZCPacket.tunnel_payload p))
    by (unfold ZCPacket.tunnel_payload; rewrite slice_from_Some by lia; eauto).
  unfold ZCPacket.convert_type. case_decide as Heq; [by exists p|].
  destruct (ZCPacket.converted_header_offset _ target) as [off|] eqn:Hoff; [|by destruct target].
  simpl. destruct (convert_offset_spec _ _ _ Heq Hoff) as [->|(Hoff0 & Hne & Hsum)].
  - rewrite Z.eqb_refl. destruct Htp as [tp Htp]. rewrite Htp. simpl.
    eexists. split_and!; [done..| |eauto].
    unfold ZCPacket.tunnel_payload; simpl. apply slice_from_app.
    symmetry. apply len_set_len. by destruct target.
  - destruct (Z.eqb_spec off INVALID_OFFSET) as [?|_]; [done|].
    assert (0 <= peer_manager_header_offset (get_packet_offsets target)) by (by destruct target).
    rewrite slice_from_Some by lia. simpl. eexists. split_and!; [done..| |done].
    unfold ZCPacket.tunnel_payload; simpl.
    rewrite (slice_from_slice (ZCPacket.inner p) _ off), Hsum by (rewrite ?slice_from_Some; done || lia).
    done.
Qed.

(** C8: re-framing a packet for another tunnel ([convert_type]) never panics for
    a target other than [NIC], and keeps the peer manager header, the payload and
    the flow key, whether the buffer is advanced in place or copied. *)
Theorem convert_type_preserves u p target :
  ZCPacket.wf p → target ≠ NIC →
  ∃ q, ZCPacket.convert_type u p target = Some q ∧
    ZCPacket.packet_type q = target ∧
    ZCPacket.flow_key q = ZCPacket.flow_key p ∧
    ZCPacket.payload q = ZCPacket.payload p ∧
    ZCPacket.peer_manager_header q = ZCPacket.peer_manager_header p.
Proof.
  intros Hwf Hnic. destruct (convert_type_tunnel_payload u p target Hwf Hnic)
    as (q & Hq & Hty & Hfk & Htp & [tp Hsome]).
  exists q. split_and!; [done..| |]; apply (same_tunnel_payload p q tp); congruence.
Qed.

Lemma convert_type_preserves_witness :
  ∃ q, ZCPacket.convert_type [9;9;9;9;9;9;9;9;9;9;9;9;9;9;9;9;9;9;9;9]
         (ZCPacket.mk (replicate 20 0 ++ [7;8]) TCP None) WG = Some q ∧
       ZCPacket.payload q = Some [7; 8].
Proof.
  destruct (convert_type_preserves [9;9;9;9;9;9;9;9;9;9;9;9;9;9;9;9;9;9;9;9]
    (ZCPacket.mk (replicate 20 0 ++ [7;8]) TCP None) WG) as (q & H & _ & _ & Hp & _).
  - unfold ZCPacket.wf. vm_compute. discriminate.
  - discriminate.
  - exists q. split; [exact H|]. rewrite Hp. reflexivity.
Defined.

(** ** In-place header updates *)

Lemma from_prefix_is_Some l :
  PEER_MANAGER_HEADER_SIZE <= len l → is_Some (PeerManagerHeader.from_prefix l).
Proof.
  intros. unfold PeerManagerHeader.from_prefix.
  destruct (Z.ltb_spec (len l) PEER_MANAGER_HEADER_SIZE); [lia|eauto].
Qed.

Lemma update_pm_header_spec p f a b rest :
  ZCPacket.inner p = a ++ b ++ rest →
  len a = peer_manager_header_offset (get_packet_offsets (ZCPacket.packet_type p)) →
  len b = PEER_MANAGER_HEADER_SIZE →
  ∃ h, PeerManagerHeader.from_prefix (b ++ rest) = Some h ∧
    ZCPacket.update_peer_manager_header p f =
      Some (ZCPacket.with_inner p (a ++ PeerManagerHeader.to_bytes (f h) ++ rest)).
Proof.
  intros Hi Ha Hb. unfold ZCPacket.update_peer_manager_header, ZCPacket.peer_manager_header,
    ZCPacket.bytes_from_offset. rewrite Hi, slice_from_app by done.
  destruct (from_prefix_is_Some (b ++ rest)) as [h Hh].
  { rewrite len_app. pose proof (len_nonneg rest). lia. }
  exists h. split; [done|]. simpl. rewrite Hh. simpl.
  rewrite (write_range_app a b rest) by (rewrite ?pm_header_len; lia). done.
Qed.

Lemma fill_pm_header_spec p from_id to_id ty a b rest :
  ZCPacket.inner p = a ++ b ++ rest →
  len a = peer_manager_header_offset (get_packet_offsets (ZCPacket.packet_type p)) →
  len b = PEER_MANAGER_HEADER_SIZE →
  ZCPacket.fill_peer_manager_hdr p from_id to_id ty =
    Some (ZCPacket.with_inner p
      (a ++ PeerManagerHeader.to_bytes
        (PeerManagerHeader.mk from_id to_id ty 0 1 0 (wrap 32 (ZCPacket.payload_len p))) ++ rest)).
Proof.
  intros Hi Ha Hb. unfold ZCPacket.fill_peer_manager_hdr.
  by destruct (update_pm_header_spec p (λ _, PeerManagerHeader.mk from_id to_id ty 0 1 0
    (wrap 32 (ZCPacket.payload_len p))) a b rest Hi Ha Hb) as (h & _ & ->).
Qed.

Lemma write_payload_nic x y z src buf fk a b :
  buf = x ++ y ++ z → 36 + a = len x → 36 + b = len x + len y → len src = len y →
  ZCPacket.write_payload (ZCPacket.mk buf NIC fk) a b src =
    Some (ZCPacket.mk (x ++ src ++ z) NIC fk).
Proof.
  intros -> Ha Hb Hs. unfold ZCPacket.write_payload, ZCPacket.payload_offset.
  cbn [ZCPacket.packet_type ZCPacket.inner].
  change (payload_offset_of (get_packet_offsets NIC)) with 36.
  by rewrite (write_range_app x y z) by done.
Qed.

(** The buffer that [new_for_foreign_network] builds. *)
Definition foreign_buffer (a : list Z) (hdr : PeerManagerHeader.t)
    (fh : ForeignNetworkPacketHeader.t) (name fp : list Z) : list Z :=
  a ++ PeerManagerHeader.to_bytes hdr ++ ForeignNetworkPacketHeader.to_bytes fh ++ name ++ fp.

Lemma new_for_foreign_network_buffer u name dst f fp :
  len name < 2 ^ 16 - FOREIGN_NETWORK_HEADER_SIZE →
  ZCPacket.tunnel_payload f = Some fp →
  ∃ a n, len a = 20 ∧
    ZCPacket.new_for_foreign_network u name dst f =
      Some (ZCPacket.mk
        (foreign_buffer a
          (PeerManagerHeader.mk 0 0 (packet_type_u8 ForeignNetworkPacket) 0 1 0 (wrap 32 n))
          (ForeignNetworkPacketHeader.mk (10 + len name) dst 10 (len name)) name fp)
        NIC (ZCPacket.flow_key f)).
Proof.
  intros Hn Hfp. unfold FOREIGN_NETWORK_HEADER_SIZE in Hn.
  pose proof (len_nonneg name). pose proof (len_nonneg fp).
  assert (Hnew : ForeignNetworkPacketHeader.new dst name =
    ForeignNetworkPacketHeader.mk (10 + len name) dst 10 (len name)).
  { unfold ForeignNetworkPacketHeader.new, wrapping_add, wrap, FOREIGN_NETWORK_HEADER_SIZE.
    rewrite (Z.mod_small 10), (Z.mod_small (len name)), (Z.mod_small (10 + len name)) by lia. done. }
  unfold ZCPacket.new_for_foreign_network. rewrite Hfp, Hnew. simpl.
  change (ZCPacket.payload_offset ZCPacket.new_nic_packet) with 36.
  set (buf := ZCPacket.set_len u _).
  assert (Hbuf : len buf = 20 + (16 + (10 + (len name + len fp)))).
  { subst buf. rewrite len_set_len; unfold ForeignNetworkPacketHeader.get_header_len; simpl; lia. }
  destruct (len_split buf _ _ Hbuf ltac:(lia) ltac:(lia)) as (a & r1 & -> & Ha & Hr1).
  destruct (len_split r1 _ _ Hr1 ltac:(lia) ltac:(lia)) as (b & r2 & -> & Hb & Hr2).
  destruct (len_split r2 _ _ Hr2 ltac:(lia) ltac:(lia)) as (c & r3 & -> & Hc & Hr3).
  destruct (len_split r3 _ _ Hr3 ltac:(lia) ltac:(lia)) as (d & e & -> & Hd & He).
  clear Hbuf Hr1 Hr2 Hr3.
  set (fh := ForeignNetworkPacketHeader.mk _ _ _ _).
  assert (Hfh : len (ForeignNetworkPacketHeader.to_bytes fh) = 10) by done.
  remember (ForeignNetworkPacketHeader.to_bytes fh) as hb eqn:Ehb.
  unfold ZCPacket.with_inner at 1; cbn [ZCPacket.new_nic_packet ZCPacket.packet_type ZCPacket.flow_key].
  unfold FOREIGN_NETWORK_HEADER_SIZE.
  rewrite (write_payload_nic (a ++ b) c (d ++ e)) by (rewrite ?len_app, ?app_assoc; done || lia).
  simpl. rewrite (write_payload_nic ((a ++ b) ++ hb) d e)
    by (rewrite ?len_app, ?app_assoc; done || lia).
  simpl. rewrite (write_payload_nic
    (((a ++ b) ++ hb) ++ name) e [])
    by (rewrite ?app_nil_r, ?len_app, ?app_assoc; done || (simpl; rewrite ?len_app; lia)).
  simpl. unfold ZCPacket.with_inner; simpl. rewrite app_nil_r, <- !app_assoc.
  match goal with |- context [ZCPacket.fill_peer_manager_hdr ?q _ _ _] =>
    rewrite (fill_pm_header_spec q 0 0 _ a b (hb ++ name ++ fp)
      eq_refl Ha Hb); exists a, (ZCPacket.payload_len q) end.
  subst hb. split; done.
Qed.

Lemma foreign_buffer_views a hdr fh name fp fk :
  len a = 20 → PeerManagerHeader.wf hdr →
  let q := ZCPacket.mk (foreign_buffer a hdr fh name fp) NIC fk in
  ZCPacket.peer_manager_header q = Some hdr ∧
  ZCPacket.payload q = Some (ForeignNetworkPacketHeader.to_bytes fh ++ name ++ fp).
Proof.
  intros Ha Hwf q. unfold ZCPacket.peer_manager_header, ZCPacket.bytes_from_offset,
    ZCPacket.payload, ZCPacket.payload_offset, q.
  cbn [ZCPacket.packet_type ZCPacket.inner].
  change (peer_manager_header_offset (get_packet_offsets NIC)) with 20.
  change (payload_offset_of (get_packet_offsets NIC)) with 36.
  unfold foreign_buffer. rewrite slice_from_app by done. cbn [mbind option_bind].
  split; [by apply pm_header_roundtrip|]. rewrite app_assoc. apply slice_from_app.
  rewrite len_app, pm_header_len, Ha. done.
Qed.

(** Encapsulation of a foreign network packet round-trips: the receiver of
    [new_for_foreign_network] reads back the destination peer and the network name,
    and [foreign_network_packet] gives a packet with the same peer manager header
    and payload as the encapsulated one, keeping its flow key.  The name must fit
    the 16-bit length field. *)
Theorem foreign_network_roundtrip utf8_valid u name dst f fp :
  len name < 2 ^ 16 - FOREIGN_NETWORK_HEADER_SIZE → is_uint 32 dst →
  utf8_valid name = true → ZCPacket.tunnel_payload f = Some fp →
  ∃ q fh pl r,
    ZCPacket.new_for_foreign_network u name dst f = Some q ∧
    ZCPacket.foreign_network_hdr q = Some (Some fh) ∧
    ForeignNetworkPacketHeader.get_dst_peer_id fh = dst ∧
    ZCPacket.payload q = Some pl ∧
    ForeignNetworkPacketHeader.get_network_name utf8_valid fh pl = Some name ∧
    ZCPacket.foreign_network_packet q = Some r ∧
    ZCPacket.tunnel_payload r = Some fp ∧
    ZCPacket.flow_key r = ZCPacket.flow_key f.
Proof.
  intros Hn Hdst Hutf Hfp.
  destruct (new_for_foreign_network_buffer u name dst f fp Hn Hfp) as (a & n & Ha & Hq).
  set (hdr := PeerManagerHeader.mk 0 0 _ 0 1 0 _) in Hq.
  set (fh := ForeignNetworkPacketHeader.mk _ _ _ _) in Hq.
  pose proof (len_nonneg name). unfold FOREIGN_NETWORK_HEADER_SIZE in Hn.
  assert (Hhdr : PeerManagerHeader.wf hdr).
  { unfold hdr, PeerManagerHeader.wf, is_uint, is_byte, wrap; simpl.
    pose proof (Z.mod_pos_bound n (2 ^ 32)). lia. }
  destruct (foreign_buffer_views a hdr fh name fp (ZCPacket.flow_key f) Ha Hhdr) as [Hpm Hpl].
  assert (Hfh : ForeignNetworkPacketHeader.from_prefix
    (ForeignNetworkPacketHeader.to_bytes fh ++ name ++ fp) = Some fh).
  { apply foreign_header_roundtrip; unfold fh, is_uint in *; simpl; lia. }
  assert (Hfhdr : ZCPacket.foreign_network_hdr
    (ZCPacket.mk (foreign_buffer a hdr fh name fp) NIC (ZCPacket.flow_key f)) = Some (Some fh)).
  { unfold ZCPacket.foreign_network_hdr. rewrite Hpm. cbn [mbind option_bind].
    change (PeerManagerHeader.packet_type hdr =? packet_type_u8 ForeignNetworkPacket) with true.
    rewrite Hpl. cbn [mbind option_bind]. by rewrite Hfh. }
  eexists _, fh, _, (ZCPacket.mk fp DummyTunnel (ZCPacket.flow_key f)).
  split_and!; [exact Hq|exact Hfhdr|done|exact Hpl| | | |done].
  - unfold ForeignNetworkPacketHeader.get_network_name.
    rewrite (slice_range_app _ name fp) by done. simpl. by rewrite Hutf.
  - unfold ZCPacket.foreign_network_packet. rewrite Hfhdr. cbn [mbind option_bind ZCPacket.inner].
    unfold foreign_buffer. rewrite !app_assoc, slice_from_app; [done|].
    rewrite !len_app, pm_header_len, Ha. change (len (ForeignNetworkPacketHeader.to_bytes fh)) with 10.
    unfold ForeignNetworkPacketHeader.get_header_len, ZCPacket.payload_offset, PEER_MANAGER_HEADER_SIZE.
    change (payload_offset_of _) with 36. unfold fh; cbn [ForeignNetworkPacketHeader.header_len]. lia.
  - unfold ZCPacket.tunnel_payload. simpl. by rewrite slice_from_Some by (pose proof (len_nonneg fp); lia).
Qed.

Lemma foreign_network_roundtrip_witness :
  ∃ q r, ZCPacket.new_for_foreign_network [] [110; 101; 116] 77
           (ZCPacket.mk (replicate 16 5 ++ [1; 2]) DummyTunnel None) = Some q ∧
         ZCPacket.foreign_network_packet q = Some r ∧
         ZCPacket.tunnel_payload r = Some (replicate 16 5 ++ [1; 2]).
Proof.
  destruct (foreign_network_roundtrip (λ _, true) [] [110; 101; 116] 77
    (ZCPacket.mk (replicate 16 5 ++ [1; 2]) DummyTunnel None) (replicate 16 5 ++ [1; 2]))
    as (q & fh & pl & r & H1 & _ & _ & _ & _ & H2 & H3 & _).
  - reflexivity.
  - unfold is_uint. split; [discriminate|reflexivity].
  - reflexivity.
  - reflexivity.
  - exists q, r. split; [exact H1|]. split; [exact H2|exact H3].
Defined.

(** A packet that [new_udp_packet] builds: the header it fills in, then the body. *)
Lemma new_udp_packet_layout f body :
  new_udp_packet f body =
  Some (ZCPacket.new_from_buf (UDPTunnelHeader.to_bytes (f (UDPTunnelHeader.mk 0 0 0 0)) ++ body) UDP).
Proof.
  unfold new_udp_packet, UDP_TUNNEL_HEADER_SIZE. pose proof (len_nonneg body).
  replace (Z.to_nat (8 + len body)) with (8 + length body)%nat by (unfold len; lia).
  rewrite replicate_add. set (zs := replicate 8 0).
  assert (Hl : len (zs ++ replicate (length body) 0) = 8 + len body).
  { rewrite len_app. change (len zs) with 8. unfold len. by rewrite length_replicate. }
  replace (zs ++ replicate (length body) 0) with (zs ++ replicate (length body) 0 ++ []) in * by (by rewrite app_nil_r).
  rewrite (write_range_app zs (replicate (length body) 0) []) by
    (rewrite ?Hl; change (len zs) with 8; unfold len; rewrite ?length_replicate; lia). rewrite app_nil_r. cbn [mbind option_bind].
  unfold ZCPacket.update_udp_tunnel_header, ZCPacket.udp_tunnel_header, ZCPacket.bytes_from_offset.
  cbn [ZCPacket.new_from_buf ZCPacket.packet_type ZCPacket.inner get_packet_offsets udp_tunnel_header_offset].
  rewrite (slice_from_app [] (zs ++ body)) by done. cbn [mbind option_bind].
  assert (Hz : UDPTunnelHeader.from_prefix (zs ++ body) = Some (UDPTunnelHeader.mk 0 0 0 0)).
  { unfold UDPTunnelHeader.from_prefix. rewrite len_app. change (len zs) with 8. unfold UDP_TUNNEL_HEADER_SIZE.
    destruct (Z.ltb_spec (8 + len body) 8); [lia|done]. }
  rewrite Hz. cbn [mbind option_bind]. by rewrite (write_range_app [] zs body).
Qed.

(** A hole punch packet is recognised by its receiver: parsing the packet that
    [new_hole_punch_packet] builds, with the agreed body length, gives back the
    transaction id, and a packet built for another body length is refused. *)
Theorem hole_punch_roundtrip tid n body :
  is_uint 32 tid → is_uint 16 n →
  ∃ p, new_hole_punch_packet tid n body = Some p ∧
    hole_punch_packet_tid (ZCPacket.inner p) n = Some tid ∧
    ∀ n', n' ≠ n → hole_punch_packet_tid (ZCPacket.inner p) n' = None.
Proof.
  intros Htid Hn. unfold is_uint in Hn. unfold new_hole_punch_packet. rewrite new_udp_packet_layout.
  set (b := resize (Z.to_nat n) 0 body).
  assert (Hb : len b = n) by (unfold b, len; rewrite length_resize; lia).
  match goal with |- context [UDPTunnelHeader.to_bytes ?h] => set (hdr := h) end.
  eexists. split; [done|]. cbn [ZCPacket.inner ZCPacket.new_from_buf].
  unfold hole_punch_packet_tid. rewrite len_app. change (len (UDPTunnelHeader.to_bytes hdr)) with 8. rewrite Hb.
  unfold UDP_TUNNEL_HEADER_SIZE. split.
  - rewrite Z.eqb_refl. cbn [negb]. rewrite udp_header_roundtrip by done. simpl.
    by rewrite Z.eqb_refl.
  - intros n' Hn'. by destruct (Z.eqb_spec (8 + n) (8 + n')); [lia|].
Qed.

Lemma hole_punch_roundtrip_witness :
  ∃ p, new_hole_punch_packet 305419896 HOLE_PUNCH_PACKET_BODY_LEN [1; 2; 3] = Some p ∧
       hole_punch_packet_tid (ZCPacket.inner p) HOLE_PUNCH_PACKET_BODY_LEN = Some 305419896.
Proof.
  destruct (hole_punch_roundtrip 305419896 HOLE_PUNCH_PACKET_BODY_LEN [1; 2; 3]) as (p & H1 & H2 & _).
  - unfold is_uint. split; [discriminate|reflexivity].
  - unfold is_uint. split; [discriminate|reflexivity].
  - exists p. split; [exact H1|exact H2].
Defined.

(** ** Packets in their buffers *)

Lemma pm_split p :
  ZCPacket.wf p →
  ∃ a b pl, ZCPacket.inner p = a ++ b ++ pl ∧
    len a = peer_manager_header_offset (get_packet_offsets (ZCPacket.packet_type p)) ∧
    len b = PEER_MANAGER_HEADER_SIZE ∧ ZCPacket.payload p = Some pl.
Proof.
  unfold ZCPacket.wf, ZCPacket.payload, ZCPacket.payload_offset. intros Hwf.
  rewrite payload_after_header in *.
  set (off := peer_manager_header_offset _) in *.
  assert (0 <= off) by (unfold off; by destruct (ZCPacket.packet_type p)). set (l := ZCPacket.inner p) in *.
  assert (0 < PEER_MANAGER_HEADER_SIZE) by done.
  exists (take (Z.to_nat off) l), (take (Z.to_nat PEER_MANAGER_HEADER_SIZE) (drop (Z.to_nat off) l)),
    (drop (Z.to_nat (off + PEER_MANAGER_HEADER_SIZE)) l). unfold len in *.
  split_and!.
  - rewrite Z2Nat.inj_add by lia. rewrite <- drop_drop. by rewrite take_drop, take_drop.
  - rewrite length_take. lia.
  - rewrite length_take, length_drop. lia.
  - apply slice_from_Some. unfold len. lia.
Qed.

Lemma from_prefix_app b x y :
  len b = PEER_MANAGER_HEADER_SIZE →
  PeerManagerHeader.from_prefix (b ++ x) = PeerManagerHeader.from_prefix (b ++ y).
Proof.
  intros Hb. unfold PeerManagerHeader.from_prefix. rewrite !len_app, Hb.
  pose proof (len_nonneg x). pose proof (len_nonneg y). unfold PEER_MANAGER_HEADER_SIZE, len in *.
  destruct (Z.ltb_spec (16 + Z.of_nat (length x)) 16), (Z.ltb_spec (16 + Z.of_nat (length y)) 16); try lia.
  do 16 (destruct b as [|? b]; [cbn in Hb; lia|]). done.
Qed.

Lemma buffer_views p a b pl :
  ZCPacket.inner p = a ++ b ++ pl →
  len a = peer_manager_header_offset (get_packet_offsets (ZCPacket.packet_type p)) →
  len b = PEER_MANAGER_HEADER_SIZE →
  ZCPacket.wf p ∧ ZCPacket.payload p = Some pl ∧
  ZCPacket.peer_manager_header p = PeerManagerHeader.from_prefix (b ++ pl).
Proof.
  intros Hi Ha Hb. pose proof (payload_after_header (ZCPacket.packet_type p)) as Ho.
  pose proof (len_nonneg pl). split_and!.
  - unfold ZCPacket.wf, ZCPacket.payload_offset. rewrite Ho, Hi, !len_app. lia.
  - unfold ZCPacket.payload, ZCPacket.payload_offset. rewrite Ho, Hi, app_assoc. apply slice_from_app. rewrite len_app. lia.
  - unfold ZCPacket.peer_manager_header, ZCPacket.bytes_from_offset. by rewrite Hi, slice_from_app.
Qed.

(** Updating the header leaves the payload, setting the payload leaves the header. *)
Lemma update_header_ok p f :
  ZCPacket.wf p →
  ∃ p' hdr, ZCPacket.peer_manager_header p = Some hdr ∧ ZCPacket.update_peer_manager_header p f = Some p' ∧
    ZCPacket.wf p' ∧ ZCPacket.payload p' = ZCPacket.payload p ∧
    (PeerManagerHeader.wf (f hdr) → ZCPacket.peer_manager_header p' = Some (f hdr)).
Proof.
  intros Hwf. destruct (pm_split p Hwf) as (a & b & pl & Hi & Ha & Hb & Hpl).
  destruct (buffer_views p a b pl Hi Ha Hb) as (_ & _ & Hh).
  destruct (update_pm_header_spec p f a b pl Hi Ha Hb) as (hdr & Ehdr & ->).
  eexists _, hdr. split; [congruence|]. split; [done|].
  destruct (buffer_views (ZCPacket.with_inner p (a ++ PeerManagerHeader.to_bytes (f hdr) ++ pl)) a
    (PeerManagerHeader.to_bytes (f hdr)) pl) as (Hw & Hp & Hh'); [done|done|apply pm_header_len|].
  split; [done|]. split; [congruence|]. intros Hf. rewrite Hh'. by apply pm_header_roundtrip.
Qed.

Lemma set_payload_ok p pl l :
  ZCPacket.wf p → ZCPacket.payload p = Some pl → len l = len pl →
  ∃ p', ZCPacket.write_payload p 0 (len l) l = Some p' ∧ ZCPacket.wf p' ∧ ZCPacket.payload p' = Some l ∧
    ZCPacket.peer_manager_header p' = ZCPacket.peer_manager_header p.
Proof.
  intros Hwf Hp Hl. destruct (pm_split p Hwf) as (a & b & pl' & Hi & Ha & Hb & Hpl).
  rewrite Hp in Hpl. injection Hpl as <-.
  destruct (buffer_views p a b pl Hi Ha Hb) as (_ & _ & Hh).
  pose proof (payload_after_header (ZCPacket.packet_type p)) as Ho.
  unfold ZCPacket.write_payload. unfold ZCPacket.payload_offset. rewrite Ho, Hi.
  replace (a ++ b ++ pl) with ((a ++ b) ++ pl ++ []) by by rewrite app_nil_r, app_assoc.
  rewrite (write_range_app (a ++ b) pl []) by (rewrite ?len_app; lia). cbn [mbind option_bind].
  eexists. split; [done|]. rewrite app_nil_r, <- app_assoc.
  destruct (buffer_views (ZCPacket.with_inner p (a ++ b ++ l)) a b l) as (Hw & Hp' & Hh'); [done..|].
  split; [done|]. split; [done|]. rewrite Hh', Hh. by apply from_prefix_app.
Qed.

Lemma new_with_payload_layout u pl :
  ∃ a b, len a = 20 ∧ len b = PEER_MANAGER_HEADER_SIZE ∧
    ZCPacket.new_with_payload u pl = Some (ZCPacket.mk (a ++ b ++ pl) NIC None).
Proof.
  pose proof (len_nonneg pl). unfold ZCPacket.new_with_payload.
  change (ZCPacket.payload_offset ZCPacket.new_nic_packet) with 36. set (buf := ZCPacket.set_len u _).
  assert (Hbuf : len buf = 20 + (16 + len pl)) by (unfold buf; rewrite len_set_len; lia).
  destruct (len_split buf _ _ Hbuf ltac:(lia) ltac:(lia)) as (a & r1 & -> & Ha & Hr1).
  destruct (len_split r1 _ _ Hr1 ltac:(lia) ltac:(lia)) as (b & c & -> & Hb & Hc).
  exists a, b. split; [done|]. split; [done|].
  unfold ZCPacket.with_inner; cbn [ZCPacket.new_nic_packet ZCPacket.packet_type ZCPacket.flow_key ZCPacket.inner].
  rewrite (write_payload_nic (a ++ b) c []); [by rewrite app_nil_r, <- app_assoc|..];
    rewrite ?app_nil_r, <- ?app_assoc, ?len_app; try done; lia.
Qed.

Lemma set_no_proxy_ok h :
  PeerManagerHeader.wf h →
  PeerManagerHeader.wf (PeerManagerHeader.set_no_proxy h true) ∧
  PeerManagerHeader.is_no_proxy (PeerManagerHeader.set_no_proxy h true) = true.
Proof.
  intros (P1 & P2 & P3 & P4 & P5 & P6 & P7). split.
  - split_and!; try done. by apply lor_byte.
  - unfold PeerManagerHeader.is_no_proxy, PeerManagerHeader.set_no_proxy. cbn [PeerManagerHeader.flags PeerManagerHeader.with_flags].
    change Flags.NO_PROXY with (2 ^ 3). by rewrite flag_put_contains.
Qed.

End PacketFacts.
