(* ===== verification/SecureDatagram.v ===== *)
(** * The secure datagram session

    Models easytier-core/src/tunnel/secure_datagram.rs: the per-direction epochs and
    replay windows, the key cache, epoch rotation and nonces, root key
    synchronisation with its receive grace period, and the encrypt and decrypt
    paths.  Every method of the session runs as one state-passing step; the wall
    clock ([now_ms()]) is an argument.  The cipher backends and HMAC-SHA256 are
    parameters of the section; a panic is [None] of the option type. *)

From stdpp Require Import base gmap list numbers strings.
From Stdlib Require Import ZArith Lia.
From S2P Require Import Prelude ReplayWindow Packet.
Local Open Scope Z_scope.

(** [idx] selects a component of the two-element arrays. *)
Inductive SecureDatagramDirection : Type := AToB | BToA.

#[export] Instance direction_eq_dec : EqDecision SecureDatagramDirection.
Proof. solve_decision. Defined.

#[export] Instance direction_countable : Countable SecureDatagramDirection.
Proof.
  refine (inj_countable' (λ d, match d with AToB => true | BToA => false end)
    (λ b : bool, if b then AToB else BToA) _).
  by intros [].
Defined.

Definition idx (d : SecureDatagramDirection) : Z :=
  match d with AToB => 0 | BToA => 1 end.

(** [[T; 2]] with the accesses [a[0]], [a[1]] and [a[dir.idx()]]. *)
Definition sel {A} (d : SecureDatagramDirection) (a : A * A) : A :=
  match d with AToB => fst a | BToA => snd a end.

Definition upd {A} (d : SecureDatagramDirection) (a : A * A) (x : A) : A * A :=
  match d with AToB => (x, snd a) | BToA => (fst a, x) end.

Definition map2 {A B} (f : A → B) (a : A * A) : B * B := (f (fst a), f (snd a)).

Module EpochRxSlot.

Record t : Type := mk {
  epoch : Z;
  window : ReplayWindow256.t;
  last_rx_ms : Z;
  valid : bool
}.

Definition default : t := mk 0 ReplayWindow256.default 0 false.

Definition clear (s : t) : t := mk 0 (ReplayWindow256.clear (window s)) 0 false.

(** [slot.valid && slot.epoch == epoch]. *)
Definition holds (s : t) (e : Z) : bool := valid s && (epoch s =? e).

End EpochRxSlot.

(** [[[EpochRxSlot; 2]; 2]]: direction first, then the current and previous slot. *)
Definition RxSlots : Type := (EpochRxSlot.t * EpochRxSlot.t) * (EpochRxSlot.t * EpochRxSlot.t).

Definition default_rx_slots : RxSlots :=
  ((EpochRxSlot.default, EpochRxSlot.default), (EpochRxSlot.default, EpochRxSlot.default)).

Module SyncRxGrace.

Record t : Type := mk { slots : RxSlots; expires_at_ms : Z; valid : bool }.

Definition default : t := mk default_rx_slots 0 false.

Definition clear (_ : t) : t := mk default_rx_slots 0 false.

Definition refresh (_ : t) (sl : RxSlots) (expires : Z) : t := mk sl expires true.

Definition maybe_expire (g : t) (now_ms : Z) : t :=
  if valid g && (expires_at_ms g <=? now_ms) then clear g else g.

End SyncRxGrace.

(** The errors of the session, by the message of the source. *)
Inductive SessionError : Type :=
| SessionInvalidated
| NoTail
| ReplayRejected
| AlgorithmNotSame
| CipherError (code : Z).

Definition EVICT_IDLE_AFTER_MS : Z := 30000.
Definition SYNC_RX_GRACE_AFTER_MS : Z := 5000.
Definition ROTATE_AFTER_PACKETS : Z := 1000000.
Definition ROTATE_AFTER_MS : Z := 10 * 60 * 1000.
Definition MAX_ACCEPTED_RX_EPOCH_AHEAD : Z := 3.
Definition DECRYPT_FAIL_THRESHOLD : Z := 10.

(** The nonce is the last 12 bytes of the AEAD tail, the last 28 of the payload. *)
Definition parse_tail (payload : list Z) : option (list Z) :=
  if len payload <? AEAD_TAIL_SIZE then None
  else slice_from payload (len payload - AEAD_NONCE_SIZE).

Section Session.

(** [usize], HMAC-SHA256 and the cipher backends selected by [create_encryptor]
    (128-bit key, 256-bit key). *)
Context (usize_bits : Z).
Context (hmac_sha256 : list Z → list Z → list Z).
Context {Encryptor : Type}.
Context (create_encryptor : string → list Z → list Z → Encryptor).
Context (encrypt_with_nonce : Encryptor → ZCPacket.t → list Z → result ZCPacket.t Z).
Context (decrypt : Encryptor → ZCPacket.t → result ZCPacket.t Z).

Record EpochKeySlot : Type := mkKeySlot {
  ks_epoch : Z;
  ks_generation : Z;
  ks_valid : bool;
  send_cipher : option Encryptor;
  recv_cipher : option Encryptor
}.

Definition default_key_slot : EpochKeySlot := mkKeySlot 0 0 false None None.

(** [unwrap] on the cipher. *)
Definition get_encryptor (s : EpochKeySlot) (is_send : bool) : option Encryptor :=
  if is_send then send_cipher s else recv_cipher s.

Definition KeyCache : Type := (EpochKeySlot * EpochKeySlot) * (EpochKeySlot * EpochKeySlot).

Definition default_key_cache : KeyCache :=
  ((default_key_slot, default_key_slot), (default_key_slot, default_key_slot)).

Record SecureDatagramSession : Type := mkSession {
  root_key_ : list Z;
  session_generation_ : Z;
  send_epoch : Z;
  send_seq : Z * Z;
  send_epoch_started_ms : Z;
  send_packets_since_epoch : Z;
  rx_slots : RxSlots;
  key_cache : KeyCache;
  sync_rx_grace : SyncRxGrace.t;
  sync_rx_grace_expires_at_ms : Z;
  send_cipher_algorithm : string;
  recv_cipher_algorithm : string;
  invalidated : bool;
  decrypt_fail_count : Z
}.

Implicit Types s : SecureDatagramSession.

(** Field stores. *)
Definition set_send s (e : Z) (sq : Z * Z) (started packets : Z) : SecureDatagramSession :=
  mkSession (root_key_ s) (session_generation_ s) e sq started packets (rx_slots s) (key_cache s)
    (sync_rx_grace s) (sync_rx_grace_expires_at_ms s) (send_cipher_algorithm s)
    (recv_cipher_algorithm s) (invalidated s) (decrypt_fail_count s).

Definition set_rx s (rx : RxSlots) (g : SyncRxGrace.t) (expires : Z) : SecureDatagramSession :=
  mkSession (root_key_ s) (session_generation_ s) (send_epoch s) (send_seq s)
    (send_epoch_started_ms s) (send_packets_since_epoch s) rx (key_cache s) g expires
    (send_cipher_algorithm s) (recv_cipher_algorithm s) (invalidated s) (decrypt_fail_count s).

Definition set_key_cache s (kc : KeyCache) : SecureDatagramSession :=
  mkSession (root_key_ s) (session_generation_ s) (send_epoch s) (send_seq s)
    (send_epoch_started_ms s) (send_packets_since_epoch s) (rx_slots s) kc (sync_rx_grace s)
    (sync_rx_grace_expires_at_ms s) (send_cipher_algorithm s) (recv_cipher_algorithm s)
    (invalidated s) (decrypt_fail_count s).

Definition set_health s (inv : bool) (fails : Z) : SecureDatagramSession :=
  mkSession (root_key_ s) (session_generation_ s) (send_epoch s) (send_seq s)
    (send_epoch_started_ms s) (send_packets_since_epoch s) (rx_slots s) (key_cache s)
    (sync_rx_grace s) (sync_rx_grace_expires_at_ms s) (send_cipher_algorithm s)
    (recv_cipher_algorithm s) inv fails.

Definition new (root : list Z) (generation initial_epoch : Z) (send_alg recv_alg : string)
    (now_ms : Z) : SecureDatagramSession :=
  mkSession root generation initial_epoch (0, 0) now_ms 0 default_rx_slots default_key_cache
    SyncRxGrace.default 0 send_alg recv_alg false 0.

Definition invalidate s : SecureDatagramSession := set_health s true (decrypt_fail_count s).

Definition is_valid s : bool := negb (invalidated s).

Definition session_generation s : Z := session_generation_ s.

Definition root_key s : list Z := root_key_ s.

(** The two [if valid { max }] of one direction. *)
Definition max_slot_epoch (base : Z) (slots : EpochRxSlot.t * EpochRxSlot.t) : Z :=
  let m := if EpochRxSlot.valid (fst slots) then Z.max base (EpochRxSlot.epoch (fst slots)) else base in
  if EpochRxSlot.valid (snd slots) then Z.max m (EpochRxSlot.epoch (snd slots)) else m.

Definition next_sync_epoch s : Z :=
  let m := max_slot_epoch (max_slot_epoch (send_epoch s) (fst (rx_slots s))) (snd (rx_slots s)) in
  wrapping_add 32 m 1.

Definition check_encrypt_algo_same s (send_alg recv_alg : string) : result unit SessionError :=
  if negb (bool_decide (send_cipher_algorithm s = send_alg)) ||
     negb (bool_decide (recv_cipher_algorithm s = recv_alg))
  then Err AlgorithmNotSame else Ok tt.

(** [now_started] and [now_grace] are the two readings of the clock. *)
Definition sync_root_key s (root : list Z) (generation initial_epoch : Z)
    (preserve_rx_grace : bool) (now_started now_grace : Z) : SecureDatagramSession :=
  let old_root_key := root_key s in
  let can_preserve := preserve_rx_grace && bool_decide (old_root_key = root) in
  let rx := rx_slots s in
  let '(g, expires) :=
    if can_preserve then
      let expires := saturating_add 64 now_grace SYNC_RX_GRACE_AFTER_MS in
      (SyncRxGrace.refresh (sync_rx_grace s) rx expires, expires)
    else (SyncRxGrace.clear (sync_rx_grace s), 0) in
  mkSession root generation initial_epoch (0, 0) now_started 0
    (map2 (map2 EpochRxSlot.clear) rx) default_key_cache g expires
    (send_cipher_algorithm s) (recv_cipher_algorithm s) (invalidated s) (decrypt_fail_count s).

(** ["et-traffic"]. *)
Definition et_traffic : list Z := [101; 116; 45; 116; 114; 97; 102; 102; 105; 99].

Definition hkdf_traffic_key (root : list Z) (epoch : Z) (dir : SecureDatagramDirection) : list Z :=
  let salt := replicate 32 0 in
  let prk := hmac_sha256 salt root in
  let info := et_traffic ++ to_be 4 epoch ++ [idx dir] in
  let okm := hmac_sha256 prk (info ++ [1]) in
  take 32 okm.

(** The loop over the two slots of a direction: the first slot that matches. *)
Definition find_key_slot (slots : EpochKeySlot * EpochKeySlot) (epoch generation : Z)
    : option EpochKeySlot :=
  let matches k := ks_valid k && (ks_epoch k =? epoch) && (ks_generation k =? generation) in
  if matches (fst slots) then Some (fst slots)
  else if matches (snd slots) then Some (snd slots) else None.

Definition make_key_slot s (epoch generation : Z) (dir : SecureDatagramDirection) : EpochKeySlot :=
  let key := hkdf_traffic_key (root_key s) epoch dir in
  let key_128 := take 16 key in
  mkKeySlot epoch generation true
    (Some (create_encryptor (send_cipher_algorithm s) key_128 key))
    (Some (create_encryptor (recv_cipher_algorithm s) key_128 key)).

Definition get_or_create_encryptor s (epoch : Z) (dir : SecureDatagramDirection)
    (generation : Z) (is_send : bool) : option (SecureDatagramSession * Encryptor) :=
  let slots := sel dir (key_cache s) in
  match find_key_slot slots epoch generation with
  | Some slot => e ← get_encryptor slot is_send; Some (s, e)
  | None =>
      let slot := make_key_slot s epoch generation dir in
      ret ← get_encryptor slot is_send;
      let slots' :=
        if negb (ks_valid (fst slots)) || (ks_epoch (fst slots) =? epoch)
        then (slot, snd slots) else (fst slots, slot) in
      Some (set_key_cache s (upd dir (key_cache s) slots'), ret)
  end.

(** The [compare_exchange] succeeds when the step runs alone. *)
Definition maybe_rotate_epoch s (now_ms : Z) : SecureDatagramSession :=
  let stored := wrapping_add 64 (send_packets_since_epoch s) 1 in
  let packets := stored in
  let started := send_epoch_started_ms s in
  if (packets <? ROTATE_AFTER_PACKETS) && (saturating_sub now_ms started <? ROTATE_AFTER_MS)
  then set_send s (send_epoch s) (send_seq s) started stored
  else set_send s (wrapping_add 32 (send_epoch s) 1) (send_seq s) now_ms 0.

Definition next_nonce s (dir : SecureDatagramDirection) (now_ms : Z)
    : SecureDatagramSession * (Z * Z * list Z) :=
  let s1 := maybe_rotate_epoch s now_ms in
  let epoch := send_epoch s1 in
  let seq := sel dir (send_seq s1) in
  let s2 := set_send s1 epoch (upd dir (send_seq s1) (wrapping_add 64 seq 1))
              (send_epoch_started_ms s1) (send_packets_since_epoch s1) in
  (s2, (epoch, seq, to_be 4 epoch ++ to_be 8 seq)).

Definition evict_slot (now_ms : Z) (slot : EpochRxSlot.t) : EpochRxSlot.t :=
  if negb (EpochRxSlot.valid slot) then slot
  else
    let last := EpochRxSlot.last_rx_ms slot in
    if negb (last =? 0) && (EVICT_IDLE_AFTER_MS <? saturating_sub now_ms last)
    then EpochRxSlot.clear slot else slot.

Definition evict_old_rx_slots (rx : RxSlots) (now_ms : Z) : RxSlots :=
  map2 (map2 (evict_slot now_ms)) rx.

Definition epoch_in_slots (slots : EpochRxSlot.t * EpochRxSlot.t) (epoch : Z) : bool :=
  EpochRxSlot.holds (fst slots) epoch || EpochRxSlot.holds (snd slots) epoch.

(** Returns the new value of [sync_rx_grace_expires_at_ms] and the answer. *)
Definition sync_rx_grace_active (expires_at_ms now_ms : Z) : Z * bool :=
  if expires_at_ms =? 0 then (expires_at_ms, false)
  else if now_ms <? expires_at_ms then (expires_at_ms, true)
  else (0, false).

Definition prune_key_cache s (grace : option SyncRxGrace.t) : SecureDatagramSession :=
  let allowed d e :=
    (e =? send_epoch s) || EpochRxSlot.holds (fst (sel d (rx_slots s))) e ||
    EpochRxSlot.holds (snd (sel d (rx_slots s))) e ||
    match grace with
    | Some g => epoch_in_slots (sel d (SyncRxGrace.slots g)) e
    | None => false
    end in
  let prune d k :=
    if negb (ks_valid k) then k
    else if negb (allowed d (ks_epoch k))
    then mkKeySlot (ks_epoch k) (ks_generation k) false (send_cipher k) (recv_cipher k) else k in
  set_key_cache s (map2 (prune AToB) (fst (key_cache s)), map2 (prune BToA) (snd (key_cache s))).

(** The common prologue of [precheck_replay] and [commit_replay]: eviction of the
    idle slots, and the grace slots when the grace period is active. *)
Definition rx_prologue s (now_ms : Z) : SecureDatagramSession * option SyncRxGrace.t :=
  let rx := evict_old_rx_slots (rx_slots s) now_ms in
  let '(expires, active) := sync_rx_grace_active (sync_rx_grace_expires_at_ms s) now_ms in
  if active then
    let g := SyncRxGrace.maybe_expire (sync_rx_grace s) now_ms in
    if SyncRxGrace.valid g then
      let g' := SyncRxGrace.mk (evict_old_rx_slots (SyncRxGrace.slots g) now_ms)
                  (SyncRxGrace.expires_at_ms g) (SyncRxGrace.valid g) in
      (set_rx s rx g' expires, Some g')
    else (set_rx s rx g 0, None)
  else (set_rx s rx (sync_rx_grace s) expires, None).

Definition max_allowed_epoch s (slots : EpochRxSlot.t * EpochRxSlot.t) : Z :=
  saturating_add 32 (max_slot_epoch (send_epoch s) slots) MAX_ACCEPTED_RX_EPOCH_AHEAD.

Definition precheck_replay s (epoch seq : Z) (dir : SecureDatagramDirection) (now_ms : Z)
    : SecureDatagramSession * bool :=
  let '(s1, grace) := rx_prologue s now_ms in
  let slots := sel dir (rx_slots s1) in
  let gslots := match grace with
                | Some g => if epoch_in_slots (sel dir (SyncRxGrace.slots g)) epoch
                            then Some (sel dir (SyncRxGrace.slots g)) else None
                | None => None
                end in
  (s1,
   match gslots with
   | Some gs =>
       if EpochRxSlot.holds (fst gs) epoch
       then ReplayWindow256.can_accept usize_bits (EpochRxSlot.window (fst gs)) seq
       else ReplayWindow256.can_accept usize_bits (EpochRxSlot.window (snd gs)) seq
   | None =>
       if negb (EpochRxSlot.valid (fst slots)) then true
       else if EpochRxSlot.holds (fst slots) epoch
       then ReplayWindow256.can_accept usize_bits (EpochRxSlot.window (fst slots)) seq
       else if EpochRxSlot.holds (snd slots) epoch
       then ReplayWindow256.can_accept usize_bits (EpochRxSlot.window (snd slots)) seq
       else if EpochRxSlot.valid (fst slots) && (EpochRxSlot.epoch (fst slots) <? epoch)
       then negb (max_allowed_epoch s1 slots <? epoch)
       else false
   end).

(** [slot.last_rx_ms = now_ms; slot.window.accept(seq)]. *)
Definition slot_accept (slot : EpochRxSlot.t) (seq now_ms : Z) : EpochRxSlot.t * bool :=
  let '(w, ok) := ReplayWindow256.accept usize_bits (EpochRxSlot.window slot) seq in
  (EpochRxSlot.mk (EpochRxSlot.epoch slot) w now_ms (EpochRxSlot.valid slot), ok).

Definition fresh_slot (epoch now_ms : Z) : EpochRxSlot.t :=
  EpochRxSlot.mk epoch ReplayWindow256.default now_ms true.

(** The branches of [commit_replay] on the slots of one direction. *)
Definition commit_slots s (slots : EpochRxSlot.t * EpochRxSlot.t) (epoch seq now_ms : Z)
    : (EpochRxSlot.t * EpochRxSlot.t) * bool :=
  let cur := if negb (EpochRxSlot.valid (fst slots)) then fresh_slot epoch now_ms else fst slots in
  let prev := snd slots in
  if EpochRxSlot.holds cur epoch then
    let '(c, ok) := slot_accept cur seq now_ms in ((c, prev), ok)
  else if EpochRxSlot.holds prev epoch then
    let '(p, ok) := slot_accept prev seq now_ms in ((cur, p), ok)
  else if EpochRxSlot.valid cur && (EpochRxSlot.epoch cur <? epoch) then
    if max_allowed_epoch s (cur, prev) <? epoch then ((cur, prev), false)
    else let '(c, ok) := slot_accept (fresh_slot epoch now_ms) seq now_ms in ((c, cur), ok)
  else ((cur, prev), false).

(** The first grace slot of the direction with the epoch. *)
Definition commit_grace (gs : EpochRxSlot.t * EpochRxSlot.t) (epoch seq now_ms : Z)
    : (EpochRxSlot.t * EpochRxSlot.t) * bool :=
  if EpochRxSlot.holds (fst gs) epoch then
    let '(c, ok) := slot_accept (fst gs) seq now_ms in ((c, snd gs), ok)
  else if EpochRxSlot.holds (snd gs) epoch then
    let '(p, ok) := slot_accept (snd gs) seq now_ms in ((fst gs, p), ok)
  else (gs, false).

Definition commit_replay s (epoch seq : Z) (dir : SecureDatagramDirection) (now_ms : Z)
    : SecureDatagramSession * bool :=
  let '(s1, grace) := rx_prologue s now_ms in
  match grace with
  | Some g =>
      if epoch_in_slots (sel dir (SyncRxGrace.slots g)) epoch then
        let '(gs, ok) := commit_grace (sel dir (SyncRxGrace.slots g)) epoch seq now_ms in
        let g' := SyncRxGrace.mk (upd dir (SyncRxGrace.slots g) gs) (SyncRxGrace.expires_at_ms g)
                    (SyncRxGrace.valid g) in
        let s2 := set_rx s1 (rx_slots s1) g' (sync_rx_grace_expires_at_ms s1) in
        (prune_key_cache s2 (Some g'), ok)
      else
        let '(sl, ok) := commit_slots s1 (sel dir (rx_slots s1)) epoch seq now_ms in
        let s2 := set_rx s1 (upd dir (rx_slots s1) sl) g (sync_rx_grace_expires_at_ms s1) in
        (prune_key_cache s2 (Some g), ok)
  | None =>
      let '(sl, ok) := commit_slots s1 (sel dir (rx_slots s1)) epoch seq now_ms in
      let s2 := set_rx s1 (upd dir (rx_slots s1) sl) (sync_rx_grace s1)
                  (sync_rx_grace_expires_at_ms s1) in
      (prune_key_cache s2 None, ok)
  end.

Definition encrypt_payload s (dir : SecureDatagramDirection) (pkt : ZCPacket.t) (now_ms : Z)
    : option (SecureDatagramSession * result ZCPacket.t SessionError) :=
  if negb (is_valid s) then Some (s, Err SessionInvalidated)
  else
    let '(s1, (epoch, _, nonce)) := next_nonce s dir now_ms in
    r ← get_or_create_encryptor s1 epoch dir (session_generation s1) true;
    let '(s2, encryptor) := r in
    match encrypt_with_nonce encryptor pkt nonce with
    | Ok p => Some (s2, Ok p)
    | Err e => Some (invalidate s2, Err (CipherError e))
    end.

Definition decrypt_payload s (dir : SecureDatagramDirection) (pkt : ZCPacket.t) (now_ms : Z)
    : option (SecureDatagramSession * result ZCPacket.t SessionError) :=
  if negb (is_valid s) then Some (s, Err SessionInvalidated)
  else
    payload ← ZCPacket.payload pkt;
    match parse_tail payload with
    | None => Some (s, Err NoTail)
    | Some nonce =>
        let epoch := from_be (take 4 nonce) in
        let seq := from_be (drop 4 nonce) in
        let '(s1, ok) := precheck_replay s epoch seq dir now_ms in
        if negb ok then Some (s1, Err ReplayRejected)
        else
          r ← get_or_create_encryptor s1 epoch dir (session_generation s1) false;
          let '(s2, encryptor) := r in
          match decrypt encryptor pkt with
          | Err e =>
              let count := wrapping_add 32 (decrypt_fail_count s2) 1 in
              let s3 := set_health s2 (invalidated s2) count in
              let s4 := if DECRYPT_FAIL_THRESHOLD <=? count then invalidate s3 else s3 in
              Some (s4, Err (CipherError e))
          | Ok p =>
              let s3 := set_health s2 (invalidated s2) 0 in
              let '(s4, committed) := commit_replay s3 epoch seq dir now_ms in
              if negb committed then Some (s4, Err ReplayRejected) else Some (s4, Ok p)
          end
    end.

End Session.

(** * Properties *)

Section Facts.

Context (usize_bits : Z).
Context (hmac_sha256 : list Z → list Z → list Z).
Context {Encryptor : Type}.
Context (create_encryptor : string → list Z → list Z → Encryptor).
Context (encrypt_with_nonce : Encryptor → ZCPacket.t → list Z → result ZCPacket.t Z).
Context (decrypt : Encryptor → ZCPacket.t → result ZCPacket.t Z).

Implicit Types s : @SecureDatagramSession Encryptor.

(** ** The two-element arrays *)

Lemma sel_upd {A} d (a : A * A) x : sel d (upd d a x) = x.
Proof. by destruct d. Qed.

Lemma sel_upd_ne {A} d d' (a : A * A) x : d ≠ d' → sel d' (upd d a x) = sel d' a.
Proof. by destruct d, d'. Qed.

Lemma upd_sel {A} d (a : A * A) : upd d a (sel d a) = a.
Proof. by destruct d, a. Qed.

Lemma sel_map2 {A B} (f : A → B) d a : sel d (map2 f a) = f (sel d a).
Proof. by destruct d. Qed.

Lemma map2_idem {A} (f : A → A) (a : A * A) :
  (∀ x, f (f x) = f x) → map2 f (map2 f a) = map2 f a.
Proof. intros H. unfold map2; simpl. by rewrite !H. Qed.

(** ** The replay checks *)

Lemma evict_slot_idem now x : evict_slot now (evict_slot now x) = evict_slot now x.
Proof.
  unfold evict_slot. destruct (EpochRxSlot.valid x) eqn:Hv; simpl; [|by rewrite Hv].
  destruct (negb _ && _) eqn:E; simpl; [done|]. by rewrite Hv, E.
Qed.

Lemma evict_rx_idem now rx :
  evict_old_rx_slots (evict_old_rx_slots rx now) now = evict_old_rx_slots rx now.
Proof.
  unfold evict_old_rx_slots. apply map2_idem. intros. apply map2_idem. apply evict_slot_idem.
Qed.

(** The receive state: what the replay checks read. *)
Definition rx_view s : RxSlots * SyncRxGrace.t * Z * Z :=
  (rx_slots s, sync_rx_grace s, sync_rx_grace_expires_at_ms s, send_epoch s).

Lemma rx_prologue_view s s' now :
  rx_view s = rx_view s' →
  rx_view (fst (rx_prologue s now)) = rx_view (fst (rx_prologue s' now)) ∧
  snd (rx_prologue s now) = snd (rx_prologue s' now).
Proof.
  unfold rx_view. intros [= H1 H2 H3 H4]. unfold rx_prologue. rewrite H1, H2, H3.
  destruct (sync_rx_grace_active _ _) as [ex []]; simpl; [|by rewrite H4].
  destruct (SyncRxGrace.valid _); simpl; by rewrite H4.
Qed.

(** What the prologue leaves behind: a state on which it is the identity. *)
Definition rx_settled s (g : option SyncRxGrace.t) (now : Z) : Prop :=
  evict_old_rx_slots (rx_slots s) now = rx_slots s ∧
  match g with
  | None => sync_rx_grace_active (sync_rx_grace_expires_at_ms s) now =
              (sync_rx_grace_expires_at_ms s, false)
  | Some g' =>
      sync_rx_grace s = g' ∧
      sync_rx_grace_active (sync_rx_grace_expires_at_ms s) now =
        (sync_rx_grace_expires_at_ms s, true) ∧
      SyncRxGrace.maybe_expire g' now = g' ∧ SyncRxGrace.valid g' = true ∧
      evict_old_rx_slots (SyncRxGrace.slots g') now = SyncRxGrace.slots g'
  end.

Lemma grace_active_settled e now :
  sync_rx_grace_active (fst (sync_rx_grace_active e now)) now = sync_rx_grace_active e now.
Proof.
  unfold sync_rx_grace_active.
  destruct (Z.eqb_spec e 0) as [->|He]; [done|].
  destruct (Z.ltb_spec now e); simpl; [|done].
  destruct (Z.eqb_spec e 0); [done|]. destruct (Z.ltb_spec now e); [done|lia].
Qed.

Lemma rx_prologue_settled s now :
  rx_settled (fst (rx_prologue s now)) (snd (rx_prologue s now)) now.
Proof.
  unfold rx_prologue, rx_settled.
  pose proof (grace_active_settled (sync_rx_grace_expires_at_ms s) now) as Hset.
  destruct (sync_rx_grace_active (sync_rx_grace_expires_at_ms s) now) as [ex []] eqn:Ea; simpl in Hset.
  - destruct (SyncRxGrace.valid (SyncRxGrace.maybe_expire (sync_rx_grace s) now)) eqn:Hv; simpl;
      rewrite ?evict_rx_idem; [|done].
    split_and!; try done. unfold SyncRxGrace.maybe_expire in *. simpl.
    destruct (SyncRxGrace.valid (sync_rx_grace s) && _) eqn:E; simpl in *; [done|].
    rewrite Hv in *. simpl in *. by rewrite E.
  - simpl. by rewrite evict_rx_idem.
Qed.

Lemma rx_prologue_of_settled s g now :
  rx_settled s g now →
  rx_view (fst (rx_prologue s now)) = rx_view s ∧ snd (rx_prologue s now) = g.
Proof.
  unfold rx_settled, rx_prologue, rx_view. intros [He Hg]. rewrite He. destruct g as [g|].
  - destruct Hg as (Hs & -> & Hm & Hv & Hev). rewrite Hs, Hm, Hv. simpl. rewrite Hev.
    destruct g as [sl ex va]; simpl in *. by rewrite Hv.
  - rewrite Hg. done.
Qed.

Lemma rx_prologue_idem s now :
  rx_view (fst (rx_prologue (fst (rx_prologue s now)) now)) = rx_view (fst (rx_prologue s now)) ∧
  snd (rx_prologue (fst (rx_prologue s now)) now) = snd (rx_prologue s now).
Proof. apply rx_prologue_of_settled, rx_prologue_settled. Qed.

Lemma accept_default_true seq : snd (ReplayWindow256.accept usize_bits ReplayWindow256.default seq) = true.
Proof. done. Qed.

Lemma slot_accept_snd slot seq now :
  snd (slot_accept usize_bits slot seq now) =
    ReplayWindow256.can_accept usize_bits (EpochRxSlot.window slot) seq.
Proof.
  unfold slot_accept. rewrite ReplayWindow256.can_accept_accept.
  by destruct (ReplayWindow256.accept _ _ _).
Qed.

(** Reads the boolean of a [let '(_, ok) := slot_accept ..] . *)
Lemma let_slot_accept {A} slot seq now (f : EpochRxSlot.t → A) :
  snd (let '(c, ok) := slot_accept usize_bits slot seq now in (f c, ok)) =
    ReplayWindow256.can_accept usize_bits (EpochRxSlot.window slot) seq.
Proof. rewrite <- slot_accept_snd with (now := now). by destruct (slot_accept _ _ _ _). Qed.

Lemma commit_slots_decision s slots epoch seq now :
  snd (commit_slots usize_bits s slots epoch seq now) =
  (if negb (EpochRxSlot.valid (fst slots)) then true
   else if EpochRxSlot.holds (fst slots) epoch
   then ReplayWindow256.can_accept usize_bits (EpochRxSlot.window (fst slots)) seq
   else if EpochRxSlot.holds (snd slots) epoch
   then ReplayWindow256.can_accept usize_bits (EpochRxSlot.window (snd slots)) seq
   else if EpochRxSlot.valid (fst slots) && (EpochRxSlot.epoch (fst slots) <? epoch)
   then negb (max_allowed_epoch s slots <? epoch)
   else false).
Proof.
  unfold commit_slots. destruct slots as [cur prev]; simpl.
  destruct (EpochRxSlot.valid cur) eqn:Hv; simpl.
  - destruct (EpochRxSlot.holds cur epoch); [apply let_slot_accept|].
    destruct (EpochRxSlot.holds prev epoch); [apply let_slot_accept|].
    rewrite Hv; simpl. destruct (_ <? epoch); [|done].
    by destruct (max_allowed_epoch s _ <? epoch).
  - unfold EpochRxSlot.holds, fresh_slot; simpl. by rewrite Z.eqb_refl.
Qed.

Lemma commit_grace_decision gs epoch seq now :
  epoch_in_slots gs epoch = true →
  snd (commit_grace usize_bits gs epoch seq now) =
  (if EpochRxSlot.holds (fst gs) epoch
   then ReplayWindow256.can_accept usize_bits (EpochRxSlot.window (fst gs)) seq
   else ReplayWindow256.can_accept usize_bits (EpochRxSlot.window (snd gs)) seq).
Proof.
  unfold commit_grace, epoch_in_slots. intros H.
  destruct (EpochRxSlot.holds (fst gs) epoch); [apply let_slot_accept|]. simpl in H.
  rewrite H. apply let_slot_accept.
Qed.

Lemma commit_precheck s epoch seq dir now :
  snd (commit_replay usize_bits s epoch seq dir now) =
  snd (precheck_replay usize_bits s epoch seq dir now).
Proof.
  unfold commit_replay, precheck_replay.
  destruct (rx_prologue s now) as [s1 [g|]]; simpl.
  - destruct (epoch_in_slots _ epoch) eqn:E.
    + rewrite <- (commit_grace_decision _ _ seq now E). by destruct (commit_grace _ _ _ _ _).
    + rewrite <- (commit_slots_decision s1 _ _ _ now). by destruct (commit_slots _ _ _ _ _ _).
  - rewrite <- (commit_slots_decision s1 _ _ _ now). by destruct (commit_slots _ _ _ _ _ _).
Qed.

Lemma precheck_view s s' epoch seq dir now :
  rx_view s = rx_view s' →
  snd (precheck_replay usize_bits s epoch seq dir now) =
  snd (precheck_replay usize_bits s' epoch seq dir now).
Proof.
  intros H. destruct (rx_prologue_view s s' now H) as [Hv Hg]. unfold precheck_replay.
  destruct (rx_prologue s now) as [s1 g], (rx_prologue s' now) as [s1' g']; simpl in *.
  subst g'. unfold rx_view in Hv. injection Hv as H1 _ _ H4.
  rewrite H1. unfold max_allowed_epoch. by rewrite H4.
Qed.

Lemma precheck_fst s epoch seq dir now :
  fst (precheck_replay usize_bits s epoch seq dir now) = fst (rx_prologue s now).
Proof. unfold precheck_replay. by destruct (rx_prologue s now). Qed.

Lemma precheck_idem s epoch seq dir now :
  snd (precheck_replay usize_bits (fst (precheck_replay usize_bits s epoch seq dir now))
         epoch seq dir now) =
  snd (precheck_replay usize_bits s epoch seq dir now).
Proof.
  rewrite precheck_fst. pose proof (rx_prologue_idem s now) as [Hv Hg].
  unfold precheck_replay. destruct (rx_prologue (fst (rx_prologue s now)) now) as [s2 g2].
  destruct (rx_prologue s now) as [s1 g1]; simpl in *. subst g2.
  unfold rx_view in Hv. injection Hv as H1 _ _ H4. rewrite H1. unfold max_allowed_epoch.
  by rewrite H4.
Qed.

(** ** The key cache *)

(** The cipher a key should give: derived from the root key, the epoch and the
    direction, with the algorithm of the side. *)
Definition reference_encryptor s (epoch : Z) (dir : SecureDatagramDirection) (is_send : bool)
    : Encryptor :=
  let key := hkdf_traffic_key hmac_sha256 (root_key s) epoch dir in
  create_encryptor (if is_send then send_cipher_algorithm s else recv_cipher_algorithm s)
    (take 16 key) key.

Definition key_slot_ok s (dir : SecureDatagramDirection) (k : EpochKeySlot) : Prop :=
  ks_valid k = true →
  send_cipher k = Some (reference_encryptor s (ks_epoch k) dir true) ∧
  recv_cipher k = Some (reference_encryptor s (ks_epoch k) dir false).

(** Every valid slot of the cache holds the ciphers of the current root key. *)
Definition key_cache_ok s : Prop :=
  ∀ dir, key_slot_ok s dir (fst (sel dir (key_cache s))) ∧
         key_slot_ok s dir (snd (sel dir (key_cache s))).

Lemma key_cache_ok_same s s' :
  root_key s = root_key s' → send_cipher_algorithm s = send_cipher_algorithm s' →
  recv_cipher_algorithm s = recv_cipher_algorithm s' → key_cache s = key_cache s' →
  key_cache_ok s → key_cache_ok s'.
Proof.
  unfold key_cache_ok, key_slot_ok, reference_encryptor. intros -> -> -> ->. done.
Qed.

Lemma key_cache_ok_default s : key_cache s = default_key_cache → key_cache_ok s.
Proof. intros H dir. rewrite H. by destruct dir. Qed.

Lemma find_key_slot_ok s dir epoch generation k :
  key_cache_ok s → find_key_slot (sel dir (key_cache s)) epoch generation = Some k →
  key_slot_ok s dir k ∧ ks_valid k = true ∧ ks_epoch k = epoch.
Proof.
  intros Hok. destruct (Hok dir) as [H1 H2]. unfold find_key_slot.
  destruct (ks_valid _ && _ && _) eqn:E1; [intros [= <-]; bool_to_prop; done|].
  destruct (ks_valid (snd _) && _ && _) eqn:E2; [intros [= <-]; bool_to_prop; done|done].
Qed.

Lemma make_key_slot_ok s epoch generation dir :
  key_slot_ok s dir (make_key_slot hmac_sha256 create_encryptor s epoch generation dir).
Proof. intros _. done. Qed.

Lemma get_or_create_ok s epoch dir generation is_send :
  key_cache_ok s →
  ∃ s', get_or_create_encryptor hmac_sha256 create_encryptor s epoch dir generation is_send =
          Some (s', reference_encryptor s epoch dir is_send) ∧
        key_cache_ok s' ∧ ∃ kc, s' = set_key_cache s kc.
Proof.
  intros Hok. unfold get_or_create_encryptor.
  destruct (find_key_slot _ _ _) as [k|] eqn:Hf.
  - destruct (find_key_slot_ok _ _ _ _ _ Hok Hf) as (Hk & Hv & He).
    destruct (Hk Hv) as [Hs Hr]. exists s. unfold get_encryptor. rewrite He in *.
    split; [destruct is_send; by rewrite ?Hs, ?Hr|]. split; [done|].
    exists (key_cache s). by destruct s.
  - eexists. split; [by destruct is_send|]. split; [|by eexists].
    destruct (Hok dir) as [H1 H2].
    intros d. destruct (decide (dir = d)) as [<-|Hne]; cbn [key_cache set_key_cache].
    + rewrite sel_upd. case_match; simpl; split; try done.
    + rewrite sel_upd_ne by done. apply Hok.
Qed.

(** The key cache is transparent: whatever the cache holds, the encryptor
    that [get_or_create_encryptor] returns is the one derived from the current root
    key, epoch and direction (no [unwrap] fails), and the cache stays correct. *)
Theorem key_cache_transparent s epoch dir generation is_send :
  key_cache_ok s →
  ∃ s', get_or_create_encryptor hmac_sha256 create_encryptor s epoch dir generation is_send =
          Some (s', reference_encryptor s epoch dir is_send) ∧ key_cache_ok s'.
Proof.
  intros Hok. destruct (get_or_create_ok s epoch dir generation is_send Hok) as (s' & H & H' & _).
  eauto.
Qed.

(** ** Every step keeps the cache correct *)

Lemma prune_key_cache_ok s g : key_cache_ok s → key_cache_ok (prune_key_cache s g).
Proof.
  intros Hok dir. destruct (Hok dir) as [H1 H2]. unfold prune_key_cache.
  cbn [key_cache set_key_cache].
  assert (Hp : ∀ (b : bool) k, key_slot_ok s dir k →
    key_slot_ok s dir (if negb (ks_valid k) then k else if negb b then
      mkKeySlot (ks_epoch k) (ks_generation k) false (send_cipher k) (recv_cipher k) else k)).
  { intros b k Hk. destruct (ks_valid k) eqn:Hv; simpl; [|done]. by destruct b; simpl. }
  destruct dir; simpl in *; (split; [exact (Hp _ _ H1)|exact (Hp _ _ H2)]).
Qed.

Lemma rx_prologue_fields s now :
  ∃ rx g ex, fst (rx_prologue s now) = set_rx s rx g ex.
Proof.
  unfold rx_prologue. destruct (sync_rx_grace_active _ _) as [ex []]; simpl; [|by eauto].
  destruct (SyncRxGrace.valid _); simpl; eauto.
Qed.

Lemma set_rx_key_ok s rx g ex : key_cache_ok s → key_cache_ok (set_rx s rx g ex).
Proof. by apply key_cache_ok_same. Qed.

Lemma commit_replay_key_ok s epoch seq dir now :
  key_cache_ok s → key_cache_ok (fst (commit_replay usize_bits s epoch seq dir now)).
Proof.
  intros Hok. unfold commit_replay.
  destruct (rx_prologue_fields s now) as (rx & g & ex & E).
  destruct (rx_prologue s now) as [s1 gr]; simpl in E. subst s1.
  assert (key_cache_ok (set_rx s rx g ex)) by (by apply set_rx_key_ok).
  destruct gr as [g'|]; [destruct (epoch_in_slots _ _)|].
  - destruct (commit_grace _ _ _ _ _). by apply prune_key_cache_ok, set_rx_key_ok.
  - destruct (commit_slots _ _ _ _ _ _). by apply prune_key_cache_ok, set_rx_key_ok.
  - destruct (commit_slots _ _ _ _ _ _). by apply prune_key_cache_ok, set_rx_key_ok.
Qed.

(** ** Decryption *)

(** The result of [decrypt_payload] on a well-formed tail. *)
Lemma decrypt_payload_result s dir pkt now payload nonce :
  is_valid s = true → key_cache_ok s →
  ZCPacket.payload pkt = Some payload → parse_tail payload = Some nonce →
  let epoch := from_be (take 4 nonce) in
  let seq := from_be (drop 4 nonce) in
  let pre := precheck_replay usize_bits s epoch seq dir now in
  ∃ s', decrypt_payload usize_bits hmac_sha256 create_encryptor decrypt s dir pkt now =
    Some (s',
      if snd pre then
        match decrypt (reference_encryptor s epoch dir false) pkt with
        | Ok p => Ok p
        | Err e => Err (CipherError e)
        end
      else Err ReplayRejected) ∧ key_cache_ok s'.
Proof.
  intros Hv Hok Hp Ht epoch seq pre. unfold decrypt_payload. rewrite Hv, Hp. cbn [negb mbind option_bind].
  rewrite Ht. fold epoch seq. unfold pre.
  pose proof (precheck_fst s epoch seq dir now) as Hfst.
  pose proof (precheck_idem s epoch seq dir now) as Hidem.
  destruct (rx_prologue_fields s now) as (rx & g & ex & E). rewrite E in Hfst.
  destruct (precheck_replay usize_bits s epoch seq dir now) as [s1 ok] eqn:Epre.
  simpl in Hfst, Hidem. subst s1.
  assert (Hok1 : key_cache_ok (set_rx s rx g ex)) by (by apply set_rx_key_ok).
  destruct ok; cbn [snd negb]; [|by eauto].
  destruct (get_or_create_ok (set_rx s rx g ex) epoch dir (session_generation (set_rx s rx g ex)) false Hok1)
    as (s2 & -> & Hok2 & kc & ->). cbn [mbind option_bind].
  change (reference_encryptor (set_rx s rx g ex) epoch dir false)
    with (reference_encryptor s epoch dir false).
  destruct (decrypt _ pkt) as [p|e].
  - match goal with |- context [commit_replay usize_bits ?st _ _ _ _] => set (s3 := st) end.
    pose proof (commit_precheck s3 epoch seq dir now) as Hc.
    rewrite (precheck_view s3 (set_rx s rx g ex)) in Hc by done.
    rewrite Hidem in Hc.
    assert (Hok3 : key_cache_ok s3) by (revert Hok2; by apply key_cache_ok_same).
    pose proof (commit_replay_key_ok s3 epoch seq dir now Hok3) as Hok4.
    destruct (commit_replay usize_bits s3 epoch seq dir now) as [s4 c]; simpl in Hc, Hok4.
    subst c. simpl. eauto.
  - eexists. split; [done|]. destruct (DECRYPT_FAIL_THRESHOLD <=? _);
      (revert Hok2; by apply key_cache_ok_same).
Qed.

(** The two replay checks of [decrypt_payload] agree: when the pre-check passes
    and the cipher accepts the packet, the commit never refuses it, so the packet is
    returned and the failure counter is reset; when the pre-check fails the packet is
    rejected before the cipher runs. *)
Theorem decrypt_commit_agrees s dir pkt now payload nonce :
  is_valid s = true → key_cache_ok s →
  ZCPacket.payload pkt = Some payload → parse_tail payload = Some nonce →
  let epoch := from_be (take 4 nonce) in
  let seq := from_be (drop 4 nonce) in
  let pre := precheck_replay usize_bits s epoch seq dir now in
  ∃ s', decrypt_payload usize_bits hmac_sha256 create_encryptor decrypt s dir pkt now =
    Some (s',
      if snd pre then
        match decrypt (reference_encryptor s epoch dir false) pkt with
        | Ok p => Ok p
        | Err e => Err (CipherError e)
        end
      else Err ReplayRejected) ∧ key_cache_ok s'.
Proof. apply decrypt_payload_result. Qed.

(** ** Nonces *)

(** A run of [next_nonce] calls: direction and clock of each call, and the nonces
    with their direction. *)
Fixpoint next_nonces s (calls : list (SecureDatagramDirection * Z))
    : @SecureDatagramSession Encryptor * list (SecureDatagramDirection * list Z) :=
  match calls with
  | [] => (s, [])
  | (dir, now) :: r =>
      let '(s1, (_, _, nonce)) := next_nonce s dir now in
      let '(s2, ns) := next_nonces s1 r in
      (s2, (dir, nonce) :: ns)
  end.

Definition calls_in (d : SecureDatagramDirection) (calls : list (SecureDatagramDirection * Z)) : Z :=
  Z.of_nat (length (filter (λ c, c.1 = d) calls)).

Lemma calls_in_cons d d' now r :
  calls_in d ((d', now) :: r) = (if decide (d' = d) then 1 else 0) + calls_in d r.
Proof.
  unfold calls_in. rewrite filter_cons. simpl. destruct (decide (d' = d)); simpl; lia.
Qed.

Lemma next_nonce_seq s dir now :
  sel dir (send_seq (fst (next_nonce s dir now))) = wrapping_add 64 (sel dir (send_seq s)) 1 ∧
  (∀ d, d ≠ dir → sel d (send_seq (fst (next_nonce s dir now))) = sel d (send_seq s)) ∧
  ∃ e, snd (snd (next_nonce s dir now)) = to_be 4 e ++ to_be 8 (sel dir (send_seq s)).
Proof.
  unfold next_nonce, maybe_rotate_epoch.
  destruct ((_ <? ROTATE_AFTER_PACKETS) && _); cbn -[to_be];
    (split_and!; [apply sel_upd|intros; by apply sel_upd_ne|eauto]).
Qed.

Lemma to_be_8_inj x y : is_uint 64 x → is_uint 64 y → to_be 8 x = to_be 8 y → x = y.
Proof.
  unfold is_uint. intros Hx Hy H. apply (f_equal from_be) in H.
  rewrite !from_be_to_be in H. change (256 ^ Z.of_nat 8) with (2 ^ 64) in H.
  by rewrite !Z.mod_small in H.
Qed.

Lemma calls_in_nonneg d calls : 0 <= calls_in d calls.
Proof. unfold calls_in. lia. Qed.

(** Without a call in a direction there is no nonce of it. *)
Lemma next_nonces_none s calls d nonce :
  calls_in d calls = 0 → (d, nonce) ∉ snd (next_nonces s calls).
Proof.
  revert s. induction calls as [|[d0 n0] l IH]; intros s Hz; cbn [next_nonces];
    [by apply not_elem_of_nil|].
  rewrite calls_in_cons in Hz. pose proof (calls_in_nonneg d l).
  destruct (next_nonce s d0 n0) as [s1 [[? ?] n1]].
  specialize (IH s1). destruct (next_nonces s1 l) as [s2 ns]; cbn [fst snd] in *.
  destruct (decide (d0 = d)); [lia|]. apply not_elem_of_cons. split; [congruence|]. apply IH. lia.
Qed.

(** The bound on the sequence numbers survives a call. *)
Definition seq_room s calls : Prop :=
  ∀ d, 0 <= sel d (send_seq s) ∧ sel d (send_seq s) + calls_in d calls <= 2 ^ 64.

Lemma seq_room_step s dir now r :
  seq_room s ((dir, now) :: r) → 1 <= calls_in dir r →
  seq_room (fst (next_nonce s dir now)) r ∧
  sel dir (send_seq (fst (next_nonce s dir now))) = sel dir (send_seq s) + 1.
Proof.
  intros Hb Hmore. destruct (next_nonce_seq s dir now) as (Hq & Hother & _).
  destruct (Hb dir) as [Hb0 Hb1]. rewrite calls_in_cons, decide_True in Hb1 by done.
  assert (Hq' : sel dir (send_seq (fst (next_nonce s dir now))) = sel dir (send_seq s) + 1).
  { rewrite Hq. unfold wrapping_add, wrap. apply Z.mod_small. lia. }
  split; [|done]. intros d. destruct (decide (d = dir)) as [->|Hd]; [lia|].
  rewrite Hother by done. destruct (Hb d) as [? Hd2].
  rewrite calls_in_cons, decide_False in Hd2 by done. lia.
Qed.

(** A call in another direction, when this one is over. *)
Lemma seq_room_last s dir now r :
  seq_room s ((dir, now) :: r) → calls_in dir r = 0 →
  seq_room (fst (next_nonce s dir now)) r.
Proof.
  intros Hb Hz. destruct (next_nonce_seq s dir now) as (Hq & Hother & _). intros d.
  destruct (decide (d = dir)) as [->|Hd].
  - rewrite Hq, Hz. unfold wrapping_add, wrap.
    pose proof (Z.mod_pos_bound (sel dir (send_seq s) + 1) (2 ^ 64)). lia.
  - rewrite Hother by done. destruct (Hb d) as [? Hd2].
    rewrite calls_in_cons, decide_False in Hd2 by done. lia.
Qed.

Lemma next_nonces_above s calls d nonce :
  seq_room s calls → (d, nonce) ∈ snd (next_nonces s calls) →
  ∃ e q, nonce = to_be 4 e ++ to_be 8 q ∧ sel d (send_seq s) <= q < 2 ^ 64.
Proof.
  revert s. induction calls as [|[dir now] r IH]; intros s Hb Hin;
    cbn [next_nonces] in Hin.
  { by apply elem_of_nil in Hin. }
  pose proof (next_nonce_seq s dir now) as (Hq & Hother & e & Hn).
  pose proof (seq_room_step s dir now r Hb) as Hstep.
  pose proof (seq_room_last s dir now r Hb) as Hlast.
  destruct (next_nonce s dir now) as [s1 [[e1 q1] n1]]; cbn [fst snd] in *.
  pose proof (next_nonces_none s1 r dir nonce) as Hnone. specialize (IH s1).
  destruct (next_nonces s1 r) as [s2 ns]; cbn [fst snd] in *.
  pose proof (calls_in_nonneg dir r). destruct (Hb dir) as [Hb0 Hb1].
  rewrite calls_in_cons, decide_True in Hb1 by done.
  apply elem_of_cons in Hin as [[= -> ->]|Hin].
  { exists e, (sel dir (send_seq s)). split; [done|lia]. }
  destruct (decide (calls_in dir r = 0)) as [Hz|Hmore].
  - destruct (IH (Hlast Hz) Hin) as (e2 & q2 & -> & Hr). exists e2, q2. split; [done|].
    destruct (decide (d = dir)) as [->|Hd]; [by apply Hnone in Hin|]. by rewrite Hother in Hr.
  - destruct Hstep as [Hroom Hq']; [lia|].
    destruct (IH Hroom Hin) as (e2 & q2 & -> & Hr). exists e2, q2. split; [done|].
    destruct (decide (d = dir)) as [->|Hd]; [lia|]. by rewrite Hother in Hr.
Qed.


End Facts.

(** * Replay protection of the session *)

Section Replay.

Context {Encryptor : Type}.
Implicit Types s : @SecureDatagramSession Encryptor.
Implicit Types H : gset (SecureDatagramDirection * Z * Z).

(** A received packet as the replay state sees it. *)
Record Received : Type := mkReceived {
  rcv_dir : SecureDatagramDirection;
  rcv_epoch : Z;
  rcv_seq : Z;
  rcv_now : Z
}.

(** A run of [commit_replay] on a 64-bit target: the accepted (direction, epoch,
    sequence number) triples, in order. *)
Fixpoint commit_all s (calls : list Received)
    : @SecureDatagramSession Encryptor * list (SecureDatagramDirection * Z * Z) :=
  match calls with
  | [] => (s, [])
  | c :: r =>
      let '(s1, ok) := commit_replay 64 s (rcv_epoch c) (rcv_seq c) (rcv_dir c) (rcv_now c) in
      let '(s2, acc) := commit_all s1 r in
      (s2, if ok then (rcv_dir c, rcv_epoch c, rcv_seq c) :: acc else acc)
  end.

(** A slot remembers exactly the accepted numbers of its epoch. *)
Definition slot_inv (d : SecureDatagramDirection) (t0 : Z) (slot : EpochRxSlot.t) H : Prop :=
  t0 <= EpochRxSlot.last_rx_ms slot ∧
  ∃ S, ReplayWindow256.refines (EpochRxSlot.window slot) S ∧
       ∀ q, q ∈ S ↔ (d, EpochRxSlot.epoch slot, q) ∈ H.

(** The two slots of a direction: the current one has the highest accepted epoch. *)
Definition dir_inv (d : SecureDatagramDirection) (t0 : Z)
    (slots : EpochRxSlot.t * EpochRxSlot.t) H : Prop :=
  (EpochRxSlot.valid (fst slots) = false →
     EpochRxSlot.valid (snd slots) = false ∧ ∀ e q, (d, e, q) ∉ H) ∧
  (EpochRxSlot.valid (fst slots) = true →
     slot_inv d t0 (fst slots) H ∧ ∀ e q, (d, e, q) ∈ H → e <= EpochRxSlot.epoch (fst slots)) ∧
  (EpochRxSlot.valid (snd slots) = true →
     slot_inv d t0 (snd slots) H ∧ EpochRxSlot.epoch (snd slots) < EpochRxSlot.epoch (fst slots)).

Lemma slot_inv_ext d t0 slot H H' :
  (∀ q, (d, EpochRxSlot.epoch slot, q) ∈ H ↔ (d, EpochRxSlot.epoch slot, q) ∈ H') →
  slot_inv d t0 slot H → slot_inv d t0 slot H'.
Proof. intros E (Ht & S & HR & HS). split; [done|]. exists S. split; [done|]. intros q. by rewrite HS. Qed.

Lemma dir_inv_ext d t0 slots H H' :
  (∀ e q, (d, e, q) ∈ H ↔ (d, e, q) ∈ H') → dir_inv d t0 slots H → dir_inv d t0 slots H'.
Proof.
  intros E (H1 & H2 & H3). split_and!; intros Hv.
  - destruct (H1 Hv) as [? Hn]. split; [done|]. intros e q. rewrite <- E. apply Hn.
  - destruct (H2 Hv) as [? Hn]. split; [eapply slot_inv_ext; [intros; apply E|done]|]. intros e q. rewrite <- E. apply Hn.
  - destruct (H3 Hv). split; [eapply slot_inv_ext; [intros; apply E|done]|done].
Qed.

Lemma fresh_slot_inv d t0 e now H :
  t0 <= now → (∀ q, (d, e, q) ∉ H) → slot_inv d t0 (fresh_slot e now) H.
Proof.
  intros Ht Hn. split; [done|]. exists ∅. split; [apply ReplayWindow256.refines_default|].
  intros q. simpl. specialize (Hn q). set_solver.
Qed.

Lemma slot_accept_inv d t0 slot q now H slot' ok :
  slot_inv d t0 slot H → t0 <= now → is_uint 64 q →
  slot_accept 64 slot q now = (slot', ok) →
  let H' := if ok then {[(d, EpochRxSlot.epoch slot, q)]} ∪ H else H in
  (ok = true → (d, EpochRxSlot.epoch slot, q) ∉ H) ∧ slot_inv d t0 slot' H' ∧
  EpochRxSlot.epoch slot' = EpochRxSlot.epoch slot ∧
  EpochRxSlot.valid slot' = EpochRxSlot.valid slot.
Proof.
  intros (_ & S & HR & HS) Hnow Hq E. unfold slot_accept in E.
  destruct (ReplayWindow256.accept_refines_aux _ S q HR Hq) as [Hb HR'].
  destruct (ReplayWindow256.accept 64 (EpochRxSlot.window slot) q) as [w b].
  simpl in Hb, HR'. injection E as <- <-. subst b. simpl.
  split_and!; [|split; [done|]|done|done].
  - intros Ha%ReplayWindow256.spec_accepts_fresh. by rewrite <- HS.
  - exists (if ReplayWindow256.spec_accepts S q then {[q]} ∪ S else S). split; [done|].
    intros x. simpl. destruct (ReplayWindow256.spec_accepts S q); [|apply HS].
    rewrite !elem_of_union, !elem_of_singleton, HS. naive_solver.
Qed.

Lemma slot_inv_other_epoch d t0 slot H e q :
  EpochRxSlot.epoch slot ≠ e → slot_inv d t0 slot H → slot_inv d t0 slot ({[(d, e, q)]} ∪ H).
Proof.
  intros Hne. apply slot_inv_ext. intros q'. rewrite elem_of_union, elem_of_singleton. naive_solver.
Qed.

Lemma holds_true slot e :
  EpochRxSlot.holds slot e = true ↔ EpochRxSlot.valid slot = true ∧ EpochRxSlot.epoch slot = e.
Proof. unfold EpochRxSlot.holds. rewrite andb_true_iff, Z.eqb_eq. done. Qed.

(** The invariant after [ok] is known, in the branch that updates the current slot. *)
Lemma dir_inv_current d t0 cur prev H e q now c ok :
  EpochRxSlot.valid cur = true → EpochRxSlot.epoch cur = e → t0 <= now → is_uint 64 q →
  slot_inv d t0 cur H → (∀ e' q', (d, e', q') ∈ H → e' <= e) →
  (EpochRxSlot.valid prev = true → slot_inv d t0 prev H ∧ EpochRxSlot.epoch prev < e) →
  slot_accept 64 cur q now = (c, ok) →
  (ok = true → (d, e, q) ∉ H) ∧
  dir_inv d t0 (c, prev) (if ok then {[(d, e, q)]} ∪ H else H).
Proof.
  intros Hv He Hnow Hq Hi Hmax Hprev E.
  destruct (slot_accept_inv d t0 cur q now H c ok Hi Hnow Hq E) as (Hfresh & Hi' & He' & Hv').
  rewrite He in *. split; [done|]. unfold dir_inv; simpl. rewrite Hv', Hv, He'.
  split_and!; [done| |].
  - intros _. split; [done|]. intros e' q' Hin. destruct ok; [|by eauto].
    apply elem_of_union in Hin as [Hin%elem_of_singleton|Hin]; [simplify_eq; lia|eauto].
  - intros Hpv. destruct (Hprev Hpv) as [Hp Hlt]. split; [|done].
    destruct ok; [apply slot_inv_other_epoch; [lia|done]|done].
Qed.

Lemma commit_slots_inv s d t0 slots H e q now sl ok :
  dir_inv d t0 slots H → t0 <= now → is_uint 64 q →
  commit_slots 64 s slots e q now = (sl, ok) →
  (ok = true → (d, e, q) ∉ H) ∧ dir_inv d t0 sl (if ok then {[(d, e, q)]} ∪ H else H).
Proof.
  intros Hinv Hnow Hq E. pose proof Hinv as (H1 & H2 & H3).
  destruct slots as [cur prev]; cbn [fst snd] in *. unfold commit_slots in E; cbn [fst snd] in E.
  destruct (EpochRxSlot.valid cur) eqn:Hv; cbn [negb] in E.
  - destruct (H2 eq_refl) as [Hi Hmax]. destruct (EpochRxSlot.holds cur e) eqn:Hc.
    { apply holds_true in Hc as [_ He]. subst e.
      destruct (slot_accept 64 cur q now) as [c b] eqn:Ea. injection E as <- <-.
      by eapply dir_inv_current. }
    assert (EpochRxSlot.epoch cur ≠ e) as Hne
      by (intros <-; unfold EpochRxSlot.holds in Hc; rewrite Hv, Z.eqb_refl in Hc; done).
    destruct (EpochRxSlot.holds prev e) eqn:Hp.
    { apply holds_true in Hp as [Hpv Hpe]. subst e. destruct (H3 Hpv) as [Hpi Hlt].
      destruct (slot_accept 64 prev q now) as [p b] eqn:Ea. injection E as <- <-.
      destruct (slot_accept_inv d t0 prev q now H p b Hpi Hnow Hq Ea) as (Hf & Hi' & He' & Hv').
      split; [done|]. unfold dir_inv; simpl. rewrite Hv, Hv', He'.
      split_and!; [done| |done]. intros _. split.
      - destruct b; [by apply slot_inv_other_epoch|done].
      - intros e' q' Hin. destruct b; [|by eauto].
        apply elem_of_union in Hin as [Hin%elem_of_singleton|Hin]; [simplify_eq; lia|eauto]. }
    rewrite Hv in E; cbn [andb] in E. destruct (Z.ltb_spec (EpochRxSlot.epoch cur) e) as [Hlt|Hge].
    + destruct (max_allowed_epoch s (cur, prev) <? e); [injection E as <- <-; by split|].
      destruct (slot_accept 64 (fresh_slot e now) q now) as [c b] eqn:Ea. injection E as <- <-.
      assert (Hno : ∀ q', (d, e, q') ∉ H) by (intros q' Hin%Hmax; lia).
      apply (dir_inv_current d t0 (fresh_slot e now) cur H e q now c b);
        [done|done|done|done|apply fresh_slot_inv; [exact Hnow|exact Hno]| | |done].
      * intros e' q' Hin%Hmax. lia.
      * intros _. split; [done|lia].
    + injection E as <- <-. by split.
  - destruct (H1 eq_refl) as [Hpv Hno].
    assert (EpochRxSlot.holds (fresh_slot e now) e = true) as Hh by (by apply holds_true).
    rewrite Hh in E.
    destruct (slot_accept 64 (fresh_slot e now) q now) as [c b] eqn:Ea. injection E as <- <-.
    apply (dir_inv_current d t0 (fresh_slot e now) prev H e q now c b);
      [done|done|done|done| | | |done].
    + by apply fresh_slot_inv.
    + intros e' q' Hin%Hno. done.
    + congruence.
Qed.

Lemma evict_slot_keeps d t0 now slot H :
  now <= t0 + EVICT_IDLE_AFTER_MS → (EpochRxSlot.valid slot = true → slot_inv d t0 slot H) →
  evict_slot now slot = slot.
Proof.
  intros Hnow Hi. unfold evict_slot. destruct (EpochRxSlot.valid slot); [|done]. simpl.
  destruct (Hi eq_refl) as [Hl _]. unfold saturating_sub, EVICT_IDLE_AFTER_MS in *.
  destruct (Z.ltb_spec 30000 (Z.max 0 (now - EpochRxSlot.last_rx_ms slot))); [lia|].
  by rewrite andb_false_r.
Qed.

(** No synchronisation has happened, and both directions satisfy the invariant. *)
Definition session_inv (t0 : Z) s H : Prop :=
  sync_rx_grace_expires_at_ms s = 0 ∧ ∀ d, dir_inv d t0 (sel d (rx_slots s)) H.

Lemma rx_prologue_quiet t0 s H now :
  session_inv t0 s H → now <= t0 + EVICT_IDLE_AFTER_MS →
  ∃ s1, rx_prologue s now = (s1, None) ∧ rx_view s1 = rx_view s.
Proof.
  intros [Hg Hd] Hnow. unfold rx_prologue. rewrite Hg. simpl. eexists. split; [done|].
  unfold rx_view; simpl. rewrite Hg. do 3 f_equal. unfold evict_old_rx_slots, map2.
  destruct (Hd AToB) as (_ & A1 & A2), (Hd BToA) as (_ & B1 & B2).
  destruct (rx_slots s) as [[a0 a1] [b0 b1]]; simpl in *.
  rewrite (evict_slot_keeps AToB t0 now a0 H), (evict_slot_keeps AToB t0 now a1 H),
    (evict_slot_keeps BToA t0 now b0 H), (evict_slot_keeps BToA t0 now b1 H);
    try done; intros Hv; (by apply A1 || by apply A2 || by apply B1 || by apply B2).
Qed.

Lemma commit_replay_inv t0 s H c :
  session_inv t0 s H → t0 <= rcv_now c <= t0 + EVICT_IDLE_AFTER_MS → is_uint 64 (rcv_seq c) →
  let '(s', ok) := commit_replay 64 s (rcv_epoch c) (rcv_seq c) (rcv_dir c) (rcv_now c) in
  (ok = true → (rcv_dir c, rcv_epoch c, rcv_seq c) ∉ H) ∧
  session_inv t0 s' (if ok then {[(rcv_dir c, rcv_epoch c, rcv_seq c)]} ∪ H else H).
Proof.
  intros HI Hnow Hq. destruct c as [d e q now]; simpl in *.
  destruct (rx_prologue_quiet t0 s H now HI) as (s1 & E & Hv); [lia|].
  unfold rx_view in Hv. injection Hv as Hrx _ Hex _. destruct HI as [Hg Hd].
  unfold commit_replay. rewrite E, Hrx.
  destruct (commit_slots 64 s1 (sel d (rx_slots s)) e q now) as [sl ok] eqn:Ec.
  destruct (commit_slots_inv s1 d t0 _ H e q now sl ok (Hd d)) as [Hf Hdi]; [lia|done|done|].
  split; [done|]. split; [simpl; by rewrite Hex|]. intros d'. simpl.
  destruct (decide (d = d')) as [<-|Hne]; [by rewrite sel_upd|].
  rewrite sel_upd_ne by done. eapply dir_inv_ext; [|apply Hd]. intros e' q'.
  destruct ok; [|done]. rewrite elem_of_union, elem_of_singleton. naive_solver.
Qed.

Lemma commit_all_nodup t0 s H calls :
  session_inv t0 s H →
  Forall (λ c, t0 <= rcv_now c <= t0 + EVICT_IDLE_AFTER_MS ∧ is_uint 64 (rcv_seq c)) calls →
  NoDup (snd (commit_all s calls)) ∧ ∀ x, x ∈ snd (commit_all s calls) → x ∉ H.
Proof.
  intros HI Hall. revert s H HI. induction Hall as [|c r [Ht Hq] Hr IH]; intros s H HI; simpl.
  { split; [constructor|]. by intros x ?%elem_of_nil. }
  pose proof (commit_replay_inv t0 s H c HI Ht Hq) as Hc.
  destruct (commit_replay 64 s _ _ _ _) as [s1 ok]. destruct Hc as [Hf HI1].
  destruct (IH _ _ HI1) as [Hnd Hnew]. destruct (commit_all s1 r) as [s2 acc]; simpl in *.
  destruct ok; [|done]. split.
  - constructor; [|done]. intros Hin%Hnew. auto with rust.
  - intros x [->|Hin]%elem_of_cons; [auto|]. apply Hnew in Hin. auto with rust.
Qed.

Lemma new_session_inv t0 root g e0 sa ra now :
  session_inv t0 (@new Encryptor root g e0 sa ra now) ∅.
Proof.
  split; [done|]. intros d. assert (sel d (rx_slots (@new Encryptor root g e0 sa ra now)) =
    (EpochRxSlot.default, EpochRxSlot.default)) as -> by (by destruct d).
  by split_and!.
Qed.


(** The first packet of a direction whose current slot is empty or just evicted. *)
Lemma commit_fresh_direction s d e q now :
  EpochRxSlot.valid (evict_slot now (fst (sel d (rx_slots s)))) = false →
  sync_rx_grace_expires_at_ms s = 0 →
  ∃ s', commit_replay 64 s e q d now = (s', true) ∧ sync_rx_grace_expires_at_ms s' = 0 ∧
    ∃ w prev, sel d (rx_slots s') = (EpochRxSlot.mk e w now true, prev).
Proof.
  intros Hv Hg. unfold commit_replay, rx_prologue. rewrite Hg. cbn [sync_rx_grace_active Z.eqb].
  unfold commit_slots. cbn [rx_slots set_rx]. unfold evict_old_rx_slots. rewrite !sel_map2.
  cbn [fst snd map2]. rewrite Hv. cbn [negb].
  assert (EpochRxSlot.holds (fresh_slot e now) e = true) as -> by (by apply holds_true).
  unfold slot_accept. cbn [EpochRxSlot.window fresh_slot].
  change (ReplayWindow256.accept 64 ReplayWindow256.default q) with
    (ReplayWindow256.set_bit (ReplayWindow256.mk q (ReplayWindow256.bitmap ReplayWindow256.default) true) 0, true).
  eexists. split; [done|]. split; [done|]. cbn [rx_slots set_rx prune_key_cache set_key_cache].
  rewrite sel_upd. eauto.
Qed.

(** Eviction of idle slots forgets the accepted numbers: a packet accepted at
    time [t] is accepted again, by the same session, more than 30 s after the last
    packet of its direction. *)
Theorem idle_eviction_forgets t root generation e0 sa ra now0 d e q :
  0 < t → is_uint 32 e → is_uint 64 q →
  snd (commit_all (@new Encryptor root generation e0 sa ra now0)
         [mkReceived d e q t; mkReceived d e q (t + EVICT_IDLE_AFTER_MS + 1)]) =
  [(d, e, q); (d, e, q)].
Proof.
  intros Ht He Hq. set (s0 := @new Encryptor root generation e0 sa ra now0).
  destruct (commit_fresh_direction s0 d e q t) as (s1 & E1 & Hex & w & prev & Hsel);
    [by destruct d|done|].
  cbn [commit_all rcv_dir rcv_epoch rcv_seq rcv_now]. rewrite E1.
  destruct (commit_fresh_direction s1 d e q (t + EVICT_IDLE_AFTER_MS + 1)) as (s2 & E2 & _);
    [|done|by rewrite E2].
  rewrite Hsel. unfold evict_slot, EVICT_IDLE_AFTER_MS, saturating_sub; cbn [fst EpochRxSlot.valid
    EpochRxSlot.last_rx_ms negb].
  destruct (Z.eqb_spec t 0); [lia|].
  by destruct (Z.ltb_spec 30000 (Z.max 0 (t + 30000 + 1 - t))); [|lia].
Qed.

End Replay.


Lemma idle_eviction_forgets_witness :
  snd (commit_all (@new unit [] 1 0 EmptyString EmptyString 0)
         [mkReceived AToB 3 9 100; mkReceived AToB 3 9 (100 + EVICT_IDLE_AFTER_MS + 1)]) =
  [(AToB, 3, 9); (AToB, 3, 9)].
Proof.
  apply idle_eviction_forgets; unfold is_uint; lia.
Defined.

(** * Synchronisation, failures and the end-to-end round trip *)

Section EndToEnd.

Context (usize_bits : Z).
Context (hmac_sha256 : list Z → list Z → list Z).
Context {Encryptor : Type}.
Context (create_encryptor : string → list Z → list Z → Encryptor).
Context (encrypt_with_nonce : Encryptor → ZCPacket.t → list Z → result ZCPacket.t Z).
Context (decrypt : Encryptor → ZCPacket.t → result ZCPacket.t Z).

Implicit Types s : @SecureDatagramSession Encryptor.

(** The slot of a direction that holds an epoch, the current one first. *)
Definition slot_of (slots : EpochRxSlot.t * EpochRxSlot.t) (epoch : Z) : option EpochRxSlot.t :=
  if EpochRxSlot.holds (fst slots) epoch then Some (fst slots)
  else if EpochRxSlot.holds (snd slots) epoch then Some (snd slots) else None.

Lemma evict_slot_fresh now x :
  saturating_sub now (EpochRxSlot.last_rx_ms x) <= EVICT_IDLE_AFTER_MS → evict_slot now x = x.
Proof.
  intros Hi. unfold evict_slot. destruct (EpochRxSlot.valid x); [|done]. simpl.
  destruct (Z.ltb_spec EVICT_IDLE_AFTER_MS (saturating_sub now (EpochRxSlot.last_rx_ms x))); [lia|].
  by rewrite andb_false_r.
Qed.

(** A synchronisation that keeps the root key keeps the replay protection: for
    5 s after [sync_root_key] a packet of an epoch received before it is judged by
    the window of that epoch, so what was accepted before is still refused. *)
Theorem sync_keeps_windows s root generation e0 ns ng d e q now slot :
  root_key s = root →
  slot_of (sel d (rx_slots s)) e = Some slot →
  saturating_sub now (EpochRxSlot.last_rx_ms (fst (sel d (rx_slots s)))) <= EVICT_IDLE_AFTER_MS →
  saturating_sub now (EpochRxSlot.last_rx_ms (snd (sel d (rx_slots s)))) <= EVICT_IDLE_AFTER_MS →
  0 <= ng → ng + SYNC_RX_GRACE_AFTER_MS <= uint_max 64 →
  now < ng + SYNC_RX_GRACE_AFTER_MS →
  snd (precheck_replay usize_bits (sync_root_key s root generation e0 true ns ng) e q d now) =
    ReplayWindow256.can_accept usize_bits (EpochRxSlot.window slot) q.
Proof.
  intros Hroot Hslot Hi0 Hi1 Hng Hmax Hnow. unfold SYNC_RX_GRACE_AFTER_MS in *.
  unfold sync_root_key. rewrite Hroot, bool_decide_eq_true_2 by done. cbn [andb].
  assert (Hex : saturating_add 64 ng SYNC_RX_GRACE_AFTER_MS = ng + 5000).
  { unfold saturating_add, SYNC_RX_GRACE_AFTER_MS. lia. }
  rewrite Hex. unfold precheck_replay, rx_prologue. cbn [sync_rx_grace_expires_at_ms sync_rx_grace].
  unfold sync_rx_grace_active. destruct (Z.eqb_spec (ng + 5000) 0); [lia|].
  destruct (Z.ltb_spec now (ng + 5000)); [|lia].
  unfold SyncRxGrace.maybe_expire, SyncRxGrace.refresh; cbn [SyncRxGrace.valid SyncRxGrace.expires_at_ms].
  destruct (Z.leb_spec (ng + 5000) now); [lia|]. cbn [andb SyncRxGrace.valid SyncRxGrace.slots].
  assert (Hev : sel d (evict_old_rx_slots (rx_slots s) now) = sel d (rx_slots s)).
  { unfold evict_old_rx_slots. rewrite sel_map2. unfold map2.
    rewrite !evict_slot_fresh by done. by destruct (sel d (rx_slots s)). }
  rewrite Hev. unfold slot_of in Hslot. unfold epoch_in_slots. cbn [snd].
  destruct (EpochRxSlot.holds (fst _) e) eqn:E0; [cbn [orb]; rewrite E0; by injection Hslot as ->|].
  destruct (EpochRxSlot.holds (snd _) e) eqn:E1; [|done]. cbn [orb]. rewrite E0.
  by injection Hslot as ->.
Qed.

(** A run of [decrypt_payload] calls that all fail in the cipher. *)
Inductive failing_run : SecureDatagramSession → nat → SecureDatagramSession → Prop :=
| failing_nil s : failing_run s 0 s
| failing_step s d pkt now s1 e n s2 :
    decrypt_payload usize_bits hmac_sha256 create_encryptor decrypt s d pkt now =
      Some (s1, Err (CipherError e)) →
    failing_run s1 n s2 → failing_run s (S n) s2.

(** One failing call: the counter goes up and the threshold invalidates. *)
Lemma decrypt_failure_step s d pkt now s1 e :
  is_uint 32 (decrypt_fail_count s + 1) →
  decrypt_payload usize_bits hmac_sha256 create_encryptor decrypt s d pkt now =
    Some (s1, Err (CipherError e)) →
  is_valid s = true ∧
  decrypt_fail_count s1 = decrypt_fail_count s + 1 ∧
  is_valid s1 = negb (DECRYPT_FAIL_THRESHOLD <=? decrypt_fail_count s + 1).
Proof.
  intros Hu. unfold decrypt_payload. destruct (is_valid s) eqn:Hv; [|done]. cbn [negb].
  destruct (ZCPacket.payload pkt) as [pl|]; [|done]. cbn [mbind option_bind].
  destruct (parse_tail pl) as [nonce|]; [|done].
  pose proof (precheck_fst usize_bits s (from_be (take 4 nonce)) (from_be (drop 4 nonce)) d now) as Hf.
  destruct (rx_prologue_fields s now) as (rx & g & ex & E). rewrite E in Hf.
  destruct (precheck_replay _ _ _ _ _ _) as [s0 ok]. cbn [fst] in Hf. subst s0.
  destruct ok; [|done]. cbn [negb].
  destruct (get_or_create_encryptor _ _ _ _ _ _ _) as [[s2 enc]|] eqn:Eg; [|done].
  cbn [mbind option_bind].
  assert (Hs2 : ∃ kc, s2 = set_key_cache (set_rx s rx g ex) kc).
  { unfold get_or_create_encryptor in Eg. destruct (find_key_slot _ _ _) as [k|].
    - destruct (get_encryptor k false); [|done]. injection Eg as <- _.
      eexists. reflexivity.
    - cbn [mbind option_bind get_encryptor] in Eg. injection Eg as <- _. eauto. }
  destruct Hs2 as [kc ->]. destruct (decrypt enc pkt) as [p|e'].
  { destruct (commit_replay _ _ _ _ _ _) as [s4 []]; done. }
  intros [= <- _]. split; [done|].
  assert (Hc : wrapping_add 32 (decrypt_fail_count s) 1 = decrypt_fail_count s + 1).
  { unfold wrapping_add, wrap. apply Z.mod_small. done. }
  cbn [decrypt_fail_count set_key_cache set_rx set_health]. rewrite Hc. destruct (DECRYPT_FAIL_THRESHOLD <=? decrypt_fail_count s + 1); [done|].
  split; [done|]. unfold is_valid in *. exact Hv.
Qed.

(** Consecutive cipher failures invalidate the session exactly at the threshold:
    after a run of [n] failing calls from a fresh counter the session is still valid
    if and only if [n] is below 10, and no run is longer than 10. *)
Theorem failing_run_invalidates s n s' :
  is_valid s = true → decrypt_fail_count s = 0 → failing_run s n s' →
  (n <= 10)%nat ∧ decrypt_fail_count s' = Z.of_nat n ∧ is_valid s' = (n <? 10)%nat.
Proof.
  intros Hv Hc Hrun.
  enough (Hgen : ∀ s n s', failing_run s n s' → ∀ k : nat, (k <= 10)%nat →
    decrypt_fail_count s = Z.of_nat k → is_valid s = (k <? 10)%nat →
    (k + n <= 10)%nat ∧ decrypt_fail_count s' = Z.of_nat (k + n) ∧ is_valid s' = (k + n <? 10)%nat).
  { destruct (Hgen s n s' Hrun 0%nat) as (? & ? & ?); auto; lia. }
  clear. induction 1 as [s|s d pkt now s1 e n s2 E Hrun IH]; intros k Hk Hc Hv.
  { rewrite Nat.add_0_r. auto. }
  destruct (decrypt_failure_step s d pkt now s1 e) as (Hv0 & Hc1 & Hv1);
    [unfold is_uint; lia|done|].
  assert (k < 10)%nat as Hlt by (rewrite Hv in Hv0; by apply Nat.ltb_lt).
  destruct (IH (S k)) as (IH1 & IH2 & IH3); [lia|lia| |].
  { rewrite Hv1, Hc. unfold DECRYPT_FAIL_THRESHOLD.
    destruct (Z.leb_spec 10 (Z.of_nat k + 1)), (Nat.ltb_spec (S k) 10); simpl; try lia; done. }
  replace (k + S n)%nat with (S k + n)%nat by lia. auto.
Qed.

(** The AEAD contract the session relies on: what was encrypted decrypts, and the
    nonce is readable in the tail. *)
Definition cipher_ok : Prop :=
  ∀ enc p nonce c, length nonce = 12%nat → encrypt_with_nonce enc p nonce = Ok c →
    decrypt enc c = Ok p ∧
    ∃ pl, ZCPacket.payload c = Some pl ∧ parse_tail pl = Some nonce.

Lemma fresh_precheck root g e0 sa ra t e q d now :
  snd (precheck_replay usize_bits (@new Encryptor root g e0 sa ra t) e q d now) = true.
Proof. by destruct d. Qed.

(** The two ends of a session agree: a packet encrypted by a session decrypts to
    itself at a new session with the same root key and the matching algorithm, given
    that the cipher itself round-trips. *)
Theorem session_roundtrip s s' d pkt c now g e0 sa now0 now1 :
  cipher_ok → is_valid s = true → key_cache_ok hmac_sha256 create_encryptor s →
  is_uint 64 (sel d (send_seq s)) → is_uint 32 (send_epoch s) →
  encrypt_payload hmac_sha256 create_encryptor encrypt_with_nonce s d pkt now = Some (s', Ok c) →
  ∃ r', decrypt_payload usize_bits hmac_sha256 create_encryptor decrypt
          (new (root_key s) g e0 sa (send_cipher_algorithm s) now0) d c now1 = Some (r', Ok pkt).
Proof.
  intros Hc Hv Hok Hq He Henc. unfold encrypt_payload in Henc. rewrite Hv in Henc. cbn [negb] in Henc.
  destruct (next_nonce s d now) as [s1 [[epoch seq] nonce]] eqn:En.
  assert (Hs1 : ∃ a b cc dd, s1 = set_send s a b cc dd ∧ nonce = to_be 4 epoch ++ to_be 8 seq ∧
    is_uint 64 seq ∧ is_uint 32 epoch).
  { unfold next_nonce, maybe_rotate_epoch in En.
    destruct ((_ <? ROTATE_AFTER_PACKETS) && _); injection En as <- <- <- <-;
      (do 4 eexists; split; [reflexivity|]; split; [done|]; split; [done|]); [done|].
    cbn. unfold is_uint, wrapping_add, wrap. apply Z.mod_pos_bound. lia. }
  destruct Hs1 as (a & b & cc & dd & -> & Hn & Hq' & He').
  assert (Hok1 : key_cache_ok hmac_sha256 create_encryptor (set_send s a b cc dd))
    by (revert Hok; by apply key_cache_ok_same).
  destruct (get_or_create_ok hmac_sha256 create_encryptor (set_send s a b cc dd) epoch d
    (session_generation (set_send s a b cc dd)) true Hok1) as (s2 & Eg & _).
  rewrite Eg in Henc. cbn [mbind option_bind] in Henc.
  set (enc := reference_encryptor hmac_sha256 create_encryptor (set_send s a b cc dd) epoch d true) in *.
  destruct (encrypt_with_nonce enc pkt nonce) as [c'|] eqn:Ee; [|done]. injection Henc as _ ->.
  destruct (Hc enc pkt nonce c) as (Hd & pl & Hpl & Ht);
    [rewrite Hn, length_app, !length_to_be; done|done|].
  assert (Hep : from_be (take 4 nonce) = epoch).
  { rewrite Hn, take_app_len by apply length_to_be. rewrite from_be_to_be.
    by apply Z.mod_small. }
  assert (Hse : from_be (drop 4 nonce) = seq).
  { rewrite Hn, drop_app_len by apply length_to_be. rewrite from_be_to_be.
    by apply Z.mod_small. }
  destruct (decrypt_payload_result usize_bits hmac_sha256 create_encryptor decrypt
    (new (root_key s) g e0 sa (send_cipher_algorithm s) now0) d c now1 pl nonce)
    as (r' & Hr & _); [done|by apply key_cache_ok_default|done|done|].
  exists r'. rewrite Hr, fresh_precheck, Hep. do 2 f_equal.
  change (reference_encryptor hmac_sha256 create_encryptor
    (new (root_key s) g e0 sa (send_cipher_algorithm s) now0) epoch d false) with enc.
  by rewrite Hd.
Qed.

End EndToEnd.

(** * Witnesses *)

(** A cipher without secrecy: the encryptor is the algorithm with the key, a packet
    is sealed by a 16-byte tag, the sum of the key, and the nonce. *)
Definition toy_hmac (k m : list Z) : list Z :=
  replicate 32 (wrap 8 (foldr Z.add 0 (k ++ m))).

Definition toy_create (alg : string) (_ key : list Z) : string * list Z := (alg, key).

Definition toy_tag (enc : string * list Z) : list Z := take 16 (snd enc ++ replicate 16 0).

Definition toy_encrypt (enc : string * list Z) (p : ZCPacket.t) (nonce : list Z)
    : result ZCPacket.t Z :=
  match ZCPacket.payload p with
  | Some _ => Ok (ZCPacket.with_inner p (ZCPacket.inner p ++ toy_tag enc ++ nonce))
  | None => Err 1
  end.

Definition toy_decrypt (enc : string * list Z) (p : ZCPacket.t) : result ZCPacket.t Z :=
  let n := (length (ZCPacket.inner p) - 28)%nat in
  if bool_decide (take 16 (drop n (ZCPacket.inner p)) = toy_tag enc)
  then Ok (ZCPacket.with_inner p (take n (ZCPacket.inner p))) else Err 2.

Lemma length_toy_tag enc : length (toy_tag enc) = 16%nat.
Proof. unfold toy_tag. rewrite length_take, length_app, length_replicate. lia. Qed.

Lemma toy_cipher_ok : cipher_ok toy_encrypt toy_decrypt.
Proof.
  intros enc p nonce c Hn. unfold toy_encrypt.
  destruct (ZCPacket.payload p) as [pl|] eqn:Hp; [|done]. intros [= <-].
  assert (Hlen : length (toy_tag enc ++ nonce) = 28%nat)
    by (rewrite length_app, length_toy_tag; lia).
  split.
  - unfold toy_decrypt, ZCPacket.with_inner; cbn [ZCPacket.inner ZCPacket.packet_type ZCPacket.flow_key].
    rewrite length_app, Hlen. replace (_ + 28 - 28)%nat with (length (ZCPacket.inner p)) by lia.
    rewrite drop_app_length, take_app_length, <- (length_toy_tag enc), take_app_length.
    rewrite bool_decide_eq_true_2 by done. by destruct p.
  - exists (pl ++ toy_tag enc ++ nonce). split.
    + by apply slice_from_extend.
    + unfold parse_tail. change AEAD_TAIL_SIZE with 28. change AEAD_NONCE_SIZE with 12. unfold len. rewrite length_app, Hlen.
      destruct (Z.ltb_spec (Z.of_nat (length pl + 28)) 28); [lia|].
      rewrite app_assoc. apply slice_from_app. unfold len. rewrite length_app, length_toy_tag. lia.
Qed.

(** The session of the witnesses and a packet with a two-byte payload. *)
Definition toy_session (send recv : string) : @SecureDatagramSession (string * list Z) :=
  new [7; 8; 9] 1 0 send recv 1000.

Definition toy_packet : ZCPacket.t := ZCPacket.mk (replicate 40 0 ++ [1; 2]) NIC None.

(** The packet sealed under a key of another epoch: the cipher refuses it. *)
Definition toy_forged (seq : Z) : ZCPacket.t :=
  ZCPacket.with_inner toy_packet
    (ZCPacket.inner toy_packet ++ replicate 16 255 ++ to_be 4 0 ++ to_be 8 seq).

Lemma key_cache_transparent_witness :
  ∃ s', get_or_create_encryptor toy_hmac toy_create (toy_session "a" "b") 3 BToA 1 true =
    Some (s', reference_encryptor toy_hmac toy_create (toy_session "a" "b") 3 BToA true) ∧
    key_cache_ok toy_hmac toy_create s'.
Proof. apply key_cache_transparent. by apply key_cache_ok_default. Defined.

Lemma decrypt_commit_agrees_witness :
  ∃ s', decrypt_payload 64 toy_hmac toy_create toy_decrypt (toy_session "a" "b") AToB
          (toy_forged 5) 2000 = Some (s', Err (CipherError 2)) ∧
        key_cache_ok toy_hmac toy_create s'.
Proof.
  refine (decrypt_commit_agrees 64 toy_hmac toy_create toy_decrypt (toy_session "a" "b") AToB
    (toy_forged 5) 2000 _ (to_be 4 0 ++ to_be 8 5) eq_refl _ eq_refl eq_refl).
  by apply key_cache_ok_default.
Defined.


Definition toy_received : @SecureDatagramSession (string * list Z) :=
  fst (commit_replay 64 (toy_session "a" "b") 0 5 AToB 2000).

Definition toy_window : ReplayWindow256.t :=
  fst (ReplayWindow256.accept 64 ReplayWindow256.default 5).

Lemma sync_keeps_windows_witness :
  snd (precheck_replay 64 (sync_root_key toy_received [7; 8; 9] 2 1 true 3000 3000) 0 5 AToB 4000) =
    ReplayWindow256.can_accept 64 toy_window 5 ∧
  ReplayWindow256.can_accept 64 toy_window 5 = false.
Proof.
  split; [|vm_compute; reflexivity].
  refine (sync_keeps_windows 64 toy_received [7; 8; 9] 2 1 3000 3000 AToB 0 5 4000
    (EpochRxSlot.mk 0 toy_window 2000 true) _ _ _ _ _ _ _);
    [vm_compute; reflexivity|vm_compute; reflexivity|vm_compute; congruence..|vm_compute; reflexivity].
Defined.

Lemma failing_run_invalidates_witness :
  ∃ s2, failing_run 64 toy_hmac toy_create toy_decrypt (toy_session "a" "b") 2 s2 ∧
    decrypt_fail_count s2 = 2 ∧ is_valid s2 = true.
Proof.
  assert (∃ s2, failing_run 64 toy_hmac toy_create toy_decrypt (toy_session "a" "b") 2 s2) as [s2 Hrun].
  { eexists.
    eapply (failing_step _ _ _ _ _ AToB (toy_forged 5) 2000 _ 2); [vm_compute; reflexivity|].
    eapply (failing_step _ _ _ _ _ AToB (toy_forged 6) 2001 _ 2); [vm_compute; reflexivity|].
    apply failing_nil. }
  exists s2. split; [exact Hrun|].
  exact (proj2 (failing_run_invalidates 64 toy_hmac toy_create toy_decrypt
    (toy_session "a" "b") 2 s2 eq_refl eq_refl Hrun)).
Defined.

Lemma session_roundtrip_witness :
  ∃ s' c r',
    encrypt_payload toy_hmac toy_create toy_encrypt (toy_session "a" "b") AToB toy_packet 2000 =
      Some (s', Ok c) ∧
    decrypt_payload 64 toy_hmac toy_create toy_decrypt
      (new [7; 8; 9] 4 9 "b" "a" 1500) AToB c 2500 = Some (r', Ok toy_packet).
Proof.
  destruct (encrypt_payload toy_hmac toy_create toy_encrypt (toy_session "a" "b") AToB toy_packet 2000)
    as [[s' [c|]]|] eqn:E; [|vm_compute in E; discriminate..].
  destruct (session_roundtrip 64 toy_hmac toy_create toy_encrypt toy_decrypt
    (toy_session "a" "b") s' AToB toy_packet c 2000 4 9 "b" 1500 2500) as [r' Hr];
    [apply toy_cipher_ok|reflexivity|by apply key_cache_ok_default
    |split; vm_compute; congruence..|exact E|].
  eauto.
Defined.
