(* ===== verification/PeerSession.v ===== *)
(** * Peer sessions

    Models easytier-core/src/peers/conn/peer_session.rs: the session of a peer, and
    the store that creates, joins and synchronises sessions on the two sides of a
    handshake.  [Arc<PeerSession>] is shared between the store and the connections:
    the store record carries the heap of sessions and the number of handles held
    outside the map.  The random root key and the clocks are arguments. *)

From stdpp Require Import base gmap list numbers strings.
From Stdlib Require Import ZArith Lia.
From S2P Require Import Prelude Packet SecureDatagram.
Local Open Scope Z_scope.

Definition SESSION_IDLE_TIMEOUT : Z := 60 * 1000000000.

Inductive PeerSessionAction : Type := Join | Sync | Create.

Record SessionKey : Type := mkKey { network_name : string; key_peer_id : Z }.

#[export] Instance session_key_eq_dec : EqDecision SessionKey.
Proof. solve_decision. Defined.
#[export] Instance session_key_countable : Countable SessionKey.
Proof.
  apply (inj_countable' (λ k, (network_name k, key_peer_id k)) (λ p, mkKey p.1 p.2)). by intros [].
Defined.

(** The errors, by message. *)
Inductive StoreError : Type :=
| AlgorithmsDiffer
| PubkeyMismatch
| NoLocalSession
| GenerationMismatch
| MissingRootKey
| PeerSessionInvalidated
| DatagramError (e : SessionError).

Section Store.

Context (usize_bits : Z).
Context (hmac_sha256 : list Z → list Z → list Z).
Context {Encryptor : Type}.
Context (create_encryptor : string → list Z → list Z → Encryptor).
Context (encrypt_with_nonce : Encryptor → ZCPacket.t → list Z → result ZCPacket.t Z).
Context (decrypt : Encryptor → ZCPacket.t → result ZCPacket.t Z).

(** ** The session *)

Record PeerSession : Type := mkPeerSession {
  peer_id : Z;
  peer_static_pubkey : option (list Z);
  datagram : @SecureDatagramSession Encryptor;
  ps_invalidated : bool
}.

Implicit Types s : PeerSession.

Definition new_session (peer : Z) (root : list Z) (generation initial_epoch : Z) (send recv : string)
    (pubkey : option (list Z)) (now_ms : Z) : PeerSession :=
  mkPeerSession peer pubkey (new root generation initial_epoch send recv now_ms) false.

Definition with_datagram s (d : SecureDatagramSession) : PeerSession :=
  mkPeerSession (peer_id s) (peer_static_pubkey s) d (ps_invalidated s).

Definition invalidate_session s : PeerSession :=
  mkPeerSession (peer_id s) (peer_static_pubkey s) (invalidate (datagram s)) true.

Definition session_is_valid s : bool := negb (ps_invalidated s) && is_valid (datagram s).

Definition generation_of s : Z := session_generation (datagram s).

Definition root_key_of s : list Z := root_key (datagram s).

Definition next_epoch_of s : Z := next_sync_epoch (datagram s).

Definition check_algo s (send recv : string) : result unit StoreError :=
  match check_encrypt_algo_same (datagram s) send recv with
  | Ok _ => Ok tt
  | Err _ => Err AlgorithmsDiffer
  end.

Definition check_or_set_peer_static_pubkey s (pubkey : option (list Z))
    : PeerSession * result unit StoreError :=
  match pubkey with
  | None => (s, Ok tt)
  | Some k =>
      match peer_static_pubkey s with
      | Some existing => if bool_decide (existing = k) then (s, Ok tt) else (s, Err PubkeyMismatch)
      | None => (mkPeerSession (peer_id s) (Some k) (datagram s) (ps_invalidated s), Ok tt)
      end
  end.

Definition sync_session s (root : list Z) (generation initial_epoch : Z) (preserve : bool)
    (now_ms : Z) : PeerSession :=
  with_datagram s (sync_root_key (datagram s) root generation initial_epoch preserve now_ms now_ms).

Definition dir_for_sender (sender receiver : Z) : SecureDatagramDirection :=
  if sender <? receiver then AToB else BToA.

Definition encrypt_for s (sender receiver : Z) (pkt : ZCPacket.t) (now_ms : Z)
    : option (PeerSession * result ZCPacket.t StoreError) :=
  if negb (session_is_valid s) then Some (s, Err PeerSessionInvalidated)
  else
    r ← encrypt_payload hmac_sha256 create_encryptor encrypt_with_nonce (datagram s)
          (dir_for_sender sender receiver) pkt now_ms;
    Some (with_datagram s (fst r),
          match snd r with Ok p => Ok p | Err e => Err (DatagramError e) end).

Definition decrypt_for s (sender receiver : Z) (pkt : ZCPacket.t) (now_ms : Z)
    : option (PeerSession * result ZCPacket.t StoreError) :=
  if negb (session_is_valid s) then Some (s, Err PeerSessionInvalidated)
  else
    r ← decrypt_payload usize_bits hmac_sha256 create_encryptor decrypt (datagram s)
          (dir_for_sender sender receiver) pkt now_ms;
    Some (with_datagram s (fst r),
          match snd r with Ok p => Ok p | Err e => Err (DatagramError e) end).

(** ** The store *)

Record PeerSessionEntry : Type := mkEntry { session_ref : Z; last_used_at : Z }.

Record PeerSessionStore : Type := mkStore {
  heap : gmap Z PeerSession;
  handles : gmap Z nat;
  next_ref : Z;
  sessions : gmap SessionKey PeerSessionEntry
}.

Implicit Types st : PeerSessionStore.

Definition empty_store : PeerSessionStore := mkStore ∅ ∅ 0 ∅.

Definition with_sessions st (m : gmap SessionKey PeerSessionEntry) : PeerSessionStore :=
  mkStore (heap st) (handles st) (next_ref st) m.

Definition write_session st (r : Z) s : PeerSessionStore :=
  mkStore (<[r := s]> (heap st)) (handles st) (next_ref st) (sessions st).

Definition handle_count st (r : Z) : nat := default 0%nat (handles st !! r).

(** A clone of the [Arc] that leaves the store. *)
Definition hand_out st (r : Z) : PeerSessionStore :=
  mkStore (heap st) (<[r := S (handle_count st r)]> (handles st)) (next_ref st) (sessions st).

Definition drop_handle st (r : Z) : PeerSessionStore :=
  mkStore (heap st) (<[r := pred (handle_count st r)]> (handles st)) (next_ref st) (sessions st).

(** [Arc::new] and the insertion of its entry. *)
Definition insert_new st (key : SessionKey) s (now : Z) : PeerSessionStore * Z :=
  let r := next_ref st in
  (mkStore (<[r := s]> (heap st)) (handles st) (r + 1) (<[key := mkEntry r now]> (sessions st)), r).

Definition touch st (key : SessionKey) (r now : Z) : PeerSessionStore :=
  with_sessions st (<[key := mkEntry r now]> (sessions st)).

(** The session of an entry: an entry always points into the heap. *)
Definition lookup_session st (key : SessionKey) : option (Z * PeerSession) :=
  e ← sessions st !! key; s ← heap st !! session_ref e; Some (session_ref e, s).

Definition get st (key : SessionKey) (now : Z) : PeerSessionStore * option Z :=
  match lookup_session st key with
  | None => (st, None)
  | Some (r, s) =>
      let st1 := touch st key r now in
      if session_is_valid s then (hand_out st1 r, Some r)
      else (with_sessions st1 (delete key (sessions st1)), None)
  end.

Definition remove st (key : SessionKey) : PeerSessionStore := with_sessions st (delete key (sessions st)).

(** [strong_count] counts the reference of the map and the handles. *)
Definition keeps_entry st (now idle : Z) (e : PeerSessionEntry) : Prop :=
  match heap st !! session_ref e with
  | Some s => session_is_valid s = true ∧
      ((1 < S (handle_count st (session_ref e)))%nat ∨ saturating_sub now (last_used_at e) < idle)
  | None => False
  end.

#[global] Instance keeps_entry_dec st now idle e : Decision (keeps_entry st now idle e).
Proof. unfold keeps_entry. destruct (heap st !! session_ref e); apply _. Defined.

Definition evict_unused_sessions_idle st (now idle : Z) : PeerSessionStore :=
  with_sessions st (filter (λ kv, keeps_entry st now idle kv.2) (sessions st)).

Definition evict_unused_sessions st (now : Z) : PeerSessionStore :=
  evict_unused_sessions_idle st now SESSION_IDLE_TIMEOUT.

Record UpsertResponderSessionReturn : Type := mkUpsert {
  up_session : Z;
  up_action : PeerSessionAction;
  up_generation : Z;
  up_root_key : option (list Z);
  up_initial_epoch : Z
}.

(** [random_key] is what [new_root_key] draws. *)
Definition upsert_responder_session st (key : SessionKey) (a_generation : option Z) (send recv : string)
    (pubkey : option (list Z)) (random_key : list Z) (now now_ms : Z)
    : PeerSessionStore * result UpsertResponderSessionReturn StoreError :=
  let '(st1, existing) :=
    match lookup_session st key with
    | None => (st, None)
    | Some (r, s) => (touch st key r now, if session_is_valid s then Some (r, s) else None)
    end in
  match existing with
  | None =>
      let s := new_session (key_peer_id key) random_key 1 0 send recv pubkey now_ms in
      let '(st2, r) := insert_new st1 key s now in
      (hand_out st2 r, Ok (mkUpsert r Create 1 (Some random_key) 0))
  | Some (r, s) =>
      match check_algo s send recv with
      | Err e => (st1, Err e)
      | Ok _ =>
          let '(s', res) := check_or_set_peer_static_pubkey s pubkey in
          let st2 := write_session st1 r s' in
          match res with
          | Err e => (st2, Err e)
          | Ok _ =>
              let local_gen := generation_of s' in
              if bool_decide (a_generation = Some local_gen)
              then (hand_out st2 r, Ok (mkUpsert r Join local_gen None 0))
              else (hand_out st2 r,
                    Ok (mkUpsert r Sync local_gen (Some (root_key_of s')) (next_epoch_of s')))
          end
      end
  end.

(** An invalid session of the key leaves the map. *)
Definition drop_invalid st (key : SessionKey) : PeerSessionStore :=
  match lookup_session st key with
  | Some (_, s) => if negb (session_is_valid s) then remove st key else st
  | None => st
  end.

(** [entry(key).or_insert_with(..)], touched. *)
Definition entry_or_insert st (key : SessionKey) s (now : Z) : PeerSessionStore * Z :=
  match lookup_session st key with
  | Some (r, _) => (touch st key r now, r)
  | None => insert_new st key s now
  end.

(** The checks and the synchronisation of the session [r]. *)
Definition sync_entry st (r : Z) (send recv : string) (pubkey : option (list Z)) (root : list Z)
    (generation initial_epoch : Z) (preserve : bool) (now_ms : Z)
    : PeerSessionStore * result Z StoreError :=
  match heap st !! r with
  | None => (st, Err NoLocalSession)
  | Some s =>
      match check_algo s send recv with
      | Err e => (st, Err e)
      | Ok _ =>
          let '(s', res) := check_or_set_peer_static_pubkey s pubkey in
          match res with
          | Err e => (write_session st r s', Err e)
          | Ok _ =>
              (hand_out (write_session st r
                (sync_session s' root generation initial_epoch preserve now_ms)) r, Ok r)
          end
      end
  end.

Definition apply_initiator_action st (key : SessionKey) (action : PeerSessionAction)
    (b_generation : Z) (root : option (list Z)) (initial_epoch : Z) (send recv : string)
    (pubkey : option (list Z)) (now now_ms : Z) : PeerSessionStore * result Z StoreError :=
  match action with
  | Join =>
      match get st key now with
      | (st1, None) => (st1, Err NoLocalSession)
      | (st1, Some r) =>
          match heap st1 !! r with
          | None => (st1, Err NoLocalSession)
          | Some s =>
              match check_algo s send recv with
              | Err e => (drop_handle st1 r, Err e)
              | Ok _ =>
                  let '(s', res) := check_or_set_peer_static_pubkey s pubkey in
                  let st2 := write_session st1 r s' in
                  match res with
                  | Err e => (drop_handle st2 r, Err e)
                  | Ok _ =>
                      if negb (generation_of s' =? b_generation)
                      then (drop_handle st2 r, Err GenerationMismatch)
                      else (st2, Ok r)
                  end
              end
          end
      end
  | Sync | Create =>
      match root with
      | None => (st, Err MissingRootKey)
      | Some root =>
          let st1 := drop_invalid st key in
          let '(st2, r) := entry_or_insert st1 key
            (new_session (key_peer_id key) root b_generation initial_epoch send recv pubkey now_ms) now in
          sync_entry st2 r send recv pubkey root b_generation initial_epoch
            (match action with Sync => true | _ => false end) now_ms
      end
  end.

End Store.

Arguments PeerSession : clear implicits.
Arguments PeerSessionStore : clear implicits.

(** * Properties *)

Section StoreFacts.

Context {Encryptor : Type}.
Implicit Types st : PeerSessionStore Encryptor.
Implicit Types s : PeerSession Encryptor.

(** Entries point into the heap, and the next reference is fresh. *)
Record store_wf st : Prop := mkStoreWf {
  wf_entries : ∀ key e, sessions st !! key = Some e → is_Some (heap st !! session_ref e);
  wf_fresh : ∀ r, is_Some (heap st !! r) → r < next_ref st
}.

Lemma check_algo_state s send recv : check_algo s send recv = Ok tt ∨ check_algo s send recv = Err AlgorithmsDiffer.
Proof. unfold check_algo. destruct (check_encrypt_algo_same _ _ _) as [[]|]; auto. Qed.

(** Pinning a public key changes nothing else. *)
Lemma check_pubkey_spec s pk :
  let '(s', res) := check_or_set_peer_static_pubkey s pk in
  datagram s' = datagram s ∧ peer_id s' = peer_id s ∧ ps_invalidated s' = ps_invalidated s ∧
  (∀ k, peer_static_pubkey s = Some k → s' = s ∧ (res = Ok tt ↔ pk = None ∨ pk = Some k)) ∧
  (peer_static_pubkey s = None → res = Ok tt ∧ peer_static_pubkey s' = pk).
Proof.
  unfold check_or_set_peer_static_pubkey. destruct pk as [k'|]; [|split_and!; auto; naive_solver].
  destruct (peer_static_pubkey s) as [k|] eqn:E; [|simpl; split_and!; auto; done].
  case_bool_decide as H; subst; (split_and!; [done..| |done]); intros k0 [= ->]; (split; [done|]); naive_solver.
Qed.

Lemma generation_after_sync s root g e pr now : generation_of (sync_session s root g e pr now) = g.
Proof.
  unfold generation_of, sync_session, with_datagram, session_generation, sync_root_key. simpl.
  by destruct (pr && _).
Qed.

Lemma root_after_sync s root g e pr now : root_key_of (sync_session s root g e pr now) = root.
Proof.
  unfold root_key_of, sync_session, with_datagram, root_key, sync_root_key. simpl. by destruct (pr && _).
Qed.

Lemma epoch_after_sync s root g e pr now : send_epoch (datagram (sync_session s root g e pr now)) = e.
Proof. unfold sync_session, with_datagram, sync_root_key. simpl. by destruct (pr && _). Qed.

Lemma valid_after_sync s root g e pr now :
  session_is_valid (sync_session s root g e pr now) = session_is_valid s.
Proof.
  unfold session_is_valid, sync_session, with_datagram, is_valid, sync_root_key. simpl. by destruct (pr && _).
Qed.

(** What the responder returns describes the session it stored. *)
Lemma upsert_spec st key ag send recv pk rk now now_ms st' u :
  store_wf st →
  upsert_responder_session st key ag send recv pk rk now now_ms = (st', Ok u) →
  ∃ s, lookup_session st' key = Some (up_session u, s) ∧ session_is_valid s = true ∧
    generation_of s = up_generation u ∧
    match up_action u with
    | Join => ag = Some (up_generation u) ∧ up_root_key u = None
    | _ => up_root_key u = Some (root_key_of s)
    end.
Proof.
  intros Hwf. unfold upsert_responder_session.
  set (x := match lookup_session st key with Some _ => _ | None => _ end).
  assert (Hx : ∃ st1 ex, x = (st1, ex) ∧ heap st1 = heap st ∧ next_ref st1 = next_ref st ∧
    match ex with
    | Some (r, s) => lookup_session st1 key = Some (r, s) ∧ session_is_valid s = true
    | None => True
    end).
  { unfold x. destruct (lookup_session st key) as [[r s]|] eqn:El; [|by do 2 eexists].
    do 2 eexists. split; [done|]. split; [done|]. split; [done|].
    destruct (session_is_valid s) eqn:Ev; [|done]. split; [|done].
    unfold lookup_session in *. destruct (sessions st !! key) as [e|]; [|done]. cbn [mbind option_bind] in El.
    destruct (heap st !! session_ref e) as [s0|] eqn:Eh; [|done]. cbn [mbind option_bind] in El.
    injection El as <- <-. unfold touch, with_sessions. cbn [sessions heap]. rewrite lookup_insert_eq.
    cbn [mbind option_bind session_ref]. by rewrite Eh. }
  destruct Hx as (st1 & ex & -> & Hheap & Hnext & Hex). destruct ex as [[r s]|].
  - destruct Hex as [Hlook Hv]. destruct (check_algo_state s send recv) as [->| ->]; [|done].
    pose proof (check_pubkey_spec s pk) as Hpk.
    destruct (check_or_set_peer_static_pubkey s pk) as [s' [[]|]]; [|done].
    destruct Hpk as (Hd & _ & Hinv & _).
    assert (Hv' : session_is_valid s' = true) by (unfold session_is_valid in *; by rewrite Hinv, Hd).
    assert (Hl' : lookup_session (hand_out (write_session st1 r s') r) key = Some (r, s')).
    { unfold lookup_session in *. cbn [hand_out write_session sessions heap].
      destruct (sessions st1 !! key) as [e|]; [|done]. cbn [mbind option_bind] in *.
      destruct (heap st1 !! session_ref e) as [s0|]; [|done]. cbn [mbind option_bind] in Hlook.
      injection Hlook as <- ->. by rewrite lookup_insert_eq. }
    case_bool_decide as Hg; intros [= <- <-]; exists s'; cbn; auto 10.
  - unfold insert_new. cbn [hand_out]. intros [= <- <-]. cbn [up_session up_generation up_action up_root_key].
    eexists. unfold lookup_session. cbn [sessions heap hand_out]. rewrite lookup_insert_eq. cbn [mbind option_bind session_ref].
    rewrite lookup_insert_eq. split; [done|]. done.
Qed.

Lemma lookup_touch st key r s now :
  lookup_session st key = Some (r, s) →
  lookup_session (touch st key r now) key = Some (r, s) ∧ heap (touch st key r now) !! r = Some s.
Proof.
  unfold lookup_session, touch. cbn [sessions heap with_sessions].
  destruct (sessions st !! key) as [e|]; [|done]. cbn [mbind option_bind].
  destruct (heap st !! session_ref e) eqn:Eh; [|done]. cbn [mbind option_bind]. intros [= <- <-].
  rewrite lookup_insert_eq. cbn [mbind option_bind session_ref]. by rewrite Eh.
Qed.

Lemma lookup_write st key r s s' :
  lookup_session st key = Some (r, s) → lookup_session (write_session st r s') key = Some (r, s').
Proof.
  unfold lookup_session. cbn [write_session sessions heap].
  destruct (sessions st !! key) as [e|]; [|done]. cbn [mbind option_bind].
  destruct (heap st !! session_ref e); [|done]. cbn [mbind option_bind]. intros [= <- <-].
  by rewrite lookup_insert_eq.
Qed.

Lemma lookup_insert_new st key s now :
  let '(st', r) := insert_new st key s now in
  lookup_session st' key = Some (r, s) ∧ heap st' !! r = Some s.
Proof.
  unfold insert_new, lookup_session. cbn [sessions heap]. rewrite lookup_insert_eq.
  cbn [mbind option_bind session_ref]. by rewrite lookup_insert_eq.
Qed.

Lemma check_pubkey_valid s pk s' :
  check_or_set_peer_static_pubkey s pk = (s', Ok tt) → session_is_valid s' = session_is_valid s.
Proof.
  intros E. pose proof (check_pubkey_spec s pk) as H. rewrite E in H.
  destruct H as (H1 & _ & H3 & _). unfold session_is_valid. by rewrite H1, H3.
Qed.

Lemma sync_entry_spec st key r0 s0 send recv pk root g ie pr now_ms st' r :
  lookup_session st key = Some (r0, s0) → heap st !! r0 = Some s0 → session_is_valid s0 = true →
  sync_entry st r0 send recv pk root g ie pr now_ms = (st', Ok r) →
  ∃ s, lookup_session st' key = Some (r, s) ∧ session_is_valid s = true ∧ generation_of s = g ∧
    root_key_of s = root ∧ send_epoch (datagram s) = ie.
Proof.
  intros Hl Hh Hv. unfold sync_entry. rewrite Hh. destruct (check_algo_state s0 send recv) as [->| ->]; [|done].
  destruct (check_or_set_peer_static_pubkey s0 pk) as [s' [[]|]] eqn:Ec; [|done]. intros [= <- <-].
  exists (sync_session s' root g ie pr now_ms).
  split; [exact (lookup_write st key r0 s0 _ Hl)|]. rewrite valid_after_sync, (check_pubkey_valid s0 pk s' Ec).
  split; [done|]. by rewrite generation_after_sync, root_after_sync, epoch_after_sync.
Qed.

Lemma drop_invalid_spec st key r s :
  lookup_session (drop_invalid st key) key = Some (r, s) → session_is_valid s = true.
Proof.
  unfold drop_invalid. destruct (lookup_session st key) as [[r0 s0]|] eqn:El; [|by rewrite El].
  destruct (session_is_valid s0) eqn:Ev; cbn [negb]; [rewrite El; by intros [= <- <-]|].
  unfold lookup_session, remove. cbn [sessions with_sessions]. by rewrite lookup_delete_eq.
Qed.

Lemma sync_or_create_spec st key s0 send recv pk root g ie pr now now_ms st' r :
  session_is_valid s0 = true →
  (let '(st2, r2) := entry_or_insert (drop_invalid st key) key s0 now in
   sync_entry st2 r2 send recv pk root g ie pr now_ms) = (st', Ok r) →
  ∃ s, lookup_session st' key = Some (r, s) ∧ session_is_valid s = true ∧ generation_of s = g ∧
    root_key_of s = root ∧ send_epoch (datagram s) = ie.
Proof.
  intros Hv. unfold entry_or_insert. pose proof (drop_invalid_spec st key) as Hd.
  destruct (lookup_session (drop_invalid st key) key) as [[r1 s1]|] eqn:El.
  - destruct (lookup_touch _ key r1 s1 now El) as [H1 H2]. apply (sync_entry_spec _ key r1 s1); [done..|].
    by eapply Hd.
  - pose proof (lookup_insert_new (drop_invalid st key) key s0 now) as Hi.
    destruct (insert_new _ key s0 now) as [st2 r2]. destruct Hi. by apply (sync_entry_spec _ key r2 s0).
Qed.

(** What the initiator stored after a successful answer. *)
Lemma apply_spec st key action bg root ie send recv pk now now_ms st' r :
  apply_initiator_action st key action bg root ie send recv pk now now_ms = (st', Ok r) →
  ∃ s, lookup_session st' key = Some (r, s) ∧ session_is_valid s = true ∧ generation_of s = bg ∧
    (action ≠ Join → root = Some (root_key_of s) ∧ send_epoch (datagram s) = ie).
Proof.
  unfold apply_initiator_action. destruct action.
  - unfold get. destruct (lookup_session st key) as [[r0 s0]|] eqn:El; [|done].
    destruct (lookup_touch st key r0 s0 now El) as [Ht1 Ht2].
    destruct (session_is_valid s0) eqn:Ev; [|done]. cbn [hand_out heap].
    rewrite Ht2. destruct (check_algo_state s0 send recv) as [->| ->]; [|done].
    destruct (check_or_set_peer_static_pubkey s0 pk) as [s' [[]|]] eqn:Ec; [|done].
    destruct (Z.eqb_spec (generation_of s') bg) as [Hg|]; [|done]. cbn [negb]. intros [= <- <-].
    exists s'. split; [exact (lookup_write _ key r0 s0 s' Ht1)|].
    rewrite (check_pubkey_valid s0 pk s' Ec). by split_and!.
  - destruct root as [rt|]; [|done]. intros E%sync_or_create_spec; [|done].
    destruct E as (s & ? & ? & ? & <- & ?). exists s. by split_and!.
  - destruct root as [rt|]; [|done]. intros E%sync_or_create_spec; [|done].
    destruct E as (s & ? & ? & ? & <- & ?). exists s. by split_and!.
Qed.

(** C39: the two sides of a handshake agree: when the initiator applies what the
    responder returned, both stores hold valid sessions of the same generation; after
    a create or a sync they have the same root key and the initiator sends from the
    epoch the responder chose. *)
Theorem handshake_agrees stA stB keyA keyB ag sendA recvA sendB recvB pkA pkB rk now now_ms now' now_ms'
    stA' stB' u r :
  store_wf stB →
  upsert_responder_session stB keyB ag sendB recvB pkA rk now now_ms = (stB', Ok u) →
  apply_initiator_action stA keyA (up_action u) (up_generation u) (up_root_key u) (up_initial_epoch u)
    sendA recvA pkB now' now_ms' = (stA', Ok r) →
  ∃ sA sB : PeerSession Encryptor, lookup_session stA' keyA = Some (r, sA) ∧ lookup_session stB' keyB = Some (up_session u, sB) ∧
    session_is_valid sA = true ∧ session_is_valid sB = true ∧ generation_of sA = generation_of sB ∧
    (up_action u ≠ Join → root_key_of sA = root_key_of sB ∧
       send_epoch (datagram sA) = up_initial_epoch u).
Proof.
  intros Hwf HB HA. destruct (upsert_spec _ _ _ _ _ _ _ _ _ _ _ Hwf HB) as (sB & HlB & HvB & HgB & Hact).
  destruct (apply_spec _ _ _ _ _ _ _ _ _ _ _ _ _ HA) as (sA & HlA & HvA & HgA & Hroot).
  exists sA, sB. split_and!; try done; [congruence|]. intros Hne. destruct (Hroot Hne) as [Hr He].
  split; [|done]. destruct (up_action u); [done|congruence..].
Qed.

(** Two peers that handshake in both directions at once: each answers as responder
    before it applies the other's answer. *)
Definition crossed_handshake (stA stB : PeerSessionStore Encryptor) (keyA keyB : SessionKey)
    (alg : string) (rootA rootB : list Z) (now now_ms : Z)
    : option (PeerSessionStore Encryptor * PeerSessionStore Encryptor) :=
  match upsert_responder_session stA keyA None alg alg None rootA now now_ms,
        upsert_responder_session stB keyB None alg alg None rootB now now_ms with
  | (stA1, Ok uA), (stB1, Ok uB) =>
      match apply_initiator_action stA1 keyA (up_action uB) (up_generation uB) (up_root_key uB)
              (up_initial_epoch uB) alg alg None now now_ms,
            apply_initiator_action stB1 keyB (up_action uA) (up_generation uA) (up_root_key uA)
              (up_initial_epoch uA) alg alg None now now_ms with
      | (stA2, Ok _), (stB2, Ok _) => Some (stA2, stB2)
      | _, _ => None
      end
  | _, _ => None
  end.

Lemma root_key_new peer root g e send recv pk now :
  root_key_of (@new_session Encryptor peer root g e send recv pk now) = root.
Proof. done. Qed.

Lemma check_algo_new peer root g e alg pk now :
  check_algo (@new_session Encryptor peer root g e alg alg pk now) alg alg = Ok tt.
Proof.
  unfold check_algo, check_encrypt_algo_same, new_session, new. simpl.
  by rewrite !bool_decide_eq_true_2.
Qed.

(** The store after one side of the crossed handshake: created as responder, then
    overwritten by the peer's key. *)
Lemma crossed_side key alg own other now now_ms :
  ∃ st1 u st2 r s, upsert_responder_session (@empty_store Encryptor) key None alg alg None own now now_ms = (st1, Ok u) ∧
    u = mkUpsert 0 Create 1 (Some own) 0 ∧
    apply_initiator_action st1 key Create 1 (Some other) 0 alg alg None now now_ms = (st2, Ok r) ∧
    lookup_session st2 key = Some (r, s) ∧ session_is_valid s = true ∧
    generation_of s = 1 ∧ root_key_of s = other ∧ check_algo s alg alg = Ok tt.
Proof.
  unfold upsert_responder_session, lookup_session at 1. cbn [empty_store sessions]. rewrite lookup_empty.
  cbn [mbind option_bind]. unfold insert_new. cbn [empty_store next_ref heap handles sessions].
  set (st1 := hand_out _ 0). set (s1 := new_session _ own 1 0 alg alg None now_ms) in *.
  assert (Hl : lookup_session st1 key = Some (0, s1)).
  { unfold lookup_session, st1. cbn [hand_out sessions heap]. rewrite lookup_insert_eq.
    cbn [mbind option_bind session_ref]. by rewrite lookup_insert_eq. }
  exists st1, (mkUpsert 0 Create 1 (Some own) 0).
  unfold apply_initiator_action, drop_invalid, entry_or_insert. rewrite Hl.
  change (session_is_valid s1) with true. cbn [negb]. rewrite Hl.
  destruct (lookup_touch st1 key 0 s1 now Hl) as [Ht1 Ht2]. unfold sync_entry. rewrite Ht2.
  unfold s1 at 1. rewrite check_algo_new. cbn [check_or_set_peer_static_pubkey].
  do 3 eexists. split; [done|]. split; [done|]. split; [done|].
  split; [exact (lookup_write _ key 0 s1 _ Ht1)|]. rewrite valid_after_sync, generation_after_sync, root_after_sync.
  split_and!; try done. unfold check_algo, check_encrypt_algo_same, sync_session, sync_root_key. simpl.
  by rewrite !bool_decide_eq_true_2.
Qed.

(** Crossed handshakes leave the peers with swapped keys that a later join
    accepts: when two peers answer each other before applying the answers, each ends
    with the other's root key, both with generation 1; a later handshake announcing
    that generation is then answered with a join, which succeeds although the two
    root keys differ. *)
Theorem crossed_handshakes_join keyA keyB alg rootA rootB rk now now_ms :
  rootA ≠ rootB →
  ∃ stA stB stB' u stA' r sA sB,
    crossed_handshake empty_store empty_store keyA keyB alg rootA rootB now now_ms = Some (stA, stB) ∧
    upsert_responder_session stB keyB (Some 1) alg alg None rk now now_ms = (stB', Ok u) ∧
    up_action u = Join ∧
    apply_initiator_action stA keyA (up_action u) (up_generation u) (up_root_key u) (up_initial_epoch u)
      alg alg None now now_ms = (stA', Ok r) ∧
    lookup_session stA' keyA = Some (r, sA) ∧ lookup_session stB' keyB = Some (up_session u, sB) ∧
    root_key_of sA = rootB ∧ root_key_of sB = rootA ∧ root_key_of sA ≠ root_key_of sB.
Proof.
  intros Hne.
  destruct (crossed_side keyA alg rootA rootB now now_ms)
    as (stA1 & uA & stA & rA & sA & HuA & -> & HaA & HlA & HvA & HgA & HrA & HcA).
  destruct (crossed_side keyB alg rootB rootA now now_ms)
    as (stB1 & uB & stB & rB & sB & HuB & -> & HaB & HlB & HvB & HgB & HrB & HcB).
  destruct (lookup_touch stB keyB rB sB now HlB) as [HtB _].
  destruct (lookup_touch stA keyA rA sA now HlA) as [HtA HhA].
  exists stA, stB, (hand_out (write_session (touch stB keyB rB now) rB sB) rB), (mkUpsert rB Join 1 None 0),
    (write_session (hand_out (touch stA keyA rA now) rA) rA sA), rA, sA, sB.
  split; [unfold crossed_handshake; rewrite HuA, HuB; cbn [up_action up_generation up_root_key up_initial_epoch];
    by rewrite HaA, HaB|].
  split.
  { unfold upsert_responder_session. rewrite HlB, HvB, HcB. cbn [check_or_set_peer_static_pubkey].
    by rewrite HgB. }
  split; [done|]. cbn [up_action up_generation up_root_key up_initial_epoch up_session]. split.
  { unfold apply_initiator_action, get. rewrite HlA, HvA. cbn [hand_out heap]. rewrite HhA, HcA.
    cbn [check_or_set_peer_static_pubkey]. by rewrite HgA. }
  split; [exact (lookup_write _ keyA rA sA sA HtA)|]. split; [exact (lookup_write _ keyB rB sB sB HtB)|].
  split; [done|]. split; [done|]. congruence.
Qed.

End StoreFacts.

(** ** Witnesses *)

Lemma empty_store_wf {Encryptor} : store_wf (@empty_store Encryptor).
Proof.
  split.
  - intros key e. unfold empty_store. cbn [sessions]. by rewrite lookup_empty.
  - intros r. unfold empty_store. cbn [heap]. rewrite lookup_empty. by intros [? ?].
Qed.

Definition demo_key : SessionKey := mkKey "net" 2.

Lemma handshake_agrees_witness :
  ∃ stA' stB' u r sA sB,
    upsert_responder_session (@empty_store unit) demo_key None "a" "a" None [1; 2; 3] 5 5 = (stB', Ok u) ∧
    apply_initiator_action (@empty_store unit) (mkKey "net" 1) (up_action u) (up_generation u) (up_root_key u)
      (up_initial_epoch u) "a" "a" None 6 6 = (stA', Ok r) ∧
    lookup_session stA' (mkKey "net" 1) = Some (r, sA) ∧ lookup_session stB' demo_key = Some (up_session u, sB) ∧
    up_action u = Create ∧ root_key_of sA = root_key_of sB.
Proof.
  destruct (crossed_side (Encryptor := unit) demo_key "a" [1; 2; 3] [] 5 5)
    as (stB' & u & _ & _ & _ & HB & -> & _).
  destruct (apply_initiator_action (@empty_store unit) (mkKey "net" 1) Create 1 (Some [1; 2; 3]) 0
    "a" "a" None 6 6) as [stA' [r|e]] eqn:HA; [|vm_compute in HA; discriminate].
  destruct (handshake_agrees empty_store empty_store (mkKey "net" 1) demo_key None "a" "a" "a" "a" None None
    [1; 2; 3] 5 5 6 6 stA' stB' (mkUpsert 0 Create 1 (Some [1; 2; 3]) 0) r empty_store_wf HB HA)
    as (sA & sB & H1 & H2 & _ & _ & _ & H3).
  exists stA', stB', (mkUpsert 0 Create 1 (Some [1; 2; 3]) 0), r, sA, sB.
  split; [exact HB|]. split; [exact HA|]. split; [exact H1|]. split; [exact H2|]. split; [reflexivity|].
  apply H3. discriminate.
Defined.

Lemma crossed_handshakes_join_witness :
  ∃ (stA stB : PeerSessionStore unit) u stA' r,
    crossed_handshake empty_store empty_store demo_key (mkKey "net" 1) "a" [1] [2] 5 5 = Some (stA, stB) ∧
    apply_initiator_action stA demo_key Join (up_generation u) None (up_initial_epoch u)
      "a" "a" None 5 5 = (stA', Ok r).
Proof.
  destruct (crossed_handshakes_join (Encryptor := unit) demo_key (mkKey "net" 1) "a" [1] [2] [3] 5 5)
    as (stA & stB & stB' & u & stA' & r & sA & sB & H1 & _ & Hj & H2 & _); [discriminate|].
  rewrite Hj in H2. exists stA, stB, (mkUpsert 0 Join (up_generation u) None (up_initial_epoch u)), stA', r.
  split; [exact H1|].
  destruct (up_root_key u) eqn:E; exact H2.
Defined.
