(* ===== verification/OperationBroker.v ===== *)
(** * The operation broker

    Models easytier-core/src/foundation/operation_broker.rs: admission, completion,
    cancellation, draining, taking and freeing of externally submitted operations.
    The [HashMap] is a [gmap], the [VecDeque] a list.  A [CancellationToken] is shared
    between the broker and the task that runs the operation: the broker's record
    carries the token store (the next fresh token and the cancelled ones) and an
    operation holds a token of it.  [expect] on absent metadata is [None].  The
    theorems show that no [expect] fails, that every completion is delivered at most
    once and in completion order, and that no wake-up is lost. *)

From stdpp Require Import base gmap list numbers sets.
From Stdlib Require Import ZArith Lia.
From S2P Require Import Prelude.
Local Open Scope Z_scope.

Module OperationId.

Definition from_raw (value : Z) : option Z := if value =? 0 then None else Some value.

End OperationId.

Inductive AdmissionError : Type := AtCapacity | IdExhausted.

Inductive AccessError : Type := Missing | NotDrained.

Record Admission : Type := mkAdmission { ad_id : Z; ad_cancellation : Z }.

Section Broker.

(** The kind, outcome and metadata types. *)
Context {K O M : Type}.

Record Completion (S : Type) : Type := mkCompletion {
  cp_operation_id : Z;
  cp_kind : K;
  cp_status : S
}.

Record ReleasedOperation : Type := mkReleased {
  rl_metadata : M;
  rl_outcome : option O
}.

Record TakenOperation (T : Type) : Type := mkTaken {
  tk_metadata : M;
  tk_value : T
}.

Inductive OperationState : Type :=
| Pending
| Queued (outcome : O)
| Drained (outcome : O)
| Discarding.

Record Operation : Type := mkOperation {
  op_kind : K;
  op_metadata : option M;
  op_cancellation : Z;
  op_state : OperationState
}.

(** [next_token] and [cancelled] are the store of the cancellation tokens. *)
Record OperationBroker : Type := mkBroker {
  max_operations : Z;
  next_operation_id : Z;
  operations : gmap Z Operation;
  completions : list Z;
  wake_generation : Z;
  next_token : Z;
  cancelled : gset Z
}.

Implicit Types b : OperationBroker.

Definition with_state (o : Operation) (st : OperationState) : Operation :=
  mkOperation (op_kind o) (op_metadata o) (op_cancellation o) st.

Definition with_operations b (ops : gmap Z Operation) : OperationBroker :=
  mkBroker (max_operations b) (next_operation_id b) ops (completions b) (wake_generation b)
    (next_token b) (cancelled b).

Definition with_queue b (ops : gmap Z Operation) (q : list Z) : OperationBroker :=
  mkBroker (max_operations b) (next_operation_id b) ops q (wake_generation b)
    (next_token b) (cancelled b).

(** [token.cancel()]. *)
Definition cancel_token b (tok : Z) : OperationBroker :=
  mkBroker (max_operations b) (next_operation_id b) (operations b) (completions b)
    (wake_generation b) (next_token b) ({[tok]} ∪ cancelled b).

Definition new (max : Z) : OperationBroker := mkBroker max 1 ∅ [] 0 0 ∅.

Definition admit_operation b (kind : K) (metadata : M)
    : OperationBroker * result Admission AdmissionError :=
  if max_operations b <=? Z.of_nat (size (operations b)) then (b, Err AtCapacity)
  else
    match OperationId.from_raw (next_operation_id b) with
    | None => (b, Err IdExhausted)
    | Some id =>
        match checked_add 64 (next_operation_id b) 1 with
        | None => (b, Err IdExhausted)
        | Some next =>
            let tok := next_token b in
            let ops := <[id := mkOperation kind (Some metadata) tok Pending]> (operations b) in
            (mkBroker (max_operations b) next ops (completions b) (wake_generation b)
               (tok + 1) (cancelled b), Ok (mkAdmission id tok))
        end
    end.

Definition resolve_pending_with b (id : Z) (cancel : bool) (complete : K → M → O * M)
    : option (OperationBroker * bool) :=
  match operations b !! id with
  | None => Some (b, false)
  | Some o =>
      let removed := delete id (operations b) in
      match op_state o with
      | Pending =>
          let b1 := if cancel then cancel_token b (op_cancellation o) else b in
          m ← op_metadata o;
          let '(outcome, m') := complete (op_kind o) m in
          let notify := bool_decide (completions b = []) in
          let o' := mkOperation (op_kind o) (Some m') (op_cancellation o) (Queued outcome) in
          Some (with_queue b1 (<[id := o']> removed) (completions b ++ [id]), notify)
      | Discarding =>
          Some (with_operations b (if cancel then <[id := o]> removed else removed), false)
      | Queued _ | Drained _ => Some (with_operations b (<[id := o]> removed), false)
      end
  end.

Definition complete_with b (id : Z) (complete : K → M → O * M) : option (OperationBroker * bool) :=
  resolve_pending_with b id false complete.

Definition cancel_with b (id : Z) (complete : K → M → O * M) : option (OperationBroker * bool) :=
  resolve_pending_with b id true complete.

Definition free b (id : Z) : option (OperationBroker * option ReleasedOperation) :=
  match operations b !! id with
  | None => Some (b, None)
  | Some o =>
      let removed := delete id (operations b) in
      match op_state o with
      | Pending =>
          let b1 := cancel_token b (op_cancellation o) in
          m ← op_metadata o;
          let o' := mkOperation (op_kind o) None (op_cancellation o) Discarding in
          Some (with_operations b1 (<[id := o']> removed), Some (mkReleased m None))
      | Queued outcome =>
          let q := filter (λ c, c ≠ id) (completions b) in
          m ← op_metadata o;
          Some (with_queue b removed q, Some (mkReleased m (Some outcome)))
      | Drained outcome =>
          m ← op_metadata o;
          Some (with_operations b removed, Some (mkReleased m (Some outcome)))
      | Discarding => Some (with_operations b (<[id := o]> removed), None)
      end
  end.

(** The loop of [drain]: [room] completions may still be pushed. *)
Fixpoint drain_loop {S} (status : O → S) (q : list Z) (room : nat) (ops : gmap Z Operation)
    : gmap Z Operation * list Z * list (Completion S) :=
  match room, q with
  | Datatypes.O, _ | _, [] => (ops, q, [])
  | Datatypes.S room', id :: q' =>
      match ops !! id with
      | None => drain_loop status q' room ops
      | Some o =>
          match op_state o with
          | Queued outcome =>
              let '(ops', rest, out) :=
                drain_loop status q' room' (<[id := with_state o (Drained outcome)]> ops) in
              (ops', rest, mkCompletion S id (op_kind o) (status outcome) :: out)
          | _ => drain_loop status q' room ops
          end
      end
  end.

Definition drain {S} b (max_count : Z) (status : O → S) : OperationBroker * list (Completion S) :=
  let '(ops, q, out) := drain_loop status (completions b) (Z.to_nat max_count) (operations b) in
  (with_queue b ops q, out).

Definition has_completions b : bool := negb (bool_decide (completions b = [])).

Definition is_pending (o : Operation) : bool :=
  match op_state o with Pending => true | _ => false end.

Definition pending_kind b (id : Z) : option K :=
  o ← operations b !! id; if is_pending o then Some (op_kind o) else None.

Definition request_cancellation b (id : Z) : OperationBroker * bool :=
  match operations b !! id with
  | None => (b, false)
  | Some o => if negb (is_pending o) then (b, false)
              else (cancel_token b (op_cancellation o), true)
  end.

Definition with_drained {T} b (id : Z) (inspect : K → M → O → T) : option (result T AccessError) :=
  match operations b !! id with
  | None => Some (Err Missing)
  | Some o =>
      match op_state o with
      | Drained outcome => m ← op_metadata o; Some (Ok (inspect (op_kind o) m outcome))
      | _ => Some (Err NotDrained)
      end
  end.

Definition take_with {T} b (id : Z) (take : O → option T)
    : option (OperationBroker * result (option (TakenOperation T)) AccessError) :=
  match operations b !! id with
  | None => Some (b, Err Missing)
  | Some o =>
      let removed := delete id (operations b) in
      match op_state o with
      | Drained outcome =>
          match take outcome with
          | None => Some (with_operations b (<[id := o]> removed), Ok None)
          | Some value =>
              m ← op_metadata o;
              Some (with_operations b removed, Ok (Some (mkTaken T m value)))
          end
      | _ => Some (with_operations b (<[id := o]> removed), Err NotDrained)
      end
  end.

(** The ids, as a set: the iteration order of a [HashMap] is unspecified. *)
Definition pending_ids b : gset Z :=
  dom (filter (λ kv, is_pending kv.2 = true) (operations b)).

Definition invalidate_waiters b : OperationBroker :=
  mkBroker (max_operations b) (next_operation_id b) (operations b) (completions b)
    (wrapping_add 64 (wake_generation b) 1) (next_token b) (cancelled b).

Definition discard_all b : OperationBroker :=
  let toks := list_to_set (map (λ kv, op_cancellation kv.2) (map_to_list (operations b))) in
  invalidate_waiters
    (mkBroker (max_operations b) (next_operation_id b) ∅ [] (wake_generation b)
       (next_token b) (toks ∪ cancelled b)).

End Broker.

Arguments OperationBroker : clear implicits.
Arguments Operation : clear implicits.
Arguments OperationState : clear implicits.

(** * Runs of the broker *)

Section Runs.

Context {K O M : Type}.
Implicit Types b : OperationBroker K O M.

(** A call of a state-changing method, with its closures. *)
Inductive Request : Type :=
| RAdmit (kind : K) (metadata : M)
| RResolve (id : Z) (cancel : bool) (complete : K → M → O * M)
| RFree (id : Z)
| RDrain (max_count : Z)
| RRequestCancellation (id : Z)
| RTake (id : Z) (take : O → option unit)
| RInvalidateWaiters
| RDiscardAll.

(** What the caller sees of a call. *)
Inductive Event : Type :=
| Accepted (id : Z)
| Resolved (id : Z)
| Delivered (id : Z)
| Notified.

Definition resolve_events b (id : Z) (notify : bool) : list Event :=
  match pending_kind b id with
  | Some _ => Resolved id :: (if notify then [Notified] else [])
  | None => if notify then [Notified] else []
  end.

(** One call: the next state and the events, [None] for a failed [expect]. *)
Definition exec b (r : Request) : option (OperationBroker K O M * list Event) :=
  match r with
  | RAdmit k m =>
      match admit_operation b k m with
      | (b', Ok a) => Some (b', [Accepted (ad_id a)])
      | (b', Err _) => Some (b', [])
      end
  | RResolve id cancel complete =>
      x ← resolve_pending_with b id cancel complete;
      Some (fst x, resolve_events b id (snd x))
  | RFree id => x ← free b id; Some (fst x, [])
  | RDrain n =>
      let '(b', out) := drain b n (λ _, tt) in
      Some (b', map (λ c, Delivered (cp_operation_id unit c)) out)
  | RRequestCancellation id => Some (fst (request_cancellation b id), [])
  | RTake id take => x ← take_with b id take; Some (fst x, [])
  | RInvalidateWaiters => Some (invalidate_waiters b, [])
  | RDiscardAll => Some (discard_all b, [])
  end.

Fixpoint exec_all b (rs : list Request) : option (OperationBroker K O M * list Event) :=
  match rs with
  | [] => Some (b, [])
  | r :: rs' =>
      x ← exec b r;
      y ← exec_all (fst x) rs';
      Some (fst y, snd x ++ snd y)
  end.

Definition is_queued (o : Operation K O M) : Prop :=
  match op_state o with Queued _ => True | _ => False end.

(** The state of one operation: present metadata unless it is being discarded, whose
    token is then cancelled. *)
Definition op_ok b (id : Z) (o : Operation K O M) : Prop :=
  1 <= id < next_operation_id b ∧ 0 <= op_cancellation o < next_token b ∧
  match op_state o with
  | Discarding => op_metadata o = None ∧ op_cancellation o ∈ cancelled b
  | _ => is_Some (op_metadata o)
  end.

Record inv b : Prop := mkInv {
  inv_ids : 1 <= next_operation_id b <= uint_max 64;
  inv_tokens : 0 <= next_token b;
  inv_ops : ∀ id o, operations b !! id = Some o → op_ok b id o;
  inv_nodup : NoDup (completions b);
  inv_queue : ∀ id, id ∈ completions b ↔ ∃ o, operations b !! id = Some o ∧ is_queued o;
  inv_sep : ∀ i j oi oj, operations b !! i = Some oi → operations b !! j = Some oj →
    op_cancellation oi = op_cancellation oj → i = j;
  inv_size : Z.of_nat (size (operations b)) <= Z.max 0 (max_operations b)
}.

Lemma new_inv max : inv (new max).
Proof.
  split; simpl; try done; try lia.
  - constructor.
  - intros id. split; [by intros ?%elem_of_nil|]. intros (o & ? & _). done.
  - rewrite map_size_empty. lia.
Qed.

(** Replacing the operation [id], keeping its token. *)
Lemma inv_insert b id o o' q can :
  inv b → operations b !! id = Some o →
  op_cancellation o' = op_cancellation o → cancelled b ⊆ can →
  op_ok (mkBroker (max_operations b) (next_operation_id b) (operations b) q (wake_generation b)
           (next_token b) can) id o' →
  NoDup q → (∀ i, i ≠ id → i ∈ q ↔ i ∈ completions b) → (id ∈ q ↔ is_queued o') →
  inv (mkBroker (max_operations b) (next_operation_id b) (<[id := o']> (delete id (operations b))) q
         (wake_generation b) (next_token b) can).
Proof.
  intros Hinv Ho Htok Hcan Hok Hnd Hq Hid. rewrite insert_delete_eq.
  split; simpl; try apply Hinv; try done.
  - intros i x. destruct (decide (i = id)) as [->|Hne].
    + rewrite lookup_insert_eq. by intros [= <-].
    + rewrite lookup_insert_ne by done. intros Hx.
      destruct (inv_ops b Hinv i x Hx) as (? & ? & Hst). split; [done|]. split; [done|].
      destruct (op_state x); [done..|]. simpl in *. destruct Hst; auto.
  - intros i. destruct (decide (i = id)) as [->|Hne].
    + rewrite Hid, lookup_insert_eq. split; [eauto|]. by intros (? & [= <-] & ?).
    + by rewrite (Hq i Hne), (inv_queue b Hinv i), lookup_insert_ne.
  - intros i j oi oj. rewrite !lookup_insert_Some. intros Hi Hj E.
    destruct Hi as [[<- <-]|[? Hi]], Hj as [[<- <-]|[? Hj]]; [done|..].
    + apply (inv_sep b Hinv _ _ o oj); [done..|congruence].
    + apply (inv_sep b Hinv _ _ oi o); [done..|congruence].
    + by apply (inv_sep b Hinv _ _ oi oj).
  - rewrite map_size_insert_Some by eauto. apply Hinv.
Qed.

(** Removing the operation [id]. *)
Lemma inv_delete b id q :
  inv b → NoDup q → (∀ i, i ∈ q ↔ i ∈ completions b ∧ i ≠ id) →
  inv (mkBroker (max_operations b) (next_operation_id b) (delete id (operations b)) q
         (wake_generation b) (next_token b) (cancelled b)).
Proof.
  intros Hinv Hnd Hq. split; simpl; try apply Hinv; try done.
  - intros i x [_ Hx]%lookup_delete_Some. by apply (inv_ops b Hinv).
  - intros i. rewrite Hq, (inv_queue b Hinv i). setoid_rewrite lookup_delete_Some.
    split; [intros [(o & ? & ?) ?]; eauto 10|intros (o & [? ?] & ?); eauto].
  - intros i j oi oj [_ Hi]%lookup_delete_Some [_ Hj]%lookup_delete_Some.
    by apply (inv_sep b Hinv).
  - pose proof (inv_size b Hinv). rewrite map_size_delete. destruct (operations b !! id); simpl; lia.
Qed.

Lemma inv_same b b' :
  inv b → max_operations b' = max_operations b → next_operation_id b' = next_operation_id b →
  operations b' = operations b → completions b' = completions b → next_token b' = next_token b →
  cancelled b ⊆ cancelled b' → inv b'.
Proof.
  intros Hinv Hm Hn Ho Hc Ht Hcan.
  split; rewrite ?Hm, ?Hn, ?Ho, ?Hc, ?Ht; try apply Hinv.
  intros id o Hl. destruct (inv_ops b Hinv id o Hl) as (? & ? & Hst). unfold op_ok.
  rewrite Hn, Ht. split_and!; try lia. destruct (op_state o); [done..|]. destruct Hst; auto.
Qed.

Lemma inv_queued_other b id o :
  inv b → operations b !! id = Some o → ¬ is_queued o → id ∉ completions b.
Proof.
  intros Hinv Ho Hq (o' & Ho' & ?)%(inv_queue b Hinv). congruence.
Qed.

Lemma inv_reinsert b id o :
  inv b → operations b !! id = Some o →
  with_operations b (<[id := o]> (delete id (operations b))) = b.
Proof.
  intros _ Ho. unfold with_operations. rewrite insert_delete_eq, insert_id by done. by destruct b.
Qed.

Lemma admit_inv b k m : inv b → inv (fst (admit_operation b k m)).
Proof.
  intros Hinv. unfold admit_operation, OperationId.from_raw.
  destruct (Z.leb_spec (max_operations b) (Z.of_nat (size (operations b)))); [done|].
  destruct (Z.eqb_spec (next_operation_id b) 0); [done|].
  destruct (checked_add 64 (next_operation_id b) 1) as [nx|] eqn:E; [|done]. cbn [fst].
  apply checked_add_Some in E as [-> Hmax]. pose proof (inv_ids b Hinv). pose proof (inv_tokens b Hinv).
  assert (Hnone : operations b !! next_operation_id b = None).
  { destruct (operations b !! next_operation_id b) eqn:El; [|done].
    destruct (inv_ops b Hinv _ _ El). lia. }
  split; cbn [operations completions max_operations next_operation_id next_token cancelled];
    try apply Hinv; try lia.
  - intros i x. rewrite lookup_insert_Some. intros [[<- <-]|[Hne Hx]].
    + split_and!; simpl; try lia. eauto.
    + destruct (inv_ops b Hinv i x Hx) as (? & ? & Hst). split_and!; simpl; [lia..|done].
  - intros i. rewrite (inv_queue b Hinv i). setoid_rewrite lookup_insert_Some.
    split; [|intros (o & [[<- <-]|[? ?]] & ?); [done|eauto]].
    intros (o & Ho & ?). exists o. split; [|done]. right. split; [|done]. congruence.
  - intros i j oi oj. rewrite !lookup_insert_Some.
    intros [[<- <-]|[? Hi]] [[<- <-]|[? Hj]]; simpl; [done|..|by apply (inv_sep b Hinv)].
    + intros E. destruct (inv_ops b Hinv _ _ Hj) as (_ & ? & _). lia.
    + intros E. destruct (inv_ops b Hinv _ _ Hi) as (_ & ? & _). lia.
  - rewrite map_size_insert_None by done. lia.
Qed.

Lemma NoDup_snoc {A} (l : list A) x : NoDup l → x ∉ l → NoDup (l ++ [x]).
Proof.
  intros Hl Hx. apply NoDup_app. split_and!; [done| |apply NoDup_singleton].
  by intros y Hy ->%list_elem_of_singleton.
Qed.

(** Every operation of [b'] comes from one of [b], and is pending only if that one
    was, and not the operation [x]. *)
Definition ops_from b b' (x : option Z) : Prop :=
  next_operation_id b' = next_operation_id b ∧
  ∀ id o', operations b' !! id = Some o' →
    ∃ o, operations b !! id = Some o ∧
      (is_pending o' = true → is_pending o = true ∧ x ≠ Some id).

Lemma ops_from_refl b : ops_from b b None.
Proof. split; [done|]. eauto. Qed.

Lemma ops_from_insert b id o o' q can :
  operations b !! id = Some o → is_pending o' = false →
  ops_from b (mkBroker (max_operations b) (next_operation_id b)
    (<[id := o']> (delete id (operations b))) q (wake_generation b) (next_token b) can) (Some id).
Proof.
  intros Ho Hp. split; [done|]. intros i x. simpl. rewrite insert_delete_eq, lookup_insert_Some.
  intros [[<- <-]|[Hne Hx]]; [|naive_solver]. exists o. split; [done|]. congruence.
Qed.

Lemma ops_from_delete b id q can :
  ops_from b (mkBroker (max_operations b) (next_operation_id b) (delete id (operations b)) q
    (wake_generation b) (next_token b) can) (Some id).
Proof. split; [done|]. intros i x. simpl. intros [? Hx]%lookup_delete_Some. naive_solver. Qed.

Lemma ops_from_not_pending b id :
  (∀ o, operations b !! id = Some o → is_pending o = false) → ops_from b b (Some id).
Proof.
  intros Hp. split; [done|]. intros i x Hx. exists x. split; [done|].
  intros E. split; [done|]. intros [= ->]. apply Hp in Hx. congruence.
Qed.

Lemma ops_from_weaken b b' x : ops_from b b' x → ops_from b b' None.
Proof. 
  intros [? H]. split; [done|]. intros i o' Ho. destruct (H i o' Ho) as (o & ? & Hp).
  exists o. split; [done|]. intros E. split; [by apply Hp|done].
Qed.

(** The effect of resolving an operation. *)
Lemma resolve_spec b id cancel f :
  inv b →
  ∃ b' n, resolve_pending_with b id cancel f = Some (b', n) ∧ inv b' ∧ ops_from b b' (Some id) ∧
    n = match pending_kind b id with Some _ => bool_decide (completions b = []) | None => false end ∧
    completions b' = completions b ++ (match pending_kind b id with Some _ => [id] | None => [] end).
Proof.
  intros Hinv. unfold resolve_pending_with, pending_kind.
  destruct (operations b !! id) as [o|] eqn:Ho; simpl.
  2:{ do 2 eexists. rewrite app_nil_r. split_and!; try done. apply ops_from_not_pending. congruence. }
  destruct (inv_ops b Hinv id o Ho) as (Hid & Htok & Hst).
  pose proof (inv_queued_other b id o Hinv Ho) as Hnotq. pose proof (inv_reinsert b id o Hinv Ho) as Hre.
  assert (Hfrom : is_pending o = false → ops_from b b (Some id))
    by (intros; apply ops_from_not_pending; congruence). unfold is_pending, is_queued in *.
  destruct (op_state o) eqn:Es; simpl; rewrite ?Hre.
  - destruct Hst as [m Hm]. rewrite Hm. simpl. destruct (f (op_kind o) m) as [out m'].
    assert (Hnot : id ∉ completions b) by tauto.
    eexists _, _. split; [done|]. split; [|split; [|by destruct cancel]].
    + unfold with_queue. destruct cancel; simpl;
        (eapply inv_insert; [done|exact Ho|done|first [apply union_subseteq_r|done]
        |split_and!; simpl; [lia..|by eauto]|apply NoDup_snoc; [apply Hinv|done]| |]);
        try (intros i Hi; rewrite elem_of_app, list_elem_of_singleton; naive_solver);
        rewrite elem_of_app, list_elem_of_singleton; by split; auto.
    + unfold with_queue. destruct cancel; simpl; by eapply (ops_from_insert b).
  - rewrite app_nil_r. eauto 10.
  - rewrite app_nil_r. eauto 10.
  - destruct cancel; rewrite ?Hre, app_nil_r; [by eauto 10|].
    eexists _, _. split; [done|]. split; [|split; [apply ops_from_delete|done]].
    apply inv_delete; [done|apply Hinv|]. intros i. split; [|naive_solver].
    intros Hi. split; [done|]. intros ->. tauto.
Qed.

(** The effect of freeing: the queue loses the operation. *)
Lemma free_spec b id :
  inv b →
  ∃ b' r, free b id = Some (b', r) ∧ inv b' ∧ ops_from b b' None ∧
    sublist (completions b') (completions b).
Proof.
  intros Hinv. unfold free. destruct (operations b !! id) as [o|] eqn:Ho;
    [|by eauto 10 using ops_from_refl].
  destruct (inv_ops b Hinv id o Ho) as (Hid & Htok & Hst).
  pose proof (inv_queued_other b id o Hinv Ho) as Hnotq. pose proof (inv_reinsert b id o Hinv Ho) as Hre.
  unfold is_queued in *. destruct (op_state o) eqn:Es; simpl; rewrite ?Hre; [..|by eauto 10 using ops_from_refl];
    destruct Hst as [m Hm]; rewrite Hm; simpl; (eexists _, _; split; [done|]).
  - split; [|split; [|done]]; unfold with_operations; simpl.
    + eapply inv_insert; [done|exact Ho|done|apply union_subseteq_r| |apply Hinv|done|unfold is_queued; simpl; tauto].
      split_and!; simpl; [lia..|]. split; [done|]. by apply elem_of_union_l, elem_of_singleton.
    + eapply ops_from_weaken, ops_from_insert; done.
  - split; [|split; [eapply ops_from_weaken, ops_from_delete|apply sublist_filter]].
    apply inv_delete; [done|apply NoDup_filter, Hinv|]. intros i. rewrite list_elem_of_filter. tauto.
  - split; [|split; [eapply ops_from_weaken, ops_from_delete|done]].
    apply inv_delete; [done|apply Hinv|]. intros i. split; [|tauto].
    intros Hi. split; [done|]. intros ->. tauto.
Qed.

Lemma take_spec {T} b id (take : O → option T) :
  inv b →
  ∃ b' r, take_with b id take = Some (b', r) ∧ inv b' ∧ ops_from b b' None ∧
    completions b' = completions b.
Proof.
  intros Hinv. unfold take_with. destruct (operations b !! id) as [o|] eqn:Ho;
    [|by eauto 10 using ops_from_refl].
  destruct (inv_ops b Hinv id o Ho) as (Hid & Htok & Hst).
  pose proof (inv_queued_other b id o Hinv Ho) as Hnotq. pose proof (inv_reinsert b id o Hinv Ho) as Hre.
  unfold is_queued in *. destruct (op_state o) eqn:Es; rewrite ?Hre; [by eauto 10 using ops_from_refl..| |by eauto 10 using ops_from_refl].
  destruct (take outcome); rewrite ?Hre; [|by eauto 10 using ops_from_refl].
  destruct Hst as [m ->]. simpl. eexists _, _. split; [done|].
  split; [|split; [eapply ops_from_weaken, ops_from_delete|done]].
  apply inv_delete; [done|apply Hinv|]. intros i. split; [|tauto].
  intros Hi. split; [done|]. intros ->. tauto.
Qed.

(** The loop of [drain] over a queue of queued operations. *)
Lemma drain_loop_spec {S} (status : O → S) q room (ops : gmap Z (Operation K O M)) :
  NoDup q → (∀ id, id ∈ q → ∃ o out, ops !! id = Some o ∧ op_state o = Queued out) →
  ∃ ops' out, drain_loop status q room ops = (ops', drop room q, out) ∧
    map (cp_operation_id S) out = take room q ∧
    (∀ id, id ∉ take room q → ops' !! id = ops !! id) ∧
    (∀ id, id ∈ take room q → ∃ o x, ops !! id = Some o ∧ ops' !! id = Some (with_state o (Drained x))) ∧
    size ops' = size ops.
Proof.
  revert room ops. induction q as [|id q IH]; intros room ops Hnd Hq.
  { exists ops, []. rewrite drop_nil, take_nil. split_and!; try done; [by destruct room|].
    by intros ? ?%elem_of_nil. }
  apply NoDup_cons in Hnd as [Hid Hnd]. destruct room as [|room].
  { exists ops, []. split_and!; try done. by intros ? ?%elem_of_nil. }
  destruct (Hq id) as (o & x & Ho & Hs); [by left|].
  cbn [drain_loop take drop]. rewrite Ho, Hs.
  destruct (IH room (<[id := with_state o (Drained x)]> ops)) as (ops' & out & E & Hout & Hother & Hin & Hsz);
    [done| |].
  { intros i Hi. destruct (Hq i) as (oi & xi & ? & ?); [by right|]. exists oi, xi.
    rewrite lookup_insert_ne by (by intros ->). done. }
  rewrite E. eexists _, _. split; [done|]. cbn [map cp_operation_id]. rewrite Hout.
  split; [done|]. split; [|split].
  - intros i [Hne Hi]%not_elem_of_cons. rewrite Hother by done. by rewrite lookup_insert_ne by done.
  - assert (Hid' : id ∉ take room q) by (rewrite <- (take_drop room q), elem_of_app in Hid; tauto).
    intros i [->|Hi]%elem_of_cons.
    + exists o, x. rewrite Hother by done. by rewrite lookup_insert_eq.
    + destruct (Hin i Hi) as (oi & xi & Hoi & ?). exists oi, xi.
      rewrite lookup_insert_ne in Hoi by (by intros ->). done.
  - rewrite Hsz. by apply map_size_insert_Some.
Qed.

Lemma inv_queued_state b id :
  inv b → id ∈ completions b → ∃ o out, operations b !! id = Some o ∧ op_state o = Queued out.
Proof.
  intros Hinv (o & Ho & Hq)%(inv_queue b Hinv). exists o. unfold is_queued in Hq.
  destruct (op_state o); try done. eauto.
Qed.

(** The effect of draining: the delivered completions are the front of the queue. *)
Lemma drain_spec {S} b n (status : O → S) :
  inv b →
  ∃ b' out, drain b n status = (b', out) ∧ inv b' ∧ ops_from b b' None ∧
    map (cp_operation_id S) out = take (Z.to_nat n) (completions b) ∧
    completions b' = drop (Z.to_nat n) (completions b).
Proof.
  intros Hinv. unfold drain.
  destruct (drain_loop_spec status (completions b) (Z.to_nat n) (operations b))
    as (ops' & out & -> & Hout & Hother & Hin & Hsz); [apply Hinv|by intros; apply inv_queued_state|].
  eexists _, _. split; [done|]. set (d := take (Z.to_nat n) (completions b)) in *.
  assert (Hback : ∀ i o', ops' !! i = Some o' → ∃ o, operations b !! i = Some o ∧
    op_kind o' = op_kind o ∧ op_metadata o' = op_metadata o ∧ op_cancellation o' = op_cancellation o ∧
    (i ∉ d ∧ o' = o ∨ i ∈ d ∧ ∃ x, op_state o' = Drained x)).
  { intros i o' Ho'. destruct (decide (i ∈ d)) as [Hd|Hd].
    - destruct (Hin i Hd) as (o & x & Ho & E). rewrite E in Ho'. injection Ho' as <-. simpl. eauto 10.
    - rewrite Hother in Ho' by done. eauto 10. }
  assert (Hsplit : completions b = d ++ drop (Z.to_nat n) (completions b))
    by (symmetry; apply take_drop).
  pose proof (inv_nodup b Hinv) as Hnd. rewrite Hsplit in Hnd. apply NoDup_app in Hnd as (_ & Hdis & Hnd).
  split; [split; simpl; try apply Hinv; try done|].
  - intros i o' (o & Ho & _ & Hm & Ht & Hc)%Hback.
    destruct (inv_ops b Hinv i o Ho) as (? & ? & Hst). split; [done|]. simpl. split; [by rewrite Ht|].
    destruct Hc as [[_ ->]|[Hd [x ->]]]; [done|]. rewrite Hm.
    destruct (inv_queued_state b i Hinv) as (o2 & x2 & Ho2 & E2);
      [rewrite Hsplit; by apply elem_of_app; left|].
    assert (o2 = o) as -> by congruence. by rewrite E2 in Hst.
  - intros i. split.
    + intros Hi. destruct (proj1 (inv_queue b Hinv i)) as (o & Ho & Hq);
        [rewrite Hsplit; by apply elem_of_app; right|].
      exists o. rewrite Hother; [done|]. intros Hd. by apply (Hdis i).
    + intros (o' & Ho' & Hq). destruct (Hback i o' Ho') as (o & Ho & _ & _ & _ & [[Hd ->]|[_ [x Hx]]]).
      * assert (Hi : i ∈ completions b) by (apply (inv_queue b Hinv); eauto).
        rewrite Hsplit, elem_of_app in Hi. tauto.
      * unfold is_queued in Hq. by rewrite Hx in Hq.
  - intros i j oi oj (o1 & H1 & _ & _ & E1 & _)%Hback (o2 & H2 & _ & _ & E2 & _)%Hback E.
    apply (inv_sep b Hinv i j o1 o2); congruence.
  - rewrite Hsz. apply Hinv.
  - split; [|done]. split; [done|]. simpl.
    intros i o' (o & Ho & _ & _ & _ & [[_ ->]|[_ [x Hx]]])%Hback; [eauto|].
    exists o. split; [done|]. unfold is_pending. rewrite Hx. done.
Qed.

Lemma request_cancellation_inv b id :
  inv b → inv (fst (request_cancellation b id)) ∧ ops_from b (fst (request_cancellation b id)) None ∧
    completions (fst (request_cancellation b id)) = completions b.
Proof.
  intros Hinv. unfold request_cancellation. destruct (operations b !! id) as [o|];
    [destruct (negb (is_pending o))|]; simpl; try (by auto using ops_from_refl).
  split; [|split; [|done]].
  - apply (inv_same b); try done. apply union_subseteq_r.
  - split; [done|]. simpl. eauto.
Qed.

Lemma discard_all_inv b : inv b → inv (discard_all b).
Proof.
  intros Hinv. split; simpl; try apply Hinv; try done.
  - constructor.
  - intros id. split; [by intros ?%elem_of_nil|]. by intros (o & ? & _).
  - rewrite map_size_empty. lia.
Qed.

(** ** Logs *)

Definition admitted (l : list Event) : list Z :=
  omap (λ e, match e with Accepted i => Some i | _ => None end) l.
Definition resolved (l : list Event) : list Z :=
  omap (λ e, match e with Resolved i => Some i | _ => None end) l.
Definition delivered (l : list Event) : list Z :=
  omap (λ e, match e with Delivered i => Some i | _ => None end) l.

Lemma admitted_app l1 l2 : admitted (l1 ++ l2) = admitted l1 ++ admitted l2.
Proof. apply omap_app. Qed.
Lemma resolved_app l1 l2 : resolved (l1 ++ l2) = resolved l1 ++ resolved l2.
Proof. apply omap_app. Qed.
Lemma delivered_app l1 l2 : delivered (l1 ++ l2) = delivered l1 ++ delivered l2.
Proof. apply omap_app. Qed.

Lemma omap_delivered {S} (out : list (Completion S)) :
  let evs := map (λ c, Delivered (cp_operation_id S (K := K) c)) out in
  delivered evs = map (cp_operation_id S) out ∧ admitted evs = [] ∧ resolved evs = [].
Proof. induction out as [|c out (IH1 & IH2 & IH3)]; simpl in *; [done|]. by rewrite IH1. Qed.

(** The log of a run against the state it leads to. *)
Record log_ok b (l : list Event) : Prop := mkLogOk {
  lo_admitted : NoDup (admitted l);
  lo_admitted_lt : ∀ id, id ∈ admitted l → id < next_operation_id b;
  lo_resolved : NoDup (resolved l);
  lo_resolved_in : ∀ id, id ∈ resolved l → id ∈ admitted l;
  lo_ops : ∀ id o, operations b !! id = Some o →
    id ∈ admitted l ∧ (is_pending o = true → id ∉ resolved l);
  lo_fifo : sublist (delivered l ++ completions b) (resolved l)
}.

(** A silent step: fewer operations and a shorter queue. *)
Lemma log_ok_shrink b b' l :
  log_ok b l → ops_from b b' None → sublist (completions b') (completions b) → log_ok b' l.
Proof.
  intros Hl [Hn Hops] Hq. split; rewrite ?Hn; try apply Hl.
  - intros id o' Ho'. destruct (Hops id o' Ho') as (o & Ho & Hp).
    destruct (lo_ops b l Hl id o Ho) as [? ?]. split; [done|]. intros E. by apply Hp in E as [? _]; auto.
  - etransitivity; [|apply Hl]. by apply sublist_app.
Qed.

Lemma log_ok_admit b k m l :
  inv b → log_ok b l →
  let '(b', r) := admit_operation b k m in
  log_ok b' (l ++ match r with Ok a => [Accepted (ad_id a)] | Err _ => [] end).
Proof.
  intros Hinv Hl. unfold admit_operation, OperationId.from_raw.
  destruct (Z.leb_spec (max_operations b) (Z.of_nat (size (operations b)))); [by rewrite app_nil_r|].
  destruct (Z.eqb_spec (next_operation_id b) 0); [by rewrite app_nil_r|].
  destruct (checked_add 64 (next_operation_id b) 1) as [nx|] eqn:E; [|by rewrite app_nil_r].
  apply checked_add_Some in E as [-> _].
  assert (Hnew : next_operation_id b ∉ admitted l)
    by (intros Hi%(lo_admitted_lt b l Hl); lia).
  split; rewrite ?admitted_app, ?resolved_app, ?delivered_app; simpl; rewrite ?app_nil_r.
  - apply NoDup_snoc; [apply Hl|done].
  - intros id [Hi|Hi]%elem_of_app; [apply (lo_admitted_lt b l Hl) in Hi; lia|].
    apply list_elem_of_singleton in Hi as ->. lia.
  - apply Hl.
  - intros id Hi%(lo_resolved_in b l Hl). by apply elem_of_app; left.
  - intros id o. rewrite lookup_insert_Some, elem_of_app. intros [[<- <-]|[Hne Ho]].
    + split; [right; by apply list_elem_of_singleton|]. intros _ Hi%(lo_resolved_in b l Hl). done.
    + destruct (lo_ops b l Hl id o Ho). auto.
  - apply Hl.
Qed.

Lemma log_ok_resolve b b' id n l :
  log_ok b l → ops_from b b' (Some id) →
  completions b' = completions b ++ (match pending_kind b id with Some _ => [id] | None => [] end) →
  log_ok b' (l ++ resolve_events b id n).
Proof.
  intros Hl [Hn Hops] Hq. unfold resolve_events.
  assert (Hnil : ∀ evs, admitted evs = [] → resolved evs = [] → delivered evs = [] →
    admitted (l ++ evs) = admitted l ∧ resolved (l ++ evs) = resolved l ∧
    delivered (l ++ evs) = delivered l).
  { intros evs Ha Hr Hd. by rewrite admitted_app, resolved_app, delivered_app, Ha, Hr, Hd, !app_nil_r. }
  unfold pending_kind in *. destruct (operations b !! id) as [o|] eqn:Ho; simpl in *.
  1: destruct (is_pending o) eqn:Hp.
  2,3: destruct (Hnil (if n then [Notified] else [])) as (Ha & Hr & Hd); [by destruct n..|];
    rewrite app_nil_r in Hq; split; rewrite ?Ha, ?Hr, ?Hd, ?Hn, ?Hq; try apply Hl;
    intros i o' Ho'; destruct (Hops i o' Ho') as (o1 & Ho1 & Hp1);
    destruct (lo_ops b l Hl i o1 Ho1); (split; [done|]); intros E; apply Hp1 in E as [? _]; auto.
  assert (HA : admitted (l ++ Resolved id :: (if n then [Notified] else [])) = admitted l)
    by (rewrite admitted_app; by destruct n; simpl; rewrite app_nil_r).
  assert (HR : resolved (l ++ Resolved id :: (if n then [Notified] else [])) = resolved l ++ [id])
    by (rewrite resolved_app; by destruct n).
  assert (HD : delivered (l ++ Resolved id :: (if n then [Notified] else [])) = delivered l)
    by (rewrite delivered_app; by destruct n; simpl; rewrite app_nil_r).
  destruct (lo_ops b l Hl id o Ho) as [Hin Hnr]. specialize (Hnr Hp).
  split; rewrite ?HA, ?HR, ?HD, ?Hn, ?Hq; try apply Hl.
  - apply NoDup_snoc; [apply Hl|done].
  - intros i [Hi|Hi]%elem_of_app; [by apply (lo_resolved_in b l Hl)|].
    by apply list_elem_of_singleton in Hi as ->.
  - intros i o' Ho'. destruct (Hops i o' Ho') as (o1 & Ho1 & Hp1).
    destruct (lo_ops b l Hl i o1 Ho1) as [? Hnot]. split; [done|]. intros E.
    destruct (Hp1 E) as [E1 Hne]. rewrite elem_of_app, list_elem_of_singleton.
    intros [Hi|Hi]; [by apply Hnot|congruence].
  - rewrite app_assoc. apply sublist_app; [apply Hl|done].
Qed.

(** Every call succeeds, keeps the invariant and extends the log. *)
Lemma exec_ok b l r :
  inv b → log_ok b l →
  ∃ b' evs, exec b r = Some (b', evs) ∧ inv b' ∧ log_ok b' (l ++ evs).
Proof.
  intros Hinv Hl. destruct r as [k m|id c f|id|n|id|id tk| |]; cbn [exec].
  - pose proof (admit_inv b k m Hinv). pose proof (log_ok_admit b k m l Hinv Hl).
    destruct (admit_operation b k m) as [b' [a|e]]; simpl in *; eauto.
  - destruct (resolve_spec b id c f Hinv) as (b' & n & -> & ? & Hf & _ & Hq). simpl.
    eexists _, _. split; [done|]. split; [done|]. by apply log_ok_resolve.
  - destruct (free_spec b id Hinv) as (b' & r & -> & ? & ? & ?). simpl.
    eexists _, _. split; [done|]. rewrite app_nil_r. eauto using log_ok_shrink.
  - destruct (drain_spec b n (λ _, tt) Hinv) as (b' & out & -> & ? & Hf & Hout & Hq).
    eexists _, _. split; [done|]. split; [done|].
    destruct (omap_delivered out) as (HD & HA & HR).
    destruct (log_ok_shrink b b' l Hl Hf) as [? ? ? ? ? _]; [rewrite Hq; apply sublist_drop|].
    split; rewrite ?admitted_app, ?resolved_app, ?delivered_app, ?HD, ?HA, ?HR, ?app_nil_r; try done.
    rewrite Hout, Hq, <- app_assoc, take_drop. apply Hl.
  - destruct (request_cancellation_inv b id Hinv) as (? & ? & Hq).
    eexists _, _. split; [done|]. rewrite app_nil_r. split; [done|].
    eapply log_ok_shrink; [done..|]. by rewrite Hq.
  - destruct (take_spec b id tk Hinv) as (b' & r & -> & ? & ? & Hq). simpl.
    eexists _, _. split; [done|]. rewrite app_nil_r. split; [done|].
    eapply log_ok_shrink; [done..|]. by rewrite Hq.
  - eexists _, _. split; [done|]. rewrite app_nil_r. split; [by apply (inv_same b)|].
    eapply log_ok_shrink; [done| |done]. split; [done|]. simpl. eauto.
  - eexists _, _. split; [done|]. rewrite app_nil_r. split; [by apply discard_all_inv|].
    eapply log_ok_shrink; [done| |apply sublist_nil_l]. split; [done|]. simpl. done.
Qed.

Lemma exec_all_ok b l rs :
  inv b → log_ok b l →
  ∃ b' evs, exec_all b rs = Some (b', evs) ∧ inv b' ∧ log_ok b' (l ++ evs).
Proof.
  revert b l. induction rs as [|r rs IH]; intros b l Hinv Hl; cbn [exec_all].
  { eexists _, _. rewrite app_nil_r. eauto. }
  destruct (exec_ok b l r Hinv Hl) as (b1 & e1 & -> & Hinv1 & Hl1). simpl.
  destruct (IH b1 _ Hinv1 Hl1) as (b2 & e2 & -> & ? & ?). simpl.
  eexists _, _. rewrite app_assoc. eauto.
Qed.

Lemma new_log_ok max : log_ok (new max) [].
Proof.
  split; simpl; try apply NoDup_nil_2; try done; by intros ? ?%elem_of_nil.
Qed.

(** ** The contract *)

(** C33: no sequence of calls makes an [expect] of the broker fail, and the state it
    leads to is well formed: the queue holds exactly the queued operations, without
    duplicates, their metadata is present, tokens are not shared, and the capacity
    bound holds. *)
Theorem broker_never_panics max rs :
  ∃ b evs, exec_all (new max) rs = Some (b, evs) ∧ inv b.
Proof.
  destruct (exec_all_ok (new max) [] rs) as (b & evs & H & Hinv & _);
    [apply new_inv|apply new_log_ok|]. eauto.
Qed.

(** Completions are delivered at most once and in the order in which the
    operations were resolved: over any run from a new broker, ids are never reused,
    an operation is resolved at most once, and what [drain] delivered followed by
    what is still queued is a subsequence of the resolutions. *)
Theorem broker_delivers_once max rs b evs :
  exec_all (new max) rs = Some (b, evs) →
  NoDup (admitted evs) ∧ NoDup (resolved evs) ∧ NoDup (delivered evs) ∧
  (∀ id, id ∈ resolved evs → id ∈ admitted evs) ∧
  sublist (delivered evs ++ completions b) (resolved evs).
Proof.
  intros E. destruct (exec_all_ok (new max) [] rs) as (b' & evs' & E' & Hinv & Hl);
    [apply new_inv|apply new_log_ok|].
  assert (b' = b ∧ evs' = evs) as [-> ->] by (split; congruence). simpl in Hl.
  split_and!; try apply Hl. pose proof (lo_resolved b evs Hl) as Hnd.
  eapply sublist_NoDup in Hnd; [|apply Hl]. by apply NoDup_app in Hnd as [? _].
Qed.

Lemma notified_not_delivered {S} (out : list (Completion S)) :
  Notified ∉ map (λ c, Delivered (cp_operation_id S (K := K) c)) out.
Proof. induction out as [|c out IH]; simpl; [apply not_elem_of_nil|]. by apply not_elem_of_cons. Qed.

Lemma has_completions_sublist b b' :
  sublist (completions b') (completions b) → has_completions b' = true → has_completions b = true.
Proof.
  unfold has_completions. intros Hs. destruct (completions b) as [|x q]; [|done].
  apply sublist_nil_r in Hs. by rewrite Hs.
Qed.

(** A call that cannot make the queue longer does not notify. *)
Lemma silent_edge b b' (evs : list Event) :
  Notified ∉ evs → sublist (completions b') (completions b) →
  Notified ∈ evs ↔ has_completions b = false ∧ has_completions b' = true.
Proof.
  intros Hn Hs. split; [done|]. intros [H1 H2]. apply has_completions_sublist in Hs; congruence.
Qed.

(** No wake-up is lost and none is spurious: in a well-formed state a call
    reports a notification exactly when it takes the completion queue from empty to
    non-empty. *)
Theorem wakeup_on_edge b r b' evs :
  inv b → exec b r = Some (b', evs) →
  Notified ∈ evs ↔ has_completions b = false ∧ has_completions b' = true.
Proof.
  intros Hinv E.
  assert (Hnil : Notified ∉ @nil Event) by apply not_elem_of_nil.
  destruct r as [k m|id c f|id|n|id|id tk| |]; cbn [exec] in E.
  - unfold admit_operation, OperationId.from_raw in E.
    repeat case_match; simplify_eq; apply silent_edge; try done; by apply not_elem_of_cons.
  - destruct (resolve_spec b id c f Hinv) as (b1 & n & Er & _ & _ & Hn & Hq).
    rewrite Er in E. simpl in E. injection E as <- <-. unfold resolve_events.
    destruct (pending_kind b id); subst n.
    + unfold has_completions. rewrite Hq, elem_of_cons.
      destruct (completions b) as [|x q]; simpl; rewrite elem_of_nil || rewrite list_elem_of_singleton;
        naive_solver.
    + apply silent_edge; [done|]. by rewrite Hq, app_nil_r.
  - destruct (free_spec b id Hinv) as (b1 & r & Er & _ & _ & Hs). rewrite Er in E. simpl in E.
    simplify_eq. by apply silent_edge.
  - destruct (drain_spec b n (λ _, tt) Hinv) as (b1 & out & Er & _ & _ & _ & Hq).
    rewrite Er in E. simplify_eq. apply silent_edge; [apply notified_not_delivered|].
    rewrite Hq. apply sublist_drop.
  - destruct (request_cancellation_inv b id Hinv) as (_ & _ & Hq). simplify_eq.
    apply silent_edge; [done|]. by rewrite Hq.
  - destruct (take_spec b id tk Hinv) as (b1 & r & Er & _ & _ & Hq). rewrite Er in E. simpl in E.
    simplify_eq. apply silent_edge; [done|]. by rewrite Hq.
  - simplify_eq. by apply silent_edge.
  - simplify_eq. apply silent_edge; [done|]. apply sublist_nil_l.
Qed.

(** Freeing a pending operation cancels its token and returns its metadata, but
    the operation keeps its slot of the capacity, cannot be drained or taken, and
    leaves the map only when the task completes it, without queueing anything. *)
Theorem free_pending_keeps_slot b id k f :
  inv b → pending_kind b id = Some k →
  ∃ b1 m tok b2,
    free b id = Some (b1, Some (mkReleased m None)) ∧
    size (operations b1) = size (operations b) ∧
    op_cancellation <$> operations b !! id = Some tok ∧ tok ∈ cancelled b1 ∧
    with_drained b1 id (λ _ _ _, tt) = Some (Err NotDrained) ∧
    free b1 id = Some (b1, None) ∧
    complete_with b1 id f = Some (b2, false) ∧
    completions b2 = completions b ∧ operations b2 = delete id (operations b) ∧
    size (operations b) = S (size (operations b2)).
Proof.
  intros Hinv. unfold pending_kind. destruct (operations b !! id) as [o|] eqn:Ho; [|done]. simpl.
  destruct (inv_ops b Hinv id o Ho) as (_ & _ & Hst). unfold is_pending.
  destruct (op_state o) eqn:Es; try done. intros _. destruct Hst as [m Hm].
  unfold free. rewrite Ho, Es, Hm. cbn [mbind option_bind].
  set (o' := mkOperation (op_kind o) None (op_cancellation o) Discarding).
  eexists _, m, (op_cancellation o), _. split; [done|].
  unfold with_drained, complete_with, resolve_pending_with.
  cbn [operations with_operations cancel_token].
  rewrite insert_delete_eq, lookup_insert_eq. cbn [op_state o' fmap option_fmap option_map].
  split; [apply map_size_insert_Some; eauto|]. split; [done|].
  split; [by apply elem_of_union_l, elem_of_singleton|]. split; [done|].
  split; [by rewrite insert_delete_eq, insert_insert_eq|]. split; [done|]. split; [done|].
  cbn [operations with_operations cancel_token]. rewrite delete_insert_eq. split; [done|].
  rewrite map_size_delete, Ho. simpl.
  destruct (size (operations b)) eqn:Esz; [|done].
  apply map_size_empty_inv in Esz. rewrite Esz in Ho. done.
Qed.

End Runs.

(** ** Witnesses *)

Definition demo_complete (k : nat) (m : nat) : nat * nat := ((k + m)%nat, m).

Definition demo_requests : list (@Request nat nat nat) :=
  [RAdmit 1%nat 10%nat; RAdmit 2%nat 20%nat; RAdmit 3%nat 30%nat;
   RResolve 2 false demo_complete; RResolve 1 true demo_complete; RFree 3; RDrain 1;
   RResolve 3 false demo_complete; RFree 1].

Lemma broker_delivers_once_witness :
  ∃ b evs, exec_all (new 3) demo_requests = Some (b, evs) ∧
    delivered evs = [2] ∧ resolved evs = [2; 1] ∧
    sublist (delivered evs ++ completions b) (resolved evs).
Proof.
  destruct (exec_all (new 3) demo_requests) as [[b evs]|] eqn:E; [|vm_compute in E; discriminate].
  pose proof (broker_delivers_once 3 demo_requests b evs E) as (_ & _ & _ & _ & Hs).
  exists b, evs. split; [reflexivity|]. vm_compute in E. injection E as <- <-.
  split; [reflexivity|]. split; [reflexivity|exact Hs].
Defined.

Definition demo_broker : OperationBroker nat nat nat :=
  fst (admit_operation (new 2) 1%nat 10%nat).

Lemma wakeup_on_edge_witness :
  ∃ b' evs, exec demo_broker (RResolve 1 false demo_complete) = Some (b', evs) ∧ Notified ∈ evs.
Proof.
  destruct (exec demo_broker (RResolve 1 false demo_complete)) as [[b' evs]|] eqn:E;
    [|vm_compute in E; discriminate].
  exists b', evs. split; [reflexivity|].
  apply (wakeup_on_edge demo_broker (RResolve 1 false demo_complete) b' evs);
    [apply admit_inv, new_inv|exact E|].
  vm_compute in E. injection E as <- <-. split; reflexivity.
Defined.

Lemma free_pending_keeps_slot_witness :
  ∃ b1 m b2, free demo_broker 1 = Some (b1, Some (mkReleased m None)) ∧
    size (operations b1) = 1%nat ∧
    complete_with b1 1 demo_complete = Some (b2, false) ∧ size (operations b2) = 0%nat.
Proof.
  destruct (free_pending_keeps_slot demo_broker 1 1%nat demo_complete)
    as (b1 & m & tok & b2 & H1 & H2 & _ & _ & _ & _ & H3 & _ & _ & H4);
    [apply admit_inv, new_inv|reflexivity|].
  exists b1, m, b2. split; [exact H1|]. split; [exact H2|]. split; [exact H3|].
  change (size (operations demo_broker)) with 1%nat in H4. by injection H4 as <-.
Defined.
