(* ===== verification/TokenBucket.v ===== *)
(** * The token bucket

    Models easytier-core/src/foundation/token_bucket.rs: the bucket state and its
    on-demand refill, the non-blocking and blocking consumers, and the manager that
    shares buckets by key.  Instants are nanoseconds; u64 and u128 arithmetic is
    written out with its saturation.  The blocking consumer is a loop over its
    wake-ups: the list of readings of the stop flag and of the clock.  The theorems
    show that refilling is independent of how often it runs, that grants never exceed
    the configured rate, that one sleep is enough, and that a bucket in use stays the
    bucket of its key. *)

From stdpp Require Import base gmap list numbers strings.
From Stdlib Require Import ZArith Lia.
From S2P Require Import Prelude.
Local Open Scope Z_scope.

Definition MIN_FILL_RATE : Z := 8196.
Definition NANOS_PER_SECOND : Z := 1000000000.

Record BucketConfig : Type := mkConfig { capacity : Z; fill_rate : Z }.

#[export] Instance bucket_config_eq_dec : EqDecision BucketConfig.
Proof. solve_decision. Defined.

Definition with_default_capacity (rate : Z) : BucketConfig :=
  let rate := Z.max rate MIN_FILL_RATE in mkConfig rate rate.

Record BucketState : Type := mkState {
  available_tokens : Z;
  last_refill : Z;
  refill_remainder : Z;
  metered_bytes : Z
}.

Record TokenBucket : Type := mkBucket {
  state : BucketState;
  config : BucketConfig;
  stopped : bool
}.

Definition new_from_cfg (cfg : BucketConfig) (now : Z) : TokenBucket :=
  let cfg := mkConfig (Z.max (capacity cfg) 1) (Z.max (fill_rate cfg) 1) in
  mkBucket (mkState (capacity cfg) now 0 0) cfg false.

Definition refill (cfg : BucketConfig) (st : BucketState) (now : Z) : BucketState :=
  let elapsed_nanos := saturating_sub now (last_refill st) in
  if elapsed_nanos =? 0 then st
  else if available_tokens st =? capacity cfg
  then mkState (available_tokens st) now 0 (metered_bytes st)
  else
    let generated := saturating_add 128 (saturating_mul 128 (fill_rate cfg) elapsed_nanos)
                       (refill_remainder st) in
    let tokens_to_add := generated / NANOS_PER_SECOND in
    let remainder := generated mod NANOS_PER_SECOND in
    let available_capacity := capacity cfg - available_tokens st in
    if available_capacity <=? tokens_to_add
    then mkState (capacity cfg) now 0 (metered_bytes st)
    else mkState (available_tokens st + wrap 64 tokens_to_add) now (wrap 64 remainder)
           (metered_bytes st).

(** [available -= tokens; metered = metered.saturating_add(tokens)]. *)
Definition charge (st : BucketState) (tokens : Z) : BucketState :=
  mkState (available_tokens st - tokens) (last_refill st) (refill_remainder st)
    (saturating_add 64 (metered_bytes st) tokens).

Definition try_consume_locked (cfg : BucketConfig) (st : BucketState) (tokens now : Z)
    : BucketState * bool :=
  let st := refill cfg st now in
  if available_tokens st <? tokens then (st, false) else (charge st tokens, true).

Definition try_consume (b : TokenBucket) (tokens now : Z) : TokenBucket * bool :=
  if stopped b then (b, true)
  else
    let tokens := Z.min tokens (capacity (config b)) in
    let '(st, ok) := try_consume_locked (config b) (state b) tokens now in
    (mkBucket st (config b) (stopped b), ok).

(** One pass of the loop of [consume_chunk] that found the bucket running: done, or
    the time to sleep. *)
Definition chunk_pass (cfg : BucketConfig) (st : BucketState) (tokens now : Z)
    : BucketState * option Z :=
  let st := refill cfg st now in
  if tokens <=? available_tokens st then (charge st tokens, None)
  else
    let deficit := tokens - available_tokens st in
    let required := deficit * NANOS_PER_SECOND in
    let remaining := required - refill_remainder st in
    let sleep_nanos := Z.min (div_ceil remaining (fill_rate cfg)) (uint_max 64) in
    (st, Some (Z.max sleep_nanos 1000000)).

(** The loop over its wake-ups: the stop flag and the clock at each pass.  The rest
    of the wake-ups when the call returned, [None] while it sleeps. *)
Fixpoint consume_chunk (cfg : BucketConfig) (st : BucketState) (tokens : Z)
    (wakeups : list (bool * Z)) : BucketState * option (list (bool * Z)) :=
  match wakeups with
  | [] => (st, None)
  | (true, _) :: rest => (st, Some rest)
  | (false, now) :: rest =>
      match chunk_pass cfg st tokens now with
      | (st', None) => (st', Some rest)
      | (st', Some _) => consume_chunk cfg st' tokens rest
      end
  end.

(** The loop of [consume]; a pass takes at least one token, so [tokens] passes are
    enough. *)
Fixpoint consume_loop (fuel : nat) (cfg : BucketConfig) (st : BucketState) (remaining : Z)
    (wakeups : list (bool * Z)) : BucketState * option (list (bool * Z)) :=
  if remaining <=? 0 then (st, Some wakeups) else
  match fuel, wakeups with
  | O, _ | _, [] => (st, None)
  | S _, (true, _) :: rest => (st, Some rest)
  | S fuel', (false, _) :: rest =>
      let chunk := Z.min remaining (capacity cfg) in
      match consume_chunk cfg st chunk rest with
      | (st', None) => (st', None)
      | (st', Some rest') => consume_loop fuel' cfg st' (remaining - chunk) rest'
      end
  end.

Definition consume (cfg : BucketConfig) (st : BucketState) (tokens : Z)
    (wakeups : list (bool * Z)) : BucketState * option (list (bool * Z)) :=
  consume_loop (Z.to_nat tokens) cfg st tokens wakeups.

Definition stop_bucket (b : TokenBucket) : TokenBucket := mkBucket (state b) (config b) true.

(** ** The manager *)

Module TokenBucketManager.

(** [heap] are the allocated buckets, [handles] the [Arc]s held outside the map: the
    strong count of a bucket of the map is one more. *)
Record t : Type := mk {
  heap : gmap Z TokenBucket;
  handles : gmap Z nat;
  next_ref : Z;
  buckets : gmap string Z
}.

Definition new : t := mk ∅ ∅ 0 ∅.

Definition handle_count (m : t) (r : Z) : nat := default 0%nat (handles m !! r).

Definition clone_ref (m : t) (r : Z) : t :=
  mk (heap m) (<[r := S (handle_count m r)]> (handles m)) (next_ref m) (buckets m).

(** Dropping a handle. *)
Definition drop_ref (m : t) (r : Z) : t :=
  mk (heap m) (<[r := pred (handle_count m r)]> (handles m)) (next_ref m) (buckets m).

Definition get_or_create (m : t) (key : string) (cfg : BucketConfig) (now : Z) : t * Z :=
  match buckets m !! key with
  | Some r => (clone_ref m r, r)
  | None =>
      let r := next_ref m in
      let m' := mk (<[r := new_from_cfg cfg now]> (heap m)) (handles m) (r + 1)
                  (<[key := r]> (buckets m)) in
      (clone_ref m' r, r)
  end.

(** The pass of the retain task: [strong_count(bucket) > 1]. *)
Definition retain (m : t) : t :=
  mk (heap m) (handles m) (next_ref m)
    (filter (λ kv, (1 < S (handle_count m kv.2))%nat) (buckets m)).

Definition stop (m : t) : t :=
  let refs := map snd (map_to_list (buckets m)) in
  let h := foldr (λ r h, alter stop_bucket r h) (heap m) refs in
  mk h (handles m) (next_ref m) ∅.

End TokenBucketManager.

(** * Properties *)

Record cfg_ok (cfg : BucketConfig) : Prop := mkCfgOk {
  cfg_capacity : 1 <= capacity cfg <= uint_max 64;
  cfg_rate : 1 <= fill_rate cfg <= uint_max 64
}.

(** A full bucket has no remainder. *)
Record state_ok (cfg : BucketConfig) (st : BucketState) : Prop := mkStateOk {
  st_available : 0 <= available_tokens st <= capacity cfg;
  st_remainder : 0 <= refill_remainder st < NANOS_PER_SECOND;
  st_full : available_tokens st = capacity cfg → refill_remainder st = 0
}.

(** The content of the bucket in units of a token per nanosecond. *)
Definition content (st : BucketState) : Z :=
  available_tokens st * NANOS_PER_SECOND + refill_remainder st.

(** The content after [e] nanoseconds. *)
Definition content_after (cfg : BucketConfig) (st : BucketState) (e : Z) : Z :=
  Z.min (capacity cfg * NANOS_PER_SECOND) (content st + fill_rate cfg * e).

Definition state_of_content (x last metered : Z) : BucketState :=
  mkState (x / NANOS_PER_SECOND) last (x mod NANOS_PER_SECOND) metered.

Lemma state_of_content_id st :
  0 <= refill_remainder st < NANOS_PER_SECOND →
  state_of_content (content st) (last_refill st) (metered_bytes st) = st.
Proof.
  intros Hr. unfold state_of_content, content.
  rewrite Z.div_add_l, Z.div_small, Z.add_0_r by (unfold NANOS_PER_SECOND in *; lia).
  rewrite Z.add_comm, Z.mod_add, Z.mod_small by (unfold NANOS_PER_SECOND in *; lia).
  by destruct st.
Qed.

Lemma content_of_state x last metered : content (state_of_content x last metered) = x.
Proof.
  unfold content, state_of_content. simpl.
  pose proof (Z.div_mod x NANOS_PER_SECOND). unfold NANOS_PER_SECOND in *. lia.
Qed.

Lemma content_le cfg st : state_ok cfg st → 0 <= content st <= capacity cfg * NANOS_PER_SECOND.
Proof.
  intros [Ha Hr Hf]. unfold content, NANOS_PER_SECOND in *.
  destruct (Z.eq_dec (available_tokens st) (capacity cfg)) as [E|]; [rewrite Hf by done; lia|lia].
Qed.

(** Refilling is exact: the content grows by rate times time up to the capacity, and
    no saturation or narrowing loses any of it. *)
Lemma refill_content cfg st now :
  cfg_ok cfg → state_ok cfg st →
  refill cfg st now =
    state_of_content (content_after cfg st (saturating_sub now (last_refill st)))
      (Z.max (last_refill st) now) (metered_bytes st).
Proof.
  intros [Hc Hf] Hst. pose proof (content_le cfg st Hst) as Hle. destruct Hst as [Ha Hr Hfull].
  unfold refill, content_after, saturating_sub. change (uint_max 64) with (2 ^ 64 - 1) in *.
  destruct (Z.eqb_spec (Z.max 0 (now - last_refill st)) 0) as [E|E].
  { rewrite E, Z.mul_0_r, Z.add_0_r, Z.min_r by lia.
    rewrite Z.max_l by lia. by rewrite state_of_content_id. }
  rewrite (Z.max_r (last_refill st)) by lia. set (e := Z.max 0 (now - last_refill st)) in *.
  assert (He : 0 < e) by lia.
  destruct (Z.eqb_spec (available_tokens st) (capacity cfg)) as [Efull|Hnf].
  { rewrite Z.min_l by (unfold content, NANOS_PER_SECOND in *; nia).
    unfold state_of_content. rewrite Z.div_mul, Z.mod_mul by done. by rewrite Efull. }
  unfold saturating_add, saturating_mul. change (uint_max 128) with (2 ^ 128 - 1).
  set (g := Z.min _ (2 ^ 128 - 1)).
  assert (Hg : g = fill_rate cfg * e + refill_remainder st ∨
    capacity cfg * NANOS_PER_SECOND <= g ∧ g <= fill_rate cfg * e + refill_remainder st)
    by (unfold g, NANOS_PER_SECOND in *; nia).
  pose proof (Z.div_mod g NANOS_PER_SECOND) as Hdm.
  pose proof (Z.mod_pos_bound g NANOS_PER_SECOND) as Hmb. unfold NANOS_PER_SECOND in *.
  destruct (Z.leb_spec (capacity cfg - available_tokens st) (g / 1000000000)).
  - rewrite Z.min_l by (unfold content, NANOS_PER_SECOND; nia).
    unfold state_of_content, NANOS_PER_SECOND. by rewrite Z.div_mul, Z.mod_mul.
  - assert (g = fill_rate cfg * e + refill_remainder st) as Hge by lia.
    rewrite Z.min_r by (unfold content, NANOS_PER_SECOND; nia).
    unfold state_of_content, content, NANOS_PER_SECOND, wrap.
    replace (available_tokens st * 1000000000 + refill_remainder st + fill_rate cfg * e)
      with (available_tokens st * 1000000000 + g) by lia.
    rewrite Z.div_add_l, (Z.add_comm _ g), Z.mod_add by lia.
    by rewrite !(Z.mod_small _ (2 ^ 64)) by lia.
Qed.

Lemma state_of_content_ok cfg x last metered :
  cfg_ok cfg → 0 <= x <= capacity cfg * NANOS_PER_SECOND →
  state_ok cfg (state_of_content x last metered).
Proof.
  intros [Hc _] Hx. pose proof (Z.div_mod x NANOS_PER_SECOND).
  pose proof (Z.mod_pos_bound x NANOS_PER_SECOND). unfold NANOS_PER_SECOND in *.
  split; unfold state_of_content, NANOS_PER_SECOND; simpl; [|lia|].
  - split; [apply Z.div_pos; lia|]. apply Z.div_le_upper_bound; lia.
  - intros E. lia.
Qed.

Lemma content_after_range cfg st e :
  cfg_ok cfg → state_ok cfg st → 0 <= e →
  0 <= content_after cfg st e <= capacity cfg * NANOS_PER_SECOND.
Proof.
  intros [Hc Hf] Hst He. pose proof (content_le cfg st Hst).
  unfold content_after, NANOS_PER_SECOND in *. nia.
Qed.

Lemma refill_ok cfg st now :
  cfg_ok cfg → state_ok cfg st → state_ok cfg (refill cfg st now).
Proof.
  intros Hc Hst. rewrite refill_content by done. apply state_of_content_ok; [done|].
  apply content_after_range; [done..|]. unfold saturating_sub. lia.
Qed.

(** Refilling is independent of how often it runs: refilling at [t1] and again
    at [t2] gives the very state that refilling once at [t2] gives, so polling a
    bucket neither gains nor loses tokens. *)
Theorem refill_split cfg st t1 t2 :
  cfg_ok cfg → state_ok cfg st → t1 <= t2 →
  refill cfg (refill cfg st t1) t2 = refill cfg st t2.
Proof.
  intros Hc Hst Ht. pose proof (refill_ok cfg st t1 Hc Hst) as Hok.
  rewrite (refill_content cfg _ t2 Hc Hok), !(refill_content cfg st) by done.
  unfold content_after at 1. rewrite content_of_state. cbn [last_refill metered_bytes state_of_content].
  pose proof (content_le cfg st Hst). destruct Hc as [? ?].
  f_equal; [|lia]. unfold content_after, saturating_sub, NANOS_PER_SECOND in *. nia.
Qed.

Lemma charge_ok cfg st tokens :
  state_ok cfg st → 0 <= tokens <= available_tokens st →
  state_ok cfg (charge st tokens) ∧
  content (charge st tokens) = content st - tokens * NANOS_PER_SECOND.
Proof.
  intros [Ha Hr Hf] Ht. unfold charge, content. simpl. split; [|lia].
  split; simpl; [lia|done|]. intros E. apply Hf. lia.
Qed.

(** An access of the two consumers: the tokens asked for and the clock. *)
Inductive Access : Type :=
| TryConsume (tokens now : Z)
| ChunkPass (tokens now : Z).

(** The state after the access and the tokens it granted. *)
Definition access (cfg : BucketConfig) (st : BucketState) (a : Access) : BucketState * Z :=
  match a with
  | TryConsume tokens now =>
      let '(b, ok) := try_consume (mkBucket st cfg false) tokens now in
      (state b, if ok then Z.min tokens (capacity cfg) else 0)
  | ChunkPass tokens now =>
      match chunk_pass cfg st tokens now with
      | (st', None) => (st', tokens)
      | (st', Some _) => (st', 0)
      end
  end.

Fixpoint accesses (cfg : BucketConfig) (st : BucketState) (l : list Access) : BucketState * Z :=
  match l with
  | [] => (st, 0)
  | a :: l' =>
      let '(st1, g1) := access cfg st a in
      let '(st2, g2) := accesses cfg st1 l' in
      (st2, g1 + g2)
  end.

Definition asked (a : Access) : Z := match a with TryConsume n _ | ChunkPass n _ => n end.

Lemma access_bound cfg st a :
  cfg_ok cfg → state_ok cfg st → 0 <= asked a →
  let '(st', g) := access cfg st a in
  state_ok cfg st' ∧ last_refill st <= last_refill st' ∧ 0 <= g ∧
  content st' + g * NANOS_PER_SECOND <=
    content st + fill_rate cfg * (last_refill st' - last_refill st) ∧
  metered_bytes st' = (if decide (g = 0) then metered_bytes st'
                       else saturating_add 64 (metered_bytes st) g).
Proof.
  intros Hc Hst Ha.
  assert (Hcore : ∀ now, let r := refill cfg st now in
    state_ok cfg r ∧ metered_bytes r = metered_bytes st ∧ last_refill st <= last_refill r ∧
    content r <= content st + fill_rate cfg * (last_refill r - last_refill st)).
  { intros now r. unfold r. split; [by apply refill_ok|]. rewrite refill_content by done.
    rewrite content_of_state. cbn [metered_bytes last_refill state_of_content].
    split; [done|]. split; [lia|]. unfold content_after, saturating_sub. destruct Hc. nia. }
  destruct a as [n now|n now]; cbn [access asked] in *; destruct (Hcore now) as (Hr & Hm & Hl & Hb).
  - unfold try_consume, try_consume_locked. cbn [stopped config state].
    destruct (Z.ltb_spec (available_tokens (refill cfg st now)) (Z.min n (capacity cfg))); simpl.
    { split_and!; try done; lia. }
    destruct (charge_ok cfg (refill cfg st now) (Z.min n (capacity cfg)) Hr) as [Hok Hcon];
      [destruct Hc; lia|].
    rewrite Hcon. split_and!; try done; [destruct Hc; lia|cbn [last_refill charge] in *; lia|].
    simpl. rewrite Hm. by case_decide.
  - unfold chunk_pass.
    destruct (Z.leb_spec n (available_tokens (refill cfg st now))); simpl.
    2:{ split_and!; try done; lia. }
    destruct (charge_ok cfg (refill cfg st now) n Hr) as [Hok Hcon]; [lia|].
    rewrite Hcon. split_and!; try done; [cbn [last_refill charge] in *; lia|].
    simpl. rewrite Hm. by case_decide.
Qed.

(** C36: the rate limit holds: however the two kinds of consumers interleave, from a
    well-formed state the tokens granted over any run are bounded by the content of
    the bucket plus rate times elapsed time, and the bucket never exceeds its
    capacity. *)
Theorem grants_bounded cfg st l :
  cfg_ok cfg → state_ok cfg st → Forall (λ a, 0 <= asked a) l →
  let '(st', granted) := accesses cfg st l in
  state_ok cfg st' ∧
  granted * NANOS_PER_SECOND <=
    content st + fill_rate cfg * (last_refill st' - last_refill st).
Proof.
  intros Hc Hst Hl.
  enough (Hgen : let '(st', g) := accesses cfg st l in state_ok cfg st' ∧
    content st' + g * NANOS_PER_SECOND <= content st + fill_rate cfg * (last_refill st' - last_refill st)).
  { destruct (accesses cfg st l) as [st' g]. destruct Hgen as [Hok Hb]. split; [done|].
    pose proof (content_le cfg st' Hok). lia. }
  revert st Hst. induction Hl as [|a l Ha _ IH]; intros st Hst; cbn [accesses].
  { split; [done|]. lia. }
  pose proof (access_bound cfg st a Hc Hst Ha) as H. destruct (access cfg st a) as [st1 g1].
  destruct H as (H1 & H2 & H3 & H4 & _). specialize (IH st1 H1).
  destruct (accesses cfg st1 l) as [st2 g2]. destruct IH as [IH1 IH2]. split; [done|]. lia.
Qed.

(** One sleep is enough: when a blocked consumer wakes after the time it
    computed and nobody else took tokens, its next pass is served (the time is not
    cut off at the u64 limit unless it exceeds 584 years). *)
Theorem sleep_suffices cfg st tokens now st' d now' :
  cfg_ok cfg → state_ok cfg st → 0 < tokens <= capacity cfg → last_refill st <= now →
  chunk_pass cfg st tokens now = (st', Some d) → d < uint_max 64 → now + d <= now' →
  snd (chunk_pass cfg st' tokens now') = None.
Proof.
  intros Hc Hst Ht Hl. unfold chunk_pass at 1.
  pose proof (refill_ok cfg st now Hc Hst) as Hok.
  assert (Hlast : last_refill (refill cfg st now) = now).
  { rewrite refill_content by done. cbn. lia. }
  set (r := refill cfg st now) in *.
  destruct (Z.leb_spec tokens (available_tokens r)) as [|Hlow]; [done|]. intros [= <- <-] Hd Hn.
  unfold chunk_pass. rewrite (refill_content cfg r now' Hc Hok), Hlast.
  destruct (Z.leb_spec tokens (available_tokens (state_of_content
    (content_after cfg r (saturating_sub now' now)) (Z.max now now') (metered_bytes r)))) as [|Hlt]; [done|].
  exfalso. cbn [available_tokens state_of_content] in Hlt. revert Hlt. apply Z.le_ngt.
  apply Z.div_le_lower_bound; [done|]. unfold content_after, saturating_sub, content.
  set (rem := refill_remainder r) in *. set (av := available_tokens r) in *.
  assert (Hceil : (tokens - av) * NANOS_PER_SECOND - rem <=
    fill_rate cfg * div_ceil ((tokens - av) * NANOS_PER_SECOND - rem) (fill_rate cfg)).
  { unfold div_ceil. destruct Hc. 
    pose proof (Z.div_mod ((tokens - av) * NANOS_PER_SECOND - rem + fill_rate cfg - 1) (fill_rate cfg)).
    pose proof (Z.mod_pos_bound ((tokens - av) * NANOS_PER_SECOND - rem + fill_rate cfg - 1) (fill_rate cfg)).
    lia. }
  set (dc := div_ceil _ _) in *. destruct Hc. unfold NANOS_PER_SECOND in *.
  assert (dc <= now' - now) by lia. nia.
Qed.

Definition running (wakeups : list (bool * Z)) : Prop := Forall (λ w, w.1 = false) wakeups.

Lemma refill_metered cfg st now : metered_bytes (refill cfg st now) = metered_bytes st.
Proof. unfold refill. by repeat case_match. Qed.

Lemma consume_chunk_charges cfg st tokens wakeups st' rest :
  running wakeups → consume_chunk cfg st tokens wakeups = (st', Some rest) →
  running rest ∧ metered_bytes st' = saturating_add 64 (metered_bytes st) tokens.
Proof.
  intros Hrun. revert st. induction Hrun as [|[f now] w Hf Hw IH]; intros st; cbn [consume_chunk]; [done|].
  simpl in Hf. subst f. unfold chunk_pass. pose proof (refill_metered cfg st now) as Hm.
  destruct (tokens <=? available_tokens (refill cfg st now)).
  - intros [= <- <-]. split; [done|]. simpl. by rewrite Hm.
  - intros H. destruct (IH _ H) as [? ->]. by rewrite Hm.
Qed.

Lemma saturating_add_add m a b :
  0 <= a → 0 <= b → saturating_add 64 (saturating_add 64 m a) b = saturating_add 64 m (a + b).
Proof. unfold saturating_add. lia. Qed.

(** [consume] charges exactly what it was asked: when the call returns and the
    bucket was not stopped meanwhile, the meter grew by [tokens], also when the
    request is larger than the capacity and is taken in several chunks. *)
Theorem consume_charges cfg st tokens wakeups st' rest :
  0 <= tokens → 0 <= metered_bytes st <= uint_max 64 → 1 <= capacity cfg → running wakeups →
  consume cfg st tokens wakeups = (st', Some rest) →
  metered_bytes st' = saturating_add 64 (metered_bytes st) tokens.
Proof.
  unfold consume. intros Ht Hm Hcap. generalize (Z.to_nat tokens). intros fuel. revert st tokens wakeups Ht Hm.
  induction fuel as [|fuel IH]; intros st tokens wakeups Ht Hm Hrun; cbn [consume_loop].
  - destruct (Z.leb_spec tokens 0); [|done]. intros [= <- _]. unfold saturating_add. lia.
  - destruct (Z.leb_spec tokens 0); [intros [= <- _]; unfold saturating_add; lia|].
    destruct Hrun as [|[f now] w Hf Hw]; [done|]. simpl in Hf. subst f.
    destruct (consume_chunk cfg st (Z.min tokens (capacity cfg)) w) as [st1 [rest1|]] eqn:E; [|done].
    destruct (consume_chunk_charges cfg st _ w st1 rest1 Hw E) as [Hrun1 Hm1].
    intros H'. apply IH in H'; [|lia|rewrite Hm1; unfold saturating_add; lia|done].
    rewrite H', Hm1, saturating_add_add by lia. f_equal. lia.
Qed.

(** ** The manager *)

Module ManagerFacts.
Import TokenBucketManager.

Inductive Op : Type :=
| GetOrCreate (key : string) (cfg : BucketConfig) (now : Z)
| Retain
| DropRef (r : Z).

#[local] Instance op_eq_dec : EqDecision Op.
Proof. solve_decision. Defined.

Definition apply_op (m : t) (o : Op) : t :=
  match o with
  | GetOrCreate key cfg now => fst (get_or_create m key cfg now)
  | Retain => retain m
  | DropRef r => drop_ref m r
  end.

(** The handles to [r] that the operations give up. *)
Definition drops (r : Z) (l : list Op) : nat :=
  length (filter (λ o, o = DropRef r) l).

Lemma handle_count_clone m r r' :
  (handle_count m r' <= handle_count (clone_ref m r) r')%nat.
Proof.
  unfold handle_count, clone_ref. simpl. destruct (decide (r = r')) as [->|Hne].
  - rewrite lookup_insert_eq. simpl. unfold handle_count. lia.
  - by rewrite lookup_insert_ne.
Qed.

Lemma held_step m key r o (k : nat) :
  buckets m !! key = Some r → (drops r [o] + k < handle_count m r)%nat →
  buckets (apply_op m o) !! key = Some r ∧ (k < handle_count (apply_op m o) r)%nat.
Proof.
  intros Hb Hc. unfold drops in Hc. destruct o as [key' cfg now| |r']; cbn [apply_op].
  - simpl in Hc. unfold get_or_create. destruct (buckets m !! key') as [r'|] eqn:E; simpl.
    + split; [done|]. pose proof (handle_count_clone m r' r). lia.
    + split; [rewrite lookup_insert_ne; [done|congruence]|].
      eapply Nat.lt_le_trans; [|apply handle_count_clone]. exact Hc.
  - simpl in Hc. split; [|exact Hc]. unfold retain. simpl. apply map_lookup_filter_Some.
    split; [done|]. simpl. lia.
  - split; [done|]. rewrite filter_cons in Hc. unfold handle_count, drop_ref in *. simpl in *.
    destruct (decide (r' = r)) as [->|Hne].
    + rewrite lookup_insert_eq. simpl. unfold handle_count. rewrite decide_True in Hc by done. simpl in Hc. lia.
    + rewrite lookup_insert_ne by done. rewrite decide_False in Hc by congruence. simpl in Hc. lia.
Qed.

(** A bucket in use stays the bucket of its key: as long as one handle to it is
    held, no interleaving of lookups, dropped handles and passes of the retain task
    makes the manager hand out another bucket for that key, so all users of a key
    share one limit. *)
Theorem bucket_shared_while_held m key r l cfg now :
  buckets m !! key = Some r → (drops r l < handle_count m r)%nat →
  snd (get_or_create (foldl apply_op m l) key cfg now) = r.
Proof.
  intros Hb Hc.
  assert (Hend : buckets (foldl apply_op m l) !! key = Some r).
  { revert m Hb Hc. induction l as [|o l IH]; intros m Hb Hc; [done|]. simpl.
    destruct (held_step m key r o (drops r l) Hb) as [Hb' Hc'].
    { unfold drops in *. rewrite filter_cons in Hc. rewrite filter_cons. case_decide; simpl in *; lia. }
    by apply IH. }
  unfold get_or_create. by rewrite Hend.
Qed.

Lemma bucket_shared_while_held_witness :
  let cfg := mkConfig 10 10 in
  let '(m, r) := get_or_create TokenBucketManager.new "peer" cfg 0 in
  snd (get_or_create (foldl apply_op m [Retain; GetOrCreate "other" cfg 5; DropRef 1; Retain]) "peer" cfg 9) = r ∧
  buckets (foldl apply_op m [Retain; GetOrCreate "other" cfg 5; DropRef 1; Retain]) !! "other" = None.
Proof.
  split; [|vm_compute; reflexivity].
  apply (bucket_shared_while_held _ "peer" 0); [reflexivity|vm_compute; lia].
Defined.

End ManagerFacts.

(** ** Witnesses *)

Definition demo_cfg : BucketConfig := mkConfig 100 10.
Definition demo_state : BucketState := mkState 30 1000 5 0.

Lemma demo_cfg_ok : cfg_ok demo_cfg.
Proof. split; vm_compute; split; congruence. Qed.

Lemma demo_state_ok : state_ok demo_cfg demo_state.
Proof. split; [vm_compute; split; congruence..|]. vm_compute. congruence. Qed.

Lemma refill_split_witness :
  refill demo_cfg (refill demo_cfg demo_state 123457000) 1000000777 =
    refill demo_cfg demo_state 1000000777.
Proof. apply refill_split; [apply demo_cfg_ok|apply demo_state_ok|lia]. Defined.

Lemma grants_bounded_witness :
  let '(st', granted) := accesses demo_cfg demo_state
    [TryConsume 20 2000; ChunkPass 40 3000; TryConsume 500 1000002000; ChunkPass 15 1000003000] in
  state_ok demo_cfg st' ∧
  granted * NANOS_PER_SECOND <= content demo_state + 10 * (last_refill st' - 1000).
Proof.
  refine (grants_bounded demo_cfg demo_state [TryConsume 20 2000; ChunkPass 40 3000;
    TryConsume 500 1000002000; ChunkPass 15 1000003000] demo_cfg_ok demo_state_ok _).
  repeat constructor; simpl; lia.
Defined.

Lemma sleep_suffices_witness :
  ∃ st' d, chunk_pass demo_cfg demo_state 40 2000 = (st', Some d) ∧ d = 999999000 ∧
    snd (chunk_pass demo_cfg st' 40 (2000 + d)) = None.
Proof.
  eexists _, _. split; [vm_compute; reflexivity|]. split; [reflexivity|].
  eapply (sleep_suffices demo_cfg demo_state 40 2000 _ 999999000);
    [apply demo_cfg_ok|apply demo_state_ok|vm_compute; split; congruence
    |vm_compute; congruence|vm_compute; reflexivity|reflexivity|vm_compute; congruence].
Defined.

Lemma consume_charges_witness :
  ∃ st' rest, consume demo_cfg demo_state 120
      [(false, 2000); (false, 2000); (false, 8000000000); (false, 8000000000); (false, 10000000000)] =
      (st', Some rest) ∧ metered_bytes st' = 120.
Proof.
  eexists _, _. split; [vm_compute; reflexivity|].
  refine (consume_charges demo_cfg demo_state 120
    [(false, 2000); (false, 2000); (false, 8000000000); (false, 8000000000); (false, 10000000000)]
    _ _ _ _ _ _ _); [lia|vm_compute; split; congruence|vm_compute; congruence| |vm_compute; reflexivity].
  repeat constructor.
Defined.
