(* ===== verification/Compressor.v ===== *)
(** * Payload compression

    Models easytier-core/src/packet/compressor.rs and its zstd backend
    compressor/zstd.rs (raw buffers and packets), and the RPC content compression of
    rpc/packet.rs.  The zstd library is a parameter: a one-shot compressor and a
    decompressor with an output bound; [zstd_ok] is its documented contract.  The
    theorems give the packet and content round trips, with the exact limit of the
    backend's five attempts. *)

From stdpp Require Import base list numbers.
From Stdlib Require Import ZArith Lia.
From S2P Require Import Prelude Packet.
Local Open Scope Z_scope.
Local Open Scope rust_scope.

(** Errors of the zstd library: the output buffer is too small, or anything else. *)
Inductive ZstdError : Type := BufferTooSmall | ZstdOther (code : Z).

Inductive CompressError : Type :=
| Unavailable (a : CompressorAlgo)
| Zstd (e : ZstdError)
| TooManyAttempts (a : CompressorAlgo)
| TooShort
| UnknownAlgo
| LengthMismatch
| BadAlgoPb (v : CompressionAlgoPb).

Section Compressor.

(** The build feature and the zstd library. *)
Context (zstd_available : bool).
Context (zstd_compress : list Z → result (list Z) ZstdError).
Context (zstd_decompress : list Z → Z → result (list Z) ZstdError).

Definition compress_zstd (data : list Z) (algo : CompressorAlgo) : result (list Z) CompressError :=
  if zstd_available then
    match zstd_compress data with Ok c => Ok c | Err e => Err (Zstd e) end
  else Err (Unavailable algo).

(** The output bound of attempt [i]. *)
Definition attempt_len (data : list Z) (i : Z) : Z :=
  let n := wrap 64 (len data * 2 ^ i) in
  if (i =? 5) && (n <? 64 * 1024) then 64 * 1024 else n.

(** The loop over the attempts. *)
Fixpoint decompress_attempts (data : list Z) (algo : CompressorAlgo) (attempts : list Z)
    : result (list Z) CompressError :=
  match attempts with
  | [] => Err (TooManyAttempts algo)
  | i :: rest =>
      match zstd_decompress data (attempt_len data i) with
      | Ok buf => Ok buf
      | Err BufferTooSmall => decompress_attempts data algo rest
      | Err e => Err (Zstd e)
      end
  end.

Definition decompress_zstd (data : list Z) (algo : CompressorAlgo) : result (list Z) CompressError :=
  if zstd_available then decompress_attempts data algo [1; 2; 3; 4; 5] else Err (Unavailable algo).

Definition compress_raw (data : list Z) (algo : CompressorAlgo) : result (list Z) CompressError :=
  match algo with ZstdDefault => compress_zstd data algo | CompressNone => Ok data end.

Definition decompress_raw (data : list Z) (algo : CompressorAlgo) : result (list Z) CompressError :=
  match algo with ZstdDefault => decompress_zstd data algo | CompressNone => Ok data end.

(** [truncate(payload_offset)] and two appends. *)
Definition replace_payload (p : ZCPacket.t) (body : list Z) : ZCPacket.t :=
  ZCPacket.with_inner p (take (Z.to_nat (ZCPacket.payload_offset p)) (ZCPacket.inner p) ++ body).

(** [None] is a panic of [unwrap] or of a slice. *)
Definition compress (p : ZCPacket.t) (algo : CompressorAlgo)
    : option (ZCPacket.t * result unit CompressError) :=
  match algo with
  | CompressNone => Some (p, Ok tt)
  | ZstdDefault =>
      hdr ← ZCPacket.peer_manager_header p;
      if PeerManagerHeader.is_compressed hdr then Some (p, Ok tt)
      else
        let tail := compressor_tail_new algo in
        payload ← ZCPacket.payload p;
        match compress_raw payload algo with
        | Err e => Some (p, Err e)
        | Ok buf =>
            if PeerManagerHeader.hdr_len hdr <? len buf + COMPRESSOR_TAIL_SIZE then Some (p, Ok tt)
            else
              p1 ← ZCPacket.update_peer_manager_header p
                     (λ h, PeerManagerHeader.set_compressed h true);
              Some (replace_payload p1 (buf ++ [tail]), Ok tt)
        end
  end.

Definition decompress (p : ZCPacket.t) : option (ZCPacket.t * result unit CompressError) :=
  hdr ← ZCPacket.peer_manager_header p;
  if negb (PeerManagerHeader.is_compressed hdr) then Some (p, Ok tt)
  else
    payload ← ZCPacket.payload p;
    if len payload <? COMPRESSOR_TAIL_SIZE then Some (p, Err TooShort)
    else
      let text_len := len payload - COMPRESSOR_TAIL_SIZE in
      tail ← index payload text_len;
      match compressor_tail_get_algo tail with
      | None => Some (p, Err UnknownAlgo)
      | Some algo =>
          match decompress_raw (take (Z.to_nat text_len) payload) algo with
          | Err e => Some (p, Err e)
          | Ok buf =>
              if negb (len buf =? PeerManagerHeader.hdr_len hdr) then Some (p, Err LengthMismatch)
              else
                p1 ← ZCPacket.update_peer_manager_header p
                       (λ h, PeerManagerHeader.set_compressed h false);
                Some (replace_payload p1 buf, Ok tt)
          end
      end.

(** ** RPC contents *)

Definition accepted_compression_algo : CompressionAlgoPb :=
  if compressor_is_available zstd_available ZstdDefault then PbZstd else PbNone.

(** The accepted algorithm when it is known and built in, else none. *)
Definition usable_algo (accepted : CompressionAlgoPb) : CompressorAlgo :=
  match compressor_algo_try_from accepted with
  | Ok a => if compressor_is_available zstd_available a then a else CompressNone
  | Err _ => CompressNone
  end.

Definition compress_packet (accepted : CompressionAlgoPb) (content : list Z)
    : result (list Z * CompressionAlgoPb) CompressError :=
  let algo := usable_algo accepted in
  let? compressed := compress_raw content algo in
  if len content <=? len compressed then Ok (content, PbNone)
  else Ok (compressed, compression_algo_pb_try_from algo).

Definition decompress_packet (algo_pb : CompressionAlgoPb) (content : list Z)
    : result (list Z) CompressError :=
  match compressor_algo_try_from algo_pb with
  | Err v => Err (BadAlgoPb v)
  | Ok algo => decompress_raw content algo
  end.

End Compressor.

(** * Properties *)

Section Facts.

Context (zstd_available : bool).
Context (zstd_compress : list Z → result (list Z) ZstdError).
Context (zstd_decompress : list Z → Z → result (list Z) ZstdError).

(** The contract of the zstd library: a frame decompresses to its data when the
    output bound is large enough and reports a small buffer otherwise; frames fit
    in memory. *)
Definition zstd_ok : Prop :=
  ∀ d c, zstd_compress d = Ok c → len c < 2 ^ 58 ∧
    ∀ cap, zstd_decompress c cap = if len d <=? cap then Ok d else Err BufferTooSmall.

(** The largest output of the five attempts. *)
Definition decompress_limit (c : list Z) : Z := Z.max 65536 (32 * len c).

Lemma decompress_zstd_limit d c algo :
  zstd_ok → zstd_available = true → zstd_compress d = Ok c →
  decompress_zstd zstd_available zstd_decompress c algo =
    if len d <=? decompress_limit c then Ok d else Err (TooManyAttempts algo).
Proof.
  intros Hz Ha Hc. destruct (Hz d c Hc) as [Hlen Hd]. unfold decompress_zstd. rewrite Ha.
  pose proof (len_nonneg c). pose proof (len_nonneg d).
  assert (Hat : ∀ i, 1 <= i <= 5 → attempt_len c i =
    if (i =? 5) && (len c * 2 ^ i <? 64 * 1024) then 64 * 1024 else len c * 2 ^ i).
  { intros i Hi. unfold attempt_len, wrap. rewrite Z.mod_small; [done|].
    assert (2 ^ i <= 2 ^ 5) by (apply Z.pow_le_mono_r; lia). nia. }
  unfold decompress_limit. cbn [decompress_attempts]. rewrite !Hd, !Hat by lia.
  cbn [Z.eqb Pos.eqb andb].
  change (2 ^ 1) with 2. change (2 ^ 2) with 4. change (2 ^ 3) with 8. change (2 ^ 4) with 16.
  change (2 ^ 5) with 32. change (64 * 1024) with 65536.
  destruct (Z.leb_spec (len d) (len c * 2)), (Z.leb_spec (len d) (len c * 4)),
    (Z.leb_spec (len d) (len c * 8)), (Z.leb_spec (len d) (len c * 16)),
    (Z.leb_spec (len d) (Z.max 65536 (32 * len c))), (Z.ltb_spec (len c * 32) 65536);
    try done; try lia;
    destruct (Z.leb_spec (len d) 65536); try done; try lia;
    destruct (Z.leb_spec (len d) (len c * 32)); try done; lia.
Qed.

(** What [compress_packet] produces, [decompress_packet] restores, exactly when
    the content is not larger than both 64 KiB and 32 times the compressed form:
    beyond that the receiver fails although the sender chose to compress. *)
Theorem rpc_compression_roundtrip accepted content out algo :
  zstd_ok → compress_packet zstd_available zstd_compress accepted content = Ok (out, algo) →
  decompress_packet zstd_available zstd_decompress algo out =
    match algo with
    | PbZstd => if len content <=? decompress_limit out then Ok content
                else Err (TooManyAttempts ZstdDefault)
    | _ => Ok content
    end ∧ len out <= len content.
Proof.
  intros Hz. unfold compress_packet. set (a := usable_algo zstd_available accepted).
  assert (Ha : a = CompressNone ∨ a = ZstdDefault ∧ zstd_available = true).
  { unfold a, usable_algo. destruct accepted; simpl; auto. destruct zstd_available; auto. }
  destruct Ha as [->|[-> Hav]].
  - simpl. rewrite Z.leb_refl. intros [= <- <-]. split; [done|lia].
  - cbn [compress_raw]. unfold compress_zstd. rewrite Hav.
    destruct (zstd_compress content) as [c|e] eqn:Ec; [|done].
    destruct (Z.leb_spec (len content) (len c)).
    + intros [= <- <-]. split; [done|lia].
    + intros [= <- <-]. split; [|lia]. cbn [compression_algo_pb_try_from decompress_packet compressor_algo_try_from decompress_raw].
      rewrite <- Hav. by apply decompress_zstd_limit.
Qed.

Lemma set_compressed_back h :
  PeerManagerHeader.is_compressed h = false →
  PeerManagerHeader.set_compressed (PeerManagerHeader.set_compressed h true) false = h.
Proof.
  intros Hc. unfold PeerManagerHeader.set_compressed, PeerManagerHeader.with_flags,
    PeerManagerHeader.is_compressed in *. simpl. destruct h as [a b c f d e g]; simpl in *. f_equal.
  change (Flags.put (Flags.put f (2 ^ 4) true) (2 ^ 4) false = f).
  change Flags.COMPRESSED with (2 ^ 4) in Hc. rewrite PacketFacts.contains_pow2 in Hc by done.
  apply Z.bits_inj'. intros n Hn. rewrite !PacketFacts.put_testbit by done.
  by destruct (Z.eqb_spec 4 n) as [<-|].
Qed.

Lemma set_compressed_wf h b :
  PeerManagerHeader.wf h → PeerManagerHeader.wf (PeerManagerHeader.set_compressed h b).
Proof.
  intros (? & ? & ? & Hf & ?). unfold PeerManagerHeader.wf. cbn. split_and!; try tauto.
  change Flags.COMPRESSED with (2 ^ 4).
  assert (0 <= PeerManagerHeader.flags h) by (unfold is_byte in Hf; lia). apply byte_of_testbit.
  - unfold Flags.put, Flags.insert, Flags.remove. destruct b.
    + apply Z.lor_nonneg. lia.
    + apply Z.ldiff_nonneg. lia.
  - intros i Hi. rewrite PacketFacts.put_testbit by lia.
    destruct (Z.eqb_spec 4 i); [lia|]. by apply byte_testbit_high.
Qed.

(** A packet laid out as prefix, header and payload. *)
Definition layout (p : ZCPacket.t) (a : list Z) (hdr : PeerManagerHeader.t) (pl : list Z) : Prop :=
  ZCPacket.inner p = a ++ PeerManagerHeader.to_bytes hdr ++ pl ∧
  len a = peer_manager_header_offset (get_packet_offsets (ZCPacket.packet_type p)) ∧
  PeerManagerHeader.wf hdr.

Lemma layout_views p a hdr pl :
  layout p a hdr pl →
  ZCPacket.peer_manager_header p = Some hdr ∧ ZCPacket.payload p = Some pl.
Proof.
  intros (Hi & Ha & Hw). unfold ZCPacket.peer_manager_header, ZCPacket.bytes_from_offset,
    ZCPacket.payload, ZCPacket.payload_offset.
  rewrite Hi, slice_from_app by done. cbn [mbind option_bind].
  rewrite PacketFacts.pm_header_roundtrip by done. split; [done|].
  rewrite app_assoc, slice_from_app; [done|].
  by rewrite len_app, PacketFacts.payload_after_header, Ha.
Qed.

(** Rewriting the header and replacing the payload. *)
Lemma layout_rewrite p a hdr pl f body :
  layout p a hdr pl → (∀ h, PeerManagerHeader.wf h → PeerManagerHeader.wf (f h)) →
  ∃ p1, ZCPacket.update_peer_manager_header p f = Some p1 ∧
    replace_payload p1 body =
      ZCPacket.with_inner p (a ++ PeerManagerHeader.to_bytes (f hdr) ++ body) ∧
    layout (replace_payload p1 body) a (f hdr) body.
Proof.
  intros (Hi & Ha & Hw) Hf.
  destruct (PacketFacts.update_pm_header_spec p f a (PeerManagerHeader.to_bytes hdr) pl)
    as (h & Hh & ->); [done..|].
  rewrite PacketFacts.pm_header_roundtrip in Hh by done. injection Hh as <-.
  eexists. split; [done|].
  assert (E : replace_payload (ZCPacket.with_inner p (a ++ PeerManagerHeader.to_bytes (f hdr) ++ pl)) body =
    ZCPacket.with_inner p (a ++ PeerManagerHeader.to_bytes (f hdr) ++ body)).
  { unfold replace_payload. cbn [ZCPacket.inner ZCPacket.with_inner].
    change (ZCPacket.payload_offset (ZCPacket.with_inner p _)) with (ZCPacket.payload_offset p).
    unfold ZCPacket.payload_offset. rewrite PacketFacts.payload_after_header, <- Ha.
    rewrite (app_assoc a), take_app_length'; [by rewrite <- !app_assoc|].
    unfold len. rewrite length_app.
    change (length (PeerManagerHeader.to_bytes (f hdr))) with 16%nat.
    unfold PEER_MANAGER_HEADER_SIZE. lia. }
  split; [done|]. rewrite E. split; [done|]. split; [done|]. by apply Hf.
Qed.

(** Compression of a packet is undone by decompression: from a packet whose
    header carries its payload length, whatever [compress] answers is a packet that
    is not longer and that [decompress] turns back into the very same packet, as
    long as the payload is at most 64 KiB. *)
Theorem packet_compression_roundtrip p a hdr pl algo p' :
  zstd_ok → layout p a hdr pl →
  PeerManagerHeader.is_compressed hdr = false → PeerManagerHeader.hdr_len hdr = len pl →
  len pl <= 65536 →
  compress zstd_available zstd_compress p algo = Some (p', Ok tt) →
  decompress zstd_available zstd_decompress p' = Some (p, Ok tt) ∧
  len (ZCPacket.inner p') <= len (ZCPacket.inner p).
Proof.
  intros Hz Hlay Hnc Hlen Hmax. destruct (layout_views p a hdr pl Hlay) as [Hh Hp].
  assert (Hsame : decompress zstd_available zstd_decompress p = Some (p, Ok tt)).
  { unfold decompress. rewrite Hh. cbn [mbind option_bind]. by rewrite Hnc. }
  unfold compress. destruct algo; [intros [= <-]; split; [done|lia]|].
  rewrite Hh. cbn [mbind option_bind]. rewrite Hnc, Hp. cbn [mbind option_bind compress_raw].
  destruct (compress_zstd zstd_available zstd_compress pl ZstdDefault) as [buf|e] eqn:Ec; [|done].
  unfold compress_zstd in Ec. destruct zstd_available eqn:Hav; [|done].
  destruct (zstd_compress pl) as [c|] eqn:Ez; [|done]. injection Ec as ->.
  destruct (Z.ltb_spec (PeerManagerHeader.hdr_len hdr) (len buf + COMPRESSOR_TAIL_SIZE)) as [|Hfit];
    [intros [= <-]; split; [done|lia]|].
  set (tail := [compressor_tail_new ZstdDefault]).
  destruct (layout_rewrite p a hdr pl (λ h, PeerManagerHeader.set_compressed h true) (buf ++ tail) Hlay)
    as (p1 & -> & E1 & Hlay1); [intros; by apply set_compressed_wf|].
  cbn [mbind option_bind]. rewrite E1 in Hlay1 |- *. intros [= <-].
  set (q := ZCPacket.with_inner p _) in *. destruct (layout_views _ _ _ _ Hlay1) as [Hh1 Hp1].
  split.
  2:{ destruct Hlay as (-> & _). cbn [ZCPacket.inner ZCPacket.with_inner q]. rewrite !len_app.
      change (len tail) with 1. rewrite !PacketFacts.pm_header_len.
      unfold COMPRESSOR_TAIL_SIZE in Hfit. lia. }
  unfold decompress. rewrite Hh1. cbn [mbind option_bind].
  assert (PeerManagerHeader.is_compressed (PeerManagerHeader.set_compressed hdr true) = true) as ->.
  { apply (PacketFacts.flag_put_contains (PeerManagerHeader.flags hdr) 4 true 4); lia. }
  rewrite Hp1. cbn [mbind option_bind negb]. rewrite len_app. change (len tail) with 1.
  unfold COMPRESSOR_TAIL_SIZE. pose proof (len_nonneg buf).
  destruct (Z.ltb_spec (len buf + 1) 1); [lia|]. replace (len buf + 1 - 1) with (len buf) by lia.
  assert (index (buf ++ tail) (len buf) = Some 1) as ->.
  { unfold index, len. destruct (Z.leb_spec 0 (Z.of_nat (length buf))); [|lia].
    by rewrite Nat2Z.id, lookup_app_r, Nat.sub_diag by lia. }
  cbn [mbind option_bind compressor_tail_get_algo Z.eqb Pos.eqb].
  assert (take (Z.to_nat (len buf)) (buf ++ tail) = buf) as ->
    by (apply take_app_length'; unfold len; lia).
  cbn [decompress_raw]. pose proof (decompress_zstd_limit pl buf ZstdDefault Hz Hav Ez) as Hd.
  rewrite Hav in Hd. rewrite Hd. unfold decompress_limit.
  destruct (Z.leb_spec (len pl) (Z.max 65536 (32 * len buf))); [|lia].
  change (PeerManagerHeader.hdr_len (PeerManagerHeader.set_compressed hdr true))
    with (PeerManagerHeader.hdr_len hdr). rewrite Hlen, Z.eqb_refl. cbn [negb].
  destruct (layout_rewrite q a _ _ (λ h, PeerManagerHeader.set_compressed h false) pl Hlay1)
    as (p2 & -> & E2 & _); [intros; by apply set_compressed_wf|].
  cbn [mbind option_bind]. rewrite E2. do 2 f_equal. rewrite set_compressed_back by done.
  destruct Hlay as (Hi & _). unfold q, ZCPacket.with_inner.
  cbn [ZCPacket.packet_type ZCPacket.flow_key]. rewrite <- Hi. by destruct p.
Qed.

End Facts.

(** ** Witnesses *)

(** A run-length "zstd": a string of zeros becomes its length. *)
Definition toy_zstd_compress (d : list Z) : result (list Z) ZstdError :=
  if (forallb (Z.eqb 0) d) && (len d <? 2 ^ 32) then Ok (0 :: to_le 4 (len d))
  else if len d <? 2 ^ 57 then Ok (1 :: d) else Err (ZstdOther 0).

Definition toy_zstd_decompress (c : list Z) (cap : Z) : result (list Z) ZstdError :=
  match c with
  | 0 :: n => if from_le n <=? cap then Ok (replicate (Z.to_nat (from_le n)) 0) else Err BufferTooSmall
  | _ :: d => if len d <=? cap then Ok d else Err BufferTooSmall
  | [] => Err (ZstdOther 1)
  end.

Lemma forallb_zero d : forallb (Z.eqb 0) d = true → d = replicate (length d) 0.
Proof.
  induction d as [|x d IH]; [done|]. cbn [forallb]. intros [Hx Hd]%andb_true_iff.
  apply Z.eqb_eq in Hx. subst x. cbn [length replicate]. f_equal. by apply IH.
Qed.

Lemma toy_zstd_ok : zstd_ok toy_zstd_compress toy_zstd_decompress.
Proof.
  intros d c. unfold toy_zstd_compress. pose proof (len_nonneg d).
  destruct (forallb (Z.eqb 0) d && (len d <? 2 ^ 32)) eqn:E.
  - apply andb_true_iff in E as [Hz Hl%Z.ltb_lt]. intros Hc.
    assert (c = 0 :: to_le 4 (len d)) as -> by congruence.
    split; [unfold len; rewrite length_cons, length_to_le; lia|]. intros cap.
    unfold toy_zstd_decompress. rewrite to_le_roundtrip by (simpl; lia).
    destruct (len d <=? cap); [|done]. f_equal. unfold len. rewrite Nat2Z.id.
    symmetry. by apply forallb_zero.
  - destruct (Z.ltb_spec (len d) (2 ^ 57)); [|done]. intros [= <-].
    split; [unfold len in *; rewrite length_cons; lia|done].
Qed.

(** 100000 zeros are compressed and then refused by the receiver. *)
Lemma rpc_compression_roundtrip_witness :
  ∃ out, compress_packet true toy_zstd_compress PbZstd (replicate 100000 0) = Ok (out, PbZstd) ∧
    decompress_packet true toy_zstd_decompress PbZstd out = Err (TooManyAttempts ZstdDefault).
Proof.
  assert (∃ out, compress_packet true toy_zstd_compress PbZstd (replicate 100000 0) = Ok (out, PbZstd) ∧
    decompress_limit out = 65536) as (out & E & Hlim) by (eexists; vm_compute; split; reflexivity).
  exists out. split; [exact E|].
  rewrite (proj1 (rpc_compression_roundtrip true toy_zstd_compress toy_zstd_decompress
    PbZstd (replicate 100000 0) out PbZstd toy_zstd_ok E)).
  by rewrite Hlim.
Defined.

Definition demo_header (n : Z) : PeerManagerHeader.t := PeerManagerHeader.mk 1 2 1 0 1 0 n.

Definition demo_packet : ZCPacket.t :=
  ZCPacket.mk (replicate 20 0 ++ PeerManagerHeader.to_bytes (demo_header 40) ++ replicate 40 0) NIC None.

Lemma packet_compression_roundtrip_witness :
  ∃ p', compress true toy_zstd_compress demo_packet ZstdDefault = Some (p', Ok tt) ∧
    len (ZCPacket.inner p') < len (ZCPacket.inner demo_packet) ∧
    decompress true toy_zstd_decompress p' = Some (demo_packet, Ok tt).
Proof.
  eexists. split; [vm_compute; reflexivity|]. split; [vm_compute; reflexivity|].
  refine (proj1 (packet_compression_roundtrip true toy_zstd_compress toy_zstd_decompress demo_packet
    (replicate 20 0) (demo_header 40) (replicate 40 0) ZstdDefault _ toy_zstd_ok _ eq_refl eq_refl _ _));
    [|vm_compute; congruence|vm_compute; reflexivity].
  split; [reflexivity|]. split; [reflexivity|].
  unfold PeerManagerHeader.wf, is_uint, is_byte; simpl; lia.
Defined.
