(* ===== verification/RpcPacket.v ===== *)
(** * RPC packets: splitting and merging

    Models easytier-core/src/rpc/packet.rs: the splitting of an RPC content into
    pieces that fit the UDP payload budget, the construction of the packets, and the
    merger on the receiving side.  The protobuf library is a parameter ([encode],
    [encoded_len], [length_delimiter_len]); [prost_ok] is its documented encoding
    size.  The theorems show that the pieces partition the content, fit the budget,
    and that feeding them in any order, with repetitions, rebuilds the message
    exactly when the last missing piece arrives. *)

From stdpp Require Import base list numbers strings sets gmap.
From Stdlib Require Import ZArith Znumtheory Lia.
From S2P Require Import Prelude Packet.
Local Open Scope Z_scope.

(** ** Messages (easytier-proto/proto/common.proto) *)

Record RpcDescriptor : Type := mkDescriptor {
  domain_name : string;
  proto_name : string;
  service_name : string;
  method_index : Z
}.

Record RpcCompressionInfo : Type := mkCompressionInfo { algo : Z; accepted_algo : Z }.

(** [CompressionAlgoPb::None as i32]. *)
Definition COMPRESSION_NONE : Z := 1.

Record RpcPacket : Type := mkRpcPacket {
  from_peer : Z;
  to_peer : Z;
  transaction_id : Z;
  descriptor : option RpcDescriptor;
  body : list Z;
  is_request : bool;
  total_pieces : Z;
  piece_idx : Z;
  trace_id : Z;
  compression_info : option RpcCompressionInfo
}.

(** [Default::default()]. *)
Definition default_packet : RpcPacket := mkRpcPacket 0 0 0 None [] false 0 0 0 None.

#[export] Instance rpc_packet_inhabited : Inhabited RpcPacket := populate default_packet.

Inductive RpcError : Type :=
| DescriptorMissing
| TotalPiecesInvalid (n : Z)
| PieceIdxInvalid.

(** ** The merger *)

Module PacketMerger.

Record t : Type := mk {
  first_piece : option RpcPacket;
  pieces : list RpcPacket;
  last_updated : Z
}.

Definition new (now : Z) : t := mk None [] now.

(** The merged packet: the first piece with the concatenated bodies. *)
Definition try_merge_pieces (m : t) : option RpcPacket :=
  match first_piece m, pieces m with
  | Some _, p0 :: _ =>
      if existsb (λ p, total_pieces p =? 0) (pieces m) then None
      else Some (mkRpcPacket (from_peer p0) (to_peer p0) (transaction_id p0) (descriptor p0)
                   (concat (map body (pieces m))) (is_request p0) 1 0 (trace_id p0)
                   (compression_info p0))
  | _, _ => None
  end.

(** Whether [feed] starts a new message. *)
Definition starts_new (m : t) (p : RpcPacket) : bool :=
  match first_piece m with
  | None => true
  | Some f => negb (transaction_id f =? transaction_id p) || negb (from_peer f =? from_peer p)
  end.

Definition feed (m : t) (p : RpcPacket) (now : Z) : t * result (option RpcPacket) RpcError :=
  let n := total_pieces p in
  let i := piece_idx p in
  if (n =? 0) && (i =? 0) then (m, Ok (Some p))
  else if (i =? 0) && negb (bool_decide (is_Some (descriptor p))) then (m, Err DescriptorMissing)
  else if (32 * 1024 <? n) || (n =? 0) then (m, Err (TotalPiecesInvalid n))
  else if n <=? i then (m, Err PieceIdxInvalid)
  else
    let '(first, ps) :=
      if starts_new m p then (Some p, []) else (first_piece m, pieces m) in
    let ps := <[Z.to_nat i := p]> (resize (Z.to_nat n) default_packet ps) in
    let m' := mk first ps now in
    (m', Ok (try_merge_pieces m')).

End PacketMerger.

(** ** Splitting *)

Section Build.

(** prost: the encoding of a message, its length and the length of a varint. *)
Context (encode : RpcPacket → list Z).
Context (encoded_len : RpcPacket → Z).
Context (length_delimiter_len : Z → Z).

Record BuildRpcPacketArgs : Type := mkArgs {
  a_from_peer : Z;
  a_to_peer : Z;
  a_rpc_desc : RpcDescriptor;
  a_transaction_id : Z;
  a_is_req : bool;
  a_content : list Z;
  a_trace_id : Z;
  a_compression_info : RpcCompressionInfo
}.

Implicit Types args : BuildRpcPacketArgs.

Definition RPC_PACKET_UDP_PAYLOAD_BUDGET : Z := 1300.

Definition udp_rpc_tunnel_overhead : Z :=
  payload_offset_of (get_packet_offsets UDP) + TAIL_RESERVED_SIZE.

Definition max_rpc_packet_encoded_len_for_udp : Z :=
  saturating_sub RPC_PACKET_UDP_PAYLOAD_BUDGET udp_rpc_tunnel_overhead.

Definition build_rpc_piece args (total idx : Z) (b : list Z) : RpcPacket :=
  mkRpcPacket (a_from_peer args) (a_to_peer args) (a_transaction_id args)
    (if (idx =? 0) || (algo (a_compression_info args) =? COMPRESSION_NONE)
     then Some (a_rpc_desc args) else None)
    b (a_is_req args) total idx (a_trace_id args)
    (if idx =? 0 then Some (a_compression_info args) else None).

Definition pick_piece_len_for_budget (base_len remaining max_len : Z) : Z :=
  if remaining =? 0 then 0
  else if max_len <? base_len + 3 then 1
  else
    let budget := max_len - base_len in
    let reserved_for_body_header := 1 + length_delimiter_len budget in
    Z.max (Z.min remaining (saturating_sub budget reserved_for_body_header)) 1.

(** The loop of the split; a piece has at least one byte, so the content length
    bounds the passes. *)
Fixpoint split_loop (fuel : nat) (first_base other_base max_len n : Z) (is_first : bool) (offset : Z)
    : list (Z * Z) :=
  match fuel with
  | O => []
  | S fuel' =>
      if offset <? n then
        let base_len := if is_first then first_base else other_base in
        let piece_len := pick_piece_len_for_budget base_len (n - offset) max_len in
        (offset, piece_len) :: split_loop fuel' first_base other_base max_len n false (offset + piece_len)
      else []
  end.

Definition split_rpc_content_for_udp_budget args : list (Z * Z) :=
  let n := len (a_content args) in
  if n =? 0 then [(0, 0)]
  else
    let max_len := Z.max max_rpc_packet_encoded_len_for_udp 1 in
    let first_base := encoded_len (build_rpc_piece args (uint_max 32) 0 []) in
    let other_base := encoded_len (build_rpc_piece args (uint_max 32) (uint_max 32) []) in
    split_loop (length (a_content args)) first_base other_base max_len n true 0.

(** The message of an enumerated piece; [None] is a slice out of range. *)
Definition piece_message args (total : Z) (ip : nat * (Z * Z)) : option RpcPacket :=
  let '(idx, (offset, l)) := ip in
  b ← slice_range (a_content args) offset (offset + l);
  Some (build_rpc_piece args total (wrap 32 (Z.of_nat idx)) b).

Definition rpc_messages args : option (list RpcPacket) :=
  let ps := split_rpc_content_for_udp_budget args in
  mapM (piece_message args (wrap 32 (len ps))) (zip (seq 0 (length ps)) ps).

(** The packet of a message; [uninit] is the content of fresh memory. *)
Definition message_packet (uninit : list Z) args (m : RpcPacket) : option ZCPacket.t :=
  zc ← ZCPacket.new_with_payload uninit (encode m);
  ZCPacket.fill_peer_manager_hdr zc (a_from_peer args) (a_to_peer args)
    (packet_type_u8 (if a_is_req args then RpcReq else RpcResp)).

Definition build_rpc_packet (uninit : list Z) args : option (list ZCPacket.t) :=
  ms ← rpc_messages args;
  mapM (message_packet uninit args) ms.

End Build.

(** * Properties of the split *)

Section SplitFacts.

Context (encode : RpcPacket → list Z).
Context (encoded_len : RpcPacket → Z).
Context (length_delimiter_len : Z → Z).
Implicit Types args : BuildRpcPacketArgs.

Lemma pick_bounds base remaining max_len :
  1 <= remaining → 1 <= pick_piece_len_for_budget length_delimiter_len base remaining max_len <= remaining.
Proof.
  intros Hr. unfold pick_piece_len_for_budget.
  destruct (Z.eqb_spec remaining 0); [lia|]. destruct (max_len <? base + 3); lia.
Qed.

(** A list of adjacent pieces from [o] to the end [n]. *)
Fixpoint adjacent (o n : Z) (ps : list (Z * Z)) : Prop :=
  match ps with
  | [] => o = n
  | (off, l) :: r => off = o ∧ 0 <= l ∧ adjacent (o + l) n r
  end.

Lemma split_loop_adjacent fuel fb ob mx n first o :
  0 <= o <= n → n - o <= Z.of_nat fuel →
  let ps := split_loop length_delimiter_len fuel fb ob mx n first o in
  adjacent o n ps ∧ len ps <= n - o ∧ (o < n → ps ≠ []).
Proof.
  revert first o. induction fuel as [|fuel IH]; intros first o Ho Hf; cbn [split_loop].
  { unfold len. simpl. split_and!; [lia..|]. intros. lia. }
  destruct (Z.ltb_spec o n); [|unfold len; simpl; split_and!; [lia..|]; intros; lia].
  set (l := pick_piece_len_for_budget _ _ _ _).
  assert (Hl : 1 <= l <= n - o) by (apply pick_bounds; lia).
  destruct (IH false (o + l)) as (IH1 & IH2 & _); [lia|lia|].
  split; [cbn; split_and!; done || lia|]. split; [|done].
  unfold len in *. cbn [length]. lia.
Qed.

Lemma adjacent_le o n ps : adjacent o n ps → o <= n.
Proof.
  revert o. induction ps as [|[off l] ps IH]; intros o; simpl; [lia|].
  intros (_ & ? & H%IH). lia.
Qed.

Lemma piece_messages_adjacent args total k o ps :
  0 <= o → adjacent o (len (a_content args)) ps → Z.of_nat (k + length ps) <= 2 ^ 32 →
  ∃ ms, mapM (piece_message args total) (zip (seq k (length ps)) ps) = Some ms ∧
    length ms = length ps ∧ concat (map body ms) = drop (Z.to_nat o) (a_content args) ∧
    ∀ i m, ms !! i = Some m →
      m = build_rpc_piece args total (Z.of_nat (k + i)) (body m) ∧
      ∃ off, ps !! i = Some (off, len (body m)).
Proof.
  revert k o. induction ps as [|[off l] ps IH]; intros k o Ho Hadj Hk; cbn [length seq zip zip_with].
  { exists []. simpl in Hadj. split_and!; try done.
    rewrite drop_ge; [done|]. unfold len in Hadj. lia. }
  destruct Hadj as (-> & Hl & Hadj). pose proof (adjacent_le _ _ _ Hadj) as Hle.
  destruct (IH (S k) (o + l)) as (ms & Hms & Hlen & Hcat & Hidx);
    [lia|done|cbn [length] in Hk; lia|].
  set (b := take (Z.to_nat l) (drop (Z.to_nat o) (a_content args))).
  assert (Hsl : slice_range (a_content args) o (o + l) = Some b).
  { unfold slice_range. destruct (Z.leb_spec 0 o), (Z.leb_spec o (o + l)),
      (Z.leb_spec (o + l) (len (a_content args))); try lia. simpl. do 3 f_equal. lia. }
  assert (Hb : len b = l).
  { unfold b, len in *. rewrite length_take, length_drop. lia. }
  exists (build_rpc_piece args total (wrap 32 (Z.of_nat k)) b :: ms). split.
  { assert (Hp : piece_message args total (k, (o, l)) =
      Some (build_rpc_piece args total (wrap 32 (Z.of_nat k)) b))
      by (unfold piece_message; by rewrite Hsl).
    cbn [mapM]. rewrite Hp. cbn [mbind option_bind]. by rewrite Hms. }
  split; [simpl; lia|]. split.
  { cbn [map concat]. rewrite Hcat. cbn [body build_rpc_piece]. unfold b.
    rewrite <- (take_drop (Z.to_nat l) (drop (Z.to_nat o) (a_content args))) at 2.
    f_equal. rewrite drop_drop. f_equal. lia. }
  intros i m. destruct i as [|i]; cbn [lookup list_lookup].
  - intros [= <-]. cbn [body build_rpc_piece]. rewrite Nat.add_0_r, Hb. split; [|eauto].
    unfold wrap. rewrite Z.mod_small; [done|]. cbn [length] in Hk. lia.
  - intros Hm. destruct (Hidx i m Hm) as [H1 H2]. split; [|exact H2].
    by rewrite Nat.add_succ_r.
Qed.

(** The pieces of a content, and the messages they give. *)
Lemma rpc_messages_spec args :
  len (a_content args) < 2 ^ 32 →
  ∃ ms, rpc_messages encoded_len length_delimiter_len args = Some ms ∧ ms ≠ [] ∧
    concat (map body ms) = a_content args ∧ len ms <= Z.max 1 (len (a_content args)) ∧
    ∀ i m, ms !! i = Some m →
      m = build_rpc_piece args (len ms) (Z.of_nat i) (body m) ∧
      ∃ off, split_rpc_content_for_udp_budget encoded_len length_delimiter_len args !! i =
        Some (off, len (body m)).
Proof.
  intros Hn. unfold rpc_messages. set (ps := split_rpc_content_for_udp_budget _ _ _).
  pose proof (len_nonneg (a_content args)) as Hnn.
  assert (Hps : adjacent 0 (len (a_content args)) ps ∧ len ps <= Z.max 1 (len (a_content args)) ∧ ps ≠ []).
  { unfold ps, split_rpc_content_for_udp_budget. destruct (Z.eqb_spec (len (a_content args)) 0) as [E|E].
    { rewrite E. done. }
    match goal with |- context [split_loop _ ?f ?fb ?ob ?mx ?n ?first ?o] =>
      destruct (split_loop_adjacent f fb ob mx n first o) as (H1 & H2 & H3) end;
      [lia|unfold len; lia|]. split; [done|]. split; [lia|]. apply H3. lia. }
  destruct Hps as (Hadj & Hle & Hne).
  assert (Hw : wrap 32 (len ps) = len ps) by (apply Z.mod_small; pose proof (len_nonneg ps); lia).
  rewrite Hw. destruct (piece_messages_adjacent args (len ps) 0 0 ps) as (ms & Hms & Hlen & Hcat & Hidx);
    [lia|done|unfold len in *; lia|].
  assert (Hlm : len ms = len ps) by (unfold len; lia). rewrite Hms.
  exists ms. rewrite Hlm. split_and!; try done. intros ->. by destruct ps.
Qed.

(** The pieces of an RPC message partition its content: splitting terminates
    without a slice out of range, gives at least one message, the bodies concatenate
    to the content, and the [i]-th message is the piece built with index [i] and the
    number of pieces as its total. *)
Theorem rpc_messages_partition args :
  len (a_content args) < 2 ^ 32 →
  ∃ ms, rpc_messages encoded_len length_delimiter_len args = Some ms ∧ ms ≠ [] ∧
    concat (map body ms) = a_content args ∧
    ∀ i m, ms !! i = Some m → m = build_rpc_piece args (len ms) (Z.of_nat i) (body m).
Proof.
  intros Hn. destruct (rpc_messages_spec args Hn) as (ms & H1 & H2 & H3 & _ & H4).
  exists ms. split_and!; try done. intros i m Hm. by apply H4.
Qed.

(** ** The budget *)

Definition with_body (p : RpcPacket) (b : list Z) : RpcPacket :=
  mkRpcPacket (from_peer p) (to_peer p) (transaction_id p) (descriptor p) b (is_request p)
    (total_pieces p) (piece_idx p) (trace_id p) (compression_info p).

Definition with_pieces (p : RpcPacket) (total idx : Z) : RpcPacket :=
  mkRpcPacket (from_peer p) (to_peer p) (transaction_id p) (descriptor p) (body p) (is_request p)
    total idx (trace_id p) (compression_info p).

(** The protobuf encoding: a non-empty [bytes] field takes a tag, its length and its
    bytes, varints grow with their value, and the encoder writes [encoded_len] bytes. *)
Record prost_ok : Prop := mkProstOk {
  po_encode : ∀ p, len (encode p) = encoded_len p;
  po_body : ∀ p, encoded_len p = encoded_len (with_body p []) +
    (if len (body p) =? 0 then 0 else 1 + length_delimiter_len (len (body p)) + len (body p));
  po_pieces : ∀ p t i, 0 <= total_pieces p <= t → 0 <= piece_idx p <= i →
    encoded_len p <= encoded_len (with_pieces p t i);
  po_varint : ∀ a b, 0 <= a <= b → length_delimiter_len a <= length_delimiter_len b;
  po_varint_1 : length_delimiter_len 1 = 1
}.

Lemma pick_fits base remaining max_len :
  prost_ok → 1 <= remaining → base + 3 <= max_len →
  let l := pick_piece_len_for_budget length_delimiter_len base remaining max_len in
  base + (1 + length_delimiter_len l + l) <= max_len.
Proof.
  intros Hp Hr Hb. unfold pick_piece_len_for_budget.
  destruct (Z.eqb_spec remaining 0); [lia|]. destruct (Z.ltb_spec max_len (base + 3)); [lia|].
  unfold saturating_sub. set (bud := max_len - base).
  set (x := Z.min remaining (Z.max 0 (bud - (1 + length_delimiter_len bud)))).
  destruct (Z.max_spec x 1) as [[Hx ->]|[Hx ->]].
  - rewrite (po_varint_1 Hp). lia.
  - assert (length_delimiter_len x <= length_delimiter_len bud).
    { apply (po_varint Hp). pose proof (po_varint Hp 1 bud). pose proof (po_varint_1 Hp). lia. }
    lia.
Qed.

Lemma split_loop_pieces fuel fb ob mx n first o i off l :
  split_loop length_delimiter_len fuel fb ob mx n first o !! i = Some (off, l) →
  off < n ∧ l = pick_piece_len_for_budget length_delimiter_len
    (if first && (i =? 0)%nat then fb else ob) (n - off) mx.
Proof.
  revert first o i. induction fuel as [|fuel IH]; intros first o i; cbn [split_loop]; [done|].
  destruct (Z.ltb_spec o n); [|done]. destruct i as [|i]; cbn [lookup list_lookup].
  - intros [= <- <-]. split; [done|]. by destruct first.
  - intros Hi%IH. by destruct first.
Qed.

(** The metadata of the first and of the other pieces leaves room for a body. *)
Definition metadata_fits args : Prop :=
  let mx := Z.max max_rpc_packet_encoded_len_for_udp 1 in
  encoded_len (build_rpc_piece args (uint_max 32) 0 []) + 3 <= mx ∧
  encoded_len (build_rpc_piece args (uint_max 32) (uint_max 32) []) + 3 <= mx.

(** Every piece fits the UDP budget: when the metadata leaves room for a body,
    the encoded size of each message, with the tunnel and encryption overhead, is at
    most 1300 bytes. *)
Theorem pieces_fit_budget args ms :
  prost_ok → len (a_content args) < 2 ^ 32 → metadata_fits args →
  rpc_messages encoded_len length_delimiter_len args = Some ms →
  Forall (λ m, len (encode m) + udp_rpc_tunnel_overhead <= RPC_PACKET_UDP_PAYLOAD_BUDGET) ms.
Proof.
  intros Hp Hn [Hf Ho] Hms. destruct (rpc_messages_spec args Hn) as (ms' & E & _ & _ & Hle & Hidx).
  assert (ms' = ms) as -> by congruence. apply Forall_lookup. intros i m Hm.
  destruct (Hidx i m Hm) as [Hm' [off Hps]]. set (b := body m) in *. pose proof (len_nonneg b).
  assert (Hi : (i < length ms)%nat) by (by apply lookup_lt_Some in Hm).
  rewrite (po_encode Hp), (po_body Hp). fold b. rewrite Hm'. cbn [with_body body build_rpc_piece].
  change (with_body _ []) with (build_rpc_piece args (len ms) (Z.of_nat i) []).
  set (base := if (i =? 0)%nat then encoded_len (build_rpc_piece args (uint_max 32) 0 [])
               else encoded_len (build_rpc_piece args (uint_max 32) (uint_max 32) [])).
  assert (Hbase : encoded_len (build_rpc_piece args (len ms) (Z.of_nat i) []) <= base).
  { unfold len in *. change (uint_max 32) with (2 ^ 32 - 1) in *. unfold base.
    destruct (Nat.eqb_spec i 0) as [->|Hi0].
    - apply (po_pieces Hp (build_rpc_piece args (Z.of_nat (length ms)) (Z.of_nat 0) []) (2 ^ 32 - 1) 0); simpl; lia.
    - pose proof (po_pieces Hp (build_rpc_piece args (Z.of_nat (length ms)) (Z.of_nat i) [])
        (2 ^ 32 - 1) (2 ^ 32 - 1)) as Hmono.
      unfold build_rpc_piece in *. simpl in Hmono. destruct i as [|i]; [done|].
      apply Hmono; simpl; lia. }
  change (Z.max max_rpc_packet_encoded_len_for_udp 1) with 1248 in *.
  change udp_rpc_tunnel_overhead with 52. unfold RPC_PACKET_UDP_PAYLOAD_BUDGET.
  assert (Hroom : base + 3 <= 1248) by (unfold base; by destruct (i =? 0)%nat).
  destruct (Z.eqb_spec (len b) 0); [lia|].
  revert Hps. unfold split_rpc_content_for_udp_budget.
  destruct (Z.eqb_spec (len (a_content args)) 0) as [E0|E0].
  { destruct i as [|i]; cbn [lookup list_lookup]; [intros [= _ Hb]; lia|by destruct i]. }
  intros [Hoff Hl]%split_loop_pieces. cbn [andb] in Hl. fold base in Hl.
  change (Z.max max_rpc_packet_encoded_len_for_udp 1) with 1248 in Hl.
  match type of Hl with _ = pick_piece_len_for_budget _ _ ?rem _ =>
    pose proof (pick_fits base rem 1248 Hp ltac:(lia) Hroom) as Hfit end.
  cbv zeta in Hfit. rewrite <- Hl in Hfit. lia.
Qed.

End SplitFacts.

(** * Properties of the merger *)

Section MergeFacts.

Context (encoded_len : RpcPacket → Z).
Context (length_delimiter_len : Z → Z).
Context (args : BuildRpcPacketArgs) (ms : list RpcPacket).

(** The messages of [args], few enough for the receiver. *)
Context (Hsize : len (a_content args) < 2 ^ 32).
Context (Hms : rpc_messages encoded_len length_delimiter_len args = Some ms).
Context (Hmax : len ms <= 32 * 1024).

Implicit Types m : PacketMerger.t.

(** The receiver's pieces after the indices [seen]. *)
Definition fill (seen : list nat) : list RpcPacket :=
  imap (λ i p, if decide (i ∈ seen) then p else default_packet) ms.

Definition covered (seen : list nat) : bool :=
  forallb (λ i, bool_decide (i ∈ seen)) (seq 0 (length ms)).

(** What [feed] answers once the indices [seen] have arrived. *)
Definition verdict (seen : list nat) : result (option RpcPacket) RpcError :=
  Ok (if covered seen then Some (build_rpc_piece args 1 0 (a_content args)) else None).

Lemma ms_piece i p :
  ms !! i = Some p → p = build_rpc_piece args (len ms) (Z.of_nat i) (body p).
Proof.
  destruct (rpc_messages_spec encoded_len length_delimiter_len args Hsize) as (ms' & E & _ & _ & _ & H).
  assert (ms' = ms) as -> by congruence. intros Hp. by apply H.
Qed.

Lemma ms_concat : concat (map body ms) = a_content args ∧ ms ≠ [].
Proof.
  destruct (rpc_messages_spec encoded_len length_delimiter_len args Hsize) as (ms' & E & H1 & H2 & _).
  assert (ms' = ms) as -> by congruence. done.
Qed.

Lemma fill_lookup seen i :
  fill seen !! i = (λ p, if decide (i ∈ seen) then p else default_packet) <$> ms !! i.
Proof. unfold fill. by rewrite list_lookup_imap. Qed.

Lemma length_fill seen : length (fill seen) = length ms.
Proof. apply length_imap. Qed.

Lemma fill_insert seen i p :
  ms !! i = Some p → <[i := p]> (fill seen) = fill (i :: seen).
Proof.
  intros Hp. apply list_eq. intros j. rewrite !fill_lookup. destruct (decide (j = i)) as [->|Hne].
  - rewrite list_lookup_insert_eq by (rewrite length_fill; by apply lookup_lt_Some in Hp).
    rewrite Hp. simpl. by rewrite decide_True by (by left).
  - rewrite list_lookup_insert_ne, fill_lookup by done.
    destruct (ms !! j); [|done]. simpl. f_equal.
    destruct (decide (j ∈ seen)); [by rewrite decide_True by (by right)|].
    rewrite decide_False; [done|]. rewrite elem_of_cons. tauto.
Qed.

Lemma fill_empty : resize (length ms) default_packet [] = fill [].
Proof.
  apply list_eq. intros i. rewrite fill_lookup, resize_nil.
  destruct (decide (i < length ms)%nat).
  - rewrite lookup_replicate_2 by done. destruct (lookup_lt_is_Some_2 ms i) as [p ->]; [done|].
    cbn [fmap option_fmap option_map]. by rewrite decide_False by apply not_elem_of_nil.
  - rewrite !lookup_ge_None_2; [done|lia|rewrite length_replicate; lia].
Qed.

Lemma covered_true seen : covered seen = true ↔ ∀ i, (i < length ms)%nat → i ∈ seen.
Proof.
  unfold covered. rewrite forallb_forall. split.
  - intros H i Hi. apply (bool_decide_eq_true_1 (i ∈ seen)), H, in_seq. lia.
  - intros H i [_ Hi]%in_seq. apply bool_decide_eq_true_2, H. done.
Qed.

Lemma fill_covered seen : covered seen = true → fill seen = ms.
Proof.
  intros Hc. rewrite covered_true in Hc. apply list_eq. intros i. rewrite fill_lookup.
  destruct (ms !! i) eqn:E; [|done]. simpl. rewrite decide_True; [done|].
  apply Hc. by apply lookup_lt_Some in E.
Qed.

Lemma fill_pending seen :
  existsb (λ p, total_pieces p =? 0) (fill seen) = negb (covered seen).
Proof.
  pose proof (proj2 ms_concat) as Hne. destruct (covered seen) eqn:Ec; simpl.
  - rewrite fill_covered by done. apply not_true_is_false. intros (p & Hin & Hp)%existsb_exists.
    apply Z.eqb_eq in Hp. apply list_elem_of_In, list_elem_of_lookup in Hin as [i Hi].
    rewrite (ms_piece i p Hi) in Hp. simpl in Hp. destruct ms; [done|]. by unfold len in Hp.
  - apply existsb_exists. exists default_packet. split; [|done].
    apply list_elem_of_In. apply not_true_iff_false in Ec. rewrite covered_true in Ec.
    assert (Exists (λ i, i ∉ seen) (seq 0 (length ms))) as Hex.
    { apply not_Forall_Exists; [intros; apply _|]. intros Hall. apply Ec. intros i Hi.
      rewrite Forall_forall in Hall. apply Hall, elem_of_seq. lia. }
    apply Exists_exists in Hex as (i & Hi%elem_of_seq & Hs).
    apply list_elem_of_lookup. exists i. rewrite fill_lookup.
    destruct (lookup_lt_is_Some_2 ms i) as [p ->]; [lia|]. simpl. by rewrite decide_False.
Qed.

Lemma merge_fill f seen now :
  Ok (PacketMerger.try_merge_pieces (PacketMerger.mk (Some f) (fill seen) now)) = verdict seen.
Proof.
  unfold PacketMerger.try_merge_pieces, verdict. cbn [PacketMerger.first_piece PacketMerger.pieces].
  rewrite fill_pending. destruct ms_concat as [Hcat Hne].
  destruct (covered seen) eqn:Ec; simpl.
  - rewrite fill_covered by done. pose proof (ms_piece 0) as Hp0. rewrite Hcat.
    generalize (len ms) Hp0 Hne. generalize ms. intros [|p0 rest] n H0 Hnil; [done|].
    rewrite (H0 p0) by done. done.
  - by destruct (fill seen).
Qed.

(** The merger holds the pieces [seen] of this message, or nothing of it. *)
Definition receiving m (seen : list nat) : Prop :=
  (∀ f, PacketMerger.first_piece m = Some f → seen ≠ [] →
    transaction_id f = a_transaction_id args ∧ from_peer f = a_from_peer args) ∧
  (if decide (seen = [])
   then ∀ i p, ms !! i = Some p → PacketMerger.starts_new m p = true
   else is_Some (PacketMerger.first_piece m) ∧ PacketMerger.pieces m = fill seen).

Lemma feed_receiving m seen i p now :
  receiving m seen → ms !! i = Some p →
  ∃ m', PacketMerger.feed m p now = (m', verdict (i :: seen)) ∧ receiving m' (i :: seen).
Proof.
  intros [Hid Hst] Hp. pose proof (ms_piece i p Hp) as Hpi.
  assert (Hi : (i < length ms)%nat) by (by apply lookup_lt_Some in Hp).
  assert (Htot : total_pieces p = len ms) by (by rewrite Hpi).
  assert (Hidx : piece_idx p = Z.of_nat i) by (by rewrite Hpi).
  assert (Htid : transaction_id p = a_transaction_id args) by (by rewrite Hpi).
  assert (Hfrom : from_peer p = a_from_peer args) by (by rewrite Hpi).
  assert (Hdesc : i = 0%nat → descriptor p = Some (a_rpc_desc args)).
  { intros ->. rewrite Hpi. done. }
  unfold PacketMerger.feed. rewrite Htot, Hidx. unfold len in *.
  destruct (Z.eqb_spec (Z.of_nat (length ms)) 0) as [|_]; [lia|]. cbn [andb].
  assert (((Z.of_nat i =? 0) && negb (bool_decide (is_Some (descriptor p)))) = false) as ->.
  { destruct i as [|i]; [|done]. rewrite Hdesc by done. done. }
  destruct (Z.ltb_spec (32 * 1024) (Z.of_nat (length ms))) as [|_]; [lia|]. cbn [orb].
  destruct (Z.leb_spec (Z.of_nat (length ms)) (Z.of_nat i)) as [|_]; [lia|]. rewrite !Nat2Z.id.
  assert (Hgoal : ∀ f base, resize (length ms) default_packet base = fill seen →
    transaction_id f = a_transaction_id args → from_peer f = a_from_peer args →
    let m' := PacketMerger.mk (Some f) (<[i := p]> (resize (length ms) default_packet base)) now in
    ∃ m'', (m', Ok (PacketMerger.try_merge_pieces m')) = (m'', verdict (i :: seen)) ∧
      receiving m'' (i :: seen)).
  { intros f base Hb Hf1 Hf2. rewrite Hb, (fill_insert seen i p Hp). eexists.
    rewrite merge_fill. split; [done|]. split; [by intros ? [= <-]|]. simpl. eauto. }
  destruct (decide (seen = [])) as [->|Hne].
  - rewrite (Hst i p Hp). apply Hgoal; [apply fill_empty|done|done].
  - destruct Hst as [[f Hf] Hpieces]. destruct (Hid f Hf Hne) as [H1 H2].
    unfold PacketMerger.starts_new. rewrite Hf, H1, H2, Htid, Hfrom, !Z.eqb_refl. cbn [negb orb].
    apply Hgoal; [|done|done]. rewrite Hpieces. apply resize_all_alt. by rewrite length_fill.
Qed.

(** Feeding a sequence of pieces, with the clock of each. *)
Fixpoint feeds m (l : list (RpcPacket * Z)) : list (result (option RpcPacket) RpcError) :=
  match l with
  | [] => []
  | (p, now) :: r => let '(m', res) := PacketMerger.feed m p now in res :: feeds m' r
  end.

(** The arrivals: the index of the piece and the clock. *)
Definition arrivals (order : list (nat * Z)) : list (RpcPacket * Z) :=
  map (λ a, (ms !!! a.1, a.2)) order.

Lemma feeds_receiving m seen order k r :
  receiving m seen → Forall (λ a, (a.1 < length ms)%nat) order →
  feeds m (arrivals order) !! k = Some r →
  r = verdict (reverse (map fst (take (S k) order)) ++ seen).
Proof.
  revert m seen k. induction order as [|[i now] order IH]; intros m seen k Hm Hall; [done|].
  inversion Hall as [|? ? Hi Hrest]; subst. cbn [arrivals map feeds fst snd] in *.
  destruct (lookup_lt_is_Some_2 ms i Hi) as [p Hp].
  rewrite (list_lookup_total_correct _ _ _ Hp).
  destruct (feed_receiving m seen i p now Hm Hp) as (m' & -> & Hm').
  destruct k as [|k]; cbn [lookup list_lookup].
  - by intros [= <-].
  - intros Hr. rewrite (IH m' (i :: seen) k Hm' Hrest Hr). cbn [take map fst].
    by rewrite reverse_cons, <- app_assoc.
Qed.

Lemma covered_perm s1 s2 : (∀ i, i ∈ s1 ↔ i ∈ s2) → verdict s1 = verdict s2.
Proof.
  intros H. unfold verdict. replace (covered s1) with (covered s2); [done|].
  apply eq_true_iff_eq. rewrite !covered_true. by setoid_rewrite H.
Qed.

End MergeFacts.


(** * The packets *)

(** [build_rpc_packet] never panics, and its packets carry the messages: the
    payload of each packet is the encoding of the corresponding message and its
    header has the peers, the request or response type, and the payload length. *)
Theorem build_rpc_packet_ok encode encoded_len length_delimiter_len u args :
  len (a_content args) < 2 ^ 32 → is_uint 32 (a_from_peer args) → is_uint 32 (a_to_peer args) →
  ∃ ms zs, rpc_messages encoded_len length_delimiter_len args = Some ms ∧
    build_rpc_packet encode encoded_len length_delimiter_len u args = Some zs ∧
    Forall2 (λ m z, ZCPacket.payload z = Some (encode m) ∧
      ZCPacket.peer_manager_header z = Some (PeerManagerHeader.mk (a_from_peer args) (a_to_peer args)
        (packet_type_u8 (if a_is_req args then RpcReq else RpcResp)) 0 1 0
        (wrap 32 (len (encode m))))) ms zs.
Proof.
  intros Hn Hf Ht. destruct (rpc_messages_spec encoded_len length_delimiter_len args Hn) as (ms & E & _).
  unfold build_rpc_packet. rewrite E. cbn [mbind option_bind]. exists ms. clear E.
  assert (Hone : ∀ m, ∃ z, message_packet encode u args m = Some z ∧ ZCPacket.payload z = Some (encode m) ∧
    ZCPacket.peer_manager_header z = Some (PeerManagerHeader.mk (a_from_peer args) (a_to_peer args)
      (packet_type_u8 (if a_is_req args then RpcReq else RpcResp)) 0 1 0 (wrap 32 (len (encode m))))).
  { intros m. unfold message_packet.
    destruct (PacketFacts.new_with_payload_layout u (encode m)) as (a & b & Ha & Hb & ->). cbn [mbind option_bind].
    rewrite (PacketFacts.fill_pm_header_spec _ _ _ _ a b (encode m)) by done.
    assert (wrap 32 (ZCPacket.payload_len (ZCPacket.mk (a ++ b ++ encode m) NIC None)) =
      wrap 32 (len (encode m))) as ->.
    { unfold ZCPacket.payload_len, ZCPacket.payload_offset; cbn [ZCPacket.packet_type ZCPacket.inner].
      change (payload_offset_of (get_packet_offsets NIC)) with 36. rewrite !len_app, Ha, Hb.
      change PEER_MANAGER_HEADER_SIZE with 16.
      replace (20 + (16 + len (encode m)) - 36) with (len (encode m)) by lia.
      unfold wrap. rewrite <- Znumtheory.Zmod_div_mod; [done..|]. by exists (2 ^ 32). }
    eexists. split; [done|].
    unfold ZCPacket.payload, ZCPacket.peer_manager_header, ZCPacket.bytes_from_offset, ZCPacket.payload_offset.
    cbn [ZCPacket.packet_type ZCPacket.inner ZCPacket.with_inner].
    change (peer_manager_header_offset (get_packet_offsets NIC)) with 20.
    change (payload_offset_of (get_packet_offsets NIC)) with 36. split.
    - rewrite app_assoc, slice_from_app; [done|]. rewrite len_app, Ha, PacketFacts.pm_header_len. done.
    - rewrite slice_from_app by done. cbn [mbind option_bind]. apply PacketFacts.pm_header_roundtrip.
      unfold is_byte. refine (conj Hf (conj Ht (conj _ (conj _ (conj _ (conj _ _))))));
        [by destruct (a_is_req args)|by split..|].
      cbn [PeerManagerHeader.hdr_len]. apply Z.mod_pos_bound. lia. }
  induction ms as [|m ms (zs & _ & IH2 & IH3)]; [by exists []|].
  destruct (Hone m) as (z & Hz & Hz'). exists (z :: zs). split; [done|].
  cbn [mapM]. rewrite Hz. cbn [mbind option_bind]. rewrite IH2. split; [done|]. by constructor.
Qed.

(** ** Witnesses *)

(** An encoding with 1230 bytes of metadata. *)
Definition toy_varint_len (n : Z) : Z := if n <? 128 then 1 else if n <? 16384 then 2 else 5.

Definition toy_encode (p : RpcPacket) : list Z :=
  replicate 1230 0 ++
  (if len (body p) =? 0 then []
   else 42 :: replicate (Z.to_nat (toy_varint_len (len (body p)))) 0 ++ body p).

Definition toy_encoded_len (p : RpcPacket) : Z := len (toy_encode p).

Lemma toy_prost_ok : prost_ok toy_encode toy_encoded_len toy_varint_len.
Proof.
  assert (Hl : ∀ p, toy_encoded_len p = 1230 +
    (if len (body p) =? 0 then 0 else 1 + toy_varint_len (len (body p)) + len (body p))).
  { intros p. unfold toy_encoded_len, toy_encode. rewrite len_app.
    change (len (replicate 1230 0)) with 1230. f_equal. destruct (len (body p) =? 0); [done|].
    unfold len. cbn [length]. rewrite length_app, length_replicate.
    assert (0 <= toy_varint_len (Z.of_nat (length (body p)))) by (unfold toy_varint_len; repeat case_match; lia).
    lia. }
  split.
  - done.
  - intros p. rewrite !Hl. simpl. lia.
  - intros p t i _ _. rewrite !Hl. simpl. lia.
  - intros a b Hab. unfold toy_varint_len.
    destruct (Z.ltb_spec a 128), (Z.ltb_spec a 16384), (Z.ltb_spec b 128), (Z.ltb_spec b 16384); lia.
  - done.
Qed.

Definition demo_args : BuildRpcPacketArgs :=
  mkArgs 1 2 (mkDescriptor "d" "p" "s" 3) 77 true (map Z.of_nat (seq 0 40)) 0 (mkCompressionInfo 2 2).

Lemma rpc_messages_partition_witness :
  ∃ ms, rpc_messages toy_encoded_len toy_varint_len demo_args = Some ms ∧ length ms = 3%nat ∧
    concat (map body ms) = a_content demo_args.
Proof.
  destruct (rpc_messages_partition toy_encoded_len toy_varint_len demo_args eq_refl)
    as (ms & H1 & _ & H2 & _).
  exists ms. split; [exact H1|]. split; [|exact H2].
  assert (length <$> rpc_messages toy_encoded_len toy_varint_len demo_args = Some 3%nat) as E
    by (vm_compute; reflexivity).
  rewrite H1 in E. by injection E.
Defined.

Lemma pieces_fit_budget_witness :
  ∃ ms, rpc_messages toy_encoded_len toy_varint_len demo_args = Some ms ∧
    Forall (λ m, len (toy_encode m) + udp_rpc_tunnel_overhead <= RPC_PACKET_UDP_PAYLOAD_BUDGET) ms.
Proof.
  destruct (rpc_messages toy_encoded_len toy_varint_len demo_args) as [ms|] eqn:E;
    [|vm_compute in E; discriminate].
  exists ms. split; [reflexivity|].
  apply (pieces_fit_budget toy_encode toy_encoded_len toy_varint_len demo_args ms);
    [apply toy_prost_ok|vm_compute; reflexivity|split; vm_compute; congruence|exact E].
Defined.


Lemma build_rpc_packet_ok_witness :
  ∃ ms zs, rpc_messages toy_encoded_len toy_varint_len demo_args = Some ms ∧
    build_rpc_packet toy_encode toy_encoded_len toy_varint_len [] demo_args = Some zs ∧
    Forall2 (λ m z, ZCPacket.payload z = Some (toy_encode m)) ms zs.
Proof.
  destruct (build_rpc_packet_ok toy_encode toy_encoded_len toy_varint_len [] demo_args)
    as (ms & zs & H1 & H2 & H3); [vm_compute; reflexivity|split; vm_compute; congruence..|].
  exists ms, zs. split; [exact H1|]. split; [exact H2|].
  eapply Forall2_impl; [exact H3|]. by intros m z [? _].
Defined.
