(* ===== verification/IpParse.v ===== *)
(** * IP and transport header parsing

    Models easytier-core/src/packet/ip.rs and packet/flow.rs: the IPv4 and IPv6
    parsers shared by the packet consumers, the walk over IPv6 extension headers, the
    transport ports and the flow key.  The outer option of a parser is a panic (an
    index or slice out of range) or a loop that runs out of fuel, the inner one the
    returned [Option].  The theorems show that neither ever happens, on any input,
    and that the parsers read back what well-formed packets say. *)

From stdpp Require Import base list numbers.
From Stdlib Require Import ZArith Lia.
From S2P Require Import Prelude Packet.
Local Open Scope Z_scope.

Definition IP_PROTO_ICMP : Z := 1.
Definition IP_PROTO_TCP : Z := 6.
Definition IP_PROTO_UDP : Z := 17.
Definition IP_PROTO_ICMPV6 : Z := 58.
Definition IP_PROTO_UNSPECIFIED : Z := 255.
Definition IPV6_HOP_BY_HOP : Z := 0.
Definition IPV6_ROUTING : Z := 43.
Definition IPV6_FRAGMENT : Z := 44.
Definition IPV6_AUTHENTICATION : Z := 51.
Definition IPV6_DESTINATION_OPTIONS : Z := 60.

Record ParsedIpPacket : Type := mkParsed {
  src_ip : IpAddr;
  dst_ip : IpAddr;
  protocol : Z;
  transport_payload : list Z;
  is_non_initial_fragment : bool;
  is_fragment : bool;
  has_valid_length : bool
}.

(** [u16::from_be_bytes([l[i], l[i + 1]])]. *)
Definition be16_at (l : list Z) (i : Z) : option Z :=
  a ← index l i; b ← index l (i + 1); Some (from_be [a; b]).

Definition parse_transport_ports (proto : Z) (payload : list Z)
    : option (option (option Z * option Z)) :=
  let ports (min_len : Z) :=
    if len payload <? min_len then Some None
    else
      src ← be16_at payload 0;
      dst ← be16_at payload 2;
      Some (Some (Some src, Some dst)) in
  if proto =? IP_PROTO_TCP then ports 20
  else if proto =? IP_PROTO_UDP then ports 8
  else Some (Some (None, None)).

Definition parse_ipv4_packet (payload : list Z) : option (option ParsedIpPacket) :=
  if len payload <? 20 then Some None
  else
    b0 ← index payload 0;
    let header_len := Z.land b0 15 * 4 in
    let options_len := saturating_sub header_len 20 in
    let payload_offset := 20 + options_len in
    let payload_start := Z.min payload_offset (len payload) in
    total_length ← be16_at payload 2;
    let payload_len := saturating_sub total_length header_len in
    let payload_end := Z.min (payload_start + payload_len) (len payload) in
    src ← slice_range payload 12 16;
    dst ← slice_range payload 16 20;
    proto ← index payload 9;
    frag ← be16_at payload 6;
    match slice_range payload payload_start payload_end with
    | None => Some None
    | Some tp =>
        Some (Some (mkParsed (IpV4 (from_be src)) (IpV4 (from_be dst)) proto tp
          (negb (Z.land frag 8191 =? 0)) (negb (Z.land frag 16383 =? 0))
          ((20 <=? header_len) && (header_len <=? total_length) && (total_length <=? len payload))))
    end.

(** How the walk over the extension headers ends. *)
Inductive WalkExit : Type :=
| ReturnParsed
| Break (proto offset : Z) (non_initial fragment : bool).

(** An extension header whose length byte counts units of [unit], plus [extra]. *)
Definition extension_step (payload : list Z) (payload_end offset unit extra : Z)
    : option (option (Z * Z)) :=
  header ← slice_range payload offset payload_end;
  match index header 1 with
  | None => Some None
  | Some header_len =>
      let extension_len := (header_len + extra) * unit in
      next_protocol ← index header 0;
      let extension_end := offset + extension_len in
      if payload_end <? extension_end then Some None
      else Some (Some (next_protocol, extension_end))
  end.

(** The loop; every pass moves the offset by at least eight bytes. *)
Fixpoint walk_extensions (fuel : nat) (payload : list Z) (payload_end proto offset : Z)
    (non_initial fragment saw_fragment : bool) : option WalkExit :=
  match fuel with
  | O => None
  | S fuel' =>
      if (proto =? IPV6_HOP_BY_HOP) || (proto =? IPV6_ROUTING) ||
         (proto =? IPV6_DESTINATION_OPTIONS) then
        r ← extension_step payload payload_end offset 8 1;
        match r with
        | None => Some ReturnParsed
        | Some (p, o) => walk_extensions fuel' payload payload_end p o non_initial fragment saw_fragment
        end
      else if proto =? IPV6_AUTHENTICATION then
        r ← extension_step payload payload_end offset 4 2;
        match r with
        | None => Some ReturnParsed
        | Some (p, o) => walk_extensions fuel' payload payload_end p o non_initial fragment saw_fragment
        end
      else if proto =? IPV6_FRAGMENT then
        if saw_fragment then Some ReturnParsed
        else
          let fragment_end := offset + 8 in
          if payload_end <? fragment_end then Some ReturnParsed
          else
            header ← slice_range payload offset fragment_end;
            field ← be16_at header 2;
            let non_initial := negb (Z.land field 65528 =? 0) in
            let fragment := negb (Z.land field 65529 =? 0) in
            next_protocol ← index header 0;
            if non_initial then
              Some (Break (if negb (next_protocol =? IP_PROTO_ICMPV6) then IP_PROTO_UNSPECIFIED
                           else next_protocol) fragment_end non_initial fragment)
            else walk_extensions fuel' payload payload_end next_protocol fragment_end
                   non_initial fragment true
      else Some (Break proto offset non_initial fragment)
  end.

Definition parse_ipv6_packet (payload : list Z) : option (option ParsedIpPacket) :=
  if len payload <? 40 then Some None
  else
    payload_len ← be16_at payload 4;
    src ← slice_range payload 8 24;
    dst ← slice_range payload 24 40;
    let parsed := mkParsed (IpV6 (from_be src)) (IpV6 (from_be dst)) IP_PROTO_UNSPECIFIED []
                    false false (40 + payload_len <=? len payload) in
    let payload_end := Z.min (40 + payload_len) (len payload) in
    proto ← index payload 6;
    exit ← walk_extensions (S (length payload)) payload payload_end proto 40 false false false;
    match exit with
    | ReturnParsed => Some (Some parsed)
    | Break proto offset non_initial fragment =>
        tp ← slice_range payload offset payload_end;
        ports ← parse_transport_ports proto tp;
        if negb (offset =? 40) && bool_decide (ports = None) then Some (Some parsed)
        else Some (Some (mkParsed (src_ip parsed) (dst_ip parsed) proto tp non_initial fragment
                           (has_valid_length parsed)))
    end.

Definition parse_ip_packet (payload : list Z) : option (option ParsedIpPacket) :=
  match payload with
  | [] => Some None
  | b :: _ =>
      let version := Z.shiftr b 4 in
      if version =? 4 then parse_ipv4_packet payload
      else if version =? 6 then parse_ipv6_packet payload
      else Some None
  end.

(** ** Flow keys *)

Definition flow_key_of (payload : list Z) : option (option FlowKey) :=
  r ← parse_ip_packet payload;
  match r with
  | None => Some None
  | Some parsed =>
      if is_fragment parsed || negb (has_valid_length parsed) then Some None
      else
        ports ← parse_transport_ports (protocol parsed) (transport_payload parsed);
        Some (match ports with
              | Some (Some sp, Some dp) =>
                  Some (mkFlowKey (mkSocketAddr (src_ip parsed) sp) (mkSocketAddr (dst_ip parsed) dp)
                          (protocol parsed))
              | _ => None
              end)
  end.

Definition parse_flow_key (packet : ZCPacket.t) : option (option FlowKey) :=
  payload ← ZCPacket.payload packet; flow_key_of payload.

(** * Properties *)

Lemma be16_at_Some l i :
  is_bytes l → 0 <= i → i + 1 < len l → ∃ x, be16_at l i = Some x ∧ is_uint 16 x.
Proof.
  intros Hl Hi Hlen. unfold be16_at.
  destruct (index_Some l i) as (a & -> & Ha); [lia|].
  destruct (index_Some l (i + 1)) as (b & -> & Hb); [lia|]. cbn [mbind option_bind].
  eexists. split; [done|]. unfold is_bytes in Hl. rewrite Forall_forall in Hl.
  apply Hl in Ha, Hb. unfold is_uint, is_byte, from_be in *. cbn. lia.
Qed.

Lemma transport_ports_total proto l :
  is_bytes l → ∃ r, parse_transport_ports proto l = Some r.
Proof.
  intros Hl. unfold parse_transport_ports.
  assert (Hp : ∀ n, 8 <= n → ∃ r, (if len l <? n then Some None
    else src ← be16_at l 0; dst ← be16_at l 2; Some (Some (Some src, Some dst))) = Some r).
  { intros n Hn. destruct (Z.ltb_spec (len l) n); [by eexists|].
    destruct (be16_at_Some l 0 Hl) as (a & -> & _); [lia..|].
    destruct (be16_at_Some l 2 Hl) as (b & -> & _); [lia..|]. by eexists. }
  destruct (proto =? IP_PROTO_TCP); [apply Hp; lia|].
  destruct (proto =? IP_PROTO_UDP); [apply Hp; lia|by eexists].
Qed.

Lemma slice_bytes l a b m : is_bytes l → slice_range l a b = Some m → is_bytes m.
Proof.
  intros Hl. unfold slice_range. destruct (_ && _); [|done]. intros [= <-].
  by apply Forall_take, Forall_drop.
Qed.

Lemma index_byte l i x : is_bytes l → index l i = Some x → is_byte x.
Proof. intros Hl [_ Hx]%index_lt. unfold is_bytes in Hl. rewrite Forall_forall in Hl. by apply Hl. Qed.

Lemma extension_step_total l pe o unit extra :
  is_bytes l → 0 <= o <= pe → pe <= len l → 1 <= unit → 8 <= extra * unit →
  ∃ r, extension_step l pe o unit extra = Some r ∧
    ∀ p o', r = Some (p, o') → o + 8 <= o' <= pe.
Proof.
  intros Hl Ho Hpe Hu Hx. unfold extension_step.
  destruct (slice_range_Some l o pe) as (_ & h & _ & _ & _ & Hlen & Eh); [lia..|].
  rewrite Eh. cbn [mbind option_bind]. pose proof (slice_bytes _ _ _ _ Hl Eh) as Hh.
  destruct (index h 1) as [hl|] eqn:E1; [|by eexists].
  pose proof (index_byte _ _ _ Hh E1) as Hb. unfold is_byte in Hb. apply index_lt in E1 as [E1 _].
  destruct (index_Some h 0) as (np & -> & _); [lia|]. cbn [mbind option_bind].
  destruct (Z.ltb_spec pe (o + (hl + extra) * unit)); eexists; (split; [done|]); [done|].
  intros p o' [= _ <-]. nia.
Qed.

(** The walk ends within the payload, whatever the bytes. *)
Lemma walk_total fuel l pe proto o ni fr saw :
  is_bytes l → 0 <= o <= pe → pe <= len l → pe - o < Z.of_nat fuel →
  ∃ e, walk_extensions fuel l pe proto o ni fr saw = Some e ∧
    match e with Break _ o' _ _ => o <= o' <= pe | ReturnParsed => True end.
Proof.
  intros Hl. revert proto o ni fr saw.
  induction fuel as [|fuel IH]; intros proto o ni fr saw Ho Hpe Hf; [lia|]. cbn [walk_extensions].
  assert (Hstep : ∀ unit extra, 1 <= unit → 8 <= extra * unit → ∃ e,
    (r ← extension_step l pe o unit extra;
     match r with
     | None => Some ReturnParsed
     | Some (p, o') => walk_extensions fuel l pe p o' ni fr saw
     end) = Some e ∧ match e with Break _ o' _ _ => o <= o' <= pe | ReturnParsed => True end).
  { intros unit extra Hu Hx. destruct (extension_step_total l pe o unit extra) as (r & -> & Hr); [done..|].
    cbn [mbind option_bind]. destruct r as [[p o']|]; [|by eexists].
    specialize (Hr p o' eq_refl). destruct (IH p o' ni fr saw) as (e & -> & He); [lia..|].
    eexists. split; [done|]. destruct e; [done|lia]. }
  destruct (_ || _); [apply Hstep; lia|]. destruct (proto =? IPV6_AUTHENTICATION); [apply Hstep; lia|].
  destruct (proto =? IPV6_FRAGMENT); [|eexists; split; [done|]; simpl; lia].
  destruct saw; [by eexists|]. destruct (Z.ltb_spec pe (o + 8)); [by eexists|].
  destruct (slice_range_Some l o (o + 8)) as (_ & h & _ & _ & _ & Hlen & Eh); [lia..|].
  rewrite Eh. cbn [mbind option_bind]. pose proof (slice_bytes _ _ _ _ Hl Eh) as Hh.
  destruct (be16_at_Some h 2 Hh) as (f & -> & _); [lia..|]. cbn [mbind option_bind].
  destruct (index_Some h 0) as (np & -> & _); [lia|]. cbn [mbind option_bind].
  destruct (negb (Z.land f 65528 =? 0)); [eexists; split; [done|]; simpl; lia|].
  match goal with |- context [walk_extensions fuel l pe np (o + 8) ?a ?b ?c] =>
    destruct (IH np (o + 8) a b c) as (e & -> & He) end; [lia..|].
  eexists. split; [done|]. destruct e; [done|lia].
Qed.

Lemma parse_ip_part payload :
  is_bytes payload →
  ∃ r, parse_ip_packet payload = Some r ∧
    ∀ p, r = Some p → ∃ a b, payload = a ++ transport_payload p ++ b.
Proof.
  intros Hl. destruct payload as [|b0 rest]; [by eexists|]. unfold parse_ip_packet.
  set (l := b0 :: rest) in *.
  destruct (Z.shiftr b0 4 =? 4); [|destruct (Z.shiftr b0 4 =? 6); [|by eexists]].
  - unfold parse_ipv4_packet. destruct (Z.ltb_spec (len l) 20); [by eexists|].
    destruct (index_Some l 0) as (x & Hx & _); [lia|]. rewrite Hx. cbn [mbind option_bind].
    destruct (be16_at_Some l 2 Hl) as (tl & -> & Htl); [lia..|]. cbn [mbind option_bind].
    destruct (slice_range_Some l 12 16) as (_ & src & _ & _ & _ & _ & ->); [lia..|].
    destruct (slice_range_Some l 16 20) as (_ & dst & _ & _ & _ & _ & ->); [lia..|].
    destruct (index_Some l 9) as (pr & -> & _); [lia|].
    destruct (be16_at_Some l 6 Hl) as (f & -> & _); [lia..|]. cbn [mbind option_bind].
    match goal with |- context [slice_range l ?a ?b] => destruct (slice_range l a b) as [tp|] eqn:E end;
      [|by eexists].
    eexists. split; [done|]. intros p [= <-]. unfold slice_range in E.
    destruct (_ && _); [|done]. injection E as <-. cbn [transport_payload].
    eexists _, _. by rewrite take_drop, take_drop.
  - unfold parse_ipv6_packet. destruct (Z.ltb_spec (len l) 40); [by eexists|].
    destruct (be16_at_Some l 4 Hl) as (pl & -> & Hpl); [lia..|]. cbn [mbind option_bind].
    destruct (slice_range_Some l 8 24) as (_ & src & _ & _ & _ & _ & ->); [lia..|].
    destruct (slice_range_Some l 24 40) as (_ & dst & _ & _ & _ & _ & ->); [lia..|].
    destruct (index_Some l 6) as (pr & -> & _); [lia|]. cbn [mbind option_bind].
    set (pe := Z.min (40 + pl) (len l)).
    assert (Hpe : 40 <= pe <= len l) by (unfold pe, is_uint in *; lia).
    destruct (walk_total (S (length l)) l pe pr 40 false false false) as (e & -> & He);
      [done|lia|lia|unfold len in *; lia|]. cbn [mbind option_bind].
    assert (Hnil : ∀ p, transport_payload p = [] → ∃ a b, l = a ++ transport_payload p ++ b).
    { intros p ->. by exists [], l. }
    destruct e as [|proto o ni fr]; [eexists; split; [done|]; intros p [= <-]; by apply Hnil|].
    destruct (slice_range_Some l o pe) as (a & tp & b & El & _ & _ & Etp); [lia..|].
    rewrite Etp. cbn [mbind option_bind].
    destruct (transport_ports_total proto tp) as (r & ->); [by eapply slice_bytes|]. cbn [mbind option_bind].
    destruct (negb (o =? 40) && _); (eexists; split; [done|]; intros p [= <-]); [by apply Hnil|].
    exists a, b. exact El.
Qed.

(** C38: the IP parser is total: on every byte string, of any length and content, no
    index or slice of it is out of range and the walk over the IPv6 extension headers
    ends; the transport payload it returns is a part of the input. *)
Theorem parse_ip_total payload :
  is_bytes payload →
  ∃ r, parse_ip_packet payload = Some r ∧
    ∀ p, r = Some p → ∃ a b, payload = a ++ transport_payload p ++ b.
Proof. apply parse_ip_part. Qed.

(** ** Well-formed packets *)

(** An IPv6 extension header other than a fragment header. *)
Record Extension : Type := mkExtension { ext_kind : Z; ext_len : Z; ext_body : list Z }.

(** The bytes that a length byte announces. *)
Definition extension_size (e : Extension) : Z :=
  if ext_kind e =? IPV6_AUTHENTICATION then (ext_len e + 2) * 4 else (ext_len e + 1) * 8.

Definition extension_ok (e : Extension) : Prop :=
  (ext_kind e = IPV6_HOP_BY_HOP ∨ ext_kind e = IPV6_ROUTING ∨
   ext_kind e = IPV6_DESTINATION_OPTIONS ∨ ext_kind e = IPV6_AUTHENTICATION) ∧
  0 <= ext_len e ∧ 2 + len (ext_body e) = extension_size e.

Definition first_protocol (exts : list Extension) (upper : Z) : Z :=
  match exts with [] => upper | e :: _ => ext_kind e end.

(** A chain of extension headers: each names the protocol of the next. *)
Fixpoint extension_bytes (exts : list Extension) (upper : Z) : list Z :=
  match exts with
  | [] => []
  | e :: r => first_protocol r upper :: ext_len e :: ext_body e ++ extension_bytes r upper
  end.

Lemma extension_step_at pre np hl bd rest post unit extra :
  2 + len bd = (hl + extra) * unit →
  extension_step (pre ++ (np :: hl :: bd ++ rest) ++ post) (len pre + len (np :: hl :: bd ++ rest))
    (len pre) unit extra = Some (Some (np, len pre + (2 + len bd))).
Proof.
  intros Hsz. unfold extension_step. rewrite (slice_range_app pre) by done. cbn [mbind option_bind].
  change (index (np :: hl :: bd ++ rest) 1) with (Some hl).
  change (index (np :: hl :: bd ++ rest) 0) with (Some np). cbn [mbind option_bind].
  rewrite <- Hsz, !len_cons, len_app. pose proof (len_nonneg rest).
  destruct (Z.ltb_spec (len pre + (1 + (1 + (len bd + len rest)))) (len pre + (2 + len bd))); [lia|done].
Qed.

(** The protocols that end the walk. *)
Definition is_upper (p : Z) : Prop :=
  p ≠ IPV6_HOP_BY_HOP ∧ p ≠ IPV6_ROUTING ∧ p ≠ IPV6_DESTINATION_OPTIONS ∧
  p ≠ IPV6_AUTHENTICATION ∧ p ≠ IPV6_FRAGMENT.

Lemma walk_chain fuel pre exts upper tp post ni fr saw :
  Forall extension_ok exts → is_upper upper → (length exts < fuel)%nat →
  walk_extensions fuel (pre ++ (extension_bytes exts upper ++ tp) ++ post)
    (len pre + len (extension_bytes exts upper ++ tp)) (first_protocol exts upper) (len pre) ni fr saw =
    Some (Break upper (len pre + len (extension_bytes exts upper)) ni fr).
Proof.
  intros Hok Hup. revert fuel pre. induction Hok as [|e exts He _ IH]; intros fuel pre Hf;
    (destruct fuel as [|fuel]; [simpl in Hf; lia|]); cbn [walk_extensions extension_bytes first_protocol].
  - destruct Hup as (H1 & H2 & H3 & H4 & H5). apply Z.eqb_neq in H1, H2, H3, H4, H5.
    rewrite H1, H2, H3, H4, H5. cbn [orb]. by rewrite Z.add_0_r.
  - set (np := first_protocol exts upper). destruct He as (Hkind & Hlen & Hsz).
    assert (Heq : (np :: ext_len e :: ext_body e ++ extension_bytes exts upper) ++ tp =
      np :: ext_len e :: ext_body e ++ extension_bytes exts upper ++ tp)
      by (cbn [app]; by rewrite <- app_assoc).
    rewrite Heq. assert (Hgo : walk_extensions fuel
      (pre ++ (np :: ext_len e :: ext_body e ++ extension_bytes exts upper ++ tp) ++ post)
      (len pre + len (np :: ext_len e :: ext_body e ++ extension_bytes exts upper ++ tp))
      np (len pre + (2 + len (ext_body e))) ni fr saw =
      Some (Break upper (len pre + len (np :: ext_len e :: ext_body e ++ extension_bytes exts upper)) ni fr)).
    { specialize (IH fuel (pre ++ np :: ext_len e :: ext_body e)). cbn [length] in Hf.
      rewrite len_app, !len_cons in IH. rewrite <- !app_assoc in IH. cbn [app] in IH.
      rewrite !len_cons, !(len_app (ext_body e)). cbn [app].
      rewrite <- !app_assoc.
      replace (len pre + (2 + len (ext_body e))) with (len pre + (1 + (1 + len (ext_body e)))) by lia.
      replace (len pre + (1 + (1 + (len (ext_body e) + len (extension_bytes exts upper ++ tp)))))
        with (len pre + (1 + (1 + len (ext_body e))) + len (extension_bytes exts upper ++ tp)) by lia.
      fold np in IH. rewrite IH by lia. do 2 f_equal. lia. }
    destruct (Z.eqb_spec (ext_kind e) IPV6_AUTHENTICATION) as [Ha|Ha].
    + rewrite Ha. cbn [Z.eqb Pos.eqb orb IPV6_AUTHENTICATION IPV6_HOP_BY_HOP IPV6_ROUTING IPV6_DESTINATION_OPTIONS].
      rewrite extension_step_at; [cbn [mbind option_bind]; exact Hgo|].
      unfold extension_size in Hsz. rewrite Ha in Hsz. exact Hsz.
    + assert (((ext_kind e =? IPV6_HOP_BY_HOP) || (ext_kind e =? IPV6_ROUTING) ||
        (ext_kind e =? IPV6_DESTINATION_OPTIONS)) = true) as ->.
      { by destruct Hkind as [E|[E|[E|E]]]; [rewrite E..|]. }
      rewrite extension_step_at; [cbn [mbind option_bind]; exact Hgo|].
      unfold extension_size in Hsz. apply Z.eqb_neq in Ha. by rewrite Ha in Hsz.
Qed.

Definition ipv6_packet (prefix : list Z) (hop : Z) (src dst : list Z) (exts : list Extension)
    (upper : Z) (tp : list Z) : list Z :=
  prefix ++ to_be 2 (len (extension_bytes exts upper ++ tp)) ++ [first_protocol exts upper; hop] ++
  src ++ dst ++ extension_bytes exts upper ++ tp.

(** [prefix] is the version, header length and service byte, [mid] the fields between
    the fragment field and the addresses. *)
Definition ipv4_packet (b0 tos : Z) (ident : list Z) (frag : Z) (ttl proto : Z) (sum src dst options tp : list Z)
    : list Z :=
  [b0; tos] ++ to_be 2 (20 + len options + len tp) ++ ident ++ to_be 2 frag ++ [ttl; proto] ++ sum ++
  src ++ dst ++ options ++ tp.

(** A transport header with ports, long enough for its protocol. *)
Definition transport_ok (proto sp dp : Z) (tp : list Z) : Prop :=
  is_uint 16 sp ∧ is_uint 16 dp ∧ (∃ rest, tp = to_be 2 sp ++ to_be 2 dp ++ rest) ∧
  (proto = IP_PROTO_TCP ∧ 20 <= len tp ∨ proto = IP_PROTO_UDP ∧ 8 <= len tp).

Lemma index_middle {A} (p q : list A) x i : i = len p → index (p ++ x :: q) i = Some x.
Proof.
  intros ->. unfold index, len. destruct (Z.leb_spec 0 (Z.of_nat (length p))); [|lia].
  by apply list_lookup_middle; rewrite Nat2Z.id.
Qed.

Lemma be16_at_to_be p x q i :
  is_uint 16 x → i = len p → be16_at (p ++ to_be 2 x ++ q) i = Some x.
Proof.
  intros Hx ->. pose proof (from_be_to_be 2 x) as Hr. rewrite Z.mod_small in Hr by exact Hx.
  pose proof (length_to_be 2 x) as Hl.
  destruct (to_be 2 x) as [|a [|b [|? ?]]]; try done. unfold be16_at. cbn [app].
  rewrite (index_middle p (b :: q) a (len p)) by done. cbn [mbind option_bind].
  replace (p ++ a :: b :: q) with ((p ++ [a]) ++ b :: q) by (by rewrite <- app_assoc).
  rewrite (index_middle (p ++ [a]) q b) by (by rewrite len_app). cbn [mbind option_bind]. by f_equal.
Qed.

Lemma transport_ports_ok proto sp dp tp :
  transport_ok proto sp dp tp → parse_transport_ports proto tp = Some (Some (Some sp, Some dp)).
Proof.
  intros (Hs & Hd & (rest & ->) & Hp). unfold parse_transport_ports.
  pose proof (be16_at_to_be [] sp (to_be 2 dp ++ rest) 0 Hs eq_refl) as H0.
  pose proof (be16_at_to_be (to_be 2 sp) dp rest 2 Hd eq_refl) as H2.
  destruct Hp as [[-> Hl]|[-> Hl]]; cbn [Z.eqb Pos.eqb IP_PROTO_TCP IP_PROTO_UDP];
    [destruct (Z.ltb_spec (len (to_be 2 sp ++ to_be 2 dp ++ rest)) 20)
    |destruct (Z.ltb_spec (len (to_be 2 sp ++ to_be 2 dp ++ rest)) 8)]; try lia;
    cbn [app] in H0; rewrite H0; cbn [mbind option_bind]; rewrite H2; done.
Qed.

Lemma slice_part {A} (l p m r : list A) a b :
  l = p ++ m ++ r → len p = a → len p + len m = b → slice_range l a b = Some m.
Proof. intros -> Hp Hm. by apply slice_range_app. Qed.

Lemma extension_bytes_fuel exts upper :
  Z.of_nat (length exts) <= len (extension_bytes exts upper).
Proof.
  induction exts as [|e exts IH]; [done|]. cbn [extension_bytes length]. rewrite !len_cons, len_app.
  pose proof (len_nonneg (ext_body e)). lia.
Qed.

Lemma parse_ipv6_ok b0 p1 p2 p3 hop src dst exts upper sp dp tp :
  Z.shiftr b0 4 = 6 → len src = 16 → len dst = 16 → Forall extension_ok exts →
  transport_ok upper sp dp tp → is_uint 16 (len (extension_bytes exts upper ++ tp)) →
  parse_ip_packet (ipv6_packet [b0; p1; p2; p3] hop src dst exts upper tp) =
    Some (Some (mkParsed (IpV6 (from_be src)) (IpV6 (from_be dst)) upper tp false false true)).
Proof.
  intros Hv Hs Hd Hexts Htp HL. unfold parse_ip_packet.
  set (l := ipv6_packet _ _ _ _ _ _ _). set (L := len (extension_bytes exts upper ++ tp)) in *.
  assert (El : l = [b0; p1; p2; p3] ++ to_be 2 L ++ [first_protocol exts upper; hop] ++
    src ++ dst ++ extension_bytes exts upper ++ tp) by done.
  change (match l with [] => Some None | _ :: _ => _ end)
    with (if Z.shiftr b0 4 =? 4 then parse_ipv4_packet l
          else if Z.shiftr b0 4 =? 6 then parse_ipv6_packet l else Some None).
  rewrite Hv. cbn [Z.eqb Pos.eqb]. unfold parse_ipv6_packet.
  set (P := [b0; p1; p2; p3] ++ to_be 2 L ++ [first_protocol exts upper; hop] ++ src ++ dst).
  assert (HP : len P = 40).
  { unfold P. rewrite !len_app, Hs, Hd. done. }
  assert (ElP : l = P ++ (extension_bytes exts upper ++ tp) ++ []).
  { rewrite El. unfold P. by rewrite app_nil_r, <- !app_assoc. }
  assert (Hlen : len l = 40 + L) by (rewrite ElP, len_app, HP, app_nil_r; done).
  unfold is_uint in HL. destruct (Z.ltb_spec (len l) 40); [lia|].
  rewrite (be16_at_to_be [b0; p1; p2; p3] L _ 4 ltac:(exact HL) eq_refl : be16_at l 4 = Some L).
  cbn [mbind option_bind].
  rewrite (slice_part l ([b0; p1; p2; p3] ++ to_be 2 L ++ [first_protocol exts upper; hop]) src
    (dst ++ extension_bytes exts upper ++ tp) 8 24)
    by (rewrite ?len_app, ?Hs; try done; rewrite El; by rewrite <- !app_assoc).
  rewrite (slice_part l ([b0; p1; p2; p3] ++ to_be 2 L ++ [first_protocol exts upper; hop] ++ src) dst
    (extension_bytes exts upper ++ tp) 24 40)
    by (rewrite ?len_app, ?Hs, ?Hd; try done; rewrite El; by rewrite <- !app_assoc).
  assert (index l 6 = Some (first_protocol exts upper)) as ->.
  { rewrite El, app_assoc. by apply index_middle. }
  cbn [mbind option_bind]. rewrite Hlen, Z.min_id.
  assert (Hup : is_upper upper).
  { destruct Htp as (_ & _ & _ & [[-> _]|[-> _]]); by unfold is_upper. }
  pose proof (walk_chain (S (length l)) P exts upper tp [] false false false Hexts Hup) as Hw.
  rewrite <- ElP, HP in Hw. fold L in Hw. rewrite Hw.
  2:{ pose proof (extension_bytes_fuel exts upper). pose proof (len_nonneg tp).
      unfold L in Hlen. rewrite len_app in Hlen. unfold len in *. lia. }
  cbn [mbind option_bind].
  rewrite (slice_part l (P ++ extension_bytes exts upper) tp []).
  2:{ by rewrite ElP, <- !app_assoc. }
  2:{ rewrite len_app, HP. done. }
  2:{ rewrite len_app, HP. unfold L. rewrite len_app. lia. }
  cbn [mbind option_bind]. rewrite (transport_ports_ok upper sp dp tp Htp). cbn [mbind option_bind].
  rewrite bool_decide_eq_false_2 by done. rewrite andb_false_r. cbn [src_ip dst_ip has_valid_length].
  by rewrite Z.leb_refl.
Qed.

Lemma parse_ipv4_ok b0 tos ident frag ttl proto sum src dst options tp :
  Z.shiftr b0 4 = 4 → Z.land b0 15 * 4 = 20 + len options →
  len ident = 2 → len sum = 2 → len src = 4 → len dst = 4 → is_uint 16 frag →
  is_uint 16 (20 + len options + len tp) →
  parse_ip_packet (ipv4_packet b0 tos ident frag ttl proto sum src dst options tp) =
    Some (Some (mkParsed (IpV4 (from_be src)) (IpV4 (from_be dst)) proto tp
      (negb (Z.land frag 8191 =? 0)) (negb (Z.land frag 16383 =? 0)) true)).
Proof.
  intros Hv Hh Hi Hsum Hs Hd Hf HT. unfold parse_ip_packet.
  set (l := ipv4_packet _ _ _ _ _ _ _ _ _ _ _). set (T := 20 + len options + len tp) in *.
  assert (El : l = [b0; tos] ++ to_be 2 T ++ ident ++ to_be 2 frag ++ [ttl; proto] ++ sum ++
    src ++ dst ++ options ++ tp) by done.
  change (match l with [] => Some None | _ :: _ => _ end)
    with (if Z.shiftr b0 4 =? 4 then parse_ipv4_packet l
          else if Z.shiftr b0 4 =? 6 then parse_ipv6_packet l else Some None).
  rewrite Hv. cbn [Z.eqb Pos.eqb]. unfold parse_ipv4_packet.
  pose proof (len_nonneg options). pose proof (len_nonneg tp).
  assert (H2 : ∀ x, len (to_be 2 x) = 2) by (intros; unfold len; by rewrite length_to_be).
  assert (Hlen : len l = T) by (rewrite El, !len_app, Hi, Hsum, Hs, Hd, !H2; unfold T;
    change (len [b0; tos]) with 2; change (len [ttl; proto]) with 2; lia).
  unfold is_uint in *. destruct (Z.ltb_spec (len l) 20); [unfold T in *; lia|].
  assert (index l 0 = Some b0) as -> by (rewrite El; done). cbn [mbind option_bind].
  rewrite (be16_at_to_be [b0; tos] T _ 2 HT eq_refl : be16_at l 2 = Some T). cbn [mbind option_bind].
  rewrite (slice_part l ([b0; tos] ++ to_be 2 T ++ ident ++ to_be 2 frag ++ [ttl; proto] ++ sum) src
    (dst ++ options ++ tp) 12 16)
    by (rewrite ?len_app, ?H2, ?Hi, ?Hsum, ?Hs; try done; rewrite El; by rewrite <- !app_assoc).
  rewrite (slice_part l ([b0; tos] ++ to_be 2 T ++ ident ++ to_be 2 frag ++ [ttl; proto] ++ sum ++ src) dst
    (options ++ tp) 16 20)
    by (rewrite ?len_app, ?H2, ?Hi, ?Hsum, ?Hs, ?Hd; try done; rewrite El; by rewrite <- !app_assoc).
  assert (index l 9 = Some proto) as ->.
  { replace l with (([b0; tos] ++ to_be 2 T ++ ident ++ to_be 2 frag ++ [ttl]) ++
      proto :: (sum ++ src ++ dst ++ options ++ tp)) by (rewrite El; by rewrite <- !app_assoc).
    apply index_middle. by rewrite !len_app, !H2, Hi. }
  assert (be16_at l 6 = Some frag) as ->.
  { replace l with (([b0; tos] ++ to_be 2 T ++ ident) ++ to_be 2 frag ++
      ([ttl; proto] ++ sum ++ src ++ dst ++ options ++ tp)) by (rewrite El; by rewrite <- !app_assoc).
    apply be16_at_to_be; [done|]. by rewrite !len_app, !H2, Hi. }
  cbn [mbind option_bind]. rewrite Hh, Hlen.
  rewrite (slice_part l ([b0; tos] ++ to_be 2 T ++ ident ++ to_be 2 frag ++ [ttl; proto] ++ sum ++ src ++ dst ++ options)
    tp []).
  2:{ by rewrite app_nil_r, El, <- !app_assoc. }
  2,3: rewrite !len_app, !H2, Hi, Hsum, Hs, Hd; unfold saturating_sub, T;
    change (len [b0; tos]) with 2; change (len [ttl; proto]) with 2; lia.
  destruct (Z.leb_spec 20 (20 + len options)), (Z.leb_spec (20 + len options) T), (Z.leb_spec T T);
    unfold T in *; try lia; done.
Qed.

(** Flow keys are read back: for every well-formed unfragmented TCP or UDP packet,
    IPv4 with any options or IPv6 behind any chain of extension headers, the flow key
    is its addresses, ports and protocol. *)
Theorem flow_key_reads_back sp dp proto tp :
  transport_ok proto sp dp tp →
  (∀ b0 tos ident frag ttl sum src dst options,
    Z.shiftr b0 4 = 4 → Z.land b0 15 * 4 = 20 + len options →
    len ident = 2 → len sum = 2 → len src = 4 → len dst = 4 →
    is_uint 16 frag → Z.land frag 16383 = 0 → is_uint 16 (20 + len options + len tp) →
    flow_key_of (ipv4_packet b0 tos ident frag ttl proto sum src dst options tp) =
      Some (Some (mkFlowKey (mkSocketAddr (IpV4 (from_be src)) sp)
        (mkSocketAddr (IpV4 (from_be dst)) dp) proto))) ∧
  (∀ b0 p1 p2 p3 hop src dst exts,
    Z.shiftr b0 4 = 6 → len src = 16 → len dst = 16 → Forall extension_ok exts →
    is_uint 16 (len (extension_bytes exts proto ++ tp)) →
    flow_key_of (ipv6_packet [b0; p1; p2; p3] hop src dst exts proto tp) =
      Some (Some (mkFlowKey (mkSocketAddr (IpV6 (from_be src)) sp)
        (mkSocketAddr (IpV6 (from_be dst)) dp) proto))).
Proof.
  intros Htp. pose proof (transport_ports_ok proto sp dp tp Htp) as Hports. unfold flow_key_of. split.
  - intros b0 tos ident frag ttl sum src dst options Hv Hh Hi Hsum Hs Hd Hf Hnf HT.
    rewrite parse_ipv4_ok by done. cbn [mbind option_bind is_fragment has_valid_length protocol transport_payload].
    rewrite Hnf. cbn [Z.eqb negb orb]. by rewrite Hports.
  - intros b0 p1 p2 p3 hop src dst exts Hv Hs Hd Hexts HL.
    rewrite (parse_ipv6_ok _ _ _ _ _ _ _ _ _ sp dp) by done.
    cbn [mbind option_bind is_fragment has_valid_length protocol transport_payload negb orb].
    by rewrite Hports.
Qed.

(** ** Witnesses *)

Lemma parse_ip_total_witness :
  ∃ r, parse_ip_packet [96; 0; 0; 0; 255; 255; 44; 1] = Some r.
Proof.
  destruct (parse_ip_total [96; 0; 0; 0; 255; 255; 44; 1]) as (r & H & _); [|by exists r].
  repeat constructor; unfold is_byte; lia.
Defined.

Definition demo_tcp : list Z := to_be 2 443 ++ to_be 2 50000 ++ replicate 16 0.

Lemma flow_key_reads_back_witness :
  flow_key_of (ipv6_packet [96; 0; 0; 0] 64 (replicate 16 1) (replicate 16 2)
      [mkExtension IPV6_HOP_BY_HOP 0 (replicate 6 0); mkExtension IPV6_AUTHENTICATION 1 (replicate 10 0)]
      IP_PROTO_TCP demo_tcp) =
    Some (Some (mkFlowKey (mkSocketAddr (IpV6 (from_be (replicate 16 1))) 443)
      (mkSocketAddr (IpV6 (from_be (replicate 16 2))) 50000) IP_PROTO_TCP)).
Proof.
  apply (flow_key_reads_back 443 50000 IP_PROTO_TCP demo_tcp).
  - unfold transport_ok, is_uint. split; [lia|]. split; [lia|].
    split; [exists (replicate 16 0); reflexivity|]. left. split; [reflexivity|vm_compute; congruence].
  - reflexivity.
  - reflexivity.
  - reflexivity.
  - repeat constructor; unfold extension_ok; simpl; auto; vm_compute; congruence.
  - unfold is_uint. vm_compute. split; congruence.
Defined.
