(* ===== verification/Acl.v ===== *)
(** * The ACL processor

    Models easytier-core/src/peers/acl/processor.rs: the compiled rules, the rule
    cache, rate limits, connection tracking, statistics and the cleanup tasks.  The
    shared maps are one state record; [Arc<RuleStats>] counters are a store indexed
    by reference.  A call runs at one instant [now] (nanoseconds), with [secs] the
    wall clock in seconds.  [panic!] is [None].  The [cidr] crate and the textual
    form of addresses are parameters. *)

From stdpp Require Import base gmap list numbers sets.
From Stdlib Require Import ZArith Lia.
From S2P Require Import Prelude Packet TokenBucket.
Local Open Scope Z_scope.

(** A string, as its code points. *)
Definition Text : Type := list Z.

(** ** Enumerations (easytier-proto/proto/acl.proto) *)

Inductive Protocol : Type := PUnspecified | PTcp | PUdp | PIcmp | PIcmpv6 | PAny.
Inductive Action : Type := Noop | Allow | Drop.
Inductive ChainType : Type := UnspecifiedChain | Inbound | Outbound | Forward.
Inductive ConnState : Type := CNew | CEstablished | CRelated | CInvalid.

#[export] Instance protocol_eq_dec : EqDecision Protocol.
Proof. solve_decision. Defined.
#[export] Instance action_eq_dec : EqDecision Action.
Proof. solve_decision. Defined.
#[export] Instance chain_type_eq_dec : EqDecision ChainType.
Proof. solve_decision. Defined.

(** The generated accessors: an unknown number is the default. *)
Definition protocol_of (n : Z) : Protocol :=
  if n =? 1 then PTcp else if n =? 2 then PUdp else if n =? 3 then PIcmp
  else if n =? 4 then PIcmpv6 else if n =? 5 then PAny else PUnspecified.
Definition action_of (n : Z) : Action :=
  if n =? 1 then Allow else if n =? 2 then Drop else Noop.
Definition chain_type_of (n : Z) : ChainType :=
  if n =? 1 then Inbound else if n =? 2 then Outbound else if n =? 3 then Forward
  else UnspecifiedChain.
Definition chain_type_i32 (c : ChainType) : Z :=
  match c with UnspecifiedChain => 0 | Inbound => 1 | Outbound => 2 | Forward => 3 end.

(** Countable keys. *)
Definition protocol_i32 (p : Protocol) : Z :=
  match p with PUnspecified => 0 | PTcp => 1 | PUdp => 2 | PIcmp => 3 | PIcmpv6 => 4 | PAny => 5 end.

#[export] Instance protocol_countable : Countable Protocol.
Proof. apply (inj_countable' protocol_i32 protocol_of). by intros []. Defined.
#[export] Instance chain_type_countable : Countable ChainType.
Proof. apply (inj_countable' chain_type_i32 chain_type_of). by intros []. Defined.

(** ** Configuration *)

Record Rule : Type := mkRule {
  r_priority : Z;
  r_enabled : bool;
  r_protocol : Z;
  r_ports : list Text;
  r_source_ips : list Text;
  r_destination_ips : list Text;
  r_source_ports : list Text;
  r_action : Z;
  r_rate_limit : Z;
  r_burst_limit : Z;
  r_stateful : bool;
  r_source_groups : list Text;
  r_destination_groups : list Text
}.

Record Chain : Type := mkChain {
  c_chain_type : Z;
  c_enabled : bool;
  c_rules : list Rule;
  c_default_action : Z
}.

(** [Acl] with its optional [acl_v1], reduced to the chains. *)
Definition AclConfig : Type := option (list Chain).

(** ** Port ranges *)

(** [char::is_whitespace]. *)
Definition is_whitespace (c : Z) : bool :=
  ((9 <=? c) && (c <=? 13)) || (c =? 32) || (c =? 133) || (c =? 160) || (c =? 5760) ||
  ((8192 <=? c) && (c <=? 8202)) || (c =? 8232) || (c =? 8233) || (c =? 8239) ||
  (c =? 8287) || (c =? 12288).

Fixpoint trim_start (s : Text) : Text :=
  match s with
  | c :: r => if is_whitespace c then trim_start r else s
  | [] => []
  end.

Definition trim (s : Text) : Text := reverse (trim_start (reverse (trim_start s))).

(** [str::parse::<u16>]: an optional plus sign and decimal digits. *)
Fixpoint parse_digits (acc : Z) (s : Text) : option Z :=
  match s with
  | [] => Some acc
  | c :: r =>
      if (48 <=? c) && (c <=? 57) then
        let v := acc * 10 + (c - 48) in
        if v <=? 65535 then parse_digits v r else None
      else None
  end.

Definition parse_u16 (s : Text) : option Z :=
  match s with
  | [] => None
  | [43] => None
  | 43 :: r => parse_digits 0 r
  | _ => parse_digits 0 s
  end.

Definition DASH : Z := 45.

(** [split_once('-')]. *)
Fixpoint split_once (sep : Z) (s : Text) : option (Text * Text) :=
  match s with
  | [] => None
  | c :: r =>
      if c =? sep then Some ([], r)
      else match split_once sep r with Some (a, b) => Some (c :: a, b) | None => None end
  end.

Definition parse_port_range (s : Text) : option (Z * Z) :=
  match split_once DASH s with
  | Some (start, stop) =>
      a ← parse_u16 (trim start);
      b ← parse_u16 (trim stop);
      Some (a, b)
  | None => p ← parse_u16 (trim s); Some (p, p)
  end.

(** ** Packets and results *)

Record PacketInfo : Type := mkPacketInfo {
  src_ip : IpAddr;
  dst_ip : IpAddr;
  src_port : option Z;
  dst_port : option Z;
  protocol : Protocol;
  packet_size : Z;
  src_groups : list Text;
  dst_groups : list Text
}.

Inductive RuleId : Type := RPriority (p : Z) | RStateful (p : Z) | RDefault.

Inductive AclLogContext : Type :=
| StatefulMatch (src dst : IpAddr)
| RuleMatch (src dst : IpAddr) (a : Action)
| DefaultDrop
| DefaultAllow
| UnsupportedChainType
| RateLimitDrop.

Record AclResult : Type := mkResult {
  action : Action;
  matched_rule : option RuleId;
  should_log : bool;
  log_context : option AclLogContext
}.

Record RateLimitKey : Type := mkRateLimitKey { chain_type : ChainType; rule_priority : Z }.

#[export] Instance rate_limit_key_eq_dec : EqDecision RateLimitKey.
Proof. solve_decision. Defined.
#[export] Instance rate_limit_key_countable : Countable RateLimitKey.
Proof.
  apply (inj_countable' (λ k, (chain_type k, rule_priority k)) (λ p, mkRateLimitKey p.1 p.2)). by intros [].
Defined.

Record RateLimitValue : Type := mkRateLimitValue { token_bucket : TokenBucket; last_update : Z }.

Record AclCacheKey : Type := mkCacheKey {
  k_chain_type : ChainType;
  k_protocol : Protocol;
  k_src_ip : IpAddr;
  k_dst_ip : IpAddr;
  k_src_port : Z;
  k_dst_port : Z;
  k_src_groups : list Text;
  k_dst_groups : list Text
}.

#[export] Instance cache_key_eq_dec : EqDecision AclCacheKey.
Proof. solve_decision. Defined.
#[export] Instance cache_key_countable : Countable AclCacheKey.
Proof.
  apply (inj_countable'
    (λ k, (k_chain_type k, k_protocol k, k_src_ip k, k_dst_ip k, k_src_port k, k_dst_port k,
           k_src_groups k, k_dst_groups k))
    (λ '(a, b, c, d, e, f, g, h), mkCacheKey a b c d e f g h)).
  by intros [].
Defined.

Definition from_packet_info (p : PacketInfo) (c : ChainType) : AclCacheKey :=
  mkCacheKey c (protocol p) (src_ip p) (dst_ip p) (default 0 (src_port p)) (default 0 (dst_port p))
    (src_groups p) (dst_groups p).

(** [rule_stats_vec] holds references to the counters. *)
Record AclCacheEntry : Type := mkEntry {
  e_matched_rule : RuleId;
  e_last_access : Z;
  e_conn_track_key : option Text;
  e_rate_limit_keys : list RateLimitKey;
  e_acl_result : option AclResult;
  e_rule_stats_vec : list Z
}.

Record ConnTrackEntry : Type := mkConn {
  ct_src_addr : SocketAddr;
  ct_dst_addr : SocketAddr;
  ct_protocol : Z;
  ct_state : ConnState;
  ct_created_at : Z;
  ct_last_seen : Z;
  ct_packet_count : Z;
  ct_byte_count : Z
}.

Inductive AclStatType : Type := Total | Allowed | Dropped | StatNoop.

#[export] Instance stat_type_eq_dec : EqDecision AclStatType.
Proof. solve_decision. Defined.
#[export] Instance stat_type_countable : Countable AclStatType.
Proof.
  apply (inj_countable' (λ t, match t with Total => 0 | Allowed => 1 | Dropped => 2 | StatNoop => 3 end)
    (λ n, if n =? 0 then Total else if n =? 1 then Allowed else if n =? 2 then Dropped else StatNoop)).
  by intros [].
Defined.

(** [PacketsTotal] and the like are [Packets None _]; [InboundPacketsTotal] and the
    like are [Packets (Some Inbound) _], and [UnknownPacketsTotal] and the like are
    those of the unspecified chain. *)
Inductive AclStatKey : Type :=
| CacheHits | CacheSize | CacheMaxSize | RuleMatches | DefaultAllows | DefaultDrops
| Packets (chain : option ChainType) (ty : AclStatType).

#[export] Instance stat_key_eq_dec : EqDecision AclStatKey.
Proof. solve_decision. Defined.
#[export] Instance stat_key_countable : Countable AclStatKey.
Proof.
  apply (inj_countable'
    (λ k, match k with
          | CacheHits => inl 0 | CacheSize => inl 1 | CacheMaxSize => inl 2 | RuleMatches => inl 3
          | DefaultAllows => inl 4 | DefaultDrops => inl 5 | Packets c t => inr (c, t)
          end)
    (λ s, match s with
          | inl n => if n =? 0 then CacheHits else if n =? 1 then CacheSize
                     else if n =? 2 then CacheMaxSize else if n =? 3 then RuleMatches
                     else if n =? 4 then DefaultAllows else DefaultDrops
          | inr (c, t) => Packets c t
          end)).
  by intros [].
Defined.

Definition from_chain_and_action (c : ChainType) (t : AclStatType) : AclStatKey := Packets (Some c) t.

(** The packet and byte counts of a [RuleStats]. *)
Record StatItem : Type := mkStat { packet_count : Z; byte_count : Z }.

(** The maps shared by the calls and the cleanup tasks. *)
Record AclState : Type := mkAclState {
  conn_track : gmap Text ConnTrackEntry;
  rate_limiters : gmap RateLimitKey RateLimitValue;
  rule_cache : gmap AclCacheKey AclCacheEntry;
  stats : gmap AclStatKey Z;
  rule_counters : gmap Z StatItem
}.

Definition NANOS : Z := 1000000000.
Definition cache_cleanup_interval : Z := 20 * NANOS.
Definition cache_max_size : Z := 1024.

Section Processor.

(** The [cidr] crate and [IpAddr]'s [Display]. *)
Context {V4Cidr V6Cidr : Type}.
Context (v4_contains : V4Cidr → Z → bool) (v6_contains : V6Cidr → Z → bool).
Context (parse_cidr : Text → option (V4Cidr + V6Cidr)).
Context (ip_to_text : IpAddr → Text).

Record FastLookupRule : Type := mkFastRule {
  priority : Z;
  f_protocol : Protocol;
  src_ip_ranges : list (V4Cidr + V6Cidr);
  dst_ip_ranges : list (V4Cidr + V6Cidr);
  src_port_ranges : list (Z * Z);
  dst_port_ranges : list (Z * Z);
  source_groups : gset Text;
  destination_groups : gset Text;
  f_action : Action;
  enabled : bool;
  stateful : bool;
  rate_limit : Z;
  burst_limit : Z;
  rule_stats : Z
}.

(** The immutable part of [AclProcessor]. *)
Record AclProcessor : Type := mkProcessor {
  inbound_rules : list FastLookupRule;
  outbound_rules : list FastLookupRule;
  forward_rules : list FastLookupRule;
  default_inbound_action : Action;
  default_outbound_action : Action;
  default_forward_action : Action;
  default_rule_stats : Z
}.

Implicit Types (rule : FastLookupRule) (p : PacketInfo) (st : AclState).

(** *** Building the rules *)

Definition convert_ip_inet_to_cidr (input : Text) : option (V4Cidr + V6Cidr) := parse_cidr input.

(** [stats_ref] is the reference of the freshly allocated counters. *)
Definition convert_to_fast_lookup_rule (r : Rule) (stats_ref : Z) : FastLookupRule :=
  mkFastRule (r_priority r) (protocol_of (r_protocol r))
    (omap convert_ip_inet_to_cidr (r_source_ips r))
    (omap convert_ip_inet_to_cidr (r_destination_ips r))
    (omap parse_port_range (r_source_ports r))
    (omap parse_port_range (r_ports r))
    (list_to_set (r_source_groups r)) (list_to_set (r_destination_groups r))
    (action_of (r_action r)) (r_enabled r) (r_stateful r) (r_rate_limit r) (r_burst_limit r) stats_ref.

(** [sort_by_key(Reverse(priority))], a stable sort: by insertion after the rules of
    the same priority. *)
Fixpoint insert_rule rule (l : list FastLookupRule) : list FastLookupRule :=
  match l with
  | [] => [rule]
  | x :: r => if priority x <? priority rule then rule :: l else x :: insert_rule rule r
  end.

Definition sort_rules (l : list FastLookupRule) : list FastLookupRule :=
  foldl (λ acc rule, insert_rule rule acc) [] l.

(** The rules of a chain, with fresh references from [next]. *)
Fixpoint convert_rules (next : Z) (l : list Rule) : list FastLookupRule :=
  match l with
  | [] => []
  | r :: l' => convert_to_fast_lookup_rule r next :: convert_rules (next + 1) l'
  end.

Definition chain_rules (next : Z) (c : Chain) : list FastLookupRule :=
  sort_rules (convert_rules next (filter (λ r, r_enabled r = true) (c_rules c))).

(** The loop over the chains. *)
Fixpoint build_chains (next : Z) (chains : list Chain)
    (acc : list FastLookupRule * list FastLookupRule * list FastLookupRule)
    : list FastLookupRule * list FastLookupRule * list FastLookupRule :=
  match chains with
  | [] => acc
  | c :: rest =>
      if negb (c_enabled c) then build_chains next rest acc
      else
        let rules := chain_rules next c in
        let '(i, o, f) := acc in
        let acc' := match chain_type_of (c_chain_type c) with
                    | Inbound => (i ++ rules, o, f)
                    | Outbound => (i, o ++ rules, f)
                    | Forward => (i, o, f ++ rules)
                    | UnspecifiedChain => acc
                    end in
        build_chains (next + Z.of_nat (length rules)) rest acc'
  end.

Definition build_rules (cfg : AclConfig)
    : list FastLookupRule * list FastLookupRule * list FastLookupRule :=
  match cfg with
  | Some chains => build_chains 1 chains ([], [], [])
  | None => ([], [], [])
  end.

Definition default_action_of (cfg : AclConfig) (ty : ChainType) : Action :=
  match cfg with
  | None => Allow
  | Some chains =>
      match find (λ c, c_chain_type c =? chain_type_i32 ty) chains with
      | Some c => action_of (c_default_action c)
      | None => Allow
      end
  end.

Definition build_default_actions (cfg : AclConfig) : Action * Action * Action :=
  (default_action_of cfg Inbound, default_action_of cfg Outbound, default_action_of cfg Forward).

Definition all_rules (proc : AclProcessor) : list FastLookupRule :=
  inbound_rules proc ++ outbound_rules proc ++ forward_rules proc.

(** The maps that survive a reload, and a fresh cache and counters. *)
Definition new_with_shared_state (cfg : AclConfig) (ct : option (gmap Text ConnTrackEntry))
    (rl : option (gmap RateLimitKey RateLimitValue)) (sts : option (gmap AclStatKey Z))
    : AclProcessor * AclState :=
  let '(i, o, f) := build_rules cfg in
  let '(di, dou, df) := build_default_actions cfg in
  let proc := mkProcessor i o f di dou df 0 in
  (proc,
   mkAclState (default ∅ ct) (default ∅ rl) ∅ (default ∅ sts)
     (list_to_map (map (λ r, (r, mkStat 0 0)) (0 :: map rule_stats (all_rules proc))))).

Definition new_processor (cfg : AclConfig) : AclProcessor * AclState :=
  new_with_shared_state cfg None None None.

(** *** Matching *)

Definition cidr_matches (c : V4Cidr + V6Cidr) (a : IpAddr) : bool :=
  match c, a with
  | inl c4, IpV4 b => v4_contains c4 b
  | inr c6, IpV6 b => v6_contains c6 b
  | _, _ => false
  end.

Definition in_port_range (port : Z) (r : Z * Z) : bool := (fst r <=? port) && (port <=? snd r).

Definition rule_matches rule p : bool :=
  if negb (bool_decide (f_protocol rule = PAny)) &&
     negb (protocol_i32 (f_protocol rule) =? protocol_i32 (protocol p)) then false
  else if negb (bool_decide (src_ip_ranges rule = [])) &&
     negb (existsb (λ c, cidr_matches c (src_ip p)) (src_ip_ranges rule)) then false
  else if negb (bool_decide (dst_ip_ranges rule = [])) &&
     negb (existsb (λ c, cidr_matches c (dst_ip p)) (dst_ip_ranges rule)) then false
  else if (match src_port p with
           | Some port => negb (bool_decide (src_port_ranges rule = [])) &&
                          negb (existsb (in_port_range port) (src_port_ranges rule))
           | None => false
           end) then false
  else if (match dst_port p with
           | Some port => negb (bool_decide (dst_port_ranges rule = [])) &&
                          negb (existsb (in_port_range port) (dst_port_ranges rule))
           | None => false
           end) then false
  else if negb (bool_decide (source_groups rule = ∅)) &&
     negb (existsb (λ g, bool_decide (g ∈ source_groups rule)) (src_groups p)) then false
  else if negb (bool_decide (destination_groups rule = ∅)) &&
     negb (existsb (λ g, bool_decide (g ∈ destination_groups rule)) (dst_groups p)) then false
  else true.

(** *** State updates *)

Definition with_conn_track st (m : gmap Text ConnTrackEntry) : AclState :=
  mkAclState m (rate_limiters st) (rule_cache st) (stats st) (rule_counters st).
Definition with_limiters st (m : gmap RateLimitKey RateLimitValue) : AclState :=
  mkAclState (conn_track st) m (rule_cache st) (stats st) (rule_counters st).
Definition with_cache st (m : gmap AclCacheKey AclCacheEntry) : AclState :=
  mkAclState (conn_track st) (rate_limiters st) m (stats st) (rule_counters st).

Definition increment_stat st (k : AclStatKey) : AclState :=
  let n := match stats st !! k with Some n => wrapping_add 64 n 1 | None => 1 end in
  mkAclState (conn_track st) (rate_limiters st) (rule_cache st) (<[k := n]> (stats st)) (rule_counters st).

(** [packet_count += 1; byte_count += size] through each reference of the entry. *)
Definition bump (size : Z) (s : StatItem) : StatItem :=
  mkStat (wrapping_add 64 (packet_count s) 1) (wrapping_add 64 (byte_count s) size).

Definition inc_cache_entry_stats st (e : AclCacheEntry) p : AclState :=
  mkAclState (conn_track st) (rate_limiters st) (rule_cache st) (stats st)
    (foldl (λ m r, alter (bump (packet_size p)) r m) (rule_counters st) (e_rule_stats_vec e)).

Definition get_rules_stats (proc : AclProcessor) st : list StatItem :=
  omap (λ rule, rule_counters st !! rule_stats rule) (all_rules proc).

(** Decimal digits of a port. *)
Fixpoint decimal (fuel : nat) (n : Z) : Text :=
  match fuel with
  | O => []
  | S fuel' => if n <? 10 then [48 + n] else decimal fuel' (n / 10) ++ [48 + n mod 10]
  end.

(** [format!("{}:{}->{}:{}", ...)]. *)
Definition conn_track_key p : Text :=
  ip_to_text (src_ip p) ++ [58] ++ decimal 5 (default 0 (src_port p)) ++ [45; 62] ++
  ip_to_text (dst_ip p) ++ [58] ++ decimal 5 (default 0 (dst_port p)).

Definition check_connection_state st (key : Text) p (secs : Z) : AclState :=
  let e :=
    match conn_track st !! key with
    | Some x =>
        mkConn (ct_src_addr x) (ct_dst_addr x) (ct_protocol x) CEstablished (ct_created_at x) secs
          (wrapping_add 64 (ct_packet_count x) 1) (wrapping_add 64 (ct_byte_count x) (packet_size p))
    | None =>
        mkConn (mkSocketAddr (src_ip p) (default 0 (src_port p)))
          (mkSocketAddr (dst_ip p) (default 0 (dst_port p))) (protocol_i32 (protocol p)) CNew
          secs secs 1 (packet_size p)
    end in
  with_conn_track st (<[key := e]> (conn_track st)).

Definition check_rate_limit st (key : RateLimitKey) (rate burst : Z) (allow_create : bool) (now : Z)
    : option (AclState * bool) :=
  if rate =? 0 then Some (st, true)
  else
    v ← match rate_limiters st !! key with
        | Some v => Some v
        | None => if negb allow_create then None
                  else Some (mkRateLimitValue (new_from_cfg (mkConfig burst rate) now) now)
        end;
    let '(b, ok) := try_consume (token_bucket v) 1 now in
    Some (with_limiters st (<[key := mkRateLimitValue b now]> (rate_limiters st)), ok).

(** *** The cache *)

(** [Instant::now() - 15s], or now when the clock is younger. *)
Definition expired_timepoint (now : Z) : Z := if now <? 15 * NANOS then now else now - 15 * NANOS.

(** [sort_by_key(last_access)]. *)
Fixpoint insert_entry (e : AclCacheKey * Z) (l : list (AclCacheKey * Z)) : list (AclCacheKey * Z) :=
  match l with
  | [] => [e]
  | x :: r => if snd e <? snd x then e :: l else x :: insert_entry e r
  end.

Definition sort_entries (l : list (AclCacheKey * Z)) : list (AclCacheKey * Z) :=
  foldl (λ acc e, insert_entry e acc) [] l.

Definition cleanup_cache (cache : gmap AclCacheKey AclCacheEntry) (max_size now : Z)
    : gmap AclCacheKey AclCacheEntry :=
  let cache := filter (λ kv, expired_timepoint now < e_last_access kv.2) cache in
  let current_size := Z.of_nat (size cache) in
  if current_size <=? max_size then cache
  else
    let entries := sort_entries (map (λ kv, (kv.1, e_last_access kv.2)) (map_to_list cache)) in
    let to_remove := current_size - max_size + max_size / 5 in
    foldl (λ m e, delete e.1 m) cache (take (Z.to_nat to_remove) entries).

Definition cache_result st (key : AclCacheKey) (e : AclCacheEntry) (now : Z) : AclState :=
  let c := <[key := e]> (rule_cache st) in
  if cache_max_size * 2 <? Z.of_nat (size c) then with_cache st (cleanup_cache c cache_max_size now)
  else with_cache st c.

(** *** Processing a packet *)

(** The loop over the rate limit keys of a cache entry. *)
Fixpoint check_cached_limits st (keys : list RateLimitKey) (now : Z) : option (AclState * bool) :=
  match keys with
  | [] => Some (st, true)
  | k :: rest =>
      r ← check_rate_limit st k 1 1 false now;
      if negb (snd r) then Some (fst r, false) else check_cached_limits (fst r) rest now
  end.

(** [check_connection_state] when the entry tracks a connection. *)
Definition track_connection st (e : AclCacheEntry) p (secs : Z) : AclState :=
  match e_conn_track_key e with
  | Some key => check_connection_state st key p secs
  | None => st
  end.

Definition process_packet_with_cache_entry st p (e : AclCacheEntry) (now secs : Z)
    : option (AclState * AclResult) :=
  r ← check_cached_limits st (e_rate_limit_keys e) now;
  let '(st1, ok) := r in
  if negb ok then Some (st1, mkResult Drop (Some (e_matched_rule e)) false (Some RateLimitDrop))
  else
    let st2 := track_connection st1 e p secs in
    let st3 := inc_cache_entry_stats st2 e p in
    res ← e_acl_result e;
    Some (st3, res).

Definition rules_of (proc : AclProcessor) (c : ChainType) : option (list FastLookupRule) :=
  match c with
  | Inbound => Some (inbound_rules proc)
  | Outbound => Some (outbound_rules proc)
  | Forward => Some (forward_rules proc)
  | UnspecifiedChain => None
  end.

(** The first rule that is enabled and matches: the loop runs on it alone. *)
Definition first_match (rules : list FastLookupRule) p : option FastLookupRule :=
  find (λ rule, enabled rule && rule_matches rule p) rules.

(** The cache entry of a matching rule: a stateful allow rule tracks the connection;
    a rate limited rule records its limiter, and its counters twice. *)
Definition rule_entry p (c : ChainType) rule (now : Z) : AclCacheEntry :=
  let limited := 0 <? rate_limit rule in
  let keys := if limited then [mkRateLimitKey c (priority rule)] else [] in
  let stats_vec := (if limited then [rule_stats rule] else []) ++ [rule_stats rule] in
  if stateful rule && bool_decide (f_action rule = Allow) then
    mkEntry (RStateful (priority rule)) now (Some (conn_track_key p)) keys
      (Some (mkResult Allow (Some (RStateful (priority rule))) false
        (Some (StatefulMatch (src_ip p) (dst_ip p))))) stats_vec
  else
    mkEntry (RPriority (priority rule)) now None keys
      (Some (mkResult (f_action rule) (Some (RPriority (priority rule))) false
        (Some (RuleMatch (src_ip p) (dst_ip p) (f_action rule))))) stats_vec.

(** The body of the loop for the matching rule. *)
Definition apply_rule st (key : AclCacheKey) p (c : ChainType) rule (now secs : Z)
    : option (AclState * AclResult) :=
  r ← (if 0 <? rate_limit rule
       then check_rate_limit st (mkRateLimitKey c (priority rule)) (rate_limit rule)
              (burst_limit rule) true now
       else Some (st, true));
  let '(st1, ok) := r in
  if negb ok then
    Some (st1, mkResult Drop (Some (RPriority (priority rule))) false (Some RateLimitDrop))
  else
    let entry := rule_entry p c rule now in
    let st2 := track_connection st1 entry p secs in
    let st3 := increment_stat st2 RuleMatches in
    let st4 := inc_cache_entry_stats st3 entry p in
    let st5 := cache_result st4 key entry now in
    res ← e_acl_result entry;
    Some (st5, res).

Definition default_action_for (proc : AclProcessor) (c : ChainType) : Action :=
  match c with
  | Inbound => default_inbound_action proc
  | Outbound => default_outbound_action proc
  | Forward => default_forward_action proc
  | UnspecifiedChain => Allow
  end.

Definition default_entry (proc : AclProcessor) (c : ChainType) (now : Z) : AclCacheEntry :=
  let a := default_action_for proc c in
  mkEntry RDefault now None []
    (Some (mkResult a (Some RDefault) false
      (Some (if bool_decide (a = Drop) then DefaultDrop else DefaultAllow))))
    [default_rule_stats proc].

(** No rule matched. *)
Definition apply_default (proc : AclProcessor) st (key : AclCacheKey) p (c : ChainType) (now : Z)
    : option (AclState * AclResult) :=
  let is_drop := bool_decide (default_action_for proc c = Drop) in
  let st1 := increment_stat st (if is_drop then DefaultDrops else DefaultAllows) in
  let entry := default_entry proc c now in
  let st2 := inc_cache_entry_stats st1 entry p in
  let st3 := cache_result st2 key entry now in
  res ← e_acl_result entry;
  Some (st3, res).

Definition process_packet (proc : AclProcessor) st p (c : ChainType) (now secs : Z)
    : option (AclState * AclResult) :=
  let key := from_packet_info p c in
  match rule_cache st !! key with
  | Some cached =>
      let e := mkEntry (e_matched_rule cached) now (e_conn_track_key cached) (e_rate_limit_keys cached)
                 (e_acl_result cached) (e_rule_stats_vec cached) in
      let st1 := increment_stat (with_cache st (<[key := e]> (rule_cache st))) CacheHits in
      process_packet_with_cache_entry st1 p e now secs
  | None =>
      match rules_of proc c with
      | None => Some (st, mkResult Drop (Some RDefault) false (Some UnsupportedChainType))
      | Some rules =>
          match first_match rules p with
          | Some rule => apply_rule st key p c rule now secs
          | None => apply_default proc st key p c now
          end
      end
  end.

(** *** The cleanup tasks *)

(** A tick of the first task: the cache at [now1], then the limiters at [now2]. *)
Definition cleanup_tick st (now1 now2 : Z) : AclState :=
  let st1 := with_cache st (cleanup_cache (rule_cache st) cache_max_size now1) in
  with_limiters st1
    (filter (λ kv, saturating_sub now2 (last_update kv.2) < cache_cleanup_interval) (rate_limiters st1)).

(** [current_time - entry.last_seen] is a u64 subtraction. *)
Definition cleanup_expired_connections st (timeout_secs secs : Z) : AclState :=
  with_conn_track st
    (filter (λ kv, ¬ (timeout_secs < wrap 64 (secs - ct_last_seen kv.2))) (conn_track st)).

(** The totals, with the size of the cache. *)
Definition get_stats st : gmap AclStatKey Z :=
  <[CacheMaxSize := cache_max_size]> (<[CacheSize := Z.of_nat (size (rule_cache st))]> (stats st)).

Definition get_shared_state st
    : gmap Text ConnTrackEntry * gmap RateLimitKey RateLimitValue * gmap AclStatKey Z :=
  (conn_track st, rate_limiters st, stats st).

End Processor.

Arguments FastLookupRule : clear implicits.
Arguments AclProcessor : clear implicits.

(** * Properties *)

Section AclFacts.

Context {V4Cidr V6Cidr : Type}.
Context (v4_contains : V4Cidr → Z → bool) (v6_contains : V6Cidr → Z → bool).
Context (parse_cidr : Text → option (V4Cidr + V6Cidr)).
Context (ip_to_text : IpAddr → Text).
Context (proc : AclProcessor V4Cidr V6Cidr).

Implicit Types (p : PacketInfo) (st : AclState).

Notation process := (process_packet v4_contains v6_contains ip_to_text proc).

(** A packet has ports exactly when its protocol has them. *)
Definition regular p : Prop :=
  match protocol p with
  | PTcp | PUdp => is_Some (src_port p) ∧ is_Some (dst_port p)
  | _ => src_port p = None ∧ dst_port p = None
  end.

(** Regular packets with one cache key differ in their size only. *)
Lemma regular_key p q c :
  regular p → regular q → from_packet_info p c = from_packet_info q c →
  q = mkPacketInfo (src_ip p) (dst_ip p) (src_port p) (dst_port p) (protocol p) (packet_size q)
        (src_groups p) (dst_groups p).
Proof.
  intros Hp Hq [= Hpr Hs Hd Hsp Hdp Hsg Hdg]. unfold regular in *. rewrite <- Hpr in Hq.
  destruct q as [qs qd qsp qdp qpr qsz qsg qdg]; simpl in *. subst.
  assert (src_port p = qsp ∧ dst_port p = qdp) as [-> ->]; [|done].
  destruct (protocol p); destruct Hp as [Hp1 Hp2], Hq as [Hq1 Hq2];
    try (rewrite Hp1, Hp2; rewrite Hq1, Hq2; done);
    destruct Hp1 as [a Ha], Hp2 as [b Hb], Hq1 as [a' Ha'], Hq2 as [b' Hb'];
    rewrite Ha, Hb, Ha', Hb' in *; simpl in *; by subst.
Qed.

(** The entry that a fresh evaluation of the packet records. *)
Definition fresh_entry p (c : ChainType) (now : Z) : option AclCacheEntry :=
  rules ← rules_of proc c;
  Some (match first_match v4_contains v6_contains rules p with
        | Some rule => rule_entry ip_to_text p c rule now
        | None => default_entry proc c now
        end).

(** A cached entry is the fresh one of a packet with its key, and the limiters it
    needs exist and are at least as recent. *)
Definition entry_ok st (key : AclCacheKey) (e : AclCacheEntry) : Prop :=
  (∃ p, regular p ∧ from_packet_info p (k_chain_type key) = key ∧
     fresh_entry p (k_chain_type key) (e_last_access e) = Some e) ∧
  ∀ k, k ∈ e_rate_limit_keys e →
    ∃ v, rate_limiters st !! k = Some v ∧ e_last_access e <= last_update v.

Record cache_ok st (now : Z) : Prop := mkCacheOk {
  co_entries : ∀ key e, rule_cache st !! key = Some e → entry_ok st key e;
  co_times : ∀ key e, rule_cache st !! key = Some e → e_last_access e <= now;
  co_limiters : ∀ k v, rate_limiters st !! k = Some v → last_update v <= now
}.

Lemma first_match_size rules p q :
  q = mkPacketInfo (src_ip p) (dst_ip p) (src_port p) (dst_port p) (protocol p) (packet_size q)
        (src_groups p) (dst_groups p) →
  first_match v4_contains v6_contains rules q = first_match v4_contains v6_contains rules p.
Proof. intros ->. done. Qed.

(** A hit serves exactly the entry a miss would record. *)
Lemma cached_entry_fresh st p c e now t :
  cache_ok st now → regular p → rule_cache st !! from_packet_info p c = Some e →
  fresh_entry p c t = Some (mkEntry (e_matched_rule e) t (e_conn_track_key e) (e_rate_limit_keys e)
                              (e_acl_result e) (e_rule_stats_vec e)).
Proof.
  intros Hok Hp He. destruct (co_entries st now Hok _ _ He) as [(q & Hq & Hkey & Hf) _].
  cbn [k_chain_type from_packet_info] in *.
  assert (Eq := regular_key q p c Hq Hp ltac:(rewrite Hkey; done)).
  unfold fresh_entry in *. destruct (rules_of proc c) as [rules|]; [|done]. cbn [mbind option_bind] in *.
  rewrite (first_match_size rules q p Eq). injection Hf as Hf.
  destruct (first_match _ _ rules q) as [rule|]; rewrite <- Hf.
  - rewrite Eq. unfold rule_entry, conn_track_key. simpl.
    destruct (stateful rule && bool_decide (f_action rule = Allow)); done.
  - done.
Qed.

Lemma check_rate_limit_present st k v rate burst create now :
  rate ≠ 0 → rate_limiters st !! k = Some v →
  check_rate_limit st k rate burst create now =
    Some (with_limiters st (<[k := mkRateLimitValue (fst (try_consume (token_bucket v) 1 now)) now]>
            (rate_limiters st)), snd (try_consume (token_bucket v) 1 now)).
Proof.
  intros Hr Hv. unfold check_rate_limit. apply Z.eqb_neq in Hr. rewrite Hr, Hv. cbn [mbind option_bind].
  by destruct (try_consume (token_bucket v) 1 now).
Qed.

(** The state without the cache and the statistics of the cache. *)
Definition core st : gmap Text ConnTrackEntry * gmap RateLimitKey RateLimitValue * gmap Z StatItem :=
  (conn_track st, rate_limiters st, rule_counters st).

Lemma core_cache_result st key e now : core (cache_result st key e now) = core st.
Proof. unfold cache_result. by destruct (_ <? _). Qed.

Lemma core_inc st st' e p :
  core st = core st' → core (inc_cache_entry_stats st e p) = core (inc_cache_entry_stats st' e p).
Proof. intros [= H1 H2 H3]. unfold core. simpl. by rewrite H1, H2, H3. Qed.

Lemma core_track st st' e p secs :
  core st = core st' → core (track_connection st e p secs) = core (track_connection st' e p secs).
Proof.
  intros [= H1 H2 H3]. unfold core, track_connection. destruct (e_conn_track_key e); simpl;
    rewrite ?H1, ?H2, ?H3; done.
Qed.

Lemma core_limiters st st' m : core st = core st' → core (with_limiters st m) = core (with_limiters st' m).
Proof. intros [= H1 H2 H3]. unfold core. simpl. by rewrite H1, H3. Qed.

(** The two ways of serving a packet for which an entry is known. *)
Lemma serve_rule st st1 p c (rule : FastLookupRule V4Cidr V6Cidr) key now secs e :
  core st = core st1 → e = rule_entry ip_to_text p c rule now →
  (∀ k, k ∈ e_rate_limit_keys e → is_Some (rate_limiters st !! k)) →
  ∃ sa ra sb rb,
    process_packet_with_cache_entry st1 p e now secs = Some (sa, ra) ∧
    apply_rule ip_to_text st key p c rule now secs = Some (sb, rb) ∧
    action ra = action rb ∧ log_context ra = log_context rb ∧ core sa = core sb.
Proof.
  intros Hcore -> Hlim. pose proof Hcore as [= H1 H2 H3].
  unfold process_packet_with_cache_entry, apply_rule.
  set (e := rule_entry ip_to_text p c rule now) in *.
  assert (Hres : is_Some (e_acl_result e)) by (unfold e, rule_entry; destruct (_ && _); eauto).
  destruct Hres as [res Hres].
  assert (Hkeys : e_rate_limit_keys e = if 0 <? rate_limit rule then [mkRateLimitKey c (priority rule)] else [])
    by (unfold e, rule_entry; by destruct (stateful rule && _)).
  rewrite Hkeys in *. destruct (0 <? rate_limit rule) eqn:El.
  - destruct (Hlim (mkRateLimitKey c (priority rule))) as [v Hv]; [by left|].
    assert (rate_limit rule ≠ 0) by (apply Z.ltb_lt in El; lia).
    cbn [check_cached_limits]. rewrite (check_rate_limit_present st1 _ v 1) by (rewrite <- ?H2; done).
    rewrite (check_rate_limit_present st _ v) by done. cbn [mbind option_bind fst snd].
    destruct (snd (try_consume (token_bucket v) 1 now)); cbn [negb mbind option_bind].
    + rewrite Hres. cbn [mbind option_bind]. do 4 eexists. split; [done|]. split; [done|].
      split; [done|]. split; [done|]. rewrite core_cache_result. apply core_inc.
      transitivity (core (track_connection (with_limiters st
        (<[mkRateLimitKey c (priority rule) := mkRateLimitValue (fst (try_consume (token_bucket v) 1 now)) now]>
          (rate_limiters st))) e p secs)); [|done].
      apply core_track. rewrite H2. apply core_limiters. done.
    + do 4 eexists. split; [done|]. split; [done|]. split; [done|]. split; [done|].
      rewrite H2. by apply core_limiters.
  - cbn [check_cached_limits mbind option_bind negb]. rewrite Hres. cbn [mbind option_bind].
    do 4 eexists. split; [done|]. split; [done|]. split; [done|]. split; [done|].
    rewrite core_cache_result. apply core_inc.
    transitivity (core (track_connection st e p secs)); [|done]. by apply core_track.
Qed.

(** Applying a rule depends on the core of the state only. *)
Lemma apply_rule_core st st' key p c (rule : FastLookupRule V4Cidr V6Cidr) now secs :
  core st = core st' →
  ∃ sa sb r, apply_rule ip_to_text st key p c rule now secs = Some (sa, r) ∧
    apply_rule ip_to_text st' key p c rule now secs = Some (sb, r) ∧ core sa = core sb.
Proof.
  intros Hcore. pose proof Hcore as [= H1 H2 H3]. unfold apply_rule.
  assert (Hres : is_Some (e_acl_result (rule_entry ip_to_text p c rule now)))
    by (unfold rule_entry; destruct (stateful rule && _); eauto).
  destruct Hres as [res Hres].
  assert (Hgo : ∀ s s', core s = core s' → ∃ sa sb r,
    (res ← e_acl_result (rule_entry ip_to_text p c rule now);
     Some (cache_result (inc_cache_entry_stats (increment_stat (track_connection s
       (rule_entry ip_to_text p c rule now) p secs) RuleMatches) (rule_entry ip_to_text p c rule now) p) key
       (rule_entry ip_to_text p c rule now) now, res)) = Some (sa, r) ∧
    (res ← e_acl_result (rule_entry ip_to_text p c rule now);
     Some (cache_result (inc_cache_entry_stats (increment_stat (track_connection s'
       (rule_entry ip_to_text p c rule now) p secs) RuleMatches) (rule_entry ip_to_text p c rule now) p) key
       (rule_entry ip_to_text p c rule now) now, res)) = Some (sb, r) ∧ core sa = core sb).
  { intros s s' Hs. rewrite Hres. cbn [mbind option_bind]. do 3 eexists. split; [done|]. split; [done|].
    rewrite !core_cache_result. apply core_inc. exact (core_track s s' _ p secs Hs). }
  destruct (0 <? rate_limit rule) eqn:El; [|cbn [mbind option_bind negb]; by apply Hgo].
  unfold check_rate_limit. destruct (rate_limit rule =? 0); [cbn [mbind option_bind negb]; by apply Hgo|].
  rewrite H2. destruct (rate_limiters st' !! _) as [v|]; cbn [negb mbind option_bind];
    destruct (try_consume _ 1 now) as [b ok]; cbn [mbind option_bind];
    (destruct ok; cbn [negb]; [apply Hgo; by apply core_limiters|]);
    (do 3 eexists; split; [done|]; split; [done|]); by apply core_limiters.
Qed.

(** The cached and the fresh evaluation of a packet. *)
Lemma process_agrees st p c now0 now secs :
  cache_ok st now0 → regular p →
  ∃ st1 r1 st2 r2,
    process st p c now secs = Some (st1, r1) ∧
    process (with_cache st ∅) p c now secs = Some (st2, r2) ∧
    action r1 = action r2 ∧ log_context r1 = log_context r2 ∧ core st1 = core st2.
Proof.
  intros Hok Hp. unfold process_packet. cbn [rule_cache with_cache]. rewrite lookup_empty.
  destruct (rule_cache st !! from_packet_info p c) as [e|] eqn:He.
  - pose proof (cached_entry_fresh st p c e now0 now Hok Hp He) as Hf. unfold fresh_entry in Hf.
    destruct (rules_of proc c) as [rules|]; [|done]. cbn [mbind option_bind] in Hf.
    injection Hf as Hf. rewrite <- Hf.
    destruct (first_match v4_contains v6_contains rules p) as [rule|].
    + eapply serve_rule; [done|done|]. rewrite Hf. cbn [e_rate_limit_keys]. intros k Hk.
      destruct (co_entries st now0 Hok _ _ He) as [_ Hl]. destruct (Hl k Hk) as (v & Hv & _). cbn. by exists v.
    + unfold process_packet_with_cache_entry, apply_default.
      cbn [default_entry e_rate_limit_keys check_cached_limits mbind option_bind negb e_acl_result
        track_connection e_conn_track_key].
      do 4 eexists. split; [done|]. split; [done|]. split; [done|]. split; [done|].
      rewrite core_cache_result. by apply core_inc.
  - destruct (rules_of proc c) as [rules|]; [|do 4 eexists; eauto 10].
    destruct (first_match v4_contains v6_contains rules p) as [rule|].
    + destruct (apply_rule_core st (with_cache st ∅) (from_packet_info p c) p c rule now secs)
        as (sa & sb & r & Ha & Hb & Hc); [done|]. rewrite Ha, Hb. eauto 10.
    + unfold apply_default. cbn [default_entry e_acl_result mbind option_bind].
      do 4 eexists. split; [done|]. split; [done|]. split; [done|]. split; [done|].
      rewrite !core_cache_result. by apply core_inc.
Qed.

(** C3: the rule cache is transparent: for a packet whose ports are those of its
    protocol, the processor never panics and answers with the action and log context
    that evaluating all rules afresh gives, with the same effect on the rate
    limiters, the tracked connections and the rule counters. *)
Theorem acl_cache_transparent st p c now0 now secs :
  cache_ok st now0 → regular p →
  ∃ st1 r1 st2 r2,
    process st p c now secs = Some (st1, r1) ∧
    process (with_cache st ∅) p c now secs = Some (st2, r2) ∧
    action r1 = action r2 ∧ log_context r1 = log_context r2 ∧ core st1 = core st2.
Proof. apply process_agrees. Qed.

(** ** Runs *)

Lemma foldl_delete_lookup (l : list (AclCacheKey * Z)) (m : gmap AclCacheKey AclCacheEntry) key e :
  foldl (λ m x, delete x.1 m) m l !! key = Some e → m !! key = Some e.
Proof.
  revert m. induction l as [|x l IH]; intros m; [done|]. simpl. intros H%IH.
  by apply lookup_delete_Some in H as [_ ?].
Qed.

Lemma cleanup_cache_lookup cache max now key e :
  cleanup_cache cache max now !! key = Some e →
  cache !! key = Some e ∧ expired_timepoint now < e_last_access e.
Proof.
  unfold cleanup_cache. set (c := filter _ cache). intros H.
  assert (Hc : c !! key = Some e)
    by (destruct (_ <=? max); [done|]; by apply foldl_delete_lookup in H).
  by apply map_lookup_filter_Some in Hc.
Qed.

Lemma cache_result_lookup st key e now key' e' :
  rule_cache (cache_result st key e now) !! key' = Some e' →
  rule_cache st !! key' = Some e' ∨ key' = key ∧ e' = e.
Proof.
  unfold cache_result. intros H.
  assert (Hi : <[key := e]> (rule_cache st) !! key' = Some e')
    by (destruct (_ <? _); simpl in H; [by apply cleanup_cache_lookup in H as [? _]|done]).
  apply lookup_insert_Some in Hi. naive_solver.
Qed.

(** How the limiters evolve during a call at [now]. *)
Definition limiters_step (m m' : gmap RateLimitKey RateLimitValue) (now : Z) : Prop :=
  (∀ k v, m !! k = Some v → ∃ v', m' !! k = Some v' ∧ last_update v <= last_update v') ∧
  (∀ k v', m' !! k = Some v' → m !! k = Some v' ∨ last_update v' = now).

Lemma limiters_step_refl m now : limiters_step m m now.
Proof. split; intros k v H; [exists v; split; [done|lia]|by left]. Qed.

Lemma limiters_step_insert m k b now :
  (∀ k v, m !! k = Some v → last_update v <= now) →
  limiters_step m (<[k := mkRateLimitValue b now]> m) now.
Proof.
  intros Hm. split; intros k' v.
  - intros H. destruct (decide (k = k')) as [->|].
    + rewrite lookup_insert_eq. eexists. split; [done|]. simpl. by eapply Hm.
    + rewrite lookup_insert_ne by done. exists v. split; [done|lia].
  - rewrite lookup_insert_Some. intros [[<- <-]|[_ H]]; [by right|by left].
Qed.

Lemma cache_ok_step st st' now0 now :
  cache_ok st now0 → now0 <= now → limiters_step (rate_limiters st) (rate_limiters st') now →
  (∀ key e, rule_cache st' !! key = Some e →
    rule_cache st !! key = Some e ∨ entry_ok st' key e ∧ e_last_access e <= now) →
  cache_ok st' now.
Proof.
  intros Hok Ht [Hfw Hbw] Hc. split.
  - intros key e He. destruct (Hc key e He) as [He'|[? _]]; [|done].
    destruct (co_entries st now0 Hok _ _ He') as [Hp Hl]. split; [done|].
    intros k Hk. destruct (Hl k Hk) as (v & Hv & Hle). destruct (Hfw k v Hv) as (v' & Hv' & ?).
    exists v'. split; [done|]. lia.
  - intros key e He. destruct (Hc key e He) as [He'|[_ ?]]; [|done].
    pose proof (co_times st now0 Hok _ _ He'). lia.
  - intros k v Hv. destruct (Hbw k v Hv) as [Hv'| ->]; [|lia].
    pose proof (co_limiters st now0 Hok _ _ Hv'). lia.
Qed.

(** The entry recorded or refreshed at [now] is correct once its limiters are. *)
Lemma fresh_entry_ok st p c e now :
  regular p → fresh_entry p c now = Some e →
  (∀ k, k ∈ e_rate_limit_keys e → ∃ v, rate_limiters st !! k = Some v ∧ last_update v = now) →
  entry_ok st (from_packet_info p c) e ∧ e_last_access e <= now.
Proof.
  intros Hp Hf Hl.
  assert (Hlast : e_last_access e = now).
  { unfold fresh_entry in Hf. destruct (rules_of proc c) as [rules|]; [|done]. cbn [mbind option_bind] in Hf.
    injection Hf as <-. destruct (first_match _ _ rules p) as [rule|]; [|done].
    unfold rule_entry. by destruct (stateful rule && _). }
  rewrite Hlast. split; [|lia]. split.
  - exists p. by rewrite Hlast.
  - intros k Hk. destruct (Hl k Hk) as (v & Hv & <-). exists v. split; [done|lia].
Qed.

Lemma rule_entry_keys p c (rule : FastLookupRule V4Cidr V6Cidr) now :
  e_rate_limit_keys (rule_entry ip_to_text p c rule now) =
    if 0 <? rate_limit rule then [mkRateLimitKey c (priority rule)] else [].
Proof. unfold rule_entry. by destruct (stateful rule && _). Qed.

Lemma limiters_after_track st e p secs : rate_limiters (track_connection st e p secs) = rate_limiters st.
Proof. unfold track_connection. by destruct (e_conn_track_key e). Qed.

Lemma cache_after_track st e p secs : rule_cache (track_connection st e p secs) = rule_cache st.
Proof. unfold track_connection. by destruct (e_conn_track_key e). Qed.

Lemma limiters_after_cache st key e now : rate_limiters (cache_result st key e now) = rate_limiters st.
Proof. unfold cache_result. by destruct (_ <? _). Qed.

Lemma check_rate_limit_step st k rate burst create now s ok :
  (∀ k v, rate_limiters st !! k = Some v → last_update v <= now) → rate ≠ 0 →
  check_rate_limit st k rate burst create now = Some (s, ok) →
  limiters_step (rate_limiters st) (rate_limiters s) now ∧ rule_cache s = rule_cache st ∧
  ∃ v, rate_limiters s !! k = Some v ∧ last_update v = now.
Proof.
  intros Hm Hr. unfold check_rate_limit. apply Z.eqb_neq in Hr. rewrite Hr.
  destruct (match rate_limiters st !! k with Some _ => _ | None => _ end) as [v|]; [|done].
  cbn [mbind option_bind]. destruct (try_consume _ 1 now) as [b ok']. intros [= <- _]. simpl.
  split; [by apply limiters_step_insert|]. split; [done|]. rewrite lookup_insert_eq. eauto.
Qed.

Lemma cached_limits_step st p c e now s ok :
  (∀ k v, rate_limiters st !! k = Some v → last_update v <= now) →
  fresh_entry p c now = Some e →
  check_cached_limits st (e_rate_limit_keys e) now = Some (s, ok) →
  limiters_step (rate_limiters st) (rate_limiters s) now ∧ rule_cache s = rule_cache st ∧
  ∀ k, k ∈ e_rate_limit_keys e → ∃ v, rate_limiters s !! k = Some v ∧ last_update v = now.
Proof.
  intros Hm Hf.
  assert (Hkeys : e_rate_limit_keys e = [] ∨ ∃ k, e_rate_limit_keys e = [k]).
  { unfold fresh_entry in Hf. destruct (rules_of proc c) as [rules|]; [|done]. cbn [mbind option_bind] in Hf.
    injection Hf as <-. destruct (first_match _ _ rules p) as [rule|]; [|by left].
    rewrite rule_entry_keys. destruct (0 <? rate_limit rule); eauto. }
  destruct Hkeys as [->|[k ->]]; cbn [check_cached_limits].
  - intros [= <- <-]. split; [apply limiters_step_refl|]. split; [done|]. by intros k ?%elem_of_nil.
  - destruct (check_rate_limit st k 1 1 false now) as [[s1 ok1]|] eqn:Ec; [|done]. cbn [mbind option_bind fst snd].
    intros E. assert (s1 = s) as -> by (destruct ok1; cbn in E; congruence).
    destruct (check_rate_limit_step st k 1 1 false now s ok1 Hm ltac:(done) Ec) as (? & ? & Hv).
    split; [done|]. split; [done|]. by intros k' ->%list_elem_of_singleton.
Qed.

(** A call succeeds and keeps the cache correct. *)
Lemma process_ok st p c now0 now secs :
  cache_ok st now0 → now0 <= now → regular p →
  ∃ st' r, process st p c now secs = Some (st', r) ∧ cache_ok st' now.
Proof.
  intros Hok Ht Hp. destruct (process_agrees st p c now0 now secs Hok Hp) as (st1 & r1 & _ & _ & E & _).
  exists st1, r1. split; [done|].
  assert (Hm : ∀ k v, rate_limiters st !! k = Some v → last_update v <= now)
    by (intros k v Hv; pose proof (co_limiters st now0 Hok k v Hv); lia).
  revert E. unfold process_packet.
  destruct (rule_cache st !! from_packet_info p c) as [e|] eqn:He.
  - pose proof (cached_entry_fresh st p c e now0 now Hok Hp He) as Hf. set (e' := mkEntry _ now _ _ _ _) in *.
    unfold process_packet_with_cache_entry. set (st0 := increment_stat _ CacheHits).
    destruct (check_cached_limits st0 (e_rate_limit_keys e') now) as [[s ok]|] eqn:Ec; [|done].
    destruct (cached_limits_step st0 p c e' now s ok Hm Hf Ec) as (Hstep & Hcache & Hlim).
    cbn [mbind option_bind]. intros E.
    assert (rate_limiters st1 = rate_limiters s ∧ rule_cache st1 = rule_cache s) as [El Ecc].
    { destruct ok; cbn [negb] in E; [|by injection E as <- _].
      destruct (e_acl_result e'); [|done]. cbn [mbind option_bind] in E. injection E as <- _.
      cbn [inc_cache_entry_stats rate_limiters rule_cache]. by rewrite limiters_after_track, cache_after_track. }
    apply (cache_ok_step st st1 now0 now); [done|done|by rewrite El|].
    intros key x. rewrite Ecc, Hcache. cbn [st0 increment_stat rule_cache with_cache].
    rewrite lookup_insert_Some. intros [[<- <-]|[_ Hx]]; [right|by left].
    apply fresh_entry_ok; [done|done|]. by rewrite El.
  - destruct (rules_of proc c) as [rules|] eqn:Er.
    2:{ intros [= <- _]. apply (cache_ok_step st st now0 now); auto using limiters_step_refl. }
    destruct (first_match v4_contains v6_contains rules p) as [rule|] eqn:Efm.
    + assert (Hf : fresh_entry p c now = Some (rule_entry ip_to_text p c rule now))
        by (unfold fresh_entry; rewrite Er; cbn [mbind option_bind]; by rewrite Efm).
      unfold apply_rule. set (e := rule_entry ip_to_text p c rule now) in *.
      destruct (if 0 <? rate_limit rule then _ else _) as [[s ok]|] eqn:Ec; [|done].
      assert (Hs : limiters_step (rate_limiters st) (rate_limiters s) now ∧ rule_cache s = rule_cache st ∧
        ∀ k, k ∈ e_rate_limit_keys e → ∃ v, rate_limiters s !! k = Some v ∧ last_update v = now).
      { unfold e. rewrite rule_entry_keys. revert Ec. destruct (Z.ltb_spec 0 (rate_limit rule)); intros Ec.
        - destruct (check_rate_limit_step st _ (rate_limit rule) _ _ _ _ _ Hm ltac:(lia) Ec) as (? & ? & ?).
          split; [done|]. split; [done|]. by intros k ->%list_elem_of_singleton.
        - injection Ec as <- _. split; [apply limiters_step_refl|]. split; [done|]. by intros k ?%elem_of_nil. }
      destruct Hs as (Hstep & Hcache & Hl). cbn [mbind option_bind]. destruct ok; cbn [negb].
      2:{ intros [= <- _]. apply (cache_ok_step st s now0 now); [done..|]. intros key x. rewrite Hcache. by left. }
      destruct (e_acl_result e); [|done]. cbn [mbind option_bind]. intros [= <- _].
      assert (Elim : ∀ s', rate_limiters (cache_result (inc_cache_entry_stats (increment_stat
        (track_connection s e p secs) RuleMatches) e p) s' e now) = rate_limiters s)
        by (intros; rewrite limiters_after_cache; apply limiters_after_track).
      eapply (cache_ok_step st); [done|done|by rewrite Elim|]. intros key x Hx.
      apply cache_result_lookup in Hx as [Hx|[-> ->]].
      * left. rewrite <- Hcache. by rewrite <- (cache_after_track s e p secs).
      * right. apply fresh_entry_ok; [done..|]. by rewrite Elim.
    + assert (Hf : fresh_entry p c now = Some (default_entry proc c now))
        by (unfold fresh_entry; rewrite Er; cbn [mbind option_bind]; by rewrite Efm).
      unfold apply_default. cbn [default_entry e_acl_result mbind option_bind]. intros [= <- _].
      eapply (cache_ok_step st); [done|done|rewrite limiters_after_cache; apply limiters_step_refl|].
      intros key x Hx. apply cache_result_lookup in Hx as [Hx|[-> ->]]; [by left|right].
      apply fresh_entry_ok; [done..|]. by intros k ?%elem_of_nil.
Qed.

Lemma tick_ok st now0 now1 now2 :
  cache_ok st now0 → now0 <= now1 → now1 <= now2 <= now1 + 5 * NANOS →
  cache_ok (cleanup_tick st now1 now2) now2.
Proof.
  intros Hok H1 H2. unfold cleanup_tick. split; cbn [rule_cache rate_limiters with_limiters with_cache].
  - intros key e [He Hexp]%cleanup_cache_lookup.
    destruct (co_entries st now0 Hok _ _ He) as [Hp Hl]. split; [done|].
    intros k Hk. destruct (Hl k Hk) as (v & Hv & Hle). exists v. split; [|done].
    cbn [rate_limiters with_limiters with_cache]. apply map_lookup_filter_Some. split; [done|]. simpl.
    unfold expired_timepoint, saturating_sub, cache_cleanup_interval, NANOS in *.
    destruct (Z.ltb_spec now1 (15 * 1000000000)); lia.
  - intros key e [He _]%cleanup_cache_lookup. pose proof (co_times st now0 Hok _ _ He). lia.
  - intros k v [Hv _]%map_lookup_filter_Some. pose proof (co_limiters st now0 Hok _ _ Hv). lia.
Qed.

(** What happens to a processor. *)
Inductive AclEvent : Type :=
| PacketEvent (p : PacketInfo) (c : ChainType) (now secs : Z)
| TickEvent (now1 now2 : Z)
| ConnCleanupEvent (secs : Z).

Definition acl_step st (ev : AclEvent) : option AclState :=
  match ev with
  | PacketEvent p c now secs => fst <$> process st p c now secs
  | TickEvent now1 now2 => Some (cleanup_tick st now1 now2)
  | ConnCleanupEvent secs => Some (cleanup_expired_connections st 60 secs)
  end.

Fixpoint acl_run st (evs : list AclEvent) : option AclState :=
  match evs with
  | [] => Some st
  | ev :: rest => st' ← acl_step st ev; acl_run st' rest
  end.

(** Clocks do not run backwards, packets are regular, and a tick takes at most 5 s. *)
Fixpoint timely (now : Z) (evs : list AclEvent) : Prop :=
  match evs with
  | [] => True
  | PacketEvent p _ t _ :: rest => regular p ∧ now <= t ∧ timely t rest
  | TickEvent t1 t2 :: rest => now <= t1 ∧ t1 <= t2 <= t1 + 5 * NANOS ∧ timely t2 rest
  | ConnCleanupEvent _ :: rest => timely now rest
  end.

Lemma acl_run_ok st now evs :
  cache_ok st now → timely now evs → ∃ st' now', acl_run st evs = Some st' ∧ cache_ok st' now'.
Proof.
  revert st now. induction evs as [|ev evs IH]; intros st now Hok Ht; cbn [acl_run]; [eauto|].
  destruct ev as [p c t secs|t1 t2|secs]; cbn [acl_step].
  - destruct Ht as (Hp & Hle & Ht). destruct (process_ok st p c now t secs Hok Hle Hp) as (st' & r & -> & Hok').
    cbn [fmap option_fmap option_map mbind option_bind fst]. by eapply IH.
  - destruct Ht as (H1 & H2 & Ht). cbn [mbind option_bind]. eapply IH; [|exact Ht].
    by apply (tick_ok st now).
  - cbn [mbind option_bind]. eapply IH; [|exact Ht].
    apply (cache_ok_step st _ now now); [done|lia|apply limiters_step_refl|by left].
Qed.

(** The processor never panics: over any run of packets, cleanup ticks and
    connection cleanups from a processor with an empty cache, with whatever limiters
    and connections a previous configuration left behind, the bucket of a cached rate
    limited rule always exists (a cached entry is dropped after 15 s without use, its
    limiter only after 20 s), and every state of the run keeps the cache correct. *)
Theorem acl_never_panics ct rl sts counters now evs :
  (∀ k v, rl !! k = Some v → last_update v <= now) → timely now evs →
  ∃ st' now', acl_run (mkAclState ct rl ∅ sts counters) evs = Some st' ∧ cache_ok st' now'.
Proof.
  intros Hrl Ht. apply (acl_run_ok _ now); [|done]. split; simpl; [done..|exact Hrl].
Qed.

(** ** Rules and counters *)

Lemma insert_rule_elem (rule x : FastLookupRule V4Cidr V6Cidr) l :
  x ∈ insert_rule rule l ↔ x = rule ∨ x ∈ l.
Proof.
  induction l as [|y l IH]; cbn [insert_rule]; [by rewrite list_elem_of_singleton, elem_of_nil; tauto|].
  destruct (_ <? _); rewrite !elem_of_cons, ?IH; tauto.
Qed.

Lemma insert_rule_sorted (rule : FastLookupRule V4Cidr V6Cidr) l :
  StronglySorted (λ a b, priority b <= priority a) l →
  StronglySorted (λ a b, priority b <= priority a) (insert_rule rule l).
Proof.
  induction 1 as [|y l Hs IH Hy]; cbn [insert_rule]; [repeat constructor|].
  destruct (Z.ltb_spec (priority y) (priority rule)).
  - constructor; [by constructor|]. constructor; [lia|]. eapply Forall_impl; [exact Hy|]. simpl. lia.
  - constructor; [done|]. apply Forall_forall. intros x [->|Hx]%insert_rule_elem; [lia|].
    rewrite Forall_forall in Hy. by apply Hy.
Qed.

Lemma sort_rules_spec (l : list (FastLookupRule V4Cidr V6Cidr)) :
  StronglySorted (λ a b, priority b <= priority a) (sort_rules l) ∧ ∀ x, x ∈ sort_rules l ↔ x ∈ l.
Proof.
  unfold sort_rules.
  enough (H : ∀ acc, StronglySorted (λ a b, priority b <= priority a) acc →
    StronglySorted (λ a b, priority b <= priority a) (foldl (λ acc rule, insert_rule rule acc) acc l) ∧
    ∀ x, x ∈ foldl (λ acc rule, insert_rule rule acc) acc l ↔ x ∈ acc ∨ x ∈ l).
  { destruct (H [] ltac:(constructor)) as [H1 H2]. split; [done|]. intros x. rewrite H2, elem_of_nil. tauto. }
  induction l as [|r l IH]; intros acc Hs; cbn [foldl]; [split; [done|]; intros; rewrite elem_of_nil; tauto|].
  destruct (IH _ (insert_rule_sorted r acc Hs)) as [H1 H2]. split; [done|].
  intros x. rewrite H2, insert_rule_elem, elem_of_cons. tauto.
Qed.

Lemma first_match_sorted rules p :
  StronglySorted (λ a b, priority b <= priority a) rules →
  match first_match v4_contains v6_contains rules p with
  | Some rule => rule ∈ rules ∧ enabled rule = true ∧ rule_matches v4_contains v6_contains rule p = true ∧
      ∀ r, r ∈ rules → enabled r = true → rule_matches v4_contains v6_contains r p = true →
        priority r <= priority rule
  | None => ∀ r, r ∈ rules → enabled r = true → rule_matches v4_contains v6_contains r p = false
  end.
Proof.
  induction 1 as [|y l Hs IH Hy]; cbn [first_match find]; [by intros r ?%elem_of_nil|].
  fold (first_match v4_contains v6_contains l p).
  destruct (enabled y) eqn:He, (rule_matches v4_contains v6_contains y p) eqn:Hm; cbn [andb].
  1:{ split; [by left|]. split; [done|]. split; [done|]. intros r [->|Hr]%elem_of_cons _ _; [lia|].
      rewrite Forall_forall in Hy. by apply Hy. }
  all: destruct (first_match v4_contains v6_contains l p) as [rule|];
    [destruct IH as (H1 & H2 & H3 & H4); split; [by right|]; split; [done|]; split; [done|];
     intros r [->|Hr]%elem_of_cons ? ?; [congruence|by apply H4]
    |intros r [->|Hr]%elem_of_cons ?; [congruence|by apply IH]].
Qed.

Lemma convert_rules_enabled next (l : list Rule) x :
  x ∈ convert_rules parse_cidr next (filter (λ r, r_enabled r = true) l) → enabled x = true.
Proof.
  revert next. induction l as [|r l IH]; intros next; [by intros ?%elem_of_nil|].
  rewrite filter_cons. case_decide as Hr; [|apply IH]. cbn [convert_rules].
  intros [->|Hx]%elem_of_cons; [exact Hr|by eapply IH].
Qed.

(** The highest priority wins: the rule that decides a packet in a chain is an
    enabled rule of its configuration that matches it, and no enabled matching rule
    of the chain has a higher priority; without a deciding rule none matches. *)
Theorem highest_priority_wins next ch p :
  let rules := chain_rules parse_cidr next ch in
  let configured := convert_rules parse_cidr next (filter (λ r, r_enabled r = true) (c_rules ch)) in
  match first_match v4_contains v6_contains rules p with
  | Some rule => rule ∈ configured ∧ rule_matches v4_contains v6_contains rule p = true ∧
      ∀ r, r ∈ configured → rule_matches v4_contains v6_contains r p = true → priority r <= priority rule
  | None => ∀ r, r ∈ configured → rule_matches v4_contains v6_contains r p = false
  end.
Proof.
  intros rules configured. unfold rules, chain_rules. fold configured.
  destruct (sort_rules_spec configured) as [Hs Hin]. pose proof (first_match_sorted _ p Hs) as H.
  assert (Hen : ∀ r, r ∈ configured → enabled r = true).
  { intros r. apply convert_rules_enabled. }
  destruct (first_match _ _ _ p) as [rule|].
  - destruct H as (H1 & H2 & H3 & H4). split; [by apply Hin|]. split; [done|].
    intros r Hr Hmr. apply H4; [by apply Hin|by apply Hen|done].
  - intros r Hr. apply H; [by apply Hin|by apply Hen].
Qed.

(** A packet served by a rate limited rule is counted twice: the counters of the
    rule advance by two packets and twice the bytes, where a rule without a limit
    advances by one. *)
Theorem limited_rule_counted_twice st p c rules rule s0 now secs st' r :
  rules_of proc c = Some rules → rule_cache st !! from_packet_info p c = None →
  first_match v4_contains v6_contains rules p = Some rule →
  rule_counters st !! rule_stats rule = Some s0 →
  process st p c now secs = Some (st', r) → log_context r ≠ Some RateLimitDrop →
  rule_counters st' !! rule_stats rule =
    Some (if 0 <? rate_limit rule then bump (packet_size p) (bump (packet_size p) s0)
          else bump (packet_size p) s0).
Proof.
  intros Hr Hc Hf Hs. unfold process_packet. rewrite Hc, Hr, Hf. unfold apply_rule.
  destruct (if 0 <? rate_limit rule then _ else _) as [[s ok]|] eqn:El; [|done]. cbn [mbind option_bind].
  assert (Hcnt : rule_counters s = rule_counters st).
  { revert El. destruct (0 <? rate_limit rule); [|by intros [= <- _]]. unfold check_rate_limit.
    destruct (rate_limit rule =? 0); [by intros [= <- _]|].
    destruct (match rate_limiters st !! _ with Some _ => _ | None => _ end); [|done]. cbn [mbind option_bind].
    destruct (try_consume _ 1 now). by intros [= <- _]. }
  destruct ok; cbn [negb]; [|intros [= _ <-] Hlog; by destruct Hlog]. set (e := rule_entry ip_to_text p c rule now).
  destruct (e_acl_result e); [|done]. cbn [mbind option_bind]. intros [= <- _] _.
  assert (Hvec : e_rule_stats_vec e = (if 0 <? rate_limit rule then [rule_stats rule] else []) ++ [rule_stats rule])
    by (unfold e, rule_entry; by destruct (stateful rule && _)).
  match goal with |- context [cache_result ?x ?k ?y ?n] =>
    pose proof (core_cache_result x k y n) as [= _ _ ->] end.
  unfold inc_cache_entry_stats. cbn [rule_counters increment_stat]. rewrite Hvec.
  assert (rule_counters (track_connection s e p secs) = rule_counters st) as ->
    by (rewrite <- Hcnt; unfold track_connection; by destruct (e_conn_track_key e)).
  destruct (0 <? rate_limit rule); cbn [app foldl]; by rewrite !lookup_alter_eq, Hs.
Qed.

(** A packet with another source address. *)
Definition with_src_ip p (a : IpAddr) : PacketInfo :=
  mkPacketInfo a (dst_ip p) (src_port p) (dst_port p) (protocol p) (packet_size p) (src_groups p) (dst_groups p).

(** A source restriction that cannot be parsed disappears: a rule all of whose
    source networks are malformed matches packets from every source, so an allow
    rule with a typing error is open to all. *)
Theorem unparsable_sources_match_all r ref p a :
  (∀ s, s ∈ r_source_ips r → parse_cidr s = None) →
  rule_matches v4_contains v6_contains (convert_to_fast_lookup_rule parse_cidr r ref) (with_src_ip p a) =
  rule_matches v4_contains v6_contains (convert_to_fast_lookup_rule parse_cidr r ref) p.
Proof.
  intros Hbad.
  assert (Hnil : omap (convert_ip_inet_to_cidr parse_cidr) (r_source_ips r) = []).
  { induction (r_source_ips r) as [|s l IH]; [done|]. simpl. unfold convert_ip_inet_to_cidr at 1.
    rewrite Hbad by (by left). apply IH. intros s' Hs'. apply Hbad. by right. }
  unfold rule_matches, convert_to_fast_lookup_rule. simpl. by rewrite Hnil.
Qed.

End AclFacts.

(** ** Witnesses *)

(** Networks are single addresses, written as one code point. *)
Definition toy_parse (s : Text) : option (Z + Z) := match s with [a] => Some (inl a) | _ => None end.
Definition toy_text (a : IpAddr) : Text := match a with IpV4 b => [52; b] | IpV6 b => [54; b] end.

(** A stateful allow rule for TCP port 80-90, limited to ten packets per second. *)
Definition demo_rule : Rule :=
  mkRule 10 true 1 [[56; 48; 45; 57; 48]] [[7; 7]] [] [] 1 10 5 true [] [].

Definition demo_proc : AclProcessor Z Z * AclState :=
  new_processor toy_parse (Some [mkChain 1 true [demo_rule] 2]).

Definition demo_tcp_packet : PacketInfo :=
  mkPacketInfo (IpV4 1) (IpV4 2) (Some 5000) (Some 85) PTcp 100 [] [].

Notation demo_process st t :=
  (process_packet Z.eqb Z.eqb toy_text (fst demo_proc) st demo_tcp_packet Inbound t 1).

Lemma demo_cache_ok : cache_ok Z.eqb Z.eqb toy_text (fst demo_proc) (snd demo_proc) 0.
Proof. split; vm_compute; by intros. Qed.

Lemma demo_regular : regular demo_tcp_packet.
Proof. split; vm_compute; eauto. Qed.

Lemma acl_cache_transparent_witness :
  ∃ st r st1 r1 st2 r2,
    demo_process (snd demo_proc) 1000 = Some (st, r) ∧
    rule_cache st !! from_packet_info demo_tcp_packet Inbound ≠ None ∧
    demo_process st 2000 = Some (st1, r1) ∧ demo_process (with_cache st ∅) 2000 = Some (st2, r2) ∧
    action r1 = action r2 ∧ core st1 = core st2.
Proof.
  destruct (process_ok Z.eqb Z.eqb toy_text (fst demo_proc) (snd demo_proc) demo_tcp_packet Inbound 0 1000 1)
    as (st & r & E & Hok); [apply demo_cache_ok|lia|apply demo_regular|].
  destruct (acl_cache_transparent Z.eqb Z.eqb toy_text (fst demo_proc) st demo_tcp_packet Inbound 1000 2000 1)
    as (st1 & r1 & st2 & r2 & H1 & H2 & H3 & _ & H4); [exact Hok|apply demo_regular|].
  exists st, r, st1, r1, st2, r2. split; [exact E|]. split; [|auto].
  assert (Hc : ∃ s, demo_process (snd demo_proc) 1000 = Some s ∧
    rule_cache (fst s) !! from_packet_info demo_tcp_packet Inbound ≠ None)
    by (eexists; split; [vm_compute; reflexivity|vm_compute; congruence]).
  destruct Hc as (s & Es & Hs). rewrite E in Es. injection Es as <-. exact Hs.
Defined.

Lemma acl_never_panics_witness :
  ∃ st' now', acl_run Z.eqb Z.eqb toy_text (fst demo_proc) (mkAclState ∅ ∅ ∅ ∅ ∅)
    [PacketEvent demo_tcp_packet Inbound 1000 1; TickEvent (10 * NANOS) (14 * NANOS);
     PacketEvent demo_tcp_packet Inbound (14 * NANOS) 14; ConnCleanupEvent 99;
     TickEvent (30 * NANOS) (35 * NANOS)] = Some st' ∧
    cache_ok Z.eqb Z.eqb toy_text (fst demo_proc) st' now'.
Proof.
  apply (acl_never_panics Z.eqb Z.eqb toy_text (fst demo_proc) ∅ ∅ ∅ ∅ 0); [by intros|].
  split; [apply demo_regular|]. vm_compute. repeat split; try congruence; eauto.
Defined.

Lemma limited_rule_counted_twice_witness :
  ∃ st r, demo_process (snd demo_proc) 1000 = Some (st, r) ∧ action r = Allow ∧
    rule_counters st !! 1 = Some (mkStat 2 200).
Proof.
  destruct (demo_process (snd demo_proc) 1000) as [[st r]|] eqn:E; [|vm_compute in E; discriminate].
  exists st, r. split; [reflexivity|].
  assert (Hr : action r = Allow ∧ log_context r ≠ Some RateLimitDrop)
    by (vm_compute in E; injection E as _ <-; split; [reflexivity|discriminate]).
  split; [apply Hr|].
  refine (limited_rule_counted_twice Z.eqb Z.eqb toy_text (fst demo_proc) (snd demo_proc) demo_tcp_packet
    Inbound (inbound_rules (fst demo_proc)) (convert_to_fast_lookup_rule toy_parse demo_rule 1)
    (mkStat 0 0) 1000 1 st r _ _ _ _ E (proj2 Hr)); [reflexivity|vm_compute; reflexivity..].
Defined.

Lemma unparsable_sources_match_all_witness :
  rule_matches Z.eqb Z.eqb (convert_to_fast_lookup_rule toy_parse demo_rule 1)
    (with_src_ip demo_tcp_packet (IpV4 99)) = true.
Proof.
  rewrite (unparsable_sources_match_all Z.eqb Z.eqb toy_parse demo_rule 1 demo_tcp_packet (IpV4 99));
    [vm_compute; reflexivity|].
  by intros s ->%list_elem_of_singleton.
Defined.
