(* ===== verification/GraphAlgo.v ===== *)
(** * Shortest paths with first hops

    Models easytier-core/src/peers/route/graph_algo.rs: the reversed order of
    [MinScored], and [dijkstra_with_first_hop], Dijkstra's algorithm that also keeps
    the first hop and the length of each path.  The graph library is a parameter
    (the outgoing edges of a node and their targets); costs are [usize], so sums wrap.
    The heap of the standard library is an interface, the class [BinaryHeap], whose
    laws leave the order among equal scores open: the theorems hold for each order.
    [first_hop[&node]] on an absent key is [None].  The fuel of the loop is two
    more than the number of edges, which is enough: a push is paid for by an edge. *)

From stdpp Require Import base gmap list numbers sets.
From Stdlib Require Import ZArith Lia.
From S2P Require Import Prelude.
Local Open Scope Z_scope.

(** ** The heap *)

(** [MinScored(score, object)]. *)
Definition MinScored (K T : Type) : Type := K * T.

(** [Ord::cmp] of [MinScored] at an integer score: the comparison is reversed, and
    the NaN cases of the source do not arise. *)
Definition cmp {T} (x y : MinScored Z T) : comparison :=
  let a := x.1 in
  let b := y.1 in
  if a =? b then Eq else if a <? b then Gt else Lt.

(** [std::collections::BinaryHeap], a max-heap for the order [ord]: [heap_items]
    lists the content in the order in which the implementation stores it. *)
Class BinaryHeap {A : Type} (ord : A → A → comparison) := {
  heap_push : A → list A → list A;
  heap_pop : list A → option (A * list A);
  heap_push_items x l : heap_push x l ≡ₚ x :: l;
  heap_pop_empty : heap_pop [] = None;
  heap_pop_items l : l ≠ [] →
    ∃ x l', heap_pop l = Some (x, l') ∧ l ≡ₚ x :: l' ∧ ∀ y, y ∈ l → ord y x ≠ Gt
}.

(** ** The algorithm *)

Section Dijkstra.

Context {NodeId Edge : Type} `{Countable NodeId}.
Context (usize_bits : Z).
Context (edges : NodeId → list Edge) (target : Edge → NodeId).
Context (edge_cost : Edge → Z).
Context `{!BinaryHeap (A := MinScored Z NodeId) cmp}.

(** The local variables of the function. *)
Record DijkstraState : Type := mkState {
  visited : gset NodeId;
  scores : gmap NodeId Z;
  first_hop : gmap NodeId (NodeId * Z);
  visit_next : list (MinScored Z NodeId)
}.

(** The update shared by the occupied and the vacant entry. *)
Definition record_score (start node : NodeId) st (next : NodeId) (next_score : Z)
    : option DijkstraState :=
  hop ← (if decide (node = start) then Some (next, 0) else first_hop st !! node);
  Some (mkState (visited st) (<[next := next_score]> (scores st))
          (<[next := (fst hop, snd hop + 1)]> (first_hop st))
          (heap_push (next_score, next) (visit_next st))).

(** One round of [for edge in graph.edges(node)]. *)
Definition relax_edge (start node : NodeId) (node_score : Z) st (edge : Edge)
    : option DijkstraState :=
  let next := target edge in
  if decide (next ∈ visited st) then Some st
  else
    let next_score := wrapping_add usize_bits node_score (edge_cost edge) in
    match scores st !! next with
    | Some old =>
        if next_score <? old then record_score start node st next next_score else Some st
    | None => record_score start node st next next_score
    end.

Fixpoint relax_edges (start node : NodeId) (node_score : Z) (es : list Edge) st
    : option DijkstraState :=
  match es with
  | [] => Some st
  | e :: es' => st' ← relax_edge start node node_score st e; relax_edges start node node_score es' st'
  end.

Definition visit st (node : NodeId) : DijkstraState :=
  mkState ({[node]} ∪ visited st) (scores st) (first_hop st) (visit_next st).

Definition with_heap st q : DijkstraState :=
  mkState (visited st) (scores st) (first_hop st) q.

(** [while let Some(MinScored(node_score, node)) = visit_next.pop()]. *)
Fixpoint dijkstra_loop (fuel : nat) (start : NodeId) st : option DijkstraState :=
  match fuel with
  | O => None
  | S fuel' =>
      match heap_pop (visit_next st) with
      | None => Some st
      | Some ((node_score, node), q) =>
          if decide (node ∈ visited st) then dijkstra_loop fuel' start (with_heap st q)
          else
            st' ← relax_edges start node node_score (edges node) (with_heap st q);
            dijkstra_loop fuel' start (visit st' node)
      end
  end.

Definition initial_state (start : NodeId) : DijkstraState :=
  mkState ∅ {[start := 0]} {[start := (start, 0)]} (heap_push (0, start) []).

Definition dijkstra_with_first_hop (fuel : nat) (start : NodeId)
    : option (gmap NodeId Z * gmap NodeId (NodeId * Z)) :=
  st ← dijkstra_loop fuel start (initial_state start);
  Some (scores st, first_hop st).

(** ** Specification: walks of the graph *)

(** [walk x y d n]: a walk from [x] to [y] of cost [d] with [n] edges. *)
Inductive walk (x : NodeId) : NodeId → Z → Z → Prop :=
| walk_here : walk x x 0 0
| walk_step y d n e :
    walk x y d n → e ∈ edges y → walk x (target e) (d + edge_cost e) (n + 1).

(** The edges of a walk, in order. *)
Fixpoint trail (x : NodeId) (es : list Edge) (y : NodeId) : Prop :=
  match es with
  | [] => x = y
  | e :: es' => e ∈ edges x ∧ trail (target e) es' y
  end.

Definition total (es : list Edge) : Z := foldr (λ e d, edge_cost e + d) 0 es.

(** A walk from [start] whose first edge leads to [hop]. *)
Definition walk_via (start hop v : NodeId) (d n : Z) : Prop :=
  ∃ e d', e ∈ edges start ∧ target e = hop ∧ walk hop v d' (n - 1) ∧ d = edge_cost e + d'.

(** [scores] are the least costs, for exactly the reachable nodes. *)
Definition least_costs (start : NodeId) (sc : gmap NodeId Z) : Prop :=
  ∀ v, match sc !! v with
       | Some d => (∃ n, walk start v d n) ∧ ∀ d' n, walk start v d' n → d <= d'
       | None => ∀ d n, ¬ walk start v d n
       end.

(** [first_hop] leads along least cost walks, whose length it tells. *)
Definition leads_along (start : NodeId) (sc : gmap NodeId Z) (fh : gmap NodeId (NodeId * Z)) : Prop :=
  ∀ v, match sc !! v with
       | Some d => ∃ hop k, fh !! v = Some (hop, k) ∧
           (v = start → hop = start ∧ k = 0) ∧ (v ≠ start → walk_via start hop v d k)
       | None => fh !! v = None
       end.

(** The nodes of the graph, with costs small enough for the sums along a path to
    fit [usize]. *)
Record graph_ok (nodes : gset NodeId) (C : Z) (start : NodeId) : Prop := {
  ok_start : start ∈ nodes;
  ok_target v e : v ∈ nodes → e ∈ edges v → target e ∈ nodes;
  ok_cost v e : v ∈ nodes → e ∈ edges v → 0 <= edge_cost e <= C;
  ok_width : Z.of_nat (size nodes) * C < 2 ^ usize_bits
}.

Definition out_edges (vs : list NodeId) : nat := sum_list (map (λ v, length (edges v)) vs).

(** Enough rounds of the loop: one for the start, one per edge, and the last. *)
Definition enough_fuel (nodes : gset NodeId) : nat := 2 + out_edges (elements nodes).

End Dijkstra.

(** The heap as an unsorted list: [heap_pop] takes the first maximum.  It evaluates
    the model and shows that the interface can be implemented. *)
Fixpoint list_pop {T} (l : list (MinScored Z T)) : option (MinScored Z T * list (MinScored Z T)) :=
  match l with
  | [] => None
  | x :: l' =>
      match list_pop l' with
      | None => Some (x, [])
      | Some (y, r) => if x.1 <=? y.1 then Some (x, l') else Some (y, x :: r)
      end
  end.

Lemma list_pop_some {T} (l : list (MinScored Z T)) :
  l ≠ [] → ∃ x l', list_pop l = Some (x, l') ∧ l ≡ₚ x :: l' ∧ ∀ y, y ∈ l → x.1 <= y.1.
Proof.
  induction l as [|x l IH]; [done|intros _]. destruct l as [|z l].
  { exists x, []. cbn. repeat split; [done|]. intros y ->%list_elem_of_singleton. lia. }
  destruct IH as (y & r & E & P & M); [done|]. cbn [list_pop] in *. rewrite E.
  destruct (Z.leb_spec x.1 y.1).
  - exists x, (z :: l). repeat split; [done|]. intros w [->|Hw]%elem_of_cons; [lia|].
    specialize (M w Hw). lia.
  - exists y, (x :: r). split; [done|]. split; [rewrite P; constructor|].
    intros w [->|Hw]%elem_of_cons; [lia|auto].
Qed.

#[export] Instance list_heap {T} : BinaryHeap (A := MinScored Z T) cmp.
Proof.
  refine {| heap_push := cons; heap_pop := list_pop |}; [done|done|].
  intros l Hl. destruct (list_pop_some l Hl) as (x & l' & E & P & M).
  exists x, l'. split; [done|]. split; [done|]. intros y Hy. specialize (M y Hy).
  unfold cmp. destruct (Z.eqb_spec y.1 x.1); [done|]. destruct (Z.ltb_spec y.1 x.1); [lia|done].
Defined.

(** * Properties *)

Section Facts.

Context {NodeId Edge : Type} `{Countable NodeId}.
Context (usize_bits : Z).
Context (edges : NodeId → list Edge) (target : Edge → NodeId).
Context (edge_cost : Edge → Z).
Context `{!BinaryHeap (A := MinScored Z NodeId) cmp}.
Context (nodes : gset NodeId) (C : Z) (start : NodeId).
Context (ok : graph_ok usize_bits edges target edge_cost nodes C start).

Abbreviation walk := (walk edges target edge_cost).
Abbreviation walk_via := (walk_via edges target edge_cost).
Abbreviation relax_edge := (relax_edge usize_bits target edge_cost).
Abbreviation relax_edges := (relax_edges usize_bits target edge_cost).
Abbreviation dijkstra_loop := (dijkstra_loop usize_bits edges target edge_cost).

(** ** Walks *)

Lemma walk_app x y z d1 n1 d2 n2 :
  walk x y d1 n1 → walk y z d2 n2 → walk x z (d1 + d2) (n1 + n2).
Proof.
  intros W. induction 1 as [|y' d n e W' IH He]; [by rewrite !Z.add_0_r|].
  rewrite !Z.add_assoc. by eapply walk_step.
Qed.

Lemma walk_edge x e : e ∈ edges x → walk x (target e) (edge_cost e) 1.
Proof. intros He. apply (walk_step edges target edge_cost x x 0 0 e); [apply walk_here|done]. Qed.

Lemma trail_app x es1 y es2 z :
  trail edges target x es1 y → trail edges target y es2 z → trail edges target x (es1 ++ es2) z.
Proof. revert x. induction es1 as [|e es1 IH]; cbn; [by intros x ->|]. intros x [? ?] ?. auto. Qed.

Lemma total_app es1 es2 : total edge_cost (es1 ++ es2) = total edge_cost es1 + total edge_cost es2.
Proof. induction es1; cbn; [done|]. unfold total in *. lia. Qed.

Lemma trail_walk x es y :
  trail edges target x es y → walk x y (total edge_cost es) (len es).
Proof.
  revert x. induction es as [|e es IH]; cbn; [intros x ->; apply walk_here|].
  intros x [He W]. rewrite len_cons. eapply walk_app; [by apply walk_edge|auto].
Qed.

Lemma walk_trail x y d n :
  walk x y d n → ∃ es, trail edges target x es y ∧ total edge_cost es = d ∧ len es = n.
Proof.
  induction 1 as [|y d n e W (es & T & <- & <-) He]; [by exists []|].
  exists (es ++ [e]). split; [eapply trail_app; [done|by cbn]|].
  rewrite total_app, len_app. cbn. unfold len. cbn. lia.
Qed.

Lemma walk_via_walk hop v d n : walk_via start hop v d n → walk start v d n.
Proof.
  intros (e & d' & He & <- & W & ->). replace n with (1 + (n - 1)) by lia.
  eapply walk_app; [by apply walk_edge|done].
Qed.

Lemma walk_via_step hop v d n e :
  walk_via start hop v d n → e ∈ edges v →
  walk_via start hop (target e) (d + edge_cost e) (n + 1).
Proof.
  intros (e0 & d' & H0 & Ht & W & ->) He. exists e0, (d' + edge_cost e).
  repeat split; [done|done| |lia].
  replace (n + 1 - 1) with (n - 1 + 1) by lia. by eapply walk_step.
Qed.

Lemma walk_via_edge e : e ∈ edges start → walk_via start (target e) (target e) (edge_cost e) 1.
Proof. intros He. exists e, 0. repeat split; [done|apply walk_here|lia]. Qed.

Lemma cmp_le (x y : MinScored Z NodeId) : cmp y x ≠ Gt → x.1 <= y.1.
Proof.
  unfold cmp. destruct (Z.eqb_spec y.1 x.1); [lia|]. destruct (Z.ltb_spec y.1 x.1); [done|lia].
Qed.

Lemma walk_nodes v d n : walk start v d n → v ∈ nodes.
Proof. induction 1; [apply ok|by eapply ok_target]. Qed.

Lemma walk_nonneg v d n : walk start v d n → 0 <= d.
Proof.
  induction 1 as [|v d n e W IH He]; [done|].
  pose proof (ok_cost _ _ _ _ _ _ _ ok _ _ (walk_nodes _ _ _ W) He). lia.
Qed.

(** What the two maps say of a reachable node, with the edges of its path. *)
Lemma leads_along_trail sc fh v d :
  least_costs edges target edge_cost start sc → leads_along edges target edge_cost start sc fh →
  sc !! v = Some d →
  ∃ es, trail edges target start es v ∧ total edge_cost es = d ∧
    fh !! v = Some (match es with [] => start | e :: _ => target e end, len es) ∧
    (match es with [] => start | e :: _ => target e end) ∈ nodes ∧
    ∀ es', trail edges target start es' v → d <= total edge_cost es'.
Proof.
  intros L F Hd. pose proof (L v) as Lv. pose proof (F v) as Fv. rewrite Hd in Lv, Fv.
  destruct Lv as [_ Hmin], Fv as (hop & k & Hk & H0 & Hvia).
  assert (∀ es', trail edges target start es' v → d <= total edge_cost es') as Hbest
    by (intros es' T; eapply Hmin, trail_walk, T).
  destruct (decide (v = start)) as [->|Hne].
  - destruct (H0 eq_refl) as [-> ->]. exists []. split; [done|]. split; [|split; [done|split; [apply ok|done]]].
    pose proof (L start) as Ls. rewrite Hd in Ls. destruct Ls as [[n W] _].
    pose proof (walk_nonneg _ _ _ W). pose proof (Hbest [] eq_refl). unfold total in *. cbn in *. lia.
  - destruct (Hvia Hne) as (e & d' & He & Ht & W & Hd'). destruct (walk_trail _ _ _ _ W) as (es & T & Htot & Hlen).
    exists (e :: es). cbn. split; [split; [done|by rewrite Ht]|].
    unfold total in *. cbn. rewrite Htot. split; [done|]. rewrite Ht, Hk, len_cons, Hlen.
    split; [do 2 f_equal; lia|]. split; [|done]. rewrite <- Ht. by eapply ok_target; [|apply ok|].
Qed.

(** ** The invariant of the loop

    [cur] is the node whose edges are being relaxed, [B] bounds the path lengths. *)

Record inv (cur : option NodeId) (B : Z) (st : DijkstraState (NodeId := NodeId)) : Prop := {
  i_visited : visited st ⊆ nodes;
  i_start : scores st !! start = Some 0 ∧ first_hop st !! start = Some (start, 0);
  i_known v d : scores st !! v = Some d →
    v ∈ nodes ∧ 0 <= d ∧ ∃ hop k, first_hop st !! v = Some (hop, k) ∧ 0 <= k <= B ∧ d <= k * C ∧
      (v ≠ start → walk_via start hop v d k);
  i_unknown v : scores st !! v = None → first_hop st !! v = None;
  i_heap d v : (d, v) ∈ visit_next st → ∃ d0, scores st !! v = Some d0 ∧ d0 <= d;
  i_open v d : v ∉ visited st → Some v ≠ cur → scores st !! v = Some d → (d, v) ∈ visit_next st;
  i_order v : v ∈ visited st →
    ∃ dv, scores st !! v = Some dv ∧ ∀ d u, (d, u) ∈ visit_next st → dv <= d;
  i_closed v e : v ∈ visited st → e ∈ edges v →
    ∃ dv dy, scores st !! v = Some dv ∧ scores st !! target e = Some dy ∧ dy <= dv + edge_cost e
}.

(** The state while the edges of [node], of score [ns], are relaxed. *)
Record relaxing (node : NodeId) (ns B : Z) (st : DijkstraState (NodeId := NodeId)) : Prop := {
  r_inv : inv (Some node) B st;
  r_fresh : node ∉ visited st;
  r_score : scores st !! node = Some ns;
  r_hop hop k : first_hop st !! node = Some (hop, k) → k + 1 <= B ∧ ns <= k * C;
  r_heap d u : (d, u) ∈ visit_next st → ns <= d;
  r_visited v : v ∈ visited st → ∃ dv, scores st !! v = Some dv ∧ dv <= ns
}.

(** What relaxing edges changes: the scores only decrease, and the heap grows by at
    most one entry per edge. *)
Definition lowered (n : nat) (st st' : DijkstraState (NodeId := NodeId)) : Prop :=
  visited st' = visited st ∧ (length (visit_next st') <= n + length (visit_next st))%nat ∧
  ∀ v d, scores st !! v = Some d → ∃ d', scores st' !! v = Some d' ∧ d' <= d.

Lemma lowered_refl n st : lowered n st st.
Proof. split; [done|]. split; [lia|]. intros v d Hd. exists d. auto with lia. Qed.

Lemma lowered_trans n m st1 st2 st3 : lowered n st1 st2 → lowered m st2 st3 → lowered (n + m) st1 st3.
Proof.
  intros (V1 & L1 & S1) (V2 & L2 & S2). split; [congruence|]. split; [lia|].
  intros v d Hd. destruct (S1 v d Hd) as (d1 & H1 & ?), (S2 v d1 H1) as (d2 & H2 & ?).
  exists d2. auto with lia.
Qed.

(** The edge does reach its target at the cost of the path through [node]. *)
Definition served (st : DijkstraState (NodeId := NodeId)) (ns : Z) (e : Edge) : Prop :=
  ∃ dy, scores st !! target e = Some dy ∧ dy <= ns + edge_cost e.

Lemma served_lowered n st st' ns e : lowered n st st' → served st ns e → served st' ns e.
Proof.
  intros (_ & _ & L) (dy & Hy & ?). destruct (L _ _ Hy) as (d' & ? & ?). exists d'. auto with lia.
Qed.

(** ** Relaxing an edge *)

Lemma record_score_spec node ns B st e :
  relaxing node ns B st → e ∈ edges node → target e ∉ visited st →
  (∀ old, scores st !! target e = Some old → ns + edge_cost e < old) →
  0 <= edge_cost e <= C →
  ∃ hop k, record_score start node st (target e) (ns + edge_cost e) =
    Some (mkState (visited st) (<[target e := ns + edge_cost e]> (scores st))
            (<[target e := (hop, k)]> (first_hop st))
            (heap_push (ns + edge_cost e, target e) (visit_next st))) ∧
    walk_via start hop (target e) (ns + edge_cost e) k ∧ 0 <= k <= B ∧ ns + edge_cost e <= k * C.
Proof.
  intros R He Hf Hlt Hc. pose proof (r_inv _ _ _ _ R) as I. unfold record_score.
  destruct (i_known _ _ _ I _ _ (r_score _ _ _ _ R)) as (_ & _ & hop & k & Hk & Hb & Hd & Hw).
  destruct (r_hop _ _ _ _ R _ _ Hk) as [? ?]. case_decide as E.
  - subst node. destruct (i_start _ _ _ I) as [S0 F0]. rewrite F0 in Hk. injection Hk as <- <-.
    pose proof (r_score _ _ _ _ R) as S1. rewrite S0 in S1. injection S1 as <-.
    exists (target e), 1. cbn. split; [done|]. split; [by apply walk_via_edge|]. lia.
  - rewrite Hk. exists hop, (k + 1). cbn. split; [done|].
    split; [eapply walk_via_step; eauto|]. split; [lia|nia].
Qed.

Lemma relaxing_record node ns B st e hop k :
  relaxing node ns B st → target e ∈ nodes → target e ∉ visited st → 0 <= edge_cost e → 0 <= ns →
  (∀ old, scores st !! target e = Some old → ns + edge_cost e < old) →
  walk_via start hop (target e) (ns + edge_cost e) k → 0 <= k <= B → ns + edge_cost e <= k * C →
  relaxing node ns B
    (mkState (visited st) (<[target e := ns + edge_cost e]> (scores st))
       (<[target e := (hop, k)]> (first_hop st))
       (heap_push (ns + edge_cost e, target e) (visit_next st))).
Proof.
  intros [I Hf Hs Hh Hhp Hv] Hn Ht Hc H0 Hlt Hw Hk HC.
  assert (target e ≠ node) as N1 by (intros E; rewrite E in Hlt; specialize (Hlt _ Hs); lia).
  assert (target e ≠ start) as N2.
  { intros E. rewrite E in Hlt. specialize (Hlt _ (proj1 (i_start _ _ _ I))). lia. }
  assert (∀ v, v ∈ visited st → target e ≠ v) as N3 by (intros v Hvv E; by rewrite E in Ht).
  assert (∀ d u, (d, u) ∈ heap_push (ns + edge_cost e, target e) (visit_next st) ↔
    (d = ns + edge_cost e ∧ u = target e) ∨ (d, u) ∈ visit_next st) as P.
  { intros d u. rewrite heap_push_items, elem_of_cons. split; intros [E|E]; auto; left;
      [by injection E as -> ->|by destruct E as [-> ->]]. }
  split; cbn [visited scores first_hop visit_next]; [|done| | | |].
  - split; cbn [visited scores first_hop visit_next].
    + apply I.
    + rewrite !lookup_insert_ne by done. apply I.
    + intros v d. rewrite lookup_insert_Some. intros [[<- <-]|[Nv Hd]].
      * split; [done|]. split; [lia|]. exists hop, k. rewrite lookup_insert_eq. auto.
      * rewrite lookup_insert_ne by done. by apply I.
    + intros v. rewrite lookup_insert_None. intros [Hd Nv]. rewrite lookup_insert_ne by done. by apply I.
    + intros d v. rewrite P. intros [[-> ->]|Hd]; [rewrite lookup_insert_eq; eauto with lia|].
      destruct (i_heap _ _ _ I _ _ Hd) as (d0 & Hd0 & ?). destruct (decide (target e = v)) as [<-|Nv].
      * specialize (Hlt _ Hd0). rewrite lookup_insert_eq. eauto with lia.
      * rewrite lookup_insert_ne by done. eauto.
    + intros v d Hvv Hc'. rewrite P, lookup_insert_Some. intros [[<- <-]|[Nv Hd]]; [auto|].
      right. by apply I.
    + intros v Hvv. destruct (i_order _ _ _ I _ Hvv) as (dv & Hdv & M).
      exists dv. rewrite lookup_insert_ne by auto. split; [done|]. intros d u. rewrite P.
      intros [[-> ->]|Hd]; [|eauto]. destruct (Hv _ Hvv) as (dv' & Hdv' & ?). simplify_eq. lia.
    + intros v e' Hvv He'. destruct (i_closed _ _ _ I _ _ Hvv He') as (dv & dy & Hdv & Hdy & ?).
      exists dv. rewrite (lookup_insert_ne _ (target e) v) by auto.
      destruct (decide (target e = target e')) as [E|E].
      * rewrite E, lookup_insert_eq. rewrite <- E in Hdy. specialize (Hlt _ Hdy).
        eexists. repeat split; [done|lia].
      * rewrite lookup_insert_ne by done. eauto.
  - by rewrite lookup_insert_ne.
  - intros hop' k'. rewrite lookup_insert_ne by done. apply Hh.
  - intros d u. rewrite P. intros [[-> ->]|Hd]; [lia|eauto].
  - intros v Hvv. rewrite lookup_insert_ne by auto. eauto.
Qed.

Lemma relax_edge_spec node ns B st e :
  relaxing node ns B st → node ∈ nodes → e ∈ edges node → B <= Z.of_nat (size nodes) →
  ∃ st', relax_edge start node ns st e = Some st' ∧ relaxing node ns B st' ∧
    lowered 1 st st' ∧ served st' ns e.
Proof.
  intros R Hn He HB. pose proof (r_inv _ _ _ _ R) as I. pose proof (ok_cost _ _ _ _ _ _ _ ok _ _ Hn He) as Hc.
  pose proof (ok_target _ _ _ _ _ _ _ ok _ _ Hn He) as Ht. unfold GraphAlgo.relax_edge.
  destruct (i_known _ _ _ I _ _ (r_score _ _ _ _ R)) as (_ & H0 & hop & k & Hk & Hb & Hd & _).
  destruct (r_hop _ _ _ _ R _ _ Hk) as [HkB _].
  case_decide as Hv.
  { exists st. split; [done|]. split; [done|]. split; [apply lowered_refl|].
    destruct (r_visited _ _ _ _ R _ Hv) as (dv & ? & ?). exists dv. split; [done|lia]. }
  rewrite wrapping_add_small.
  2:{ pose proof (ok_width _ _ _ _ _ _ _ ok). unfold is_uint. nia. }
  assert (∀ Hlt : (∀ old, scores st !! target e = Some old → ns + edge_cost e < old),
    ∃ st', record_score start node st (target e) (ns + edge_cost e) = Some st' ∧
      relaxing node ns B st' ∧ lowered 1 st st' ∧ served st' ns e) as Rec.
  { intros Hlt. destruct (record_score_spec node ns B st e) as (h & k' & -> & Hw & ? & ?); [done..|].
    eexists. split; [done|]. split; [by apply relaxing_record; try lia|].
    split; [|exists (ns + edge_cost e); cbn; rewrite lookup_insert_eq; auto with lia].
    split; [done|]. split; [cbn; rewrite heap_push_items; cbn; lia|].
    intros v d Hvd. cbn. destruct (decide (target e = v)) as [<-|Nv].
    - rewrite lookup_insert_eq. specialize (Hlt _ Hvd). eauto with lia.
    - rewrite lookup_insert_ne by done. eauto with lia. }
  destruct (scores st !! target e) as [old|] eqn:E; [|by apply Rec].
  destruct (Z.ltb_spec (ns + edge_cost e) old); [apply Rec; by intros ? [= <-]|].
  exists st. split; [done|]. split; [done|]. split; [apply lowered_refl|]. exists old. auto.
Qed.

Lemma relax_edges_spec node ns B es st :
  relaxing node ns B st → node ∈ nodes → (∀ e, e ∈ es → e ∈ edges node) → B <= Z.of_nat (size nodes) →
  ∃ st', relax_edges start node ns es st = Some st' ∧ relaxing node ns B st' ∧
    lowered (length es) st st' ∧ ∀ e, e ∈ es → served st' ns e.
Proof.
  intros R Hn Hes HB. revert st R. induction es as [|e es IH]; intros st R; cbn.
  { exists st. split; [done|]. split; [done|]. split; [apply lowered_refl|]. intros e He. by apply not_elem_of_nil in He. }
  destruct (relax_edge_spec node ns B st e) as (st1 & -> & R1 & L1 & S1); [set_solver..|]. cbn.
  destruct (IH ltac:(set_solver) st1 R1) as (st2 & -> & R2 & L2 & S2).
  exists st2. split; [done|]. split; [done|]. split; [by apply (lowered_trans 1 _ _ st1)|].
  intros e' [->|He']%elem_of_cons; [|auto]. by eapply served_lowered.
Qed.

(** ** The loop *)

Definition unvisited (st : DijkstraState (NodeId := NodeId)) : list NodeId := elements (nodes ∖ visited st).

Lemma out_edges_perm l l' : l ≡ₚ l' → out_edges edges l = out_edges edges l'.
Proof. unfold out_edges. induction 1; cbn in *; lia. Qed.

Lemma out_edges_visit st node :
  node ∈ nodes → node ∉ visited st →
  out_edges edges (unvisited st) = (length (edges node) + out_edges edges (unvisited (visit st node)))%nat.
Proof.
  intros Hn Hv. unfold unvisited. rewrite (out_edges_perm _ (node :: elements (nodes ∖ visited (visit st node)))).
  { done. }
  rewrite <- elements_union_singleton by (cbn; set_solver). f_equiv. cbn.
  intros x. destruct (decide (x = node)) as [->|]; set_solver.
Qed.

Lemma inv_pop st q B node ns :
  inv None B st → heap_pop (visit_next st) = Some ((ns, node), q) →
  visit_next st ≡ₚ (ns, node) :: q ∧ (∀ d u, (d, u) ∈ visit_next st → ns <= d) ∧ node ∈ nodes.
Proof.
  intros I E. destruct (heap_pop_items (visit_next st)) as (x & l & E' & P & M).
  { intros E0. by rewrite E0, heap_pop_empty in E. }
  rewrite E in E'. injection E' as <- <-. split; [done|]. split.
  - intros d u Hd. apply (cmp_le (ns, node) (d, u)). by apply M.
  - destruct (i_heap _ _ _ I ns node) as (d0 & Hd0 & _); [rewrite P; constructor|].
    by destruct (i_known _ _ _ I _ _ Hd0).
Qed.

(** An entry of a node that was reached by a cheaper path is skipped. *)
Lemma inv_skip st q B node ns :
  inv None B st → heap_pop (visit_next st) = Some ((ns, node), q) → node ∈ visited st →
  inv None B (with_heap st q).
Proof.
  intros I E Hv. destruct (inv_pop _ _ _ _ _ I E) as (P & _ & _).
  assert (∀ d u, (d, u) ∈ q → (d, u) ∈ visit_next st) as Q by (intros; rewrite P; by constructor).
  destruct I as [I1 I2 I3 I4 I5 I6 I7 I8]. split; cbn; try done.
  - intros d v Hd. by apply I5, Q.
  - intros v d Hf Hc Hd. specialize (I6 v d Hf Hc Hd). rewrite P in I6.
    apply elem_of_cons in I6 as [[= -> ->]|]; done.
  - intros v Hvv. destruct (I7 v Hvv) as (dv & ? & M). exists dv. split; [done|]. eauto.
Qed.

Lemma inv_start_relaxing st q node ns :
  inv None (Z.of_nat (size (visited st))) st →
  heap_pop (visit_next st) = Some ((ns, node), q) → node ∉ visited st →
  relaxing node ns (Z.of_nat (size (visited st)) + 1) (with_heap st q).
Proof.
  intros I E Hv. destruct (inv_pop _ _ _ _ _ I E) as (P & M & Hn).
  assert (∀ d u, (d, u) ∈ q → (d, u) ∈ visit_next st) as Q by (intros; rewrite P; by constructor).
  assert ((ns, node) ∈ visit_next st) as Hin by (rewrite P; constructor).
  destruct I as [I1 I2 I3 I4 I5 I6 I7 I8].
  destruct (I5 _ _ Hin) as (d0 & Hd0 & ?). pose proof (M _ _ (I6 _ _ Hv ltac:(done) Hd0)).
  assert (d0 = ns) as -> by lia. split; cbn; [split; cbn|..]; try done.
  - intros v d Hd. destruct (I3 v d Hd) as (? & ? & hop & k & ? & ? & ? & ?).
    split; [done|]. split; [done|]. exists hop, k. repeat split; auto; lia.
  - intros d v Hd. by apply I5, Q.
  - intros v d Hf Hc Hd. specialize (I6 v d Hf ltac:(done) Hd). rewrite P in I6.
    apply elem_of_cons in I6 as [[= -> ->]|]; done.
  - intros v Hvv. destruct (I7 v Hvv) as (dv & ? & M'). exists dv. split; [done|]. eauto.
  - intros hop k Hk. destruct (I3 _ _ Hd0) as (_ & _ & hop' & k' & Hk' & ? & ? & _). simplify_eq. lia.
  - intros d u Hd. apply (M d u). auto.
  - intros v Hvv. destruct (I7 v Hvv) as (dv & ? & M'). exists dv. split; [done|]. eauto.
Qed.

Lemma inv_visit st node ns B :
  relaxing node ns B st → node ∈ nodes → B = Z.of_nat (size (visited st)) + 1 →
  (∀ e, e ∈ edges node → served st ns e) →
  inv None (Z.of_nat (size (visited (visit st node)))) (visit st node).
Proof.
  intros [I Hf Hs Hh Hhp Hv] Hn -> Hall. cbn. rewrite size_union by set_solver. rewrite size_singleton.
  replace (Z.of_nat (1 + size (visited st))) with (Z.of_nat (size (visited st)) + 1) by lia.
  destruct I as [I1 I2 I3 I4 I5 I6 I7 I8]. split; cbn; try done.
  - set_solver.
  - intros v d Hvv _ Hd. apply I6; set_solver.
  - intros v [->%elem_of_singleton|Hvv]%elem_of_union; [eauto|by apply I7].
  - intros v e [->%elem_of_singleton|Hvv]%elem_of_union He; [|by apply I8].
    destruct (Hall e He) as (dy & ? & ?). eauto.
Qed.

Lemma dijkstra_loop_spec fuel st :
  inv None (Z.of_nat (size (visited st))) st →
  (length (visit_next st) + out_edges edges (unvisited st) < fuel)%nat →
  ∃ st', dijkstra_loop fuel start st = Some st' ∧
    inv None (Z.of_nat (size (visited st'))) st' ∧ visit_next st' = [].
Proof.
  revert st. induction fuel as [|fuel IH]; intros st I Hfuel; [lia|]. cbn.
  destruct (heap_pop (visit_next st)) as [[[ns node] q]|] eqn:E.
  2:{ exists st. split; [done|]. split; [done|]. destruct (decide (visit_next st = [])) as [|Hne]; [done|].
      destruct (heap_pop_items _ Hne) as (x & l & E' & _). congruence. }
  destruct (inv_pop _ _ _ _ _ I E) as (P & _ & Hn). apply Permutation_length in P. cbn in P.
  case_decide as Hv.
  { apply IH; [by eapply inv_skip|]. unfold unvisited in *. cbn. lia. }
  pose proof (inv_start_relaxing _ _ _ _ I E Hv) as R.
  assert (Z.of_nat (size (visited st)) + 1 <= Z.of_nat (size nodes)).
  { enough (size ({[node]} ∪ visited st) <= size nodes)%nat as Hs.
    { rewrite size_union, size_singleton in Hs by set_solver. lia. }
    apply subseteq_size. pose proof (i_visited _ _ _ I). set_solver. }
  destruct (relax_edges_spec node ns _ (edges node) _ R) as (st1 & -> & R1 & (V1 & L1 & _) & S1); [done..|].
  cbn in V1, L1. apply IH.
  - apply (inv_visit _ _ ns _ R1); [done| |done]. by rewrite V1.
  - rewrite (out_edges_visit st node Hn Hv) in Hfuel. unfold unvisited in *. cbn in *. rewrite V1. lia.
Qed.

Lemma initial_inv : inv None (Z.of_nat (size (visited (initial_state start)))) (initial_state start).
Proof.
  assert (∀ d v, (d, v) ∈ visit_next (initial_state start) → d = 0 ∧ v = start) as P.
  { intros d v. cbn. rewrite heap_push_items, elem_of_cons. intros [[= -> ->]|Hd]; [done|].
    by apply not_elem_of_nil in Hd. }
  split; cbn [visited scores first_hop visit_next initial_state].
  - set_solver.
  - by rewrite !lookup_singleton_eq.
  - intros v d [<- <-]%lookup_singleton_Some. split; [apply ok|]. split; [lia|].
    exists start, 0. rewrite lookup_singleton_eq. repeat split; try lia; done.
  - intros v. rewrite !lookup_singleton_None. done.
  - intros d v Hd. destruct (P _ _ Hd) as [-> ->]. rewrite lookup_singleton_eq. eauto with lia.
  - intros v d _ _ [<- <-]%lookup_singleton_Some. rewrite heap_push_items. constructor.
  - set_solver.
  - set_solver.
Qed.

(** A closed state holds the least costs. *)
Lemma inv_final st B v d n :
  inv None B st → visit_next st = [] → walk start v d n → ∃ d0, scores st !! v = Some d0 ∧ d0 <= d.
Proof.
  intros I E. induction 1 as [|v d n e W (d0 & Hd0 & ?) He]; [exists 0; split; [apply I|done]|].
  assert (v ∈ visited st) as Hv.
  { destruct (decide (v ∈ visited st)) as [|Hv]; [done|].
    pose proof (i_open _ _ _ I _ _ Hv ltac:(done) Hd0) as Hin. rewrite E in Hin. by apply not_elem_of_nil in Hin. }
  destruct (i_closed _ _ _ I _ _ Hv He) as (dv & dy & ? & ? & ?). simplify_eq. eauto with lia.
Qed.

Lemma inv_walk st B v d : inv None B st → scores st !! v = Some d → ∃ n, walk start v d n.
Proof.
  intros I Hd. destruct (decide (v = start)) as [->|Hv].
  - rewrite (proj1 (i_start _ _ _ I)) in Hd. injection Hd as <-. exists 0. apply walk_here.
  - destruct (i_known _ _ _ I _ _ Hd) as (_ & _ & hop & k & _ & _ & _ & W). exists k.
    eapply walk_via_walk; eauto.
Qed.

Lemma dijkstra_spec fuel :
  (enough_fuel edges nodes <= fuel)%nat →
  ∃ sc fh, dijkstra_with_first_hop usize_bits edges target edge_cost fuel start = Some (sc, fh) ∧
    least_costs edges target edge_cost start sc ∧ leads_along edges target edge_cost start sc fh.
Proof.
  intros Hfuel. destruct (dijkstra_loop_spec fuel (initial_state start)) as (st & E & I & Hq).
  { apply initial_inv. }
  { unfold enough_fuel, unvisited in *. cbn [visited visit_next initial_state].
    rewrite heap_push_items, difference_empty_L. cbn [length]. lia. }
  exists (scores st), (first_hop st). unfold dijkstra_with_first_hop. rewrite E. split; [done|]. split.
  - intros v. destruct (scores st !! v) as [d|] eqn:Hd.
    + split; [by eapply inv_walk|]. intros d' n W.
      destruct (inv_final _ _ _ _ _ I Hq W) as (d0 & ? & ?). simplify_eq. lia.
    + intros d n W. destruct (inv_final _ _ _ _ _ I Hq W) as (d0 & ? & _). congruence.
  - intros v. destruct (scores st !! v) as [d|] eqn:Hd; [|by eapply i_unknown].
    destruct (i_known _ _ _ I _ _ Hd) as (_ & _ & hop & k & Hk & _ & _ & W). exists hop, k.
    split; [done|]. split; [|done]. intros ->. pose proof (proj2 (i_start _ _ _ I)). by simplify_eq.
Qed.

(** Least costs are bounded by the number of nodes, since least cost walks are simple. *)
Lemma least_costs_bound sc v d :
  0 <= C → least_costs edges target edge_cost start sc → sc !! v = Some d → 0 <= d <= Z.of_nat (size nodes) * C.
Proof.
  intros HC L Hd. pose proof (L v) as Lv. rewrite Hd in Lv. destruct Lv as [[n W] Hmin].
  split; [by eapply walk_nonneg|].
  destruct (dijkstra_loop_spec (enough_fuel edges nodes) (initial_state start)) as (st & _ & I & Hq).
  { apply initial_inv. }
  { unfold enough_fuel, unvisited. cbn [visited visit_next initial_state].
    rewrite heap_push_items, difference_empty_L. cbn [length]. lia. }
  destruct (inv_final _ _ _ _ _ I Hq W) as (d0 & Hd0 & _).
  destruct (inv_walk _ _ _ _ I Hd0) as [n0 W0]. pose proof (Hmin _ _ W0).
  destruct (i_known _ _ _ I _ _ Hd0) as (Hv & Hpos & hop & k & _ & Hk & HkC & _).
  pose proof (subseteq_size _ _ (i_visited _ _ _ I)).
  nia.
Qed.

End Facts.

(** C37: Dijkstra with first hops is correct for every order of the heap among equal
    scores: on a graph whose path costs fit [usize] the loop ends without a missing
    key, the scores are the least costs of the walks from the start, for exactly the
    reachable nodes, and the first hop of every other reachable node is a neighbour of
    the start on a least cost walk whose number of edges is the recorded length. *)
Theorem dijkstra_finds_shortest_paths {NodeId Edge : Type} `{Countable NodeId} usize_bits
    (edges : NodeId → list Edge) target edge_cost `{!BinaryHeap (A := MinScored Z NodeId) cmp}
    nodes C start fuel :
  graph_ok usize_bits edges target edge_cost nodes C start →
  (enough_fuel edges nodes <= fuel)%nat →
  ∃ sc fh, dijkstra_with_first_hop usize_bits edges target edge_cost fuel start = Some (sc, fh) ∧
    least_costs edges target edge_cost start sc ∧ leads_along edges target edge_cost start sc fh.
Proof. intros ok Hfuel. by eapply dijkstra_spec. Qed.

(** * Witness *)

Definition demo_edges (v : Z) : list (Z * Z) :=
  if v =? 1 then [(2, 10); (3, 1)] else if v =? 3 then [(4, 1); (1, 1)] else if v =? 4 then [(2, 1)] else [].

Lemma dijkstra_finds_shortest_paths_witness :
  (∃ sc fh, dijkstra_with_first_hop 64 demo_edges fst snd 20 1 = Some (sc, fh) ∧
    least_costs demo_edges fst snd 1 sc ∧ leads_along demo_edges fst snd 1 sc fh) ∧
  dijkstra_with_first_hop 64 demo_edges fst snd 20 1 =
    Some (list_to_map [(1, 0); (2, 3); (3, 1); (4, 2)],
          list_to_map [(1, (1, 0)); (2, (3, 3)); (3, (3, 1)); (4, (3, 2))]).
Proof.
  split; [|vm_compute; reflexivity].
  apply (dijkstra_finds_shortest_paths 64 demo_edges fst snd (list_to_set [1; 2; 3; 4]) 10).
  - assert (∀ v e, e ∈ demo_edges v →
      e.1 ∈ (list_to_set [1; 2; 3; 4] : gset Z) ∧ 0 <= e.2 <= 10) as D.
    { intros v e. unfold demo_edges.
      repeat case_match; rewrite ?elem_of_cons, ?elem_of_nil; intros He;
        destruct_or? He; subst; cbn [fst snd]; split; try lia; set_solver. }
    split; [set_solver|intros v e _ He; by apply (D v e)|intros v e _ He; by apply (D v e)|].
    vm_compute. reflexivity.
  - apply Nat.leb_le. vm_compute. reflexivity.
Defined.
