(* ===== verification/RouteTable.v ===== *)
(** * The route table

    Models [OspfRouteTable] of easytier-core/src/peers/route/peer_ospf_route.rs: the
    topology graph built from a snapshot of the link state database, the next hop map
    by least hop or least cost, the address and prefix maps, and the lookups.

    Parameters: the graph library (class [PetGraph]), its [dijkstra], the heap (class
    [BinaryHeap] of GraphAlgo.v), the iteration order of hash maps (class [HashIter]),
    the [cidr] crate (parsing, first and last address) and the longest prefix match of
    the prefix trie, which as a map is a [gmap].  A [DashMap] is a [gmap]; the table is
    rebuilt by one task at a time.  Sums of [usize] wrap, as in a release build.  A
    panic ([unwrap], an edge between absent nodes) is [None].

    The theorems say that the next hops after a rebuild are those of the shortest
    paths of the topology, for both policies, and what the prefix map prefers. *)

From stdpp Require Import base gmap list numbers strings sets.
From Stdlib Require Import ZArith Lia.
From S2P Require Import Prelude GraphAlgo.
Local Open Scope Z_scope.

(** ** Data *)

Abbreviation PeerId := Z (only parsing).
Abbreviation Version := Z (only parsing).

(** [AVOID_RELAY_COST = i32::MAX as usize]. *)
Definition AVOID_RELAY_COST : Z := 2 ^ 31 - 1.

(** [x as i32] for a [usize]. *)
Definition as_i32 (x : Z) : Z :=
  let y := wrap 32 x in if y <? 2 ^ 31 then y else y - 2 ^ 32.

(** [IpCidr] over the prefixes of the [cidr] crate. *)
Inductive IpCidr (V4 V6 : Type) : Type :=
| CidrV4 (c : V4)
| CidrV6 (c : V6).
Arguments CidrV4 {V4 V6} c.
Arguments CidrV6 {V4 V6} c.

#[export] Instance ip_cidr_eq_dec {V4 V6} `{EqDecision V4, EqDecision V6} : EqDecision (IpCidr V4 V6).
Proof. solve_decision. Defined.

(** The fields of the message [RoutePeerInfo] that the routing uses;
    [ri_feature_flag] is its [avoid_relay_data], if the flags are present, and
    [ri_rest] encodes the other fields, which CredentialTrust.v reads through a class. *)
Record RoutePeerInfo : Type := mkPeerInfo {
  ri_peer_id : PeerId;
  ri_version : Version;
  ri_peer_route_id : Z;
  ri_feature_flag : option bool;
  ri_ipv4_addr : option Z;
  ri_ipv6_addr : option (option Z);
  ri_ipv6_public_addr_lease : option (option Z);
  ri_proxy_cidrs : list string;
  ri_udp_nat_type : Z;
  ri_last_update : option Z;
  ri_rest : list Z
}.

#[export] Instance peer_info_eq_dec : EqDecision RoutePeerInfo.
Proof. solve_decision. Defined.

(** [OspfRouteSnapshot]; a [BTreeSet] of peers is a [gset]. *)
Record OspfRouteSnapshot : Type := mkSnapshot {
  peer_infos : list (PeerId * RoutePeerInfo);
  conn_map : list (PeerId * gset PeerId);
  suppressed_peer_ids : gset PeerId;
  snapshot_version : Version
}.

(** The ascending iteration of a [BTreeSet]. *)
Definition btree_iter (s : gset PeerId) : list PeerId := merge_sort Z.le (elements s).

(** [OspfRouteSnapshotLookup]: collecting into a [HashMap] keeps the last entry of a key. *)
Definition collect_map {A} (l : list (PeerId * A)) : gmap PeerId A := list_to_map (reverse l).

Definition peer_info (s : OspfRouteSnapshot) (p : PeerId) : option RoutePeerInfo :=
  collect_map (peer_infos s) !! p.

Definition connected_peers (s : OspfRouteSnapshot) (p : PeerId) : option (gset PeerId) :=
  collect_map (conn_map s) !! p.

Definition get_avoid_relay_data (s : OspfRouteSnapshot) (p : PeerId) : bool :=
  default false (info ← peer_info s p; ri_feature_flag info).

(** [OspfNextHopInfo]. *)
Record OspfNextHopInfo : Type := mkNextHop {
  next_hop_peer_id : PeerId;
  path_latency : Z;
  path_len : Z;
  nh_version : Version
}.

(** [PeerIdVersion]. *)
Record PeerIdVersion : Type := mkPeerIdVersion { pv_peer_id : PeerId; pv_version : Version }.

(** [NextHopPolicy]. *)
Inductive NextHopPolicy : Type := LeastHop | LeastCost.

(** [AtomicVersion]: [inc] wraps the stored value, and [set_if_larger] is a maximum. *)
Definition version_inc (v : Version) : Version := wrapping_add 32 v 1.
Definition set_if_larger (v version : Version) : Version := Z.max v version.

(** ** Interfaces to the libraries *)

(** An edge of the graph: source, target and weight. *)
Abbreviation GraphEdge := (nat * nat * Z)%type (only parsing).
Definition edge_source (e : GraphEdge) : nat := e.1.1.
Definition edge_target (e : GraphEdge) : nat := e.1.2.
Definition edge_weight (e : GraphEdge) : Z := e.2.

(** [petgraph::Graph<PeerId, usize, Directed>]: node indices count up in the order of
    insertion, and adding an edge between absent nodes panics. *)
Class PetGraph (G : Type) := {
  graph_new : G;
  add_node : G → PeerId → G;
  add_edge : G → nat → nat → Z → option G;
  node_weights : G → list PeerId;
  edge_references : G → list GraphEdge;
  graph_edges : G → nat → list GraphEdge;
  node_weights_new : node_weights graph_new = [];
  edges_new : edge_references graph_new = [];
  node_weights_add_node g p : node_weights (add_node g p) = node_weights g ++ [p];
  edges_add_node g p : edge_references (add_node g p) = edge_references g;
  add_edge_some g a b w : (a < length (node_weights g))%nat → (b < length (node_weights g))%nat →
    ∃ g', add_edge g a b w = Some g' ∧ node_weights g' = node_weights g ∧
      ∀ e, e ∈ edge_references g' ↔ e = (a, b, w) ∨ e ∈ edge_references g;
  graph_edges_spec g n e : e ∈ graph_edges g n ↔ e ∈ edge_references g ∧ edge_source e = n
}.

(** Two lists: an instance to evaluate the model with. *)
#[export] Instance list_graph : PetGraph (list PeerId * list GraphEdge).
Proof.
  refine {|
    graph_new := ([], []);
    add_node := λ g p, (g.1 ++ [p], g.2);
    add_edge := λ g a b w, if ((a <? length g.1) && (b <? length g.1))%nat
                           then Some (g.1, (a, b, w) :: g.2) else None;
    node_weights := fst;
    edge_references := snd;
    graph_edges := λ g n, filter (λ e, edge_source e = n) g.2 |}; try done.
  - intros g a b w Ha Hb. apply Nat.ltb_lt in Ha, Hb. rewrite Ha, Hb. eexists. split; [done|].
    split; [done|]. intros e. apply elem_of_cons.
  - intros g n e. rewrite list_elem_of_filter. tauto.
Defined.

(** ** The table *)

Section Table.

Context (usize_bits : Z).
Context {V4Cidr V6Cidr : Type} `{Countable V4Cidr, Countable V6Cidr}.
Context (parse_cidr : string → option (IpCidr V4Cidr V6Cidr)).
Context (first4 last4 : V4Cidr → Z) (first6 last6 : V6Cidr → Z).
Context (host4 : Z → V4Cidr) (host6 : Z → V6Cidr).
Context (get_lpm4 : gmap V4Cidr PeerIdVersion → V4Cidr → option PeerIdVersion).
Context (get_lpm6 : gmap V6Cidr PeerIdVersion → V6Cidr → option PeerIdVersion).
Context {G : Type} `{!PetGraph G} `{!HashIter}.
Context `{!BinaryHeap (A := MinScored Z nat) cmp}.
Context (pet_dijkstra : G → nat → (GraphEdge → Z) → gmap nat Z).
Context (calculate_cost : PeerId → PeerId → Z).

Record OspfRouteTable : Type := mkTable {
  t_peer_infos : gmap PeerId RoutePeerInfo;
  next_hop_map : gmap PeerId OspfNextHopInfo;
  t_suppressed : gset PeerId;
  ipv4_peer_id_map : gmap Z PeerIdVersion;
  ipv6_peer_id_map : gmap Z PeerIdVersion;
  cidr_peer_id_map : gmap V4Cidr PeerIdVersion;
  cidr_v6_peer_id_map : gmap V6Cidr PeerIdVersion;
  next_hop_map_version : Version
}.

Definition new : OspfRouteTable := mkTable ∅ ∅ ∅ ∅ ∅ ∅ ∅ 0.

Definition with_next_hops t m v : OspfRouteTable :=
  mkTable (t_peer_infos t) m (t_suppressed t) (ipv4_peer_id_map t) (ipv6_peer_id_map t)
    (cidr_peer_id_map t) (cidr_v6_peer_id_map t) v.

Definition with_version t v : OspfRouteTable := with_next_hops t (next_hop_map t) v.

Definition with_suppressed t s : OspfRouteTable :=
  mkTable (t_peer_infos t) (next_hop_map t) s (ipv4_peer_id_map t) (ipv6_peer_id_map t)
    (cidr_peer_id_map t) (cidr_v6_peer_id_map t) (next_hop_map_version t).

Definition with_addresses t infos v4 v6 : OspfRouteTable :=
  mkTable infos (next_hop_map t) (t_suppressed t) v4 v6
    (cidr_peer_id_map t) (cidr_v6_peer_id_map t) (next_hop_map_version t).

Definition with_cidrs t c4 c6 : OspfRouteTable :=
  mkTable (t_peer_infos t) (next_hop_map t) (t_suppressed t) (ipv4_peer_id_map t)
    (ipv6_peer_id_map t) c4 c6 (next_hop_map_version t).

(** *** Lookups *)

Definition get_topology_next_hop t (dst : PeerId) : option OspfNextHopInfo :=
  x ← next_hop_map t !! dst;
  if next_hop_map_version t <=? nh_version x then Some x else None.

Definition get_next_hop t (dst : PeerId) : option OspfNextHopInfo :=
  if decide (dst ∈ t_suppressed t) then None else get_topology_next_hop t dst.

Definition peer_reachable t (p : PeerId) : bool := bool_decide (is_Some (get_next_hop t p)).

Definition topology_peer_reachable t (p : PeerId) : bool :=
  bool_decide (is_Some (get_topology_next_hop t p)).

Definition get_peer_info t (p : PeerId) : option RoutePeerInfo := t_peer_infos t !! p.

Definition get_udp_nat_type t (p : PeerId) : option Z := ri_udp_nat_type <$> t_peer_infos t !! p.

Definition get_peer_id_by_ipv4 t (a : Z) : option PeerId := pv_peer_id <$> ipv4_peer_id_map t !! a.

Definition get_peer_id_by_ipv6 t (a : Z) : option PeerId := pv_peer_id <$> ipv6_peer_id_map t !! a.

Definition get_peer_id_for_proxy t (ip : Z + Z) : option PeerId :=
  match ip with
  | inl ipv4 => pv_peer_id <$> get_lpm4 (cidr_peer_id_map t) (host4 ipv4)
  | inr ipv6 => pv_peer_id <$> get_lpm6 (cidr_v6_peer_id_map t) (host6 ipv6)
  end.

Definition cidr_is_subset (child parent : IpCidr V4Cidr V6Cidr) : bool :=
  match child, parent with
  | CidrV4 c, CidrV4 p => (first4 p <=? first4 c) && (last4 c <=? last4 p)
  | CidrV6 c, CidrV6 p => (first6 p <=? first6 c) && (last6 c <=? last6 p)
  | _, _ => false
  end.

Definition cidr_is_subset_str (child parent : string) : bool :=
  match parse_cidr child with
  | None => false
  | Some c => match parse_cidr parent with None => false | Some p => cidr_is_subset c p end
  end.

(** *** The topology graph *)

Definition sync_suppressed_peer_ids t (s : OspfRouteSnapshot) : OspfRouteTable :=
  with_suppressed t
    (foldl (λ m p, {[p]} ∪ m) (filter (λ p, p ∈ suppressed_peer_ids s) (t_suppressed t))
       (elements (suppressed_peer_ids s))).

(** The first loop: the nodes, their indices by peer, and the node of [my_peer_id]. *)
Definition add_peer (my_peer_id : PeerId) (st : G * gmap PeerId nat * option nat)
    (entry : PeerId * RoutePeerInfo) : G * gmap PeerId nat * option nat :=
  let '(g, ix, start) := st in
  let '(peer_id, info) := entry in
  if ri_version info =? 0 then st
  else
    let node_idx := length (node_weights g) in
    (add_node g peer_id, <[peer_id := node_idx]> ix,
     if peer_id =? my_peer_id then Some node_idx else start).

(** The cost of an edge: an [i32] read as [usize], and the penalty. *)
Definition peer_edge_cost (s : OspfRouteSnapshot) (src dst : PeerId) : Z :=
  let cost := wrap usize_bits (calculate_cost src dst) in
  if get_avoid_relay_data s src then wrapping_add usize_bits cost AVOID_RELAY_COST else cost.

(** The edges of one peer. *)
Definition add_peer_edges (my_peer_id : PeerId) (s : OspfRouteSnapshot) (ix : gmap PeerId nat)
    (g : G) (src : PeerId * nat) : option G :=
  let '(src_peer_id, src_node_idx) := src in
  if negb (src_peer_id =? my_peer_id) && bool_decide (src_peer_id ∈ suppressed_peer_ids s)
  then Some g
  else
    try_fold (λ g dst_peer_id,
      match ix !! dst_peer_id with
      | None => Some g
      | Some dst_node_idx =>
          add_edge g src_node_idx dst_node_idx (peer_edge_cost s src_peer_id dst_peer_id)
      end) (btree_iter (default ∅ (connected_peers s src_peer_id))) g.

(** [NodeIndex::end()] is [None]. *)
Definition build_peer_graph_from_snapshot (my_peer_id : PeerId) (s : OspfRouteSnapshot)
    : option (G * option nat) :=
  let '(graph, ix, start) := foldl (add_peer my_peer_id) (graph_new, ∅, None) (peer_infos s) in
  match start with
  | None => Some (graph, None)
  | Some i => g ← try_fold (add_peer_edges my_peer_id s ix) (iter ix) graph; Some (g, Some i)
  end.

(** *** Cleaning *)

Definition clean_expired_route_info t : OspfRouteTable :=
  let cur_version := next_hop_map_version t in
  let t1 := with_next_hops t (filter (λ kv, cur_version <= nh_version kv.2) (next_hop_map t)) cur_version in
  with_addresses t1
    (filter (λ kv, peer_reachable t1 kv.1 = true) (t_peer_infos t1))
    (filter (λ kv, peer_reachable t1 (pv_peer_id kv.2) = true) (ipv4_peer_id_map t1))
    (filter (λ kv, peer_reachable t1 (pv_peer_id kv.2) = true) (ipv6_peer_id_map t1)).

(** *** Next hops *)

Definition graph_nodes (g : G) : gset nat := list_to_set (seq 0 (length (node_weights g))).

(** The loop body that records the next hop of one node. *)
Definition record_next_hop (g : G) (costs : gmap nat Z) (version : Version)
    (m : gmap PeerId OspfNextHopInfo) (kv : nat * (nat * Z)) : option (gmap PeerId OspfNextHopInfo) :=
  let '(dst, (next_hop, path_len)) := kv in
  next_hop_peer ← node_weights g !! next_hop;
  cost ← costs !! dst;
  let info := mkNextHop next_hop_peer (as_i32 (cost mod AVOID_RELAY_COST)) path_len version in
  dst_peer_id ← node_weights g !! dst;
  Some (match m !! dst_peer_id with
        | Some x => if nh_version x <? version then <[dst_peer_id := info]> m else m
        | None => <[dst_peer_id := info]> m
        end).

Definition gen_next_hop_map_with_least_cost t (g : G) (start : nat) (version : Version)
    : option OspfRouteTable :=
  if negb (start <? length (node_weights g))%nat then Some t
  else
    r ← dijkstra_with_first_hop usize_bits (graph_edges g) edge_target edge_weight
          (enough_fuel (graph_edges g) (graph_nodes g)) start;
    let '(costs, next_hops) := r in
    m ← try_fold (record_next_hop g costs version) (iter next_hops) (next_hop_map t);
    Some (with_next_hops t m (set_if_larger (next_hop_map_version t) version)).

Definition normalize_edge_cost (e : GraphEdge) : Z :=
  if AVOID_RELAY_COST <=? edge_weight e then AVOID_RELAY_COST + 1 else 1.

(** An edge stays when it is on a path with the least number of hops. *)
Definition keep_edge (path_len_map : gmap nat Z) (sub : G) (e : GraphEdge) : option G :=
  match path_len_map !! edge_source e, path_len_map !! edge_target e with
  | Some src_path_len, Some tgt_path_len =>
      if wrapping_add usize_bits src_path_len (normalize_edge_cost e) =? tgt_path_len
      then add_edge sub (edge_source e) (edge_target e) (edge_weight e) else Some sub
  | _, _ => Some sub
  end.

Definition gen_next_hop_map_with_least_hop t (g : G) (start : nat) (version : Version)
    : option OspfRouteTable :=
  if negb (start <? length (node_weights g))%nat then Some t
  else
    let path_len_map := pet_dijkstra g start normalize_edge_cost in
    let nodes := foldl add_node graph_new (node_weights g) in
    sub ← try_fold (keep_edge path_len_map) (edge_references g) nodes;
    gen_next_hop_map_with_least_cost t sub start version.

(** *** The rebuild *)

Definition local_proxy_cidrs (my_peer_id : PeerId) (s : OspfRouteSnapshot) : list (IpCidr V4Cidr V6Cidr) :=
  match peer_info s my_peer_id with
  | None => []
  | Some info => omap parse_cidr (ri_proxy_cidrs info)
  end.

Definition is_new_peer_better t (pv : PeerIdVersion) (item : OspfNextHopInfo) (old : PeerIdVersion) : bool :=
  if pv_version old <? pv_version pv then true
  else if pv_peer_id pv =? pv_peer_id old then false
  else match get_next_hop t (pv_peer_id old) with
       | None => true
       | Some old_next_hop => path_len item <? path_len old_next_hop
       end.

(** [entry(k).and_modify(..).or_insert(pv)]. *)
Definition upsert `{Countable K} (better : PeerIdVersion → bool) (k : K) (pv : PeerIdVersion)
    (m : gmap K PeerIdVersion) : gmap K PeerIdVersion :=
  match m !! k with
  | Some old => if better old then <[k := pv]> m else m
  | None => <[k := pv]> m
  end.

Definition upsert_opt (better : PeerIdVersion → bool) (k : option Z) (pv : PeerIdVersion)
    (m : gmap Z PeerIdVersion) : gmap Z PeerIdVersion :=
  match k with Some k => upsert better k pv m | None => m end.

Abbreviation Tries := (gmap V4Cidr PeerIdVersion * gmap V6Cidr PeerIdVersion)%type (only parsing).

(** One proxy network of a peer. *)
Definition add_proxy_cidr (my_peer_id peer_id : PeerId) (locals : list (IpCidr V4Cidr V6Cidr))
    (better : PeerIdVersion → bool) (pv : PeerIdVersion) (tries : Tries) (text : string) : Tries :=
  match parse_cidr text with
  | None => tries
  | Some cidr =>
      if negb (peer_id =? my_peer_id) && existsb (cidr_is_subset cidr) locals then tries
      else
        let better' := λ old, (peer_id =? my_peer_id) || better old in
        match cidr with
        | CidrV4 c => (upsert better' c pv tries.1, tries.2)
        | CidrV6 c => (tries.1, upsert better' c pv tries.2)
        end
  end.

(** One round of the loop over the next hop map. *)
Definition add_reachable_peer (my_peer_id : PeerId) (s : OspfRouteSnapshot)
    (st : OspfRouteTable * Tries) (kv : PeerId * OspfNextHopInfo) : OspfRouteTable * Tries :=
  let '(t, tries) := st in
  let '(peer_id, item) := kv in
  let version := snapshot_version s in
  if nh_version item <? version then st
  else if negb (peer_reachable t peer_id) then st
  else
    match peer_info s peer_id with
    | None => st
    | Some info =>
        let pv := mkPeerIdVersion peer_id version in
        let better := is_new_peer_better t pv item in
        let v4 := upsert_opt better (ri_ipv4_addr info) pv (ipv4_peer_id_map t) in
        let v6 := upsert_opt better (mjoin (ri_ipv6_addr info)) pv (ipv6_peer_id_map t) in
        let v6 := upsert_opt better (mjoin (ri_ipv6_public_addr_lease info)) pv v6 in
        let t' := with_addresses t (<[peer_id := info]> (t_peer_infos t)) v4 v6 in
        (t', foldl (add_proxy_cidr my_peer_id peer_id (local_proxy_cidrs my_peer_id s) better pv)
               tries (ri_proxy_cidrs info))
    end.

Definition fill_from_next_hops (my_peer_id : PeerId) (s : OspfRouteSnapshot) t : OspfRouteTable :=
  let '(t', (c4, c6)) := foldl (add_reachable_peer my_peer_id s) (t, (∅, ∅)) (iter (next_hop_map t)) in
  clean_expired_route_info (with_cidrs t' c4 c6).

Definition build_from_snapshot t (my_peer_id : PeerId) (s : OspfRouteSnapshot)
    (policy : NextHopPolicy) : option OspfRouteTable :=
  let version := snapshot_version s in
  let t1 := sync_suppressed_peer_ids t s in
  r ← build_peer_graph_from_snapshot my_peer_id s;
  let '(graph, start_node) := r in
  let skip := clean_expired_route_info (with_version t1 (set_if_larger (next_hop_map_version t1) version)) in
  if (length (node_weights graph) =? 0)%nat then Some skip
  else match start_node with
  | None => Some skip
  | Some start =>
      t2 ← match policy with
           | LeastHop => gen_next_hop_map_with_least_hop t1 graph start version
           | LeastCost => gen_next_hop_map_with_least_cost t1 graph start version
           end;
      Some (fill_from_next_hops my_peer_id s t2)
  end.

(** *** Listings *)

(** The routing part of [CoreRouteInfo]. *)
Record CoreRouteInfo : Type := mkRoute {
  route_info : RoutePeerInfo;
  route_next_hop_peer_id : PeerId;
  route_cost : Z;
  route_path_latency : Z;
  route_next_hop_latency_first : option PeerId;
  route_cost_latency_first : option Z;
  route_path_latency_latency_first : option Z
}.

Definition list_routes t (my_peer_id : PeerId) (with_cost : OspfRouteTable) : list CoreRouteInfo :=
  omap (λ kv : PeerId * RoutePeerInfo,
    if kv.1 =? my_peer_id then None
    else
      nh ← get_next_hop t kv.1;
      let lf := get_next_hop with_cost kv.1 in
      Some (mkRoute kv.2 (next_hop_peer_id nh) (as_i32 (path_len nh)) (path_latency nh)
              (next_hop_peer_id <$> lf) ((λ x, as_i32 (path_len x)) <$> lf) (path_latency <$> lf)))
    (iter (t_peer_infos t)).

Definition list_proxy_cidrs_excluding t (p : PeerId) : gset V4Cidr :=
  dom (filter (λ kv, pv_peer_id kv.2 ≠ p) (cidr_peer_id_map t)).

Definition list_proxy_cidrs_v6_excluding t (p : PeerId) : gset V6Cidr :=
  dom (filter (λ kv, pv_peer_id kv.2 ≠ p) (cidr_v6_peer_id_map t)).

End Table.

Arguments OspfRouteTable V4Cidr V6Cidr {_ _ _ _}.

(** * Specification: the topology and its best routes *)

Section Spec.

Context (usize_bits : Z) (calculate_cost : PeerId → PeerId → Z).
Context (my_peer_id : PeerId) (s : OspfRouteSnapshot).

(** A peer whose own information has arrived. *)
Definition known (p : PeerId) : bool :=
  existsb (λ kv : PeerId * RoutePeerInfo, (kv.1 =? p) && negb (ri_version kv.2 =? 0)) (peer_infos s).

(** A peer that may relay: a suppressed one has no outgoing edges, except ourselves. *)
Definition may_relay (p : PeerId) : bool :=
  (p =? my_peer_id) || negb (bool_decide (p ∈ suppressed_peer_ids s)).

(** The edges of the topology: neighbour and cost. *)
Definition topology (p : PeerId) : list (PeerId * Z) :=
  if known p && may_relay p then
    map (λ q, (q, peer_edge_cost usize_bits calculate_cost s p q))
      (filter (λ q, known q = true) (btree_iter (default ∅ (connected_peers s p))))
  else [].

(** A route of the topology and its cost. *)
Definition route (es : list (PeerId * Z)) (dst : PeerId) : Prop := trail topology fst my_peer_id es dst.
Definition cost (es : list (PeerId * Z)) : Z := total snd es.

(** The hops of a route, where one over an avoided relay counts as more than any
    number of others. *)
Definition hops (es : list (PeerId * Z)) : Z :=
  total (λ e, if AVOID_RELAY_COST <=? e.2 then AVOID_RELAY_COST + 1 else 1) es.

(** What the two policies minimise. *)
Definition preferred (policy : NextHopPolicy) (es es' : list (PeerId * Z)) : Prop :=
  match policy with
  | LeastCost => cost es <= cost es'
  | LeastHop => hops es < hops es' ∨ (hops es = hops es' ∧ cost es <= cost es')
  end.

(** The next hop recorded for [dst] is the first hop of a best route, with its length
    and its latency; there is none exactly when there is no route. *)
Definition best_next_hop (policy : NextHopPolicy) (dst : PeerId) (o : option OspfNextHopInfo) : Prop :=
  match o with
  | Some info => ∃ es, route es dst ∧
      info = mkNextHop (match es with [] => my_peer_id | e :: _ => e.1 end)
               (as_i32 (cost es mod AVOID_RELAY_COST)) (len es) (snapshot_version s) ∧
      ∀ es', route es' dst → preferred policy es es'
  | None => ∀ es, ¬ route es dst
  end.

(** A snapshot to route on: we know ourselves, peers are listed once, and the sums of
    costs along a path fit [usize]. *)
Record snapshot_ok (C : Z) : Prop := {
  sn_nodup : NoDup (map fst (peer_infos s));
  sn_known : known my_peer_id = true;
  sn_cost p q c : (q, c) ∈ topology p → c <= C;
  sn_width : len (peer_infos s) * C < 2 ^ usize_bits
}.

End Spec.

(** * Properties *)

Lemma set_btree_iter (s : gset PeerId) q : q ∈ btree_iter s ↔ q ∈ s.
Proof. unfold btree_iter. rewrite merge_sort_Permutation. apply elem_of_elements. Qed.

Section TableFacts.

Context (usize_bits : Z).
Context {V4Cidr V6Cidr : Type} `{Countable V4Cidr, Countable V6Cidr}.
Context {G : Type} `{!PetGraph G} `{!HashIter}.
Context `{!BinaryHeap (A := MinScored Z nat) cmp}.
Context (calculate_cost : PeerId → PeerId → Z).

Abbreviation OspfRouteTable := (OspfRouteTable V4Cidr V6Cidr).
Abbreviation gen_least_cost := (gen_next_hop_map_with_least_cost (V4Cidr := V4Cidr) (V6Cidr := V6Cidr) usize_bits).

(** ** Nodes and peers *)

(** The graph [g] is the topology [E] over the peers [ids]. *)
Record represents (g : G) (ids : list PeerId) (E : PeerId → list (PeerId * Z)) : Prop := {
  rep_nodes : node_weights g = ids;
  rep_nodup : NoDup ids;
  rep_ends e : e ∈ edge_references g → (edge_source e < length ids)%nat ∧ (edge_target e < length ids)%nat;
  rep_sound i p e : ids !! i = Some p → e ∈ graph_edges g i →
    ∃ q, ids !! edge_target e = Some q ∧ (q, edge_weight e) ∈ E p;
  rep_complete i p q c : ids !! i = Some p → (q, c) ∈ E p →
    ∃ e, e ∈ graph_edges g i ∧ ids !! edge_target e = Some q ∧ edge_weight e = c
}.

Abbreviation gtrail g := (trail (graph_edges g) edge_target).

(** The peer level view of an edge. *)
Definition peer_edge (ids : list PeerId) (e : GraphEdge) : PeerId * Z :=
  (default 0 (ids !! edge_target e), edge_weight e).

Lemma peer_edge_eq ids e q : ids !! edge_target e = Some q → peer_edge ids e = (q, edge_weight e).
Proof. unfold peer_edge. by intros ->. Qed.

Lemma trail_to_peers g ids E es i j p :
  represents g ids E → ids !! i = Some p → gtrail g i es j →
  ∃ q, ids !! j = Some q ∧ trail E fst p (map (peer_edge ids) es) q.
Proof.
  intros R. revert i p. induction es as [|e es IH]; cbn; intros i p Hp.
  { intros <-. eauto. }
  intros [He T]. destruct (rep_sound _ _ _ R _ _ _ Hp He) as (q & Hq & HE).
  destruct (IH _ _ Hq T) as (r & Hr & T'). exists r. split; [done|].
  by rewrite (peer_edge_eq _ _ _ Hq), Hq.
Qed.

Lemma trail_from_peers g ids E es i p q :
  represents g ids E → ids !! i = Some p → trail E fst p es q →
  ∃ es' j, gtrail g i es' j ∧ ids !! j = Some q ∧ es = map (peer_edge ids) es'.
Proof.
  intros R. revert i p. induction es as [|[r c] es IH]; cbn; intros i p Hp.
  { intros <-. by exists [], i. }
  intros [HE T]. destruct (rep_complete _ _ _ R _ _ _ _ Hp HE) as (e & He & Hr & <-).
  destruct (IH _ _ Hr T) as (es' & j & T' & Hq & ->). exists (e :: es'), j. cbn.
  by rewrite (peer_edge_eq _ _ _ Hr).
Qed.

Lemma total_peers ids es (w : Z → Z) :
  total (λ e, w (snd e)) (map (peer_edge ids) es) = total (λ e, w (edge_weight e)) es.
Proof. induction es as [|e es IH]; cbn; [done|]. unfold total in *. cbn. by rewrite IH. Qed.

Lemma represents_ids_inj g ids E i j p :
  represents g ids E → ids !! i = Some p → ids !! j = Some p → i = j.
Proof. intros R. eapply NoDup_lookup, R. Qed.

(** ** The graph of a snapshot *)

Definition known_ids (s : OspfRouteSnapshot) : list PeerId :=
  map fst (filter (λ kv, ri_version kv.2 ≠ 0) (peer_infos s)).

Lemma known_ids_known s p : p ∈ known_ids s ↔ known s p = true.
Proof.
  unfold known_ids, known. rewrite existsb_exists, list_elem_of_fmap. split.
  - intros (kv & -> & [Hv Hin]%list_elem_of_filter). exists kv. split; [by apply list_elem_of_In|].
    rewrite Z.eqb_refl. by apply negb_true_iff, Z.eqb_neq.
  - intros (kv & Hin & [<-%Z.eqb_eq Hv%negb_true_iff%Z.eqb_neq]%andb_true_iff). exists kv. split; [done|].
    apply list_elem_of_filter. split; [done|]. by apply list_elem_of_In.
Qed.

Lemma filter_fst_sublist (P : PeerId * RoutePeerInfo → Prop) `{∀ x, Decision (P x)} l :
  sublist (map fst (filter P l)) (map fst l).
Proof. induction l as [|x l IH]; [done|]. rewrite filter_cons. case_decide; cbn; by constructor. Qed.

Lemma known_ids_nodup s : NoDup (map fst (peer_infos s)) → NoDup (known_ids s).
Proof. intros ND. eapply sublist_NoDup; [done|]. apply filter_fst_sublist. Qed.

(** The state of the first loop after the peers [done]. *)
Definition nodes_inv (my_peer_id : PeerId) (done : list (PeerId * RoutePeerInfo))
    (st : G * gmap PeerId nat * option nat) : Prop :=
  let ids := map fst (filter (λ kv, ri_version kv.2 ≠ 0) done) in
  let '(g, ix, start) := st in
  node_weights g = ids ∧ edge_references g = [] ∧
  (NoDup ids → ∀ p i, ix !! p = Some i ↔ ids !! i = Some p) ∧
  match start with Some i => ids !! i = Some my_peer_id | None => my_peer_id ∉ ids end.

Lemma add_peer_inv my_peer_id done x st :
  nodes_inv my_peer_id done st → nodes_inv my_peer_id (done ++ [x]) (add_peer my_peer_id st x).
Proof.
  destruct st as [[g ix] start], x as [p info]. unfold nodes_inv, add_peer.
  rewrite filter_app, map_app. intros (Hg & He & Hix & Hst).
  destruct (Z.eqb_spec (ri_version info) 0) as [E|E].
  { rewrite filter_cons_False by tauto. cbn. by rewrite app_nil_r. }
  rewrite filter_cons_True by done. cbn [map filter list_filter fst].
  set (ids := map fst (filter (λ kv, ri_version kv.2 ≠ 0) done)) in *.
  split; [by rewrite node_weights_add_node, Hg|]. split; [by rewrite edges_add_node|]. rewrite Hg. split.
  - intros ND q i. apply NoDup_app in ND as (ND & Hd & _).
    rewrite lookup_insert_Some, lookup_app, Hix by done. split.
    + intros [[<- <-]|[Hq Hi]]; [|by rewrite Hi].
      rewrite lookup_ge_None_2 by lia. by rewrite Nat.sub_diag.
    + destruct (ids !! i) as [r|] eqn:Ei.
      * intros [= ->]. right. split; [|done]. intros ->.
        apply (Hd q); [by eapply list_elem_of_lookup_2|set_solver].
      * intros Hl. apply list_lookup_singleton_Some in Hl as [Hi <-]. apply lookup_ge_None in Ei.
        left. split; [done|lia].
  - destruct (Z.eqb_spec p my_peer_id) as [->|Hp].
    + by rewrite lookup_app_r, Nat.sub_diag.
    + destruct start as [i|]; [by apply lookup_app_l_Some|]. set_solver.
Qed.


Lemma add_nodes_spec my_peer_id s g ix start :
  foldl (add_peer my_peer_id) (graph_new, ∅, None) (peer_infos s) = (g, ix, start) →
  nodes_inv my_peer_id (peer_infos s) (g, ix, start).
Proof.
  intros <-. apply (foldl_inv (nodes_inv my_peer_id)); [|intros; by apply add_peer_inv].
  split; [apply node_weights_new|]. split; [apply edges_new|]. cbn. split; [|by apply not_elem_of_nil].
  intros _ p i. by rewrite lookup_empty.
Qed.

(** The edges of one peer, whose node is [i]. *)
Lemma add_peer_edges_spec my_peer_id s ix ids g p i :
  node_weights g = ids → ids !! i = Some p → (∀ q j, ix !! q = Some j → ids !! j = Some q) →
  ∃ g', add_peer_edges usize_bits calculate_cost my_peer_id s ix g (p, i) = Some g' ∧ node_weights g' = ids ∧
    ∀ e, e ∈ edge_references g' ↔ e ∈ edge_references g ∨
      (may_relay my_peer_id s p = true ∧ ∃ q j, q ∈ default ∅ (connected_peers s p) ∧ ix !! q = Some j ∧
        e = (i, j, peer_edge_cost usize_bits calculate_cost s p q)).
Proof.
  intros Hg Hi Hix. unfold add_peer_edges, may_relay.
  assert ((p =? my_peer_id) || negb (bool_decide (p ∈ suppressed_peer_ids s)) =
    negb (negb (p =? my_peer_id) && bool_decide (p ∈ suppressed_peer_ids s))) as ->
    by (by rewrite negb_andb, negb_involutive).
  destruct (negb (p =? my_peer_id) && _); cbn [negb].
  { exists g. split; [done|]. split; [done|]. intros e. split; [auto|]. intros [|[? _]]; done. }
  destruct (try_fold_inv (λ (done : list PeerId) g', node_weights g' = ids ∧ ∀ e, e ∈ edge_references g' ↔
      e ∈ edge_references g ∨ ∃ q j, q ∈ done ∧ ix !! q = Some j ∧
        e = (i, j, peer_edge_cost usize_bits calculate_cost s p q))
    (λ g dst, match ix !! dst with
       | Some j => add_edge g i j (peer_edge_cost usize_bits calculate_cost s p dst)
       | None => Some g end) (btree_iter (default ∅ (connected_peers s p))) g) as (g' & -> & Hg' & He).
  - split; [done|]. intros e. split; [auto|]. intros [|(q & j & Hq & _)]; [done|]. by apply not_elem_of_nil in Hq.
  - intros done q g1 _ (Hn & He). destruct (ix !! q) as [j|] eqn:Hq.
    + destruct (add_edge_some g1 i j (peer_edge_cost usize_bits calculate_cost s p q)) as (g2 & -> & Hn2 & He2).
      { rewrite Hn. by eapply lookup_lt_Some. }
      { rewrite Hn. eapply lookup_lt_Some. eauto. }
      exists g2. split; [done|]. split; [congruence|]. intros e. rewrite He2, He. split.
      * intros [->|[|(q' & j' & ? & ? & ->)]]; [right; exists q, j; set_solver|auto|right; exists q', j'; set_solver].
      * intros [|(q' & j' & [Hd| ->%list_elem_of_singleton]%elem_of_app & ? & ->)]; [auto|right; right; eauto|left; congruence].
    + exists g1. split; [done|]. split; [done|]. intros e. rewrite He. split.
      * intros [|(q' & j' & ? & ? & ->)]; [auto|right; exists q', j'; set_solver].
      * intros [|(q' & j' & [Hd| ->%list_elem_of_singleton]%elem_of_app & ? & ->)]; [auto|right; eauto|congruence].
  - exists g'. split; [done|]. split; [done|]. intros e. rewrite He. f_equiv. split.
    + intros (q & j & ?%set_btree_iter & ? & ->). split; [done|]. eauto.
    + intros (_ & q & j & ?%set_btree_iter & ? & ->). eauto.
Qed.

Lemma build_graph_spec my_peer_id s :
  NoDup (map fst (peer_infos s)) → known s my_peer_id = true →
  ∃ g i, build_peer_graph_from_snapshot usize_bits calculate_cost my_peer_id s = Some (g, Some i) ∧
    known_ids s !! i = Some my_peer_id ∧
    represents g (known_ids s) (topology usize_bits calculate_cost my_peer_id s).
Proof.
  intros ND Hme. pose proof (known_ids_nodup _ ND) as NDi. unfold build_peer_graph_from_snapshot.
  destruct (foldl _ _ _) as [[g ix] start] eqn:E.
  destruct (add_nodes_spec _ _ _ _ _ E) as (Hg & He & Hix & Hst). fold (known_ids s) in *.
  specialize (Hix NDi). destruct start as [i|]; [|by apply known_ids_known in Hme].
  destruct (try_fold_inv (λ (done : list (PeerId * nat)) g', node_weights g' = known_ids s ∧
      ∀ e, e ∈ edge_references g' ↔ ∃ p k q j, (p, k) ∈ done ∧ may_relay my_peer_id s p = true ∧
        q ∈ default ∅ (connected_peers s p) ∧ ix !! q = Some j ∧
        e = (k, j, peer_edge_cost usize_bits calculate_cost s p q))
    (add_peer_edges usize_bits calculate_cost my_peer_id s ix) (iter ix) g) as (g' & -> & Hg' & He').
  - split; [done|]. intros e. rewrite He. split; [intros []%not_elem_of_nil|].
    intros (p & k & q & j & []%not_elem_of_nil & _).
  - intros done [p k] g1 Hin (Hn & He1). rewrite iter_perm in Hin. apply elem_of_map_to_list, Hix in Hin.
    destruct (add_peer_edges_spec my_peer_id s ix (known_ids s) g1 p k Hn Hin) as (g2 & -> & Hn2 & He2).
    { intros q j. apply Hix. }
    exists g2. split; [done|]. split; [done|]. intros e. rewrite He2, He1. split.
    + intros [(p' & k' & q & j & ? & ?)|(? & q & j & ? & ? & ->)]; [exists p', k', q, j|exists p, k, q, j]; set_solver.
    + intros (p' & k' & q & j & [Hd|[= -> ->]%list_elem_of_singleton]%elem_of_app & ? & ? & ? & ->);
        [left; exists p', k', q, j; auto|right; eauto 6].
  - exists g', i. split; [done|]. split; [done|].
    assert (∀ p k, (p, k) ∈ iter ix ↔ known_ids s !! k = Some p) as Hit.
    { intros p k. rewrite iter_perm, elem_of_map_to_list. apply Hix. }
    split; [done|done| | |].
    + intros e (p & k & q & j & Hk%Hit & _ & _ & Hj%Hix & ->)%He'. cbn.
      split; by eapply lookup_lt_Some.
    + intros k p e Hk [(p' & k' & q & j & Hd & Hr & Hq & Hj & ->)%He' Hs]%graph_edges_spec.
      cbn in Hs. subst k'. apply Hit in Hd. assert (p' = p) as -> by congruence. exists q. cbn.
      apply Hix in Hj. split; [done|]. unfold topology.
      assert (known s p = true) as -> by (apply known_ids_known; by eapply list_elem_of_lookup_2).
      rewrite Hr. cbn. apply list_elem_of_fmap. exists q. split; [done|]. apply list_elem_of_filter.
      split; [apply known_ids_known; by eapply list_elem_of_lookup_2|]. by apply set_btree_iter.
    + intros k p q c Hk HE. unfold topology in HE.
      destruct (known s p); cbn in HE; [|by apply not_elem_of_nil in HE].
      destruct (may_relay my_peer_id s p) eqn:Hr; [|by apply not_elem_of_nil in HE].
      apply list_elem_of_fmap in HE as (q' & [= -> ->] & [Hkq Hq]%list_elem_of_filter).
      apply known_ids_known, list_elem_of_lookup in Hkq as (j & Hj). apply set_btree_iter in Hq.
      exists (k, j, peer_edge_cost usize_bits calculate_cost s p q'). split; [|done].
      apply graph_edges_spec. split; [|done]. apply He'. exists p, k, q', j. rewrite Hit, Hix. auto.
Qed.


(** ** Least cost next hops *)

Abbreviation ggraph_ok g w C start := (graph_ok usize_bits (graph_edges g) edge_target w (graph_nodes g) C start).

Lemma graph_nodes_weight (g : G) i : i ∈ graph_nodes g → ∃ p, node_weights g !! i = Some p.
Proof.
  unfold graph_nodes. rewrite elem_of_list_to_set, elem_of_seq. intros Hi.
  apply lookup_lt_is_Some. lia.
Qed.

Lemma weight_graph_nodes (g : G) i p : node_weights g !! i = Some p → i ∈ graph_nodes g.
Proof.
  intros Hi%lookup_lt_Some. unfold graph_nodes. rewrite elem_of_list_to_set, elem_of_seq. lia.
Qed.

Definition gcost (es : list GraphEdge) : Z := total edge_weight es.
Definition ghops (es : list GraphEdge) : Z := total normalize_edge_cost es.

Definition gpreferred (policy : NextHopPolicy) (es es' : list GraphEdge) : Prop :=
  match policy with
  | LeastCost => gcost es <= gcost es'
  | LeastHop => ghops es < ghops es' ∨ (ghops es = ghops es' ∧ gcost es <= gcost es')
  end.

(** The node level statement of a best next hop. *)
Definition node_next_hop (policy : NextHopPolicy) (g : G) (start : nat) (version : Version) (i : nat)
    (o : option OspfNextHopInfo) : Prop :=
  match o with
  | Some info => ∃ es hp, gtrail g start es i ∧
      node_weights g !! (match es with [] => start | e :: _ => edge_target e end) = Some hp ∧
      info = mkNextHop hp (as_i32 (gcost es mod AVOID_RELAY_COST)) (len es) version ∧
      ∀ es', gtrail g start es' i → gpreferred policy es es'
  | None => ∀ es, ¬ gtrail g start es i
  end.

(** The map after the next hops [done] have been recorded. *)
Definition recorded (g : G) (costs : gmap nat Z) version (old : gmap PeerId OspfNextHopInfo)
    (done : list (nat * (nat * Z))) (m : gmap PeerId OspfNextHopInfo) : Prop :=
  ∀ p, (∃ i hop k d hp, (i, (hop, k)) ∈ done ∧ node_weights g !! i = Some p ∧ costs !! i = Some d ∧
          node_weights g !! hop = Some hp ∧
          m !! p = Some (mkNextHop hp (as_i32 (d mod AVOID_RELAY_COST)) k version)) ∨
       ((∀ i v, (i, v) ∈ done → node_weights g !! i ≠ Some p) ∧ m !! p = old !! p).

Lemma record_next_hop_spec g costs version old done m i hop k d p hp :
  (∀ q x, old !! q = Some x → nh_version x < version) →
  recorded g costs version old done m →
  node_weights g !! i = Some p → node_weights g !! hop = Some hp → costs !! i = Some d →
  ∃ m', record_next_hop g costs version m (i, (hop, k)) = Some m' ∧
    recorded g costs version old (done ++ [(i, (hop, k))]) m'.
Proof.
  intros Hold R Hp Hhp Hd. unfold record_next_hop. rewrite Hhp, Hd. cbn. rewrite Hp. cbn.
  set (info := mkNextHop hp _ k version). eexists. split; [done|]. intros q.
  destruct (decide (q = p)) as [->|Hq].
  - left. destruct (R p) as [(i' & hop' & k' & d' & hp' & Hin & Hi' & Hd' & Hhp' & Hm)|[_ Hm]].
    + exists i', hop', k', d', hp'. rewrite Hm. cbn. rewrite Z.ltb_irrefl. repeat split; [set_solver|done..].
    + exists i, hop, k, d, hp. repeat split; [set_solver|done..|]. rewrite Hm.
      destruct (old !! p) as [x|] eqn:Ho; [|apply lookup_insert_eq].
      rewrite (proj2 (Z.ltb_lt _ _) (Hold _ _ Ho)). apply lookup_insert_eq.
  - assert (∀ m0 : gmap PeerId OspfNextHopInfo, match m !! p with
       | Some x => if nh_version x <? version then <[p := info]> m else m
       | None => <[p := info]> m end !! q = m !! q) as Hsame.
    { intros _. repeat case_match; by rewrite ?lookup_insert_ne. }
    rewrite (Hsame m). destruct (R q) as [(i' & hop' & k' & d' & hp' & Hin & ? & ? & ? & ?)|[Hno Hm]].
    + left. exists i', hop', k', d', hp'. repeat split; [set_solver|done..].
    + right. split; [|done]. intros i' v [Hin|[= -> ->]%list_elem_of_singleton]%elem_of_app; [eauto|congruence].
Qed.


(** Every recorded next hop is older than the rebuild with version [v]. *)
Definition older (t : OspfRouteTable) (v : Version) : Prop :=
  (∀ p x, next_hop_map t !! p = Some x → nh_version x < v) ∧ next_hop_map_version t < v.

Lemma gen_least_cost_spec t g C start version :
  ggraph_ok g edge_weight C start → NoDup (node_weights g) → older t version →
  ∃ t', gen_least_cost t g start version = Some t' ∧
    t' = with_next_hops t (next_hop_map t') version ∧
    (∀ i p, node_weights g !! i = Some p → node_next_hop LeastCost g start version i (get_topology_next_hop t' p)) ∧
    ∀ p, p ∉ node_weights g → get_topology_next_hop t' p = None.
Proof.
  intros ok ND [Hold Hv]. unfold gen_next_hop_map_with_least_cost.
  destruct (graph_nodes_weight g start (ok_start _ _ _ _ _ _ _ ok)) as (my & Hmy).
  rewrite (proj2 (Nat.ltb_lt _ _) (lookup_lt_Some _ _ _ Hmy)). cbn [negb].
  destruct (dijkstra_spec usize_bits _ _ _ _ _ _ ok _ (le_n _)) as (sc & fh & -> & L & F). cbn.
  destruct (try_fold_inv (recorded g sc version (next_hop_map t)) (record_next_hop g sc version)
    (iter fh) (next_hop_map t)) as (m & -> & R).
  - intros p. right. split; [|done]. by intros i v ?%not_elem_of_nil.
  - intros done [i [hop k]] m Hin R. rewrite iter_perm in Hin. apply elem_of_map_to_list in Hin.
    pose proof (F i) as Fi. destruct (sc !! i) as [d|] eqn:Hd; [|congruence].
    destruct (leads_along_trail _ _ _ _ _ _ _ ok _ _ _ _ L F Hd) as (es & T & _ & Hfh & Hhop & _).
    rewrite Hin in Hfh. injection Hfh as -> ->.
    destruct (graph_nodes_weight _ _ Hhop) as (hp & Hhp).
    destruct (graph_nodes_weight g i) as (p & Hp).
    { eapply walk_nodes; [exact ok|]. eapply (trail_walk _ _ edge_weight), T. }
    eapply record_next_hop_spec; eauto.
  - cbn. exists (with_next_hops t m (set_if_larger (next_hop_map_version t) version)).
    unfold set_if_larger. replace (Z.max (next_hop_map_version t) version) with version by lia.
    split; [done|]. split; [done|].
    assert (∀ p, (∀ i v, (i, v) ∈ iter fh → node_weights g !! i ≠ Some p) →
      m !! p = next_hop_map t !! p → get_topology_next_hop (with_next_hops t m version) p = None) as Hnone.
    { intros p _ Hm. unfold get_topology_next_hop. cbn. rewrite Hm.
      destruct (next_hop_map t !! p) as [x|] eqn:Hx; [|done]. cbn.
      by rewrite (proj2 (Z.leb_gt _ _) (Hold _ _ Hx)). }
    split.
    + intros i p Hp. destruct (R p) as [(i' & hop & k & d & hp & Hin & Hp' & Hd & Hhp & Hm)|[Hno Hm]].
      * assert (i' = i) as -> by (eapply NoDup_lookup; eauto). rewrite iter_perm in Hin.
        apply elem_of_map_to_list in Hin. unfold get_topology_next_hop. cbn. rewrite Hm. cbn.
        rewrite Z.leb_refl.
        destruct (leads_along_trail _ _ _ _ _ _ _ ok _ _ _ _ L F Hd) as (es & T & Htot & Hfh & _ & Hmin).
        rewrite Hin in Hfh. injection Hfh as -> ->. exists es, hp. split; [done|]. split; [done|].
        unfold gcost. rewrite Htot. split; [done|]. intros es' T'. unfold gpreferred, gcost. rewrite Htot. auto.
      * rewrite Hnone by done. intros es T. apply (trail_walk _ _ edge_weight) in T.
        pose proof (L i) as Li. pose proof (F i) as Fi. destruct (sc !! i) as [d|] eqn:Hd.
        { destruct Fi as (hop & k & Hk & _). eapply Hno; [|done]. rewrite iter_perm.
          by apply elem_of_map_to_list. }
        by eapply Li.
    + intros p Hp. destruct (R p) as [(i' & hop & k & d & hp & _ & Hp' & _)|[Hno Hm]]; [|by apply Hnone].
      destruct Hp. by eapply list_elem_of_lookup_2.
Qed.

(** ** Least hop next hops *)

(** The subgraph of the edges that are tight for the distances [D]. *)
Definition tight (g sub : G) (D : gmap nat Z) : Prop :=
  node_weights sub = node_weights g ∧
  ∀ e, e ∈ edge_references sub ↔ e ∈ edge_references g ∧
    ∃ d, D !! edge_source e = Some d ∧ D !! edge_target e = Some (d + normalize_edge_cost e).

Lemma copy_nodes_spec (l : list PeerId) :
  node_weights (foldl add_node (graph_new : G) l) = l ∧ edge_references (foldl add_node (graph_new : G) l) = [].
Proof.
  apply (foldl_inv (λ (done : list PeerId) (g : G), node_weights g = done ∧ edge_references g = [])).
  - split; [apply node_weights_new|apply edges_new].
  - intros done x g _ [? ?]. rewrite node_weights_add_node, edges_add_node. split; congruence.
Qed.

Lemma subgraph_spec (g : G) D :
  (∀ e, e ∈ edge_references g → (edge_source e < length (node_weights g))%nat ∧
     (edge_target e < length (node_weights g))%nat) →
  (∀ e d, e ∈ edge_references g → D !! edge_source e = Some d →
     is_uint usize_bits (d + normalize_edge_cost e)) →
  ∃ sub, try_fold (keep_edge usize_bits D) (edge_references g) (foldl add_node graph_new (node_weights g)) = Some sub ∧
    tight g sub D.
Proof.
  intros Hends Huint. destruct (copy_nodes_spec (node_weights g)) as [Hn He].
  destruct (try_fold_inv (λ (done : list GraphEdge) sub, node_weights sub = node_weights g ∧
      ∀ e, e ∈ edge_references sub ↔ e ∈ done ∧
        ∃ d, D !! edge_source e = Some d ∧ D !! edge_target e = Some (d + normalize_edge_cost e))
    (keep_edge usize_bits D) (edge_references g) (foldl add_node graph_new (node_weights g)))
    as (sub & -> & Hs & Hes); [| |by exists sub].
  - split; [done|]. intros e. rewrite He. split; [by intros ?%not_elem_of_nil|by intros [?%not_elem_of_nil _]].
  - intros done e sub Hin [Hs Hes]. unfold keep_edge.
    assert (¬ (∃ d, D !! edge_source e = Some d ∧ D !! edge_target e = Some (d + normalize_edge_cost e)) →
      ∃ a', Some sub = Some a' ∧ node_weights a' = node_weights g ∧ ∀ e', e' ∈ edge_references a' ↔
        e' ∈ done ++ [e] ∧ ∃ d, D !! edge_source e' = Some d ∧ D !! edge_target e' = Some (d + normalize_edge_cost e'))
      as Hskip.
    { intros Hno. exists sub. split; [done|]. split; [done|]. intros e'. rewrite Hes. split.
      - intros [? ?]. split; [set_solver|done].
      - intros [[?| ->%list_elem_of_singleton]%elem_of_app ?]; [done|by destruct Hno]. }
    destruct (D !! edge_source e) as [d|] eqn:Hd; [|apply Hskip; by intros (? & ? & ?)].
    destruct (D !! edge_target e) as [d'|] eqn:Hd'; [|apply Hskip; by intros (? & ? & ?)].
    rewrite wrapping_add_small by eauto.
    destruct (Z.eqb_spec (d + normalize_edge_cost e) d') as [<-|Hne].
    2:{ apply Hskip. intros (d0 & ? & ?). simplify_eq. }
    destruct (Hends e Hin) as [H1' H2'].
    destruct (add_edge_some sub (edge_source e) (edge_target e) (edge_weight e)) as (sub' & -> & Hs' & Hes');
      [by rewrite Hs..|].
    exists sub'. split; [done|]. split; [congruence|]. intros e'. rewrite Hes', Hes.
    replace (edge_source e, edge_target e, edge_weight e) with e by (by destruct e as [[? ?] ?]). split.
    + intros [->|[? ?]]; split; [set_solver|eauto|set_solver|done].
    + intros [[?| ->%list_elem_of_singleton]%elem_of_app ?]; auto.
Qed.


Lemma trail_app_inv {N E} (edges : N → list E) target x es1 es2 y :
  trail edges target x (es1 ++ es2) y → ∃ z, trail edges target x es1 z ∧ trail edges target z es2 y.
Proof.
  revert x. induction es1 as [|e es1 IH]; cbn; [by eauto|]. intros x [? (z & ? & ?)%IH]. eauto.
Qed.

Lemma normalize_range e : 1 <= normalize_edge_cost e <= AVOID_RELAY_COST + 1.
Proof. unfold normalize_edge_cost, AVOID_RELAY_COST. case_match; lia. Qed.

Lemma tight_graph_edges g sub D i e :
  tight g sub D → e ∈ graph_edges sub i ↔ e ∈ graph_edges g i ∧
    ∃ d, D !! i = Some d ∧ D !! edge_target e = Some (d + normalize_edge_cost e).
Proof.
  intros [_ He]. rewrite !graph_edges_spec, He. split; [by intros [[? ?] <-]|]. intros [[? <-] ?]. auto.
Qed.

Lemma tight_trail g sub D x es y d :
  tight g sub D → gtrail sub x es y → D !! x = Some d →
  gtrail g x es y ∧ D !! y = Some (d + ghops es).
Proof.
  intros T. revert x d. unfold ghops, total. induction es as [|e es IH]; cbn; intros x d.
  { intros -> Hd. by rewrite Z.add_0_r. }
  intros [He W] Hd. apply (tight_graph_edges _ _ _ _ _ T) in He as [He (d0 & Hd0 & Ht)].
  simplify_eq. destruct (IH _ _ W Ht) as [W' Hy]. rewrite Hy. split; [done|]. f_equal. lia.
Qed.

(** A path with the least number of hops uses tight edges only. *)
Lemma trail_tight g sub D start es y :
  tight g sub D → least_costs (graph_edges g) edge_target normalize_edge_cost start D →
  gtrail g start es y → D !! y = Some (ghops es) → gtrail sub start es y.
Proof.
  intros T L. revert y. induction es as [|e es IH] using rev_ind; [done|]. intros y W Hy.
  apply trail_app_inv in W as (z & W & [He <-]). unfold ghops in Hy. rewrite total_app in Hy.
  unfold total in Hy at 2. cbn in Hy. fold (ghops es) in Hy.
  pose proof (trail_walk _ _ normalize_edge_cost _ _ _ W) as Wz. fold (ghops es) in Wz.
  pose proof (L z) as Lz. destruct (D !! z) as [d|] eqn:Hd; [|by destruct (Lz _ _ Wz)].
  destruct Lz as [[n Wd] Hmin]. pose proof (Hmin _ _ Wz).
  pose proof (L (edge_target e)) as Ly. rewrite Hy in Ly. destruct Ly as [_ Hminy].
  pose proof (Hminy _ _ (walk_step _ _ _ _ _ _ _ _ Wd He)).
  assert (d = ghops es) as -> by lia. eapply trail_app; [by apply IH|]. cbn. split; [|done].
  apply (tight_graph_edges _ _ _ _ _ T). split; [done|]. exists (ghops es). split; [done|].
  rewrite Hy. f_equal. lia.
Qed.

Context (pet_dijkstra : G → nat → (GraphEdge → Z) → gmap nat Z).

(** What [petgraph::algo::dijkstra] promises: the least costs. *)
Definition pet_dijkstra_ok : Prop :=
  ∀ g start w C, ggraph_ok g w C start →
    least_costs (graph_edges g) edge_target w start (pet_dijkstra g start w).

Abbreviation gen_least_hop := (gen_next_hop_map_with_least_hop (V4Cidr := V4Cidr) (V6Cidr := V6Cidr) usize_bits pet_dijkstra).

Lemma tight_graph_ok g sub D C start :
  tight g sub D → ggraph_ok g edge_weight C start → ggraph_ok sub edge_weight C start.
Proof.
  intros T ok. pose proof T as [Hn _].
  assert (graph_nodes sub = graph_nodes g) as Hnodes by (unfold graph_nodes; by rewrite Hn).
  destruct ok as [o1 o2 o3 o4]. split; rewrite ?Hnodes; try done;
    intros v e Hv [He _]%(tight_graph_edges _ _ _ _ _ T); eauto.
Qed.

Lemma least_hop_of_sub g sub start version i o D :
  tight g sub D → least_costs (graph_edges g) edge_target normalize_edge_cost start D →
  D !! start = Some 0 →
  node_next_hop LeastCost sub start version i o → node_next_hop LeastHop g start version i o.
Proof.
  intros T L Hzero. destruct o as [info|]; cbn.
  - intros (es & hp & W & Hhp & -> & Hmin). destruct (tight_trail _ _ _ _ _ _ _ T W Hzero) as [W' Hd].
    exists es, hp. split; [done|]. pose proof T as [Hn _]. rewrite <- Hn. split; [done|]. split; [done|].
    intros es' Wg. pose proof (L i) as Li. rewrite Hd in Li. destruct Li as [_ Hleast].
    pose proof (Hleast _ _ (trail_walk _ _ normalize_edge_cost _ _ _ Wg)) as Hle. fold (ghops es') in Hle.
    destruct (decide (ghops es = ghops es')) as [E|E]; [|left; lia]. right. split; [done|].
    apply Hmin. eapply trail_tight; [done|done|done|]. rewrite Hd, <- E. f_equal.
  - intros Hno es W. pose proof (L i) as Li. destruct (D !! i) as [d|] eqn:Hd.
    + destruct Li as [[n Wd] _]. destruct (walk_trail _ _ _ _ _ _ _ Wd) as (es' & W' & Ht & _).
      apply (Hno es'). eapply trail_tight; [done|done|done|]. unfold ghops. by rewrite Ht.
    + by destruct (Li _ _ (trail_walk _ _ normalize_edge_cost _ _ _ W)).
Qed.

Lemma gen_least_hop_spec t g C start version ids E :
  pet_dijkstra_ok → represents g ids E → ggraph_ok g edge_weight C start →
  (Z.of_nat (size (graph_nodes g)) + 1) * (AVOID_RELAY_COST + 1) < 2 ^ usize_bits → older t version →
  ∃ t', gen_least_hop t g start version = Some t' ∧
    t' = with_next_hops t (next_hop_map t') version ∧
    (∀ i p, node_weights g !! i = Some p → node_next_hop LeastHop g start version i (get_topology_next_hop t' p)) ∧
    ∀ p, p ∉ node_weights g → get_topology_next_hop t' p = None.
Proof.
  intros Hpet R ok Hwidth Hold.
  assert (ggraph_ok g normalize_edge_cost (AVOID_RELAY_COST + 1) start) as okn.
  { destruct ok as [o1 o2 o3 o4]. split; [done|done| |].
    - intros v e _ _. pose proof (normalize_range e). lia.
    - unfold AVOID_RELAY_COST in *. lia. }
  pose proof (Hpet _ _ _ _ okn) as L. unfold gen_next_hop_map_with_least_hop.
  set (D := pet_dijkstra g start normalize_edge_cost) in *.
  destruct (graph_nodes_weight g start (ok_start _ _ _ _ _ _ _ ok)) as (my & Hmy).
  rewrite (proj2 (Nat.ltb_lt _ _) (lookup_lt_Some _ _ _ Hmy)). cbn [negb].
  destruct (subgraph_spec g D) as (sub & -> & T).
  { intros e He. rewrite (rep_nodes _ _ _ R). by apply (rep_ends _ _ _ R). }
  { intros e d He Hd.
    pose proof (least_costs_bound _ _ _ _ _ _ _ okn D _ d ltac:(unfold AVOID_RELAY_COST; lia) L Hd).
    pose proof (normalize_range e). unfold is_uint. lia. }
  cbn. destruct (gen_least_cost_spec t sub C start version) as (t' & -> & Ht' & Hin & Hout);
    [by eapply tight_graph_ok|pose proof T as [-> _]; rewrite (rep_nodes _ _ _ R); apply R|done|].
  pose proof T as [Hn _]. rewrite Hn in Hin, Hout. exists t'. split; [done|]. split; [done|]. split; [|done].
  intros i p Hp. eapply least_hop_of_sub; [done|done| |by apply Hin].
  pose proof (L start) as Ls. destruct (D !! start) as [d|] eqn:Hd; [|by destruct (Ls _ _ (walk_here _ _ _ _))].
  destruct Ls as [_ Hmin]. pose proof (Hmin _ _ (walk_here _ _ _ _)).
  pose proof (least_costs_bound _ _ _ _ _ _ _ okn D _ d ltac:(unfold AVOID_RELAY_COST; lia) L Hd).
  f_equal. lia.
Qed.


(** ** From nodes to peers *)

Lemma size_graph_nodes (g : G) : size (graph_nodes g) = length (node_weights g).
Proof. unfold graph_nodes. rewrite size_list_to_set by apply NoDup_seq. apply length_seq. Qed.

Lemma length_known_ids s : (length (known_ids s) <= length (peer_infos s))%nat.
Proof. unfold known_ids. rewrite length_fmap. apply length_filter. Qed.

Lemma gpreferred_peers policy ids es es' :
  gpreferred policy es es' ↔ preferred policy (map (peer_edge ids) es) (map (peer_edge ids) es').
Proof.
  unfold gpreferred, preferred, gcost, ghops, cost, hops, normalize_edge_cost.
  rewrite !(total_peers ids _ (λ c, c)).
  rewrite !(total_peers ids _ (λ c, if AVOID_RELAY_COST <=? c then AVOID_RELAY_COST + 1 else 1)).
  done.
Qed.

Abbreviation best my s policy :=
  (best_next_hop usize_bits calculate_cost my s policy).

Lemma best_of_node g my s start i p policy o :
  represents g (known_ids s) (topology usize_bits calculate_cost my s) →
  known_ids s !! start = Some my → known_ids s !! i = Some p →
  node_next_hop policy g start (snapshot_version s) i o → best my s policy p o.
Proof.
  intros R Hs Hi. destruct o as [info|]; cbn.
  - intros (es & hp & T & Hhp & -> & Hmin).
    destruct (trail_to_peers _ _ _ _ _ _ _ R Hs T) as (q & Hq & T'). simplify_eq.
    exists (map (peer_edge (known_ids s)) es). split; [done|]. split.
    + rewrite (rep_nodes _ _ _ R) in Hhp. unfold len. rewrite length_map. unfold cost.
      rewrite (total_peers _ _ (λ c, c)). f_equal. destruct es as [|e es]; cbn; [congruence|]. by rewrite Hhp.
    + intros es' W. destruct (trail_from_peers _ _ _ _ _ _ _ R Hs W) as (gs & j & Tg & Hj & ->).
      assert (j = i) as -> by (by eapply represents_ids_inj). rewrite <- gpreferred_peers. auto.
  - intros Hno es W. destruct (trail_from_peers _ _ _ _ _ _ _ R Hs W) as (gs & j & Tg & Hj & ->).
    assert (j = i) as -> by (by eapply represents_ids_inj). by eapply Hno.
Qed.

Lemma best_unknown g my s start p policy :
  represents g (known_ids s) (topology usize_bits calculate_cost my s) →
  known_ids s !! start = Some my → p ∉ known_ids s → best my s policy p None.
Proof.
  intros R Hs Hp es W. destruct (trail_from_peers _ _ _ _ _ _ _ R Hs W) as (gs & j & _ & Hj & _).
  apply Hp. by eapply list_elem_of_lookup_2.
Qed.

Lemma topology_cost_nonneg my s p q c :
  0 <= usize_bits → (q, c) ∈ topology usize_bits calculate_cost my s p → 0 <= c.
Proof.
  intros Hb HE. unfold topology in HE. case_match; [|by apply not_elem_of_nil in HE].
  apply list_elem_of_fmap in HE as (q' & [= -> ->] & _). unfold peer_edge_cost, wrapping_add, wrap.
  case_match; apply Z.mod_pos_bound; lia.
Qed.

Lemma snapshot_graph_ok my s C g start :
  0 <= usize_bits → snapshot_ok usize_bits calculate_cost my s C →
  represents g (known_ids s) (topology usize_bits calculate_cost my s) →
  known_ids s !! start = Some my → ggraph_ok g edge_weight (Z.max 0 C) start.
Proof.
  intros Hb [ND Hk Hc Hw] R Hs. pose proof (rep_nodes _ _ _ R) as Hn. split.
  - eapply weight_graph_nodes. by rewrite Hn.
  - intros i e _ [He _]%graph_edges_spec. apply (rep_ends _ _ _ R) in He as [_ He].
    apply lookup_lt_is_Some in He as [p Hp]. eapply weight_graph_nodes. by rewrite Hn.
  - intros i e Hi He. apply graph_nodes_weight in Hi as (p & Hp). rewrite Hn in Hp.
    destruct (rep_sound _ _ _ R _ _ _ Hp He) as (q & _ & HE).
    pose proof (Hc _ _ _ HE). pose proof (topology_cost_nonneg _ _ _ _ _ Hb HE). lia.
  - rewrite size_graph_nodes, Hn. pose proof (length_known_ids s). unfold len in Hw.
    destruct (Z.max_spec 0 C) as [[? ->]|[? ->]]; [nia|]. rewrite Z.mul_0_r. lia.
Qed.

(** ** The rest of the rebuild keeps the next hops *)

Definition same_hops (t t' : OspfRouteTable) : Prop :=
  next_hop_map t' = next_hop_map t ∧ t_suppressed t' = t_suppressed t ∧
  next_hop_map_version t' = next_hop_map_version t.

Lemma same_hops_next_hop t t' p : same_hops t t' → get_topology_next_hop t' p = get_topology_next_hop t p.
Proof. unfold get_topology_next_hop. by intros (-> & _ & ->). Qed.

Lemma clean_next_hop (t : OspfRouteTable) p :
  get_topology_next_hop (clean_expired_route_info t) p = get_topology_next_hop t p.
Proof.
  unfold get_topology_next_hop, clean_expired_route_info. cbn. rewrite map_lookup_filter.
  destruct (next_hop_map t !! p) as [x|]; cbn; [|done]. case_guard as Hg; cbn; [done|].
  cbn in Hg. by rewrite (proj2 (Z.leb_gt _ _)) by lia.
Qed.

Lemma clean_suppressed (t : OspfRouteTable) : t_suppressed (clean_expired_route_info t) = t_suppressed t.
Proof. done. Qed.

Context (parse_cidr : string → option (IpCidr V4Cidr V6Cidr)).
Context (first4 last4 : V4Cidr → Z) (first6 last6 : V6Cidr → Z).

Abbreviation add_reachable := (add_reachable_peer parse_cidr first4 last4 first6 last6).
Abbreviation fill := (fill_from_next_hops parse_cidr first4 last4 first6 last6).

Lemma add_reachable_same my s st kv :
  same_hops st.1 (add_reachable my s st kv).1.
Proof. destruct st as [t tries], kv as [p item]. unfold add_reachable_peer. repeat case_match; done. Qed.

Lemma fold_reachable_same my s l st : same_hops st.1 (foldl (add_reachable my s) st l).1.
Proof.
  apply (foldl_inv (λ _ st', same_hops st.1 st'.1)); [done|].
  intros _ kv st' _ (? & ? & ?). destruct (add_reachable_same my s st' kv) as (? & ? & ?).
  repeat split; congruence.
Qed.

Lemma fill_same my s t p :
  get_topology_next_hop (fill my s t) p = get_topology_next_hop t p ∧ t_suppressed (fill my s t) = t_suppressed t.
Proof.
  unfold fill_from_next_hops.
  pose proof (fold_reachable_same my s (iter (next_hop_map t)) (t, (∅, ∅))) as Hs.
  destruct (foldl _ _ _) as [t' [c4 c6]]. cbn in Hs. rewrite clean_next_hop, clean_suppressed.
  destruct Hs as (H1' & H2' & H3'). split; [|done]. unfold get_topology_next_hop. cbn. by rewrite H1', H3'.
Qed.

Lemma sync_suppressed_spec (t : OspfRouteTable) s :
  t_suppressed (sync_suppressed_peer_ids t s) = suppressed_peer_ids s.
Proof.
  unfold sync_suppressed_peer_ids. cbn. apply set_eq. intros p.
  assert (∀ (l : list PeerId) (m : gset PeerId), p ∈ foldl (λ m q, {[q]} ∪ m) m l ↔ p ∈ l ∨ p ∈ m) as Hf.
  { induction l as [|q l IH]; intros m; cbn; [set_solver|]. rewrite IH. set_solver. }
  rewrite Hf, elem_of_elements, elem_of_filter. tauto.
Qed.


Lemma gen_next_hop_spec t g C start version ids E policy :
  pet_dijkstra_ok → represents g ids E → ggraph_ok g edge_weight C start → older t version →
  (policy = LeastHop → (Z.of_nat (size (graph_nodes g)) + 1) * (AVOID_RELAY_COST + 1) < 2 ^ usize_bits) →
  ∃ t', (match policy with
         | LeastHop => gen_least_hop t g start version
         | LeastCost => gen_least_cost t g start version
         end) = Some t' ∧
    t' = with_next_hops t (next_hop_map t') version ∧
    (∀ i p, node_weights g !! i = Some p → node_next_hop policy g start version i (get_topology_next_hop t' p)) ∧
    ∀ p, p ∉ node_weights g → get_topology_next_hop t' p = None.
Proof.
  intros Hpet R ok Hold Hw. destruct policy; [by eapply gen_least_hop_spec; eauto|].
  eapply gen_least_cost_spec; [done| |done]. rewrite (rep_nodes _ _ _ R). apply R.
Qed.

(** Width for the sums of hops with their penalties. *)
Definition hops_fit (policy : NextHopPolicy) (s : OspfRouteSnapshot) : Prop :=
  policy = LeastHop → (len (peer_infos s) + 1) * (AVOID_RELAY_COST + 1) < 2 ^ usize_bits.

Lemma build_next_hops my s C t policy :
  0 <= usize_bits → pet_dijkstra_ok → snapshot_ok usize_bits calculate_cost my s C → hops_fit policy s →
  older t (snapshot_version s) →
  ∃ t', build_from_snapshot usize_bits parse_cidr first4 last4 first6 last6 pet_dijkstra calculate_cost
          t my s policy = Some t' ∧
    t_suppressed t' = suppressed_peer_ids s ∧
    ∀ dst, best my s policy dst (get_topology_next_hop t' dst).
Proof.
  intros Hb Hpet Hsn Hfit Hold. unfold build_from_snapshot.
  destruct (build_graph_spec my s) as (g & i & -> & Hi & R); [apply Hsn..|]. cbn.
  pose proof (rep_nodes _ _ _ R) as Hn. rewrite Hn.
  assert ((length (known_ids s) =? 0)%nat = false) as ->.
  { apply Nat.eqb_neq. apply lookup_lt_Some in Hi. lia. }
  destruct (gen_next_hop_spec (sync_suppressed_peer_ids t s) g (Z.max 0 C) i (snapshot_version s)
    _ _ policy Hpet R) as (t2 & -> & Ht2 & Hin & Hout); [by eapply snapshot_graph_ok|done| |].
  { intros Hp. specialize (Hfit Hp). rewrite size_graph_nodes, Hn. pose proof (length_known_ids s).
    unfold len, AVOID_RELAY_COST in *. nia. }
  cbn. eexists. split; [done|]. split.
  - rewrite (proj2 (fill_same _ _ _ 0)), Ht2. apply sync_suppressed_spec.
  - intros dst. rewrite (proj1 (fill_same _ _ _ dst)). destruct (decide (dst ∈ known_ids s)) as [Hd|Hd].
    + apply list_elem_of_lookup in Hd as (j & Hj). eapply best_of_node; [done..|]. apply Hin. by rewrite Hn.
    + rewrite Hout by (by rewrite Hn). by eapply best_unknown.
Qed.

End TableFacts.

(** C5: the rebuilt next hops are the best routes: from a snapshot that knows this
    node, for either policy, the rebuild ends without a panic, and afterwards the next
    hop of every peer is the first hop of a route of the topology that is best for the
    policy (least cost; or fewest hops, an avoided relay counting as more than any
    number of them, and then least cost), with its length and latency; there is none
    exactly for the peers without a route, and forwarding has none for suppressed peers. *)
Theorem next_hops_are_best {V4Cidr V6Cidr G : Type} `{Countable V4Cidr, Countable V6Cidr, !PetGraph G, !HashIter}
    `{!BinaryHeap (A := MinScored Z nat) cmp} usize_bits calculate_cost pet_dijkstra parse_cidr
    (first4 last4 : V4Cidr → Z) (first6 last6 : V6Cidr → Z) my s C t policy :
  0 <= usize_bits → pet_dijkstra_ok usize_bits (G := G) pet_dijkstra →
  snapshot_ok usize_bits calculate_cost my s C → hops_fit usize_bits policy s →
  older t (snapshot_version s) →
  ∃ t', build_from_snapshot usize_bits parse_cidr first4 last4 first6 last6 pet_dijkstra calculate_cost
          t my s policy = Some t' ∧
    (∀ dst, best_next_hop usize_bits calculate_cost my s policy dst (get_topology_next_hop t' dst)) ∧
    ∀ dst, get_next_hop t' dst =
      if decide (dst ∈ suppressed_peer_ids s) then None else get_topology_next_hop t' dst.
Proof.
  intros Hb Hpet Hsn Hfit Hold. destruct (build_next_hops usize_bits calculate_cost pet_dijkstra parse_cidr
    first4 last4 first6 last6 my s C t policy Hb Hpet Hsn Hfit Hold) as (t' & E & Hs & Hbest).
  exists t'. split; [done|]. split; [done|]. intros dst. unfold get_next_hop. by rewrite Hs.
Qed.

(** ** The owner of a proxy network *)

Section Owners.

Context {V4Cidr V6Cidr : Type} `{Countable V4Cidr, Countable V6Cidr} `{!HashIter}.
Context (parse_cidr : string → option (IpCidr V4Cidr V6Cidr)).
Context (first4 last4 : V4Cidr → Z) (first6 last6 : V6Cidr → Z).
Context (my : PeerId) (s : OspfRouteSnapshot) (t : OspfRouteTable V4Cidr V6Cidr).

Abbreviation Cidr := (IpCidr V4Cidr V6Cidr).
Abbreviation Tries := (gmap V4Cidr PeerIdVersion * gmap V6Cidr PeerIdVersion)%type.
Abbreviation covered c :=
  (existsb (cidr_is_subset first4 last4 first6 last6 c) (local_proxy_cidrs parse_cidr my s)).

Definition trie_lookup (tries : Tries) (c : Cidr) : option PeerIdVersion :=
  match c with CidrV4 c => tries.1 !! c | CidrV6 c => tries.2 !! c end.

(** One of the texts announces the network [c], and it is not ours when remote. *)
Definition offers (p : PeerId) (texts : list string) (c : Cidr) : Prop :=
  ∃ text, text ∈ texts ∧ parse_cidr text = Some c ∧ (p = my ∨ covered c = false).

(** [p], with next hop [item], is a reachable peer that offers [c]. *)
Definition announces (c : Cidr) (kv : PeerId * OspfNextHopInfo) : Prop :=
  let '(p, item) := kv in
  snapshot_version s <= nh_version item ∧ get_next_hop t p = Some item ∧
  ∃ info, peer_info s p = Some info ∧ offers p (ri_proxy_cidrs info) c.

(** The owner of a network: one of its announcers with the shortest path. *)
Definition elected (A : PeerId * OspfNextHopInfo → Prop) (o : option PeerIdVersion) : Prop :=
  match o with
  | None => ∀ kv, ¬ A kv
  | Some pv => ∃ item, A (pv_peer_id pv, item) ∧ pv_version pv = snapshot_version s ∧
      ∀ q item', A (q, item') → path_len item <= path_len item'
  end.

Lemma elected_iff A B o : (∀ kv, A kv ↔ B kv) → elected A o → elected B o.
Proof.
  intros E. destruct o as [pv|]; cbn.
  - intros (item & ? & ? & M). exists item. rewrite <- E. split; [done|]. split; [done|].
    intros q i' Hq%E. eauto.
  - intros Hno kv Hkv%E. by eapply Hno.
Qed.

Lemma elected_add A o p item better :
  elected A o →
  (∀ old i, o = Some old → A (pv_peer_id old, i) →
    if better old : bool then path_len item <= path_len i else path_len i <= path_len item) →
  elected (λ kv, A kv ∨ kv = (p, item))
    (match o with
     | Some old => if better old then Some (mkPeerIdVersion p (snapshot_version s)) else Some old
     | None => Some (mkPeerIdVersion p (snapshot_version s))
     end).
Proof.
  intros E Hb. destruct o as [old|]; cbn in *.
  - destruct E as (i & Hi & Hv & M). specialize (Hb old i eq_refl Hi). destruct (better old); cbn.
    + exists item. split; [by right|]. split; [done|]. intros q i' [Hq|[= -> ->]]; [|lia].
      specialize (M _ _ Hq). lia.
    + exists i. split; [by left|]. split; [done|]. intros q i' [Hq|[= -> ->]]; [eauto|lia].
  - exists item. split; [by right|]. split; [done|]. intros q i' [Hq|[= -> ->]]; [by destruct (E (q, i'))|lia].
Qed.

Lemma upsert_lookup {K} `{Countable K} better (k k' : K) pv m :
  upsert better k pv m !! k' =
    if decide (k = k') then
      match m !! k with
      | Some old => if better old then Some pv else Some old
      | None => Some pv
      end
    else m !! k'.
Proof.
  unfold upsert. case_decide as E; [subst k'|]; destruct (m !! k) as [old|] eqn:Hm;
    try destruct (better old); rewrite ?lookup_insert_eq, ?lookup_insert_ne by done; done.
Qed.

Lemma add_proxy_cidr_lookup p better pv tries text c c' :
  parse_cidr text = Some c →
  trie_lookup (add_proxy_cidr parse_cidr first4 last4 first6 last6 my p (local_proxy_cidrs parse_cidr my s)
    better pv tries text) c' =
  if decide (c = c' ∧ (p = my ∨ covered c = false)) then
    match trie_lookup tries c' with
    | Some old => if (p =? my) || better old then Some pv else Some old
    | None => Some pv
    end
  else trie_lookup tries c'.
Proof.
  intros Hp. unfold add_proxy_cidr. rewrite Hp.
  destruct (negb (p =? my) && covered c) eqn:Hs.
  - rewrite decide_False; [done|]. apply andb_true_iff in Hs as [Hn Hc].
    intros [_ [->|Hno]]; [by rewrite Z.eqb_refl in Hn|congruence].
  - assert (p = my ∨ covered c = false) as Ho.
    { apply andb_false_iff in Hs as [Hn|Hc]; [left|by right]. by apply negb_false_iff, Z.eqb_eq in Hn. }
    destruct c as [c|c], c' as [c'|c']; cbn [trie_lookup fst snd];
      try (rewrite (decide_False (P := _ ∧ _)) by (intros [[=] _]); done);
      rewrite upsert_lookup; destruct (decide (c = c')) as [->|Hne];
      first [rewrite (decide_True (P := _ ∧ _)) by done; done
            |rewrite (decide_False (P := _ ∧ _)) by (intros [[=] _]; done); done].
Qed.

(** The networks of ourselves are never offered by others. *)
Lemma own_networks_covered info c text :
  peer_info s my = Some info → text ∈ ri_proxy_cidrs info → parse_cidr text = Some c → covered c = true.
Proof.
  intros Hi Ht Hc. apply existsb_exists. exists c. split.
  - unfold local_proxy_cidrs. rewrite Hi. apply list_elem_of_In, list_elem_of_omap. eauto.
  - destruct c; cbn; by rewrite !Z.leb_refl.
Qed.

(** A rebuilt table prefers as [announces] says: the round of one peer. *)
Lemma better_sound A c p item info t' old i :
  (∀ kv, A kv → announces c kv) → same_hops t t' →
  announces c (p, item) → peer_info s p = Some info → A (pv_peer_id old, i) →
  pv_version old = snapshot_version s →
  if (p =? my) || is_new_peer_better t' (mkPeerIdVersion p (snapshot_version s)) item old
  then path_len item <= path_len i else path_len i <= path_len item.
Proof.
  intros HA Hs Hp Hi Hold Hv. apply HA in Hold as (_ & Hnh & info' & Hi' & Ho'). destruct Hp as (_ & Hnp & info0 & Hi0 & Ho).
  assert (info0 = info) as -> by congruence. destruct (Z.eqb_spec p my) as [->|Hne]; cbn.
  - destruct (decide (pv_peer_id old = my)) as [E|E]; [rewrite E in Hnh; simplify_eq; lia|].
    destruct Ho' as (text' & _ & Hc' & [|Hno]); [done|]. destruct Ho as (text & Ht & Hc & _).
    by rewrite (own_networks_covered _ _ _ Hi Ht Hc) in Hno.
  - unfold is_new_peer_better. cbn. rewrite Hv, Z.ltb_irrefl.
    destruct (Z.eqb_spec p (pv_peer_id old)) as [->|E]; [simplify_eq; lia|].
    assert (get_next_hop t' (pv_peer_id old) = Some i) as ->.
    { unfold get_next_hop, get_topology_next_hop in *. by destruct Hs as (-> & -> & ->). }
    destruct (Z.ltb_spec (path_len item) (path_len i)); lia.
Qed.


Lemma offers_snoc p texts text c :
  offers p (texts ++ [text]) c ↔
    offers p texts c ∨ (parse_cidr text = Some c ∧ (p = my ∨ covered c = false)).
Proof.
  unfold offers. split.
  - intros (x & [Hx| ->%list_elem_of_singleton]%elem_of_app & ? & ?); eauto.
  - intros [(x & ? & ? & ?)|[? ?]]; [exists x|exists text]; set_solver.
Qed.

Lemma add_texts_elected (A : Cidr → PeerId * OspfNextHopInfo → Prop) t' p item info tries :
  (∀ c kv, A c kv → announces c kv) → same_hops t t' →
  snapshot_version s <= nh_version item → get_next_hop t p = Some item → peer_info s p = Some info →
  (∀ c, elected (A c) (trie_lookup tries c)) →
  ∀ c, elected (λ kv, A c kv ∨ (kv = (p, item) ∧ offers p (ri_proxy_cidrs info) c))
    (trie_lookup (foldl (add_proxy_cidr parse_cidr first4 last4 first6 last6 my p (local_proxy_cidrs parse_cidr my s)
       (is_new_peer_better t' (mkPeerIdVersion p (snapshot_version s)) item)
       (mkPeerIdVersion p (snapshot_version s))) tries (ri_proxy_cidrs info)) c).
Proof.
  intros HA Hs Hv Hn Hi H0'.
  apply (foldl_inv (λ done (tr : Tries), ∀ c,
    elected (λ kv, A c kv ∨ (kv = (p, item) ∧ offers p done c)) (trie_lookup tr c))).
  { intros c. eapply elected_iff; [|apply H0']. intros kv. split; [auto|].
    intros [?|[_ (x & Hx & _)]]; [done|by apply not_elem_of_nil in Hx]. }
  intros done text tr Ht IH c. destruct (parse_cidr text) as [c0|] eqn:Hc.
  2:{ unfold add_proxy_cidr. rewrite Hc. eapply elected_iff; [|apply IH]. intros kv.
      rewrite offers_snoc, Hc. split; [tauto|]. intros [?|[? [?|[[=] _]]]]; auto. }
  rewrite (add_proxy_cidr_lookup _ _ _ _ _ c0) by done. case_decide as Ho.
  - destruct Ho as [-> Ho].
    assert (announces c (p, item)) as Hann.
    { split; [done|]. split; [done|]. exists info. split; [done|]. exists text. auto. }
    eapply elected_iff; [|apply elected_add with (p := p) (item := item)
      (better := λ old, (p =? my) || is_new_peer_better t' (mkPeerIdVersion p (snapshot_version s)) item old); [apply IH|]].
    + intros kv. rewrite offers_snoc, Hc. split; [|tauto]. intros [[?|[? ?]]| ->]; auto.
    + intros old i Hold Hi'. pose proof (IH c) as IHc. rewrite Hold in IHc. destruct IHc as (_ & _ & Hver & _).
      eapply (better_sound (λ kv, A c kv ∨ kv = (p, item))); [|done..| |done].
      * intros kv [?| ->]; [by apply HA|done].
      * destruct Hi' as [?|[? _]]; auto.
  - eapply elected_iff; [|apply IH]. intros kv. rewrite offers_snoc, Hc. split; [tauto|].
    intros [?|[? [?|[[= ->] ?]]]]; auto. destruct Ho. auto.
Qed.

Lemma fold_peers_elected :
  let '(t', tries) := foldl (add_reachable_peer parse_cidr first4 last4 first6 last6 my s) (t, (∅, ∅))
    (iter (next_hop_map t)) in
  same_hops t t' ∧ ∀ c, elected (announces c) (trie_lookup tries c).
Proof.
  destruct (foldl _ _ _) as [t' tries] eqn:E.
  assert (same_hops t (t', tries).1 ∧ ∀ c, elected (λ kv, kv ∈ iter (next_hop_map t) ∧ announces c kv)
    (trie_lookup (t', tries).2 c)) as [Hs He].
  - rewrite <- E. apply (foldl_inv (λ done (st : OspfRouteTable V4Cidr V6Cidr * Tries), same_hops t st.1 ∧
      ∀ c, elected (λ kv, kv ∈ done ∧ announces c kv) (trie_lookup st.2 c))).
    { split; [done|]. intros [c|c]; cbn; rewrite lookup_empty; by intros kv [?%not_elem_of_nil _]. }
    intros done [p item] [t1 tr] Hin [Hs IH]. cbn in Hs, IH.
    rewrite iter_perm in Hin. apply elem_of_map_to_list in Hin.
    split.
    { destruct (add_reachable_same parse_cidr first4 last4 first6 last6 my s (t1, tr) (p, item)) as (E1 & E2 & E3).
      cbn in *. destruct Hs as (? & ? & ?). repeat split; congruence. }
    assert (¬ (∃ c, announces c (p, item)) → ∀ c, elected (λ kv, kv ∈ done ++ [(p, item)] ∧ announces c kv)
      (trie_lookup tr c)) as Hskip.
    { intros Hno c. eapply elected_iff; [|apply IH]. intros kv. split; [intros [? ?]; split; [set_solver|done]|].
      intros [[?| ->%list_elem_of_singleton]%elem_of_app ?]; [done|]. destruct Hno. eauto. }
    unfold add_reachable_peer. destruct (Z.ltb_spec (nh_version item) (snapshot_version s)) as [Hv|Hv].
    { apply Hskip. intros (c & ? & _). lia. }
    assert (get_next_hop t1 p = get_next_hop t p) as Hnh.
    { unfold get_next_hop, get_topology_next_hop. by destruct Hs as (-> & -> & ->). }
    unfold peer_reachable. rewrite Hnh. case_bool_decide as Hr; cbn [negb].
    2:{ apply Hskip. intros (c & _ & ? & _). destruct Hr. eauto. }
    assert (get_next_hop t p = Some item) as Hitem.
    { destruct Hr as [x Hx]. rewrite Hx. revert Hx. unfold get_next_hop, get_topology_next_hop.
      case_decide; [done|]. rewrite Hin. cbn. destruct (_ <=? _); congruence. }
    destruct (peer_info s p) as [info|] eqn:Hi.
    2:{ apply Hskip. intros (c & _ & _ & info & ? & _). congruence. }
    cbn. intros c. eapply elected_iff; [|eapply (add_texts_elected (λ c kv, kv ∈ done ∧ announces c kv)); try done].
    + intros kv. cbn. split.
      * intros [[? ?]|[-> ?]]; [split; [set_solver|done]|]. split; [set_solver|].
        split; [done|]. split; [done|]. eauto.
      * intros [[?| ->%list_elem_of_singleton]%elem_of_app Ha]; [by left|right]. split; [done|].
        destruct Ha as (_ & _ & info' & ? & ?). by simplify_eq.
    + intros c' kv [_ ?]. done.
  - split; [done|]. intros c. eapply elected_iff; [|apply He]. intros [p item]. cbn. split; [by intros [_ ?]|].
    intros Ha. split; [|done]. rewrite iter_perm, elem_of_map_to_list. destruct Ha as (_ & Hn & _).
    revert Hn. unfold get_next_hop, get_topology_next_hop. case_decide; [done|].
    destruct (next_hop_map t !! p) as [x|]; cbn; [|done]. by destruct (_ <=? _); intros [= ->].
Qed.

End Owners.

(** Who owns a proxy network: after a rebuild, whatever the order in which the hash
    map is walked, the prefix maps hold a network exactly when a reachable peer offers
    it, and its owner is an offering peer with the shortest path; a network inside one
    that this node announces is never owned by another peer. *)
Theorem proxy_network_owner {V4Cidr V6Cidr : Type} `{Countable V4Cidr, Countable V6Cidr, !HashIter}
    parse_cidr (first4 last4 : V4Cidr → Z) (first6 last6 : V6Cidr → Z) my s t :
  let t' := fill_from_next_hops parse_cidr first4 last4 first6 last6 my s t in
  ∀ c : IpCidr V4Cidr V6Cidr,
    match trie_lookup (cidr_peer_id_map t', cidr_v6_peer_id_map t') c with
    | None => ∀ kv, ¬ announces parse_cidr first4 last4 first6 last6 my s t' c kv
    | Some pv =>
        (∃ item, announces parse_cidr first4 last4 first6 last6 my s t' c (pv_peer_id pv, item) ∧
          ∀ q item', announces parse_cidr first4 last4 first6 last6 my s t' c (q, item') →
            path_len item <= path_len item') ∧
        (existsb (cidr_is_subset first4 last4 first6 last6 c) (local_proxy_cidrs parse_cidr my s) = true →
          pv_peer_id pv = my)
    end.
Proof.
  intros t' c.
  assert (∀ kv, announces parse_cidr first4 last4 first6 last6 my s t' c kv ↔
    announces parse_cidr first4 last4 first6 last6 my s t c kv) as Ha.
  { intros [p item]. unfold announces, get_next_hop, t'.
    by rewrite (proj1 (fill_same parse_cidr first4 last4 first6 last6 my s t p)),
      (proj2 (fill_same parse_cidr first4 last4 first6 last6 my s t p)). }
  pose proof (fold_peers_elected parse_cidr first4 last4 first6 last6 my s t) as Hf.
  assert (elected s (announces parse_cidr first4 last4 first6 last6 my s t' c)
    (trie_lookup (cidr_peer_id_map t', cidr_v6_peer_id_map t') c)) as He.
  { eapply elected_iff; [intros kv; symmetry; apply Ha|]. unfold t', fill_from_next_hops.
    destruct (foldl _ _ _) as [t1 [c4 c6]]. destruct Hf as [_ Hf]. apply Hf. }
  destruct (trie_lookup _ c) as [pv|]; cbn in He; [|done].
  destruct He as (item & Hi & _ & M). split; [eauto|]. intros Hc.
  destruct Hi as (_ & _ & info & _ & text & _ & _ & [|Hno]); [done|congruence].
Qed.

(** * Witness *)

(** Our own algorithm meets the contract of the library's. *)
Definition demo_dijkstra (g : list PeerId * list GraphEdge) (start : nat) (w : GraphEdge → Z) : gmap nat Z :=
  match dijkstra_with_first_hop 64 (graph_edges g) edge_target w
          (enough_fuel (graph_edges g) (graph_nodes g)) start with
  | Some (sc, _) => sc
  | None => ∅
  end.

Lemma demo_dijkstra_ok : pet_dijkstra_ok 64 demo_dijkstra.
Proof.
  intros g start w C ok. unfold demo_dijkstra.
  destruct (dijkstra_spec 64 _ _ _ _ _ _ ok _ (le_n _)) as (sc & fh & -> & L & _). done.
Qed.

Definition demo_info (p : PeerId) (avoid : bool) : PeerId * RoutePeerInfo :=
  (p, mkPeerInfo p 1 p (Some avoid) None None None [] 0 None []).

(** Peer 1 is ourselves; 2 avoids relaying; 4 is reached over 3 and 5, or over 2. *)
Definition demo_snapshot : OspfRouteSnapshot :=
  mkSnapshot [demo_info 1 false; demo_info 2 true; demo_info 3 false; demo_info 4 false; demo_info 5 false]
    [(1, list_to_set [2; 3]); (2, list_to_set [4]); (3, list_to_set [5]); (5, list_to_set [4])] ∅ 7.

Definition demo_build (policy : NextHopPolicy) : option (OspfRouteTable Z Z) :=
  build_from_snapshot 64 (λ _, None) id id id id demo_dijkstra (λ _ _, 1) new 1 demo_snapshot policy.

Lemma next_hops_are_best_witness :
  (∃ t', demo_build LeastHop = Some t' ∧
    (∀ dst, best_next_hop 64 (λ _ _, 1) 1 demo_snapshot LeastHop dst (get_topology_next_hop t' dst)) ∧
    ∀ dst, get_next_hop t' dst =
      if decide (dst ∈ suppressed_peer_ids demo_snapshot) then None else get_topology_next_hop t' dst) ∧
  (t' ← demo_build LeastHop; get_next_hop t' 4) = Some (mkNextHop 3 3 3 7).
Proof.
  split; [|vm_compute; reflexivity].
  apply (next_hops_are_best 64 (λ _ _, 1) demo_dijkstra (λ _, None) id id id id 1 demo_snapshot (2 ^ 31)
    new LeastHop).
  - lia.
  - apply demo_dijkstra_ok.
  - split.
    + apply (bool_decide_unpack _). vm_compute. exact I.
    + reflexivity.
    + intros p q c HE. unfold topology in HE. case_match; [|by apply not_elem_of_nil in HE].
      apply list_elem_of_fmap in HE as (q' & [= -> ->] & _). unfold peer_edge_cost.
      case_match; vm_compute; intros [=].
    + vm_compute. reflexivity.
  - intros _. vm_compute. reflexivity.
  - split; [intros p x Hx; cbn in Hx; by rewrite lookup_empty in Hx|vm_compute; reflexivity].
Defined.

(** A table that knew an address keeps answering with its peer as long as the peer is
    reachable, also after the peer gave the address up. *)
Theorem released_address_kept {V4Cidr V6Cidr : Type} `{Countable V4Cidr, Countable V6Cidr, !HashIter}
    parse_cidr (first4 last4 : V4Cidr → Z) (first6 last6 : V6Cidr → Z) my s t a pv :
  (∀ p info, peer_info s p = Some info → ri_ipv4_addr info ≠ Some a) →
  ipv4_peer_id_map t !! a = Some pv → peer_reachable t (pv_peer_id pv) = true →
  get_peer_id_by_ipv4 (fill_from_next_hops parse_cidr first4 last4 first6 last6 my s t) a = Some (pv_peer_id pv).
Proof.
  intros Hno Ha Hr. unfold fill_from_next_hops.
  pose (P := λ (st : OspfRouteTable V4Cidr V6Cidr * (gmap V4Cidr PeerIdVersion * gmap V6Cidr PeerIdVersion)),
    same_hops t st.1 ∧ ipv4_peer_id_map st.1 !! a = Some pv).
  assert (P (foldl (add_reachable_peer parse_cidr first4 last4 first6 last6 my s) (t, (∅, ∅))
    (iter (next_hop_map t)))) as [Hs Hm].
  - apply (foldl_inv (λ _, P)); [done|]. intros _ [p item] [t1 tr] _ [Hs Hm]. split.
    + destruct (add_reachable_same parse_cidr first4 last4 first6 last6 my s (t1, tr) (p, item)) as (E1 & E2 & E3).
      destruct Hs as (? & ? & ?). repeat split; cbn in *; congruence.
    + cbn in Hm. unfold add_reachable_peer. case_match; [done|]. case_match; [done|].
      destruct (peer_info s p) as [info|] eqn:Hi; [|done]. cbn. specialize (Hno _ _ Hi).
      destruct (ri_ipv4_addr info) as [b|]; cbn; [|done]. rewrite upsert_lookup, decide_False by congruence. done.
  - destruct (foldl _ _ _) as [t1 [c4 c6]]. cbn in Hs, Hm. unfold get_peer_id_by_ipv4, clean_expired_route_info. cbn.
    rewrite map_lookup_filter, Hm. cbn. case_guard as Hg; [done|]. destruct Hg. cbn.
    revert Hr. unfold peer_reachable. rewrite !bool_decide_eq_true. unfold get_next_hop, get_topology_next_hop. cbn.
    destruct Hs as (-> & -> & ->). case_decide; [done|]. rewrite map_lookup_filter.
    destruct (next_hop_map t !! pv_peer_id pv) as [x|]; cbn; [|done].
    destruct (Z.leb_spec (next_hop_map_version t) (nh_version x)); [|intros []; done].
    intros _. case_guard as Hg'; cbn; [|by destruct Hg'; cbn]. rewrite (proj2 (Z.leb_le _ _)) by done. eauto.
Qed.
