(* ===== verification/LinkState.v ===== *)
(** * The link state database

    Models [SyncedRouteInfo] of easytier-core/src/peers/route/peer_ospf_route.rs: the
    peer infos and connection rows learned from all peers, their versioned merge, the
    rows of this node, and the connection bitmap in which rows travel (with
    [RouteConnBitmap] of easytier-proto/src/peer_rpc.rs).  The ordered maps are [gmap]s
    (the merge does not depend on their order, a snapshot lists them by [HashIter]);
    each call runs under its locks as one step at the instant [now].  The group and
    credential trust maps of the same struct are in CredentialTrust.v.  A panic is
    [None].

    The theorems say that databases converge whatever the order and the batching of the
    messages, that stored versions never go back, that a changed topology always raises
    the database version (which the route table relies on), and that a bitmap is read
    back as it was built. *)

From stdpp Require Import base gmap list numbers strings sets.
From Stdlib Require Import ZArith Lia.
From S2P Require Import Prelude RouteTable.
Local Open Scope Z_scope.

(** ** Data *)

Record RouteConnInfo : Type := mkConn {
  ci_connected_peers : gset PeerId;
  ci_version : Version;
  ci_last_update : Z
}.

(** The fields of [ForeignNetworkRouteInfoEntry]. *)
Record ForeignNetworkRouteInfoEntry : Type := mkForeign {
  fe_foreign_peer_ids : list PeerId;
  fe_last_update : option Z;
  fe_version : Version;
  fe_network_secret_digest : list Z;
  fe_my_peer_id_for_this_network : PeerId
}.

(** [ForeignNetworkRouteInfoKey]: peer and network name. *)
Abbreviation ForeignKey := (PeerId * string)%type (only parsing).

(** The original protobuf bytes of a peer info. *)
Abbreviation RawRoutePeerInfo := (list Z) (only parsing).

Record SyncedRouteInfo : Type := mkSynced {
  si_peer_infos : gmap PeerId RoutePeerInfo;
  si_raw_peer_infos : gmap PeerId RawRoutePeerInfo;
  si_conn_map : gmap PeerId RouteConnInfo;
  si_foreign_network : gmap ForeignKey ForeignNetworkRouteInfoEntry;
  si_suppressed : gset PeerId;
  si_version : Version
}.

(** The outcomes of a synchronisation, [SyncRouteInfoError]. *)
Inductive SyncRouteInfoError : Type := DuplicatePeerId | Stopped.

(** [RouteConnBitmap] and [PeerConnInfo] of the protocol. *)
Record RouteConnBitmap : Type := mkBitmap { bm_peer_ids : list PeerIdVersion; bitmap : list Z }.

Record PeerConnInfo : Type := mkPeerConn {
  pc_peer_id : option PeerIdVersion;
  pc_connected_peer_ids : list PeerId
}.

Inductive ConnInfo : Type :=
| ConnBitmap (b : RouteConnBitmap)
| ConnPeerList (l : list PeerConnInfo).

(** [UPDATE_PEER_INFO_PERIOD], in nanoseconds. *)
Definition UPDATE_PEER_INFO_PERIOD : Z := 3600 * 10 ^ 9.

(** [new_route_peer_info_with_version]; [rest] holds the fields that are not modelled. *)
Definition new_route_peer_info (rest : list Z) (last_update : option Z) : RoutePeerInfo :=
  mkPeerInfo 0 0 0 None None None None [] 0 last_update rest.

Definition info_with (i : RoutePeerInfo) (version : Version) (last_update : option Z) : RoutePeerInfo :=
  mkPeerInfo (ri_peer_id i) version (ri_peer_route_id i) (ri_feature_flag i) (ri_ipv4_addr i)
    (ri_ipv6_addr i) (ri_ipv6_public_addr_lease i) (ri_proxy_cidrs i) (ri_udp_nat_type i) last_update
    (ri_rest i).

(** [try_update_new_peer_info]: the updated [new], and whether it must be published. *)
Definition try_update_new_peer_info (old new : RoutePeerInfo) (now : Z) : RoutePeerInfo * bool :=
  let last := default 0 (ri_last_update old) in
  let need_update_periodically := if last <=? now then UPDATE_PEER_INFO_PERIOD <? now - last else true in
  let new := info_with new (ri_version old) (ri_last_update old) in
  if negb (bool_decide (new = old)) || need_update_periodically
  then (info_with new (wrapping_add 32 (ri_version new) 1) (ri_last_update new), true)
  else (new, false).

(** ** Operations *)

Section Database.

Context (default_rest : list Z).
Context `{!HashIter}.

Definition with_infos db infos raw : SyncedRouteInfo :=
  mkSynced infos raw (si_conn_map db) (si_foreign_network db) (si_suppressed db) (si_version db).

Definition with_conns db conns : SyncedRouteInfo :=
  mkSynced (si_peer_infos db) (si_raw_peer_infos db) conns (si_foreign_network db) (si_suppressed db)
    (si_version db).

Definition inc_version db : SyncedRouteInfo :=
  mkSynced (si_peer_infos db) (si_raw_peer_infos db) (si_conn_map db) (si_foreign_network db)
    (si_suppressed db) (version_inc (si_version db)).

Definition inc_version_if (b : bool) db : SyncedRouteInfo := if b then inc_version db else db.

Definition get_connected_peers db (p : PeerId) : option (gset PeerId) :=
  ci_connected_peers <$> si_conn_map db !! p.

Definition route_snapshot db : OspfRouteSnapshot :=
  mkSnapshot (iter (si_peer_infos db))
    (map (λ kv, (kv.1, ci_connected_peers kv.2)) (iter (si_conn_map db)))
    (si_suppressed db) (si_version db).

(** [remove_peers]; the order of the removals does not matter. *)
Definition remove_peers db (peer_ids : gset PeerId) : SyncedRouteInfo :=
  if decide (peer_ids = ∅) then db
  else
    inc_version (mkSynced
      (filter (λ kv, kv.1 ∉ peer_ids) (si_peer_infos db))
      (filter (λ kv, kv.1 ∉ peer_ids) (si_raw_peer_infos db))
      (filter (λ kv, kv.1 ∉ peer_ids) (si_conn_map db))
      (filter (λ kv, kv.1.1 ∉ peer_ids) (si_foreign_network db))
      (si_suppressed db) (si_version db)).

(** One round of [fill_empty_peer_info]. *)
Definition fill_one (now : Z) (st : SyncedRouteInfo * bool) (p : PeerId) : SyncedRouteInfo * bool :=
  let '(db, need) := st in
  let '(db, need) :=
    match si_peer_infos db !! p with
    | None => (with_infos db (<[p := new_route_peer_info default_rest (Some now)]> (si_peer_infos db))
                 (si_raw_peer_infos db), true)
    | Some _ => (db, need)
    end in
  match si_conn_map db !! p with
  | None => (with_conns db (<[p := mkConn ∅ 0 now]> (si_conn_map db)), true)
  | Some _ => (db, need)
  end.

Definition fill_empty_peer_info db (peer_ids : gset PeerId) (now : Z) : SyncedRouteInfo :=
  let '(db', need) := foldl (fill_one now) (db, false) (btree_iter peer_ids) in
  inc_version_if need db'.

Definition get_peer_info_version_with_default db (p : PeerId) : Version :=
  default 0 (ri_version <$> si_peer_infos db !! p).

Definition get_avoid_relay_data db (p : PeerId) : bool :=
  default false (info ← si_peer_infos db !! p; ri_feature_flag info).

(** The outer [None] is the panic that our own peer id is duplicated. *)
Definition check_duplicate_peer_id db (my_peer_id my_peer_route_id dst_peer_id : Z)
    (dst_peer_route_id : option Z) (info : RoutePeerInfo) : option (result unit SyncRouteInfoError) :=
  if ri_peer_id info =? my_peer_id then
    if negb (ri_peer_route_id info =? my_peer_route_id) &&
       (get_peer_info_version_with_default db (ri_peer_id info) <? ri_version info)
    then None else Some (Ok tt)
  else if ri_peer_id info =? dst_peer_id then
    match dst_peer_route_id with
    | None => Some (Ok tt)
    | Some route_id =>
        if negb (route_id =? ri_peer_route_id info) &&
           (ri_version info <? get_peer_info_version_with_default db (ri_peer_id info))
        then Some (Err DuplicatePeerId) else Some (Ok tt)
    end
  else Some (Ok tt).

(** The loop of [update_peer_infos] from index [idx] on; an error leaves the database
    as the rounds before it made it. *)
Fixpoint update_peer_infos_loop (my_peer_id my_peer_route_id dst_peer_id now : Z)
    (raws : list RawRoutePeerInfo) (infos : list RoutePeerInfo) (idx : nat) db (need : bool)
    : option (SyncedRouteInfo * bool * result unit SyncRouteInfoError) :=
  match infos with
  | [] => Some (db, need, Ok tt)
  | info :: infos' =>
      raw ← raws !! idx;
      let dst_route_id :=
        if ri_peer_id info =? dst_peer_id then ri_peer_route_id <$> si_peer_infos db !! dst_peer_id
        else None in
      checked ← check_duplicate_peer_id db my_peer_id my_peer_route_id dst_peer_id dst_route_id info;
      match checked with
      | Err e => Some (db, need, Err e)
      | Ok _ =>
          let info' := info_with info (ri_version info) (Some now) in
          let newer := match si_peer_infos db !! ri_peer_id info with
                       | None => true
                       | Some old => ri_version old <? ri_version info
                       end in
          if newer then
            let db' := with_infos db (<[ri_peer_id info := info']> (si_peer_infos db))
                         (<[ri_peer_id info := raw]> (si_raw_peer_infos db)) in
            update_peer_infos_loop my_peer_id my_peer_route_id dst_peer_id now raws infos' (S idx) db' true
          else update_peer_infos_loop my_peer_id my_peer_route_id dst_peer_id now raws infos' (S idx) db need
      end
  end.

Definition update_peer_infos db (my_peer_id my_peer_route_id dst_peer_id : Z) (infos : list RoutePeerInfo)
    (raws : list RawRoutePeerInfo) (now : Z) : option (SyncedRouteInfo * result unit SyncRouteInfoError) :=
  r ← update_peer_infos_loop my_peer_id my_peer_route_id dst_peer_id now raws infos 0 db false;
  let '(db', need, res) := r in
  match res with
  | Err e => Some (db', Err e)
  | Ok _ => Some (inc_version_if need db', Ok tt)
  end.

(** *** Connection rows *)

Definition update_conn_info_one_peer db (pv : PeerIdVersion) (connected : gset PeerId) (now : Z)
    : SyncedRouteInfo * bool :=
  let newer := match si_conn_map db !! pv_peer_id pv with
               | None => true
               | Some old => ci_version old <? pv_version pv
               end in
  if newer then (with_conns db (<[pv_peer_id pv := mkConn connected (pv_version pv) now]> (si_conn_map db)), true)
  else (db, false).

(** [RouteConnBitmap::get_bit] and [get_connected_peers]. *)
Definition get_bit (b : RouteConnBitmap) (idx : Z) : option bool :=
  byte ← index (bitmap b) (idx / 8);
  Some (Z.land (Z.shiftr byte (idx mod 8)) 1 =? 1).

Definition bitmap_connected_peers (b : RouteConnBitmap) (peer_idx : Z) : option (gset PeerId) :=
  try_fold (λ s (kv : nat * PeerIdVersion),
    bit ← get_bit b (peer_idx * len (bm_peer_ids b) + Z.of_nat kv.1);
    Some (if bit : bool then {[pv_peer_id kv.2]} ∪ s else s))
    (imap pair (bm_peer_ids b)) ∅.

Definition update_conn_info_with_bitmap db (b : RouteConnBitmap) (now : Z) : option SyncedRouteInfo :=
  let db := fill_empty_peer_info db (list_to_set (map pv_peer_id (bm_peer_ids b))) now in
  r ← try_fold (λ (st : SyncedRouteInfo * bool) (kv : nat * PeerIdVersion),
        let '(db, need) := st in
        connected ← bitmap_connected_peers b (Z.of_nat kv.1);
        let db := fill_empty_peer_info db connected now in
        let '(db, changed) := update_conn_info_one_peer db kv.2 connected now in
        Some (db, need || changed))
      (imap pair (bm_peer_ids b)) (db, false);
  let '(db', need) := r in
  Some (inc_version_if need db').

Definition update_conn_info_row (now : Z) (st : SyncedRouteInfo * bool) (row : PeerConnInfo)
    : SyncedRouteInfo * bool :=
  let '(db, need) := st in
  match pc_peer_id row with
  | None => st
  | Some pv =>
      let connected := list_to_set (pc_connected_peer_ids row) in
      let db := fill_empty_peer_info db connected now in
      let '(db, changed) := update_conn_info_one_peer db pv connected now in
      (db, need || changed)
  end.

Definition update_conn_info_with_list db (l : list PeerConnInfo) (now : Z) : SyncedRouteInfo :=
  let '(db', need) := foldl (update_conn_info_row now) (db, false) l in
  inc_version_if need db'.

Definition update_conn_info db (c : ConnInfo) (now : Z) : option SyncedRouteInfo :=
  match c with
  | ConnBitmap b => update_conn_info_with_bitmap db b now
  | ConnPeerList l => Some (update_conn_info_with_list db l now)
  end.

(** *** Foreign networks *)

Definition update_foreign_network_item (now : Z) (st : SyncedRouteInfo * bool)
    (item : option ForeignKey * option ForeignNetworkRouteInfoEntry) : SyncedRouteInfo * bool :=
  let '(db, changed) := st in
  match item with
  | (Some key, Some entry) =>
      let entry := mkForeign (fe_foreign_peer_ids entry) (Some now) (fe_version entry)
                     (fe_network_secret_digest entry) (fe_my_peer_id_for_this_network entry) in
      let db' := mkSynced (si_peer_infos db) (si_raw_peer_infos db) (si_conn_map db)
                   (<[key := entry]> (si_foreign_network db)) (si_suppressed db) (si_version db) in
      match si_foreign_network db !! key with
      | Some old => if fe_version old <? fe_version entry then (db', true) else (db, changed)
      | None => (db', true)
      end
  | _ => st
  end.

Definition update_foreign_network db
    (infos : list (option ForeignKey * option ForeignNetworkRouteInfoEntry)) (now : Z) : SyncedRouteInfo * bool :=
  foldl (update_foreign_network_item now) (db, false) infos.

(** *** The rows of this node *)

(** [update_my_peer_info], [new] being the info computed from the peer context. *)
Definition update_my_peer_info db (my_peer_id : PeerId) (new : RoutePeerInfo) (now : Z)
    : SyncedRouteInfo * bool :=
  let old := si_peer_infos db !! my_peer_id in
  let new_version := wrapping_add 32 (default 0 (ri_version <$> old)) 1 in
  let '(new, need_insert_new) :=
    match old with
    | Some old => try_update_new_peer_info old new now
    | None => (new, true)
    end in
  if need_insert_new
  then (inc_version (with_infos db (<[my_peer_id := info_with new new_version (Some now)]> (si_peer_infos db))
          (si_raw_peer_infos db)), true)
  else (db, false).

Definition update_my_conn_info db (my_peer_id : PeerId) (connected : gset PeerId) (now : Z)
    : SyncedRouteInfo * bool :=
  let db := fill_empty_peer_info db connected now in
  let mine := si_conn_map db !! my_peer_id in
  let new_version := wrapping_add 32 (default 0 (ci_version <$> mine)) 1 in
  let differs := match mine with None => true | Some old => negb (bool_decide (ci_connected_peers old = connected)) end in
  if differs
  then (inc_version (with_conns db (<[my_peer_id := mkConn connected new_version now]> (si_conn_map db))), true)
  else (db, false).

(** *** The bitmap of this node

    The part of [update_route_table_and_cached_local_conn_bitmap] that builds the
    bitmap; [reachable] is [topology_peer_reachable] of the route table. *)

Definition add_to_all_peer_ids (m : gmap PeerId Version) (kv : PeerId * Version) : gmap PeerId Version :=
  let '(p, version) := kv in
  match m !! p with
  | Some x => if x <? version then <[p := version]> m else m
  | None => <[p := version]> m
  end.

Definition all_peer_ids db (reachable : PeerId → bool) : gmap PeerId Version :=
  foldl (λ m (item : PeerId * RouteConnInfo),
    if negb (reachable item.1) then m
    else foldl add_to_all_peer_ids (add_to_all_peer_ids m (item.1, ci_version item.2))
           (map (λ q, (q, 0)) (btree_iter (ci_connected_peers item.2))))
    ∅ (iter (si_conn_map db)).

(** The ascending iteration of a [BTreeMap]. *)
Definition btree_map_iter (m : gmap PeerId Version) : list PeerIdVersion :=
  map (λ p, mkPeerIdVersion p (default 0 (m !! p))) (btree_iter (dom m)).

(** [bitmap[bit_idx / 8] |= 1 << (bit_idx % 8)] on bytes. *)
Definition set_bit (bits : list Z) (bit_idx : Z) : option (list Z) :=
  byte ← index bits (bit_idx / 8);
  Some (<[Z.to_nat (bit_idx / 8) := Z.lor byte (Z.shiftl 1 (bit_idx mod 8))]> bits).

(** The bits of one row. *)
Definition set_row (ids : list PeerIdVersion) (connected : gset PeerId) (peer_idx : Z) (bits : list Z)
    : option (list Z) :=
  try_fold (λ bits (kv : nat * PeerIdVersion),
    if decide (pv_peer_id kv.2 ∈ connected) then set_bit bits (peer_idx * len ids + Z.of_nat kv.1)
    else Some bits) (imap pair ids) bits.

Definition build_conn_bitmap db (reachable : PeerId → bool) : option RouteConnBitmap :=
  let ids := btree_map_iter (all_peer_ids db reachable) in
  let bits := replicate (Z.to_nat (div_ceil (len ids * len ids) 8)) 0 in
  bits ← try_fold (λ bits (kv : nat * PeerIdVersion),
           match si_conn_map db !! pv_peer_id kv.2 with
           | None => Some bits
           | Some c => set_row ids (ci_connected_peers c) (Z.of_nat kv.1) bits
           end) (imap pair ids) bits;
  Some (mkBitmap ids bits).

End Database.

(** * Specification *)

(** What the rest of the program reads of a row: version and connected peers. *)
Definition conn_view db (p : PeerId) : option (Version * gset PeerId) :=
  (λ c, (ci_version c, ci_connected_peers c)) <$> si_conn_map db !! p.

Definition has_row (rows : list PeerConnInfo) (p : PeerId) (v : Version) (s : gset PeerId) : Prop :=
  ∃ r, r ∈ rows ∧ pc_peer_id r = Some (mkPeerIdVersion p v) ∧ s = list_to_set (pc_connected_peer_ids r).

Definition mentions (rows : list PeerConnInfo) (p : PeerId) : Prop :=
  ∃ r, r ∈ rows ∧ is_Some (pc_peer_id r) ∧ p ∈ pc_connected_peer_ids r.

(** The merge of a database and some rows, as a set: the newest row of the peer, or an
    empty row of version 0 for a peer that is only mentioned. *)
Definition merged db (rows : list PeerConnInfo) (p : PeerId) (o : option (Version * gset PeerId)) : Prop :=
  match o with
  | None => conn_view db p = None ∧ (∀ v s, ¬ has_row rows p v s) ∧ ¬ mentions rows p
  | Some (v, s) =>
      (conn_view db p = Some (v, s) ∨ has_row rows p v s ∨
        (conn_view db p = None ∧ mentions rows p ∧ v = 0 ∧ s = ∅)) ∧
      ∀ v' s', conn_view db p = Some (v', s') ∨ has_row rows p v' s' → v' <= v
  end.

(** Versions identify rows: a peer numbers its own rows from 1 up. *)
Record rows_consistent db (rows : list PeerConnInfo) : Prop := {
  rc_positive p v s : has_row rows p v s → 1 <= v;
  rc_rows p v s s' : has_row rows p v s → has_row rows p v s' → s = s';
  rc_known p v s s' : conn_view db p = Some (v, s) → has_row rows p v s' → s = s'
}.

(** Messages received one after the other, each at its instant. *)
Definition receive_lists `{!HashIter} (rest : list Z) db (msgs : list (list PeerConnInfo * Z)) : SyncedRouteInfo :=
  foldl (λ db m, update_conn_info_with_list rest db m.1 m.2) db msgs.

(** [db'] holds for each peer what [db] holds or something newer. *)
Definition advances db db' : Prop :=
  (∀ p i, si_peer_infos db !! p = Some i → ∃ i', si_peer_infos db' !! p = Some i' ∧
     (i' = i ∨ ri_version i < ri_version i')) ∧
  (∀ p c, si_conn_map db !! p = Some c → ∃ c', si_conn_map db' !! p = Some c' ∧
     (c' = c ∨ ci_version c < ci_version c')).

Definition same_topology db db' : Prop :=
  si_peer_infos db' = si_peer_infos db ∧ si_conn_map db' = si_conn_map db ∧ si_suppressed db' = si_suppressed db.

(** The version has room for [n] more steps and was raised by the change, if any. *)
Definition announced (n : Z) db db' : Prop :=
  si_version db <= si_version db' <= si_version db + n ∧
  (same_topology db db' ∨ si_version db < si_version db').

(** * Properties *)

Section Facts.

Context (rest : list Z).

(** ** Filling *)

Lemma fill_one_spec now db need p :
  let '(db', need') := fill_one rest now (db, need) p in
  advances db db' ∧ si_version db' = si_version db ∧ si_suppressed db' = si_suppressed db ∧
  (need' = false → need = false ∧ same_topology db db') ∧
  ∀ q, conn_view db' q = match conn_view db q with
                         | None => if decide (q = p) then Some (0, ∅) else None
                         | o => o
                         end.
Proof.
  unfold fill_one, conn_view.
  destruct (si_peer_infos db !! p) as [i|] eqn:Ei; cbn [si_conn_map with_infos];
    destruct (si_conn_map db !! p) as [c|] eqn:Ec;
    (split; [split; cbn; intros q x Hq;
       [destruct (decide (q = p)) as [->|]; [exists x; simplify_eq; auto|]
       |destruct (decide (q = p)) as [->|]; [exists x; simplify_eq; auto|]];
       try (exists x; rewrite ?lookup_insert_ne by done; auto)|]);
    (split; [done|split; [done|split; [done|]]]);
    intros q; cbn; destruct (decide (q = p)) as [->|]; rewrite ?Ec, ?lookup_insert_eq, ?lookup_insert_ne by done;
    try (by destruct (_ !! q)); done.
Qed.

Lemma advances_refl db : advances db db.
Proof. split; eauto. Qed.

Lemma advances_trans db1 db2 db3 : advances db1 db2 → advances db2 db3 → advances db1 db3.
Proof.
  intros [I1 C1] [I2 C2]. split.
  - intros p i Hi. destruct (I1 _ _ Hi) as (i2 & H2 & E2), (I2 _ _ H2) as (i3 & H3 & E3).
    exists i3. split; [done|]. destruct E2 as [->|], E3 as [->|]; auto; right; lia.
  - intros p c Hc. destruct (C1 _ _ Hc) as (c2 & H2 & E2), (C2 _ _ H2) as (c3 & H3 & E3).
    exists c3. split; [done|]. destruct E2 as [->|], E3 as [->|]; auto; right; lia.
Qed.

Lemma fill_loop_spec now l db :
  let '(db', need) := foldl (fill_one rest now) (db, false) l in
  advances db db' ∧ si_version db' = si_version db ∧ si_suppressed db' = si_suppressed db ∧
  (need = false → same_topology db db') ∧
  ∀ q, conn_view db' q = match conn_view db q with
                         | None => if decide (q ∈ l) then Some (0, ∅) else None
                         | o => o
                         end.
Proof.
  pose (P := (λ (done : list PeerId) (st : SyncedRouteInfo * bool), let '(db', need) := st in
    advances db db' ∧ si_version db' = si_version db ∧ si_suppressed db' = si_suppressed db ∧
    (need = false → same_topology db db') ∧
    ∀ q, conn_view db' q = match conn_view db q with
                           | None => if decide (q ∈ done) then Some (0, ∅) else None
                           | o => o
                           end)).
  apply (foldl_inv P); unfold P.
  - split; [apply advances_refl|]. do 3 (split; [done|]). intros q. rewrite decide_False by apply not_elem_of_nil.
    by destruct (conn_view db q).
  - intros done p [db1 need1] _ (A1 & V1 & S1 & N1 & C1).
    pose proof (fill_one_spec now db1 need1 p) as Hf. destruct (fill_one _ _ _ _) as [db2 need2].
    destruct Hf as (A2 & V2 & S2 & N2 & C2). split; [by eapply advances_trans|].
    split; [congruence|]. split; [congruence|]. split.
    + intros [Hn (E1 & E2 & E3)]%N2. destruct (N1 Hn) as (F1 & F2 & F3). repeat split; congruence.
    + intros q. rewrite C2, C1. destruct (conn_view db q); [done|].
      destruct (decide (q ∈ done)), (decide (q = p)), (decide (q ∈ done ++ [p])); set_solver.
Qed.

Lemma fill_spec db s now :
  let db' := fill_empty_peer_info rest db s now in
  advances db db' ∧ (si_version db + 1 < 2 ^ 32 → 0 <= si_version db → announced 1 db db') ∧
  ∀ q, conn_view db' q = match conn_view db q with
                         | None => if decide (q ∈ s) then Some (0, ∅) else None
                         | o => o
                         end.
Proof.
  unfold fill_empty_peer_info. pose proof (fill_loop_spec now (btree_iter s) db) as Hf.
  destruct (foldl _ _ _) as [db' need]. destruct Hf as (A & V & S & N & C). split; [by destruct need|].
  split.
  - intros Hr H0. destruct need; cbn.
    + unfold announced. cbn. unfold version_inc. rewrite V, wrapping_add_small by (split; lia).
      split; [lia|right; lia].
    + split; [lia|]. left. auto.
  - intros q. replace (conn_view (inc_version_if need db') q) with (conn_view db' q) by (by destruct need).
    rewrite C. destruct (conn_view db q); [done|].
    destruct (decide (q ∈ btree_iter s)) as [E|E]; rewrite set_btree_iter in E;
      [by rewrite decide_True|by rewrite decide_False].
Qed.

(** ** One row *)

Lemma update_one_spec db pv s now :
  let '(db', changed) := update_conn_info_one_peer db pv s now in
  advances db db' ∧ si_version db' = si_version db ∧ (changed = false → same_topology db db') ∧
  ∀ q, conn_view db' q =
    if decide (q = pv_peer_id pv) then
      match conn_view db q with
      | Some (v, s0) => if v <? pv_version pv then Some (pv_version pv, s) else Some (v, s0)
      | None => Some (pv_version pv, s)
      end
    else conn_view db q.
Proof.
  unfold update_conn_info_one_peer, conn_view.
  destruct (si_conn_map db !! pv_peer_id pv) as [c|] eqn:Ec; [destruct (Z.ltb_spec (ci_version c) (pv_version pv))|].
  - split; [split; [eauto|]; cbn|].
    + intros q x Hq. destruct (decide (q = pv_peer_id pv)) as [->|];
        [rewrite lookup_insert_eq; simplify_eq; eauto|rewrite lookup_insert_ne by done; eauto].
    + do 2 (split; [done|]). intros q. cbn. case_decide as Hq; [subst q|by rewrite lookup_insert_ne].
      rewrite lookup_insert_eq, Ec. cbn. by rewrite (proj2 (Z.ltb_lt _ _)).
  - split; [apply advances_refl|]. do 2 (split; [done|]). intros q. case_decide as Hq; [subst q|done].
    rewrite Ec. cbn. by rewrite (proj2 (Z.ltb_ge _ _)).
  - split; [split; [eauto|]; cbn|].
    + intros q x Hq. destruct (decide (q = pv_peer_id pv)) as [->|]; [congruence|rewrite lookup_insert_ne by done; eauto].
    + do 2 (split; [done|]). intros q. cbn. case_decide as Hq; [subst q|by rewrite lookup_insert_ne].
      by rewrite lookup_insert_eq, Ec.
Qed.


(** ** Rows and messages *)

Lemma has_row_snoc rows r p v s :
  has_row (rows ++ [r]) p v s ↔ has_row rows p v s ∨
    (pc_peer_id r = Some (mkPeerIdVersion p v) ∧ s = list_to_set (pc_connected_peer_ids r)).
Proof.
  unfold has_row. split.
  - intros (x & [Hx| ->%list_elem_of_singleton]%elem_of_app & ? & ?); eauto.
  - intros [(x & ? & ? & ?)|[? ?]]; [exists x|exists r]; set_solver.
Qed.

Lemma mentions_snoc rows r p :
  mentions (rows ++ [r]) p ↔ mentions rows p ∨ (is_Some (pc_peer_id r) ∧ p ∈ pc_connected_peer_ids r).
Proof.
  unfold mentions. split.
  - intros (x & [Hx| ->%list_elem_of_singleton]%elem_of_app & ? & ?); eauto.
  - intros [(x & ? & ? & ?)|[? ?]]; [exists x|exists r]; set_solver.
Qed.

Lemma merged_ext db rows rows' p o :
  (∀ v s, has_row rows p v s ↔ has_row rows' p v s) → (mentions rows p ↔ mentions rows' p) →
  merged db rows p o → merged db rows' p o.
Proof.
  intros Hr Hm. destruct o as [[v s]|]; cbn.
  - intros [Hv Hmax]. split; [rewrite <- Hr, <- Hm; done|]. intros v' s'. rewrite <- Hr. apply Hmax.
  - intros (? & Hno & ?). split; [done|]. split; [intros v s; rewrite <- Hr; apply Hno|by rewrite <- Hm].
Qed.

(** The view of a peer after one row. *)
Lemma merged_row db0 rows now st r p :
  merged db0 rows p (conn_view st.1 p) →
  merged db0 (rows ++ [r]) p (conn_view (update_conn_info_row rest now st r).1 p).
Proof.
  destruct st as [db need]. intros M. unfold update_conn_info_row. cbn in M.
  destruct (pc_peer_id r) as [[k w]|] eqn:Hr.
  2:{ cbn. eapply merged_ext; [| |exact M].
      - intros v s. rewrite has_row_snoc, Hr. split; [auto|intros [|[? _]]; done].
      - rewrite mentions_snoc, Hr. split; [auto|intros [|[[? ?] _]]; done]. }
  pose proof (fill_spec db (list_to_set (pc_connected_peer_ids r)) now) as (_ & _ & Hfill).
  set (db1 := fill_empty_peer_info _ _ _ _) in *.
  pose proof (update_one_spec db1 (mkPeerIdVersion k w) (list_to_set (pc_connected_peer_ids r)) now) as Hone.
  destruct (update_conn_info_one_peer _ _ _ _) as [db2 changed]. destruct Hone as (_ & _ & _ & Hview).
  cbn [fst]. rewrite Hview, Hfill. cbn [pv_peer_id pv_version].
  assert (∀ v s, has_row (rows ++ [r]) p v s ↔ has_row rows p v s ∨
    (p = k ∧ v = w ∧ s = list_to_set (pc_connected_peer_ids r))) as HR.
  { intros v s. rewrite has_row_snoc, Hr. split; intros [?|H']; auto; right.
    - destruct H' as [[= -> ->] ?]. auto.
    - by destruct H' as (-> & -> & ?). }
  assert (mentions (rows ++ [r]) p ↔ mentions rows p ∨ p ∈ (list_to_set (pc_connected_peer_ids r) : gset PeerId)) as HM.
  { rewrite mentions_snoc, Hr, elem_of_list_to_set. naive_solver. }
  unfold merged in M.
  destruct (conn_view db p) as [[v s]|].
  - destruct M as [Hv Hmax].
    assert (∀ v', v <= v' → w <= v' ∨ p ≠ k → ∀ u x, conn_view db0 p = Some (u, x) ∨ has_row (rows ++ [r]) p u x → u <= v')
      as Hbound.
    { intros v' Hle Hw u x [Hk|[Hk|(? & -> & _)]%HR]; [| |tauto].
      - specialize (Hmax u x (or_introl Hk)). lia.
      - specialize (Hmax u x (or_intror Hk)). lia. }
    assert (conn_view db0 p = Some (v, s) ∨ has_row (rows ++ [r]) p v s ∨
      (conn_view db0 p = None ∧ mentions (rows ++ [r]) p ∧ v = 0 ∧ s = ∅)) as Hv'.
    { rewrite HR, HM. destruct Hv as [?|[?|(? & ? & ? & ?)]]; auto 6. }
    destruct (decide (p = k)) as [Hpk|Hpk]; [destruct (Z.ltb_spec v w)|]; cbn; (split; [|apply Hbound; auto; lia]); auto.
    right. left. apply HR. auto.
  - destruct M as (Hn & Hno & Hm).
    assert (∀ v', w <= v' ∨ p ≠ k → ∀ u x, conn_view db0 p = Some (u, x) ∨ has_row (rows ++ [r]) p u x → u <= v')
      as Hbound.
    { intros v' Hw u x [Hk|[Hk|(? & -> & _)]%HR]; [congruence|by destruct (Hno u x)|tauto]. }
    destruct (decide (p ∈ (list_to_set (pc_connected_peer_ids r) : gset PeerId))) as [Hin|Hin].
    + destruct (decide (p = k)) as [Hpk|Hpk]; [destruct (Z.ltb_spec 0 w)|]; cbn; (split; [|apply Hbound; auto; lia]).
      * right. left. apply HR. auto.
      * right. right. rewrite HM. auto.
      * right. right. rewrite HM. auto.
    + destruct (decide (p = k)) as [Hpk|Hpk]; cbn.
      * split; [|apply Hbound; auto; lia]. right. left. apply HR. auto.
      * split; [done|]. split; [|by rewrite HM; intros [?|?]].
        intros u x [Hk|(? & _)]%HR; [by eapply Hno|done].
Qed.

Lemma conn_view_inc b db p : conn_view (inc_version_if b db) p = conn_view db p.
Proof. by destruct b. Qed.

Lemma merged_list db0 rows db l now p :
  merged db0 rows p (conn_view db p) →
  merged db0 (rows ++ l) p (conn_view (update_conn_info_with_list rest db l now) p).
Proof.
  intros M. unfold update_conn_info_with_list.
  assert (merged db0 (rows ++ l) p (conn_view (foldl (update_conn_info_row rest now) (db, false) l).1 p)) as Hl.
  - apply (foldl_inv (λ done st, merged db0 (rows ++ done) p (conn_view st.1 p))); [by rewrite app_nil_r|].
    intros done r st _ Hd. rewrite app_assoc. by apply merged_row.
  - destruct (foldl _ _ _) as [db' need]. by rewrite conn_view_inc.
Qed.

Context `{!HashIter}.

Lemma receive_merged db msgs p :
  merged db (concat (map fst msgs)) p (conn_view (receive_lists rest db msgs) p).
Proof.
  unfold receive_lists. apply (foldl_inv (λ (done : list (list PeerConnInfo * Z)) db',
    merged db (concat (map fst done)) p (conn_view db' p))).
  - cbn. destruct (conn_view db p) as [[v s]|] eqn:E; cbn.
    + split; [auto|]. intros v' s' [Hv|(r & []%not_elem_of_nil & _)]. congruence || (simplify_eq; lia).
    + split; [done|]. split; [intros v s (r & []%not_elem_of_nil & _)|intros (r & []%not_elem_of_nil & _)].
  - intros done [l now] db' _ M. rewrite map_app, concat_app. cbn. rewrite app_nil_r. by apply merged_list.
Qed.

(** A consistent merge determines the view. *)
Lemma merged_unique db rows p o1 o2 :
  rows_consistent db rows → merged db rows p o1 → merged db rows p o2 → o1 = o2.
Proof.
  intros [Hpos Hrows Hknown]. destruct o1 as [[v1 s1]|], o2 as [[v2 s2]|]; cbn; [| | |done].
  - intros [H1' M1] [H2' M2].
    assert (∀ v s v' s', (conn_view db p = Some (v, s) ∨ has_row rows p v s ∨
        (conn_view db p = None ∧ mentions rows p ∧ v = 0 ∧ s = ∅)) →
      (∀ w t, conn_view db p = Some (w, t) ∨ has_row rows p w t → w <= v) →
      conn_view db p = Some (v', s') ∨ has_row rows p v' s' ∨
        (conn_view db p = None ∧ mentions rows p ∧ v' = 0 ∧ s' = ∅) →
      (∀ w t, conn_view db p = Some (w, t) ∨ has_row rows p w t → w <= v') → (v, s) = (v', s')) as Huniq.
    { intros v s v' s' A MA B MB.
      destruct A as [A|[A|(A & _ & -> & ->)]], B as [B|[B|(B & _ & -> & ->)]]; try congruence.
      - pose proof (MA _ _ (or_intror B)). pose proof (MB _ _ (or_introl A)). assert (v = v') as <- by lia.
        f_equal. by eapply Hknown.
      - pose proof (MA _ _ (or_introl B)). pose proof (MB _ _ (or_intror A)). assert (v = v') as <- by lia.
        f_equal. symmetry. by eapply Hknown.
      - pose proof (MA _ _ (or_intror B)). pose proof (MB _ _ (or_intror A)). assert (v = v') as <- by lia.
        f_equal. by eapply Hrows.
      - pose proof (MB _ _ (or_intror A)). pose proof (Hpos _ _ _ A). lia.
      - pose proof (MA _ _ (or_intror B)). pose proof (Hpos _ _ _ B). lia. }
    f_equal. by eapply Huniq.
  - intros [Hv _] (Hn & Hno & Hm). destruct Hv as [|[Hv|(_ & ? & _)]]; [congruence| |done].
    by destruct (Hno _ _ Hv).
  - intros (Hn & Hno & Hm) [Hv _]. destruct Hv as [|[Hv|(_ & ? & _)]]; [congruence| |done].
    by destruct (Hno _ _ Hv).
Qed.

End Facts.

(** C35: link state databases converge: two nodes that hold the same rows and receive the
    same new rows, in whatever order, batches and repetitions and at whatever times,
    end with the same versions and connections for every peer, and with nothing older
    than any received row. *)
Theorem topology_converges `{!HashIter} rest db msgs1 msgs2 :
  (∀ r, r ∈ concat (map fst msgs1) ↔ r ∈ concat (map fst msgs2)) →
  rows_consistent db (concat (map fst msgs1)) →
  ∀ p, conn_view (receive_lists rest db msgs1) p = conn_view (receive_lists rest db msgs2) p ∧
    ∀ v s, has_row (concat (map fst msgs1)) p v s →
      ∃ v' s', conn_view (receive_lists rest db msgs1) p = Some (v', s') ∧ v <= v'.
Proof.
  intros Hsame Hc p. pose proof (receive_merged rest db msgs1 p) as M1. split.
  - eapply merged_unique; [done|done|]. eapply merged_ext; [| |apply receive_merged].
    + intros v s. unfold has_row. by setoid_rewrite Hsame.
    + unfold mentions. by setoid_rewrite Hsame.
  - intros v s Hr. destruct (conn_view _ p) as [[v' s']|]; cbn in M1.
    + exists v', s'. split; [done|]. destruct M1 as [_ M1]. eapply M1. by right.
    + destruct M1 as (_ & Hno & _). by destruct (Hno _ _ Hr).
Qed.

(** ** Versions *)

(** The calls that change the database, except the removals. *)
Inductive event : Type :=
| ReceiveInfos (my_peer_id my_peer_route_id dst_peer_id : Z) (infos : list RoutePeerInfo)
    (raws : list (list Z))
| ReceiveConns (c : ConnInfo)
| MyInfo (my_peer_id : PeerId) (new : RoutePeerInfo)
| MyConns (my_peer_id : PeerId) (connected : gset PeerId).

(** The new database, and whether the call returned without an error. *)
Definition exec (rest : list Z) db (e : event) (now : Z) : option (SyncedRouteInfo * bool) :=
  match e with
  | ReceiveInfos my route dst infos raws =>
      r ← update_peer_infos db my route dst infos raws now; Some (r.1, is_ok r.2)
  | ReceiveConns c => db' ← update_conn_info rest db c now; Some (db', true)
  | MyInfo my new => Some ((update_my_peer_info db my new now).1, true)
  | MyConns my connected => Some ((update_my_conn_info rest db my connected now).1, true)
  end.

(** The most steps of the database version that a call can take. *)
Definition steps (e : event) : Z :=
  match e with
  | ReceiveConns (ConnBitmap b) => len (bm_peer_ids b) + 2
  | ReceiveConns (ConnPeerList l) => len l + 1
  | MyConns _ _ => 2
  | _ => 1
  end.

(** No version is at the end of its 32 bits. *)
Definition versions_fit db (e : event) : Prop :=
  0 <= si_version db ∧ si_version db + steps e < 2 ^ 32 ∧
  match e with
  | MyInfo my _ => ∀ i, si_peer_infos db !! my = Some i → 0 <= ri_version i < 2 ^ 32 - 1
  | MyConns my _ => ∀ c, si_conn_map db !! my = Some c → 0 <= ci_version c < 2 ^ 32 - 1
  | _ => True
  end.

Section VersionFacts.

Context (rest : list Z).

Lemma same_topology_trans db1 db2 db3 :
  same_topology db1 db2 → same_topology db2 db3 → same_topology db1 db3.
Proof. intros (? & ? & ?) (? & ? & ?). repeat split; congruence. Qed.

(** What a loop over rows has done to the database [db0] after [n] rounds: pending
    changes are recorded in [need]. *)
Definition progress (db0 : SyncedRouteInfo) (n : Z) (st : SyncedRouteInfo * bool) : Prop :=
  let '(db, need) := st in
  advances db0 db ∧ si_version db0 <= si_version db <= si_version db0 + n ∧
  (need = false → same_topology db0 db ∨ si_version db0 < si_version db).

Lemma progress_start db n : 0 <= n → progress db n (db, false).
Proof. intros. split; [apply advances_refl|]. split; [lia|]. intros _. by left. Qed.

Lemma progress_end db0 n st :
  0 <= si_version db0 → si_version db0 + n + 1 < 2 ^ 32 → progress db0 n st →
  advances db0 (inc_version_if st.2 st.1) ∧ announced (n + 1) db0 (inc_version_if st.2 st.1).
Proof.
  destruct st as [db need]. intros H0 Hn (A & V & N). destruct need; cbn.
  - split; [done|]. unfold announced. cbn. unfold version_inc. rewrite wrapping_add_small by (split; lia).
    split; [lia|right; lia].
  - split; [done|]. split; [lia|auto].
Qed.

(** One round: fill the mentioned peers and merge the row. *)
Lemma progress_row db0 n db need pv s now :
  0 <= si_version db0 → si_version db0 + n + 1 < 2 ^ 32 → progress db0 n (db, need) →
  let '(db', changed) := update_conn_info_one_peer (fill_empty_peer_info rest db s now) pv s now in
  progress db0 (n + 1) (db', need || changed).
Proof.
  intros H0 Hn (A & V & N). destruct (fill_spec rest db s now) as (A1 & An & _).
  specialize (An ltac:(lia) ltac:(lia)). destruct An as [V1 C1].
  pose proof (update_one_spec (fill_empty_peer_info rest db s now) pv s now) as Hone.
  destruct (update_conn_info_one_peer _ _ _ _) as [db' changed]. destruct Hone as (A2 & V2 & N2 & _).
  split; [by eapply advances_trans; [|eapply advances_trans]|]. split; [lia|].
  intros [Hneed Hch]%orb_false_iff. specialize (N Hneed). specialize (N2 Hch). rewrite V2.
  destruct C1 as [C1|C1]; [|right; lia]. destruct N as [N|N]; [|right; lia].
  left. by eapply same_topology_trans; [|eapply same_topology_trans].
Qed.

Lemma list_progress db l now :
  0 <= si_version db → si_version db + len l + 1 < 2 ^ 32 →
  progress db (len l) (foldl (update_conn_info_row rest now) (db, false) l).
Proof.
  intros H0 Hn.
  assert (∃ k, k = len l ∧ len l <= k) as (k & Hk & _) by eauto with lia.
  enough (∀ done, len done <= len l → progress db (len done) (foldl (update_conn_info_row rest now) (db, false) done)) as He
    by (apply He; lia).
  intros done. induction done as [|r done IH] using rev_ind; [intros _; by apply progress_start|].
  rewrite len_snoc. intros Hle. rewrite foldl_app. cbn.
  specialize (IH ltac:(lia)). destruct (foldl _ _ done) as [db1 need1]. unfold update_conn_info_row.
  destruct (pc_peer_id r) as [pv|].
  - pose proof (progress_row db (len done) db1 need1 pv (list_to_set (pc_connected_peer_ids r)) now H0 ltac:(lia) IH) as P.
    by destruct (update_conn_info_one_peer _ _ _ _).
  - destruct IH as (? & ? & ?). split; [done|]. split; [lia|done].
Qed.

Lemma bitmap_progress db0 db b now db' :
  0 <= si_version db0 → si_version db0 + len (bm_peer_ids b) + 2 < 2 ^ 32 →
  advances db0 db → announced 1 db0 db →
  (r ← try_fold (λ (st : SyncedRouteInfo * bool) (kv : nat * PeerIdVersion),
        let '(db, need) := st in
        connected ← bitmap_connected_peers b (Z.of_nat kv.1);
        let db := fill_empty_peer_info rest db connected now in
        let '(db, changed) := update_conn_info_one_peer db kv.2 connected now in
        Some (db, need || changed))
      (imap pair (bm_peer_ids b)) (db, false);
   let '(db', need) := r in Some (inc_version_if need db')) = Some db' →
  advances db0 db' ∧ announced (len (bm_peer_ids b) + 2) db0 db'.
Proof.
  intros H0 Hn A0 [V0 N0]. destruct (try_fold _ _ _) as [[db1 need1]|] eqn:E; [|done]. cbn. intros [= <-].
  replace (len (bm_peer_ids b) + 2) with (len (imap pair (bm_peer_ids b)) + 1 + 1) by (rewrite len_imap; lia).
  apply (progress_end _ _ (db1, need1)); [done|rewrite len_imap; lia|].
  pose (P := λ (done : list (nat * PeerIdVersion)) st, len done <= len (imap pair (bm_peer_ids b)) →
    progress db0 (len done + 1) st).
  enough (P (imap pair (bm_peer_ids b)) (db1, need1)) as He by (apply He; lia).
  eapply (try_fold_pres P); [| |exact E]; unfold P.
  - intros _. split; [done|]. unfold len. cbn. split; [lia|]. intros _. destruct N0; [by left|right; lia].
  - intros done [i pv] [db2 need2] st' _ Hp. cbn.
    destruct (bitmap_connected_peers b (Z.of_nat i)) as [s|]; cbn; [|done]. intros Est Hle.
    rewrite len_snoc in *. rewrite len_imap in *.
    pose proof (progress_row db0 (len done + 1) db2 need2 pv s now H0) as Pr.
    destruct (update_conn_info_one_peer _ _ _ _) as [db3 ch]. injection Est as <-.
    apply Pr; [lia|apply Hp; lia].
Qed.


Lemma update_infos_loop_spec my route dst now raws infos idx db need db' need' res :
  update_peer_infos_loop my route dst now raws infos idx db need = Some (db', need', res) →
  advances db db' ∧ si_version db' = si_version db ∧ (need' = false → need = false ∧ same_topology db db').
Proof.
  revert idx db need. induction infos as [|info infos IH]; intros idx db need; cbn.
  { intros [= <- <- <-]. split; [apply advances_refl|done]. }
  destruct (raws !! idx) as [raw|]; cbn; [|done].
  destruct (check_duplicate_peer_id _ _ _ _ _ _) as [[[]|err]|]; cbn; [| |done].
  2:{ intros [= <- <- <-]. split; [apply advances_refl|done]. }
  assert (∀ Hnew : match si_peer_infos db !! ri_peer_id info with
      | Some old => ri_version old < ri_version info | None => True end,
    advances db (with_infos db (<[ri_peer_id info := info_with info (ri_version info) (Some now)]> (si_peer_infos db))
      (<[ri_peer_id info := raw]> (si_raw_peer_infos db)))) as Hadv.
  { intros Hnew. split; [|eauto]. intros p i Hi. cbn. destruct (decide (p = ri_peer_id info)) as [->|Hp].
    - rewrite lookup_insert_eq. rewrite Hi in Hnew. eauto.
    - rewrite lookup_insert_ne by done. eauto. }
  destruct (si_peer_infos db !! ri_peer_id info) as [old|] eqn:Eo.
  - destruct (Z.ltb_spec (ri_version old) (ri_version info)).
    + intros (A & V & N)%IH. split; [by eapply advances_trans; [apply Hadv|]|]. split; [done|].
      intros Hf. by destruct (N Hf).
    + apply IH.
  - intros (A & V & N)%IH. split; [by eapply advances_trans; [apply Hadv|]|]. split; [done|].
    intros Hf. by destruct (N Hf).
Qed.

Lemma update_my_info_spec db my new now :
  versions_fit db (MyInfo my new) →
  advances db (update_my_peer_info db my new now).1 ∧ announced 1 db (update_my_peer_info db my new now).1.
Proof.
  intros (H0 & Hr & Hm). unfold update_my_peer_info. cbn in Hr.
  destruct (match si_peer_infos db !! my with Some old => _ | None => _ end) as [new' need].
  destruct need; cbn.
  2:{ split; [apply advances_refl|]. split; [lia|]. by left. }
  split.
  - split; cbn; [|eauto]. intros p i Hi. destruct (decide (p = my)) as [->|Hp].
    + rewrite lookup_insert_eq, Hi. eexists. split; [done|]. right. cbn.
      specialize (Hm _ Hi). rewrite wrapping_add_small by (split; lia). lia.
    + rewrite lookup_insert_ne by done. eauto.
  - unfold announced. cbn. unfold version_inc. rewrite wrapping_add_small by (split; lia). split; [lia|right; lia].
Qed.

Lemma update_my_conns_spec db my connected now :
  versions_fit db (MyConns my connected) →
  advances db (update_my_conn_info rest db my connected now).1 ∧
  announced 2 db (update_my_conn_info rest db my connected now).1.
Proof.
  intros (H0 & Hr & Hm). cbn in Hr. unfold update_my_conn_info.
  destruct (fill_spec rest db connected now) as (A & An & Hview). specialize (An ltac:(lia) H0).
  set (db1 := fill_empty_peer_info rest db connected now) in *. destruct An as [V C].
  destruct (match si_conn_map db1 !! my with Some old => _ | None => _ end); cbn.
  2:{ split; [done|]. split; [lia|done]. }
  split.
  - eapply advances_trans; [done|]. split; cbn; [eauto|]. intros p c Hc. destruct (decide (p = my)) as [->|Hp].
    + rewrite lookup_insert_eq, Hc. eexists. split; [done|]. right. cbn.
      assert (0 <= ci_version c < 2 ^ 32 - 1).
      { specialize (Hview my). unfold conn_view in Hview. rewrite Hc in Hview. cbn in Hview.
        destruct (si_conn_map db !! my) as [c0|] eqn:E0; cbn in Hview.
        - specialize (Hm _ eq_refl). injection Hview as -> _. lia.
        - case_decide; [injection Hview as -> _; lia|done]. }
      rewrite wrapping_add_small by (split; lia). lia.
    + rewrite lookup_insert_ne by done. eauto.
  - unfold announced. cbn. unfold version_inc. rewrite wrapping_add_small by (split; lia).
    split; [lia|right; lia].
Qed.

Lemma exec_spec db e now db' ok :
  exec rest db e now = Some (db', ok) → versions_fit db e →
  advances db db' ∧ (ok = true → announced (steps e) db db').
Proof.
  intros E F. destruct e as [my route dst infos raws|[b|l]|my new|my connected]; cbn in E.
  - destruct (update_peer_infos db my route dst infos raws now) as [[db1 res]|] eqn:Eu; cbn in E; [|done].
    injection E as <- <-. unfold update_peer_infos in Eu.
    destruct (update_peer_infos_loop _ _ _ _ _ _ _ _ _) as [[[db2 need] res']|] eqn:El; cbn in Eu; [|done].
    apply update_infos_loop_spec in El as (A & V & N). destruct F as (H0 & Hr & _). cbn in Hr.
    destruct res' as [[]|err]; injection Eu as <- <-; cbn; [|done].
    destruct need; cbn.
    + split; [done|]. intros _. unfold announced. cbn. unfold version_inc. rewrite V, wrapping_add_small by (split; lia).
      split; [lia|right; lia].
    + split; [done|]. intros _. split; [lia|]. left. by apply N.
  - destruct (update_conn_info_with_bitmap rest db b now) as [db1|] eqn:Eb; cbn in E; [|done].
    injection E as <- <-. destruct F as (H0 & Hr & _). cbn in Hr.
    destruct (fill_spec rest db (list_to_set (map pv_peer_id (bm_peer_ids b))) now) as (A1 & An & _).
    pose proof (len_nonneg (bm_peer_ids b)).
    specialize (An ltac:(lia) H0). destruct (bitmap_progress db _ b now db1 H0 ltac:(lia) A1 An Eb) as [A N].
    split; [done|]. by intros _.
  - injection E as <- <-. destruct F as (H0 & Hr & _). cbn in Hr.
    pose proof (list_progress db l now H0 ltac:(lia)) as P. unfold update_conn_info_with_list.
    pose proof (progress_end db (len l) _ H0 ltac:(lia) P) as [A N].
    destruct (foldl _ _ _) as [db1 need]. split; [done|]. by intros _.
  - injection E as <- <-. destruct (update_my_info_spec db my new now F) as [A N]. split; [done|]. by intros _.
  - injection E as <- <-. destruct (update_my_conns_spec db my connected now F) as [A N]. split; [done|]. by intros _.
Qed.

End VersionFacts.

(** Versions never go back and every change is announced: a call keeps, for each
    peer, the stored info and row or replaces them by newer ones, also when it ends in
    an error; and a call that returns without an error raises the version of the
    database whenever it changed the topology, so the route tables are rebuilt. *)
Theorem versions_advance rest db e now db' ok :
  exec rest db e now = Some (db', ok) → versions_fit db e →
  advances db db' ∧ (ok = true → announced (steps e) db db').
Proof. apply exec_spec. Qed.

(** Without the condition [ok = true] the announcement fails: infos stored before the
    one that is refused stay stored, but the version of the database is not raised, so
    the route table keeps the old topology until some later change. *)
Theorem refused_infos_not_announced :
  ∃ db infos raws db', let e := ReceiveInfos 1 10 2 infos raws in
    exec [] db e 5 = Some (db', false) ∧ si_version db' = si_version db ∧
    si_peer_infos db' !! 3 ≠ si_peer_infos db !! 3.
Proof.
  set (info := λ p v r, mkPeerInfo p v r None None None None [] 0 None []).
  exists (mkSynced {[2 := info 2 9 20]} ∅ ∅ ∅ ∅ 7), [info 3 1 30; info 2 5 21], [[]; []].
  eexists. split; [vm_compute; reflexivity|]. split; [reflexivity|]. vm_compute. discriminate.
Qed.

(** A connection bitmap that is too short for its peers makes the receiver panic. *)
Theorem short_bitmap_panics rest db now p :
  update_conn_info rest db (ConnBitmap (mkBitmap [p] [])) now = None.
Proof. reflexivity. Qed.

(** ** The bitmap *)

Section BitmapFacts.

Context `{!HashIter}.

Local Ltac Zify.zify_post_hook ::= Z.to_euclidean_division_equations.

(** Bit [j] of a byte string; bits beyond its end read as unset. *)
Definition bit (bits : list Z) (j : Z) : bool :=
  match index bits (j / 8) with Some b => Z.testbit b (j mod 8) | None => false end.

Lemma index_in_range {A} (l : list A) i : 0 <= i < len l → ∃ x, index l i = Some x.
Proof.
  intros Hi. unfold index. rewrite (proj2 (Z.leb_le 0 i)) by lia.
  apply lookup_lt_is_Some. unfold len in Hi. lia.
Qed.

Lemma get_bit_spec b j : 0 <= j < 8 * len (bitmap b) → get_bit b j = Some (bit (bitmap b) j).
Proof.
  intros Hj. unfold get_bit, bit. destruct (index_in_range (bitmap b) (j / 8)) as (x & ->); [lia|]. cbn.
  by rewrite land_1_testbit by lia.
Qed.

Lemma testbit_1 i : Z.testbit 1 i = (i =? 0).
Proof.
  destruct (Z.eqb_spec i 0) as [->|Hi]; [done|]. destruct (decide (i < 0)); [by apply Z.testbit_neg_r|].
  apply Z.bits_above_log2; [lia|]. change (Z.log2 1) with 0. lia.
Qed.

Lemma set_bit_spec bits k :
  0 <= k < 8 * len bits →
  ∃ bits', set_bit bits k = Some bits' ∧ len bits' = len bits ∧
    ∀ j, 0 <= j → bit bits' j = true ↔ j = k ∨ bit bits j = true.
Proof.
  intros Hk. unfold set_bit. destruct (index_in_range bits (k / 8)) as (x & Hx); [lia|]. rewrite Hx. cbn.
  eexists. split; [done|]. split; [unfold len; by rewrite length_insert|]. intros j Hj. unfold bit.
  pose proof (index_lt _ _ _ Hx) as [Hlt _].
  assert (∀ l : list Z, index l (k / 8) = l !! Z.to_nat (k / 8)) as Ei.
  { intros l. unfold index. by rewrite (proj2 (Z.leb_le _ _)) by lia. }
  destruct (decide (j / 8 = k / 8)) as [E|E].
  - rewrite E, Ei, list_lookup_insert_eq by (unfold len in Hlt; lia). rewrite Hx.
    rewrite Z.lor_spec, Z.shiftl_spec, orb_true_iff by lia.
    rewrite testbit_1, Z.eqb_eq. split; [intros [?|?]; [auto|left; lia]|]. intros [->|?]; [right; lia|auto].
  - assert (index (<[Z.to_nat (k / 8) := Z.lor x (Z.shiftl 1 (k mod 8))]> bits) (j / 8) = index bits (j / 8)) as ->.
    { unfold index. rewrite (proj2 (Z.leb_le 0 (j / 8))) by lia. apply list_lookup_insert_ne. lia. }
    split; [auto|]. intros [->|?]; done.
Qed.

(** Bit [i * n + k] stands for column [k] of row [i]. *)
Definition row_bit (ids : list PeerIdVersion) (connected : gset PeerId) (i j : Z) : Prop :=
  ∃ k pv, ids !! k = Some pv ∧ j = i * len ids + Z.of_nat k ∧ pv_peer_id pv ∈ connected.

Lemma set_row_spec ids connected i bits :
  0 <= i < len ids → len ids * len ids <= 8 * len bits →
  ∃ bits', set_row ids connected i bits = Some bits' ∧ len bits' = len bits ∧
    ∀ j, 0 <= j → bit bits' j = true ↔ row_bit ids connected i j ∨ bit bits j = true.
Proof.
  intros Hi Hlen. unfold set_row.
  pose (P := λ (done : list (nat * PeerIdVersion)) bits', len bits' = len bits ∧ ∀ j, 0 <= j →
    bit bits' j = true ↔ (∃ k pv, (k, pv) ∈ done ∧ j = i * len ids + Z.of_nat k ∧ pv_peer_id pv ∈ connected) ∨
      bit bits j = true).
  destruct (try_fold_inv P (λ bits (kv : nat * PeerIdVersion),
    if decide (pv_peer_id kv.2 ∈ connected) then set_bit bits (i * len ids + Z.of_nat kv.1) else Some bits)
    (imap pair ids) bits) as (bits' & -> & Hl & Hb).
  - split; [done|]. intros j _. split; [auto|]. intros [(k & pv & []%not_elem_of_nil & _)|?]; done.
  - intros done [k pv] bits1 Hin [Hl Hb]. cbn.
    apply elem_of_lookup_imap in Hin as (k' & pv' & [= -> ->] & Hk). pose proof (lookup_lt_Some _ _ _ Hk) as Hlt.
    assert (∀ j, (∃ k pv0, (k, pv0) ∈ done ++ [(k', pv')] ∧ j = i * len ids + Z.of_nat k ∧ pv_peer_id pv0 ∈ connected) ↔
      (∃ k pv0, (k, pv0) ∈ done ∧ j = i * len ids + Z.of_nat k ∧ pv_peer_id pv0 ∈ connected) ∨
      (j = i * len ids + Z.of_nat k' ∧ pv_peer_id pv' ∈ connected)) as Hsnoc.
    { intros j. split.
      - intros (k & pv0 & [Hd|[= -> ->]%list_elem_of_singleton]%elem_of_app & ? & ?); eauto 6.
      - intros [(k & pv0 & ? & ? & ?)|[? ?]]; [exists k, pv0|exists k', pv']; set_solver. }
    unfold P. setoid_rewrite Hsnoc. case_decide as Hc.
    + destruct (set_bit_spec bits1 (i * len ids + Z.of_nat k')) as (bits2 & -> & Hl2 & Hb2).
      { rewrite Hl. unfold len in *. nia. }
      exists bits2. split; [done|]. split; [congruence|]. intros j Hj. rewrite Hb2, Hb by done. tauto.
    + exists bits1. split; [done|]. split; [done|]. intros j Hj. rewrite Hb by done. tauto.
  - exists bits'. split; [done|]. split; [done|]. intros j Hj. rewrite Hb by done. f_equiv. unfold row_bit.
    split; intros (k & pv & Hk & ? & ?); exists k, pv; (split; [|auto]).
    + apply elem_of_lookup_imap in Hk as (? & ? & [= -> ->] & ?). done.
    + apply elem_of_lookup_imap. eauto.
Qed.

Lemma bit_zeros n j : bit (replicate n 0) j = false.
Proof.
  unfold bit, index. case_match eqn:E; [|done]. case_match; [|done].
  apply lookup_replicate in E as [-> _]. apply Z.testbit_0_l.
Qed.

(** Reading a row. *)
Lemma connected_peers_spec b i :
  0 <= i < len (bm_peer_ids b) → len (bm_peer_ids b) * len (bm_peer_ids b) <= 8 * len (bitmap b) →
  ∃ s, bitmap_connected_peers b i = Some s ∧ ∀ q, q ∈ s ↔ ∃ k pv, bm_peer_ids b !! k = Some pv ∧
    bit (bitmap b) (i * len (bm_peer_ids b) + Z.of_nat k) = true ∧ q = pv_peer_id pv.
Proof.
  intros Hi Hlen. unfold bitmap_connected_peers.
  pose (P := λ (done : list (nat * PeerIdVersion)) (s : gset PeerId), ∀ q, q ∈ s ↔ ∃ k pv, (k, pv) ∈ done ∧
    bit (bitmap b) (i * len (bm_peer_ids b) + Z.of_nat k) = true ∧ q = pv_peer_id pv).
  destruct (try_fold_inv P (λ s (kv : nat * PeerIdVersion),
    bit ← get_bit b (i * len (bm_peer_ids b) + Z.of_nat kv.1);
    Some (if bit : bool then {[pv_peer_id kv.2]} ∪ s else s)) (imap pair (bm_peer_ids b)) ∅) as (s & -> & Hs).
  - intros q. split; [set_solver|]. by intros (k & pv & []%not_elem_of_nil & _).
  - intros done [k pv] s Hin Hs. apply elem_of_lookup_imap in Hin as (k' & pv' & [= -> ->] & Hk).
    pose proof (lookup_lt_Some _ _ _ Hk). cbn. rewrite get_bit_spec by (unfold len in *; nia). cbn.
    eexists. split; [done|]. intros q. split.
    + intros Hq. assert ((bit (bitmap b) (i * len (bm_peer_ids b) + Z.of_nat k') = true ∧ q = pv_peer_id pv') ∨ q ∈ s) as Hq'.
      { destruct (bit _ _); [|by right]. apply elem_of_union in Hq as [->%elem_of_singleton|]; auto. }
      destruct Hq' as [[? ?]|(k & pv & ? & ? & ?)%Hs]; [exists k', pv'|exists k, pv]; set_solver.
    + intros (k & pv & [Hd|[= -> ->]%list_elem_of_singleton]%elem_of_app & Hbit & ->).
      * assert (pv_peer_id pv ∈ s) by (apply Hs; eauto). case_match; set_solver.
      * rewrite Hbit. set_solver.
  - exists s. split; [done|]. intros q. rewrite (Hs q).
    split; intros (k & pv & Hk & ? & ?); exists k, pv; (split; [|auto]).
    + apply elem_of_lookup_imap in Hk as (? & ? & [= -> ->] & ?). done.
    + apply elem_of_lookup_imap. eauto.
Qed.


(** ** The peers of the bitmap *)

Lemma add_to_all_lookup m p v q :
  add_to_all_peer_ids m (p, v) !! q =
    if decide (q = p) then Some (match m !! p with Some x => Z.max x v | None => v end) else m !! q.
Proof.
  unfold add_to_all_peer_ids. case_decide as E; [subst q|]; destruct (m !! p) as [x|] eqn:Ex;
    try destruct (Z.ltb_spec x v); rewrite ?lookup_insert_eq, ?lookup_insert_ne by done; try done.
  - f_equal. lia.
  - rewrite Ex. f_equal. lia.
Qed.

Abbreviation add_row_peers := (λ (m : gmap PeerId Version) (item : PeerId * RouteConnInfo),
  foldl add_to_all_peer_ids (add_to_all_peer_ids m (item.1, ci_version item.2))
    (map (λ q, (q, 0)) (btree_iter (ci_connected_peers item.2)))).

(** Adding a row keeps the entries, adds its peers, and gives no version but its own. *)
Lemma add_row_peers_spec m p c :
  (∀ q v, m !! q = Some v → 0 <= v) → 0 <= ci_version c →
  let m' := add_row_peers m (p, c) in
  (∀ q v, m !! q = Some v → ∃ v', m' !! q = Some v' ∧ v <= v') ∧
  (∃ v, m' !! p = Some v ∧ ci_version c <= v) ∧
  (∀ q, q ∈ ci_connected_peers c → is_Some (m' !! q)) ∧
  (∀ q v, m' !! q = Some v → m !! q = Some v ∨ v = 0 ∨ (q = p ∧ v = ci_version c)).
Proof.
  intros Hm Hc m'. unfold m'. cbn.
  set (m1 := add_to_all_peer_ids m (p, ci_version c)).
  assert (∀ q v, m1 !! q = Some v → 0 <= v ∧ (m !! q = Some v ∨ (q = p ∧ v = ci_version c))) as H1.
  { intros q v. unfold m1. rewrite add_to_all_lookup. case_decide as Hq; [|intros Hv; split; eauto].
    subst q. intros [= <-]. destruct (m !! p) as [x|] eqn:Ex; [|auto].
    split; [lia|]. destruct (Z.max_spec x (ci_version c)) as [[? ->]|[? ->]]; auto. }
  pose (P := λ (done : list (PeerId * Version)) (m' : gmap PeerId Version),
    (∀ q v, m1 !! q = Some v → m' !! q = Some v) ∧ (∀ q v, (q, v) ∈ done → is_Some (m' !! q)) ∧
    (∀ q v, m' !! q = Some v → m1 !! q = Some v ∨ v = 0)).
  assert (P (map (λ q, (q, 0)) (btree_iter (ci_connected_peers c)))
    (foldl add_to_all_peer_ids m1 (map (λ q, (q, 0)) (btree_iter (ci_connected_peers c))))) as (A & B & D).
  - apply (foldl_inv P).
    + split; [auto|]. split; [by intros ? ? ?%not_elem_of_nil|auto].
    + intros done [q v] m2 Hin (A & B & D). apply list_elem_of_fmap in Hin as (? & [= -> ->] & _).
      split; [|split].
      * intros r u Hr. rewrite add_to_all_lookup. case_decide as E; [subst r|by apply A].
        rewrite (A _ _ Hr). destruct (H1 _ _ Hr). f_equal. lia.
      * intros r u [Hr|[= -> ->]%list_elem_of_singleton]%elem_of_app; rewrite add_to_all_lookup; case_decide; eauto; done.
      * intros r u. rewrite add_to_all_lookup. case_decide as E; [subst r|auto]. intros [= <-].
        destruct (m2 !! x) as [y|] eqn:Ey; [|auto]. destruct (D _ _ Ey) as [Hy| ->]; [|auto].
        left. rewrite Hy. f_equal. destruct (H1 _ _ Hy). lia.
  - split; [|split; [|split]].
    + intros q v Hq. assert (∃ v', m1 !! q = Some v' ∧ v <= v') as (v' & Hv' & ?); [|eauto].
      unfold m1. rewrite add_to_all_lookup. case_decide as E; [subst q; rewrite Hq; eexists; split; [done|lia]|].
      exists v. split; [done|lia].
    + assert (∃ v', m1 !! p = Some v' ∧ ci_version c <= v') as (v' & Hv' & ?); [|eauto].
      unfold m1. rewrite add_to_all_lookup, decide_True by done. eexists. split; [done|].
      destruct (m !! p); lia.
    + intros q Hq. apply (B q 0). apply list_elem_of_fmap. exists q. split; [done|]. by apply set_btree_iter.
    + intros q v Hq. destruct (D _ _ Hq) as [Hv|]; [|auto]. destruct (H1 _ _ Hv) as [_ [?|?]]; auto.
Qed.

Lemma all_peer_ids_spec db reachable :
  (∀ p c, si_conn_map db !! p = Some c → 0 <= ci_version c) →
  ∀ p c, si_conn_map db !! p = Some c → reachable p = true →
    all_peer_ids db reachable !! p = Some (ci_version c) ∧
    ∀ q, q ∈ ci_connected_peers c → q ∈ dom (all_peer_ids db reachable).
Proof.
  intros Hpos.
  pose (P := λ (done : list (PeerId * RouteConnInfo)) (m : gmap PeerId Version),
    (∀ p c, (p, c) ∈ done → reachable p = true →
       (∃ v, m !! p = Some v ∧ ci_version c <= v) ∧ ∀ q, q ∈ ci_connected_peers c → is_Some (m !! q)) ∧
    (∀ p v, m !! p = Some v → 0 <= v ∧ (v = 0 ∨ ∃ c, si_conn_map db !! p = Some c ∧ v = ci_version c))).
  assert (P (iter (si_conn_map db)) (all_peer_ids db reachable)) as [A B].
  { apply (foldl_inv P).
    { split; [by intros ? ? ?%not_elem_of_nil|]. intros p v. by rewrite lookup_empty. }
    intros done [p c] m Hin [A B]. rewrite iter_perm in Hin. apply elem_of_map_to_list in Hin. cbn [fst].
    destruct (reachable p) eqn:Hr; cbn [negb].
    2:{ split; [|done]. intros p' c' [?|[= -> ->]%list_elem_of_singleton]%elem_of_app; [eauto|congruence]. }
    destruct (add_row_peers_spec m p c) as (S1 & S2 & S3 & S4); [intros q v Hq; by apply (B q v)|by eapply Hpos|].
    split.
    - intros p' c' [Hd|[= -> ->]%list_elem_of_singleton]%elem_of_app Hr'; [|split; [exact S2|exact S3]].
      destruct (A _ _ Hd Hr') as ((v & Hv & ?) & Hq). split.
      + destruct (S1 _ _ Hv) as (v' & ? & ?). exists v'. split; [done|lia].
      + intros q Hq'. destruct (Hq q Hq') as [v0 Hv0]. destruct (S1 _ _ Hv0) as (v1 & ? & _). eauto.
    - intros q v Hq. destruct (S4 _ _ Hq) as [Hq'|[->|[-> ->]]]; [by apply B|split; [lia|auto]|].
      split; [by eapply Hpos|eauto]. }
  intros p c Hp Hr. assert ((p, c) ∈ iter (si_conn_map db)) as Hin by (rewrite iter_perm; by apply elem_of_map_to_list).
  destruct (A _ _ Hin Hr) as ((v & Hv & Hle) & Hq). split; [|intros q ?; apply elem_of_dom; auto].
  rewrite Hv. f_equal. destruct (B _ _ Hv) as [_ [->|(c' & Hc' & ->)]]; [|by simplify_eq].
  pose proof (Hpos _ _ Hp). lia.
Qed.

Lemma btree_map_iter_lookup m p v :
  m !! p = Some v → ∃ k, btree_map_iter m !! k = Some (mkPeerIdVersion p v).
Proof.
  intros Hp. apply list_elem_of_lookup. unfold btree_map_iter. apply list_elem_of_fmap. exists p.
  rewrite Hp. split; [done|]. apply set_btree_iter, elem_of_dom. eauto.
Qed.

Lemma row_decode n i j k l : 0 <= k < n → 0 <= l < n → i * n + k = j * n + l → i = j ∧ k = l.
Proof.
  intros Hk Hl E. destruct (Z.lt_trichotomy i j) as [Hij|[->|Hij]]; [|lia|].
  - pose proof (Z.mul_le_mono_nonneg_r (i + 1) j n ltac:(lia) ltac:(lia)). lia.
  - pose proof (Z.mul_le_mono_nonneg_r (j + 1) i n ltac:(lia) ltac:(lia)). lia.
Qed.

Lemma build_bitmap_spec db reachable :
  ∃ b, build_conn_bitmap db reachable = Some b ∧
    bm_peer_ids b = btree_map_iter (all_peer_ids db reachable) ∧
    len (bm_peer_ids b) * len (bm_peer_ids b) <= 8 * len (bitmap b) ∧
    ∀ j, 0 <= j → bit (bitmap b) j = true ↔ ∃ i pv c, bm_peer_ids b !! i = Some pv ∧
      si_conn_map db !! pv_peer_id pv = Some c ∧ row_bit (bm_peer_ids b) (ci_connected_peers c) (Z.of_nat i) j.
Proof.
  unfold build_conn_bitmap. set (ids := btree_map_iter _). pose proof (len_nonneg ids) as Hn.
  set (bits0 := replicate _ 0).
  assert (len bits0 = div_ceil (len ids * len ids) 8) as Hl0.
  { unfold bits0, len at 1. rewrite length_replicate, Z2Nat.id; [done|].
    unfold div_ceil. apply Z.div_pos; nia. }
  assert (len ids * len ids <= 8 * len bits0) as Hlen.
  { rewrite Hl0. unfold div_ceil. generalize (len ids * len ids). intros x. lia. }
  pose (P := λ (done : list (nat * PeerIdVersion)) bits, len bits = len bits0 ∧ ∀ j, 0 <= j →
    bit bits j = true ↔ ∃ i pv c, (i, pv) ∈ done ∧ si_conn_map db !! pv_peer_id pv = Some c ∧
      row_bit ids (ci_connected_peers c) (Z.of_nat i) j).
  destruct (try_fold_inv P (λ bits (kv : nat * PeerIdVersion),
    match si_conn_map db !! pv_peer_id kv.2 with
    | None => Some bits
    | Some c => set_row ids (ci_connected_peers c) (Z.of_nat kv.1) bits
    end) (imap pair ids) bits0) as (bits & -> & Hl & Hb).
  - split; [done|]. intros j _. unfold bits0. rewrite bit_zeros. split; [done|].
    by intros (i & pv & c & ?%not_elem_of_nil & _).
  - intros done [i pv] bits Hin [Hl Hb]. apply elem_of_lookup_imap in Hin as (i' & pv' & [= -> ->] & Hi). cbn.
    pose proof (lookup_lt_Some _ _ _ Hi) as Hlt.
    destruct (si_conn_map db !! pv_peer_id pv') as [c|] eqn:Ec.
    + destruct (set_row_spec ids (ci_connected_peers c) (Z.of_nat i') bits) as (bits' & -> & Hl' & Hb');
        [unfold len; lia|by rewrite Hl|]. exists bits'. split; [done|]. split; [congruence|].
      intros j Hj. rewrite Hb', Hb by done. split.
      * intros [?|(i & pv & c' & ? & ? & ?)]; [exists i', pv', c|exists i, pv, c']; set_solver.
      * intros (i & pv & c' & [?|[= -> ->]%list_elem_of_singleton]%elem_of_app & ? & ?); [right; eauto 6|left; congruence].
    + exists bits. split; [done|]. split; [done|]. intros j Hj. rewrite Hb by done.
      split; intros (i & pv & c' & Hd & ? & ?); exists i, pv, c'; (split; [|auto]); [set_solver|].
      apply elem_of_app in Hd as [?|[= -> ->]%list_elem_of_singleton]; [done|congruence].
  - cbn. eexists. split; [done|]. split; [done|]. cbn. split; [by rewrite Hl|]. intros j Hj. rewrite Hb by done.
    split; intros (i & pv & c & Hi & ? & ?); exists i, pv, c; (split; [|auto]).
    + apply elem_of_lookup_imap in Hi as (? & ? & [= -> ->] & ?). done.
    + apply elem_of_lookup_imap. eauto.
Qed.

End BitmapFacts.

(** Connection bitmaps are read back: building the bitmap of a database never runs
    out of its bytes, and a receiver that reads the row of any reachable peer gets its
    version and exactly the peers it is connected to. *)
Theorem conn_bitmap_roundtrip `{!HashIter} db reachable :
  (∀ p c, si_conn_map db !! p = Some c → 0 <= ci_version c) →
  ∃ b, build_conn_bitmap db reachable = Some b ∧
    ∀ p c, si_conn_map db !! p = Some c → reachable p = true →
      ∃ i, bm_peer_ids b !! i = Some (mkPeerIdVersion p (ci_version c)) ∧
        bitmap_connected_peers b (Z.of_nat i) = Some (ci_connected_peers c).
Proof.
  intros Hpos. destruct (build_bitmap_spec db reachable) as (b & -> & Hids & Hlen & Hbit).
  exists b. split; [done|]. intros p c Hp Hr.
  destruct (all_peer_ids_spec db reachable Hpos p c Hp Hr) as [Hv Hq].
  destruct (btree_map_iter_lookup _ _ _ Hv) as (i & Hi). rewrite <- Hids in Hi. exists i. split; [done|].
  pose proof (lookup_lt_Some _ _ _ Hi) as Hlt.
  destruct (connected_peers_spec b (Z.of_nat i)) as (s & -> & Hs); [unfold len; lia|done|]. f_equal.
  apply set_eq. intros q. rewrite Hs. split.
  - intros (k & pv & Hk & Hb & ->). pose proof (lookup_lt_Some _ _ _ Hk).
    apply Hbit in Hb as (i' & pv' & c' & Hi' & Hc' & k' & pv'' & Hk' & E & Hin); [|unfold len; nia].
    pose proof (lookup_lt_Some _ _ _ Hk'). apply row_decode in E as [Ei Ek]; [|unfold len; lia..].
    assert (i' = i) as -> by lia. assert (k' = k) as -> by lia. simplify_eq. by simplify_eq/=.
  - intros Hqc. specialize (Hq q Hqc). apply elem_of_dom in Hq as [v Hqv].
    destruct (btree_map_iter_lookup _ _ _ Hqv) as (k & Hk). rewrite <- Hids in Hk.
    exists k, (mkPeerIdVersion q v). split; [done|]. split; [|done]. apply Hbit; [unfold len; nia|].
    exists i, (mkPeerIdVersion p (ci_version c)), c. split; [done|]. split; [done|]. exists k, (mkPeerIdVersion q v). auto.
Qed.

(** * Witnesses *)

Definition demo_db : SyncedRouteInfo := mkSynced ∅ ∅ {[1 := mkConn {[2]} 3 0]} ∅ ∅ 1.

Definition demo_row (p v : Z) (l : list Z) : PeerConnInfo := mkPeerConn (Some (mkPeerIdVersion p v)) l.

Definition demo_msgs1 : list (list PeerConnInfo * Z) := [([demo_row 2 4 [1; 5]; demo_row 1 2 []], 10); ([demo_row 2 5 [1]], 11)].
Definition demo_msgs2 : list (list PeerConnInfo * Z) := [([demo_row 2 5 [1]], 7); ([demo_row 1 2 []], 8); ([demo_row 2 4 [1; 5]; demo_row 2 5 [1]], 9)].

Lemma topology_converges_witness :
  (∀ p, conn_view (receive_lists [] demo_db demo_msgs1) p = conn_view (receive_lists [] demo_db demo_msgs2) p ∧
    ∀ v s, has_row (concat (map fst demo_msgs1)) p v s →
      ∃ v' s', conn_view (receive_lists [] demo_db demo_msgs1) p = Some (v', s') ∧ v <= v') ∧
  conn_view (receive_lists [] demo_db demo_msgs1) 2 = Some (5, {[1]}) ∧
  conn_view (receive_lists [] demo_db demo_msgs2) 5 = Some (0, ∅).
Proof.
  split; [|split; vm_compute; reflexivity].
  apply (topology_converges [] demo_db demo_msgs1 demo_msgs2); [cbn; set_solver|].
  assert (∀ p v s, has_row (concat (map fst demo_msgs1)) p v s →
    (p, v, s) ∈ [(2, 4, list_to_set [1; 5]); (1, 2, ∅); (2, 5, list_to_set [1])]) as Hrows.
  { intros p v s (r & Hr & E & ->). cbn in Hr. rewrite !elem_of_cons, elem_of_nil in Hr.
    destruct_or? Hr; subst r; injection E as <- <-; cbn; rewrite !elem_of_cons; auto; done. }
  split.
  - intros p v s Hr%Hrows. rewrite !elem_of_cons, elem_of_nil in Hr. destruct_or? Hr; by simplify_eq.
  - intros p v s s' Hr%Hrows Hr'%Hrows. rewrite !elem_of_cons, elem_of_nil in Hr, Hr'.
    destruct_or? Hr; destruct_or? Hr'; by simplify_eq.
  - intros p v s s' Hk Hr%Hrows. rewrite !elem_of_cons, elem_of_nil in Hr. unfold conn_view in Hk. cbn in Hk.
    destruct_or? Hr; simplify_eq; vm_compute in Hk; by simplify_eq.
Defined.

Lemma versions_advance_witness :
  ∃ db', exec [] demo_db (MyConns 1 {[4]}) 20 = Some (db', true) ∧
    (advances demo_db db' ∧ (true = true → announced 2 demo_db db')) ∧
    si_version db' = 3 ∧ ci_version <$> si_conn_map db' !! 1 = Some 4.
Proof.
  eexists. split; [vm_compute; reflexivity|]. split; [|split; vm_compute; reflexivity].
  apply (versions_advance [] demo_db (MyConns 1 {[4]}) 20); [vm_compute; reflexivity|].
  split; [vm_compute; discriminate|]. split; [vm_compute; reflexivity|].
  intros c. unfold demo_db. cbn. intros [_ <-]%lookup_singleton_Some. cbn. lia.
Defined.

Lemma conn_bitmap_roundtrip_witness :
  (∃ b, build_conn_bitmap demo_db (λ _, true) = Some b ∧
    ∀ p c, si_conn_map demo_db !! p = Some c → (λ _, true) p = true →
      ∃ i, bm_peer_ids b !! i = Some (mkPeerIdVersion p (ci_version c)) ∧
        bitmap_connected_peers b (Z.of_nat i) = Some (ci_connected_peers c)) ∧
  build_conn_bitmap demo_db (λ _, true) = Some (mkBitmap [mkPeerIdVersion 1 3; mkPeerIdVersion 2 0] [2]).
Proof.
  split; [|vm_compute; reflexivity].
  apply (conn_bitmap_roundtrip demo_db (λ _, true)). intros p c. unfold demo_db. cbn.
  intros [<- <-]%lookup_singleton_Some. cbn. lia.
Defined.
