(* ===== verification/RouteSession.v ===== *)
(** * Route synchronisation sessions

    Models [SyncRouteSession] of easytier-core/src/peers/route/peer_ospf_route.rs: what a
    node remembers about a neighbour it exchanges link state with (the versions the
    neighbour acknowledged, the infos held back because their peer is unreachable, the
    identity of both ends), the admission of inbound requests, the check that discards
    the response of an outdated request, the table of sessions, and the election loop
    that decides with which neighbour this node keeps a session as initiator.

    Each call holds the session lock and is one step; [now] is the instant of the call.
    The background task of a session is not modelled, except for the observation
    [is_running] that the election makes.  Random session ids are arguments. *)

From stdpp Require Import base gmap list numbers strings sets.
From Stdlib Require Import ZArith Lia.
From S2P Require Import Prelude RouteTable LinkState.
Local Open Scope Z_scope.

(** ** Data *)

Record VersionAndTouchTime : Type := mkTouched { vt_version : Version; touch_time : Z }.

(** Nanoseconds. *)
Definition SAVED_VERSION_TIMEOUT : Z := 60 * 10 ^ 9.
Definition INITIATOR_SESSION_LIVENESS_TIMEOUT : Z := 45 * 10 ^ 9.

Record SyncRequestSnapshot : Type := mkReqSnapshot {
  rs_my_session_id : Z;
  rs_state_revision : Z;
  rs_is_initiator : bool
}.

(** The fields of [SyncRouteSession] that describe what the neighbour knows and asked
    for: exactly those that a new remote session clears. *)
Record SavedState : Type := mkSaved {
  dst_saved_peer_info_versions : gmap PeerId VersionAndTouchTime;
  dst_saved_conn_info_version : gmap PeerId VersionAndTouchTime;
  dst_saved_foreign_network_versions : gmap ForeignKey VersionAndTouchTime;
  unreachable_peers_for_peer_info : gmap PeerId Version;
  unreachable_peers_for_conn_info : gmap PeerId Version;
  missing_peer_ids : gset PeerId;
  last_sync_succ_timestamp : option Z
}.

Record SyncRouteSession : Type := mkSession {
  my_peer_id : PeerId;
  dst_peer_id : PeerId;
  saved_state : SavedState;
  last_contact_instant : Z;
  my_session_id : Z;
  dst_session_id : Z;
  we_are_initiator : bool;
  dst_is_initiator : bool;
  state_revision : Z;
  need_sync_initiator_info : bool;
  rpc_tx_count : Z;
  rpc_rx_count : Z
}.

Definition cleared_state : SavedState := mkSaved ∅ ∅ ∅ ∅ ∅ ∅ None.

Implicit Types s : SyncRouteSession.

Definition new_session (my dst session_id now : Z) : SyncRouteSession :=
  mkSession my dst cleared_state now session_id 0 false false 0 false 0 0.

Definition with_saved s (st : SavedState) : SyncRouteSession :=
  mkSession (my_peer_id s) (dst_peer_id s) st (last_contact_instant s) (my_session_id s) (dst_session_id s)
    (we_are_initiator s) (dst_is_initiator s) (state_revision s) (need_sync_initiator_info s)
    (rpc_tx_count s) (rpc_rx_count s).

Definition with_need_sync s (b : bool) : SyncRouteSession :=
  mkSession (my_peer_id s) (dst_peer_id s) (saved_state s) (last_contact_instant s) (my_session_id s)
    (dst_session_id s) (we_are_initiator s) (dst_is_initiator s) (state_revision s) b
    (rpc_tx_count s) (rpc_rx_count s).

(** [rpc_tx_count += tx], [rpc_rx_count += rx] and the time of the last contact. *)
Definition with_contact s (tx rx now : Z) : SyncRouteSession :=
  mkSession (my_peer_id s) (dst_peer_id s) (saved_state s) now (my_session_id s) (dst_session_id s)
    (we_are_initiator s) (dst_is_initiator s) (state_revision s) (need_sync_initiator_info s)
    (wrapping_add 32 (rpc_tx_count s) tx) (wrapping_add 32 (rpc_rx_count s) rx).

Definition with_saved_infos (st : SavedState) (saved : gmap PeerId VersionAndTouchTime) : SavedState :=
  mkSaved saved (dst_saved_conn_info_version st) (dst_saved_foreign_network_versions st)
    (unreachable_peers_for_peer_info st) (unreachable_peers_for_conn_info st) (missing_peer_ids st)
    (last_sync_succ_timestamp st).

Definition with_saved_conns (st : SavedState) (saved : gmap PeerId VersionAndTouchTime) : SavedState :=
  mkSaved (dst_saved_peer_info_versions st) saved (dst_saved_foreign_network_versions st)
    (unreachable_peers_for_peer_info st) (unreachable_peers_for_conn_info st) (missing_peer_ids st)
    (last_sync_succ_timestamp st).

Definition with_saved_foreign (st : SavedState) (saved : gmap ForeignKey VersionAndTouchTime) : SavedState :=
  mkSaved (dst_saved_peer_info_versions st) (dst_saved_conn_info_version st) saved
    (unreachable_peers_for_peer_info st) (unreachable_peers_for_conn_info st) (missing_peer_ids st)
    (last_sync_succ_timestamp st).

Definition with_pending (st : SavedState) (infos conns : gmap PeerId Version) : SavedState :=
  mkSaved (dst_saved_peer_info_versions st) (dst_saved_conn_info_version st)
    (dst_saved_foreign_network_versions st) infos conns (missing_peer_ids st) (last_sync_succ_timestamp st).

Definition with_cursor (st : SavedState) (t : option Z) : SavedState :=
  mkSaved (dst_saved_peer_info_versions st) (dst_saved_conn_info_version st)
    (dst_saved_foreign_network_versions st) (unreachable_peers_for_peer_info st)
    (unreachable_peers_for_conn_info st) (missing_peer_ids st) t.

(** ** What the neighbour acknowledged *)

(** The body shared by the three [check_saved_*_update_to_date]: [to_dst] tells that the
    record belongs to the neighbour itself.  A look-up touches the entry. *)
Definition check_saved `{Countable K} (to_dst : bool) (saved : gmap K VersionAndTouchTime) (k : K)
    (version : Version) (now : Z) : gmap K VersionAndTouchTime * bool :=
  if (version =? 0) || to_dst then (saved, true)
  else match saved !! k with
       | Some v => (<[k := mkTouched (vt_version v) now]> saved, version <=? vt_version v)
       | None => (saved, false)
       end.

Definition check_saved_peer_info_update_to_date s (p : PeerId) (version : Version) (now : Z)
    : SyncRouteSession * bool :=
  let '(m, ok) := check_saved (p =? dst_peer_id s) (dst_saved_peer_info_versions (saved_state s)) p version now in
  (with_saved s (with_saved_infos (saved_state s) m), ok).

Definition check_saved_conn_version_update_to_date s (p : PeerId) (version : Version) (now : Z)
    : SyncRouteSession * bool :=
  let '(m, ok) := check_saved (p =? dst_peer_id s) (dst_saved_conn_info_version (saved_state s)) p version now in
  (with_saved s (with_saved_conns (saved_state s) m), ok).

Definition check_saved_foreign_network_version_update_to_date s (key : ForeignKey) (version : Version) (now : Z)
    : SyncRouteSession * bool :=
  let '(m, ok) := check_saved (key.1 =? dst_peer_id s)
                    (dst_saved_foreign_network_versions (saved_state s)) key version now in
  (with_saved s (with_saved_foreign (saved_state s) m), ok).

(** [entry(k).or_default().set_if_larger(version)]. *)
Definition save_version `{Countable K} (now : Z) (saved : gmap K VersionAndTouchTime) (k : K)
    (version : Version) : gmap K VersionAndTouchTime :=
  let v := default (mkTouched 0 now) (saved !! k) in
  <[k := mkTouched (set_if_larger (vt_version v) version) (touch_time v)]> saved.

(** One loop for the four [update_dst_saved_*]: [skip] is the test for the neighbour's
    own records. *)
Definition save_versions `{Countable K} (now : Z) (skip : K → bool) (rows : list (K * Version))
    (saved : gmap K VersionAndTouchTime) : gmap K VersionAndTouchTime :=
  foldl (λ saved kv, if skip kv.1 then saved else save_version now saved kv.1 kv.2) saved rows.

Definition update_dst_saved_peer_info_version s (infos : list RoutePeerInfo) (dst : PeerId) (now : Z)
    : SyncRouteSession :=
  with_saved s (with_saved_infos (saved_state s)
    (save_versions now (λ p, p =? dst) (map (λ i, (ri_peer_id i, ri_version i)) infos)
      (dst_saved_peer_info_versions (saved_state s)))).

Definition bitmap_rows (b : RouteConnBitmap) : list (PeerId * Version) :=
  map (λ pv, (pv_peer_id pv, pv_version pv)) (bm_peer_ids b).

Definition peer_list_rows (l : list PeerConnInfo) : list (PeerId * Version) :=
  omap (λ r, (λ pv, (pv_peer_id pv, pv_version pv)) <$> pc_peer_id r) l.

Definition save_conn_rows s (rows : list (PeerId * Version)) (dst : PeerId) (now : Z) : SyncRouteSession :=
  with_saved s (with_saved_conns (saved_state s)
    (save_versions now (λ p, p =? dst) rows (dst_saved_conn_info_version (saved_state s)))).

Definition update_dst_saved_conn_bitmap_version s (b : RouteConnBitmap) (dst : PeerId) (now : Z) :=
  save_conn_rows s (bitmap_rows b) dst now.

Definition update_dst_saved_conn_peer_list_version s (l : list PeerConnInfo) (dst : PeerId) (now : Z) :=
  save_conn_rows s (peer_list_rows l) dst now.

Definition update_dst_saved_conn_info_version s (c : ConnInfo) (dst : PeerId) (now : Z) : SyncRouteSession :=
  match c with
  | ConnBitmap b => update_dst_saved_conn_bitmap_version s b dst now
  | ConnPeerList l => update_dst_saved_conn_peer_list_version s l dst now
  end.

(** An item without its key, or without its value when the key is not the neighbour's,
    panics. *)
Definition update_dst_saved_foreign_network_version s
    (infos : list (option ForeignKey * option ForeignNetworkRouteInfoEntry)) (dst : PeerId) (now : Z)
    : option SyncRouteSession :=
  saved ← try_fold (λ saved item,
            key ← item.1;
            if key.1 =? dst then Some saved
            else entry ← item.2; Some (save_version now saved key (fe_version entry)))
          infos (dst_saved_foreign_network_versions (saved_state s));
  Some (with_saved s (with_saved_foreign (saved_state s) saved)).

Definition is_expired (now : Z) (v : VersionAndTouchTime) : bool :=
  SAVED_VERSION_TIMEOUT <? now - touch_time v.

Definition clean_dst_saved_map s (now : Z) : SyncRouteSession :=
  let st := saved_state s in
  with_saved s (with_saved_foreign (with_saved_conns (with_saved_infos st
    (filter (λ kv, is_expired now kv.2 = false) (dst_saved_peer_info_versions st)))
    (filter (λ kv, is_expired now kv.2 = false) (dst_saved_conn_info_version st)))
    (filter (λ kv, is_expired now kv.2 = false) (dst_saved_foreign_network_versions st))).

(** [fetch_update] keeps the larger time. *)
Definition update_last_sync_succ_timestamp s (next : Z) : SyncRouteSession :=
  let newer := match last_sync_succ_timestamp (saved_state s) with
               | None => true
               | Some old => old <? next
               end in
  if newer then with_saved s (with_cursor (saved_state s) (Some next)) else s.

(** ** The identity of both ends *)

(** Both flags and the revision of the session. *)
Definition with_roles s (st : SavedState) (dst_session : Z) (we dst : bool) (revision : Z) : SyncRouteSession :=
  mkSession (my_peer_id s) (dst_peer_id s) st (last_contact_instant s) (my_session_id s) dst_session we dst
    revision (need_sync_initiator_info s) (rpc_tx_count s) (rpc_rx_count s).

Definition update_initiator_flag s (is_initiator : bool) : SyncRouteSession :=
  let s := if bool_decide (we_are_initiator s = is_initiator) then s
           else with_roles s (saved_state s) (dst_session_id s) is_initiator (dst_is_initiator s)
                  (wrapping_add 64 (state_revision s) 1) in
  with_need_sync s true.

Definition update_remote_state_locked s (session_id : Z) (is_initiator : bool) : SyncRouteSession :=
  let session_id_changed := negb (session_id =? dst_session_id s) in
  let initiator_changed := negb (bool_decide (is_initiator = dst_is_initiator s)) in
  with_roles s (if session_id_changed then cleared_state else saved_state s) session_id
    (we_are_initiator s) is_initiator
    (if session_id_changed || initiator_changed then wrapping_add 64 (state_revision s) 1
     else state_revision s).

Definition admit_inbound_locked s (session_id : Z) (is_initiator : bool) : SyncRouteSession * bool :=
  if session_id =? dst_session_id s then (update_remote_state_locked s session_id is_initiator, true)
  else if (dst_session_id s =? 0) && negb is_initiator && we_are_initiator s
  then (update_remote_state_locked s session_id false, true)
  else if negb is_initiator || dst_is_initiator s then (s, false)
  else (update_remote_state_locked s session_id true, true).

Definition request_snapshot_locked s : SyncRequestSnapshot :=
  mkReqSnapshot (my_session_id s) (state_revision s) (we_are_initiator s).

Definition request_is_current_locked s (snapshot : SyncRequestSnapshot) : bool :=
  (rs_my_session_id snapshot =? my_session_id s) &&
  (rs_state_revision snapshot =? state_revision s) &&
  bool_decide (rs_is_initiator snapshot = we_are_initiator s).

Definition clear_dst_initiator_if_session_unchanged_locked s (expected_dst_session_id : Z)
    : SyncRouteSession * bool :=
  if dst_session_id s =? expected_dst_session_id
  then (update_remote_state_locked s expected_dst_session_id false, true) else (s, false).

Definition clear_stale_dst_initiator s (now : Z) : SyncRouteSession * bool :=
  if negb (dst_is_initiator s) || we_are_initiator s then (s, false)
  else if Z.max 0 (now - last_contact_instant s) <? INITIATOR_SESSION_LIVENESS_TIMEOUT then (s, false)
  else (update_remote_state_locked s (dst_session_id s) false, true).

(** ** The table of sessions

    The [Arc]s of the sessions are addresses of a store, so that an old session of the
    same neighbour is told from the current one. *)

Record Sessions : Type := mkSessions {
  store : gmap nat SyncRouteSession;
  sessions : gmap PeerId nat;
  next_address : nat
}.

Implicit Types t : Sessions.

Definition no_sessions : Sessions := mkSessions ∅ ∅ 0.

Definition set_session t (a : nat) s : Sessions := mkSessions (<[a := s]> (store t)) (sessions t) (next_address t).

Definition get_or_create_session t (my dst random_id now : Z) : Sessions * nat :=
  match sessions t !! dst with
  | Some a => (t, a)
  | None =>
      let a := next_address t in
      (mkSessions (<[a := new_session my dst random_id now]> (store t)) (<[dst := a]> (sessions t)) (S a), a)
  end.

Definition get_session t (dst : PeerId) : option nat := sessions t !! dst.

Definition is_current_session t (dst : PeerId) (expected : nat) : bool :=
  bool_decide (sessions t !! dst = Some expected).

Definition sync_request_is_current_locked t (dst : PeerId) (expected : nat) (snapshot : SyncRequestSnapshot) : bool :=
  is_current_session t dst expected &&
  match store t !! expected with
  | Some s => request_is_current_locked s snapshot
  | None => false
  end.

Definition remove_session t (dst : PeerId) : Sessions :=
  match sessions t !! dst with
  | None => t
  | Some _ => mkSessions (store t) (delete dst (sessions t)) (next_address t)
  end.

(** The session part of [do_sync_route_info], up to the admission: the session of the
    sender, created only for an initiator, must be current and admit the request. *)
Definition admit_sync t (my from from_session_id : Z) (is_initiator : bool) (random_id now : Z)
    : Sessions * result nat SyncRouteInfoError :=
  let found := match sessions t !! from with
               | Some a => Some (t, a)
               | None => if is_initiator then Some (get_or_create_session t my from random_id now) else None
               end in
  match found with
  | None => (t, Err Stopped)
  | Some (t, a) =>
      match store t !! a with
      | None => (t, Err Stopped)
      | Some s =>
          let '(s, admitted) := admit_inbound_locked s from_session_id is_initiator in
          if is_current_session t from a && admitted
          then (set_session t a (with_contact s 0 1 now), Ok a) else (t, Err Stopped)
      end
  end.

(** ** The election of the neighbour to initiate with

    One round of [maintain_sessions].  The inputs of a round are the observations it
    makes: the peers of the interface in ascending order with the flag of a credential
    peer, the NAT types of the route table, whether the task of the session at an
    address runs (the one of the elected session is started by the round), and the random ids of the sessions it may create. *)

Record Observed : Type := mkObserved {
  ob_peers : gset PeerId;
  ob_is_credential : PeerId → bool;
  ob_open_nat : PeerId → bool;
  ob_is_running : nat → bool;
  ob_stopped : bool;
  ob_random_id : Z;
  ob_now : Z
}.

Definition with_session t (dst : PeerId) (f : SyncRouteSession → SyncRouteSession) : Sessions :=
  match sessions t !! dst with
  | None => t
  | Some a => match store t !! a with Some s => set_session t a (f s) | None => t end
  end.

(** A session of a peer that is no longer connected is stopped. *)
Definition drop_disconnected (peers : gset PeerId) (st : Sessions * option PeerId) (p : PeerId)
    : Sessions * option PeerId :=
  if decide (p ∈ peers) then st
  else (remove_session st.1 p, if decide (st.2 = Some p) then None else st.2).

Definition is_candidate (o : Observed) t (p : PeerId) : bool :=
  negb (ob_is_credential o p) &&
  match a ← sessions t !! p; store t !! a with
  | None => true
  | Some s => negb (dst_is_initiator s)
  end.

Definition initiator_candidates (o : Observed) t : list PeerId :=
  filter (λ p, is_candidate o t p = true) (btree_iter (ob_peers o)).

(** The first candidate behind no NAT, or else the first. *)
Definition choose_initiator (o : Observed) (candidates : list PeerId) : option PeerId :=
  match filter (λ p, ob_open_nat o p = true) candidates with
  | p :: _ => Some p
  | [] => head candidates
  end.

(** A session that neither end initiates, or whose task ended, is stopped. *)
Definition drop_unused (is_running : nat → bool) t (p : PeerId) : Sessions :=
  match a ← sessions t !! p; s ← store t !! a; Some (a, s) with
  | None => t
  | Some (a, s) =>
      if (dst_is_initiator s || we_are_initiator s || need_sync_initiator_info s) && is_running a
      then t else remove_session t p
  end.

Definition maintain_round (my : PeerId) (o : Observed) t (cur : option PeerId) : Sessions * option PeerId :=
  let session_peers := btree_iter (dom (sessions t)) in
  let '(t, cur) := foldl (drop_disconnected (ob_peers o)) (t, cur) session_peers in
  let t := foldl (λ t p, with_session t p (λ s, (clear_stale_dst_initiator s (ob_now o)).1)) t session_peers in
  let candidates := initiator_candidates o t in
  match choose_initiator o candidates with
  | None => (t, cur)
  | Some chosen =>
      if decide (cur = Some chosen) then (foldl (drop_unused (ob_is_running o)) t session_peers, cur)
      else
        let t := match cur with
                 | Some p => with_session t p (λ s, update_initiator_flag s false)
                 | None => t
                 end in
        if ob_stopped o then (t, Some chosen)
        else
          let '(t, a) := get_or_create_session t my chosen (ob_random_id o) (ob_now o) in
          let is_running := λ b, (b =? a)%nat || ob_is_running o b in
          let t := with_session t chosen (λ s, update_initiator_flag s true) in
          (foldl (drop_unused is_running) t session_peers, Some chosen)
  end.

(** ** Specification *)

(** Everything a call can do to a session under its lock. *)
Inductive session_op : Type :=
| OpFlag (is_initiator : bool)
| OpRemote (session_id : Z) (is_initiator : bool)
| OpAdmit (session_id : Z) (is_initiator : bool)
| OpClear (expected : Z)
| OpStale (now : Z)
| OpContact (tx rx now : Z)
| OpNeedSync (b : bool)
| OpSaved (st : SavedState).

Definition apply_op s (op : session_op) : SyncRouteSession :=
  match op with
  | OpFlag b => update_initiator_flag s b
  | OpRemote sid b => update_remote_state_locked s sid b
  | OpAdmit sid b => (admit_inbound_locked s sid b).1
  | OpClear e => (clear_dst_initiator_if_session_unchanged_locked s e).1
  | OpStale now => (clear_stale_dst_initiator s now).1
  | OpContact tx rx now => with_contact s tx rx now
  | OpNeedSync b => with_need_sync s b
  | OpSaved st => with_saved s st
  end.

(** What happens to the table between the request of a sync and its response; an
    operation may reach a session that is no longer in the table. *)
Inductive table_event : Type :=
| TAt (a : nat) (op : session_op)
| TAdmit (my from session_id : Z) (is_initiator : bool) (random_id now : Z)
| TCreate (my dst random_id now : Z)
| TRemove (dst : PeerId).

Definition table_step t (e : table_event) : Sessions :=
  match e with
  | TAt a op => match store t !! a with Some s => set_session t a (apply_op s op) | None => t end
  | TAdmit my from sid b rid now => (admit_sync t my from sid b rid now).1
  | TCreate my dst rid now => (get_or_create_session t my dst rid now).1
  | TRemove dst => remove_session t dst
  end.

(** The table leads to stored sessions of the right neighbour, at used addresses. *)
Record table_ok t : Prop := {
  table_sessions p a : sessions t !! p = Some a → ∃ s, store t !! a = Some s ∧ dst_peer_id s = p;
  table_fresh a s : store t !! a = Some s → (a < next_address t)%nat
}.

(** The two ends a session connects, and in which roles. *)
Definition identity s : Z * Z * bool * bool :=
  (my_session_id s, dst_session_id s, we_are_initiator s, dst_is_initiator s).

(** [s'] is [s] after at most [n] changes of its identity, each counted by its revision. *)
Definition later (n : Z) s s' : Prop :=
  my_session_id s' = my_session_id s ∧ dst_peer_id s' = dst_peer_id s ∧
  ∃ k, 0 <= k <= n ∧ state_revision s' = wrapping_add 64 (state_revision s) k ∧
    (k = 0 → identity s' = identity s).

(** The neighbour with which this node keeps a session as initiator is [cur]. *)
Definition one_initiator t (cur : option PeerId) : Prop :=
  ∀ p a s, sessions t !! p = Some a → store t !! a = Some s → we_are_initiator s = true → cur = Some p.

(** * Properties *)

(** ** Identity and revision *)

Lemma later_refl n s : 0 <= n → is_uint 64 (state_revision s) → later n s s.
Proof.
  intros Hn Hr. split; [done|]. split; [done|]. exists 0. split; [lia|].
  rewrite wrapping_add_small by (rewrite Z.add_0_r; done). split; [lia|done].
Qed.

Lemma later_trans n m s1 s2 s3 : later n s1 s2 → later m s2 s3 → later (n + m) s1 s3.
Proof.
  intros (I1 & D1 & k1 & B1 & R1 & E1) (I2 & D2 & k2 & B2 & R2 & E2).
  split; [congruence|]. split; [congruence|]. exists (k1 + k2). split; [lia|]. split.
  - rewrite R2, R1. unfold wrapping_add, wrap. rewrite Zplus_mod_idemp_l. f_equal. lia.
  - intros Hk. rewrite E2, E1 by lia. done.
Qed.

Lemma later_uint n s s' : later n s s' → is_uint 64 (state_revision s').
Proof. intros (_ & _ & k & _ & -> & _). apply Z.mod_pos_bound. lia. Qed.

Lemma wrapping_add_0 s : is_uint 64 (state_revision s) → wrapping_add 64 (state_revision s) 0 = state_revision s.
Proof. intros. rewrite wrapping_add_small; [lia|by rewrite Z.add_0_r]. Qed.

(** A change that keeps identity and revision, or takes one revision. *)
Lemma later_step s s' :
  is_uint 64 (state_revision s) → my_session_id s' = my_session_id s → dst_peer_id s' = dst_peer_id s →
  (state_revision s' = state_revision s ∧ identity s' = identity s) ∨
    state_revision s' = wrapping_add 64 (state_revision s) 1 →
  later 1 s s'.
Proof.
  intros Hr Hm Hd H. split; [done|]. split; [done|]. destruct H as [[Hs Hi]|Hs].
  - exists 0. rewrite wrapping_add_0 by done. split; [lia|done].
  - exists 1. split; [lia|]. split; [done|lia].
Qed.

Lemma remote_state_later s sid b :
  is_uint 64 (state_revision s) → later 1 s (update_remote_state_locked s sid b).
Proof.
  intros Hr. apply later_step; [done..|]. unfold update_remote_state_locked, identity. cbn.
  destruct (Z.eqb_spec sid (dst_session_id s)) as [->|]; cbn; [|by right].
  case_bool_decide; cbn; [left; by subst|by right].
Qed.

Lemma apply_op_later s op : is_uint 64 (state_revision s) → later 1 s (apply_op s op).
Proof.
  intros Hr. pose proof (later_refl 1 s ltac:(lia) Hr).
  destruct op as [b|sid b|sid b|e|now|tx rx now|b|st]; cbn;
    try (by apply remote_state_later); try (apply later_step; [done..|by left]).
  - apply later_step; [done|by unfold update_initiator_flag; case_bool_decide..|].
    unfold update_initiator_flag, identity. case_bool_decide; cbn; [by left|by right].
  - unfold admit_inbound_locked. repeat case_match; cbn; try done; by apply remote_state_later.
  - unfold clear_dst_initiator_if_session_unchanged_locked. case_match; cbn; [by apply remote_state_later|done].
  - unfold clear_stale_dst_initiator. repeat case_match; cbn; try done; by apply remote_state_later.
Qed.

(** ** The table *)

(** All stored revisions are 64 bits wide. *)
Definition revisions_ok t : Prop := ∀ a s, store t !! a = Some s → is_uint 64 (state_revision s).

(** Stored sessions are kept, after at most [n] changes of their identity. *)
Definition keeps (n : Z) t t' : Prop :=
  ∀ a s, store t !! a = Some s → ∃ s', store t' !! a = Some s' ∧ later n s s'.

Lemma keeps_refl n t : 0 <= n → revisions_ok t → keeps n t t.
Proof. intros Hn Hr a s Ha. exists s. split; [done|]. apply later_refl; [done|]. by eapply Hr. Qed.

Lemma keeps_trans n m t1 t2 t3 : keeps n t1 t2 → keeps m t2 t3 → keeps (n + m) t1 t3.
Proof.
  intros K1 K2 a s Ha. destruct (K1 a s Ha) as (s2 & H2 & L2). destruct (K2 a s2 H2) as (s3 & H3 & L3).
  exists s3. split; [done|]. by eapply later_trans.
Qed.

Lemma set_session_ok t a s s' n :
  table_ok t → revisions_ok t → store t !! a = Some s → later n s s' → 0 <= n →
  table_ok (set_session t a s') ∧ revisions_ok (set_session t a s') ∧ keeps n t (set_session t a s').
Proof.
  intros T R Ha L Hn. pose proof (later_uint _ _ _ L) as Hu. split; [|split].
  - split; cbn.
    + intros p b Hp. destruct (table_sessions t T p b Hp) as (x & Hx & Hd). destruct (decide (a = b)) as [<-|Hne].
      * rewrite lookup_insert_eq. exists s'. split; [done|]. rewrite Ha in Hx. injection Hx as ->.
        destruct L as (_ & -> & _). done.
      * rewrite lookup_insert_ne by done. eauto.
    + intros b x Hb. apply lookup_insert_Some in Hb as [[<- <-]|[_ Hb]]; by eapply table_fresh.
  - intros b x Hb. cbn in Hb. apply lookup_insert_Some in Hb as [[<- <-]|[_ Hb]]; [done|by eapply R].
  - intros b x Hb. cbn. destruct (decide (a = b)) as [<-|Hne].
    + rewrite lookup_insert_eq. rewrite Ha in Hb. injection Hb as <-. eauto.
    + rewrite lookup_insert_ne by done. exists x. split; [done|]. apply later_refl; [done|by eapply R].
Qed.

Lemma fresh_address t a s : table_ok t → store t !! a = Some s → next_address t ≠ a.
Proof. intros T Ha. pose proof (table_fresh t T a s Ha). lia. Qed.

Lemma create_table_ok t my dst rid now :
  table_ok t →
  let r := get_or_create_session t my dst rid now in
  table_ok r.1 ∧ sessions r.1 !! dst = Some r.2 ∧
  (∀ q a s, sessions r.1 !! q = Some a → store r.1 !! a = Some s →
    sessions t !! q = Some a ∧ store t !! a = Some s ∨ q = dst ∧ s = new_session my dst rid now).
Proof.
  intros T r. subst r. unfold get_or_create_session. destruct (sessions t !! dst) as [a|] eqn:E; cbn; [by auto|].
  split; [|split; [by rewrite lookup_insert_eq|]].
  - split; cbn.
    + intros p b Hp. apply lookup_insert_Some in Hp as [[<- <-]|[Hne Hp]]; [rewrite lookup_insert_eq; by eexists|].
      destruct (table_sessions t T p b Hp) as (x & Hx & Hd). rewrite lookup_insert_ne by by eapply fresh_address. eauto.
    + intros b x Hb. apply lookup_insert_Some in Hb as [[<- _]|[_ Hb]]; [lia|].
      pose proof (table_fresh t T b x Hb). lia.
  - intros q b s Hq Hb. apply lookup_insert_Some in Hq as [[<- <-]|[Hne Hq]].
    + rewrite lookup_insert_eq in Hb. injection Hb as <-. by right.
    + destruct (table_sessions t T q b Hq) as (x & Hx & _).
      rewrite lookup_insert_ne in Hb by by eapply fresh_address. by left.
Qed.

Lemma create_ok t my dst rid now :
  table_ok t → revisions_ok t →
  let r := get_or_create_session t my dst rid now in
  table_ok r.1 ∧ revisions_ok r.1 ∧ keeps 0 t r.1 ∧ sessions r.1 !! dst = Some r.2.
Proof.
  intros T R r. destruct (create_table_ok t my dst rid now T) as (T1 & Hp & _).
  split; [done|]. subst r. revert T1 Hp. unfold get_or_create_session.
  destruct (sessions t !! dst) as [a|] eqn:E; cbn; intros T1 Hp.
  { split; [done|]. split; [by apply keeps_refl|]. done. }
  split_and!; [| |done].
  - intros b x Hb. cbn in Hb. apply lookup_insert_Some in Hb as [[<- <-]|[_ Hb]]; [by cbn|by eapply R].
  - intros b x Hb. cbn. rewrite lookup_insert_ne by by eapply fresh_address. exists x. split; [done|].
    apply later_refl; [done|by eapply R].
Qed.

Lemma remove_ok t dst : table_ok t → revisions_ok t →
  table_ok (remove_session t dst) ∧ revisions_ok (remove_session t dst) ∧ keeps 0 t (remove_session t dst).
Proof.
  intros T R. unfold remove_session. destruct (sessions t !! dst) eqn:E; cbn.
  - split; [|split; [done|exact (keeps_refl 0 t ltac:(lia) R)]]. split; cbn; [|apply T].
    intros p b Hp. apply lookup_delete_Some in Hp as [_ Hp]. by apply T.
  - split; [done|]. split; [done|]. by apply keeps_refl.
Qed.

(** An admitted request: the session of the sender after it, and what it was before. *)
Definition admitted t t' (from from_session_id : Z) (is_initiator : bool) (now : Z) (a : nat) : Prop :=
  sessions t' !! from = Some a ∧
  ∃ s', store t' !! a = Some s' ∧ dst_session_id s' = from_session_id ∧ dst_is_initiator s' = is_initiator ∧
    last_contact_instant s' = now ∧
    match a ← sessions t !! from; store t !! a with
    | None => is_initiator = true ∧ saved_state s' = cleared_state
    | Some s =>
        we_are_initiator s' = we_are_initiator s ∧
        (from_session_id = dst_session_id s ∧ saved_state s' = saved_state s ∨
         from_session_id ≠ dst_session_id s ∧ saved_state s' = cleared_state ∧
           (is_initiator = true ∧ dst_is_initiator s = false ∨
            is_initiator = false ∧ dst_session_id s = 0 ∧ we_are_initiator s = true))
    end.

(** A request that is refused: no session and no right to open one, or a session that
    the sender may not take over. *)
Definition refused t (from from_session_id : Z) (is_initiator : bool) : Prop :=
  match a ← sessions t !! from; store t !! a with
  | None => is_initiator = false
  | Some s => from_session_id ≠ dst_session_id s ∧
      (is_initiator = true → dst_is_initiator s = true) ∧
      (is_initiator = false → dst_session_id s = 0 → we_are_initiator s = false)
  end.

Lemma admit_inbound_cases s sid b :
  let '(s', ok) := admit_inbound_locked s sid b in
  if ok then s' = update_remote_state_locked s sid b ∧
    (sid = dst_session_id s ∨ sid ≠ dst_session_id s ∧
      (b = true ∧ dst_is_initiator s = false ∨ b = false ∧ dst_session_id s = 0 ∧ we_are_initiator s = true))
  else s' = s ∧ sid ≠ dst_session_id s ∧ (b = true → dst_is_initiator s = true) ∧
    (b = false → dst_session_id s = 0 → we_are_initiator s = false).
Proof.
  unfold admit_inbound_locked. destruct (Z.eqb_spec sid (dst_session_id s)) as [|Hne]; [by auto|].
  destruct (Z.eqb_spec (dst_session_id s) 0), b, (we_are_initiator s), (dst_is_initiator s); cbn;
    split_and?; auto; try done; try (right; split; [done|]; auto).
Qed.

Lemma remote_state_fields s sid b :
  let s' := update_remote_state_locked s sid b in
  dst_session_id s' = sid ∧ dst_is_initiator s' = b ∧ we_are_initiator s' = we_are_initiator s ∧
  (sid = dst_session_id s → saved_state s' = saved_state s) ∧
  (sid ≠ dst_session_id s → saved_state s' = cleared_state).
Proof.
  cbn. destruct (Z.eqb_spec sid (dst_session_id s)); by split_and?.
Qed.

Lemma admit_sync_found t my from sid b rid now :
  table_ok t → revisions_ok t →
  let r := admit_sync t my from sid b rid now in
  table_ok r.1 ∧ revisions_ok r.1 ∧ keeps 1 t r.1 ∧
  match r.2 with
  | Ok a => admitted t r.1 from sid b now a
  | Err e => e = Stopped ∧ r.1 = t ∧ refused t from sid b
  end.
Proof.
  intros T R. unfold admit_sync, admitted, refused.
  assert (∀ t1 a s, table_ok t1 → revisions_ok t1 → sessions t1 !! from = Some a → store t1 !! a = Some s →
    let r := (let '(s1, ok) := admit_inbound_locked s sid b in
              if is_current_session t1 from a && ok
              then (set_session t1 a (with_contact s1 0 1 now), Ok a) else (t1, Err Stopped)) in
    table_ok r.1 ∧ revisions_ok r.1 ∧ keeps 1 t1 r.1 ∧
    match r.2 with
    | Ok a' => a' = a ∧ sessions r.1 !! from = Some a ∧
        store r.1 !! a = Some (with_contact (update_remote_state_locked s sid b) 0 1 now) ∧
        (sid = dst_session_id s ∨ sid ≠ dst_session_id s ∧
          (b = true ∧ dst_is_initiator s = false ∨ b = false ∧ dst_session_id s = 0 ∧ we_are_initiator s = true))
    | Err e => e = Stopped ∧ r.1 = t1 ∧ sid ≠ dst_session_id s ∧ (b = true → dst_is_initiator s = true) ∧
        (b = false → dst_session_id s = 0 → we_are_initiator s = false)
    end) as Hfound.
  { intros t1 a s T1 R1 Hp Ha. pose proof (admit_inbound_cases s sid b) as Hc.
    destruct (admit_inbound_locked s sid b) as [s1 ok]. unfold is_current_session.
    rewrite bool_decide_true by done. destruct ok; cbn -[set_session].
    - destruct Hc as [-> Hc].
      destruct (set_session_ok t1 a s (with_contact (update_remote_state_locked s sid b) 0 1 now) 1 T1 R1 Ha) as (H1 & H2 & H3);
        [exact (remote_state_later s sid b (R1 _ _ Ha))|lia|].
      split_and!; try done. cbn. apply lookup_insert_eq.
    - destruct Hc as (-> & Hc). split_and!; try done; try apply Hc. apply keeps_refl; [lia|done]. }
  destruct (sessions t !! from) as [a|] eqn:Ep; cbn.
  - destruct (table_sessions t T from a Ep) as (s & Ha & _). rewrite Ha.
    specialize (Hfound t a s T R Ep Ha). destruct (admit_inbound_locked s sid b) as [s1 ok].
    destruct (is_current_session t from a && ok); cbn in *.
    + destruct Hfound as (H1 & H2 & H3 & _ & H4 & H5 & H6). split_and!; try done.
      eexists. split; [exact H5|]. destruct (remote_state_fields s sid b) as (F1 & F2 & F3 & F4 & F5).
      split_and!; try done. destruct H6 as [H6|[H6 H7]]; [left|right]; split_and!; try done; [by apply F4|by apply F5].
    + by destruct Hfound as (H1 & H2 & H3 & H4).
  - destruct b; cbn.
    2:{ split_and!; try done. apply keeps_refl; [lia|done]. }
    destruct (create_ok t my from rid now T R) as (H1 & H2 & H3 & H4).
    assert (store (get_or_create_session t my from rid now).1 !! (get_or_create_session t my from rid now).2
      = Some (new_session my from rid now)) as Ha.
    { unfold get_or_create_session. rewrite Ep. cbn. apply lookup_insert_eq. }
    destruct (get_or_create_session t my from rid now) as [t1 a]. cbn in *. rewrite Ha.
    specialize (Hfound t1 a _ H1 H2 H4 Ha). pose proof (admit_inbound_cases (new_session my from rid now) sid true) as Hc.
    destruct (admit_inbound_locked _ _ _) as [s1 ok]. unfold is_current_session in *.
    rewrite bool_decide_true in * by done. destruct ok; cbn -[set_session] in *.
    + destruct Hfound as (G1 & G2 & G3 & _ & G4 & G5 & _). split_and!; try done.
      * replace 1 with (0 + 1) by lia. by eapply keeps_trans.
      * eexists. split; [exact G5|]. split_and!; try done. cbn. by case_match.
    + destruct Hc as (_ & _ & Hc & _). by specialize (Hc eq_refl).
Qed.

Lemma table_step_ok t e :
  table_ok t → revisions_ok t →
  table_ok (table_step t e) ∧ revisions_ok (table_step t e) ∧ keeps 1 t (table_step t e).
Proof.
  intros T R. assert (keeps 1 t t) as Hk by (apply keeps_refl; [lia|done]).
  destruct e as [a op|my from sid b rid now|my dst rid now|dst]; cbn -[set_session].
  - destruct (store t !! a) as [s|] eqn:Ha; [|done].
    apply (set_session_ok t a s); try done. apply apply_op_later. by eapply R.
  - by destruct (admit_sync_found t my from sid b rid now T R) as (? & ? & ? & _).
  - destruct (create_ok t my dst rid now T R) as (? & ? & K & _). split_and!; try done.
    change 1 with (1 + 0). by eapply keeps_trans.
  - destruct (remove_ok t dst T R) as (? & ? & K). split_and!; try done.
    change 1 with (1 + 0). by eapply keeps_trans.
Qed.

Lemma table_steps_ok t es :
  table_ok t → revisions_ok t →
  let t' := foldl table_step t es in table_ok t' ∧ revisions_ok t' ∧ keeps (len es) t t'.
Proof.
  intros T R. cbn. pose proof (foldl_inv (λ done t', table_ok t' ∧ revisions_ok t' ∧ keeps (len done) t t') table_step es t) as H.
  apply H.
  - split_and!; try done. apply keeps_refl; [apply len_nonneg|done].
  - intros done e t1 _ (T1 & R1 & K1). destruct (table_step_ok t1 e T1 R1) as (T2 & R2 & K2).
    split_and!; try done. rewrite len_snoc. by eapply keeps_trans.
Qed.

(** C34: an outdated response never commits: whatever happened to the sessions between a
    request and its response (fewer than 2^64 steps), if the request is still current
    then its session is still the current one of the neighbour, and it connects the very
    same two session ids in the same roles as when the request was built. *)
Theorem current_request_same_identity t es dst a s :
  table_ok t → revisions_ok t → sessions t !! dst = Some a → store t !! a = Some s → len es < 2 ^ 64 →
  sync_request_is_current_locked (foldl table_step t es) dst a (request_snapshot_locked s) = true →
  ∃ s', sessions (foldl table_step t es) !! dst = Some a ∧ store (foldl table_step t es) !! a = Some s' ∧
    identity s' = identity s.
Proof.
  intros T R Hp Ha Hlen Hcur. destruct (table_steps_ok t es T R) as (_ & _ & K).
  destruct (K a s Ha) as (s' & Ha' & _ & _ & k & Hk & Hrev & Hid).
  unfold sync_request_is_current_locked, is_current_session in Hcur. rewrite Ha' in Hcur.
  apply andb_true_iff in Hcur as [Hc Hr]. apply bool_decide_eq_true in Hc.
  exists s'. split_and!; try done. apply Hid.
  unfold request_is_current_locked, request_snapshot_locked in Hr. cbn in Hr.
  apply andb_true_iff in Hr as [Hr _]. apply andb_true_iff in Hr as [_ Hr]. apply Z.eqb_eq in Hr.
  rewrite Hrev in Hr. pose proof (R a s Ha) as Hu. unfold is_uint in Hu. unfold wrapping_add, wrap in Hr.
  destruct (Z.eq_dec k 0) as [|Hk0]; [done|]. exfalso.
  destruct (Z.lt_ge_cases (state_revision s + k) (2 ^ 64)).
  - rewrite Z.mod_small in Hr by lia. lia.
  - rewrite <- (Z_mod_plus_full (state_revision s + k) (-1) (2 ^ 64)) in Hr.
    rewrite Z.mod_small in Hr by lia. lia.
Qed.

(** Who may sync: a request is refused with [Stopped], and then changes nothing,
    exactly when it is [refused]: it names another session than the current one and
    neither takes over an edge that the neighbour no longer initiates nor is the first
    answer to ours.  An admitted one makes the named session the current one of its
    sender, and forgets all acknowledgements of a previous session. *)
Theorem inbound_admission t my from sid b rid now :
  table_ok t → revisions_ok t →
  let r := admit_sync t my from sid b rid now in
  match r.2 with
  | Ok a => admitted t r.1 from sid b now a ∧ ¬ refused t from sid b
  | Err e => e = Stopped ∧ r.1 = t ∧ refused t from sid b
  end.
Proof.
  intros T R. destruct (admit_sync_found t my from sid b rid now T R) as (_ & _ & _ & H). cbn.
  destruct (admit_sync t my from sid b rid now).2 as [a|e]; [|done]. split; [done|].
  destruct H as (_ & s' & _ & _ & _ & _ & H). unfold refused.
  destruct (sessions t !! from) as [a0|]; cbn in *; [|destruct H; congruence].
  destruct (store t !! a0) as [s|]; cbn in *; [|destruct H; congruence].
  destruct H as (_ & [[-> _]|(Hne & _ & Hc)]); [by intros []|]. intros (_ & H1 & H2).
  destruct Hc as [[-> Hd]|(-> & H0 & Hw)]; [by rewrite H1 in Hd|by rewrite H2 in Hw].
Qed.

(** ** The election *)

Lemma with_session_lookup t dst f q b s :
  table_ok t → (∀ x, dst_peer_id (f x) = dst_peer_id x) →
  table_ok (with_session t dst f) ∧ sessions (with_session t dst f) = sessions t ∧
  (sessions t !! q = Some b → store (with_session t dst f) !! b = Some s →
    if decide (q = dst) then ∃ s0, store t !! b = Some s0 ∧ s = f s0 else store t !! b = Some s).
Proof.
  intros T Hf. unfold with_session. destruct (sessions t !! dst) as [a|] eqn:Ed.
  2:{ split; [done|]. split; [done|]. intros Hq Hs. destruct (decide (q = dst)); [congruence|done]. }
  destruct (table_sessions t T dst a Ed) as (s0 & Ha & Hd). rewrite Ha. split; [|split; [done|]].
  - split; cbn.
    + intros p c Hp. destruct (table_sessions t T p c Hp) as (x & Hx & Hxd). destruct (decide (a = c)) as [<-|].
      * rewrite lookup_insert_eq. eexists. split; [done|]. rewrite Hf. congruence.
      * rewrite lookup_insert_ne by done. eauto.
    + intros c x Hc. apply lookup_insert_Some in Hc as [[<- <-]|[_ Hc]]; by eapply table_fresh.
  - intros Hq Hs. cbn in Hs. apply lookup_insert_Some in Hs as [[<- <-]|[Hne Hs]].
    + destruct (table_sessions t T q a Hq) as (x & Hx & Hxd). rewrite Ha in Hx. injection Hx as <-.
      rewrite decide_True by congruence. eauto.
    + rewrite decide_False; [done|]. intros ->. congruence.
Qed.

Lemma remove_one_initiator t p cur :
  table_ok t → one_initiator t cur →
  table_ok (remove_session t p) ∧ one_initiator (remove_session t p) cur ∧
  one_initiator (remove_session t p) (if decide (cur = Some p) then None else cur) ∧
  sessions (remove_session t p) !! p = None.
Proof.
  intros T O. unfold remove_session. destruct (sessions t !! p) as [a|] eqn:E.
  - split; [|split; [|split]].
    + split; cbn; [|apply T]. intros q b Hq. apply lookup_delete_Some in Hq as [_ Hq]. by apply T.
    + intros q b s Hq. cbn in Hq. apply lookup_delete_Some in Hq as [_ Hq]. by apply O.
    + intros q b s Hq Hb Hw. cbn in Hq. apply lookup_delete_Some in Hq as [Hne Hq].
      rewrite (O q b s Hq Hb Hw). by rewrite decide_False by congruence.
    + cbn. apply lookup_delete_eq.
  - split_and!; try done. intros q b s Hq Hb Hw. rewrite (O q b s Hq Hb Hw).
    rewrite decide_False; [done|]. intros [= ->]. congruence.
Qed.

Lemma with_session_initiator t dst f cur :
  table_ok t → (∀ x, dst_peer_id (f x) = dst_peer_id x) →
  (∀ x, we_are_initiator (f x) = true → we_are_initiator x = true) →
  one_initiator t cur → one_initiator (with_session t dst f) cur.
Proof.
  intros T Hf Hw O q b s Hq Hb Hs.
  destruct (with_session_lookup t dst f q b s T Hf) as (_ & E & H). rewrite E in Hq. specialize (H Hq Hb).
  destruct (decide (q = dst)); [|by eapply O]. destruct H as (s0 & Hs0 & ->). eapply O; eauto.
Qed.

Lemma drop_unused_spec is_running t p cur :
  table_ok t → one_initiator t cur →
  table_ok (drop_unused is_running t p) ∧ one_initiator (drop_unused is_running t p) cur ∧
  ∀ q a s, sessions t !! q = Some a → store t !! a = Some s → we_are_initiator s = true → is_running a = true →
    sessions (drop_unused is_running t p) !! q = Some a ∧ store (drop_unused is_running t p) !! a = Some s.
Proof.
  intros T O. unfold drop_unused. destruct (sessions t !! p) as [b|] eqn:Ep; cbn; [|by auto].
  destruct (store t !! b) as [x|] eqn:Eb; cbn; [|by auto].
  destruct (_ && is_running b) eqn:Ek; [by auto|].
  destruct (remove_one_initiator t p cur T O) as (T1 & O1 & _). split_and!; try done.
  intros q a s Hq Ha Hw Hr. unfold remove_session. rewrite Ep. cbn. split; [|done].
  rewrite lookup_delete_ne; [done|]. intros ->. rewrite Ep in Hq. injection Hq as ->. rewrite Eb in Ha.
  injection Ha as ->. rewrite Hw, Hr in Ek. by destruct (dst_is_initiator s).
Qed.

Lemma drop_unused_all is_running ps t cur :
  table_ok t → one_initiator t cur →
  let t' := foldl (drop_unused is_running) t ps in
  table_ok t' ∧ one_initiator t' cur ∧
  ∀ q a s, sessions t !! q = Some a → store t !! a = Some s → we_are_initiator s = true → is_running a = true →
    sessions t' !! q = Some a ∧ store t' !! a = Some s.
Proof.
  revert t. induction ps as [|p ps IH]; intros t T O; cbn; [by auto|].
  destruct (drop_unused_spec is_running t p cur T O) as (T1 & O1 & K1). destruct (IH _ T1 O1) as (T2 & O2 & K2).
  split_and!; try done. intros q a s Hq Ha Hw Hr. destruct (K1 q a s Hq Ha Hw Hr). by apply K2.
Qed.

Lemma flag_on_initiator t p cur :
  table_ok t → one_initiator t cur → cur = None ∨ cur = Some p →
  one_initiator (with_session t p (λ s, update_initiator_flag s true)) (Some p).
Proof.
  intros T O Hcur q b s Hq Hb Hw.
  destruct (with_session_lookup t p (λ s, update_initiator_flag s true) q b s T) as (_ & E & H);
    [by intros; unfold update_initiator_flag; case_bool_decide|].
  rewrite E in Hq. specialize (H Hq Hb). destruct (decide (q = p)) as [->|]; [done|].
  pose proof (O q b s Hq H Hw). destruct Hcur; congruence.
Qed.

Lemma flag_off_initiator t p :
  table_ok t → one_initiator t (Some p) →
  one_initiator (with_session t p (λ s, update_initiator_flag s false)) None.
Proof.
  intros T O q b s Hq Hb Hw.
  destruct (with_session_lookup t p (λ s, update_initiator_flag s false) q b s T) as (_ & E & H);
    [by intros; unfold update_initiator_flag; case_bool_decide|].
  rewrite E in Hq. specialize (H Hq Hb). destruct (decide (q = p)) as [->|Hne].
  - destruct H as (s0 & _ & ->). unfold update_initiator_flag in Hw. case_bool_decide; cbn in Hw; congruence.
  - pose proof (O q b s Hq H Hw). congruence.
Qed.

Lemma choose_is_candidate o t p :
  choose_initiator o (initiator_candidates o t) = Some p →
  p ∈ ob_peers o ∧ is_candidate o t p = true.
Proof.
  intros H. assert (p ∈ initiator_candidates o t) as Hp.
  { unfold choose_initiator in H. destruct (filter _ (initiator_candidates o t)) as [|q l] eqn:Ef.
    - destruct (initiator_candidates o t); [done|]. injection H as ->. apply list_elem_of_here.
    - injection H as ->. assert (p ∈ p :: l) as Hp by apply list_elem_of_here. rewrite <- Ef in Hp.
      by apply list_elem_of_filter in Hp as [_ ?]. }
  unfold initiator_candidates in Hp. apply list_elem_of_filter in Hp as [Hc Hp]. split; [|done].
  unfold btree_iter in Hp. by rewrite merge_sort_Permutation, elem_of_elements in Hp.
Qed.

(** The state of a round when it elects: disconnected peers dropped, stale roles cleared. *)
Definition before_election (o : Observed) t (cur : option PeerId) : Sessions * option PeerId :=
  let session_peers := btree_iter (dom (sessions t)) in
  let '(t, cur) := foldl (drop_disconnected (ob_peers o)) (t, cur) session_peers in
  (foldl (λ t p, with_session t p (λ s, (clear_stale_dst_initiator s (ob_now o)).1)) t session_peers, cur).

Lemma clear_stale_keeps s now :
  dst_peer_id (clear_stale_dst_initiator s now).1 = dst_peer_id s ∧
  we_are_initiator (clear_stale_dst_initiator s now).1 = we_are_initiator s.
Proof. unfold clear_stale_dst_initiator. by repeat case_match. Qed.

Lemma before_election_ok o t cur :
  table_ok t → one_initiator t cur →
  table_ok (before_election o t cur).1 ∧ one_initiator (before_election o t cur).1 (before_election o t cur).2.
Proof.
  intros T O. unfold before_election.
  assert (let r := foldl (drop_disconnected (ob_peers o)) (t, cur) (btree_iter (dom (sessions t))) in
    table_ok r.1 ∧ one_initiator r.1 r.2) as Hd.
  { apply (foldl_inv (λ _ r, table_ok r.1 ∧ one_initiator r.1 r.2)); [done|].
    intros _ p [t1 cur1] _ [T1 O1]. unfold drop_disconnected. cbn. case_decide; [done|].
    by destruct (remove_one_initiator t1 p cur1 T1 O1) as (T2 & _ & O2 & _). }
  destruct (foldl (drop_disconnected _) _ _) as [t1 cur1]. cbn in *. destruct Hd as [T1 O1].
  apply (foldl_inv (λ _ t', table_ok t' ∧ one_initiator t' cur1)); [done|].
  intros _ p t2 _ [T2 O2]. split.
  - apply (with_session_lookup t2 p _ 0 0%nat (new_session 0 0 0 0) T2). intros x. apply clear_stale_keeps.
  - apply with_session_initiator; try done; intros x; [apply clear_stale_keeps|].
    by rewrite (proj2 (clear_stale_keeps x (ob_now o))).
Qed.

Lemma elect_session my t chosen rid now cur t1 a :
  table_ok t → one_initiator t cur → cur = None ∨ cur = Some chosen →
  get_or_create_session t my chosen rid now = (t1, a) →
  let t2 := with_session t1 chosen (λ s, update_initiator_flag s true) in
  table_ok t2 ∧ one_initiator t2 (Some chosen) ∧
  ∃ s, sessions t2 !! chosen = Some a ∧ store t2 !! a = Some s ∧
    we_are_initiator s = true ∧ need_sync_initiator_info s = true.
Proof.
  intros T O Hcur E. pose (dflag := λ s : SyncRouteSession, update_initiator_flag s true).
  assert (∀ x, dst_peer_id (dflag x) = dst_peer_id x) as Hd
    by (intros; unfold dflag, update_initiator_flag; case_bool_decide; done).
  assert (table_ok t1 ∧ one_initiator t1 cur ∧ sessions t1 !! chosen = Some a) as (T1 & O1 & Hp).
  { destruct (create_table_ok t my chosen rid now T) as (T1 & Hp & Hold). rewrite E in *. cbn in *.
    split_and!; try done. intros q b s Hq Hb Hw.
    destruct (Hold q b s Hq Hb) as [[Hq' Hb']|[-> ->]]; [exact (O q b s Hq' Hb' Hw)|done]. }
  destruct (with_session_lookup t1 chosen dflag 0 0%nat (new_session 0 0 0 0) T1 Hd) as (T2 & Es & _).
  split; [done|]. split; [by eapply flag_on_initiator|].
  destruct (table_sessions t1 T1 chosen a Hp) as (s0 & Ha & _). exists (dflag s0).
  unfold with_session. rewrite Hp, Ha. cbn. rewrite lookup_insert_eq. split_and!; try done;
    unfold dflag, update_initiator_flag; case_bool_decide; cbn; congruence.
Qed.

(** One edge to initiate: a round of the election keeps a session as initiator with
    at most one neighbour, the elected one.  If it elects a new one, that is a connected
    peer that is no credential peer and does not initiate a session to us, the session
    with it is in the table with this node as initiator, and it is due for a sync. *)
Theorem election_single_initiator my o t cur :
  table_ok t → one_initiator t cur →
  let r := maintain_round my o t cur in
  table_ok r.1 ∧ one_initiator r.1 r.2 ∧
  ∀ chosen, r.2 = Some chosen → (before_election o t cur).2 ≠ Some chosen →
    chosen ∈ ob_peers o ∧ is_candidate o (before_election o t cur).1 chosen = true ∧
    (ob_stopped o = false →
      ∃ a s, sessions r.1 !! chosen = Some a ∧ store r.1 !! a = Some s ∧
        we_are_initiator s = true ∧ need_sync_initiator_info s = true).
Proof.
  intros T O. destruct (before_election_ok o t cur T O) as [T1 O1].
  unfold maintain_round. unfold before_election in *.
  destruct (foldl (drop_disconnected _) _ _) as [t0 cur0]. cbn [fst snd] in *.
  set (ps := btree_iter (dom (sessions t))) in *. set (t1 := foldl _ t0 ps) in *.
  destruct (choose_initiator o (initiator_candidates o t1)) as [p|] eqn:Ec; cbn; [|by split_and!].
  apply choose_is_candidate in Ec as [Hp Hc]. destruct (decide (cur0 = Some p)) as [->|Hne].
  { cbn. destruct (drop_unused_all (ob_is_running o) ps t1 (Some p) T1 O1) as (? & ? & _). by split_and!. }
  set (t2 := match cur0 with Some q => _ | None => t1 end).
  assert (table_ok t2 ∧ one_initiator t2 None) as [T2 O2].
  { subst t2. destruct cur0 as [q|]; [|done]. split; [|by apply flag_off_initiator].
    apply (with_session_lookup t1 q _ 0 0%nat (new_session 0 0 0 0) T1).
    intros x. unfold update_initiator_flag. by case_bool_decide. }
  destruct (ob_stopped o); cbn.
  { split_and!; [done| |]; [intros q b s Hq Hb Hw; by specialize (O2 q b s Hq Hb Hw)|].
    intros chosen [= <-] _. by split_and!. }
  destruct (get_or_create_session t2 my p (ob_random_id o) (ob_now o)) as [t3 a] eqn:Eg. cbn.
  destruct (elect_session my t2 p _ _ None t3 a T2 O2 (or_introl eq_refl) Eg) as (T3 & O3 & s & Hs & Ha & Hw & Hn).
  destruct (drop_unused_all (λ b, (b =? a)%nat || ob_is_running o b) ps _ (Some p) T3 O3) as (T4 & O4 & K).
  split_and!; try done. intros chosen [= <-] _. split_and!; try done. intros _.
  destruct (K p a s Hs Ha Hw) as [? ?]; [by rewrite Nat.eqb_refl|]. exists a, s. by split_and!.
Qed.

(** When the task of the elected session ends, the round stops the session but keeps the
    peer elected: as long as it stays the first candidate no session is made again. *)
Theorem ended_session_not_reelected :
  ∃ my o t cur, table_ok t ∧ one_initiator t cur ∧
    let r := maintain_round my o t cur in
    r.2 = Some 2 ∧ sessions r.1 = ∅ ∧ maintain_round my o r.1 r.2 = r.
Proof.
  exists 1, (mkObserved {[2]} (λ _, false) (λ _, false) (λ _, false) false 9 5),
    (maintain_round 1 (mkObserved {[2]} (λ _, false) (λ _, false) (λ _, true) false 7 3) no_sessions None).1, (Some 2).
  assert (table_ok no_sessions ∧ one_initiator no_sessions None) as [T O].
  { split; [split; intros ? ? [=]|intros ? ? ? [=]]. }
  destruct (election_single_initiator 1 (mkObserved {[2]} (λ _, false) (λ _, false) (λ _, true) false 7 3)
    no_sessions None T O) as (T1 & O1 & _).
  split; [done|]. split; [exact O1|]. split_and!; vm_compute; reflexivity.
Qed.

(** * Witnesses *)

Definition demo_table : Sessions := (get_or_create_session no_sessions 1 2 7 0).1.

Lemma no_sessions_ok : table_ok no_sessions ∧ revisions_ok no_sessions ∧ one_initiator no_sessions None.
Proof. split_and!; [split; intros ? ? [=]|intros ? ? [=]|intros ? ? ? [=]]. Qed.

Lemma demo_table_ok : table_ok demo_table ∧ revisions_ok demo_table.
Proof.
  destruct no_sessions_ok as (T & R & _).
  by destruct (create_ok no_sessions 1 2 7 0 T R) as (T1 & R1 & _).
Qed.

(** Keep-alives leave a request current; an inbound request of a new session does not. *)
Lemma current_request_same_identity_witness :
  let s := new_session 1 2 7 0 in
  let quiet := [TAt 0 (OpContact 1 0 5); TCreate 1 3 8 6; TAt 0 (OpFlag false)] in
  (∃ s', sessions (foldl table_step demo_table quiet) !! 2 = Some 0%nat ∧
     store (foldl table_step demo_table quiet) !! 0%nat = Some s' ∧ identity s' = identity s) ∧
  sync_request_is_current_locked (foldl table_step demo_table [TAdmit 1 2 20 true 0 5]) 2 0
    (request_snapshot_locked s) = false.
Proof.
  cbn zeta. split; [|vm_compute; reflexivity]. destruct demo_table_ok as [T R].
  apply (current_request_same_identity demo_table _ 2 0 (new_session 1 2 7 0) T R); vm_compute; reflexivity.
Defined.

Lemma inbound_admission_witness :
  (match (admit_sync demo_table 1 2 20 true 0 5).2 with
   | Ok a => admitted demo_table (admit_sync demo_table 1 2 20 true 0 5).1 2 20 true 5 a ∧ ¬ refused demo_table 2 20 true
   | Err e => e = Stopped ∧ (admit_sync demo_table 1 2 20 true 0 5).1 = demo_table ∧ refused demo_table 2 20 true
   end) ∧
  (admit_sync demo_table 1 2 20 true 0 5).2 = Ok 0%nat ∧
  (admit_sync (admit_sync demo_table 1 2 20 true 0 5).1 1 2 10 true 0 6).2 = Err Stopped.
Proof.
  split; [|split; vm_compute; reflexivity]. destruct demo_table_ok as [T R].
  exact (inbound_admission demo_table 1 2 20 true 0 5 T R).
Defined.

Lemma election_single_initiator_witness :
  let o := mkObserved {[2; 3]} (λ _, false) (λ p, p =? 3) (λ _, true) false 9 5 in
  let r := maintain_round 1 o no_sessions None in
  (table_ok r.1 ∧ one_initiator r.1 r.2 ∧
   ∀ chosen, r.2 = Some chosen → (before_election o no_sessions None).2 ≠ Some chosen →
     chosen ∈ ob_peers o ∧ is_candidate o (before_election o no_sessions None).1 chosen = true ∧
     (ob_stopped o = false →
       ∃ a s, sessions r.1 !! chosen = Some a ∧ store r.1 !! a = Some s ∧
         we_are_initiator s = true ∧ need_sync_initiator_info s = true)) ∧
  r.2 = Some 3.
Proof.
  cbn zeta. split; [|vm_compute; reflexivity]. destruct no_sessions_ok as (T & _ & O).
  exact (election_single_initiator 1 _ no_sessions None T O).
Defined.
