(* ===== verification/RouteSync.v ===== *)
(** * Link state synchronisation with a neighbour

    Models the outbound half of the route synchronisation of
    easytier-core/src/peers/route/peer_ospf_route.rs: [build_route_info],
    [build_conn_peer_list], [build_conn_info], [build_foreign_network_info] and
    [build_sync_request], which choose what to send from the database (LinkState.v) and
    from what the neighbour acknowledged (RouteSession.v); [sync_route_with_peer] in its
    two atomic parts before and after the RPC; and [request_missing_peer_infos].

    The ordered hash maps of the database are third-party: a call is given the reverse
    iteration it makes, and the theorems assume that it lists the map from the latest
    update to the oldest ([iterates]).

    The theorems follow a node and one neighbour through an arbitrary interleaving of
    database changes, requests, lost and late responses, inbound requests, clean-ups
    and restarts of the neighbour: no peer info is ever lost, and a delivered request
    brings the neighbour up to date. *)

From stdpp Require Import base gmap list numbers strings sets sorting.
From Stdlib Require Import ZArith Lia.
From S2P Require Import Prelude RouteTable LinkState RouteSession.
Local Open Scope Z_scope.

Implicit Types s : SyncRouteSession.
Implicit Types db : SyncedRouteInfo.

Definition is_none {A} (o : option A) : bool := match o with None => true | Some _ => false end.

Abbreviation Versions := (gmap PeerId VersionAndTouchTime) (only parsing).

(** ** Choosing what to send *)

Section Loops.

Context {E : Type} (entry_id : PeerId → E → PeerId) (entry_version : E → Version).
Context (entry_update : E → option Z) (dst : PeerId) (reachable : PeerId → bool) (now : Z).

(** The entries chosen so far, and their keys. *)
Abbreviation Chosen := (gset PeerId * list (PeerId * E))%type (only parsing).

Definition add_entry (c : Chosen) (p : PeerId) (e : E) : Chosen := ({[p]} ∪ c.1, c.2 ++ [(p, e)]).

Definition add_once (c : Chosen) (p : PeerId) (e : E) : Chosen :=
  if decide (p ∈ c.1) then c else add_entry c p e.

Definition older_than (cursor : option Z) (e : E) : bool :=
  match entry_update e, cursor with
  | Some u, Some t => u <? t
  | _, _ => false
  end.

(** The first loop: the entries that were updated since the last successful sync. *)
Fixpoint scan_fresh (add : Chosen → PeerId → E → Chosen) (cursor : option Z) (order : list (PeerId * E))
    (saved : Versions) (pending : gmap PeerId Version) (c : Chosen)
    : Versions * gmap PeerId Version * Chosen :=
  match order with
  | [] => (saved, pending, c)
  | (p, e) :: order' =>
      if older_than cursor e then (saved, pending, c)
      else
        let '(saved, up_to_date) := check_saved (entry_id p e =? dst) saved (entry_id p e) (entry_version e) now in
        if up_to_date then scan_fresh add cursor order' saved pending c
        else if negb (reachable p) then scan_fresh add cursor order' saved (<[p := entry_version e]> pending) c
        else scan_fresh add cursor order' saved pending (add c p e)
  end.

(** The second loop, [unreachable_peers.retain]: the entries held back earlier. *)
Definition retain_pending (m : gmap PeerId E) (st : Versions * gmap PeerId Version * Chosen)
    (pv : PeerIdVersion) : Versions * gmap PeerId Version * Chosen :=
  let '(saved, pending, c) := st in
  let p := pv_peer_id pv in
  let '(saved, up_to_date) := check_saved (p =? dst) saved p (pv_version pv) now in
  if up_to_date then (saved, delete p pending, c)
  else match m !! p with
       | None => (saved, delete p pending, c)
       | Some e => (saved, pending, if reachable p then add_once c p e else c)
       end.

Definition choose (add : Chosen → PeerId → E → Chosen) (cursor : option Z) (m : gmap PeerId E)
    (order : list (PeerId * E)) (saved : Versions) (pending : gmap PeerId Version)
    : Versions * gmap PeerId Version * Chosen :=
  let '(saved, pending, c) := scan_fresh add cursor order saved pending (∅, []) in
  foldl (retain_pending m) (saved, pending, c) (btree_map_iter pending).

End Loops.

Section Build.

Context `{!HashIter} (reachable : PeerId → bool) (now : Z).

Definition build_route_info db (order : list (PeerId * RoutePeerInfo)) s
    : SyncRouteSession * option (list RoutePeerInfo) :=
  let st := saved_state s in
  let '(saved, pending, c) :=
    choose (λ _ i, ri_peer_id i) ri_version ri_last_update (dst_peer_id s) reachable now add_entry
      (last_sync_succ_timestamp st) (si_peer_infos db) order
      (dst_saved_peer_info_versions st) (unreachable_peers_for_peer_info st) in
  (with_saved s (with_pending (with_saved_infos st saved) pending (unreachable_peers_for_conn_info st)),
   match c.2 with [] => None | l => Some (map snd l) end).

Definition conn_row (pc : PeerId * RouteConnInfo) : PeerConnInfo :=
  mkPeerConn (Some (mkPeerIdVersion pc.1 (ci_version pc.2))) (btree_iter (ci_connected_peers pc.2)).

(** The sizes in memory of [PeerIdVersion] and [PeerId] are 8 and 4. *)
Definition row_size (pc : PeerId * RouteConnInfo) : Z := 8 + Z.of_nat (size (ci_connected_peers pc.2)) * 4.

Definition build_conn_peer_list db (order : list (PeerId * RouteConnInfo)) s
    : SyncRouteSession * option (list PeerConnInfo) * Z :=
  let st := saved_state s in
  let '(saved, pending, c) :=
    choose (λ p _, p) ci_version (λ c, Some (ci_last_update c)) (dst_peer_id s) reachable now add_once
      (last_sync_succ_timestamp st) (si_conn_map db) order
      (dst_saved_conn_info_version st) (unreachable_peers_for_conn_info st) in
  (with_saved s (with_pending (with_saved_conns st saved) (unreachable_peers_for_peer_info st) pending),
   match c.2 with [] => None | l => Some (map conn_row l) end,
   foldr (λ pc n, row_size pc + n) 0 c.2).

Definition estimate_conn_bitmap_size (cached : RouteConnBitmap) : Z := len (bitmap cached) + len (bm_peer_ids cached) * 8.

(** [supports_list]: the neighbour announced the peer list format. *)
Definition build_conn_info db (order : list (PeerId * RouteConnInfo)) s (cached : RouteConnBitmap)
    (supports_list : bool) : SyncRouteSession * option ConnInfo :=
  let '(s, rows, estimated_size) := build_conn_peer_list db order s in
  (s, rows ← rows;
      Some (if (estimated_size <? estimate_conn_bitmap_size cached) && supports_list
            then ConnPeerList rows else ConnBitmap cached)).

(** One round of the loop over the foreign networks. *)
Definition add_foreign_network
    (st : SyncRouteSession * list (option ForeignKey * option ForeignNetworkRouteInfoEntry))
    (kv : ForeignKey * ForeignNetworkRouteInfoEntry) :=
  let '(s, up_to_date) := check_saved_foreign_network_version_update_to_date st.1 kv.1 (fe_version kv.2) now in
  (s, if up_to_date then st.2 else st.2 ++ [(Some kv.1, Some kv.2)]).

Definition build_foreign_network_info db s
    : SyncRouteSession * option (list (option ForeignKey * option ForeignNetworkRouteInfoEntry)) :=
  let '(s, infos) := foldl add_foreign_network (s, []) (iter (si_foreign_network db)) in
  (s, match infos with [] => None | l => Some l end).

(** ** One round *)

Record SyncRequest : Type := mkRequest {
  rq_snapshot : SyncRequestSnapshot;
  rq_expected_dst_session_id : Z;
  rq_next_last_sync_succ_timestamp : Z;
  rq_peer_infos : option (list RoutePeerInfo);
  rq_conn_info : option ConnInfo;
  rq_foreign_network : option (list (option ForeignKey * option ForeignNetworkRouteInfoEntry))
}.

Record Orders : Type := mkOrders {
  info_order : list (PeerId * RoutePeerInfo);
  conn_order : list (PeerId * RouteConnInfo)
}.

Definition build_sync_request db (o : Orders) s (cached : RouteConnBitmap) (supports_list : bool)
    : SyncRouteSession * (option (list RoutePeerInfo) * option ConnInfo *
        option (list (option ForeignKey * option ForeignNetworkRouteInfoEntry))) :=
  let '(s, route_infos) := build_route_info db (info_order o) s in
  let '(s, conn_info) := build_conn_info db (conn_order o) s cached supports_list in
  let '(s, foreign_network) := build_foreign_network_info db s in
  (s, (route_infos, conn_info, foreign_network)).

(** [sync_route_with_peer] up to the RPC; [None] when there is nothing to send.  The
    time of the next cursor is read before the request is built. *)
Definition start_sync db (o : Orders) s (cached : RouteConnBitmap) (supports_list sync_as_initiator : bool)
    : SyncRouteSession * option SyncRequest :=
  let snapshot := request_snapshot_locked s in
  let expected := dst_session_id s in
  let '(s, (peer_infos, conn_info, foreign)) := build_sync_request db o s cached supports_list in
  if is_none peer_infos && is_none conn_info && is_none foreign && negb (need_sync_initiator_info s) &&
     negb (sync_as_initiator && we_are_initiator s)
  then (s, None)
  else (with_need_sync s false, Some (mkRequest snapshot expected now peer_infos conn_info foreign)).

End Build.

(** The fields of [SyncRouteInfoResponse]; [rsp_error] is the number of the error. *)
Record SyncRouteInfoResponse : Type := mkResponse {
  rsp_is_initiator : bool;
  rsp_session_id : Z;
  rsp_error : option Z;
  rsp_missing_peer_ids : list PeerId;
  rsp_missing_conn_peer_ids : list PeerId
}.

(** [Error as i32]. *)
Definition error_number (e : SyncRouteInfoError) : Z :=
  match e with DuplicatePeerId => 0 | Stopped => 1 end.

(** The acknowledgement of one missing record is withdrawn, and it is held as pending. *)
Definition request_one {E} (version : E → Version) (m : gmap PeerId E) (dst : PeerId)
    (st : Versions * gmap PeerId Version) (p : PeerId) : Versions * gmap PeerId Version :=
  if p =? dst then st
  else match m !! p with
       | Some e => if version e =? 0 then st else (delete p st.1, <[p := version e]> st.2)
       | None => st
       end.

Definition request_missing_peer_infos db s (rsp : SyncRouteInfoResponse) : SyncRouteSession :=
  match rsp_missing_peer_ids rsp, rsp_missing_conn_peer_ids rsp with
  | [], [] => s
  | infos, conns =>
      let st := saved_state s in
      let '(saved, pending) := foldl (request_one ri_version (si_peer_infos db) (dst_peer_id s))
        (dst_saved_peer_info_versions st, unreachable_peers_for_peer_info st) infos in
      let '(saved_conn, pending_conn) := foldl (request_one ci_version (si_conn_map db) (dst_peer_id s))
        (dst_saved_conn_info_version st, unreachable_peers_for_conn_info st) conns in
      with_saved s (with_pending (with_saved_conns (with_saved_infos st saved) saved_conn) pending pending_conn)
  end.

(** What was sent is acknowledged; a foreign network item without key or value would
    panic. *)
Definition save_sent s (rq : SyncRequest) (now : Z) : option SyncRouteSession :=
  let dst := dst_peer_id s in
  let s := match rq_peer_infos rq with
           | Some infos => update_dst_saved_peer_info_version s infos dst now
           | None => s
           end in
  let s := match rq_conn_info rq with
           | Some c => update_dst_saved_conn_info_version s c dst now
           | None => s
           end in
  match rq_foreign_network rq with
  | Some infos => update_dst_saved_foreign_network_version s infos dst now
  | None => Some s
  end.

(** The commit of a successful response. *)
Definition commit_sync db s (rq : SyncRequest) (rsp : SyncRouteInfoResponse) (now : Z) : option SyncRouteSession :=
  let s := with_contact s 1 0 now in
  let s := update_remote_state_locked s (rsp_session_id rsp) (rsp_is_initiator rsp) in
  s ← save_sent s rq now;
  let s := update_last_sync_succ_timestamp s (rq_next_last_sync_succ_timestamp rq) in
  Some (request_missing_peer_infos db s rsp).

(** [sync_route_with_peer] after the RPC, [ret] being [None] when the call failed.  The
    duplicate id error panics unless this node is a public server. *)
Definition finish_sync db s (is_current is_public_server : bool) (rq : SyncRequest)
    (ret : option SyncRouteInfoResponse) (now : Z) : option SyncRouteSession :=
  if negb (is_current && request_is_current_locked s (rq_snapshot rq)) then Some s
  else match ret with
  | None => Some (with_need_sync s true)
  | Some rsp =>
      match rsp_error rsp with
      | None => commit_sync db s rq rsp now
      | Some err =>
          if (err =? error_number Stopped) && negb (rs_is_initiator (rq_snapshot rq))
          then Some (clear_dst_initiator_if_session_unchanged_locked s (rq_expected_dst_session_id rq)).1
          else if err =? error_number DuplicatePeerId
          then if is_public_server then Some s else None
          else Some (with_need_sync s true)
      end
  end.

(** ** Specification *)

(** The neighbour acknowledged version [v] of [k]. *)
Definition acked `{Countable K} (saved : gmap K VersionAndTouchTime) (k : K) (v : Version) : Prop :=
  ∃ x, saved !! k = Some x ∧ v <= vt_version x.

(** Version [v] of [k] need not be sent. *)
Definition up_to_date (saved : Versions) (dst k v : Z) : Prop := v = 0 ∨ k = dst ∨ acked saved k v.

#[export] Instance acked_dec `{Countable K} saved (k : K) v : Decision (acked saved k v).
Proof.
  unfold acked. destruct (saved !! k) as [x|]; [destruct (decide (v <= vt_version x))|].
  - left. eauto.
  - right. intros (? & [= <-] & ?). done.
  - right. intros (? & [=] & _).
Defined.

#[export] Instance up_to_date_dec saved dst k v : Decision (up_to_date saved dst k v).
Proof. unfold up_to_date. apply _. Defined.

(** The same acknowledged versions: only touch times differ. *)
Definition same_versions (saved saved' : Versions) : Prop :=
  ∀ k, vt_version <$> saved' !! k = vt_version <$> saved !! k.

(** Version [v] of [p] is held back, or a newer one. *)
Definition held (pending : gmap PeerId Version) (p v : Z) : Prop := ∃ v', pending !! p = Some v' ∧ v <= v'.

(** What the library promises of an iteration: the whole map, latest update first. *)
Definition iterates {E} (entry_update : E → option Z) (m : gmap PeerId E) (order : list (PeerId * E)) : Prop :=
  order ≡ₚ map_to_list m ∧
  StronglySorted (λ x y, ∃ u w, entry_update x.2 = Some u ∧ entry_update y.2 = Some w ∧ w <= u) order.

(** * Properties *)

Section ChooseFacts.

Context {E : Type} (entry_id : PeerId → E → PeerId) (entry_version : E → Version).
Context (entry_update : E → option Z) (dst : PeerId) (reachable : PeerId → bool) (now : Z).

Abbreviation Chosen := (gset PeerId * list (PeerId * E))%type (only parsing).

Lemma same_versions_trans a b c : same_versions a b → same_versions b c → same_versions a c.
Proof. intros H1 H2 k. by rewrite H2. Qed.

Lemma acked_same saved saved' k v : same_versions saved saved' → acked saved' k v ↔ acked saved k v.
Proof.
  intros H. specialize (H k). unfold acked.
  split; intros (x & Hx & Hv); rewrite Hx in H; cbn in H;
    [destruct (saved !! k) as [y|]|destruct (saved' !! k) as [y|]]; try done; injection H as H; exists y;
    split; [done|lia|done|lia].
Qed.

Lemma up_to_date_same saved saved' k v :
  same_versions saved saved' → up_to_date saved' dst k v ↔ up_to_date saved dst k v.
Proof. intros H. unfold up_to_date. by rewrite (acked_same saved saved' k v H). Qed.

Lemma check_saved_spec saved k v saved' ok :
  check_saved (k =? dst) saved k v now = (saved', ok) →
  same_versions saved saved' ∧ (ok = true ↔ up_to_date saved dst k v).
Proof.
  unfold check_saved, up_to_date, acked. destruct (Z.eqb_spec v 0), (Z.eqb_spec k dst); cbn;
    try (intros [= <- <-]; split; [done|split; auto; done]).
  destruct (saved !! k) as [x|] eqn:Ek; intros [= <- <-].
  - split.
    + intros q. destruct (decide (q = k)) as [->|]; [by rewrite lookup_insert_eq, Ek|by rewrite lookup_insert_ne].
    + rewrite Z.leb_le. split; [eauto|]. intros [?|[?|(y & Hy & ?)]]; [done..|]. by simplify_eq.
  - split; [done|]. split; [done|]. intros [?|[?|(y & Hy & ?)]]; done.
Qed.

(** The chosen keys are those of the chosen entries, without repetition. *)
Definition chosen_ok (m : gmap PeerId E) (c : Chosen) : Prop :=
  NoDup (map fst c.2) ∧ (∀ p, p ∈ c.1 ↔ p ∈ map fst c.2) ∧
  ∀ p e, (p, e) ∈ c.2 → m !! p = Some e ∧ reachable p = true.

Lemma add_entry_ok m c p e :
  chosen_ok m c → m !! p = Some e → reachable p = true → p ∉ c.1 → chosen_ok m (add_entry c p e).
Proof.
  intros (N & K & M) Hp Hr Hn. unfold add_entry. split; [|split]; cbn.
  - rewrite map_app. apply NoDup_app. split; [done|]. split; [|apply NoDup_singleton].
    intros q Hq. cbn. rewrite list_elem_of_singleton. intros ->. by apply Hn, K.
  - intros q. rewrite map_app, elem_of_app, elem_of_union, elem_of_singleton, K. cbn.
    rewrite list_elem_of_singleton. tauto.
  - intros q x. rewrite elem_of_app, list_elem_of_singleton. intros [Hq|[= -> ->]]; [by apply M|done].
Qed.

(** A way to add an entry whose key is new. *)
Definition adds (add : Chosen → PeerId → E → Chosen) : Prop :=
  ∀ c p e, p ∉ c.1 → add c p e = add_entry c p e.

Lemma add_once_adds : adds add_once.
Proof. intros c p e Hn. unfold add_once. by rewrite decide_False. Qed.

Lemma add_once_spec m c p e :
  chosen_ok m c → m !! p = Some e → reachable p = true →
  chosen_ok m (add_once c p e) ∧ (p, e) ∈ (add_once c p e).2 ∧ ∀ x, x ∈ c.2 → x ∈ (add_once c p e).2.
Proof.
  intros C Hp Hr. unfold add_once. case_decide as Hc.
  - split; [done|]. split; [|done]. destruct C as (N & K & M). apply K in Hc.
    apply list_elem_of_fmap in Hc as ([q x] & -> & Hq). cbn in *. destruct (M q x Hq) as [Hx _]. by simplify_eq.
  - split; [by apply add_entry_ok|]. cbn. setoid_rewrite elem_of_app. rewrite list_elem_of_singleton. auto.
Qed.

(** What the first loop leaves of the entry at [p]. *)
Definition handled (cursor : option Z) (saved : Versions) (pending : gmap PeerId Version) (c : Chosen)
    (p : PeerId) (e : E) : Prop :=
  older_than entry_update cursor e = true ∨
  up_to_date saved dst (entry_id p e) (entry_version e) ∨
  (reachable p = false ∧ pending !! p = Some (entry_version e)) ∨
  (p, e) ∈ c.2.

(** What the first loop makes of the entries of [order]. *)
Definition scanned (cursor : option Z) (m : gmap PeerId E) (order : list (PeerId * E)) (saved : Versions)
    (pending : gmap PeerId Version) (c : Chosen) (r : Versions * gmap PeerId Version * Chosen) : Prop :=
  let '(saved', pending', c') := r in
  same_versions saved saved' ∧ chosen_ok m c' ∧ (∀ x, x ∈ c.2 → x ∈ c'.2) ∧
  (∀ q, pending' !! q = pending !! q ∨
    ∃ e, (q, e) ∈ order ∧ pending' !! q = Some (entry_version e)) ∧
  ∀ p e, (p, e) ∈ order → handled cursor saved pending' c' p e.

(** One round: what it does at [p] is not undone by the rest, which has no entry at [p]. *)
Lemma scanned_cons cursor m p e order saved saved1 pending pending1 c c1 r :
  (∀ x, (p, x) ∉ order) → same_versions saved saved1 → (∀ x, x ∈ c.2 → x ∈ c1.2) →
  (∀ q, pending1 !! q = pending !! q ∨ q = p ∧ pending1 !! q = Some (entry_version e)) →
  handled cursor saved pending1 c1 p e →
  scanned cursor m order saved1 pending1 c1 r → scanned cursor m ((p, e) :: order) saved pending c r.
Proof.
  intros Np V Hc1 P1 Hh. destruct r as [[saved' pending'] c']. intros (V' & C' & Hc' & P' & H').
  split_and!; [by eapply same_versions_trans|done|auto| |].
  - intros q. destruct (P' q) as [->|(x & Hq & ->)].
    + destruct (P1 q) as [->|(-> & ->)]; [by left|]. right. exists e. split; [by left|done].
    + right. exists x. split; [by right|done].
  - intros q x [[= -> ->]|Hq]%elem_of_cons.
    + destruct Hh as [|[|[[Hr Hp]|Hc]]]; [by left|by right; left| |by right; right; right; auto].
      right. right. left. split; [done|]. destruct (P' p) as [->|(y & Hy & _)]; [done|]. by destruct (Np y).
    + destruct (H' q x Hq) as [|[Hu|[|]]]; [by left| |by right; right; left|by right; right; right].
      right. left. by rewrite (up_to_date_same saved saved1) in Hu.
Qed.

Lemma scan_fresh_spec add cursor m order saved pending c :
  adds add → NoDup (map fst order) → (∀ p e, (p, e) ∈ order → m !! p = Some e) →
  StronglySorted (λ x y, ∃ u w, entry_update x.2 = Some u ∧ entry_update y.2 = Some w ∧ w <= u) order →
  (∀ p, p ∈ map fst order → p ∉ c.1) → chosen_ok m c →
  scanned cursor m order saved pending c
    (scan_fresh entry_id entry_version entry_update dst reachable now add cursor order saved pending c).
Proof.
  intros Hadd. revert saved pending c. induction order as [|[p e] order IH]; intros saved pending c N Hm S D C.
  { cbn. split_and!; try done; [auto|]. intros p e []%not_elem_of_nil. }
  cbn [scan_fresh]. cbn in N. apply NoDup_cons in N as [Np N]. inversion S as [|? ? S' F]; subst.
  assert (∀ x, (p, x) ∉ order) as Hnp.
  { intros x Hq. apply Np. apply list_elem_of_fmap. by exists (p, x). }
  destruct (older_than entry_update cursor e) eqn:Eo.
  { cbn. split_and!; try done; [auto|]. intros q x Hq. left.
    apply elem_of_cons in Hq as [[= -> ->]|Hq]; [done|].
    rewrite Forall_forall in F. destruct (F (q, x) Hq) as (u & w & Hu & Hw & Hle). cbn in Hu, Hw.
    unfold older_than in *. rewrite Hu in Eo. rewrite Hw. destruct cursor; [|done]. lia. }
  destruct (check_saved _ saved _ _ now) as [saved1 ok] eqn:Ec. apply check_saved_spec in Ec as [V Hok].
  assert (∀ q x, (q, x) ∈ order → m !! q = Some x) as Hm' by (intros q x Hq; apply Hm; by right).
  assert (∀ q, q ∈ map fst order → q ∉ c.1) as D' by (intros q Hq; apply D; by right).
  destruct ok; [|destruct (reachable p) eqn:Er; cbn [negb]].
  - eapply scanned_cons; [done|done| | | |by apply IH]; [done|by left|]. right. left. by apply Hok.
  - assert (p ∉ c.1) as Hpc by (apply D; by left). rewrite Hadd by done.
    eapply scanned_cons; [done|done| | | |apply IH; try done].
    + intros x Hx. cbn. rewrite elem_of_app. by left.
    + by left.
    + right. right. right. cbn. rewrite elem_of_app, list_elem_of_singleton. by right.
    + intros q Hq. cbn. rewrite elem_of_union, elem_of_singleton. intros [->|Hqc]; [done|]. by eapply D'.
    + apply add_entry_ok; try done. apply Hm. by left.
  - eapply scanned_cons; [done|done| | | |by apply IH]; [done| |].
    + intros q. destruct (decide (q = p)) as [->|]; [|rewrite lookup_insert_ne by done; by left].
      right. by rewrite lookup_insert_eq.
    + right. right. left. split; [done|]. apply lookup_insert_eq.
Qed.

(** What the second loop makes of the held entries [l]. *)
Definition retained (m : gmap PeerId E) (l : list PeerIdVersion) (saved : Versions)
    (pending : gmap PeerId Version) (c : Chosen) (r : Versions * gmap PeerId Version * Chosen) : Prop :=
  let '(saved', pending', c') := r in
  same_versions saved saved' ∧ chosen_ok m c' ∧ (∀ x, x ∈ c.2 → x ∈ c'.2) ∧
  (∀ q, pending' !! q = pending !! q ∨
    ∃ v, mkPeerIdVersion q v ∈ l ∧ (up_to_date saved dst q v ∨ m !! q = None)) ∧
  (∀ q v, pending' !! q = Some v → pending !! q = Some v) ∧
  ∀ p v e, mkPeerIdVersion p v ∈ l → ¬ up_to_date saved dst p v → m !! p = Some e → reachable p = true →
    (p, e) ∈ c'.2.

Lemma retain_spec m l saved pending c :
  chosen_ok m c →
  retained m l saved pending c (foldl (retain_pending dst reachable now m) (saved, pending, c) l).
Proof.
  intros C. apply (foldl_inv (λ l r, retained m l saved pending c r)).
  - cbn. split_and!; try done; [by left|]. intros ??? []%not_elem_of_nil.
  - intros done [p v] [[saved1 pending1] c1] _ (V & C1 & Hc & P & S & R). unfold retain_pending. cbn.
    destruct (check_saved _ saved1 p v now) as [saved2 ok] eqn:Ec.
    apply check_saved_spec in Ec as [V2 Hok]. rewrite (up_to_date_same saved saved1 p v V) in Hok.
    assert (same_versions saved saved2) as V' by by eapply same_versions_trans.
    assert (∀ q, up_to_date saved dst p v ∨ m !! p = None → delete p pending1 !! q = pending !! q ∨
      ∃ w, mkPeerIdVersion q w ∈ done ++ [mkPeerIdVersion p v] ∧ (up_to_date saved dst q w ∨ m !! q = None)) as Hdel.
    { intros q Hq. destruct (decide (q = p)) as [->|].
      - right. exists v. rewrite elem_of_app, list_elem_of_singleton. by split; [right|].
      - rewrite lookup_delete_ne by done. destruct (P q) as [->|(w & Hw & H)]; [by left|]. right. exists w.
        rewrite elem_of_app. by split; [left|]. }
    assert (∀ q w, delete p pending1 !! q = Some w → pending !! q = Some w) as Hsub.
    { intros q w [_ Hq]%lookup_delete_Some. by apply S. }
    destruct ok; [|destruct (m !! p) as [e|] eqn:Em; [|]].
    + unfold retained. split_and!; try done; [intros q; apply Hdel; left; by apply Hok|].
      intros q w x [Hq|[= -> ->]%list_elem_of_singleton]%elem_of_app Hu; [by eapply R|destruct Hu; by apply Hok].
    + assert (if reachable p then chosen_ok m (add_once c1 p e) ∧ (p, e) ∈ (add_once c1 p e).2 ∧
        (∀ x, x ∈ c1.2 → x ∈ (add_once c1 p e).2) else True) as Ha.
      { destruct (reachable p) eqn:Er; [|done]. by apply add_once_spec. }
      destruct (reachable p) eqn:Er.
      * destruct Ha as (C2 & Hin & Hc2). unfold retained. split_and!; try done; [auto| |].
        -- intros q. destruct (P q) as [->|(w & Hw & H)]; [by left|]. right. exists w. rewrite elem_of_app. by split; [left|].
        -- intros q w x [Hq|[= -> ->]%list_elem_of_singleton]%elem_of_app Hu Hx Hr; [apply Hc2; by eapply R|by simplify_eq].
      * unfold retained. split_and!; try done.
        -- intros q. destruct (P q) as [->|(w & Hw & H)]; [by left|]. right. exists w. rewrite elem_of_app. by split; [left|].
        -- intros q w x [Hq|[= -> ->]%list_elem_of_singleton]%elem_of_app Hu Hx Hr; [by eapply R|congruence].
    + unfold retained. split_and!; try done; [intros q; apply Hdel; by right|].
      intros q w x [Hq|[= -> ->]%list_elem_of_singleton]%elem_of_app Hu Hx; [by eapply R|congruence].
Qed.

Lemma btree_map_iter_elem (m : gmap PeerId Version) p v :
  mkPeerIdVersion p v ∈ btree_map_iter m ↔ m !! p = Some v.
Proof.
  unfold btree_map_iter, btree_iter. rewrite list_elem_of_fmap. setoid_rewrite merge_sort_Permutation.
  setoid_rewrite elem_of_elements. setoid_rewrite elem_of_dom. split.
  - intros (q & [= -> ->] & w & Hw). by rewrite Hw.
  - intros Hm. exists p. rewrite Hm. split; [done|by eexists].
Qed.

(** The choice: versions are only touched; what is chosen is in the map, reachable and
    without repetition; an entry that need not be sent is left alone, and any other one
    that is fresh or held is chosen if its peer is reachable, and stays or becomes held
    if not. *)
Definition chosen (cursor : option Z) (m : gmap PeerId E) (saved : Versions) (pending : gmap PeerId Version)
    (r : Versions * gmap PeerId Version * Chosen) : Prop :=
  let '(saved', pending', c) := r in
  same_versions saved saved' ∧ chosen_ok m c ∧
  (∀ p v, pending' !! p = Some v → pending !! p = Some v ∨ ∃ e, m !! p = Some e ∧ v = entry_version e) ∧
  ∀ p e, m !! p = Some e → ¬ up_to_date saved dst p (entry_version e) →
    (held pending p (entry_version e) → held pending' p (entry_version e)) ∧
    (older_than entry_update cursor e = false ∨ held pending p (entry_version e) →
      if reachable p then (p, e) ∈ c.2 else held pending' p (entry_version e)).

Lemma choose_spec add cursor m order saved pending :
  adds add → iterates entry_update m order →
  (∀ p e, m !! p = Some e → 0 <= entry_version e ∧ (entry_version e ≠ 0 → entry_id p e = p)) →
  chosen cursor m saved pending
    (choose entry_id entry_version entry_update dst reachable now add cursor m order saved pending).
Proof.
  intros Hadd [Hperm Hs] Hid. unfold choose.
  assert (NoDup (map fst order)) as N.
  { replace (map fst order) with (order.*1) by done. rewrite Hperm. apply NoDup_fst_map_to_list. }
  assert (∀ p e, (p, e) ∈ order ↔ m !! p = Some e) as Hin.
  { intros p e. rewrite Hperm. apply elem_of_map_to_list. }
  pose proof (scan_fresh_spec add cursor m order saved pending (∅, []) Hadd N) as Hscan.
  destruct (scan_fresh _ _ _ _ _ _ _ _ _ _ _) as [[saved1 pending1] c1].
  destruct Hscan as (V1 & C1 & _ & P1 & H1); [intros; by apply Hin|done|set_solver| |].
  { split_and!; [constructor|set_solver|]. intros p e []%not_elem_of_nil. }
  pose proof (retain_spec m (btree_map_iter pending1) saved1 pending1 c1 C1) as Hret.
  destruct (foldl _ _ _) as [[saved2 pending2] c2]. destruct Hret as (V2 & C2 & Hc2 & P2 & S2 & R2).
  split; [by eapply same_versions_trans|]. split; [done|]. split.
  { intros p v Hp%S2. destruct (P1 p) as [E1|(e & He & E1)]; rewrite E1 in Hp; [by left|].
    right. exists e. split; [by apply Hin|by injection Hp]. }
  intros p e Hp Hu. assert (entry_version e ≠ 0) as Hne by (intros ?; apply Hu; by left).
  destruct (Hid p e Hp) as [Hpos Hkey]. specialize (Hkey Hne).
  assert (held pending1 p (entry_version e) → held pending2 p (entry_version e) ∧
    (reachable p = true → (p, e) ∈ c2.2)) as Hheld.
  { intros (v & Hv & Hle). assert (¬ up_to_date saved1 dst p v) as Hnu.
    { rewrite (up_to_date_same saved saved1) by done. intros [->|[->|(x & Hx & Hxv)]]; [lia| |].
      - apply Hu. right. by left.
      - apply Hu. right. right. exists x. split; [done|lia]. }
    split.
    - destruct (P2 p) as [E2|(w & Hw & Hor)]; [exists v; by rewrite E2|]. apply btree_map_iter_elem in Hw.
      rewrite Hv in Hw. injection Hw as <-. destruct Hor; [done|congruence].
    - intros Hr. eapply R2; [by apply btree_map_iter_elem|done..]. }
  assert (held pending p (entry_version e) → held pending1 p (entry_version e)) as Hkeep.
  { intros (v & Hv & Hle). unfold held. destruct (P1 p) as [->|(x & Hx & ->)]; [by exists v|].
    apply Hin in Hx. rewrite Hp in Hx. injection Hx as <-. by exists (entry_version e). }
  split; [intros H; by apply Hheld, Hkeep|]. intros [Ho|H].
  - destruct (H1 p e) as [H|[H|[[Hr H]|H]]]; [by apply Hin|congruence|by rewrite Hkey in H| |].
    + rewrite Hr. apply Hheld. by exists (entry_version e).
    + destruct C1 as (_ & _ & M1). destruct (M1 p e H) as [_ Hr]. rewrite Hr. by apply Hc2.
  - destruct (Hheld (Hkeep H)) as [? Hr]. destruct (reachable p) eqn:Er; auto.
Qed.

End ChooseFacts.

(** ** The neighbour *)

(** The database holds version [v] of the info of [p], or a newer one. *)
Definition knows db (p v : Z) : Prop := ∃ i, si_peer_infos db !! p = Some i ∧ v <= ri_version i.

Lemma knows_advances db db' p v : advances db db' → knows db p v → knows db' p v.
Proof.
  intros [A _] (i & Hi & Hv). destruct (A p i Hi) as (i' & Hi' & H).
  exists i'. split; [done|]. destruct H as [->|]; lia.
Qed.

Lemma knows_le db p v w : knows db p v → w <= v → knows db p w.
Proof. intros (i & Hi & Hv) Hw. exists i. split; [done|lia]. Qed.

Lemma update_loop_knows my route dst now raws infos idx db need db' need' :
  update_peer_infos_loop my route dst now raws infos idx db need = Some (db', need', Ok tt) →
  ∀ i, i ∈ infos → knows db' (ri_peer_id i) (ri_version i).
Proof.
  revert idx db need. induction infos as [|info infos IH]; intros idx db need E i Hi; [by apply not_elem_of_nil in Hi|].
  cbn in E. destruct (raws !! idx) as [raw|]; cbn in E; [|done].
  destruct (check_duplicate_peer_id _ _ _ _ _ _) as [[[]|err]|]; cbn in E; [|done..].
  apply elem_of_cons in Hi as [->|Hi].
  - destruct (si_peer_infos db !! ri_peer_id info) as [old|] eqn:Eo;
      [destruct (Z.ltb_spec (ri_version old) (ri_version info))|];
      apply update_infos_loop_spec in E as (A & _); eapply knows_advances; try exact A.
    + eexists. cbn. rewrite lookup_insert_eq. split; [done|]. cbn. lia.
    + by exists old.
    + eexists. cbn. rewrite lookup_insert_eq. split; [done|]. cbn. lia.
  - case_match; eapply IH; eauto.
Qed.

(** A neighbour that accepts a message knows its infos. *)
Lemma update_peer_infos_knows db my route dst infos raws now db' :
  update_peer_infos db my route dst infos raws now = Some (db', Ok tt) →
  advances db db' ∧ ∀ i, i ∈ infos → knows db' (ri_peer_id i) (ri_version i).
Proof.
  unfold update_peer_infos. destruct (update_peer_infos_loop _ _ _ _ _ _ _ _ _) as [[[db1 need] [[]|e]]|] eqn:E; cbn; [|done..].
  intros [= <-]. pose proof (update_loop_knows _ _ _ _ _ _ _ _ _ _ _ E) as Hk.
  apply update_infos_loop_spec in E as (A & _). destruct need; cbn; split; try done.
Qed.

(** ** A node and its neighbour *)

(** The node is [A], with its database and session; [B] is the neighbour, with its
    database and the id of its current session with [A].  [link_sent] are the requests
    of [A] so far, [link_delivered] those that [B] accepted, with the session id of the
    answer, [link_ids] the session ids [B] has used, and [link_clock] the last instant. *)
Record Link : Type := mkLink {
  link_db : SyncedRouteInfo;
  link_session : SyncRouteSession;
  link_remote : SyncedRouteInfo;
  link_remote_id : Z;
  link_clock : Z;
  link_sent : list SyncRequest;
  link_delivered : list (SyncRequest * Z);
  link_ids : gset Z
}.

Implicit Types l : Link.

(** Every info is stored under its own id with the time of its last update; infos that
    were made up for unknown peers have version 0. *)
Definition stored_well (db : SyncedRouteInfo) (now : Z) : Prop :=
  ∀ p i, si_peer_infos db !! p = Some i →
    0 <= ri_version i ∧ (ri_version i ≠ 0 → ri_peer_id i = p) ∧ ∃ u, ri_last_update i = Some u ∧ u <= now.

(** A change of the database at [now]: each info is an old one or stamped [now]. *)
Definition evolves (now : Z) (db db' : SyncedRouteInfo) : Prop :=
  ∀ p i, si_peer_infos db' !! p = Some i →
    si_peer_infos db !! p = Some i ∨
    0 <= ri_version i ∧ (ri_version i ≠ 0 → ri_peer_id i = p) ∧ ri_last_update i = Some now.

Definition sent_infos (rq : SyncRequest) : list RoutePeerInfo := default [] (rq_peer_infos rq).

(** A response is safe to commit when it comes from the session that the node knows; or
    from the first one, if no info is held back. *)
Definition known_session s (rsp : SyncRouteInfoResponse) : Prop :=
  rsp_session_id rsp = dst_session_id s ∨
  dst_session_id s = 0 ∧ unreachable_peers_for_peer_info (saved_state s) = ∅.

Definition with_link_session l s : Link :=
  mkLink (link_db l) s (link_remote l) (link_remote_id l) (link_clock l) (link_sent l) (link_delivered l) (link_ids l).

(** One step of the pair.  The steps that change the identity of the session leave room
    in its 64-bit revision. *)
Inductive link_step `{!HashIter} l : Link → Prop :=
| LChange now db' :                         (* the database of A changes *)
    link_clock l <= now → evolves now (link_db l) db' →
    link_step l (mkLink db' (link_session l) (link_remote l) (link_remote_id l) now
                   (link_sent l) (link_delivered l) (link_ids l))
| LRemoteChange db' :                       (* the database of B advances *)
    advances (link_remote l) db' →
    link_step l (mkLink (link_db l) (link_session l) db' (link_remote_id l) (link_clock l)
                   (link_sent l) (link_delivered l) (link_ids l))
| LRestart id db' :                         (* B starts over with a new session *)
    id ∉ link_ids l → id ≠ 0 →
    link_step l (mkLink (link_db l) (link_session l) db' id (link_clock l)
                   (link_sent l) (link_delivered l) ({[id]} ∪ link_ids l))
| LRequest now reachable o cached supports init s' rq :   (* A builds a request *)
    link_clock l <= now → iterates ri_last_update (si_peer_infos (link_db l)) (info_order o) →
    start_sync reachable now (link_db l) o (link_session l) cached supports init = (s', rq) →
    link_step l (mkLink (link_db l) s' (link_remote l) (link_remote_id l) now
                   (match rq with Some rq => rq :: link_sent l | None => link_sent l end)
                   (link_delivered l) (link_ids l))
| LDeliver rq my route raws now db' db'' :  (* B accepts the infos of a request *)
    rq ∈ link_sent l →
    update_peer_infos (link_remote l) my route (my_peer_id (link_session l)) (sent_infos rq) raws now
      = Some (db', Ok tt) → advances db' db'' →
    link_step l (mkLink (link_db l) (link_session l) db'' (link_remote_id l) (link_clock l)
                   (link_sent l) ((rq, link_remote_id l) :: link_delivered l) (link_ids l))
| LAnswer rq rsp current public now s' :    (* the answer reaches A *)
    (rq, rsp_session_id rsp) ∈ link_delivered l → rsp_error rsp = None →
    known_session (link_session l) rsp → state_revision (link_session l) < 2 ^ 64 - 1 →
    finish_sync (link_db l) (link_session l) current public rq (Some rsp) now = Some s' →
    link_step l (with_link_session l s')
| LFailure rq ret current public now s' :   (* the request is refused or lost *)
    rq ∈ link_sent l → (∀ rsp, ret = Some rsp → rsp_error rsp ≠ None) →
    state_revision (link_session l) < 2 ^ 64 - 1 →
    finish_sync (link_db l) (link_session l) current public rq ret now = Some s' →
    link_step l (with_link_session l s')
| LInbound infos is_initiator s' now :      (* B sends infos that it knows *)
    (∀ i, i ∈ infos → knows (link_remote l) (ri_peer_id i) (ri_version i)) →
    state_revision (link_session l) < 2 ^ 64 - 1 →
    admit_inbound_locked (link_session l) (link_remote_id l) is_initiator = (s', true) →
    link_step l (with_link_session l
      (update_dst_saved_peer_info_version (with_contact s' 0 1 now) infos (dst_peer_id s') now))
| LElect b :                                (* the election changes the role of A *)
    state_revision (link_session l) < 2 ^ 64 - 1 →
    link_step l (with_link_session l (update_initiator_flag (link_session l) b))
| LStale now :
    state_revision (link_session l) < 2 ^ 64 - 1 →
    link_step l (with_link_session l (clear_stale_dst_initiator (link_session l) now).1)
| LClean now :
    link_step l (with_link_session l (clean_dst_saved_map (link_session l) now)).

(** A new session with a neighbour that has any database. *)
Definition link_start l : Prop :=
  stored_well (link_db l) (link_clock l) ∧ (∃ my dst id now, link_session l = new_session my dst id now) ∧
  link_remote_id l ≠ 0 ∧ link_ids l = {[link_remote_id l]} ∧ link_sent l = [] ∧ link_delivered l = [].

Inductive link_reachable `{!HashIter} : Link → Prop :=
| link_init l : link_start l → link_reachable l
| link_next l l' : link_reachable l → link_step l l' → link_reachable l'.

(** ** The invariant of the pair *)

Abbreviation saved_infos s := (dst_saved_peer_info_versions (saved_state s)) (only parsing).
Abbreviation held_infos s := (unreachable_peers_for_peer_info (saved_state s)) (only parsing).
Abbreviation cursor s := (last_sync_succ_timestamp (saved_state s)) (only parsing).

(** [A] takes the current session of [B] for current. *)
Definition in_session l : Prop := dst_session_id (link_session l) = link_remote_id l.

(** An info of [A] that must reach [B], updated at [u]. *)
Definition due l (p : PeerId) (v u : Z) : Prop :=
  ∃ i, si_peer_infos (link_db l) !! p = Some i ∧ ri_version i = v ∧ v ≠ 0 ∧
    p ≠ dst_peer_id (link_session l) ∧ ri_last_update i = Some u.

(** The request [rq] has what [B] lacks of the infos that it makes old. *)
Definition complete l (rq : SyncRequest) : Prop :=
  in_session l ∨ dst_session_id (link_session l) = 0 →
  ∀ p v u, due l p v u → u < rq_next_last_sync_succ_timestamp rq →
    in_session l ∧ knows (link_remote l) p v ∨ held (held_infos (link_session l)) p v ∨
    ∃ i, i ∈ sent_infos rq ∧ ri_peer_id i = p ∧ v <= ri_version i.

Record link_inv l : Prop := {
  inv_stored : stored_well (link_db l) (link_clock l);
  inv_revision : is_uint 64 (state_revision (link_session l));
  inv_ids : link_remote_id l ∈ link_ids l ∧ 0 ∉ link_ids l ∧
    (dst_session_id (link_session l) = 0 ∨ dst_session_id (link_session l) ∈ link_ids l);
  inv_answers rq id : (rq, id) ∈ link_delivered l → id ∈ link_ids l ∧ rq ∈ link_sent l;
  inv_cursor c : cursor (link_session l) = Some c → c <= link_clock l;
  inv_first : dst_session_id (link_session l) = 0 →
    saved_infos (link_session l) = ∅ ∧ cursor (link_session l) = None;
  inv_saved p x : in_session l → saved_infos (link_session l) !! p = Some x → vt_version x ≠ 0 →
    knows (link_remote l) p (vt_version x);
  inv_old p v u c : in_session l → due l p v u → cursor (link_session l) = Some c → u < c →
    knows (link_remote l) p v ∨ held (held_infos (link_session l)) p v;
  inv_delivered rq i : (rq, link_remote_id l) ∈ link_delivered l → i ∈ sent_infos rq →
    knows (link_remote l) (ri_peer_id i) (ri_version i);
  inv_sent rq : rq ∈ link_sent l →
    rs_state_revision (rq_snapshot rq) <= state_revision (link_session l) ∧
    rq_next_last_sync_succ_timestamp rq <= link_clock l ∧
    (rs_state_revision (rq_snapshot rq) = state_revision (link_session l) → complete l rq)
}.

Section LinkFacts.

Context {HI : HashIter}.

Lemma start_inv l : link_start l → link_inv l.
Proof.
  intros (Hs & (my & dst & id & now & E) & Hid & Hids & Hsent & Hdel).
  split; rewrite ?E, ?Hids, ?Hsent, ?Hdel; cbn; try done.
  - set_solver.
  - intros ?? []%not_elem_of_nil.
  - intros ?? []%not_elem_of_nil.
  - intros ? []%not_elem_of_nil.
Qed.

(** A change of the session alone. *)
Lemma inv_session l s' :
  let s := link_session l in
  link_inv l → dst_peer_id s' = dst_peer_id s →
  state_revision s <= state_revision s' < 2 ^ 64 →
  dst_session_id s' = 0 ∨ dst_session_id s' ∈ link_ids l →
  (∀ c, cursor s' = Some c → c <= link_clock l) →
  (dst_session_id s' = 0 → saved_infos s' = ∅ ∧ cursor s' = None) →
  (dst_session_id s' = link_remote_id l → ∀ p x, saved_infos s' !! p = Some x → vt_version x ≠ 0 →
    knows (link_remote l) p (vt_version x)) →
  (dst_session_id s' = link_remote_id l → ∀ p v u c, due l p v u → cursor s' = Some c → u < c →
    knows (link_remote l) p v ∨ held (held_infos s') p v) →
  (state_revision s' = state_revision s → dst_session_id s' = dst_session_id s ∧
    ∀ p v u, in_session l ∨ dst_session_id s = 0 → due l p v u → held (held_infos s) p v →
      in_session l ∧ knows (link_remote l) p v ∨ held (held_infos s') p v) →
  link_inv (with_link_session l s').
Proof.
  intros s I Hd Hr Hid Hc Hf Hs Ho Hk.
  assert (∀ p v u, due (with_link_session l s') p v u → due l p v u) as Hdue.
  { intros p v u (i & H). exists i. cbn in H. by rewrite Hd in H. }
  split; cbn; try apply I; try done.
  - pose proof (inv_revision _ I). unfold is_uint in *. subst s. lia.
  - destruct (inv_ids _ I) as (? & ? & _). by split_and!.
  - intros p x H. by apply Hs.
  - intros p v u c H D%Hdue. by eapply Ho.
  - intros rq Hq. destruct (inv_sent _ I rq Hq) as (H1 & H2 & H3). subst s. split; [lia|]. split; [done|].
    intros E. assert (state_revision s' = state_revision (link_session l)) as Er by lia.
    destruct (Hk Er) as [Hds Hheld]. intros Hin p v u D%Hdue Hu. unfold in_session in *. cbn in *. rewrite Hds in *.
    destruct (H3 ltac:(lia) Hin p v u D Hu) as [H|[H|H]]; [by left| |by right; right].
    destruct (Hheld p v u Hin D H) as [?|?]; [by left|by right; left].
Qed.

(** A change of roles, contact and acknowledgements of the same remote session. *)
Lemma inv_same_session l s' :
  let s := link_session l in
  link_inv l → dst_peer_id s' = dst_peer_id s → dst_session_id s' = dst_session_id s →
  state_revision s <= state_revision s' < 2 ^ 64 →
  cursor s' = cursor s → held_infos s' = held_infos s →
  (dst_session_id s = 0 → saved_infos s' = ∅) →
  (in_session l → ∀ p x, saved_infos s' !! p = Some x → vt_version x ≠ 0 → knows (link_remote l) p (vt_version x)) →
  link_inv (with_link_session l s').
Proof.
  intros s I Hd Hid Hr Hc Hh Hf Hs. apply inv_session; try done; rewrite ?Hid, ?Hc, ?Hh.
  - apply (inv_ids _ I).
  - apply (inv_cursor _ I).
  - intros H. split; [by apply Hf|]. by apply (inv_first _ I).
  - exact Hs.
  - intros H p v u c. by apply (inv_old _ I).
  - intros _. split; [done|]. intros p v u _ _ H. by right.
Qed.

(** The same with all acknowledgements kept. *)
Lemma inv_same_saved l s' :
  let s := link_session l in
  link_inv l → dst_peer_id s' = dst_peer_id s → dst_session_id s' = dst_session_id s →
  saved_state s' = saved_state s → state_revision s <= state_revision s' < 2 ^ 64 →
  link_inv (with_link_session l s').
Proof.
  intros s I Hd Hid Hs Hr. apply inv_same_session; rewrite ?Hs; try done.
  - intros H. by apply (inv_first _ I).
  - intros H p x. by apply (inv_saved _ I).
Qed.

Lemma wrapping_inc s : is_uint 64 (state_revision s) → state_revision s < 2 ^ 64 - 1 →
  wrapping_add 64 (state_revision s) 1 = state_revision s + 1.
Proof. intros [? _] ?. apply wrapping_add_small. unfold is_uint. lia. Qed.

Lemma remote_same_session l b :
  link_inv l → state_revision (link_session l) < 2 ^ 64 - 1 →
  link_inv (with_link_session l (update_remote_state_locked (link_session l) (dst_session_id (link_session l)) b)).
Proof.
  intros I Hr. pose proof (wrapping_inc _ (inv_revision _ I) Hr) as W. pose proof (inv_revision _ I) as [H0 _].
  apply inv_same_saved; try done; cbn; rewrite Z.eqb_refl; cbn; [done|].
  rewrite W. case_match; lia.
Qed.

(** *** The steps outside the session *)

Lemma step_change l now db' :
  link_inv l → link_clock l <= now → evolves now (link_db l) db' →
  link_inv (mkLink db' (link_session l) (link_remote l) (link_remote_id l) now
              (link_sent l) (link_delivered l) (link_ids l)).
Proof.
  intros I Hnow Hev. set (l' := mkLink _ _ _ _ _ _ _ _).
  assert (∀ p v u, due l' p v u → due l p v u ∨ u = now) as Hdue.
  { intros p v u (i & Hi & H). destruct (Hev p i Hi) as [Ho|(_ & _ & Hu)]; [left; by exists i|right].
    destruct H as (_ & _ & _ & H). congruence. }
  split; cbn; try apply I.
  - intros p i Hi. destruct (Hev p i Hi) as [Ho|(H1 & H2 & H3)].
    + destruct (inv_stored _ I p i Ho) as (? & ? & u & ? & ?). split_and!; try done. exists u. split; [done|lia].
    + split_and!; try done. exists now. split; [done|lia].
  - intros c Hc. pose proof (inv_cursor _ I c Hc). lia.
  - intros p v u c Hin [D| ->]%Hdue Hc Hu; [by eapply (inv_old _ I)|]. pose proof (inv_cursor _ I c Hc). lia.
  - intros rq Hq. destruct (inv_sent _ I rq Hq) as (? & ? & H). split; [done|]. split; [lia|].
    intros E Hin p v u [D| ->]%Hdue Hu; [by eapply H|lia].
Qed.

Lemma step_remote_change l db' :
  link_inv l → advances (link_remote l) db' →
  link_inv (mkLink (link_db l) (link_session l) db' (link_remote_id l) (link_clock l)
              (link_sent l) (link_delivered l) (link_ids l)).
Proof.
  intros I A. assert (∀ p v, knows (link_remote l) p v → knows db' p v) as K.
  { intros p v. by apply knows_advances. }
  split; cbn; try apply I.
  - intros p x Hin Hp Hx. apply K. by apply (inv_saved _ I).
  - intros p v u c Hin D Hc Hu. destruct (inv_old _ I p v u c Hin D Hc Hu); auto.
  - intros rq i Hq Hi. apply K. by eapply (inv_delivered _ I).
  - intros rq Hq. destruct (inv_sent _ I rq Hq) as (? & ? & H). split_and!; try done.
    intros E Hin p v u D Hu. destruct (H E Hin p v u D Hu) as [[? ?]|[|]]; auto.
Qed.

Lemma step_restart l id db' :
  link_inv l → id ∉ link_ids l → id ≠ 0 →
  link_inv (mkLink (link_db l) (link_session l) db' id (link_clock l)
              (link_sent l) (link_delivered l) ({[id]} ∪ link_ids l)).
Proof.
  intros I Hid H0. destruct (inv_ids _ I) as (Hr & Hz & Hd).
  assert (dst_session_id (link_session l) ≠ id) as Hne by (destruct Hd as [-> |]; [done|set_solver]).
  split; cbn; try apply I; try (by intros; destruct Hne).
  - set_solver.
  - intros rq i Hq. destruct (inv_answers _ I rq i Hq). set_solver.
  - intros rq i Hq. by destruct (inv_answers _ I rq id Hq).
  - intros rq Hq. destruct (inv_sent _ I rq Hq) as (? & ? & H). split_and!; try done.
    intros E [Hin|Hin] p v u D Hu; [by destruct Hne|].
    destruct (H E (or_intror Hin) p v u D Hu) as [[Hin' _]|H']; [|by right].
    exfalso. unfold in_session in Hin'. cbn in Hin. apply Hz. by rewrite <- Hin, Hin'.
Qed.

Lemma step_deliver l rq my route src raws now db' db'' :
  link_inv l → rq ∈ link_sent l →
  update_peer_infos (link_remote l) my route src (sent_infos rq) raws now = Some (db', Ok tt) →
  advances db' db'' →
  link_inv (mkLink (link_db l) (link_session l) db'' (link_remote_id l) (link_clock l)
              (link_sent l) ((rq, link_remote_id l) :: link_delivered l) (link_ids l)).
Proof.
  intros I Hq E A. apply update_peer_infos_knows in E as [A' K].
  pose proof (step_remote_change l db'' I (advances_trans _ _ _ A' A)) as I'.
  split; try apply I'.
  - cbn. intros rq' id [[= -> ->]|H]%elem_of_cons; [|by apply (inv_answers _ I)].
    split; [apply (inv_ids _ I)|done].
  - cbn. intros rq' i [[= ->]|H]%elem_of_cons Hi; [|by eapply (inv_delivered _ I')].
    eapply knows_advances; [done|]. by apply K.
Qed.

(** *** Acknowledgements *)

Lemma save_version_sound (P : PeerId → Z → Prop) now (saved : Versions) k v :
  (∀ p x, saved !! p = Some x → vt_version x ≠ 0 → P p (vt_version x)) → P k v →
  ∀ p x, save_version now saved k v !! p = Some x → vt_version x ≠ 0 → P p (vt_version x).
Proof.
  intros Hs Hv p x. unfold save_version. intros [[<- <-]|[_ Hp]]%lookup_insert_Some; [|by apply Hs].
  cbn. unfold set_if_larger.
  destruct (saved !! k) as [y|] eqn:Ek; cbn; intros Hne.
  - destruct (Z.max_spec (vt_version y) v) as [[_ ->]|[Hle Hm]]; [done|]. rewrite Hm in *. by apply Hs.
  - destruct (Z.max_spec 0 v) as [[_ ->]|[_ Hm]]; [done|]. by rewrite Hm in Hne.
Qed.

Lemma save_versions_sound (P : PeerId → Z → Prop) now skip rows (saved : Versions) :
  (∀ p x, saved !! p = Some x → vt_version x ≠ 0 → P p (vt_version x)) →
  (∀ p v, (p, v) ∈ rows → P p v) →
  ∀ p x, save_versions now skip rows saved !! p = Some x → vt_version x ≠ 0 → P p (vt_version x).
Proof.
  intros Hs Hr. unfold save_versions.
  apply (foldl_inv (λ _ (saved : Versions), ∀ p x, saved !! p = Some x → vt_version x ≠ 0 → P p (vt_version x))); [done|].
  intros _ [k v] saved1 Hin H1. cbn. destruct (skip k); [done|]. apply save_version_sound; [done|]. by apply Hr.
Qed.

Lemma update_saved_infos_sound (P : PeerId → Z → Prop) s infos dst now :
  (∀ p x, saved_infos s !! p = Some x → vt_version x ≠ 0 → P p (vt_version x)) →
  (∀ i, i ∈ infos → P (ri_peer_id i) (ri_version i)) →
  ∀ p x, saved_infos (update_dst_saved_peer_info_version s infos dst now) !! p = Some x →
    vt_version x ≠ 0 → P p (vt_version x).
Proof.
  intros Hs Hi. cbn. apply save_versions_sound; [done|].
  intros p v (i & [= -> ->] & H)%list_elem_of_fmap. by apply Hi.
Qed.

Lemma step_inbound l infos b s' now :
  link_inv l → (∀ i, i ∈ infos → knows (link_remote l) (ri_peer_id i) (ri_version i)) →
  state_revision (link_session l) < 2 ^ 64 - 1 →
  admit_inbound_locked (link_session l) (link_remote_id l) b = (s', true) →
  link_inv (with_link_session l (update_dst_saved_peer_info_version (with_contact s' 0 1 now) infos (dst_peer_id s') now)).
Proof.
  intros I Hk Hr Ha. pose proof (admit_inbound_cases (link_session l) (link_remote_id l) b) as Hc. rewrite Ha in Hc.
  destruct Hc as [-> Hc]. destruct (inv_ids _ I) as (Hid & Hz & _).
  pose proof (wrapping_inc _ (inv_revision _ I) Hr) as W. pose proof (inv_revision _ I) as [H0 _].
  set (s := link_session l) in *. set (s1 := update_remote_state_locked s (link_remote_id l) b).
  assert (link_remote_id l ≠ 0) as Hne by (intros E; by rewrite E in Hid).
  assert (∀ p x, saved_infos s1 !! p = Some x → vt_version x ≠ 0 → knows (link_remote l) p (vt_version x)) as Hs1.
  { intros p x. unfold s1, update_remote_state_locked. cbn. destruct (Z.eqb_spec (link_remote_id l) (dst_session_id s)) as [E|]; cbn;
      [|done]. by apply (inv_saved _ I). }
  apply inv_session; try done; cbn -[save_versions].
  - repeat case_match; unfold s in *; lia.
  - by right.
  - intros c. case_match; [done|]. apply (inv_cursor _ I).
  - intros _. exact (update_saved_infos_sound (knows (link_remote l)) (with_contact s1 0 1 now) infos _ now Hs1 Hk).
  - intros _ p v u c D. destruct (Z.eqb_spec (link_remote_id l) (dst_session_id s)) as [E|]; cbn; [|done].
    intros Hcu Hu. by eapply (inv_old _ I).
  - destruct (Z.eqb_spec (link_remote_id l) (dst_session_id s)) as [E|]; cbn; [|intros E; rewrite W in E; subst s; lia].
    intros _. split; [done|]. intros p v u _ _ H. by right.
Qed.

(** *** Requests *)

(** What concerns the synchronisation of peer infos. *)
Definition info_view s : PeerId * Z * Z * Versions * gmap PeerId Version * option Z :=
  (dst_peer_id s, dst_session_id s, state_revision s, saved_infos s, held_infos s, cursor s).

Lemma conn_info_view reachable now db order s cached supports :
  info_view (build_conn_info reachable now db order s cached supports).1 = info_view s.
Proof. unfold build_conn_info, build_conn_peer_list. by destruct (choose _ _ _ _ _ _ _ _ _ _ _ _) as [[? ?] ?]. Qed.

Lemma foreign_info_view now db s : info_view (build_foreign_network_info now db s).1 = info_view s.
Proof.
  unfold build_foreign_network_info.
  assert (info_view (foldl (add_foreign_network now) (s, []) (iter (si_foreign_network db))).1 = info_view s) as H.
  { apply (foldl_inv (λ _ st, info_view st.1 = info_view s)); [done|]. intros _ kv st _ <-.
    unfold add_foreign_network, check_saved_foreign_network_version_update_to_date. by destruct (check_saved _ _ _ _ _). }
  by destruct (foldl _ _ _).
Qed.

Lemma start_sync_spec reachable now db o s cached supports init s' rq :
  start_sync reachable now db o s cached supports init = (s', rq) →
  let r := build_route_info reachable now db (info_order o) s in
  info_view s' = info_view r.1 ∧
  match rq with
  | None => r.2 = None
  | Some rq => rq_peer_infos rq = r.2 ∧ rq_snapshot rq = request_snapshot_locked s ∧
      rq_expected_dst_session_id rq = dst_session_id s ∧ rq_next_last_sync_succ_timestamp rq = now
  end.
Proof.
  unfold start_sync, build_sync_request. destruct (build_route_info _ _ _ _ _) as [s1 infos]. cbn.
  pose proof (conn_info_view reachable now db (conn_order o) s1 cached supports) as H2.
  destruct (build_conn_info _ _ _ _ _ _ _) as [s2 conn].
  pose proof (foreign_info_view now db s2) as H3.
  destruct (build_foreign_network_info _ _ _) as [s3 foreign]. cbn in *.
  destruct (is_none infos) eqn:En; cbn.
  - destruct (_ && negb (init && we_are_initiator s3)); intros [= <- <-].
    + split; [congruence|]. by destruct infos.
    + split; [|done]. rewrite <- H2, <- H3. done.
  - intros [= <- <-]. split; [|done]. rewrite <- H2, <- H3. done.
Qed.

(** What [build_route_info] leaves of the session and sends. *)
Lemma build_route_info_spec reachable now db order s clock :
  stored_well db clock → iterates ri_last_update (si_peer_infos db) order →
  let r := build_route_info reachable now db order s in
  dst_peer_id r.1 = dst_peer_id s ∧ dst_session_id r.1 = dst_session_id s ∧
  state_revision r.1 = state_revision s ∧ cursor r.1 = cursor s ∧
  same_versions (saved_infos s) (saved_infos r.1) ∧
  (∀ i, i ∈ default [] r.2 → ∃ p, si_peer_infos db !! p = Some i ∧ reachable p = true) ∧
  ∀ p i, si_peer_infos db !! p = Some i →
    ¬ up_to_date (saved_infos s) (dst_peer_id s) p (ri_version i) →
    (held (held_infos s) p (ri_version i) → held (held_infos r.1) p (ri_version i)) ∧
    (older_than ri_last_update (cursor s) i = false ∨ held (held_infos s) p (ri_version i) →
      if reachable p then i ∈ default [] r.2 else held (held_infos r.1) p (ri_version i)).
Proof.
  intros Hst Hit. unfold build_route_info.
  pose proof (choose_spec (λ _ i, ri_peer_id i) ri_version ri_last_update (dst_peer_id s) reachable now add_entry
    (cursor s) (si_peer_infos db) order (saved_infos s) (held_infos s)) as H.
  destruct (choose _ _ _ _ _ _ _ _ _ _ _ _) as [[saved pending] c].
  destruct H as (V & (_ & _ & C) & _ & H); [by intros ???|done| |].
  { intros p i Hp. by destruct (Hst p i Hp) as (? & ? & _). }
  assert (∀ i, i ∈ default [] match c.2 with [] => None | l => Some (map snd l) end ↔ ∃ p, (p, i) ∈ c.2) as Hin.
  { intros i. transitivity (i ∈ map snd c.2); [by destruct c.2|]. rewrite list_elem_of_fmap.
    split; [intros ([p x] & -> & Hx); by exists p|intros (p & Hp); by exists (p, i)]. }
  cbn -[default]. split_and!; try done.
  - intros i (p & Hp)%Hin. exists p. by apply C.
  - intros p i Hp Hu. destruct (H p i Hp Hu) as [H1 H2]. split; [done|]. intros Hor. specialize (H2 Hor).
    destruct (reachable p); [|done]. apply Hin. by exists p.
Qed.

Lemma due_known l p v u :
  link_inv l → due l p v u → up_to_date (saved_infos (link_session l)) (dst_peer_id (link_session l)) p v →
  in_session l ∨ dst_session_id (link_session l) = 0 → in_session l ∧ knows (link_remote l) p v.
Proof.
  intros I (i & Hi & <- & Hne & Hp & _) [Hu|[Hu|(x & Hx & Hv)]] Hin; [done..|].
  destruct (inv_stored _ I p i Hi) as (Hpos & _). destruct Hin as [Hin|H0].
  - split; [done|]. eapply knows_le; [apply (inv_saved _ I); try done|]; lia.
  - destruct (inv_first _ I H0) as [E _]. rewrite E in Hx. done.
Qed.

(** Of a due info that is not acknowledged, building a request sends or holds it. *)
Lemma due_handled l reachable now o p v u :
  link_inv l → iterates ri_last_update (si_peer_infos (link_db l)) (info_order o) → due l p v u →
  in_session l ∨ dst_session_id (link_session l) = 0 →
  let r := build_route_info reachable now (link_db l) (info_order o) (link_session l) in
  in_session l ∧ knows (link_remote l) p v ∨
  if reachable p then ∃ i, i ∈ default [] r.2 ∧ ri_peer_id i = p ∧ v <= ri_version i
  else held (held_infos r.1) p v.
Proof.
  intros I Hit D Hin r.
  destruct (build_route_info_spec reachable now (link_db l) (info_order o) (link_session l) _ (inv_stored _ I) Hit)
    as (_ & _ & _ & _ & _ & _ & H). fold r in H.
  destruct (decide (up_to_date (saved_infos (link_session l)) (dst_peer_id (link_session l)) p v)) as [Hu|Hu];
    [left; by eapply due_known|].
  pose proof D as (i & Hi & <- & Hne & Hp & Hl). destruct (H p i Hi Hu) as [_ H2].
  destruct (inv_stored _ I p i Hi) as (_ & Hkey & _).
  assert (in_session l ∧ knows (link_remote l) p (ri_version i) ∨
    (older_than ri_last_update (cursor (link_session l)) i = false ∨
     held (held_infos (link_session l)) p (ri_version i))) as [?|Hor]; [|by left|].
  { unfold older_than. rewrite Hl. destruct (cursor (link_session l)) as [c|] eqn:Ec; [|by right; left].
    destruct (Z.ltb_spec u c); [|by right; left]. destruct Hin as [Hin|Hz].
    - destruct (inv_old _ I p _ u c Hin D Ec ltac:(done)); auto.
    - destruct (inv_first _ I Hz). congruence. }
  right. specialize (H2 Hor). destruct (reachable p); [|done]. exists i. split_and!; try done; by apply Hkey.
Qed.

Lemma step_request l reachable now o cached supports init s' rq :
  link_inv l → link_clock l <= now → iterates ri_last_update (si_peer_infos (link_db l)) (info_order o) →
  start_sync reachable now (link_db l) o (link_session l) cached supports init = (s', rq) →
  link_inv (mkLink (link_db l) s' (link_remote l) (link_remote_id l) now
              (match rq with Some rq => rq :: link_sent l | None => link_sent l end)
              (link_delivered l) (link_ids l)).
Proof.
  intros I0 Hnow Hit E. set (s := link_session l) in *.
  pose proof (step_change l now (link_db l) I0 Hnow ltac:(by left)) as I. clear I0.
  set (l1 := mkLink (link_db l) (link_session l) _ _ now _ _ _) in I.
  apply start_sync_spec in E as [Ev Erq].
  destruct (build_route_info_spec reachable now (link_db l) (info_order o) s now (inv_stored _ I) Hit)
    as (B1 & B2 & B3 & B4 & B5 & _ & B7).
  set (r := build_route_info reachable now (link_db l) (info_order o) s) in *.
  unfold info_view in Ev. injection Ev as E1 E2 E3 E4 E5 E6. rewrite B1 in E1. rewrite B2 in E2. rewrite B3 in E3.
  rewrite B4 in E6. rewrite <- E4 in B5. setoid_rewrite <- E5 in B7.
  assert (∀ p v u, due l1 p v u → in_session l1 ∨ dst_session_id s = 0 →
    in_session l1 ∧ knows (link_remote l) p v ∨
    if reachable p then ∃ i, i ∈ default [] r.2 ∧ ri_peer_id i = p ∧ v <= ri_version i
    else held (held_infos s') p v) as Hdue.
  { intros p v u D Hin. rewrite E5. by apply (due_handled l1 reachable now o p v u I Hit D). }
  clear E4 E5.
  assert (∀ p v u, in_session l1 ∨ dst_session_id s = 0 → due l1 p v u → held (held_infos s) p v →
    in_session l1 ∧ knows (link_remote l) p v ∨ held (held_infos s') p v) as Hheld.
  { intros p v u Hin D Hh. destruct (decide (up_to_date (saved_infos s) (dst_peer_id s) p v)) as [Hu|Hu].
    - left. by eapply (due_known l1).
    - right. destruct D as (i & Hi & <- & _). by apply B7. }
  assert (link_inv (with_link_session l1 s')) as I'.
  { apply inv_session; try done; cbn; fold s.
    - rewrite E3. destruct (inv_revision _ I). cbn in *. unfold s. lia.
    - rewrite E2. apply (inv_ids _ I).
    - rewrite E6. apply (inv_cursor _ I).
    - rewrite E2, E6. intros H0. destruct (inv_first _ I H0) as [Hs Hc]. split; [|done].
      apply map_eq. intros k. rewrite lookup_empty. specialize (B5 k). cbn in Hs. fold s in Hs. rewrite Hs in B5. cbn in B5.
      by destruct (saved_infos s' !! k).
    - rewrite E2. intros Hin p x Hx. specialize (B5 p). rewrite Hx in B5. cbn in B5.
      destruct (saved_infos s !! p) as [y|] eqn:Ey; [|done]. injection B5 as ->. by apply (inv_saved _ I).
    - rewrite E2, E6. intros Hin p v u c D Hc Hu.
      destruct (inv_old _ I p v u c Hin D Hc Hu) as [|Hh]; [by left|].
      destruct (Hheld p v u (or_introl Hin) D Hh) as [[_ ?]|?]; auto. }
  destruct rq as [rq|]; [|exact I']. destruct Erq as (Ri & Rs & _ & Rn). split; try apply I'.
  - cbn. intros rq' id H. destruct (inv_answers _ I rq' id H). split; [done|]. by right.
  - cbn. intros rq' [->|H]%elem_of_cons; [|by apply (inv_sent _ I')]. rewrite Rs, Rn. cbn. split; [rewrite E3; done|].
    split; [done|]. intros _ Hin p v u D _. unfold in_session in Hin. cbn in Hin. rewrite E2 in Hin.
    assert (due l1 p v u) as D1.
    { destruct D as (i & H). exists i. cbn in *. by rewrite E1 in H. }
    destruct (Hdue p v u D1 Hin) as [[Hi Hk]|H].
    + left. split; [|done]. unfold in_session. cbn. rewrite E2. exact Hi.
    + right. unfold sent_infos. rewrite Ri. destruct (reachable p); [by right|by left].
Qed.

(** *** Answers *)

Lemma request_missing_spec db s rsp :
  let s' := request_missing_peer_infos db s rsp in
  dst_peer_id s' = dst_peer_id s ∧ dst_session_id s' = dst_session_id s ∧
  state_revision s' = state_revision s ∧ cursor s' = cursor s ∧
  (∀ p x, saved_infos s' !! p = Some x → saved_infos s !! p = Some x) ∧
  ∀ p i, si_peer_infos db !! p = Some i →
    held (held_infos s) p (ri_version i) → held (held_infos s') p (ri_version i).
Proof.
  assert (∀ ps st,
    let r := foldl (request_one ri_version (si_peer_infos db) (dst_peer_id s)) st ps in
    (∀ p x, r.1 !! p = Some x → st.1 !! p = Some x) ∧
    ∀ p i, si_peer_infos db !! p = Some i → held st.2 p (ri_version i) → held r.2 p (ri_version i)) as Hf.
  { intros ps st. apply (foldl_inv (λ _ (r : Versions * gmap PeerId Version),
      (∀ p x, r.1 !! p = Some x → st.1 !! p = Some x) ∧
      ∀ p i, si_peer_infos db !! p = Some i → held st.2 p (ri_version i) → held r.2 p (ri_version i))); [done|].
    intros _ q r _ [H1 H2]. unfold request_one. case_match; [done|].
    destruct (si_peer_infos db !! q) as [e|] eqn:Eq; [|done]. case_match; [done|]. cbn. split.
    - intros p x [_ Hp]%lookup_delete_Some. by apply H1.
    - intros p i Hi Hh. specialize (H2 p i Hi Hh). destruct (decide (p = q)) as [->|Hne].
      + exists (ri_version e). rewrite lookup_insert_eq. split; [done|]. simplify_eq. lia.
      + destruct H2 as (v & Hv & Hle). exists v. by rewrite lookup_insert_ne. }
  unfold request_missing_peer_infos.
  specialize (Hf (rsp_missing_peer_ids rsp) (saved_infos s, held_infos s)). cbn zeta in Hf.
  destruct (rsp_missing_peer_ids rsp) as [|q ps]; [destruct (rsp_missing_conn_peer_ids rsp); [done|]|];
    destruct (foldl _ _ _) as [saved pending]; destruct (foldl _ _ _) as [saved_conn pending_conn];
    destruct Hf; by split_and!.
Qed.

Lemma save_sent_spec s rq now s' :
  save_sent s rq now = Some s' →
  dst_peer_id s' = dst_peer_id s ∧ dst_session_id s' = dst_session_id s ∧ state_revision s' = state_revision s ∧
  cursor s' = cursor s ∧ held_infos s' = held_infos s ∧
  saved_infos s' = match rq_peer_infos rq with
                   | Some infos => saved_infos (update_dst_saved_peer_info_version s infos (dst_peer_id s) now)
                   | None => saved_infos s
                   end.
Proof.
  unfold save_sent, update_dst_saved_foreign_network_version.
  destruct (rq_peer_infos rq), (rq_conn_info rq) as [[]|], (rq_foreign_network rq);
    try destruct (try_fold _ _ _); cbn -[save_versions]; intros [= <-]; by split_and!.
Qed.

Definition after_response s (rsp : SyncRouteInfoResponse) : SavedState :=
  if rsp_session_id rsp =? dst_session_id s then saved_state s else cleared_state.

Lemma commit_sync_spec db s rq rsp now s' :
  commit_sync db s rq rsp now = Some s' →
  let st := after_response s rsp in
  dst_peer_id s' = dst_peer_id s ∧ dst_session_id s' = rsp_session_id rsp ∧
  (state_revision s' = wrapping_add 64 (state_revision s) 1 ∨
   state_revision s' = state_revision s ∧ rsp_session_id rsp = dst_session_id s) ∧
  cursor s' = Some (Z.max (default (rq_next_last_sync_succ_timestamp rq) (last_sync_succ_timestamp st))
                      (rq_next_last_sync_succ_timestamp rq)) ∧
  (∀ P : PeerId → Z → Prop,
    (∀ p x, dst_saved_peer_info_versions st !! p = Some x → vt_version x ≠ 0 → P p (vt_version x)) →
    (∀ i, i ∈ sent_infos rq → P (ri_peer_id i) (ri_version i)) →
    ∀ p x, saved_infos s' !! p = Some x → vt_version x ≠ 0 → P p (vt_version x)) ∧
  ∀ p i, si_peer_infos db !! p = Some i →
    held (unreachable_peers_for_peer_info st) p (ri_version i) → held (held_infos s') p (ri_version i).
Proof.
  unfold commit_sync. set (s2 := update_remote_state_locked _ _ _).
  destruct (save_sent s2 rq now) as [s5|] eqn:E5; cbn [mbind option_bind]; [|done]. intros [= <-].
  set (s6 := update_last_sync_succ_timestamp s5 _).
  assert (saved_state s2 = after_response s rsp) as H2.
  { unfold s2, after_response. cbn. by destruct (rsp_session_id rsp =? dst_session_id s). }
  assert (∀ P : PeerId → Z → Prop,
    (∀ p x, dst_saved_peer_info_versions (after_response s rsp) !! p = Some x → vt_version x ≠ 0 → P p (vt_version x)) →
    (∀ i, i ∈ sent_infos rq → P (ri_peer_id i) (ri_version i)) →
    ∀ p x, saved_infos s5 !! p = Some x → vt_version x ≠ 0 → P p (vt_version x)) as H36.
  { intros P. rewrite <- H2. apply save_sent_spec in E5 as (_ & _ & _ & _ & _ & ->). unfold sent_infos. intros Hs Hi.
    destruct (rq_peer_infos rq); [|done]. by apply update_saved_infos_sound. }
  apply save_sent_spec in E5 as (D1 & D2 & D3 & D6 & D5 & _). rewrite H2 in D5, D6.
  destruct (request_missing_spec db s6 rsp) as (R1 & R2 & R3 & R4 & R5 & R6).
  assert (dst_peer_id s6 = dst_peer_id s5 ∧ dst_session_id s6 = dst_session_id s5 ∧
    state_revision s6 = state_revision s5 ∧ saved_infos s6 = saved_infos s5 ∧ held_infos s6 = held_infos s5 ∧
    cursor s6 = Some (Z.max (default (rq_next_last_sync_succ_timestamp rq) (cursor s5)) (rq_next_last_sync_succ_timestamp rq)))
    as (F1 & F2 & F3 & F4 & F5 & F6).
  { unfold s6, update_last_sync_succ_timestamp. destruct (cursor s5) as [old|] eqn:Eo; cbn;
      [destruct (Z.ltb_spec old (rq_next_last_sync_succ_timestamp rq)); cbn; rewrite ?Eo|];
      split_and!; try done; f_equal; lia. }
  split_and!.
  - by rewrite R1, F1, D1.
  - by rewrite R2, F2, D2.
  - rewrite R3, F3, D3. unfold s2. cbn. destruct (Z.eqb_spec (rsp_session_id rsp) (dst_session_id s)); cbn;
      [|by left]. case_match; [by left|by right].
  - rewrite R4, F6, D6. done.
  - intros P Hs Hi p x Hx. apply R5 in Hx. rewrite F4 in Hx. by eapply H36.
  - intros p i Hi Hh. apply R6; [done|]. by rewrite F5, D5.
Qed.

Lemma with_own_session l : with_link_session l (link_session l) = l.
Proof. by destruct l. Qed.

Lemma current_revision s snapshot :
  request_is_current_locked s snapshot = true → rs_state_revision snapshot = state_revision s.
Proof.
  unfold request_is_current_locked. intros [[_ H]%andb_true_iff _]%andb_true_iff. by apply Z.eqb_eq.
Qed.

Lemma step_answer l rq rsp current public now s' :
  link_inv l → (rq, rsp_session_id rsp) ∈ link_delivered l → rsp_error rsp = None →
  known_session (link_session l) rsp → state_revision (link_session l) < 2 ^ 64 - 1 →
  finish_sync (link_db l) (link_session l) current public rq (Some rsp) now = Some s' →
  link_inv (with_link_session l s').
Proof.
  intros I Hq He Hknown Hr E. unfold finish_sync in E.
  destruct (current && _) eqn:Ec; cbn in E; [|injection E as <-; by rewrite with_own_session].
  apply andb_true_iff in Ec as [_ Ec%current_revision]. rewrite He in E.
  destruct (inv_answers _ I rq _ Hq) as [Hid Hsent]. destruct (inv_sent _ I rq Hsent) as (_ & Hnext & Hcomplete).
  specialize (Hcomplete Ec). destruct (inv_ids _ I) as (_ & Hz & _).
  pose proof (wrapping_inc _ (inv_revision _ I) Hr) as W. destruct (inv_revision _ I) as [H0 _].
  apply commit_sync_spec in E as (C1 & C2 & C3 & C4 & C5 & C6).
  assert (∀ p v u, due l p v u → in_session l ∨ dst_session_id (link_session l) = 0 →
    held (held_infos (link_session l)) p v → held (held_infos s') p v) as Hheld.
  { intros p v u (i & Hi & <- & _) Hin Hh. apply C6; [done|]. unfold after_response.
    destruct (Z.eqb_spec (rsp_session_id rsp) (dst_session_id (link_session l))); [done|].
    destruct Hknown as [|[_ Hn]]; [done|]. rewrite Hn in Hh. by destruct Hh as (? & ? & _). }
  assert (in_session l ∨ dst_session_id (link_session l) = 0 ∨ dst_session_id s' ≠ link_remote_id l) as Hcase.
  { destruct Hknown as [Hk|[Hk _]]; [|by auto]. destruct (decide (dst_session_id s' = link_remote_id l)); [|by auto].
    left. unfold in_session. congruence. }
  apply inv_session; try done.
  - destruct C3 as [->|[-> _]]; lia.
  - right. by rewrite C2.
  - intros c. rewrite C4. intros [= <-]. unfold after_response. case_match; [|cbn; lia].
    destruct (cursor (link_session l)) as [old|] eqn:Eo; cbn; [|lia]. pose proof (inv_cursor _ I old Eo). lia.
  - rewrite C2. intros E. by rewrite E in Hid.
  - intros Hin. apply C5.
    + unfold after_response. case_match eqn:Eq; [|done]. apply Z.eqb_eq in Eq. intros p x. apply (inv_saved _ I).
      unfold in_session. congruence.
    + intros i. apply (inv_delivered _ I). by rewrite <- Hin, C2.
  - intros Hin p v u c D Hc Hu. rewrite C4 in Hc. injection Hc as <-.
    destruct (Z.lt_ge_cases u (rq_next_last_sync_succ_timestamp rq)) as [Hlt|Hge].
    + assert (in_session l ∨ dst_session_id (link_session l) = 0) as Hin' by tauto.
      destruct (Hcomplete Hin' p v u D Hlt) as [[_ ?]|[Hh|(i & Hi & <- & Hv)]]; [by left|right; by eapply Hheld|].
      left. eapply knows_le; [|done]. eapply (inv_delivered _ I); [|done]. by rewrite <- Hin, C2.
    + unfold after_response in Hu. destruct (Z.eqb_spec (rsp_session_id rsp) (dst_session_id (link_session l))) as [Eq|];
        [|cbn in Hu; lia]. assert (in_session l) as Hin' by (unfold in_session; congruence).
      destruct (cursor (link_session l)) as [old|] eqn:Eo; cbn in Hu; [|lia].
      destruct (inv_old _ I p v u old Hin' D Eo ltac:(lia)) as [|Hh]; [by left|]. right. exact (Hheld p v u D (or_introl Hin') Hh).
  - intros Er. destruct C3 as [Ew|[_ Eq]]; [rewrite Ew in Er; lia|]. split; [congruence|].
    intros p v u Hin D Hh. right. by eapply Hheld.
Qed.

Lemma step_failure l rq ret current public now s' :
  link_inv l → (∀ rsp, ret = Some rsp → rsp_error rsp ≠ None) → state_revision (link_session l) < 2 ^ 64 - 1 →
  finish_sync (link_db l) (link_session l) current public rq ret now = Some s' →
  link_inv (with_link_session l s').
Proof.
  intros I He Hr E. pose proof (inv_revision _ I) as [H0 H1].
  assert (∀ b, link_inv (with_link_session l (with_need_sync (link_session l) b))) as Hneed.
  { intros b. apply inv_same_saved; try done; cbn; lia. }
  unfold finish_sync in E. destruct (current && _); cbn in E; [|injection E as <-; by rewrite with_own_session].
  destruct ret as [rsp|]; [|by injection E as <-]. specialize (He rsp eq_refl).
  destruct (rsp_error rsp) as [err|]; [|done].
  destruct (_ && _).
  - injection E as <-. unfold clear_dst_initiator_if_session_unchanged_locked.
    destruct (Z.eqb_spec (dst_session_id (link_session l)) (rq_expected_dst_session_id rq)) as [<-|]; cbn [fst];
      [by apply remote_same_session|by rewrite with_own_session].
  - repeat case_match; try done; injection E as <-; [by rewrite with_own_session|done].
Qed.

Lemma step_inv l l' : link_inv l → link_step l l' → link_inv l'.
Proof.
  intros I Hs. destruct Hs; [by eapply step_change|by eapply step_remote_change|by eapply step_restart|
    by eapply step_request|by eapply step_deliver|by eapply step_answer|by eapply step_failure|
    by eapply step_inbound| | |].
  - pose proof (wrapping_inc _ (inv_revision _ I) ltac:(done)) as W. pose proof (inv_revision _ I) as [? _].
    apply inv_same_saved; try done; unfold update_initiator_flag; case_bool_decide; cbn; try done; lia.
  - unfold clear_stale_dst_initiator. repeat case_match; cbn [fst]; rewrite ?with_own_session; try done.
    by apply remote_same_session.
  - pose proof (inv_revision _ I) as [? ?]. apply inv_same_session; try done; cbn.
    + intros Hz. destruct (inv_first _ I Hz) as [-> _]. by rewrite map_filter_empty.
    + intros Hin p x [Hp _]%map_lookup_filter_Some. by apply (inv_saved _ I).
Qed.

Lemma reachable_inv l : link_reachable l → link_inv l.
Proof. induction 1; [by apply start_inv|by eapply step_inv]. Qed.

End LinkFacts.

(** *** The changes of the database

    Every call of LinkState.v changes the database as [LChange] allows. *)

Section Changes.

Context {HI : HashIter} (rest : list Z).

Lemma evolves_refl now db : evolves now db db.
Proof. by left. Qed.

Lemma evolves_trans now db1 db2 db3 : evolves now db1 db2 → evolves now db2 db3 → evolves now db1 db3.
Proof. intros E1 E2 p i Hi. destruct (E2 p i Hi) as [Ho|]; auto. Qed.

Lemma evolves_same now db db' : si_peer_infos db' = si_peer_infos db → evolves now db db'.
Proof. intros E p i. rewrite E. auto. Qed.

Lemma evolves_insert now db db' p i :
  si_peer_infos db' = <[p := i]> (si_peer_infos db) →
  0 <= ri_version i → (ri_version i ≠ 0 → ri_peer_id i = p) → ri_last_update i = Some now → evolves now db db'.
Proof.
  intros E Hv Hp Hu q j. rewrite E. intros [[<- <-]|[_ Hj]]%lookup_insert_Some; auto.
Qed.

Lemma inc_if_evolves now b db db' : evolves now db db' → evolves now db (inc_version_if b db').
Proof. by destruct b. Qed.

Lemma fill_evolves now db ps : evolves now db (fill_empty_peer_info rest db ps now).
Proof.
  unfold fill_empty_peer_info.
  assert (evolves now db (foldl (fill_one rest now) (db, false) (btree_iter ps)).1) as E.
  { apply (foldl_inv (λ _ st, evolves now db st.1)); [apply evolves_refl|]. intros _ p [db1 need] _ E1.
    eapply evolves_trans; [exact E1|]. unfold fill_one.
    destruct (si_peer_infos db1 !! p); cbn; [by case_match; apply evolves_same|].
    case_match; by apply (evolves_insert now _ _ p (new_route_peer_info rest (Some now))). }
  destruct (foldl _ _ _) as [db1 need]. by apply inc_if_evolves.
Qed.

Lemma row_evolves now db pv connected : evolves now db (update_conn_info_one_peer db pv connected now).1.
Proof. unfold update_conn_info_one_peer. case_match; by apply evolves_same. Qed.

Lemma row_loop_evolves now db pv connected need :
  evolves now db
    (let '(db, changed) := update_conn_info_one_peer (fill_empty_peer_info rest db connected now) pv connected now in
     (db, need || changed : bool)).1.
Proof.
  pose proof (row_evolves now (fill_empty_peer_info rest db connected now) pv connected) as E.
  destruct (update_conn_info_one_peer _ _ _ _). eapply evolves_trans; [apply fill_evolves|exact E].
Qed.

Lemma update_conn_info_evolves now db c db' : update_conn_info rest db c now = Some db' → evolves now db db'.
Proof.
  destruct c as [b|rows]; cbn.
  - unfold update_conn_info_with_bitmap. destruct (try_fold _ _ _) as [[db1 need]|] eqn:E; cbn; [|done].
    intros [= <-]. apply inc_if_evolves. eapply evolves_trans; [apply fill_evolves|].
    set (db0 := fill_empty_peer_info rest db _ now) in *.
    refine (try_fold_pres (λ _ (st : SyncedRouteInfo * bool), evolves now db0 st.1) _ _ (db0, false) (db1, need)
      (evolves_refl now db0) _ E).
    intros _ [i pv] [db2 need2] st' _ E2. cbn. destruct (bitmap_connected_peers b (Z.of_nat i)) as [s|]; cbn; [|done].
    pose proof (row_loop_evolves now db2 pv s need2) as E3. destruct (update_conn_info_one_peer _ _ _ _).
    intros [= <-]. eapply evolves_trans; [exact E2|exact E3].
  - unfold update_conn_info_with_list. intros [= <-].
    assert (evolves now db (foldl (update_conn_info_row rest now) (db, false) rows).1) as E.
    { apply (foldl_inv (λ _ st, evolves now db st.1)); [apply evolves_refl|]. intros _ row [db1 need] _ E1.
      unfold update_conn_info_row. destruct (pc_peer_id row) as [pv|]; [|done].
      eapply evolves_trans; [exact E1|apply row_loop_evolves]. }
    destruct (foldl _ _ _). by apply inc_if_evolves.
Qed.

Lemma update_infos_evolves my route dst now raws infos idx db need db' need' res :
  (∀ i, i ∈ infos → 0 <= ri_version i) →
  update_peer_infos_loop my route dst now raws infos idx db need = Some (db', need', res) → evolves now db db'.
Proof.
  revert idx db need. induction infos as [|info infos IH]; intros idx db need Hv E; cbn in E.
  { injection E as <- _ _. apply evolves_refl. }
  destruct (raws !! idx) as [raw|]; cbn in E; [|done].
  destruct (check_duplicate_peer_id _ _ _ _ _ _) as [[[]|err]|]; cbn in E; [| |done].
  2:{ injection E as <- _ _. apply evolves_refl. }
  assert (∀ i, i ∈ infos → 0 <= ri_version i) as Hv' by (intros i Hi; apply Hv; by right).
  case_match; [|by eapply IH]. eapply evolves_trans; [|by eapply IH].
  apply (evolves_insert now _ _ (ri_peer_id info) (info_with info (ri_version info) (Some now))); try done.
  cbn. apply Hv. by left.
Qed.

(** The calls that store infos store them under their own ids: [e] carries no negative
    version, and the own info its own id. *)
Definition well_formed (e : event) : Prop :=
  match e with
  | ReceiveInfos _ _ _ infos _ => ∀ i, i ∈ infos → 0 <= ri_version i
  | MyInfo my new => ri_peer_id new = my
  | _ => True
  end.

Lemma exec_evolves db e now db' ok : well_formed e → exec rest db e now = Some (db', ok) → evolves now db db'.
Proof.
  intros W E. destruct e as [my route dst infos raws|c|my new|my connected]; cbn in E, W.
  - unfold update_peer_infos in E. destruct (update_peer_infos_loop _ _ _ _ _ _ _ _ _) as [[[db1 need] res]|] eqn:El; cbn in E; [|done].
    apply update_infos_evolves in El; [|done]. destruct res; cbn in E; injection E as <- _; [by apply inc_if_evolves|done].
  - destruct (update_conn_info rest db c now) eqn:Ec; cbn in E; [|done]. injection E as <- _. by eapply update_conn_info_evolves.
  - injection E as <- _. unfold update_my_peer_info.
    set (r := match si_peer_infos db !! my with Some old => try_update_new_peer_info old new now | None => (new, true) end).
    assert (ri_peer_id r.1 = my) as Hid.
    { unfold r, try_update_new_peer_info. destruct (si_peer_infos db !! my); [|done]. by case_match. }
    destruct r as [new' need]. destruct need; cbn; [|apply evolves_refl].
    apply (evolves_insert now _ _ my (info_with new' (wrapping_add 32 (default 0 (ri_version <$> si_peer_infos db !! my)) 1) (Some now)));
      [done| |by intros; cbn in *|done]. apply Z.mod_pos_bound. lia.
  - injection E as <- _. unfold update_my_conn_info. case_match; cbn; [|apply fill_evolves].
    eapply evolves_trans; [apply fill_evolves|by apply evolves_same].
Qed.

Lemma remove_peers_evolves now db ps : evolves now db (remove_peers db ps).
Proof.
  unfold remove_peers. case_decide; [apply evolves_refl|]. intros p i. cbn. intros [Hi _]%map_lookup_filter_Some. by left.
Qed.

End Changes.


(** A delivered request brings the neighbour up to date: in any reachable state in
    which the node has no session of the neighbour yet or its current one, once the
    neighbour has accepted the infos of the request (or there were none to send) it
    knows every info of the database whose peer is reachable. *)
Theorem request_brings_up_to_date `{!HashIter} l reachable now o cached supports init s' rq remote :
  link_reachable l →
  dst_session_id (link_session l) = link_remote_id l ∨ dst_session_id (link_session l) = 0 →
  iterates ri_last_update (si_peer_infos (link_db l)) (info_order o) →
  start_sync reachable now (link_db l) o (link_session l) cached supports init = (s', rq) →
  (∃ my route raws t, update_peer_infos (link_remote l) my route (my_peer_id (link_session l))
     (default [] (rq ≫= rq_peer_infos)) raws t = Some (remote, Ok tt)) →
  ∀ p i, si_peer_infos (link_db l) !! p = Some i → ri_version i ≠ 0 →
    p ≠ dst_peer_id (link_session l) → reachable p = true → knows remote p (ri_version i).
Proof.
  intros R Hin Hit E (my & route & raws & t & Hd) p i Hp Hv Hne Hr. pose proof (reachable_inv l R) as I.
  apply update_peer_infos_knows in Hd as [A K]. apply start_sync_spec in E as [_ Erq].
  destruct (inv_stored _ I p i Hp) as (_ & _ & u & Hu & _).
  assert (due l p (ri_version i) u) as D by by exists i.
  destruct (due_handled l reachable now o p _ u I Hit D Hin) as [[_ Hk]|Hk]; [by eapply knows_advances|].
  rewrite Hr in Hk. destruct Hk as (j & Hj & <- & Hle). eapply knows_le; [|done]. apply K.
  destruct rq as [rq|]; cbn in *; [by destruct Erq as (-> & _)|by rewrite Erq in Hj].
Qed.

(** * Witnesses *)

Definition demo_info (p v u : Z) : RoutePeerInfo := mkPeerInfo p v 0 None None None None [] 0 (Some u) [].

Definition demo_database : SyncedRouteInfo := mkSynced {[3 := demo_info 3 1 5]} ∅ ∅ ∅ ∅ 1.
Definition empty_database : SyncedRouteInfo := mkSynced ∅ ∅ ∅ ∅ ∅ 0.
Definition demo_orders : Orders := mkOrders [(3, demo_info 3 1 5)] [].
Definition empty_bitmap : RouteConnBitmap := mkBitmap [] [].

Definition demo_request s : SyncRouteSession * option SyncRequest :=
  start_sync (λ _, true) 6 demo_database demo_orders s empty_bitmap false true.

Definition demo_link0 : Link :=
  mkLink demo_database (new_session 1 2 7 0) empty_database 20 5 [] [] {[20]}.

Definition demo_rq : SyncRequest :=
  mkRequest (mkReqSnapshot 7 0 false) 0 6 (Some [demo_info 3 1 5]) None None.

Definition demo_remote : SyncedRouteInfo := mkSynced {[3 := demo_info 3 1 7]} {[3 := []]} ∅ ∅ ∅ 1.

Definition demo_link2 : Link :=
  mkLink demo_database (demo_request (new_session 1 2 7 0)).1 demo_remote 20 6 [demo_rq] [(demo_rq, 20)] {[20]}.

Definition demo_answer : SyncRouteInfoResponse := mkResponse false 20 None [] [].

Definition demo_session : SyncRouteSession :=
  default (new_session 1 2 7 0) (finish_sync demo_database (link_session demo_link2) true false demo_rq (Some demo_answer) 8).

Lemma demo_orders_iterate : iterates ri_last_update (si_peer_infos demo_database) (info_order demo_orders).
Proof. split; [by vm_compute|]. repeat constructor. Qed.

Lemma demo_link0_reachable : link_reachable demo_link0.
Proof.
  constructor. split_and!; try done; [|by exists 1, 2, 7, 0].
  intros p i. unfold demo_link0, demo_database. cbn [link_db si_peer_infos].
  intros [<- <-]%lookup_singleton_Some. cbn. split_and!; try done. by exists 5.
Qed.

Lemma demo_reachable : link_reachable (with_link_session demo_link2 demo_session).
Proof.
  eapply link_next; [eapply link_next; [eapply link_next; [exact demo_link0_reachable|]|]|].
  - apply (LRequest _ 6 (λ _, true) demo_orders empty_bitmap false true (demo_request (new_session 1 2 7 0)).1 (Some demo_rq));
      [done|exact demo_orders_iterate|by vm_compute].
  - apply (LDeliver _ demo_rq 2 0 [[]] 7 demo_remote demo_remote); [by left|by vm_compute|apply advances_refl].
  - apply (LAnswer _ demo_rq demo_answer true false 8); try done; [by left|by right].
Qed.


Lemma request_brings_up_to_date_witness :
  knows demo_remote 3 1 ∧ ¬ knows empty_database 3 1.
Proof.
  split; [|intros (i & [=] & _)].
  apply (request_brings_up_to_date demo_link0 (λ _, true) 6 demo_orders empty_bitmap false true
    (demo_request (new_session 1 2 7 0)).1 (Some demo_rq) demo_remote demo_link0_reachable
    ltac:(right; reflexivity) demo_orders_iterate ltac:(vm_compute; reflexivity)
    ltac:(exists 2, 0, [[]], 7; vm_compute; reflexivity) 3 (demo_info 3 1 5)); vm_compute; congruence.
Defined.

(** The premise [known_session] is needed.  When the answer to a keep-alive comes from a
    new session of the neighbour, the acknowledgements are cleared, but the cursor is
    set behind all older infos in the same commit: they are not sent again. *)
Theorem new_session_skips_old_infos :
  let r := demo_request (update_initiator_flag demo_session true) in
  let rq := default demo_rq r.2 in
  is_Some r.2 ∧ rq_peer_infos rq = None ∧
  ∃ s2, finish_sync demo_database r.1 true false rq (Some (mkResponse false 30 None [] [])) 9 = Some s2 ∧
    dst_session_id s2 = 30 ∧ saved_infos s2 = ∅ ∧
    (build_route_info (λ _, true) 9 demo_database (info_order demo_orders) s2).2 = None.
Proof.
  intros r rq. split; [by eexists; vm_compute|]. split; [by vm_compute|].
  exists (default demo_session (finish_sync demo_database r.1 true false rq (Some (mkResponse false 30 None [] [])) 9)).
  split_and!; vm_compute; reflexivity.
Qed.

(** A request in the bitmap format takes the rows from the cached bitmap but its cursor
    from the clock: a row that was updated after the bitmap was cached is not sent,
    and once the bitmap is acknowledged it is never looked at again. *)
Theorem stale_bitmap_skips_row :
  let row := mkConn {[4]} 5 8 in
  let db := mkSynced ∅ ∅ {[1 := row]} ∅ ∅ 3 in
  let cached := mkBitmap [mkPeerIdVersion 1 4; mkPeerIdVersion 2 0] [0] in
  let r := start_sync (λ _, true) 9 db (mkOrders [] [(1, row)]) (new_session 1 2 7 0) cached false false in
  let rq := default demo_rq r.2 in
  is_Some r.2 ∧ rq_conn_info rq = Some (ConnBitmap cached) ∧
  ∃ s2, finish_sync db r.1 true false rq (Some (mkResponse false 20 None [] [])) 10 = Some s2 ∧
    (build_conn_info (λ _, true) 10 db [(1, row)] s2 cached false).2 = None.
Proof.
  intros row db cached r rq. split; [by eexists; vm_compute|]. split; [by vm_compute|].
  exists (default demo_session (finish_sync db r.1 true false rq (Some (mkResponse false 20 None [] [])) 10)).
  split; vm_compute; reflexivity.
Qed.
