(* ===== verification/IpReassembler.v ===== *)
(** * IPv4 fragmentation and reassembly

    Models easytier-core/src/gateway/proxy/ip_reassembler.rs: [compose_ipv4_packet], which
    splits the payload of a buffer into IPv4 packets inside that same buffer, and
    [IpReassembler], which puts fragments together again.

    The IPv4 header of smoltcp is third-party: the class [Ipv4Wire] has what its setters
    write and its accessors read, with the law that a written packet is read back.
    Lengths and offsets of fragments are [u16] and wrap as in a release build.

    The theorems say that composing never panics and cuts the payload into consecutive
    pieces, and that the reassembler returns the payload exactly when the last missing
    piece of it arrives, in any order and with repetitions. *)

From stdpp Require Import base gmap list numbers sorting.
From Stdlib Require Import ZArith Lia.
From S2P Require Import Prelude.
Local Open Scope Z_scope.

(** ** IPv4 packets *)

(** What [compose_ipv4_packet] sets; version, header length, hop limit and the zero
    fields are constants. *)
Record Ipv4Fields : Type := mkFields {
  f_total_len : Z;
  f_ident : Z;
  f_dont_frag : bool;
  f_more_frags : bool;
  f_frag_offset : Z;
  f_src : Z;
  f_dst : Z;
  f_next_header : Z
}.

(** What the accessors of a packet return. *)
Record Ipv4View : Type := mkView {
  v_src : Z;
  v_dst : Z;
  v_ident : Z;
  v_frag_offset : Z;
  v_more_frags : bool;
  v_total_len : Z;
  v_header_len : Z;
  v_payload : list Z
}.

Definition IPV4_HEADER_LEN : Z := 20.

(** The values the fields can hold; the offset is stored in units of eight bytes. *)
Definition fields_fit (f : Ipv4Fields) : Prop :=
  is_uint 16 (f_total_len f) ∧ is_uint 16 (f_ident f) ∧ is_uint 16 (f_frag_offset f) ∧
  f_frag_offset f mod 8 = 0 ∧ is_uint 32 (f_src f) ∧ is_uint 32 (f_dst f).

Class Ipv4Wire := {
  write_header : Ipv4Fields → list Z;
  view : list Z → Ipv4View;
  write_header_len f : len (write_header f) = IPV4_HEADER_LEN;
  view_written f payload :
    fields_fit f → f_total_len f = IPV4_HEADER_LEN + len payload →
    view (write_header f ++ payload) =
      mkView (f_src f) (f_dst f) (f_ident f) (f_frag_offset f) (f_more_frags f) (f_total_len f) IPV4_HEADER_LEN payload
}.

(** ** Composing *)

Section Compose.

Context `{!Ipv4Wire} {S E : Type} (cb : S → list Z → S * result unit E).

(** The arguments besides the buffer. *)
Record ComposeIpv4PacketArgs : Type := mkArgs {
  src_v4 : Z;
  dst_v4 : Z;
  next_protocol : Z;
  payload_len : Z;
  payload_mtu : Z;
  ip_id : Z
}.

(** The header fields of the piece of [fragment_len] bytes at [fragment_offset]. *)
Definition piece_fields (args : ComposeIpv4PacketArgs) (total_pieces cur_piece fragment_offset fragment_len : Z)
    : Ipv4Fields :=
  let fragmented := 1 <? total_pieces in
  mkFields (wrap 16 (fragment_len + IPV4_HEADER_LEN)) (ip_id args) (negb fragmented)
    (fragmented && negb (cur_piece =? total_pieces - 1))
    (if fragmented then wrap 16 fragment_offset else 0)
    (src_v4 args) (dst_v4 args) (next_protocol args).

(** The loop; the packet is built in place, over the bytes of the previous pieces. *)
Fixpoint compose_loop (fuel : nat) (args : ComposeIpv4PacketArgs) (total_pieces : Z) (buf : list Z)
    (buf_offset fragment_offset cur_piece : Z) (st : S) : option (S * result unit E) :=
  match fuel with
  | O => None
  | Datatypes.S fuel =>
      if fragment_offset <? payload_len args then
        let next_fragment_offset := Z.min (fragment_offset + payload_mtu args) (payload_len args) in
        let fragment_len := next_fragment_offset - fragment_offset in
        let packet_len := fragment_len + IPV4_HEADER_LEN in
        let header := write_header (piece_fields args total_pieces cur_piece fragment_offset fragment_len) in
        buf ← write_range buf buf_offset (buf_offset + IPV4_HEADER_LEN) header;
        packet ← slice_range buf buf_offset (buf_offset + packet_len);
        let '(st, res) := cb st packet in
        match res with
        | Err e => Some (st, Err e)
        | Ok _ => compose_loop fuel args total_pieces buf (buf_offset + fragment_len) next_fragment_offset
                    (cur_piece + 1) st
        end
      else Some (st, Ok tt)
  end.

(** A division by zero panics. *)
Definition compose_ipv4_packet (args : ComposeIpv4PacketArgs) (buf : list Z) (st : S) : option (S * result unit E) :=
  if payload_mtu args =? 0 then None
  else compose_loop (Z.to_nat (payload_len args) + 1) args (div_ceil (payload_len args) (payload_mtu args))
         buf 0 0 0 st.

End Compose.

(** ** Reassembling *)

Record IpReassemblerKey : Type := mkKey { k_source : Z; k_destination : Z; k_id : Z }.

#[export] Instance key_eq_dec : EqDecision IpReassemblerKey.
Proof. solve_decision. Defined.

#[export] Instance key_countable : Countable IpReassemblerKey.
Proof.
  refine (inj_countable' (λ k, (k_source k, k_destination k, k_id k)) (λ t, mkKey t.1.1 t.1.2 t.2) _).
  by intros [].
Defined.

Record IpFragment : Type := mkFragment { offset : Z; data : list Z }.

#[export] Instance fragment_eq_dec : EqDecision IpFragment.
Proof. solve_decision. Defined.

Record IpPacket : Type := mkPacket { total_length : option Z; fragments : list IpFragment }.

Definition new_packet : IpPacket := mkPacket None [].

(** [data.len() as u16]. *)
Definition data_len (f : IpFragment) : Z := wrap 16 (len (data f)).

Definition fragment_end (f : IpFragment) : Z := wrapping_add 16 (offset f) (data_len f).

Definition overlaps (existing fragment : IpFragment) : bool :=
  ((offset existing <=? offset fragment) && (offset fragment <? fragment_end existing)) ||
  ((offset fragment <=? offset existing) && (offset existing <? fragment_end fragment)).

Definition add_to_packet (p : IpPacket) (fragment : IpFragment) : IpPacket :=
  if existsb (λ existing, overlaps existing fragment) (fragments p) then p
  else mkPacket (total_length p) (fragments p ++ [fragment]).

Definition set_total_length (p : IpPacket) (n : Z) : IpPacket := mkPacket (Some n) (fragments p).

Definition offset_le (f g : IpFragment) : Prop := offset f <= offset g.

#[export] Instance offset_le_dec : RelDecision offset_le.
Proof. intros f g. unfold offset_le. apply _. Defined.

(** The loop of [assemble] over the sorted fragments. *)
Fixpoint join (off : Z) (ret : list Z) (fs : list IpFragment) : option (Z * list Z) :=
  match fs with
  | [] => Some (off, ret)
  | f :: fs => if negb (offset f =? off) then None
               else join (wrapping_add 16 off (data_len f)) (ret ++ data f) fs
  end.

(** [assemble] sorts the stored fragments also when it fails. *)
Definition assemble (p : IpPacket) : IpPacket * option (list Z) :=
  match total_length p with
  | None => (p, None)
  | Some total =>
      let sorted := merge_sort offset_le (fragments p) in
      (mkPacket (Some total) sorted,
       r ← join 0 [] sorted; if r.1 =? total then Some r.2 else None)
  end.

Record IpReassemblerValue : Type := mkValue { packet : IpPacket; timestamp : Z }.

Record IpReassembler : Type := mkReassembler {
  packets : gmap IpReassemblerKey IpReassemblerValue;
  timeout : Z
}.

Implicit Types r : IpReassembler.

Definition new_reassembler (timeout : Z) : IpReassembler := mkReassembler ∅ timeout.

Definition is_packet_fragmented (v : Ipv4View) : bool := negb (v_frag_offset v =? 0) || v_more_frags v.

Definition is_last_fragment (v : Ipv4View) : bool := negb (v_more_frags v).

Definition key_of (v : Ipv4View) : IpReassemblerKey := mkKey (v_src v) (v_dst v) (v_ident v).

Definition add_fragment r (v : Ipv4View) (now : Z) : IpReassembler * option (list Z) :=
  let total := wrapping_sub 16 (v_total_len v) (v_header_len v) in
  if negb (total =? wrap 16 (len (v_payload v))) then (r, None)
  else
    let fragment := mkFragment (v_frag_offset v) (v_payload v) in
    let value := default (mkValue new_packet now) (packets r !! key_of v) in
    let p := if is_last_fragment v
             then set_total_length (packet value) (wrapping_add 16 total (offset fragment)) else packet value in
    let '(p, assembled) := assemble (add_to_packet p fragment) in
    match assembled with
    | Some bytes => (mkReassembler (delete (key_of v) (packets r)) (timeout r), Some bytes)
    | None => (mkReassembler (<[key_of v := mkValue p now]> (packets r)) (timeout r), None)
    end.

Definition remove_expired_packets r (now : Z) : IpReassembler :=
  mkReassembler (filter (λ kv, now - timestamp kv.2 <= timeout r) (packets r)) (timeout r).

(** ** Specification *)

(** The consecutive pieces of at most [mtu] bytes; [fuel] bounds their number. *)
Fixpoint pieces (fuel : nat) (mtu : nat) (off : Z) (payload : list Z) : list IpFragment :=
  match fuel, payload with
  | Datatypes.S fuel, _ :: _ =>
      mkFragment off (take mtu payload) :: pieces fuel mtu (off + len (take mtu payload)) (drop mtu payload)
  | _, _ => []
  end.

Definition all_pieces (mtu : Z) (payload : list Z) : list IpFragment :=
  pieces (length payload) (Z.to_nat mtu) 0 payload.

(** The packet of the piece number [k]. *)
Definition piece_packet `{!Ipv4Wire} (args : ComposeIpv4PacketArgs) (k : nat) (f : IpFragment) : list Z :=
  write_header (piece_fields args (div_ceil (payload_len args) (payload_mtu args)) (Z.of_nat k)
                  (offset f) (len (data f))) ++ data f.

(** The packets of consecutive pieces, the first with number [k]. *)
Fixpoint piece_packets `{!Ipv4Wire} (args : ComposeIpv4PacketArgs) (k : nat) (fs : list IpFragment) : list (list Z) :=
  match fs with
  | [] => []
  | f :: fs => piece_packet args k f :: piece_packets args (S k) fs
  end.

(** Packets handed to a callback, up to its first error. *)
Fixpoint hand_over {S E} (cb : S → list Z → S * result unit E) (st : S) (ps : list (list Z)) : S * result unit E :=
  match ps with
  | [] => (st, Ok tt)
  | p :: ps =>
      let '(st, res) := cb st p in
      match res with Err e => (st, Err e) | Ok _ => hand_over cb st ps end
  end.

(** Packets with the times of their arrivals; the outputs in order. *)
Fixpoint receive `{!Ipv4Wire} r (ds : list (list Z * Z)) : IpReassembler * list (option (list Z)) :=
  match ds with
  | [] => (r, [])
  | (p, now) :: ds =>
      let '(r, o) := add_fragment r (view p) now in
      let '(r, os) := receive r ds in
      (r, o :: os)
  end.

(** * Properties *)

Lemma StronglySorted_weaken {A} (R R' : A → A → Prop) l :
  (∀ x y, R x y → R' x y) → StronglySorted R l → StronglySorted R' l.
Proof. intros HR. induction 1 as [|x l S IH F]; constructor; [done|]. by eapply Forall_impl; [exact F|apply HR]. Qed.

Definition weight (fs : list IpFragment) : Z := len (concat (map data fs)).

Lemma weight_cons f fs : weight (f :: fs) = len (data f) + weight fs.
Proof. unfold weight. cbn. apply len_app. Qed.

Lemma weight_app fs gs : weight (fs ++ gs) = weight fs + weight gs.
Proof. unfold weight. by rewrite map_app, concat_app, len_app. Qed.

Lemma weight_perm fs gs : fs ≡ₚ gs → weight fs = weight gs.
Proof. induction 1; rewrite ?weight_cons; lia. Qed.

Lemma weight_nonneg fs : 0 <= weight fs.
Proof. apply len_nonneg. Qed.

(** [f] ends where [g] begins, or before. *)
Definition before (f g : IpFragment) : Prop := offset f + len (data f) <= offset g.

Section Pieces.

Context (mtu : nat) (Hmtu : (0 < mtu)%nat).

Lemma len_take (l : list Z) : l ≠ [] → 0 < len (take mtu l).
Proof. intros Hl. unfold len. rewrite length_take. destruct l; [done|]. cbn [length]. lia. Qed.

Lemma len_take_drop (l : list Z) : len (take mtu l) + len (drop mtu l) = len l.
Proof. rewrite <- len_app. by rewrite take_drop. Qed.

Lemma pieces_bounds fuel off payload f :
  f ∈ pieces fuel mtu off payload → off <= offset f ∧ 0 < len (data f) ∧ offset f + len (data f) <= off + len payload.
Proof.
  revert off payload. induction fuel as [|fuel IH]; intros off payload; [by intros []%not_elem_of_nil|].
  cbn. destruct payload as [|x payload]; [by intros []%not_elem_of_nil|].
  set (l := x :: payload). pose proof (len_take l ltac:(done)). pose proof (len_take_drop l).
  pose proof (len_nonneg (drop mtu l)).
  intros [->|Hf]%elem_of_cons; [cbn; lia|]. specialize (IH _ _ Hf). lia.
Qed.

Lemma pieces_sorted fuel off payload : StronglySorted before (pieces fuel mtu off payload).
Proof.
  revert off payload. induction fuel as [|fuel IH]; intros off payload; [constructor|].
  cbn. destruct payload as [|x payload]; [constructor|]. constructor; [apply IH|].
  apply Forall_forall. intros f Hf. apply pieces_bounds in Hf. unfold before. cbn [offset data]. lia.
Qed.

Lemma concat_pieces fuel off payload :
  (length payload <= fuel)%nat → concat (map data (pieces fuel mtu off payload)) = payload.
Proof.
  revert off payload. induction fuel as [|fuel IH]; intros off payload Hf;
    [destruct payload; [done|cbn in Hf; lia]|].
  cbn. destruct payload as [|x payload]; [done|]. cbn [map concat data].
  rewrite IH; [apply take_drop|]. rewrite length_drop. cbn in *. lia.
Qed.

Lemma join_pieces fuel off ret payload :
  (length payload <= fuel)%nat → 0 <= off → off + len payload < 2 ^ 16 →
  join off ret (pieces fuel mtu off payload) = Some (off + len payload, ret ++ payload).
Proof.
  revert off ret payload. induction fuel as [|fuel IH]; intros off ret payload Hf H0 Hlen.
  { destruct payload; [|cbn in Hf; lia]. cbn. by rewrite app_nil_r, Z.add_0_r. }
  cbn [pieces]. destruct payload as [|x payload].
  { cbn. by rewrite app_nil_r, Z.add_0_r. }
  set (l := x :: payload) in *. pose proof (len_take l ltac:(done)). pose proof (len_take_drop l).
  pose proof (len_nonneg (drop mtu l)).
  cbn [join offset data]. rewrite Z.eqb_refl. cbn [negb]. unfold data_len, wrapping_add, wrap. cbn [data].
  rewrite (Z.mod_small (len (take mtu l))) by lia. rewrite Z.mod_small by lia.
  rewrite IH; [| |lia|lia].
  - by rewrite <- app_assoc, take_drop, <- Z.add_assoc, len_take_drop.
  - rewrite length_drop. unfold l in *. cbn in *. lia.
Qed.

End Pieces.

(** What the sum of the lengths tells of a successful assembly. *)
Lemma join_weight off ret fs o bytes :
  0 <= off → off + weight fs < 2 ^ 16 → join off ret fs = Some (o, bytes) → o = off + weight fs.
Proof.
  revert off ret. induction fs as [|f fs IH]; intros off ret H0 Hw; cbn.
  { intros [= <- _]. unfold weight, len. cbn. lia. }
  rewrite weight_cons in *. pose proof (weight_nonneg fs). pose proof (len_nonneg (data f)).
  destruct (negb (offset f =? off)); [done|]. unfold data_len, wrapping_add, wrap.
  rewrite (Z.mod_small (len (data f))) by lia. rewrite Z.mod_small by lia.
  intros Hj%IH; lia.
Qed.

(** ** Composing *)

Lemma piece_packets_lookup `{!Ipv4Wire} args k fs i :
  piece_packets args k fs !! i = piece_packet args (k + i) <$> fs !! i.
Proof.
  revert k i. induction fs as [|f fs IH]; intros k [|i]; cbn; try done; [by rewrite Nat.add_0_r|].
  rewrite IH. by rewrite Nat.add_succ_r.
Qed.

Lemma piece_packets_length `{!Ipv4Wire} args k fs : length (piece_packets args k fs) = length fs.
Proof. revert k. induction fs as [|f fs IH]; intros k; cbn; [done|by rewrite IH]. Qed.

(** The buffer before a piece: what the previous pieces left, room for a header, the bytes
    not yet sent. *)
Lemma compose_loop_pieces `{!Ipv4Wire} {S E} (cb : S → list Z → S * result unit E) args n pre h rem tl off k st :
  0 < payload_mtu args → (length rem <= n)%nat → len h = IPV4_HEADER_LEN → 0 <= off → payload_len args = off + len rem →
  compose_loop cb (n + 1) args (div_ceil (payload_len args) (payload_mtu args)) (pre ++ h ++ rem ++ tl)
    (len pre) off (Z.of_nat k) st =
  Some (hand_over cb st (piece_packets args k (pieces n (Z.to_nat (payload_mtu args)) off rem))).
Proof.
  intros Hm. revert pre h rem off k st. induction n as [|n IH]; intros pre h rem off k st Hn Hh Ho Hp.
  { destruct rem; [|cbn in Hn; lia]. cbn. unfold len in Hp. cbn in Hp. by rewrite (proj2 (Z.ltb_ge _ _)) by lia. }
  cbn [Nat.add compose_loop]. destruct rem as [|x rem].
  { unfold len in Hp. cbn in Hp. by rewrite (proj2 (Z.ltb_ge _ _)) by lia. }
  set (l := x :: rem) in *. set (m := Z.to_nat (payload_mtu args)).
  pose proof (len_take m ltac:(lia) l ltac:(done)) as Hpos. pose proof (len_take_drop m l) as Htd. pose proof (len_nonneg (drop m l)).
  rewrite (proj2 (Z.ltb_lt _ _)) by lia.
  assert (Z.min (off + payload_mtu args) (payload_len args) = off + len (take m l)) as ->.
  { unfold len. rewrite length_take. unfold len in Hp. lia. }
  replace (off + len (take m l) - off) with (len (take m l)) by lia.
  set (hd := write_header _). assert (len hd = IPV4_HEADER_LEN) as Hhd by apply write_header_len.
  rewrite write_range_app by (rewrite ?Hh, ?Hhd; done || lia). cbn [mbind option_bind].
  assert (l = take m l ++ drop m l) as El by by rewrite take_drop.
  assert (hd ++ l ++ tl = (hd ++ take m l) ++ drop m l ++ tl) as -> by (rewrite El at 1; by rewrite <- !app_assoc).
  rewrite slice_range_app by (rewrite ?len_app; lia). cbn [mbind option_bind].
  replace (pieces (Datatypes.S n) m off l) with (mkFragment off (take m l) :: pieces n m (off + len (take m l)) (drop m l)) by done.
  cbn [piece_packets hand_over]. unfold piece_packet at 1. cbn [offset data]. fold hd.
  destruct (cb st (hd ++ take m l)) as [st' [[]|e]]; [|done].
  pose (fl := length (take m l)). assert (fl = length (take m l)) as Hfl by done. clearbody fl.
  assert (hd ++ take m l = take fl (hd ++ take m l) ++ drop fl (hd ++ take m l)) as Es by by rewrite take_drop.
  assert (len (drop fl (hd ++ take m l)) = IPV4_HEADER_LEN) as Hh'.
  { unfold len, IPV4_HEADER_LEN in *. rewrite length_drop, length_app. lia. }
  assert (len (take fl (hd ++ take m l)) = len (take m l)) as Hl'.
  { unfold len in *. rewrite (length_take _ fl), length_app. lia. }
  rewrite Es, <- !app_assoc, app_assoc.
  replace (len pre + len (take m l)) with (len (pre ++ take fl (hd ++ take m l))) by (rewrite len_app; lia).
  replace (Z.of_nat k + 1) with (Z.of_nat (Datatypes.S k)) by lia.
  apply IH; [|done|lia|lia]. rewrite length_drop. unfold l in *. cbn in *. lia.
Qed.

Lemma receive_app `{!Ipv4Wire} r ds ds' :
  receive r (ds ++ ds') =
  let '(r1, os) := receive r ds in let '(r2, os') := receive r1 ds' in (r2, os ++ os').
Proof.
  revert r. induction ds as [|[p now] ds IH]; intros r; cbn; [by destruct (receive r ds')|].
  destruct (add_fragment r (view p) now) as [r1 o]. rewrite IH.
  destruct (receive r1 ds) as [r2 os]. by destruct (receive r2 ds').
Qed.

(** ** Reassembly of one payload *)

Section Reassembly.

Context (mtu : Z) (payload : list Z).
Context (Hmtu : 0 < mtu) (Hne : payload ≠ []) (Hlen : len payload <= 65515).

Abbreviation fs := (all_pieces mtu payload).

Local Lemma Hmtu' : (0 < Z.to_nat mtu)%nat.
Proof. lia. Qed.

Lemma all_pieces_join : join 0 [] fs = Some (len payload, payload).
Proof. unfold all_pieces. rewrite join_pieces; [done|exact Hmtu'|done|lia|lia]. Qed.

Lemma all_pieces_weight : weight fs = len payload.
Proof. unfold weight, all_pieces. by rewrite (concat_pieces _ Hmtu'). Qed.

Lemma piece_bounds f : f ∈ fs → 0 <= offset f ∧ 0 < len (data f) ∧ offset f + len (data f) <= len payload.
Proof. apply pieces_bounds. exact Hmtu'. Qed.

Lemma piece_end f : f ∈ fs → data_len f = len (data f) ∧ fragment_end f = offset f + len (data f).
Proof.
  intros Hf%piece_bounds. unfold fragment_end, data_len, wrapping_add, wrap.
  by rewrite !Z.mod_small by lia.
Qed.

(** Distinct pieces do not overlap, and a piece overlaps itself. *)
Lemma pieces_overlap f g : f ∈ fs → g ∈ fs → overlaps f g = bool_decide (f = g).
Proof.
  intros Hf Hg. pose proof (piece_bounds f Hf). pose proof (piece_bounds g Hg).
  unfold overlaps. rewrite (proj2 (piece_end f Hf)), (proj2 (piece_end g Hg)).
  assert (f = g ∨ before f g ∨ before g f) as Hor.
  { pose proof (pieces_sorted (Z.to_nat mtu) Hmtu' (length payload) 0 payload) as S. fold fs in S.
    revert Hf Hg. clear -S. induction S as [|x l S IH F]; [by intros []%not_elem_of_nil|].
    rewrite Forall_forall in F. intros [->|Hf]%elem_of_cons [->|Hg]%elem_of_cons; auto. }
  unfold before in Hor. case_bool_decide as E.
  - subst g. apply orb_true_iff. left. apply andb_true_iff. split; [apply Z.leb_le|apply Z.ltb_lt]; lia.
  - destruct Hor as [|Hor]; [done|]. apply orb_false_iff.
    split; apply andb_false_iff; rewrite Z.leb_gt, Z.ltb_ge; lia.
Qed.

Lemma fs_NoDup : NoDup fs.
Proof.
  pose proof (pieces_sorted (Z.to_nat mtu) Hmtu' (length payload) 0 payload) as S. fold fs in S.
  assert (∀ f, f ∈ fs → 0 < len (data f)) as Hpos by (intros f Hf%piece_bounds; lia).
  revert Hpos. clear -S. induction S as [|x l S IH F]; intros Hpos; constructor.
  - intros Hx. rewrite Forall_forall in F. specialize (F x Hx). unfold before in F.
    specialize (Hpos x ltac:(left)). lia.
  - apply IH. intros f Hf. apply Hpos. by right.
Qed.

Definition is_last (f : IpFragment) : bool := offset f + len (data f) =? len payload.

(** The entry of the payload after the pieces [seen]. *)
Definition holds (p : IpPacket) (seen : list IpFragment) : Prop :=
  NoDup (fragments p) ∧ (∀ f, f ∈ fragments p ↔ f ∈ seen) ∧
  total_length p = if existsb is_last seen then Some (len payload) else None.

Lemma last_piece_exists : ∃ f, f ∈ fs ∧ is_last f = true.
Proof.
  assert (∀ fuel off l, l ≠ [] → (length l <= fuel)%nat →
    ∃ f, f ∈ pieces fuel (Z.to_nat mtu) off l ∧ offset f + len (data f) = off + len l) as H.
  { intros fuel. induction fuel as [|fuel IH]; intros off l Hl Hf;
      [destruct l; [done|cbn in Hf; lia]|].
    destruct l as [|x l]; [done|]. cbn [pieces]. set (l0 := x :: l) in *.
    pose proof (len_take_drop (Z.to_nat mtu) l0). pose proof (len_take _ Hmtu' l0 ltac:(done)).
    destruct (drop (Z.to_nat mtu) l0) as [|y l1] eqn:Ed.
    - eexists. split; [by left|]. cbn [offset data]. unfold len in *. cbn [length] in *. lia.
    - destruct (IH (off + len (take (Z.to_nat mtu) l0)) (y :: l1)) as (f & Hin & Ef); [done| |].
      + rewrite <- Ed, length_drop. cbn in *. lia.
      + exists f. split; [by right|]. lia. }
  destruct (H (length payload) 0 payload Hne ltac:(lia)) as (f & Hf & E). exists f. split; [done|].
  unfold is_last. apply Z.eqb_eq. lia.
Qed.

Lemma sorted_complete l : l ≡ₚ fs → merge_sort offset_le l = fs.
Proof.
  intros Hl. apply (StronglySorted_unique_strong offset_le).
  - intros f g Hf%(elem_of_Permutation_proper _ _ _ (merge_sort_Permutation offset_le l))%(elem_of_Permutation_proper _ _ _ Hl) Hg H1 H2.
    pose proof (pieces_overlap f g Hf Hg) as Ho. pose proof (piece_bounds f Hf). unfold offset_le in *.
    case_bool_decide; [done|]. unfold overlaps in Ho. rewrite (proj2 (piece_end f Hf)) in Ho.
    apply orb_false_iff in Ho as [Ho _]. apply andb_false_iff in Ho. rewrite Z.leb_gt, Z.ltb_ge in Ho. lia.
  - apply StronglySorted_merge_sort; unfold offset_le; [intros ???; lia|intros ??; lia].
  - pose proof (pieces_sorted (Z.to_nat mtu) Hmtu' (length payload) 0 payload) as S. fold fs in S.
    revert S. apply StronglySorted_weaken. intros f g H. unfold before in H. pose proof (len_nonneg (data f)).
    unfold offset_le. lia.
  - by rewrite merge_sort_Permutation.
Qed.

Lemma incomplete_weight l g : NoDup l → (∀ f, f ∈ l → f ∈ fs) → g ∈ fs → g ∉ l → weight l < len payload.
Proof.
  intros N Hin Hg Hn. assert (g :: l ⊆+ fs) as [k Hk]%submseteq_Permutation.
  { apply NoDup_submseteq; [by constructor|]. intros f [->|Hf]%elem_of_cons; auto. }
  apply weight_perm in Hk. rewrite all_pieces_weight, weight_app, weight_cons in Hk.
  pose proof (piece_bounds g Hg). pose proof (weight_nonneg k). lia.
Qed.

(** Whether all pieces have been seen. *)
Definition complete (seen : list IpFragment) : bool := forallb (λ f, bool_decide (f ∈ seen)) fs.

Lemma complete_true seen : complete seen = true ↔ ∀ f, f ∈ fs → f ∈ seen.
Proof.
  unfold complete. rewrite forallb_forall. setoid_rewrite bool_decide_eq_true.
  split; intros H f Hf; apply H; by apply list_elem_of_In.
Qed.

Lemma assemble_holds p seen :
  (∀ f, f ∈ seen → f ∈ fs) → holds p seen →
  holds (assemble p).1 seen ∧ (assemble p).2 = if complete seen then Some payload else None.
Proof.
  intros Hseen (N & Hin & T). unfold assemble. rewrite T. destruct (existsb is_last seen) eqn:El.
  - cbn. split.
    { split; [|split]; cbn.
      - by rewrite merge_sort_Permutation.
      - intros f. by rewrite merge_sort_Permutation.
      - by rewrite El. }
    destruct (complete seen) eqn:Ec.
    + rewrite sorted_complete, all_pieces_join; [cbn; by rewrite Z.eqb_refl|].
      apply NoDup_Permutation; [done|exact fs_NoDup|]. intros f. rewrite Hin.
      rewrite complete_true in Ec. split; auto.
    + destruct (join 0 [] _) as [[o bytes]|] eqn:Ej; [|done]. cbn.
      assert (∃ g, g ∈ fs ∧ g ∉ seen) as (g & Hg & Hn).
      { apply not_true_iff_false in Ec. rewrite complete_true in Ec.
        destruct (decide (Forall (λ f, f ∈ seen) fs)) as [Hf|Hf]; [rewrite Forall_forall in Hf; done|].
        apply not_Forall_Exists in Hf; [|intros ?; apply _]. by apply Exists_exists in Hf. }
      assert (weight (fragments p) < len payload) as Hw.
      { apply (incomplete_weight _ g); try done; [|by rewrite Hin]. intros f Hf. by apply Hseen, Hin. }
      apply join_weight in Ej; [|lia|]; rewrite (weight_perm _ (fragments p)) in * by apply merge_sort_Permutation; [|lia].
      destruct (Z.eqb_spec o (len payload)); [lia|done].
  - split; [split; [done|split; [done|by rewrite El]]|]. cbn. destruct (complete seen) eqn:Ec; [|done].
    rewrite complete_true in Ec. destruct last_piece_exists as (f & Hf & Hl). exfalso.
    apply not_true_iff_false in El. apply El, existsb_exists. exists f. split; [|done]. by apply list_elem_of_In, Ec.
Qed.

Lemma add_holds p seen f :
  (∀ g, g ∈ seen → g ∈ fs) → f ∈ fs → holds p seen →
  holds (add_to_packet (if is_last f then set_total_length p (len payload) else p) f) (seen ++ [f]).
Proof.
  intros Hseen Hf (N & Hin & T).
  set (p1 := if is_last f then _ else p).
  assert (fragments p1 = fragments p ∧ total_length p1 = if existsb is_last (seen ++ [f]) then Some (len payload) else None) as [F1 T1].
  { rewrite existsb_app. cbn. rewrite orb_false_r. unfold p1. destruct (is_last f); cbn; [by rewrite orb_true_r|].
    by rewrite orb_false_r. }
  assert (existsb (λ g, overlaps g f) (fragments p1) = bool_decide (f ∈ seen)) as Ho.
  { rewrite F1. apply eq_iff_eq_true. rewrite existsb_exists, bool_decide_eq_true. split.
    - intros (g & Hg & Hov). apply list_elem_of_In, Hin in Hg. rewrite pieces_overlap in Hov by auto.
      apply bool_decide_eq_true in Hov. by subst.
    - intros Hs. exists f. split; [by apply list_elem_of_In, Hin|]. rewrite pieces_overlap by done. by apply bool_decide_eq_true. }
  unfold add_to_packet. rewrite Ho. case_bool_decide as Hs.
  - split; [by rewrite F1|]. split; [|done]. intros g. rewrite F1, Hin, elem_of_app, list_elem_of_singleton.
    split; [by left|]. by intros [?| ->].
  - split; [|split]; cbn; rewrite ?F1; [|intros g; by rewrite !elem_of_app, Hin|done].
    apply NoDup_app. split; [done|]. split; [|apply NoDup_singleton].
    intros g Hg. rewrite list_elem_of_singleton. intros ->. by apply Hs, Hin.
Qed.

(** ** The packets of the pieces *)

Lemma pieces_lookup fuel (m : nat) off (l : list Z) k f :
  (0 < m)%nat → pieces fuel m off l !! k = Some f →
  offset f = off + Z.of_nat k * Z.of_nat m ∧ len (data f) = Z.min (Z.of_nat m) (len l - Z.of_nat k * Z.of_nat m) ∧
  Z.of_nat k * Z.of_nat m < len l.
Proof.
  intros Hm. revert off l k. induction fuel as [|fuel IH]; intros off l k; [done|].
  cbn [pieces]. destruct l as [|x l]; [done|]. set (l0 := x :: l).
  pose proof (len_take_drop m l0). pose proof (len_take m Hm l0 ltac:(done)).
  assert (len (take m l0) = Z.min (Z.of_nat m) (len l0)) as Et by (unfold len; rewrite length_take; lia).
  pose proof (len_nonneg (drop m l0)). destruct k as [|k].
  - intros [= <-]. cbn [offset data]. lia.
  - cbn. intros Hk%IH. rewrite Nat2Z.inj_succ. lia.
Qed.

Context `{!Ipv4Wire} (args : ComposeIpv4PacketArgs).
Context (Hpl : payload_len args = len payload) (Hpm : payload_mtu args = mtu).
Context (H8 : mtu mod 8 = 0 ∨ len payload <= mtu).
Context (Hid : is_uint 16 (ip_id args)) (Hs : is_uint 32 (src_v4 args)) (Hd : is_uint 32 (dst_v4 args)).

Definition the_key : IpReassemblerKey := mkKey (src_v4 args) (dst_v4 args) (ip_id args).

Lemma piece_fields_ok k f :
  fs !! k = Some f →
  let fields := piece_fields args (div_ceil (payload_len args) (payload_mtu args)) (Z.of_nat k) (offset f) (len (data f)) in
  fields_fit fields ∧ f_total_len fields = IPV4_HEADER_LEN + len (data f) ∧ f_frag_offset fields = offset f ∧
  f_more_frags fields = negb (is_last f).
Proof.
  intros Hk. pose proof (piece_bounds f (list_elem_of_lookup_2 _ _ _ Hk)) as Hb.
  apply pieces_lookup in Hk as (Eo & El & Hlt); [|exact Hmtu']. rewrite Z2Nat.id in * by lia.
  cbn zeta. rewrite Hpl, Hpm.
  pose proof (Z.div_mod (len payload + mtu - 1) mtu ltac:(lia)). pose proof (Z.mod_pos_bound (len payload + mtu - 1) mtu ltac:(lia)).
  unfold div_ceil. set (T := (len payload + mtu - 1) / mtu) in *.
  assert (is_last f = (Z.of_nat k =? T - 1)) as Elast.
  { unfold is_last. apply eq_iff_eq_true. rewrite !Z.eqb_eq. nia. }
  assert (Z.of_nat k < T) as HkT by (apply (Z.mul_lt_mono_pos_l mtu); lia).
  assert (wrap 16 (len (data f) + 20) = len (data f) + 20) as Ew by (unfold wrap; rewrite Z.mod_small; lia).
  assert ((if 1 <? T then wrap 16 (offset f) else 0) = offset f) as Eoff.
  { unfold wrap. rewrite Z.mod_small by lia. destruct (Z.ltb_spec 1 T); [done|].
    rewrite Eo. by replace (Z.of_nat k) with 0 by lia. }
  assert ((1 <? T) && negb (Z.of_nat k =? T - 1) = negb (is_last f)) as Emore.
  { rewrite Elast. destruct (Z.ltb_spec 1 T); [done|]. cbn. destruct (Z.eqb_spec (Z.of_nat k) (T - 1)); [done|]. lia. }
  assert (offset f mod 8 = 0) as E8.
  { destruct H8 as [H8'|H8'].
    - rewrite Eo, Z.add_0_l. rewrite Z.mul_mod, H8', Z.mul_0_r by lia. done.
    - assert (Z.of_nat k = 0) as Ek by (clear -Hlt H8' Hmtu Hlen; destruct k; [done|]; rewrite Nat2Z.inj_succ in Hlt; nia). by rewrite Eo, Ek. }
  unfold piece_fields, IPV4_HEADER_LEN. rewrite Ew, Eoff, Emore.
  unfold fields_fit, is_uint in *. cbn [f_total_len f_ident f_frag_offset f_src f_dst f_more_frags].
  split; [lia|]. split; [lia|done].
Qed.

Lemma view_piece k f :
  fs !! k = Some f →
  view (piece_packet args k f) =
    mkView (src_v4 args) (dst_v4 args) (ip_id args) (offset f) (negb (is_last f)) (len (data f) + 20) 20 (data f).
Proof.
  intros Hk. destruct (piece_fields_ok k f Hk) as (Hfit & Htl & Ho & Hm). unfold piece_packet.
  rewrite view_written by done. rewrite Htl, Ho, Hm. unfold IPV4_HEADER_LEN. by rewrite Z.add_comm.
Qed.

Definition entry_holds r (seen : list IpFragment) : Prop :=
  match packets r !! the_key with Some v => holds (packet v) seen | None => seen = [] end.

Lemma add_piece r seen k f now :
  (∀ g, g ∈ seen → g ∈ fs) → entry_holds r seen → fs !! k = Some f →
  ∃ v, holds (packet v) (seen ++ [f]) ∧
    add_fragment r (view (piece_packet args k f)) now =
      if complete (seen ++ [f]) then (mkReassembler (delete the_key (packets r)) (timeout r), Some payload)
      else (mkReassembler (<[the_key := v]> (packets r)) (timeout r), None).
Proof.
  intros Hseen He Hk. pose proof (list_elem_of_lookup_2 _ _ _ Hk) as Hf. pose proof (piece_bounds f Hf).
  rewrite (view_piece k f Hk). unfold add_fragment, is_last_fragment, key_of, wrapping_sub, wrapping_add, wrap. cbn -[Z.pow].
  rewrite !(Z.mod_small (len (data f) + 20 - 20)) by lia. rewrite (Z.mod_small (len (data f))) by lia.
  rewrite (proj2 (Z.eqb_eq _ _)) by lia. cbn [negb]. rewrite negb_involutive. fold the_key.
  set (v0 := default _ _).
  assert (holds (packet v0) seen) as Hv0.
  { unfold v0, entry_holds in *. destruct (packets r !! the_key); [done|]. subst seen. cbn.
    split; [constructor|]. split; [|done]. intros g. split; intros []%not_elem_of_nil. }
  assert ((if is_last f then set_total_length (packet v0) ((len (data f) + 20 - 20 + offset f) mod 2 ^ 16) else packet v0) =
          (if is_last f then set_total_length (packet v0) (len payload) else packet v0)) as ->.
  { destruct (is_last f) eqn:El; [|done]. unfold is_last in El. apply Z.eqb_eq in El.
    rewrite Z.mod_small by lia. f_equal. lia. }
  replace (mkFragment (offset f) (data f)) with f by by destruct f.
  pose proof (add_holds _ seen f Hseen Hf Hv0) as Hv1.
  assert (∀ g, g ∈ seen ++ [f] → g ∈ fs) as Hall.
  { intros g [Hg| ->%list_elem_of_singleton]%elem_of_app; auto. }
  destruct (assemble_holds _ _ Hall Hv1) as [Hv2 E2].
  match type of E2 with (assemble ?q).2 = _ => destruct (assemble q) as [p o] end. cbn [fst snd] in *. subst o.
  exists (mkValue p now). split; [done|]. by destruct (complete (seen ++ [f])).
Qed.

End Reassembly.

(** ** Claims *)

(** Composing never panics on a buffer that has the payload behind room for one header:
    writing a header over the bytes already sent hands over exactly the consecutive pieces of the
    payload, each behind its header, up to the first error of the callback. *)
Theorem compose_in_place `{!Ipv4Wire} {S E} (cb : S → list Z → S * result unit E) args h payload tl st :
  0 < payload_mtu args → len h = IPV4_HEADER_LEN → payload_len args = len payload →
  compose_ipv4_packet cb args (h ++ payload ++ tl) st =
  Some (hand_over cb st (piece_packets args 0 (all_pieces (payload_mtu args) payload))).
Proof.
  intros Hm Hh Hp. unfold compose_ipv4_packet. rewrite (proj2 (Z.eqb_neq _ _)) by lia.
  pose proof (compose_loop_pieces cb args (length payload) [] h payload tl 0 0 st) as Hc.
  replace (Z.to_nat (payload_len args)) with (length payload) by (rewrite Hp; unfold len; lia).
  apply Hc; try done; lia.
Qed.

(** The callback that keeps the packets. *)
Definition collect (st : list (list Z)) (p : list Z) : list (list Z) * result unit unit := (st ++ [p], Ok tt).

Lemma hand_over_collect st ps : hand_over collect st ps = (st ++ ps, Ok tt).
Proof. revert st. induction ps as [|p ps IH]; intros st; cbn; [by rewrite app_nil_r|]. by rewrite IH, <- app_assoc. Qed.

(** The deliveries of the packets with the given numbers at the given times. *)
Definition deliver (ps : list (list Z)) (order : list (nat * Z)) : list (list Z * Z) :=
  map (λ d, (nth d.1 ps [], d.2)) order.

(** What one header can carry and one reassembly can count. *)
Definition args_fit (args : ComposeIpv4PacketArgs) (payload : list Z) : Prop :=
  payload_len args = len payload ∧ 0 < payload_mtu args ∧ 0 < len payload <= 65515 ∧
  (payload_mtu args mod 8 = 0 ∨ len payload <= payload_mtu args) ∧
  is_uint 16 (ip_id args) ∧ is_uint 32 (src_v4 args) ∧ is_uint 32 (dst_v4 args).

Section Deliveries.

Context `{!Ipv4Wire} (args : ComposeIpv4PacketArgs) (payload : list Z) (Hfit : args_fit args payload).

Abbreviation fs := (all_pieces (payload_mtu args) payload).
Abbreviation ps := (piece_packets args 0 fs).

Definition seen_of (order : list (nat * Z)) : list IpFragment := omap (λ d, fs !! d.1) order.

Lemma seen_of_in order f : f ∈ seen_of order ↔ ∃ d, d ∈ order ∧ fs !! d.1 = Some f.
Proof. unfold seen_of. apply list_elem_of_omap. Qed.

(** Invariant of the deliveries: the entry of the payload; everything else is untouched. *)
Definition receiving (r0 r : IpReassembler) (seen : list IpFragment) : Prop :=
  entry_holds payload args r seen ∧ delete (the_key args) (packets r) = packets r0 ∧ timeout r = timeout r0.

Lemma deliver_one r0 r order k f now :
  receiving r0 r (seen_of order) → fs !! k = Some f →
  let '(r', o) := add_fragment r (view (nth k ps [])) now in
  if complete (payload_mtu args) payload (seen_of (order ++ [(k, now)]))
  then r' = r0 ∧ o = Some payload
  else receiving r0 r' (seen_of (order ++ [(k, now)])) ∧ o = None.
Proof.
  intros (He & Hd & Ht) Hk. destruct Hfit as (? & ? & Hl & ? & ? & ? & ?).
  assert (payload ≠ []) as Hne by (intros ->; unfold len in Hl; cbn in Hl; lia).
  assert (nth k ps [] = piece_packet args k f) as ->.
  { apply nth_lookup_Some. rewrite piece_packets_lookup, Hk. done. }
  assert (seen_of (order ++ [(k, now)]) = seen_of order ++ [f]) as ->.
  { unfold seen_of. rewrite omap_app. cbn. by rewrite Hk. }
  destruct (add_piece (payload_mtu args) payload ltac:(done) Hne ltac:(lia) args ltac:(done) eq_refl ltac:(done)
    ltac:(done) ltac:(done) ltac:(done) r (seen_of order) k f now) as (v & Hv & ->); try done.
  { intros g (d & _ & Hg)%seen_of_in. by eapply list_elem_of_lookup_2. }
  destruct (complete _ _ _).
  - rewrite Hd, Ht. by destruct r0.
  - split; [|done]. unfold receiving, entry_holds. cbn. rewrite lookup_insert_eq.
    split; [done|]. by rewrite delete_insert_eq.
Qed.

(** While the piece [l] has not arrived nothing is returned. *)
Lemma deliver_incomplete r0 r pre order l f :
  receiving r0 r (seen_of pre) → fs !! l = Some f → l ∉ (pre ++ order).*1 →
  Forall (λ d, (d.1 < length fs)%nat) order →
  ∃ r', receive r (deliver ps order) = (r', replicate (length order) None) ∧ receiving r0 r' (seen_of (pre ++ order)).
Proof.
  intros Hr Hl Hn Hall. revert r pre Hr Hn. induction Hall as [|[k now] order Hk Hall IH]; intros r pre Hr Hn.
  { exists r. by rewrite app_nil_r. }
  apply lookup_lt_is_Some_2 in Hk as [g Hg]. cbn [fst] in Hg.
  cbn [deliver map receive fst snd]. pose proof (deliver_one r0 r pre k g now Hr Hg) as H1.
  destruct (add_fragment _ _ _) as [r1 o]. destruct (complete _ _ _) eqn:Ec.
  - exfalso. rewrite complete_true in Ec. specialize (Ec f (list_elem_of_lookup_2 _ _ _ Hl)).
    apply seen_of_in in Ec as ((j & t) & Hj & Ej).
    apply Hn. apply list_elem_of_fmap. exists (j, t). split; [|set_solver]. cbn in Ej. cbn.
    eapply NoDup_lookup; [|exact Hl|exact Ej]. apply fs_NoDup; destruct Hfit as (? & ? & ? & _); lia.
  - destruct H1 as [Hr1 ->]. destruct (IH r1 (pre ++ [(k, now)]) Hr1) as (r' & E & Hr'); [by rewrite <- app_assoc|].
    exists r'. unfold deliver in E. rewrite E. cbn. split; [done|]. by rewrite <- app_assoc in Hr'.
Qed.

End Deliveries.

Lemma pieces_reassemble `{!Ipv4Wire} args payload r :
  args_fit args payload → packets r !! the_key args = None →
  let ps := piece_packets args 0 (all_pieces (payload_mtu args) payload) in
  ∀ order l t, Forall (λ d, (d.1 < length ps)%nat) order → (l < length ps)%nat →
    l ∉ order.*1 → (∀ i, (i < length ps)%nat → i ≠ l → i ∈ order.*1) →
    receive r (deliver ps (order ++ [(l, t)])) = (r, replicate (length order) None ++ [Some payload]).
Proof.
  intros Hfit Hk. set (fs := all_pieces (payload_mtu args) payload). cbn zeta.
  rewrite piece_packets_length. intros order l t Hall Hl Hn Hcov.
  apply lookup_lt_is_Some_2 in Hl as [f Hf].
  assert (receiving args payload r r (seen_of args payload [])) as H0.
  { unfold receiving, entry_holds. rewrite Hk. split; [done|]. by rewrite delete_id. }
  destruct (deliver_incomplete args payload Hfit r r [] order l f H0 Hf Hn Hall) as (r1 & E1 & H1).
  cbn [app] in H1. pose proof (deliver_one args payload Hfit r r1 order l f t H1 Hf) as H2.
  subst fs. unfold deliver in *. rewrite map_app, receive_app, E1. cbn [map receive fst snd].
  destruct (add_fragment _ _ _) as [r2 o].
  assert (complete (payload_mtu args) payload (seen_of args payload (order ++ [(l, t)])) = true) as Ec.
  { apply complete_true. intros g Hg. apply list_elem_of_lookup in Hg as [i Hi]. apply seen_of_in.
    destruct (decide (i = l)) as [->|Hil]; [exists (l, t); split; [set_solver|done]|].
    pose proof (Hcov i ltac:(by eapply lookup_lt_Some) Hil) as Hj.
    apply list_elem_of_fmap in Hj as ((j & t') & -> & Hj).
    exists (j, t'). split; [set_solver|done]. }
  rewrite Ec in H2. destruct H2 as [-> ->]. done.
Qed.

(** C7: the packets [compose_ipv4_packet] makes of a payload, delivered in any order and with
    repetitions to a reassembler that has no entry for them, give nothing until the last missing one
    arrives, which gives exactly the payload and leaves the reassembler as it was. *)
Theorem composed_packets_reassemble `{!Ipv4Wire} args h payload tl r :
  args_fit args payload → len h = IPV4_HEADER_LEN → packets r !! the_key args = None →
  ∃ ps, compose_ipv4_packet collect args (h ++ payload ++ tl) [] = Some (ps, Ok tt) ∧
    ∀ order l t, Forall (λ d, (d.1 < length ps)%nat) order → (l < length ps)%nat →
      l ∉ order.*1 → (∀ i, (i < length ps)%nat → i ≠ l → i ∈ order.*1) →
      receive r (deliver ps (order ++ [(l, t)])) = (r, replicate (length order) None ++ [Some payload]).
Proof.
  intros Hfit Hh Hk. exists (piece_packets args 0 (all_pieces (payload_mtu args) payload)).
  split; [destruct Hfit as (? & ? & ?); rewrite compose_in_place by done; by rewrite hand_over_collect|].
  by apply pieces_reassemble.
Qed.

(** Offsets wrap: a last fragment that reaches past 65,535 is joined, and a payload longer than
    any IPv4 packet comes out. *)
Theorem oversized_reassembly r a b va vb now :
  len a = 65512 → len b = 40 → packets r !! key_of va = None → key_of vb = key_of va →
  v_frag_offset va = 0 → v_more_frags va = true → v_total_len va = 65532 → v_header_len va = 20 → v_payload va = a →
  v_frag_offset vb = 65512 → v_more_frags vb = false → v_total_len vb = 60 → v_header_len vb = 20 → v_payload vb = b →
  (add_fragment (add_fragment r va now).1 vb now).2 = Some (a ++ b) ∧ 65535 < len (a ++ b).
Proof.
  intros Ha Hb Hk Ek Oa Ma Ta La Pa Ob Mb Tb Lb Pb. split; [|rewrite len_app; lia].
  assert (add_fragment r va now =
    (mkReassembler (<[key_of va := mkValue (mkPacket None [mkFragment 0 a]) now]> (packets r)) (timeout r), None)) as ->.
  { unfold add_fragment. rewrite Ta, La, Pa, Ha, Oa. unfold is_last_fragment. by rewrite Ma, Hk. }
  unfold add_fragment. cbn [fst packets]. rewrite Tb, Lb, Pb, Hb, Ob. unfold is_last_fragment.
  rewrite Mb, Ek, lookup_insert_eq. cbn [default packet negb].
  assert (add_to_packet (mkPacket (Some 16) [mkFragment 0 a]) (mkFragment 65512 b) =
    mkPacket (Some 16) [mkFragment 0 a; mkFragment 65512 b]) as E.
  { unfold add_to_packet, overlaps, fragment_end, data_len. cbn [fragments existsb offset data]. by rewrite Ha, Hb. }
  replace (set_total_length _ _) with (mkPacket (Some 16) [mkFragment 0 a]) by done. cbn [id]. rewrite E.
  unfold assemble. cbn [total_length fragments].
  replace (merge_sort offset_le [mkFragment 0 a; mkFragment 65512 b]) with [mkFragment 0 a; mkFragment 65512 b] by done.
  unfold join, data_len. cbn [offset data]. by rewrite Ha, Hb.
Qed.

(** ** A header encoding *)

(** The fields of an IPv4 header at their places; the checksum is left zero. *)
Definition sample_header (f : Ipv4Fields) : list Z :=
  [69; 0] ++ to_be 2 (f_total_len f) ++ to_be 2 (f_ident f) ++
  [64 * Z.b2z (f_dont_frag f) + 32 * Z.b2z (f_more_frags f) + f_frag_offset f / 8 / 256;
   (f_frag_offset f / 8) mod 256; 32; f_next_header f; 0; 0] ++ to_be 4 (f_src f) ++ to_be 4 (f_dst f).

Definition sample_view (l : list Z) : Ipv4View :=
  let at_ i := nth i l 0 in
  mkView (from_be (take 4 (drop 12 l))) (from_be (take 4 (drop 16 l))) (from_be (take 2 (drop 4 l)))
    (8 * (at_ 6%nat mod 32 * 256 + at_ 7%nat)) ((at_ 6%nat / 32) mod 2 =? 1) (from_be (take 2 (drop 2 l)))
    (at_ 0%nat mod 16 * 4) (drop (Z.to_nat (at_ 0%nat mod 16 * 4)) l).

Lemma to_be_2 x : is_uint 16 x → ∃ a b, to_be 2 x = [a; b] ∧ from_be [a; b] = x.
Proof.
  intros Hx. eexists _, _. split; [reflexivity|]. etrans; [apply (from_be_to_be 2)|]. by apply Z.mod_small.
Qed.

Lemma to_be_4 x : is_uint 32 x → ∃ a b c d, to_be 4 x = [a; b; c; d] ∧ from_be [a; b; c; d] = x.
Proof.
  intros Hx. eexists _, _, _, _. split; [reflexivity|]. etrans; [apply (from_be_to_be 4)|]. by apply Z.mod_small.
Qed.

#[export] Program Instance sample_wire : Ipv4Wire := {| write_header := sample_header; view := sample_view |}.
Next Obligation. intros f. unfold len, sample_header. rewrite !length_app, !length_to_be. done. Qed.
Next Obligation.
  intros f payload (Ht & Hi & Ho & H8 & Hs & Hd) _. unfold sample_header.
  destruct (to_be_2 _ Ht) as (t1 & t2 & -> & Et). destruct (to_be_2 _ Hi) as (i1 & i2 & -> & Ei).
  destruct (to_be_4 _ Hs) as (s1 & s2 & s3 & s4 & -> & Es). destruct (to_be_4 _ Hd) as (d1 & d2 & d3 & d4 & -> & Ed).
  unfold sample_view. cbn -[from_be Z.mul Z.add Z.div Z.modulo].
  rewrite take_0, Et, Ei, Es, Ed. change (Z.to_nat (69 mod 16 * 4)) with 20%nat. cbn [drop].
  unfold is_uint in Ho. change (2 ^ 16) with 65536 in Ho. destruct f as [t i df mf o sr ds nh]. cbn in H8, Ho |- *.
  f_equal; [destruct df, mf; cbn; Z.to_euclidean_division_equations; lia|].
  apply eq_true_iff_eq. rewrite Z.eqb_eq. destruct df, mf; cbn; split; intros; try done;
    Z.to_euclidean_division_equations; lia.
Qed.

(** ** Witnesses *)

Definition sample_args : ComposeIpv4PacketArgs := mkArgs 167772161 167772162 17 20 8 7.

Definition sample_payload : list Z := seqZ 100 20.

Definition sample_buf : list Z := replicate 20 0 ++ sample_payload ++ [1; 2; 3].

Example composed_first_piece :
  (r ← compose_ipv4_packet collect sample_args sample_buf []; r.1 !! 1%nat) =
  Some ([69; 0; 0; 28; 0; 7; 32; 1; 32; 17; 0; 0; 10; 0; 0; 1; 10; 0; 0; 2] ++ seqZ 108 8).
Proof. vm_compute. reflexivity. Qed.

Lemma composed_packets_reassemble_witness :
  args_fit sample_args sample_payload ∧
  ∃ ps, compose_ipv4_packet collect sample_args sample_buf [] = Some (ps, Ok tt) ∧
    receive (new_reassembler 10) (deliver ps [(2%nat, 1); (0%nat, 2); (2%nat, 3); (1%nat, 4)]) =
      (new_reassembler 10, [None; None; None; Some sample_payload]).
Proof.
  assert (args_fit sample_args sample_payload) as Hfit by (vm_compute; intuition congruence).
  split; [exact Hfit|].
  destruct (composed_packets_reassemble sample_args (replicate 20 0) sample_payload [1; 2; 3] (new_reassembler 10)
    Hfit eq_refl eq_refl) as (ps & E & H).
  exists ps. split; [exact E|]. vm_compute in E. injection E as <-.
  apply (H [(2%nat, 1); (0%nat, 2); (2%nat, 3)] 1%nat 4).
  - repeat constructor.
  - cbn. lia.
  - cbn. set_solver.
  - intros i Hi Hn. cbn in *. assert (i = 0%nat ∨ i = 2%nat) as [-> | ->] by lia; set_solver.
Defined.

Lemma oversized_reassembly_witness :
  let a := replicate (Z.to_nat 65512) 0 in let b := replicate (Z.to_nat 40) 1 in
  (add_fragment (add_fragment (new_reassembler 10) (mkView 1 2 3 0 true 65532 20 a) 0).1
    (mkView 1 2 3 65512 false 60 20 b) 0).2 = Some (a ++ b) ∧ 65535 < len (a ++ b).
Proof.
  intros a b. apply (oversized_reassembly (new_reassembler 10) a b (mkView 1 2 3 0 true 65532 20 a)
    (mkView 1 2 3 65512 false 60 20 b) 0); try reflexivity; unfold a, b, len; rewrite length_replicate; lia.
Defined.
