(* ===== verification/FlowTable.v ===== *)
(** * The flow table of the data plane

    Models easytier-core/src/gateway/dataplane/flow.rs: the table of the flows that the
    embedded data plane owns, its lock-free count, and the leases that unregister a flow.

    The operations are given twice.  Run alone, each is a function on the table
    ([expect] that fails is [None]).  Run concurrently, a call is a program counter [Pc]
    that advances by the atomic actions of the code (drawing a registration, locking a
    shard of the map, reserving the count, publishing the entry, releasing the count),
    and threads interleave freely; a [Vacant] entry of the map holds its shard.  The
    sharding of the map is a parameter, and [retain] visits one shard at a time.

    The theorems say that the count never runs short of the visible entries, so that a
    zero is a safe fast path; that releasing the count never underflows; and that a
    lease only ever removes the entry it published itself. *)

From stdpp Require Import base gmap list numbers fin_maps relations.
From Stdlib Require Import ZArith Lia.
From S2P Require Import Prelude Packet.
Local Open Scope Z_scope.

(** ** Data *)

Inductive FlowKind : Type := FlowUdp | FlowTcp | FlowTcpListen.

#[export] Instance flow_kind_eq_dec : EqDecision FlowKind.
Proof. solve_decision. Defined.

Record FlowKey : Type := mkKey { src : SocketAddr; dst : SocketAddr; kind : FlowKind }.

#[export] Instance flow_key_eq_dec : EqDecision FlowKey.
Proof. solve_decision. Defined.

Definition flow_kind_u8 (k : FlowKind) : Z := match k with FlowUdp => 1 | FlowTcp => 2 | FlowTcpListen => 3 end.

#[export] Instance flow_key_countable : Countable FlowKey.
Proof.
  refine (inj_countable' (λ k, (src k, dst k, flow_kind_u8 (kind k)))
    (λ p, mkKey p.1.1 p.1.2 (if p.2 =? 1 then FlowUdp else if p.2 =? 2 then FlowTcp else FlowTcpListen)) _).
  by intros [s d []].
Defined.

Definition udp_bind (local_addr : SocketAddr) : FlowKey := mkKey local_addr (mkSocketAddr (IpV4 0) 0) FlowUdp.

Record FlowCountChange : Type := mkChange { previous : Z; current : Z }.

Record FlowInsert : Type := mkInsert { replaced : bool; ins_count : FlowCountChange }.

Record FlowRemoval : Type := mkRemoval { removed : bool; rem_count : FlowCountChange }.

Record FlowRetain : Type := mkRetain { ret_removed : Z; ret_count : FlowCountChange }.

Section FlowTable.

Context {V : Type}.

Record RegisteredFlow : Type := mkFlow { registration : Z; value : V }.

Record FlowTable : Type := mkTable {
  entries : gmap FlowKey RegisteredFlow;
  count : Z;
  next_registration : Z
}.

Implicit Types t : FlowTable.

(** The lease without its reference to the table. *)
Record FlowLease : Type := mkLease { l_entry : FlowKey; l_registration : Z; l_active : bool }.

Definition default_table : FlowTable := mkTable ∅ 0 1.

(** ** Atomic actions *)

Definition with_entries t (m : gmap FlowKey RegisteredFlow) : FlowTable := mkTable m (count t) (next_registration t).

Definition with_count t (n : Z) : FlowTable := mkTable (entries t) n (next_registration t).

(** [fetch_add] wraps. *)
Definition draw_registration t : FlowTable * Z :=
  (mkTable (entries t) (count t) (wrapping_add 64 (next_registration t) 1), next_registration t).

Definition increment_count t : option (FlowTable * FlowCountChange) :=
  n ← checked_add 64 (count t) 1;
  Some (with_count t n, mkChange (count t) (count t + 1)).

Definition decrement_count_by t (delta : Z) : option (FlowTable * FlowCountChange) :=
  if delta =? 0 then Some (t, mkChange (count t) (count t))
  else if count t <? delta then None
  else Some (with_count t (count t - delta), mkChange (count t) (count t - delta)).

Definition put t (k : FlowKey) (v : V) (r : Z) : FlowTable := with_entries t (<[k := mkFlow r v]> (entries t)).

(** ** Operations run alone *)

Definition is_idle t : bool := count t =? 0.

Definition table_len t : Z := Z.of_nat (size (entries t)).

Definition registration_of t (k : FlowKey) : option Z := registration <$> entries t !! k.

Definition contains_key t (k : FlowKey) : bool := bool_decide (is_Some (entries t !! k)).

Definition insert_registered t (k : FlowKey) (v : V) : option (FlowTable * (Z * FlowInsert)) :=
  let '(t, r) := draw_registration t in
  match entries t !! k with
  | Some _ => let t := put t k v r in Some (t, (r, mkInsert true (mkChange (count t) (count t))))
  | None => '(t, c) ← increment_count t; Some (put t k v r, (r, mkInsert false c))
  end.

Definition try_insert_registered t (k : FlowKey) (v : V) : option (FlowTable * option Z) :=
  match entries t !! k with
  | Some _ => Some (t, None)
  | None =>
      let '(t, r) := draw_registration t in
      '(t, _) ← increment_count t;
      Some (put t k v r, Some r)
  end.

(** [remove_if] of the map. *)
Definition remove_if t (k : FlowKey) (r : Z) : FlowTable * bool :=
  match entries t !! k with
  | Some e => if registration e =? r then (with_entries t (delete k (entries t)), true) else (t, false)
  | None => (t, false)
  end.

Definition remove_registration t (k : FlowKey) (r : Z) : option (FlowTable * FlowRemoval) :=
  let '(t, b) := remove_if t k r in
  if b then '(t, c) ← decrement_count_by t 1; Some (t, mkRemoval true c)
  else Some (t, mkRemoval false (mkChange (count t) (count t))).

(** What [retain] does to the entries of the keys [sel]. *)
Definition retain_entry (sel : FlowKey → bool) (f : FlowKey → V → V * bool) (k : FlowKey) (e : RegisteredFlow)
    : option RegisteredFlow :=
  if sel k then let '(v, keep) := f k (value e) in if keep then Some (mkFlow (registration e) v) else None
  else Some e.

Definition retain_where t (sel : FlowKey → bool) (f : FlowKey → V → V * bool) : FlowTable * Z :=
  let m := map_imap (retain_entry sel f) (entries t) in
  (with_entries t m, Z.of_nat (size (entries t)) - Z.of_nat (size m)).

Definition retain t (f : FlowKey → V → V * bool) : option (FlowTable * FlowRetain) :=
  let '(t, n) := retain_where t (λ _, true) f in
  '(t, c) ← decrement_count_by t n;
  Some (t, mkRetain n c).

Definition clear t : option (FlowTable * FlowRetain) := retain t (λ _ v, (v, false)).

Definition register t (k : FlowKey) (v : V) : option (FlowTable * (FlowLease * FlowInsert)) :=
  '(t, (r, ins)) ← insert_registered t k v;
  Some (t, (mkLease k r true, ins)).

Definition try_register t (k : FlowKey) (v : V) : option (FlowTable * option FlowLease) :=
  '(t, r) ← try_insert_registered t k v;
  Some (t, r ← r; Some (mkLease k r true)).

Definition drop_lease t (l : FlowLease) : option FlowTable :=
  if l_active l then '(t, _) ← remove_registration t (l_entry l) (l_registration l); Some t else Some t.

(** ** Operations interleaved

    Where a call stands.  The holder of a [Vacant] entry has the lock of its shard. *)
Inductive Pc : Type :=
| Registering (k : FlowKey) (v : V)
| Drawn (k : FlowKey) (v : V) (r : Z)
| TryRegistering (k : FlowKey) (v : V)
| TryVacant (k : FlowKey) (v : V)
| Vacant (k : FlowKey) (v : V) (r : Z)
| Reserved (k : FlowKey) (v : V) (r : Z)
| Leased (k : FlowKey) (r : Z)
| Dropping (k : FlowKey) (r : Z)
| Retaining (f : FlowKey → V → V * bool) (shard : nat) (n : Z)
| Releasing (n : Z)
| Finished.

Inductive Outcome : Type :=
| Blocked
| Panics
| Next (t : FlowTable) (pc : Pc).

Definition held_key (pc : Pc) : option FlowKey :=
  match pc with
  | TryVacant k _ | Vacant k _ _ | Reserved k _ _ => Some k
  | _ => None
  end.

Section Interleaving.

(** The shard of a key, and the number of shards. *)
Context (shard_of : FlowKey → nat) (shards : nat).

(** The next atomic action of a call; a lease ends by being dropped. *)
Definition advance (locked : nat → bool) t (pc : Pc) : Outcome :=
  match pc with
  | Registering k v => let '(t, r) := draw_registration t in Next t (Drawn k v r)
  | Drawn k v r =>
      if locked (shard_of k) then Blocked
      else match entries t !! k with
           | Some _ => Next (put t k v r) (Leased k r)
           | None => Next t (Vacant k v r)
           end
  | TryRegistering k v =>
      if locked (shard_of k) then Blocked
      else match entries t !! k with
           | Some _ => Next t Finished
           | None => Next t (TryVacant k v)
           end
  | TryVacant k v => let '(t, r) := draw_registration t in Next t (Vacant k v r)
  | Vacant k v r =>
      match increment_count t with
      | None => Panics
      | Some (t, _) => Next t (Reserved k v r)
      end
  | Reserved k v r => Next (put t k v r) (Leased k r)
  | Leased k r => Next t (Dropping k r)
  | Dropping k r =>
      if locked (shard_of k) then Blocked
      else let '(t, b) := remove_if t k r in Next t (if b then Releasing 1 else Finished)
  | Retaining f i n =>
      if (i <? shards)%nat then
        if locked i then Blocked
        else let '(t, m) := retain_where t (λ k, bool_decide (shard_of k = i)) f in Next t (Retaining f (S i) (n + m))
      else Next t (Releasing n)
  | Releasing n =>
      match decrement_count_by t n with
      | None => Panics
      | Some (t, _) => Next t Finished
      end
  | Finished => Blocked
  end.

Definition locked (ts : list Pc) (s : nat) : bool :=
  existsb (λ pc, match held_key pc with Some k => bool_decide (shard_of k = s) | None => false end) ts.

(** The calls of the interface, at their start. *)
Definition call (pc : Pc) : Prop :=
  match pc with
  | Registering _ _ | TryRegistering _ _ => True
  | Retaining _ i n => i = O ∧ n = 0
  | _ => False
  end.

Definition Config : Type := FlowTable * list Pc.

(** A new call, or one atomic action of a running one. *)
Inductive step : relation Config :=
| step_call t ts pc : call pc → step (t, ts) (t, ts ++ [pc])
| step_advance t ts i pc t' pc' :
    ts !! i = Some pc → advance (locked ts) t pc = Next t' pc' → step (t, ts) (t', <[i := pc']> ts).

Definition start : Config := (default_table, []).

End Interleaving.
End FlowTable.

Arguments FlowTable : clear implicits.
Arguments RegisteredFlow : clear implicits.
Arguments Pc : clear implicits.
Arguments Config : clear implicits.
Arguments Outcome : clear implicits.

(** * Properties *)

Section Counting.

Context {V : Type} (shard_of : FlowKey → nat) (shards : nat).

Implicit Types (t : FlowTable V) (ts : list (Pc V)) (pc : Pc V).

(** What a running call has reserved in the count, or has still to release from it. *)
Definition owed pc : Z :=
  match pc with Reserved _ _ _ => 1 | Retaining _ _ n | Releasing n => n | _ => 0 end.

Fixpoint owed_sum ts : Z := match ts with [] => 0 | pc :: ts => owed pc + owed_sum ts end.

Lemma owed_sum_app ts ts' : owed_sum (ts ++ ts') = owed_sum ts + owed_sum ts'.
Proof. induction ts as [|pc ts IH]; cbn; [done|]. rewrite IH. lia. Qed.

Lemma owed_sum_insert ts i pc pc' :
  ts !! i = Some pc → owed_sum (<[i := pc']> ts) = owed_sum ts - owed pc + owed pc'.
Proof.
  intros Hi. rewrite <- (take_drop_middle ts i pc Hi) at 2. rewrite insert_take_drop by (by eapply lookup_lt_Some).
  rewrite !owed_sum_app. cbn. lia.
Qed.

Lemma owed_sum_nonneg ts : (∀ pc, pc ∈ ts → 0 <= owed pc) → 0 <= owed_sum ts.
Proof.
  induction ts as [|pc ts IH]; intros H; cbn; [done|].
  pose proof (H pc ltac:(left)). assert (0 <= owed_sum ts) by (apply IH; intros; apply H; by right). lia.
Qed.

Lemma owed_le_sum ts pc : (∀ pc, pc ∈ ts → 0 <= owed pc) → pc ∈ ts → owed pc <= owed_sum ts.
Proof.
  intros H. induction ts as [|pc' ts IH]; [by intros []%not_elem_of_nil|]. cbn.
  assert (∀ pc, pc ∈ ts → 0 <= owed pc) as H' by (intros; apply H; by right).
  pose proof (owed_sum_nonneg ts H'). pose proof (H pc' ltac:(left)).
  intros [->|Hin]%elem_of_cons; [lia|]. specialize (IH H' Hin). lia.
Qed.

Lemma locked_false ts s :
  locked shard_of ts s = false → ∀ pc k, pc ∈ ts → held_key pc = Some k → shard_of k ≠ s.
Proof.
  unfold locked. intros H pc k Hin Hk E. apply not_true_iff_false in H. apply H, existsb_exists.
  exists pc. split; [by apply list_elem_of_In|]. rewrite Hk. by apply bool_decide_eq_true.
Qed.

(** The count is exact up to what running calls owe; a locked key is vacant and its shard
    has one holder. *)
Record counted (c : Config V) : Prop := {
  ct_count : count c.1 = Z.of_nat (size (entries c.1)) + owed_sum c.2;
  ct_bound : count c.1 <= uint_max 64;
  ct_owed pc : pc ∈ c.2 → 0 <= owed pc;
  ct_vacant pc k : pc ∈ c.2 → held_key pc = Some k → entries c.1 !! k = None;
  ct_exclusive i j pc1 pc2 k1 k2 :
    c.2 !! i = Some pc1 → c.2 !! j = Some pc2 → held_key pc1 = Some k1 → held_key pc2 = Some k2 →
    shard_of k1 = shard_of k2 → i = j
}.

(** What an action changes, in terms of the thread that makes it. *)
Record small_step (ts : list (Pc V)) t pc t' pc' : Prop := {
  ss_count : count t' - Z.of_nat (size (entries t')) - owed pc' = count t - Z.of_nat (size (entries t)) - owed pc;
  ss_bound : 0 <= owed pc → count t <= uint_max 64 → count t' <= uint_max 64;
  ss_owed : 0 <= owed pc → 0 <= owed pc';
  ss_entries k : entries t' !! k ≠ None → entries t !! k ≠ None ∨ held_key pc = Some k;
  ss_held k : held_key pc' = Some k →
    entries t' !! k = None ∧ (held_key pc = Some k ∨ locked shard_of ts (shard_of k) = false);
  ss_put k : held_key pc = Some k → entries t !! k = None
}.

Lemma retain_where_spec t sel f :
  let '(t', n) := retain_where t sel f in
  count t' = count t ∧ next_registration t' = next_registration t ∧
  n = Z.of_nat (size (entries t)) - Z.of_nat (size (entries t')) ∧ 0 <= n ∧
  (∀ k e', entries t' !! k = Some e' → ∃ e, entries t !! k = Some e ∧ registration e' = registration e).
Proof.
  unfold retain_where. cbn. split; [done|]. split; [done|]. split; [done|].
  set (m := map_imap _ _).
  assert (∀ k e', m !! k = Some e' → ∃ e, entries t !! k = Some e ∧ registration e' = registration e) as Hm.
  { intros k e'. unfold m. rewrite map_lookup_imap. destruct (entries t !! k) as [e|]; [|done]. cbn.
    unfold retain_entry. destruct (sel k); [|intros [= ->]; by eexists]. destruct (f k (value e)) as [v []]; [|done].
    intros [= <-]. by exists e. }
  split; [|exact Hm].
  assert (size m ≤ size (entries t))%nat; [|lia].
  rewrite <- !(size_dom (D := gset FlowKey)). apply subseteq_size. intros k. rewrite !elem_of_dom.
  intros [e He]. destruct (Hm _ _ He) as (e0 & ? & _). by exists e0.
Qed.

Lemma put_size t k v r : entries t !! k = None →
  Z.of_nat (size (entries (put t k v r))) = Z.of_nat (size (entries t)) + 1.
Proof. intros Hk. cbn. rewrite map_size_insert_None by done. lia. Qed.

Lemma put_size_occupied t k v r : is_Some (entries t !! k) → size (entries (put t k v r)) = size (entries t).
Proof. intros He. cbn. by rewrite map_size_insert_Some. Qed.

Lemma put_lookup t k v r k' : entries (put t k v r) !! k' ≠ None → entries t !! k' ≠ None ∨ k = k'.
Proof. cbn. destruct (decide (k = k')) as [->|]; [by right|]. rewrite lookup_insert_ne by done. by left. Qed.

Lemma remove_if_spec t k r :
  let '(t', b) := remove_if t k r in
  count t' = count t ∧ next_registration t' = next_registration t ∧
  Z.of_nat (size (entries t')) = Z.of_nat (size (entries t)) - Z.b2z b ∧
  (∀ k', k' ≠ k → entries t' !! k' = entries t !! k') ∧
  (if b then ∃ e, entries t !! k = Some e ∧ registration e = r ∧ entries t' !! k = None
   else t' = t ∧ ∀ e, entries t !! k = Some e → registration e ≠ r).
Proof.
  unfold remove_if. destruct (entries t !! k) as [e|] eqn:Ek; [|cbn; repeat split; try done; lia].
  destruct (Z.eqb_spec (registration e) r) as [Er|Er]; cbn.
  - split; [done|]. split; [done|]. split.
    { rewrite map_size_delete_Some by (by eexists).
      assert (size (entries t) ≠ 0)%nat; [|lia]. intros E0%map_size_empty_inv. by rewrite E0 in Ek. }
    split; [intros k' Hk; by rewrite lookup_delete_ne|]. exists e. by rewrite lookup_delete_eq.
  - repeat split; try done; try lia. by intros e' [= <-].
Qed.

Lemma increment_spec t t' c : increment_count t = Some (t', c) →
  entries t' = entries t ∧ next_registration t' = next_registration t ∧ count t' = count t + 1 ∧ count t' <= uint_max 64.
Proof.
  unfold increment_count. destruct (checked_add 64 (count t) 1) as [n|] eqn:E; [|done].
  apply checked_add_Some in E as [-> ?]. by intros [= <- _].
Qed.

Lemma decrement_spec t d t' c : decrement_count_by t d = Some (t', c) →
  entries t' = entries t ∧ next_registration t' = next_registration t ∧ count t' = count t - d.
Proof.
  unfold decrement_count_by. destruct (Z.eqb_spec d 0) as [->|]; [intros [= <- _]; repeat split; lia|].
  destruct (count t <? d); [done|]. by intros [= <- _].
Qed.

Ltac small_side := try done; try lia; try (intros k'; by auto); try (intros k' [= <-]; by auto).
Ltac small := split; cbn; small_side.

Lemma advance_small ts t pc t' pc' :
  (∀ k, held_key pc = Some k → entries t !! k = None) →
  advance shard_of shards (locked shard_of ts) t pc = Next t' pc' → small_step ts t pc t' pc'.
Proof.
  intros Hp Ha. destruct pc as [k v|k v r|k v|k v|k v r|k v r|k r|k r|f i n|n|]; cbn -[Nat.ltb retain_where remove_if] in Ha, Hp.
  - injection Ha as <- <-. small.
  - destruct (locked _ _ _) eqn:El; [done|]. destruct (entries t !! k) as [e|] eqn:Ek; injection Ha as <- <-.
    + split; cbn; small_side.
      * rewrite <- (put_size_occupied t k v r) by (by eexists). done.
      * intros k' Hk'. apply put_lookup in Hk' as [?|<-]; left; congruence.
    + small.
  - destruct (locked _ _ _) eqn:El; [done|]. destruct (entries t !! k) as [e|] eqn:Ek; injection Ha as <- <-;
      small.
  - injection Ha as <- <-. small.
  - destruct (increment_count t) as [[t1 c]|] eqn:Ei; [|done]. injection Ha as <- <-.
    apply increment_spec in Ei as (E1 & E2 & E3 & E4). split; cbn; rewrite ?E1; small_side.
  - injection Ha as <- <-. specialize (Hp k eq_refl). split; cbn; small_side.
    + rewrite map_size_insert_None by done. lia.
    + intros k' Hk'. destruct (put_lookup t k v r k' Hk') as [?| ->]; auto.
  - injection Ha as <- <-. small.
  - destruct (locked _ _ _) eqn:El; [done|]. pose proof (remove_if_spec t k r) as Hr.
    destruct (remove_if t k r) as [t1 b]. destruct Hr as (R1 & R2 & R3 & R4 & R5). injection Ha as <- <-.
    assert (∀ k', entries t1 !! k' ≠ None → entries t !! k' ≠ None) as Hsub.
    { intros k'. destruct (decide (k' = k)) as [->|Hn]; [|by rewrite R4].
      destruct b; [destruct R5 as (e & -> & _); done|]. by destruct R5 as [-> _]. }
    split; [destruct b; cbn in *; lia|lia|destruct b; cbn; lia| |destruct b; done|done].
    intros k' Hk'. left. auto.
  - destruct (i <? shards)%nat; [|injection Ha as <- <-; small].
    destruct (locked _ _ _) eqn:El; [done|].
    pose proof (retain_where_spec t (λ k, bool_decide (shard_of k = i)) f) as Hr.
    destruct (retain_where t _ f) as [t1 m]. destruct Hr as (R1 & R2 & R3 & R4 & R5). injection Ha as <- <-.
    assert (∀ k', entries t1 !! k' ≠ None → entries t !! k' ≠ None) as Hsub.
    { intros k'. destruct (entries t1 !! k') as [e'|] eqn:E; [|done]. by destruct (R5 _ _ E) as (e & -> & _). }
    small.
  - destruct (decrement_count_by t n) as [[t1 c]|] eqn:Ei; [|done]. injection Ha as <- <-.
    apply decrement_spec in Ei as (E1 & E2 & E3). split; cbn; rewrite ?E1; small_side.
  - done.
Qed.

Lemma counted_start : counted start.
Proof.
  split; cbn; [done|done|by intros ? []%not_elem_of_nil|by intros ? ? []%not_elem_of_nil|]. intros i j pc1 pc2 k1 k2 Hi. by rewrite lookup_nil in Hi.
Qed.

Lemma elem_of_call pc ts pc' : call pc' → pc ∈ ts ++ [pc'] → held_key pc ≠ None → pc ∈ ts.
Proof.
  intros Hc [Hin|Hin]%elem_of_app Hk; [done|]. apply list_elem_of_singleton in Hin as ->. by destruct pc'.
Qed.

Lemma lookup_call pc ts pc' i : call pc' → (ts ++ [pc']) !! i = Some pc → held_key pc ≠ None → ts !! i = Some pc.
Proof.
  intros Hc [Hi|[_ Hi]]%lookup_app_Some Hk; [done|]. destruct (i - length ts)%nat; [|done].
  injection Hi as <-. by destruct pc'.
Qed.

Lemma elem_of_insert ts i pc pc0 : pc0 ∈ <[i := pc]> ts → pc0 = pc ∨ ∃ j, j ≠ i ∧ ts !! j = Some pc0.
Proof.
  intros [j Hj]%list_elem_of_lookup. apply list_lookup_insert_Some in Hj as [(-> & <- & _)|[Hn Hj]]; [by left|].
  right. exists j. split; [by intros ->|done].
Qed.

Lemma counted_step c c' : step shard_of shards c c' → counted c → counted c'.
Proof.
  destruct 1 as [t ts pc Hc|t ts i pc t' pc' Hi Ha]; intros [C1 CB C2 C3 C4]; cbn in *.
  - assert (owed pc = 0) as Ho by (by destruct pc as [| | | | | | | |f j n| |]; try done; destruct Hc as [-> ->]).
    split; cbn.
    + rewrite owed_sum_app. cbn. lia.
    + done.
    + intros pc0 [Hin|Hin]%elem_of_app; [auto|]. apply list_elem_of_singleton in Hin as ->. lia.
    + intros pc0 k Hin Hk. eapply C3; [|done]. eapply elem_of_call; [done..|]. by rewrite Hk.
    + intros i j pc1 pc2 k1 k2 Hi Hj H1 H2. eapply C4; [eapply lookup_call|eapply lookup_call|..]; eauto; congruence.
  - assert (∀ k, held_key pc = Some k → entries t !! k = None) as Hp.
    { intros k. eapply C3, list_elem_of_lookup_2, Hi. }
    destruct (advance_small _ _ _ _ _ Hp Ha) as [S1 SB S2 S3 S4 _]. pose proof (list_elem_of_lookup_2 _ _ _ Hi) as Hin.
    (** Another holder keeps its key vacant and does not share the shard of a new holder. *)
    assert (∀ j pcj kj, j ≠ i → ts !! j = Some pcj → held_key pcj = Some kj →
      entries t' !! kj = None ∧ ∀ k, held_key pc' = Some k → shard_of k ≠ shard_of kj) as Hother.
    { intros j pcj kj Hn Hj Hkj. pose proof (list_elem_of_lookup_2 _ _ _ Hj) as Hinj. split.
      - destruct (entries t' !! kj) eqn:E; [|done]. exfalso. destruct (S3 kj) as [H|H]; [by rewrite E| |].
        + apply H. by eapply C3.
        + apply Hn. by eapply C4.
      - intros k Hk Es. destruct (S4 k Hk) as [_ [H|H]].
        + apply Hn. by eapply C4.
        + by apply (locked_false _ _ H pcj kj). }
    split; cbn.
    + rewrite (owed_sum_insert _ _ _ _ Hi). lia.
    + auto.
    + intros pc0 [->|(j & _ & Hj)]%elem_of_insert; [by apply S2, C2|]. by eapply C2, list_elem_of_lookup_2.
    + intros pc0 k [->|(j & Hn & Hj)]%elem_of_insert Hk; [by apply S4|]. by eapply Hother.
    + intros j1 j2 pc1 pc2 k1 k2 [(<- & <- & _)|[Hn1 H1]]%list_lookup_insert_Some
        [(<- & <- & _)|[Hn2 H2]]%list_lookup_insert_Some Hk1 Hk2 Es; [done| | |by eapply C4].
      * exfalso. eapply (Hother j2); eauto.
      * exfalso. eapply (Hother j1); eauto.
Qed.

Lemma counted_reachable c : rtc (step shard_of shards) start c → counted c.
Proof.
  intros H. remember start as c0 eqn:E. assert (counted c0) as H0 by (subst; apply counted_start). clear E.
  induction H as [|c1 c2 c3 Hs _ IH]; [done|]. by apply IH, (counted_step c1).
Qed.

Lemma idle_empty t ts : rtc (step shard_of shards) start (t, ts) → is_idle t = true → entries t = ∅.
Proof.
  intros [C1 _ C2 _ _]%counted_reachable. cbn in *. pose proof (owed_sum_nonneg ts C2).
  unfold is_idle. rewrite Z.eqb_eq. intros E0. apply map_size_empty_inv. lia.
Qed.

(** C9: in every interleaving a count of zero means that no flow is visible and none is being
    published; no release underflows, so that a call can only panic on an overflow with 2^64 - 1 flows
    and reservations; and the count of a quiet table is the number of its flows. *)
Theorem zero_count_means_empty t ts :
  rtc (step shard_of shards) start (t, ts) →
  (is_idle t = true → entries t = ∅ ∧ ∀ k v r, Reserved k v r ∉ ts) ∧
  (∀ pc, pc ∈ ts → advance shard_of shards (locked shard_of ts) t pc = Panics →
     count t = uint_max 64 ∧ ∃ k v r, pc = Vacant k v r) ∧
  ((∀ pc, pc ∈ ts → owed pc = 0) → count t = table_len t).
Proof.
  intros [C1 CB C2 C3 C4]%counted_reachable; cbn in *. pose proof (owed_sum_nonneg ts C2). split; [|split].
  - unfold is_idle. rewrite Z.eqb_eq. intros E0. split; [apply map_size_empty_inv; lia|].
    intros k v r Hin. pose proof (owed_le_sum ts _ C2 Hin). cbn in *. lia.
  - intros pc Hin Hp. pose proof (owed_le_sum ts pc C2 Hin) as Ho.
    destruct pc; cbn in Hp; repeat case_match; try done.
    + split; [|by eexists _, _, _]. unfold increment_count, checked_add, uint_max in *.
      destruct (Z.leb_spec (count t + 1) (2 ^ 64 - 1)); [done|]. lia.
    + exfalso. unfold decrement_count_by in *. cbn in Ho. destruct (n =? 0); [done|].
      destruct (Z.ltb_spec (count t) n); [lia|done].
  - intros Hq. assert (owed_sum ts = 0) as E0; [|unfold table_len; lia].
    clear -Hq. induction ts as [|pc ts IH]; [done|]. cbn. rewrite (Hq pc ltac:(left)), IH; [done|].
    intros; apply Hq; by right.
Qed.

End Counting.

(** ** Registrations *)

Section Registrations.

Context {V : Type} (shard_of : FlowKey → nat) (shards : nat).

Implicit Types (t : FlowTable V) (ts : list (Pc V)) (pc : Pc V).

Definition reg_of pc : option Z :=
  match pc with
  | Drawn _ _ r | Vacant _ _ r | Reserved _ _ r | Leased _ r | Dropping _ r => Some r
  | _ => None
  end.

(** The lease of a published entry. *)
Definition lease_of pc : option (FlowKey * Z) :=
  match pc with Leased k r | Dropping k r => Some (k, r) | _ => None end.

(** A registration belongs to one call, and a visible one to the call that published it. *)
Record owned (c : Config V) : Prop := {
  ow_positive : 1 <= next_registration c.1;
  ow_entry k e : entries c.1 !! k = Some e → registration e < next_registration c.1;
  ow_thread pc r : pc ∈ c.2 → reg_of pc = Some r → r < next_registration c.1;
  ow_distinct i j pc1 pc2 r :
    c.2 !! i = Some pc1 → c.2 !! j = Some pc2 → reg_of pc1 = Some r → reg_of pc2 = Some r → i = j;
  ow_lease pc k e : pc ∈ c.2 → entries c.1 !! k = Some e → reg_of pc = Some (registration e) →
    lease_of pc = Some (k, registration e)
}.

(** What an action does to the registrations. *)
Record reg_step t pc t' pc' : Prop := {
  rs_next : next_registration t <= next_registration t' <= next_registration t + 1;
  rs_reg r : reg_of pc' = Some r → reg_of pc = Some r ∨ (r = next_registration t ∧ next_registration t < next_registration t');
  rs_entry k e' : entries t' !! k = Some e' →
    (∃ e, entries t !! k = Some e ∧ registration e = registration e') ∨
    (reg_of pc = Some (registration e') ∧ pc' = Leased k (registration e') ∧ lease_of pc = None);
  rs_lease k r : lease_of pc = Some (k, r) → ∀ r', reg_of pc' = Some r' → lease_of pc' = Some (k, r)
}.

Lemma draw_next t : 1 <= next_registration t < 2 ^ 64 - 1 →
  next_registration (draw_registration t).1 = next_registration t + 1.
Proof. intros H. cbn. apply wrapping_add_small. unfold is_uint. lia. Qed.

Lemma advance_registrations lk t pc t' pc' :
  1 <= next_registration t < 2 ^ 64 - 1 → advance shard_of shards lk t pc = Next t' pc' → reg_step t pc t' pc'.
Proof.
  intros Hb Ha. pose proof (draw_next t Hb) as Hd.
  assert (∀ k e, entries t !! k = Some e → ∃ e', entries t !! k = Some e' ∧ registration e' = registration e) as Hsame.
  { intros k e He. by exists e. }
  destruct pc as [k v|k v r|k v|k v|k v r|k v r|k r|k r|f i n|n|];
    cbn -[Nat.ltb retain_where remove_if wrapping_add] in Ha, Hd.
  - injection Ha as <- <-. split; cbn -[wrapping_add]; [lia| |auto|done]. intros r [= <-]. right. lia.
  - destruct (lk _); [done|]. destruct (entries t !! k) as [e|] eqn:Ek; injection Ha as <- <-;
      (split; cbn; [lia|auto| |done]); [|auto].
    intros k' e'. destruct (decide (k = k')) as [<-|Hn]; [|rewrite lookup_insert_ne by done; auto].
    rewrite lookup_insert_eq. intros [= <-]. auto.
  - destruct (lk _); [done|]. destruct (entries t !! k) as [e|] eqn:Ek; injection Ha as <- <-;
      (split; cbn; [lia|done|auto|done]).
  - injection Ha as <- <-. split; cbn -[wrapping_add]; [lia| |auto|done]. intros r [= <-]. right. lia.
  - destruct (increment_count t) as [[t1 c]|] eqn:Ei; [|done]. injection Ha as <- <-.
    apply increment_spec in Ei as (E1 & E2 & _). split; cbn; rewrite ?E1, ?E2; [lia|auto|auto|done].
  - injection Ha as <- <-. split; cbn; [lia|auto| |done].
    intros k' e'. destruct (decide (k = k')) as [<-|Hn]; [|rewrite lookup_insert_ne by done; auto].
    rewrite lookup_insert_eq. intros [= <-]. auto.
  - injection Ha as <- <-. split; cbn; [lia|auto|auto|]. by intros k' r' [= -> ->].
  - destruct (lk _); [done|]. pose proof (remove_if_spec t k r) as Hr.
    destruct (remove_if t k r) as [t1 b]. destruct Hr as (_ & R2 & _ & R4 & R5). injection Ha as <- <-.
    split; [lia|by destruct b| |by destruct b]. intros k' e' He. left. destruct (decide (k' = k)) as [->|Hn]; [|rewrite R4 in He by done; auto].
    destruct b; [destruct R5 as (e & _ & _ & Hx); congruence|]. destruct R5 as [-> _]. auto.
  - destruct (i <? shards)%nat; [|injection Ha as <- <-; split; cbn; [lia|done|auto|done]].
    destruct (lk i); [done|]. pose proof (retain_where_spec t (λ k, bool_decide (shard_of k = i)) f) as Hr.
    destruct (retain_where t _ f) as [t1 m]. destruct Hr as (_ & R2 & _ & _ & R5). injection Ha as <- <-.
    split; cbn; [lia|done| |done]. intros k' e' He. left. destruct (R5 _ _ He) as (e & ? & ?). by exists e.
  - destruct (decrement_count_by t n) as [[t1 c]|] eqn:Ei; [|done]. injection Ha as <- <-.
    apply decrement_spec in Ei as (E1 & E2 & _). split; cbn; rewrite ?E1, ?E2; [lia|done|auto|done].
  - done.
Qed.

Lemma owned_start : owned start.
Proof.
  split; cbn; [done|by intros ? ?; rewrite lookup_empty|by intros ? ? []%not_elem_of_nil| |by intros ? ? ? []%not_elem_of_nil].
  intros i j pc1 pc2 r Hi. by rewrite lookup_nil in Hi.
Qed.

Lemma owned_step c c' :
  step shard_of shards c c' → next_registration c.1 < 2 ^ 64 - 1 → owned c →
  owned c' ∧ next_registration c'.1 <= next_registration c.1 + 1.
Proof.
  destruct 1 as [t ts pc Hc|t ts i pc t' pc' Hi Ha]; intros Hb [O1 O2 O3 O4 O5]; cbn in *.
  - assert (reg_of pc = None) as Hr by by destruct pc.
    assert (∀ pc0, pc0 ∈ ts ++ [pc] → reg_of pc0 ≠ None → pc0 ∈ ts) as Hin.
    { intros pc0 [?|Hin]%elem_of_app Hk; [done|]. apply list_elem_of_singleton in Hin as ->. done. }
    assert (∀ j pc0, (ts ++ [pc]) !! j = Some pc0 → reg_of pc0 ≠ None → ts !! j = Some pc0) as Hlk.
    { intros j pc0 [?|[_ Hj]]%lookup_app_Some Hk; [done|]. destruct (j - length ts)%nat; [|done]. by injection Hj as <-. }
    split; [split; cbn|lia]; try done.
    + intros pc0 r H0 H1. eapply O3; [apply Hin|]; eauto; congruence.
    + intros a b pc1 pc2 r Hj1 Hj2 H1 H2. eapply O4; [apply Hlk|apply Hlk|..]; eauto; congruence.
    + intros pc0 k e H0 He H1. eapply O5; [apply Hin|..]; eauto; congruence.
  - destruct (advance_registrations _ _ _ _ _ (conj O1 Hb) Ha) as [S1 S2 S3 S4].
    pose proof (list_elem_of_lookup_2 _ _ _ Hi) as Hin.
    (** No other call has the registration of the call that moves. *)
    assert (∀ j pcj r, j ≠ i → ts !! j = Some pcj → reg_of pcj = Some r → reg_of pc' ≠ Some r ∧ reg_of pc ≠ Some r) as Hother.
    { intros j pcj r Hn Hj Hr. assert (reg_of pc ≠ Some r) as Hpc by (intros H; apply Hn; by eapply O4).
      split; [|done]. intros [?|[-> _]]%S2; [done|].
      pose proof (O3 pcj _ (list_elem_of_lookup_2 _ _ _ Hj) Hr). lia. }
    split; [split; cbn|lia].
    + lia.
    + intros k e' [(e & He & Er)|(Hr & _)]%S3; [apply O2 in He; lia|]. apply (O3 _ _ Hin) in Hr. lia.
    + intros pc0 r [->|(j & _ & Hj)]%elem_of_insert Hr.
      * apply S2 in Hr as [Hr|[-> ?]]; [|lia]. apply (O3 _ _ Hin) in Hr. lia.
      * pose proof (O3 pc0 r (list_elem_of_lookup_2 _ _ _ Hj) Hr). lia.
    + intros j1 j2 pc1 pc2 r [(<- & <- & _)|[Hn1 H1]]%list_lookup_insert_Some
        [(<- & <- & _)|[Hn2 H2]]%list_lookup_insert_Some Hr1 Hr2; [done| | |by eapply O4].
      * exfalso. by destruct (Hother j2 pc2 r).
      * exfalso. by destruct (Hother j1 pc1 r).
    + intros pc0 k e' [->|(j & Hn & Hj)]%elem_of_insert He Hr.
      * apply S3 in He as [(e & He & Er)|(Hr' & -> & _)]; [|done].
        destruct (S2 _ Hr) as [Hr'|[Hr' _]]; [|apply O2 in He; lia].
        rewrite <- Er in *. eapply S4; [|done]. by eapply O5.
      * apply S3 in He as [(e & He & Er)|(Hr' & -> & _)].
        -- rewrite <- Er in *. eapply O5; [by eapply list_elem_of_lookup_2|done|done].
        -- exfalso. destruct (Hother j pc0 (registration e')); done.
Qed.

Lemma owned_reachable n c :
  nsteps (step shard_of shards) n start c → Z.of_nat n < 2 ^ 64 - 2 → owned c ∧ next_registration c.1 <= 1 + Z.of_nat n.
Proof.
  revert c. induction n as [|n IH]; intros c Hn Hb.
  { inversion Hn; subst. split; [apply owned_start|cbn; lia]. }
  apply nsteps_inv_r in Hn as (c1 & H1 & H2). destruct (IH _ H1) as [Ho Hle]; [lia|].
  destruct (owned_step _ _ H2) as [? ?]; [lia|done|]. split; [done|lia].
Qed.

(** A registration that is out of the hands of the call that drew it. *)
Definition published (r : Z) (c : Config V) : Prop :=
  r < next_registration c.1 ∧ ∀ pc, pc ∈ c.2 → reg_of pc = Some r → lease_of pc ≠ None.

Lemma published_step r k c c' :
  step shard_of shards c c' → 1 <= next_registration c.1 < 2 ^ 64 - 1 → published r c →
  published r c' ∧ (registration_of c.1 k ≠ Some r → registration_of c'.1 k ≠ Some r).
Proof.
  destruct 1 as [t ts pc Hc|t ts i pc t' pc' Hi Ha]; intros Hb [P1 P2]; cbn in *.
  - split; [split; [done|]|done]. intros pc0 [?|Hin]%elem_of_app; [auto|].
    apply list_elem_of_singleton in Hin as ->. by destruct pc.
  - destruct (advance_registrations _ _ _ _ _ Hb Ha) as [S1 S2 S3 S4].
    pose proof (list_elem_of_lookup_2 _ _ _ Hi) as Hin. split; [split; [cbn; lia|]|].
    + intros pc0 [->|(j & _ & Hj)]%elem_of_insert Hr; [|by eapply P2; [eapply list_elem_of_lookup_2|]].
      destruct (S2 _ Hr) as [Hr'|[-> _]]; [|lia]. specialize (P2 _ Hin Hr').
      destruct (lease_of pc) as [[k1 r1]|]; [|done]. by rewrite (S4 k1 r1 eq_refl _ Hr).
    + unfold registration_of. intros Hk Hk'. apply fmap_Some in Hk' as (e' & He' & ->).
      destruct (S3 _ _ He') as [(e & He & Er)|(Hr & _ & Hl)].
      * apply Hk. rewrite He. cbn. congruence.
      * by apply (P2 _ Hin).
Qed.

Lemma published_steps r k n c c' :
  nsteps (step shard_of shards) n c c' → owned c → next_registration c.1 + Z.of_nat n < 2 ^ 64 - 1 → published r c →
  published r c' ∧ (registration_of c.1 k ≠ Some r → registration_of c'.1 k ≠ Some r).
Proof.
  revert c. induction n as [|n IH]; intros c Hn Ho Hb Hp; [by inversion Hn; subst|].
  inversion Hn as [|? ? c1 ? Hs Hn1]; subst. clear Hn. rename Hn1 into Hn. pose proof (ow_positive _ Ho).
  destruct (published_step r k _ _ Hs) as [Hp1 Hk1]; [lia|done|].
  destruct (owned_step _ _ Hs) as [Ho1 Hle]; [lia|done|].
  destruct (IH c1) as [Hp2 Hk2]; [done|done|lia|done|]. auto.
Qed.

(** A registration that a key has lost is never its registration again. *)
Theorem registration_never_returns n1 n2 n3 (c1 c2 c3 : Config V) k r :
  nsteps (step shard_of shards) n1 start c1 → registration_of c1.1 k = Some r →
  nsteps (step shard_of shards) n2 c1 c2 → registration_of c2.1 k ≠ Some r →
  nsteps (step shard_of shards) n3 c2 c3 → Z.of_nat (n1 + n2 + n3) < 2 ^ 64 - 2 →
  registration_of c3.1 k ≠ Some r.
Proof.
  intros H1 Hr H2 Hn H3 Hb. destruct (owned_reachable _ _ H1) as [Ho1 Hle1]; [lia|].
  assert (nsteps (step shard_of shards) (n1 + n2) start c2) as H12 by by eapply nsteps_trans.
  destruct (owned_reachable _ _ H12) as [Ho2 Hle2]; [lia|].
  assert (published r c1) as Hp1.
  { apply fmap_Some in Hr as (e & He & ->). split; [by eapply ow_entry|]. intros pc Hin Hpc.
    by rewrite (ow_lease _ Ho1 pc k e Hin He Hpc). }
  destruct (published_steps r k _ _ _ H2 Ho1) as [Hp2 _]; [lia|done|].
  destruct (published_steps r k _ _ _ H3 Ho2) as [_ Hk]; [lia|done|]. auto.
Qed.

(** In every interleaving a published flow stays visible until its own lease is dropped, the table
    is retained or the key is registered again: dropping any other lease does not remove it, also when
    it has the same key. *)
Theorem lease_keeps_its_flow n t ts i j pc k r e t' pc' :
  nsteps (step shard_of shards) n start (t, ts) → Z.of_nat n < 2 ^ 64 - 2 →
  ts !! j = Some (Leased k r) → entries t !! k = Some e → registration e = r →
  ts !! i = Some pc → advance shard_of shards (locked shard_of ts) t pc = Next t' pc' →
  entries t' !! k = Some e ∨ (∃ v r', pc = Drawn k v r') ∨ (∃ f s m, pc = Retaining f s m).
Proof.
  intros Hn Hb Hj He Hr Hi Ha. assert (rtc (step shard_of shards) start (t, ts)) as Hrtc by by eapply rtc_nsteps_2.
  apply counted_reachable in Hrtc as [_ _ _ C3 _].
  destruct (owned_reachable _ _ Hn Hb) as [[O1 O2 O3 O4 O5] _]. cbn in *.
  destruct pc as [k1 v1|k1 v1 r1|k1 v1|k1 v1|k1 v1 r1|k1 v1 r1|k1 r1|k1 r1|f s m|m|];
    cbn -[Nat.ltb retain_where remove_if] in Ha.
  - injection Ha as <- <-. by left.
  - destruct (decide (k1 = k)) as [->|Hne]; [right; left; by eexists _, _|]. left.
    destruct (locked _ _ _); [done|]. destruct (entries t !! k1); injection Ha as <- <-; [|done].
    cbn. by rewrite lookup_insert_ne.
  - left. destruct (locked _ _ _); [done|]. by destruct (entries t !! k1); injection Ha as <- <-.
  - injection Ha as <- <-. by left.
  - left. destruct (increment_count t) as [[t1 c]|] eqn:Ei; [|done]. injection Ha as <- <-.
    apply increment_spec in Ei as (-> & _). done.
  - left. injection Ha as <- <-. cbn. rewrite lookup_insert_ne; [done|]. intros ->.
    rewrite (C3 _ k (list_elem_of_lookup_2 _ _ _ Hi) eq_refl) in He. done.
  - injection Ha as <- <-. by left.
  - left. destruct (locked _ _ _); [done|]. pose proof (remove_if_spec t k1 r1) as Hs.
    destruct (remove_if t k1 r1) as [t1 b]. destruct Hs as (_ & _ & _ & R4 & R5). injection Ha as <- <-.
    destruct (decide (k = k1)) as [<-|Hne]; [|by rewrite R4].
    destruct b; [|by destruct R5 as [-> _]]. destruct R5 as (e1 & He1 & Er1 & _). exfalso.
    assert (e1 = e) as -> by congruence. assert (i = j) as -> by (eapply O4; eauto; cbn; congruence). congruence.
  - right. right. by eexists _, _, _.
  - left. destruct (decrement_count_by t m) as [[t1 c]|] eqn:Ei; [|done]. injection Ha as <- <-.
    apply decrement_spec in Ei as (-> & _). done.
  - done.
Qed.

End Registrations.

(** ** A call alone

    The operations run alone are the interleaved calls without other threads. *)

Section Alone.

Context {V : Type} (shard_of : FlowKey → nat) (shards : nat) (Hshards : ∀ k, (shard_of k < shards)%nat).

Implicit Types (t : FlowTable V).

Inductive alone : FlowTable V * Pc V → FlowTable V * Pc V → Prop :=
| alone_step t pc t' pc' : advance shard_of shards (λ _, false) t pc = Next t' pc' → alone (t, pc) (t', pc').

Lemma alone_once t pc t1 pc1 c : advance shard_of shards (λ _, false) t pc = Next t1 pc1 → rtc alone (t1, pc1) c → rtc alone (t, pc) c.
Proof. intros Ha Hr. eapply rtc_l; [by constructor|done]. Qed.

Lemma insert_alone t k v t' r ins :
  insert_registered t k v = Some (t', (r, ins)) → rtc alone (t, Registering k v) (t', Leased k r).
Proof.
  unfold insert_registered. destruct (draw_registration t) as [t1 r1] eqn:Ed.
  assert (entries t1 = entries t) as Ee by by injection Ed as <- _.
  intros H. apply (alone_once _ _ t1 (Drawn k v r1)); [cbn -[draw_registration]; by rewrite Ed|].
  destruct (entries t1 !! k) as [e|] eqn:Ek.
  - injection H as <- <- _. apply (alone_once _ _ (put t1 k v r1) (Leased k r1)); [cbn; by rewrite Ek|done].
  - destruct (increment_count t1) as [[t2 c]|] eqn:Ei; [|done]. cbn in H. injection H as <- <- _.
    apply (alone_once _ _ t1 (Vacant k v r1)); [cbn; by rewrite Ek|].
    apply (alone_once _ _ t2 (Reserved k v r1)); [cbn; by rewrite Ei|].
    by apply (alone_once _ _ (put t2 k v r1) (Leased k r1)).
Qed.

Lemma try_insert_alone t k v t' r :
  try_insert_registered t k v = Some (t', r) →
  rtc alone (t, TryRegistering k v) (t', match r with Some r => Leased k r | None => Finished end).
Proof.
  unfold try_insert_registered. destruct (entries t !! k) as [e|] eqn:Ek.
  - intros [= <- <-]. apply (alone_once _ _ t Finished); [cbn; by rewrite Ek|done].
  - destruct (draw_registration t) as [t1 r1] eqn:Ed.
    destruct (increment_count t1) as [[t2 c]|] eqn:Ei; [|done]. cbn. intros [= <- <-].
    apply (alone_once _ _ t (TryVacant k v)); [cbn; by rewrite Ek|].
    apply (alone_once _ _ t1 (Vacant k v r1)); [cbn -[draw_registration]; by rewrite Ed|].
    apply (alone_once _ _ t2 (Reserved k v r1)); [cbn; by rewrite Ei|].
    by apply (alone_once _ _ (put t2 k v r1) (Leased k r1)).
Qed.

Lemma drop_alone t k r t' :
  drop_lease t (mkLease k r true) = Some t' → rtc alone (t, Leased k r) (t', Finished).
Proof.
  unfold drop_lease, remove_registration. cbn [l_active l_entry l_registration].
  intros H. apply (alone_once _ _ t (Dropping k r)); [done|].
  destruct (remove_if t k r) as [t1 b] eqn:Er.
  apply (alone_once _ _ t1 (if b then Releasing 1 else Finished)); [cbn -[remove_if]; by rewrite Er|].
  destruct b; [|by injection H as <-].
  destruct (decrement_count_by t1 1) as [[t2 c]|] eqn:Ed; [|done]. cbn in H. injection H as <-.
  apply (alone_once _ _ t2 Finished); [cbn -[decrement_count_by]; by rewrite Ed|done].
Qed.

(** Visiting the shards from [i] on is visiting their keys at once. *)
Lemma retain_shards t f i n :
  (i <= shards)%nat →
  rtc alone (t, Retaining f i n)
    ((retain_where t (λ k, bool_decide (i <= shard_of k)%nat) f).1,
     Releasing (n + (retain_where t (λ k, bool_decide (i <= shard_of k)%nat) f).2)).
Proof.
  intros Hi. remember (shards - i)%nat as d eqn:Ed. revert t i n Hi Ed.
  induction d as [|d IH]; intros t i n Hi Ed.
  - assert (i = shards) as -> by lia.
    assert (map_imap (retain_entry (λ k, bool_decide (shards <= shard_of k)%nat) f) (entries t) = entries t) as Em.
    { apply map_eq. intros k. rewrite map_lookup_imap. destruct (entries t !! k) as [e|]; [|done]. cbn.
      unfold retain_entry. rewrite bool_decide_eq_false_2; [done|]. specialize (Hshards k). lia. }
    unfold retain_where. rewrite Em. cbn [fst snd]. rewrite Z.sub_diag, Z.add_0_r.
    apply (alone_once _ _ t (Releasing n)); [cbn -[Nat.ltb]; by rewrite Nat.ltb_irrefl|]. by destruct t.
  - destruct (retain_where t (λ k, bool_decide (shard_of k = i)) f) as [t1 m] eqn:Er.
    apply (alone_once _ _ t1 (Retaining f (S i) (n + m))).
    { cbn -[Nat.ltb retain_where]. by rewrite (proj2 (Nat.ltb_lt _ _)), Er by lia. }
    etrans; [apply IH; lia|]. injection Er as <- <-. unfold retain_where. cbn [entries with_entries fst snd].
    assert (∀ k e, retain_entry (λ k, bool_decide (shard_of k = i)) f k e ≫=
      retain_entry (λ k, bool_decide (S i <= shard_of k)%nat) f k = retain_entry (λ k, bool_decide (i <= shard_of k)%nat) f k e) as Hk.
    { intros k e. unfold retain_entry. destruct (decide (shard_of k = i)) as [Es|Es].
      - rewrite (bool_decide_eq_true_2 (shard_of k = i)), (bool_decide_eq_true_2 (i <= shard_of k)%nat) by lia.
        destruct (f k (value e)) as [v []]; [|done]. cbn. by rewrite bool_decide_eq_false_2 by lia.
      - rewrite (bool_decide_eq_false_2 (shard_of k = i)) by done. cbn.
        by rewrite (bool_decide_ext (S i <= shard_of k)%nat (i <= shard_of k)%nat) by lia. }
    assert (map_imap (retain_entry (λ k, bool_decide (S i <= shard_of k)%nat) f)
      (map_imap (retain_entry (λ k, bool_decide (shard_of k = i)) f) (entries t)) =
      map_imap (retain_entry (λ k, bool_decide (i <= shard_of k)%nat) f) (entries t)) as Eg.
    { apply map_eq. intros k. rewrite !map_lookup_imap. destruct (entries t !! k) as [e|]; [|done]. apply Hk. }
    rewrite Eg. replace (n + _ + _) with (n + (Z.of_nat (size (entries t)) - Z.of_nat (size
      (map_imap (retain_entry (λ k, bool_decide (i <= shard_of k)%nat) f) (entries t))))) by lia. done.
Qed.

Lemma retain_alone t f t' res :
  retain t f = Some (t', res) → rtc alone (t, Retaining f 0 0) (t', Finished).
Proof.
  unfold retain. intros H. etrans; [apply retain_shards; lia|].
  assert (retain_where t (λ k, bool_decide (0 <= shard_of k)%nat) f = retain_where t (λ _, true) f) as ->.
  { unfold retain_where. f_equal. }
  destruct (retain_where t (λ _, true) f) as [t1 n]. cbn [fst snd]. rewrite Z.add_0_l.
  destruct (decrement_count_by t1 n) as [[t2 c]|] eqn:Ed; [|done]. cbn in H. injection H as <- _.
  apply (alone_once _ _ t2 Finished); [cbn -[decrement_count_by]; by rewrite Ed|done].
Qed.

End Alone.

(** ** Schedules and witnesses *)

Section Schedules.

Context {V : Type} (shard_of : FlowKey → nat) (shards : nat).

(** A new call, or the number of the thread that moves. *)
Definition act (c : Config V) (a : FlowKey * V + nat) : option (Config V) :=
  match a with
  | inl (k, v) => Some (c.1, c.2 ++ [Registering k v])
  | inr i =>
      match c.2 !! i with
      | Some pc => match advance shard_of shards (locked shard_of c.2) c.1 pc with
                   | Next t' pc' => Some (t', <[i := pc']> c.2)
                   | _ => None
                   end
      | None => None
      end
  end.

Fixpoint schedule (c : Config V) (l : list (FlowKey * V + nat)) : option (Config V) :=
  match l with [] => Some c | a :: l => c ← act c a; schedule c l end.

Lemma schedule_steps c l c' : schedule c l = Some c' → nsteps (step shard_of shards) (length l) c c'.
Proof.
  revert c. induction l as [|a l IH]; intros c; [intros [= <-]; constructor|].
  cbn. destruct (act c a) as [c1|] eqn:Ea; [|done]. cbn. intros Hl%IH. econstructor; [|done].
  destruct c as [t ts]. destruct a as [[k v]|i]; cbn in Ea.
  - injection Ea as <-. by constructor.
  - destruct (ts !! i) as [pc|] eqn:Ei; [|done]. destruct (advance _ _ _ _ _) eqn:Ev; try done.
    injection Ea as <-. by eapply step_advance.
Qed.

End Schedules.

Definition sample_key : FlowKey := udp_bind (mkSocketAddr (IpV4 167772161) 53).

(** A flow is registered, its key is registered again, and the first lease is dropped. *)
Definition sample_schedule : list (FlowKey * Z + nat) :=
  [inl (sample_key, 7); inr 0%nat; inr 0%nat; inr 0%nat; inr 0%nat;
   inl (sample_key, 8); inr 1%nat; inr 1%nat; inr 0%nat].

Definition sample_table : FlowTable Z := mkTable {[sample_key := mkFlow 2 8]} 1 3.

Definition sample_config : Config Z := (sample_table, [Dropping sample_key 1; Leased sample_key 2]).

Lemma sample_reached : nsteps (step (λ _, 0%nat) 1) 9 start sample_config.
Proof. apply (schedule_steps (λ _, 0%nat) 1 start sample_schedule). vm_compute. reflexivity. Qed.

Lemma zero_count_means_empty_witness :
  rtc (step (λ _, 0%nat) 1) start sample_config ∧ count sample_table = table_len sample_table.
Proof.
  assert (rtc (step (λ _, 0%nat) 1) start sample_config) as H by exact (rtc_nsteps_2 _ _ _ sample_reached).
  split; [exact H|].
  apply (proj2 (proj2 (zero_count_means_empty (λ _, 0%nat) 1 sample_table
    [Dropping sample_key 1; Leased sample_key 2] H))).
  intros pc Hin. apply elem_of_cons in Hin as [->|Hin]; [reflexivity|].
  apply list_elem_of_singleton in Hin as ->. reflexivity.
Defined.

Lemma lease_keeps_its_flow_witness :
  nsteps (step (λ _, 0%nat) 1) 9 start sample_config ∧
  ∃ t' pc', advance (λ _, 0%nat) 1 (locked (λ _, 0%nat) sample_config.2) sample_table (Dropping sample_key 1) = Next t' pc' ∧
    entries t' !! sample_key = Some (mkFlow 2 8).
Proof.
  split; [exact sample_reached|]. exists sample_table, Finished. split; [vm_compute; reflexivity|].
  destruct (lease_keeps_its_flow (λ _, 0%nat) 1 9 sample_table [Dropping sample_key 1; Leased sample_key 2] 0 1
    (Dropping sample_key 1) sample_key 2 (mkFlow 2 8) sample_table Finished sample_reached) as [H|[(v & r & H)|(f & s & m & H)]];
    [reflexivity|reflexivity|vm_compute; reflexivity|reflexivity|reflexivity|vm_compute; reflexivity|exact H|discriminate|discriminate].
Defined.
