(* ===== verification/UdpFragments.v ===== *)
(** * The packet filter of the data plane and its UDP fragments

    Models easytier-core/src/gateway/dataplane/packet.rs (which packets from peers belong
    to the data plane, and to which flow), [try_process_packet_from_peer] of
    dataplane/mod.rs (the filter in the peer pipeline), and dataplane/udp_fragments.rs,
    which keeps the fragments of a UDP datagram together: tails that arrive before the
    first fragment, which alone has the port, wait for it, and all follow its decision.

    Parameters: the packet views of smoltcp (class [Smoltcp]), the insertion-ordered hash
    map (class [OrderedHashMap] with its documented behaviour) and the queue to the
    embedded network stack.  Instants are nanoseconds.  The flow table is read while
    other tasks change it, so each read is given the table it sees.  [unwrap] and
    slices that panic are [None]; a loop that runs out of fuel is [None] too.

    The theorems say that the filter never panics and its eviction loop ends, that the
    byte budget and the capacity hold and the accounting is exact, that no packet is
    duplicated or invented, and what happens to tails that arrive early. *)

From stdpp Require Import base gmap list numbers sorting.
From Stdlib Require Import ZArith Lia.
From S2P Require Import Prelude Packet FlowTable.
Local Open Scope Z_scope.

Abbreviation ZCPacket := Packet.ZCPacket.t.
Abbreviation FlowKey := FlowTable.FlowKey.

(** ** Packet views *)

Record Ipv4Info : Type := mkIpv4 {
  ip_version : Z;
  ip_header_len : Z;
  ip_next_header : Z;
  ip_src : Z;
  ip_dst : Z;
  ip_ident : Z;
  ip_frag_offset : Z;
  ip_more_frags : bool;
  ip_checksum_ok : bool;
  ip_payload : list Z
}.

Record TcpInfo : Type := mkTcp {
  tcp_src_port : Z;
  tcp_dst_port : Z;
  tcp_fin : bool;
  tcp_syn : bool;
  tcp_rst : bool;
  tcp_psh : bool;
  tcp_ack : bool;
  tcp_urg : bool;
  tcp_ece : bool;
  tcp_cwr : bool
}.

Record UdpInfo : Type := mkUdp { udp_src_port : Z; udp_dst_port : Z; udp_length : Z }.

(** [new_checked] and, for UDP, [new_unchecked]. *)
Class Smoltcp := {
  ipv4_checked : list Z → option Ipv4Info;
  tcp_checked : list Z → option TcpInfo;
  udp_checked : list Z → option UdpInfo;
  udp_unchecked : list Z → UdpInfo
}.

Definition IPV4_HEADER_LEN : Z := 20.
Definition UDP_HEADER_LEN : Z := 8.
Definition PROTO_TCP : Z := 6.
Definition PROTO_UDP : Z := 17.

(** ** Classification *)

Inductive ClassifiedPeerPacket : Type :=
| ClTcp (entry listen_entry : FlowKey) (flags : Z)
| ClUdp (entry : FlowKey)
| ClFragmentedUdp (destination : Z)
| ClUnsupported.

Inductive PeerPacketRoute : Type :=
| RPass
| Unmatched (entry : FlowKey) (tcp_flags : option Z)
| Deliver (entry : FlowKey) (tcp_flags : option Z)
| FragmentedUdp (destination : Z).

Section Classify.

Context `{!Smoltcp} {V : Type}.

Definition tcp_flags (t : TcpInfo) : Z :=
  Z.lor (Z.b2z (tcp_fin t)) (Z.lor (Z.shiftl (Z.b2z (tcp_syn t)) 1) (Z.lor (Z.shiftl (Z.b2z (tcp_rst t)) 2)
    (Z.lor (Z.shiftl (Z.b2z (tcp_psh t)) 3) (Z.lor (Z.shiftl (Z.b2z (tcp_ack t)) 4)
    (Z.lor (Z.shiftl (Z.b2z (tcp_urg t)) 5) (Z.lor (Z.shiftl (Z.b2z (tcp_ece t)) 6)
      (Z.shiftl (Z.b2z (tcp_cwr t)) 7))))))).

Definition socket_v4 (bits port : Z) : SocketAddr := mkSocketAddr (IpV4 bits) port.

Definition classify_peer_ipv4_payload (payload : list Z) : ClassifiedPeerPacket :=
  match ipv4_checked payload with
  | None => ClUnsupported
  | Some ipv4 =>
      if negb (ip_version ipv4 =? 4) || (ip_header_len ipv4 <? IPV4_HEADER_LEN) then ClUnsupported
      else if ip_next_header ipv4 =? PROTO_TCP then
        match tcp_checked (ip_payload ipv4) with
        | None => ClUnsupported
        | Some tcp =>
            let dst := socket_v4 (ip_src ipv4) (tcp_src_port tcp) in
            let src := socket_v4 (ip_dst ipv4) (tcp_dst_port tcp) in
            ClTcp (mkKey src dst FlowTcp) (mkKey src (socket_v4 0 0) FlowTcpListen) (tcp_flags tcp)
        end
      else if ip_next_header ipv4 =? PROTO_UDP then
        if negb (ip_frag_offset ipv4 =? 0) || ip_more_frags ipv4 then ClFragmentedUdp (ip_dst ipv4)
        else match udp_checked (ip_payload ipv4) with
             | None => ClUnsupported
             | Some udp => ClUdp (mkKey (socket_v4 (ip_dst ipv4) (udp_dst_port udp))
                                    (socket_v4 (ip_src ipv4) (udp_src_port udp)) FlowUdp)
             end
      else ClUnsupported
  end.

Definition is_data_plane_packet (packet : ZCPacket) : bool :=
  match Packet.ZCPacket.peer_manager_header packet with
  | None => false
  | Some header =>
      let ty := PeerManagerHeader.packet_type header in
      let is_modified_source :=
        (ty =? packet_type_u8 DataWithKcpSrcModified) || (ty =? packet_type_u8 DataWithQuicSrcModified) in
      if negb (ty =? packet_type_u8 Data) && negb is_modified_source then false
      else if is_modified_source && negb (PeerManagerHeader.from_peer_id header =? PeerManagerHeader.to_peer_id header)
      then false
      else true
  end.

Definition is_udp_fragment (packet : ZCPacket) : option bool :=
  if is_data_plane_packet packet then
    payload ← Packet.ZCPacket.payload packet;
    Some match ipv4_checked payload with
         | None => false
         | Some ip => (ip_version ip =? 4) && (IPV4_HEADER_LEN <=? ip_header_len ip) &&
                      (ip_next_header ip =? PROTO_UDP) && (negb (ip_frag_offset ip =? 0) || ip_more_frags ip)
         end
  else Some false.

Definition route_peer_ipv4_payload (t : FlowTable V) (payload : list Z) (allow_tcp_listen_fallback : bool) : PeerPacketRoute :=
  let route entry flags := if contains_key t entry then Deliver entry flags else Unmatched entry flags in
  match classify_peer_ipv4_payload payload with
  | ClTcp entry listen_entry flags =>
      route (if allow_tcp_listen_fallback && negb (contains_key t entry) then listen_entry else entry) (Some flags)
  | ClUdp entry => route (udp_bind (src entry)) None
  | ClFragmentedUdp destination => FragmentedUdp destination
  | ClUnsupported => RPass
  end.

Definition route_peer_packet (t : FlowTable V) (packet : ZCPacket) (allow_tcp_listen_fallback : bool)
    : option PeerPacketRoute :=
  if is_data_plane_packet packet then
    payload ← Packet.ZCPacket.payload packet;
    Some (route_peer_ipv4_payload t payload allow_tcp_listen_fallback)
  else Some RPass.

End Classify.

(** ** The insertion-ordered hash map *)

Fixpoint assoc {K V : Type} `{!EqDecision K} (k : K) (l : list (K * V)) : option V :=
  match l with
  | [] => None
  | (k', v) :: l => if decide (k' = k) then Some v else assoc k l
  end.

(**    [om_list] lists the entries from the front.  [om_replace] is [get_mut] with an
    assignment, which keeps the place; [om_insert] moves a present key to the back. *)
Class OrderedHashMap (K V M : Type) `{!EqDecision K} := {
  om_list : M → list (K * V);
  om_empty : M;
  om_get : K → M → option V;
  om_replace : K → V → M → M;
  om_insert : K → V → M → M;
  om_pop_front : M → option (V * M);
  om_list_empty : om_list om_empty = [];
  om_get_list k m : om_get k m = assoc k (om_list m);
  om_replace_list k v m : om_list (om_replace k v m) = map (λ kv, if decide (kv.1 = k) then (k, v) else kv) (om_list m);
  om_insert_list k v m : om_list (om_insert k v m) = filter (λ kv, kv.1 ≠ k) (om_list m) ++ [(k, v)];
  om_pop_empty m : om_list m = [] → om_pop_front m = None;
  om_pop_cons m k v l : om_list m = (k, v) :: l → ∃ m', om_pop_front m = Some (v, m') ∧ om_list m' = l
}.

(** ** Fragments *)

Record UdpFragmentKey : Type := mkFragKey {
  fk_source : Z;
  fk_destination : Z;
  fk_id : Z;
  fk_from_peer : Z;
  fk_to_peer : Z;
  fk_packet_type : Z;
  fk_exit_node : bool;
  fk_no_proxy : bool;
  fk_not_send_to_tun : bool
}.

#[export] Instance udp_fragment_key_eq_dec : EqDecision UdpFragmentKey.
Proof. solve_decision. Defined.

Record UdpFragmentRoute : Type := mkFragRoute { fr_entry : FlowKey; fr_registration : option Z }.

Record UdpFragment : Type := mkFragment {
  last_seen : Z;
  route : option UdpFragmentRoute;
  pending : list ZCPacket;
  f_bytes : Z
}.

Definition new_fragment (now : Z) : UdpFragment := mkFragment now None [] 0.

Inductive PeerPacketFilterResult : Type :=
| Consumed
| Pass (packet : ZCPacket)
| PassBatch (packets : list ZCPacket).

Definition CAPACITY : Z := 1024.
Definition MAX_BYTES : Z := 1024 * 1024.
Definition TIMEOUT : Z := 1000000000.

Section Fragments.

Context {SM : Smoltcp} {V M Q : Type} {OM : OrderedHashMap UdpFragmentKey UdpFragment M}.

(** [try_send], whose error is only logged. *)
Context (try_send : Q → ZCPacket → Q).

Record UdpFragments : Type := mkFragments { local_ip : option Z; packets : M; bytes : Z }.

Implicit Types st : UdpFragments.

Definition default_fragments : UdpFragments := mkFragments None om_empty 0.

Definition set_local_ip st (ip : option Z) : UdpFragments :=
  if decide (local_ip st = ip) then st else mkFragments ip om_empty 0.

Definition evict_oldest st : UdpFragments :=
  match om_pop_front (packets st) with
  | Some (packet, m) => mkFragments (local_ip st) m (wrapping_sub 64 (bytes st) (f_bytes packet))
  | None => st
  end.

(** [duration_since] saturates. *)
Definition expired (now : Z) (packet : UdpFragment) : bool := TIMEOUT <=? Z.max 0 (now - last_seen packet).

Fixpoint remove_expired_loop (fuel : nat) st (now : Z) : option UdpFragments :=
  match fuel with
  | O => None
  | S fuel =>
      match head (om_list (packets st)) with
      | Some (_, packet) => if expired now packet then remove_expired_loop fuel (evict_oldest st) now else Some st
      | None => Some st
      end
  end.

Definition remove_expired st (now : Z) : option UdpFragments :=
  remove_expired_loop (S (length (om_list (packets st)))) st now.

Definition over_budget st : bool := (CAPACITY <? len (om_list (packets st))) || (MAX_BYTES <? bytes st).

Fixpoint evict_loop (fuel : nat) st : option UdpFragments :=
  match fuel with
  | O => None
  | S fuel => if over_budget st then evict_loop fuel (evict_oldest st) else Some st
  end.

(** The checks of [process] and the port, present in a first fragment; [None] refuses the fragment. *)
Definition fragment_port (ip : Ipv4Info) : option (option Z) :=
  let payload := ip_payload ip in
  if negb (ip_checksum_ok ip) || (len payload =? 0) || (ip_more_frags ip && negb (len payload mod 8 =? 0)) ||
     (65535 - 20 <? ip_frag_offset ip + len payload) then None
  else if ip_frag_offset ip =? 0 then
    if len payload <? UDP_HEADER_LEN then None
    else if udp_length (udp_unchecked payload) <? UDP_HEADER_LEN then None
    else Some (Some (udp_dst_port (udp_unchecked payload)))
  else Some None.

Definition fragment_key (ip : Ipv4Info) (header : PeerManagerHeader.t) : UdpFragmentKey :=
  mkFragKey (ip_src ip) (ip_dst ip) (ip_ident ip) (PeerManagerHeader.from_peer_id header)
    (PeerManagerHeader.to_peer_id header) (PeerManagerHeader.packet_type header)
    (PeerManagerHeader.is_exit_node header) (PeerManagerHeader.is_no_proxy header)
    (PeerManagerHeader.is_not_send_to_tun header).

(** The route a fragment of the context takes; [flows] is the table at this moment. *)
Definition choose_route (flows : FlowTable V) (key : UdpFragmentKey) (port : option Z) (r : option UdpFragmentRoute)
    : option UdpFragmentRoute :=
  match r, port with
  | None, Some port =>
      let entry := udp_bind (socket_v4 (fk_destination key) port) in
      Some (mkFragRoute entry (registration_of flows entry))
  | r, _ => r
  end.

(** What happens to the packet and to the packets that wait, for a context with its route chosen;
    [flows] is the table at the second reading. *)
Definition dispatch (flows : FlowTable V) (context : UdpFragment) (packet : ZCPacket) (q : Q)
    : UdpFragment * Q * PeerPacketFilterResult :=
  match route context with
  | Some r =>
      let done := mkFragment (last_seen context) (route context) [] 0 in
      match fr_registration r with
      | Some registration =>
          let q := if decide (registration_of flows (fr_entry r) = Some registration)
                   then foldl try_send q (packet :: pending context) else q in
          (done, q, Consumed)
      | None =>
          match pending context with
          | [] => (done, q, Pass packet)
          | pending => (done, q, PassBatch (pending ++ [packet]))
          end
      end
  | None =>
      (mkFragment (last_seen context) None (pending context ++ [packet])
         (wrapping_add 64 (f_bytes context) (Packet.ZCPacket.buf_len packet)), q, Consumed)
  end.

(** The part of [process] after the checks. *)
Definition process_fragment st (key : UdpFragmentKey) (port : option Z) (packet : ZCPacket)
    (flows flows' : FlowTable V) (now : Z) (q : Q) : option (UdpFragments * Q * PeerPacketFilterResult) :=
  let '(context, m) := match om_get key (packets st) with
                       | Some context => (context, om_replace key (new_fragment now) (packets st))
                       | None => (new_fragment now, packets st)
                       end in
  let b := wrapping_sub 64 (bytes st) (f_bytes context) in
  let context := mkFragment now (choose_route flows key port (route context)) (pending context) (f_bytes context) in
  let '(context, q, result) := dispatch flows' context packet q in
  let st := mkFragments (local_ip st) (om_insert key context m) (wrapping_add 64 b (f_bytes context)) in
  st ← evict_loop (S (length (om_list (packets st)))) st;
  Some (st, q, result).

(** [now1] and [now2] are the two readings of the clock. *)
Definition process st (packet : ZCPacket) (ip : option Z) (flows flows' : FlowTable V) (now1 now2 : Z) (q : Q)
    : option (UdpFragments * Q * PeerPacketFilterResult) :=
  let st := set_local_ip st ip in
  payload ← Packet.ZCPacket.payload packet;
  ipv4 ← ipv4_checked payload;
  if negb (bool_decide (Some (ip_dst ipv4) = ip)) then Some (st, q, Pass packet)
  else match fragment_port ipv4 with
       | None => Some (st, q, Consumed)
       | Some port =>
           header ← Packet.ZCPacket.peer_manager_header packet;
           st ← remove_expired st now1;
           process_fragment st (fragment_key ipv4 header) port packet flows flows' now2 q
       end.

(** ** The filter *)

(** The filter behind its fast gate: [flows2] is read by the routing, the others by
    [process]; [ip] is the address of this node. *)
Definition route_and_process st (packet : ZCPacket) (ip : option Z) (flows2 flows3 flows4 : FlowTable V) (now1 now2 : Z) (q : Q)
    : option (UdpFragments * Q * PeerPacketFilterResult) :=
  route ← route_peer_packet flows2 packet true;
  match route with
  | RPass | Unmatched _ _ => Some (st, q, Pass packet)
  | Deliver _ _ => Some (st, try_send q packet, Consumed)
  | FragmentedUdp destination =>
      if negb (bool_decide (Some destination = ip)) then Some (st, q, Pass packet)
      else process st packet ip flows3 flows4 now1 now2 q
  end.

(** [flows1] is read by the idle check. *)
Definition try_process_packet_from_peer st (packet : ZCPacket) (ip : option Z)
    (flows1 flows2 flows3 flows4 : FlowTable V) (now1 now2 : Z) (q : Q)
    : option (UdpFragments * Q * PeerPacketFilterResult) :=
  fragment ← (if is_idle flows1 then is_udp_fragment packet else Some true);
  if is_idle flows1 && negb fragment then Some (st, q, Pass packet)
  else route_and_process st packet ip flows2 flows3 flows4 now1 now2 q.

End Fragments.

(** * Properties *)

Fixpoint pending_bytes (l : list ZCPacket) : Z :=
  match l with [] => 0 | p :: l => Packet.ZCPacket.buf_len p + pending_bytes l end.

Lemma pending_bytes_app l l' : pending_bytes (l ++ l') = pending_bytes l + pending_bytes l'.
Proof. induction l as [|p l IH]; cbn; [done|]. rewrite IH. lia. Qed.

Lemma pending_bytes_nonneg l : 0 <= pending_bytes l.
Proof. induction l as [|p l IH]; cbn; [done|]. unfold Packet.ZCPacket.buf_len. pose proof (len_nonneg (Packet.ZCPacket.inner p)). lia. Qed.

(** A context accounts for what waits in it, and nothing waits once the route is known. *)
Definition wf_fragment (f : UdpFragment) : Prop :=
  f_bytes f = pending_bytes (pending f) ∧ (route f ≠ None → pending f = []).

Abbreviation Entries := (list (UdpFragmentKey * UdpFragment)).

Fixpoint total (l : Entries) : Z := match l with [] => 0 | kv :: l => f_bytes kv.2 + total l end.

Lemma stored_total_app l l' : total (l ++ l') = total l + total l'.
Proof. induction l as [|kv l IH]; cbn; [done|]. rewrite IH. lia. Qed.

Lemma total_nonneg l : Forall (λ kv, wf_fragment kv.2) l → 0 <= total l.
Proof.
  induction 1 as [|kv l [E _] _ IH]; cbn; [done|]. pose proof (pending_bytes_nonneg (pending kv.2)). lia.
Qed.

Definition older (a b : UdpFragmentKey * UdpFragment) : Prop := last_seen a.2 <= last_seen b.2.

(** The entries from the least recently used to the latest. *)
Record wf_entries (now : Z) (l : Entries) : Prop := {
  we_keys : NoDup (map fst l);
  we_fragments : Forall (λ kv, wf_fragment kv.2) l;
  we_order : StronglySorted older l;
  we_seen : Forall (λ kv, last_seen kv.2 <= now) l
}.

Lemma wf_suffix now l l' : wf_entries now (l ++ l') → wf_entries now l'.
Proof.
  intros [A B C D]. rewrite map_app in A. apply NoDup_app in A as (_ & _ & A). apply Forall_app in B as [_ B].
  apply Forall_app in D as [_ D]. split; try done. clear -C. induction l as [|x l IH]; [done|].
  inversion C; subst. auto.
Qed.

Lemma wf_later now now' l : now <= now' → wf_entries now l → wf_entries now' l.
Proof. intros Hn [A B C D]. split; try done. eapply Forall_impl; [exact D|]. cbn. lia. Qed.

(** What waits. *)
Definition held (l : Entries) : list ZCPacket := concat (map (λ kv, pending kv.2) l).

Lemma held_app l l' : held (l ++ l') = held l ++ held l'.
Proof. unfold held. by rewrite map_app, concat_app. Qed.

(** Taking a key out of the entries. *)
Lemma assoc_split (k : UdpFragmentKey) (l : Entries) :
  NoDup (map fst l) →
  match assoc k l with
  | Some f => ∃ l1 l2, l = l1 ++ (k, f) :: l2 ∧ filter (λ kv, kv.1 ≠ k) l = l1 ++ l2
  | None => filter (λ kv, kv.1 ≠ k) l = l
  end.
Proof.
  induction l as [|[k' f] l IH]; intros N; [done|]. cbn in N. apply NoDup_cons in N as [Hk N]. specialize (IH N).
  cbn [assoc]. rewrite filter_cons. cbn [fst]. destruct (decide (k' = k)) as [->|Hne].
  - rewrite decide_False by (intros H; by apply H). exists [], l. split; [done|]. cbn.
    destruct (assoc k l) as [f'|] eqn:E; [|done]. destruct IH as (l1 & l2 & -> & _).
    exfalso. apply Hk. rewrite map_app. cbn. set_solver.
  - rewrite decide_True by done. destruct (assoc k l) as [f'|].
    + destruct IH as (l1 & l2 & -> & ->). by exists ((k', f) :: l1), l2.
    + by rewrite IH.
Qed.

Lemma sorted_app_cons_inv l1 x l2 : StronglySorted older (l1 ++ x :: l2) → StronglySorted older (l1 ++ l2).
Proof.
  induction l1 as [|y l1 IH]; cbn; inversion 1 as [|? ? S F]; subst; [done|]. constructor; [auto|].
  apply Forall_app in F as [F1 F2]. inversion F2; subst. by apply Forall_app.
Qed.

Lemma wf_remove now l1 x l2 : wf_entries now (l1 ++ x :: l2) → wf_entries now (l1 ++ l2).
Proof.
  intros [A B C D]. split.
  - rewrite map_app in *. cbn in A. apply NoDup_app in A as (A1 & A2 & A3). apply NoDup_cons in A3 as [_ A3].
    apply NoDup_app. split; [done|]. split; [|done]. intros k Hk H. apply (A2 k Hk). set_solver.
  - apply Forall_app in B as [B1 B2]. inversion B2; subst. by apply Forall_app.
  - by eapply sorted_app_cons_inv.
  - apply Forall_app in D as [D1 D2]. inversion D2; subst. by apply Forall_app.
Qed.

Lemma sorted_snoc l x : StronglySorted older l → Forall (λ y, older y x) l → StronglySorted older (l ++ [x]).
Proof.
  induction 1 as [|y l S IH F]; intros H; cbn; [by repeat constructor|]. inversion H; subst. constructor; [auto|].
  apply Forall_app. split; [done|]. by constructor.
Qed.

Lemma wf_snoc now l k f :
  wf_entries now l → k ∉ map fst l → wf_fragment f → last_seen f = now → wf_entries now (l ++ [(k, f)]).
Proof.
  intros [A B C D] Hk Hf Hn. split.
  - rewrite map_app. apply NoDup_app. split; [done|]. split; [|apply NoDup_singleton]. cbn. set_solver.
  - apply Forall_app. split; [done|]. by constructor.
  - apply sorted_snoc; [done|]. eapply Forall_impl; [exact D|]. unfold older. cbn. lia.
  - apply Forall_app. split; [done|]. constructor; [cbn; lia|done].
Qed.

Section Accounting.

Context {SM : Smoltcp} {V M Q : Type} {OM : OrderedHashMap UdpFragmentKey UdpFragment M} (try_send : Q → ZCPacket → Q).

Abbreviation UdpFragments := (UdpFragments (M := M)).
Implicit Types st : UdpFragments.

Definition entries_of st : Entries := om_list (packets st).

Record fragments_inv (now : Z) st : Prop := {
  fi_entries : wf_entries now (entries_of st);
  fi_bytes : bytes st = total (entries_of st);
  fi_budget : bytes st <= MAX_BYTES;
  fi_capacity : len (entries_of st) <= CAPACITY
}.

Lemma inv_later now now' st : now <= now' → fragments_inv now st → fragments_inv now' st.
Proof. intros Hn [A B C D]. split; try done. by eapply wf_later. Qed.

Lemma default_inv now ip : fragments_inv now (mkFragments ip om_empty 0).
Proof.
  split; unfold entries_of; cbn; rewrite ?om_list_empty; try done. split; try constructor.
Qed.

Lemma set_local_ip_inv now st ip : fragments_inv now st → fragments_inv now (set_local_ip st ip).
Proof. intros H. unfold set_local_ip. destruct (decide _); [done|]. apply default_inv. Qed.

(** An eviction takes the first entry and its bytes. *)
Lemma evict_cons st k f l :
  entries_of st = (k, f) :: l →
  entries_of (evict_oldest st) = l ∧ bytes (evict_oldest st) = wrapping_sub 64 (bytes st) (f_bytes f).
Proof.
  intros E. destruct (om_pop_cons _ _ _ _ E) as (m & Hp & Hl). unfold evict_oldest. by rewrite Hp.
Qed.

Lemma evict_accounted st k f l :
  entries_of st = (k, f) :: l → bytes st = total (entries_of st) → bytes st < 2 ^ 64 →
  Forall (λ kv, wf_fragment kv.2) (entries_of st) →
  entries_of (evict_oldest st) = l ∧ bytes (evict_oldest st) = total l ∧ total l <= bytes st.
Proof.
  intros E Hb Hlt Hwf. destruct (evict_cons _ _ _ _ E) as [El Eb]. rewrite E in *. cbn in Hb.
  apply Forall_cons in Hwf as [[E1 _] Hwf']. pose proof (total_nonneg l Hwf').
  pose proof (pending_bytes_nonneg (pending f)). cbn in E1.
  split; [done|]. rewrite Eb, wrapping_sub_small by (unfold is_uint; lia). lia.
Qed.

Lemma remove_expired_loop_spec fuel now now' st :
  now <= now' → fragments_inv now st → (length (entries_of st) < fuel)%nat →
  ∃ st' l, remove_expired_loop fuel st now' = Some st' ∧ fragments_inv now st' ∧
    entries_of st = l ++ entries_of st' ∧ Forall (λ kv, expired now' kv.2 = true) l ∧
    Forall (λ kv, expired now' kv.2 = false) (entries_of st').
Proof.
  intros Hn. revert st. induction fuel as [|fuel IH]; intros st Hi Hf; [lia|]. cbn.
  fold (entries_of st). destruct (entries_of st) as [|[k f] l] eqn:E; cbn.
  { exists st, []. by rewrite E. }
  destruct (expired now' f) eqn:Ex.
  - destruct Hi as [A B C D]. rewrite E in *. unfold MAX_BYTES in C.
    destruct (evict_accounted st k f l E) as (El & Eb & Hle); rewrite ?E; [done|lia|by destruct A|].
    destruct (IH (evict_oldest st)) as (st' & l' & R & Hi' & Es & Hx & Hy).
    + split; rewrite ?El; [by apply (wf_suffix _ [(k, f)])|done|unfold MAX_BYTES; lia|].
      unfold len in *. cbn in D. lia.
    + rewrite El. cbn in Hf. lia.
    + exists st', ((k, f) :: l'). rewrite El in Es. split; [exact R|]. split; [done|].
      split; [by rewrite Es|]. split; [by constructor|done].
  - exists st, []. split; [done|]. split; [done|]. rewrite E. split; [done|]. split; [constructor|].
    destruct Hi as [[_ _ S _] _ _ _]. rewrite E in S. inversion S as [|? ? _ F]; subst. constructor; [done|].
    eapply Forall_impl; [exact F|]. intros [k' f'] Ho. unfold older, expired in *. cbn in *. lia.
Qed.

Lemma remove_expired_spec now now' st :
  now <= now' → fragments_inv now st →
  ∃ st' l, remove_expired st now' = Some st' ∧ fragments_inv now st' ∧
    entries_of st = l ++ entries_of st' ∧ Forall (λ kv, expired now' kv.2 = true) l ∧
    Forall (λ kv, expired now' kv.2 = false) (entries_of st').
Proof. intros Hn Hi. apply remove_expired_loop_spec; [done|done|]. unfold entries_of. lia. Qed.

Lemma evict_local_ip st : local_ip (evict_oldest st) = local_ip st.
Proof. unfold evict_oldest. by destruct (om_pop_front (packets st)) as [[? ?]|]. Qed.

Lemma remove_expired_local_ip st now st' : remove_expired st now = Some st' → local_ip st' = local_ip st.
Proof.
  unfold remove_expired. generalize (S (length (om_list (packets st)))). intros n. revert st.
  induction n as [|n IH]; intros st; [done|]. cbn. destruct (head _) as [[k f]|]; [|by intros [= <-]].
  destruct (expired now f); [|by intros [= <-]]. intros ->%IH. apply evict_local_ip.
Qed.

Lemma evict_loop_local_ip n st st' : evict_loop n st = Some st' → local_ip st' = local_ip st.
Proof.
  revert st. induction n as [|n IH]; intros st; [done|]. cbn. destruct (over_budget st); [|by intros [= <-]].
  intros ->%IH. apply evict_local_ip.
Qed.

(** The eviction loop ends within the budget. *)
Lemma evict_loop_spec fuel now st :
  wf_entries now (entries_of st) → bytes st = total (entries_of st) → bytes st < 2 ^ 64 →
  (length (entries_of st) < fuel)%nat →
  ∃ st' l, evict_loop fuel st = Some st' ∧ fragments_inv now st' ∧ entries_of st = l ++ entries_of st' ∧
    (over_budget st = false → st' = st).
Proof.
  revert st. induction fuel as [|fuel IH]; intros st Hw Hb Hlt Hf; [lia|]. cbn [evict_loop].
  destruct (over_budget st) eqn:Ho.
  - destruct (entries_of st) as [|[k f] l] eqn:E.
    { exfalso. unfold over_budget in Ho. fold (entries_of st) in Ho. rewrite E in Ho. cbn in Hb. rewrite Hb in Ho.
      done. }
    destruct (evict_accounted st k f l E) as (El & Eb & Hle); rewrite ?E; [done|lia|by destruct Hw|].
    destruct (IH (evict_oldest st)) as (st' & l' & R & Hi' & Es & _); rewrite ?El.
    + by apply (wf_suffix _ [(k, f)]).
    + done.
    + lia.
    + cbn in Hf. lia.
    + exists st', ((k, f) :: l'). rewrite El in Es. split; [exact R|]. split; [done|]. by rewrite Es.
  - exists st, []. split; [done|]. split; [|done].
    unfold over_budget in Ho. fold (entries_of st) in Ho. apply orb_false_iff in Ho as [H1 H2].
    apply Z.ltb_ge in H1, H2. by split.
Qed.

(** *** One fragment *)

(** The packets a result passes on. *)
Definition output (r : PeerPacketFilterResult) : list ZCPacket :=
  match r with Consumed => [] | Pass p => [p] | PassBatch ps => ps end.

Lemma dispatch_spec (flows : FlowTable V) c packet (q : Q) :
  f_bytes c = pending_bytes (pending c) → f_bytes c <= MAX_BYTES → Packet.ZCPacket.buf_len packet < 2 ^ 63 →
  ∃ c' q' r offered, dispatch try_send flows c packet q = (c', q', r) ∧ wf_fragment c' ∧ last_seen c' = last_seen c ∧
    f_bytes c' <= f_bytes c + Packet.ZCPacket.buf_len packet ∧ q' = foldl try_send q offered ∧
    offered ++ output r ++ pending c' ⊆+ packet :: pending c.
Proof.
  intros Hb Hm Hp. unfold dispatch. pose proof (pending_bytes_nonneg (pending c)) as Hpn.
  assert (0 <= Packet.ZCPacket.buf_len packet) as Hpk by apply len_nonneg.
  destruct (route c) as [rt|] eqn:Er.
  - assert (wf_fragment (mkFragment (last_seen c) (Some rt) [] 0)) as Hwf by by split.
    destruct (fr_registration rt) as [rg|].
    + destruct (decide _).
      * eexists _, _, _, (packet :: pending c). do 3 (split; [done|]). split; [cbn; lia|]. split; [done|]. cbn. by rewrite app_nil_r.
      * eexists _, _, _, []. do 3 (split; [done|]). split; [cbn; lia|]. split; [done|]. cbn. apply submseteq_nil_l.
    + destruct (pending c) as [|p ps] eqn:Ep.
      * eexists _, _, _, []. do 3 (split; [done|]). split; [cbn in *; lia|]. done.
      * eexists _, _, _, []. do 3 (split; [done|]). split; [cbn [f_bytes]; lia|]. split; [done|]. cbn [output app pending]. rewrite app_nil_r.
        by rewrite (Permutation_cons_append (p :: ps) packet).
  - eexists _, _, _, []. split; [done|]. unfold MAX_BYTES in *.
    assert (wrapping_add 64 (f_bytes c) (Packet.ZCPacket.buf_len packet) = f_bytes c + Packet.ZCPacket.buf_len packet) as Ew.
    { apply wrapping_add_small. unfold is_uint. lia. }
    rewrite Ew. split; [split; [|done]; cbn; rewrite pending_bytes_app; cbn; lia|]. split; [done|].
    split; [cbn; lia|]. split; [done|]. cbn. apply Permutation_submseteq. symmetry. apply Permutation_cons_append.
Qed.

(** The entries without a key, whatever [get_mut] left in its place. *)
Lemma filter_replace (k : UdpFragmentKey) (v : UdpFragment) (l : Entries) :
  filter (λ kv, kv.1 ≠ k) (map (λ kv, if decide (kv.1 = k) then (k, v) else kv) l) = filter (λ kv, kv.1 ≠ k) l.
Proof.
  induction l as [|[k' f] l IH]; [done|]. cbn [map]. rewrite !filter_cons. cbn [fst].
  destruct (decide (k' = k)) as [->|Hn]; cbn [fst].
  - rewrite !decide_False by (intros H; by apply H). done.
  - rewrite !decide_True by done. by rewrite IH.
Qed.

Lemma held_split k f (l1 l2 : Entries) : held (l1 ++ (k, f) :: l2) ≡ₚ pending f ++ held (l1 ++ l2).
Proof.
  rewrite !held_app. change (held ((k, f) :: l2)) with (pending f ++ held l2). rewrite !app_assoc. f_equiv. apply Permutation_app_comm.
Qed.

Definition context_of st (key : UdpFragmentKey) : option UdpFragment := assoc key (entries_of st).

Definition new_slot st (key : UdpFragmentKey) : Z := match context_of st key with Some _ => 0 | None => 1 end.

(** The context of a fragment and the other entries. *)
Lemma context_spec now0 now st key :
  now0 <= now → fragments_inv now0 st →
  ∃ c m rest, (match om_get key (packets st) with
               | Some context => (context, om_replace key (new_fragment now) (packets st))
               | None => (new_fragment now, packets st)
               end) = (c, m) ∧
    (∀ c', om_list (om_insert key c' m) = rest ++ [(key, c')]) ∧
    c = default (new_fragment now) (context_of st key) ∧ rest = filter (λ kv, kv.1 ≠ key) (entries_of st) ∧
    wf_entries now rest ∧ key ∉ map fst rest ∧ wf_fragment c ∧ f_bytes c <= MAX_BYTES ∧
    wrapping_sub 64 (bytes st) (f_bytes c) = total rest ∧ bytes st = f_bytes c + total rest ∧
    len rest + 1 = len (entries_of st) + new_slot st key ∧
    pending c ++ held rest ≡ₚ held (entries_of st).
Proof.
  intros Hn [A B C D]. set (rest := filter (λ kv, kv.1 ≠ key) (entries_of st)).
  assert (key ∉ map fst rest) as Hk.
  { intros H. apply list_elem_of_fmap in H as ([k' f'] & E & [H _]%list_elem_of_filter). cbn in *. congruence. }
  unfold new_slot, context_of. rewrite om_get_list. fold (entries_of st). pose proof (assoc_split key (entries_of st) (we_keys _ _ A)) as Hs. fold rest in Hs.
  unfold MAX_BYTES in *. destruct (assoc key (entries_of st)) as [c|].
  - destruct Hs as (l1 & l2 & El & Er). rewrite El in A, B |- *.
    pose proof (we_fragments _ _ A) as Hf. apply Forall_app in Hf as [Hf1 Hf2]. apply Forall_cons in Hf2 as [Hc Hf2].
    assert (Forall (λ kv, wf_fragment kv.2) (l1 ++ l2)) as Hf by by apply Forall_app.
    pose proof (total_nonneg _ Hf) as Ht. destruct Hc as [Hc1 Hc2]. pose proof (pending_bytes_nonneg (pending c)) as Hp.
    rewrite stored_total_app in B. cbn [total snd] in B, Hc1, Hc2. rewrite stored_total_app in Ht.
    eexists c, _, rest. split; [done|]. split.
    { intros c'. rewrite om_insert_list, om_replace_list, filter_replace. done. }
    split; [done|]. split; [done|]. rewrite Er. split; [eapply wf_later; [exact Hn|]; by eapply wf_remove|].
    split; [by rewrite <- Er|]. split; [done|]. rewrite stored_total_app. split; [lia|].
    split; [rewrite wrapping_sub_small; unfold is_uint; lia|]. split; [lia|].
    split; [rewrite !len_app; unfold len; cbn; lia|]. by rewrite <- held_split.
  - pose proof (total_nonneg _ (we_fragments _ _ A)) as Ht.
    eexists _, _, rest. split; [done|]. split; [intros c'; by rewrite om_insert_list|]. split; [done|]. split; [done|].
    rewrite Hs. split; [by eapply wf_later|]. split; [by rewrite <- Hs|]. cbn [new_fragment f_bytes pending app].
    split; [done|]. split; [lia|]. split; [rewrite wrapping_sub_small; unfold is_uint; lia|].
    split; [lia|]. split; [lia|done].
Qed.

Lemma process_fragment_spec now0 now st key port packet (flows flows' : FlowTable V) (q : Q) :
  now0 <= now → fragments_inv now0 st → Packet.ZCPacket.buf_len packet < 2 ^ 63 →
  ∃ st' q' r offered, process_fragment try_send st key port packet flows flows' now q = Some (st', q', r) ∧
    fragments_inv now st' ∧ local_ip st' = local_ip st ∧ q' = foldl try_send q offered ∧
    offered ++ output r ++ held (entries_of st') ⊆+ packet :: held (entries_of st).
Proof.
  intros Hn Hi Hp. destruct (context_spec now0 now st key Hn Hi)
    as (c & m & rest & Ec & Hins & _ & _ & Hw & Hk & Hc & Hcb & Hb & Ht & _ & Hheld).
  pose proof (fi_budget _ _ Hi) as Hbud.
  unfold process_fragment. rewrite Ec, Hb. set (c1 := mkFragment now _ (pending c) (f_bytes c)).
  destruct (dispatch_spec flows' c1 packet q) as (c' & q' & r & offered & Ed & Hwf & Hs & Hmax & Hq & Hsub);
    [by destruct Hc|done|done|]. rewrite Ed. cbn [last_seen c1] in Hs.
  pose proof (total_nonneg _ (we_fragments _ _ Hw)). pose proof (pending_bytes_nonneg (pending c')).
  destruct Hwf as [Hwf1 Hwf2]. cbn [f_bytes c1] in Hmax. unfold MAX_BYTES in *.
  assert (wrapping_add 64 (total rest) (f_bytes c') = total rest + f_bytes c') as Ew.
  { apply wrapping_add_small. unfold is_uint. lia. }
  rewrite Ew. set (st1 := mkFragments (local_ip st) _ _).
  assert (entries_of st1 = rest ++ [(key, c')]) as E1 by by unfold entries_of; cbn; rewrite Hins.
  destruct (evict_loop_spec (S (length (entries_of st1))) now st1) as (st' & l & Ev & Hi' & Es & _).
  - rewrite E1. by apply wf_snoc.
  - rewrite E1, stored_total_app. cbn. lia.
  - cbn. lia.
  - lia.
  - unfold entries_of in Ev at 1. rewrite Ev. cbn [mbind option_bind]. exists st', q', r, offered.
    split; [done|]. split; [done|]. split; [|split; [done|]].
    + by rewrite (evict_loop_local_ip _ _ _ Ev).
    + assert (held (entries_of st') ⊆+ pending c' ++ held rest) as Hsuf.
      { assert (pending c' ++ held rest ≡ₚ held (entries_of st1)) as ->.
        { rewrite E1, held_app. unfold held at 3. cbn. rewrite app_nil_r. apply Permutation_app_comm. }
        rewrite Es, held_app. apply submseteq_inserts_l. done. }
      etrans; [by apply submseteq_app; [reflexivity|apply submseteq_app; [reflexivity|exact Hsuf]]|].
      rewrite <- Hheld, !app_assoc, app_comm_cons. apply submseteq_app; [|done]. by rewrite <- app_assoc.
Qed.

(** *** The filter *)

Lemma header_payload (p : ZCPacket) h :
  Packet.ZCPacket.peer_manager_header p = Some h → is_Some (Packet.ZCPacket.payload p).
Proof.
  unfold Packet.ZCPacket.peer_manager_header, Packet.ZCPacket.bytes_from_offset, Packet.ZCPacket.payload, Packet.ZCPacket.payload_offset.
  set (o := get_packet_offsets _).
  assert (payload_offset_of o = peer_manager_header_offset o + PEER_MANAGER_HEADER_SIZE ∧ 0 <= peer_manager_header_offset o) as [-> Ho].
  { unfold o. by destruct (Packet.ZCPacket.packet_type p). }
  destruct (slice_from _ (peer_manager_header_offset o)) as [b|] eqn:Es; [|done]. cbn.
  unfold PeerManagerHeader.from_prefix. destruct (Z.ltb_spec (len b) PEER_MANAGER_HEADER_SIZE) as [|Hb]; [done|]. intros _.
  assert (len b = len (Packet.ZCPacket.inner p) - peer_manager_header_offset o ∧
    peer_manager_header_offset o <= len (Packet.ZCPacket.inner p)) as [El Hle].
  { unfold slice_from in Es. destruct (_ && _) eqn:E; [|done]. injection Es as <-. unfold len in *.
    rewrite length_drop. lia. }
  rewrite slice_from_Some; [by eexists|]. unfold PEER_MANAGER_HEADER_SIZE in *. lia.
Qed.

Lemma data_plane_packet p : is_data_plane_packet p = true →
  ∃ h payload, Packet.ZCPacket.peer_manager_header p = Some h ∧ Packet.ZCPacket.payload p = Some payload.
Proof.
  unfold is_data_plane_packet. destruct (Packet.ZCPacket.peer_manager_header p) as [h|] eqn:Eh; [|done]. intros _.
  destruct (header_payload p h Eh) as [payload Ep]. by eexists _, _.
Qed.

Lemma is_udp_fragment_total p : is_Some (is_udp_fragment p).
Proof.
  unfold is_udp_fragment. destruct (is_data_plane_packet p) eqn:Ed; [|by eexists].
  destruct (data_plane_packet p Ed) as (h & payload & _ & ->). by eexists.
Qed.

Lemma route_total (flows : FlowTable V) p b :
  ∃ r, route_peer_packet flows p b = Some r ∧
    ∀ d, r = FragmentedUdp d → ∃ h payload ip, Packet.ZCPacket.peer_manager_header p = Some h ∧
      Packet.ZCPacket.payload p = Some payload ∧ ipv4_checked payload = Some ip.
Proof.
  unfold route_peer_packet. destruct (is_data_plane_packet p) eqn:Ed; [|by eexists].
  destruct (data_plane_packet p Ed) as (h & payload & Eh & ->). cbn. eexists. split; [done|].
  intros d. unfold route_peer_ipv4_payload, classify_peer_ipv4_payload.
  destruct (ipv4_checked payload) as [ip|] eqn:Ei; [|done]. intros _. by eexists _, _, _.
Qed.

Lemma process_spec now0 now1 now2 st packet h payload ipv4 ip (flows flows' : FlowTable V) (q : Q) :
  now0 <= now1 <= now2 → fragments_inv now0 st → Packet.ZCPacket.buf_len packet < 2 ^ 63 →
  Packet.ZCPacket.peer_manager_header packet = Some h → Packet.ZCPacket.payload packet = Some payload →
  ipv4_checked payload = Some ipv4 →
  ∃ st' q' r offered, process try_send st packet ip flows flows' now1 now2 q = Some (st', q', r) ∧
    fragments_inv now2 st' ∧ q' = foldl try_send q offered ∧
    offered ++ output r ++ held (entries_of st') ⊆+ packet :: held (entries_of st).
Proof.
  intros Hn Hi Hp Hh Hpl Hip. unfold process. rewrite Hpl. cbn [mbind option_bind].
  rewrite Hip, Hh. cbn [mbind option_bind].
  assert (held (entries_of (set_local_ip st ip)) ⊆+ held (entries_of st)) as Hset.
  { unfold set_local_ip. destruct (decide _); [done|]. unfold entries_of. cbn. rewrite om_list_empty. apply submseteq_nil_l. }
  apply (set_local_ip_inv _ _ ip) in Hi. set (st1 := set_local_ip st ip) in *.
  assert (fragments_inv now2 st1) as Hi2 by (eapply inv_later; [|exact Hi]; lia).
  destruct (negb _); [|destruct (fragment_port ipv4) as [port|]].
  - eexists _, _, _, []. split; [done|]. split; [done|]. split; [done|]. cbn. by apply submseteq_skip.
  - destruct (remove_expired_spec now0 now1 st1) as (st2 & l & -> & Hi3 & Es & _); [lia|done|]. cbn [mbind option_bind].
    destruct (process_fragment_spec now0 now2 st2 (fragment_key ipv4 h) port packet flows flows' q)
      as (st' & q' & r & offered & -> & ? & _ & ? & Hsub); [lia|done|done|].
    eexists _, _, _, offered. split; [done|]. split; [done|]. split; [done|]. etrans; [exact Hsub|].
    apply submseteq_skip. etrans; [|exact Hset]. rewrite Es, held_app. by apply submseteq_inserts_l.
  - eexists _, _, _, []. split; [done|]. split; [done|]. split; [done|]. cbn. etrans; [exact Hset|]. by apply submseteq_cons.
Qed.

Lemma filter_spec now0 now1 now2 st packet ip (f1 f2 f3 f4 : FlowTable V) (q : Q) :
  now0 <= now1 <= now2 → fragments_inv now0 st → Packet.ZCPacket.buf_len packet < 2 ^ 63 →
  ∃ st' q' r offered, try_process_packet_from_peer try_send st packet ip f1 f2 f3 f4 now1 now2 q = Some (st', q', r) ∧
    fragments_inv now2 st' ∧ q' = foldl try_send q offered ∧
    offered ++ output r ++ held (entries_of st') ⊆+ packet :: held (entries_of st).
Proof.
  intros Hn Hi Hp. unfold try_process_packet_from_peer.
  assert (fragments_inv now2 st) as Hi2 by (eapply inv_later; [|exact Hi]; lia).
  assert (∃ b, (if is_idle f1 then is_udp_fragment packet else Some true) = Some b) as [b ->].
  { destruct (is_idle f1); [|by eexists]. apply is_udp_fragment_total. }
  cbn [mbind option_bind]. destruct (is_idle f1 && negb b).
  { by eexists _, _, _, []. }
  unfold route_and_process. destruct (route_total f2 packet true) as (r & -> & Hr). cbn [mbind option_bind].
  destruct r as [| | |d]; [by eexists _, _, _, []|by eexists _, _, _, []| |].
  - eexists _, _, _, [packet]. split; [done|]. split; [done|]. split; [done|]. done.
  - destruct (negb _); [by eexists _, _, _, []|].
    destruct (Hr d eq_refl) as (h & payload & ipv4 & Eh & Ep & Ei). by eapply process_spec.
Qed.

(** *** Runs *)

(** A packet from a peer, or a round of the housekeeping task. *)
Inductive Event : Type :=
| EvPacket (packet : ZCPacket) (ip : option Z) (f1 f2 f3 f4 : FlowTable V) (now1 now2 : Z)
| EvHousekeep (ip : option Z) (now : Z).

Definition run_event (s : UdpFragments * Q) (e : Event) : option (UdpFragments * Q * PeerPacketFilterResult) :=
  match e with
  | EvPacket packet ip f1 f2 f3 f4 now1 now2 =>
      try_process_packet_from_peer try_send s.1 packet ip f1 f2 f3 f4 now1 now2 s.2
  | EvHousekeep ip now => st ← remove_expired (set_local_ip s.1 ip) now; Some (st, s.2, Consumed)
  end.

(** The results in order. *)
Fixpoint run (s : UdpFragments * Q) (es : list Event) : option (UdpFragments * Q * list PeerPacketFilterResult) :=
  match es with
  | [] => Some (s, [])
  | e :: es => '(s, r) ← run_event s e; '(s, rs) ← run s es; Some (s, r :: rs)
  end.

(** The clock never goes back, and buffers are shorter than [isize::MAX]. *)
Fixpoint plausible (now : Z) (es : list Event) : Prop :=
  match es with
  | [] => True
  | EvPacket packet _ _ _ _ _ now1 now2 :: es =>
      now <= now1 <= now2 ∧ Packet.ZCPacket.buf_len packet < 2 ^ 63 ∧ plausible now2 es
  | EvHousekeep _ now' :: es => now <= now' ∧ plausible now' es
  end.

Definition packets_of (es : list Event) : list ZCPacket :=
  omap (λ e, match e with EvPacket p _ _ _ _ _ _ _ => Some p | EvHousekeep _ _ => None end) es.

Lemma event_spec now st q e :
  plausible now [e] → fragments_inv now st →
  ∃ now' st' q' r offered, run_event (st, q) e = Some (st', q', r) ∧ (∀ es, plausible now (e :: es) → plausible now' es) ∧
    fragments_inv now' st' ∧ q' = foldl try_send q offered ∧
    offered ++ output r ++ held (entries_of st') ⊆+ packets_of [e] ++ held (entries_of st).
Proof.
  destruct e as [packet ip f1 f2 f3 f4 now1 now2|ip now1]; cbn [plausible]; intros Hpl Hi.
  - destruct (filter_spec now now1 now2 st packet ip f1 f2 f3 f4 q) as (st' & q' & r & offered & ? & ? & ? & ?); [tauto..|].
    exists now2, st', q', r, offered. split; [done|]. split; [cbn; tauto|]. done.
  - apply (set_local_ip_inv _ _ ip) in Hi.
    destruct (remove_expired_spec now now1 (set_local_ip st ip)) as (st' & l & E & Hi' & Es & _); [tauto|done|].
    exists now1, st', q, Consumed, []. cbn [run_event fst snd]. rewrite E. split; [done|]. split; [cbn; tauto|].
    split; [eapply inv_later; [|exact Hi']; tauto|]. split; [done|]. cbn.
    assert (held (entries_of st') ⊆+ held (entries_of (set_local_ip st ip))) as H1.
    { rewrite Es, held_app. by apply submseteq_inserts_l. }
    etrans; [exact H1|]. unfold set_local_ip. destruct (decide _); [done|]. unfold entries_of. cbn. rewrite om_list_empty.
    apply submseteq_nil_l.
Qed.

Lemma run_spec now st q es :
  plausible now es → fragments_inv now st →
  ∃ now' st' q' rs offered, run (st, q) es = Some (st', q', rs) ∧ fragments_inv now' st' ∧ q' = foldl try_send q offered ∧
    offered ++ concat (map output rs) ++ held (entries_of st') ⊆+ packets_of es ++ held (entries_of st).
Proof.
  revert now st q. induction es as [|e es IH]; intros now st q Hpl Hi.
  { exists now, st, q, [], []. done. }
  destruct (event_spec now st q e) as (now1 & st1 & q1 & r & o1 & E1 & Hnext & Hi1 & -> & Hs1); [destruct e; cbn in *; tauto|done|].
  destruct (IH now1 st1 (foldl try_send q o1)) as (now2 & st2 & q2 & rs & o2 & E2 & Hi2 & -> & Hs2); [auto|done|].
  exists now2, st2, (foldl try_send q (o1 ++ o2)), (r :: rs), (o1 ++ o2).
  split; [cbn [run]; rewrite E1; cbn; rewrite E2; cbn; by rewrite foldl_app|]. split; [done|]. split; [done|].
  cbn [map concat]. assert (packets_of (e :: es) = packets_of [e] ++ packets_of es) as -> by by destruct e.
  assert ((o1 ++ o2) ++ (output r ++ concat (map output rs)) ++ held (entries_of st2) ≡ₚ
    (o1 ++ output r) ++ (o2 ++ concat (map output rs) ++ held (entries_of st2))) as ->.
  { rewrite <- !app_assoc. f_equiv. rewrite !app_assoc. f_equiv. f_equiv. apply Permutation_app_comm. }
  etrans; [apply submseteq_app; [reflexivity|exact Hs2]|].
  assert ((o1 ++ output r) ++ packets_of es ++ held (entries_of st1) ≡ₚ
    packets_of es ++ (o1 ++ output r ++ held (entries_of st1))) as ->.
  { rewrite (app_assoc (o1 ++ output r)), (Permutation_app_comm (o1 ++ output r) (packets_of es)). by rewrite <- !app_assoc. }
  etrans; [apply submseteq_app; [reflexivity|exact Hs1]|]. rewrite app_assoc.
  by rewrite (Permutation_app_comm (packets_of es) (packets_of [e])).
Qed.

(** Over any run of packets and housekeeping rounds the filter never panics, its eviction loops
    end, its byte count is the sum of the waiting packets, and at most 1024 contexts and 1 MiB are held. *)
Theorem filter_within_budget now q es :
  plausible now es →
  ∃ now' st q' rs, run (default_fragments, q) es = Some (st, q', rs) ∧ wf_entries now' (entries_of st) ∧
    bytes st = pending_bytes (held (entries_of st)) ∧ bytes st <= MAX_BYTES ∧ len (entries_of st) <= CAPACITY.
Proof.
  intros Hpl. destruct (run_spec now default_fragments q es Hpl (default_inv _ None))
    as (now' & st & q' & rs & o & E & [A B C D] & _). exists now', st, q', rs. split; [done|]. split; [done|].
  split; [|done]. rewrite B. pose proof (we_fragments _ _ A) as Hf. clear -Hf.
  induction Hf as [|kv l [E _] _ IH]; [done|]. cbn [total]. rewrite E, IH.
  change (held (kv :: l)) with (pending kv.2 ++ held l). by rewrite pending_bytes_app.
Qed.

(** Over any run each packet from a peer is passed on, offered to the network stack or still
    waiting at most once, and nothing else is. *)
Theorem packets_never_duplicated now q es :
  plausible now es →
  ∃ st q' rs offered, run (default_fragments, q) es = Some (st, q', rs) ∧ q' = foldl try_send q offered ∧
    offered ++ concat (map output rs) ++ held (entries_of st) ⊆+ packets_of es.
Proof.
  intros Hpl. destruct (run_spec now default_fragments q es Hpl (default_inv _ None))
    as (now' & st & q' & rs & o & E & _ & Eq & Hsub). exists st, q', rs, o. split; [done|]. split; [done|].
  etrans; [exact Hsub|]. unfold entries_of at 1. cbn. rewrite om_list_empty. cbn. by rewrite app_nil_r.
Qed.

(** *** The fast gate *)

(** The fast gate of an idle flow table is transparent: for a table reached by any interleaving of
    its operations, the filter answers as it would without the gate. *)
Theorem fast_gate_transparent shard_of shards ts (f f3 f4 : FlowTable V) st packet ip now1 now2 q :
  rtc (step shard_of shards) start (f, ts) →
  try_process_packet_from_peer try_send st packet ip f f f3 f4 now1 now2 q =
  route_and_process try_send st packet ip f f3 f4 now1 now2 q.
Proof.
  intros Hreach. unfold try_process_packet_from_peer. destruct (is_idle f) eqn:Hidle; [|done].
  destruct (is_udp_fragment_total packet) as [b Hb]. rewrite Hb. cbn [mbind option_bind andb].
  destruct b; [done|]. cbn [negb]. unfold route_and_process, route_peer_packet. unfold is_udp_fragment in Hb.
  destruct (is_data_plane_packet packet) eqn:Ed; [|done].
  destruct (data_plane_packet packet Ed) as (h & payload & _ & Ep). rewrite Ep in *. cbn [mbind option_bind] in *.
  injection Hb as Hb. unfold route_peer_ipv4_payload, classify_peer_ipv4_payload.
  pose proof (idle_empty shard_of shards f ts Hreach Hidle) as Hempty.
  assert (∀ k, contains_key f k = false) as Hno.
  { intros k. unfold contains_key. rewrite Hempty, lookup_empty. by apply bool_decide_eq_false_2; intros []. }
  destruct (ipv4_checked payload) as [ipv4|]; [|done].
  destruct (ip_version ipv4 =? 4); [|done]. cbn [negb orb andb] in *.
  rewrite Z.ltb_antisym. destruct (IPV4_HEADER_LEN <=? ip_header_len ipv4); [|done]. cbn [negb andb] in *.
  destruct (ip_next_header ipv4 =? PROTO_TCP).
  - destruct (tcp_checked (ip_payload ipv4)) as [tcp|]; [|done]. rewrite !Hno. done.
  - destruct (ip_next_header ipv4 =? PROTO_UDP); [|done]. cbn [andb] in Hb. rewrite Hb.
    destruct (udp_checked (ip_payload ipv4)) as [udp|]; [|done]. by rewrite Hno.
Qed.

(** *** Tails that arrive early *)

(** [p] is an accepted fragment of the datagram [key] for this node. *)
Definition fragment_of (ip : option Z) (key : UdpFragmentKey) (port : option Z) (p : ZCPacket) : Prop :=
  ∃ h payload ipv4, Packet.ZCPacket.peer_manager_header p = Some h ∧ Packet.ZCPacket.payload p = Some payload ∧
    ipv4_checked payload = Some ipv4 ∧ Some (ip_dst ipv4) = ip ∧ fragment_port ipv4 = Some port ∧ fragment_key ipv4 h = key.

Lemma assoc_elem (k : UdpFragmentKey) (f : UdpFragment) (l : Entries) : assoc k l = Some f → (k, f) ∈ l.
Proof.
  induction l as [|[k' f'] l IH]; [done|]. cbn. destruct (decide (k' = k)) as [->|]; [intros [= ->]; left|].
  intros H. right. auto.
Qed.

Lemma assoc_suffix (k : UdpFragmentKey) (l l' : Entries) : (∀ f, (k, f) ∉ l) → assoc k (l ++ l') = assoc k l'.
Proof.
  induction l as [|[k' f'] l IH]; intros H; [done|]. cbn. destruct (decide (k' = k)) as [->|].
  - exfalso. apply (H f'). left.
  - apply IH. intros f Hf. apply (H f). by right.
Qed.

Lemma assoc_snoc (k : UdpFragmentKey) (f : UdpFragment) (l : Entries) : k ∉ map fst l → assoc k (l ++ [(k, f)]) = Some f.
Proof.
  induction l as [|[k' f'] l IH]; cbn; intros H; [by rewrite decide_True by done|].
  rewrite decide_False by set_solver. apply IH. set_solver.
Qed.

(** The clean-up spares a context that is not expired. *)
Lemma remove_expired_keeps now0 now st key :
  now0 <= now → fragments_inv now0 st → (∀ c, context_of st key = Some c → now - last_seen c < TIMEOUT) →
  ∃ st', remove_expired st now = Some st' ∧ fragments_inv now0 st' ∧ local_ip st' = local_ip st ∧
    context_of st' key = context_of st key ∧ bytes st' <= bytes st ∧ len (entries_of st') <= len (entries_of st).
Proof.
  intros Hn Hi Hlive. destruct (remove_expired_spec now0 now st Hn Hi) as (st' & l & Er & Hi' & Es & Hx & _).
  exists st'. split; [done|]. split; [done|]. split; [by eapply remove_expired_local_ip|]. split.
  - unfold context_of. rewrite Es, assoc_suffix; [done|]. intros f Hf.
    rewrite Forall_forall in Hx. specialize (Hx _ Hf). cbn in Hx.
    enough (context_of st key = Some f) as Hc by (specialize (Hlive _ Hc); unfold expired, TIMEOUT in *; lia).
    unfold context_of. pose proof (we_keys _ _ (fi_entries _ _ Hi)) as N. rewrite Es in N |- *.
    apply list_elem_of_split in Hf as (a & b & ->). rewrite <- app_assoc in *.
    rewrite assoc_suffix; [cbn; by rewrite decide_True|].
    intros f' Hf'. rewrite map_app in N. apply NoDup_app in N as (_ & N & _).
    apply (N key); [apply list_elem_of_fmap; by exists (key, f')|]. cbn. left.
  - pose proof (we_fragments _ _ (fi_entries _ _ Hi)) as Hwf. rewrite Es in Hwf. apply Forall_app in Hwf as [Hwf _].
    pose proof (total_nonneg _ Hwf). pose proof (len_nonneg l).
    rewrite (fi_bytes _ _ Hi), (fi_bytes _ _ Hi'), Es, stored_total_app, len_app. lia.
Qed.

Lemma fragment_in_room now0 now st key port packet (flows flows' : FlowTable V) (q : Q) :
  now0 <= now → fragments_inv now0 st → Packet.ZCPacket.buf_len packet < 2 ^ 63 →
  bytes st + Packet.ZCPacket.buf_len packet <= MAX_BYTES → len (entries_of st) + new_slot st key <= CAPACITY →
  let c := default (new_fragment now) (context_of st key) in
  let '(c', q', r) := dispatch try_send flows' (mkFragment now (choose_route flows key port (route c)) (pending c) (f_bytes c)) packet q in
  ∃ st', process_fragment try_send st key port packet flows flows' now q = Some (st', q', r) ∧
    fragments_inv now st' ∧ local_ip st' = local_ip st ∧ context_of st' key = Some c' ∧
    bytes st' <= bytes st + Packet.ZCPacket.buf_len packet ∧
    len (entries_of st') = len (entries_of st) + new_slot st key.
Proof.
  intros Hn Hi Hp Hroom Hcap c.
  destruct (context_spec now0 now st key Hn Hi)
    as (c0 & m & rest & Eg & Hins & Ec0 & _ & Hw & Hkn & Hc & Hcb & Hb & Htot & Hlr & _).
  fold c in Ec0. subst c0.
  destruct (dispatch_spec flows' (mkFragment now (choose_route flows key port (route c)) (pending c) (f_bytes c)) packet q)
    as (c' & q' & r & o & Edp & Hwf' & Hseen & Hcb' & _); [by destruct Hc|done|done|]. rewrite Edp. cbn [f_bytes last_seen] in *.
  pose proof (total_nonneg _ (we_fragments _ _ Hw)) as Htr. pose proof (pending_bytes_nonneg (pending c')) as Hpn.
  destruct Hwf' as [Hwf1 Hwf2]. unfold MAX_BYTES in *.
  set (st3 := mkFragments (local_ip st) (om_insert key c' m) (total rest + f_bytes c')).
  assert (entries_of st3 = rest ++ [(key, c')]) as E3 by apply Hins.
  assert (over_budget st3 = false) as Hover.
  { apply orb_false_iff. fold (entries_of st3). rewrite E3, len_app. change (len [(key, c')]) with 1.
    split; apply Z.ltb_ge; unfold MAX_BYTES in *; cbn; lia. }
  destruct (evict_loop_spec (S (length (entries_of st3))) now st3) as (st' & l' & Ev & Hi' & _ & Hsame).
  { rewrite E3. by apply wf_snoc. } { rewrite E3, stored_total_app. cbn. lia. } { cbn. lia. } { lia. }
  specialize (Hsame Hover). subst st'. exists st3.
  split; [|split; [done|split; [done|split; [by unfold context_of; rewrite E3, assoc_snoc|]]]].
  - unfold process_fragment. rewrite Eg, Hb, Edp.
    assert (wrapping_add 64 (total rest) (f_bytes c') = total rest + f_bytes c') as ->.
    { apply wrapping_add_small. unfold is_uint. lia. }
    fold st3. unfold entries_of in Ev. by rewrite Ev.
  - rewrite E3, len_app. change (len [(key, c')]) with 1. cbn [bytes st3]. lia.
Qed.

(** A fragment of a live context, when there is room for it. *)
Lemma process_in_context now0 now1 now2 st key port packet (flows flows' : FlowTable V) (q : Q) :
  now0 <= now1 <= now2 → fragments_inv now0 st → fragment_of (local_ip st) key port packet →
  Packet.ZCPacket.buf_len packet < 2 ^ 63 →
  (∀ c, context_of st key = Some c → now1 - last_seen c < TIMEOUT) →
  bytes st + Packet.ZCPacket.buf_len packet <= MAX_BYTES →
  len (entries_of st) + new_slot st key <= CAPACITY →
  let c := default (new_fragment now2) (context_of st key) in
  let '(c', q', r) := dispatch try_send flows' (mkFragment now2 (choose_route flows key port (route c)) (pending c) (f_bytes c)) packet q in
  ∃ st', process try_send st packet (local_ip st) flows flows' now1 now2 q = Some (st', q', r) ∧
    fragments_inv now2 st' ∧ local_ip st' = local_ip st ∧ context_of st' key = Some c' ∧
    bytes st' <= bytes st + Packet.ZCPacket.buf_len packet ∧
    len (entries_of st') <= len (entries_of st) + new_slot st key.
Proof.
  intros Hn Hi (h & payload & ipv4 & Eh & Ep & Ei & Ed & Epo & Ek) Hpl Hlive Hroom Hcap.
  destruct (remove_expired_keeps now0 now1 st key) as (st2 & Er & Hi2 & Elip & Ec & Hb2 & Hl2); [lia|done|done|].
  assert (new_slot st2 key = new_slot st key) as Es by (unfold new_slot; by rewrite Ec).
  pose proof (fragment_in_room now0 now2 st2 key port packet flows flows' q ltac:(lia) Hi2 Hpl ltac:(lia) ltac:(lia)) as Hf.
  rewrite Ec in Hf. cbn zeta in *. destruct (dispatch _ _ _ _ _) as [[c' q'] r].
  destruct Hf as (st' & Epf & Hi' & El' & Ec' & Hb' & Hl'). exists st'.
  split; [|split; [done|split; [congruence|split; [done|lia]]]].
  unfold process, set_local_ip. rewrite decide_True by done. rewrite Ep. cbn [mbind option_bind]. rewrite Ei. cbn [mbind option_bind].
  rewrite bool_decide_eq_true_2 by done. cbn [negb]. rewrite Epo, Eh. cbn [mbind option_bind]. rewrite Er. cbn [mbind option_bind].
  by rewrite Ek.
Qed.

(** A packet, the flow tables and the clock at its two readings. *)
Record Arrival : Type := mkArrival { a_packet : ZCPacket; a_flows : FlowTable V; a_flows' : FlowTable V; a_now1 : Z; a_now2 : Z }.

Fixpoint process_all st (ip : option Z) (arrivals : list Arrival) (q : Q) : option (UdpFragments * Q * list PeerPacketFilterResult) :=
  match arrivals with
  | [] => Some (st, q, [])
  | a :: arrivals =>
      '(st, q, r) ← process try_send st (a_packet a) ip (a_flows a) (a_flows' a) (a_now1 a) (a_now2 a) q;
      '(st, q, rs) ← process_all st ip arrivals q;
      Some (st, q, r :: rs)
  end.

(** The clock never goes back, and less than a second passes between two arrivals. *)
Fixpoint timely (now : Z) (arrivals : list Arrival) : Prop :=
  match arrivals with
  | [] => True
  | a :: arrivals => now <= a_now1 a <= a_now2 a ∧ a_now1 a - now < TIMEOUT ∧ timely (a_now2 a) arrivals
  end.

Lemma process_all_app st ip l l' q :
  process_all st ip (l ++ l') q =
  '(st, q, rs) ← process_all st ip l q; '(st, q, rs') ← process_all st ip l' q; Some (st, q, rs ++ rs').
Proof.
  revert st q. induction l as [|a l IH]; intros st q; cbn [process_all app].
  { cbn. by destruct (process_all st ip l' q) as [[[? ?] ?]|]. }
  destruct (process _ _ _ _ _ _ _ _ _) as [[[st1 q1] r]|]; [|done]. cbn [mbind option_bind]. rewrite IH.
  destruct (process_all st1 ip l q1) as [[[st2 q2] rs]|]; [|done]. cbn [mbind option_bind].
  by destruct (process_all st2 ip l' q2) as [[[? ?] ?]|].
Qed.

Lemma tails_wait now st key c (tails : list Arrival) rest (q : Q) :
  fragments_inv now st → context_of st key = Some c → route c = None → last_seen c = now →
  Forall (λ a, fragment_of (local_ip st) key None (a_packet a) ∧ Packet.ZCPacket.buf_len (a_packet a) < 2 ^ 63) tails →
  timely now (tails ++ rest) → bytes st + pending_bytes (map a_packet tails) <= MAX_BYTES →
  ∃ now' st' c', process_all st (local_ip st) tails q = Some (st', q, replicate (length tails) Consumed) ∧
    timely now' rest ∧ fragments_inv now' st' ∧ local_ip st' = local_ip st ∧ context_of st' key = Some c' ∧
    route c' = None ∧ last_seen c' = now' ∧ pending c' = pending c ++ map a_packet tails ∧
    bytes st' <= bytes st + pending_bytes (map a_packet tails).
Proof.
  revert now st c. induction tails as [|a tails IH]; intros now st c Hi Hc Hr Hs Hall Ht Hb.
  { exists now, st, c. cbn. rewrite app_nil_r, Z.add_0_r. done. }
  apply Forall_cons in Hall as [[Hf Hp] Hall]. cbn [app timely] in Ht. destruct Ht as (Hn & Hgap & Ht). cbn [map pending_bytes] in Hb.
  assert (new_slot st key = 0) as Eslot by (unfold new_slot; by rewrite Hc).
  pose proof (pending_bytes_nonneg (map a_packet tails)).
  pose proof (process_in_context now (a_now1 a) (a_now2 a) st key None (a_packet a) (a_flows a) (a_flows' a) q Hn Hi Hf Hp) as Hstep.
  rewrite Hc, Eslot in Hstep. cbn [default] in Hstep.
  assert (choose_route (a_flows a) key None (route c) = None) as Er by (by rewrite Hr). unfold id in Hstep. rewrite Er in Hstep.
  unfold dispatch in Hstep. cbn [route pending f_bytes last_seen] in Hstep.
  destruct Hstep as (st1 & E1 & Hi1 & El1 & Ec1 & Hb1 & _); [intros c0 [= <-]; lia|lia|pose proof (fi_capacity _ _ Hi); lia|].
  rewrite <- El1 in Hall.
  destruct (IH _ st1 _ Hi1 Ec1) as (now' & st' & c' & E2 & Ht' & Hi' & El' & Ec' & Hr' & Hs' & Hp' & Hb'); [done|done|done|done|lia|].
  exists now', st', c'. cbn [process_all]. rewrite E1. cbn [mbind option_bind]. rewrite <- El1, E2. cbn [mbind option_bind].
  split; [done|]. split; [done|]. split; [done|]. split; [done|]. split; [done|]. split; [done|]. split; [done|].
  split; [rewrite Hp'; cbn [pending map]; by rewrite <- app_assoc|]. cbn [map pending_bytes]. lia.
Qed.

(** Tails of a datagram that arrive before its first fragment wait for it and share its fate: they
    are passed on with it when no flow is bound to its port, offered behind it when the flow that is bound
    is still the same, and dropped with it when that flow has been replaced in between. *)
Theorem tails_wait_for_first now st key (t0 : Arrival) (tails : list Arrival) (first : Arrival) port (q : Q) :
  fragments_inv now st → context_of st key = None →
  Forall (λ a, fragment_of (local_ip st) key None (a_packet a) ∧ Packet.ZCPacket.buf_len (a_packet a) < 2 ^ 63) (t0 :: tails) →
  fragment_of (local_ip st) key (Some port) (a_packet first) → Packet.ZCPacket.buf_len (a_packet first) < 2 ^ 63 →
  timely now ((t0 :: tails) ++ [first]) →
  bytes st + pending_bytes (map a_packet (t0 :: tails)) + Packet.ZCPacket.buf_len (a_packet first) <= MAX_BYTES →
  len (entries_of st) < CAPACITY →
  let entry := udp_bind (socket_v4 (fk_destination key) port) in
  ∃ st' q' r, process_all st (local_ip st) ((t0 :: tails) ++ [first]) q =
      Some (st', q', replicate (S (length tails)) Consumed ++ [r]) ∧
    match registration_of (a_flows first) entry with
    | None => r = PassBatch (map a_packet (t0 :: tails) ++ [a_packet first]) ∧ q' = q
    | Some g => r = Consumed ∧
        q' = if decide (registration_of (a_flows' first) entry = Some g)
             then foldl try_send q (a_packet first :: map a_packet (t0 :: tails)) else q
    end.
Proof.
  intros Hi Hc Hall Hff Hpf Ht Hb Hcap entry. apply Forall_cons in Hall as [[Hf0 Hp0] Hall].
  cbn [app timely] in Ht. destruct Ht as (Hn0 & Hgap0 & Ht). cbn [map pending_bytes] in Hb.
  pose proof (pending_bytes_nonneg (map a_packet tails)) as Hpt.
  assert (0 <= Packet.ZCPacket.buf_len (a_packet first)) as Hpf0 by apply len_nonneg.
  pose proof (process_in_context now (a_now1 t0) (a_now2 t0) st key None (a_packet t0) (a_flows t0) (a_flows' t0) q Hn0 Hi Hf0 Hp0) as Hstep.
  assert (new_slot st key = 1) as Eslot by (unfold new_slot; by rewrite Hc). rewrite Hc, Eslot in Hstep.
  unfold dispatch in Hstep. cbn [default new_fragment route pending f_bytes last_seen choose_route app] in Hstep.
  destruct Hstep as (st1 & E1 & Hi1 & El1 & Ec1 & Hb1 & _); [done|lia|lia|].
  rewrite <- El1 in Hall.
  destruct (tails_wait _ st1 key _ tails [first] q Hi1 Ec1) as (now2 & st2 & c2 & E2 & Ht2 & Hi2 & El2 & Ec2 & Hr2 & Hs2 & Hpd & Hb2);
    [done|done|done|exact Ht|lia|].
  cbn [timely] in Ht2. destruct Ht2 as (Hn2 & Hgap2 & _). rewrite <- El1, <- El2 in Hff.
  pose proof (process_in_context now2 (a_now1 first) (a_now2 first) st2 key (Some port) (a_packet first)
    (a_flows first) (a_flows' first) q Hn2 Hi2 Hff Hpf) as Hstep.
  assert (new_slot st2 key = 0) as Eslot2 by (unfold new_slot; by rewrite Ec2). rewrite Ec2, Eslot2 in Hstep.
  cbn [default] in Hstep. unfold id in Hstep. rewrite Hr2, Hpd in Hstep. unfold dispatch in Hstep.
  cbn [choose_route route fr_registration fr_entry pending app last_seen] in Hstep. fold entry in Hstep.
  destruct (registration_of (a_flows first) entry) as [g|].
  - destruct Hstep as (st3 & E3 & _); [intros c0 [= <-]; lia|lia|pose proof (fi_capacity _ _ Hi2); lia|].
    eexists st3, _, Consumed. split; [|by split].
    cbn [process_all app]. rewrite E1. cbn [mbind option_bind]. rewrite (process_all_app _ _ tails [first]), <- El1, E2.
    cbn [mbind option_bind process_all]. rewrite <- El2, E3. done.
  - destruct Hstep as (st3 & E3 & _); [intros c0 [= <-]; lia|lia|pose proof (fi_capacity _ _ Hi2); lia|].
    eexists st3, q, _. split; [|by split].
    cbn [process_all app]. rewrite E1. cbn [mbind option_bind]. rewrite (process_all_app _ _ tails [first]), <- El1, E2.
    cbn [mbind option_bind process_all]. rewrite <- El2, E3. done.
Qed.

End Accounting.

(** ** Witnesses *)

#[export] Program Instance list_map {K V} `{!EqDecision K} : OrderedHashMap K V (list (K * V)) := {|
  om_list := id;
  om_empty := [];
  om_get := assoc;
  om_replace k v m := map (λ kv, if decide (kv.1 = k) then (k, v) else kv) m;
  om_insert k v m := filter (λ kv, kv.1 ≠ k) m ++ [(k, v)];
  om_pop_front m := match m with [] => None | kv :: m => Some (kv.2, m) end
|}.
Solve Obligations with (intros; cbn in *; subst; try done; by eexists).

(** The fixed fields of the headers, without the checks of options and checksums. *)
#[export] Instance sample_views : Smoltcp := {|
  ipv4_checked l :=
    let at_ i := nth i l 0 in
    if len l <? 20 then None
    else Some (mkIpv4 (at_ 0%nat / 16) (at_ 0%nat mod 16 * 4) (at_ 9%nat) (from_be (take 4 (drop 12 l)))
                 (from_be (take 4 (drop 16 l))) (from_be (take 2 (drop 4 l))) (8 * (at_ 6%nat mod 32 * 256 + at_ 7%nat))
                 ((at_ 6%nat / 32) mod 2 =? 1) true (drop 20 l));
  tcp_checked l :=
    if len l <? 20 then None
    else let b i := Z.testbit (nth 13 l 0) i in
         Some (mkTcp (from_be (take 2 l)) (from_be (take 2 (drop 2 l))) (b 0) (b 1) (b 2) (b 3) (b 4) (b 5) (b 6) (b 7));
  udp_checked l :=
    if len l <? 8 then None
    else Some (mkUdp (from_be (take 2 l)) (from_be (take 2 (drop 2 l))) (from_be (take 2 (drop 4 l))));
  udp_unchecked l := mkUdp (from_be (take 2 l)) (from_be (take 2 (drop 2 l))) (from_be (take 2 (drop 4 l)))
|}.

Definition sample_packet (more_frags : bool) (offset : Z) (payload : list Z) : ZCPacket :=
  Packet.ZCPacket.new_from_buf
    (PeerManagerHeader.to_bytes (PeerManagerHeader.mk 7 9 (packet_type_u8 Data) 0 1 0 0) ++
     [69; 0; 0; 0; 0; 5; 32 * Z.b2z more_frags; offset / 8; 32; PROTO_UDP; 0; 0; 10; 0; 0; 1; 10; 0; 0; 2] ++ payload)
    DummyTunnel.

Definition sample_first : ZCPacket := sample_packet true 0 [0; 53; 0; 80; 0; 16; 0; 0].
Definition sample_tail : ZCPacket := sample_packet false 8 [1; 2; 3; 4; 5; 6; 7; 8].
Definition sample_ip : option Z := Some 167772162.
Definition sample_port_flow : FlowKey := udp_bind (socket_v4 167772162 80).
Definition no_flows : FlowTable Z := default_table.
Definition bound_flows : FlowTable Z := put no_flows sample_port_flow 0 1.

(** The queue, as what it was offered. *)
Definition send (q : list ZCPacket) (p : ZCPacket) : list ZCPacket := q ++ [p].

Definition sample_run : list Event :=
  [EvPacket sample_tail sample_ip no_flows no_flows no_flows no_flows 0 1;
   EvHousekeep sample_ip 5;
   EvPacket sample_first sample_ip bound_flows bound_flows bound_flows bound_flows 10 11].

Lemma sample_plausible : plausible 0 sample_run.
Proof. cbn. unfold Packet.ZCPacket.buf_len, len. cbn. lia. Qed.

Example sample_run_result :
  (λ r, (r.1.2, r.2)) <$> run send (default_fragments (M := list _), []) sample_run =
  Some ([sample_first; sample_tail], [Consumed; Consumed; Consumed]).
Proof. vm_compute. reflexivity. Qed.

Lemma filter_within_budget_witness :
  plausible 0 sample_run ∧
  ∃ now' st q' rs, run send (default_fragments (M := list _), []) sample_run = Some (st, q', rs) ∧ wf_entries now' (entries_of st) ∧
    bytes st = pending_bytes (held (entries_of st)) ∧ bytes st <= MAX_BYTES ∧ len (entries_of st) <= CAPACITY.
Proof. split; [exact sample_plausible|]. exact (filter_within_budget send 0 [] sample_run sample_plausible). Defined.

Lemma packets_never_duplicated_witness :
  plausible 0 sample_run ∧
  ∃ st q' rs offered, run send (default_fragments (M := list _), []) sample_run = Some (st, q', rs) ∧ q' = foldl send [] offered ∧
    offered ++ concat (map output rs) ++ held (entries_of st) ⊆+ packets_of sample_run.
Proof. split; [exact sample_plausible|]. exact (packets_never_duplicated send 0 [] sample_run sample_plausible). Defined.

Lemma fast_gate_transparent_witness :
  rtc (step (λ _, 0%nat) 1) start (no_flows, []) ∧
  try_process_packet_from_peer send (default_fragments (M := list _)) sample_tail None no_flows no_flows no_flows no_flows 0 1 [] =
  route_and_process send (default_fragments (M := list _)) sample_tail None no_flows no_flows no_flows 0 1 [].
Proof.
  assert (rtc (step (V := Z) (λ _, 0%nat) 1) start (no_flows, [])) as H by constructor.
  split; [exact H|]. exact (fast_gate_transparent send (λ _, 0%nat) 1 [] no_flows no_flows no_flows _ _ _ _ _ _ H).
Defined.

Definition sample_key : UdpFragmentKey := mkFragKey 167772161 167772162 5 7 9 1 false false false.

Lemma sample_fragments :
  fragment_of sample_ip sample_key None sample_tail ∧ fragment_of sample_ip sample_key (Some 80) sample_first.
Proof. split; (eexists _, _, _; split_and!; [vm_compute; reflexivity..]). Qed.

Lemma tails_wait_for_first_witness :
  fragment_of sample_ip sample_key None sample_tail ∧ fragment_of sample_ip sample_key (Some 80) sample_first ∧
  ∃ st' q' r, process_all send (mkFragments sample_ip ([] : list (UdpFragmentKey * UdpFragment)) 0) sample_ip
      [mkArrival sample_tail no_flows no_flows 0 1; mkArrival sample_first bound_flows bound_flows 10 11] [] =
      Some (st', q', [Consumed; r]) ∧ r = Consumed ∧ q' = [sample_first; sample_tail].
Proof.
  destruct sample_fragments as [Ht Hf]. split; [exact Ht|]. split; [exact Hf|].
  destruct (tails_wait_for_first send 0 (mkFragments sample_ip [] 0) sample_key (mkArrival sample_tail no_flows no_flows 0 1) []
    (mkArrival sample_first bound_flows bound_flows 10 11) 80 []) as (st' & q' & r & E & H).
  - exact (default_inv (M := list (UdpFragmentKey * UdpFragment)) 0 sample_ip).
  - reflexivity.
  - constructor; [|constructor]. split; [exact Ht|]. vm_compute. reflexivity.
  - exact Hf.
  - vm_compute. reflexivity.
  - cbn. unfold TIMEOUT. lia.
  - vm_compute. discriminate.
  - vm_compute. reflexivity.
  - exists st', q', r. split; [exact E|].
    assert (registration_of bound_flows sample_port_flow = Some 1) as Er by (vm_compute; reflexivity).
    change (udp_bind (socket_v4 (fk_destination sample_key) 80)) with sample_port_flow in H.
    cbn [a_flows a_flows' a_packet map] in H. rewrite Er in H. rewrite decide_True in H by reflexivity. exact H.
Defined.
