(* ===== verification/Credentials.v ===== *)
(** * Peer credentials

    Models easytier-core/src/peers/credential_manager.rs: the credentials that let peers
    without the network secret join.  They come from a file the node owns ([base]), from
    the managed configuration ([managed], replaced in two phases through
    [pending_managed]), and from attached peers ([ephemeral]).  Also the proofs under which
    they are published (easytier-proto/src/peer_rpc.rs).

    A call holds the state mutex and is one step; the clock, random keys and identifiers
    are arguments.  Parameters: base64, x25519, SHA-256, HMAC, the [cidr] parser, the JSON
    and protobuf encodings (class [CredentialLib]) and the storage (class
    [CredentialStorage], with the contract its trait documents).  Texts are code points.
    A loop over random draws that runs out of draws is [None].

    The theorems say that no two live credentials share a key, whatever the order of the
    calls and across pending replacements, that a revocation therefore takes effect,
    that errors change nothing, that a restart recovers the stored credentials, and that
    the published proofs verify. *)

From stdpp Require Import base gmap list numbers sorting.
From Stdlib Require Import ZArith Lia.
From S2P Require Import Prelude.
Local Open Scope Z_scope.

Abbreviation Text := (list Z).
Abbreviation Uuid := Z.

(** ** Texts *)

(** The code points with the White_Space property, which [str::trim] removes. *)
Definition is_whitespace (c : Z) : bool :=
  ((9 <=? c) && (c <=? 13)) || (c =? 32) || (c =? 133) || (c =? 160) || (c =? 5760) ||
  ((8192 <=? c) && (c <=? 8202)) || (c =? 8232) || (c =? 8233) || (c =? 8239) || (c =? 8287) || (c =? 12288).

Fixpoint trim_start (l : Text) : Text :=
  match l with
  | c :: l' => if is_whitespace c then trim_start l' else l
  | [] => []
  end.

Definition trim (l : Text) : Text := reverse (trim_start (reverse (trim_start l))).

(** ** Data *)

Record CredentialCreateOptions : Type := mkCreate {
  co_groups : list Text;
  co_allow_relay : bool;
  co_allowed_proxy_cidrs : list Text;
  co_ttl : Z;
  co_credential_id : option Text;
  co_reusable : bool
}.

Record CredentialUpsertOptions : Type := mkUpsert {
  uo_credential_id : Text;
  uo_credential_secret : Text;
  uo_groups : list Text;
  uo_allow_relay : bool;
  uo_allowed_proxy_cidrs : list Text;
  uo_expiry_unix : Z;
  uo_reusable : bool
}.

Record ManagedCredentialConfig : Type := mkManaged {
  mc_credential_id : Text;
  mc_credential_secret : Text;
  mc_groups : list Text;
  mc_allow_relay : bool;
  mc_allowed_proxy_cidrs : list Text;
  mc_expiry_unix : Z;
  mc_reusable : bool
}.

Record CredentialGrant : Type := mkGrant {
  g_groups : list Text;
  g_allow_relay : bool;
  g_allowed_proxy_cidrs : list Text;
  g_reusable : bool
}.

#[export] Instance grant_eq_dec : EqDecision CredentialGrant.
Proof. solve_decision. Defined.

Record CredentialEntry : Type := mkEntry {
  e_pubkey : Text;
  e_secret : Text;
  e_grant : CredentialGrant;
  e_expiry_unix : Z;
  e_created_at_unix : Z
}.

#[export] Instance entry_eq_dec : EqDecision CredentialEntry.
Proof. solve_decision. Defined.

(** The messages of the wire. *)
Record TrustedCredentialPubkey : Type := mkTrusted {
  tc_pubkey : list Z;
  tc_groups : list Text;
  tc_allow_relay : bool;
  tc_expiry_unix : Z;
  tc_allowed_proxy_cidrs : list Text;
  tc_reusable : option bool
}.

Record TrustedCredentialPubkeyProof : Type := mkProof {
  pf_credential : option TrustedCredentialPubkey;
  pf_credential_hmac : list Z
}.

Record CredentialInfo : Type := mkInfo {
  in_credential_id : Text;
  in_groups : list Text;
  in_allow_relay : bool;
  in_expiry_unix : Z;
  in_allowed_proxy_cidrs : list Text;
  in_reusable : option bool;
  in_public_key_fingerprint : Text
}.

Record GeneratedCredential : Type := mkGenerated {
  gc_credential_id : Text;
  gc_secret : Text;
  gc_expiry_unix : Z;
  gc_changed : bool
}.

(** The error messages, by their cause. *)
Inductive CredentialError : Type :=
| StorageUnavailable
| ManagedByConfiguration (id : Text)
| InvalidAllowedProxyCidr (cidr : Text)
| FailedToStore
| EmptyCredentialId
| ExpiryNotInFuture
| SecretNotBase64
| SecretNot32Bytes
| SecretAlreadyUsed
| KeyAlreadyRegistered
| OwnedByCredentialFile
| ReplacementPending
| SecretAssignedTwice
| DuplicateManagedId (id : Text).

Abbreviation Entries := (gmap Text CredentialEntry).

Record CredentialState : Type := mkState {
  base : Entries;
  managed : Entries;
  pending_managed : option Entries;
  ephemeral : gmap Uuid CredentialEntry
}.

(** ** Interfaces *)

Class CredentialLib := {
  base64_encode : list Z → Text;
  base64_decode : Text → option (list Z);
  base64_decode_encode l : is_bytes l → base64_decode (base64_encode l) = Some l;
  (** The standard engine accepts the canonical encoding only. *)
  base64_encode_decode t l : base64_decode t = Some l → is_bytes l ∧ base64_encode l = t;
  (** [StaticSecret::from(bytes)]: its bytes and its public key. *)
  secret_bytes : list Z → list Z;
  public_key : list Z → list Z;
  public_key_bytes l : is_bytes (public_key l);
  sha256 : list Z → list Z;
  hmac_sha256 : list Z → list Z → list Z;
  hmac_sha256_nonempty k m : hmac_sha256 k m ≠ [];
  parse_cidr : Text → bool;
  (** The UTF-8 bytes of a text. *)
  as_bytes : Text → list Z;
  encode_credential : TrustedCredentialPubkey → list Z;
  to_json : Entries → Text;
  from_json : Text → option Entries;
  from_json_to_json m : from_json (to_json m) = Some m
}.

(** [load] fails, finds nothing or finds the last snapshot; [store] tells whether it
    committed, and leaves the previous snapshot readable otherwise. *)
Class CredentialStorage (D : Type) := {
  load : D → result (option Text) unit;
  store : D → Text → D * bool;
  store_commits d s : (store d s).2 = true → load (store d s).1 = Ok (Some s);
  store_keeps d s : (store d s).2 = false → load (store d s).1 = load d
}.

Section Credentials.

Context {CL : CredentialLib} {HI : HashIter} {D : Type} {CS : CredentialStorage D}.

(** ** Grants and entries *)

(** [as i64] and sums of [i64] in a release build. *)
Definition as_i64 (z : Z) : Z := wrap 64 (z + 2 ^ 63) - 2 ^ 63.

Fixpoint normalize_cidrs (l : list Text) : result (list Text) CredentialError :=
  match l with
  | [] => Ok []
  | c :: l =>
      let normalized := trim c in
      if parse_cidr normalized then
        match normalize_cidrs l with Ok l => Ok (normalized :: l) | Err e => Err e end
      else Err (InvalidAllowedProxyCidr normalized)
  end.

Definition normalize (g : CredentialGrant) : result CredentialGrant CredentialError :=
  match normalize_cidrs (g_allowed_proxy_cidrs g) with
  | Ok l => Ok (mkGrant (g_groups g) (g_allow_relay g) l (g_reusable g))
  | Err e => Err e
  end.

Definition new_grant (groups : list Text) (allow_relay : bool) (cidrs : list Text) (reusable : bool)
    : result CredentialGrant CredentialError :=
  normalize (mkGrant groups allow_relay cidrs reusable).

Definition for_attached_peer (groups : list Text) : CredentialGrant := mkGrant groups false [] false.

Definition is_active_at (e : CredentialEntry) (now : Z) : bool := now <? e_expiry_unix e.

Definition decode_pubkey_b64 (s : Text) : option (list Z) :=
  decoded ← base64_decode s;
  if negb (len decoded =? 32) then None else Some decoded.

(** [{byte:02x}]. *)
Definition hex_digit (d : Z) : Z := if d <? 10 then 48 + d else 87 + d.

Definition public_key_fingerprint (pubkey : Text) : option Text :=
  decoded ← decode_pubkey_b64 pubkey;
  Some (concat (map (λ b, [hex_digit (b / 16); hex_digit (b mod 16)]) (sha256 decoded))).

Definition to_trusted_credential (e : CredentialEntry) : option TrustedCredentialPubkey :=
  pubkey ← decode_pubkey_b64 (e_pubkey e);
  let g := e_grant e in
  Some (mkTrusted pubkey (g_groups g) (g_allow_relay g) (e_expiry_unix e) (g_allowed_proxy_cidrs g) (Some (g_reusable g))).

Definition to_credential_info (id : Text) (e : CredentialEntry) : CredentialInfo :=
  let g := e_grant e in
  mkInfo id (g_groups g) (g_allow_relay g) (e_expiry_unix e) (g_allowed_proxy_cidrs g) (Some (g_reusable g))
    (default [] (public_key_fingerprint (e_pubkey e))).

(** The private key of a credential secret. *)
Definition decode_secret (secret : Text) : result (list Z) CredentialError :=
  match base64_decode (trim secret) with
  | None => Err SecretNotBase64
  | Some bytes => if len bytes =? 32 then Ok bytes else Err SecretNot32Bytes
  end.

Definition entry_of_private (private : list Z) (grant : CredentialGrant) (expiry_unix created_at_unix : Z) : CredentialEntry :=
  mkEntry (base64_encode (public_key private)) (base64_encode (secret_bytes private)) grant expiry_unix created_at_unix.

Definition from_managed (c : ManagedCredentialConfig) : result CredentialEntry CredentialError :=
  match decode_secret (mc_credential_secret c) with
  | Err e => Err e
  | Ok private =>
      match new_grant (mc_groups c) (mc_allow_relay c) (mc_allowed_proxy_cidrs c) (mc_reusable c) with
      | Err e => Err e
      | Ok grant => Ok (entry_of_private private grant (mc_expiry_unix c) 0)
      end
  end.

(** ** Proofs *)

(** b"easytier credential proof". *)
Definition PROOF_CONTEXT : list Z :=
  [101; 97; 115; 121; 116; 105; 101; 114; 32; 99; 114; 101; 100; 101; 110; 116; 105; 97; 108; 32; 112; 114; 111; 111; 102].

Definition generate_credential_hmac_from_bytes (credential_bytes : list Z) (network_secret : Text) : list Z :=
  hmac_sha256 (as_bytes network_secret) (PROOF_CONTEXT ++ credential_bytes).

Definition generate_credential_hmac (c : TrustedCredentialPubkey) (network_secret : Text) : list Z :=
  generate_credential_hmac_from_bytes (encode_credential c) network_secret.

Definition new_signed (c : TrustedCredentialPubkey) (network_secret : Text) : TrustedCredentialPubkeyProof :=
  mkProof (Some c) (generate_credential_hmac c network_secret).

(** [verify_slice] compares the whole tag. *)
Definition verify_credential_hmac_with_bytes (p : TrustedCredentialPubkeyProof) (credential_bytes : list Z)
    (network_secret : Text) : bool :=
  match pf_credential_hmac p with
  | [] => false
  | tag => bool_decide (tag = hmac_sha256 (as_bytes network_secret) (PROOF_CONTEXT ++ credential_bytes))
  end.

Definition verify_credential_hmac (p : TrustedCredentialPubkeyProof) (network_secret : Text) : bool :=
  match pf_credential p with
  | None => false
  | Some c => verify_credential_hmac_with_bytes p (encode_credential c) network_secret
  end.

(** ** The manager *)

Record CredentialManager : Type := mkManager {
  state : CredentialState;
  storage : option D;
  storage_load_error : bool
}.

Implicit Types (m : CredentialManager) (s : CredentialState).

Definition empty_state : CredentialState := mkState ∅ ∅ None ∅.

Definition new_manager : CredentialManager := mkManager empty_state None false.

Definition with_state m s : CredentialManager := mkManager s (storage m) (storage_load_error m).
Definition with_base s (b : Entries) : CredentialState := mkState b (managed s) (pending_managed s) (ephemeral s).
Definition with_managed s (x : Entries) : CredentialState := mkState (base s) x (pending_managed s) (ephemeral s).
Definition with_pending s (p : option Entries) : CredentialState := mkState (base s) (managed s) p (ephemeral s).
Definition with_ephemeral s (e : gmap Uuid CredentialEntry) : CredentialState := mkState (base s) (managed s) (pending_managed s) e.

Definition with_grant (e : CredentialEntry) (g : CredentialGrant) : CredentialEntry :=
  mkEntry (e_pubkey e) (e_secret e) g (e_expiry_unix e) (e_created_at_unix e).

(** Fails when an entry does. *)
Definition normalize_loaded_entries (entries : Entries) : option Entries :=
  if existsb (λ kv, negb (is_ok (normalize (e_grant kv.2)))) (map_to_list entries) then None
  else Some ((λ e, match normalize (e_grant e) with Ok g => with_grant e g | Err _ => e end) <$> entries).

Definition load_base (d : D) : option Entries :=
  match load d with
  | Ok (Some serialized) => entries ← from_json serialized; normalize_loaded_entries entries
  | Ok None => Some ∅
  | Err _ => None
  end.

Definition from_storage (d : D) : CredentialManager :=
  match load_base d with
  | Some b => mkManager (with_base empty_state b) (Some d) false
  | None => mkManager empty_state (Some d) true
  end.

(** [store_base] and the assignment that follows it; whether it succeeded. *)
Definition store_base m (b : Entries) : CredentialManager * bool :=
  if storage_load_error m then (m, false)
  else match storage m with
       | None => (m, true)
       | Some d => let '(d, ok) := store d (to_json b) in (mkManager (state m) (Some d) (storage_load_error m), ok)
       end.

Definition commit_base m (b : Entries) : CredentialManager * bool :=
  let '(m, ok) := store_base m b in
  if ok then (with_state m (with_base (state m) b), true) else (m, false).

Definition any_entry {K} `{Countable K} (f : K → CredentialEntry → bool) (x : gmap K CredentialEntry) : bool :=
  existsb (λ kv, f kv.1 kv.2) (map_to_list x).

Definition managed_contains_id s (id : Text) : bool :=
  bool_decide (is_Some (managed s !! id)) ||
  match pending_managed s with Some p => bool_decide (is_Some (p !! id)) | None => false end.

(** [managed_entries]: a test on the managed entries and those that wait. *)
Definition any_managed s (f : Text → CredentialEntry → bool) : bool :=
  any_entry f (managed s) || match pending_managed s with Some p => any_entry f p | None => false end.

Definition has_key (pubkey : Text) (e : CredentialEntry) : bool := bool_decide (e_pubkey e = pubkey).

(** [retain] of the entries that are active. *)
Definition active_entries (b : Entries) (now : Z) : Entries := filter (λ kv, is_active_at kv.2 now = true) b.

(** ** Operations *)

(** The first identifier drawn that is free. *)
Fixpoint fresh_id s (updated : Entries) (uuids : list Text) : option Text :=
  match uuids with
  | [] => None
  | id :: uuids =>
      if negb (bool_decide (is_Some (updated !! id))) && negb (managed_contains_id s id) then Some id
      else fresh_id s updated uuids
  end.

(** [build_entry] with the random bytes and the clock of one draw. *)
Definition build_entry (grant : CredentialGrant) (ttl : Z) (draw : list Z * Z) : CredentialEntry :=
  let '(random, now) := draw in
  entry_of_private random grant (as_i64 (now + as_i64 ttl)) now.

Definition public_key_in_use s (updated : Entries) (pubkey : Text) : bool :=
  any_entry (λ _, has_key pubkey) updated || any_managed s (λ _, has_key pubkey) ||
  any_entry (λ _, has_key pubkey) (ephemeral s).

Fixpoint fresh_entry s (updated : Entries) (grant : CredentialGrant) (ttl : Z) (draws : list (list Z * Z))
    : option CredentialEntry :=
  match draws with
  | [] => None
  | draw :: draws =>
      let entry := build_entry grant ttl draw in
      if public_key_in_use s updated (e_pubkey entry) then fresh_entry s updated grant ttl draws else Some entry
  end.

(** The end of [generate_credential_with_options], for the identifier chosen. *)
Definition generate_for m (updated : Entries) (id : Text) (o : CredentialCreateOptions) (draws : list (list Z * Z))
    : option (CredentialManager * result GeneratedCredential CredentialError) :=
  match new_grant (co_groups o) (co_allow_relay o) (co_allowed_proxy_cidrs o) (co_reusable o) with
  | Err e => Some (m, Err e)
  | Ok grant =>
      entry ← fresh_entry (state m) updated grant (co_ttl o) draws;
      let '(m, ok) := commit_base m (<[id := entry]> updated) in
      Some (m, if ok then Ok (mkGenerated id (e_secret entry) (e_expiry_unix entry) true) else Err FailedToStore)
  end.

Definition generate_credential_with_options m (o : CredentialCreateOptions) (now : Z) (uuids : list Text)
    (draws : list (list Z * Z)) : option (CredentialManager * result GeneratedCredential CredentialError) :=
  if storage_load_error m then Some (m, Err StorageUnavailable)
  else
    let updated := active_entries (base (state m)) now in
    match trim <$> co_credential_id o with
    | Some ((_ :: _) as id) =>
        if managed_contains_id (state m) id then Some (m, Err (ManagedByConfiguration id))
        else match updated !! id with
             | Some existing =>
                 match e_secret existing with
                 | _ :: _ => Some (m, Ok (mkGenerated id (e_secret existing) (e_expiry_unix existing) false))
                 | [] => generate_for m updated id o draws
                 end
             | None => generate_for m updated id o draws
             end
    | _ => id ← fresh_id (state m) updated uuids; generate_for m updated id o draws
    end.

Definition revoke_credential m (id : Text) : CredentialManager * result bool CredentialError :=
  if storage_load_error m then (m, Err StorageUnavailable)
  else match base (state m) !! id with
       | None => (m, Ok false)
       | Some _ =>
           let '(m, ok) := commit_base m (delete id (base (state m))) in
           (m, if ok then Ok true else Err FailedToStore)
       end.

Definition register_ephemeral_credential m (key : list Z) (groups : list Text) (id : Uuid) (now : Z)
    : CredentialManager * result Uuid CredentialError :=
  let entry := mkEntry (base64_encode key) [] (for_attached_peer groups) (2 ^ 63 - 1) now in
  let s := state m in
  if (any_entry (λ _, has_key (e_pubkey entry)) (base s) || any_managed s (λ _, has_key (e_pubkey entry))) ||
     any_entry (λ _, has_key (e_pubkey entry)) (ephemeral s)
  then (m, Err KeyAlreadyRegistered)
  else (with_state m (with_ephemeral s (<[id := entry]> (ephemeral s))), Ok id).

Definition update_ephemeral_credential_groups m (id : Uuid) (groups : list Text) : CredentialManager * option bool :=
  match ephemeral (state m) !! id with
  | None => (m, None)
  | Some credential =>
      let g := e_grant credential in
      if decide (g_groups g = groups) then (m, Some false)
      else
        let g := mkGrant groups (g_allow_relay g) (g_allowed_proxy_cidrs g) (g_reusable g) in
        (with_state m (with_ephemeral (state m) (<[id := with_grant credential g]> (ephemeral (state m)))), Some true)
  end.

Definition revoke_ephemeral_credential m (id : Uuid) : CredentialManager * bool :=
  (with_state m (with_ephemeral (state m) (delete id (ephemeral (state m)))),
   bool_decide (is_Some (ephemeral (state m) !! id))).

(** The entry would change something that matters. *)
Definition entry_changed (existing : option CredentialEntry) (entry : CredentialEntry) : bool :=
  match existing with
  | None => true
  | Some e => negb (bool_decide (e_secret e = e_secret entry)) || negb (bool_decide (e_pubkey e = e_pubkey entry)) ||
              negb (bool_decide (e_grant e = e_grant entry)) || negb (e_expiry_unix e =? e_expiry_unix entry)
  end.

(** The end of [upsert_credential], for a checked entry. *)
Definition upsert_entry m (id : Text) (entry : CredentialEntry) : CredentialManager * result bool CredentialError :=
  let s := state m in
  let other := λ existing_id existing, negb (bool_decide (existing_id = id)) && has_key (e_pubkey entry) existing in
  if storage_load_error m then (m, Err StorageUnavailable)
  else if managed_contains_id s id then (m, Err (ManagedByConfiguration id))
  else if any_entry other (base s) || any_managed s other then (m, Err SecretAlreadyUsed)
  else if any_entry (λ _, has_key (e_pubkey entry)) (ephemeral s) then (m, Err KeyAlreadyRegistered)
  else if negb (entry_changed (base s !! id) entry) then (m, Ok false)
  else
    let '(m, ok) := commit_base m (<[id := entry]> (base s)) in
    (m, if ok then Ok true else Err FailedToStore).

Definition upsert_credential m (o : CredentialUpsertOptions) (now now' : Z) : CredentialManager * result bool CredentialError :=
  let id := trim (uo_credential_id o) in
  match id with
  | [] => (m, Err EmptyCredentialId)
  | _ =>
      if uo_expiry_unix o <=? now then (m, Err ExpiryNotInFuture)
      else match decode_secret (uo_credential_secret o) with
      | Err e => (m, Err e)
      | Ok private =>
          match new_grant (uo_groups o) (uo_allow_relay o) (uo_allowed_proxy_cidrs o) (uo_reusable o) with
          | Err e => (m, Err e)
          | Ok grant => upsert_entry m id (entry_of_private private grant (uo_expiry_unix o) now')
          end
      end
  end.

Definition remove_expired_credentials m (now : Z) : CredentialManager * bool :=
  let updated := active_entries (base (state m)) now in
  if decide (updated = base (state m)) then (m, false) else commit_base m updated.

Definition get_trusted_pubkeys m (network_secret : Text) (now : Z) : list TrustedCredentialPubkeyProof :=
  let to_proof e := c ← to_trusted_credential e; Some (new_signed c network_secret) in
  let s := state m in
  omap (λ e, to_proof e) (filter (λ e, is_active_at e now = true) (map snd (iter (base s)) ++ map snd (iter (managed s)))) ++
  omap (λ e, to_proof e) (map snd (iter (ephemeral s))).

Definition is_pubkey_trusted m (pubkey : list Z) (now : Z) : bool :=
  let encoded := base64_encode pubkey in
  let s := state m in
  (any_entry (λ _ e, has_key encoded e && is_active_at e now) (base s) ||
   any_entry (λ _ e, has_key encoded e && is_active_at e now) (managed s)) ||
  any_entry (λ _, has_key encoded) (ephemeral s).

(** The order of strings. *)
Fixpoint text_le (a b : Text) : bool :=
  match a, b with
  | [], _ => true
  | _ :: _, [] => false
  | x :: a, y :: b => (x <? y) || ((x =? y) && text_le a b)
  end.

Definition id_le (a b : CredentialInfo) : Prop := text_le (in_credential_id a) (in_credential_id b) = true.

#[local] Instance id_le_dec : RelDecision id_le.
Proof. intros a b. unfold id_le. apply _. Defined.

Definition list_credentials m (now : Z) : list CredentialInfo :=
  merge_sort id_le (map (λ kv, to_credential_info kv.1 kv.2)
    (filter (λ kv, is_active_at kv.2 now = true) (iter (base (state m)) ++ iter (managed (state m))))).

(** *** The managed credentials *)

Fixpoint build_managed_entries (credentials : list ManagedCredentialConfig) (entries : Entries) (public_keys : list Text)
    : result Entries CredentialError :=
  match credentials with
  | [] => Ok entries
  | c :: credentials =>
      let id := trim (mc_credential_id c) in
      match id with
      | [] => Err EmptyCredentialId
      | _ =>
          match from_managed c with
          | Err e => Err e
          | Ok entry =>
              if bool_decide (e_pubkey entry ∈ public_keys) then Err SecretAssignedTwice
              else if bool_decide (is_Some (entries !! id)) then Err (DuplicateManagedId id)
              else build_managed_entries credentials (<[id := entry]> entries) (e_pubkey entry :: public_keys)
          end
      end
  end.

Definition validate_managed_conflicts s (replacement : Entries) : result unit CredentialError :=
  if any_entry (λ id _, bool_decide (is_Some (base s !! id))) replacement then Err OwnedByCredentialFile
  else if any_entry (λ _ entry, any_entry (λ _, has_key (e_pubkey entry)) (base s) ||
                                any_entry (λ _, has_key (e_pubkey entry)) (ephemeral s)) replacement
  then Err KeyAlreadyRegistered
  else Ok tt.

Definition install_initial_managed_credentials m (credentials : list ManagedCredentialConfig)
    : CredentialManager * result unit CredentialError :=
  if storage_load_error m then (m, Err StorageUnavailable)
  else match build_managed_entries credentials ∅ [] with
       | Err e => (m, Err e)
       | Ok replacement =>
           match validate_managed_conflicts (state m) replacement with
           | Err e => (m, Err e)
           | Ok _ => (with_state m (with_managed (state m) replacement), Ok tt)
           end
       end.

(** The replacement that awaits installation: whether it changes anything. *)
Definition validate_managed_credentials m (credentials : list ManagedCredentialConfig)
    : CredentialManager * result bool CredentialError :=
  match build_managed_entries credentials ∅ [] with
  | Err e => (m, Err e)
  | Ok replacement =>
      match pending_managed (state m) with
      | Some _ => (m, Err ReplacementPending)
      | None =>
          match validate_managed_conflicts (state m) replacement with
          | Err e => (m, Err e)
          | Ok _ =>
              let changed := negb (bool_decide (managed (state m) = replacement)) in
              (if changed then with_state m (with_pending (state m) (Some replacement)) else m, Ok changed)
          end
      end
  end.

(** The [expect] of a reservation that is gone is [None]. *)
Definition install_managed_credentials m (changed : bool) : option (CredentialManager * bool) :=
  if negb changed then Some (m, false)
  else match pending_managed (state m) with
       | None => None
       | Some p => Some (with_state m (with_pending (with_managed (state m) p) None), true)
       end.

(** Dropping a replacement that was not installed. *)
Definition drop_replacement m (changed : bool) : CredentialManager :=
  if changed then with_state m (with_pending (state m) None) else m.

(** ** Runs

    The calls of the manager.  The replacements that have been validated and not yet
    installed or dropped are the list of their [changed] flags. *)
Inductive Call : Type :=
| Generate (o : CredentialCreateOptions) (now : Z) (uuids : list Text) (draws : list (list Z * Z))
| Upsert (o : CredentialUpsertOptions) (now now' : Z)
| Revoke (id : Text)
| RegisterEphemeral (key : list Z) (groups : list Text) (id : Uuid) (now : Z)
| UpdateEphemeralGroups (id : Uuid) (groups : list Text)
| RevokeEphemeral (id : Uuid)
| RemoveExpired (now : Z)
| InstallInitial (credentials : list ManagedCredentialConfig)
| Validate (credentials : list ManagedCredentialConfig)
| Install (i : nat)
| DropReplacement (i : nat).

Inductive CallOutcome : Type :=
| Returned
| Failed (e : CredentialError)
| OutOfDraws.

Definition outcome {A} (r : result A CredentialError) : CallOutcome := match r with Ok _ => Returned | Err e => Failed e end.

(** [None] is a panic. *)
Definition exec (mt : CredentialManager * list bool) (c : Call) : option (CredentialManager * list bool * CallOutcome) :=
  let '(m, ts) := mt in
  match c with
  | Generate o now uuids draws =>
      match generate_credential_with_options m o now uuids draws with
      | Some (m, r) => Some (m, ts, outcome r)
      | None => Some (m, ts, OutOfDraws)
      end
  | Upsert o now now' => let '(m, r) := upsert_credential m o now now' in Some (m, ts, outcome r)
  | Revoke id => let '(m, r) := revoke_credential m id in Some (m, ts, outcome r)
  | RegisterEphemeral key groups id now =>
      let '(m, r) := register_ephemeral_credential m key groups id now in Some (m, ts, outcome r)
  | UpdateEphemeralGroups id groups => let '(m, _) := update_ephemeral_credential_groups m id groups in Some (m, ts, Returned)
  | RevokeEphemeral id => let '(m, _) := revoke_ephemeral_credential m id in Some (m, ts, Returned)
  | RemoveExpired now => let '(m, _) := remove_expired_credentials m now in Some (m, ts, Returned)
  | InstallInitial cs => let '(m, r) := install_initial_managed_credentials m cs in Some (m, ts, outcome r)
  | Validate cs =>
      let '(m, r) := validate_managed_credentials m cs in
      Some (m, match r with Ok changed => changed :: ts | Err _ => ts end, outcome r)
  | Install i =>
      match ts !! i with
      | None => Some (m, ts, Returned)
      | Some changed => '(m, _) ← install_managed_credentials m changed; Some (m, delete i ts, Returned)
      end
  | DropReplacement i =>
      match ts !! i with
      | None => Some (m, ts, Returned)
      | Some changed => Some (drop_replacement m changed, delete i ts, Returned)
      end
  end.

Fixpoint exec_all (mt : CredentialManager * list bool) (cs : list Call) : option (CredentialManager * list bool) :=
  match cs with
  | [] => Some mt
  | c :: cs => '(m, ts, _) ← exec mt c; exec_all (m, ts) cs
  end.

(** * Properties *)

(** ** Texts *)

Lemma trim_start_idem l : trim_start (trim_start l) = trim_start l.
Proof.
  induction l as [|c l IH]; [done|]. cbn. destruct (is_whitespace c) eqn:E; [done|]. cbn. by rewrite E.
Qed.

Lemma trim_start_suffix l : ∃ w, l = w ++ trim_start l.
Proof.
  induction l as [|c l [w E]]; [by exists []|]. cbn. destruct (is_whitespace c); [|by exists []].
  exists (c :: w). cbn. by rewrite <- E.
Qed.

Lemma trim_start_prefix l l' : trim_start (l ++ l') = l ++ l' → trim_start l = l.
Proof.
  destruct l as [|c l]; [done|]. cbn. destruct (is_whitespace c) eqn:E; [|done]. intros H.
  destruct (trim_start_suffix (l ++ l')) as [w Ew]. rewrite H in Ew. apply (f_equal length) in Ew.
  rewrite !length_app in Ew. cbn in Ew. rewrite length_app in Ew. lia.
Qed.

Lemma trim_idem l : trim (trim l) = trim l.
Proof.
  unfold trim. set (a := trim_start l). set (b := reverse (trim_start (reverse a))).
  assert (trim_start b = b) as Hb.
  { destruct (trim_start_suffix (reverse a)) as [w Ew]. apply (trim_start_prefix _ (reverse w)).
    assert (a = b ++ reverse w) as <- by (unfold b; by rewrite <- reverse_app, <- Ew, reverse_involutive).
    apply trim_start_idem. }
  rewrite Hb. unfold b. by rewrite reverse_involutive, trim_start_idem.
Qed.

Lemma normalize_cidrs_idem l l' : normalize_cidrs l = Ok l' → normalize_cidrs l' = Ok l'.
Proof.
  revert l'. induction l as [|c l IH]; intros l'; cbn; [by intros [= <-]|].
  destruct (parse_cidr (trim c)) eqn:Ep; [|done]. destruct (normalize_cidrs l) as [l1|]; [|done]. intros [= <-].
  cbn. by rewrite trim_idem, Ep, (IH l1).
Qed.

Definition normal (e : CredentialEntry) : Prop := normalize (e_grant e) = Ok (e_grant e).

Lemma normalize_idem g g' : normalize g = Ok g' → normalize g' = Ok g'.
Proof.
  unfold normalize. destruct (normalize_cidrs (g_allowed_proxy_cidrs g)) as [l|] eqn:E; [|done]. intros [= <-]. cbn.
  by rewrite (normalize_cidrs_idem _ _ E).
Qed.

Lemma any_entry_true {K} `{Countable K} f (x : gmap K CredentialEntry) :
  any_entry f x = true ↔ ∃ k e, x !! k = Some e ∧ f k e = true.
Proof.
  unfold any_entry. rewrite existsb_exists. split.
  - intros ([k e] & Hin & Hf). exists k, e. split; [|done]. by apply elem_of_map_to_list, list_elem_of_In.
  - intros (k & e & Hk & Hf). exists (k, e). split; [|done]. by apply list_elem_of_In, elem_of_map_to_list.
Qed.

Lemma any_entry_false {K} `{Countable K} f (x : gmap K CredentialEntry) :
  any_entry f x = false ↔ ∀ k e, x !! k = Some e → f k e = false.
Proof.
  rewrite <- not_true_iff_false, any_entry_true. split.
  - intros Hn k e Hk. apply not_true_iff_false. intros Hf. apply Hn. by exists k, e.
  - intros Hall (k & e & Hk & Hf). by rewrite (Hall k e Hk) in Hf.
Qed.

Lemma has_key_true pubkey e : has_key pubkey e = true ↔ e_pubkey e = pubkey.
Proof. apply bool_decide_eq_true. Qed.

Lemma has_key_false pubkey e : has_key pubkey e = false ↔ e_pubkey e ≠ pubkey.
Proof. apply bool_decide_eq_false. Qed.

(** ** Who holds a key *)

Inductive Owner : Type := OBase (id : Text) | OManaged (id : Text) | OEphemeral (id : Uuid).

(** The entry of an owner, where [x] are the managed entries. *)
Definition holder (x : Entries) s (o : Owner) : option CredentialEntry :=
  match o with
  | OBase id => base s !! id
  | OManaged id => x !! id
  | OEphemeral id => ephemeral s !! id
  end.

Definition distinct (x : Entries) s : Prop :=
  ∀ o o' e e', holder x s o = Some e → holder x s o' = Some e' → e_pubkey e = e_pubkey e' → o = o'.

Definition disjoint_ids (x : Entries) s : Prop := ∀ id, is_Some (base s !! id) → x !! id = None.

(** No key and no identifier is used twice, now or once the replacement is installed. *)
Definition inv s : Prop :=
  ∀ x, x = managed s ∨ pending_managed s = Some x → distinct x s ∧ disjoint_ids x s.

(** A key goes to one owner at most. *)
Lemma distinct_change x s x' s' o0 k0 :
  distinct x s →
  (∀ o e', holder x' s' o = Some e' →
     (∃ e, holder x s o = Some e ∧ e_pubkey e = e_pubkey e') ∨ (o = o0 ∧ e_pubkey e' = k0)) →
  (∀ o e, holder x s o = Some e → e_pubkey e = k0 → o = o0) →
  distinct x' s'.
Proof.
  intros Hd Hc Hk o o' e e' Ho Ho' E.
  destruct (Hc o e Ho) as [(e1 & H1 & E1)|[-> E1]], (Hc o' e' Ho') as [(e2 & H2 & E2)|[-> E2]].
  - apply (Hd o o' e1 e2); congruence.
  - apply (Hk o e1); congruence.
  - symmetry. apply (Hk o' e2); congruence.
  - done.
Qed.

(** What a call can do to the state. *)
Inductive change : CredentialState → CredentialState → Prop :=
| ch_same s : change s s
| ch_shrink s b : b ⊆ base s → change s (with_base s b)
| ch_insert s b id entry :
    b ⊆ base s → managed_contains_id s id = false →
    (∀ i e, b !! i = Some e → e_pubkey e = e_pubkey entry → i = id) →
    (∀ i e, managed s !! i = Some e ∨ (∃ p, pending_managed s = Some p ∧ p !! i = Some e) → e_pubkey e ≠ e_pubkey entry) →
    (∀ u e, ephemeral s !! u = Some e → e_pubkey e ≠ e_pubkey entry) →
    change s (with_base s (<[id := entry]> b))
| ch_register s u entry :
    (∀ i e, base s !! i = Some e → e_pubkey e ≠ e_pubkey entry) →
    (∀ i e, managed s !! i = Some e ∨ (∃ p, pending_managed s = Some p ∧ p !! i = Some e) → e_pubkey e ≠ e_pubkey entry) →
    (∀ v e, ephemeral s !! v = Some e → e_pubkey e ≠ e_pubkey entry) →
    change s (with_ephemeral s (<[u := entry]> (ephemeral s)))
| ch_regroup s u e g : ephemeral s !! u = Some e → change s (with_ephemeral s (<[u := with_grant e g]> (ephemeral s)))
| ch_forget s u : change s (with_ephemeral s (delete u (ephemeral s)))
| ch_managed s x : distinct x s → disjoint_ids x s → change s (with_managed s x)
| ch_reserve s x : distinct x s → disjoint_ids x s → change s (with_pending s (Some x))
| ch_install s x : pending_managed s = Some x → change s (with_pending (with_managed s x) None)
| ch_release s : change s (with_pending s None).

Lemma holder_shrink x s b o e : b ⊆ base s → holder x (with_base s b) o = Some e → holder x s o = Some e.
Proof. intros Hb. destruct o as [id|id|u]; cbn; try done. intros H. by eapply lookup_weaken. Qed.

Lemma managed_contains_false s id x :
  managed_contains_id s id = false → x = managed s ∨ pending_managed s = Some x → x !! id = None.
Proof.
  unfold managed_contains_id. intros [H1 H2]%orb_false_iff [->|Hp].
  - apply bool_decide_eq_false in H1. by apply eq_None_not_Some.
  - rewrite Hp in H2. apply bool_decide_eq_false in H2. by apply eq_None_not_Some.
Qed.

Lemma live_or_pending s x i e :
  x = managed s ∨ pending_managed s = Some x → x !! i = Some e →
  managed s !! i = Some e ∨ (∃ p, pending_managed s = Some p ∧ p !! i = Some e).
Proof. intros [->|Hp] Hi; [by left|]. right. by exists x. Qed.

Lemma change_inv s s' : change s s' → inv s → inv s'.
Proof.
  destruct 1 as [s|s b Hb|s b id entry Hb Hid H1 H2 H3|s u entry H1 H2 H3|s u e0 g Hu|s u|s x0 Hx Hi|s x0 Hx Hi|s x0 Hx|s];
    intros Hinv x Hlive; cbn in Hlive.
  - by apply Hinv.
  - destruct (Hinv x Hlive) as [Hd Hj]. split.
    + intros o o' e e' Ho Ho'. apply Hd; by eapply holder_shrink.
    + intros i [e He]. apply Hj. exists e. cbn in He. by eapply lookup_weaken.
  - destruct (Hinv x Hlive) as [Hd Hj]. split.
    + apply (distinct_change x (with_base s b) x _ (OBase id) (e_pubkey entry)).
      * intros o o' e e' Ho Ho'. apply Hd; by eapply holder_shrink.
      * intros [i|i|u] e' He'; cbn in *; [|left; by exists e'|left; by exists e'].
        apply lookup_insert_Some in He' as [[<- <-]|[_ He']]; [by right|left; by exists e'].
      * intros [i|i|u] e He Ek; cbn in *.
        -- f_equal. by eapply H1.
        -- exfalso. eapply (H2 i e); [by eapply live_or_pending|done].
        -- exfalso. by eapply H3.
    + intros i [e He]. cbn in He. apply lookup_insert_Some in He as [[<- _]|[_ He]]; [by eapply managed_contains_false|].
      apply Hj. exists e. by eapply lookup_weaken.
  - destruct (Hinv x Hlive) as [Hd Hj]. split; [|done].
    apply (distinct_change x s x _ (OEphemeral u) (e_pubkey entry)); [done| |].
    + intros [i|i|v] e' He'; cbn in *; [left; by exists e'|left; by exists e'|].
      apply lookup_insert_Some in He' as [[<- <-]|[_ He']]; [by right|left; by exists e'].
    + intros [i|i|v] e He Ek; cbn in *; exfalso;
        [by eapply H1|eapply (H2 i e); [by eapply live_or_pending|done]|by eapply H3].
  - destruct (Hinv x Hlive) as [Hd Hj]. split; [|done].
    apply (distinct_change x s x _ (OEphemeral u) (e_pubkey e0)); [done| |].
    + intros [i|i|v] e' He'; cbn in *; [left; by exists e'|left; by exists e'|].
      apply lookup_insert_Some in He' as [[<- <-]|[_ He']]; [by right|left; by exists e'].
    + intros o e He Ek. by apply (Hd o (OEphemeral u) e e0).
  - destruct (Hinv x Hlive) as [Hd Hj]. split; [|done]. intros o o' e e' Ho Ho'. apply Hd;
      [destruct o|destruct o']; cbn in *; try done; by apply lookup_delete_Some in Ho as [_ ?] || apply lookup_delete_Some in Ho' as [_ ?].
  - destruct Hlive as [->|Hp]; [by split|]. apply Hinv. by right.
  - destruct Hlive as [->|[= <-]]; [apply Hinv; by left|by split].
  - destruct Hlive as [->|?]; [|done]. apply Hinv. by right.
  - destruct Hlive as [->|?]; [|done]. apply Hinv. by left.
Qed.

(** ** The operations as changes *)

(** What the storage holds, as [from_storage] reads it, agrees with memory. *)
Definition persisted m : Prop :=
  map_Forall (λ _, normal) (base (state m)) ∧
  match storage m with
  | Some d => if storage_load_error m then base (state m) = ∅ ∧ load_base d = None else load_base d = Some (base (state m))
  | None => storage_load_error m = false
  end.

Lemma normalize_loaded_normal b : map_Forall (λ _, normal) b → normalize_loaded_entries b = Some b.
Proof.
  intros Hb. unfold normalize_loaded_entries. destruct (existsb _ _) eqn:E.
  - apply existsb_exists in E as ([k e] & Hin & Hf). apply list_elem_of_In, elem_of_map_to_list in Hin.
    specialize (Hb k e Hin). cbn in *. unfold normal in Hb. by rewrite Hb in Hf.
  - f_equal. apply map_eq. intros k. rewrite lookup_fmap. destruct (b !! k) as [e|] eqn:Ek; [|done]. cbn.
    specialize (Hb k e Ek). unfold normal in Hb. cbn in Hb. rewrite Hb. by destruct e.
Qed.

(** A commit changes memory and storage together, or neither. *)
Lemma commit_spec m b :
  persisted m → map_Forall (λ _, normal) b →
  let '(m', ok) := commit_base m b in
  persisted m' ∧ storage_load_error m' = storage_load_error m ∧
  state m' = (if ok then with_base (state m) b else state m) ∧
  (ok = true → storage_load_error m = false).
Proof.
  intros [Hn Hp] Hb. unfold commit_base, store_base. destruct (storage_load_error m) eqn:El.
  { split; [split; [done|by rewrite El]|]. by rewrite El. }
  destruct (storage m) as [d|] eqn:Ed.
  - destruct (store d (to_json b)) as [d' ok] eqn:Es.
    pose proof (store_commits d (to_json b)) as Hc. pose proof (store_keeps d (to_json b)) as Hk. rewrite Es in Hc, Hk. cbn in Hc, Hk.
    destruct ok; (split; [split; cbn; [done|]|done]); unfold load_base in *.
    + rewrite Hc by done. cbn. rewrite from_json_to_json. cbn. by apply normalize_loaded_normal.
    + by rewrite Hk.
  - split; [split; [done|]|]; cbn; by rewrite ?Ed.
Qed.

Lemma persisted_state m s : base s = base (state m) → persisted m → persisted (with_state m s).
Proof. unfold persisted. cbn. by intros ->. Qed.

Lemma active_subset b now : active_entries b now ⊆ b.
Proof. apply map_filter_subseteq. Qed.

Lemma normal_subset (b b' : Entries) : b ⊆ b' → map_Forall (λ _, normal) b' → map_Forall (λ _, normal) b.
Proof. intros Hb H k e Hk. apply (H k e). by eapply lookup_weaken. Qed.

Lemma new_grant_normal groups relay cidrs reusable g private expiry created :
  new_grant groups relay cidrs reusable = Ok g → normal (entry_of_private private g expiry created).
Proof. intros H. unfold normal. cbn. by eapply normalize_idem. Qed.

Lemma key_free_base (b : Entries) k : any_entry (λ _, has_key k) b = false → ∀ i e, b !! i = Some e → e_pubkey e ≠ k.
Proof. intros H i e Hi. rewrite any_entry_false in H. by apply has_key_false, (H i e). Qed.

Lemma key_free_ephemeral (b : gmap Uuid CredentialEntry) k :
  any_entry (λ _, has_key k) b = false → ∀ i e, b !! i = Some e → e_pubkey e ≠ k.
Proof. intros H i e Hi. rewrite any_entry_false in H. by apply has_key_false, (H i e). Qed.

Lemma any_managed_false s f :
  any_managed s f = false →
  ∀ i e, managed s !! i = Some e ∨ (∃ p, pending_managed s = Some p ∧ p !! i = Some e) → f i e = false.
Proof.
  unfold any_managed. intros [H1 H2]%orb_false_iff i e [Hi|(p & Hp & Hi)].
  - rewrite any_entry_false in H1. auto.
  - rewrite Hp, any_entry_false in H2. auto.
Qed.

(** What each call owes: a change of the state, kept on errors, in step with the storage. *)
Record call_ok m m' (failed : bool) : Prop := {
  ok_change : change (state m) (state m');
  ok_failed : failed = true → state m' = state m ∧ load <$> storage m' = load <$> storage m;
  ok_pending : pending_managed (state m') = pending_managed (state m);
  ok_persisted : persisted m → persisted m';
  ok_load_error : storage_load_error m' = storage_load_error m
}.

Lemma call_ok_refl m b : call_ok m m b.
Proof. split; [constructor|done..]. Qed.

Lemma call_ok_state m s b :
  change (state m) s → b = false → base s = base (state m) → pending_managed s = pending_managed (state m) →
  call_ok m (with_state m s) b.
Proof. intros Hc -> Hb Hp. split; [done|done|done|by apply persisted_state|done]. Qed.

Lemma call_ok_commit m b : change (state m) (with_base (state m) b) → (persisted m → map_Forall (λ _, normal) b) →
  call_ok m (commit_base m b).1 (negb (commit_base m b).2).
Proof.
  intros Hc Hn. pose proof (commit_spec m b) as Hs.
  assert (state (commit_base m b).1 = (if (commit_base m b).2 then with_base (state m) b else state m) ∧
    storage_load_error (commit_base m b).1 = storage_load_error m ∧
    ((commit_base m b).2 = false → load <$> storage (commit_base m b).1 = load <$> storage m)) as (Es & El & Ek).
  { unfold commit_base, store_base. destruct (storage_load_error m) eqn:E; [done|]. destruct (storage m) as [d|] eqn:Ed; [|cbn; by rewrite Ed].
    pose proof (store_keeps d (to_json b)) as Hk. destruct (store _ _) as [? []]; cbn in *; [done|]. by rewrite Hk. }
  destruct (commit_base m b) as [m' ok]. cbn in *. split.
  - rewrite Es. destruct ok; [done|constructor].
  - destruct ok; [done|]. auto.
  - rewrite Es. by destruct ok.
  - intros Hp. by apply Hs; auto.
  - done.
Qed.

Lemma fresh_entry_spec s updated grant ttl draws entry :
  fresh_entry s updated grant ttl draws = Some entry →
  public_key_in_use s updated (e_pubkey entry) = false ∧ ∃ draw, entry = build_entry grant ttl draw.
Proof.
  induction draws as [|d draws IH]; [done|]. cbn. destruct (public_key_in_use s updated (e_pubkey (build_entry grant ttl d))) eqn:E; [auto|].
  intros [= <-]. split; [done|]. by exists d.
Qed.

Lemma generate_for_ok m now id o draws m' r :
  let updated := active_entries (base (state m)) now in
  managed_contains_id (state m) id = false →
  generate_for m updated id o draws = Some (m', r) → call_ok m m' (negb (is_ok r)).
Proof.
  intros updated Hid. unfold generate_for. destruct (new_grant _ _ _ _) as [grant|] eqn:Eg; [|intros [= <- <-]; apply call_ok_refl].
  destruct (fresh_entry _ _ _ _ _) as [entry|] eqn:Ef; [|done]. cbn.
  apply fresh_entry_spec in Ef as [Hu [[random t] ->]]. unfold public_key_in_use in Hu.
  apply orb_false_iff in Hu as [[Hu1 Hu2]%orb_false_iff Hu3].
  set (entry := build_entry grant (co_ttl o) (random, t)) in *.
  pose proof (call_ok_commit m (<[id := entry]> updated)) as Hc.
  destruct (commit_base m _) as [m1 ok]. intros [= <- <-]. replace (negb (is_ok _)) with (negb ok) by by destruct ok.
  apply Hc.
  - constructor; [apply active_subset|done| | |].
    + intros i e Hi Ek. exfalso. by eapply key_free_base.
    + intros i e Hi. by apply has_key_false, (any_managed_false _ _ Hu2 i e).
    + intros u e He. by eapply key_free_ephemeral.
  - intros [Hn _]. apply map_Forall_insert_2; [by eapply new_grant_normal|]. eapply normal_subset; [apply active_subset|done].
Qed.

Lemma fresh_id_spec s updated uuids id : fresh_id s updated uuids = Some id → managed_contains_id s id = false.
Proof.
  induction uuids as [|u uuids IH]; [done|]. cbn. destruct (negb _ && negb _) eqn:E; [|done].
  intros [= <-]. by apply andb_true_iff in E as [_ E%negb_true_iff].
Qed.

Lemma generate_ok m o now uuids draws m' r :
  generate_credential_with_options m o now uuids draws = Some (m', r) → call_ok m m' (negb (is_ok r)).
Proof.
  unfold generate_credential_with_options. destruct (storage_load_error m); [intros [= <- <-]; apply call_ok_refl|].
  assert (∀ id, fresh_id (state m) (active_entries (base (state m)) now) uuids = Some id →
    generate_for m (active_entries (base (state m)) now) id o draws = Some (m', r) → call_ok m m' (negb (is_ok r))) as Hfresh.
  { intros id Hid. apply generate_for_ok. by eapply fresh_id_spec. }
  destruct (trim <$> co_credential_id o) as [[|c id]|];
    [destruct (fresh_id _ _ _) as [id|] eqn:Ei; [by apply Hfresh|done]| |destruct (fresh_id _ _ _) as [id|] eqn:Ei; [by apply Hfresh|done]].
  destruct (managed_contains_id _ _) eqn:Em; [intros [= <- <-]; apply call_ok_refl|].
  destruct (active_entries _ _ !! _) as [existing|]; [|by apply generate_for_ok].
  destruct (e_secret existing); [by apply generate_for_ok|]. intros [= <- <-]. apply call_ok_refl.
Qed.

Lemma revoke_ok m id : call_ok m (revoke_credential m id).1 (negb (is_ok (revoke_credential m id).2)).
Proof.
  unfold revoke_credential. destruct (storage_load_error m); [apply call_ok_refl|].
  destruct (base (state m) !! id); [|apply call_ok_refl].
  pose proof (call_ok_commit m (delete id (base (state m)))) as Hc. destruct (commit_base m _) as [m1 ok]. cbn in *.
  replace (negb (is_ok _)) with (negb ok) by by destruct ok. apply Hc.
  - constructor. apply delete_subseteq.
  - intros [Hn _]. eapply normal_subset; [apply delete_subseteq|done].
Qed.

Lemma register_ok m key groups id now :
  call_ok m (register_ephemeral_credential m key groups id now).1 (negb (is_ok (register_ephemeral_credential m key groups id now).2)).
Proof.
  unfold register_ephemeral_credential. cbn [e_pubkey]. destruct (_ || _) eqn:E; [apply call_ok_refl|].
  apply orb_false_iff in E as [[E1 E2]%orb_false_iff E3]. apply call_ok_state; [|done..]. constructor; cbn.
  - by apply key_free_base.
  - intros i e Hi. by apply has_key_false, (any_managed_false _ _ E2 i e).
  - by apply key_free_ephemeral.
Qed.

Lemma upsert_ok m o now now' : call_ok m (upsert_credential m o now now').1 (negb (is_ok (upsert_credential m o now now').2)).
Proof.
  unfold upsert_credential. destruct (trim _) as [|c id]; [apply call_ok_refl|]. destruct (uo_expiry_unix o <=? now); [apply call_ok_refl|].
  destruct (decode_secret _) as [private|]; [|apply call_ok_refl].
  destruct (new_grant _ _ _ _) as [grant|] eqn:Eg; [|apply call_ok_refl]. set (i := c :: id).
  set (entry := entry_of_private _ _ _ _). unfold upsert_entry. destruct (storage_load_error m); [apply call_ok_refl|].
  destruct (managed_contains_id _ _) eqn:Em; [apply call_ok_refl|]. destruct (_ || _) eqn:E1; [apply call_ok_refl|].
  apply orb_false_iff in E1 as [E1 E2]. destruct (any_entry _ (ephemeral _)) eqn:E3; [apply call_ok_refl|].
  destruct (negb _); [apply call_ok_refl|].
  pose proof (call_ok_commit m (<[i := entry]> (base (state m)))) as Hc. destruct (commit_base m _) as [m1 ok]. cbn in *.
  replace (negb (is_ok _)) with (negb ok) by by destruct ok. apply Hc.
  - constructor; [done|done| | |by apply key_free_ephemeral].
    + intros j e Hj Ek. rewrite any_entry_false in E1. specialize (E1 j e Hj). cbn in E1.
      apply andb_false_iff in E1 as [E1|E1]; [|by apply has_key_false in E1].
      by apply negb_false_iff, bool_decide_eq_true in E1.
    + intros j e Hj Ek. pose proof (any_managed_false _ _ E2 j e Hj) as H. cbn in H.
      apply andb_false_iff in H as [H|H]; [|by apply has_key_false in H].
      apply negb_false_iff, bool_decide_eq_true in H. subst j.
      assert (∀ x, x = managed (state m) ∨ pending_managed (state m) = Some x → x !! i = None) as Hno
        by (intros x; by apply managed_contains_false).
      destruct Hj as [Hj|(p & Hp & Hj)]; [rewrite (Hno _ (or_introl eq_refl)) in Hj|rewrite (Hno _ (or_intror Hp)) in Hj]; done.
  - intros [Hn _]. apply map_Forall_insert_2; [by eapply new_grant_normal|done].
Qed.

Lemma remove_expired_ok m now : call_ok m (remove_expired_credentials m now).1 false.
Proof.
  unfold remove_expired_credentials. destruct (decide _); [apply call_ok_refl|].
  pose proof (call_ok_commit m (active_entries (base (state m)) now)) as Hc.
  destruct Hc as [H1 H2 H3 H4 H5]; [constructor; apply active_subset| |by split].
  intros [Hn _]. eapply normal_subset; [apply active_subset|done].
Qed.

(** *** The managed credentials *)

Definition keys_distinct (x : Entries) : Prop :=
  ∀ i j e e', x !! i = Some e → x !! j = Some e' → e_pubkey e = e_pubkey e' → i = j.

Lemma build_managed_distinct cs entries keys x :
  keys_distinct entries → (∀ i e, entries !! i = Some e → e_pubkey e ∈ keys) →
  build_managed_entries cs entries keys = Ok x → keys_distinct x.
Proof.
  revert entries keys. induction cs as [|c cs IH]; intros entries keys Hd Hk; cbn; [by intros [= <-]|].
  destruct (trim (mc_credential_id c)) as [|h t]; [done|]. set (id := h :: t). destruct (from_managed c) as [entry|]; [|done].
  case_bool_decide as Hnew; [done|]. case_bool_decide; [done|]. apply IH.
  - intros i j e e' Hi Hj E. apply lookup_insert_Some in Hi as [[<- <-]|[_ Hi]], Hj as [[<- <-]|[_ Hj]]; [done| | |by eapply Hd].
    + exfalso. apply Hnew. rewrite E. by eapply Hk.
    + exfalso. apply Hnew. rewrite <- E. by eapply Hk.
  - intros i e Hi. apply lookup_insert_Some in Hi as [[_ <-]|[_ Hi]]; [left|]. right. by eapply Hk.
Qed.

Lemma build_managed_keys cs x : build_managed_entries cs ∅ [] = Ok x → keys_distinct x.
Proof. apply build_managed_distinct; [intros i j e e' Hi|intros i e Hi]; by rewrite lookup_empty in Hi. Qed.

(** A replacement that passes the checks is compatible with the other credentials. *)
Lemma validated s cs x y :
  inv s → build_managed_entries cs ∅ [] = Ok x → validate_managed_conflicts s x = Ok y → distinct x s ∧ disjoint_ids x s.
Proof.
  intros Hinv Hx%build_managed_keys Hv. destruct (Hinv (managed s) (or_introl eq_refl)) as [Hd Hj].
  unfold validate_managed_conflicts in Hv. destruct (any_entry _ x) eqn:E1; [done|].
  match type of Hv with (if ?b then _ else _) = _ => destruct b eqn:E2 end; [done|].
  rewrite any_entry_false in E1, E2. cbn in E1, E2. split.
  - assert (∀ i e, x !! i = Some e → ∀ o e', (∀ j, o ≠ OManaged j) → holder x s o = Some e' → e_pubkey e' ≠ e_pubkey e) as Hout.
    { intros i e Hi o e' Ho He'. specialize (E2 i e Hi). apply orb_false_iff in E2 as [H1 H2].
      destruct o as [j|j|u]; cbn in He'; [by eapply key_free_base|by destruct (Ho j)|by eapply key_free_ephemeral]. }
    intros o o' e e' Ho Ho' E. destruct o as [i|i|u].
    + destruct o' as [j|j|v]; [by apply (Hd (OBase i) (OBase j) e e')| |by apply (Hd (OBase i) (OEphemeral v) e e')].
      exfalso. by eapply (Hout j e' Ho' (OBase i) e).
    + destruct o' as [j|j|v]; [exfalso; by eapply (Hout i e Ho (OBase j) e')| |exfalso; by eapply (Hout i e Ho (OEphemeral v) e')].
      f_equal. by eapply Hx.
    + destruct o' as [j|j|v]; [by apply (Hd (OEphemeral u) (OBase j) e e')| |by apply (Hd (OEphemeral u) (OEphemeral v) e e')].
      exfalso. by eapply (Hout j e' Ho' (OEphemeral u) e).
  - intros id Hb. apply eq_None_not_Some. intros [e He]. specialize (E1 id e He). by apply bool_decide_eq_false in E1.
Qed.

Lemma install_initial_ok m cs : inv (state m) →
  call_ok m (install_initial_managed_credentials m cs).1 (negb (is_ok (install_initial_managed_credentials m cs).2)).
Proof.
  intros Hinv. unfold install_initial_managed_credentials. destruct (storage_load_error m); [apply call_ok_refl|].
  destruct (build_managed_entries cs ∅ []) as [x|] eqn:Ex; [|apply call_ok_refl].
  destruct (validate_managed_conflicts (state m) x) as [y|] eqn:Ev; [|apply call_ok_refl].
  destruct (validated _ _ _ _ Hinv Ex Ev). apply call_ok_state; [by constructor|done..].
Qed.

Lemma validate_ok m cs : inv (state m) →
  let '(m', r) := validate_managed_credentials m cs in
  match r with
  | Ok true => ∃ x, distinct x (state m) ∧ disjoint_ids x (state m) ∧
      m' = with_state m (with_pending (state m) (Some x)) ∧ pending_managed (state m) = None
  | _ => m' = m
  end.
Proof.
  intros Hinv. unfold validate_managed_credentials. destruct (build_managed_entries cs ∅ []) as [x|] eqn:Ex; [|done].
  destruct (pending_managed (state m)) as [p|] eqn:Ep; [done|].
  destruct (validate_managed_conflicts (state m) x) as [y|] eqn:Ev; [|done].
  destruct (validated _ _ _ _ Hinv Ex Ev). case_bool_decide; cbn; [done|]. by exists x.
Qed.

(** ** Runs *)

(** The replacements that are waiting and would change something. *)
Definition owed (ts : list bool) : nat := length (filter (λ b, b = true) ts).

Lemma owed_delete (ts : list bool) (i : nat) (b : bool) : ts !! i = Some b → owed ts = ((if b then 1 else 0) + owed (delete i ts))%nat.
Proof.
  intros Hi%delete_Permutation. unfold owed. rewrite Hi at 1. rewrite filter_cons. by destruct b.
Qed.

Definition reserved m (ts : list bool) : Prop :=
  owed ts = match pending_managed (state m) with Some _ => 1%nat | None => 0%nat end.

Record good (mt : CredentialManager * list bool) : Prop := {
  good_inv : inv (state mt.1);
  good_persisted : persisted mt.1;
  good_reserved : reserved mt.1 mt.2
}.

Lemma good_call m m' ts failed : call_ok m m' failed → good (m, ts) → good (m', ts).
Proof.
  intros [Hc _ Hp Hs _] [Hi Hq Hr]. cbn in *. split; cbn; [by eapply change_inv|auto|]. unfold reserved in *. by rewrite Hp.
Qed.

(** The step of a call: it does not panic, keeps the invariants, and changes nothing when it fails. *)
Definition step_ok (mt : CredentialManager * list bool) (c : Call) : Prop :=
  ∃ m' ts' o, exec mt c = Some (m', ts', o) ∧ good (m', ts') ∧
    (∀ e, o = Failed e → ts' = mt.2 ∧ state m' = state mt.1 ∧ load <$> storage m' = load <$> storage mt.1).

Lemma step_call m ts {A} m' (r : result A CredentialError) c :
  good (m, ts) → call_ok m m' (negb (is_ok r)) → exec (m, ts) c = Some (m', ts, outcome r) → step_ok (m, ts) c.
Proof.
  intros Hg Hc He. exists m', ts, (outcome r). split; [done|]. split; [by eapply good_call|].
  intros e Hr. destruct r; [done|]. split; [done|]. by eapply ok_failed.
Qed.

Lemma change_with_pending m p ts ts' :
  good (m, ts) → change (state m) (with_pending (state m) p) →
  owed ts' = match p with Some _ => 1%nat | None => 0%nat end →
  good (with_state m (with_pending (state m) p), ts').
Proof.
  intros [Hi Hq Hr] Hc Ho. cbn in *. split; cbn; [by eapply change_inv|by apply persisted_state|done].
Qed.

Lemma token_changed m (ts : list bool) (i : nat) (b : bool) : good (m, ts) → ts !! i = Some b →
  owed (delete i ts) = if b then 0%nat else match pending_managed (state m) with Some _ => 1%nat | None => 0%nat end.
Proof.
  intros [_ _ Hr] Hi%owed_delete. cbn in Hr. unfold reserved in Hr. rewrite Hr in Hi.
  destruct b; destruct (pending_managed (state m)); lia.
Qed.

Lemma token_reserved m (ts : list bool) (i : nat) : good (m, ts) → ts !! i = Some true → is_Some (pending_managed (state m)).
Proof.
  intros [_ _ Hr] Hi%owed_delete. cbn in Hr. unfold reserved in Hr. rewrite Hr in Hi.
  destruct (pending_managed (state m)); [by eexists|lia].
Qed.

Lemma token_unchanged m (ts : list bool) (i : nat) : good (m, ts) → ts !! i = Some false → good (m, delete i ts).
Proof.
  intros Hg Hi. pose proof (token_changed _ _ _ _ Hg Hi). destruct Hg. by split.
Qed.

Lemma step_validate m ts cs : good (m, ts) → step_ok (m, ts) (Validate cs).
Proof.
  intros Hg. pose proof (validate_ok m cs (good_inv _ Hg)) as Hv. unfold step_ok. cbn.
  destruct (validate_managed_credentials m cs) as [m' r]. eexists _, _, _. split; [done|].
  destruct r as [[|]|e]; [|subst m'; split; [|done]|by subst m'].
  - destruct Hv as (x & Hd & Hj & -> & Hp). split; [|done]. eapply change_with_pending; [done|by constructor|].
    destruct Hg as [_ _ Hr]. cbn in Hr. unfold reserved in Hr. rewrite Hp in Hr. unfold owed in *. by rewrite filter_cons_True, length_cons, Hr by done.
  - destruct Hg as [? ? Hr]. split; [done..|]. cbn in *. unfold reserved, owed in *. by rewrite filter_cons_False by done.
Qed.

Lemma step_install m ts i : good (m, ts) → step_ok (m, ts) (Install i).
Proof.
  intros Hg. unfold step_ok. cbn. destruct (ts !! i) as [b|] eqn:Ei; [|by eexists _, _, _].
  destruct b; cbn; [|eexists _, _, _; split; [done|]; split; [by eapply token_unchanged|done]].
  destruct (token_reserved _ _ _ Hg Ei) as [x Hx]. unfold install_managed_credentials. cbn. rewrite Hx. cbn.
  eexists _, _, _. split; [done|]. split; [|done]. pose proof (token_changed _ _ _ _ Hg Ei).
  destruct Hg as [Hi Hq Hr]. cbn in *. split; [|by apply persisted_state|done]. cbn. eapply change_inv; [by apply ch_install|done].
Qed.

Lemma step_drop m ts i : good (m, ts) → step_ok (m, ts) (DropReplacement i).
Proof.
  intros Hg. unfold step_ok. cbn. destruct (ts !! i) as [b|] eqn:Ei; [|by eexists _, _, _].
  eexists _, _, _. split; [done|]. split; [|done]. destruct b; cbn; [|by eapply token_unchanged].
  eapply change_with_pending; [done|apply ch_release|]. exact (token_changed _ _ _ _ Hg Ei).
Qed.

Lemma regroup_ok m id groups : call_ok m (update_ephemeral_credential_groups m id groups).1 false.
Proof.
  unfold update_ephemeral_credential_groups. destruct (ephemeral (state m) !! id) as [e|] eqn:E; [|apply call_ok_refl].
  destruct (decide _); [apply call_ok_refl|]. apply call_ok_state; [by constructor|done..].
Qed.

Lemma forget_ok m id : call_ok m (revoke_ephemeral_credential m id).1 false.
Proof. apply call_ok_state; [apply ch_forget|done..]. Qed.

Lemma step_silent m ts m' c : good (m, ts) → call_ok m m' false → exec (m, ts) c = Some (m', ts, Returned) → step_ok (m, ts) c.
Proof. intros Hg Hc He. exists m', ts, Returned. split; [done|]. by split; [eapply good_call|]. Qed.

Lemma call_step_ok mt c : good mt → step_ok mt c.
Proof.
  destruct mt as [m ts]. intros Hg. destruct c as [o now uuids draws|o now now'|id|key groups id now|id groups|id|now|cs|cs|i|i].
  - destruct (generate_credential_with_options m o now uuids draws) as [[m' r]|] eqn:E.
    + eapply step_call; [done|by eapply generate_ok|]. cbn. by rewrite E.
    + exists m, ts, OutOfDraws. cbn. by rewrite E.
  - pose proof (upsert_ok m o now now') as Hc. eapply step_call; [done|exact Hc|]. cbn. by destruct (upsert_credential _ _ _ _).
  - pose proof (revoke_ok m id) as Hc. eapply step_call; [done|exact Hc|]. cbn. by destruct (revoke_credential _ _).
  - pose proof (register_ok m key groups id now) as Hc. eapply step_call; [done|exact Hc|]. cbn. by destruct (register_ephemeral_credential _ _ _ _ _).
  - eapply step_silent; [done|apply (regroup_ok m id groups)|]. cbn. by destruct (update_ephemeral_credential_groups _ _ _).
  - eapply step_silent; [done|apply (forget_ok m id)|]. done.
  - eapply step_silent; [done|apply (remove_expired_ok m now)|]. cbn. by destruct (remove_expired_credentials _ _).
  - pose proof (install_initial_ok m cs (good_inv _ Hg)) as Hc. eapply step_call; [done|exact Hc|]. cbn.
    by destruct (install_initial_managed_credentials _ _).
  - by apply step_validate.
  - by apply step_install.
  - by apply step_drop.
Qed.

Lemma run_ok mt cs : good mt → ∃ mt', exec_all mt cs = Some mt' ∧ good mt'.
Proof.
  revert mt. induction cs as [|c cs IH]; intros mt Hg; [by exists mt|].
  destruct (call_step_ok mt c Hg) as (m' & ts' & o & He & Hg' & _). cbn. rewrite He. cbn. by apply IH.
Qed.

(** A manager as the code makes one: in memory, or from a storage whose file has no
    key twice. *)
Inductive started : CredentialManager → Prop :=
| started_memory : started new_manager
| started_storage d : keys_distinct (base (state (from_storage d))) → started (from_storage d).

Lemma inv_base (b : Entries) : keys_distinct b → inv (with_base empty_state b).
Proof.
  intros Hb x [->|?]; [|done]. split; [|intros id _; apply lookup_empty].
  intros [i|i|u] [j|j|v] e e' Hi Hj E; cbn in Hi, Hj; try by rewrite lookup_empty in Hi || rewrite lookup_empty in Hj.
  f_equal. by eapply Hb.
Qed.

Lemma normalize_loaded_spec entries b : normalize_loaded_entries entries = Some b → map_Forall (λ _, normal) b.
Proof.
  unfold normalize_loaded_entries. destruct (existsb _ _) eqn:E; [done|]. intros [= <-] k e.
  rewrite lookup_fmap. intros (e0 & Hk & ->)%fmap_Some. unfold normal. destruct (normalize (e_grant e0)) as [g|] eqn:En.
  - cbn. by eapply normalize_idem.
  - apply not_true_iff_false in E. destruct E. apply existsb_exists. exists (k, e0).
    split; [by apply list_elem_of_In, elem_of_map_to_list|]. cbn. by rewrite En.
Qed.

Lemma persisted_start d : persisted (from_storage d).
Proof.
  unfold from_storage. destruct (load_base d) as [b|] eqn:E; [|by split].
  split; [|done]. cbn. unfold load_base in E. destruct (load d) as [[t|]|]; [|by injection E as <-|done].
  destruct (from_json t); [|done]. by eapply normalize_loaded_spec.
Qed.

Lemma started_good m : started m → good (m, []).
Proof.
  intros [|d Hd].
  - split; [|done|done]. by apply inv_base.
  - assert (state (from_storage d) = with_base empty_state (base (state (from_storage d)))) as Es
      by (unfold from_storage; by destruct (load_base d)).
    split; [|apply persisted_start|]; cbn; [by rewrite Es; apply inv_base|unfold reserved; by rewrite Es].
Qed.

(** C30: whatever calls are made on a manager, in any order and with replacements of the
    managed credentials left waiting between them, no call panics (installing a replacement
    always finds its reservation), and no two credentials of the file, the managed
    configuration (current or waiting) and the attached peers share a public key, nor do the
    file and the configuration share an identifier. *)
Theorem credentials_unique m cs :
  started m → ∃ m' ts, exec_all (m, []) cs = Some (m', ts) ∧ inv (state m').
Proof. intros Hm%started_good. destruct (run_ok _ cs Hm) as ([m' ts] & He & Hg). exists m', ts. by split; [|apply Hg]. Qed.

(** C31: a call that reports an error leaves the credentials and the replacements that wait
    as they were, and a restart would read from the storage what it would have read before:
    also a failed write. *)
Theorem failed_call_changes_nothing m cs m1 ts1 c m2 ts2 e :
  started m → exec_all (m, []) cs = Some (m1, ts1) → exec (m1, ts1) c = Some (m2, ts2, Failed e) →
  state m2 = state m1 ∧ ts2 = ts1 ∧ load <$> storage m2 = load <$> storage m1.
Proof.
  intros Hm%started_good He Hc. destruct (run_ok _ cs Hm) as (mt & He' & Hg). rewrite He in He'. injection He' as <-.
  destruct (call_step_ok _ c Hg) as (m' & ts' & o & E & _ & Hf). rewrite Hc in E. injection E as <- <- <-.
  destruct (Hf e eq_refl) as (? & ? & ?). done.
Qed.

(** C32: after any calls, a manager started again from the storage holds the same
    credentials of its own, and only those: no managed or ephemeral one.  A file that could
    not be read is still refused. *)
Theorem restart_recovers_credentials m cs m' ts d :
  started m → exec_all (m, []) cs = Some (m', ts) → storage m' = Some d →
  from_storage d = mkManager (with_base empty_state (base (state m'))) (Some d) (storage_load_error m').
Proof.
  intros Hm%started_good He Hd. destruct (run_ok _ cs Hm) as (mt & He' & Hg). rewrite He in He'. injection He' as <-.
  destruct Hg as [_ [_ Hp] _]. cbn in Hp. rewrite Hd in Hp. unfold from_storage.
  destruct (storage_load_error m'); [destruct Hp as [-> ->]|rewrite Hp]; done.
Qed.

Lemma trusted_holder m k now :
  is_pubkey_trusted m k now = true ↔
  ∃ o e, holder (managed (state m)) (state m) o = Some e ∧ e_pubkey e = base64_encode k ∧
    match o with OEphemeral _ => True | _ => is_active_at e now = true end.
Proof.
  unfold is_pubkey_trusted. rewrite !orb_true_iff, !any_entry_true. split.
  - intros [[(i & e & Hi & [Hk Ha]%andb_true_iff)|(i & e & Hi & [Hk Ha]%andb_true_iff)]|(i & e & Hi & Hk)]; apply has_key_true in Hk;
      [by exists (OBase i), e|by exists (OManaged i), e|by exists (OEphemeral i), e].
  - intros ([i|i|u] & e & Hi & Hk%has_key_true & Ha); [left; left|left; right|right]; exists i, e || exists u, e; cbn in *;
      (split; [done|]); rewrite Hk; done.
Qed.

(** Once a credential of the file is revoked its key is not trusted, at any time, and
    no other key is affected: no other credential can hold the same key. *)
Theorem revocation_takes_effect m cs m1 ts id e m2 k now :
  started m → exec_all (m, []) cs = Some (m1, ts) →
  base (state m1) !! id = Some e → revoke_credential m1 id = (m2, Ok true) →
  is_pubkey_trusted m2 k now = (if bool_decide (e_pubkey e = base64_encode k) then false else is_pubkey_trusted m1 k now).
Proof.
  intros Hm%started_good He Hid Hr. destruct (run_ok _ cs Hm) as (mt & He' & Hg). rewrite He in He'. injection He' as <-.
  destruct Hg as [Hi Hp _]. destruct (Hi (managed (state m1)) (or_introl eq_refl)) as [Hd _]. cbn in Hd.
  assert (state m2 = with_base (state m1) (delete id (base (state m1)))) as Es.
  { unfold revoke_credential in Hr. destruct (storage_load_error m1); [done|]. rewrite Hid in Hr.
    unfold commit_base, store_base in Hr. destruct (storage_load_error m1); [done|]. destruct (storage m1) as [d|]; [|by injection Hr as <-].
    destruct (store _ _) as [d' []]; [by injection Hr as <-|done]. }
  assert (∀ o e', holder (managed (state m2)) (state m2) o = Some e' ↔ holder (managed (state m1)) (state m1) o = Some e' ∧ o ≠ OBase id) as Hh.
  { intros [i|i|u] e'; rewrite Es; cbn; [|naive_solver..]. rewrite lookup_delete_Some. naive_solver. }
  case_bool_decide as Hk.
  - apply not_true_iff_false. intros (o & e' & [Ho Hn]%Hh & He1 & _)%trusted_holder. apply Hn.
    apply (Hd o (OBase id) e' e); [done|done|congruence].
  - apply eq_bool_prop_intro. rewrite !Is_true_true, !trusted_holder. split.
    + intros (o & e' & [Ho _]%Hh & H). by exists o, e'.
    + intros (o & e' & Ho & H & Ha). exists o, e'. split; [|done]. apply Hh. split; [done|]. intros ->. cbn in Ho. rewrite Hid in Ho. congruence.
Qed.

Lemma to_trusted_spec e k : is_bytes k → len k = 32 →
  (∃ c, to_trusted_credential e = Some c ∧ tc_pubkey c = k) ↔ e_pubkey e = base64_encode k.
Proof.
  intros Hb Hl. unfold to_trusted_credential, decode_pubkey_b64. split.
  - intros (c & Hc & <-). destruct (base64_decode (e_pubkey e)) as [l|] eqn:E; [|done]. cbn in Hc.
    destruct (negb _); [done|]. injection Hc as <-. cbn. by apply base64_encode_decode in E as [_ E].
  - intros ->. rewrite base64_decode_encode by done. cbn. rewrite Hl. by eexists.
Qed.

Lemma new_signed_verifies c secret : verify_credential_hmac (new_signed c secret) secret = true.
Proof.
  unfold verify_credential_hmac, verify_credential_hmac_with_bytes, new_signed, generate_credential_hmac, generate_credential_hmac_from_bytes.
  cbn. destruct (hmac_sha256 _ _) eqn:E; [by apply hmac_sha256_nonempty in E|]. by apply bool_decide_eq_true.
Qed.

Lemma elem_of_iter {K} `{Countable K} (x : gmap K CredentialEntry) e : e ∈ map snd (iter x) ↔ ∃ i, x !! i = Some e.
Proof.
  rewrite iter_perm. rewrite list_elem_of_fmap. split.
  - intros ([i e'] & -> & Hi%elem_of_map_to_list). by exists i.
  - intros [i Hi]. exists (i, e). by rewrite elem_of_map_to_list.
Qed.

(** The proofs a node publishes cover the keys it trusts, and no other: a key of 32
    bytes is trusted exactly when a published proof names it, and the proof verifies under
    the network secret it was made with. *)
Theorem published_iff_trusted m secret k now : is_bytes k → len k = 32 →
  is_pubkey_trusted m k now = true ↔
  ∃ p c, p ∈ get_trusted_pubkeys m secret now ∧ pf_credential p = Some c ∧ tc_pubkey c = k ∧ verify_credential_hmac p secret = true.
Proof.
  intros Hb Hl. rewrite trusted_holder. unfold get_trusted_pubkeys. split.
  - intros (o & e & Ho & Hk & Ha). destruct (proj2 (to_trusted_spec e k Hb Hl) Hk) as (c & Hc & Ec).
    exists (new_signed c secret), c. split; [|by split; [|split; [|apply new_signed_verifies]]].
    rewrite elem_of_app, !list_elem_of_omap. destruct o as [i|i|u]; [left|left|right]; exists e; rewrite Hc; (split; [|done]);
      rewrite ?list_elem_of_filter, ?elem_of_app, !elem_of_iter; naive_solver.
  - intros (p & c & Hin & Hc & Ek & _).
    rewrite elem_of_app, !list_elem_of_omap in Hin.
    assert (∀ e, (c ← to_trusted_credential e; Some (new_signed c secret)) = Some p → e_pubkey e = base64_encode k) as Hkey.
    { intros e He. apply (to_trusted_spec e k Hb Hl). destruct (to_trusted_credential e) as [c'|]; [|done]. exists c'.
      injection He as <-. cbn in Hc. by injection Hc as ->. }
    destruct Hin as [(e & Hin & He)|(e & Hin & He)]; apply Hkey in He.
    + rewrite list_elem_of_filter, elem_of_app, !elem_of_iter in Hin. destruct Hin as [Ha [[i Hi]|[i Hi]]];
        [by exists (OBase i), e|by exists (OManaged i), e].
    + rewrite elem_of_iter in Hin. destruct Hin as [u Hu]. by exists (OEphemeral u), e.
Qed.

End Credentials.

(** ** Witnesses *)

#[local] Instance grant_countable : Countable CredentialGrant.
Proof.
  apply (inj_countable' (λ g, (g_groups g, g_allow_relay g, g_allowed_proxy_cidrs g, g_reusable g))
    (λ '(a, b, c, d), mkGrant a b c d)). by intros [].
Defined.

#[local] Instance entry_countable : Countable CredentialEntry.
Proof.
  apply (inj_countable' (λ e, (e_pubkey e, e_secret e, e_grant e, e_expiry_unix e, e_created_at_unix e))
    (λ '(a, b, c, d, e), mkEntry a b c d e)). by intros [].
Defined.

(** Codecs and functions with the laws of [CredentialLib]: texts that are bytes, an
    injective public key, a tag that contains its message. *)
Definition example_lib : CredentialLib.
Proof.
  refine {|
    base64_encode := id;
    base64_decode t := if decide (is_bytes t) then Some t else None;
    secret_bytes := id;
    public_key l := map (λ b, (b + 1) mod 256) l;
    sha256 := id;
    hmac_sha256 k t := 1 :: k ++ t;
    parse_cidr c := bool_decide (c ≠ []);
    as_bytes := id;
    encode_credential := tc_pubkey;
    to_json e := [Zpos (encode e)];
    from_json t := match t with [Zpos p] => decode p | _ => None end
  |}.
  - intros l Hl. by rewrite decide_True.
  - intros t l. destruct (decide _); [|done]. by intros [= <-].
  - intros l. apply Forall_map, Forall_true. intros b. unfold is_byte. cbn. apply Z.mod_pos_bound. lia.
  - done.
  - intros e. cbn. apply decode_encode.
Defined.

(** A storage that holds the last snapshot, and refuses to write when it is read-only. *)
Definition example_storage : CredentialStorage (option Text * bool).
Proof.
  refine {| load (d : option Text * bool) := Ok d.1; store (d : option Text * bool) t := if d.2 then ((Some t, true), true) else (d, false) |}.
  - by intros [t []].
  - by intros [t []].
Defined.

Section Witnesses.

#[local] Existing Instance example_lib.
#[local] Existing Instance example_storage.

Definition key_a : list Z := repeat 65 32.
Definition key_b : list Z := repeat 66 32.
Definition upsert_of (id : Z) (key : list Z) : CredentialUpsertOptions := mkUpsert [id] key [[97]] false [[49]] 1000 true.
Definition managed_of (id : Z) (key : list Z) : ManagedCredentialConfig := mkManaged [id] key [] true [] 1000 false.

(** A credential of the file, an attached peer, and a replacement that waits while a call
    tries to take its identifier. *)
Definition example_calls : list Call :=
  [Upsert (upsert_of 97 key_a) 10 10; RegisterEphemeral (repeat 3 32) [[103]] 5 11; Validate [managed_of 98 key_b]].

Definition example_start : CredentialManager := from_storage (None, true).

Lemma example_started : started example_start.
Proof. apply (started_storage (None, true)). intros i j e e' Hi. assert (base (state (from_storage (None, true))) = ∅) as E by done. by rewrite E, lookup_empty in Hi. Defined.

Definition example_run : CredentialManager * list bool := default (example_start, []) (exec_all (example_start, []) example_calls).

Lemma example_runs : exec_all (example_start, []) example_calls = Some example_run.
Proof.
  unfold example_run. destruct (exec_all (example_start, []) example_calls) as [mt|] eqn:E; [done|].
  assert (bool_decide (is_Some (exec_all (example_start, []) example_calls)) = true) as H by (vm_compute; reflexivity).
  by rewrite E in H.
Qed.

Example waiting_identifier_refused :
  snd <$> exec example_run (Upsert (upsert_of 98 (repeat 1 32)) 10 10) = Some (Failed (ManagedByConfiguration [98])).
Proof. vm_compute. reflexivity. Qed.

Lemma credentials_unique_witness :
  started example_start ∧ ∃ m' ts, exec_all (example_start, []) example_calls = Some (m', ts) ∧ inv (state m').
Proof. split; [apply example_started|apply (credentials_unique example_start example_calls), example_started]. Defined.

Lemma failed_call_changes_nothing_witness :
  snd <$> exec example_run (Upsert (upsert_of 99 key_b) 10 10) = Some (Failed SecretAlreadyUsed) ∧
  (∀ m2 ts2, exec example_run (Upsert (upsert_of 99 key_b) 10 10) = Some (m2, ts2, Failed SecretAlreadyUsed) →
    state m2 = state example_run.1).
Proof.
  split; [vm_compute; reflexivity|]. intros m2 ts2 H. pose proof example_runs as Hr. destruct example_run as [m1 ts1].
  apply (failed_call_changes_nothing example_start example_calls m1 ts1 (Upsert (upsert_of 99 key_b) 10 10) m2 ts2 SecretAlreadyUsed);
    [apply example_started|exact Hr|exact H].
Defined.

Lemma restart_recovers_credentials_witness :
  match storage example_run.1 with
  | Some d => base (state (from_storage d)) = base (state example_run.1)
  | None => False
  end ∧ bool_decide (is_Some (base (state example_run.1) !! [97])) = true.
Proof.
  split; [|vm_compute; reflexivity]. destruct (storage example_run.1) as [d|] eqn:Ed.
  - rewrite (restart_recovers_credentials example_start example_calls example_run.1 example_run.2 d);
      [reflexivity|apply example_started| |exact Ed].
    rewrite <- surjective_pairing. apply example_runs.
  - assert (bool_decide (is_Some (storage example_run.1)) = true) as H by (vm_compute; reflexivity). by rewrite Ed in H.
Defined.

Lemma revocation_takes_effect_witness :
  is_pubkey_trusted example_run.1 (public_key key_a) 20 = true ∧
  is_pubkey_trusted (revoke_credential example_run.1 [97]).1 (public_key key_a) 20 = false.
Proof.
  split; [vm_compute; reflexivity|].
  assert (e_pubkey <$> base (state example_run.1) !! [97] = Some (public_key key_a)) as He by (vm_compute; reflexivity).
  assert ((revoke_credential example_run.1 [97]).2 = Ok true) as Hr by (vm_compute; reflexivity).
  destruct (base (state example_run.1) !! [97]) as [e|] eqn:Ee; [|discriminate He]. injection He as He.
  rewrite (revocation_takes_effect example_start example_calls example_run.1 example_run.2 [97] e
    (revoke_credential example_run.1 [97]).1 (public_key key_a) 20).
  - rewrite He. reflexivity.
  - apply example_started.
  - rewrite <- surjective_pairing. apply example_runs.
  - exact Ee.
  - rewrite <- Hr. apply surjective_pairing.
Defined.

Lemma published_iff_trusted_witness :
  ∃ p c, p ∈ get_trusted_pubkeys example_run.1 [115] 20 ∧ pf_credential p = Some c ∧
    tc_pubkey c = public_key key_a ∧ verify_credential_hmac p [115] = true.
Proof.
  apply (published_iff_trusted example_run.1 [115] (public_key key_a) 20); [apply public_key_bytes|reflexivity|vm_compute; reflexivity].
Defined.

End Witnesses.
