(* ===== verification/RouteWire.v ===== *)
(** * Wire editing of peer infos

    Models easytier-core/src/peers/route/route_peer_wire.rs, which keeps the protobuf
    bytes of the peer infos that are passed on: the fields of a message, the replacement
    of the two fields that a credential peer may not choose itself, the raw bytes of a
    credential, and requests that carry raw peer infos.

    The primitives of prost (keys, varints, skipping a field) are parameters, class
    [Prost]; so is the encoding of the other fields of a request.  The outer option is a
    panic or a loop without fuel, the inner result what the functions return.

    The theorems say that the parser never panics and that a message is exactly the
    sequence of its fields, that patching changes the two fields and keeps every other
    one byte for byte in its order, and that a request gives back the raw infos put in. *)

From stdpp Require Import base list numbers.
From Stdlib Require Import ZArith Lia.
From S2P Require Import Prelude.
Local Open Scope Z_scope.

(** ** Data *)

(** [prost::encoding::WireType]. *)
Inductive WireType : Type := Varint | SixtyFourBit | LengthDelimited | StartGroup | EndGroup | ThirtyTwoBit.

#[export] Instance wire_type_eq_dec : EqDecision WireType.
Proof. solve_decision. Defined.

(** The [DecodeError] of prost carries a description only. *)
Inductive WireError : Type :=
| Decode
| WrongWireType (tag : Z) (actual expected : WireType)
| TruncatedLengthDelimited
| PeerInfoCountMismatch.

Record WireField : Type := mkField {
  tag : Z;
  wire_type : WireType;
  encoded : list Z;
  length_delimited : option (list Z)
}.

Definition SYNC_ROUTE_PEER_INFOS_TAG : Z := 4.
Definition ROUTE_PEER_INFOS_ITEM_TAG : Z := 1.
Definition ROUTE_PEER_INFO_PROXY_CIDRS_TAG : Z := 5.
Definition ROUTE_PEER_INFO_FEATURE_FLAG_TAG : Z := 11.
Definition ROUTE_PEER_INFO_CREDENTIAL_PROOF_TAG : Z := 19.
Definition FEATURE_FLAG_IS_CREDENTIAL_PEER_TAG : Z := 8.
Definition CREDENTIAL_PROOF_CREDENTIAL_TAG : Z := 1.

Definition is_tag (t : Z) : Prop := 1 <= t < 2 ^ 29.

(** The primitives of prost.  A decoder reads what it consumes and nothing behind it. *)
Class Prost := {
  encode_key : Z → WireType → list Z;
  encode_varint : Z → list Z;
  decode_key : list Z → option (Z * WireType * list Z);
  decode_varint : list Z → option (Z * list Z);
  skip_field : WireType → Z → list Z → option (list Z);
  decode_encode_key t w rest : is_tag t → decode_key (encode_key t w ++ rest) = Some (t, w, rest);
  decode_encode_varint v rest : is_uint 64 v → decode_varint (encode_varint v ++ rest) = Some (v, rest);
  skip_varint t v rest : is_uint 64 v → skip_field Varint t (encode_varint v ++ rest) = Some rest;
  decode_key_consumes l t w rest : decode_key l = Some (t, w, rest) →
    ∃ used, used ≠ [] ∧ l = used ++ rest ∧ ∀ rest', decode_key (used ++ rest') = Some (t, w, rest');
  decode_varint_consumes l v rest : decode_varint l = Some (v, rest) →
    is_uint 64 v ∧ ∃ used, l = used ++ rest ∧ ∀ rest', decode_varint (used ++ rest') = Some (v, rest');
  skip_field_consumes w t l rest : skip_field w t l = Some rest →
    ∃ used, l = used ++ rest ∧ ∀ rest', skip_field w t (used ++ rest') = Some rest'
}.

(** ** Errors and panics *)

Definition M (A : Type) : Type := option (result A WireError).
Definition ret {A} (a : A) : M A := Some (Ok a).
Definition fail {A} (e : WireError) : M A := Some (Err e).

Definition bind {A B} (c : M A) (k : A → M B) : M B :=
  match c with
  | Some (Ok a) => k a
  | Some (Err e) => Some (Err e)
  | None => None
  end.

Declare Scope wire_scope.
Local Notation "x <- c ;; k" := (bind c (λ x, k)) (at level 60, c at next level, right associativity) : wire_scope.
Local Open Scope wire_scope.

Section Wire.

Context {PR : Prost} (usize_bits : Z).


(** ** Operations *)

(** The body of the loop of [parse_fields]: the field at the front and the rest. *)
Definition parse_field (input : list Z) : result (Z * WireType * option (list Z) * list Z) WireError :=
  match decode_key input with
  | None => Err Decode
  | Some (t, w, input) =>
      if decide (w = LengthDelimited) then
        match decode_varint input with
        | None => Err Decode
        | Some (n, input) =>
            if uint_max usize_bits <? n then Err TruncatedLengthDelimited
            else if len input <? n then Err TruncatedLengthDelimited
            else Ok (t, w, Some (take (Z.to_nat n) input), drop (Z.to_nat n) input)
        end
      else match skip_field w t input with
           | None => Err Decode
           | Some input => Ok (t, w, None, input)
           end
  end.

Fixpoint parse_loop (fuel : nat) (message input : list Z) : M (list WireField) :=
  match input with
  | [] => ret []
  | _ =>
      match fuel with
      | O => None
      | S fuel =>
          let start := len message - len input in
          match parse_field input with
          | Err e => fail e
          | Ok (t, w, payload, input) =>
              let end_ := len message - len input in
              match slice_range message start end_ with
              | None => None
              | Some bytes => fields <- parse_loop fuel message input;; ret (mkField t w bytes payload :: fields)
              end
          end
      end
  end.

Definition parse_fields (message : list Z) : M (list WireField) := parse_loop (length message) message message.

(** The [collect] of the payloads of fields with the tag. *)
Fixpoint payloads (t : Z) (fields : list WireField) : result (list (list Z)) WireError :=
  match fields with
  | [] => Ok []
  | f :: fields =>
      match length_delimited f with
      | None => Err (WrongWireType t (wire_type f) LengthDelimited)
      | Some payload => match payloads t fields with Ok l => Ok (payload :: l) | Err e => Err e end
      end
  end.

Definition length_delimited_fields (message : list Z) (t : Z) : M (list (list Z)) :=
  fields <- parse_fields message;; Some (payloads t (filter (λ f, tag f = t) fields)).

Fixpoint replace_loop (t : Z) (expected_wire_type : WireType) (fields : list WireField) (output : list Z)
    : result (list Z) WireError :=
  match fields with
  | [] => Ok output
  | f :: fields =>
      if negb (tag f =? t) then replace_loop t expected_wire_type fields (output ++ encoded f)
      else if negb (bool_decide (wire_type f = expected_wire_type))
      then Err (WrongWireType t (wire_type f) expected_wire_type)
      else replace_loop t expected_wire_type fields output
  end.

Definition replace_fields (message : list Z) (t : Z) (expected_wire_type : WireType) (replacement : list Z) : M (list Z) :=
  fields <- parse_fields message;;
  output <- Some (replace_loop t expected_wire_type fields []);;
  ret (output ++ replacement).

Definition append_length_delimited_field (output : list Z) (t : Z) (payload : list Z) : list Z :=
  output ++ encode_key t LengthDelimited ++ encode_varint (len payload) ++ payload.

Definition append_varint_field (output : list Z) (t value : Z) : list Z :=
  output ++ encode_key t Varint ++ encode_varint value.

Definition merged_length_delimited_field (message : list Z) (t : Z) : M (list Z) :=
  values <- length_delimited_fields message t;; ret (concat values).

Fixpoint extract_items (lists : list (list Z)) : M (list (list Z)) :=
  match lists with
  | [] => ret []
  | peer_infos :: lists =>
      items <- length_delimited_fields peer_infos ROUTE_PEER_INFOS_ITEM_TAG;;
      rest <- extract_items lists;;
      ret (items ++ rest)
  end.

Definition extract_route_peer_infos (request : list Z) : M (list (list Z)) :=
  lists <- length_delimited_fields request SYNC_ROUTE_PEER_INFOS_TAG;; extract_items lists.

Definition append_all (t : Z) (payloads : list (list Z)) : list Z :=
  foldl (λ output payload, append_length_delimited_field output t payload) [] payloads.

(** A request whose peer infos are [peer_infos] and whose other fields encode to [others]. *)
Definition encode_sync_route_request {I} (peer_infos : option (list I)) (others : list Z) (raw_peer_infos : list (list Z)) : M (list Z) :=
  let decoded_count := from_option len 0 peer_infos in
  if negb (decoded_count =? len raw_peer_infos) then fail PeerInfoCountMismatch
  else ret (match peer_infos with
            | None => others
            | Some _ => append_length_delimited_field others SYNC_ROUTE_PEER_INFOS_TAG (append_all ROUTE_PEER_INFOS_ITEM_TAG raw_peer_infos)
            end).

Definition patch_credential_route_peer_info (raw : list Z) (proxy_cidrs : list (list Z)) : M (list Z) :=
  let proxy_cidr_fields := append_all ROUTE_PEER_INFO_PROXY_CIDRS_TAG proxy_cidrs in
  route_info <- replace_fields raw ROUTE_PEER_INFO_PROXY_CIDRS_TAG LengthDelimited proxy_cidr_fields;;
  feature_flag <- merged_length_delimited_field route_info ROUTE_PEER_INFO_FEATURE_FLAG_TAG;;
  let credential_flag := append_varint_field [] FEATURE_FLAG_IS_CREDENTIAL_PEER_TAG 1 in
  feature_flag <- replace_fields feature_flag FEATURE_FLAG_IS_CREDENTIAL_PEER_TAG Varint credential_flag;;
  let feature_flag_field := append_length_delimited_field [] ROUTE_PEER_INFO_FEATURE_FLAG_TAG feature_flag in
  replace_fields route_info ROUTE_PEER_INFO_FEATURE_FLAG_TAG LengthDelimited feature_flag_field.

Definition raw_credential_bytes (raw_route_info : list Z) (proof_idx : nat) : M (option (list Z)) :=
  proofs <- length_delimited_fields raw_route_info ROUTE_PEER_INFO_CREDENTIAL_PROOF_TAG;;
  match proofs !! proof_idx with
  | None => ret None
  | Some proof =>
      credentials <- length_delimited_fields proof CREDENTIAL_PROOF_CREDENTIAL_TAG;;
      match credentials with
      | [] => ret None
      | _ => ret (Some (concat credentials))
      end
  end.

(** * Properties *)

(** The lengths in the hypotheses are not negative. *)
Ltac len_positive :=
  repeat match goal with H : context [len ?l] |- _ =>
    lazymatch goal with _ : 0 <= len l |- _ => fail | _ => pose proof (len_nonneg l) end end.

(** ** Messages are sequences of fields *)

(** The bytes of a field, which are read as that field whatever follows. *)
Definition is_field (f : WireField) : Prop :=
  encoded f ≠ [] ∧ ∀ rest, parse_field (encoded f ++ rest) = Ok (tag f, wire_type f, length_delimited f, rest).

Definition bytes_of (fields : list WireField) : list Z := concat (map encoded fields).

Lemma bytes_of_app fs gs : bytes_of (fs ++ gs) = bytes_of fs ++ bytes_of gs.
Proof. unfold bytes_of. by rewrite map_app, concat_app. Qed.

Lemma parse_field_used l t w p rest :
  parse_field l = Ok (t, w, p, rest) → ∃ used, l = used ++ rest ∧ is_field (mkField t w used p).
Proof.
  unfold parse_field. destruct (decode_key l) as [[[t0 w0] l1]|] eqn:Ek; [|done].
  destruct (decode_key_consumes _ _ _ _ Ek) as (k & Hk & -> & Hk'). destruct (decide (w0 = LengthDelimited)) as [->|Hw].
  - destruct (decode_varint l1) as [[n l2]|] eqn:Ev; [|done].
    destruct (decode_varint_consumes _ _ _ Ev) as (Hn & v & -> & Hv). destruct (uint_max usize_bits <? n) eqn:Eu; [done|].
    destruct (Z.ltb_spec (len l2) n) as [|Hl]; [done|]. intros [= <- <- <- <-].
    assert (len (take (Z.to_nat n) l2) = n) as Ht by (unfold len, is_uint in *; rewrite length_take; lia).
    exists (k ++ v ++ take (Z.to_nat n) l2). split; [by rewrite <- !app_assoc, take_drop|].
    split; [by destruct k|]. intros rest. unfold parse_field. cbn [encoded tag wire_type length_delimited].
    rewrite <- !app_assoc, Hk'. rewrite decide_True by done. rewrite Hv, Eu, len_app, Ht.
    pose proof (len_nonneg rest). rewrite (proj2 (Z.ltb_ge _ _)) by lia.
    by rewrite take_app_length', drop_app_length' by (unfold len in Ht; lia).
  - destruct (skip_field w0 t0 l1) as [l2|] eqn:Es; [|done]. destruct (skip_field_consumes _ _ _ _ Es) as (u & -> & Hu).
    intros [= <- <- <- <-]. exists (k ++ u). split; [by rewrite app_assoc|]. split; [by destruct k|].
    intros rest. unfold parse_field. cbn [encoded tag wire_type length_delimited]. rewrite <- app_assoc, Hk'.
    rewrite decide_False by done. by rewrite Hu.
Qed.

Lemma parse_loop_step n pre l t w p rest used :
  parse_field l = Ok (t, w, p, rest) → l = used ++ rest → l ≠ [] →
  parse_loop (S n) (pre ++ l) l = (fields <- parse_loop n ((pre ++ used) ++ rest) rest;; ret (mkField t w used p :: fields)).
Proof.
  intros Hp Hl Hne. destruct l as [|x l]; [done|]. cbn [parse_loop]. rewrite Hp. rewrite Hl.
  rewrite (slice_range_app pre used rest) by (rewrite !len_app; lia). by rewrite <- app_assoc.
Qed.

Lemma parse_loop_fields fs n pre : Forall is_field fs → (length (bytes_of fs) <= n)%nat →
  parse_loop n (pre ++ bytes_of fs) (bytes_of fs) = ret fs.
Proof.
  intros Hf. revert n pre. induction Hf as [|f fs [Hne Hp] _ IH]; intros n pre Hn; [by destruct n|].
  cbn [bytes_of map concat] in *. fold (bytes_of fs) in *. rewrite length_app in Hn.
  destruct n as [|n]; [destruct (encoded f); [done|cbn in Hn; lia]|].
  rewrite (parse_loop_step _ _ _ _ _ _ _ (encoded f) (Hp (bytes_of fs))); [|done|by destruct (encoded f)].
  rewrite IH; [cbn; by destruct f|]. destruct (encoded f); [done|]. cbn in Hn. lia.
Qed.

Lemma parse_loop_total n pre l : (length l <= n)%nat →
  (∃ e, parse_loop n (pre ++ l) l = fail e) ∨
  (∃ fs, parse_loop n (pre ++ l) l = ret fs ∧ Forall is_field fs ∧ l = bytes_of fs).
Proof.
  revert pre l. induction n as [|n IH]; intros pre l Hl; destruct l as [|x l']; try (right; by exists []); [cbn in Hl; lia|].
  set (l := x :: l') in *. destruct (parse_field l) as [[[[t w] p] rest]|e] eqn:Ef.
  - destruct (parse_field_used _ _ _ _ _ Ef) as (used & Hu & Hf). rewrite (parse_loop_step _ _ _ _ _ _ _ used Ef Hu) by done.
    destruct (IH (pre ++ used) rest) as [[e ->]|(fs & -> & Hfs & ->)].
    + destruct Hf as [Hne _]. cbn in Hne. apply (f_equal length) in Hu. rewrite length_app in Hu. destruct used; [done|]. cbn in *. lia.
    + left. by exists e.
    + right. exists (mkField t w used p :: fs). split; [done|]. split; [by constructor|done].
  - left. exists e. cbn. fold l. by rewrite Ef.
Qed.

Lemma parse_result m : (∃ e, parse_fields m = fail e) ∨ (∃ fs, parse_fields m = ret fs ∧ Forall is_field fs ∧ m = bytes_of fs).
Proof. unfold parse_fields. by destruct (parse_loop_total (length m) [] m) as [H|H]; [lia|left|right]. Qed.

Lemma parse_bytes fs : Forall is_field fs → parse_fields (bytes_of fs) = ret fs.
Proof. intros Hf. by apply (parse_loop_fields fs (length (bytes_of fs)) [] Hf). Qed.

Lemma parse_iff m fs : parse_fields m = ret fs ↔ Forall is_field fs ∧ m = bytes_of fs.
Proof.
  split; [|intros [Hf ->]; by apply parse_bytes]. intros Hm. destruct (parse_result m) as [[e He]|(gs & Hg & ? & ?)];
    [by rewrite He in Hm|]. rewrite Hg in Hm. by injection Hm as <-.
Qed.

(** The parser of the wire format never panics and ends; a message that it accepts is
    the concatenation of the bytes of its fields, and every sequence of fields is read
    back as itself. *)
Theorem parse_fields_iff m : parse_fields m ≠ None ∧
  ∀ fs, parse_fields m = Some (Ok fs) ↔ Forall is_field fs ∧ m = bytes_of fs.
Proof. split; [|intros fs; apply parse_iff]. by destruct (parse_result m) as [[e ->]|(fs & -> & _)]. Qed.

(** ** Selecting and replacing fields *)

Definition with_tag (t : Z) : list WireField → list WireField := filter (λ f, tag f = t).
Definition without_tag (t : Z) : list WireField → list WireField := filter (λ f, tag f ≠ t).

Lemma with_tag_cons t f fs : with_tag t (f :: fs) = if decide (tag f = t) then f :: with_tag t fs else with_tag t fs.
Proof. unfold with_tag. rewrite filter_cons. done. Qed.

Lemma without_tag_cons t f fs : without_tag t (f :: fs) = if decide (tag f = t) then without_tag t fs else f :: without_tag t fs.
Proof. unfold without_tag. rewrite filter_cons. by repeat case_decide. Qed.

(** The bytes and the parsed form of a message, which determine each other. *)
Definition message (m : list Z) (fs : list WireField) : Prop := Forall is_field fs ∧ m = bytes_of fs.

Lemma message_app m1 m2 fs gs : message m1 fs → message m2 gs → message (m1 ++ m2) (fs ++ gs).
Proof. intros [Hf ->] [Hg ->]. split; [by apply Forall_app|by rewrite bytes_of_app]. Qed.

Lemma message_without t m fs : message m fs → message (bytes_of (without_tag t fs)) (without_tag t fs).
Proof. intros [Hf _]. split; [|done]. rewrite Forall_forall in *. intros f [_ Hin]%list_elem_of_filter. auto. Qed.

Lemma parse_message m : (∃ e, parse_fields m = fail e) ∨ (∃ fs, parse_fields m = ret fs ∧ message m fs).
Proof. destruct (parse_result m) as [?|(fs & ? & ? & ?)]; [by left|right]. by exists fs. Qed.

Lemma message_parse m fs : message m fs → parse_fields m = ret fs.
Proof. intros [Hf ->]. by apply parse_bytes. Qed.

Lemma replace_loop_spec t w fs out : 
  replace_loop t w fs out = Ok (out ++ bytes_of (without_tag t fs)) ∨ ∃ e, replace_loop t w fs out = Err e.
Proof.
  revert out. induction fs as [|f fs IH]; intros out; cbn [replace_loop]; [left; by rewrite app_nil_r|].
  rewrite without_tag_cons. destruct (Z.eqb_spec (tag f) t) as [Ht|Ht]; cbn [negb].
  - rewrite decide_True by done. case_bool_decide; cbn [negb]; [apply IH|right; by eexists].
  - rewrite decide_False by done. cbn [bytes_of map concat]. rewrite app_assoc. apply IH.
Qed.

(** What a replacement does, when it succeeds. *)
Lemma replace_fields_spec m t w replacement :
  (∃ e, replace_fields m t w replacement = fail e) ∨
  (∃ fs, message m fs ∧ replace_fields m t w replacement = ret (bytes_of (without_tag t fs) ++ replacement)).
Proof.
  unfold replace_fields. destruct (parse_message m) as [[e ->]|(fs & -> & Hm)]; [left; by eexists|]. cbn.
  destruct (replace_loop_spec t w fs []) as [->|[e ->]]; [|left; by eexists]. right. by exists fs.
Qed.

Lemma replace_message t fs m replacement rs :
  message m fs → message replacement rs → message (bytes_of (without_tag t fs) ++ replacement) (without_tag t fs ++ rs).
Proof. intros Hm Hr. apply message_app; [by eapply message_without|done]. Qed.

Lemma length_delimited_fields_spec m t fs : message m fs → length_delimited_fields m t = Some (payloads t (with_tag t fs)).
Proof. intros Hm. unfold length_delimited_fields. by rewrite (message_parse _ _ Hm). Qed.

(** ** Fields that are appended *)

Definition key_fits (t : Z) (payload : list Z) : Prop := is_tag t ∧ len payload < 2 ^ usize_bits.

Definition ld_field (t : Z) (payload : list Z) : WireField :=
  mkField t LengthDelimited (append_length_delimited_field [] t payload) (Some payload).

Definition varint_field (t v : Z) : WireField := mkField t Varint (append_varint_field [] t v) None.

Section Appended.

Context (Husize : 0 <= usize_bits <= 64).

Lemma is_field_ld t p : key_fits t p → is_field (ld_field t p).
Proof.
  intros [Ht Hp]. assert (2 ^ usize_bits <= 2 ^ 64) as Hle by (apply Z.pow_le_mono_r; lia). pose proof (len_nonneg p). split.
  - cbn. intros Hn. apply app_eq_nil in Hn as [Hk _]. pose proof (decode_encode_key t LengthDelimited [] Ht) as Hd. rewrite Hk in Hd.
    apply decode_key_consumes in Hd as (u & Hu & He & _). by destruct u.
  - intros rest. unfold parse_field. cbn. rewrite <- !app_assoc, decode_encode_key by done. rewrite decide_True by done.
    rewrite decode_encode_varint by (unfold is_uint; lia). rewrite len_app. pose proof (len_nonneg rest). unfold uint_max.
    rewrite (proj2 (Z.ltb_ge (2 ^ usize_bits - 1) _)), (proj2 (Z.ltb_ge (len p + len rest) _)) by lia.
    by rewrite take_app_len, drop_app_len by (unfold len; lia).
Qed.

Lemma is_field_varint t v : is_tag t → is_uint 64 v → is_field (varint_field t v).
Proof.
  intros Ht Hv. split.
  - cbn. intros Hn. apply app_eq_nil in Hn as [Hk _]. pose proof (decode_encode_key t Varint [] Ht) as Hd. rewrite Hk in Hd.
    apply decode_key_consumes in Hd as (u & Hu & He & _). by destruct u.
  - intros rest. unfold parse_field. cbn. rewrite <- !app_assoc, decode_encode_key by done. rewrite decide_False by done. by rewrite skip_varint.
Qed.

Lemma append_all_spec t ps : append_all t ps = bytes_of (map (ld_field t) ps).
Proof.
  unfold append_all. change (bytes_of (map (ld_field t) ps)) with ([] ++ bytes_of (map (ld_field t) ps)). generalize (@nil Z) as out.
  induction ps as [|p ps IH]; intros out; [by rewrite app_nil_r|]. cbn. rewrite IH. unfold append_length_delimited_field. cbn.
  by rewrite <- !app_assoc.
Qed.

Lemma append_all_message t ps : Forall (key_fits t) ps → message (append_all t ps) (map (ld_field t) ps).
Proof. intros Hf. split; [|apply append_all_spec]. apply Forall_map. eapply Forall_impl; [exact Hf|]. apply is_field_ld. Qed.

Lemma payloads_ld t ps : payloads t (map (ld_field t) ps) = Ok ps.
Proof. induction ps as [|p ps IH]; [done|]. cbn. by rewrite IH. Qed.

Lemma with_tag_ld t ps : with_tag t (map (ld_field t) ps) = map (ld_field t) ps.
Proof. induction ps as [|p ps IH]; [done|]. cbn [map]. by rewrite with_tag_cons, decide_True, IH. Qed.

Lemma without_tag_ld t t' ps : t ≠ t' → without_tag t' (map (ld_field t) ps) = map (ld_field t) ps.
Proof. intros Ht. induction ps as [|p ps IH]; [done|]. cbn [map]. by rewrite without_tag_cons, decide_False, IH. Qed.

Lemma without_own_tag_ld t ps : without_tag t (map (ld_field t) ps) = [].
Proof. induction ps as [|p ps IH]; [done|]. cbn [map]. by rewrite without_tag_cons, decide_True, IH. Qed.

Lemma with_without t fs : with_tag t (without_tag t fs) = [].
Proof.
  induction fs as [|f fs IH]; [done|]. rewrite without_tag_cons. case_decide; [done|]. by rewrite with_tag_cons, decide_False.
Qed.

Lemma with_without_ne t t' fs : t ≠ t' → with_tag t (without_tag t' fs) = with_tag t fs.
Proof.
  intros Ht. induction fs as [|f fs IH]; [done|]. rewrite without_tag_cons, with_tag_cons. destruct (decide (tag f = t')).
  - by rewrite decide_False by congruence.
  - by rewrite with_tag_cons, IH.
Qed.

Lemma with_tag_app t fs gs : with_tag t (fs ++ gs) = with_tag t fs ++ with_tag t gs.
Proof. apply filter_app. Qed.

Lemma without_tag_app t fs gs : without_tag t (fs ++ gs) = without_tag t fs ++ without_tag t gs.
Proof. apply filter_app. Qed.

Lemma with_tag_ld_ne t t' ps : t ≠ t' → with_tag t' (map (ld_field t) ps) = [].
Proof. intros Ht. induction ps as [|p ps IH]; [done|]. cbn [map]. by rewrite with_tag_cons, decide_False, IH. Qed.

Lemma merged_spec m t fs : message m fs →
  (∃ e, merged_length_delimited_field m t = fail e) ∨
  (∃ values, payloads t (with_tag t fs) = Ok values ∧ merged_length_delimited_field m t = ret (concat values)).
Proof.
  intros Hm. unfold merged_length_delimited_field. rewrite (length_delimited_fields_spec _ _ _ Hm).
  destruct (payloads t (with_tag t fs)) as [values|e] eqn:E; [right; by exists values|left; by exists e].
Qed.

(** What the fields of a patched message are. *)
Definition patched (fs flag : list WireField) (proxy_cidrs : list (list Z)) : list WireField :=
  without_tag ROUTE_PEER_INFO_FEATURE_FLAG_TAG
    (without_tag ROUTE_PEER_INFO_PROXY_CIDRS_TAG fs ++ map (ld_field ROUTE_PEER_INFO_PROXY_CIDRS_TAG) proxy_cidrs) ++
  [ld_field ROUTE_PEER_INFO_FEATURE_FLAG_TAG
     (bytes_of (without_tag FEATURE_FLAG_IS_CREDENTIAL_PEER_TAG flag ++ [varint_field FEATURE_FLAG_IS_CREDENTIAL_PEER_TAG 1]))].

Lemma patch_spec raw proxy_cidrs : Forall (key_fits ROUTE_PEER_INFO_PROXY_CIDRS_TAG) proxy_cidrs →
  (∃ e, patch_credential_route_peer_info raw proxy_cidrs = fail e) ∨
  (∃ fs values flag, message raw fs ∧ payloads ROUTE_PEER_INFO_FEATURE_FLAG_TAG (with_tag ROUTE_PEER_INFO_FEATURE_FLAG_TAG fs) = Ok values ∧
     message (concat values) flag ∧
     patch_credential_route_peer_info raw proxy_cidrs = ret (bytes_of (patched fs flag proxy_cidrs))).
Proof.
  intros Hc. unfold patch_credential_route_peer_info.
  set (cidrs := append_all _ proxy_cidrs). pose proof (append_all_message _ _ Hc) as Hcm. fold cidrs in Hcm.
  destruct (replace_fields_spec raw ROUTE_PEER_INFO_PROXY_CIDRS_TAG LengthDelimited cidrs) as [[e ->]|(fs & Hm & ->)]; [left; by eexists|].
  cbn [bind ret]. pose proof (replace_message ROUTE_PEER_INFO_PROXY_CIDRS_TAG _ _ _ _ Hm Hcm) as Hm1.
  set (info := bytes_of (without_tag _ fs) ++ cidrs) in *.
  destruct (merged_spec info ROUTE_PEER_INFO_FEATURE_FLAG_TAG _ Hm1) as [[e ->]|(values & Hv & ->)]; [left; by eexists|]. cbn [bind ret].
  rewrite with_tag_app, with_without_ne, with_tag_ld_ne, app_nil_r in Hv by done.
  set (one := append_varint_field _ _ _).
  destruct (replace_fields_spec (concat values) FEATURE_FLAG_IS_CREDENTIAL_PEER_TAG Varint one) as [[e ->]|(flag & Hf & ->)]; [left; by eexists|].
  cbn [bind ret]. set (new_flag := bytes_of (without_tag _ flag) ++ one).
  destruct (replace_fields_spec info ROUTE_PEER_INFO_FEATURE_FLAG_TAG LengthDelimited
    (append_length_delimited_field [] ROUTE_PEER_INFO_FEATURE_FLAG_TAG new_flag)) as [[e ->]|(gs & Hg & ->)]; [left; by eexists|].
  right. exists fs, values, flag. do 3 (split; [done|]). apply message_parse in Hg. rewrite (message_parse _ _ Hm1) in Hg. injection Hg as <-.
  unfold patched. rewrite bytes_of_app. cbn [bytes_of map concat]. rewrite app_nil_r, bytes_of_app. cbn [bytes_of map concat]. by rewrite app_nil_r.
Qed.

Lemma patched_fields raw proxy_cidrs fs values flag :
  Forall (key_fits ROUTE_PEER_INFO_PROXY_CIDRS_TAG) proxy_cidrs → message raw fs → message (concat values) flag →
  len (bytes_of (patched fs flag proxy_cidrs)) < 2 ^ usize_bits →
  message (bytes_of (patched fs flag proxy_cidrs)) (patched fs flag proxy_cidrs).
Proof.
  intros Hc [Hfs _] [Hflag _] Hl. split; [|done].
  assert (∀ t l, Forall is_field l → Forall is_field (without_tag t l)) as Hw
    by (intros t l Hl'; rewrite Forall_forall in *; intros f [_ Hin]%list_elem_of_filter; auto).
  apply Forall_app. split.
  - apply Hw, Forall_app. split; [by apply Hw|]. apply Forall_map. eapply Forall_impl; [exact Hc|]. apply is_field_ld.
  - apply Forall_singleton, is_field_ld. split; [done|]. unfold patched in Hl. rewrite bytes_of_app, len_app in Hl.
    cbn [bytes_of map concat encoded ld_field] in Hl. unfold append_length_delimited_field in Hl. rewrite !len_app in Hl.
    len_positive.
    unfold bytes_of in *. lia.
Qed.

(** A peer info patched for a credential peer keeps every field but the proxy networks
    and the feature flags byte for byte and in its order; its proxy networks are the given
    ones; and its feature flags are the merged flags of before in which only the flag of a
    credential peer is replaced, by true. *)
Theorem patch_changes_two_fields raw proxy_cidrs out :
  Forall (key_fits ROUTE_PEER_INFO_PROXY_CIDRS_TAG) proxy_cidrs →
  patch_credential_route_peer_info raw proxy_cidrs = Some (Ok out) → len out < 2 ^ usize_bits →
  ∃ fs gs flags flag,
    message raw fs ∧ message out gs ∧
    without_tag 11 (without_tag 5 gs) = without_tag 11 (without_tag 5 fs) ∧
    length_delimited_fields out ROUTE_PEER_INFO_PROXY_CIDRS_TAG = Some (Ok proxy_cidrs) ∧
    merged_length_delimited_field raw ROUTE_PEER_INFO_FEATURE_FLAG_TAG = Some (Ok flags) ∧ message flags flag ∧
    merged_length_delimited_field out ROUTE_PEER_INFO_FEATURE_FLAG_TAG = Some (Ok (bytes_of (without_tag 8 flag ++ [varint_field 8 1]))).
Proof.
  intros Hc Hp Hl. destruct (patch_spec raw proxy_cidrs Hc) as [[e He]|(fs & values & flag & Hm & Hv & Hf & Hr)]; [by rewrite He in Hp|].
  rewrite Hr in Hp. injection Hp as <-. pose proof (patched_fields _ _ _ _ _ Hc Hm Hf Hl) as Ho.
  exists fs, (patched fs flag proxy_cidrs), (concat values), flag. split; [done|]. split; [done|].
  unfold merged_length_delimited_field. rewrite !(length_delimited_fields_spec _ _ _ Ho), (length_delimited_fields_spec _ _ _ Hm), Hv.
  unfold patched, ROUTE_PEER_INFO_FEATURE_FLAG_TAG, ROUTE_PEER_INFO_PROXY_CIDRS_TAG.
  assert (∀ p, [ld_field 11 p] = map (ld_field 11) [p]) as Hone by done. rewrite Hone.
  repeat split.
  - rewrite !without_tag_app, (without_tag_ld 5 11), (without_tag_ld 11 5), !without_own_tag_ld, !app_nil_r by done.
    clear. induction fs as [|f fs IH]; [done|]. rewrite !without_tag_cons. repeat (case_decide; rewrite ?without_tag_cons); try congruence.
  - rewrite with_tag_app, with_without_ne, with_tag_app, with_without, with_tag_ld, (with_tag_ld_ne 11 5), app_nil_r by done. cbn [app]. by rewrite payloads_ld.
  - apply Hf.
  - apply Hf.
  - rewrite with_tag_app, with_without, with_tag_ld. cbn [app]. rewrite payloads_ld. cbn. by rewrite app_nil_r.
Qed.

(** Patching keeps the credentials a peer publishes: their raw bytes, and thus whether
    their proofs verify. *)
Theorem patch_keeps_credentials raw proxy_cidrs out i :
  Forall (key_fits ROUTE_PEER_INFO_PROXY_CIDRS_TAG) proxy_cidrs →
  patch_credential_route_peer_info raw proxy_cidrs = Some (Ok out) → len out < 2 ^ usize_bits →
  raw_credential_bytes out i = raw_credential_bytes raw i.
Proof.
  intros Hc Hp Hl. destruct (patch_spec raw proxy_cidrs Hc) as [[e He]|(fs & values & flag & Hm & Hv & Hf & Hr)]; [by rewrite He in Hp|].
  rewrite Hr in Hp. injection Hp as <-. pose proof (patched_fields _ _ _ _ _ Hc Hm Hf Hl) as Ho.
  unfold raw_credential_bytes. rewrite (length_delimited_fields_spec _ _ _ Ho), (length_delimited_fields_spec _ _ _ Hm).
  unfold patched, ROUTE_PEER_INFO_CREDENTIAL_PROOF_TAG, ROUTE_PEER_INFO_FEATURE_FLAG_TAG, ROUTE_PEER_INFO_PROXY_CIDRS_TAG.
  assert (∀ p, [ld_field 11 p] = map (ld_field 11) [p]) as Hone by done. rewrite Hone.
  by rewrite with_tag_app, with_without_ne, with_tag_app, with_without_ne, !with_tag_ld_ne, !app_nil_r.
Qed.

Lemma extract_items_one peer_infos items : length_delimited_fields peer_infos ROUTE_PEER_INFOS_ITEM_TAG = Some (Ok items) →
  extract_items [peer_infos] = ret items.
Proof. intros H. cbn [extract_items]. rewrite H. cbn. by rewrite app_nil_r. Qed.

(** The raw peer infos put into a request are what the receiver extracts from it, in
    their order; [others] are the bytes of the remaining fields. *)
Theorem request_roundtrip {I} (peer_infos : option (list I)) others fields raw_peer_infos out :
  message others fields → with_tag SYNC_ROUTE_PEER_INFOS_TAG fields = [] →
  encode_sync_route_request peer_infos others raw_peer_infos = Some (Ok out) → len out < 2 ^ usize_bits →
  extract_route_peer_infos out = Some (Ok raw_peer_infos).
Proof.
  intros Hm Ht He Hl. unfold encode_sync_route_request in He. destruct (Z.eqb_spec (from_option len 0 peer_infos) (len raw_peer_infos)) as [Hlen|]; [|done].
  injection He as He. destruct peer_infos as [infos|]; cbn in Hlen, He; subst out.
  - set (items := append_all ROUTE_PEER_INFOS_ITEM_TAG raw_peer_infos) in *.
    change (append_length_delimited_field others SYNC_ROUTE_PEER_INFOS_TAG items) with (others ++ encoded (ld_field SYNC_ROUTE_PEER_INFOS_TAG items)) in *.
    rewrite len_app in Hl. pose proof (len_nonneg others).
    assert (len items < 2 ^ usize_bits) as Hi.
    { unfold ld_field, append_length_delimited_field in Hl. cbn [encoded app] in Hl. rewrite !len_app in Hl.
      pose proof (len_nonneg (encode_key SYNC_ROUTE_PEER_INFOS_TAG LengthDelimited)). pose proof (len_nonneg (encode_varint (len items))). lia. }
    assert (Forall (key_fits ROUTE_PEER_INFOS_ITEM_TAG) raw_peer_infos) as Hfit.
    { apply Forall_forall. intros r Hr. split; [done|]. unfold items in Hi. rewrite append_all_spec in Hi.
      apply list_elem_of_split in Hr as (l1 & l2 & ->). rewrite map_app, bytes_of_app, len_app in Hi. cbn [map bytes_of concat] in Hi.
      rewrite len_app in Hi. unfold ld_field at 2 in Hi. cbn [encoded] in Hi. unfold append_length_delimited_field in Hi. rewrite !len_app in Hi.
      len_positive. lia. }
    unfold extract_route_peer_infos.
    rewrite (length_delimited_fields_spec _ SYNC_ROUTE_PEER_INFOS_TAG (fields ++ [ld_field SYNC_ROUTE_PEER_INFOS_TAG items])).
    + rewrite with_tag_app, Ht. change [ld_field SYNC_ROUTE_PEER_INFOS_TAG items] with (map (ld_field SYNC_ROUTE_PEER_INFOS_TAG) [items]).
      rewrite with_tag_ld. cbn [app]. rewrite payloads_ld. cbn [bind]. apply extract_items_one.
      rewrite (length_delimited_fields_spec _ _ _ (append_all_message _ _ Hfit)). by rewrite with_tag_ld, payloads_ld.
    + apply message_app; [done|]. split; [by apply Forall_singleton, is_field_ld|]. cbn. by rewrite app_nil_r.
  - destruct raw_peer_infos as [|r raws]; [|rewrite len_cons in Hlen; pose proof (len_nonneg raws); lia].
    unfold extract_route_peer_infos. rewrite (length_delimited_fields_spec _ _ _ Hm), Ht. done.
Qed.

End Appended.

End Wire.

(** ** Witnesses: the primitives with base-128 varints, without groups *)

Fixpoint leb_encode (fuel : nat) (v : Z) : list Z :=
  match fuel with
  | O => [v]
  | S fuel => if v <? 128 then [v] else (v mod 128 + 128) :: leb_encode fuel (v / 128)
  end.

Fixpoint leb_decode (fuel : nat) (l : list Z) : option (Z * list Z) :=
  match l with
  | [] => None
  | b :: l =>
      match fuel with
      | O => if (0 <=? b) && (b <? 128) then Some (b, l) else None
      | S fuel =>
          if (0 <=? b) && (b <? 128) then Some (b, l)
          else if (128 <=? b) && (b <? 256) then
            match leb_decode fuel l with Some (v, l) => Some (b - 128 + 128 * v, l) | None => None end
          else None
      end
  end.

Lemma leb_roundtrip n v rest : 0 <= v < 128 ^ (Z.of_nat n + 1) → leb_decode n (leb_encode n v ++ rest) = Some (v, rest).
Proof.
  revert v. induction n as [|n IH]; intros v Hv; cbn [leb_encode leb_decode app].
  - destruct (Z.leb_spec 0 v), (Z.ltb_spec v 128); try lia. done.
  - rewrite Nat2Z.inj_succ, <- Z.add_1_r in Hv. rewrite (Z.pow_add_r 128 (Z.of_nat n + 1) 1) in Hv by lia.
    destruct (Z.ltb_spec v 128) as [Hs|Hs]; cbn [app leb_decode].
    + destruct (Z.leb_spec 0 v), (Z.ltb_spec v 128); try lia. done.
    + pose proof (Z.mod_pos_bound v 128 eq_refl). pose proof (Z.div_mod v 128 ltac:(done)).
      rewrite (proj2 (Z.ltb_ge _ 128)), andb_false_r by lia. rewrite (proj2 (Z.leb_le 128 _)), (proj2 (Z.ltb_lt _ 256)) by lia. cbn [andb].
      rewrite IH; [f_equal; f_equal; lia|]. split; [apply Z.div_pos; lia|]. apply Z.div_lt_upper_bound; lia.
Qed.

Lemma leb_consumes n l v rest : leb_decode n l = Some (v, rest) →
  0 <= v < 128 ^ (Z.of_nat n + 1) ∧ ∃ used, used ≠ [] ∧ l = used ++ rest ∧ ∀ rest', leb_decode n (used ++ rest') = Some (v, rest').
Proof.
  revert l v. induction n as [|n IH]; intros [|b l] v; cbn [leb_decode]; try done.
  - destruct ((0 <=? b) && (b <? 128)) eqn:E; [|done]. intros [= <- <-]. split; [lia|]. exists [b].
    split; [done|]. split; [done|]. intros r. cbn. by rewrite E.
  - rewrite Nat2Z.inj_succ, <- Z.add_1_r, (Z.pow_add_r 128 (Z.of_nat n + 1) 1) by lia.
    assert (0 < 128 ^ (Z.of_nat n + 1)) by (apply Z.pow_pos_nonneg; lia).
    destruct ((0 <=? b) && (b <? 128)) eqn:E.
    + intros [= <- <-]. split; [lia|]. exists [b]. split; [done|]. split; [done|]. intros r. cbn. by rewrite E.
    + destruct ((128 <=? b) && (b <? 256)) eqn:E'; [|done]. destruct (leb_decode n l) as [[u l']|] eqn:Ed; [|done].
      intros [= <- ->]. destruct (IH _ _ Ed) as (Hu & used & _ & -> & Hall). split; [lia|]. exists (b :: used).
      split; [done|]. split; [done|]. intros r. cbn. by rewrite E, E', Hall.
Qed.

Definition leb_varint (l : list Z) : option (Z * list Z) :=
  match leb_decode 9 l with
  | Some (v, l) => if v <? 2 ^ 64 then Some (v, l) else None
  | None => None
  end.

Lemma leb_varint_roundtrip v rest : is_uint 64 v → leb_varint (leb_encode 9 v ++ rest) = Some (v, rest).
Proof.
  unfold is_uint. intros Hv. unfold leb_varint. rewrite leb_roundtrip by lia. by rewrite (proj2 (Z.ltb_lt _ _)) by lia.
Qed.

Lemma leb_varint_consumes l v rest : leb_varint l = Some (v, rest) →
  is_uint 64 v ∧ ∃ used, used ≠ [] ∧ l = used ++ rest ∧ ∀ rest', leb_varint (used ++ rest') = Some (v, rest').
Proof.
  unfold leb_varint. destruct (leb_decode 9 l) as [[u l']|] eqn:E; [|done]. destruct (Z.ltb_spec u (2 ^ 64)) as [Hu|]; [|done].
  intros [= <- <-]. destruct (leb_consumes _ _ _ _ E) as (Hv & used & Hne & -> & Hall). split; [unfold is_uint; lia|].
  exists used. split; [done|]. split; [done|]. intros r. by rewrite Hall, (proj2 (Z.ltb_lt _ _)).
Qed.

Definition wire_type_number (w : WireType) : Z :=
  match w with Varint => 0 | SixtyFourBit => 1 | LengthDelimited => 2 | StartGroup => 3 | EndGroup => 4 | ThirtyTwoBit => 5 end.

Definition wire_type_of (n : Z) : option WireType :=
  match n with
  | 0 => Some Varint | 1 => Some SixtyFourBit | 2 => Some LengthDelimited
  | 3 => Some StartGroup | 4 => Some EndGroup | 5 => Some ThirtyTwoBit
  | _ => None
  end.

Definition leb_key (l : list Z) : option (Z * WireType * list Z) :=
  match leb_varint l with
  | None => None
  | Some (k, l) => match wire_type_of (k mod 8) with Some w => if k / 8 <? 1 then None else Some (k / 8, w, l) | None => None end
  end.

(** Reads [n] bytes. *)
Definition skip_bytes (n : nat) (l : list Z) : option (list Z) := if (length l <? n)%nat then None else Some (drop n l).

Definition leb_skip (w : WireType) (l : list Z) : option (list Z) :=
  match w with
  | Varint => match leb_varint l with Some (_, l) => Some l | None => None end
  | SixtyFourBit => skip_bytes 8 l
  | ThirtyTwoBit => skip_bytes 4 l
  | _ => None
  end.

Lemma skip_bytes_consumes n l rest : skip_bytes n l = Some rest →
  ∃ used, l = used ++ rest ∧ ∀ rest', skip_bytes n (used ++ rest') = Some rest'.
Proof.
  unfold skip_bytes. destruct (Nat.ltb_spec (length l) n) as [|Hl]; [done|]. intros [= <-]. exists (take n l). split; [by rewrite take_drop|].
  intros r. assert (length (take n l) = n) as Ht by (rewrite length_take; lia). rewrite length_app, Ht.
  rewrite (proj2 (Nat.ltb_ge _ _)) by lia. by rewrite drop_app_len.
Qed.

Definition leb_prost : Prost.
Proof.
  refine {|
    encode_key t w := leb_encode 9 (8 * t + wire_type_number w);
    encode_varint := leb_encode 9;
    decode_key := leb_key;
    decode_varint := leb_varint;
    skip_field w _ := leb_skip w
  |}.
  - intros t w rest [H1 H2]. unfold leb_key. assert (0 <= wire_type_number w < 8) as Hw by (destruct w; cbn; lia).
    rewrite leb_varint_roundtrip by (unfold is_uint; lia).
    rewrite (Z.add_comm (8 * t)), (Z.mul_comm 8), Z_mod_plus_full, Z.mod_small by lia.
    rewrite Z.div_add, Z.div_small by lia. rewrite (proj2 (Z.ltb_ge _ _)) by lia. by destruct w.
  - apply leb_varint_roundtrip.
  - intros t v rest Hv. unfold leb_skip. by rewrite leb_varint_roundtrip.
  - intros l t w rest. unfold leb_key. destruct (leb_varint l) as [[k l']|] eqn:E; [|done].
    destruct (wire_type_of _) as [w'|] eqn:Ew; [|done]. destruct (k / 8 <? 1) eqn:Ek; [done|]. intros [= <- <- <-].
    destruct (leb_varint_consumes _ _ _ E) as (_ & used & Hne & -> & Hall). exists used. split; [done|]. split; [done|].
    intros r. by rewrite Hall, Ew, Ek.
  - intros l v rest H. destruct (leb_varint_consumes _ _ _ H) as (Hv & used & _ & Hu). split; [done|]. by exists used.
  - intros w _ l rest. destruct w; cbn; try done; try apply skip_bytes_consumes.
    destruct (leb_varint l) as [[v l']|] eqn:E; [|done]. intros [= <-].
    destruct (leb_varint_consumes _ _ _ E) as (_ & used & _ & -> & Hall). exists used. split; [done|]. intros r. by rewrite Hall.
Defined.

Section Witnesses.

#[local] Existing Instance leb_prost.

(** A peer info with a proxy network, feature flags in two parts, a published credential
    and a field that this version does not know. *)
Definition sample_info : list Z :=
  append_varint_field (append_length_delimited_field (append_length_delimited_field (append_length_delimited_field
    (append_length_delimited_field (append_varint_field [] 1 300) 5 [49; 48]) 11 [64; 0]) 19 [10; 2; 7; 7]) 11 [24; 1]) 77 1.

Definition sample_patched : list Z :=
  match patch_credential_route_peer_info 64 sample_info [[50]; [51]] with Some (Ok out) => out | _ => [] end.

Lemma sample_cidrs_fit : Forall (key_fits 64 ROUTE_PEER_INFO_PROXY_CIDRS_TAG) [[50]; [51]].
Proof. repeat constructor; vm_compute; done. Qed.

Lemma patch_changes_two_fields_witness :
  length_delimited_fields 64 sample_patched ROUTE_PEER_INFO_PROXY_CIDRS_TAG = Some (Ok [[50]; [51]]) ∧
  ∃ flag, merged_length_delimited_field 64 sample_patched ROUTE_PEER_INFO_FEATURE_FLAG_TAG = Some (Ok (bytes_of (without_tag 8 flag ++ [varint_field 8 1]))).
Proof.
  destruct (patch_changes_two_fields 64 ltac:(lia) sample_info [[50]; [51]] sample_patched) as (fs & gs & flags & flag & _ & _ & _ & H & _ & _ & Hf);
    [apply sample_cidrs_fit|vm_compute; reflexivity|vm_compute; reflexivity|]. split; [exact H|]. exists flag. exact Hf.
Defined.

Lemma patch_keeps_credentials_witness :
  raw_credential_bytes 64 sample_patched 0 = raw_credential_bytes 64 sample_info 0 ∧ raw_credential_bytes 64 sample_info 0 = Some (Ok (Some [7; 7])).
Proof.
  split; [|vm_compute; reflexivity].
  apply (patch_keeps_credentials 64 ltac:(lia) sample_info [[50]; [51]] sample_patched);
    [apply sample_cidrs_fit|vm_compute; reflexivity|vm_compute; reflexivity].
Defined.

Definition sample_request : list Z :=
  match encode_sync_route_request (Some [tt; tt]) (append_varint_field [] 1 9) [sample_info; []] with Some (Ok out) => out | _ => [] end.

Lemma request_roundtrip_witness : extract_route_peer_infos 64 sample_request = Some (Ok [sample_info; []]).
Proof.
  apply (request_roundtrip 64 ltac:(lia) (Some [tt; tt]) (append_varint_field [] 1 9) [varint_field 1 9] [sample_info; []]).
  - split; [|reflexivity]. apply Forall_singleton, is_field_varint; vm_compute; split; congruence.
  - reflexivity.
  - vm_compute. reflexivity.
  - vm_compute. reflexivity.
Defined.

End Witnesses.
