(* ===== verification/CredentialTrust.v ===== *)
(** * Group and credential trust

    Models the trust maps of [SyncedRouteInfo] in
    easytier-core/src/peers/route/peer_ospf_route.rs: the ACL groups that a peer proved or
    was granted, the credentials that administrators publish in their peer infos, the
    election of one owner per non-reusable credential, the removal of peers whose
    credential was revoked, and the peer info that is accepted from a credential peer.
    Also [PeerGroupInfo] of easytier-proto/src/peer_rpc.rs.

    [SyncedTrust] is the database of LinkState.v with those maps.  The fields of a peer
    info that LinkState.v keeps encoded are read through the class [RestFields].  Each call
    holds its locks and is one step; iteration orders are those of [HashIter].

    The theorems say which keys are trusted after a refresh, that a non-reusable
    credential forwards through one peer only, that revoked peers leave every map, that
    the cache of group names follows the groups, that groups are proved or granted, and
    that a credential peer speaks for nobody but itself. *)

From stdpp Require Import base gmap list numbers strings sets sorting.
From Stdlib Require Import ZArith Lia.
From S2P Require Import Prelude RouteWire Credentials RouteTable LinkState.
Local Open Scope Z_scope.

(** ** Data *)

(** [PeerGroupInfo] of the protocol and [PeerGroupIdentity] of the configuration. *)
Record PeerGroupInfo : Type := mkGroup { group_name : Text; group_proof : list Z }.
Record PeerGroupIdentity : Type := mkIdentity { gi_group_name : Text; gi_group_secret : Text }.

#[export] Instance group_eq_dec : EqDecision PeerGroupInfo.
Proof. solve_decision. Defined.

Inductive TrustedKeySource : Type := OspfNode | OspfCredential.
Record TrustedKeyMetadata : Type := mkKeyMetadata { km_source : TrustedKeySource; km_expiry_unix : option Z }.

(** The accessors of the generated message on the fields that [ri_rest] encodes. *)
Class RestFields := {
  rest_noise_static_pubkey : list Z → list Z;
  rest_groups : list Z → list PeerGroupInfo;
  rest_trusted_credential_pubkeys : list Z → list TrustedCredentialPubkeyProof;
  rest_is_credential_peer : list Z → bool;
  rest_set_credential_peer : list Z → bool → list Z;
  rest_flag_set r b : rest_is_credential_peer (rest_set_credential_peer r b) = b;
  rest_pubkey_set r b : rest_noise_static_pubkey (rest_set_credential_peer r b) = rest_noise_static_pubkey r;
  rest_groups_set r b : rest_groups (rest_set_credential_peer r b) = rest_groups r;
  rest_credentials_set r b :
    rest_trusted_credential_pubkeys (rest_set_credential_peer r b) = rest_trusted_credential_pubkeys r
}.

(** Groups by name, with the proof or, when granted without one, the empty string. *)
Abbreviation Groups := (gmap Text (list Z)).

Record SyncedTrust : Type := mkTrust {
  synced : SyncedRouteInfo;
  group_trust_map : gmap PeerId Groups;
  group_trust_map_cache : gmap PeerId (list Text);
  trusted_credential_pubkeys : gmap (list Z) TrustedCredentialPubkey;
  non_reusable_credential_owners : gmap (list Z) PeerId
}.

Section Trust.

Context {CL : CredentialLib} {RF : RestFields} {HI : HashIter} {PR : Prost} (usize_bits : Z).

Implicit Types (t : SyncedTrust) (info : RoutePeerInfo).

Definition noise_static_pubkey info : list Z := rest_noise_static_pubkey (ri_rest info).
Definition info_groups info : list PeerGroupInfo := rest_groups (ri_rest info).
Definition info_credentials info : list TrustedCredentialPubkeyProof := rest_trusted_credential_pubkeys (ri_rest info).

(** ** Group proofs *)

Definition group_data (name : Text) (peer_id : PeerId) : list Z := as_bytes name ++ [0] ++ to_be 4 peer_id.

Definition generate_with_proof (name secret : Text) (peer_id : PeerId) : PeerGroupInfo :=
  mkGroup name (hmac_sha256 (as_bytes secret) (group_data name peer_id)).

(** [verify_slice] compares the whole tag. *)
Definition verify_group (g : PeerGroupInfo) (secret : Text) (peer_id : PeerId) : bool :=
  bool_decide (group_proof g = hmac_sha256 (as_bytes secret) (group_data (group_name g) peer_id)).

(** ** Peers *)

Definition mark_credential_peer info (is_credential_peer : bool) : RoutePeerInfo :=
  mkPeerInfo (ri_peer_id info) (ri_version info) (ri_peer_route_id info) (Some (default false (ri_feature_flag info)))
    (ri_ipv4_addr info) (ri_ipv6_addr info) (ri_ipv6_public_addr_lease info) (ri_proxy_cidrs info)
    (ri_udp_nat_type info) (ri_last_update info) (rest_set_credential_peer (ri_rest info) is_credential_peer).

Definition is_credential_peer_info info : bool :=
  match ri_feature_flag info with Some _ => rest_is_credential_peer (ri_rest info) | None => false end.

Definition is_admin_peer info : bool := if ri_version info =? 0 then false else negb (is_credential_peer_info info).

Definition is_credential_peer t (p : PeerId) : bool :=
  match si_peer_infos (synced t) !! p with Some info => is_credential_peer_info info | None => false end.

Definition credential_is_reusable (c : TrustedCredentialPubkey) : bool := default true (tc_reusable c).

Definition get_credential_info_by_pubkey t (pubkey : list Z) : option TrustedCredentialPubkey :=
  match pubkey with [] => None | _ => trusted_credential_pubkeys t !! pubkey end.

(** ** The group maps *)

Definition with_groups t (m : gmap PeerId Groups) (c : gmap PeerId (list Text)) : SyncedTrust :=
  mkTrust (synced t) m c (trusted_credential_pubkeys t) (non_reusable_credential_owners t).

Definition with_synced t (db : SyncedRouteInfo) : SyncedTrust :=
  mkTrust db (group_trust_map t) (group_trust_map_cache t) (trusted_credential_pubkeys t) (non_reusable_credential_owners t).

Definition group_names (groups : Groups) : list Text := map fst (iter groups).

Definition set_peer_groups_locked t (p : PeerId) (groups : Groups) : SyncedTrust :=
  if decide (groups = ∅) then with_groups t (delete p (group_trust_map t)) (delete p (group_trust_map_cache t))
  else with_groups t (<[p := groups]> (group_trust_map t)) (<[p := group_names groups]> (group_trust_map_cache t)).

Definition get_proof_groups_locked t (p : PeerId) : Groups :=
  match group_trust_map t !! p with
  | Some groups => filter (λ kv, kv.2 ≠ []) groups
  | None => ∅
  end.

(** [entry(name).or_default()]. *)
Definition grant_group (groups : Groups) (name : Text) : Groups :=
  match groups !! name with Some _ => groups | None => <[name := []]> groups end.

(** The names of the local declarations with their secrets: the last one of a name counts. *)
Definition declared (declarations : list PeerGroupIdentity) : gmap Text Text :=
  list_to_map (reverse (map (λ g, (gi_group_name g, gi_group_secret g)) declarations)).

Definition verified_groups (declarations : gmap Text Text) info : Groups :=
  foldl (λ groups g,
    match declarations !! group_name g with
    | Some secret => if verify_group g secret (ri_peer_id info) then <[group_name g := group_proof g]> groups else groups
    | None => groups
    end) ∅ (info_groups info).

Definition verify_groups (declarations : gmap Text Text) (trust_admin_groups_without_proof : bool) info : Groups :=
  let groups := verified_groups declarations info in
  if trust_admin_groups_without_proof && is_admin_peer info
  then foldl (λ groups g, grant_group groups (group_name g)) groups (info_groups info)
  else groups.

(** The round of [verify_and_update_group_trusts] for one info. *)
Definition update_groups_of (declarations : gmap Text Text) (trust_admin_groups_without_proof : bool) t info : SyncedTrust :=
  let groups := verify_groups declarations trust_admin_groups_without_proof info in
  let p := ri_peer_id info in
  match group_trust_map t !! p with
  | Some _ =>
      if decide (groups = ∅) then with_groups t (delete p (group_trust_map t)) (delete p (group_trust_map_cache t))
      else with_groups t (<[p := groups]> (group_trust_map t)) (<[p := group_names groups]> (group_trust_map_cache t))
  | None =>
      if decide (groups = ∅) then t
      else with_groups t (<[p := groups]> (group_trust_map t)) (<[p := group_names groups]> (group_trust_map_cache t))
  end.

Definition verify_and_update_group_trusts t (infos : list RoutePeerInfo) (declarations : list PeerGroupIdentity)
    (trust_admin_groups_without_proof : bool) : SyncedTrust :=
  foldl (update_groups_of (declared declarations) trust_admin_groups_without_proof) t infos.

Definition verify_and_update_current_group_trusts t (received : list RoutePeerInfo) (declarations : list PeerGroupIdentity)
    (trust_admin_groups_without_proof : bool) : SyncedTrust :=
  let peer_ids : gset PeerId := list_to_set (map ri_peer_id received) in
  let current := omap (λ kv, si_peer_infos (synced t) !! kv.1) (iter (gset_to_gmap tt peer_ids)) in
  verify_and_update_group_trusts t current declarations trust_admin_groups_without_proof.

Definition verify_and_update_all_current_group_trusts t (declarations : list PeerGroupIdentity)
    (trust_admin_groups_without_proof : bool) : SyncedTrust :=
  verify_and_update_group_trusts t (map snd (iter (si_peer_infos (synced t)))) declarations trust_admin_groups_without_proof.

Definition update_my_group_trusts t (my_peer_id : PeerId) (groups : list PeerGroupInfo) : SyncedTrust :=
  set_peer_groups_locked t my_peer_id (foldl (λ m g, <[group_name g := group_proof g]> m) ∅ groups).

Definition get_peer_groups t (p : PeerId) : list Text := default [] (group_trust_map_cache t !! p).

(** ** Credentials *)

Definition credential_proof_is_valid (raw_route_info : option (list Z)) (proof_idx : nat)
    (proof : TrustedCredentialPubkeyProof) (network_secret : option Text) : bool :=
  match network_secret with
  | None => true
  | Some secret =>
      match raw_route_info with
      | None => verify_credential_hmac proof secret
      | Some raw =>
          match raw_credential_bytes usize_bits raw proof_idx with
          | Some (Ok (Some bytes)) => verify_credential_hmac_with_bytes proof bytes secret
          | _ => false
          end
      end
  end.

Abbreviation Trusted := (gmap (list Z) TrustedCredentialPubkey).
Abbreviation TrustedKeys := (gmap (list Z) TrustedKeyMetadata).

Definition collect_proof (raw : option (list Z)) (network_secret : option Text) (now : Z)
    (st : Trusted * TrustedKeys) (kv : nat * TrustedCredentialPubkeyProof) : Trusted * TrustedKeys :=
  let '(all_trusted, keys) := st in
  if negb (credential_proof_is_valid raw kv.1 kv.2 network_secret) then st
  else match pf_credential kv.2 with
       | None => st
       | Some c =>
           if tc_expiry_unix c <=? now then st
           else (match all_trusted !! tc_pubkey c with Some _ => all_trusted | None => <[tc_pubkey c := c]> all_trusted end,
                 <[tc_pubkey c := mkKeyMetadata OspfCredential (Some (tc_expiry_unix c))]> keys)
       end.

(** An administrator's own key. *)
Definition add_admin_key info (keys : TrustedKeys) : TrustedKeys :=
  match noise_static_pubkey info with
  | [] => keys
  | k => <[k := mkKeyMetadata OspfNode None]> keys
  end.

Definition collect_trusted_credentials t (network_secret : option Text) (now : Z) : Trusted * TrustedKeys :=
  foldl (λ st kv,
    let '(p, info) := kv in
    if negb (is_admin_peer info) then st
    else
      let '(all_trusted, keys) := st in
      foldl (collect_proof (si_raw_peer_infos (synced t) !! p) network_secret now) (all_trusted, add_admin_key info keys)
        (imap pair (info_credentials info)))
    (∅, ∅) (iter (si_peer_infos (synced t))).

(** A peer that uses a non-reusable credential now. *)
Definition candidate (all_trusted : Trusted) (is_peer_active : PeerId → bool) (kv : PeerId * RoutePeerInfo) : option (list Z) :=
  match noise_static_pubkey kv.2 with
  | [] => None
  | k =>
      match all_trusted !! k with
      | None => None
      | Some c => if credential_is_reusable c then None else if is_peer_active kv.1 then Some k else None
      end
  end.

Definition add_candidate (all_trusted : Trusted) (is_peer_active : PeerId → bool) (m : gmap (list Z) (gset PeerId))
    (kv : PeerId * RoutePeerInfo) : gmap (list Z) (gset PeerId) :=
  match candidate all_trusted is_peer_active kv with
  | Some k => <[k := {[kv.1]} ∪ default ∅ (m !! k)]> m
  | None => m
  end.

Definition candidates (infos : list (PeerId * RoutePeerInfo)) (all_trusted : Trusted) (is_peer_active : PeerId → bool)
    : gmap (list Z) (gset PeerId) :=
  foldl (add_candidate all_trusted is_peer_active) ∅ infos.

(** The owners and the other candidates; a [BTreeSet] lists its elements in ascending order. *)
Definition collect_non_reusable_credential_owners t (all_trusted : Trusted) (is_peer_active : PeerId → bool)
    : gmap (list Z) PeerId * gset PeerId :=
  let c := candidates (iter (si_peer_infos (synced t))) all_trusted is_peer_active in
  (omap (λ s, head (btree_iter s)) c,
   ⋃ (map (λ kv, match head (btree_iter kv.2) with Some owner => kv.2 ∖ {[owner]} | None => ∅ end) (map_to_list c))).

Definition replace_non_reusable_credential_owners (owners active_owners : gmap (list Z) PeerId) : gmap (list Z) PeerId :=
  active_owners ∪ filter (λ kv, is_Some (active_owners !! kv.1)) owners.

Definition with_suppressed db (s : gset PeerId) : SyncedRouteInfo :=
  mkSynced (si_peer_infos db) (si_raw_peer_infos db) (si_conn_map db) (si_foreign_network db) s (si_version db).

Definition replace_suppressed_non_reusable_credential_peers db (suppressed : gset PeerId) : SyncedRouteInfo * bool :=
  if decide (si_suppressed db = suppressed) then (db, false)
  else (inc_version (with_suppressed db ((si_suppressed db ∩ suppressed) ∪ suppressed)), true).

Definition update_credential_groups t (all_trusted : Trusted) : SyncedTrust :=
  foldl (λ t kv,
    let info := kv.2 in
    match noise_static_pubkey info with
    | [] => t
    | k =>
        match all_trusted !! k with
        | None => t
        | Some c =>
            set_peer_groups_locked t (ri_peer_id info)
              (foldl grant_group (get_proof_groups_locked t (ri_peer_id info)) (tc_groups c))
        end
    end) t (iter (si_peer_infos (synced t))).

Definition is_revoked (prev_trusted : gset (list Z)) (all_trusted : Trusted) info : bool :=
  match noise_static_pubkey info with
  | [] => false
  | k => if ri_version info =? 0 then false
         else bool_decide (k ∈ prev_trusted) && negb (bool_decide (is_Some (all_trusted !! k)))
  end.

Definition collect_revoked_credential_peers t (prev_trusted : gset (list Z)) (all_trusted : Trusted) : gset PeerId :=
  list_to_set (map fst (filter (λ kv, is_revoked prev_trusted all_trusted kv.2 = true) (iter (si_peer_infos (synced t))))).

(** [remove_peers] on all maps. *)
Definition remove_trusted_peers t (peer_ids : gset PeerId) : SyncedTrust :=
  if decide (peer_ids = ∅) then t
  else mkTrust (remove_peers (synced t) peer_ids)
         (filter (λ kv, kv.1 ∉ peer_ids) (group_trust_map t)) (filter (λ kv, kv.1 ∉ peer_ids) (group_trust_map_cache t))
         (trusted_credential_pubkeys t) (non_reusable_credential_owners t).

(** Without the protected peer, when there is one. *)
Definition unprotected (s : gset PeerId) (protected : option PeerId) : gset PeerId :=
  match protected with Some p => s ∖ {[p]} | None => s end.

(** [verify_and_update_credential_trusts_with_active_peers_protecting]. *)
Definition refresh_trusts t (network_secret : option Text) (now : Z) (is_peer_active : PeerId → bool)
    (protected_peer_id : option PeerId) : SyncedTrust * (list PeerId * TrustedKeys * bool) :=
  let '(all_trusted, keys) := collect_trusted_credentials t network_secret now in
  let prev_trusted := dom (trusted_credential_pubkeys t) in
  let '(owners, duplicates) := collect_non_reusable_credential_owners t all_trusted is_peer_active in
  let duplicates := unprotected duplicates protected_peer_id in
  let '(db, suppressed_changed) := replace_suppressed_non_reusable_credential_peers (synced t) duplicates in
  let t := mkTrust db (group_trust_map t) (group_trust_map_cache t) all_trusted
             (replace_non_reusable_credential_owners (non_reusable_credential_owners t) owners) in
  let t := update_credential_groups t all_trusted in
  let untrusted := unprotected (collect_revoked_credential_peers t prev_trusted all_trusted) protected_peer_id in
  (remove_trusted_peers t untrusted, (btree_iter untrusted, keys, suppressed_changed)).

(** [update_my_peer_info], which also renews the groups of this node when they changed. *)
Definition update_my_info_and_groups t (my_peer_id : PeerId) (new : RoutePeerInfo) (now : Z) : SyncedTrust * bool :=
  let old := si_peer_infos (synced t) !! my_peer_id in
  let '(db, updated) := update_my_peer_info (synced t) my_peer_id new now in
  let t := with_synced t db in
  if updated then
    let differ := match old with Some old => negb (bool_decide (info_groups old = info_groups new)) | None => true end in
    (if differ then update_my_group_trusts t my_peer_id (info_groups new) else t, true)
  else (t, false).

(** ** What is accepted from a credential peer *)

Section CredentialPeer.

Context {V4Cidr V6Cidr : Type}.
Context (parse_cidr : string → option (IpCidr V4Cidr V6Cidr)).
Context (first4 last4 : V4Cidr → Z) (first6 last6 : V6Cidr → Z).

(** Texts in their two forms: the bytes of a string, and the string of its code points. *)
Definition string_bytes (s : string) : list Z := map (λ a, Z.of_N (Ascii.N_of_ascii a)) (String.list_ascii_of_string s).
Definition text_string (x : Text) : string :=
  String.string_of_list_ascii (map (λ b, Ascii.ascii_of_N (Z.to_N b)) (as_bytes x)).

Definition is_allowed (allowed : list Text) (cidr : string) : bool :=
  existsb (λ a, RouteTable.cidr_is_subset_str parse_cidr first4 last4 first6 last6 cidr (text_string a)) allowed.

Definition filter_proxy_cidrs info (allowed : list Text) : RoutePeerInfo :=
  mkPeerInfo (ri_peer_id info) (ri_version info) (ri_peer_route_id info) (ri_feature_flag info) (ri_ipv4_addr info)
    (ri_ipv6_addr info) (ri_ipv6_public_addr_lease info)
    (match allowed with [] => [] | _ => filter (λ cidr, is_allowed allowed cidr = true) (ri_proxy_cidrs info) end)
    (ri_udp_nat_type info) (ri_last_update info) (ri_rest info).

(** The outer [None] is a panic. *)
Definition extract_credential_peer_info (from_peer_id : PeerId) (infos : list RoutePeerInfo) (raws : list (list Z))
    (credential : TrustedCredentialPubkey) : option (option (RoutePeerInfo * list Z)) :=
  match list_find (λ info, ri_peer_id info = from_peer_id) infos with
  | None => Some None
  | Some (info_idx, info) =>
      raw ← raws !! info_idx;
      let info := mark_credential_peer (filter_proxy_cidrs info (tc_allowed_proxy_cidrs credential)) true in
      match patch_credential_route_peer_info usize_bits raw (map string_bytes (ri_proxy_cidrs info)) with
      | Some (Ok raw) => Some (Some (info, raw))
      | Some (Err _) => Some None
      | None => None
      end
  end.

End CredentialPeer.

(** * Properties *)

(** ** Which credentials are trusted *)

(** The credential is published by an administrator in the list, validly and not expired. *)
Definition published_by (raws : gmap PeerId (list Z)) (network_secret : option Text) (now : Z)
    (infos : list (PeerId * RoutePeerInfo)) (c : TrustedCredentialPubkey) : Prop :=
  ∃ p info idx proof, (p, info) ∈ infos ∧ is_admin_peer info = true ∧ info_credentials info !! idx = Some proof ∧
    credential_proof_is_valid (raws !! p) idx proof network_secret = true ∧ pf_credential proof = Some c ∧ now < tc_expiry_unix c.

(** The map holds exactly the keys of the credentials that satisfy [P], each with one of them. *)
Definition collects (P : TrustedCredentialPubkey → Prop) (trusted : Trusted) : Prop :=
  (∀ k c, trusted !! k = Some c → tc_pubkey c = k ∧ P c) ∧ (∀ c, P c → is_Some (trusted !! tc_pubkey c)).

Lemma collects_ext P Q trusted : (∀ c, P c ↔ Q c) → collects P trusted → collects Q trusted.
Proof. intros HPQ [H1 H2]. split; [intros k c Hk; split; [|apply HPQ]; by apply (H1 k c)|]. intros c Hc. by apply H2, HPQ. Qed.

Lemma collects_add P trusted c :
  collects P trusted →
  collects (λ c', P c' ∨ c' = c) (match trusted !! tc_pubkey c with Some _ => trusted | None => <[tc_pubkey c := c]> trusted end).
Proof.
  intros [H1 H2]. destruct (trusted !! tc_pubkey c) as [c0|] eqn:E; split.
  - intros k c' Hk. destruct (H1 k c' Hk). auto.
  - intros c' [Hc| ->]; [auto|by rewrite E].
  - intros k c' Hk. apply lookup_insert_Some in Hk as [[<- <-]|[_ Hk]]; [auto|]. destruct (H1 k c' Hk). auto.
  - intros c' [Hc| ->]; [|by rewrite lookup_insert_eq]. destruct (decide (tc_pubkey c = tc_pubkey c')) as [Ek|Ek];
      [by rewrite Ek, lookup_insert_eq|]. rewrite lookup_insert_ne by done. auto.
Qed.

(** The proofs of one peer from index [n] on. *)
Definition valid_from (raw : option (list Z)) (network_secret : option Text) (now : Z) (n : nat)
    (proofs : list TrustedCredentialPubkeyProof) (c : TrustedCredentialPubkey) : Prop :=
  ∃ idx proof, proofs !! idx = Some proof ∧ credential_proof_is_valid raw (n + idx) proof network_secret = true ∧
    pf_credential proof = Some c ∧ now < tc_expiry_unix c.

Lemma valid_from_cons raw secret now n proof proofs c :
  valid_from raw secret now n (proof :: proofs) c ↔
  (credential_proof_is_valid raw n proof secret = true ∧ pf_credential proof = Some c ∧ now < tc_expiry_unix c) ∨
  valid_from raw secret now (S n) proofs c.
Proof.
  split.
  - intros ([|idx] & pr & Hi & Hv & Hc & He); cbn in Hi; [injection Hi as <-; left; by rewrite Nat.add_0_r in Hv|].
    right. exists idx, pr. by rewrite <- Nat.add_succ_comm in Hv.
  - intros [(Hv & Hc & He)|(idx & pr & Hi & Hv & Hc & He)]; [exists 0%nat, proof; by rewrite Nat.add_0_r|].
    exists (S idx), pr. by rewrite <- Nat.add_succ_comm.
Qed.

Lemma collect_proofs_spec P raw secret now n proofs st :
  collects P st.1 →
  collects (λ c, P c ∨ valid_from raw secret now n proofs c)
    (foldl (collect_proof raw secret now) st (imap (λ i p, (n + i, p)%nat) proofs)).1.
Proof.
  revert P n st. induction proofs as [|proof proofs IH]; intros P n [trusted keys] Hst; cbn [imap foldl].
  - eapply collects_ext; [|exact Hst]. intros c. split; [by left|]. intros [?|(idx & pr & Hi & _)]; done.
  - rewrite Nat.add_0_r. rewrite (imap_ext _ (λ i p, (S n + i, p)%nat)) by (intros i x _; cbn; f_equal; lia).
    set (P' := λ c, P c ∨ (credential_proof_is_valid raw n proof secret = true ∧ pf_credential proof = Some c ∧ now < tc_expiry_unix c)).
    assert (collects P' (collect_proof raw secret now (trusted, keys) (n, proof)).1) as Hone.
    { unfold collect_proof. cbn. destruct (credential_proof_is_valid raw n proof secret) eqn:Ev; cbn.
      2:{ eapply collects_ext; [|exact Hst]. unfold P'. naive_solver. }
      destruct (pf_credential proof) as [c|] eqn:Ec; [|eapply collects_ext; [|exact Hst]; unfold P'; naive_solver].
      destruct (Z.leb_spec (tc_expiry_unix c) now).
      + eapply collects_ext; [|exact Hst]. unfold P'. cbn. split; [by left|]. intros [?|(_ & [= <-] & ?)]; [done|lia].
      + eapply collects_ext; [|apply (collects_add _ _ c Hst)]. unfold P'. cbn. intros c'. split; [|naive_solver].
        intros [?| ->]; [by left|by right]. }
    eapply collects_ext; [|apply (IH _ (S n) _ Hone)]. intros c. rewrite valid_from_cons. unfold P'. tauto.
Qed.

Lemma collect_trusted_spec t secret now :
  collects (published_by (si_raw_peer_infos (synced t)) secret now (iter (si_peer_infos (synced t))))
    (collect_trusted_credentials t secret now).1.
Proof.
  unfold collect_trusted_credentials. set (raws := si_raw_peer_infos (synced t)).
  assert (∀ l P st, collects P st.1 → collects (λ c, P c ∨ published_by raws secret now l c)
    (foldl (λ (st : Trusted * TrustedKeys) (kv : PeerId * RoutePeerInfo), let '(p, info) := kv in
      if negb (is_admin_peer info) then st
      else let '(all_trusted, keys) := st in
        foldl (collect_proof (raws !! p) secret now)
          (all_trusted, add_admin_key info keys)
          (imap pair (info_credentials info))) st l).1) as H.
  - induction l as [|[p info] l IH]; intros P st Hst; cbn [foldl].
    { eapply collects_ext; [|exact Hst]. intros c. split; [by left|]. intros [?|(? & ? & ? & ? & Hin & _)]; [done|by apply elem_of_nil in Hin]. }
    assert (∀ c, published_by raws secret now ((p, info) :: l) c ↔
      (is_admin_peer info = true ∧ valid_from (raws !! p) secret now 0 (info_credentials info) c) ∨ published_by raws secret now l c) as Hcons.
    { intros c. unfold published_by, valid_from. setoid_rewrite elem_of_cons. split.
      - intros (q & i & idx & pr & [[= -> ->]|Hin] & Ha & Hi & Hv & Hc & He); [left; split; [done|]; by exists idx, pr|]. right. by exists q, i, idx, pr.
      - intros [(Ha & idx & pr & Hi & Hv & Hc & He)|(q & i & idx & pr & Hin & Ha & Hi & Hv & Hc & He)];
          [exists p, info, idx, pr|exists q, i, idx, pr]; split_and!; auto. }
    destruct (is_admin_peer info) eqn:Ea; cbn [negb].
    + destruct st as [trusted keys]. eapply collects_ext; [|apply IH, (collect_proofs_spec P (raws !! p) secret now 0); exact Hst].
      intros c. cbn. rewrite Hcons. tauto.
    + eapply collects_ext; [|apply IH, Hst]. intros c. cbn. rewrite Hcons. naive_solver.
  - eapply collects_ext; [|apply (H _ (λ _, False) (∅, ∅))]; [cbn; tauto|]. split; [intros k c; cbn; by rewrite lookup_empty|done].
Qed.

Lemma iter_elem {K A} `{Countable K} (m : gmap K A) k a : (k, a) ∈ iter m ↔ m !! k = Some a.
Proof. by rewrite iter_perm, elem_of_map_to_list. Qed.

(** ** Owners of non-reusable credentials *)

Lemma candidates_spec l trusted active k q :
  q ∈ default ∅ (candidates l trusted active !! k) ↔ ∃ info, (q, info) ∈ l ∧ candidate trusted active (q, info) = Some k.
Proof.
  unfold candidates. assert (∀ m : gmap (list Z) (gset PeerId), q ∈ default ∅ (foldl (add_candidate trusted active) m l !! k) ↔
    q ∈ default ∅ (m !! k) ∨ ∃ info, (q, info) ∈ l ∧ candidate trusted active (q, info) = Some k) as H.
  - induction l as [|[p info] l IH]; intros m; cbn [foldl].
    { split; [by left|]. intros [?|(? & Hin & _)]; [done|by apply elem_of_nil in Hin]. }
    rewrite IH. setoid_rewrite elem_of_cons. unfold add_candidate. destruct (candidate trusted active (p, info)) as [k'|] eqn:E.
    + destruct (decide (k' = k)) as [->|Hk].
      * rewrite lookup_insert_eq. cbn. rewrite elem_of_union, elem_of_singleton. split.
        -- intros [[->|?]|(i & ? & ?)]; [right; exists info; by auto|by left|right; exists i; by auto].
        -- intros [?|(i & [[= -> ->]|?] & ?)]; [by left; right|by left; left|right; by exists i].
      * rewrite lookup_insert_ne by done. split; intros [?|(i & Hi & ?)]; [by left|right; exists i; by auto|by left|].
        right. exists i. destruct Hi as [[= -> ->]|?]; [congruence|done].
    + split; intros [?|(i & Hi & ?)]; [by left|right; exists i; by auto|by left|].
      right. exists i. destruct Hi as [[= -> ->]|?]; [congruence|done].
  - rewrite H, lookup_empty. cbn. set_solver.
Qed.

Lemma candidate_some trusted active p info k :
  candidate trusted active (p, info) = Some k ↔
  k ≠ [] ∧ noise_static_pubkey info = k ∧ active p = true ∧ ∃ c, trusted !! k = Some c ∧ credential_is_reusable c = false.
Proof.
  unfold candidate. cbn [fst snd]. destruct (noise_static_pubkey info) as [|z l] eqn:En.
  - split; [done|]. by intros (Hk & <- & _).
  - destruct (trusted !! (z :: l)) as [c|] eqn:Et.
    + destruct (credential_is_reusable c) eqn:Er.
      * split; [done|]. intros (_ & <- & _ & c' & Hc & Hr). congruence.
      * destruct (active p) eqn:Ea; [|split; [done|by intros (_ & _ & ? & _)]]. split; [intros [= <-]; split_and!; eauto|].
        by intros (_ & <- & _).
    + split; [done|]. intros (_ & <- & _ & c' & Hc & _). congruence.
Qed.

Lemma head_least (s : gset PeerId) o : head (btree_iter s) = Some o → o ∈ s ∧ ∀ q, q ∈ s → o <= q.
Proof.
  unfold btree_iter. intros H. assert (StronglySorted Z.le (merge_sort Z.le (elements s))) as Hs by (apply StronglySorted_merge_sort; [intros ???|intros ??]; lia).
  pose proof (set_btree_iter s) as He. unfold btree_iter in He.
  destruct (merge_sort Z.le (elements s)) as [|x l]; [done|]. injection H as ->. split; [apply He, elem_of_cons; by left|].
  intros q Hq. apply He, elem_of_cons in Hq as [->|Hq]; [lia|]. apply StronglySorted_inv in Hs as [_ Hs]. by rewrite Forall_forall in Hs; apply Hs.
Qed.

Lemma head_exists (s : gset PeerId) p : p ∈ s → ∃ o, head (btree_iter s) = Some o.
Proof.
  intros Hp%set_btree_iter. destruct (btree_iter s) as [|x l]; [by apply elem_of_nil in Hp|by exists x].
Qed.

(** The peers that use the key of a non-reusable credential now. *)
Definition holds (db : SyncedRouteInfo) (trusted : Trusted) (active : PeerId → bool) (k : list Z) (p : PeerId) : Prop :=
  k ≠ [] ∧ active p = true ∧ (∃ info, si_peer_infos db !! p = Some info ∧ noise_static_pubkey info = k) ∧
  ∃ c, trusted !! k = Some c ∧ credential_is_reusable c = false.

Lemma candidates_holds t trusted active k p :
  p ∈ default ∅ (candidates (iter (si_peer_infos (synced t))) trusted active !! k) ↔ holds (synced t) trusted active k p.
Proof.
  rewrite candidates_spec. unfold holds. setoid_rewrite iter_elem. setoid_rewrite candidate_some. naive_solver.
Qed.

Lemma owners_spec t trusted active k p :
  let '(owners, duplicates) := collect_non_reusable_credential_owners t trusted active in
  holds (synced t) trusted active k p →
  ∃ o, owners !! k = Some o ∧ holds (synced t) trusted active k o ∧ o <= p ∧ (p ∈ duplicates ↔ p ≠ o).
Proof.
  unfold collect_non_reusable_credential_owners. set (c := candidates _ _ _). intros Hp.
  pose proof (candidates_holds t trusted active) as Hc. fold c in Hc. pose proof (proj2 (Hc k p) Hp) as Hin.
  destruct (c !! k) as [s|] eqn:Es; [|cbn in Hin; by apply elem_of_empty in Hin]. cbn in Hin.
  destruct (head_exists s p Hin) as [o Ho]. destruct (head_least s o Ho) as [Hos Hle]. exists o.
  split; [by rewrite lookup_omap, Es|]. split; [apply Hc; by rewrite Es|]. split; [auto|].
  rewrite elem_of_union_list. split.
  - intros (X & HX & HpX). apply list_elem_of_fmap in HX as ([k' s'] & -> & Hk'%elem_of_map_to_list). cbn in HpX.
    destruct (head (btree_iter s')) as [o'|] eqn:Eo; [|by apply elem_of_empty in HpX]. apply elem_of_difference in HpX as [Hps Hne].
    assert (holds (synced t) trusted active k' p) as Hp' by (apply Hc; by rewrite Hk').
    assert (k' = k) as -> by (destruct Hp as (_ & _ & (i & Hi & <-) & _), Hp' as (_ & _ & (i' & Hi' & <-) & _); congruence).
    rewrite Es in Hk'. injection Hk' as <-. rewrite Ho in Eo. injection Eo as <-. set_solver.
  - intros Hne. exists (s ∖ {[o]}). split; [|set_solver]. apply list_elem_of_fmap. exists (k, s). cbn. rewrite Ho. split; [done|].
    by apply elem_of_map_to_list.
Qed.

(** ** The refresh *)

(** The maps that an update of the groups leaves alone. *)
Definition same_but_groups (t t' : SyncedTrust) : Prop :=
  synced t' = synced t ∧ trusted_credential_pubkeys t' = trusted_credential_pubkeys t ∧
  non_reusable_credential_owners t' = non_reusable_credential_owners t.

Lemma set_groups_fields t p groups : same_but_groups t (set_peer_groups_locked t p groups).
Proof. unfold set_peer_groups_locked. by case_decide. Qed.

Lemma same_but_groups_trans t1 t2 t3 : same_but_groups t1 t2 → same_but_groups t2 t3 → same_but_groups t1 t3.
Proof. unfold same_but_groups. intros (-> & -> & ->) (-> & -> & ->). done. Qed.

Lemma credential_groups_fields t trusted : same_but_groups t (update_credential_groups t trusted).
Proof.
  unfold update_credential_groups. apply (foldl_inv (λ _ t', same_but_groups t t')); [done|].
  intros done [p info] t' _ IH. cbn. destruct (noise_static_pubkey info); [done|]. destruct (trusted !! _); [|done].
  eapply same_but_groups_trans; [exact IH|]. apply set_groups_fields.
Qed.

Lemma replace_suppressed_spec db s :
  let '(db', changed) := replace_suppressed_non_reusable_credential_peers db s in
  si_suppressed db' = s ∧ si_peer_infos db' = si_peer_infos db ∧ si_raw_peer_infos db' = si_raw_peer_infos db ∧
  si_conn_map db' = si_conn_map db ∧ si_foreign_network db' = si_foreign_network db ∧
  changed = negb (bool_decide (si_suppressed db = s)).
Proof.
  unfold replace_suppressed_non_reusable_credential_peers. case_decide as E; [by rewrite bool_decide_true|].
  rewrite bool_decide_false by done. cbn. split; [set_solver|done].
Qed.

(** The state of a refresh before the removals, and the peers it removes. *)
Lemma refresh_spec t secret now active protected :
  let t' := (refresh_trusts t secret now active protected).1 in
  let trusted := (collect_trusted_credentials t secret now).1 in
  let od := collect_non_reusable_credential_owners t trusted active in
  ∃ t1 revoked,
    t' = remove_trusted_peers t1 revoked ∧ (refresh_trusts t secret now active protected).2.1.1 = btree_iter revoked ∧
    revoked = unprotected (collect_revoked_credential_peers t (dom (trusted_credential_pubkeys t)) trusted) protected ∧
    si_peer_infos (synced t1) = si_peer_infos (synced t) ∧ si_raw_peer_infos (synced t1) = si_raw_peer_infos (synced t) ∧
    si_conn_map (synced t1) = si_conn_map (synced t) ∧ si_foreign_network (synced t1) = si_foreign_network (synced t) ∧
    si_suppressed (synced t1) = unprotected od.2 protected ∧ trusted_credential_pubkeys t1 = trusted ∧
    non_reusable_credential_owners t1 = replace_non_reusable_credential_owners (non_reusable_credential_owners t) od.1.
Proof.
  unfold refresh_trusts. destruct (collect_trusted_credentials t secret now) as [trusted keys]. cbn [fst].
  destruct (collect_non_reusable_credential_owners t trusted active) as [owners dups]. cbn [fst snd].
  pose proof (replace_suppressed_spec (synced t) (unprotected dups protected)) as Hs.
  destruct (replace_suppressed_non_reusable_credential_peers (synced t) (unprotected dups protected)) as [db changed].
  destruct Hs as (Hs & Hi & Hr & Hc & Hf & _). set (t0 := mkTrust db _ _ _ _).
  destruct (credential_groups_fields t0 trusted) as (E1 & E2 & E3). cbn [fst snd].
  exists (update_credential_groups t0 trusted). eexists. split; [done|]. split; [done|].
  rewrite E1, E2, E3. cbn. split; [|done]. f_equal. unfold collect_revoked_credential_peers. by rewrite E1; cbn; rewrite Hi.
Qed.

Lemma filter_out_lookup {K A} `{Countable K} (P : K → Prop) `{∀ k, Decision (P k)} (m : gmap K A) k :
  filter (λ kv, ¬ P kv.1) m !! k = if bool_decide (P k) then None else m !! k.
Proof.
  rewrite map_lookup_filter. destruct (m !! k); cbn; [|by case_bool_decide].
  case_bool_decide; [by rewrite option_guard_False by tauto|by rewrite option_guard_True].
Qed.

Lemma removed_fields t revoked :
  let t' := remove_trusted_peers t revoked in
  (∀ p, si_peer_infos (synced t') !! p = if bool_decide (p ∈ revoked) then None else si_peer_infos (synced t) !! p) ∧
  (∀ p, si_raw_peer_infos (synced t') !! p = if bool_decide (p ∈ revoked) then None else si_raw_peer_infos (synced t) !! p) ∧
  (∀ p, si_conn_map (synced t') !! p = if bool_decide (p ∈ revoked) then None else si_conn_map (synced t) !! p) ∧
  (∀ key, si_foreign_network (synced t') !! key = if bool_decide (key.1 ∈ revoked) then None else si_foreign_network (synced t) !! key) ∧
  (∀ p, group_trust_map t' !! p = if bool_decide (p ∈ revoked) then None else group_trust_map t !! p) ∧
  (∀ p, group_trust_map_cache t' !! p = if bool_decide (p ∈ revoked) then None else group_trust_map_cache t !! p) ∧
  si_suppressed (synced t') = si_suppressed (synced t) ∧ trusted_credential_pubkeys t' = trusted_credential_pubkeys t ∧
  non_reusable_credential_owners t' = non_reusable_credential_owners t.
Proof.
  cbn zeta. unfold remove_trusted_peers, remove_peers. case_decide as E.
  - subst revoked. repeat split; intros; by rewrite bool_decide_false by set_solver.
  - cbn.
    repeat split; intros x; try exact (filter_out_lookup (λ q : PeerId, q ∈ revoked) _ x).
    exact (filter_out_lookup (λ key : ForeignKey, key.1 ∈ revoked) _ x).
Qed.

(** What the database publishes: the list of [published_by] is the map. *)
Definition published (db : SyncedRouteInfo) (network_secret : option Text) (now : Z) (c : TrustedCredentialPubkey) : Prop :=
  ∃ p info idx proof, si_peer_infos db !! p = Some info ∧ is_admin_peer info = true ∧ info_credentials info !! idx = Some proof ∧
    credential_proof_is_valid (si_raw_peer_infos db !! p) idx proof network_secret = true ∧ pf_credential proof = Some c ∧
    now < tc_expiry_unix c.

Lemma refresh_trusted t secret now active protected :
  trusted_credential_pubkeys (refresh_trusts t secret now active protected).1 = (collect_trusted_credentials t secret now).1.
Proof.
  destruct (refresh_spec t secret now active protected) as (t1 & revoked & -> & _ & _ & _ & _ & _ & _ & _ & E & _).
  destruct (removed_fields t1 revoked) as (_ & _ & _ & _ & _ & _ & _ & -> & _). exact E.
Qed.

Lemma refresh_suppressed t secret now active protected :
  si_suppressed (synced (refresh_trusts t secret now active protected).1) =
  unprotected (collect_non_reusable_credential_owners t (collect_trusted_credentials t secret now).1 active).2 protected.
Proof.
  destruct (refresh_spec t secret now active protected) as (t1 & revoked & -> & _ & _ & _ & _ & _ & _ & E & _).
  destruct (removed_fields t1 revoked) as (_ & _ & _ & _ & _ & _ & -> & _). exact E.
Qed.

(** After a refresh the trusted keys are exactly those of the credentials that an
    administrator publishes with a valid proof (under the network secret, if this node has
    it) and that have not expired; each key carries one of its published credentials. *)
Theorem trusted_after_refresh t secret now active protected :
  let trusted := trusted_credential_pubkeys (refresh_trusts t secret now active protected).1 in
  (∀ k c, trusted !! k = Some c → tc_pubkey c = k ∧ published (synced t) secret now c) ∧
  (∀ c, published (synced t) secret now c → is_Some (trusted !! tc_pubkey c)).
Proof.
  cbn zeta. rewrite refresh_trusted. eapply collects_ext; [|apply collect_trusted_spec]. intros c.
  unfold published_by, published. setoid_rewrite iter_elem. done.
Qed.

(** A non-reusable credential is used by one peer at a time: whenever an active peer
    holds its key, the active holder with the lowest id is the owner, and exactly the other
    holders are suppressed, except the protected peer (this node). *)
Theorem one_forwarder_per_credential t secret now active protected k p :
  let t' := (refresh_trusts t secret now active protected).1 in
  holds (synced t) (trusted_credential_pubkeys t') active k p →
  ∃ owner, non_reusable_credential_owners t' !! k = Some owner ∧
    holds (synced t) (trusted_credential_pubkeys t') active k owner ∧ owner <= p ∧
    (p ∈ si_suppressed (synced t') ↔ p ≠ owner ∧ protected ≠ Some p).
Proof.
  cbn zeta. rewrite refresh_trusted, refresh_suppressed. set (trusted := (collect_trusted_credentials t secret now).1).
  pose proof (owners_spec t trusted active k p) as Ho.
  assert (non_reusable_credential_owners (refresh_trusts t secret now active protected).1 =
    replace_non_reusable_credential_owners (non_reusable_credential_owners t) (collect_non_reusable_credential_owners t trusted active).1) as En.
  { destruct (refresh_spec t secret now active protected) as (t1 & revoked & -> & _ & _ & _ & _ & _ & _ & _ & _ & E).
    destruct (removed_fields t1 revoked) as (_ & _ & _ & _ & _ & _ & _ & _ & ->). exact E. }
  rewrite En. destruct (collect_non_reusable_credential_owners t trusted active) as [owners dups]. cbn [fst snd].
  intros Hp. destruct (Ho Hp) as (o & Hok & Hh & Hle & Hd). exists o. split; [|split; [done|split; [done|]]].
  - unfold replace_non_reusable_credential_owners. by apply lookup_union_Some_l.
  - unfold unprotected. destruct protected as [q|]; [|rewrite Hd; naive_solver].
    rewrite elem_of_difference, elem_of_singleton, Hd. naive_solver.
Qed.

(** The peer uses a key that was trusted before the refresh and is not after it. *)
Definition lost_trust (t t' : SyncedTrust) (protected : option PeerId) (p : PeerId) : Prop :=
  protected ≠ Some p ∧ ∃ info, si_peer_infos (synced t) !! p = Some info ∧ ri_version info ≠ 0 ∧ noise_static_pubkey info ≠ [] ∧
    is_Some (trusted_credential_pubkeys t !! noise_static_pubkey info) ∧
    trusted_credential_pubkeys t' !! noise_static_pubkey info = None.

Lemma revoked_spec t trusted protected t' p : trusted_credential_pubkeys t' = trusted →
  p ∈ unprotected (collect_revoked_credential_peers t (dom (trusted_credential_pubkeys t)) trusted) protected ↔ lost_trust t t' protected p.
Proof.
  intros Et. assert (p ∈ collect_revoked_credential_peers t (dom (trusted_credential_pubkeys t)) trusted ↔ ∃ info,
    si_peer_infos (synced t) !! p = Some info ∧ is_revoked (dom (trusted_credential_pubkeys t)) trusted info = true) as H.
  { unfold collect_revoked_credential_peers. rewrite elem_of_list_to_set, list_elem_of_fmap. setoid_rewrite list_elem_of_filter. split.
    - intros ([q info] & -> & Hr & Hin%iter_elem). by exists info.
    - intros (info & Hi & Hr). exists (p, info). split; [done|]. by rewrite iter_elem. }
  assert (∀ info, is_revoked (dom (trusted_credential_pubkeys t)) trusted info = true ↔ ri_version info ≠ 0 ∧ noise_static_pubkey info ≠ [] ∧
    is_Some (trusted_credential_pubkeys t !! noise_static_pubkey info) ∧ trusted !! noise_static_pubkey info = None) as Hr.
  { intros info. unfold is_revoked. destruct (noise_static_pubkey info) as [|z l]; [naive_solver|].
    destruct (Z.eqb_spec (ri_version info) 0); [naive_solver|]. rewrite andb_true_iff, negb_true_iff, bool_decide_eq_true, bool_decide_eq_false, elem_of_dom.
    rewrite <- eq_None_not_Some. naive_solver. }
  unfold lost_trust. rewrite Et. setoid_rewrite Hr in H. unfold unprotected.
  destruct protected as [q|]; [rewrite elem_of_difference, elem_of_singleton|]; rewrite H; naive_solver.
Qed.

(** A refresh removes exactly the peers whose credential is no longer trusted, from
    every map (their info, its bytes, their connections, their foreign networks and their
    groups), reports them, and keeps the infos of the others. *)
Theorem revoked_peers_leave t secret now active protected :
  let r := refresh_trusts t secret now active protected in
  (∀ p, p ∈ r.2.1.1 ↔ lost_trust t r.1 protected p) ∧
  (∀ p, lost_trust t r.1 protected p →
     si_peer_infos (synced r.1) !! p = None ∧ si_raw_peer_infos (synced r.1) !! p = None ∧ si_conn_map (synced r.1) !! p = None ∧
     group_trust_map r.1 !! p = None ∧ get_peer_groups r.1 p = [] ∧ ∀ name, si_foreign_network (synced r.1) !! (p, name) = None) ∧
  (∀ p, ¬ lost_trust t r.1 protected p → si_peer_infos (synced r.1) !! p = si_peer_infos (synced t) !! p ∧
     si_conn_map (synced r.1) !! p = si_conn_map (synced t) !! p).
Proof.
  cbn zeta. pose proof (refresh_trusted t secret now active protected) as Et.
  destruct (refresh_spec t secret now active protected) as (t1 & revoked & E & Eu & Er & Ei & _ & Ec & _).
  assert (∀ p, p ∈ revoked ↔ lost_trust t (refresh_trusts t secret now active protected).1 protected p) as Hl
    by (intros p; rewrite Er; by apply revoked_spec).
  rewrite Eu. split; [intros p; by rewrite set_btree_iter|]. setoid_rewrite <- Hl. rewrite E.
  destruct (removed_fields t1 revoked) as (R1 & R2 & R3 & R4 & R5 & R6 & _). split.
  - intros p Hp. unfold get_peer_groups. rewrite R1, R2, R3, R5, R6, !bool_decide_true by done. split_and!; try done.
    intros name. by rewrite R4, bool_decide_true.
  - intros p Hp. by rewrite R1, R3, !bool_decide_false, Ei, Ec.
Qed.

(** ** Groups *)

(** The cache lists the groups of every peer, and a peer without groups has no entry. *)
Definition cache_ok t : Prop :=
  ∀ p, group_trust_map_cache t !! p = group_names <$> group_trust_map t !! p ∧ group_trust_map t !! p ≠ Some ∅.

Definition entry_of (groups : Groups) : option Groups := if decide (groups = ∅) then None else Some groups.

Lemma set_groups_spec t p groups q :
  group_trust_map (set_peer_groups_locked t p groups) !! q = (if decide (p = q) then entry_of groups else group_trust_map t !! q) ∧
  group_trust_map_cache (set_peer_groups_locked t p groups) !! q =
    (if decide (p = q) then group_names <$> entry_of groups else group_trust_map_cache t !! q).
Proof.
  unfold set_peer_groups_locked, entry_of. destruct (decide (groups = ∅)); cbn; destruct (decide (p = q)) as [->|].
  - by rewrite !lookup_delete_eq.
  - by rewrite !lookup_delete_ne.
  - by rewrite !lookup_insert_eq.
  - by rewrite !lookup_insert_ne.
Qed.

Lemma entry_not_empty groups : entry_of groups ≠ Some ∅.
Proof. unfold entry_of. case_decide; congruence. Qed.

Lemma set_groups_cache t p groups : cache_ok t → cache_ok (set_peer_groups_locked t p groups).
Proof.
  intros Ht q. destruct (set_groups_spec t p groups q) as [-> ->]. case_decide; [|apply Ht]. split; [done|apply entry_not_empty].
Qed.

(** A round is [set_peer_groups_locked], when the cache is right. *)
Lemma update_groups_set declarations flag t info : cache_ok t →
  let t' := update_groups_of declarations flag t info in
  let t'' := set_peer_groups_locked t (ri_peer_id info) (verify_groups declarations flag info) in
  (∀ q, group_trust_map t' !! q = group_trust_map t'' !! q) ∧ (∀ q, group_trust_map_cache t' !! q = group_trust_map_cache t'' !! q).
Proof.
  intros Ht. cbn zeta. unfold update_groups_of, set_peer_groups_locked. destruct (group_trust_map t !! ri_peer_id info) as [g|] eqn:Eg; [done|].
  case_decide; [|done]. cbn. destruct (Ht (ri_peer_id info)) as [Hc _]. rewrite Eg in Hc. cbn in Hc. by rewrite !delete_id.
Qed.

Lemma update_groups_cache declarations flag t info : cache_ok t → cache_ok (update_groups_of declarations flag t info).
Proof.
  intros Ht q. destruct (update_groups_set declarations flag t info Ht) as [-> ->]. by apply set_groups_cache.
Qed.

Lemma verify_cache t infos declarations flag : cache_ok t → cache_ok (verify_and_update_group_trusts t infos declarations flag).
Proof.
  intros Ht. unfold verify_and_update_group_trusts. apply (foldl_inv (λ _ t, cache_ok t)); [done|]. intros _ info t' _. apply update_groups_cache.
Qed.

Lemma cache_same t t' : group_trust_map t' = group_trust_map t → group_trust_map_cache t' = group_trust_map_cache t → cache_ok t → cache_ok t'.
Proof. intros E1 E2 Ht p. rewrite E1, E2. apply Ht. Qed.

Lemma credential_groups_cache t trusted : cache_ok t → cache_ok (update_credential_groups t trusted).
Proof.
  intros Ht. unfold update_credential_groups. apply (foldl_inv (λ _ t, cache_ok t)); [done|]. intros _ [p info] t' _ IH. cbn.
  destruct (noise_static_pubkey info); [done|]. destruct (trusted !! _); [|done]. by apply set_groups_cache.
Qed.

Lemma remove_cache t revoked : cache_ok t → cache_ok (remove_trusted_peers t revoked).
Proof.
  intros Ht p. destruct (removed_fields t revoked) as (_ & _ & _ & _ & R5 & R6 & _). rewrite R5, R6.
  case_bool_decide; [done|apply Ht].
Qed.

(** The calls that change the trust maps; [Database] is any change of the rest. *)
Inductive TrustCall : Type :=
| Database (db : SyncedRouteInfo)
| VerifyCurrent (received : list RoutePeerInfo) (declarations : list PeerGroupIdentity) (flag : bool)
| VerifyAll (declarations : list PeerGroupIdentity) (flag : bool)
| UpdateMyInfo (my_peer_id : PeerId) (new : RoutePeerInfo) (now : Z)
| Refresh (secret : option Text) (now : Z) (active : PeerId → bool) (protected : option PeerId)
| RemovePeers (peer_ids : gset PeerId).

Definition exec_trust t (c : TrustCall) : SyncedTrust :=
  match c with
  | Database db => with_synced t db
  | VerifyCurrent received declarations flag => verify_and_update_current_group_trusts t received declarations flag
  | VerifyAll declarations flag => verify_and_update_all_current_group_trusts t declarations flag
  | UpdateMyInfo my new now => (update_my_info_and_groups t my new now).1
  | Refresh secret now active protected => (refresh_trusts t secret now active protected).1
  | RemovePeers peer_ids => remove_trusted_peers t peer_ids
  end.

Definition no_trust (db : SyncedRouteInfo) : SyncedTrust := mkTrust db ∅ ∅ ∅ ∅.

Lemma exec_cache t c : cache_ok t → cache_ok (exec_trust t c).
Proof.
  intros Ht. destruct c as [db|received declarations flag|declarations flag|my new now|secret now active protected|peer_ids]; cbn [exec_trust].
  - exact Ht.
  - by apply verify_cache.
  - by apply verify_cache.
  - unfold update_my_info_and_groups. destruct (update_my_peer_info _ _ _ _) as [db []]; [|exact Ht]. cbn [fst].
    match goal with |- context [if ?b then _ else _] => destruct b end; [|exact Ht].
    unfold update_my_group_trusts. apply set_groups_cache. exact Ht.
  - unfold refresh_trusts. destruct (collect_trusted_credentials t secret now) as [trusted keys].
    destruct (collect_non_reusable_credential_owners t trusted active) as [owners dups].
    destruct (replace_suppressed_non_reusable_credential_peers _ _) as [db changed]. cbn [fst].
    apply remove_cache, credential_groups_cache. exact Ht.
  - by apply remove_cache.
Qed.

(** C29: over any sequence of calls the cache of group names, which answers the ACL, lists
    exactly the groups a peer has, and no peer keeps an empty entry. *)
Theorem group_cache_follows db calls p :
  let t := foldl exec_trust (no_trust db) calls in
  get_peer_groups t p = from_option group_names [] (group_trust_map t !! p) ∧ group_trust_map t !! p ≠ Some ∅.
Proof.
  cbn zeta. assert (cache_ok (foldl exec_trust (no_trust db) calls)) as Ht.
  { apply (foldl_inv (λ _ t, cache_ok t)); [intros q; cbn; by rewrite !lookup_empty|]. intros _ c t _. apply exec_cache. }
  destruct (Ht p) as [Hc Hne]. split; [|done]. unfold get_peer_groups. rewrite Hc. by destruct (group_trust_map _ !! p).
Qed.

(** What entitles a peer to a group: a proof under the secret of a local declaration, or,
    on a node that cannot check proofs, the word of an administrator. *)
Definition justified (declarations : gmap Text Text) (trust_admin_groups_without_proof : bool) info (name : Text) : Prop :=
  (∃ g secret, g ∈ info_groups info ∧ group_name g = name ∧ declarations !! name = Some secret ∧
     verify_group g secret (ri_peer_id info) = true) ∨
  (trust_admin_groups_without_proof = true ∧ is_admin_peer info = true ∧ ∃ g, g ∈ info_groups info ∧ group_name g = name).

Lemma verified_groups_spec declarations info name :
  is_Some (verified_groups declarations info !! name) ↔
  ∃ g secret, g ∈ info_groups info ∧ group_name g = name ∧ declarations !! name = Some secret ∧ verify_group g secret (ri_peer_id info) = true.
Proof.
  unfold verified_groups. apply (foldl_inv (λ l m, is_Some (m !! name) ↔ ∃ g secret, g ∈ l ∧ group_name g = name ∧
    declarations !! name = Some secret ∧ verify_group g secret (ri_peer_id info) = true)).
  - rewrite lookup_empty. split; [intros []; done|]. intros (g & s & Hin & _). by apply elem_of_nil in Hin.
  - intros l g m _ IH. setoid_rewrite elem_of_app. setoid_rewrite list_elem_of_singleton.
    destruct (declarations !! group_name g) as [secret|] eqn:Ed; [destruct (verify_group g secret (ri_peer_id info)) eqn:Ev|].
    + destruct (decide (group_name g = name)) as [<-|Hn].
      * rewrite lookup_insert_eq. split; [|by eexists]. intros _. exists g, secret. auto.
      * rewrite lookup_insert_ne, IH by done. split; [intros (g' & s & Hin & Hr); exists g', s; by auto|]. intros (g' & s & [Hin| ->] & Hg & Hr); [by exists g', s|congruence].
    + rewrite IH. split; [intros (g' & s & Hin & Hr); exists g', s; by auto|]. intros (g' & s & [Hin| ->] & Hg & Hs & Hv); [by exists g', s|congruence].
    + rewrite IH. split; [intros (g' & s & Hin & Hr); exists g', s; by auto|]. intros (g' & s & [Hin| ->] & Hg & Hs & Hv); [by exists g', s|congruence].
Qed.

Lemma grant_groups_spec l groups name :
  is_Some (foldl (λ groups g, grant_group groups (group_name g)) groups l !! name) ↔
  is_Some (groups !! name) ∨ ∃ g, g ∈ l ∧ group_name g = name.
Proof.
  apply (foldl_inv (λ l m, is_Some (m !! name) ↔ is_Some (groups !! name) ∨ ∃ g, g ∈ l ∧ group_name g = name)).
  - split; [by left|]. intros [?|(g & Hin & _)]; [done|by apply elem_of_nil in Hin].
  - intros done g m _ IH. setoid_rewrite elem_of_app. setoid_rewrite list_elem_of_singleton.
    assert (is_Some (grant_group m (group_name g) !! name) ↔ is_Some (m !! name) ∨ group_name g = name) as ->.
    { unfold grant_group. destruct (m !! group_name g) eqn:E.
      - split; [by left|]. intros [?| <-]; [done|by rewrite E].
      - destruct (decide (group_name g = name)) as [<-|]; [rewrite lookup_insert_eq; naive_solver|rewrite lookup_insert_ne by done; naive_solver]. }
    rewrite IH. naive_solver.
Qed.

Lemma verify_groups_spec declarations flag info name :
  is_Some (verify_groups declarations flag info !! name) ↔ justified declarations flag info name.
Proof.
  unfold verify_groups, justified. destruct flag, (is_admin_peer info); cbn [andb];
    rewrite ?grant_groups_spec, verified_groups_spec; naive_solver.
Qed.

Lemma verify_round declarations flag info t q : cache_ok t →
  group_trust_map (update_groups_of declarations flag t info) !! q =
  (if decide (ri_peer_id info = q) then entry_of (verify_groups declarations flag info) else group_trust_map t !! q).
Proof. intros Ht. destruct (update_groups_set declarations flag t info Ht) as [-> _]. apply set_groups_spec. Qed.

Lemma verify_fold declarations flag info l t :
  cache_ok t → (∀ info', info' ∈ l → ri_peer_id info' = ri_peer_id info → info' = info) →
  group_trust_map (foldl (update_groups_of declarations flag) t l) !! ri_peer_id info =
  (if decide (info ∈ l) then entry_of (verify_groups declarations flag info) else group_trust_map t !! ri_peer_id info).
Proof.
  revert t. induction l as [|i l IH]; intros t Ht Hl; cbn [foldl]; [by rewrite decide_False by apply not_elem_of_nil|].
  rewrite IH; [|by apply update_groups_cache|intros i' Hi'; apply Hl; by right]. rewrite verify_round by done.
  destruct (decide (info ∈ l)) as [Hin|Hin]; [by rewrite decide_True by (by right)|].
  destruct (decide (ri_peer_id i = ri_peer_id info)) as [E|E].
  - assert (i = info) as -> by (apply Hl; [by left|done]). by rewrite decide_True by (by left).
  - rewrite decide_False; [done|]. intros [->|?]%elem_of_cons; done.
Qed.

Lemma elem_of_group_names groups name : name ∈ group_names groups ↔ is_Some (groups !! name).
Proof.
  unfold group_names. rewrite list_elem_of_fmap. split.
  - intros ([n pr] & -> & Hin%iter_elem). by exists pr.
  - intros [pr Hp]. exists (name, pr). by rewrite iter_elem.
Qed.

(** After the infos of a message have been checked, a peer named in it has exactly the
    groups that its stored info justifies: a stale group, or one whose proof fails, is gone;
    the groups of the peers not named are kept. *)
Theorem peer_groups_justified db calls received declarations flag p info :
  let t := foldl exec_trust (no_trust db) calls in
  let t' := verify_and_update_current_group_trusts t received declarations flag in
  si_peer_infos (synced t) !! p = Some info → ri_peer_id info = p →
  (∀ q i, si_peer_infos (synced t) !! q = Some i → ri_peer_id i = p → q = p) →
  ∀ name, name ∈ get_peer_groups t' p ↔
    (if decide (p ∈ map ri_peer_id received) then justified (declared declarations) flag info name else name ∈ get_peer_groups t p).
Proof.
  cbn zeta. intros Hi Hp Hkeys name. set (t := foldl exec_trust (no_trust db) calls) in *.
  assert (cache_ok t) as Ht by (apply (foldl_inv (λ _ t, cache_ok t)); [intros q; cbn; by rewrite !lookup_empty|intros _ c t0 _; apply exec_cache]).
  unfold verify_and_update_current_group_trusts. set (current := omap _ _).
  pose proof (verify_cache t current declarations flag Ht) as Ht'.
  assert (∀ i, i ∈ current ↔ ∃ q, q ∈ map ri_peer_id received ∧ si_peer_infos (synced t) !! q = Some i) as Hcur.
  { intros i. unfold current. rewrite list_elem_of_omap. split.
    - intros ([q []] & Hin%iter_elem & Hq). exists q. split; [|done]. apply lookup_gset_to_gmap_Some in Hin as [Hin _]. by apply elem_of_list_to_set in Hin.
    - intros (q & Hin & Hq). exists (q, tt). split; [|done]. apply iter_elem, lookup_gset_to_gmap_Some. by rewrite elem_of_list_to_set. }
  pose proof (verify_fold (declared declarations) flag info current t Ht) as Hf. rewrite Hp in Hf.
  assert (group_trust_map (verify_and_update_group_trusts t current declarations flag) !! p =
    (if decide (info ∈ current) then entry_of (verify_groups (declared declarations) flag info) else group_trust_map t !! p)) as Hm.
  { apply Hf. intros i (q & _ & Hq)%Hcur Hid. assert (q = p) as -> by by eapply Hkeys. congruence. }
  assert (∀ t, cache_ok t → (name ∈ get_peer_groups t p ↔ ∃ g, group_trust_map t !! p = Some g ∧ is_Some (g !! name))) as Hg.
  { intros t0 H0. unfold get_peer_groups. destruct (H0 p) as [-> _]. destruct (group_trust_map t0 !! p) as [g|]; cbn.
    - rewrite elem_of_group_names. naive_solver.
    - split; [by intros ?%elem_of_nil|naive_solver]. }
  rewrite !Hg by done. rewrite Hm. destruct (decide (p ∈ map ri_peer_id received)) as [Hr|Hr].
  - rewrite decide_True by (apply Hcur; by exists p). rewrite <- verify_groups_spec. unfold entry_of. destruct (decide (verify_groups _ _ _ = ∅)) as [E|E].
    + rewrite E, lookup_empty. split; [naive_solver|by intros []].
    + naive_solver.
  - rewrite (Hg t Ht), decide_False; [done|]. intros (q & Hq & Hs)%Hcur. assert (q = p) as -> by by eapply Hkeys. done.
Qed.

(** A proof made for a group under its secret is accepted for that peer; and the data of
    two peers differ, so a proof accepted for another peer would collide. *)
Theorem group_proof_roundtrip name secret p :
  verify_group (generate_with_proof name secret p) secret p = true ∧
  ∀ q, is_uint 32 p → is_uint 32 q → p ≠ q → group_data name p ≠ group_data name q.
Proof.
  split; [by apply bool_decide_eq_true|]. intros q Hp Hq Hne. unfold group_data.
  intros E%app_inv_head%(app_inv_head [0]). apply Hne. 
  apply (f_equal from_be) in E. rewrite !from_be_to_be, !Z.mod_small in E; done.
Qed.

Section CredentialPeerProperties.

Context {V4Cidr V6Cidr : Type}.
Context (parse_cidr : string → option (IpCidr V4Cidr V6Cidr)).
Context (first4 last4 : V4Cidr → Z) (first6 last6 : V6Cidr → Z).

#[local] Abbreviation extract := (extract_credential_peer_info parse_cidr first4 last4 first6 last6).
#[local] Abbreviation subset := (RouteTable.cidr_is_subset_str parse_cidr first4 last4 first6 last6).

Lemma string_bytes_fit (s : string) : len (string_bytes s) = Z.of_nat (String.length s).
Proof. unfold len, string_bytes. rewrite length_map. f_equal. by induction s; cbn; f_equal. Qed.

(** What is accepted is the sender's own info, with the networks that its credential allows
    and patched bytes. *)
Lemma extract_spec from infos raws credential info raw :
  extract from infos raws credential = Some (Some (info, raw)) →
  ri_peer_id info = from ∧ is_credential_peer_info info = true ∧
  (∃ sent, sent ∈ infos ∧ ri_peer_id sent = from ∧ noise_static_pubkey info = noise_static_pubkey sent ∧
     info_groups info = info_groups sent ∧
     ∀ cidr, cidr ∈ ri_proxy_cidrs info ↔ cidr ∈ ri_proxy_cidrs sent ∧
       ∃ allowed, allowed ∈ tc_allowed_proxy_cidrs credential ∧ subset cidr (text_string allowed) = true) ∧
  ∃ sent_raw, sent_raw ∈ raws ∧
    patch_credential_route_peer_info usize_bits sent_raw (map string_bytes (ri_proxy_cidrs info)) = Some (Ok raw).
Proof.
  unfold extract_credential_peer_info. destruct (list_find _ infos) as [[idx sent]|] eqn:Ef; [|done].
  apply list_find_Some in Ef as (Hs & Hid & _). destruct (raws !! idx) as [raw0|] eqn:Er; [|done]. cbn [mbind option_bind].
  set (info0 := mark_credential_peer _ _). destruct (patch_credential_route_peer_info _ _ _) as [[out|e]|] eqn:Ep; [|done|done].
  intros [= <- <-]. subst info0. split; [done|]. split; [apply rest_flag_set|].
  split; [|exists raw0; split; [by eapply list_elem_of_lookup_2|done]].
  exists sent. split; [by eapply list_elem_of_lookup_2|]. split; [done|].
  split; [apply rest_pubkey_set|]. split; [apply rest_groups_set|]. intros cidr. cbn.
  destruct (tc_allowed_proxy_cidrs credential) as [|a l]; [split; [by intros ?%elem_of_nil|intros (_ & x & Hx & _); by apply elem_of_nil in Hx]|].
  rewrite list_elem_of_filter. unfold is_allowed. rewrite existsb_exists. setoid_rewrite <- list_elem_of_In. naive_solver.
Qed.


End CredentialPeerProperties.

End Trust.

(** * Witnesses *)

(** The fields as a list: the flag, a number that chooses the groups and the credentials,
    and the key. *)
Definition example_groups (kind : Z) : list PeerGroupInfo :=
  if kind =? 1 then [mkGroup [103] (1 :: [115] ++ [103] ++ [0] ++ to_be 4 5); mkGroup [104] [9]] else [].

Definition example_credentials (kind : Z) : list TrustedCredentialPubkeyProof :=
  if kind =? 2 then [mkProof (Some (mkTrusted [7] [[97]] false 100 [] (Some false))) []] else [].

Definition example_fields : RestFields.
Proof.
  refine {|
    rest_noise_static_pubkey r := drop 2 r;
    rest_groups r := example_groups (default 0 (r !! 1%nat));
    rest_trusted_credential_pubkeys r := example_credentials (default 0 (r !! 1%nat));
    rest_is_credential_peer r := default 0 (r !! 0%nat) =? 1;
    rest_set_credential_peer r b := (if b then 1 else 0) :: match r with [] => [] | _ :: l => l end
  |}; intros [|x [|y l]] b; by destruct b.
Defined.

Section Witnesses.

#[local] Existing Instance example_lib.
#[local] Existing Instance example_fields.
#[local] Existing Instance leb_prost.

Definition peer_with (p version : Z) (cidrs : list string) (rest : list Z) : RoutePeerInfo :=
  mkPeerInfo p version 0 (Some false) None None None cidrs 0 None rest.

(** An administrator, two holders of its credential, and a member of a group. *)
Definition example_db : SyncedRouteInfo :=
  mkSynced {[1 := peer_with 1 1 [] [0; 2; 50]; 2 := peer_with 2 1 [] [1; 0; 7]; 3 := peer_with 3 1 [] [1; 0; 7];
             5 := peer_with 5 1 [] [0; 1]]} ∅ ∅ ∅ ∅ 1.

Lemma one_forwarder_per_credential_witness :
  let t' := (refresh_trusts 64 (no_trust example_db) None 10 (λ _, true) (Some 1)).1 in
  holds example_db (trusted_credential_pubkeys t') (λ _, true) [7] 3 ∧
  ∃ owner, non_reusable_credential_owners t' !! [7] = Some owner ∧ owner <= 3 ∧ (3 ∈ si_suppressed (synced t') ↔ 3 ≠ owner ∧ Some 1 ≠ Some 3).
Proof.
  cbn zeta. assert (holds example_db (trusted_credential_pubkeys (refresh_trusts 64 (no_trust example_db) None 10 (λ _, true) (Some 1)).1) (λ _, true) [7] 3) as Hh.
  { split; [done|]. split; [done|]. split; [exists (peer_with 3 1 [] [1; 0; 7]); by split; vm_compute|].
    eexists. split; [vm_compute; reflexivity|reflexivity]. }
  split; [exact Hh|].
  destruct (one_forwarder_per_credential 64 (no_trust example_db) None 10 (λ _, true) (Some 1) [7] 3 Hh) as (o & Ho & _ & Hle & Hs).
  exists o. split; [exact Ho|]. split; [exact Hle|exact Hs].
Defined.

Lemma peer_groups_justified_witness :
  let t := no_trust example_db in
  let declarations := [mkIdentity [103] [115]] in
  [103] ∈ get_peer_groups (verify_and_update_current_group_trusts t [peer_with 5 1 [] []] declarations false) 5 ↔
    justified (declared declarations) false (peer_with 5 1 [] [0; 1]) [103].
Proof.
  cbn zeta.
  pose proof (peer_groups_justified 64 example_db [] [peer_with 5 1 [] []] [mkIdentity [103] [115]] false 5 (peer_with 5 1 [] [0; 1])) as H.
  specialize (H ltac:(vm_compute; reflexivity) eq_refl). cbn [foldl] in H.
  assert (∀ q i, si_peer_infos (synced (no_trust example_db)) !! q = Some i → ri_peer_id i = 5 → q = 5) as Hk.
  { intros q i Hq Hi. cbn in Hq. repeat (apply lookup_insert_Some in Hq as [[<- <-]|[_ Hq]]; [first [done|by vm_compute in Hi]|]).
    apply lookup_singleton_Some in Hq as [<- <-]. done. }
  specialize (H Hk [103]). rewrite decide_True in H by (vm_compute; by left). exact H.
Defined.

Definition example_cidr (s : string) : option (IpCidr (Z * Z) unit) :=
  if decide (s = "2"%string) then Some (CidrV4 (2, 2))
  else if decide (s = "9"%string) then Some (CidrV4 (9, 9))
  else if decide (s = "w"%string) then Some (CidrV4 (1, 5)) else None.

Definition example_grant : TrustedCredentialPubkey := mkTrusted [7] [] false 100 [[119]] None.

Definition example_sent : list RoutePeerInfo := [peer_with 8 1 [] [0; 0]; peer_with 3 1 ["2"; "9"; "x"]%string [0; 0; 7]].


End Witnesses.
