(* ===== verification/RouteService.v ===== *)
(** * The route service

    Models the state of [PeerRouteServiceImpl] in
    easytier-core/src/peers/route/peer_ospf_route.rs and its calls: the rebuild of both
    route tables and of the cached connection bitmap, the maps of foreign network owners,
    the refresh of the credential trust against the rebuilt topology, the renewal of the
    rows of this node (with the choice of the neighbours it advertises), and the removal
    of expired records.  It composes GraphAlgo/RouteTable (tables), LinkState (database),
    CredentialTrust (trust) and RouteSession (sessions).

    What the context and the interface answer are arguments.  A call returns the new
    state, its result and its effects in order; [None] is a panic.

    The theorems say that a rebuild serves the database it was made from, that no
    neighbour is hidden without a relay that advertises it, what the removal of expired
    records keeps, and that the versions of this node's foreign networks never go back. *)

From stdpp Require Import base gmap list numbers strings sets sorting.
From Stdlib Require Import ZArith Lia.
From S2P Require Import Prelude GraphAlgo RouteTable LinkState RouteSession RouteWire Credentials CredentialTrust.
Local Open Scope Z_scope.

(** ** Data *)

Inductive PeerIdentityType : Type := Admin | Credential | SharedNode.

#[export] Instance identity_eq_dec : EqDecision PeerIdentityType.
Proof. solve_decision. Defined.

Record InterfacePeerSnapshot : Type := mkInterface {
  ip_generation : Z;
  ip_peers : gset PeerId;
  ip_identity_types : gmap PeerId (option PeerIdentityType);
  ip_public_keys : gmap PeerId (option (list Z))
}.

(** What the service reads of its [PeerContext], and its own constants. *)
Record RouteContext : Type := mkContext {
  cx_my_peer_id : PeerId;
  cx_my_peer_route_id : Z;
  cx_network_secret : option Text;
  cx_secure_mode : bool;
  cx_prefer_peer_relay : bool;
  cx_declarations : list PeerGroupIdentity;
  cx_foreign_network_interval : Z
}.

(** What a call does outside of its state. *)
Inductive Effect : Type :=
| UpdateTrustedKeys (keys : gmap (list Z) TrustedKeyMetadata)
| ClosePeer (p : PeerId)
| PublicIpv6RouteChange
| SyncNow.

#[export] Instance key_source_eq_dec : EqDecision TrustedKeySource.
Proof. solve_decision. Defined.

#[export] Instance key_metadata_eq_dec : EqDecision TrustedKeyMetadata.
Proof. solve_decision. Defined.

#[export] Instance effect_eq_dec : EqDecision Effect.
Proof. solve_decision. Defined.

(** Nanoseconds. *)
Definition REMOVE_DEAD_PEER_INFO_AFTER : Z := 3660 * 10 ^ 9.
Definition REMOVE_UNREACHABLE_PEER_INFO_AFTER : Z := 90 * 10 ^ 9.

(** ** Foreign networks of this node *)

(** [is_foreign_network_info_newer]. *)
Definition is_foreign_network_info_newer (next prev : ForeignNetworkRouteInfoEntry) : option bool :=
  n ← fe_last_update next; p ← fe_last_update prev; Some (p <? n).

Definition with_foreign (db : SyncedRouteInfo) (m : gmap ForeignKey ForeignNetworkRouteInfoEntry) : SyncedRouteInfo :=
  mkSynced (si_peer_infos db) (si_raw_peer_infos db) (si_conn_map db) m (si_suppressed db) (si_version db).

Definition entry_at (e : ForeignNetworkRouteInfoEntry) (peers : list PeerId) (last_update : option Z) (version : Version)
    : ForeignNetworkRouteInfoEntry :=
  mkForeign peers last_update version (fe_network_secret_digest e) (fe_my_peer_id_for_this_network e).

Definition next_version (v now_version : Version) : Version := Z.max (wrapping_add 32 v 1) now_version.

(** The round of the first loop for a stored entry of this node; the assertion is [None]. *)
Definition renew_stored (now now_version : Z)
    (st : gmap ForeignKey ForeignNetworkRouteInfoEntry * gmap ForeignKey ForeignNetworkRouteInfoEntry * bool)
    (kv : ForeignKey * ForeignNetworkRouteInfoEntry)
    : option (gmap ForeignKey ForeignNetworkRouteInfoEntry * gmap ForeignKey ForeignNetworkRouteInfoEntry * bool) :=
  let '(stored, fresh, updated) := st in
  let '(key, entry) := kv in
  match fresh !! key with
  | Some new =>
      if decide (fe_foreign_peer_ids new = []) then None
      else
        match is_foreign_network_info_newer new entry with
        | Some is_newer =>
            let age := default 0 (last ← fe_last_update entry; if last <=? now then Some (now - last) else None) in
            if is_newer || (UPDATE_PEER_INFO_PERIOD <? age)
            then Some (<[key := entry_at new (fe_foreign_peer_ids new) (fe_last_update new) (next_version (fe_version new) now_version)]> stored,
                       delete key fresh, true)
            else Some (stored, delete key fresh, updated)
        | None => Some (stored, delete key fresh, updated)
        end
  | None =>
      match fe_foreign_peer_ids entry with
      | [] => Some (stored, fresh, updated)
      | _ => Some (<[key := entry_at entry [] (Some now) (next_version (fe_version entry) now_version)]> stored, fresh, true)
      end
  end.

(** The round of the second loop, for an entry that was not stored for this node. *)
Definition insert_fresh (now_version : Z)
    (st : gmap ForeignKey ForeignNetworkRouteInfoEntry * bool) (kv : ForeignKey * ForeignNetworkRouteInfoEntry)
    : option (gmap ForeignKey ForeignNetworkRouteInfoEntry * bool) :=
  let '(stored, _) := st in
  let '(key, new) := kv in
  if decide (fe_foreign_peer_ids new = []) then None
  else
    Some (match stored !! key with
          | Some old => if fe_version old <? fe_version new then <[key := new]> stored else stored
          | None => <[key := entry_at new (fe_foreign_peer_ids new) (fe_last_update new) now_version]> stored
          end, true).

(** [SyncedRouteInfo::update_my_foreign_network]; [listed] is what the interface lists. *)
Definition update_my_foreign_network_entries `{!HashIter} (db : SyncedRouteInfo) (my_peer_id : PeerId)
    (listed : gmap ForeignKey ForeignNetworkRouteInfoEntry) (now : Z) : option (SyncedRouteInfo * bool) :=
  let now_version := wrap 32 (now / 10 ^ 9) in
  r ← try_fold (renew_stored now now_version)
        (filter (λ kv, kv.1.1 = my_peer_id) (iter (si_foreign_network db))) (si_foreign_network db, listed, false);
  let '(stored, fresh, updated) := r in
  r ← try_fold (insert_fresh now_version) (iter fresh) (stored, updated);
  let '(stored, updated) := r in
  Some (inc_version_if updated (with_foreign db stored), updated).

(** ** The service *)

Section Service.

Context (usize_bits : Z) (default_rest : list Z).
Context {CL : CredentialLib} {RF : RestFields} {HI : HashIter} {PR : Prost}.
Context {V4Cidr V6Cidr : Type} `{Countable V4Cidr, Countable V6Cidr}.
Context (parse_cidr : string → option (IpCidr V4Cidr V6Cidr)).
Context (first4 last4 : V4Cidr → Z) (first6 last6 : V6Cidr → Z).
Context {G : Type} `{!PetGraph G}.
Context `{!BinaryHeap (A := MinScored Z nat) cmp}.
Context (pet_dijkstra : G → nat → (GraphEdge → Z) → gmap nat Z).
Context (calculate_cost : PeerId → PeerId → Z).

Abbreviation Table := (OspfRouteTable V4Cidr V6Cidr).

(** The maps of foreign network owners have identities (name and digest) and pairs of a
    network name and a peer as keys. *)
Record PeerRouteService : Type := mkService {
  sv_trust : SyncedTrust;
  sv_table : Table;
  sv_table_with_cost : Table;
  sv_owner_map : gmap (string * list Z) (list PeerId);
  sv_my_peer_id_map : gmap (string * PeerId) PeerId;
  sv_sessions : Sessions;
  sv_bitmap : RouteConnBitmap;
  sv_bitmap_version : Version;
  sv_interface : InterfacePeerSnapshot;
  sv_generation : Z;
  sv_applied_generation : Z;
  sv_applied_peers : gset PeerId;
  sv_withdrawn : bool;
  sv_last_foreign_update : option Z
}.

Implicit Types (sv : PeerRouteService) (cx : RouteContext).

Definition sv_db sv : SyncedRouteInfo := synced (sv_trust sv).

Definition set_trust sv (t : SyncedTrust) : PeerRouteService :=
  mkService t (sv_table sv) (sv_table_with_cost sv) (sv_owner_map sv) (sv_my_peer_id_map sv) (sv_sessions sv)
    (sv_bitmap sv) (sv_bitmap_version sv) (sv_interface sv) (sv_generation sv) (sv_applied_generation sv)
    (sv_applied_peers sv) (sv_withdrawn sv) (sv_last_foreign_update sv).

Definition set_db sv (db : SyncedRouteInfo) : PeerRouteService := set_trust sv (with_synced (sv_trust sv) db).

Definition set_tables sv (t t' : Table) : PeerRouteService :=
  mkService (sv_trust sv) t t' (sv_owner_map sv) (sv_my_peer_id_map sv) (sv_sessions sv)
    (sv_bitmap sv) (sv_bitmap_version sv) (sv_interface sv) (sv_generation sv) (sv_applied_generation sv)
    (sv_applied_peers sv) (sv_withdrawn sv) (sv_last_foreign_update sv).

Definition set_owners sv o m : PeerRouteService :=
  mkService (sv_trust sv) (sv_table sv) (sv_table_with_cost sv) o m (sv_sessions sv)
    (sv_bitmap sv) (sv_bitmap_version sv) (sv_interface sv) (sv_generation sv) (sv_applied_generation sv)
    (sv_applied_peers sv) (sv_withdrawn sv) (sv_last_foreign_update sv).

Definition set_sessions sv (s : Sessions) : PeerRouteService :=
  mkService (sv_trust sv) (sv_table sv) (sv_table_with_cost sv) (sv_owner_map sv) (sv_my_peer_id_map sv) s
    (sv_bitmap sv) (sv_bitmap_version sv) (sv_interface sv) (sv_generation sv) (sv_applied_generation sv)
    (sv_applied_peers sv) (sv_withdrawn sv) (sv_last_foreign_update sv).

Definition set_bitmap sv b v : PeerRouteService :=
  mkService (sv_trust sv) (sv_table sv) (sv_table_with_cost sv) (sv_owner_map sv) (sv_my_peer_id_map sv) (sv_sessions sv)
    b v (sv_interface sv) (sv_generation sv) (sv_applied_generation sv)
    (sv_applied_peers sv) (sv_withdrawn sv) (sv_last_foreign_update sv).

(** The cached snapshot of the interface and its generations. *)
Definition set_interface sv i generation applied_generation applied_peers : PeerRouteService :=
  mkService (sv_trust sv) (sv_table sv) (sv_table_with_cost sv) (sv_owner_map sv) (sv_my_peer_id_map sv) (sv_sessions sv)
    (sv_bitmap sv) (sv_bitmap_version sv) i generation applied_generation applied_peers (sv_withdrawn sv)
    (sv_last_foreign_update sv).

Definition set_foreign_update sv (now : Z) : PeerRouteService :=
  mkService (sv_trust sv) (sv_table sv) (sv_table_with_cost sv) (sv_owner_map sv) (sv_my_peer_id_map sv) (sv_sessions sv)
    (sv_bitmap sv) (sv_bitmap_version sv) (sv_interface sv) (sv_generation sv) (sv_applied_generation sv)
    (sv_applied_peers sv) (sv_withdrawn sv) (Some now).

(** [PeerRouteServiceImpl::new]. *)
Definition new_service : PeerRouteService :=
  mkService (no_trust (mkSynced ∅ ∅ ∅ ∅ ∅ 0)) RouteTable.new RouteTable.new ∅ ∅ no_sessions (mkBitmap [] []) 0
    (mkInterface 0 ∅ ∅ ∅) 1 0 ∅ false None.

Definition is_credential_node cx : bool :=
  match cx_network_secret cx with None => cx_secure_mode cx | Some _ => false end.

Definition peer_relay_projection_enabled cx : bool := cx_prefer_peer_relay cx && negb (is_credential_node cx).

(** *** The tables *)

(** Of the first row of [my_peer_id]. *)
Definition replace_row (my_peer_id : PeerId) (connected : gset PeerId) (rows : list (PeerId * gset PeerId))
    : list (PeerId * gset PeerId) :=
  match list_find (λ row, row.1 = my_peer_id) rows with
  | Some (i, _) => <[i := (my_peer_id, connected)]> rows
  | None => rows
  end.

Definition local_route_snapshot cx sv : OspfRouteSnapshot :=
  let s := route_snapshot (sv_db sv) in
  if negb (peer_relay_projection_enabled cx) && negb (sv_withdrawn sv) then s
  else mkSnapshot (RouteTable.peer_infos s) (replace_row (cx_my_peer_id cx) (ip_peers (sv_interface sv)) (conn_map s))
         (suppressed_peer_ids s) (snapshot_version s).

Abbreviation build := (build_from_snapshot usize_bits parse_cidr first4 last4 first6 last6 pet_dijkstra calculate_cost).

Definition update_route_table cx sv : option PeerRouteService :=
  let s := local_route_snapshot cx sv in
  t ← build (sv_table sv) (cx_my_peer_id cx) s LeastHop;
  t' ← build (sv_table_with_cost sv) (cx_my_peer_id cx) s LeastCost;
  Some (set_tables sv t t').

Definition update_route_table_and_cached_local_conn_bitmap cx sv : option PeerRouteService :=
  sv ← update_route_table cx sv;
  let synced_version := si_version (sv_db sv) in
  b ← build_conn_bitmap (sv_db sv) (topology_peer_reachable (sv_table sv));
  if sv_bitmap_version sv <? synced_version then Some (set_bitmap sv b synced_version) else Some sv.

(** *** The owners of foreign networks *)

(** [try_into().unwrap_or_default()] to an array of 32 bytes. *)
Definition digest_array (l : list Z) : list Z := if (length l =? 32)%nat then l else replicate 32 0.

Definition add_foreign_owner cx sv (st : gmap (string * list Z) (list PeerId) * gmap (string * PeerId) PeerId)
    (item : ForeignKey * ForeignNetworkRouteInfoEntry) : gmap (string * list Z) (list PeerId) * gmap (string * PeerId) PeerId :=
  let '(owners, mine) := st in
  let '((p, name), entry) := item in
  if (p =? cx_my_peer_id cx) || negb (peer_reachable (sv_table sv) p) || bool_decide (fe_foreign_peer_ids entry = []) then st
  else
    let identity := (name, digest_array (fe_network_secret_digest entry)) in
    let q := fe_my_peer_id_for_this_network entry in
    (<[identity := default [] (owners !! identity) ++ [q]]> owners, <[(name, q) := p]> mine).

Definition update_foreign_network_owner_map cx sv : PeerRouteService :=
  let '(owners, mine) := foldl (add_foreign_owner cx sv) (∅, ∅) (iter (si_foreign_network (sv_db sv))) in
  set_owners sv owners mine.

(** *** Credential trust *)

(** [refresh_credential_trusts], where every peer counts as active. *)
Definition refresh_credential_trusts cx sv (now_unix : Z) : PeerRouteService * list PeerId * list Effect :=
  let '(t, (untrusted, keys, _)) :=
    refresh_trusts usize_bits (sv_trust sv) (cx_network_secret cx) now_unix (λ _, true) (Some (cx_my_peer_id cx)) in
  (set_trust sv t, untrusted, [UpdateTrustedKeys keys]).

Definition refresh_credential_trusts_with_current_topology cx sv (now_unix : Z)
    : option (PeerRouteService * list PeerId * list Effect) :=
  sv ← update_route_table_and_cached_local_conn_bitmap cx sv;
  let is_active p := (p =? cx_my_peer_id cx) || topology_peer_reachable (sv_table sv) p in
  let '(t, (untrusted, keys, suppressed_changed)) :=
    refresh_trusts usize_bits (sv_trust sv) (cx_network_secret cx) now_unix is_active (Some (cx_my_peer_id cx)) in
  let sv := set_trust sv t in
  sv ← (if negb (bool_decide (untrusted = [])) || suppressed_changed
        then update_route_table_and_cached_local_conn_bitmap cx sv else Some sv);
  Some (sv, untrusted, [UpdateTrustedKeys keys]).

(** The connections that [disconnect_untrusted_peers] closes. *)
Definition disconnect_untrusted_peers (untrusted : list PeerId) : list Effect := map ClosePeer untrusted.

Definition refresh_credential_trusts_and_disconnect cx sv (now_unix : Z) : option (PeerRouteService * bool * list Effect) :=
  r ← refresh_credential_trusts_with_current_topology cx sv now_unix;
  let '(sv, untrusted, effects) := r in
  Some (sv, negb (bool_decide (untrusted = [])), effects ++ disconnect_untrusted_peers untrusted).

(** *** The neighbours and the rows of this node *)

Definition is_credential_neighbour (i : InterfacePeerSnapshot) (p : PeerId) : bool :=
  bool_decide (ip_identity_types i !! p = Some (Some Credential)).

Definition is_eligible_relay sv (i : InterfacePeerSnapshot) (p : PeerId) : bool :=
  is_credential_neighbour i p && negb (bool_decide (p ∈ si_suppressed (sv_db sv))) &&
  match ip_public_keys i !! p with
  | Some (Some public_key) =>
      negb (LinkState.get_avoid_relay_data (sv_db sv) p) &&
      match get_credential_info_by_pubkey (sv_trust sv) public_key with Some c => tc_allow_relay c | None => false end
  | _ => false
  end.

Definition eligible_relays sv (i : InterfacePeerSnapshot) : gset PeerId :=
  filter (λ p, is_eligible_relay sv i p = true) (ip_peers i).

Definition is_covered_target sv (i : InterfacePeerSnapshot) (q : PeerId) : bool :=
  bool_decide (q ∈ ip_peers i) && is_credential_neighbour i q && negb (bool_decide (q ∈ eligible_relays sv i)) &&
  negb (bool_decide (q ∈ si_suppressed (sv_db sv))).

Definition covered_targets sv (i : InterfacePeerSnapshot) : gset PeerId :=
  foldl (λ covered relay,
    match si_conn_map (sv_db sv) !! relay with
    | None => covered
    | Some c => covered ∪ filter (λ q, is_covered_target sv i q = true) (ci_connected_peers c)
    end) ∅ (btree_iter (eligible_relays sv i)).

Definition derive_advertised_connected_peers cx sv (i : InterfacePeerSnapshot) : gset PeerId :=
  if sv_withdrawn sv then ∅
  else if negb (peer_relay_projection_enabled cx) then ip_peers i
  else if decide (eligible_relays sv i = ∅) then ip_peers i
  else ip_peers i ∖ covered_targets sv i.

Definition reconcile_my_conn_info cx sv (i : InterfacePeerSnapshot) (interface_snapshot_changed : bool) (now : Z)
    : PeerRouteService * bool :=
  let '(db, updated) :=
    LinkState.update_my_conn_info default_rest (sv_db sv) (cx_my_peer_id cx) (derive_advertised_connected_peers cx sv i) now in
  let sv := set_db sv db in
  if updated then (sv, true)
  else if interface_snapshot_changed && peer_relay_projection_enabled cx then (set_db sv (inc_version db), true)
  else (sv, false).

(** What the interface answers in one query. *)
Record Interface : Type := mkAnswers {
  an_peers : list PeerId;
  an_identity : PeerId → option PeerIdentityType;
  an_public_key : PeerId → option (list Z)
}.

Definition interface_peer_snapshot_uncached cx (a : Interface) : InterfacePeerSnapshot :=
  let peers : gset PeerId := list_to_set (an_peers a) in
  mkInterface 0 peers (set_to_map (λ p, (p, an_identity a p)) peers)
    (if peer_relay_projection_enabled cx then set_to_map (λ p, (p, an_public_key a p)) peers else ∅).

Definition mark_interface_peers_dirty sv : PeerRouteService :=
  set_interface sv (sv_interface sv) (wrapping_add 64 (sv_generation sv) 1) (sv_applied_generation sv) (sv_applied_peers sv).

(** The rounds of [interface_peer_snapshot]: what the interface answers, and how often the
    peers are marked dirty meanwhile; [None] when the last round was not enough. *)
Fixpoint interface_peer_snapshot cx sv (rounds : list (Interface * nat)) : option (PeerRouteService * InterfacePeerSnapshot) :=
  if ip_generation (sv_interface sv) =? sv_generation sv then Some (sv, sv_interface sv)
  else
    match rounds with
    | [] => None
    | (answers, marks) :: rounds =>
        let sv' := Nat.iter marks mark_interface_peers_dirty sv in
        if sv_generation sv =? sv_generation sv' then
          let i := interface_peer_snapshot_uncached cx answers in
          let i := mkInterface (sv_generation sv') (ip_peers i) (ip_identity_types i) (ip_public_keys i) in
          Some (set_interface sv' i (sv_generation sv') (sv_applied_generation sv') (sv_applied_peers sv'), i)
        else interface_peer_snapshot cx sv' rounds
    end.

(** [update_my_conn_info] of the service; [requery] is [need_periodic_requery_peers]. *)
Definition update_my_connections cx sv (requery : bool) (rounds : list (Interface * nat)) (now : Z)
    : option (PeerRouteService * bool) :=
  let cached := sv_interface sv in
  let need_peer_relay_metadata := peer_relay_projection_enabled cx && negb (size (ip_public_keys cached) =? size (ip_peers cached))%nat in
  let applied := sv_applied_generation sv =? sv_generation sv in
  if applied && negb requery && negb need_peer_relay_metadata then Some (reconcile_my_conn_info cx sv cached false now)
  else
    let sv := if applied then mark_interface_peers_dirty sv else sv in
    r ← interface_peer_snapshot cx sv rounds;
    let '(sv, i) := r in
    let changed := negb (bool_decide (sv_applied_peers sv = ip_peers i)) in
    let sv := set_interface sv (sv_interface sv) (sv_generation sv) (sv_applied_generation sv) (ip_peers i) in
    let '(sv, updated) := reconcile_my_conn_info cx sv i changed now in
    Some (set_interface sv (sv_interface sv) (sv_generation sv) (ip_generation i) (sv_applied_peers sv), updated).

(** [update_my_foreign_network] of the service. *)
Definition update_my_foreign_networks cx sv (listed : gmap ForeignKey ForeignNetworkRouteInfoEntry) (now : Z)
    : option (PeerRouteService * bool) :=
  let recent := match sv_last_foreign_update sv with
                | Some last => Z.max 0 (now - last) / 10 ^ 9 <? cx_foreign_network_interval cx
                | None => false
                end in
  if recent then Some (sv, false)
  else
    let sv := set_foreign_update sv now in
    r ← update_my_foreign_network_entries (sv_db sv) (cx_my_peer_id cx) listed now;
    let '(db, updated) := r in
    Some (set_db sv db, updated).

(** [ipv6] is the answer of the public IPv6 service, if there is one. *)
Definition notify_public_ipv6_route_change (ipv6 : option bool) : bool * list Effect :=
  match ipv6 with Some changed => (changed, [PublicIpv6RouteChange]) | None => (false, []) end.

(** What a round learns from its surroundings. *)
Record Surroundings : Type := mkSurroundings {
  su_my_info : RoutePeerInfo;
  su_requery : bool;
  su_rounds : list (Interface * nat);
  su_listed : gmap ForeignKey ForeignNetworkRouteInfoEntry;
  su_ipv6 : option bool;
  su_now : Z;
  su_now_unix : Z
}.

Definition update_my_infos cx sv (su : Surroundings) : option (PeerRouteService * bool * list Effect) :=
  let '(t, info_updated) := update_my_info_and_groups (sv_trust sv) (cx_my_peer_id cx) (su_my_info su) (su_now su) in
  let sv := set_trust sv t in
  r ← update_my_connections cx sv (su_requery su) (su_rounds su) (su_now su);
  let '(sv, conn_updated) := r in
  r ← update_my_foreign_networks cx sv (su_listed su) (su_now su);
  let '(sv, foreign_updated) := r in
  r ← (if info_updated || conn_updated then refresh_credential_trusts_and_disconnect cx sv (su_now_unix su)
       else Some (sv, false, []));
  let '(sv, untrusted_changed, effects) := r in
  r ← (if info_updated || conn_updated || untrusted_changed then
         sv ← update_route_table_and_cached_local_conn_bitmap cx sv;
         let '(changed, notified) := notify_public_ipv6_route_change (su_ipv6 su) in
         Some (update_foreign_network_owner_map cx sv, changed, effects ++ notified)
       else Some (sv, false, effects));
  let '(sv, ipv6_updated, effects) := r in
  Some (sv, info_updated || conn_updated || foreign_updated || ipv6_updated, effects).

Definition refresh_acl_groups cx sv (su : Surroundings) : option (PeerRouteService * bool * list Effect) :=
  let '(t, info_updated) := update_my_info_and_groups (sv_trust sv) (cx_my_peer_id cx) (su_my_info su) (su_now su) in
  let without_proof := match cx_network_secret cx with None => true | Some _ => false end in
  let sv := set_trust sv (verify_and_update_all_current_group_trusts t (cx_declarations cx) without_proof) in
  r ← refresh_credential_trusts_with_current_topology cx sv (su_now_unix su);
  let '(sv, untrusted, effects) := r in
  let effects := effects ++ disconnect_untrusted_peers untrusted in
  let removed := negb (bool_decide (untrusted = [])) in
  r ← (if info_updated || removed then
         sv ← update_route_table_and_cached_local_conn_bitmap cx sv;
         let '(changed, notified) := notify_public_ipv6_route_change (su_ipv6 su) in
         Some (update_foreign_network_owner_map cx sv, changed, effects ++ notified)
       else Some (sv, false, effects));
  let '(sv, ipv6_updated, effects) := r in
  Some (sv, info_updated || removed || ipv6_updated, effects).

(** *** Expired records *)

(** An info without a time panics. *)
Definition info_expired sv (now : Z) (p : PeerId) (info : RoutePeerInfo) : option bool :=
  last ← ri_last_update info;
  let d := now - last in
  Some ((last <=? now) &&
        ((REMOVE_DEAD_PEER_INFO_AFTER <? d) ||
         ((REMOVE_UNREACHABLE_PEER_INFO_AFTER <? d) && negb (topology_peer_reachable (sv_table sv) p)))).

Definition expired_peers sv (now : Z) : option (gset PeerId) :=
  try_fold (λ s (kv : PeerId * RoutePeerInfo),
    expired ← info_expired sv now kv.1 kv.2; Some (if expired : bool then {[kv.1]} ∪ s else s))
    (iter (si_peer_infos (sv_db sv))) ∅.

Definition foreign_expired (now : Z) (e : ForeignNetworkRouteInfoEntry) : bool :=
  match fe_last_update e with
  | Some last => if last <=? now then REMOVE_DEAD_PEER_INFO_AFTER <? now - last else true
  | None => true
  end.

Definition clear_expired_peer cx sv (now now_unix : Z) : option (PeerRouteService * list Effect) :=
  expired ← expired_peers sv now;
  let t := remove_trusted_peers (sv_trust sv) expired in
  let db := with_foreign (synced t) (filter (λ kv, foreign_expired now kv.2 = false) (si_foreign_network (synced t))) in
  let sv := set_trust sv (with_synced t db) in
  r ← refresh_credential_trusts_and_disconnect cx sv now_unix;
  let '(sv, _, effects) := r in
  Some (set_tables sv (clean_expired_route_info (sv_table sv)) (clean_expired_route_info (sv_table_with_cost sv)), effects).

(** * Properties *)

(** The snapshot a call works with was taken after the last mark. *)
Lemma interface_snapshot_current cx rounds sv sv' i :
  interface_peer_snapshot cx sv rounds = Some (sv', i) → ip_generation i = sv_generation sv' ∧ sv_interface sv' = i.
Proof.
  revert sv. induction rounds as [|[answers marks] rounds IH]; intros sv; cbn [interface_peer_snapshot];
    (destruct (Z.eqb_spec (ip_generation (sv_interface sv)) (sv_generation sv)); [by intros [= <- <-]|]); [done|].
  destruct (sv_generation sv =? _); [by intros [= <- <-]|]. apply IH.
Qed.

(** ** Tables *)

Lemma gen_least_cost_suppressed (t t' : Table) (g : G) start v :
  gen_next_hop_map_with_least_cost usize_bits t g start v = Some t' → t_suppressed t' = t_suppressed t.
Proof.
  unfold gen_next_hop_map_with_least_cost. destruct (negb _); [by intros [= <-]|].
  destruct (dijkstra_with_first_hop _ _ _ _ _ _) as [[costs nh]|]; [|done]. cbn.
  destruct (try_fold _ _ _); [|done]. by intros [= <-].
Qed.

Lemma build_suppressed (t t' : Table) my s policy : build t my s policy = Some t' → t_suppressed t' = suppressed_peer_ids s.
Proof.
  unfold build_from_snapshot. destruct (build_peer_graph_from_snapshot _ _ my s) as [[g start]|]; [|done]. cbn.
  destruct (_ =? 0)%nat; [intros [= <-]; exact (sync_suppressed_spec usize_bits calculate_cost t s)|].
  destruct start as [start|]; [|intros E; injection E as <-; exact (sync_suppressed_spec usize_bits calculate_cost t s)].
  destruct (match policy with LeastHop => _ | LeastCost => _ end) as [t2|] eqn:E; [|done]. cbn. intros [= <-].
  rewrite (proj2 (fill_same _ _ _ _ _ _ _ _ 0)). rewrite <- (sync_suppressed_spec usize_bits calculate_cost t s). destruct policy.
  - unfold gen_next_hop_map_with_least_hop in E. destruct (negb _); [by injection E as <-|].
    destruct (try_fold _ _ _) as [sub|]; [|done]. cbn in E. by apply gen_least_cost_suppressed in E.
  - by apply gen_least_cost_suppressed in E.
Qed.

Lemma suppressed_unreachable (t : Table) p : p ∈ t_suppressed t → peer_reachable t p = false.
Proof. intros Hp. unfold peer_reachable, get_next_hop. by rewrite decide_True. Qed.

(** The state behind the tables, which a rebuild leaves alone, and the tables after it. *)
Definition rebuilt sv sv' : Prop :=
  sv_trust sv' = sv_trust sv ∧ sv_sessions sv' = sv_sessions sv ∧ sv_interface sv' = sv_interface sv ∧
  t_suppressed (sv_table sv') = si_suppressed (sv_db sv) ∧ t_suppressed (sv_table_with_cost sv') = si_suppressed (sv_db sv).

Lemma update_tables_rebuilt cx sv sv' : update_route_table cx sv = Some sv' → rebuilt sv sv'.
Proof.
  unfold update_route_table. destruct (build (sv_table sv) _ _ _) as [t|] eqn:E1; [|done]. cbn.
  destruct (build (sv_table_with_cost sv) _ _ _) as [t'|] eqn:E2; [|done]. intros [= <-].
  apply build_suppressed in E1, E2. unfold rebuilt. cbn. rewrite E1, E2. unfold local_route_snapshot. by destruct (_ && _).
Qed.

Lemma update_all_rebuilt cx sv sv' : update_route_table_and_cached_local_conn_bitmap cx sv = Some sv' → rebuilt sv sv'.
Proof.
  unfold update_route_table_and_cached_local_conn_bitmap. destruct (update_route_table cx sv) as [sv1|] eqn:E; [|done]. cbn.
  apply update_tables_rebuilt in E. destruct (build_conn_bitmap _ _) as [b|]; [|done]. cbn.
  destruct (_ <? _); intros [= <-]; [|done]. unfold rebuilt in *. cbn. exact E.
Qed.

(** What a refresh does: a refresh of the trust between rebuilds. *)
Lemma refresh_service_spec cx sv now sv' untrusted effects :
  refresh_credential_trusts_with_current_topology cx sv now = Some (sv', untrusted, effects) →
  ∃ active,
    let r := refresh_trusts usize_bits (sv_trust sv) (cx_network_secret cx) now active (Some (cx_my_peer_id cx)) in
    sv_trust sv' = r.1 ∧ untrusted = r.2.1.1 ∧ effects = [UpdateTrustedKeys r.2.1.2] ∧ sv_sessions sv' = sv_sessions sv ∧
    t_suppressed (sv_table sv') = si_suppressed (sv_db sv') ∧ t_suppressed (sv_table_with_cost sv') = si_suppressed (sv_db sv').
Proof.
  unfold refresh_credential_trusts_with_current_topology.
  destruct (update_route_table_and_cached_local_conn_bitmap cx sv) as [sv1|] eqn:E1; [|done]. cbn.
  apply update_all_rebuilt in E1 as (Et & Es & _ & Ht & Htc). rewrite Et. set (active := λ p, _ || _).
  destruct (refresh_trusts _ _ _ _ active _) as [t [[u keys] changed]] eqn:Er. cbn.
  destruct (if negb (bool_decide (u = [])) || changed then _ else _) as [sv2|] eqn:E2; [|done]. intros [= <- <- <-].
  exists active. cbn zeta. rewrite Er. cbn. destruct (negb (bool_decide (u = [])) || changed) eqn:Eb.
  - apply update_all_rebuilt in E2 as (Et2 & Es2 & _ & Ht2 & Htc2). cbn in *. unfold sv_db in *. rewrite Et2, Es2, Ht2, Htc2. done.
  - injection E2 as <-. cbn. repeat (split; [done|]). apply orb_false_iff in Eb as [Eu ->].
    apply negb_false_iff, bool_decide_eq_true in Eu as ->. unfold sv_db in *. rewrite Ht, Htc. cbn.
    assert (si_suppressed (synced t) = si_suppressed (synced (sv_trust sv))) as ->; [|done].
    unfold refresh_trusts in Er. destruct (collect_trusted_credentials _ _ _ _) as [trusted keys0].
    destruct (collect_non_reusable_credential_owners _ _ _) as [owners dups].
    pose proof (replace_suppressed_spec (synced (sv_trust sv)) (unprotected dups (Some (cx_my_peer_id cx)))) as Hs.
    destruct (replace_suppressed_non_reusable_credential_peers _ _) as [db ch]. injection Er as <- Eu _ ->.
    destruct Hs as (Hs & _ & _ & _ & _ & Hch). symmetry in Hch. apply negb_false_iff, bool_decide_eq_true in Hch.
    match goal with |- context [remove_trusted_peers ?x ?y] => destruct (removed_fields x y) as (_ & _ & _ & _ & _ & _ & -> & _) end.
    match goal with |- context [update_credential_groups ?x ?y] => destruct (credential_groups_fields x y) as (-> & _) end.
    cbn. congruence.
Qed.

(** The peers it reports are gone from the database, and nothing else is. *)
Lemma refresh_removes cx sv now sv' untrusted effects :
  refresh_credential_trusts_with_current_topology cx sv now = Some (sv', untrusted, effects) →
  (∀ p, si_peer_infos (sv_db sv') !! p = if bool_decide (p ∈ untrusted) then None else si_peer_infos (sv_db sv) !! p) ∧
  (∀ p, si_conn_map (sv_db sv') !! p = if bool_decide (p ∈ untrusted) then None else si_conn_map (sv_db sv) !! p) ∧
  (∀ key, si_foreign_network (sv_db sv') !! key = if bool_decide (key.1 ∈ untrusted) then None else si_foreign_network (sv_db sv) !! key).
Proof.
  intros (active & Et & -> & _)%refresh_service_spec.
  destruct (refresh_spec usize_bits (sv_trust sv) (cx_network_secret cx) now active (Some (cx_my_peer_id cx)))
    as (t1 & revoked & E & -> & _ & Ei & _ & Ec & Ef & _). destruct (removed_fields t1 revoked) as (R1 & _ & R3 & R4 & _).
  assert (∀ p, bool_decide (p ∈ btree_iter revoked) = bool_decide (p ∈ revoked)) as Hb by (intros p; apply bool_decide_ext, set_btree_iter).
  unfold sv_db. rewrite Et, E. split_and!; intros x; rewrite Hb; [by rewrite R1, Ei|by rewrite R3, Ec|by rewrite R4, Ef].
Qed.

(** Once the trust is refreshed, both tables agree with the database on who is
    suppressed, so no packet is routed to a peer that lost the election for its
    non-reusable credential; and no key of the peers removed is trusted. *)
Theorem refresh_hides_suppressed cx sv now sv' untrusted effects p :
  refresh_credential_trusts_with_current_topology cx sv now = Some (sv', untrusted, effects) →
  (p ∈ si_suppressed (sv_db sv') → peer_reachable (sv_table sv') p = false ∧ peer_reachable (sv_table_with_cost sv') p = false) ∧
  (p ∈ untrusted → si_peer_infos (sv_db sv') !! p = None ∧ si_conn_map (sv_db sv') !! p = None ∧
     ∃ info, si_peer_infos (sv_db sv) !! p = Some info ∧
       get_credential_info_by_pubkey (sv_trust sv') (noise_static_pubkey info) = None).
Proof.
  intros (active & Et & Eu & _ & _ & Ht & Htc)%refresh_service_spec. split.
  - intros Hp. split; apply suppressed_unreachable; congruence.
  - destruct (refresh_spec usize_bits (sv_trust sv) (cx_network_secret cx) now active (Some (cx_my_peer_id cx)))
      as (t1 & revoked & E & Er & Erev & _). cbn zeta in *. rewrite Eu, Er. intros Hp%set_btree_iter. unfold sv_db. rewrite Et.
    pose proof Hp as Hl. rewrite Erev in Hl.
    apply (revoked_spec _ _ _ _ _ (refresh_trusted usize_bits (sv_trust sv) _ now active (Some (cx_my_peer_id cx)))) in Hl
      as (_ & info & Hi & _ & Hne & _ & Hnone).
    destruct (removed_fields t1 revoked) as (R1 & _ & R3 & _). split_and!.
    + rewrite E, R1. by rewrite bool_decide_true.
    + rewrite E, R3. by rewrite bool_decide_true.
    + exists info. split; [exact Hi|]. unfold get_credential_info_by_pubkey. by destruct (noise_static_pubkey info).
Qed.

(** ** Expired records *)

Lemma expired_spec sv now s : expired_peers sv now = Some s →
  (∀ p, p ∈ s ↔ ∃ info, si_peer_infos (sv_db sv) !! p = Some info ∧ info_expired sv now p info = Some true) ∧
  (∀ p info, si_peer_infos (sv_db sv) !! p = Some info → is_Some (info_expired sv now p info)).
Proof.
  intros E. unfold expired_peers in E. setoid_rewrite <- (iter_elem (si_peer_infos (sv_db sv))).
  revert E. apply (try_fold_pres (λ l s, (∀ p, p ∈ s ↔ ∃ info, (p, info) ∈ l ∧ info_expired sv now p info = Some true) ∧
    (∀ p info, (p, info) ∈ l → is_Some (info_expired sv now p info)))).
  - split; [|by intros p info ?%elem_of_nil]. intros p. split; [by intros ?%elem_of_empty|]. intros (info & Hin & _). by apply elem_of_nil in Hin.
  - intros l [q info] m m' _ [IH1 IH2]. cbn. destruct (info_expired sv now q info) as [b|] eqn:Eb; [|done]. cbn. intros [= <-].
    setoid_rewrite elem_of_app. setoid_rewrite list_elem_of_singleton. split.
    + intros p. destruct b; [rewrite elem_of_union, elem_of_singleton, IH1|rewrite IH1]; split.
      * intros [->|(i & Hi & He)]; [exists info; auto|exists i; auto].
      * intros (i & [Hi|[= -> ->]] & He); [right; by exists i|by left].
      * intros (i & Hi & He). exists i. auto.
      * intros (i & [Hi|[= -> ->]] & He); [by exists i|congruence].
    + intros p i [Hi|[= -> ->]]; [by eapply IH2|by rewrite Eb].
Qed.

Lemma close_peer_elem p keys l : ClosePeer p ∈ [UpdateTrustedKeys keys] ++ disconnect_untrusted_peers l ↔ p ∈ l.
Proof.
  unfold disconnect_untrusted_peers. rewrite elem_of_app, list_elem_of_singleton, list_elem_of_fmap. split.
  - intros [?|(q & [= ->] & Hq)]; done.
  - intros Hp. right. by exists p.
Qed.

(** The records of a peer that a refresh followed by a disconnection leaves. *)
Lemma refresh_disconnect_spec cx sv now sv' b effects :
  refresh_credential_trusts_and_disconnect cx sv now = Some (sv', b, effects) →
  (∀ p, si_peer_infos (sv_db sv') !! p = if bool_decide (ClosePeer p ∈ effects) then None else si_peer_infos (sv_db sv) !! p) ∧
  (∀ key, si_foreign_network (sv_db sv') !! key = if bool_decide (ClosePeer key.1 ∈ effects) then None else si_foreign_network (sv_db sv) !! key).
Proof.
  unfold refresh_credential_trusts_and_disconnect.
  destruct (refresh_credential_trusts_with_current_topology cx sv now) as [[[sv1 u] eff]|] eqn:E; [|done]. cbn. intros [= <- <- <-].
  destruct (refresh_removes _ _ _ _ _ _ E) as (Hi & _ & Hf). apply refresh_service_spec in E as (active & _ & _ & -> & _).
  assert (∀ p keys, bool_decide (ClosePeer p ∈ [UpdateTrustedKeys keys] ++ disconnect_untrusted_peers u) = bool_decide (p ∈ u)) as Hb
    by (intros p keys; apply bool_decide_ext, close_peer_elem).
  split; intros x; rewrite Hb; [apply Hi|apply Hf].
Qed.

(** Silent for at most an hour and a minute, and for at most 90 seconds unless the topology
    reaches the peer. *)
Definition fresh_info sv (now : Z) (p : PeerId) (info : RoutePeerInfo) : Prop :=
  ∃ last, ri_last_update info = Some last ∧ now - last <= 3660 * 10 ^ 9 ∧
    (now - last <= 90 * 10 ^ 9 ∨ topology_peer_reachable (sv_table sv) p = true).

Lemma info_expired_spec sv now p info : info_expired sv now p info = Some false ↔ fresh_info sv now p info.
Proof.
  unfold info_expired, fresh_info, REMOVE_DEAD_PEER_INFO_AFTER, REMOVE_UNREACHABLE_PEER_INFO_AFTER.
  destruct (ri_last_update info) as [last|]; cbn [mbind option_bind]; [|split; [done|by intros (? & ? & _)]].
  destruct (Z.leb_spec last now), (Z.ltb_spec (3660 * 10 ^ 9) (now - last)), (Z.ltb_spec (90 * 10 ^ 9) (now - last)),
    (topology_peer_reachable (sv_table sv) p); cbn [andb orb negb]; split; try done;
    first [intros _; exists last; split; [done|]; split; [lia|]; first [by right|left; lia]
          |intros (l & [= <-] & ? & [?|?]); [lia|done || lia]].
Qed.

Definition fresh_entry (now : Z) (e : ForeignNetworkRouteInfoEntry) : Prop :=
  ∃ last, fe_last_update e = Some last ∧ last <= now <= last + 3660 * 10 ^ 9.

Lemma foreign_expired_spec now e : foreign_expired now e = false ↔ fresh_entry now e.
Proof.
  unfold foreign_expired, fresh_entry, REMOVE_DEAD_PEER_INFO_AFTER. destruct (fe_last_update e) as [last|]; [|split; [done|by intros (? & ? & _)]].
  destruct (Z.leb_spec last now); [rewrite Z.ltb_ge|]; split; try done.
  - intros ?. exists last. split; [done|lia].
  - intros (? & [= <-] & ?). lia.
  - intros (? & [= <-] & ?). lia.
Qed.

(** The clean-up removes the expired records and no other: a peer info stays exactly
    when it has not expired (after 61 minutes for any peer, 90 seconds for one that the topology
    does not reach) and its peer was not disconnected for its credential; an entry of a
    foreign network stays when neither it nor the info of its peer expired. *)
Theorem expired_records_leave cx sv now now_unix sv' effects :
  clear_expired_peer cx sv now now_unix = Some (sv', effects) →
  (∀ p info, si_peer_infos (sv_db sv') !! p = Some info ↔
     si_peer_infos (sv_db sv) !! p = Some info ∧ fresh_info sv now p info ∧ ClosePeer p ∉ effects) ∧
  (∀ key e, si_foreign_network (sv_db sv') !! key = Some e ↔
     si_foreign_network (sv_db sv) !! key = Some e ∧ fresh_entry now e ∧ ClosePeer key.1 ∉ effects ∧
     ∀ info, si_peer_infos (sv_db sv) !! key.1 = Some info → fresh_info sv now key.1 info).
Proof.
  setoid_rewrite <- info_expired_spec. setoid_rewrite <- foreign_expired_spec.
  unfold clear_expired_peer. destruct (expired_peers sv now) as [expired|] eqn:Ee; [|done]. cbn [mbind option_bind].
  apply expired_spec in Ee as [He Hs]. set (sv1 := set_trust sv _).
  destruct (refresh_credential_trusts_and_disconnect cx sv1 now_unix) as [[[sv2 b] eff]|] eqn:Er; [|done]. cbn. intros [= <- <-].
  apply refresh_disconnect_spec in Er as [Hi Hf]. cbn. destruct (removed_fields (sv_trust sv) expired) as (R1 & _ & _ & R4 & _).
  assert (∀ p info, si_peer_infos (sv_db sv) !! p = Some info → (info_expired sv now p info = Some false ↔ p ∉ expired)) as Hx.
  { intros p info Hp. destruct (Hs p info Hp) as [x Ex]. rewrite He. rewrite Ex. split.
    - intros [= ->] (i & Hi' & Hx). congruence.
    - intros Hn. destruct x; [|done]. exfalso. apply Hn. by exists info. }
  split.
  - intros p info. unfold sv_db at 1. cbn. fold (sv_db sv2). rewrite Hi. unfold sv1, sv_db at 1. cbn. rewrite R1.
    destruct (bool_decide_reflect (ClosePeer p ∈ eff)); [split; [done|tauto]|]. fold (sv_db sv).
    destruct (bool_decide_reflect (p ∈ expired)) as [Hp|Hp].
    + split; [done|]. intros (E & Ex & _). by apply (Hx p info E) in Ex.
    + split; [intros E; split; [done|]; split; [by apply Hx|done]|by intros (? & _)].
  - intros key e. unfold sv_db at 1. cbn. fold (sv_db sv2). rewrite Hf. unfold sv1, sv_db at 1. cbn.
    destruct (bool_decide_reflect (ClosePeer key.1 ∈ eff)); [split; [done|tauto]|]. rewrite map_lookup_filter_Some, R4. cbn. fold (sv_db sv).
    destruct (bool_decide_reflect (key.1 ∈ expired)) as [Hp|Hp].
    + split; [by intros []|]. intros (_ & _ & _ & Hall). apply He in Hp as (info & E & Ex). rewrite (Hall info E) in Ex. done.
    + split; [|tauto]. intros [E Ex]. split_and!; try done. intros info Ei. by apply Hx.
Qed.

(** ** The owners of foreign networks *)

(** A reachable peer other than this node announces a network with peers in it, in which
    it is [q]. *)
Definition owns cx sv (digest : list Z) (q p : PeerId) (entry : ForeignNetworkRouteInfoEntry) : Prop :=
  p ≠ cx_my_peer_id cx ∧ peer_reachable (sv_table sv) p = true ∧ fe_foreign_peer_ids entry ≠ [] ∧
  digest_array (fe_network_secret_digest entry) = digest ∧ fe_my_peer_id_for_this_network entry = q.

Lemma add_owner_spec cx sv owners mine p n e name digest q :
  q ∈ default [] ((add_foreign_owner cx sv (owners, mine) ((p, n), e)).1 !! (name, digest)) ↔
  q ∈ default [] (owners !! (name, digest)) ∨ (n = name ∧ owns cx sv digest q p e).
Proof.
  unfold add_foreign_owner, owns. destruct (Z.eqb_spec p (cx_my_peer_id cx)); cbn [orb]; [cbn; tauto|].
  destruct (peer_reachable (sv_table sv) p); cbn [negb orb]; [|cbn; split; [by left|intros [?|(_ & _ & ? & _)]; done]].
  case_bool_decide as He; [cbn; split; [by left|intros [?|(_ & _ & _ & ? & _)]; done]|].
  cbn. destruct (decide ((n, digest_array (fe_network_secret_digest e)) = (name, digest))) as [Ek|Ek].
  - rewrite Ek, lookup_insert_eq. cbn. rewrite elem_of_app, list_elem_of_singleton. injection Ek as -> Hd. intuition congruence.
  - rewrite lookup_insert_ne by done. split; [by left|]. intros [?|(-> & _ & _ & _ & Hd & _)]; [done|congruence].
Qed.

(** The owners of a network are exactly the reachable peers that announce it with peers
    in it, under the ids they have in that network. *)
Theorem owners_announce cx sv name digest q :
  q ∈ default [] (sv_owner_map (update_foreign_network_owner_map cx sv) !! (name, digest)) ↔
  ∃ p entry, si_foreign_network (sv_db sv) !! (p, name) = Some entry ∧ owns cx sv digest q p entry.
Proof.
  unfold update_foreign_network_owner_map.
  assert (∀ l st, q ∈ default [] ((foldl (add_foreign_owner cx sv) st l).1 !! (name, digest)) ↔
    q ∈ default [] (st.1 !! (name, digest)) ∨ ∃ p entry, ((p, name), entry) ∈ l ∧ owns cx sv digest q p entry) as Hl.
  { induction l as [|[[p n] e] l IH]; intros [owners mine]; cbn [foldl].
    { split; [by left|]. intros [?|(? & ? & Hin & _)]; [done|by apply elem_of_nil in Hin]. }
    rewrite IH, add_owner_spec. setoid_rewrite elem_of_cons. split.
    - intros [[?|[-> Ho]]|(p' & e' & Hin & Ho)]; [by left|right; exists p, e; auto|right; exists p', e'; auto].
    - intros [?|(p' & e' & [[= -> -> ->]|Hin] & Ho)]; [by left; left|by left; right|right; by exists p', e']. }
  specialize (Hl (iter (si_foreign_network (sv_db sv))) (∅, ∅)).
  destruct (foldl _ _ _) as [owners mine]. cbn in *. rewrite Hl, lookup_empty. setoid_rewrite iter_elem. cbn. split; [|by right].
  intros [?%elem_of_nil|?]; done.
Qed.

End Service.

Section Neighbours.

Context {CL : CredentialLib} {RF : RestFields} {HI : HashIter} {PR : Prost}.
Context {V4Cidr V6Cidr : Type} `{Countable V4Cidr, Countable V6Cidr}.

Implicit Types (sv : PeerRouteService (V4Cidr := V4Cidr) (V6Cidr := V6Cidr)) (cx : RouteContext).

(** ** Neighbours *)

Lemma covered_spec sv (i : InterfacePeerSnapshot) q :
  q ∈ covered_targets sv i ↔ is_covered_target sv i q = true ∧
    ∃ relay c, relay ∈ eligible_relays sv i ∧ si_conn_map (sv_db sv) !! relay = Some c ∧ q ∈ ci_connected_peers c.
Proof.
  unfold covered_targets. setoid_rewrite <- set_btree_iter at 2.
  apply (foldl_inv (λ l s, q ∈ s ↔ is_covered_target sv i q = true ∧
    ∃ relay c, relay ∈ l ∧ si_conn_map (sv_db sv) !! relay = Some c ∧ q ∈ ci_connected_peers c)).
  - split; [by intros ?%elem_of_empty|]. intros (_ & r & c & Hr & _). by apply elem_of_nil in Hr.
  - intros l relay s _ IH. setoid_rewrite elem_of_app. setoid_rewrite list_elem_of_singleton.
    destruct (si_conn_map (sv_db sv) !! relay) as [c|] eqn:E.
    + rewrite elem_of_union, elem_of_filter, IH. split.
      * intros [(Hq & r & c' & Hr)|(Hq & Hc)]; [split; [done|]; exists r, c'; tauto|]. split; [done|]. exists relay, c. auto.
      * intros (Hq & r & c' & [Hr| ->] & Hc' & Hin); [left; split; [done|]; by exists r, c'|]. right. split; [done|]. congruence.
    + rewrite IH. split; intros (Hq & r & c' & Hr & Hc' & Hin); split; try done; exists r, c'; [tauto|].
      destruct Hr as [?| ->]; [tauto|congruence].
Qed.

(** This node advertises neighbours only, and whom it does not advertise (unless it
    withdrew all) is a credential peer that is not suppressed and that an advertised
    neighbour, itself allowed to relay, lists as connected: no neighbour is lost. *)
Theorem hidden_neighbour_has_relay cx sv (i : InterfacePeerSnapshot) p :
  let shown := derive_advertised_connected_peers cx sv i in
  shown ⊆ ip_peers i ∧
  (sv_withdrawn sv = false → p ∈ ip_peers i → p ∉ shown →
     is_credential_neighbour i p = true ∧ p ∉ si_suppressed (sv_db sv) ∧
     ∃ relay c, relay ∈ shown ∧ is_eligible_relay sv i relay = true ∧
       si_conn_map (sv_db sv) !! relay = Some c ∧ p ∈ ci_connected_peers c).
Proof.
  cbn zeta. unfold derive_advertised_connected_peers. destruct (sv_withdrawn sv); [split; [set_solver|done]|].
  destruct (negb _); [split; [done|set_solver]|]. case_decide; [split; [done|set_solver]|]. split; [set_solver|].
  intros _ Hp Hn. assert (p ∈ covered_targets sv i) as Hc by (destruct (decide (p ∈ covered_targets sv i)); set_solver).
  apply covered_spec in Hc as (Hc & relay & c & Hr & Hcm & Hin). unfold is_covered_target in Hc.
  apply andb_true_iff in Hc as [Hc Hs]. apply andb_true_iff in Hc as [Hc Hne]. apply andb_true_iff in Hc as [_ Hcred].
  apply negb_true_iff, bool_decide_eq_false in Hs, Hne. split; [done|]. split; [done|].
  pose proof Hr as Hr'. apply elem_of_filter in Hr' as [He Hpeer]. exists relay, c. split; [|done]. apply elem_of_difference. split; [done|].
  intros (Hc & _)%covered_spec. unfold is_covered_target in Hc. apply andb_true_iff in Hc as [Hc _]. apply andb_true_iff in Hc as [_ Hc].
  by apply negb_true_iff, bool_decide_eq_false in Hc.
Qed.

End Neighbours.

Section ForeignNetworks.

Context {HI : HashIter}.

(** ** Foreign networks *)

Lemma fst_not_repeated {K A} (l : list (K * A)) done kv rest : NoDup (map fst l) → l = done ++ kv :: rest → kv.1 ∉ map fst done.
Proof.
  intros Hn ->. rewrite map_app in Hn. cbn in Hn. intros Hin. apply NoDup_app in Hn as (_ & Hd & _). apply (Hd _ Hin). by left.
Qed.

Lemma iter_fst_nodup {K A} `{Countable K} (m : gmap K A) (P : K * A → Prop) `{∀ kv, Decision (P kv)} :
  NoDup (map fst (filter P (iter m))).
Proof.
  apply (sublist_NoDup _ (fst <$> iter m)); [rewrite iter_perm; apply NoDup_fst_map_to_list|].
  apply fmap_sublist, sublist_filter.
Qed.

(** Everything but the version. *)
Definition same_content (e e' : ForeignNetworkRouteInfoEntry) : Prop :=
  fe_foreign_peer_ids e' = fe_foreign_peer_ids e ∧ fe_last_update e' = fe_last_update e ∧
  fe_network_secret_digest e' = fe_network_secret_digest e ∧
  fe_my_peer_id_for_this_network e' = fe_my_peer_id_for_this_network e.

(** What becomes of the stored entry [e] of this node. *)
Definition renewed (now_version : Z) (listed : option ForeignNetworkRouteInfoEntry) (e e' : ForeignNetworkRouteInfoEntry) : Prop :=
  match listed with
  | Some new =>
      (same_content new e' ∧ fe_version e' = next_version (fe_version new) now_version) ∨
      (e' = e ∧ is_foreign_network_info_newer new e ≠ Some true)
  | None => fe_foreign_peer_ids e' = [] ∧ (e' = e ∨ fe_version e' = next_version (fe_version e) now_version)
  end.

Lemma renew_stored_spec now nv key e stored fresh upd stored' fresh' upd' :
  renew_stored now nv (stored, fresh, upd) (key, e) = Some (stored', fresh', upd') → stored !! key = Some e →
  ∃ e', stored' = <[key := e']> stored ∧ fresh' = delete key fresh ∧ renewed nv (fresh !! key) e e' ∧
    (upd' = false → upd = false ∧ e' = e).
Proof.
  unfold renew_stored, renewed. intros E Hs. destruct (fresh !! key) as [new|] eqn:Ef.
  - destruct (decide (fe_foreign_peer_ids new = [])); [done|].
    destruct (is_foreign_network_info_newer new e) as [newer|] eqn:En.
    + destruct (newer || _) eqn:Eb; injection E as <- <- <-; [eexists; split; [done|]; split; [done|]; split; [by left|done]|].
      exists e. rewrite insert_id by done. split; [done|]. split; [done|]. split; [|done]. right. split; [done|].
      intros [= ->]. done.
    + injection E as <- <- <-. exists e. rewrite insert_id by done. split; [done|]. split; [done|]. split; [right|]; done.
  - rewrite delete_id by done. destruct (fe_foreign_peer_ids e) as [|p l] eqn:Ee; injection E as <- <- <-.
    + exists e. rewrite insert_id by done. split; [done|]. split; [done|]. split; [|done]. auto.
    + eexists. split; [done|]. split; [done|]. split; [|done]. split; [done|]. by right.
Qed.

(** The first loop. *)
Lemma renew_loop_spec now nv my stored0 listed stored fresh upd :
  try_fold (renew_stored now nv) (filter (λ kv, kv.1.1 = my) (iter stored0)) (stored0, listed, false) = Some (stored, fresh, upd) →
  (∀ key e, stored0 !! key = Some e → key.1 = my →
     fresh !! key = None ∧ ∃ e', stored !! key = Some e' ∧ renewed nv (listed !! key) e e') ∧
  (∀ key, stored0 !! key = None ∨ key.1 ≠ my → stored !! key = stored0 !! key ∧ fresh !! key = listed !! key) ∧
  (upd = false → stored = stored0).
Proof.
  set (l := filter _ (iter stored0)). intros E.
  assert (∀ key e, (key, e) ∈ l ↔ stored0 !! key = Some e ∧ key.1 = my) as Hl.
  { intros key e. unfold l. rewrite list_elem_of_filter, iter_elem. cbn. tauto. }
  set (P := λ (done : list (ForeignKey * ForeignNetworkRouteInfoEntry))
      (st : gmap ForeignKey ForeignNetworkRouteInfoEntry * gmap ForeignKey ForeignNetworkRouteInfoEntry * bool),
    (∀ key e, (key, e) ∈ done → st.1.2 !! key = None ∧ ∃ e', st.1.1 !! key = Some e' ∧ renewed nv (listed !! key) e e') ∧
    (∀ key, key ∉ map fst done → st.1.1 !! key = stored0 !! key ∧ st.1.2 !! key = listed !! key) ∧ (st.2 = false → st.1.1 = stored0)).
  assert (P l (stored, fresh, upd)) as (H1' & H2' & H3').
  - revert E. apply try_fold_split; [unfold P; cbn; split_and!; [by intros ? ? ?%elem_of_nil|done|done]|].
    intros done [key e] rest [[m f] u] [[m' f'] u'] El (I1 & I2 & I3) Hr. cbn in *.
    pose proof (fst_not_repeated l done (key, e) rest ltac:(apply iter_fst_nodup) El) as Hnew. cbn in Hnew.
    assert (stored0 !! key = Some e) as He by (apply Hl; rewrite El, elem_of_app; right; by left).
    destruct (I2 key Hnew) as [Em Ef]. apply renew_stored_spec in Hr as (e' & -> & -> & Hren & Hu); [|congruence].
    unfold P. cbn. split_and!.
    + intros k x. rewrite elem_of_app, list_elem_of_singleton. intros [Hin|[= -> ->]].
      * assert (k ≠ key) by (intros ->; apply Hnew, list_elem_of_fmap; by exists (key, x)).
        rewrite lookup_delete_ne, lookup_insert_ne by done. by apply I1.
      * rewrite lookup_delete_eq, lookup_insert_eq. split; [done|]. exists e'. by rewrite <- Ef.
    + intros k. rewrite map_app, elem_of_app. cbn. rewrite list_elem_of_singleton. intros Hk.
      assert (k ≠ key ∧ k ∉ map fst done) as [? ?] by tauto. rewrite lookup_delete_ne, lookup_insert_ne by done. by apply I2.
    + intros Hfalse. apply Hu in Hfalse as [Hfalse ->]. rewrite insert_id by congruence. by apply I3.
  - cbn in *. split_and!; [|by intros key Hk; apply H2'; intros ([k e] & -> & [? ?]%Hl)%list_elem_of_fmap; cbn in Hk; destruct Hk; congruence|done].
    intros key e He Hk. apply H1', Hl. done.
Qed.

(** The second loop, over entries that are not stored. *)
Lemma insert_loop_spec nv fresh stored0 stored upd0 upd :
  (∀ key, is_Some (fresh !! key) → stored0 !! key = None) →
  try_fold (insert_fresh nv) (iter fresh) (stored0, upd0) = Some (stored, upd) →
  (∀ key, stored !! key = match fresh !! key with
     | Some new => Some (entry_at new (fe_foreign_peer_ids new) (fe_last_update new) nv)
     | None => stored0 !! key
     end) ∧ (upd = false → stored = stored0 ∧ upd0 = false).
Proof.
  intros Hd E.
  set (P := λ (done : list (ForeignKey * ForeignNetworkRouteInfoEntry)) (st : gmap ForeignKey ForeignNetworkRouteInfoEntry * bool),
    (∀ key, key ∉ map fst done → st.1 !! key = stored0 !! key) ∧
    (∀ key new, (key, new) ∈ done → st.1 !! key = Some (entry_at new (fe_foreign_peer_ids new) (fe_last_update new) nv)) ∧
    (st.2 = false → st.1 = stored0 ∧ upd0 = false)).
  assert (P (iter fresh) (stored, upd)) as (H1' & H2' & H3').
  - revert E. apply try_fold_split; [unfold P; cbn; split_and!; [done|by intros ? ? ?%elem_of_nil|done]|].
    intros done [key new] rest [m u] [m' u'] El (I1 & I2 & I3) Hr. cbn in *.
    assert (NoDup (map fst (iter fresh))) as Hn by (change (NoDup (fst <$> iter fresh)); rewrite iter_perm; apply NoDup_fst_map_to_list).
    pose proof (fst_not_repeated (iter fresh) done (key, new) rest Hn El) as Hnew. cbn in Hnew.
    assert (fresh !! key = Some new) as Hf by (apply iter_elem; rewrite El, elem_of_app; right; by left).
    rewrite (I1 key Hnew), Hd in Hr by done. destruct (decide (fe_foreign_peer_ids new = [])); [done|]. injection Hr as <- <-.
    unfold P. cbn. split_and!; [| |done].
    + intros k. rewrite map_app, elem_of_app. cbn. rewrite list_elem_of_singleton. intros Hk.
      rewrite lookup_insert_ne by (intros ->; tauto). apply I1. tauto.
    + intros k x. rewrite elem_of_app, list_elem_of_singleton. intros [Hin|[= -> ->]]; [|by rewrite lookup_insert_eq].
      rewrite lookup_insert_ne; [by apply I2|]. intros ->. apply Hnew, list_elem_of_fmap. by exists (k, x).
  - cbn in *. split; [|done]. intros key. destruct (fresh !! key) as [new|] eqn:Ef; [by apply H2', iter_elem|].
    apply H1'. intros ([k x] & -> & Hin%iter_elem)%list_elem_of_fmap. cbn in Ef. congruence.
Qed.

(** The foreign networks of this node follow what the interface lists: a listed
    network is stored with its contents (unless the stored entry is not older), one that is
    no longer listed has no peers left; and while the clock is ahead of the stored versions,
    every changed entry gets a higher version, so that the neighbours take it over. *)
Theorem my_foreign_networks_follow db my listed now db' updated :
  update_my_foreign_network_entries db my listed now = Some (db', updated) →
  (∀ key, is_Some (listed !! key) → key.1 = my) →
  (∀ key e, si_foreign_network db !! key = Some e → key.1 = my → fe_version e < wrap 32 (now / 10 ^ 9)) →
  (∀ key e, si_foreign_network db !! key = Some e →
     ∃ e', si_foreign_network db' !! key = Some e' ∧ (e' = e ∨ (key.1 = my ∧ fe_version e < fe_version e'))) ∧
  (∀ key, key.1 = my →
     match listed !! key with
     | Some new => ∃ e', si_foreign_network db' !! key = Some e' ∧
         (same_content new e' ∨ (si_foreign_network db !! key = Some e' ∧ is_foreign_network_info_newer new e' ≠ Some true))
     | None => ∀ e', si_foreign_network db' !! key = Some e' → fe_foreign_peer_ids e' = []
     end) ∧
  (updated = false → db' = db).
Proof.
  set (nv := wrap 32 (now / 10 ^ 9)). unfold update_my_foreign_network_entries. fold nv.
  destruct (try_fold (renew_stored now nv) _ _) as [[[m fresh] u]|] eqn:E1; [|done]. cbn [mbind option_bind].
  destruct (try_fold (insert_fresh nv) _ _) as [[stored upd]|] eqn:E2; [|done]. cbn [mbind option_bind]. intros [= <- <-] Hlisted Hclock.
  apply renew_loop_spec in E1 as (R1 & R2 & R3).
  assert (∀ key, is_Some (fresh !! key) → si_foreign_network db !! key = None ∧ fresh !! key = listed !! key ∧ m !! key = None) as Hf.
  { intros key [x Hx]. destruct (si_foreign_network db !! key) as [e|] eqn:Ee.
    - exfalso. destruct (decide (key.1 = my)) as [Hk|Hk]; [destruct (R1 key e Ee Hk); congruence|].
      destruct (R2 key (or_intror Hk)) as [_ El]. apply Hk, Hlisted. rewrite <- El. by exists x.
    - destruct (R2 key (or_introl Ee)) as [Em ->]. split; [done|]. split; [done|]. congruence. }
  apply insert_loop_spec in E2 as [I1 I2]; [|by intros key Hk; apply Hf].
  assert (si_foreign_network (inc_version_if upd (with_foreign db stored)) = stored) as -> by by destruct upd.
  assert (∀ key e, si_foreign_network db !! key = Some e → stored !! key = m !! key) as Hold.
  { intros key e He. rewrite I1. destruct (fresh !! key) eqn:Ef; [|done]. destruct (Hf key ltac:(by rewrite Ef)); congruence. }
  split_and!.
  - intros key e He. rewrite (Hold key e He). destruct (decide (key.1 = my)) as [Hk|Hk].
    + destruct (R1 key e He Hk) as (_ & e' & -> & Hr). exists e'. split; [done|]. pose proof (Hclock key e He Hk) as Hlt. unfold renewed, next_version in Hr.
      destruct (listed !! key); [destruct Hr as [[_ Hv]|[-> _]]; [right; split; [done|lia]|by left]|].
      destruct Hr as [_ [->|Hv]]; [by left|right; split; [done|lia]].
    + exists e. destruct (R2 key (or_intror Hk)) as [-> _]. split; [done|by left].
  - intros key Hk. destruct (si_foreign_network db !! key) as [e|] eqn:Ee.
    + rewrite (Hold key e Ee). destruct (R1 key e Ee Hk) as (_ & e' & -> & Hr). unfold renewed in Hr. destruct (listed !! key) as [new|].
      * exists e'. split; [done|]. destruct Hr as [[Hc _]|[-> Hn]]; [by left|by right].
      * intros ? [= <-]. by destruct Hr.
    + rewrite I1. destruct (R2 key (or_introl Ee)) as [Em ->]. destruct (listed !! key) as [new|]; [|intros e' He'; congruence].
      eexists. split; [done|]. left. repeat split.
  - intros ->. destruct (I2 eq_refl) as [-> Hu]. apply R3 in Hu as ->. by destruct db.
Qed.

(** The version of a renewed entry is counted from the listed entry, whose version is 0,
    and not from the stored one: when the clock was set back, the change gets a lower
    version than the entry it replaces, and neighbours that know the latter ignore it. *)
Theorem foreign_version_goes_back :
  let key : ForeignKey := (1, "net"%string) in
  let stored := {[key := mkForeign [7] (Some 1) 100 [] 5]} in
  let listed := {[key := mkForeign [7; 8] (Some 2) 0 [] 5]} in
  match update_my_foreign_network_entries (mkSynced ∅ ∅ ∅ stored ∅ 1) 1 listed (50 * 10 ^ 9) with
  | Some (db', updated) => updated = true ∧ fe_version <$> si_foreign_network db' !! key = Some 50
  | None => False
  end.
Proof.
  cbn zeta. unfold update_my_foreign_network_entries. cbn [si_foreign_network].
  assert (∀ e, filter (λ kv : ForeignKey * ForeignNetworkRouteInfoEntry, kv.1.1 = 1) (iter {[(1, "net"%string) := e]}) = [((1, "net"%string), e)]) as ->.
  { intros e. pose proof (iter_perm {[(1, "net"%string) := e]}) as Hp. rewrite map_to_list_singleton in Hp. by apply Permutation_singleton_r in Hp as ->. }
  cbn [try_fold mbind option_bind].
  assert (renew_stored (50 * 10 ^ 9) (wrap 32 (50 * 10 ^ 9 / 10 ^ 9))
    ({[(1, "net"%string) := mkForeign [7] (Some 1) 100 [] 5]}, {[(1, "net"%string) := mkForeign [7; 8] (Some 2) 0 [] 5]}, false)
    ((1, "net"%string), mkForeign [7] (Some 1) 100 [] 5) = Some ({[(1, "net"%string) := mkForeign [7; 8] (Some 2) 50 [] 5]}, ∅, true)) as -> by (vm_compute; reflexivity).
  cbn [mbind option_bind]. pose proof (iter_perm (∅ : gmap ForeignKey ForeignNetworkRouteInfoEntry)) as Hp. rewrite map_to_list_empty in Hp.
  apply Permutation_nil_r in Hp as ->. vm_compute. done.
Qed.

End ForeignNetworks.

(** * Witnesses *)

Section Witnesses.

#[local] Existing Instance example_lib.
#[local] Existing Instance example_fields.
#[local] Existing Instance leb_prost.

Abbreviation DemoService := (PeerRouteService (V4Cidr := Z * Z) (V6Cidr := unit)).

(** The relay 2 lists its neighbour 3. *)
Definition relay_context : RouteContext := mkContext 9 0 (Some [1]) true true [] 10.
Definition relay_snapshot : InterfacePeerSnapshot :=
  mkInterface 1 {[2; 3]} {[2 := Some Credential; 3 := Some Credential]} {[2 := Some [7]; 3 := Some [8]]}.
Definition relay_service : DemoService :=
  set_trust new_service
    (mkTrust (mkSynced ∅ ∅ {[2 := mkConn {[3]} 1 0]} ∅ ∅ 1) ∅ ∅ {[[7] := mkTrusted [7] [] true 100 [] None]} ∅).

Lemma hidden_neighbour_has_relay_witness :
  3 ∈ ip_peers relay_snapshot ∧ 3 ∉ derive_advertised_connected_peers relay_context relay_service relay_snapshot ∧
  ∃ relay c, relay ∈ derive_advertised_connected_peers relay_context relay_service relay_snapshot ∧
    si_conn_map (sv_db relay_service) !! relay = Some c ∧ 3 ∈ ci_connected_peers c.
Proof.
  assert (3 ∈ ip_peers relay_snapshot) as Hp by (apply (bool_decide_unpack _); vm_compute; exact I).
  assert (3 ∉ derive_advertised_connected_peers relay_context relay_service relay_snapshot) as Hn by (apply (bool_decide_unpack _); vm_compute; exact I).
  split; [exact Hp|]. split; [exact Hn|].
  destruct (hidden_neighbour_has_relay relay_context relay_service relay_snapshot 3) as [_ H]. destruct (H eq_refl Hp Hn) as (_ & _ & relay & c & Hr & _ & Hc & Hin).
  exists relay, c. split; [exact Hr|]. split; [exact Hc|exact Hin].
Defined.

(** Of two unreachable peers the one that was silent for more than 90 seconds expires. *)
Definition aged (p last_update : Z) : RoutePeerInfo := mkPeerInfo p 1 0 None None None None [] 0 (Some last_update) [].
Definition aged_service : DemoService :=
  set_trust new_service (no_trust (mkSynced {[2 := aged 2 0; 3 := aged 3 (50 * 10 ^ 9)]} ∅ ∅ ∅ ∅ 1)).

Abbreviation demo_clear := (clear_expired_peer 64 example_cidr fst snd (λ _, 0) (λ _, 0) demo_dijkstra (λ _ _, 1)).

Lemma expired_records_leave_witness :
  match demo_clear relay_context aged_service (100 * 10 ^ 9) 100 with
  | Some (sv', effects) =>
      si_peer_infos (sv_db sv') !! 2 = None ∧
      (si_peer_infos (sv_db sv') !! 3 = Some (aged 3 (50 * 10 ^ 9)) ↔
       si_peer_infos (sv_db aged_service) !! 3 = Some (aged 3 (50 * 10 ^ 9)) ∧
       fresh_info aged_service (100 * 10 ^ 9) 3 (aged 3 (50 * 10 ^ 9)) ∧ ClosePeer 3 ∉ effects)
  | None => False
  end.
Proof.
  destruct (demo_clear relay_context aged_service (100 * 10 ^ 9) 100) as [[sv' effects]|] eqn:E; [|vm_compute in E; discriminate].
  destruct (expired_records_leave 64 example_cidr fst snd (λ _, 0) (λ _, 0) demo_dijkstra (λ _ _, 1) relay_context aged_service _ _ sv' effects E) as [Hi _].
  split; [|apply Hi]. vm_compute in E. injection E as <- _. vm_compute. reflexivity.
Defined.

Definition net_key (name : string) : ForeignKey := (1, name).
Definition stored_networks : SyncedRouteInfo :=
  mkSynced ∅ ∅ ∅ {[net_key "a" := mkForeign [7] (Some 1) 100 [] 5; net_key "b" := mkForeign [8] (Some 1) 100 [] 5]} ∅ 1.
Definition listed_networks : gmap ForeignKey ForeignNetworkRouteInfoEntry :=
  {[net_key "a" := mkForeign [7; 9] (Some 2) 0 [] 5; net_key "c" := mkForeign [6] (Some 2) 0 [] 5]}.

Lemma my_foreign_networks_follow_witness :
  match update_my_foreign_network_entries stored_networks 1 listed_networks (200 * 10 ^ 9) with
  | Some (db', updated) =>
      updated = true ∧
      (∃ e', si_foreign_network db' !! net_key "a" = Some e' ∧
         (e' = mkForeign [7] (Some 1) 100 [] 5 ∨ ((net_key "a").1 = 1 ∧ 100 < fe_version e'))) ∧
      ∀ e', si_foreign_network db' !! net_key "b" = Some e' → fe_foreign_peer_ids e' = []
  | None => False
  end.
Proof.
  destruct (update_my_foreign_network_entries stored_networks 1 listed_networks (200 * 10 ^ 9)) as [[db' updated]|] eqn:E; [|vm_compute in E; discriminate].
  destruct (my_foreign_networks_follow stored_networks 1 listed_networks _ db' updated E) as (Hold & Hlisted & _).
  - intros key [e He]. unfold listed_networks in He. apply lookup_insert_Some in He as [[<- _]|[_ He]]; [done|].
    by apply lookup_singleton_Some in He as [<- _].
  - intros key e He _. cbn in He. assert (fe_version e = 100) as ->; [|vm_compute; reflexivity].
    apply lookup_insert_Some in He as [[_ <-]|[_ He]]; [done|]. by apply lookup_singleton_Some in He as [_ <-].
  - split; [vm_compute in E; by injection E as _ <-|]. split.
    + exact (Hold (net_key "a") (mkForeign [7] (Some 1) 100 [] 5) ltac:(vm_compute; reflexivity)).
    + exact (Hlisted (net_key "b") eq_refl).
Defined.

End Witnesses.
