(* ===== verification/RouteInbound.v ===== *)
(** * The inbound synchronisation handler

    Models [sync_route_info] and [do_sync_route_info] of
    easytier-core/src/peers/route/peer_ospf_route.rs with [get_or_start_session] and
    [collect_missing_peer_ids]: how a node takes over what a neighbour sends, on the
    service of RouteService.v.

    The handler waits for the interface between finding the session and locking it: it is
    two steps, and [between] is what other calls do meanwhile.  The second step holds the
    lock of the session and is one step.  The RPC decoder is a parameter
    ([decode_peer_id]); a panic is [None].

    The theorems say that a credential peer can change nothing but its own records, what a
    refused request leaves, and which records the response asks for. *)

From stdpp Require Import base gmap list numbers strings sets.
From Stdlib Require Import ZArith Lia.
From S2P Require Import Prelude GraphAlgo RouteTable LinkState RouteSession RouteSync RouteWire Credentials CredentialTrust RouteService.
Local Open Scope Z_scope.

(** ** Data *)

(** The decoded request, with the bytes of its peer infos. *)
Record Inbound : Type := mkInbound {
  ib_from : PeerId;
  ib_session_id : Z;
  ib_is_initiator : bool;
  ib_peer_infos : option (list RoutePeerInfo);
  ib_raw_peer_infos : option (list (list Z));
  ib_conn_info : option ConnInfo;
  ib_foreign_network : option (list (option ForeignKey * option ForeignNetworkRouteInfoEntry))
}.

(** What the interface and the surroundings answer during the call. *)
Record Answers : Type := mkReplies {
  en_stopped : bool;
  en_identity : option PeerIdentityType;
  en_public_key : option (list Z);
  en_random_id : Z;
  en_now : Z;
  en_now_unix : Z;
  en_ipv6 : option bool
}.

(** The errors that the RPC layer reports to its caller. *)
Inductive RpcError : Type := MalformatRpcPacket | ExecutionError.

Section Inbound.

Context (usize_bits : Z) (default_rest : list Z).
Context {CL : CredentialLib} {RF : RestFields} {HI : HashIter} {PR : Prost}.
Context {V4Cidr V6Cidr : Type} `{Countable V4Cidr, Countable V6Cidr}.
Context (parse_cidr : string → option (IpCidr V4Cidr V6Cidr)).
Context (first4 last4 : V4Cidr → Z) (first6 last6 : V6Cidr → Z).
Context {G : Type} `{!PetGraph G}.
Context `{!BinaryHeap (A := MinScored Z nat) cmp}.
Context (pet_dijkstra : G → nat → (GraphEdge → Z) → gmap nat Z).
Context (calculate_cost : PeerId → PeerId → Z).
Context (decode_peer_id : list Z → option PeerId).

Abbreviation Service := (PeerRouteService (V4Cidr := V4Cidr) (V6Cidr := V6Cidr)).
Abbreviation refresh_now := (refresh_credential_trusts_with_current_topology usize_bits parse_cidr first4 last4 first6 last6 pet_dijkstra calculate_cost).
Abbreviation rebuild := (update_route_table_and_cached_local_conn_bitmap usize_bits parse_cidr first4 last4 first6 last6 pet_dijkstra calculate_cost).

Implicit Types (sv : Service) (cx : RouteContext) (s : SyncRouteSession) (rq : Inbound) (en : Answers).

(** ** Missing records *)

Definition row_peers (row : PeerConnInfo) : list PeerId :=
  match pc_peer_id row with Some pv => pv_peer_id pv :: pc_connected_peer_ids row | None => [] end.

(** The peers that the connection info mentions. *)
Definition mentioned_peers (conn_info : option ConnInfo) : gset PeerId :=
  match conn_info with
  | Some (ConnBitmap b) => list_to_set (map pv_peer_id (bm_peer_ids b))
  | Some (ConnPeerList l) => list_to_set (concat (map row_peers l))
  | None => ∅
  end.

(** What is missing of a peer, its info and its connections; [None] when the peer is
    dropped from the set. *)
Definition missing_of cx sv (dst : PeerId) (from_is_credential : bool) (untrusted : list PeerId) (p : PeerId) : option (bool * bool) :=
  if (p =? cx_my_peer_id cx) || (from_is_credential && negb (p =? dst)) || bool_decide (p ∈ untrusted) then None
  else
    let info := si_peer_infos (sv_db sv) !! p in
    let conn := si_conn_map (sv_db sv) !! p in
    match info, conn with
    | None, None => None
    | _, _ =>
        let missing_info := match info with Some i => ri_version i =? 0 | None => true end in
        let needs_conn :=
          match info with
          | Some i =>
              negb (is_credential_peer_info i) ||
              match get_credential_info_by_pubkey (sv_trust sv) (noise_static_pubkey i) with Some c => tc_allow_relay c | None => false end
          | None => true
          end in
        let missing_conn := needs_conn && match conn with Some c => ci_version c =? 0 | None => true end in
        Some (missing_info, missing_conn)
    end.

Definition with_missing s (m : gset PeerId) : SyncRouteSession :=
  let st := saved_state s in
  with_saved s (mkSaved (dst_saved_peer_info_versions st) (dst_saved_conn_info_version st)
    (dst_saved_foreign_network_versions st) (unreachable_peers_for_peer_info st) (unreachable_peers_for_conn_info st)
    m (last_sync_succ_timestamp st)).

(** The set is visited in ascending order. *)
Definition collect_missing_peer_ids cx sv s (conn_info : option ConnInfo) (from_is_credential : bool) (untrusted : list PeerId)
    : SyncRouteSession * (list PeerId * list PeerId) :=
  let missing := missing_peer_ids (saved_state s) ∪ mentioned_peers conn_info in
  if decide (missing = ∅) then (with_missing s missing, ([], []))
  else
    let found := map (λ p, (p, missing_of cx sv (dst_peer_id s) from_is_credential untrusted p)) (btree_iter missing) in
    let select (f : bool * bool → bool) := map fst (filter (λ x, from_option f false x.2 = true) found) in
    (with_missing s (list_to_set (select (λ b, b.1 || b.2))), (select fst, select snd)).

(** ** The first step: the session of the sender *)

Definition get_or_start_session cx sv en (p : PeerId) : Service * result nat SyncRouteInfoError :=
  if en_stopped en then (sv, Err Stopped)
  else
    let '(t, a) := get_or_create_session (sv_sessions sv) (cx_my_peer_id cx) p (en_random_id en) (en_now en) in
    (set_sessions sv t, Ok a).

Definition find_session cx sv en rq : Service * result nat SyncRouteInfoError :=
  if en_stopped en then (sv, Err Stopped)
  else
    match get_session (sv_sessions sv) (ib_from rq) with
    | Some a => (sv, Ok a)
    | None => if ib_is_initiator rq then get_or_start_session cx sv en (ib_from rq) else (sv, Err Stopped)
    end.

(** ** The second step: what is taken over *)

Definition from_is_credential en : bool := bool_decide (default Admin (en_identity en) = Credential).

Definition credential_info sv en : option TrustedCredentialPubkey :=
  if from_is_credential en then key ← en_public_key en; get_credential_info_by_pubkey (sv_trust sv) key else None.

(** The session of the address, when it is current and admits the request. *)
Definition admit_found (t : Sessions) rq (a : nat) (now : Z) : option SyncRouteSession :=
  match RouteSession.store t !! a with
  | None => None
  | Some s =>
      let '(s, admitted) := admit_inbound_locked s (ib_session_id rq) (ib_is_initiator rq) in
      if is_current_session t (ib_from rq) a && admitted then Some (with_contact s 0 1 now) else None
  end.

(** The infos that count, with their bytes. *)
Definition accepted_peer_infos en rq (credential : option TrustedCredentialPubkey) (infos : list RoutePeerInfo)
    : option (list RoutePeerInfo * list (list Z)) :=
  raws ← ib_raw_peer_infos rq;
  if from_is_credential en then
    credential ← credential;
    r ← extract_credential_peer_info usize_bits parse_cidr first4 last4 first6 last6 (ib_from rq) infos raws credential;
    match r with Some (info, raw) => Some ([info], [raw]) | None => Some ([], []) end
  else Some (infos, raws).

(** Whether something was stored, or the error with what was stored before it. *)
Definition receive_peer_infos cx sv s en rq (credential : option TrustedCredentialPubkey)
    : option (Service * SyncRouteSession * result bool SyncRouteInfoError) :=
  match ib_peer_infos rq with
  | None => Some (sv, s, Ok false)
  | Some infos =>
      r ← accepted_peer_infos en rq credential infos;
      let '(pi, rpi) := r in
      match pi with
      | [] => Some (sv, s, Ok false)
      | _ =>
          r ← update_peer_infos (sv_db sv) (cx_my_peer_id cx) (cx_my_peer_route_id cx) (ib_from rq) pi rpi (en_now en);
          let '(db, res) := r in
          let sv := set_db sv db in
          match res with
          | Err e => Some (sv, s, Err e)
          | Ok _ =>
              let without_proof := match cx_network_secret cx with None => true | Some _ => false end in
              let sv := set_trust sv (verify_and_update_current_group_trusts (sv_trust sv) pi (cx_declarations cx) without_proof) in
              Some (sv, update_dst_saved_peer_info_version s pi (ib_from rq) (en_now en), Ok true)
          end
      end
  end.

Definition accept_conn_info en (credential : option TrustedCredentialPubkey) : bool :=
  negb (from_is_credential en) || match credential with Some c => tc_allow_relay c | None => false end.

Definition receive_conn_info sv s en rq (credential : option TrustedCredentialPubkey)
    : option (Service * SyncRouteSession * option ConnInfo) :=
  match ib_conn_info rq with
  | None => Some (sv, s, None)
  | Some c =>
      if accept_conn_info en credential then
        db ← update_conn_info default_rest (sv_db sv) c (en_now en);
        Some (set_db sv db, update_dst_saved_conn_info_version s c (ib_from rq) (en_now en), Some c)
      else Some (sv, s, None)
  end.

Definition receive_foreign_network sv s en rq : option (Service * SyncRouteSession * bool) :=
  match ib_foreign_network rq with
  | None => Some (sv, s, false)
  | Some infos =>
      if from_is_credential en then Some (sv, s, false)
      else
        let '(db, changed) := update_foreign_network (sv_db sv) infos (en_now en) in
        s ← update_dst_saved_foreign_network_version s infos (ib_from rq) (en_now en);
        Some (set_db sv db, s, changed)
  end.

Definition is_some {A} (o : option A) : bool := match o with Some _ => true | None => false end.

(** The body under the lock of the session [s]. *)
Definition receive_locked cx sv s en rq (credential : option TrustedCredentialPubkey)
    : option (Service * SyncRouteSession * result SyncRouteInfoResponse SyncRouteInfoError * list Effect) :=
  r ← receive_peer_infos cx sv s en rq credential;
  let '(sv, s, res) := r in
  match res with
  | Err e => Some (sv, s, Err e, [])
  | Ok infos_stored =>
      r ← receive_conn_info sv s en rq credential;
      let '(sv, s, accepted) := r in
      let need_update := infos_stored || is_some accepted in
      r ← (if need_update then refresh_now cx sv (en_now_unix en) else Some (sv, [], []));
      let '(sv, untrusted, effects) := r in
      r ← receive_foreign_network sv s en rq;
      let '(sv, s, foreign_changed) := r in
      r ← (if need_update || foreign_changed then
             sv ← rebuild cx sv;
             Some (update_foreign_network_owner_map cx sv,
                   if need_update then (notify_public_ipv6_route_change (en_ipv6 en)).2 else [])
           else Some (sv, []));
      let '(sv, notified) := r in
      let '(s, (missing, missing_conn)) := collect_missing_peer_ids cx sv s accepted (from_is_credential en) untrusted in
      let rsp := mkResponse (we_are_initiator s) (my_session_id s) None missing missing_conn in
      Some (sv, s, Ok rsp, effects ++ notified ++ disconnect_untrusted_peers untrusted ++
                             (if need_update || foreign_changed then [SyncNow] else []))
  end.

Definition set_session_at sv (a : nat) s : Service := set_sessions sv (set_session (sv_sessions sv) a s).

Definition receive cx sv en rq (a : nat)
    : option (Service * result SyncRouteInfoResponse SyncRouteInfoError * list Effect) :=
  let credential := credential_info sv en in
  if from_is_credential en && negb (is_some credential) then Some (sv, Err Stopped, [])
  else
    match admit_found (sv_sessions sv) rq a (en_now en) with
    | None => Some (sv, Err Stopped, [])
    | Some s =>
        r ← receive_locked cx sv s en rq credential;
        let '(sv, s, res, effects) := r in
        Some (set_session_at sv a s, res, effects)
    end.

(** Both steps. *)
Definition do_sync_route_info (between : Service → Service) cx sv en rq
    : option (Service * result SyncRouteInfoResponse SyncRouteInfoError * list Effect) :=
  let '(sv, found) := find_session cx sv en rq in
  match found with
  | Err e => Some (sv, Err e, [])
  | Ok a => receive cx (between sv) en rq a
  end.

(** ** The RPC *)

(** The bytes of each info have the peer of the decoded info. *)
Definition raw_matches_decoded (raws : list (list Z)) (infos : list RoutePeerInfo) : bool :=
  (length raws =? length infos)%nat &&
  forallb (λ x, bool_decide (decode_peer_id x.1 = Some (ri_peer_id x.2))) (zip raws infos).

Definition error_response (e : SyncRouteInfoError) : SyncRouteInfoResponse := mkResponse false 0 (Some (error_number e)) [] [].

(** [raw_input] is the undecoded request. *)
Definition sync_route_info (between : Service → Service) cx sv en (raw_input : option (list Z)) rq
    : option (Service * result SyncRouteInfoResponse RpcError * list Effect) :=
  let handle rq :=
    r ← do_sync_route_info between cx sv en rq;
    let '(sv, res, effects) := r in
    Some (sv, Ok (match res with Ok rsp => rsp | Err e => error_response e end), effects) in
  let with_raws raws := mkInbound (ib_from rq) (ib_session_id rq) (ib_is_initiator rq) (ib_peer_infos rq) raws
                          (ib_conn_info rq) (ib_foreign_network rq) in
  match ib_peer_infos rq with
  | None => handle (with_raws None)
  | Some infos =>
      match raw_input with
      | None => Some (sv, Err MalformatRpcPacket, [])
      | Some raw =>
          r ← extract_route_peer_infos usize_bits raw;
          match r with
          | Err _ => Some (sv, Err ExecutionError, [])
          | Ok raws => if raw_matches_decoded raws infos then handle (with_raws (Some raws)) else Some (sv, Err MalformatRpcPacket, [])
          end
      end
  end.

(** * Properties *)

(** ** What a message changes in the database *)

(** Nothing but placeholder infos for unknown peers, and connection rows. *)
Definition fills (now : Z) (db db' : SyncedRouteInfo) : Prop :=
  si_foreign_network db' = si_foreign_network db ∧ si_suppressed db' = si_suppressed db ∧
  ∀ p, si_peer_infos db' !! p = si_peer_infos db !! p ∨
    (si_peer_infos db !! p = None ∧ si_peer_infos db' !! p = Some (new_route_peer_info default_rest (Some now))).

Lemma fills_same now db db' : si_peer_infos db' = si_peer_infos db → si_foreign_network db' = si_foreign_network db →
  si_suppressed db' = si_suppressed db → fills now db db'.
Proof. intros E F S. split; [done|]. split; [done|]. intros p. left. by rewrite E. Qed.

Lemma fills_trans now db1 db2 db3 : fills now db1 db2 → fills now db2 db3 → fills now db1 db3.
Proof.
  intros (F1 & S1 & I1) (F2 & S2 & I2). split; [congruence|]. split; [congruence|]. intros p.
  destruct (I1 p) as [E1|[N1 E1]], (I2 p) as [E2|[N2 E2]]; [left; congruence|right; split; congruence|right; split; congruence|congruence].
Qed.

Lemma fills_inc now b db db' : fills now db db' → fills now db (inc_version_if b db').
Proof. by destruct b. Qed.

Lemma fill_fills now db peers : fills now db (fill_empty_peer_info default_rest db peers now).
Proof.
  unfold fill_empty_peer_info.
  assert (fills now db (foldl (fill_one default_rest now) (db, false) (btree_iter peers)).1) as Hf.
  { apply (foldl_inv (λ _ st, fills now db st.1)); [by apply fills_same|]. intros _ p [d need] _ IH. eapply fills_trans; [exact IH|].
    unfold fill_one. destruct (si_peer_infos d !! p) as [i|] eqn:E; cbn.
    - destruct (si_conn_map d !! p); by apply fills_same.
    - assert (fills now d (with_infos d (<[p:=new_route_peer_info default_rest (Some now)]> (si_peer_infos d)) (si_raw_peer_infos d))) as Hw.
      { split; [done|]. split; [done|]. intros q. cbn. destruct (decide (p = q)) as [->|]; [right; by rewrite lookup_insert_eq|left; by rewrite lookup_insert_ne]. }
      destruct (si_conn_map d !! p); exact Hw. }
  destruct (foldl _ _ _) as [d need]. by apply fills_inc.
Qed.

Lemma update_one_fills now db pv peers : fills now db (update_conn_info_one_peer db pv peers now).1.
Proof. unfold update_conn_info_one_peer. case_match; by apply fills_same. Qed.

Lemma update_conn_fills db c now db' : update_conn_info default_rest db c now = Some db' → fills now db db'.
Proof.
  destruct c as [b|l]; cbn [update_conn_info].
  - unfold update_conn_info_with_bitmap. set (db0 := fill_empty_peer_info _ _ _ _).
    destruct (try_fold _ _ _) as [[d need]|] eqn:E; [|done]. cbn. intros [= <-]. apply fills_inc.
    eapply fills_trans; [apply fill_fills|]. fold db0.
    assert (fills now db0 (d, need).1) as Hd; [|exact Hd]. revert E.
    apply (try_fold_pres (λ _ st, fills now db0 st.1)); [by apply fills_same|].
    intros _ kv [d1 n1] [d2 n2] _ IH. destruct (bitmap_connected_peers b _) as [peers|]; [|done]. cbn.
    destruct (update_conn_info_one_peer _ _ _ _) as [d3 ch] eqn:E3. intros [= <- <-].
    eapply fills_trans; [exact IH|]. eapply fills_trans; [apply fill_fills|]. cbn. change d3 with (d3, ch).1. rewrite <- E3. apply update_one_fills.
  - intros [= <-]. unfold update_conn_info_with_list.
    assert (fills now db (foldl (update_conn_info_row default_rest now) (db, false) l).1) as Hf.
    { apply (foldl_inv (λ _ st, fills now db st.1)); [by apply fills_same|]. intros _ row [d n] _ IH. unfold update_conn_info_row.
      destruct (pc_peer_id row) as [pv|]; [|exact IH]. destruct (update_conn_info_one_peer _ _ _ _) as [d3 ch] eqn:E3. cbn.
      eapply fills_trans; [exact IH|]. eapply fills_trans; [apply fill_fills|]. change d3 with (d3, ch).1. rewrite <- E3. apply update_one_fills. }
    destruct (foldl _ _ _) as [d n]. by apply fills_inc.
Qed.

(** One info stored, or none. *)
Lemma update_one_info db my route from info raw now db' res :
  update_peer_infos db my route from [info] [raw] now = Some (db', res) →
  si_conn_map db' = si_conn_map db ∧ si_foreign_network db' = si_foreign_network db ∧ si_suppressed db' = si_suppressed db ∧
  (si_peer_infos db' = si_peer_infos db ∨
   si_peer_infos db' = <[ri_peer_id info := info_with info (ri_version info) (Some now)]> (si_peer_infos db)).
Proof.
  unfold update_peer_infos. cbn [update_peer_infos_loop lookup list_lookup mbind option_bind].
  destruct (check_duplicate_peer_id _ _ _ _ _ _) as [[u|e]|]; [| |done]; cbn.
  - destruct (match si_peer_infos db !! ri_peer_id info with Some _ => _ | None => _ end); cbn; intros [= <- <-]; cbn; auto.
  - intros [= <- <-]. auto.
Qed.

Lemma update_groups_fields declarations flag t info : same_but_groups t (update_groups_of declarations flag t info).
Proof. unfold update_groups_of. repeat case_match; done. Qed.

Lemma verify_fields t infos declarations flag : same_but_groups t (verify_and_update_current_group_trusts t infos declarations flag).
Proof.
  unfold verify_and_update_current_group_trusts, verify_and_update_group_trusts.
  apply (foldl_inv (λ _ t', same_but_groups t t')); [done|]. intros _ info t' _ IH.
  eapply same_but_groups_trans; [exact IH|]. apply update_groups_fields.
Qed.

Lemma verify_db t infos declarations flag : synced (verify_and_update_current_group_trusts t infos declarations flag) = synced t.
Proof. apply verify_fields. Qed.

(** ** Credential peers *)

Abbreviation subset := (RouteTable.cidr_is_subset_str parse_cidr first4 last4 first6 last6).

(** An info that the credential [c] entitles its holder to publish. *)
Definition within_credential (c : TrustedCredentialPubkey) (info : RoutePeerInfo) : Prop :=
  is_credential_peer_info info = true ∧
  ∀ cidr, cidr ∈ ri_proxy_cidrs info → ∃ allowed, allowed ∈ tc_allowed_proxy_cidrs c ∧ subset cidr (text_string allowed) = true.

Lemma receive_own_info cx sv s en rq c sv1 s1 r :
  from_is_credential en = true → receive_peer_infos cx sv s en rq (Some c) = Some (sv1, s1, r) →
  si_conn_map (sv_db sv1) = si_conn_map (sv_db sv) ∧ si_foreign_network (sv_db sv1) = si_foreign_network (sv_db sv) ∧
  ∀ p, si_peer_infos (sv_db sv1) !! p = si_peer_infos (sv_db sv) !! p ∨
    (p = ib_from rq ∧ ∃ info, si_peer_infos (sv_db sv1) !! p = Some info ∧ within_credential c info).
Proof.
  intros Hc. unfold receive_peer_infos, accepted_peer_infos. destruct (ib_peer_infos rq) as [infos|]; [|intros [= <- <- <-]; auto].
  destruct (ib_raw_peer_infos rq) as [raws|]; [|done]. cbn [mbind option_bind]. rewrite Hc. cbn [mbind option_bind].
  destruct (extract_credential_peer_info _ _ _ _ _ _ _ _ _ _) as [[[info raw]|]|] eqn:Ex; [| |done]; cbn [mbind option_bind];
    [|intros [= <- <- <-]; auto].
  destruct (update_peer_infos _ _ _ _ _ _ _) as [[db res]|] eqn:Eu; [|done]. cbn [mbind option_bind].
  apply update_one_info in Eu as (Ec & Ef & _ & Ei). apply extract_spec in Ex as (Hid & Hflag & (sent & _ & _ & _ & _ & Hcidr) & _).
  assert (within_credential c (info_with info (ri_version info) (Some (en_now en)))) as Hw.
  { split; [done|]. cbn. intros cidr Hin. by apply Hcidr in Hin as [_ ?]. }
  assert (∀ p, si_peer_infos db !! p = si_peer_infos (sv_db sv) !! p ∨
    (p = ib_from rq ∧ ∃ info, si_peer_infos db !! p = Some info ∧ within_credential c info)) as Hp.
  { intros p. destruct Ei as [->| ->]; [by left|]. rewrite Hid. destruct (decide (ib_from rq = p)) as [->|];
      [rewrite lookup_insert_eq; right; split; [done|]; by eexists|by left; rewrite lookup_insert_ne]. }
  destruct res as [u|e]; intros [= <- <- <-]; [|done].
  unfold sv_db at 1 3 5 7. cbn. by rewrite verify_db.
Qed.

Lemma receive_own_conns sv s en rq c sv1 s1 accepted :
  from_is_credential en = true → receive_conn_info sv s en rq (Some c) = Some (sv1, s1, accepted) →
  fills (en_now en) (sv_db sv) (sv_db sv1) ∧ (tc_allow_relay c = true ∨ sv_db sv1 = sv_db sv).
Proof.
  intros Hc. unfold receive_conn_info, accept_conn_info. rewrite Hc. cbn [negb orb].
  destruct (ib_conn_info rq) as [ci|]; [|intros [= <- <- <-]; split; [by apply fills_same|by right]].
  destruct (tc_allow_relay c); [|intros [= <- <- <-]; split; [by apply fills_same|by right]].
  destruct (update_conn_info _ _ _ _) as [db|] eqn:Eu; [|done]. cbn. intros [= <- <- <-]. split; [by eapply update_conn_fills|by left].
Qed.

(** A rebuild leaves the database alone, like the update of the owners. *)
Lemma rebuild_db cx sv sv' : rebuild cx sv = Some sv' → sv_trust (update_foreign_network_owner_map cx sv') = sv_trust sv.
Proof.
  intros (E & _)%update_all_rebuilt. unfold update_foreign_network_owner_map. destruct (foldl _ _ _). exact E.
Qed.

(** The outcome of the body in terms of its parts. *)
Lemma receive_locked_spec cx sv s en rq credential sv' s' res effects :
  receive_locked cx sv s en rq credential = Some (sv', s', res, effects) →
  ∃ sv1 s1 r, receive_peer_infos cx sv s en rq credential = Some (sv1, s1, r) ∧
  match r with
  | Err e => sv' = sv1 ∧ s' = s1 ∧ res = Err e ∧ effects = []
  | Ok stored =>
      ∃ sv2 s2 accepted sv3 untrusted keys sv4 s4 changed,
        receive_conn_info sv1 s1 en rq credential = Some (sv2, s2, accepted) ∧
        (if stored || is_some accepted then refresh_now cx sv2 (en_now_unix en) = Some (sv3, untrusted, keys)
         else sv3 = sv2 ∧ untrusted = [] ∧ keys = []) ∧
        receive_foreign_network sv3 s2 en rq = Some (sv4, s4, changed) ∧
        (if stored || is_some accepted || changed
         then ∃ sv5, rebuild cx sv4 = Some sv5 ∧ sv' = update_foreign_network_owner_map cx sv5 else sv' = sv4) ∧
        (∀ p, ClosePeer p ∈ effects ↔ ClosePeer p ∈ keys ∨ p ∈ untrusted) ∧
        s' = (collect_missing_peer_ids cx sv' s4 accepted (from_is_credential en) untrusted).1 ∧
        res = Ok (let '(missing, missing_conn) := (collect_missing_peer_ids cx sv' s4 accepted (from_is_credential en) untrusted).2 in
                  mkResponse (we_are_initiator s') (my_session_id s') None missing missing_conn)
  end.
Proof.
  unfold receive_locked. destruct (receive_peer_infos cx sv s en rq credential) as [[[sv1 s1] r]|]; [|done]. cbn [mbind option_bind].
  destruct r as [stored|e]; [|intros [= <- <- <- <-]; exists sv1, s1, (Err e); auto].
  destruct (receive_conn_info sv1 s1 en rq credential) as [[[sv2 s2] accepted]|] eqn:E2; [|done]. cbn [mbind option_bind].
  destruct (if stored || is_some accepted then refresh_now cx sv2 (en_now_unix en) else Some (sv2, [], [])) as [[[sv3 untrusted] keys]|] eqn:E3; [|done].
  cbn [mbind option_bind]. destruct (receive_foreign_network sv3 s2 en rq) as [[[sv4 s4] changed]|] eqn:E4; [|done]. cbn [mbind option_bind].
  match goal with |- (r ← ?x; _) = _ → _ => destruct x as [[sv5 notified]|] eqn:E5; [|done] end. cbn [mbind option_bind].
  destruct (collect_missing_peer_ids cx sv5 s4 accepted (from_is_credential en) untrusted) as [s6 [missing missing_conn]] eqn:E6.
  intros [= <- <- <- <-]. exists sv1, s1, (Ok stored). split; [done|].
  exists sv2, s2, accepted, sv3, untrusted, keys, sv4, s4, changed. split; [done|].
  split; [destruct (stored || is_some accepted); [done|by injection E3 as <- <- <-]|]. split; [done|]. rewrite E6. cbn.
  assert (∀ p, ClosePeer p ∉ notified) as Hn.
  { destruct (stored || is_some accepted || changed); [|by injection E5 as _ <-; intros p ?%elem_of_nil].
    destruct (rebuild cx sv4) as [sv5'|]; [|done]. cbn in E5. injection E5 as _ <-. intros p. destruct (stored || is_some accepted); [|by intros ?%elem_of_nil].
    unfold notify_public_ipv6_route_change. destruct (en_ipv6 en); cbn; [|by intros ?%elem_of_nil]. by intros ?%list_elem_of_singleton. }
  split.
  { destruct (stored || is_some accepted || changed); [|by injection E5 as <- _]. destruct (rebuild cx sv4) as [sv5'|]; [|done].
    cbn in E5. injection E5 as <- _. by exists sv5'. }
  split; [|done]. intros p. rewrite !elem_of_app. unfold disconnect_untrusted_peers. rewrite list_elem_of_fmap.
  split; [intros [?|[[]%Hn|[(q & [= ->] & ?)|Hs]]]; auto|].
  - destruct (stored || is_some accepted || changed); [by apply list_elem_of_singleton in Hs|by apply elem_of_nil in Hs].
  - intros [?|?]; [by left|]. right; right; left. by exists p.
Qed.

(** C27: a peer that this node knows by a credential can change nothing but its own record.
    Every peer info stored after its request was stored before, or is its own, marked as a
    credential peer and announcing only networks its credential allows, or (only if its
    credential allows relaying) is the placeholder of an unknown peer; the infos of all
    others stay unless their own credential was revoked; connection rows change only if it
    may relay; and no foreign network is taken over. *)
Theorem credential_peer_speaks_for_itself cx sv en rq a c sv' res effects :
  from_is_credential en = true → credential_info sv en = Some c →
  receive cx sv en rq a = Some (sv', res, effects) →
  (∀ p info, si_peer_infos (sv_db sv') !! p = Some info →
     si_peer_infos (sv_db sv) !! p = Some info ∨ (p = ib_from rq ∧ within_credential c info) ∨
     (tc_allow_relay c = true ∧ si_peer_infos (sv_db sv) !! p = None ∧ info = new_route_peer_info default_rest (Some (en_now en)))) ∧
  (∀ p info, p ≠ ib_from rq → si_peer_infos (sv_db sv) !! p = Some info →
     si_peer_infos (sv_db sv') !! p = Some info ∨ ClosePeer p ∈ effects) ∧
  (∀ p row, si_conn_map (sv_db sv') !! p = Some row → si_conn_map (sv_db sv) !! p = Some row ∨ tc_allow_relay c = true) ∧
  (∀ key e, si_foreign_network (sv_db sv') !! key = Some e → si_foreign_network (sv_db sv) !! key = Some e).
Proof.
  intros Hcred Hinfo. unfold receive. rewrite Hinfo, Hcred. cbn [andb negb is_some].
  destruct (admit_found _ _ _ _) as [s|]; [|intros [= <- <- <-]; split_and!; auto].
  destruct (receive_locked _ _ _ _ _ _) as [[[[sv0 s0] r0] eff]|] eqn:E; [|done]. cbn. intros [= <- <- <-].
  change (sv_db (set_session_at sv0 a s0)) with (sv_db sv0).
  apply receive_locked_spec in E as (sv1 & s1 & r & E1 & Hr). apply receive_own_info in E1 as (C1 & F1 & I1); [|done].
  destruct r as [stored|e].
  2:{ destruct Hr as (-> & _ & _ & ->). split_and!; [|intros p info Hp Hi| |].
      - intros p info Hi. destruct (I1 p) as [E|(-> & i & E & Hw)]; [left; congruence|right; left; split; [done|congruence]].
      - left. destruct (I1 p) as [E|(-> & _)]; [congruence|done].
      - intros p row Hrow. left. congruence.
      - intros key e' He. congruence. }
  destruct Hr as (sv2 & s2 & accepted & sv3 & u & keys & sv4 & s4 & changed & E2 & E3 & E4 & E5 & Heff & _).
  apply receive_own_conns in E2 as [(F2 & _ & I2) R2]; [|done].
  assert (sv_db sv0 = sv_db sv3) as ->.
  { assert (sv4 = sv3) as -> by (revert E4; unfold receive_foreign_network; rewrite Hcred; destruct (ib_foreign_network rq); by intros [= -> _ _]).
    destruct (stored || is_some accepted || changed); [|by rewrite E5]. destruct E5 as (sv5 & E5 & ->). apply rebuild_db in E5. unfold sv_db. by rewrite E5. }
  assert ((∀ p, si_peer_infos (sv_db sv3) !! p = if bool_decide (p ∈ u) then None else si_peer_infos (sv_db sv2) !! p) ∧
    (∀ p, si_conn_map (sv_db sv3) !! p = if bool_decide (p ∈ u) then None else si_conn_map (sv_db sv2) !! p) ∧
    (∀ key, si_foreign_network (sv_db sv3) !! key = if bool_decide (key.1 ∈ u) then None else si_foreign_network (sv_db sv2) !! key)) as (I3 & C3 & F3).
  { destruct (stored || is_some accepted); [by eapply refresh_removes|]. destruct E3 as (-> & -> & _).
    split_and!; intros x; by rewrite bool_decide_false by apply not_elem_of_nil. }
  split_and!.
  - intros p info. rewrite I3. case_bool_decide; [done|]. intros Hi. destruct (I2 p) as [E|[N E]].
    + rewrite E in Hi. destruct (I1 p) as [E'|(-> & i & E' & Hw)]; [left; congruence|right; left; split; [done|congruence]].
    + right; right. destruct R2 as [Hrelay|Hsame]; [|rewrite Hsame in E; congruence]. split; [done|].
      split; [|congruence]. destruct (I1 p) as [<-|(_ & i & E' & _)]; [done|congruence].
  - intros p info Hp Hi. rewrite I3. case_bool_decide as Hu; [right; apply Heff; by right|]. left.
    destruct (I1 p) as [E'|(-> & _)]; [|done]. destruct (I2 p) as [E|[N _]]; congruence.
  - intros p row. rewrite C3. case_bool_decide; [done|]. destruct R2 as [?|Hsame]; [by right|]. rewrite Hsame, C1. by left.
  - intros key e. rewrite F3. case_bool_decide; [done|]. by rewrite F2, F1.
Qed.

(** ** Refusals *)

Lemma update_infos_loop_other my route from now raws infos idx db need db' need' res :
  update_peer_infos_loop my route from now raws infos idx db need = Some (db', need', res) →
  si_suppressed db' = si_suppressed db ∧ res ≠ Err Stopped.
Proof.
  revert idx db need. induction infos as [|info infos IH]; intros idx db need; cbn [update_peer_infos_loop]; [by intros [= <- <- <-]|].
  destruct (raws !! idx) as [raw|]; [|done]. cbn [mbind option_bind].
  destruct (check_duplicate_peer_id _ _ _ _ _ _) as [[u|e]|] eqn:Ec; [| |done]; cbn [mbind option_bind].
  - destruct (match si_peer_infos db !! ri_peer_id info with Some _ => _ | None => _ end); intros [Hs Hr]%IH; done.
  - intros [= <- <- <-]. split; [done|]. intros [= ->]. unfold check_duplicate_peer_id in Ec. repeat case_match; done.
Qed.

Lemma update_infos_other db my route from infos raws now db' res :
  update_peer_infos db my route from infos raws now = Some (db', res) → si_suppressed db' = si_suppressed db ∧ res ≠ Err Stopped.
Proof.
  unfold update_peer_infos. destruct (update_peer_infos_loop _ _ _ _ _ _ _ _ _) as [[[d need] r]|] eqn:E; [|done]. cbn.
  apply update_infos_loop_other in E as [Hs Hr]. destruct r; intros [= <- <-]; [|done]. by destruct need.
Qed.

Lemma receive_infos_other cx sv s en rq credential sv1 s1 r :
  receive_peer_infos cx sv s en rq credential = Some (sv1, s1, r) →
  si_suppressed (sv_db sv1) = si_suppressed (sv_db sv) ∧ r ≠ Err Stopped ∧
  sv_table sv1 = sv_table sv ∧ sv_table_with_cost sv1 = sv_table_with_cost sv.
Proof.
  unfold receive_peer_infos. destruct (ib_peer_infos rq) as [infos|]; [|by intros [= <- <- <-]].
  destruct (accepted_peer_infos en rq credential infos) as [[pi rpi]|]; [|done]. cbn [mbind option_bind].
  destruct pi as [|x pi]; [by intros [= <- <- <-]|]. set (l := x :: pi).
  destruct (update_peer_infos _ _ _ _ _ _ _) as [[db res]|] eqn:E; [|done]. cbn [mbind option_bind].
  apply update_infos_other in E as [Hs Hr]. destruct res as [u|e]; intros [= <- <- <-]; [|split; [done|]; split; [|done]; intros [= ->]; by apply Hr]. split; [|done].
  unfold sv_db at 1. cbn. by rewrite verify_db.
Qed.

(** The request is refused: no session that the sender may use, a credential peer whose
    credential is not known, or a session that does not admit it (RouteSession.v). *)
Definition refused_request (between : Service → Service) cx sv en rq : Prop :=
  match find_session cx sv en rq with
  | (_, Err _) => True
  | (sv1, Ok a) =>
      (from_is_credential en = true ∧ credential_info (between sv1) en = None) ∨
      admit_found (sv_sessions (between sv1)) rq a (en_now en) = None
  end.

(** Finding the session changes nothing but the table of sessions, and that only to start
    the session of an initiator that has none. *)
Lemma find_session_spec cx sv en rq sv1 found :
  find_session cx sv en rq = (sv1, found) →
  (sv1 = sv ∧ (found = Err Stopped ∨ ∃ a, found = Ok a ∧ get_session (sv_sessions sv) (ib_from rq) = Some a)) ∨
  (en_stopped en = false ∧ get_session (sv_sessions sv) (ib_from rq) = None ∧ ib_is_initiator rq = true ∧
   ∃ t a, get_or_create_session (sv_sessions sv) (cx_my_peer_id cx) (ib_from rq) (en_random_id en) (en_now en) = (t, a) ∧
     sv1 = set_sessions sv t ∧ found = Ok a).
Proof.
  unfold find_session, get_or_start_session. destruct (en_stopped en); [intros [= <- <-]; auto|].
  destruct (get_session (sv_sessions sv) (ib_from rq)) as [a|] eqn:Eg; [intros [= <- <-]; left; split; [done|]; right; by exists a|].
  destruct (ib_is_initiator rq); [|intros [= <- <-]; auto].
  destruct (get_or_create_session _ _ _ _ _) as [t a] eqn:Et. intros [= <- <-]. right. split_and!; auto. by exists t, a.
Qed.

(** A request is answered with [Stopped] exactly when it is refused, and then nothing
    happened: the state is the one the other calls left (with at most a new session for an
    initiator) and there is no effect.  The other error, a duplicated peer id, has no
    effects either. *)
Theorem refused_request_changes_nothing between cx sv en rq sv' res effects :
  do_sync_route_info between cx sv en rq = Some (sv', res, effects) →
  (res = Err Stopped ↔ refused_request between cx sv en rq) ∧
  (res = Err Stopped → sv' = match find_session cx sv en rq with (_, Err _) => sv | (sv1, Ok _) => between sv1 end) ∧
  (∀ e, res = Err e → effects = []).
Proof.
  unfold do_sync_route_info, refused_request. destruct (find_session cx sv en rq) as [sv1 found] eqn:Ef.
  pose proof (find_session_spec _ _ _ _ _ _ Ef) as Hf. destruct found as [a|e].
  2:{ intros [= <- <- <-]. destruct Hf as [[-> [[= ->]|(? & ? & _)]]|(_ & _ & _ & t & a & _ & _ & ?)]; done. }
  unfold receive. destruct (from_is_credential en && negb (is_some (credential_info (between sv1) en))) eqn:Ec.
  { intros [= <- <- <-]. split; [|done]. split; [intros _; left|done]. apply andb_true_iff in Ec as [-> Ec].
    split; [done|]. by destruct (credential_info (between sv1) en). }
  destruct (admit_found (sv_sessions (between sv1)) rq a (en_now en)) as [s|]; [|by intros [= <- <- <-]; split; [split; [intros _; by right|done]|]].
  destruct (receive_locked _ _ _ _ _ _) as [[[[sv0 s0] r0] eff]|] eqn:E; [|done]. cbn. intros [= <- <- <-].
  apply receive_locked_spec in E as (sv2 & s2 & r & E1 & Hr). apply receive_infos_other in E1 as (_ & Hr1 & _).
  assert (r0 ≠ Err Stopped) as Hn.
  { destruct r as [stored|e]; [|destruct Hr as (_ & _ & -> & _); intros [= ->]; by apply Hr1].
    by destruct Hr as (? & ? & ? & ? & ? & ? & ? & ? & ? & _ & _ & _ & _ & _ & _ & ->). }
  split; [|split; [done|]].
  - split; [done|]. intros [[Hc Hi]|?]; [|done]. rewrite Hc, Hi in Ec. done.
  - intros e ->. destruct r as [stored|e']; [|by destruct Hr as (_ & _ & _ & ->)].
    by destruct Hr as (? & ? & ? & ? & ? & ? & ? & ? & ? & _ & _ & _ & _ & _ & _ & ?).
Qed.

(** Without the wait and for a known sender, both steps admit what the single step of
    RouteSession.v admits, with the same sessions. *)
Theorem admission_in_two_steps cx sv en rq :
  en_stopped en = false →
  admit_sync (sv_sessions sv) (cx_my_peer_id cx) (ib_from rq) (ib_session_id rq) (ib_is_initiator rq) (en_random_id en) (en_now en) =
  match find_session cx sv en rq with
  | (sv1, Err e) => (sv_sessions sv1, Err e)
  | (sv1, Ok a) =>
      match admit_found (sv_sessions sv1) rq a (en_now en) with
      | Some s => (set_session (sv_sessions sv1) a s, Ok a)
      | None => (sv_sessions sv1, Err Stopped)
      end
  end.
Proof.
  intros Hs. unfold admit_sync, find_session, get_or_start_session, get_session, admit_found. rewrite Hs.
  destruct (sessions (sv_sessions sv) !! ib_from rq) as [a|].
  - destruct (RouteSession.store (sv_sessions sv) !! a) as [s|]; [|done]. destruct (admit_inbound_locked s _ _) as [s' b].
    by destruct (is_current_session _ _ _ && b).
  - destruct (ib_is_initiator rq); [|done]. destruct (get_or_create_session _ _ _ _ _) as [t a]. cbn.
    destruct (RouteSession.store t !! a) as [s|]; [|done]. destruct (admit_inbound_locked s _ _) as [s' b].
    by destruct (is_current_session _ _ _ && b).
Qed.

(** ** Missing records *)

(** The peers whose records may be asked from the neighbour [dst]: mentioned now or
    remembered, neither this node nor removed, known to the database, and for a credential
    peer only itself. *)
Definition may_request cx sv s (conn_info : option ConnInfo) (from_is_credential : bool) (untrusted : list PeerId) (p : PeerId) : Prop :=
  p ∈ missing_peer_ids (saved_state s) ∪ mentioned_peers conn_info ∧ p ≠ cx_my_peer_id cx ∧
  (from_is_credential = true → p = dst_peer_id s) ∧ p ∉ untrusted ∧
  (is_Some (si_peer_infos (sv_db sv) !! p) ∨ is_Some (si_conn_map (sv_db sv) !! p)).

Definition lacks_info sv (p : PeerId) : Prop := ∀ info, si_peer_infos (sv_db sv) !! p = Some info → ri_version info = 0.

(** A credential peer that may not relay publishes no connections. *)
Definition lacks_conns sv (p : PeerId) : Prop :=
  (∀ row, si_conn_map (sv_db sv) !! p = Some row → ci_version row = 0) ∧
  (∀ info, si_peer_infos (sv_db sv) !! p = Some info → is_credential_peer_info info = true →
     ∃ c, get_credential_info_by_pubkey (sv_trust sv) (noise_static_pubkey info) = Some c ∧ tc_allow_relay c = true).

Lemma missing_of_spec cx sv dst b untrusted p :
  match missing_of cx sv dst b untrusted p with
  | None => p = cx_my_peer_id cx ∨ (b = true ∧ p ≠ dst) ∨ p ∈ untrusted ∨
      (si_peer_infos (sv_db sv) !! p = None ∧ si_conn_map (sv_db sv) !! p = None)
  | Some (i, c) =>
      p ≠ cx_my_peer_id cx ∧ (b = true → p = dst) ∧ p ∉ untrusted ∧
      (is_Some (si_peer_infos (sv_db sv) !! p) ∨ is_Some (si_conn_map (sv_db sv) !! p)) ∧
      (i = true ↔ lacks_info sv p) ∧ (c = true ↔ lacks_conns sv p)
  end.
Proof.
  unfold missing_of, lacks_info, lacks_conns. destruct (Z.eqb_spec p (cx_my_peer_id cx)); cbn [orb]; [by left|].
  destruct (b && negb (p =? dst)) eqn:Eb; cbn [orb].
  { apply andb_true_iff in Eb as [-> Eb]. apply negb_true_iff, Z.eqb_neq in Eb. auto. }
  assert (b = true → p = dst) as Hb by (intros ->; cbn in Eb; by apply negb_false_iff, Z.eqb_eq in Eb).
  case_bool_decide as Hu; [auto|].
  destruct (si_peer_infos (sv_db sv) !! p) as [info|], (si_conn_map (sv_db sv) !! p) as [row|]; [| | |by auto];
    split_and!; eauto; try (split; [intros ?%Z.eqb_eq i [= <-]; done|intros Hi; by apply Z.eqb_eq, Hi]); try done.
  - rewrite andb_true_iff, Z.eqb_eq. destruct (is_credential_peer_info info) eqn:Ef; cbn [negb orb].
    + destruct (get_credential_info_by_pubkey _ _) as [c|] eqn:Ec.
      * split; [intros [Hr Hv]; split; [by intros ? [= <-]|intros ? [= <-] _; by exists c]|].
        intros [Hv Hr]. destruct (Hr info eq_refl Ef) as (c' & Hc & ?). split; [congruence|auto].
      * split; [by intros []|]. intros [_ Hr]. destruct (Hr info eq_refl Ef) as (c & Hc & _). congruence.
    + split; [intros [_ Hv]; split; [by intros ? [= <-]|intros ? [= <-] ?; congruence]|]. intros [Hv _]. auto.
  - rewrite andb_true_r. destruct (is_credential_peer_info info) eqn:Ef; cbn [negb orb].
    + destruct (get_credential_info_by_pubkey _ _) as [c|] eqn:Ec.
      * split; [intros Hr; split; [done|intros ? [= <-] _; by exists c]|].
        intros [_ Hr]. destruct (Hr info eq_refl Ef) as (c' & Hc & ?). congruence.
      * split; [done|]. intros [_ Hr]. destruct (Hr info eq_refl Ef) as (c & Hc & _). congruence.
    + split; [|done]. intros _. split; [done|intros ? [= <-] ?; congruence].
  - cbn [andb]. split; [intros ?%Z.eqb_eq; split; [by intros ? [= <-]|done]|]. intros [Hv _]. by apply Z.eqb_eq, Hv.
Qed.

(** The answer asks for exactly the infos and connection rows that the node lacks of
    the peers it may ask for, and these peers are remembered until the records arrive. *)
Theorem missing_records_requested cx sv s conn_info b untrusted p :
  let '(s', (infos, conns)) := collect_missing_peer_ids cx sv s conn_info b untrusted in
  (p ∈ infos ↔ may_request cx sv s conn_info b untrusted p ∧ lacks_info sv p) ∧
  (p ∈ conns ↔ may_request cx sv s conn_info b untrusted p ∧ lacks_conns sv p) ∧
  (p ∈ missing_peer_ids (saved_state s') ↔ p ∈ infos ∨ p ∈ conns).
Proof.
  unfold collect_missing_peer_ids, may_request. set (missing := _ ∪ mentioned_peers conn_info).
  case_decide as Em.
  { cbn. rewrite Em. split_and!; split; try by intros ?%elem_of_nil.
    - by intros [[[]%elem_of_empty _] _].
    - by intros [[[]%elem_of_empty _] _].
    - by intros ?%elem_of_empty.
    - by intros [?%elem_of_nil|?%elem_of_nil]. }
  set (found := map _ (btree_iter missing)).
  assert (∀ f, p ∈ map fst (filter (λ x, from_option f false x.2 = true) found) ↔
    p ∈ missing ∧ from_option f false (missing_of cx sv (dst_peer_id s) b untrusted p) = true) as Hsel.
  { intros f. rewrite list_elem_of_fmap. setoid_rewrite list_elem_of_filter. unfold found. setoid_rewrite list_elem_of_fmap.
    setoid_rewrite set_btree_iter. split.
    - intros ([q o] & -> & Hf & (q' & [= <- ->] & Hin)). done.
    - intros [Hin Hf]. exists (p, missing_of cx sv (dst_peer_id s) b untrusted p). split; [done|]. split; [done|]. by exists p. }
  cbn [with_missing saved_state missing_peer_ids with_saved]. rewrite elem_of_list_to_set, !Hsel.
  pose proof (missing_of_spec cx sv (dst_peer_id s) b untrusted p) as Hm.
  destruct (missing_of _ _ _ _ _ p) as [[i c]|]; cbn.
  - destruct Hm as (H1' & H2' & H3' & H4' & Hi & Hc). rewrite <- Hi, <- Hc, orb_true_iff. tauto.
  - split_and!; split; try (by intros [_ ?]); try tauto.
    + intros [(_ & Hme & Hcr & Hu & Hk) _]. exfalso. destruct Hm as [?|[[? ?]|[?|[E1 E2]]]]; [done|auto|done|].
      rewrite E1, E2 in Hk. by destruct Hk as [[]|[]].
    + intros [(_ & Hme & Hcr & Hu & Hk) _]. exfalso. destruct Hm as [?|[[? ?]|[?|[E1 E2]]]]; [done|auto|done|].
      rewrite E1, E2 in Hk. by destruct Hk as [[]|[]].
Qed.

(** ** The tables and the election agree *)

(** Both tables hide the peers that the database suppresses. *)
Definition agree sv : Prop :=
  t_suppressed (sv_table sv) = si_suppressed (sv_db sv) ∧ t_suppressed (sv_table_with_cost sv) = si_suppressed (sv_db sv).

(** A step that touches neither the tables nor the suppressed peers. *)
Definition quiet sv sv' : Prop :=
  si_suppressed (sv_db sv') = si_suppressed (sv_db sv) ∧ sv_table sv' = sv_table sv ∧ sv_table_with_cost sv' = sv_table_with_cost sv.

Lemma quiet_trans sv1 sv2 sv3 : quiet sv1 sv2 → quiet sv2 sv3 → quiet sv1 sv3.
Proof. unfold quiet. intros (-> & -> & ->) (-> & -> & ->). done. Qed.

Lemma agree_quiet sv sv' : quiet sv sv' → agree sv → agree sv'.
Proof. unfold quiet, agree. by intros (-> & -> & ->). Qed.

Lemma agree_refresh cx sv now sv' untrusted effects : refresh_now cx sv now = Some (sv', untrusted, effects) → agree sv'.
Proof. intros (active & _ & _ & _ & _ & Ht & Htc)%refresh_service_spec. done. Qed.

Lemma agree_rebuild cx sv sv' : rebuild cx sv = Some sv' → agree sv'.
Proof. intros (Et & _ & _ & Ht & Htc)%update_all_rebuilt. unfold agree, sv_db in *. by rewrite Et, Ht, Htc. Qed.

Lemma owners_quiet cx sv : quiet sv (update_foreign_network_owner_map cx sv).
Proof. unfold update_foreign_network_owner_map. by destruct (foldl _ _ _). Qed.

Lemma my_info_suppressed t my new now : si_suppressed (synced (update_my_info_and_groups t my new now).1) = si_suppressed (synced t).
Proof.
  unfold update_my_info_and_groups. destruct (update_my_peer_info (synced t) my new now) as [db u] eqn:E.
  assert (si_suppressed db = si_suppressed (synced t)) as Hs.
  { unfold update_my_peer_info in E. repeat case_match; injection E as <- _; done. }
  destruct u; [|done]. match goal with |- context [if ?b then update_my_group_trusts _ _ _ else _] => destruct b end; [|done].
  cbn [fst]. unfold update_my_group_trusts. by rewrite (proj1 (set_groups_fields _ _ _)).
Qed.

Lemma reconcile_quiet cx sv (i : InterfacePeerSnapshot) changed now : quiet sv (reconcile_my_conn_info default_rest cx sv i changed now).1.
Proof.
  unfold reconcile_my_conn_info. destruct (LinkState.update_my_conn_info _ _ _ _ _) as [db u] eqn:E.
  assert (si_suppressed db = si_suppressed (sv_db sv)) as Hs.
  { unfold LinkState.update_my_conn_info in E. revert E. destruct (fill_fills now (sv_db sv) (derive_advertised_connected_peers cx sv i)) as (_ & <- & _).
    destruct (match si_conn_map _ !! _ with None => true | Some _ => _ end); intros [= <- _]; done. }
  destruct u; [done|]. by destruct (changed && _).
Qed.

Lemma set_interface_quiet sv i g a p : quiet sv (set_interface sv i g a p).
Proof. done. Qed.

Lemma marks_quiet sv n : quiet sv (Nat.iter n mark_interface_peers_dirty sv).
Proof. induction n as [|n IH]; [done|]. eapply quiet_trans; [exact IH|]. done. Qed.

Lemma interface_snapshot_quiet cx rounds sv sv' i : interface_peer_snapshot cx sv rounds = Some (sv', i) → quiet sv sv'.
Proof.
  revert sv. induction rounds as [|[answers marks] rounds IH]; intros sv; cbn [interface_peer_snapshot];
    (destruct (ip_generation (sv_interface sv) =? sv_generation sv); [by intros [= <- <-]|]); [done|].
  pose proof (marks_quiet sv marks) as Hm. destruct (sv_generation sv =? _); [|intros E%IH; by eapply quiet_trans].
  intros [= <- <-]. eapply quiet_trans; [exact Hm|]. done.
Qed.

Lemma connections_quiet cx sv requery rounds now sv' b :
  update_my_connections default_rest cx sv requery rounds now = Some (sv', b) → quiet sv sv'.
Proof.
  unfold update_my_connections. destruct (_ && negb requery && _).
  { intros [= E]. pose proof (reconcile_quiet cx sv (sv_interface sv) false now) as Hq. by rewrite E in Hq. }
  set (sv0 := if sv_applied_generation sv =? sv_generation sv then mark_interface_peers_dirty sv else sv).
  assert (quiet sv sv0) as H0' by (unfold sv0; by case_match).
  destruct (interface_peer_snapshot cx sv0 rounds) as [[sv1 i]|] eqn:E; [|done]. cbn. apply interface_snapshot_quiet in E.
  set (sv2 := set_interface sv1 _ _ _ _).
  pose proof (reconcile_quiet cx sv2 i (negb (bool_decide (sv_applied_peers sv1 = ip_peers i))) now) as Hq.
  destruct (reconcile_my_conn_info _ _ _ _ _ _) as [sv3 u]. intros [= <- <-].
  eapply quiet_trans; [exact H0'|]. eapply quiet_trans; [exact E|]. exact Hq.
Qed.

Lemma foreign_quiet cx sv listed now sv' b : update_my_foreign_networks cx sv listed now = Some (sv', b) → quiet sv sv'.
Proof.
  unfold update_my_foreign_networks. destruct (match sv_last_foreign_update sv with Some _ => _ | None => _ end); [by intros [= <- <-]|].
  unfold update_my_foreign_network_entries. destruct (try_fold (renew_stored _ _) _ _) as [[[m fresh] u]|]; [|done]. cbn.
  destruct (try_fold (insert_fresh _) _ _) as [[stored u2]|]; [|done]. cbn. intros [= <- <-]. by destruct u2.
Qed.

Lemma disconnect_agree cx sv now sv' b effects :
  refresh_credential_trusts_and_disconnect usize_bits parse_cidr first4 last4 first6 last6 pet_dijkstra calculate_cost cx sv now = Some (sv', b, effects) → agree sv'.
Proof.
  unfold refresh_credential_trusts_and_disconnect. destruct (refresh_now cx sv now) as [[[sv1 u] eff]|] eqn:E; [|done].
  cbn. intros [= <- _ _]. by eapply agree_refresh.
Qed.

Abbreviation my_infos := (update_my_infos usize_bits default_rest parse_cidr first4 last4 first6 last6 pet_dijkstra calculate_cost).
Abbreviation acl_groups := (refresh_acl_groups usize_bits parse_cidr first4 last4 first6 last6 pet_dijkstra calculate_cost).
Abbreviation clear_expired := (clear_expired_peer usize_bits parse_cidr first4 last4 first6 last6 pet_dijkstra calculate_cost).

Lemma my_infos_agree cx sv su sv' b effects : my_infos cx sv su = Some (sv', b, effects) → agree sv → agree sv'.
Proof.
  unfold update_my_infos. pose proof (my_info_suppressed (sv_trust sv) (cx_my_peer_id cx) (su_my_info su) (su_now su)) as Hi.
  destruct (update_my_info_and_groups _ _ _ _) as [t info_updated]. cbn in Hi. intros E Ha.
  assert (quiet sv (set_trust sv t)) as Q1 by done. revert E. generalize dependent (set_trust sv t). intros sv0 Q1.
  destruct (update_my_connections _ _ _ _ _ _) as [[sv1 conn_updated]|] eqn:E1; [|done]. cbn. apply connections_quiet in E1.
  destruct (update_my_foreign_networks _ _ _ _) as [[sv2 foreign_updated]|] eqn:E2; [|done]. cbn. apply foreign_quiet in E2.
  assert (agree sv2) as A2 by (eapply agree_quiet; [|exact Ha]; eapply quiet_trans; [exact Q1|]; by eapply quiet_trans).
  match goal with |- (r ← ?x; _) = _ → _ => destruct x as [[[sv3 u] eff]|] eqn:E3; [|done] end. cbn.
  assert (agree sv3) as A3 by (destruct (info_updated || conn_updated); [by eapply disconnect_agree|by injection E3 as <- _ _]).
  match goal with |- (r ← ?x; _) = _ → _ => destruct x as [[[sv4 v] eff2]|] eqn:E4; [|done] end. cbn. intros [= <- _ _].
  destruct (info_updated || conn_updated || u); [|by injection E4 as <- _ _].
  destruct (rebuild cx sv3) as [sv5|] eqn:E5; [|done]. cbn in E4. destruct (notify_public_ipv6_route_change _). injection E4 as <- _ _.
  eapply agree_quiet; [apply owners_quiet|]. by eapply agree_rebuild.
Qed.

Lemma acl_groups_agree cx sv su sv' b effects : acl_groups cx sv su = Some (sv', b, effects) → agree sv'.
Proof.
  unfold refresh_acl_groups. destruct (update_my_info_and_groups _ _ _ _) as [t info_updated].
  match goal with |- (r ← ?x; _) = _ → _ => destruct x as [[[sv3 u] eff]|] eqn:E3; [|done] end. cbn. apply agree_refresh in E3.
  match goal with |- (r ← ?x; _) = _ → _ => destruct x as [[[sv4 v] eff2]|] eqn:E4; [|done] end. cbn. intros [= <- _ _].
  destruct (info_updated || _); [|by injection E4 as <- _ _].
  destruct (rebuild cx sv3) as [sv5|] eqn:E5; [|done]. cbn in E4. destruct (notify_public_ipv6_route_change _). injection E4 as <- _ _.
  eapply agree_quiet; [apply owners_quiet|]. by eapply agree_rebuild.
Qed.

Lemma clear_expired_agree cx sv now now_unix sv' effects : clear_expired cx sv now now_unix = Some (sv', effects) → agree sv'.
Proof.
  unfold clear_expired_peer. destruct (expired_peers sv now) as [expired|]; [|done]. cbn.
  destruct (refresh_credential_trusts_and_disconnect _ _ _ _ _ _ _ _ _ _ _) as [[[sv1 u] eff]|] eqn:E; [|done]. cbn. intros [= <- _].
  apply disconnect_agree in E as [Ht Htc]. split; [exact Ht|exact Htc].
Qed.

Lemma receive_agree cx sv en rq a sv' res effects : receive cx sv en rq a = Some (sv', res, effects) → agree sv → agree sv'.
Proof.
  unfold receive. destruct (_ && negb _); [by intros [= <- _ _]|]. destruct (admit_found _ _ _ _) as [s|]; [|by intros [= <- _ _]].
  destruct (receive_locked _ _ _ _ _ _) as [[[[sv0 s0] r0] eff]|] eqn:E; [|done]. cbn. intros [= <- _ _] Ha.
  apply (agree_quiet sv0); [done|]. apply receive_locked_spec in E as (sv1 & s1 & r & E1 & Hr).
  apply receive_infos_other in E1 as (S1 & _ & T1 & T1'). assert (agree sv1) as A1 by (by apply (agree_quiet sv)).
  destruct r as [stored|e]; [|by destruct Hr as (-> & _)].
  destruct Hr as (sv2 & s2 & accepted & sv3 & u & keys & sv4 & s4 & changed & E2 & E3 & E4 & E5 & _).
  assert (agree sv2) as A2.
  { apply (agree_quiet sv1); [|done]. revert E2. unfold receive_conn_info. destruct (ib_conn_info rq) as [c|]; [|by intros [= <- _ _]].
    destruct (accept_conn_info en _); [|by intros [= <- _ _]]. destruct (update_conn_info _ _ _ _) as [db|] eqn:Eu; [|done]. cbn. intros [= <- _ _].
    apply update_conn_fills in Eu as (_ & Es & _). done. }
  assert (agree sv3) as A3 by (destruct (stored || is_some accepted); [by eapply agree_refresh|by destruct E3 as (-> & _)]).
  assert (agree sv4) as A4.
  { apply (agree_quiet sv3); [|done]. revert E4. unfold receive_foreign_network. destruct (ib_foreign_network rq) as [l|]; [|by intros [= <- _ _]].
    destruct (from_is_credential en); [by intros [= <- _ _]|]. destruct (update_foreign_network _ _ _) as [db ch] eqn:Eu.
    destruct (update_dst_saved_foreign_network_version _ _ _ _); [|done]. cbn. intros [= <- _ _].
    assert (si_suppressed db = si_suppressed (sv_db sv3)) as Hs; [|done].
    change db with (db, ch).1. rewrite <- Eu. unfold update_foreign_network.
    apply (foldl_inv (λ _ st, si_suppressed st.1 = si_suppressed (sv_db sv3))); [done|].
    intros _ [[key|] [entry|]] [d b] _ IH; cbn; try exact IH. repeat case_match; exact IH. }
  destruct (stored || is_some accepted || changed); [|by subst sv0]. destruct E5 as (sv5 & E5 & ->).
  eapply agree_quiet; [apply owners_quiet|]. by eapply agree_rebuild.
Qed.

(** The calls of the service; the last one is any change of the sessions by the outbound
    half and the election. *)
Inductive ServiceCall : Type :=
| CallMyInfos (su : Surroundings)
| CallAclGroups (su : Surroundings)
| CallClearExpired (now now_unix : Z)
| CallFindSession (en : Answers) (rq : Inbound)
| CallReceive (en : Answers) (rq : Inbound) (a : nat)
| CallSessions (t : Sessions).

(** The context may change between calls. *)
Definition exec_service sv (call : RouteContext * ServiceCall) : option Service :=
  let cx := call.1 in
  match call.2 with
  | CallMyInfos su => r ← my_infos cx sv su; Some r.1.1
  | CallAclGroups su => r ← acl_groups cx sv su; Some r.1.1
  | CallClearExpired now now_unix => r ← clear_expired cx sv now now_unix; Some r.1
  | CallFindSession en rq => Some (find_session cx sv en rq).1
  | CallReceive en rq a => r ← receive cx sv en rq a; Some r.1.1
  | CallSessions t => Some (set_sessions sv t)
  end.

Lemma exec_agree sv call sv' : exec_service sv call = Some sv' → agree sv → agree sv'.
Proof.
  destruct call as [cx [su|su|now now_unix|en rq|en rq a|t]]; cbn [exec_service fst snd]; intros E Ha.
  - destruct (my_infos cx sv su) as [[[sv1 b] eff]|] eqn:E1; [|done]. injection E as <-. by eapply my_infos_agree.
  - destruct (acl_groups cx sv su) as [[[sv1 b] eff]|] eqn:E1; [|done]. injection E as <-. by eapply acl_groups_agree.
  - destruct (clear_expired cx sv now now_unix) as [[sv1 eff]|] eqn:E1; [|done]. injection E as <-. by eapply clear_expired_agree.
  - injection E as <-. destruct (find_session cx sv en rq) as [sv1 found] eqn:Ef.
    by destruct (find_session_spec _ _ _ _ _ _ Ef) as [[-> _]|(_ & _ & _ & t & a & _ & -> & _)].
  - destruct (receive cx sv en rq a) as [[[sv1 b] eff]|] eqn:E1; [|done]. injection E as <-. by eapply receive_agree.
  - by injection E as <-.
Qed.

(** Over any run of the service, from its start and whatever its neighbours send, no
    table ever routes to a peer that is suppressed because another one owns its
    non-reusable credential. *)
Theorem suppressed_never_served calls sv p :
  try_fold exec_service calls new_service = Some sv → p ∈ si_suppressed (sv_db sv) →
  peer_reachable (sv_table sv) p = false ∧ peer_reachable (sv_table_with_cost sv) p = false.
Proof.
  intros E Hp. assert (agree sv) as [Ht Htc].
  { revert E. apply (try_fold_pres (λ _ sv, agree sv)); [done|]. intros _ call sv1 sv2 _ IH E. by eapply exec_agree. }
  split; apply suppressed_unreachable; congruence.
Qed.

End Inbound.

(** * Witnesses *)

Section Witnesses.

#[local] Existing Instance example_lib.
#[local] Existing Instance example_fields.
#[local] Existing Instance leb_prost.

Abbreviation DemoService := (PeerRouteService (V4Cidr := Z * Z) (V6Cidr := unit)).
Abbreviation demo_exec := (exec_service 64 [] example_cidr fst snd (λ _, 0) (λ _, 0) demo_dijkstra (λ _ _, 1)).
Abbreviation demo_receive := (receive 64 [] example_cidr fst snd (λ _, 0) (λ _, 0) demo_dijkstra (λ _ _, 1)).

(** This node is 9; its neighbour 1 is the administrator whose credential 2 and 3 share. *)
Definition demo_context : RouteContext := mkContext 9 0 None false false [] 10.
Definition demo_answers (identity : option PeerIdentityType) (key : option (list Z)) (now : Z) : Answers :=
  mkReplies false identity key 77 now (now / 10 ^ 9) None.
Definition demo_surroundings : Surroundings :=
  mkSurroundings (peer_with 9 0 [] [0; 0]) false [(mkAnswers [1] (λ _, Some Admin) (λ _, None), 0%nat)] ∅ None 10 10.
Definition demo_row (p : PeerId) (connected : list PeerId) : PeerConnInfo := mkPeerConn (Some (mkPeerIdVersion p 1)) connected.

Definition demo_inbound : Inbound :=
  mkInbound 1 20 true
    (Some [peer_with 1 1 [] [0; 2; 50]; peer_with 2 1 [] [1; 0; 7]; peer_with 3 1 [] [1; 0; 7]]) (Some [[]; []; []])
    (Some (ConnPeerList [demo_row 1 [9; 2; 3]; demo_row 2 [1]; demo_row 3 [1]])) None.

Definition demo_run : list (RouteContext * ServiceCall) :=
  [(demo_context, CallMyInfos demo_surroundings);
   (demo_context, CallFindSession (demo_answers (Some Admin) None 20) demo_inbound);
   (demo_context, CallReceive (demo_answers (Some Admin) None 20) demo_inbound 0)].

Definition demo_state : option DemoService := try_fold demo_exec demo_run new_service.

Lemma suppressed_never_served_witness :
  match demo_state with
  | Some sv => 3 ∈ si_suppressed (sv_db sv) ∧ peer_reachable (sv_table sv) 2 = true ∧ peer_reachable (sv_table sv) 3 = false
  | None => False
  end.
Proof.
  destruct demo_state as [sv|] eqn:E; [|vm_compute in E; discriminate].
  assert (3 ∈ si_suppressed (sv_db sv)) as Hs by (apply (bool_decide_unpack _); vm_compute in E; injection E as <-; vm_compute; exact I).
  split; [exact Hs|]. split; [vm_compute in E; injection E as <-; vm_compute; reflexivity|].
  apply (suppressed_never_served 64 [] example_cidr fst snd (λ _, 0) (λ _, 0) demo_dijkstra (λ _ _, 1) demo_run sv 3 E Hs).
Defined.

(** The holder 2 of the credential sends a new info of its own, one of the administrator,
    a row and a foreign network. *)
Definition demo_claims : Inbound :=
  mkInbound 2 30 true (Some [peer_with 2 2 ["2"; "9"]%string [0; 0; 7]; peer_with 1 9 [] [0; 0; 66]]) (Some [sample_info; sample_info])
    (Some (ConnPeerList [demo_row 5 [2]])) (Some [(Some (2, "net"%string), Some (mkForeign [4] None 8 [] 4))]).

Definition demo_holder : Answers := demo_answers (Some Credential) (Some [7]) 30.

Definition demo_before : option DemoService :=
  try_fold demo_exec (demo_run ++ [(demo_context, CallFindSession demo_holder demo_claims)]) new_service.

Lemma credential_peer_speaks_for_itself_witness :
  match demo_before with
  | Some sv =>
      match demo_receive demo_context sv demo_holder demo_claims 1 with
      | Some (sv', res, effects) =>
          ri_version <$> si_peer_infos (sv_db sv') !! 2 = Some 2 ∧
          (∀ p info, p ≠ 2 → si_peer_infos (sv_db sv) !! p = Some info → si_peer_infos (sv_db sv') !! p = Some info ∨ ClosePeer p ∈ effects) ∧
          (∀ key e, si_foreign_network (sv_db sv') !! key = Some e → si_foreign_network (sv_db sv) !! key = Some e)
      | None => False
      end
  | None => False
  end.
Proof.
  destruct demo_before as [sv|] eqn:E; [|vm_compute in E; discriminate].
  destruct (demo_receive demo_context sv demo_holder demo_claims 1) as [[[sv' res] effects]|] eqn:Er;
    [|vm_compute in E; injection E as <-; vm_compute in Er; discriminate].
  assert (credential_info sv demo_holder = Some (mkTrusted [7] [[97]] false 100 [] (Some false))) as Hc
    by (vm_compute in E; injection E as <-; vm_compute; reflexivity).
  split; [vm_compute in E; injection E as <-; vm_compute in Er; injection Er as <- _ _; vm_compute; reflexivity|].
  destruct (credential_peer_speaks_for_itself 64 [] example_cidr fst snd (λ _, 0) (λ _, 0) demo_dijkstra (λ _ _, 1) demo_context sv demo_holder
    demo_claims 1 _ sv' res effects eq_refl Hc Er) as (_ & Hkeep & _ & Hforeign). split; [exact Hkeep|exact Hforeign].
Defined.

(** A credential peer with a key that nobody published. *)
Definition demo_stranger : Answers := demo_answers (Some Credential) (Some [8]) 30.

Lemma refused_request_changes_nothing_witness :
  match demo_state with
  | Some sv =>
      match do_sync_route_info 64 [] example_cidr fst snd (λ _, 0) (λ _, 0) demo_dijkstra (λ _ _, 1) id demo_context sv demo_stranger demo_claims with
      | Some (sv', res, effects) => res = Err Stopped ∧ refused_request id demo_context sv demo_stranger demo_claims ∧ effects = []
      | None => False
      end
  | None => False
  end.
Proof.
  destruct demo_state as [sv|] eqn:E; [|vm_compute in E; discriminate].
  destruct (do_sync_route_info _ _ _ _ _ _ _ _ _ id demo_context sv demo_stranger demo_claims) as [[[sv' res] effects]|] eqn:Er;
    [|vm_compute in E; injection E as <-; vm_compute in Er; discriminate].
  assert (res = Err Stopped) as Hres by (vm_compute in E; injection E as <-; vm_compute in Er; injection Er as _ <- _; reflexivity).
  destruct (refused_request_changes_nothing 64 [] example_cidr fst snd (λ _, 0) (λ _, 0) demo_dijkstra (λ _ _, 1) id demo_context sv demo_stranger
    demo_claims sv' res effects Er) as (Hiff & _ & Heff).
  split; [exact Hres|]. split; [apply Hiff, Hres|]. exact (Heff _ Hres).
Defined.

End Witnesses.
