(* ===== verification/AclFilter.v ===== *)
(** * The ACL filter

    Models easytier-core/src/peers/acl/filter.rs: the classification of packets in front
    of the ACL processor (Acl.v), the records that let the answers to outbound packets in,
    the hot reload and the statistics per chain.  The filter is a record of the current
    processor with its maps, the switch and the records; a call runs at one instant [now]
    (nanoseconds), with [secs] the wall clock.  A panic ([unwrap] of a missing header, a
    slice out of range, the [panic!] of the processor) is [None].  The route, a trait
    object, and the test for local IPv6 addresses, a closure, are arguments as in the code.
    A reload is two steps, [clear_records] and [install_rules]: packets of other tasks run
    between them. *)

From stdpp Require Import base gmap list numbers sets.
From Stdlib Require Import ZArith Lia.
From S2P Require Import Prelude Packet IpParse TokenBucket Acl.
Local Open Scope Z_scope.

Definition ICMP_ECHO_REPLY : Z := 0.
Definition ICMP_ECHO_REQUEST : Z := 8.
Definition ICMPV6_ECHO_REQUEST : Z := 128.
Definition ICMPV6_ECHO_REPLY : Z := 129.

(** ** Packets that records apply to *)

Definition can_use_allow_record (p : ParsedIpPacket) (is_in : bool) : option bool :=
  let check (expected_type : Z) : option bool :=
    if is_non_initial_fragment p then Some is_in
    else if len (transport_payload p) <? 8 then Some false
    else
      ty ← index (transport_payload p) 0;
      if negb (ty =? expected_type) then Some false
      else code ← index (transport_payload p) 1; Some (code =? 0) in
  let proto := IpParse.protocol p in
  if proto =? IP_PROTO_ICMP then check (if is_in then ICMP_ECHO_REPLY else ICMP_ECHO_REQUEST)
  else if proto =? IP_PROTO_ICMPV6 then check (if is_in then ICMPV6_ECHO_REPLY else ICMPV6_ECHO_REQUEST)
  else if proto =? IP_PROTO_UNSPECIFIED then Some false
  else Some true.

Definition acl_protocol (proto : Z) : Protocol :=
  if proto =? IP_PROTO_TCP then PTcp
  else if proto =? IP_PROTO_UDP then PUdp
  else if proto =? IP_PROTO_ICMP then PIcmp
  else if proto =? IP_PROTO_ICMPV6 then PIcmpv6
  else PUnspecified.

(** ** Records *)

Record OutboundAllowRecord : Type := mkRecord {
  rec_src_ip : IpAddr;
  rec_dst_ip : IpAddr;
  rec_src_port : option Z;
  rec_dst_port : option Z;
  rec_protocol : Protocol
}.

#[export] Instance allow_record_eq_dec : EqDecision OutboundAllowRecord.
Proof. solve_decision. Defined.
#[export] Instance allow_record_countable : Countable OutboundAllowRecord.
Proof.
  apply (inj_countable'
    (λ r, (rec_src_ip r, rec_dst_ip r, rec_src_port r, rec_dst_port r, rec_protocol r))
    (λ '(a, b, c, d, e), mkRecord a b c d e)).
  by intros [].
Defined.

Definition new_from_inbound_packet (p : PacketInfo) : OutboundAllowRecord :=
  mkRecord (src_ip p) (dst_ip p) (src_port p) (dst_port p) (protocol p).

Definition new_from_outbound_packet (p : PacketInfo) : OutboundAllowRecord :=
  mkRecord (dst_ip p) (src_ip p) (dst_port p) (src_port p) (protocol p).

Definition max_life : Z := 30 * NANOS.

Section Filter.

Context {V4Cidr V6Cidr : Type}.
Context (v4_contains : V4Cidr → Z → bool) (v6_contains : V6Cidr → Z → bool).
Context (parse_cidr : Text → option (V4Cidr + V6Cidr)).
Context (ip_to_text : IpAddr → Text).

(** [acl_processor] with the maps it shares is two fields. *)
Record AclFilter : Type := mkFilter {
  acl_processor : AclProcessor V4Cidr V6Cidr;
  acl_state : AclState;
  acl_enabled : bool;
  outbound_allow_records : gmap OutboundAllowRecord Z
}.

Implicit Types (f : AclFilter) (info : PacketInfo).

Definition with_acl_state f (st : AclState) : AclFilter :=
  mkFilter (acl_processor f) st (acl_enabled f) (outbound_allow_records f).
Definition with_records f (m : gmap OutboundAllowRecord Z) : AclFilter :=
  mkFilter (acl_processor f) (acl_state f) (acl_enabled f) m.

Definition new_filter : AclFilter :=
  let '(proc, st) := new_processor parse_cidr None in mkFilter proc st false ∅.

(** A round of the clean-up task. *)
Definition clean_records f (now : Z) : AclFilter :=
  with_records f (filter (λ kv, saturating_sub now kv.2 < max_life) (outbound_allow_records f)).

(** *** Reloading *)

Definition clear_records f : AclFilter := with_records f ∅.

Definition install_rules f (acl_config : option AclConfig) : AclFilter :=
  match acl_config with
  | None => mkFilter (acl_processor f) (acl_state f) false (outbound_allow_records f)
  | Some cfg =>
      let '(ct, rl, sts) := get_shared_state (acl_state f) in
      let '(proc, st) := new_with_shared_state parse_cidr cfg (Some ct) (Some rl) (Some sts) in
      mkFilter proc st true (outbound_allow_records f)
  end.

Definition reload_rules f (acl_config : option AclConfig) : AclFilter :=
  install_rules (clear_records f) acl_config.

(** [AclStats]: the totals, the connections and the counters of the rules. *)
Definition filter_stats f : gmap AclStatKey Z * list ConnTrackEntry * list StatItem :=
  (Acl.get_stats (acl_state f), (map_to_list (conn_track (acl_state f))).*2,
   get_rules_stats (acl_processor f) (acl_state f)).

(** *** Packets *)

Definition extract_packet_info (packet : ZCPacket.t) (is_in : bool) (get_peer_groups : Z → list Text)
    : option (option (PacketInfo * bool)) :=
  payload ← ZCPacket.payload packet;
  r ← parse_ip_packet payload;
  match r with
  | None => Some None
  | Some parsed =>
      ports ← parse_transport_ports (IpParse.protocol parsed) (transport_payload parsed);
      match ports with
      | None => Some None
      | Some (sp, dp) =>
          let src_groups := from_option get_peer_groups [] (ZCPacket.get_src_peer_id packet) in
          let dst_groups := from_option get_peer_groups [] (ZCPacket.get_dst_peer_id packet) in
          can ← can_use_allow_record parsed is_in;
          Some (Some (mkPacketInfo (IpParse.src_ip parsed) (IpParse.dst_ip parsed) sp dp
                        (acl_protocol (IpParse.protocol parsed)) (len payload) src_groups dst_groups, can))
      end
  end.

Definition stat_of_action (a : Action) : AclStatType :=
  match a with Allow => Allowed | Drop => Dropped | Noop => StatNoop end.

(** The counters; the log line is left out. *)
Definition handle_acl_result (st : AclState) (r : AclResult) (c : ChainType) : AclState :=
  let st1 := increment_stat st (Packets None (stat_of_action (action r))) in
  let st2 := increment_stat st1 (from_chain_and_action c (stat_of_action (action r))) in
  let st3 := increment_stat st2 (from_chain_and_action c Total) in
  increment_stat st3 (Packets None Total).

Definition classify_chain_type (is_in : bool) info (my_ipv4 : option Z) (is_local_ipv6 : Z → bool)
    : ChainType :=
  if negb is_in then Outbound
  else if bool_decide (dst_ip info = IpV4 (default 0 my_ipv4)) ||
          match dst_ip info with IpV6 dst => is_local_ipv6 dst | IpV4 _ => false end
  then Inbound else Forward.

(** The verdict of the rules, counted. *)
Definition judge f info (c : ChainType) (now secs : Z) : option (AclFilter * AclResult) :=
  r ← process_packet v4_contains v6_contains ip_to_text (acl_processor f) (acl_state f) info c now secs;
  let '(st, res) := r in
  Some (with_acl_state f (handle_acl_result st res c), res).

(** The decision, with the records. *)
Definition settle f info (c : ChainType) (is_in can_use : bool) (a : Action) (now : Z)
    : AclFilter * bool :=
  match a with
  | Allow | Noop =>
      (if bool_decide (c = Outbound) && can_use
       then with_records f (<[new_from_outbound_packet info := now]> (outbound_allow_records f))
       else f, true)
  | Drop =>
      let rec := new_from_inbound_packet info in
      if is_in && can_use && bool_decide (is_Some (outbound_allow_records f !! rec))
      then (with_records f (<[rec := now]> (outbound_allow_records f)), true)
      else (f, false)
  end.

(** A packet with what the caller passes along. *)
Record PacketCall : Type := mkCall {
  packet : ZCPacket.t;
  is_in : bool;
  my_ipv4 : option Z;
  is_local_ipv6 : Z → bool;
  get_peer_groups : Z → list Text;
  call_now : Z;
  call_secs : Z
}.

Definition process_packet_with_acl f (k : PacketCall) : option (AclFilter * bool) :=
  if negb (acl_enabled f) then Some (f, true)
  else
    hdr ← ZCPacket.peer_manager_header (packet k);
    if negb (PeerManagerHeader.packet_type hdr =? packet_type_u8 Data) then Some (f, true)
    else
      x ← extract_packet_info (packet k) (is_in k) (get_peer_groups k);
      match x with
      | None => Some (f, true)
      | Some (info, can_use) =>
          let c := classify_chain_type (is_in k) info (my_ipv4 k) (is_local_ipv6 k) in
          j ← judge f info c (call_now k) (call_secs k);
          Some (settle (fst j) info c (is_in k) can_use (action (snd j)) (call_now k))
      end.

End Filter.

Arguments AclFilter : clear implicits.

(** * Properties *)

Section FilterFacts.

Context {V4Cidr V6Cidr : Type}.
Context (v4_contains : V4Cidr → Z → bool) (v6_contains : V6Cidr → Z → bool).
Context (parse_cidr : Text → option (V4Cidr + V6Cidr)).
Context (ip_to_text : IpAddr → Text).

Notation filter_t := (AclFilter V4Cidr V6Cidr).
Implicit Types (f : filter_t) (info : PacketInfo) (k : PacketCall) (st : AclState).

Notation process := (process_packet_with_acl v4_contains v6_contains ip_to_text).
Notation verdict := (judge v4_contains v6_contains ip_to_text).

(** What happens to a filter. *)
Inductive FilterEvent : Type :=
| FPacket (k : PacketCall)
| FReload (cfg : option AclConfig)
| FClean (now : Z)
| FTick (now1 now2 : Z)
| FConnCleanup (secs : Z).

Definition filter_step f (ev : FilterEvent) : option filter_t :=
  match ev with
  | FPacket k => fst <$> process f k
  | FReload cfg => Some (reload_rules parse_cidr f cfg)
  | FClean now => Some (clean_records f now)
  | FTick now1 now2 => Some (with_acl_state f (cleanup_tick (acl_state f) now1 now2))
  | FConnCleanup secs => Some (with_acl_state f (cleanup_expired_connections (acl_state f) 60 secs))
  end.

Fixpoint filter_run f (evs : list FilterEvent) : option filter_t :=
  match evs with
  | [] => Some f
  | ev :: rest => f' ← filter_step f ev; filter_run f' rest
  end.

(** Packets hold bytes up to their payload. *)
Definition call_ok k : Prop := ZCPacket.wf (packet k) ∧ is_bytes (ZCPacket.inner (packet k)).

(** Clocks do not run backwards, packets are well formed, a tick takes at most 5 s. *)
Fixpoint timely (now : Z) (evs : list FilterEvent) : Prop :=
  match evs with
  | [] => True
  | FPacket k :: rest => call_ok k ∧ now <= call_now k ∧ timely (call_now k) rest
  | FReload _ :: rest | FConnCleanup _ :: rest => timely now rest
  | FClean t :: rest => now <= t ∧ timely t rest
  | FTick t1 t2 :: rest => now <= t1 ∧ t1 <= t2 <= t1 + 5 * NANOS ∧ timely t2 rest
  end.

Lemma timely_app now evs1 evs2 : timely now (evs1 ++ evs2) → timely now evs1.
Proof.
  revert now. induction evs1 as [|ev evs1 IH]; intros now Ht; [done|].
  destruct ev; cbn in *; naive_solver.
Qed.

Lemma filter_run_app f evs1 evs2 :
  filter_run f (evs1 ++ evs2) = f' ← filter_run f evs1; filter_run f' evs2.
Proof.
  revert f. induction evs1 as [|ev evs1 IH]; intros f; [done|]. cbn [app filter_run].
  destruct (filter_step f ev); [apply IH|done].
Qed.

(** ** No panics *)

Lemma ports_shape proto l sp dp :
  parse_transport_ports proto l = Some (Some (sp, dp)) →
  match acl_protocol proto with
  | PTcp | PUdp => is_Some sp ∧ is_Some dp
  | _ => sp = None ∧ dp = None
  end.
Proof.
  unfold parse_transport_ports, acl_protocol.
  assert (Hports : ∀ n, (if len l <? n then Some None
    else src ← be16_at l 0; dst ← be16_at l 2; Some (Some (Some src, Some dst))) = Some (Some (sp, dp)) →
    is_Some sp ∧ is_Some dp).
  { intros n. destruct (len l <? n); [done|].
    destruct (be16_at l 0), (be16_at l 2); try done. intros [= <- <-]. eauto. }
  destruct (proto =? IP_PROTO_TCP); [apply Hports|]. destruct (proto =? IP_PROTO_UDP); [apply Hports|].
  intros [= <- <-]. by repeat case_match.
Qed.

(** The packet infos the filter builds have ports exactly when their protocol has. *)
Lemma extract_total k :
  call_ok k → ∃ x, extract_packet_info (packet k) (is_in k) (get_peer_groups k) = Some x ∧
    ∀ info can, x = Some (info, can) → regular info.
Proof.
  intros [Hwf Hb]. unfold extract_packet_info, ZCPacket.payload.
  rewrite slice_from_Some
    by (split; [unfold ZCPacket.payload_offset; by destruct (ZCPacket.packet_type _)|exact Hwf]).
  set (l := drop _ _). assert (Hl : is_bytes l) by by apply Forall_drop.
  cbn [mbind option_bind]. destruct (parse_ip_part l Hl) as (r & -> & Hr). cbn [mbind option_bind].
  destruct r as [p|]; [|by eexists].
  destruct (Hr p eq_refl) as (x & y & El).
  assert (Htp : is_bytes (transport_payload p)).
  { rewrite El in Hl. apply Forall_app in Hl as [_ Hl]. by apply Forall_app in Hl as [? _]. }
  destruct (transport_ports_total (IpParse.protocol p) (transport_payload p) Htp) as (ports & Ep).
  rewrite Ep. cbn [mbind option_bind]. destruct ports as [[sp dp]|]; [|by eexists].
  assert (∃ b, can_use_allow_record p (is_in k) = Some b) as [b ->].
  { unfold can_use_allow_record.
    destruct (Z.ltb_spec (len (transport_payload p)) 8) as [|Hlen].
    - repeat case_match; try done; by eexists.
    - destruct (index_Some (transport_payload p) 0) as (u & -> & _); [lia|].
      destruct (index_Some (transport_payload p) 1) as (v & -> & _); [lia|]. cbn [mbind option_bind].
      repeat case_match; by eexists. }
  cbn [mbind option_bind]. eexists. split; [done|]. intros info can [= <- <-].
  apply (ports_shape _ _ _ _ Ep).
Qed.

Definition filter_ok f (now : Z) : Prop :=
  cache_ok v4_contains v6_contains ip_to_text (acl_processor f) (acl_state f) now.

Lemma cache_ok_frame (proc : AclProcessor V4Cidr V6Cidr) st st' now :
  rule_cache st' = rule_cache st → rate_limiters st' = rate_limiters st →
  cache_ok v4_contains v6_contains ip_to_text proc st now →
  cache_ok v4_contains v6_contains ip_to_text proc st' now.
Proof.
  intros E1 E2 [H1 H2 H3]. split; rewrite ?E1, ?E2; [|done|done].
  intros key e He. destruct (H1 key e He) as [Hf Hk]. split; [done|]. by rewrite E2.
Qed.

Lemma judge_total f info c now0 now secs :
  filter_ok f now0 → now0 <= now → regular info →
  ∃ f' res, verdict f info c now secs = Some (f', res) ∧ filter_ok f' now ∧
    acl_enabled f' = acl_enabled f ∧ outbound_allow_records f' = outbound_allow_records f.
Proof.
  intros Hok Ht Hi. unfold judge.
  destruct (process_ok v4_contains v6_contains ip_to_text (acl_processor f) (acl_state f) info c now0 now secs)
    as (st & res & -> & Hok'); [done..|]. cbn [mbind option_bind].
  eexists _, _. split_and!; [done| |done|done]. by eapply cache_ok_frame; [..|exact Hok'].
Qed.

(** The decision touches the records only. *)
Lemma settle_frame f info c i can a now :
  acl_processor (settle f info c i can a now).1 = acl_processor f ∧
  acl_state (settle f info c i can a now).1 = acl_state f ∧
  acl_enabled (settle f info c i can a now).1 = acl_enabled f.
Proof. unfold settle. by destruct a; repeat case_match. Qed.

Definition is_data (p : ZCPacket.t) : Prop :=
  ∃ hdr, ZCPacket.peer_manager_header p = Some hdr ∧ PeerManagerHeader.packet_type hdr = packet_type_u8 Data.

(** The chain the packet of a call goes to. *)
Definition chain_of k info : ChainType :=
  classify_chain_type (is_in k) info (my_ipv4 k) (is_local_ipv6 k).

(** The rules, asked about the packet of the call in state [f], say [a] and leave [f1]. *)
Definition rules_say f k info (can : bool) (a : Action) f1 : Prop :=
  acl_enabled f = true ∧ is_data (packet k) ∧
  extract_packet_info (packet k) (is_in k) (get_peer_groups k) = Some (Some (info, can)) ∧
  ∃ res, verdict f info (chain_of k info) (call_now k) (call_secs k) = Some (f1, res) ∧ action res = a.

Lemma rules_decide f k info can a f1 :
  rules_say f k info can a f1 →
  process f k = Some (settle f1 info (chain_of k info) (is_in k) can a (call_now k)).
Proof.
  intros (He & (hdr & Hh & Hd) & Hx & res & Hj & <-). unfold process_packet_with_acl.
  rewrite He, Hh. cbn [negb mbind option_bind]. rewrite Hd, Z.eqb_refl, Hx. cbn [negb mbind option_bind].
  cbn zeta. fold (chain_of k info). rewrite Hj. done.
Qed.

(** A call on a well formed packet is one of the cases of the code. *)
Inductive process_case f k : filter_t → bool → Prop :=
| PassDisabled : acl_enabled f = false → process_case f k f true
| PassUnclassified : 
    ¬ is_data (packet k) ∨ extract_packet_info (packet k) (is_in k) (get_peer_groups k) = Some None →
    process_case f k f true
| Judged info can a f1 f' b :
    rules_say f k info can a f1 →
    settle f1 info (chain_of k info) (is_in k) can a (call_now k) = (f', b) →
    process_case f k f' b.

Lemma process_cases f k f' b : process f k = Some (f', b) → process_case f k f' b.
Proof.
  unfold process_packet_with_acl. destruct (acl_enabled f) eqn:Een; cbn [negb]; [|intros [= <- <-]; by constructor].
  destruct (ZCPacket.peer_manager_header (packet k)) as [hdr|] eqn:Eh; [|done]. cbn [mbind option_bind].
  destruct (Z.eqb_spec (PeerManagerHeader.packet_type hdr) (packet_type_u8 Data)) as [Ed|Ed]; cbn [negb].
  2: { intros [= <- <-]. apply PassUnclassified. left. intros (h & Hh & Hd). congruence. }
  destruct (extract_packet_info _ _ _) as [[[info can]|]|] eqn:Ex; [| |done]; cbn [mbind option_bind].
  2: { intros [= <- <-]. apply PassUnclassified. by right. }
  cbn zeta. fold (chain_of k info).
  destruct (judge _ _ _ _ _ _ _ _) as [[f1 res]|] eqn:Ej; [|done]. cbn [mbind option_bind fst snd].
  intros [= E]. eapply Judged; [|exact E]. split_and!; [done|by exists hdr|done|eauto].
Qed.

Lemma process_total f k now0 :
  filter_ok f now0 → now0 <= call_now k → call_ok k →
  ∃ f' b, process f k = Some (f', b) ∧ filter_ok f' (call_now k).
Proof.
  intros Hok Ht Hk. unfold process_packet_with_acl.
  assert (Hm : filter_ok f (call_now k)).
  { destruct Hok as [H1 H2 H3]. split; [exact H1|intros ?? H; specialize (H2 _ _ H); lia|
      intros ?? H; specialize (H3 _ _ H); lia]. }
  destruct (acl_enabled f); cbn [negb]; [|eauto].
  destruct (extract_total k Hk) as (x & Ex & Hx). destruct Hk as [Hwf Hb].
  assert (∃ hdr, ZCPacket.peer_manager_header (packet k) = Some hdr) as [hdr ->].
  { unfold ZCPacket.peer_manager_header, ZCPacket.bytes_from_offset.
    unfold ZCPacket.wf, ZCPacket.payload_offset in Hwf.
    pose proof (PacketFacts.payload_after_header (ZCPacket.packet_type (packet k))) as Hpo.
    assert (0 <= peer_manager_header_offset (get_packet_offsets (ZCPacket.packet_type (packet k))))
      by by destruct (ZCPacket.packet_type _).
    unfold PEER_MANAGER_HEADER_SIZE in *.
    rewrite slice_from_Some by lia. cbn [mbind option_bind].
    apply PacketFacts.from_prefix_is_Some. unfold len in *. rewrite length_drop. unfold PEER_MANAGER_HEADER_SIZE. lia. }
  cbn [mbind option_bind]. case_match; [eauto|]. rewrite Ex. cbn [mbind option_bind].
  destruct x as [[info can]|]; [|eauto].
  destruct (judge_total f info (classify_chain_type (is_in k) info (my_ipv4 k) (is_local_ipv6 k))
    now0 (call_now k) (call_secs k)) as (f1 & res & -> & Hf1 & _); [done|done|by eapply Hx|].
  cbn [mbind option_bind fst snd].
  destruct (settle_frame f1 info (classify_chain_type (is_in k) info (my_ipv4 k) (is_local_ipv6 k)) (is_in k) can
    (action res) (call_now k)) as (E1 & E2 & _).
  destruct (settle _ _ _ _ _ _ _) as [g v]. eexists _, _. split; [done|]. unfold filter_ok in *.
  cbn [fst] in *. by rewrite E1, E2.
Qed.

Lemma reload_ok f cfg now : filter_ok f now → filter_ok (reload_rules parse_cidr f cfg) now.
Proof.
  intros Hok. unfold reload_rules, install_rules, filter_ok. destruct cfg as [cfg|]; [|exact Hok].
  cbn [get_shared_state]. unfold new_with_shared_state.
  destruct (build_rules parse_cidr cfg) as [[i o] fw], (build_default_actions cfg) as [[a b] c].
  split; cbn [acl_processor acl_state rule_cache rate_limiters]; [done|done|apply (co_limiters _ _ _ _ _ _ Hok)].
Qed.

Lemma filter_step_ok f now ev rest :
  filter_ok f now → timely now (ev :: rest) →
  ∃ f' now', filter_step f ev = Some f' ∧ filter_ok f' now' ∧ timely now' rest.
Proof.
  intros Hok Ht. destruct ev as [k|cfg|t|t1 t2|secs]; cbn [filter_step timely] in *.
  - destruct Ht as (Hk & Hle & Ht). destruct (process_total f k now Hok Hle Hk) as (f' & b & -> & Hf'). eauto.
  - eexists _, now. split_and!; [done|by apply reload_ok|done].
  - eexists _, now. split_and!; [done|exact Hok|]. destruct Ht as [Hle Ht]. clear -Ht Hle.
    revert now t Hle Ht. induction rest as [|ev rest IH]; intros now t Hle Ht; [done|].
    destruct ev; cbn in *; naive_solver lia.
  - destruct Ht as (H1 & H2 & Ht). eexists _, t2. split_and!; [done| |done].
    by apply (tick_ok v4_contains v6_contains ip_to_text (acl_processor f) (acl_state f) now).
  - eexists _, now. split_and!; [done| |done]. by apply (cache_ok_frame _ (acl_state f)).
Qed.

Lemma filter_run_ok f now evs :
  filter_ok f now → timely now evs → ∃ f' now', filter_run f evs = Some f' ∧ filter_ok f' now'.
Proof.
  revert f now. induction evs as [|ev evs IH]; intros f now Hok Ht; cbn [filter_run]; [eauto|].
  destruct (filter_step_ok f now ev evs Hok Ht) as (f' & now' & -> & Hok' & Ht'). by eapply IH.
Qed.

Lemma new_filter_ok now : filter_ok (new_filter parse_cidr) now.
Proof. by split. Qed.

(** The packet filter never panics: over any run of well formed packets of any
    content, in either direction, rule reloads, clean-ups of records, of the rule cache
    and of connections, the calls return; so no packet finds its header missing, no parsed
    packet reads past its payload and no cached rule misses its rate limiter, also across
    reloads, which keep the limiters and drop the cache. *)
Theorem filter_never_panics now evs :
  timely now evs → ∃ f' now', filter_run (new_filter parse_cidr) evs = Some f' ∧ filter_ok f' now'.
Proof. apply filter_run_ok, new_filter_ok. Qed.

(** ** The records *)

(** The packet of the call went out with a record: the rules, asked in state [f], did not
    drop it. *)
Definition admitted f k info : Prop :=
  is_in k = false ∧ ∃ a f1, rules_say f k info true a f1 ∧ a ≠ Drop.

Definition not_reload (ev : FilterEvent) : Prop :=
  match ev with FReload _ => False | _ => True end.

Lemma rules_say_records f k info can a f1 :
  rules_say f k info can a f1 →
  acl_enabled f1 = acl_enabled f ∧ outbound_allow_records f1 = outbound_allow_records f.
Proof.
  intros (_ & _ & _ & res & Hj & _). unfold judge in Hj.
  destruct (process_packet _ _ _ _ _ _ _ _ _) as [[st r]|]; [by injection Hj as <- _|done].
Qed.

Lemma outbound_only k info : chain_of k info = Outbound ↔ is_in k = false.
Proof.
  unfold chain_of, classify_chain_type. destruct (is_in k); cbn [negb]; [|done].
  by destruct (bool_decide _ || _).
Qed.

(** What a packet does to the records. *)
Lemma process_records f k f' b rec t :
  process f k = Some (f', b) → outbound_allow_records f' !! rec = Some t →
  outbound_allow_records f !! rec = Some t ∨ 
  t = call_now k ∧ (is_Some (outbound_allow_records f !! rec) ∨
                    ∃ info, admitted f k info ∧ rec = new_from_outbound_packet info).
Proof.
  intros [He|Hc|info can a f1 f2 v Hs E]%process_cases; [auto..|].
  destruct (rules_say_records _ _ _ _ _ _ Hs) as [_ Hr]. unfold settle in E.
  destruct (decide (a = Drop)) as [->|Ha].
  - destruct (is_in k && can && _) eqn:Ec in E; injection E as <- <-; cbn; [|rewrite Hr; auto].
    apply andb_true_iff in Ec as [_ Ec%bool_decide_eq_true]. rewrite Hr in *.
    destruct (decide (rec = new_from_inbound_packet info)) as [->|]; [|rewrite lookup_insert_ne; auto].
    rewrite lookup_insert_eq. intros [= <-]. auto.
  - assert (f2 = if bool_decide (chain_of k info = Outbound) && can
      then with_records f1 (<[new_from_outbound_packet info := call_now k]> (outbound_allow_records f1))
      else f1) as -> by (destruct a; [..|done]; injection E as <- _; done).
    destruct (bool_decide _ && can) eqn:Ec; [|rewrite Hr; auto].
    apply andb_true_iff in Ec as [Ec%bool_decide_eq_true ->]. rewrite outbound_only in Ec. cbn.
    destruct (decide (rec = new_from_outbound_packet info)) as [->|]; [|rewrite lookup_insert_ne, Hr; auto].
    rewrite lookup_insert_eq. intros [= <-]. right. split; [done|]. right. exists info. split; [|done].
    split; [done|eauto].
Qed.

(** Where a record of a state comes from: an outbound packet that the rules of its moment
    let out, with no reload since. *)
Definition stems_from (evs : list FilterEvent) (rec : OutboundAllowRecord) : Prop :=
  ∃ before k after f info,
    evs = before ++ FPacket k :: after ∧ Forall not_reload after ∧
    filter_run (new_filter parse_cidr) before = Some f ∧ admitted f k info ∧
    rec = new_from_outbound_packet info.

Lemma stems_from_snoc evs rec ev : not_reload ev → stems_from evs rec → stems_from (evs ++ [ev]) rec.
Proof.
  intros Hn (before & k & after & f & info & -> & Ha & Hr).
  exists before, k, (after ++ [ev]), f, info. split; [by rewrite <- app_assoc|].
  split; [apply Forall_app; by repeat constructor|done].
Qed.

Lemma records_stem evs f rec :
  filter_run (new_filter parse_cidr) evs = Some f → is_Some (outbound_allow_records f !! rec) →
  stems_from evs rec.
Proof.
  revert f rec. induction evs as [|ev evs IH] using rev_ind; intros f rec Hrun [t Hrec].
  { injection Hrun as <-. cbn in Hrec. by rewrite lookup_empty in Hrec. }
  rewrite filter_run_app in Hrun. destruct (filter_run _ evs) as [f0|] eqn:E0; [|done].
  cbn [mbind option_bind filter_run] in Hrun. destruct (filter_step f0 ev) as [f1|] eqn:E1; [|done].
  injection Hrun as ->. destruct ev as [k|cfg|t0|t1 t2|secs]; cbn [filter_step] in E1.
  - destruct (process f0 k) as [[f1 b]|] eqn:Ep; [|done]. injection E1 as <-.
    destruct (process_records _ _ _ _ _ _ Ep Hrec) as [H|(_ & [H|(info & Ha & ->)])];
      [by apply stems_from_snoc; eauto..|].
    exists evs, k, [], f0, info. split_and!; [done|constructor|done..].
  - injection E1 as <-. unfold reload_rules, install_rules in Hrec. destruct cfg as [cfg|];
      [cbn [get_shared_state] in Hrec; destruct (new_with_shared_state _ _ _ _ _) in Hrec|];
      cbn in Hrec; by rewrite lookup_empty in Hrec.
  - injection E1 as <-. cbn in Hrec. apply map_lookup_filter_Some in Hrec as [Hrec _].
    by apply stems_from_snoc; eauto.
  - injection E1 as <-. by apply stems_from_snoc; eauto.
  - injection E1 as <-. by apply stems_from_snoc; eauto.
Qed.


Lemma settle_keeps f info c i can a now f' b rec t t0 :
  settle f info c i can a now = (f', b) → outbound_allow_records f !! rec = Some t →
  t0 <= t → t0 <= now → ∃ t', outbound_allow_records f' !! rec = Some t' ∧ t0 <= t'.
Proof.
  intros E Hrec Ht Hnow.
  assert (f' = f ∨ ∃ r, f' = with_records f (<[r := now]> (outbound_allow_records f))) as [->|[r ->]].
  { unfold settle in E. destruct a; cbn zeta in E;
      first [destruct (bool_decide _ && can)|destruct (i && can && _)]; injection E as <- _; eauto. }
  - eauto.
  - cbn. destruct (decide (rec = r)) as [->|]; [rewrite lookup_insert_eq|rewrite lookup_insert_ne by done]; eauto.
Qed.

(** Records live: without a reload, a record stays for 30 s after its packet. *)
Lemma record_kept f now evs f' rec t0 t :
  filter_run f evs = Some f' → timely now evs → Forall not_reload evs →
  (∀ t', FClean t' ∈ evs → t' < t0 + max_life) → t0 <= now →
  outbound_allow_records f !! rec = Some t → t0 <= t →
  ∃ t', outbound_allow_records f' !! rec = Some t' ∧ t0 <= t'.
Proof.
  revert f now t. induction evs as [|ev evs IH]; intros f now t Hrun Ht Hn Hc Hnow Hrec Ht0.
  { injection Hrun as <-. eauto. }
  cbn [filter_run] in Hrun. destruct (filter_step f ev) as [f1|] eqn:E1; [|done].
  cbn [mbind option_bind] in Hrun. apply Forall_cons in Hn as [Hn1 Hn].
  assert (Hc' : ∀ t', FClean t' ∈ evs → t' < t0 + max_life) by (intros; apply Hc; by right).
  destruct ev as [k|cfg|t1|t1 t2|secs]; cbn [filter_step timely] in *; [|done|..].
  - destruct Ht as (_ & Hle & Ht). destruct (process f k) as [[f2 b]|] eqn:Ep; [|done]. injection E1 as <-.
    assert (∃ t', outbound_allow_records f2 !! rec = Some t' ∧ t0 <= t') as (t' & Hrec' & Hle').
    { apply process_cases in Ep as [He|Hcs|info can a f3 f4 v Hs E]; [eauto..|].
      destruct (rules_say_records _ _ _ _ _ _ Hs) as [_ Hr]. rewrite <- Hr in Hrec.
      eapply settle_keeps; [exact E|exact Hrec|lia|lia]. }
    eapply IH; [exact Hrun|exact Ht|done|done|lia|exact Hrec'|done].
  - injection E1 as <-. destruct Ht as [Hle Ht]. specialize (Hc t1 ltac:(left)).
    eapply IH; [exact Hrun|exact Ht|done|done|lia| |done].
    cbn [clean_records with_records outbound_allow_records]. apply map_lookup_filter_Some. split; [done|].
    cbn [snd]. unfold saturating_sub, max_life, NANOS in *. lia.
  - injection E1 as <-. eapply IH; [exact Hrun|apply Ht|done|done|lia|exact Hrec|done].
  - injection E1 as <-. eapply IH; [exact Hrun|exact Ht|done|done|lia|exact Hrec|done].
Qed.

(** The packet of [r] answers one with the given info: it comes in, addresses and ports
    are reversed, and it is of a kind that records apply to. *)
Definition answers info r : Prop :=
  is_in r = true ∧ is_data (packet r) ∧
  ∃ info', extract_packet_info (packet r) true (get_peer_groups r) = Some (Some (info', true)) ∧
    new_from_inbound_packet info' = new_from_outbound_packet info.

Lemma run_keeps_enabled f evs f' :
  filter_run f evs = Some f' → Forall not_reload evs → acl_enabled f' = acl_enabled f.
Proof.
  revert f. induction evs as [|ev evs IH]; intros f Hrun Hn; [by injection Hrun as <-|].
  apply Forall_cons in Hn as [Hn1 Hn]. cbn [filter_run] in Hrun.
  destruct (filter_step f ev) as [f1|] eqn:E1; [|done]. cbn [mbind option_bind] in Hrun.
  rewrite (IH f1 Hrun Hn). destruct ev as [k|cfg|t|t1 t2|secs]; cbn [filter_step] in E1; [|done|by injection E1 as <-..].
  destruct (process f k) as [[f2 b]|] eqn:Ep; [|done]. injection E1 as <-.
  apply process_cases in Ep as [He|Hc|info can a f3 f4 v Hs E]; [done..|].
  destruct (rules_say_records _ _ _ _ _ _ Hs) as [<- _].
  destruct (settle_frame f3 info (chain_of k info) (is_in k) can a (call_now k)) as (_ & _ & He). by rewrite E in He.
Qed.

(** C11: whoever is spoken to may answer: after an outbound packet that the rules let out,
    any run of other packets and clean-ups of less than 30 s without a reload leads to a
    state in which the answer, addresses and ports reversed, is let in, whatever the
    inbound and forward rules say; none of the calls panics. *)
Theorem reply_is_let_in f now k info evs r :
  filter_ok f now → timely now (FPacket k :: evs ++ [FPacket r]) →
  Forall not_reload evs → (∀ t, FClean t ∈ evs → t < call_now k + max_life) →
  admitted f k info → answers info r →
  ∃ f1 f2 f3, process f k = Some (f1, true) ∧ filter_run f1 evs = Some f2 ∧ process f2 r = Some (f3, true).
Proof.
  intros Hok (Hk & Hle & Ht) Hn Hc (Hin & a & g & Hs & Ha) (Hrin & Hdr & info' & Hx & Hrec).
  destruct (process_total f k now Hok Hle Hk) as (f1 & b & Hp & Hf1).
  pose proof (rules_decide _ _ _ _ _ _ Hs) as Hd. rewrite Hd in Hp.
  destruct (rules_say_records _ _ _ _ _ _ Hs) as [He Hr].
  assert (b = true ∧ f1 = with_records g (<[new_from_outbound_packet info := call_now k]> (outbound_allow_records g)))
    as [-> ->].
  { injection Hp as Hp. unfold settle in Hp.
    rewrite (bool_decide_true (chain_of k info = Outbound)) in Hp by by apply outbound_only.
    by destruct a; [..|done]; injection Hp as <- <-. }
  set (f1 := with_records _ _) in *.
  destruct (filter_run_ok f1 (call_now k) (evs ++ [FPacket r]) Hf1 Ht) as (f3 & now3 & Hrun & _).
  rewrite filter_run_app in Hrun. destruct (filter_run f1 evs) as [f2|] eqn:E2; [|done].
  cbn [mbind option_bind filter_run filter_step] in Hrun.
  destruct (process f2 r) as [[f4 b]|] eqn:Ep; [|done].
  exists f1, f2, f4. split; [by rewrite Hd, <- Hp|]. split; [done|].
  assert (Hte : timely (call_now k) evs) by by eapply timely_app.
  destruct (record_kept f1 (call_now k) evs f2 (new_from_outbound_packet info) (call_now k) (call_now k))
    as (t & Ht2 & _); [done..|lia|apply lookup_insert_eq|lia|].
  assert (He2 : acl_enabled f2 = true).
  { rewrite (run_keeps_enabled f1 evs f2 E2 Hn). cbn. rewrite He. apply Hs. }
  apply process_cases in Ep as Hcase. destruct Hcase as [?|[?|Hx2]|info2 can a2 f5 f6 v Hs2 E];
    [congruence|done|congruence|].
  assert (info2 = info' ∧ can = true) as [-> ->].
  { destruct Hs2 as (_ & _ & Hx2 & _). rewrite Hrin in Hx2. by simplify_eq. }
  destruct (rules_say_records _ _ _ _ _ _ Hs2) as [_ Hr2]. unfold settle in E.
  rewrite Hrec, Hr2, Hrin, Ht2 in E. cbn [andb] in E.
  rewrite (bool_decide_true (is_Some (Some t))) in E by eauto.
  by destruct a2; injection E as <- <-.
Qed.

(** ** The statistics *)

Definition stat st (key : AclStatKey) : Z := default 0 (stats st !! key).

(** The counters of a state are counts modulo 2^64 that add up: per chain and over all
    chains the total is the sum over the verdicts, and the total over all chains is the
    sum of the totals per chain. *)
Definition counts_ok st (g : AclStatKey → Z) : Prop :=
  (∀ ch ty, stat st (Packets ch ty) = wrap 64 (g (Packets ch ty))) ∧
  (∀ ch, g (Packets ch Total) = g (Packets ch Allowed) + g (Packets ch Dropped) + g (Packets ch StatNoop)) ∧
  g (Packets None Total) =
    g (Packets (Some Inbound) Total) + g (Packets (Some Outbound) Total) + g (Packets (Some Forward) Total).

Lemma stat_increment st key key' :
  stat (increment_stat st key) key' = if bool_decide (key = key') then wrapping_add 64 (stat st key) 1 else stat st key'.
Proof.
  unfold stat, increment_stat; cbn [stats]. destruct (bool_decide_reflect (key = key')) as [->|].
  - rewrite lookup_insert_eq. by destruct (stats st !! key').
  - by rewrite lookup_insert_ne.
Qed.

Lemma stat_track st e info secs key : stat (track_connection st e info secs) key = stat st key.
Proof.
  unfold track_connection. destruct (e_conn_track_key e); [|done].
  unfold check_connection_state. by repeat case_match.
Qed.

Lemma stat_inc_entry st e info key : stat (inc_cache_entry_stats st e info) key = stat st key.
Proof. done. Qed.

Lemma stat_cache_result st key e now key' : stat (cache_result st key e now) key' = stat st key'.
Proof. unfold cache_result. by case_match. Qed.

Lemma rate_limit_stats st key rate burst create now st' ok :
  check_rate_limit st key rate burst create now = Some (st', ok) → stats st' = stats st.
Proof.
  unfold check_rate_limit. destruct (_ =? 0); [by intros [= <- _]|].
  match goal with |- context [?x ≫= _] => destruct x end; [|done]. cbn [mbind option_bind].
  destruct (try_consume _ _ _). by intros [= <- _].
Qed.

Lemma cached_limits_stats keys st now st' ok :
  check_cached_limits st keys now = Some (st', ok) → stats st' = stats st.
Proof.
  revert st. induction keys as [|key keys IH]; intros st; cbn [check_cached_limits]; [by intros [= <- _]|].
  destruct (check_rate_limit _ _ _ _ _ _) as [[st1 b]|] eqn:E; [|done]. cbn [mbind option_bind fst snd].
  apply rate_limit_stats in E. destruct b; cbn [negb]; [|by intros [= <- _]].
  intros H%IH. congruence.
Qed.

(** The processor does not touch the packet counters. *)
Lemma process_stats (proc : AclProcessor V4Cidr V6Cidr) st info c now secs st' res ch ty :
  process_packet v4_contains v6_contains ip_to_text proc st info c now secs = Some (st', res) →
  stat st' (Packets ch ty) = stat st (Packets ch ty).
Proof.
  unfold process_packet. destruct (rule_cache st !! _) as [cached|].
  - unfold process_packet_with_cache_entry. cbn [e_rate_limit_keys].
    destruct (check_cached_limits _ _ _) as [[st1 ok]|] eqn:E; [|done]. cbn [mbind option_bind].
    apply cached_limits_stats in E. cbn [with_cache stats increment_stat] in E.
    assert (Hst1 : stat st1 (Packets ch ty) = stat st (Packets ch ty))
      by (unfold stat; by rewrite E, lookup_insert_ne).
    destruct ok; cbn [negb]; [|by intros [= <- _]].
    destruct (e_acl_result _); [|done]. cbn [mbind option_bind]. intros [= <- _].
    by rewrite stat_inc_entry, stat_track.
  - destruct (rules_of proc c) as [rules|]; [|by intros [= <- _]].
    destruct (first_match _ _ rules info) as [rule|].
    + unfold apply_rule.
      assert (Hl : ∀ st1 ok, (if 0 <? rate_limit rule then check_rate_limit st (mkRateLimitKey c (priority rule))
          (rate_limit rule) (burst_limit rule) true now else Some (st, true)) = Some (st1, ok) → stats st1 = stats st).
      { intros st1 ok. destruct (0 <? _); [apply rate_limit_stats|by intros [= <- _]]. }
      destruct (if 0 <? rate_limit rule then _ else _) as [[st1 ok]|]; [|done].
      specialize (Hl st1 ok eq_refl). cbn [mbind option_bind].
      assert (Hst1 : stat st1 (Packets ch ty) = stat st (Packets ch ty)) by (unfold stat; by rewrite Hl).
      destruct ok; cbn [negb]; [|by intros [= <- _]].
      destruct (e_acl_result _); [|done]. cbn [mbind option_bind]. intros [= <- _].
      by rewrite stat_cache_result, stat_inc_entry, stat_increment, bool_decide_false, stat_track.
    + unfold apply_default. cbn [default_entry e_acl_result mbind option_bind]. intros [= <- _].
      rewrite stat_cache_result, stat_inc_entry, stat_increment.
      by destruct (bool_decide (default_action_for proc c = Drop)).
Qed.

Definition bump_count (g : AclStatKey → Z) (key : AclStatKey) : AclStatKey → Z :=
  λ key', if bool_decide (key = key') then g key' + 1 else g key'.

Lemma increment_counts st g key :
  (∀ ch ty, stat st (Packets ch ty) = wrap 64 (g (Packets ch ty))) →
  ∀ ch ty, stat (increment_stat st key) (Packets ch ty) = wrap 64 (bump_count g key (Packets ch ty)).
Proof.
  intros H ch ty. rewrite stat_increment. unfold bump_count. case_bool_decide as E; [|done].
  rewrite E, H. unfold wrapping_add, wrap. by rewrite Z.add_mod_idemp_l.
Qed.

(** Comparisons of closed keys are computed. *)
Ltac decide_keys :=
  repeat match goal with |- context [bool_decide (?a = ?b)] =>
    let v := eval vm_compute in (bool_decide (a = b)) in change (bool_decide (a = b)) with v
  end; cbn match.

Lemma handle_counts st g res c :
  c ≠ UnspecifiedChain → counts_ok st g → ∃ g', counts_ok (handle_acl_result st res c) g'.
Proof.
  intros Hc (H1 & H2 & H3). unfold handle_acl_result.
  exists (bump_count (bump_count (bump_count (bump_count g (Packets None (stat_of_action (action res))))
    (from_chain_and_action c (stat_of_action (action res)))) (from_chain_and_action c Total)) (Packets None Total)).
  split_and!; [by do 4 apply increment_counts|..].
  - intros ch. specialize (H2 ch). unfold bump_count, from_chain_and_action.
    destruct (action res), c, ch as [[]|]; try done; cbn [stat_of_action]; decide_keys; lia.
  - unfold bump_count, from_chain_and_action.
    destruct (action res), c; try done; cbn [stat_of_action]; decide_keys; lia.
Qed.

(** The packet counters add up: in every state of every run from a new filter, also
    across reloads and when counters wrap around at 2^64, each total is the sum over the
    verdicts, and the total over all chains is the sum of the totals of the three chains:
    no judged packet is counted twice or lost. *)
Theorem counters_add_up evs f :
  filter_run (new_filter parse_cidr) evs = Some f → ∃ g, counts_ok (acl_state f) g.
Proof.
  revert f. induction evs as [|ev evs IH] using rev_ind; intros f Hrun.
  { injection Hrun as <-. exists (λ _, 0). split_and!; [intros ch ty|done|done].
    unfold stat. cbn. by rewrite lookup_empty. }
  rewrite filter_run_app in Hrun. destruct (filter_run _ evs) as [f0|] eqn:E0; [|done].
  cbn [mbind option_bind filter_run] in Hrun. destruct (filter_step f0 ev) as [f1|] eqn:E1; [|done].
  injection Hrun as ->. destruct (IH f0 eq_refl) as (g & Hg).
  destruct ev as [k|cfg|t|t1 t2|secs]; cbn [filter_step] in E1; [..|by injection E1 as <-; exists g].
  - destruct (process f0 k) as [[f1 b]|] eqn:Ep; [|done]. injection E1 as <-.
    apply process_cases in Ep as [He|Hc|info can a f3 f4 v Hs E]; [by exists g..|].
    destruct (settle_frame f3 info (chain_of k info) (is_in k) can a (call_now k)) as (_ & Hst & _).
    rewrite E in Hst. cbn [fst] in Hst. rewrite Hst. destruct Hs as (_ & _ & _ & res & Hj & _). unfold judge in Hj.
    destruct (process_packet _ _ _ _ _ _ _ _ _) as [[st r]|] eqn:Epp; [|done]. injection Hj as <- ->.
    cbn [with_acl_state acl_state]. apply (handle_counts st g).
    + unfold chain_of, classify_chain_type. by repeat case_match.
    + destruct Hg as (H1 & H2 & H3). split_and!; [|done..]. intros ch ty. by rewrite (process_stats _ _ _ _ _ _ _ _ _ _ Epp).
  - injection E1 as <-. exists g. unfold reload_rules, install_rules. destruct cfg as [cfg|]; [|done].
    cbn [get_shared_state]. unfold new_with_shared_state.
    by destruct (build_rules parse_cidr cfg) as [[i o] fw], (build_default_actions cfg) as [[a b] c].
  - injection E1 as <-. by exists g.
  - injection E1 as <-. by exists g.
Qed.

(** ** Reloading while packets run *)

Lemma verdict_records f m info c now secs f' res :
  verdict f info c now secs = Some (f', res) →
  verdict (with_records f m) info c now secs = Some (with_records f' m, res).
Proof.
  unfold judge. cbn [with_records acl_processor acl_state].
  by destruct (process_packet _ _ _ _ _ _ _ _ _) as [[st r]|]; [intros [= <- <-]|].
Qed.

(** A reload drops the records first and then builds the new processor: a packet that
    another task sends in between is still judged by the old rules, and its record outlives
    the reload, so its answers keep coming in under the new rules. *)
Lemma record_outlives_reload f k info cfg :
  admitted f k info →
  ∃ f1, process (clear_records f) k = Some (f1, true) ∧
    outbound_allow_records (install_rules parse_cidr f1 cfg) !! new_from_outbound_packet info = Some (call_now k).
Proof.
  intros (Hin & a & g & (He & Hd & Hx & res & Hj & Ha) & Hna).
  assert (Hs : rules_say (clear_records f) k info true a (clear_records g))
    by (split_and!; [done..|exists res; split; [by apply verdict_records|done]]).
  eexists. rewrite (rules_decide _ _ _ _ _ _ Hs). unfold settle.
  rewrite (bool_decide_true (chain_of k info = Outbound)) by by apply outbound_only.
  destruct a; [..|done]; cbn [andb]; (split; [done|]); unfold install_rules; destruct cfg as [cfg|];
    cbn [get_shared_state with_records acl_state outbound_allow_records];
    try destruct (new_with_shared_state _ _ _ _ _); apply lookup_insert_eq.
Qed.

End FilterFacts.

(** ** Witnesses *)

(** Inbound packets are dropped, outbound ones are allowed. *)
Definition demo_config : AclConfig := Some [mkChain 1 true [] 2].

Definition demo_filter : AclFilter Z Z := reload_rules toy_parse (new_filter toy_parse) (Some demo_config).

Definition demo_datagram (src dst : list Z) (frag sp dp : Z) (data : list Z) : ZCPacket.t :=
  ZCPacket.new_from_buf
    (PeerManagerHeader.to_bytes (PeerManagerHeader.mk 1 2 (packet_type_u8 Data) 0 1 0 0) ++
     ipv4_packet 69 0 [0; 0] frag 64 IP_PROTO_UDP [0; 0] src dst [] (to_be 2 sp ++ to_be 2 dp ++ data))
    DummyTunnel.

Definition demo_call (p : ZCPacket.t) (i : bool) (now : Z) : PacketCall :=
  mkCall p i (Some 167772161) (λ _, false) (λ _, []) now 1.

Definition demo_host : list Z := [10; 0; 0; 1].
Definition demo_peer : list Z := [10; 0; 0; 2].

Definition demo_request : PacketCall :=
  demo_call (demo_datagram demo_host demo_peer 0 4000 53 [0; 8; 0; 0]) false 1000.
Definition demo_reply : PacketCall :=
  demo_call (demo_datagram demo_peer demo_host 0 53 4000 [0; 8; 0; 0]) true (20 * NANOS).

Notation demo_run := (process_packet_with_acl Z.eqb Z.eqb toy_text).

(** An unsolicited packet is dropped; the same packet as an answer is not. *)
Example demo_unsolicited : snd <$> demo_run demo_filter demo_reply = Some false.
Proof. vm_compute. reflexivity. Qed.

(** The ports of an IPv4 fragment other than the first are read from its data, where those
    of an IPv6 one are unknown by design: a tail is judged by what it carries. *)
Example ipv4_tail_ports_are_data :
  (λ x, match x with Some (info, _) => Some (src_port info, dst_port info) | None => None end) <$>
    extract_packet_info (demo_datagram demo_peer demo_host 100 (6 * 256 + 7) 80 [1; 2; 3; 4]) true (λ _, [])
  = Some (Some (Some (6 * 256 + 7), Some 80)).
Proof. vm_compute. reflexivity. Qed.

(** A tail of less than eight bytes is not judged at all. *)
Example short_ipv4_tail_passes :
  snd <$> demo_run demo_filter (demo_call (demo_datagram demo_peer demo_host 100 1 2 []) true 1000) = Some true.
Proof. vm_compute. reflexivity. Qed.

Lemma demo_filter_ok now : filter_ok Z.eqb Z.eqb toy_text demo_filter now.
Proof. apply reload_ok, new_filter_ok. Qed.

Lemma demo_request_ok : call_ok demo_request.
Proof. split; [vm_compute; congruence|]. vm_compute. repeat constructor; congruence. Qed.

Lemma demo_reply_ok : call_ok demo_reply.
Proof. split; [vm_compute; congruence|]. vm_compute. repeat constructor; congruence. Qed.

Lemma filter_never_panics_witness :
  ∃ f now, filter_run Z.eqb Z.eqb toy_parse toy_text (new_filter toy_parse)
      [FReload (Some demo_config); FPacket demo_request; FClean 2000; FTick 3000 4000; FPacket demo_reply;
       FReload None; FConnCleanup 7] = Some f ∧ filter_ok Z.eqb Z.eqb toy_text f now.
Proof.
  apply (filter_never_panics Z.eqb Z.eqb toy_parse toy_text 0). cbn [timely].
  split_and!; [apply demo_request_ok|vm_compute; congruence..|apply demo_reply_ok|vm_compute; congruence|done].
Defined.

Lemma demo_is_data p l :
  ZCPacket.peer_manager_header p = PeerManagerHeader.from_prefix l →
  PeerManagerHeader.packet_type <$> PeerManagerHeader.from_prefix l = Some (packet_type_u8 Data) → is_data p.
Proof. unfold is_data. intros ->. destruct (PeerManagerHeader.from_prefix l); [|done]. intros [= H]. eauto. Qed.

Definition demo_info (c : PacketCall) : PacketInfo :=
  match extract_packet_info (packet c) (is_in c) (get_peer_groups c) with
  | Some (Some (info, _)) => info
  | _ => mkPacketInfo (IpV4 0) (IpV4 0) None None PUnspecified 0 [] []
  end.

Lemma demo_admitted : admitted Z.eqb Z.eqb toy_text demo_filter demo_request (demo_info demo_request).
Proof.
  split; [done|]. exists Allow.
  assert (Ha : action <$> (snd <$> judge Z.eqb Z.eqb toy_text demo_filter (demo_info demo_request) Outbound 1000 1)
    = Some Allow) by (vm_compute; reflexivity).
  destruct (judge Z.eqb Z.eqb toy_text demo_filter (demo_info demo_request) Outbound 1000 1) as [[g res]|] eqn:E;
    [|done].
  exists g. split; [|done]. split_and!; [done| |vm_compute; reflexivity|].
  - eexists. split; vm_compute; reflexivity.
  - exists res. split; [exact E|]. by injection Ha.
Qed.

Lemma demo_answers : answers (demo_info demo_request) demo_reply.
Proof.
  split; [done|]. split; [eexists; split; vm_compute; reflexivity|].
  exists (demo_info demo_reply). split; vm_compute; reflexivity.
Qed.

Lemma reply_is_let_in_witness :
  ∃ f1 f2 f3, demo_run demo_filter demo_request = Some (f1, true) ∧
    filter_run Z.eqb Z.eqb toy_parse toy_text f1 [FClean (10 * NANOS); FTick (11 * NANOS) (12 * NANOS)] = Some f2 ∧
    demo_run f2 demo_reply = Some (f3, true).
Proof.
  apply (reply_is_let_in Z.eqb Z.eqb toy_parse toy_text demo_filter 0 demo_request (demo_info demo_request)
    [FClean (10 * NANOS); FTick (11 * NANOS) (12 * NANOS)] demo_reply).
  - apply demo_filter_ok.
  - cbn [timely app]. split_and!; [apply demo_request_ok|vm_compute; congruence..|apply demo_reply_ok|
      vm_compute; congruence|done].
  - by repeat constructor.
  - intros t [[= ->]|[|[]%elem_of_nil]%elem_of_cons]%elem_of_cons; [vm_compute; reflexivity|done].
  - apply demo_admitted.
  - apply demo_answers.
Defined.

Definition demo_filter_after : AclFilter Z Z :=
  match demo_run demo_filter demo_request with Some (f, _) => f | None => demo_filter end.

Lemma demo_run_after :
  filter_run Z.eqb Z.eqb toy_parse toy_text (new_filter toy_parse)
    [FReload (Some demo_config); FPacket demo_request] = Some demo_filter_after.
Proof.
  assert (Hr : (if demo_run demo_filter demo_request then true else false) = true) by (vm_compute; reflexivity).
  cbn [filter_run filter_step mbind option_bind]. fold demo_filter. unfold demo_filter_after.
  destruct (demo_run demo_filter demo_request) as [[g b]|]; [|discriminate Hr].
  cbn [fmap option_fmap option_map mbind option_bind fst]. exact eq_refl.
Qed.

Lemma demo_rules_say : ∃ f1,
  rules_say Z.eqb Z.eqb toy_text demo_filter_after demo_reply (demo_info demo_reply) true Drop f1.
Proof.
  assert (Ha : action <$> (snd <$> judge Z.eqb Z.eqb toy_text demo_filter_after (demo_info demo_reply) Inbound
    (20 * NANOS) 1) = Some Drop) by (vm_compute; reflexivity).
  destruct (judge Z.eqb Z.eqb toy_text demo_filter_after (demo_info demo_reply) Inbound (20 * NANOS) 1)
    as [[g res]|] eqn:E; [|done].
  exists g. split_and!; [vm_compute; reflexivity| |vm_compute; reflexivity|].
  - eexists. split; vm_compute; reflexivity.
  - exists res. split; [exact E|]. by injection Ha.
Qed.


Lemma counters_add_up_witness :
  ∃ f g, filter_run Z.eqb Z.eqb toy_parse toy_text (new_filter toy_parse)
      [FReload (Some demo_config); FPacket demo_reply; FPacket demo_request; FPacket demo_reply] = Some f ∧
    counts_ok (acl_state f) g.
Proof.
  set (evs := [FReload (Some demo_config); FPacket demo_reply; FPacket demo_request; FPacket demo_reply]).
  assert (Hr : (if filter_run Z.eqb Z.eqb toy_parse toy_text (new_filter toy_parse) evs then true else false) = true)
    by (vm_compute; reflexivity).
  destruct (filter_run Z.eqb Z.eqb toy_parse toy_text (new_filter toy_parse) evs) as [f|] eqn:E; [|discriminate Hr].
  destruct (counters_add_up Z.eqb Z.eqb toy_parse toy_text evs f E) as (g & Hg).
  exists f, g. exact (conj eq_refl Hg).
Defined.
