(* ===== verification/Dhcp.v ===== *)
(** * Automatic addresses

    Models easytier-core/src/gateway/dhcp.rs and the subnet checks of
    easytier-core/src/config/dhcp.rs: the allocator of either family, the choice of an
    address and the service that keeps the address of the interface in step with it.

    The [cidr] crate is the class [Inet] with the laws [InetLaws] of its documentation:
    an [Inet] is an address with a prefix length, its network is the first address with
    the length.  A [HashSet] of peers is the list of its elements in iteration order; the
    random generator and the outcome of the host are arguments.  The state of the service
    changes in two steps, [plan] up to the call of the host and [finish] after it, since the
    future may be dropped while it waits for the host. *)

From stdpp Require Import base gmap list numbers sets.
From Stdlib Require Import ZArith Lia.
From S2P Require Import Prelude Packet.
Local Open Scope Z_scope.

(** ** Addresses with a prefix length *)

Class Inet (T : Type) := {
  inet_eq_dec :: EqDecision T;
  address : T → Z;
  first_address : T → Z;
  last_address : T → Z;
  network_length : T → Z;
  width : Z;
  inet_new : Z → Z → option T
}.

(** [network()]: a [Cidr] is its first address and its length. *)
Definition network `{Inet T} (i : T) : Z * Z := (first_address i, network_length i).

Class InetLaws (T : Type) `{Inet T} : Prop := {
  inet_new_spec a n i : inet_new a n = Some i → address i = a ∧ network_length i = n;
  inet_ext i j : address i = address j → network_length i = network_length j → i = j;
  inet_bounds i : first_address i <= address i <= last_address i;
  inet_in_range s a : first_address s <= a <= last_address s →
    ∃ i, inet_new a (network_length s) = Some i ∧ first_address i = first_address s ∧ last_address i = last_address s;
  inet_length i : 0 <= network_length i <= width;
  inet_span i : last_address i = first_address i + 2 ^ (width - network_length i) - 1
}.

(** ** The allocator *)

Inductive DhcpDecision (T : Type) : Type :=
| WaitForPeers
| Unchanged
| Change (previous next : option T).
Arguments WaitForPeers {T}.
Arguments Unchanged {T}.
Arguments Change {T} _ _.

Definition BOOTSTRAP_WAIT_ROUNDS : Z := 2.

Record DhcpAllocator (T : Type) : Type := mkAllocator {
  default_subnet : option T;
  current : option T;
  no_address_rounds : Z
}.
Arguments mkAllocator {T} _ _ _.
Arguments default_subnet {T} _.
Arguments current {T} _.
Arguments no_address_rounds {T} _.

Section Allocator.

Context {T : Type} `{Inet T}.

Implicit Types (al : DhcpAllocator T) (used : list T) (subnet : T).

Definition allocator_default : DhcpAllocator T := mkAllocator None None 0.

Definition allocator_new (default : T) : DhcpAllocator T := mkAllocator (Some default) None 0.

Definition reset al : DhcpAllocator T := mkAllocator (default_subnet al) None 0.

Definition commit al (next : option T) : DhcpAllocator T :=
  mkAllocator (default_subnet al) next (no_address_rounds al).

Definition set_rounds al (n : Z) : DhcpAllocator T := mkAllocator (default_subnet al) (current al) n.

(** The key of [min_by_key]: tuples of a [bool], an address and a length. *)
Definition subnet_key (cur : option T) subnet : bool * Z * Z :=
  (match cur with None => true | Some c => negb (bool_decide (network c = network subnet)) end,
   first_address subnet, network_length subnet).

Definition key_lt (a b : bool * Z * Z) : bool :=
  let '(x, y, z) := a in
  let '(x', y', z') := b in
  if Bool.eqb x x' then (if y =? y' then z <? z' else y <? y') else negb x.

(** [min_by_key] returns the first of the least elements. *)
Definition min_by_key {K} (lt : K → K → bool) (key : T → K) (l : list T) : option T :=
  match l with
  | [] => None
  | x :: rest => Some (foldl (λ best y, if lt (key y) (key best) then y else best) x rest)
  end.

Definition advertised al used (usable : T → bool) : option T :=
  min_by_key key_lt (subnet_key (current al)) (filter (λ s, usable s = true) used).

(** The subnet to use, with the rounds without an address; [None] is [WaitForPeers]. *)
Definition choose_subnet al used (usable : T → bool) : DhcpAllocator T * option T :=
  match advertised al used usable with
  | Some s => (set_rounds al 0, Some s)
  | None =>
      match current al with
      | Some c => (al, Some c)
      | None =>
          match default_subnet al with
          | None => (al, None)
          | Some d =>
              let rounds := saturating_add 32 (no_address_rounds al) 1 in
              (set_rounds al rounds, if rounds <=? BOOTSTRAP_WAIT_ROUNDS then None else Some d)
          end
      end
  end.

(** The address is in the subnet and no peer has it. *)
Definition keeps_address al used subnet : bool :=
  match current al with
  | Some c => bool_decide (network c = network subnet) && negb (existsb (λ p, address p =? address c) used)
  | None => false
  end.

Definition evaluate_with al (has_routes : bool) used (usable : T → bool) (pick : T → bool → option T)
    : DhcpAllocator T * DhcpDecision T :=
  if negb has_routes && bool_decide (default_subnet al = None) then (al, WaitForPeers)
  else
    let '(al', chosen) := choose_subnet al used usable in
    match chosen with
    | None => (al', WaitForPeers)
    | Some subnet =>
        if keeps_address al' used subnet then (al', Unchanged)
        else
          let next := pick subnet (bool_decide (is_Some (current al'))) in
          (al', if bool_decide (current al' = next) then Unchanged else Change (current al') next)
    end.

(** *** Picking an IPv4 address *)

(** [gen_range a b] draws from [a..b]. *)
Context (gen_range : Z → Z → Z).

Definition candidate4 used subnet (offset : Z) : option T :=
  c ← inet_new (first_address subnet + offset) (network_length subnet);
  if bool_decide (c ∈ used) then None else Some c.

Definition pick_ipv4 used subnet (retry : bool) : option T :=
  let span := last_address subnet - first_address subnet in
  let offset := if (1 <? span) && (bool_decide (used = []) || retry) then gen_range 1 span else 1 in
  find_map (candidate4 used subnet) (seqZ offset (span - offset) ++ seqZ 1 (offset - 1)).

Definition evaluate_ipv4 al (has_routes : bool) used : DhcpAllocator T * DhcpDecision T :=
  evaluate_with al has_routes used (λ _, true) (pick_ipv4 used).

(** *** Picking an IPv6 address *)

Definition used_ips used : gset Z := list_to_set (map address used).

(** The loop over the candidates; [.ok()?] leaves the search. *)
Fixpoint probe_ipv6 (rounds : nat) (ips : gset Z) subnet (span offset : Z) : option T :=
  match rounds with
  | O => None
  | S rounds' =>
      c ← inet_new (first_address subnet + offset) (network_length subnet);
      if bool_decide (address c ∈ ips)
      then probe_ipv6 rounds' ips subnet span (if offset + 1 =? span then 1 else offset + 1)
      else Some c
  end.

Definition pick_ipv6 used subnet (_retry : bool) : option T :=
  let span := last_address subnet - first_address subnet in
  if span <=? 1 then None
  else
    let ips := used_ips used in
    probe_ipv6 (Z.to_nat (Z.min (Z.of_nat (size ips) + 1) (span - 1))) ips subnet span (gen_range 1 span).

(** config/dhcp.rs: the first segment of the first address decides. *)
Definition valid_ipv6_subnet (net : Z * Z) : bool :=
  let first := Z.shiftr (fst net) 112 in
  (snd net <=? 126) &&
  (((7 <=? snd net) && (Z.land first 65024 =? 64512)) || ((3 <=? snd net) && (Z.land first 57344 =? 8192))).

Definition evaluate_ipv6 al (has_routes : bool) used : DhcpAllocator T * DhcpDecision T :=
  evaluate_with al has_routes used (λ s, valid_ipv6_subnet (network s)) (pick_ipv6 used).

End Allocator.

(** ** Configuration (config/dhcp.rs) *)

Inductive DhcpConfig (C : Type) : Type :=
| Enabled (b : bool)
| Cidr (c : C).
Arguments Enabled {C} _.
Arguments Cidr {C} _.

Section Config.

Context {C : Type}.
Context (is_ipv6 : C → bool) (cidr_length : C → Z).
Context (parse : list Z → option C) (parse_ipv6 : list Z → option (Z * Z)).

Definition config_enabled (d : DhcpConfig C) : bool :=
  match d with Enabled false => false | _ => true end.

Definition config_cidr (d : DhcpConfig C) : option C :=
  match d with Enabled _ => None | Cidr c => Some c end.

Inductive DhcpConfigError : Type := InvalidCidr | NoUsableIpv4 | NoUsableIpv6.

Definition from_cidr (value : list Z) : result (DhcpConfig C) DhcpConfigError :=
  match parse value with
  | None => Err InvalidCidr
  | Some cidr =>
      if is_ipv6 cidr then
        match parse_ipv6 value with
        | None => Err InvalidCidr
        | Some subnet => if valid_ipv6_subnet subnet then Ok (Cidr cidr) else Err NoUsableIpv6
        end
      else if cidr_length cidr <=? 30 then Ok (Cidr cidr) else Err NoUsableIpv4
  end.

(** ["true"] and ["false"] are booleans, all else is a subnet. *)
Definition from_str (value : list Z) : result (DhcpConfig C) DhcpConfigError :=
  if bool_decide (value = [116; 114; 117; 101]) then Ok (Enabled true)
  else if bool_decide (value = [102; 97; 108; 115; 101]) then Ok (Enabled false)
  else from_cidr value.

End Config.

(** ** The service *)

Section Service.

Context {V4 V6 : Type} `{Inet V4} `{Inet V6}.

Record DhcpAddresses : Type := mkAddresses { ipv4 : option V4; ipv6 : option V6 }.

#[export] Instance addresses_eq_dec : EqDecision DhcpAddresses.
Proof. solve_decision. Defined.

Record DhcpRouteSnapshot : Type := mkSnapshot {
  has_routes : bool;
  used_ipv4 : list V4;
  used_ipv6 : list V6
}.

(** The routes of the peers: which address of either family each announces. *)
Definition dhcp_route_snapshot (routes : list (option V4 * option V6)) : DhcpRouteSnapshot :=
  mkSnapshot (negb (bool_decide (routes = []))) (remove_dups (omap fst routes)) (remove_dups (omap snd routes)).

Record DhcpState : Type := mkState {
  st_ipv4 : option (DhcpAllocator V4);
  st_ipv6 : option (DhcpAllocator V6);
  needs_apply : bool
}.

(** [peer.runtime.core.routes]: the addresses of the node. *)
Record NodeRoutes : Type := mkRoutes { routes_ipv4 : option IpPrefix; routes_ipv6 : option IpPrefix }.

Record DhcpService : Type := mkService { state : DhcpState; runtime : NodeRoutes }.

(** What the host did: the addresses it has, and whether the call succeeded. *)
Record DhcpApplyOutcome : Type := mkOutcome { actual : DhcpAddresses; applied : bool }.

Implicit Types (st : DhcpState) (sv : DhcpService).

Definition state_current st : DhcpAddresses :=
  mkAddresses (st_ipv4 st ≫= current) (st_ipv6 st ≫= current).

(** The configured subnet, given by its first address, or the built-in one ([expect]). *)
Definition new_allocator {T} `{Inet T} (enabled : bool) (cidr_first : option T) (first len : Z)
    : option (option (DhcpAllocator T)) :=
  if enabled then
    d ← match cidr_first with
        | Some c => Some c
        | None => inet_new first len
        end;
    Some (Some (allocator_new d))
  else Some None.

(** The built-in subnets are 10.126.126.0/24 and fd6b:8c2d:91e4::/64. *)
Definition service_new (dhcp_ipv4 dhcp_ipv6 : bool) (ipv4_cidr : option V4) (ipv6_cidr : option V6) (r : NodeRoutes)
    : option DhcpService :=
  a4 ← new_allocator dhcp_ipv4 ipv4_cidr 176061952 24;
  a6 ← new_allocator dhcp_ipv6 ipv6_cidr (Z.shiftl 278638355124708 80) 64;
  Some (mkService (mkState a4 a6 true) r).

Definition evaluate_family {T} (a : option (DhcpAllocator T))
    (evaluate : DhcpAllocator T → DhcpAllocator T * DhcpDecision T) (previous : option T)
    : option (DhcpAllocator T) * option T :=
  match a with
  | None => (None, previous)
  | Some al =>
      let '(al', d) := evaluate al in
      (Some al', match d with Change _ next => next | _ => previous end)
  end.

(** [reconcile_once] up to the call of the host; [None] when it returns before. *)
Definition plan sv (closed : bool) (snapshot : DhcpRouteSnapshot) (gen4 gen6 : Z → Z → Z)
    : DhcpService * option (DhcpAddresses * DhcpAddresses) :=
  let st := state sv in
  let previous := state_current st in
  let '(a4, next4) := evaluate_family (st_ipv4 st)
        (λ al, evaluate_ipv4 gen4 al (has_routes snapshot) (used_ipv4 snapshot)) (ipv4 previous) in
  let '(a6, next6) := evaluate_family (st_ipv6 st)
        (λ al, evaluate_ipv6 gen6 al (has_routes snapshot) (used_ipv6 snapshot)) (ipv6 previous) in
  let next := mkAddresses next4 next6 in
  if bool_decide (previous = next) && negb (needs_apply st) && negb closed
  then (mkService (mkState a4 a6 false) (runtime sv), None)
  else (mkService (mkState a4 a6 true) (runtime sv), Some (previous, next)).

Definition prefix4 (a : option V4) : option IpPrefix := (λ i, mkPrefix (IpV4 (address i)) (network_length i)) <$> a.
Definition prefix6 (a : option V6) : option IpPrefix := (λ i, mkPrefix (IpV6 (address i)) (network_length i)) <$> a.

(** The rest of [reconcile_once]: the routes follow what the host has, the allocators
    only when the call succeeded. *)
Definition finish sv (o : DhcpApplyOutcome) : DhcpService :=
  let st := state sv in
  let r := runtime sv in
  let r' := mkRoutes
    (if bool_decide (is_Some (st_ipv4 st)) then prefix4 (ipv4 (actual o)) else routes_ipv4 r)
    (if bool_decide (is_Some (st_ipv6 st)) then prefix6 (ipv6 (actual o)) else routes_ipv6 r) in
  if applied o then
    mkService (mkState ((λ al, commit al (ipv4 (actual o))) <$> st_ipv4 st)
                 ((λ al, commit al (ipv6 (actual o))) <$> st_ipv6 st) false) r'
  else mkService st r'.

(** [reconcile_once] with a host that answers, and what is published. *)
Definition reconcile_once sv (closed : bool) (snapshot : DhcpRouteSnapshot) (gen4 gen6 : Z → Z → Z)
    (apply_dhcp : DhcpAddresses → DhcpApplyOutcome)
    : DhcpService * bool * option (DhcpAddresses * DhcpAddresses) :=
  let '(sv1, asked) := plan sv closed snapshot gen4 gen6 in
  match asked with
  | None => (sv1, has_routes snapshot, None)
  | Some (previous, next) =>
      let o := apply_dhcp next in
      (finish sv1 o, has_routes snapshot, if applied o then Some (previous, actual o) else None)
  end.

(** The pause of the loop of [start], in seconds. *)
Definition next_sleep (had_routes : bool) (gen_range : Z → Z → Z) : Z :=
  if had_routes then gen_range 5 10 else 1.

End Service.

Arguments DhcpAddresses : clear implicits.
Arguments DhcpRouteSnapshot : clear implicits.
Arguments DhcpState : clear implicits.
Arguments DhcpService : clear implicits.
Arguments DhcpApplyOutcome : clear implicits.

(** * Properties *)

Section AllocatorFacts.

Context {T : Type} `{InetLaws T}.

Implicit Types (al : DhcpAllocator T) (used : list T) (subnet : T).

(** ** The choice of the subnet *)

Lemma key_lt_irrefl a : key_lt a a = false.
Proof. destruct a as [[x y] z]. cbn. by rewrite Bool.eqb_reflx, Z.eqb_refl, Z.ltb_irrefl. Qed.

Lemma key_lt_trans a b c : key_lt a b = false → key_lt b c = false → key_lt a c = false.
Proof.
  destruct a as [[x1 y1] z1], b as [[x2 y2] z2], c as [[x3 y3] z3]. cbn.
  destruct x1, x2, x3; cbn; try done; intros;
    repeat match goal with
    | H : context [?u =? ?v] |- _ => destruct (Z.eqb_spec u v)
    | |- context [?u =? ?v] => destruct (Z.eqb_spec u v)
    end; simplify_eq; rewrite ?Z.ltb_ge in *; lia.
Qed.

Lemma key_lt_total a b : key_lt a b = false → key_lt b a = false → a = b.
Proof.
  destruct a as [[x1 y1] z1], b as [[x2 y2] z2]. cbn.
  destruct x1, x2; cbn; try done; destruct (Z.eqb_spec y1 y2), (Z.eqb_spec y2 y1);
    rewrite ?Z.ltb_ge; intros; f_equal; try f_equal; lia.
Qed.

Lemma key_lt_asym a b : key_lt a b = true → key_lt b a = false.
Proof.
  destruct (key_lt b a) eqn:E2; [|done]. intros E1.
  destruct a as [[x1 y1] z1], b as [[x2 y2] z2]. cbn in *.
  destruct x1, x2; cbn in *; try done; destruct (Z.eqb_spec y1 y2), (Z.eqb_spec y2 y1);
    rewrite ?Z.ltb_lt in *; lia.
Qed.

(** The fold keeps a least element of the list. *)
Lemma min_by_key_spec (key : T → bool * Z * Z) l s :
  min_by_key key_lt key l = Some s → s ∈ l ∧ ∀ y, y ∈ l → key_lt (key y) (key s) = false.
Proof.
  destruct l as [|x rest]; [done|]. cbn [min_by_key]. intros [= <-]. revert x.
  induction rest as [|y rest IH]; intros x; cbn [foldl].
  - split; [by left|]. intros y ->%list_elem_of_singleton. apply key_lt_irrefl.
  - destruct (IH (if key_lt (key y) (key x) then y else x)) as [Hin Hmin].
    set (r := foldl _ _ rest) in *.
    assert (Hm : key_lt (key x) (key r) = false ∧ key_lt (key y) (key r) = false).
    { pose proof (Hmin _ ltac:(left)) as Hb. destruct (key_lt (key y) (key x)) eqn:E.
      - split; [|done]. by eapply key_lt_trans; [apply key_lt_asym|].
      - split; [done|]. by eapply key_lt_trans. }
    split.
    + apply elem_of_cons in Hin as [->|]; [|by do 2 right]. case_match; [by right; left|by left].
    + intros z [->|[->|Hz]%elem_of_cons]%elem_of_cons; [apply Hm..|]. apply Hmin. by right.
Qed.

Lemma min_by_key_None {K} lt (key : T → K) l : min_by_key lt key l = None ↔ l = [].
Proof. by destruct l. Qed.

(** The order of the peers does not matter but for which peer of a network is taken. *)
Lemma min_by_key_perm cur (l l' : list T) :
  l ≡ₚ l' →
  network <$> min_by_key key_lt (subnet_key cur) l = network <$> min_by_key key_lt (subnet_key cur) l'.
Proof.
  intros Hp. destruct (min_by_key key_lt (subnet_key cur) l) as [s|] eqn:E1.
  - destruct (min_by_key key_lt (subnet_key cur) l') as [s'|] eqn:E2.
    + apply min_by_key_spec in E1 as [Hs1 Hm1], E2 as [Hs2 Hm2].
      rewrite Hp in Hs1. rewrite <- Hp in Hs2.
      assert (subnet_key cur s = subnet_key cur s') as Ek by (apply key_lt_total; auto).
      unfold subnet_key in Ek. injection Ek as _ Ef El. cbn. unfold network. by rewrite Ef, El.
    + apply min_by_key_None in E2 as ->. symmetry in Hp. apply Permutation_nil in Hp. by subst.
  - apply min_by_key_None in E1 as ->. apply Permutation_nil in Hp. by subst.
Qed.

(** What peers advertise, ordered so that the current network comes first. *)
Lemma advertised_spec al used usable s :
  advertised al used usable = Some s →
  s ∈ used ∧ usable s = true ∧
  ∀ c, current al = Some c → (∃ p, p ∈ used ∧ usable p = true ∧ network p = network c) → network s = network c.
Proof.
  unfold advertised. intros [Hs Hmin]%min_by_key_spec. apply list_elem_of_filter in Hs as [Hu Hs].
  split; [done|]. split; [done|]. intros c Hc (p & Hp & Hpu & Hn).
  specialize (Hmin p ltac:(by apply list_elem_of_filter)). unfold subnet_key in Hmin. rewrite Hc in Hmin.
  rewrite (bool_decide_true (network c = network p)) in Hmin by done. cbn in Hmin.
  by case_bool_decide as E.
Qed.

Lemma choose_current al used usable : current (choose_subnet al used usable).1 = current al.
Proof. unfold choose_subnet. by repeat case_match. Qed.

Lemma evaluate_current al hr used usable pick : current (evaluate_with al hr used usable pick).1 = current al.
Proof.
  unfold evaluate_with. case_match; [done|]. pose proof (choose_current al used usable) as Hc.
  destruct (choose_subnet al used usable) as [al' [s|]]; cbn [fst] in *; by repeat case_match.
Qed.

(** ** The choice of the address *)

Lemma same_network_last s i : network s = network i → last_address s = last_address i.
Proof. unfold network. intros [= E1 E2]. by rewrite !inet_span, E1, E2. Qed.

Lemma inet_new_in s a :
  first_address s <= a <= last_address s →
  ∃ i, inet_new a (network_length s) = Some i ∧ address i = a ∧ network i = network s.
Proof.
  intros Ha. destruct (inet_in_range s a Ha) as (i & E & Ef & _). exists i. split; [done|].
  destruct (inet_new_spec a (network_length s) i E) as [-> El]. unfold network. by rewrite Ef, El.
Qed.

(** What a search owes: an address strictly inside the subnet that is free, and [None] only
    when there is none. *)
Definition pick_ok (free : T → Prop) (pick : T → bool → option T) : Prop :=
  ∀ s retry, match pick s retry with
  | Some a => network a = network s ∧ first_address s < address a < last_address s ∧ free a
  | None => ∀ i, network i = network s → first_address s < address i < last_address s → ¬ free i
  end.

(** The documented range of the generator. *)
Definition draws_in_range (gen : Z → Z → Z) : Prop := ∀ a b, a < b → a <= gen a b < b.

(** The IPv4 search visits every offset between the endpoints once, and compares whole
    entries, address and length. *)
Lemma pick_ipv4_ok gen used : draws_in_range gen → pick_ok (λ a, a ∉ used) (pick_ipv4 gen used).
Proof.
  intros Hg s retry. unfold pick_ipv4. cbn zeta. set (span := last_address s - first_address s).
  set (off := if (1 <? span) && _ then gen 1 span else 1).
  assert (Hoff : 1 <= off ∧ (off = 1 ∨ off < span)).
  { unfold off. destruct (Z.ltb_spec 1 span); cbn [andb]; [|lia]. destruct (_ || _); [|lia].
    specialize (Hg 1 span). lia. }
  destruct (find_map _ _) as [a|] eqn:E.
  - apply find_map_Some in E as (x & Hx & Ec).
    assert (1 <= x < span) as Hr by (apply elem_of_app in Hx as [Hx|Hx]; apply elem_of_seqZ in Hx; lia).
    unfold candidate4 in Ec. destruct (inet_new_in s (first_address s + x)) as (i & E & Ea & En); [lia|].
    rewrite E in Ec. cbn [mbind option_bind] in Ec. case_bool_decide; [done|]. injection Ec as <-.
    split; [done|]. split; [lia|done].
  - intros i Hn Hi Hf. apply (find_map_None _ _) with (x := address i - first_address s) in E.
    2: { apply elem_of_app. rewrite !elem_of_seqZ. lia. }
    unfold candidate4 in E. replace (first_address s + (address i - first_address s)) with (address i) in E by lia.
    destruct (inet_new_in s (address i)) as (j & Ej & Ea & En); [lia|].
    assert (j = i) as -> by (apply inet_ext; [done|]; unfold network in *; congruence).
    rewrite Ej in E. cbn [mbind option_bind] in E. by case_bool_decide.
Qed.

(** The offset that the IPv6 search tries in round [i]. *)
Definition probe_offset (span offset i : Z) : Z := (offset - 1 + i) mod (span - 1) + 1.

Lemma probe_next span offset i :
  1 <= offset < span →
  probe_offset span (if offset + 1 =? span then 1 else offset + 1) i = probe_offset span offset (i + 1).
Proof.
  intros Ho. unfold probe_offset. f_equal. destruct (Z.eqb_spec (offset + 1) span).
  - replace (offset - 1 + (i + 1)) with (i + 1 * (span - 1)) by lia. rewrite Z_mod_plus_full. done.
  - f_equal. lia.
Qed.

Lemma probe_ipv6_spec rounds ips s span offset :
  span = last_address s - first_address s → 1 <= offset < span →
  match probe_ipv6 rounds ips s span offset with
  | Some a => network a = network s ∧ first_address s < address a < last_address s ∧ address a ∉ ips
  | None => ∀ i, 0 <= i < Z.of_nat rounds → first_address s + probe_offset span offset i ∈ ips
  end.
Proof.
  intros Hspan. revert offset. induction rounds as [|rounds IH]; intros offset Ho; cbn [probe_ipv6]; [lia|].
  destruct (inet_new_in s (first_address s + offset)) as (c & -> & Ea & En); [lia|]. cbn [mbind option_bind].
  case_bool_decide as Hc; [|rewrite Ea in *; split; [done|]; split; [lia|done]].
  specialize (IH (if offset + 1 =? span then 1 else offset + 1)).
  destruct (probe_ipv6 rounds ips s span _) as [a|]; [apply IH; case_match; lia|].
  intros i Hi. destruct (decide (i = 0)) as [->|].
  - unfold probe_offset. replace (offset - 1 + 0) with (offset - 1) by lia.
    rewrite Z.mod_small by lia. replace (offset - 1 + 1) with offset by lia. by rewrite Ea in Hc.
  - replace i with (i - 1 + 1) by lia. rewrite <- probe_next by done. apply IH; [|lia]. case_match; lia.
Qed.

Lemma mod_inj m a i j : 0 <= i < m → 0 <= j < m → (a + i) mod m = (a + j) mod m → i = j.
Proof.
  intros Hi Hj E. pose proof (Z.div_mod (a + i) m ltac:(lia)). pose proof (Z.div_mod (a + j) m ltac:(lia)).
  rewrite E in *. assert (i - j = m * ((a + i) / m - (a + j) / m)) by lia.
  assert ((a + i) / m - (a + j) / m = 0) by nia. lia.
Qed.

(** More rounds than occupied addresses: by the pigeonhole principle one of them is free. *)
Lemma rounds_exceed_used ips first span offset n :
  0 <= n <= span - 1 → (∀ i, 0 <= i < n → first + probe_offset span offset i ∈ (ips : gset Z)) →
  n <= Z.of_nat (size ips).
Proof.
  intros Hn Hin. set (l := map (λ i, first + probe_offset span offset i) (seqZ 0 n)).
  assert (NoDup l) as Hnd.
  { apply NoDup_fmap_2_strong; [|apply NoDup_seqZ]. intros i j Hi%elem_of_seqZ Hj%elem_of_seqZ E.
    unfold probe_offset in E. apply (mod_inj (span - 1) (offset - 1)); lia. }
  assert (list_to_set l ⊆ ips) as Hsub.
  { intros x Hx%elem_of_list_to_set. apply list_elem_of_fmap in Hx as (i & -> & Hi%elem_of_seqZ). apply Hin. lia. }
  apply subseteq_size in Hsub. rewrite size_list_to_set in Hsub by done.
  unfold l in Hsub. rewrite length_map, length_seqZ in Hsub. lia.
Qed.

Lemma used_ips_spec used x : x ∈ used_ips used ↔ ∃ p, p ∈ used ∧ address p = x.
Proof. unfold used_ips. rewrite elem_of_list_to_set, list_elem_of_fmap. naive_solver. Qed.

(** The IPv6 search finds a free address whenever there is one, in at most one round more
    than there are occupied addresses. *)
Lemma pick_ipv6_ok gen used :
  draws_in_range gen → pick_ok (λ a, ∀ p, p ∈ used → address p ≠ address a) (pick_ipv6 gen used).
Proof.
  intros Hg s retry. unfold pick_ipv6. cbn zeta. set (span := last_address s - first_address s).
  destruct (Z.leb_spec span 1); [intros i _ Hi; lia|].
  set (n := Z.min _ _). set (off := gen 1 span). assert (Ho : 1 <= off < span) by (apply Hg; lia).
  pose proof (probe_ipv6_spec (Z.to_nat n) (used_ips used) s span off eq_refl Ho) as Hp.
  destruct (probe_ipv6 _ _ _ _ _) as [a|].
  - destruct Hp as (Hn & Hr & Hf). split; [done|]. split; [done|]. intros p Hp E. apply Hf, used_ips_spec. eauto.
  - intros i Hn Hi Hf. assert (0 <= n) by (unfold n; lia).
    assert (Hle := rounds_exceed_used (used_ips used) (first_address s) span off n ltac:(unfold n; lia)
      ltac:(intros; apply Hp; lia)).
    assert (n = span - 1) as En by (unfold n in *; lia).
    set (j := (address i - first_address s - off) mod (span - 1)).
    assert (Hj : 0 <= j < span - 1) by (apply Z.mod_pos_bound; lia).
    specialize (Hp j ltac:(lia)). apply used_ips_spec in Hp as (p & Hp & Ep). apply (Hf p Hp).
    rewrite Ep. unfold probe_offset, j. rewrite Z.add_mod_idemp_r by lia.
    replace (off - 1 + (address i - first_address s - off)) with (address i - first_address s - 1) by lia.
    rewrite Z.mod_small by lia. lia.
Qed.

(** ** The decision *)

(** The subnet of a decision: one that peers advertise, or else the current one, or else
    the default one after the rounds of waiting. *)
Definition subnet_of al used (usable : T → bool) subnet : Prop :=
  (choose_subnet al used usable).2 = Some subnet.

Definition full (free : T → Prop) subnet : Prop :=
  ∀ i, network i = network subnet → first_address subnet < address i < last_address subnet → ¬ free i.

(** What an evaluation owes its caller. *)
Definition decision_ok al used (usable : T → bool) (free : T → Prop) (d : DhcpDecision T) : Prop :=
  match d with
  | WaitForPeers => True
  | Unchanged =>
      ∃ subnet, subnet_of al used usable subnet ∧
        match current al with
        | Some c => network c = network subnet ∧ ∀ p, p ∈ used → address p ≠ address c
        | None => full free subnet
        end
  | Change previous next =>
      previous = current al ∧ ∃ subnet, subnet_of al used usable subnet ∧
        match next with
        | Some a => network a = network subnet ∧ first_address subnet < address a < last_address subnet ∧ free a
        | None => is_Some previous ∧ full free subnet
        end
  end.

Lemma nobody_has used (x : Z) :
  existsb (λ p, address p =? x) used = false ↔ ∀ p, p ∈ used → address p ≠ x.
Proof.
  induction used as [|q used IH]; cbn; [split; [intros _ p []%elem_of_nil|done]|].
  rewrite orb_false_iff, IH, Z.eqb_neq. setoid_rewrite elem_of_cons. naive_solver.
Qed.

Lemma keeps_address_spec al used s :
  keeps_address al used s = true ↔
  ∃ c, current al = Some c ∧ network c = network s ∧ ∀ p, p ∈ used → address p ≠ address c.
Proof.
  unfold keeps_address. destruct (current al) as [c|]; [|by split; [|intros (c & ? & _)]].
  rewrite andb_true_iff, bool_decide_eq_true, negb_true_iff, nobody_has.
  split; [by intros [? ?]; exists c|by intros (c' & [= <-] & ? & ?)].
Qed.

Lemma evaluate_new al hr used usable free pick al' previous a :
  pick_ok free pick → evaluate_with al hr used usable pick = (al', Change previous (Some a)) →
  ∃ subnet, subnet_of al used usable subnet ∧ network a = network subnet ∧
    first_address subnet < address a < last_address subnet ∧ free a.
Proof.
  intros Hpick. unfold evaluate_with, subnet_of. case_match; [done|].
  destruct (choose_subnet al used usable) as [al1 [s|]]; [|done]. cbn [snd].
  destruct (keeps_address al1 used s); [done|]. specialize (Hpick s (bool_decide (is_Some (current al1)))).
  set (next := pick s _) in *. clearbody next. cbn zeta.
  destruct (bool_decide (current al1 = next)); [done|]. intros [= _ _ ->]. by exists s.
Qed.

Lemma evaluate_outcome al hr used usable free pick al' d :
  pick_ok free pick → (∀ a, (∀ p, p ∈ used → address p ≠ address a) → free a) →
  (∀ a, free a → current al = Some a → ∀ p, p ∈ used → address p ≠ address a) →
  evaluate_with al hr used usable pick = (al', d) → decision_ok al used usable free d.
Proof.
  intros Hpick Hf1 Hf2. unfold evaluate_with. case_match; [by intros [= <- <-]|].
  pose proof (choose_current al used usable) as Hc. unfold decision_ok, subnet_of.
  destruct (choose_subnet al used usable) as [al1 [s|]]; cbn [fst snd] in *; [|by intros [= <- <-]].
  destruct (keeps_address al1 used s) eqn:Ek.
  { intros [= <- <-]. exists s. split; [done|]. apply keeps_address_spec in Ek as (c & Hcc & Hn & Hu).
    rewrite Hc in Hcc. by rewrite Hcc. }
  specialize (Hpick s (bool_decide (is_Some (current al1)))). set (next := pick s _) in *. clearbody next. cbn zeta.
  destruct (bool_decide_reflect (current al1 = next)) as [En|En]; intros [= <- <-].
  - exists s. split; [done|]. rewrite Hc in En. rewrite En. destruct next as [a|]; [|exact Hpick].
    split; [apply Hpick|]. apply Hf2; [apply Hpick|done].
  - split; [done|]. exists s. split; [done|]. destruct next as [a|]; [done|]. split; [|exact Hpick].
    destruct (current al1); [eauto|done].
Qed.

(** An IPv6 evaluation is right on every branch: a new address is strictly inside the
    chosen subnet, with its length, and is announced by no peer under any length; an
    address is given up without a new one, or not found, only when every address between
    the endpoints is taken; the current address is kept exactly while it is in the chosen
    subnet and no peer has it.  The bounded search misses no free address. *)
Theorem ipv6_decision_ok gen al hr used al' d :
  draws_in_range gen → evaluate_ipv6 gen al hr used = (al', d) →
  current al' = current al ∧
  decision_ok al used (λ s, valid_ipv6_subnet (network s)) (λ a, ∀ p, p ∈ used → address p ≠ address a) d.
Proof.
  intros Hg E. split.
  - pose proof (evaluate_current al hr used (λ s, valid_ipv6_subnet (network s)) (pick_ipv6 gen used)) as Hc.
    unfold evaluate_ipv6 in E. by rewrite E in Hc.
  - eapply evaluate_outcome; [by apply pick_ipv6_ok|auto..|exact E].
Qed.

(** For IPv4 a free entry is one that no peer announces with the same length. *)
Lemma ipv4_decision_ok gen al hr used al' d :
  draws_in_range gen → (∀ p q, p ∈ used → current al = Some q → address p = address q → p = q) →
  evaluate_ipv4 gen al hr used = (al', d) → decision_ok al used (λ _, true) (λ a, a ∉ used) d.
Proof.
  intros Hg Hlen E. eapply evaluate_outcome; [by apply pick_ipv4_ok| | |exact E].
  - intros a Ha Hin. by apply (Ha a Hin).
  - intros a Ha Hc p Hp Ep. apply Ha. by rewrite <- (Hlen p a Hp Hc Ep).
Qed.

Lemma pick_ipv4_ext gen used used' s s' retry :
  used ≡ₚ used' → network s = network s' → pick_ipv4 gen used s retry = pick_ipv4 gen used' s' retry.
Proof.
  intros Hp Hn. pose proof (same_network_last s s' Hn) as El. unfold network in Hn. injection Hn as Ef Elen.
  unfold pick_ipv4. cbn zeta. rewrite Ef, El.
  assert (bool_decide (used = []) = bool_decide (used' = [])) as ->.
  { apply bool_decide_ext. split; intros ->; [by apply Permutation_nil|]. symmetry in Hp. by apply Permutation_nil. }
  set (l := seqZ _ _ ++ _). induction l as [|x l IH]; cbn [find_map]; [done|].
  assert (candidate4 used s x = candidate4 used' s' x) as ->.
  { unfold candidate4. rewrite Ef, Elen. destruct (inet_new _ _) as [c|]; cbn; [|done].
    assert (bool_decide (c ∈ used) = bool_decide (c ∈ used')) as -> by (apply bool_decide_ext; by rewrite Hp). done. }
  by rewrite IH.
Qed.

Lemma pick_ipv6_ext gen used used' s s' retry :
  used ≡ₚ used' → network s = network s' → pick_ipv6 gen used s retry = pick_ipv6 gen used' s' retry.
Proof.
  intros Hp Hn. pose proof (same_network_last s s' Hn) as El. unfold network in Hn. injection Hn as Ef Elen.
  unfold pick_ipv6. cbn zeta. rewrite Ef, El.
  assert (used_ips used = used_ips used') as ->.
  { apply set_eq. intros x. rewrite !used_ips_spec. by setoid_rewrite Hp. }
  destruct (_ <=? 1); [done|]. generalize (gen 1 (last_address s' - first_address s')). generalize (Z.to_nat (Z.min
    (Z.of_nat (size (used_ips used')) + 1) (last_address s' - first_address s' - 1))).
  induction n as [|n IH]; intros off; cbn [probe_ipv6]; [done|]. rewrite Ef, Elen.
  destruct (inet_new _ _); cbn; [|done]. case_bool_decide; [apply IH|done].
Qed.

Lemma evaluate_ext al hr used used' usable pick pick' :
  used ≡ₚ used' → (∀ s s', network s = network s' → usable s = usable s') →
  (∀ s s' r, network s = network s' → pick s r = pick' s' r) →
  evaluate_with al hr used usable pick = evaluate_with al hr used' usable pick'.
Proof.
  intros Hp Hus Hpick. unfold evaluate_with. destruct (negb hr && _); [done|].
  assert (Hch : (choose_subnet al used usable).1 = (choose_subnet al used' usable).1 ∧
    network <$> (choose_subnet al used usable).2 = network <$> (choose_subnet al used' usable).2).
  { unfold choose_subnet, advertised.
    pose proof (min_by_key_perm (current al) (filter (λ s, usable s = true) used) (filter (λ s, usable s = true) used')
      ltac:(by rewrite Hp)) as E.
    destruct (min_by_key _ _ (filter _ used)), (min_by_key _ _ (filter _ used')); done. }
  destruct (choose_subnet al used usable) as [al1 o1], (choose_subnet al used' usable) as [al2 o2].
  cbn [fst snd] in Hch. destruct Hch as [<- Hn]. destruct o1 as [s|], o2 as [s'|]; [|done..].
  injection Hn as Ef El. assert (Hn : network s = network s') by (unfold network; congruence).
  assert (keeps_address al1 used s = keeps_address al1 used' s') as ->.
  { apply eq_true_iff_eq. rewrite !keeps_address_spec. setoid_rewrite Hp. by rewrite Hn. }
  by rewrite (Hpick s s' _ Hn).
Qed.

(** The hash set's order does not show: the same peers in any iteration order give the
    same decision and the same state, for either family. *)
Theorem decision_ignores_order gen al hr used used' :
  used ≡ₚ used' →
  evaluate_ipv4 gen al hr used = evaluate_ipv4 gen al hr used' ∧
  evaluate_ipv6 gen al hr used = evaluate_ipv6 gen al hr used'.
Proof.
  intros Hp. split; apply evaluate_ext; try done.
  - intros. by apply pick_ipv4_ext.
  - by intros ?? ->.
  - intros. by apply pick_ipv6_ext.
Qed.

Lemma advertised_none al al' used usable :
  advertised al used usable = None ↔ advertised al' used usable = None.
Proof. unfold advertised. by rewrite !min_by_key_None. Qed.

(** An allocator that has taken an address which nobody has keeps it. *)
Lemma committed_address_kept al hr used usable pick pick' al' previous a :
  (∀ s s', network s = network s' → usable s = usable s') →
  (∀ p, p ∈ used → address p ≠ address a) →
  (∃ s, subnet_of al used usable s ∧ network a = network s) →
  evaluate_with al hr used usable pick = (al', Change previous (Some a)) →
  (evaluate_with (commit al' (Some a)) hr used usable pick').2 = Unchanged.
Proof.
  intros Hus Hfree (s & Hs & Hn) E. unfold evaluate_with in E.
  destruct (negb hr && _) eqn:Eg; [done|].
  assert (Hd : default_subnet al' = default_subnet al).
  { unfold choose_subnet in E. repeat case_match; simplify_eq; done. }
  unfold evaluate_with. replace (default_subnet (commit al' (Some a))) with (default_subnet al) by done.
  rewrite Eg. unfold subnet_of, choose_subnet in Hs.
  assert (∃ al2 s2, choose_subnet (commit al' (Some a)) used usable = (al2, Some s2) ∧ current al2 = Some a ∧
    network s2 = network a) as (al2 & s2 & -> & Hc & Hn2).
  { unfold choose_subnet. destruct (advertised (commit al' (Some a)) used usable) as [s2|] eqn:E2; [|by eexists _, a].
    eexists _, s2. split; [done|]. split; [done|].
    destruct (advertised al used usable) as [s'|] eqn:E1.
    - injection Hs as ->. apply advertised_spec in E1 as (? & ? & _), E2 as (_ & _ & Hpref).
      apply (Hpref a); [done|]. by exists s.
    - by rewrite (proj2 (advertised_none _ al _ _) E1) in E2. }
  replace (keeps_address al2 used s2) with true; [done|]. symmetry. apply keeps_address_spec.
  exists a. by rewrite Hn2.
Qed.

(** A lease settles in one round: when the address of a decision is taken, the next
    evaluation against the same peers changes nothing, whatever the generator draws; a
    fresh IPv6 address always is one that nobody has, an IPv4 one when no peer announces
    it with another prefix length. *)
Theorem lease_settles gen gen' al hr used al' previous a :
  draws_in_range gen →
  (evaluate_ipv6 gen al hr used = (al', Change previous (Some a)) →
   (evaluate_ipv6 gen' (commit al' (Some a)) hr used).2 = Unchanged) ∧
  (evaluate_ipv4 gen al hr used = (al', Change previous (Some a)) →
   (∀ p, p ∈ used → address p = address a → network_length p = network_length a) →
   (evaluate_ipv4 gen' (commit al' (Some a)) hr used).2 = Unchanged).
Proof.
  intros Hg. split.
  - intros E. destruct (ipv6_decision_ok _ _ _ _ _ _ Hg E) as (_ & _ & s & Hs & Hn & _ & Hf).
    eapply committed_address_kept; [by intros ?? ->|exact Hf|by exists s|exact E].
  - intros E Hlen. assert (Hok := evaluate_new al hr used (λ _, true) (λ a, a ∉ used) _ _ _ _
      (pick_ipv4_ok gen used Hg) E).
    destruct Hok as (s & Hs & Hn & _ & Hf).
    eapply committed_address_kept; [done| |by exists s|exact E].
    intros p Hp Ep. apply Hf. by rewrite <- (inet_ext p a Ep (Hlen p Hp Ep)).
Qed.

Lemma evaluate_alone d n hr usable pick :
  evaluate_with (mkAllocator (Some d) None n) hr ([] : list T) usable pick =
    (mkAllocator (Some d) None (saturating_add 32 n 1),
     if saturating_add 32 n 1 <=? BOOTSTRAP_WAIT_ROUNDS then WaitForPeers
     else if bool_decide (None = pick d false) then Unchanged else Change None (pick d false)).
Proof.
  unfold evaluate_with. rewrite bool_decide_false, andb_false_r by done. unfold choose_subnet. cbn.
  destruct (saturating_add 32 n 1 <=? BOOTSTRAP_WAIT_ROUNDS); [done|].
  f_equal. destruct (pick d false); [by rewrite !bool_decide_false by done|by rewrite !bool_decide_true by done].
Qed.

(** From a subnet with host addresses and without peers, the third evaluation assigns one. *)
Lemma bootstrap gen d hr1 hr2 hr3 :
  draws_in_range gen → network_length d <= width - 2 →
  let r1 := evaluate_ipv6 gen (allocator_new d) hr1 [] in
  let r2 := evaluate_ipv6 gen r1.1 hr2 [] in
  let r3 := evaluate_ipv6 gen r2.1 hr3 [] in
  r1.2 = WaitForPeers ∧ r2.2 = WaitForPeers ∧
  ∃ a, r3.2 = Change None (Some a) ∧ network a = network d ∧ first_address d < address a < last_address d.
Proof.
  intros Hg Hd. cbn zeta. unfold evaluate_ipv6, allocator_new.
  rewrite (evaluate_alone d 0). cbn [fst snd]. rewrite (evaluate_alone d). cbn [fst snd].
  rewrite (evaluate_alone d). cbn [fst snd].
  change (saturating_add 32 (saturating_add 32 (saturating_add 32 0 1) 1) 1) with 3.
  change (saturating_add 32 (saturating_add 32 0 1) 1) with 2. change (saturating_add 32 0 1) with 1.
  cbn [Z.leb Z.compare Pos.compare Pos.compare_cont BOOTSTRAP_WAIT_ROUNDS]. split; [done|]. split; [done|].
  pose proof (pick_ipv6_ok gen [] Hg d false) as Hp. destruct (pick_ipv6 gen [] d false) as [a|].
  - exists a. split; [done|]. tauto.
  - exfalso. assert (4 <= 2 ^ (width - network_length d)) by (change 4 with (2 ^ 2); apply Z.pow_le_mono_r; lia).
    pose proof (inet_span d) as Hl. destruct (inet_new_in d (first_address d + 1)) as (i & _ & Ea & En); [lia|].
    apply (Hp i En); [lia|by intros p []%elem_of_nil].
Qed.

End AllocatorFacts.

Section ServiceFacts.

Context {V4 V6 : Type} `{InetLaws V4} `{InetLaws V6}.

Notation service_t := (DhcpService V4 V6).
Notation addresses_t := (DhcpAddresses V4 V6).
Implicit Types (sv : service_t) (last : option addresses_t).

(** ** Runs of the service

    A round ends, or its future is dropped while the host works. *)
Inductive DhcpEvent : Type :=
| Round (closed : bool) (snapshot : DhcpRouteSnapshot V4 V6) (gen4 gen6 : Z → Z → Z)
    (apply_dhcp : addresses_t → DhcpApplyOutcome V4 V6)
| DroppedRound (closed : bool) (snapshot : DhcpRouteSnapshot V4 V6) (gen4 gen6 : Z → Z → Z).

(** The second part records what the host has according to its last call: nothing known
    when the call failed or was given up. *)
Definition service_step sv last (ev : DhcpEvent) : service_t * option addresses_t :=
  match ev with
  | Round closed snapshot g4 g6 apply_dhcp =>
      ((reconcile_once sv closed snapshot g4 g6 apply_dhcp).1.1,
       match (plan sv closed snapshot g4 g6).2 with
       | None => last
       | Some (_, next) => if applied (apply_dhcp next) then Some (actual (apply_dhcp next)) else None
       end)
  | DroppedRound closed snapshot g4 g6 =>
      ((plan sv closed snapshot g4 g6).1,
       match (plan sv closed snapshot g4 g6).2 with None => last | Some _ => None end)
  end.

Fixpoint service_run sv last (evs : list DhcpEvent) : service_t * option addresses_t :=
  match evs with
  | [] => (sv, last)
  | ev :: rest => let '(sv', last') := service_step sv last ev in service_run sv' last' rest
  end.

(** The allocators hold and the routes announce the addresses [a], in the families under
    management. *)
Definition in_step sv (a : addresses_t) : Prop :=
  (∀ al, st_ipv4 (state sv) = Some al → current al = ipv4 a ∧ routes_ipv4 (runtime sv) = prefix4 (ipv4 a)) ∧
  (∀ al, st_ipv6 (state sv) = Some al → current al = ipv6 a ∧ routes_ipv6 (runtime sv) = prefix6 (ipv6 a)).

Definition service_ok sv last : Prop :=
  needs_apply (state sv) = false → ∃ a, last = Some a ∧ in_step sv a.

Lemma evaluate_family_current {T} (a : option (DhcpAllocator T)) evaluate previous a' next :
  (∀ al, current (evaluate al).1 = current al) → evaluate_family a evaluate previous = (a', next) →
  current <$> a' = current <$> a.
Proof.
  intros He. unfold evaluate_family. destruct a as [al|]; [|by intros [= <- _]].
  pose proof (He al) as Hc. destruct (evaluate al) as [al' d]. cbn in Hc. intros [= <- _]. cbn. by rewrite Hc.
Qed.

(** Planning changes no address, and passes the host over only when nothing is to do. *)
Lemma plan_spec sv closed snapshot g4 g6 :
  current <$> st_ipv4 (state (plan sv closed snapshot g4 g6).1) = current <$> st_ipv4 (state sv) ∧
  current <$> st_ipv6 (state (plan sv closed snapshot g4 g6).1) = current <$> st_ipv6 (state sv) ∧
  runtime (plan sv closed snapshot g4 g6).1 = runtime sv ∧
  match (plan sv closed snapshot g4 g6).2 with
  | None => closed = false ∧ needs_apply (state sv) = false ∧
            needs_apply (state (plan sv closed snapshot g4 g6).1) = false
  | Some _ => needs_apply (state (plan sv closed snapshot g4 g6).1) = true
  end.
Proof.
  unfold plan.
  destruct (evaluate_family (st_ipv4 (state sv)) _ _) as [a4 n4] eqn:E4.
  destruct (evaluate_family (st_ipv6 (state sv)) _ _) as [a6 n6] eqn:E6.
  apply evaluate_family_current in E4; [|intros; apply evaluate_current].
  apply evaluate_family_current in E6; [|intros; apply evaluate_current].
  destruct (bool_decide _ && _ && _) eqn:Eb; cbn; [|done].
  apply andb_true_iff in Eb as [[_ Hn%negb_true_iff]%andb_true_iff Hc%negb_true_iff]. done.
Qed.

Lemma in_step_ext sv sv' a :
  current <$> st_ipv4 (state sv') = current <$> st_ipv4 (state sv) →
  current <$> st_ipv6 (state sv') = current <$> st_ipv6 (state sv) → runtime sv' = runtime sv →
  in_step sv a → in_step sv' a.
Proof.
  intros E4 E6 Er [H4 H6]. unfold in_step. rewrite Er. split; intros al Hal.
  - rewrite Hal in E4. destruct (st_ipv4 (state sv)) as [al'|]; [|done]. injection E4 as ->. by apply H4.
  - rewrite Hal in E6. destruct (st_ipv6 (state sv)) as [al'|]; [|done]. injection E6 as ->. by apply H6.
Qed.

Lemma finish_in_step sv o : applied o = true → in_step (finish sv o) (actual o).
Proof.
  intros Ho. unfold finish, in_step. rewrite Ho. cbn. split; intros al Hal.
  - destruct (st_ipv4 (state sv)); [|done]. injection Hal as <-. by rewrite bool_decide_true by eauto.
  - destruct (st_ipv6 (state sv)); [|done]. injection Hal as <-. by rewrite bool_decide_true by eauto.
Qed.

Lemma service_step_ok sv last ev :
  service_ok sv last → service_ok (service_step sv last ev).1 (service_step sv last ev).2.
Proof.
  intros Hok. destruct ev as [closed snap g4 g6 apply_dhcp|closed snap g4 g6]; cbn [service_step];
    pose proof (plan_spec sv closed snap g4 g6) as (E4 & E6 & Er & Hp).
  - unfold reconcile_once. destruct (plan sv closed snap g4 g6) as [sv1 [[previous next]|]]; cbn [fst snd] in *.
    + intros Hn. destruct (applied (apply_dhcp next)) eqn:Ea.
      * eexists. split; [done|]. by apply finish_in_step.
      * unfold finish in Hn. rewrite Ea in Hn. cbn in Hn. congruence.
    + intros _. destruct (Hok (proj1 (proj2 Hp))) as (a & -> & Ha). exists a. split; [done|].
      by apply (in_step_ext sv).
  - destruct (plan sv closed snap g4 g6) as [sv1 [x|]]; cbn [fst snd] in *; intros Hn; [congruence|].
    destruct (Hok (proj1 (proj2 Hp))) as (a & -> & Ha). exists a. split; [done|]. by apply (in_step_ext sv).
Qed.

Lemma service_run_ok sv last evs :
  service_ok sv last → service_ok (service_run sv last evs).1 (service_run sv last evs).2.
Proof.
  revert sv last. induction evs as [|ev evs IH]; intros sv last Hok; cbn [service_run]; [done|].
  pose proof (service_step_ok sv last ev Hok) as Hok'. destruct (service_step sv last ev). by apply IH.
Qed.

(** The service leaves the host alone only when nothing is left to do: in every run
    from a new service, of rounds that end well, fail or are dropped while the host works,
    a round that does not call the host finds that the last call succeeded, that the
    allocators hold and the routes announce exactly the addresses the host reported then,
    and that the interface was not closed; so a failed or dropped call is tried again. *)
Theorem idle_round_is_settled dhcp4 dhcp6 c4 c6 r sv0 evs sv last closed snapshot g4 g6 :
  service_new dhcp4 dhcp6 c4 c6 r = Some sv0 → service_run sv0 None evs = (sv, last) →
  (plan sv closed snapshot g4 g6).2 = None →
  closed = false ∧ ∃ a, last = Some a ∧ in_step (plan sv closed snapshot g4 g6).1 a.
Proof.
  intros Hnew Hrun Hp.
  assert (service_ok sv0 None) as Hok.
  { unfold service_new in Hnew. destruct (new_allocator dhcp4 _ _ _); [|done].
    destruct (new_allocator dhcp6 _ _ _); [|done]. by injection Hnew as <-. }
  apply (service_run_ok _ _ evs) in Hok. rewrite Hrun in Hok. cbn in Hok.
  destruct (plan_spec sv closed snapshot g4 g6) as (E4 & E6 & Er & Hm). rewrite Hp in Hm.
  destruct Hm as (-> & Hn & _). split; [done|]. destruct (Hok Hn) as (a & -> & Ha). exists a.
  split; [done|]. by apply (in_step_ext sv).
Qed.

(** A family that is not managed keeps its route. *)
Lemma unmanaged_route_kept sv closed snapshot g4 g6 apply_dhcp :
  (st_ipv4 (state sv) = None →
   routes_ipv4 (runtime (reconcile_once sv closed snapshot g4 g6 apply_dhcp).1.1) = routes_ipv4 (runtime sv)) ∧
  (st_ipv6 (state sv) = None →
   routes_ipv6 (runtime (reconcile_once sv closed snapshot g4 g6 apply_dhcp).1.1) = routes_ipv6 (runtime sv)).
Proof.
  destruct (plan_spec sv closed snapshot g4 g6) as (E4 & E6 & Er & _). unfold reconcile_once.
  destruct (plan sv closed snapshot g4 g6) as [sv1 [[previous next]|]]; cbn [fst snd] in *; [|by rewrite Er].
  split; intros Hm; rewrite Hm in *; unfold finish; rewrite Er.
  - destruct (st_ipv4 (state sv1)); [done|]. by destruct (applied _).
  - destruct (st_ipv6 (state sv1)); [done|]. by destruct (applied _).
Qed.

End ServiceFacts.

(** ** Witnesses *)

(** Addresses of [w] bits with a prefix length. *)
Definition WideInet (w : Z) : Type := dsig (λ p : Z * Z, 0 <= p.1 < 2 ^ w ∧ 0 <= p.2 <= w).

Definition wide_new (w a n : Z) : option (WideInet w) :=
  match decide (0 <= (a, n).1 < 2 ^ w ∧ 0 <= (a, n).2 <= w) with
  | left Hok => Some (dexist (a, n) Hok)
  | right _ => None
  end.

Definition host_part (w : Z) (i : WideInet w) : Z := (`i).1 mod 2 ^ (w - (`i).2).

#[export] Instance wide_inet w : Inet (WideInet w) := {
  inet_eq_dec := _;
  address i := (`i).1;
  first_address i := (`i).1 - host_part w i;
  last_address i := (`i).1 - host_part w i + 2 ^ (w - (`i).2) - 1;
  network_length i := (`i).2;
  width := w;
  inet_new := wide_new w
}.

Lemma wide_ok w (i : WideInet w) : 0 <= (`i).1 < 2 ^ w ∧ 0 <= (`i).2 <= w.
Proof. apply (proj2_dsig i). Qed.

Lemma wide_range w (s : WideInet w) a :
  first_address s <= a <= last_address s →
  0 <= a < 2 ^ w ∧ a - a mod 2 ^ (w - network_length s) = first_address s.
Proof.
  intros Ha. destruct (wide_ok w s) as [Hs Hn]. cbn in *. unfold host_part in *.
  set (n := (`s).2) in *. set (x := (`s).1) in *.
  assert (Hm : 0 < 2 ^ (w - n)) by (apply Z.pow_pos_nonneg; lia).
  assert (Hw : 2 ^ w = 2 ^ (w - n) * 2 ^ n) by (rewrite <- Z.pow_add_r by lia; f_equal; lia).
  set (m := 2 ^ (w - n)) in *. pose proof (Z.div_mod x m ltac:(lia)) as Hx.
  pose proof (Z.mod_pos_bound x m Hm).
  assert (Hq : 0 <= x / m) by (apply Z.div_pos; lia).
  assert (x / m < 2 ^ n) by (apply Z.div_lt_upper_bound; lia).
  assert (a mod m = a - m * (x / m)) as -> by (symmetry; apply (Z.mod_unique _ _ (x / m)); lia).
  nia.
Qed.

#[export] Instance wide_laws w : InetLaws (WideInet w).
Proof.
  split.
  - intros a n i. cbn. unfold wide_new. destruct (decide _); [|done]. by intros [= <-].
  - intros i j Ea En. apply dsig_eq. cbn in *. by apply injective_projections.
  - intros i. destruct (wide_ok w i) as [Hi Hn]. cbn. unfold host_part.
    assert (0 < 2 ^ (w - (`i).2)) by (apply Z.pow_pos_nonneg; lia).
    pose proof (Z.mod_pos_bound (`i).1 (2 ^ (w - (`i).2)) ltac:(done)). lia.
  - intros s a Ha. destruct (wide_range w s a Ha) as [Hr Hf]. destruct (wide_ok w s) as [_ Hn].
    cbn [inet_new wide_inet]. unfold wide_new. destruct (decide _) as [Hok|Hno]; [|by destruct Hno].
    eexists. split; [done|]. cbn in *. unfold host_part at 1 3. cbn. rewrite Hf. done.
  - intros i. apply (wide_ok w i).
  - done.
Qed.

(** fd12::a/n. *)
Definition demo6 (a n : Z) : list (WideInet 128) := option_list (inet_new (Z.shiftl 64786 112 + a) n).

(** 10.0.0.a/n. *)
Definition demo4 (a n : Z) : list (WideInet 32) := option_list (inet_new (167772160 + a) n).

(** The generator that always draws the least number. *)
Definition least (a _ : Z) : Z := a.

Lemma least_in_range : draws_in_range least.
Proof. intros a b. unfold least. lia. Qed.

(** The offset in 10.0.0.0 or fd12:: of a newly assigned address, with its length. *)
Definition assigned {T} `{Inet T} (base : Z) (d : DhcpDecision T) : option (Z * Z) :=
  match d with Change _ (Some a) => Some (address a - base, network_length a) | _ => None end.

(** The third evaluation beside a host route for fd12::1: the bootstrap subnet has one
    address left. *)
Definition demo_waited : DhcpAllocator (WideInet 128) := mkAllocator (head (demo6 0 126)) None 2.

Definition demo_alone : DhcpAllocator (WideInet 32) := mkAllocator (head (demo4 0 28)) None 0.

Lemma ipv6_decision_ok_witness :
  ∃ al' d, evaluate_ipv6 least demo_waited true (demo6 1 128) = (al', d) ∧
    assigned (Z.shiftl 64786 112) d = Some (2, 126) ∧
    decision_ok demo_waited (demo6 1 128) (λ s, valid_ipv6_subnet (network s))
      (λ a, ∀ p, p ∈ demo6 1 128 → address p ≠ address a) d.
Proof.
  assert (Ha : assigned (Z.shiftl 64786 112) (evaluate_ipv6 least demo_waited true (demo6 1 128)).2 = Some (2, 126))
    by (vm_compute; reflexivity).
  destruct (evaluate_ipv6 least demo_waited true (demo6 1 128)) as [al' d] eqn:E.
  exists al', d. split; [exact eq_refl|]. split; [exact Ha|].
  exact (proj2 (ipv6_decision_ok least _ _ _ _ _ least_in_range E)).
Defined.

Lemma decision_ignores_order_witness :
  evaluate_ipv4 least demo_alone true (demo4 1 28 ++ demo4 66 28) =
    evaluate_ipv4 least demo_alone true (demo4 66 28 ++ demo4 1 28).
Proof. apply (decision_ignores_order least). apply Permutation_app_comm. Defined.

Lemma lease_settles_witness :
  assigned 167772160 (evaluate_ipv4 least demo_alone true (demo4 1 28 ++ demo4 66 28)).2 = Some (2, 28) ∧
  ∃ al' previous a, evaluate_ipv4 least demo_alone true (demo4 1 28 ++ demo4 66 28) = (al', Change previous (Some a)) ∧
    (evaluate_ipv4 (λ _ b, b - 1) (commit al' (Some a)) true (demo4 1 28 ++ demo4 66 28)).2 = Unchanged.
Proof.
  set (used := demo4 1 28 ++ demo4 66 28).
  assert (Ha : assigned 167772160 (evaluate_ipv4 least demo_alone true used).2 = Some (2, 28)) by (vm_compute; reflexivity).
  split; [exact Ha|]. destruct (evaluate_ipv4 least demo_alone true used) as [al' [| |previous [a|]]] eqn:E;
    [discriminate Ha..| |discriminate Ha].
  exists al', previous, a. split; [exact eq_refl|].
  apply (proj2 (lease_settles least (λ _ b, b - 1) _ _ _ _ _ _ least_in_range) E).
  injection Ha as Ha Hl. intros p Hp Ep. transitivity 28; [|exact (eq_sym Hl)].
  assert (Hall : forallb (λ p : WideInet 32, network_length p =? 28) used = true) by (vm_compute; reflexivity).
  rewrite List.forallb_forall in Hall. apply Z.eqb_eq, Hall. by apply list_elem_of_In.
Defined.

(** An IPv4 address that a peer announces with another length is handed out again, where
    IPv6 detects the conflict: 10.0.0.2 here, which a peer has as 10.0.0.2/29. *)
Example ipv4_conflict_missed :
  assigned 167772160 (evaluate_ipv4 least demo_alone true (demo4 1 28 ++ demo4 2 29)).2 = Some (2, 28).
Proof. vm_compute. reflexivity. Qed.

(** *** A run: the host fails once, then applies. *)

Definition demo_snapshot : DhcpRouteSnapshot (WideInet 32) (WideInet 128) := mkSnapshot true (demo4 1 28) [].

Definition demo_fails (_ : DhcpAddresses (WideInet 32) (WideInet 128)) : DhcpApplyOutcome (WideInet 32) (WideInet 128) :=
  mkOutcome (mkAddresses None None) false.
Definition demo_applies (next : DhcpAddresses (WideInet 32) (WideInet 128)) : DhcpApplyOutcome (WideInet 32) (WideInet 128) :=
  mkOutcome next true.

Definition demo_events : list (DhcpEvent (V4 := WideInet 32) (V6 := WideInet 128)) :=
  [Round false demo_snapshot least least demo_fails; DroppedRound true demo_snapshot least least;
   Round false demo_snapshot least least demo_applies].

Lemma idle_round_is_settled_witness :
  ∃ sv0 sv a, service_new true false (head (demo4 0 28)) None (mkRoutes None None) = Some sv0 ∧
    service_run sv0 None demo_events = (sv, Some a) ∧
    in_step (plan sv false demo_snapshot least least).1 a ∧ address <$> ipv4 a = Some (167772160 + 2).
Proof.
  assert (Hp : match service_new (V6 := WideInet 128) true false (head (demo4 0 28)) None (mkRoutes None None) with
    | Some sv0 =>
        let r := service_run sv0 None demo_events in
        (match (plan r.1 false demo_snapshot least least).2 with None => true | Some _ => false end,
         match r.2 with Some a => address <$> ipv4 a | None => None end) = (true, Some (167772160 + 2))
    | None => False
    end) by (vm_compute; reflexivity).
  destruct (service_new (V6 := WideInet 128) true false (head (demo4 0 28)) None (mkRoutes None None)) as [sv0|] eqn:E0;
    [|destruct Hp].
  cbn zeta in Hp. destruct (service_run sv0 None demo_events) as [sv last] eqn:Er.
  cbn [fst snd] in Hp. destruct (plan sv false demo_snapshot least least).2 as [x|] eqn:Ep; [discriminate Hp|].
  destruct (idle_round_is_settled _ _ _ _ _ sv0 demo_events sv last false demo_snapshot least least E0 Er Ep)
    as (_ & a & -> & Ha).
  exists sv0, sv, a. injection Hp as Hp. exact (conj eq_refl (conj Er (conj Ha Hp))).
Defined.
