(* ===== verification/CidrTable.v ===== *)
(** * The table of proxied networks

    Models easytier-core/src/gateway/proxy/cidr_table.rs: which addresses of the virtual
    network stand for networks behind this node, and how an address of a mapped network is
    turned into the real one.  The [Ipv4Cidr] of the [cidr] crate is the class [Ipv4Cidr]
    with the laws of its documentation.  The table is one list behind a lock: it is the
    state, and a call reads or replaces it in one step. *)

From stdpp Require Import base gmap list numbers.
From Stdlib Require Import ZArith Lia.
From S2P Require Import Prelude Packet.
Local Open Scope Z_scope.

(** [cidr_first] is [first().address().to_bits()], [cidr_mask] is [mask().to_bits()]. *)
Class Ipv4Cidr (C : Type) := {
  cidr_eq_dec :: EqDecision C;
  cidr_new : Z → Z → option C;
  cidr_first : C → Z;
  cidr_length : C → Z;
  cidr_mask : C → Z;
  cidr_contains : C → Z → bool
}.

(** The number of addresses of a network. *)
Definition hosts `{Ipv4Cidr C} (c : C) : Z := 2 ^ (32 - cidr_length c).

Class Ipv4CidrLaws (C : Type) `{Ipv4Cidr C} : Prop := {
  cidr_length_ok c : 0 <= cidr_length c <= 32;
  cidr_first_ok c : is_uint 32 (cidr_first c) ∧ cidr_first c mod hosts c = 0;
  cidr_mask_ok c : cidr_mask c = 2 ^ 32 - hosts c;
  cidr_contains_ok c a : is_uint 32 a →
    cidr_contains c a = true ↔ cidr_first c <= a < cidr_first c + hosts c
}.

Section CidrTable.

Context {C : Type} `{Ipv4Cidr C}.

Record ProxyCidrRule : Type := mkRule { cidr : C; mapped_cidr : option C }.

(** [ProxyNetworkConfig]. *)
Record ProxyNetworkConfig : Type := mkNetwork { real : IpPrefix; mapped : option IpPrefix }.

Definition ipv4_cidr (p : IpPrefix) : option C :=
  match prefix_address p with
  | IpV4 a => cidr_new a (prefix_len p)
  | IpV6 _ => None
  end.

Definition proxy_cidr_rule (config : ProxyNetworkConfig) : option ProxyCidrRule :=
  c ← ipv4_cidr (real config);
  Some (mkRule c (mapped config ≫= ipv4_cidr)).

(** [ProxyCidrSnapshot::from_proxy_networks]. *)
Definition from_proxy_networks (networks : list ProxyNetworkConfig) : list ProxyCidrRule :=
  omap proxy_cidr_rule networks.

Record ProxyCidrEntry : Type := mkEntry { real_cidr : C; mapped_to : C }.

Definition new_table : list ProxyCidrEntry := [].

Definition entry_of_rule (r : ProxyCidrRule) : ProxyCidrEntry := mkEntry (cidr r) (default (cidr r) (mapped_cidr r)).

(** The table after [update_snapshot], and the table of [from_snapshot]. *)
Definition update_snapshot (_table : list ProxyCidrEntry) (rules : list ProxyCidrRule) : list ProxyCidrEntry :=
  map entry_of_rule rules.

Definition from_snapshot (rules : list ProxyCidrRule) : list ProxyCidrEntry := update_snapshot new_table rules.

Definition table_is_empty (table : list ProxyCidrEntry) : bool := bool_decide (table = []).

(** [!network_mask] on 32 bits. *)
Definition entry_lookup_v4 (entry : ProxyCidrEntry) (ipv4 : Z) : option Z :=
  if negb (cidr_contains (mapped_to entry) ipv4) then None
  else if bool_decide (mapped_to entry = real_cidr entry) then Some ipv4
  else
    let origin_network_bits := cidr_first (real_cidr entry) in
    let network_mask := cidr_mask (mapped_to entry) in
    Some (Z.lor (Z.land ipv4 (uint_max 32 - network_mask)) origin_network_bits).

Definition lookup_v4 (table : list ProxyCidrEntry) (ipv4 : Z) : option Z :=
  find_map (λ entry, entry_lookup_v4 entry ipv4) table.

(** * Properties *)

Context `{!Ipv4CidrLaws C}.

(** What config/toml.rs checks when a network is added: both have one length. *)
Definition rule_ok (r : ProxyCidrRule) : Prop :=
  match mapped_cidr r with Some m => cidr_length m = cidr_length (cidr r) | None => True end.

Lemma hosts_pos c : 0 < hosts c.
Proof. unfold hosts. pose proof (cidr_length_ok c). apply Z.pow_pos_nonneg; lia. Qed.

Lemma lor_disjoint a b k : 0 <= k → a mod 2 ^ k = 0 → 0 <= b < 2 ^ k → Z.lor b a = a + b.
Proof.
  intros Hk Ha Hb. rewrite Z.add_comm. symmetry. rewrite <- Z.lxor_lor; [apply Z.add_nocarry_lxor|];
    (apply Z.bits_inj'; intros n Hn; rewrite Z.land_spec, Z.bits_0;
     destruct (Z.ltb_spec n k);
     [rewrite <- (Z.mod_pow2_bits_low a k n) by lia; by rewrite Ha, Z.bits_0, andb_false_r|
      rewrite <- (Z.mod_small b (2 ^ k)) by done; by rewrite Z.mod_pow2_bits_high by lia]).
Qed.

(** An address of a mapped network keeps its place in the network. *)
Lemma entry_lookup_spec r ip :
  rule_ok r → is_uint 32 ip →
  entry_lookup_v4 (entry_of_rule r) ip =
    let m := default (cidr r) (mapped_cidr r) in
    if cidr_contains m ip then Some (cidr_first (cidr r) + (ip - cidr_first m)) else None.
Proof.
  intros Hr Hip. unfold entry_lookup_v4, entry_of_rule. cbn [mapped_to real_cidr].
  set (m := default (cidr r) (mapped_cidr r)). cbn zeta.
  destruct (cidr_contains m ip) eqn:Ec; cbn [negb]; [|done]. apply cidr_contains_ok in Ec; [|done].
  case_bool_decide as Em; [f_equal; rewrite Em; lia|]. f_equal.
  assert (Hl : cidr_length m = cidr_length (cidr r)).
  { unfold rule_ok in Hr. unfold m. by destruct (mapped_cidr r). }
  rewrite cidr_mask_ok. pose proof (hosts_pos m). pose proof (cidr_length_ok m).
  assert (uint_max 32 - (2 ^ 32 - hosts m) = Z.ones (32 - cidr_length m)) as ->
    by (unfold uint_max, hosts; rewrite Z.ones_equiv; lia).
  rewrite Z.land_ones by lia. fold (hosts m). destruct (cidr_first_ok m) as [Hf Hfm].
  assert (ip mod hosts m = ip - cidr_first m) as ->.
  { apply Z.mod_divide in Hfm as [q Hq]; [|lia]. symmetry. apply (Z.mod_unique _ _ q); lia. }
  apply (lor_disjoint _ _ (32 - cidr_length m)); [lia| |fold (hosts m); lia].
  rewrite Hl. apply (cidr_first_ok (cidr r)).
Qed.

(** The table is a translation of networks: an address is found exactly when some
    rule's mapped network has it; the first such rule decides, and the address is turned
    into the one at the same place of the real network, which is inside that network. *)
Theorem lookup_translates old rules ip :
  Forall rule_ok rules → is_uint 32 ip →
  let mapped_of r := default (cidr r) (mapped_cidr r) in
  match lookup_v4 (update_snapshot old rules) ip with
  | Some real_ip =>
      ∃ before r after, rules = before ++ r :: after ∧
        Forall (λ r', cidr_contains (mapped_of r') ip = false) before ∧
        cidr_contains (mapped_of r) ip = true ∧ cidr_contains (cidr r) real_ip = true ∧
        real_ip - cidr_first (cidr r) = ip - cidr_first (mapped_of r)
  | None => Forall (λ r', cidr_contains (mapped_of r') ip = false) rules
  end.
Proof.
  intros Hr Hip mapped_of. unfold lookup_v4, update_snapshot.
  induction Hr as [|r rules Hr1 Hr IH]; [by constructor|]. cbn [map find_map]. rewrite entry_lookup_spec by done. cbn zeta.
  fold (mapped_of r). destruct (cidr_contains (mapped_of r) ip) eqn:Ec.
  - exists [], r, rules. split; [done|]. split; [done|]. split; [done|]. split; [|lia].
    apply cidr_contains_ok in Ec as Hc; [|done].
    assert (Hl : hosts (mapped_of r) = hosts (cidr r)).
    { unfold hosts. unfold rule_ok in Hr1. unfold mapped_of. destruct (mapped_cidr r) as [m|]; cbn; [by rewrite Hr1|done]. }
    destruct (cidr_first_ok (cidr r)) as [Hf Hm]. pose proof (hosts_pos (cidr r)). pose proof (cidr_length_ok (cidr r)).
    assert (Hle : cidr_first (cidr r) + hosts (cidr r) <= 2 ^ 32).
    { apply Z.mod_divide in Hm as [q Hq]; [|lia]. unfold is_uint in Hf.
      assert (2 ^ 32 = 2 ^ cidr_length (cidr r) * hosts (cidr r)) as E
        by (unfold hosts; rewrite <- Z.pow_add_r by lia; f_equal; lia).
      assert (q < 2 ^ cidr_length (cidr r)) by (apply (Z.mul_lt_mono_pos_r (hosts (cidr r))); lia).
      rewrite Hq, E. nia. }
    apply cidr_contains_ok; [unfold is_uint in *; lia|lia].
  - destruct (find_map _ (map entry_of_rule rules)).
    + destruct IH as (before & r' & after & -> & Hb & Hrest). exists (r :: before), r', after.
      split; [done|]. split; [by constructor|done].
    + by constructor.
Qed.

End CidrTable.

Arguments ProxyCidrRule : clear implicits.
Arguments ProxyCidrEntry : clear implicits.

(** ** Witnesses *)

(** Networks as pairs of the first address and the length. *)
Definition PairCidr : Type :=
  dsig (λ p : Z * Z, 0 <= p.2 <= 32 ∧ is_uint 32 p.1 ∧ p.1 mod 2 ^ (32 - p.2) = 0).

Definition pair_new (a n : Z) : option PairCidr :=
  match decide (0 <= (a, n).2 <= 32 ∧ is_uint 32 (a, n).1 ∧ (a, n).1 mod 2 ^ (32 - (a, n).2) = 0) with
  | left Hok => Some (dexist (a, n) Hok)
  | right _ => None
  end.

#[export] Instance pair_cidr : Ipv4Cidr PairCidr := {
  cidr_eq_dec := _;
  cidr_new := pair_new;
  cidr_first c := (`c).1;
  cidr_length c := (`c).2;
  cidr_mask c := 2 ^ 32 - 2 ^ (32 - (`c).2);
  cidr_contains c a := ((`c).1 <=? a) && (a <? (`c).1 + 2 ^ (32 - (`c).2))
}.

#[export] Instance pair_cidr_laws : Ipv4CidrLaws PairCidr.
Proof.
  split.
  - intros c. apply (proj2_dsig c).
  - intros c. apply (proj2_dsig c).
  - done.
  - intros c a _. cbn. rewrite andb_true_iff, Z.leb_le, Z.ltb_lt. done.
Qed.

(** 192.168.1.0/24 under the name of 10.10.10.0/24. *)
Definition demo_rules : list (ProxyCidrRule PairCidr) :=
  match cidr_new 3232235776 24 with Some c => [mkRule c (cidr_new 168430080 24)] | None => [] end.

Lemma lookup_translates_witness :
  lookup_v4 (from_snapshot demo_rules) (168430080 + 42) = Some (3232235776 + 42) ∧
  ∃ r, r ∈ demo_rules ∧ cidr_contains (cidr r) (3232235776 + 42) = true.
Proof.
  assert (E : lookup_v4 (from_snapshot demo_rules) (168430080 + 42) = Some (3232235776 + 42)) by (vm_compute; reflexivity).
  split; [exact E|].
  assert (Hr : Forall rule_ok demo_rules).
  { unfold demo_rules. destruct (cidr_new 3232235776 24) as [c|] eqn:Ec; [|done]. repeat constructor.
    unfold rule_ok. cbn [mapped_cidr cidr]. destruct (cidr_new 168430080 24) as [m|] eqn:Em; [|done].
    cbn in Ec, Em. unfold pair_new in Ec, Em. destruct (decide _) in Ec; [|done]. destruct (decide _) in Em; [|done].
    injection Ec as <-. injection Em as <-. done. }
  pose proof (lookup_translates new_table demo_rules (168430080 + 42) Hr ltac:(unfold is_uint; lia)) as Hl.
  unfold from_snapshot in E. cbn zeta in Hl. rewrite E in Hl.
  destruct Hl as (before & r & after & Hrules & _ & _ & Hc & _). exists r. split; [|exact Hc].
  rewrite Hrules. apply elem_of_app. right. by left.
Defined.
