(* ===== verification/TcpProxy.v ===== *)
(** * The TCP proxy's address translation

    Models easytier-core/src/gateway/proxy/tcp_proxy_engine.rs: the table of translated
    connections and the rewriting of packets, from a peer towards the local TCP stack and
    back.  An [Arc<TcpNatEntry>] is a reference into a store of entries, so the three maps
    of the engine share them; only the state of an entry changes.  The table of proxied
    networks, which others replace, is an argument of the calls.  Calls are single steps;
    a failed [expect] or [assert] is [None].

    smoltcp's packet views are the class [TcpWire]: the accessors of [Ipv4Packet] and
    [TcpPacket] and their setters, with the law that a setter changes what it names.  The
    [cidr] crate's [Ipv4Inet] of the interface is the record of the two addresses used. *)

From stdpp Require Import base gmap list numbers sets.
From Stdlib Require Import ZArith Lia.
From S2P Require Import Prelude Packet IpParse CidrTable.
Local Open Scope Z_scope.

(** ** Packets of smoltcp *)

Record Ipv4Hdr : Type := mkIpv4 {
  ip_version : Z;
  ip_next_header : Z;
  ip_src : Z;
  ip_dst : Z;
  ip_payload : list Z
}.

Record TcpHdr : Type := mkTcp {
  tcp_src_port : Z;
  tcp_dst_port : Z;
  tcp_syn : bool;
  tcp_ack : bool
}.

(** [ipv4] is [Ipv4Packet::new_checked] with the accessors, [tcp] is that of [TcpPacket] on
    the payload; [None] is an error.  [tcp_of] reads the TCP header of a packet. *)
Class TcpWire := {
  ipv4 : list Z → option Ipv4Hdr;
  tcp : list Z → option TcpHdr;
  set_src_addr : Z → list Z → list Z;
  set_dst_addr : Z → list Z → list Z;
  set_ports : Z → Z → list Z → list Z;
  fill_tcp_checksum : Z → Z → list Z → list Z;
  fill_ipv4_checksum : list Z → list Z;
  checksums_ok : list Z → Prop
}.

Definition headers `{TcpWire} (l : list Z) : option (Ipv4Hdr * TcpHdr) :=
  h ← ipv4 l; t ← tcp (ip_payload h); Some (h, t).

(** What a packet says, but for the bytes of its payload. *)
Record Addresses : Type := mkAddrs {
  a_version : Z;
  a_next : Z;
  a_src : Z;
  a_dst : Z;
  a_sport : Z;
  a_dport : Z;
  a_syn : bool;
  a_ack : bool
}.

Definition addresses `{TcpWire} (l : list Z) : option Addresses :=
  (λ ht, mkAddrs (ip_version ht.1) (ip_next_header ht.1) (ip_src ht.1) (ip_dst ht.1)
           (tcp_src_port ht.2) (tcp_dst_port ht.2) (tcp_syn ht.2) (tcp_ack ht.2)) <$> headers l.

Class TcpWireLaws `{TcpWire} : Prop := {
  set_src_addr_spec a l v : addresses l = Some v →
    addresses (set_src_addr a l) =
      Some (mkAddrs (a_version v) (a_next v) a (a_dst v) (a_sport v) (a_dport v) (a_syn v) (a_ack v));
  set_dst_addr_spec a l v : addresses l = Some v →
    addresses (set_dst_addr a l) =
      Some (mkAddrs (a_version v) (a_next v) (a_src v) a (a_sport v) (a_dport v) (a_syn v) (a_ack v));
  set_ports_spec s d l v : addresses l = Some v →
    addresses (set_ports s d l) =
      Some (mkAddrs (a_version v) (a_next v) (a_src v) (a_dst v) s d (a_syn v) (a_ack v));
  fill_tcp_spec s d l v : addresses l = Some v → addresses (fill_tcp_checksum s d l) = Some v;
  fill_ipv4_spec l v : addresses l = Some v → addresses (fill_ipv4_checksum l) = Some v;
  set_src_addr_len a l : len (set_src_addr a l) = len l;
  set_dst_addr_len a l : len (set_dst_addr a l) = len l;
  set_ports_len s d l : len (set_ports s d l) = len l;
  fill_tcp_len s d l : len (fill_tcp_checksum s d l) = len l;
  fill_ipv4_len l : len (fill_ipv4_checksum l) = len l;
  checksums_filled l v : addresses l = Some v →
    checksums_ok (fill_ipv4_checksum (fill_tcp_checksum (a_src v) (a_dst v) l))
}.

(** ** Entries *)

Inductive TcpProxyMode : Type := ModeTcp | ModeKcpSrc | ModeQuicSrc.

Definition smoltcp_listener_port (m : TcpProxyMode) : Z :=
  match m with ModeTcp => 8899 | ModeKcpSrc => 8900 | ModeQuicSrc => 8901 end.

Inductive TcpNatEntryState : Type :=
| SynReceived | ConnectingDst | Connected | ClosingSrc | ClosingDst | Closed.

#[export] Instance nat_state_eq_dec : EqDecision TcpNatEntryState.
Proof. solve_decision. Defined.

Record TcpNatFlowKey : Type := mkFlow { flow_src : SocketAddr; flow_mapped_dst : SocketAddr }.

#[export] Instance flow_key_eq_dec : EqDecision TcpNatFlowKey.
Proof. solve_decision. Defined.
#[export] Instance flow_key_countable : Countable TcpNatFlowKey.
Proof. apply (inj_countable' (λ k, (flow_src k, flow_mapped_dst k)) (λ p, mkFlow p.1 p.2)). by intros []. Defined.

(** Uuids are numbers; the uuid of an entry is its reference. *)
Definition EntryId : Type := Z.

Record TcpNatEntry : Type := mkEntry {
  flow : TcpNatFlowKey;
  translated_src : SocketAddr;
  real_dst : SocketAddr;
  start_time : Z;
  start_time_unix_secs : Z;
  entry_state : TcpNatEntryState
}.

Definition new_entry (f : TcpNatFlowKey) (src dst : SocketAddr) (now unix : Z) : TcpNatEntry :=
  mkEntry f src dst now unix SynReceived.

Definition with_state (s : TcpNatEntryState) (e : TcpNatEntry) : TcpNatEntry :=
  mkEntry (flow e) (translated_src e) (real_dst e) (start_time e) (start_time_unix_secs e) s.

Record TcpNatEntrySnapshot : Type := mkSnapshot {
  snap_src : SocketAddr;
  snap_dst : SocketAddr;
  snap_mapped_dst : SocketAddr;
  snap_start_time : Z;
  snap_state : TcpNatEntryState
}.

Definition snapshot (e : TcpNatEntry) : TcpNatEntrySnapshot :=
  mkSnapshot (flow_src (flow e)) (real_dst e) (flow_mapped_dst (flow e)) (start_time_unix_secs e) (entry_state e).

(** [local_inet.address()] and [local_inet.first_address()]. *)
Record LocalInet : Type := mkInet { inet_address : Z; inet_first : Z }.

Record TcpProxyPeerContext : Type := mkPeerContext {
  pc_local_inet : option LocalInet;
  pc_virtual_ipv4 : option Z;
  pc_local_port : Z;
  pc_enable_exit_node : bool;
  pc_no_tun : bool;
  pc_smoltcp_enabled : bool
}.

Record TcpProxyNicContext : Type := mkNicContext {
  nc_local_inet : option LocalInet;
  nc_local_port : Z;
  nc_my_peer_id : Z;
  nc_smoltcp_enabled : bool
}.

Inductive TcpProxyPacketAction : Type :=
| Handled (new_syn : bool)
| DropPacket
| Pass.

(** ** The engine *)

Record TcpProxyEngine : Type := mkEngine {
  local_port : Z;
  next_translated_port : Z;
  flow_map : gmap TcpNatFlowKey EntryId;
  translated_src_map : gmap SocketAddr EntryId;
  conn_map : gset EntryId;
  store : gmap EntryId TcpNatEntry
}.

Implicit Types (eng : TcpProxyEngine) (id : EntryId).

Definition new_engine : TcpProxyEngine := mkEngine 0 1 ∅ ∅ ∅ ∅.

Definition set_local_port eng (port : Z) : TcpProxyEngine :=
  mkEngine port (next_translated_port eng) (flow_map eng) (translated_src_map eng) (conn_map eng) (store eng).
Definition with_next_port eng (port : Z) : TcpProxyEngine :=
  mkEngine (local_port eng) port (flow_map eng) (translated_src_map eng) (conn_map eng) (store eng).
Definition with_flow_map eng (m : gmap TcpNatFlowKey EntryId) : TcpProxyEngine :=
  mkEngine (local_port eng) (next_translated_port eng) m (translated_src_map eng) (conn_map eng) (store eng).
Definition with_translated eng (m : gmap SocketAddr EntryId) : TcpProxyEngine :=
  mkEngine (local_port eng) (next_translated_port eng) (flow_map eng) m (conn_map eng) (store eng).
Definition with_conn_map eng (m : gset EntryId) : TcpProxyEngine :=
  mkEngine (local_port eng) (next_translated_port eng) (flow_map eng) (translated_src_map eng) m (store eng).
Definition with_store eng (m : gmap EntryId TcpNatEntry) : TcpProxyEngine :=
  mkEngine (local_port eng) (next_translated_port eng) (flow_map eng) (translated_src_map eng) (conn_map eng) m.

(** [set_state] through a reference. *)
Definition set_state eng id (s : TcpNatEntryState) : TcpProxyEngine :=
  with_store eng (alter (with_state s) id (store eng)).

Definition state_of eng id : option TcpNatEntryState := entry_state <$> store eng !! id.

(** [next_translated_port] is never zero. *)
Definition next_port (port : Z) : Z := if port =? uint_max 16 then 1 else port + 1.

(** The loop over the ports; [id] is the fresh uuid. *)
Fixpoint try_ports (rounds : nat) eng (f : TcpNatFlowKey) (dst : SocketAddr) id (now unix : Z)
    : TcpProxyEngine * option EntryId :=
  match rounds with
  | O => (eng, None)
  | S rounds' =>
      let translated_port := next_translated_port eng in
      let eng := with_next_port eng (next_port translated_port) in
      if translated_port =? local_port eng then try_ports rounds' eng f dst id now unix
      else
        let src := mkSocketAddr (sa_ip (flow_src f)) translated_port in
        match translated_src_map eng !! src with
        | Some _ => try_ports rounds' eng f dst id now unix
        | None =>
            (with_translated (with_store eng (<[id := new_entry f src dst now unix]> (store eng)))
               (<[src := id]> (translated_src_map eng)), Some id)
        end
  end.

Definition allocate_entry eng (f : TcpNatFlowKey) (dst : SocketAddr) id (now unix : Z)
    : TcpProxyEngine * option EntryId :=
  try_ports (Z.to_nat (uint_max 16)) eng f dst id now unix.

Definition is_closing (s : TcpNatEntryState) : bool :=
  match s with ClosingSrc | ClosingDst | Closed => true | _ => false end.

Definition entry_for_syn eng (f : TcpNatFlowKey) (dst : SocketAddr) id (now unix : Z)
    : TcpProxyEngine * option (EntryId * bool) :=
  let allocate :=
    match allocate_entry eng f dst id now unix with
    | (eng, Some new) => (with_flow_map eng (<[f := new]> (flow_map eng)), Some (new, true))
    | (eng, None) => (eng, None)
    end in
  match flow_map eng !! f with
  | Some old =>
      if negb (from_option is_closing false (state_of eng old)) then (eng, Some (old, false)) else allocate
  | None => allocate
  end.

(** *** Packets from peers *)

Section Packets.

Context `{TcpWire} {C : Type} `{Ipv4Cidr C}.

Implicit Types (table : list (ProxyCidrEntry C)).

Definition check_packet_from_peer_fast table (mode : TcpProxyMode) (ctx : TcpProxyPeerContext) : bool :=
  match mode with
  | ModeTcp => negb (table_is_empty table) || pc_enable_exit_node ctx || pc_no_tun ctx
  | _ => true
  end.

Definition fake_local_ipv4 (inet : LocalInet) : Z := inet_first inet.

Definition real_dst_ip_for_mode table (mode : TcpProxyMode) (origin_ip : Z) (is_exit_node : bool)
    (ctx : TcpProxyPeerContext) : option Z :=
  match mode with
  | ModeTcp =>
      match lookup_v4 table origin_ip with
      | Some real_ip => Some real_ip
      | None =>
          if is_exit_node || (pc_no_tun ctx && bool_decide (Some origin_ip = pc_virtual_ipv4 ctx))
          then Some origin_ip else None
      end
  | _ => Some origin_ip
  end.

Definition allowed_packet_type (mode : TcpProxyMode) (hdr : PeerManagerHeader.t) : bool :=
  let own := PeerManagerHeader.from_peer_id hdr =? PeerManagerHeader.to_peer_id hdr in
  match mode with
  | ModeTcp => PeerManagerHeader.packet_type hdr =? packet_type_u8 Data
  | ModeKcpSrc => (PeerManagerHeader.packet_type hdr =? packet_type_u8 DataWithKcpSrcModified) && own
  | ModeQuicSrc => (PeerManagerHeader.packet_type hdr =? packet_type_u8 DataWithQuicSrcModified) && own
  end.

(** A new content of the same length through [mut_payload]. *)
Definition set_payload (p : ZCPacket.t) (l : list Z) : option ZCPacket.t := ZCPacket.write_payload p 0 (len l) l.

(** The rewriting of a packet on its way to the local stack. *)
Definition rewrite_to_local (payload : list Z) (local_ip : Z) (fake : option Z) (sport dport : Z) : list Z :=
  let l := match fake with Some a => set_src_addr a payload | None => payload end in
  let l := set_dst_addr local_ip l in
  let source := from_option ip_src 0 (ipv4 l) in
  let l := set_ports sport dport l in
  fill_ipv4_checksum (fill_tcp_checksum source local_ip l).

(** From the rewriting of the packet type to the end. *)
Definition translate_peer_packet eng (p : ZCPacket.t) (ctx : TcpProxyPeerContext) (inet : LocalInet)
    (real_dst_ip : Z) id (now unix : Z) : option (TcpProxyEngine * ZCPacket.t * TcpProxyPacketAction) :=
  p ← ZCPacket.update_peer_manager_header p
        (λ h, PeerManagerHeader.with_packet_type h (packet_type_u8 Data));
  payload ← ZCPacket.payload p;
  h ← ipv4 payload;
  t ← tcp (ip_payload h);
  let key := mkFlow (mkSocketAddr (IpV4 (ip_src h)) (tcp_src_port t)) (mkSocketAddr (IpV4 (ip_dst h)) (tcp_dst_port t)) in
  let finish eng id new_syn :=
    e ← store eng !! id;
    let fake := if negb (pc_smoltcp_enabled ctx) && (ip_src h =? inet_address inet)
                then Some (fake_local_ipv4 inet) else None in
    p ← set_payload p (rewrite_to_local payload (inet_address inet) fake (sa_port (translated_src e)) (pc_local_port ctx));
    Some (eng, p, Handled new_syn) in
  if tcp_syn t && negb (tcp_ack t) then
    let dst := mkSocketAddr (IpV4 real_dst_ip) (tcp_dst_port t) in
    match entry_for_syn eng key dst id now unix with
    | (eng, None) => Some (eng, p, DropPacket)
    | (eng, Some (found, new_syn)) => finish eng found new_syn
    end
  else
    match flow_map eng !! key with
    | None => Some (eng, p, Pass)
    | Some found => finish eng found false
    end.

Definition try_handle_peer_packet eng table (mode : TcpProxyMode) (p : ZCPacket.t) (ctx : TcpProxyPeerContext)
    id (now unix : Z) : option (TcpProxyEngine * ZCPacket.t * TcpProxyPacketAction) :=
  if negb (check_packet_from_peer_fast table mode ctx) then Some (eng, p, Pass)
  else
    match pc_local_inet ctx, ZCPacket.peer_manager_header p with
    | Some inet, Some hdr =>
        if PeerManagerHeader.is_no_proxy hdr || negb (allowed_packet_type mode hdr) then Some (eng, p, Pass)
        else
          payload ← ZCPacket.payload p;
          match ipv4 payload with
          | None => Some (eng, p, Pass)
          | Some h =>
              if negb (ip_version h =? 4) || negb (ip_next_header h =? IP_PROTO_TCP) then Some (eng, p, Pass)
              else
                match real_dst_ip_for_mode table mode (ip_dst h) (PeerManagerHeader.is_exit_node hdr) ctx with
                | None => Some (eng, p, Pass)
                | Some real_dst_ip => translate_peer_packet eng p ctx inet real_dst_ip id now unix
                end
          end
    | _, _ => Some (eng, p, Pass)
    end.

(** *** Packets from the local stack *)

Definition rewrite_from_local (payload : list Z) (mapped_dst_ip : Z) (dst_ip : option Z) (sport dport : Z) : list Z :=
  let l := set_src_addr mapped_dst_ip payload in
  let l := match dst_ip with Some a => set_dst_addr a l | None => l end in
  let dst := from_option ip_dst 0 (ipv4 l) in
  let l := set_ports sport dport l in
  fill_ipv4_checksum (fill_tcp_checksum mapped_dst_ip dst l).

Definition try_process_packet_from_nic eng (p : ZCPacket.t) (ctx : TcpProxyNicContext)
    : option (ZCPacket.t * bool) :=
  match nc_local_inet ctx with
  | None => Some (p, false)
  | Some inet =>
      let local_ip := inet_address inet in
      payload ← ZCPacket.payload p;
      match ipv4 payload with
      | None => Some (p, false)
      | Some h =>
          if negb (ip_version h =? 4) || negb (ip_src h =? local_ip) || negb (ip_next_header h =? IP_PROTO_TCP)
          then Some (p, false)
          else
            match tcp (ip_payload h) with
            | None => Some (p, false)
            | Some t =>
                if negb (tcp_src_port t =? nc_local_port ctx) then Some (p, false)
                else
                  let need_transform_dst := negb (nc_smoltcp_enabled ctx) && (ip_dst h =? fake_local_ipv4 inet) in
                  let dst_addr := mkSocketAddr (IpV4 (if need_transform_dst then local_ip else ip_dst h)) (tcp_dst_port t) in
                  match translated_src_map eng !! dst_addr with
                  | None => Some (p, false)
                  | Some id =>
                      e ← store eng !! id;
                      if negb (bool_decide (translated_src e = dst_addr)) then None
                      else
                        match sa_ip (flow_mapped_dst (flow e)) with
                        | IpV6 _ => None
                        | IpV4 mapped_dst_ip =>
                            p ← ZCPacket.update_peer_manager_header p (λ h,
                                  let h := PeerManagerHeader.set_no_proxy h true in
                                  if need_transform_dst
                                  then PeerManagerHeader.mk (PeerManagerHeader.from_peer_id h) (nc_my_peer_id ctx)
                                         (PeerManagerHeader.packet_type h) (PeerManagerHeader.flags h)
                                         (PeerManagerHeader.forward_counter h) (PeerManagerHeader.reserved h)
                                         (PeerManagerHeader.hdr_len h)
                                  else h);
                            p ← set_payload p (rewrite_from_local payload mapped_dst_ip
                                  (if need_transform_dst then Some local_ip else None)
                                  (sa_port (real_dst e)) (sa_port (flow_src (flow e))));
                            Some (p, true)
                        end
                  end
            end
      end
  end.

End Packets.

(** *** Connections *)

(** [remove_if] on the id of the entry that is found. *)
Definition remove_flow eng id (f : TcpNatFlowKey) : TcpProxyEngine :=
  if bool_decide (flow_map eng !! f = Some id) then with_flow_map eng (delete f (flow_map eng)) else eng.
Definition remove_translated eng id (src : SocketAddr) : TcpProxyEngine :=
  if bool_decide (translated_src_map eng !! src = Some id)
  then with_translated eng (delete src (translated_src_map eng)) else eng.

Definition remove_indices eng id : TcpProxyEngine :=
  match store eng !! id with
  | None => eng
  | Some e => remove_translated (remove_flow eng id (flow e)) id (translated_src e)
  end.

(** A failed [compare_exchange] on a closed entry drops its indices. *)
Definition accept_connection eng (addr : SocketAddr) (virtual_inet : option LocalInet)
    : option (TcpProxyEngine * option EntryId) :=
  let addr := match virtual_inet with
              | Some inet =>
                  if bool_decide (sa_ip addr = IpV4 (fake_local_ipv4 inet))
                  then mkSocketAddr (IpV4 (inet_address inet)) (sa_port addr) else addr
              | None => addr
              end in
  match translated_src_map eng !! addr with
  | None => Some (eng, None)
  | Some id =>
      match state_of eng id with
      | Some SynReceived =>
          let eng := set_state eng id ConnectingDst in
          if bool_decide (id ∈ conn_map eng) then None
          else Some (with_conn_map eng ({[id]} ∪ conn_map eng), Some id)
      | Some Closed => Some (remove_indices eng id, None)
      | _ => Some (eng, None)
      end
  end.

Definition remove_entry eng id : TcpProxyEngine :=
  if bool_decide (id ∈ conn_map eng) then remove_indices (with_conn_map eng (conn_map eng ∖ {[id]})) id else eng.

Definition clear_engine eng : TcpProxyEngine :=
  let ids := map snd (map_to_list (flow_map eng)) ++ elements (conn_map eng) in
  let eng := foldl (λ eng id, set_state eng id Closed) eng ids in
  mkEngine (local_port eng) (next_translated_port eng) ∅ ∅ ∅ (store eng).

(** [retain] with the compare-exchange of each expired entry. *)
Definition expires eng (timeout now : Z) id : bool :=
  match store eng !! id with
  | Some e => (timeout <? now - start_time e) && bool_decide (entry_state e = SynReceived)
  | None => false
  end.

Definition expire_entry eng (f : TcpNatFlowKey) id : TcpProxyEngine :=
  let eng := set_state eng id Closed in
  let eng := match store eng !! id with Some e => remove_translated eng id (translated_src e) | None => eng end in
  with_flow_map eng (delete f (flow_map eng)).

Definition cleanup_expired_syn eng (timeout now : Z) : TcpProxyEngine :=
  foldl (λ eng fi, if expires eng timeout now fi.2 then expire_entry eng fi.1 fi.2 else eng)
    eng (map_to_list (flow_map eng)).

Definition is_tcp_proxy_flow eng (src mapped_dst : SocketAddr) : bool :=
  bool_decide (is_Some (flow_map eng !! mkFlow src mapped_dst)).

Definition list_entries eng : list TcpNatEntrySnapshot :=
  omap (λ fi, e ← store eng !! fi.2;
          if bool_decide (entry_state e = SynReceived) then Some (snapshot e) else None) (map_to_list (flow_map eng)) ++
  omap (λ id, snapshot <$> store eng !! id) (elements (conn_map eng)).

(** *** Calls in sequence

    What the packet handlers, the listener, the tasks of the connections and the timer do to
    one engine, one call at a time. *)

Inductive TcpEvent {C : Type} : Type :=
| EvPeer (table : list (ProxyCidrEntry C)) (mode : TcpProxyMode) (p : ZCPacket.t) (ctx : TcpProxyPeerContext)
    (id : EntryId) (now unix : Z)
| EvNic (p : ZCPacket.t) (ctx : TcpProxyNicContext)
| EvAccept (addr : SocketAddr) (inet : option LocalInet)
| EvState (id : EntryId) (s : TcpNatEntryState)
| EvRemove (id : EntryId)
| EvClear
| EvCleanup (timeout now : Z)
| EvPort (port : Z).
Arguments TcpEvent : clear implicits.

Section Events.

Context `{TcpWire} {C : Type} `{Ipv4Cidr C}.

Definition tcp_step eng (ev : TcpEvent C) : option TcpProxyEngine :=
  match ev with
  | EvPeer table mode p ctx id now unix => (λ r, r.1.1) <$> try_handle_peer_packet eng table mode p ctx id now unix
  | EvNic p ctx => (λ _, eng) <$> try_process_packet_from_nic eng p ctx
  | EvAccept addr inet => fst <$> accept_connection eng addr inet
  | EvState id s => Some (set_state eng id s)
  | EvRemove id => Some (remove_entry eng id)
  | EvClear => Some (clear_engine eng)
  | EvCleanup timeout now => Some (cleanup_expired_syn eng timeout now)
  | EvPort port => Some (set_local_port eng port)
  end.

Fixpoint tcp_run eng (evs : list (TcpEvent C)) : option TcpProxyEngine :=
  match evs with
  | [] => Some eng
  | ev :: evs => eng' ← tcp_step eng ev; tcp_run eng' evs
  end.

End Events.

(** * Properties *)

(** ** The table *)

Record engine_wf eng : Prop := mkWf {
  w_flow f id : flow_map eng !! f = Some id → ∃ e, store eng !! id = Some e ∧ flow e = f ∧
    translated_src_map eng !! translated_src e = Some id;
  w_src a id : translated_src_map eng !! a = Some id → ∃ e, store eng !! id = Some e ∧ translated_src e = a ∧
    (id ∈ conn_map eng ∨ entry_state e = SynReceived ∧ flow_map eng !! flow e = Some id);
  w_conn id : id ∈ conn_map eng → ∃ e, store eng !! id = Some e ∧ entry_state e ≠ SynReceived;
  w_entry id e : store eng !! id = Some e →
    sa_ip (translated_src e) = sa_ip (flow_src (flow e)) ∧ sa_port (real_dst e) = sa_port (flow_mapped_dst (flow e)) ∧
    ∃ ip, sa_ip (flow_mapped_dst (flow e)) = IpV4 ip;
  w_port : 1 <= next_translated_port eng <= uint_max 16
}.

Lemma new_engine_wf : engine_wf new_engine.
Proof. split; cbn; try done; try (intros *; by rewrite lookup_empty); set_solver. Qed.

(** Entries keep what identifies them; only their state changes. *)
Definition same_entry (e e' : TcpNatEntry) : Prop :=
  flow e' = flow e ∧ translated_src e' = translated_src e ∧ real_dst e' = real_dst e.

Lemma set_state_lookup eng id s id' :
  store (set_state eng id s) !! id' = (λ e, if bool_decide (id' = id) then with_state s e else e) <$> store eng !! id'.
Proof.
  cbn. destruct (decide (id' = id)) as [->|Hne].
  - rewrite lookup_alter_eq. apply option_fmap_ext. intros e. by rewrite bool_decide_true.
  - rewrite lookup_alter_ne by done. destruct (store eng !! id'); cbn; [|done]. by rewrite bool_decide_false.
Qed.

(** Changing a state other than from or to waiting keeps the table in order. *)
Lemma set_state_wf eng id s :
  engine_wf eng → s ≠ SynReceived → state_of eng id ≠ Some SynReceived → engine_wf (set_state eng id s).
Proof.
  intros Hwf Hs Hid. assert (Hl := set_state_lookup eng id s). unfold state_of in Hid. split.
  - intros f i Hf. destruct (w_flow _ Hwf f i Hf) as (e & He & Hfl & Ht). rewrite Hl, He. eexists. split; [done|].
    by case_bool_decide.
  - intros a i Ha. destruct (w_src _ Hwf a i Ha) as (e & He & Hsrc & Hor). rewrite Hl, He. eexists. split; [done|].
    case_bool_decide as Ei; [|done]. subst i. split; [done|]. rewrite He in Hid. cbn in Hid.
    destruct Hor as [|[Hsyn _]]; [by left|congruence].
  - intros i Hi. destruct (w_conn _ Hwf i Hi) as (e & He & Hst). rewrite Hl, He. eexists. split; [done|].
    by case_bool_decide.
  - intros i e. rewrite Hl. destruct (store eng !! i) as [e0|] eqn:E; [|done]. intros [= <-].
    pose proof (w_entry _ Hwf i e0 E). by case_bool_decide.
  - apply (w_port _ Hwf).
Qed.

(** What is left after the indices of an entry are removed. *)
Lemma remove_indices_spec eng id :
  engine_wf eng →
  let eng' := remove_indices eng id in
  store eng' = store eng ∧ conn_map eng' = conn_map eng ∧ next_translated_port eng' = next_translated_port eng ∧
  local_port eng' = local_port eng ∧
  (∀ f i, flow_map eng' !! f = Some i ↔ flow_map eng !! f = Some i ∧ i ≠ id) ∧
  (∀ a i, translated_src_map eng' !! a = Some i ↔ translated_src_map eng !! a = Some i ∧ i ≠ id).
Proof.
  intros Hwf. cbn zeta. unfold remove_indices. destruct (store eng !! id) as [e|] eqn:E.
  - set (eng1 := remove_flow eng id (flow e)).
    assert (H1 : store eng1 = store eng ∧ conn_map eng1 = conn_map eng ∧
      next_translated_port eng1 = next_translated_port eng ∧ local_port eng1 = local_port eng ∧
      translated_src_map eng1 = translated_src_map eng ∧
      ∀ f i, flow_map eng1 !! f = Some i ↔ flow_map eng !! f = Some i ∧ i ≠ id).
    { unfold eng1, remove_flow. case_bool_decide as Ef; cbn; (split_and!; [done..|]); intros f i.
      - rewrite lookup_delete_Some. split; [|intros [Hf Hi]; split; [|done]; congruence].
        intros [Hne Hf]. split; [done|]. intros ->. destruct (w_flow _ Hwf f id Hf) as (e' & He' & <- & _). congruence.
      - split; [|tauto]. intros Hf. split; [done|]. intros ->.
        destruct (w_flow _ Hwf f id Hf) as (e' & He' & <- & _). congruence. }
    destruct H1 as (S1 & S2 & S3 & S4 & S5 & S6).
    unfold remove_translated. rewrite S5. case_bool_decide as Et; cbn; (split_and!; [done..|]).
    + intros a i. rewrite lookup_delete_Some. split; [|intros [Ha Hi]; split; [|done]; congruence].
      intros [Hne Ha]. split; [done|]. intros ->. destruct (w_src _ Hwf a id Ha) as (e' & He' & <- & _). congruence.
    + rewrite S5. intros a i. split; [|tauto]. intros Ha. split; [done|]. intros ->.
      destruct (w_src _ Hwf a id Ha) as (e' & He' & <- & _). congruence.
  - split_and!; [done..| |].
    + intros f i. split; [|tauto]. intros Hf. split; [done|]. intros ->.
      destruct (w_flow _ Hwf f id Hf) as (e & He & _). congruence.
    + intros a i. split; [|tauto]. intros Ha. split; [done|]. intros ->.
      destruct (w_src _ Hwf a id Ha) as (e & He & _). congruence.
Qed.

(** Fewer indices and connections, the same entries: enough for the table to stay in order. *)
Lemma fewer_wf eng eng' id :
  engine_wf eng → store eng' = store eng → next_translated_port eng' = next_translated_port eng →
  (∀ i, i ∈ conn_map eng' → i ∈ conn_map eng) → (∀ i, i ∈ conn_map eng → i ≠ id → i ∈ conn_map eng') →
  (∀ f i, flow_map eng' !! f = Some i ↔ flow_map eng !! f = Some i ∧ i ≠ id) →
  (∀ a i, translated_src_map eng' !! a = Some i ↔ translated_src_map eng !! a = Some i ∧ i ≠ id) →
  engine_wf eng'.
Proof.
  intros Hwf Hst Hpo Hc1 Hc2 Hf Ht. split; rewrite ?Hst, ?Hpo.
  - intros f i [Hi Hne]%Hf. destruct (w_flow _ Hwf f i Hi) as (e & He & Hfl & Htr). exists e.
    split_and!; [done..|]. by apply Ht.
  - intros a i [Hi Hne]%Ht. destruct (w_src _ Hwf a i Hi) as (e & He & Hsrc & Hor). exists e. split_and!; [done..|].
    destruct Hor as [Hor|[Hs Hor]]; [left; auto|right]. split; [done|]. by apply Hf.
  - intros i Hi. apply (w_conn _ Hwf). auto.
  - apply (w_entry _ Hwf).
  - apply (w_port _ Hwf).
Qed.

Lemma remove_indices_wf eng id : engine_wf eng → engine_wf (remove_indices eng id).
Proof.
  intros Hwf. destruct (remove_indices_spec eng id Hwf) as (H1 & H2 & H3 & _ & H5 & H6).
  apply (fewer_wf eng _ id); [done..| | |done|done]; rewrite H2; auto.
Qed.

Lemma remove_entry_wf eng id : engine_wf eng → engine_wf (remove_entry eng id).
Proof.
  intros Hwf. unfold remove_entry. case_bool_decide; [|done].
  assert (E : remove_indices (with_conn_map eng (conn_map eng ∖ {[id]})) id =
    with_conn_map (remove_indices eng id) (conn_map eng ∖ {[id]})).
  { unfold remove_indices. cbn [with_conn_map store]. destruct (store eng !! id); [|done].
    unfold remove_translated, remove_flow. cbn [with_conn_map flow_map]. by repeat case_bool_decide. }
  rewrite E. destruct (remove_indices_spec eng id Hwf) as (H1 & H2 & H3 & _ & H5 & H6).
  apply (fewer_wf eng _ id); [done..| | |done|done]; cbn; set_solver.
Qed.

Lemma clear_wf eng : engine_wf eng → engine_wf (clear_engine eng).
Proof.
  intros Hwf. unfold clear_engine. set (ids := _ ++ _).
  assert (He : ∀ l eng0, (∀ id e, store eng0 !! id = Some e →
      sa_ip (translated_src e) = sa_ip (flow_src (flow e)) ∧ sa_port (real_dst e) = sa_port (flow_mapped_dst (flow e)) ∧
      ∃ ip, sa_ip (flow_mapped_dst (flow e)) = IpV4 ip) →
    ∀ id e, store (foldl (λ eng id, set_state eng id Closed) eng0 l) !! id = Some e →
      sa_ip (translated_src e) = sa_ip (flow_src (flow e)) ∧ sa_port (real_dst e) = sa_port (flow_mapped_dst (flow e)) ∧
      ∃ ip, sa_ip (flow_mapped_dst (flow e)) = IpV4 ip).
  { induction l as [|i l IH]; intros eng0 H0; [done|]. apply IH. intros id e. rewrite set_state_lookup.
    destruct (store eng0 !! id) as [e0|] eqn:E; [|done]. intros [= <-]. specialize (H0 id e0 E). by case_bool_decide. }
  assert (Hp : ∀ l eng0, next_translated_port (foldl (λ eng id, set_state eng id Closed) eng0 l) = next_translated_port eng0)
    by (induction l as [|i l IH]; intros eng0; [done|]; cbn; by rewrite IH).
  split; cbn; try (intros *; by rewrite lookup_empty); [set_solver|apply He, (w_entry _ Hwf)|].
  rewrite Hp. apply (w_port _ Hwf).
Qed.

Lemma accept_connection_wf eng addr inet :
  engine_wf eng → ∃ eng' r, accept_connection eng addr inet = Some (eng', r) ∧ engine_wf eng' ∧
    ∀ id, r = Some id → id ∈ conn_map eng' ∧ state_of eng' id = Some ConnectingDst.
Proof.
  intros Hwf. unfold accept_connection. cbn zeta. set (a := match inet with Some _ => _ | None => _ end).
  destruct (translated_src_map eng !! a) as [id|] eqn:Et; [|by eexists _, None].
  destruct (w_src _ Hwf a id Et) as (e & He & Hsrc & Hor). unfold state_of. rewrite He. cbn [fmap option_fmap option_map].
  destruct (entry_state e) eqn:Es; try (by eexists _, None).
  2: { eexists _, None. split; [done|]. split; [by apply remove_indices_wf|done]. }
  assert (Hnc : id ∉ conn_map eng).
  { intros Hc. destruct (w_conn _ Hwf id Hc) as (e' & He' & Hs). congruence. }
  assert (Hf : flow_map eng !! flow e = Some id) by (destruct Hor as [|[_ Hf]]; [done|exact Hf]).
  rewrite bool_decide_false by done. eexists _, (Some id). split; [done|].
  assert (Hl := set_state_lookup eng id ConnectingDst).
  split.
  - split; cbn [with_conn_map store flow_map translated_src_map conn_map next_translated_port].
    + intros f i Hfi. destruct (w_flow _ Hwf f i Hfi) as (e' & He' & Hfl & Ht). rewrite Hl, He'. eexists. split; [done|].
      by case_bool_decide.
    + intros b i Hb. destruct (w_src _ Hwf b i Hb) as (e' & He' & Hs' & Hor'). rewrite Hl, He'. eexists. split; [done|].
      case_bool_decide as Ei; cbn; [subst i; split; [done|]; left; set_solver|].
      split; [done|]. destruct Hor' as [|]; [left; set_solver|by right].
    + intros i Hi. apply elem_of_union in Hi as [->%elem_of_singleton|Hi].
      * rewrite Hl, He. eexists. split; [done|]. by rewrite bool_decide_true.
      * destruct (w_conn _ Hwf i Hi) as (e' & He' & Hs). rewrite Hl, He'. eexists. split; [done|]. by case_bool_decide.
    + intros i e'. rewrite Hl. destruct (store eng !! i) as [e0|] eqn:E; [|done]. intros [= <-].
      pose proof (w_entry _ Hwf i e0 E). by case_bool_decide.
    + apply (w_port _ Hwf).
  - intros i [= <-]. split; [set_solver|]. unfold state_of. cbn [with_conn_map store]. rewrite Hl, He. cbn.
    by rewrite bool_decide_true.
Qed.

Lemma expire_wf eng timeout now f id :
  engine_wf eng → flow_map eng !! f = Some id → expires eng timeout now id = true → engine_wf (expire_entry eng f id).
Proof.
  intros Hwf Hf. unfold expires. destruct (w_flow _ Hwf f id Hf) as (e & He & <- & Ht). rewrite He.
  intros [_ Hs%bool_decide_eq_true]%andb_true_iff.
  assert (Hnc : id ∉ conn_map eng).
  { intros Hc. destruct (w_conn _ Hwf id Hc) as (e' & He' & Hs'). congruence. }
  unfold expire_entry. assert (Hl := set_state_lookup eng id Closed).
  assert (Hst : store (set_state eng id Closed) !! id = Some (with_state Closed e)) by by rewrite Hl, He; cbn; rewrite bool_decide_true.
  rewrite Hst. unfold remove_translated. rewrite bool_decide_true by exact Ht.
  split; cbn [with_flow_map with_translated set_state with_store store flow_map translated_src_map conn_map next_translated_port
    with_state translated_src].
  - intros f' i [Hne Hi]%lookup_delete_Some. destruct (w_flow _ Hwf f' i Hi) as (e' & He' & Hfl & Ht').
    change (alter (with_state Closed) id (store eng)) with (store (set_state eng id Closed)).
    rewrite Hl, He'. eexists. split; [done|]. assert (i ≠ id) by congruence.
    rewrite bool_decide_false by done. split; [done|]. rewrite lookup_delete_ne by congruence. done.
  - intros a i [Hne Hi]%lookup_delete_Some. destruct (w_src _ Hwf a i Hi) as (e' & He' & Hs' & Hor).
    change (alter (with_state Closed) id (store eng)) with (store (set_state eng id Closed)).
    rewrite Hl, He'. eexists. split; [done|]. assert (i ≠ id) by congruence.
    rewrite bool_decide_false by done. split; [done|]. destruct Hor as [|[Hsy Hfl]]; [by left|right].
    split; [done|]. rewrite lookup_delete_ne by congruence. done.
  - intros i Hi. destruct (w_conn _ Hwf i Hi) as (e' & He' & Hs').
    change (alter (with_state Closed) id (store eng)) with (store (set_state eng id Closed)).
    rewrite Hl, He'. eexists. split; [done|]. by case_bool_decide.
  - intros i e'. change (alter (with_state Closed) id (store eng)) with (store (set_state eng id Closed)).
    rewrite Hl. destruct (store eng !! i) as [e0|] eqn:E; [|done]. intros [= <-].
    pose proof (w_entry _ Hwf i e0 E). by case_bool_decide.
  - apply (w_port _ Hwf).
Qed.

Lemma cleanup_wf eng timeout now : engine_wf eng → engine_wf (cleanup_expired_syn eng timeout now).
Proof.
  intros Hwf. unfold cleanup_expired_syn.
  assert (Hin : ∀ fi, fi ∈ map_to_list (flow_map eng) → flow_map eng !! fi.1 = Some fi.2)
    by (intros [f i]; apply elem_of_map_to_list).
  pose proof (NoDup_fst_map_to_list (flow_map eng)) as Hnd.
  revert Hnd Hin. generalize (map_to_list (flow_map eng)) as l. intros l. revert eng Hwf.
  induction l as [|[f id] l IH]; intros eng Hwf Hnd Hin; [done|]. cbn [foldl fst snd].
  apply NoDup_cons in Hnd as [Hf Hnd]. pose proof (Hin (f, id) ltac:(left)) as Hfi. cbn in Hfi.
  destruct (expires eng timeout now id) eqn:Ee; [|apply IH; [done..|]; intros fi Hfi'; apply Hin; by right].
  apply IH; [by eapply expire_wf|done|]. intros [f' i'] Hfi'. pose proof (Hin (f', i') ltac:(by right)) as H. cbn in H |- *.
  unfold expire_entry. cbn [with_flow_map flow_map]. rewrite lookup_delete_ne.
  - case_match; [unfold remove_translated; case_bool_decide|]; exact H.
  - intros <-. apply Hf. by apply (list_elem_of_fmap_2' fst _ (f, i')).
Qed.

(** *** Allocating ports *)

(** The port that round [i] of the search tries. *)
Definition port_at (port i : Z) : Z := (port - 1 + i) mod uint_max 16 + 1.

Lemma port_at_range port i : 1 <= port_at port i <= uint_max 16.
Proof. unfold port_at. pose proof (Z.mod_pos_bound (port - 1 + i) (uint_max 16) ltac:(done)). lia. Qed.

Lemma port_at_next port i : 1 <= port <= uint_max 16 → port_at (next_port port) i = port_at port (i + 1).
Proof.
  intros Hp. unfold port_at, next_port. f_equal. destruct (Z.eqb_spec port (uint_max 16)) as [->|].
  - replace (uint_max 16 - 1 + (i + 1)) with (1 - 1 + i + 1 * uint_max 16) by lia. by rewrite Z_mod_plus_full.
  - f_equal. lia.
Qed.

Definition port_taken eng (ip : IpAddr) (port : Z) : Prop :=
  port = local_port eng ∨ is_Some (translated_src_map eng !! mkSocketAddr ip port).

(** The engine with the entry of a search that ended at [port], but for its flow. *)
Definition with_entry eng (f : TcpNatFlowKey) dst id (now unix next port : Z) : TcpProxyEngine :=
  let src := mkSocketAddr (sa_ip (flow_src f)) port in
  mkEngine (local_port eng) next (flow_map eng) (<[src := id]> (translated_src_map eng)) (conn_map eng)
    (<[id := new_entry f src dst now unix]> (store eng)).

Lemma try_ports_spec rounds eng f dst id now unix :
  1 <= next_translated_port eng <= uint_max 16 →
  match try_ports rounds eng f dst id now unix with
  | (eng', Some new) => new = id ∧ ∃ port, 1 <= port <= uint_max 16 ∧ ¬ port_taken eng (sa_ip (flow_src f)) port ∧
      1 <= next_port port <= uint_max 16 ∧ eng' = with_entry eng f dst id now unix (next_port port) port
  | (eng', None) => (∃ next, 1 <= next <= uint_max 16 ∧ eng' = with_next_port eng next) ∧
      ∀ i, 0 <= i < Z.of_nat rounds → port_taken eng (sa_ip (flow_src f)) (port_at (next_translated_port eng) i)
  end.
Proof.
  revert eng. induction rounds as [|rounds IH]; intros eng Hp; cbn [try_ports].
  { split; [|lia]. exists (next_translated_port eng). split; [done|]. by destruct eng. }
  set (port := next_translated_port eng) in *.
  assert (Hn : 1 <= next_port port <= uint_max 16) by (unfold next_port; destruct (Z.eqb_spec port (uint_max 16)); [done|lia]).
  assert (H0 : port_at port 0 = port) by (unfold port_at; rewrite Z.mod_small; lia).
  specialize (IH (with_next_port eng (next_port port)) Hn).
  assert (Hskip : port_taken eng (sa_ip (flow_src f)) port →
    match try_ports rounds (with_next_port eng (next_port port)) f dst id now unix with
    | (eng', Some new) => new = id ∧ ∃ port, 1 <= port <= uint_max 16 ∧ ¬ port_taken eng (sa_ip (flow_src f)) port ∧
        1 <= next_port port <= uint_max 16 ∧ eng' = with_entry eng f dst id now unix (next_port port) port
    | (eng', None) => (∃ next, 1 <= next <= uint_max 16 ∧ eng' = with_next_port eng next) ∧
        ∀ i, 0 <= i < Z.of_nat (S rounds) → port_taken eng (sa_ip (flow_src f)) (port_at port i)
    end).
  { intros Ht. destruct (try_ports rounds _ f dst id now unix) as [eng' [new|]]; [exact IH|].
    destruct IH as [Hex Hall]. split; [exact Hex|]. intros i Hi. destruct (decide (i = 0)) as [->|]; [by rewrite H0|].
    specialize (Hall (i - 1) ltac:(lia)). cbn [with_next_port next_translated_port] in Hall.
    rewrite port_at_next in Hall by done. by replace (i - 1 + 1) with i in Hall by lia. }
  destruct (Z.eqb_spec port (local_port (with_next_port eng (next_port port)))) as [El|El]; [apply Hskip; by left|].
  destruct (translated_src_map (with_next_port eng (next_port port)) !! mkSocketAddr (sa_ip (flow_src f)) port) eqn:Et;
    [apply Hskip; right; eauto|].
  split; [done|]. exists port. split; [done|]. split; [|done]. intros [?|[? H]]; [done|]. cbn in Et. congruence.
Qed.

Lemma allocate_none eng f dst id now unix :
  engine_wf eng →
  (allocate_entry eng f dst id now unix).2 = None ↔
  ∀ port, 1 <= port <= uint_max 16 → port_taken eng (sa_ip (flow_src f)) port.
Proof.
  intros Hwf. unfold allocate_entry.
  pose proof (try_ports_spec (Z.to_nat (uint_max 16)) eng f dst id now unix (w_port _ Hwf)) as Hs.
  destruct (try_ports _ eng f dst id now unix) as [eng' [new|]]; cbn [snd].
  - destruct Hs as (-> & port & Hr & Hf & _). split; [done|]. intros Hall. destruct (Hf (Hall port Hr)).
  - split; [|done]. intros _ port Hport. destruct Hs as [_ Hall]. pose proof (w_port _ Hwf).
    specialize (Hall ((port - next_translated_port eng) mod uint_max 16)).
    pose proof (Z.mod_pos_bound (port - next_translated_port eng) (uint_max 16) ltac:(done)).
    rewrite Z2Nat.id in Hall by done. specialize (Hall ltac:(lia)). unfold port_at in Hall.
    rewrite Z.add_mod_idemp_r in Hall by done.
    replace (next_translated_port eng - 1 + (port - next_translated_port eng)) with (port - 1) in Hall by lia.
    rewrite Z.mod_small in Hall by lia. by replace (port - 1 + 1) with port in Hall by lia.
Qed.

(** A flow that the engine can hold. *)
Definition flow_ok (f : TcpNatFlowKey) (dst : SocketAddr) : Prop :=
  sa_port dst = sa_port (flow_mapped_dst f) ∧ ∃ ip, sa_ip (flow_mapped_dst f) = IpV4 ip.

Lemma insert_entry_wf eng f dst id now unix next port :
  engine_wf eng → flow_ok f dst → store eng !! id = None → ¬ port_taken eng (sa_ip (flow_src f)) port →
  1 <= next <= uint_max 16 →
  (∀ old, flow_map eng !! f = Some old → state_of eng old ≠ Some SynReceived) →
  engine_wf (with_flow_map (with_entry eng f dst id now unix next port) (<[f := id]> (flow_map eng))).
Proof.
  intros Hwf [Hdst Hv4] Hid Hport Hnext Hold. set (src := mkSocketAddr (sa_ip (flow_src f)) port).
  assert (Hsrc : translated_src_map eng !! src = None).
  { destruct (translated_src_map eng !! src) eqn:E; [|done]. exfalso. apply Hport. right. eauto. }
  split; cbn [with_flow_map with_entry store flow_map translated_src_map conn_map next_translated_port]; fold src.
  - intros f' i [[<- <-]|[Hne Hi]]%lookup_insert_Some.
    + exists (new_entry f src dst now unix). rewrite lookup_insert_eq. split_and!; [done..|apply lookup_insert_eq].
    + destruct (w_flow _ Hwf f' i Hi) as (e & He & Hfl & Ht). exists e.
      rewrite lookup_insert_ne by congruence. split_and!; [done..|]. rewrite lookup_insert_ne by congruence. done.
  - intros a i [[<- <-]|[Hne Hi]]%lookup_insert_Some.
    + exists (new_entry f src dst now unix). rewrite lookup_insert_eq. split_and!; [done..|]. right.
      split; [done|apply lookup_insert_eq].
    + destruct (w_src _ Hwf a i Hi) as (e & He & Hs & Hor). exists e. rewrite lookup_insert_ne by congruence.
      split_and!; [done..|]. destruct Hor as [|[Hsy Hfl]]; [by left|]. right. split; [done|].
      rewrite lookup_insert_ne; [done|]. intros Heq. rewrite <- Heq in Hfl. apply (Hold i Hfl).
      unfold state_of. rewrite He. cbn. by rewrite Hsy.
  - intros i Hi. destruct (w_conn _ Hwf i Hi) as (e & He & Hs). exists e. rewrite lookup_insert_ne by congruence. done.
  - intros i e [[<- <-]|[Hne Hi]]%lookup_insert_Some; [done|]. apply (w_entry _ Hwf i e Hi).
  - done.
Qed.

Lemma next_port_wf eng next : engine_wf eng → 1 <= next <= uint_max 16 → engine_wf (with_next_port eng next).
Proof. intros [H1 H2 H3 H4 H5] Hn. by split. Qed.

Lemma entry_for_syn_spec eng f dst id now unix :
  engine_wf eng → flow_ok f dst → store eng !! id = None →
  let r := entry_for_syn eng f dst id now unix in
  engine_wf r.1 ∧
  match r.2 with
  | None => store r.1 = store eng
  | Some (found, _) => flow_map r.1 !! f = Some found ∧ (∀ i e, store eng !! i = Some e → store r.1 !! i = Some e)
  end.
Proof.
  intros Hwf Hf Hid. cbn zeta. unfold entry_for_syn.
  pose proof (try_ports_spec (Z.to_nat (uint_max 16)) eng f dst id now unix (w_port _ Hwf)) as Hs.
  unfold allocate_entry in *.
  assert (Halloc : (∀ old, flow_map eng !! f = Some old → state_of eng old ≠ Some SynReceived) →
    let r := match try_ports (Z.to_nat (uint_max 16)) eng f dst id now unix with
      | (eng, Some new) => (with_flow_map eng (<[f := new]> (flow_map eng)), Some (new, true))
      | (eng, None) => (eng, None)
      end in
    engine_wf r.1 ∧ match r.2 with
    | None => store r.1 = store eng
    | Some (found, _) => flow_map r.1 !! f = Some found ∧ (∀ i e, store eng !! i = Some e → store r.1 !! i = Some e)
    end).
  { intros Hold. cbn zeta. destruct (try_ports _ eng f dst id now unix) as [eng' [new|]]; cbn [fst snd] in *.
    - destruct Hs as (-> & port & Hr & Hfree & Hn & ->). split; [exact (insert_entry_wf eng f dst id now unix _ port Hwf Hf Hid Hfree Hn Hold)|].
      split; [apply lookup_insert_eq|]. intros i e He. cbn. rewrite lookup_insert_ne by congruence. done.
    - destruct Hs as [(next & Hn & ->) _]. split; [by apply next_port_wf|done]. }
  destruct (flow_map eng !! f) as [old|] eqn:Ef; [|by apply Halloc].
  destruct (negb (from_option is_closing false (state_of eng old))) eqn:Ec; [by split|].
  apply Halloc. intros o [= <-] Hs'. by rewrite Hs' in Ec.
Qed.

(** Translated ports run out only when there is none: a new connection is refused
    exactly when every port from 1 to 65535 is taken for its source address or is the
    port of the listener; otherwise it gets a free one, in at most one pass over the ports. *)
Theorem ports_exhausted_iff eng f dst id now unix :
  engine_wf eng →
  (allocate_entry eng f dst id now unix).2 = None ↔
  ∀ port, 1 <= port <= uint_max 16 → port_taken eng (sa_ip (flow_src f)) port.
Proof. apply allocate_none. Qed.

(** Flows are kept apart: in a table in order two flows never share a translated
    source address, so an answer of the local stack belongs to one flow; and every taken
    address belongs to an accepted connection, which its task will remove, or to a waiting
    one, which the clean-up finds through its flow: no address is lost. *)
Theorem flows_kept_apart eng f1 f2 id1 id2 e1 e2 :
  engine_wf eng → flow_map eng !! f1 = Some id1 → flow_map eng !! f2 = Some id2 → f1 ≠ f2 →
  store eng !! id1 = Some e1 → store eng !! id2 = Some e2 →
  translated_src e1 ≠ translated_src e2 ∧
  ∀ a id, translated_src_map eng !! a = Some id →
    id ∈ conn_map eng ∨ ∃ f, flow_map eng !! f = Some id ∧ state_of eng id = Some SynReceived.
Proof.
  intros Hwf H1 H2 Hne He1 He2. split.
  - destruct (w_flow _ Hwf f1 id1 H1) as (x1 & Hx1 & <- & Ht1), (w_flow _ Hwf f2 id2 H2) as (x2 & Hx2 & <- & Ht2).
    intros E. congruence.
  - intros a id Ha. destruct (w_src _ Hwf a id Ha) as (e & He & _ & [|[Hs Hf]]); [by left|]. right.
    exists (flow e). split; [done|]. unfold state_of. rewrite He. cbn. by rewrite Hs.
Qed.

Section Translation.

Context `{TcpWireLaws} {C : Type} `{Ipv4Cidr C}.

(** ** Rewriting *)

Lemma addresses_spec l v :
  addresses l = Some v ↔
  ∃ h t, ipv4 l = Some h ∧ tcp (ip_payload h) = Some t ∧
    v = mkAddrs (ip_version h) (ip_next_header h) (ip_src h) (ip_dst h) (tcp_src_port t) (tcp_dst_port t)
          (tcp_syn t) (tcp_ack t).
Proof.
  unfold addresses, headers. destruct (ipv4 l) as [h|]; cbn; [|naive_solver].
  destruct (tcp (ip_payload h)) as [t|] eqn:Et; cbn; [|naive_solver]. split; [|naive_solver].
  intros [= <-]. by exists h, t.
Qed.

Lemma rewrite_to_local_spec pl v local_ip fake sp dp :
  addresses pl = Some v →
  let l := rewrite_to_local pl local_ip fake sp dp in
  addresses l = Some (mkAddrs (a_version v) (a_next v) (default (a_src v) fake) local_ip sp dp (a_syn v) (a_ack v)) ∧
  len l = len pl ∧ checksums_ok l.
Proof.
  intros Hv. cbn zeta. unfold rewrite_to_local. cbn zeta.
  set (l1 := match fake with Some a => set_src_addr a pl | None => pl end).
  assert (addresses l1 = Some (mkAddrs (a_version v) (a_next v) (default (a_src v) fake) (a_dst v)
      (a_sport v) (a_dport v) (a_syn v) (a_ack v)) ∧ len l1 = len pl) as [E1 L1].
  { unfold l1. destruct fake as [a|]; cbn; [|by destruct v]. split; [by apply set_src_addr_spec|apply set_src_addr_len]. }
  apply (set_dst_addr_spec local_ip) in E1 as E2. cbn in E2. apply addresses_spec in E2 as (h & t & Eh & _ & Ev).
  rewrite Eh. cbn [from_option]. injection Ev as _ _ Es _ _ _ _ _. rewrite <- Es.
  apply (set_dst_addr_spec local_ip) in E1 as E2. cbn in E2.
  apply (set_ports_spec sp dp) in E2 as E3. cbn in E3.
  split; [by apply fill_ipv4_spec, fill_tcp_spec|].
  split; [by rewrite fill_ipv4_len, fill_tcp_len, set_ports_len, set_dst_addr_len|].
  apply checksums_filled in E3. exact E3.
Qed.

Lemma rewrite_from_local_spec pl v mapped dst sp dp :
  addresses pl = Some v →
  let l := rewrite_from_local pl mapped dst sp dp in
  addresses l = Some (mkAddrs (a_version v) (a_next v) mapped (default (a_dst v) dst) sp dp (a_syn v) (a_ack v)) ∧
  len l = len pl ∧ checksums_ok l.
Proof.
  intros Hv. cbn zeta. unfold rewrite_from_local. cbn zeta.
  apply (set_src_addr_spec mapped) in Hv as E1.
  set (l2 := match dst with Some a => set_dst_addr a (set_src_addr mapped pl) | None => set_src_addr mapped pl end).
  assert (addresses l2 = Some (mkAddrs (a_version v) (a_next v) mapped (default (a_dst v) dst)
      (a_sport v) (a_dport v) (a_syn v) (a_ack v)) ∧ len l2 = len pl) as [E2 L2].
  { unfold l2. destruct dst as [a|]; cbn; rewrite ?set_dst_addr_len, set_src_addr_len; [|done]. split; [|done].
    by apply (set_dst_addr_spec a) in E1. }
  apply addresses_spec in E2 as Hs. destruct Hs as (h & t & Eh & _ & Ev). rewrite Eh. cbn [from_option].
  injection Ev as _ _ _ Es _ _ _ _. rewrite <- Es.
  apply (set_ports_spec sp dp) in E2 as E3. cbn in E3.
  split; [by apply fill_ipv4_spec, fill_tcp_spec|].
  split; [by rewrite fill_ipv4_len, fill_tcp_len, set_ports_len|].
  apply checksums_filled in E3. exact E3.
Qed.

(** ** Packets from peers *)

(** The flow of a packet. *)
Definition flow_of (v : Addresses) : TcpNatFlowKey :=
  mkFlow (mkSocketAddr (IpV4 (a_src v)) (a_sport v)) (mkSocketAddr (IpV4 (a_dst v)) (a_dport v)).

(** What a handled packet looks like: it comes from the translated port of its flow. *)
Definition to_local (ctx : TcpProxyPeerContext) (inet : LocalInet) (v : Addresses) (e : TcpNatEntry) : Addresses :=
  mkAddrs (a_version v) (a_next v)
    (if negb (pc_smoltcp_enabled ctx) && (a_src v =? inet_address inet) then inet_first inet else a_src v)
    (inet_address inet) (sa_port (translated_src e)) (pc_local_port ctx) (a_syn v) (a_ack v).

Definition peer_outcome eng (ctx : TcpProxyPeerContext) (inet : LocalInet) (v : Addresses)
    (r : TcpProxyEngine * ZCPacket.t * TcpProxyPacketAction) : Prop :=
  let '(eng', p', act) := r in
  engine_wf eng' ∧ (∀ i e, store eng !! i = Some e → store eng' !! i = Some e) ∧
  match act with
  | Handled _ => ∃ id e pl', flow_map eng' !! flow_of v = Some id ∧ store eng' !! id = Some e ∧
      ZCPacket.wf p' ∧ ZCPacket.payload p' = Some pl' ∧ addresses pl' = Some (to_local ctx inet v e) ∧ checksums_ok pl'
  | _ => True
  end.

Lemma translate_total eng p ctx inet real_dst_ip id now unix pl v :
  engine_wf eng → store eng !! id = None → ZCPacket.wf p → ZCPacket.payload p = Some pl → addresses pl = Some v →
  ∃ r, translate_peer_packet eng p ctx inet real_dst_ip id now unix = Some r ∧ peer_outcome eng ctx inet v r.
Proof.
  intros Hwf Hid Hp Hpl Hv. unfold translate_peer_packet.
  destruct (PacketFacts.update_header_ok p (λ h, PeerManagerHeader.with_packet_type h (packet_type_u8 Data)) Hp)
    as (p1 & hdr & _ & -> & Hp1 & Hpl1 & _). cbn [mbind option_bind]. rewrite Hpl1, Hpl. cbn [mbind option_bind].
  apply addresses_spec in Hv as Hs. destruct Hs as (h & t & Eh & Et & Ev). rewrite Eh. cbn [mbind option_bind].
  rewrite Et. cbn [mbind option_bind].
  assert (Ek : mkFlow (mkSocketAddr (IpV4 (ip_src h)) (tcp_src_port t)) (mkSocketAddr (IpV4 (ip_dst h)) (tcp_dst_port t)) =
    flow_of v) by by rewrite Ev.
  rewrite Ek.
  assert (Hfin : ∀ eng' found new_syn,
    engine_wf eng' → flow_map eng' !! flow_of v = Some found → (∀ i e, store eng !! i = Some e → store eng' !! i = Some e) →
    ∃ r, (e ← store eng' !! found;
      p ← set_payload p1 (rewrite_to_local pl (inet_address inet)
            (if negb (pc_smoltcp_enabled ctx) && (ip_src h =? inet_address inet) then Some (fake_local_ipv4 inet) else None)
            (sa_port (translated_src e)) (pc_local_port ctx));
      Some (eng', p, Handled new_syn)) = Some r ∧ peer_outcome eng ctx inet v r).
  { intros eng' found new_syn Hwf' Hf Hst. destruct (w_flow _ Hwf' _ _ Hf) as (e & He & _ & _). rewrite He. cbn [mbind option_bind].
    set (fake := if _ : bool then Some _ else None).
    destruct (rewrite_to_local_spec pl v (inet_address inet) fake (sa_port (translated_src e)) (pc_local_port ctx) Hv)
      as (Ha & Hl & Hc).
    unfold set_payload. destruct (PacketFacts.set_payload_ok p1 pl _ Hp1 (eq_trans Hpl1 Hpl) Hl) as (p2 & -> & Hw2 & Hpl2 & _). cbn [mbind option_bind].
    eexists. split; [done|]. cbn. split; [done|]. split; [done|]. exists found, e, (rewrite_to_local pl (inet_address inet) fake
      (sa_port (translated_src e)) (pc_local_port ctx)). split_and!; [done..| |done]. rewrite Ha. f_equal.
    unfold to_local. f_equal. unfold fake, fake_local_ipv4. rewrite Ev. cbn [a_src]. by destruct (negb _ && _). }
  destruct (tcp_syn t && negb (tcp_ack t)).
  - pose proof (entry_for_syn_spec eng (flow_of v) (mkSocketAddr (IpV4 real_dst_ip) (tcp_dst_port t)) id now unix Hwf) as Hsyn.
    destruct (entry_for_syn eng (flow_of v) (mkSocketAddr (IpV4 real_dst_ip) (tcp_dst_port t)) id now unix)
      as [eng' [[found new_syn]|]]; cbn [fst snd] in Hsyn; (destruct Hsyn as [Hwf' Hrest];
        [split; [by rewrite Ev|eauto]|done|]).
    + destruct Hrest as [Hf Hst]. by apply Hfin.
    + eexists. split; [done|]. cbn. split; [done|]. split; [|done].
      intros i e He. by rewrite Hrest.
  - destruct (flow_map eng !! flow_of v) as [found|] eqn:Ef; [by apply Hfin|]. eexists. split; [done|]. by cbn.
Qed.

(** What the call relies on: a TCP packet has a TCP header. *)
Definition tcp_well_formed (pl : list Z) : Prop :=
  ∀ h, ipv4 pl = Some h → ip_next_header h = IP_PROTO_TCP → is_Some (tcp (ip_payload h)).

Lemma handle_total eng table mode p ctx id now unix pl :
  engine_wf eng → store eng !! id = None → ZCPacket.wf p → ZCPacket.payload p = Some pl → tcp_well_formed pl →
  ∃ eng' p' act, try_handle_peer_packet eng table mode p ctx id now unix = Some (eng', p', act) ∧
    engine_wf eng' ∧ (∀ i e, store eng !! i = Some e → store eng' !! i = Some e) ∧
    ∀ new, act = Handled new → ∃ inet v, pc_local_inet ctx = Some inet ∧ addresses pl = Some v ∧
      a_version v = 4 ∧ a_next v = IP_PROTO_TCP ∧ peer_outcome eng ctx inet v (eng', p', act).
Proof.
  intros Hwf Hid Hp Hpl Htcp. unfold try_handle_peer_packet.
  assert (Hpass : ∃ eng' p' act, Some (eng, p, Pass) = Some (eng', p', act) ∧
    engine_wf eng' ∧ (∀ i e, store eng !! i = Some e → store eng' !! i = Some e) ∧
    ∀ new, act = Handled new → ∃ inet v, pc_local_inet ctx = Some inet ∧ addresses pl = Some v ∧
      a_version v = 4 ∧ a_next v = IP_PROTO_TCP ∧ peer_outcome eng ctx inet v (eng', p', act))
    by (by eexists _, _, Pass).
  destruct (negb (check_packet_from_peer_fast table mode ctx)); [exact Hpass|].
  destruct (pc_local_inet ctx) as [inet|] eqn:Einet; [|exact Hpass].
  destruct (ZCPacket.peer_manager_header p) as [hdr|]; [|exact Hpass].
  destruct (_ || _); [exact Hpass|]. rewrite Hpl. cbn [mbind option_bind].
  destruct (ipv4 pl) as [h|] eqn:Eh; [|exact Hpass].
  destruct (Z.eqb_spec (ip_version h) 4) as [E4|]; [|exact Hpass].
  destruct (Z.eqb_spec (ip_next_header h) IP_PROTO_TCP) as [Et|]; [|exact Hpass]. cbn [negb orb].
  destruct (real_dst_ip_for_mode table mode (ip_dst h) (PeerManagerHeader.is_exit_node hdr) ctx) as [real|]; [|exact Hpass].
  destruct (Htcp h Eh Et) as [t Ht].
  set (v := mkAddrs (ip_version h) (ip_next_header h) (ip_src h) (ip_dst h) (tcp_src_port t) (tcp_dst_port t) (tcp_syn t) (tcp_ack t)).
  assert (Hv : addresses pl = Some v) by (apply addresses_spec; by exists h, t).
  destruct (translate_total eng p ctx inet real id now unix pl v Hwf Hid Hp Hpl Hv) as ([[eng' p'] act] & Hr & Ho).
  exists eng', p', act. split; [exact Hr|]. destruct (Ho) as (Hwf' & Hst & _). split; [done|]. split; [done|].
  intros new _. by exists inet, v.
Qed.

(** A packet that says it carries TCP and does not is not passed on: the call panics. *)
Theorem malformed_tcp_panics eng table mode p ctx id now unix pl h inet hdr real :
  ZCPacket.wf p → ZCPacket.payload p = Some pl → ipv4 pl = Some h → tcp (ip_payload h) = None →
  ip_version h = 4 → ip_next_header h = IP_PROTO_TCP → pc_local_inet ctx = Some inet →
  ZCPacket.peer_manager_header p = Some hdr → PeerManagerHeader.is_no_proxy hdr = false →
  check_packet_from_peer_fast table mode ctx = true → allowed_packet_type mode hdr = true →
  real_dst_ip_for_mode table mode (ip_dst h) (PeerManagerHeader.is_exit_node hdr) ctx = Some real →
  try_handle_peer_packet eng table mode p ctx id now unix = None.
Proof.
  intros Hwf Hpl Hh Ht E4 E6 Einet Ehdr Enp Efast Eal Ereal. unfold try_handle_peer_packet.
  rewrite Efast, Einet, Ehdr, Enp, Eal, Hpl. cbn [negb orb mbind option_bind]. rewrite Hh, E4, E6, Z.eqb_refl, Z.eqb_refl, Ereal.
  cbn [negb orb]. unfold translate_peer_packet.
  destruct (PacketFacts.update_header_ok p (λ h, PeerManagerHeader.with_packet_type h (packet_type_u8 Data)) Hwf)
    as (p1 & _ & _ & -> & _ & Hpl1 & _). cbn [mbind option_bind].
  rewrite Hpl1, Hpl. cbn [mbind option_bind]. rewrite Hh. cbn [mbind option_bind]. by rewrite Ht.
Qed.

(** ** Packets from the local stack *)

(** The packet as the client sees it: it comes from the address the client asked for. *)
Definition from_local (w : Addresses) (e : TcpNatEntry) (mapped dst : Z) : Addresses :=
  mkAddrs (a_version w) (a_next w) mapped dst (sa_port (real_dst e)) (sa_port (flow_src (flow e))) (a_syn w) (a_ack w).

(** The address under which the engine looks for the sender of a packet of the local stack. *)
Definition nic_key (ctx : TcpProxyNicContext) (inet : LocalInet) (w : Addresses) : SocketAddr :=
  mkSocketAddr (IpV4 (if negb (nc_smoltcp_enabled ctx) && (a_dst w =? inet_first inet) then inet_address inet else a_dst w))
    (a_dport w).

(** The destination that a reply gets. *)
Definition nic_dst (ctx : TcpProxyNicContext) (inet : LocalInet) (w : Addresses) : Z :=
  if negb (nc_smoltcp_enabled ctx) && (a_dst w =? inet_first inet) then inet_address inet else a_dst w.

Definition nic_header (ctx : TcpProxyNicContext) (need_transform_dst : bool) (h : PeerManagerHeader.t) : PeerManagerHeader.t :=
  let h := PeerManagerHeader.set_no_proxy h true in
  if need_transform_dst
  then PeerManagerHeader.mk (PeerManagerHeader.from_peer_id h) (nc_my_peer_id ctx)
         (PeerManagerHeader.packet_type h) (PeerManagerHeader.flags h)
         (PeerManagerHeader.forward_counter h) (PeerManagerHeader.reserved h)
         (PeerManagerHeader.hdr_len h)
  else h.

Lemma nic_header_ok ctx b h :
  PeerManagerHeader.wf h → is_uint 32 (nc_my_peer_id ctx) →
  PeerManagerHeader.wf (nic_header ctx b h) ∧ PeerManagerHeader.is_no_proxy (nic_header ctx b h) = true.
Proof.
  intros Hh Hp. destruct (PacketFacts.set_no_proxy_ok h Hh) as [(P1 & P2 & P3 & P4 & P5 & P6 & P7) Hn].
  destruct b; (split; [|exact Hn]); by split_and!.
Qed.

Lemma nic_spec eng q ctx inet ql w id e :
  engine_wf eng → ZCPacket.wf q → ZCPacket.payload q = Some ql → addresses ql = Some w →
  nc_local_inet ctx = Some inet → a_version w = 4 → a_next w = IP_PROTO_TCP → a_src w = inet_address inet →
  a_sport w = nc_local_port ctx →
  translated_src_map eng !! mkSocketAddr (IpV4 (nic_dst ctx inet w)) (a_dport w) = Some id → store eng !! id = Some e →
  ∃ q' ql' mapped, try_process_packet_from_nic eng q ctx = Some (q', true) ∧ ZCPacket.wf q' ∧
    sa_ip (flow_mapped_dst (flow e)) = IpV4 mapped ∧ ZCPacket.payload q' = Some ql' ∧ checksums_ok ql' ∧
    addresses ql' = Some (from_local w e mapped (nic_dst ctx inet w)) ∧
    ∀ hdr, ZCPacket.peer_manager_header q = Some hdr → PeerManagerHeader.wf hdr → is_uint 32 (nc_my_peer_id ctx) →
      ∃ hdr', ZCPacket.peer_manager_header q' = Some hdr' ∧ PeerManagerHeader.is_no_proxy hdr' = true.
Proof.
  intros Hwf Hq Hql Hw Einet E4 E6 Esrc Esp Hid He. unfold try_process_packet_from_nic. rewrite Einet. cbn zeta. rewrite Hql.
  cbn [mbind option_bind]. apply addresses_spec in Hw as Hs. destruct Hs as (h & t & Eh & Et & Ew).
  rewrite Ew in E4, E6, Esrc, Esp, Hid. unfold nic_dst in Hid |- *. cbn [a_version a_next a_src a_sport a_dport a_dst] in *.
  rewrite Eh, E4, E6, Esrc, Et, Esp, !Z.eqb_refl. cbn [negb orb]. unfold fake_local_ipv4. rewrite Hid, He. cbn [mbind option_bind].
  destruct (w_src _ Hwf _ _ Hid) as (e' & He' & Ht & _). rewrite He in He'. injection He' as <-.
  rewrite bool_decide_true by done. cbn [negb].
  destruct (w_entry _ Hwf _ _ He) as (_ & _ & mapped & Em). rewrite Em.
  set (need := negb (nc_smoltcp_enabled ctx) && (ip_dst h =? inet_first inet)).
  destruct (PacketFacts.update_header_ok q (nic_header ctx need) Hq) as (q1 & hdr & Ehdr & E1 & Hq1 & Hpl1 & Hh1).
  unfold nic_header in E1. rewrite E1. cbn [mbind option_bind].
  destruct (rewrite_from_local_spec ql w mapped (if need then Some (inet_address inet) else None) (sa_port (real_dst e))
    (sa_port (flow_src (flow e))) Hw) as (Ha & Hl & Hc).
  unfold set_payload. destruct (PacketFacts.set_payload_ok q1 ql _ Hq1 (eq_trans Hpl1 Hql) Hl) as (q2 & -> & Hq2 & Hpl2 & Hh2). cbn [mbind option_bind].
  eexists _, _, mapped. split_and!; [done..| |].
  - rewrite Ha, Ew. unfold from_local. cbn [a_dst a_version a_next a_syn a_ack]. fold need. by destruct need.
  - intros hdr0 E0 Hw0 Hid0. rewrite Ehdr in E0. injection E0 as <-. rewrite Hh2.
    destruct (nic_header_ok ctx need hdr Hw0 Hid0) as [Hw1 Hn]. rewrite Hh1 by done. eauto.
Qed.

Lemma nic_total eng q ctx :
  engine_wf eng → ZCPacket.wf q → is_Some (try_process_packet_from_nic eng q ctx).
Proof.
  intros Hwf Hq. destruct (PacketFacts.pm_split q Hq) as (_ & _ & ql & _ & _ & _ & Hql).
  unfold try_process_packet_from_nic. destruct (nc_local_inet ctx) as [inet|] eqn:Einet; [|eauto]. cbn zeta. rewrite Hql.
  cbn [mbind option_bind]. destruct (ipv4 ql) as [h|] eqn:Eh; [|eauto].
  destruct (_ || _) eqn:Ec; [eauto|]. destruct (tcp (ip_payload h)) as [t|] eqn:Et; [|eauto].
  destruct (negb (tcp_src_port t =? nc_local_port ctx)) eqn:Ep; [eauto|]. destruct (translated_src_map eng !! _) as [id|] eqn:Ei; [|eauto].
  destruct (w_src _ Hwf _ _ Ei) as (e & He & Hsrc & _).
  apply orb_false_iff in Ec as [[E4 E6]%orb_false_iff E7].
  apply negb_false_iff, Z.eqb_eq in E4, E6, E7, Ep.
  set (w := mkAddrs (ip_version h) (ip_next_header h) (ip_src h) (ip_dst h) (tcp_src_port t) (tcp_dst_port t) (tcp_syn t) (tcp_ack t)).
  assert (Hw : addresses ql = Some w) by (apply addresses_spec; by exists h, t).
  destruct (nic_spec eng q ctx inet ql w id e) as (q' & _ & _ & Hr & _); try done.
  revert Hr. unfold try_process_packet_from_nic. rewrite Einet. cbn zeta. rewrite Hql. cbn [mbind option_bind].
  rewrite Eh, Et. rewrite E4, E6, E7, Ep, !Z.eqb_refl. cbn [negb orb]. rewrite Ei. intros ->. eauto.
Qed.

(** ** Calls in sequence *)

(** What a packet with a TCP header and the code around the engine guarantee: packets have
    room for their headers, uuids are fresh, and a connection's task changes the state of an
    accepted entry only, never back to waiting. *)
Definition event_ok eng (ev : TcpEvent C) : Prop :=
  match ev with
  | EvPeer _ _ p _ id _ _ => store eng !! id = None ∧ ZCPacket.wf p ∧
      ∀ pl, ZCPacket.payload p = Some pl → tcp_well_formed pl
  | EvNic p _ => ZCPacket.wf p
  | EvState id s => s ≠ SynReceived ∧ state_of eng id ≠ Some SynReceived
  | _ => True
  end.

Fixpoint events_ok eng (evs : list (TcpEvent C)) : Prop :=
  match evs with
  | [] => True
  | ev :: evs => event_ok eng ev ∧ ∀ eng', tcp_step eng ev = Some eng' → events_ok eng' evs
  end.

(** Entries are never lost and keep what identifies them. *)
Definition later eng eng' : Prop :=
  ∀ i e, store eng !! i = Some e → ∃ e', store eng' !! i = Some e' ∧ same_entry e e'.

#[export] Instance later_preorder : PreOrder later.
Proof.
  split.
  - intros eng i e He. exists e. by split.
  - intros x y z Hxy Hyz i e He. destruct (Hxy i e He) as (e1 & He1 & A1 & A2 & A3).
    destruct (Hyz i e1 He1) as (e2 & He2 & B1 & B2 & B3). exists e2. split; [done|]. repeat split; congruence.
Qed.

Lemma set_state_later eng id s : later eng (set_state eng id s).
Proof.
  intros i e He. pose proof (set_state_lookup eng id s i) as Hl. rewrite He in Hl. eexists. split; [exact Hl|].
  by case_bool_decide.
Qed.

Lemma same_store_later eng eng' : store eng' = store eng → later eng eng'.
Proof. intros E i e He. exists e. by rewrite E. Qed.

Lemma remove_indices_store eng id : store (remove_indices eng id) = store eng.
Proof.
  unfold remove_indices. destruct (store eng !! id); [|done]. unfold remove_translated, remove_flow.
  by repeat case_bool_decide.
Qed.

Lemma accept_later eng addr inet eng' r : accept_connection eng addr inet = Some (eng', r) → later eng eng'.
Proof.
  unfold accept_connection. cbn zeta. destruct (translated_src_map eng !! _) as [id|]; [|by intros [= <- _]].
  destruct (state_of eng id) as [[]|]; try by intros [= <- _].
  - case_bool_decide; [done|]. intros [= <- _]. exact (set_state_later eng id ConnectingDst).
  - intros [= <- _]. apply same_store_later, remove_indices_store.
Qed.

Lemma expire_later eng f id : later eng (expire_entry eng f id).
Proof.
  transitivity (set_state eng id Closed); [apply set_state_later|]. apply same_store_later. unfold expire_entry.
  destruct (store (set_state eng id Closed) !! id); [|done]. unfold remove_translated. by case_bool_decide.
Qed.

Lemma foldl_later {A} (f : TcpProxyEngine → A → TcpProxyEngine) l eng :
  (∀ eng x, later eng (f eng x)) → later eng (foldl f eng l).
Proof.
  intros Hf. revert eng. induction l as [|x l IH]; intros eng; cbn; [reflexivity|]. etransitivity; [apply Hf|apply IH].
Qed.

Lemma step_ok eng ev :
  engine_wf eng → event_ok eng ev → ∃ eng', tcp_step eng ev = Some eng' ∧ engine_wf eng' ∧ later eng eng'.
Proof.
  intros Hwf Hok. destruct ev as [table mode p ctx id now unix|p ctx|addr inet|id s|id| |timeout now|port]; cbn in *.
  - destruct Hok as (Hid & Hp & Htcp). destruct (PacketFacts.pm_split p Hp) as (_ & _ & pl & _ & _ & _ & Hpl).
    destruct (handle_total eng table mode p ctx id now unix pl Hwf Hid Hp Hpl (Htcp pl Hpl))
      as (eng' & p' & act & -> & Hwf' & Hst & _).
    exists eng'. split_and!; [done..|]. intros i e He. exists e. split; [auto|by repeat split].
  - destruct (nic_total eng p ctx Hwf Hok) as [r ->]. exists eng. split_and!; [done..|reflexivity].
  - destruct (accept_connection_wf eng addr inet Hwf) as (eng' & r & E & Hwf' & _). rewrite E. exists eng'. split_and!; [done..|].
    by eapply accept_later.
  - destruct Hok. eexists. split_and!; [done|by apply set_state_wf|apply set_state_later].
  - eexists. split_and!; [done|by apply remove_entry_wf|]. apply same_store_later. unfold remove_entry.
    case_bool_decide; [|done]. by rewrite remove_indices_store.
  - eexists. split_and!; [done|by apply clear_wf|]. unfold clear_engine. cbn zeta. etransitivity;
      [apply (foldl_later (λ eng id, set_state eng id Closed)); intros; apply set_state_later|by apply same_store_later].
  - eexists. split_and!; [done|by apply cleanup_wf|]. apply foldl_later. intros eng' fi.
    destruct (expires eng' timeout now fi.2); [apply expire_later|reflexivity].
  - eexists. split_and!; [done| |by apply same_store_later]. by destruct Hwf.
Qed.

Lemma tcp_run_ok evs eng :
  engine_wf eng → events_ok eng evs → ∃ eng', tcp_run eng evs = Some eng' ∧ engine_wf eng' ∧ later eng eng'.
Proof.
  revert eng. induction evs as [|ev evs IH]; intros eng Hwf Hok; cbn in *; [exists eng; split_and!; [done..|reflexivity]|].
  destruct Hok as [Hev Hok]. destruct (step_ok eng ev Hwf Hev) as (eng1 & E1 & Hwf1 & Hl1). rewrite E1. cbn.
  destruct (IH eng1 Hwf1 (Hok eng1 E1)) as (eng2 & E2 & Hwf2 & Hl2). exists eng2. split_and!; [done..|by etransitivity].
Qed.

(** The engine does not panic: whatever packets come from peers and the local stack,
    with whatever connections accepted, closed and cleaned up between them, no [expect],
    [assert] or [panic] of the engine is reached as long as packets that say they carry TCP
    do; and the table stays in order. *)
Theorem tcp_engine_safe evs :
  events_ok new_engine evs → ∃ eng, tcp_run new_engine evs = Some eng ∧ engine_wf eng.
Proof.
  intros Hok. destruct (tcp_run_ok evs new_engine new_engine_wf Hok) as (eng & E & Hwf & _). eauto.
Qed.

(** The packet [w] answers [v]. *)
Definition answers (v w : Addresses) : Prop :=
  a_version w = a_version v ∧ a_next w = a_next v ∧ a_src w = a_dst v ∧ a_dst w = a_src v ∧
  a_sport w = a_dport v ∧ a_dport w = a_sport v.

(** C12: translation is undone on the way back: take a packet of a client that the engine
    has rewritten for the local stack, and a packet of the stack that answers the rewritten
    one, any number of other calls later.  As long as the flow has its entry, the answer is
    rewritten into an answer to the packet of the client: it comes from the address and
    port that the client asked for, its checksums are right and it is marked not to be
    proxied again. *)
Theorem nat_roundtrip eng table mode p ctx id now unix pl v eng' p' new pl' v' evs eng2 q ql w nctx hdr :
  engine_wf eng → store eng !! id = None → ZCPacket.wf p → ZCPacket.payload p = Some pl → addresses pl = Some v →
  try_handle_peer_packet eng table mode p ctx id now unix = Some (eng', p', Handled new) →
  ZCPacket.payload p' = Some pl' → addresses pl' = Some v' →
  events_ok eng' evs → tcp_run eng' evs = Some eng2 → flow_map eng2 !! flow_of v = flow_map eng' !! flow_of v →
  nc_local_inet nctx = pc_local_inet ctx → nc_local_port nctx = pc_local_port ctx →
  nc_smoltcp_enabled nctx = pc_smoltcp_enabled ctx → is_uint 32 (nc_my_peer_id nctx) →
  (∀ inet, pc_local_inet ctx = Some inet → a_src v ≠ inet_first inet) →
  ZCPacket.wf q → ZCPacket.peer_manager_header q = Some hdr → PeerManagerHeader.wf hdr →
  ZCPacket.payload q = Some ql → addresses ql = Some w → answers v' w →
  ∃ q' hdr' ql' w', try_process_packet_from_nic eng2 q nctx = Some (q', true) ∧
    ZCPacket.peer_manager_header q' = Some hdr' ∧ PeerManagerHeader.is_no_proxy hdr' = true ∧
    ZCPacket.payload q' = Some ql' ∧ checksums_ok ql' ∧ addresses ql' = Some w' ∧ answers v w'.
Proof.
  intros Hwf Hid Hp Hpl Hv Hh Hpl' Hv' Hok Hrun Hkeep Einet Eport Esmol Hmy Hfirst Hq Hhdr Hhwf Hql Hw Hans.
  assert (Htcp : tcp_well_formed pl).
  { intros h Eh _. apply addresses_spec in Hv as (h' & t & Eh' & Et & _). rewrite Eh in Eh'. injection Eh' as <-. eauto. }
  destruct (handle_total eng table mode p ctx id now unix pl Hwf Hid Hp Hpl Htcp) as (eng0 & p0 & act & E & Hwf' & _ & Hres).
  rewrite Hh in E. injection E as <- <- <-.
  destruct (Hres new eq_refl) as (inet & v0 & Ei & Hv0 & E4 & E6 & Ho). rewrite Hv in Hv0. injection Hv0 as <-.
  destruct Ho as (_ & _ & found & e & x & Hf & He & _ & Hx & Hax & _).
  rewrite Hpl' in Hx. injection Hx as <-. rewrite Hv' in Hax. injection Hax as ->.
  destruct (tcp_run_ok evs eng' Hwf' Hok) as (y & Ey & Hwf2 & Hlater). rewrite Hrun in Ey. injection Ey as <-.
  destruct (Hlater found e He) as (e2 & He2 & S1 & S2 & S3).
  destruct (w_flow _ Hwf' _ _ Hf) as (e' & He' & Hfl & _). rewrite He in He'. injection He' as <-.
  rewrite Hf in Hkeep. destruct (w_flow _ Hwf2 _ _ Hkeep) as (e'' & He'' & _ & Ht2). rewrite He2 in He''. injection He'' as <-.
  destruct (w_entry _ Hwf2 _ _ He2) as (Hip & Hport & _).
  destruct Hans as (A1 & A2 & A3 & A4 & A5 & A6). unfold to_local in A1, A2, A3, A4, A5, A6.
  cbn [a_version a_next a_src a_dst a_sport a_dport] in *.
  assert (Hnd : nic_dst nctx inet w = a_src v).
  { unfold nic_dst. rewrite Esmol, A4. destruct (pc_smoltcp_enabled ctx); cbn [negb andb]; [done|].
    destruct (Z.eqb_spec (a_src v) (inet_address inet)) as [->|]; [by rewrite Z.eqb_refl|].
    destruct (Z.eqb_spec (a_src v) (inet_first inet)) as [E|]; [|done]. destruct (Hfirst inet Ei E). }
  rewrite S1, Hfl in Hip, Hport. cbn [flow_of flow_src flow_mapped_dst sa_ip sa_port] in Hip, Hport.
  destruct (nic_spec eng2 q nctx inet ql w found e2) as (q' & ql' & mapped & Hr & _ & Hm & Hql' & Hc & Ha & Hn);
    [done..|congruence|congruence|congruence|congruence|congruence| |done|].
  { rewrite Hnd, A6, <- S2, <- Hip. rewrite <- Ht2. by destruct (translated_src e2). }
  destruct (Hn hdr Hhdr Hhwf Hmy) as (hdr' & Hhdr' & Hnp).
  exists q', hdr', ql'. eexists. split_and!; [done..|]. rewrite S1, Hfl in Hm. cbn in Hm. injection Hm as <-.
  unfold answers, from_local. cbn [a_version a_next a_src a_dst a_sport a_dport]. rewrite Hnd, Hport, S1, Hfl. by split_and!.
Qed.

End Translation.

(** ** Witnesses *)

(** Packets as a list of fields: version, protocol, the addresses, the sum of the IP header,
    and the TCP header: ports, flags and the sum of ports and addresses. *)
Module Fields.

Definition ipv4 (l : list Z) : option Ipv4Hdr :=
  match l with v :: n :: s :: d :: _ :: rest => Some (mkIpv4 v n s d rest) | _ => None end.
Definition tcp (l : list Z) : option TcpHdr :=
  match l with sp :: dp :: sy :: ac :: _ :: _ => Some (mkTcp sp dp (0 <? sy) (0 <? ac)) | _ => None end.
Definition set_src_addr (a : Z) (l : list Z) : list Z :=
  match l with v :: n :: _ :: rest => v :: n :: a :: rest | _ => l end.
Definition set_dst_addr (a : Z) (l : list Z) : list Z :=
  match l with v :: n :: s :: _ :: rest => v :: n :: s :: a :: rest | _ => l end.
Definition set_ports (sp dp : Z) (l : list Z) : list Z :=
  match l with v :: n :: s :: d :: c :: _ :: _ :: rest => v :: n :: s :: d :: c :: sp :: dp :: rest | _ => l end.
Definition fill_tcp_checksum (s d : Z) (l : list Z) : list Z :=
  match l with
  | v :: n :: s0 :: d0 :: c :: sp :: dp :: sy :: ac :: _ :: rest =>
      v :: n :: s0 :: d0 :: c :: sp :: dp :: sy :: ac :: (s + d + sp + dp) :: rest
  | _ => l
  end.
Definition fill_ipv4_checksum (l : list Z) : list Z :=
  match l with v :: n :: s :: d :: _ :: rest => v :: n :: s :: d :: (v + n + s + d) :: rest | _ => l end.
Definition checksums_ok (l : list Z) : Prop :=
  match l with
  | v :: n :: s :: d :: c :: sp :: dp :: _ :: _ :: c' :: _ => c = v + n + s + d ∧ c' = s + d + sp + dp
  | _ => False
  end.

#[export] Instance wire : TcpWire :=
  Build_TcpWire ipv4 tcp set_src_addr set_dst_addr set_ports fill_tcp_checksum fill_ipv4_checksum checksums_ok.

#[export] Instance wire_laws : TcpWireLaws.
Proof.
  split; intros *; unfold addresses, headers, len; cbn;
    unfold ipv4, tcp, set_src_addr, set_dst_addr, set_ports, fill_tcp_checksum, fill_ipv4_checksum, checksums_ok;
    (do 10 (destruct l as [|? l]; [by cbn; intros; simplify_eq/=|])); cbn; intros; by simplify_eq/=.
Qed.

End Fields.

Module Demo.
Import Fields.

(** This node is 10.0.0.2; a client at 10.0.0.9 asks for 10.10.10.42, which is 192.168.1.42. *)
Definition inet : LocalInet := mkInet 167772162 167772160.
Definition peer_ctx : TcpProxyPeerContext := mkPeerContext (Some inet) (Some 167772162) 8899 false false false.
Definition nic_ctx : TcpProxyNicContext := mkNicContext (Some inet) 8899 7 false.
Definition table : list (ProxyCidrEntry PairCidr) := from_snapshot demo_rules.

Definition packet (pl : list Z) : ZCPacket.t :=
  ZCPacket.mk (replicate (Z.to_nat (ZCPacket.payload_offset (ZCPacket.mk [] NIC None)) - 16) 0 ++
    PeerManagerHeader.to_bytes (PeerManagerHeader.mk 3 7 (packet_type_u8 Data) 0 1 0 0) ++ pl) NIC None.

Definition syn : list Z := [4; 6; 167772169; 168430122; 0; 40000; 80; 1; 0; 0].
Definition syn_ack : list Z := [4; 6; 167772162; 167772169; 0; 8899; 1; 1; 1; 0].

Definition run_syn := try_handle_peer_packet new_engine table ModeTcp (packet syn) peer_ctx 100 0 0.
Definition after_syn : TcpProxyEngine := from_option (λ r, r.1.1) new_engine run_syn.

Lemma demo_packet_wf pl : ZCPacket.wf (packet pl).
Proof.
  unfold ZCPacket.wf, packet. cbn [ZCPacket.inner]. rewrite len_app, len_app.
  pose proof (len_nonneg pl). vm_compute (ZCPacket.payload_offset _). vm_compute (len (replicate _ _)).
  vm_compute (len (PeerManagerHeader.to_bytes _)). lia.
Qed.

Lemma demo_payload pl : ZCPacket.payload (packet pl) = Some pl.
Proof. unfold packet. by eapply PacketFacts.buffer_views. Qed.

Lemma demo_header pl :
  ZCPacket.peer_manager_header (packet pl) = Some (PeerManagerHeader.mk 3 7 (packet_type_u8 Data) 0 1 0 0).
Proof.
  edestruct (PacketFacts.buffer_views (packet pl)) as (_ & _ & ->); [reflexivity|done..|].
  by apply PacketFacts.pm_header_roundtrip.
Qed.

Lemma demo_tcp_ok pl : is_Some (addresses pl) → tcp_well_formed pl.
Proof.
  intros [v Hv] h Eh _. apply addresses_spec in Hv as (h' & t & Eh' & Et & _). rewrite Eh in Eh'. injection Eh' as <-. eauto.
Qed.

Lemma events_ok_cons eng (ev : TcpEvent PairCidr) eng1 evs :
  event_ok eng ev → tcp_step eng ev = Some eng1 → events_ok eng1 evs → events_ok eng (ev :: evs).
Proof. intros Hev Hs Hok. split; [done|]. intros eng' E. rewrite Hs in E. by injection E as <-. Qed.

Lemma demo_syn_ok eng id now unix :
  store eng !! id = None → event_ok eng (EvPeer table ModeTcp (packet syn) peer_ctx id now unix).
Proof.
  intros Hid. split; [done|]. split; [apply demo_packet_wf|]. intros pl. rewrite demo_payload. intros [= <-].
  apply demo_tcp_ok. by eexists.
Qed.

Lemma ports_exhausted_iff_witness :
  engine_wf new_engine ∧
  (allocate_entry new_engine (mkFlow (mkSocketAddr (IpV4 1) 2) (mkSocketAddr (IpV4 3) 4)) (mkSocketAddr (IpV4 3) 4) 9 0 0).2 ≠ None.
Proof.
  split; [exact new_engine_wf|]. intros H.
  destruct (proj1 (ports_exhausted_iff new_engine _ _ _ _ _ new_engine_wf) H 1 ltac:(done)) as [|[x Hx]]; done.
Defined.

Lemma flows_kept_apart_witness :
  let dst := mkSocketAddr (IpV4 3232235818) 80 in
  let f1 := mkFlow (mkSocketAddr (IpV4 167772169) 40000) (mkSocketAddr (IpV4 168430122) 80) in
  let f2 := mkFlow (mkSocketAddr (IpV4 167772169) 40000) dst in
  let eng := (entry_for_syn (entry_for_syn new_engine f1 dst 100 0 0).1 f2 dst 101 0 0).1 in
  ∃ e1 e2, store eng !! 100 = Some e1 ∧ store eng !! 101 = Some e2 ∧ translated_src e1 ≠ translated_src e2.
Proof.
  intros dst f1 f2 eng.
  assert (Hwf1 : engine_wf (entry_for_syn new_engine f1 dst 100 0 0).1).
  { apply (entry_for_syn_spec new_engine f1 dst 100 0 0 new_engine_wf); [split; [done|by eexists]|done]. }
  assert (Hwf : engine_wf eng).
  { apply (entry_for_syn_spec _ f2 dst 101 0 0 Hwf1); [split; [done|by eexists]|by vm_compute]. }
  eexists _, _. split; [vm_compute; reflexivity|]. split; [vm_compute; reflexivity|].
  refine (proj1 (flows_kept_apart eng f1 f2 100 101 _ _ Hwf _ _ _ _ _)); [by vm_compute..|done|by vm_compute|by vm_compute].
Defined.

(** A connection from its first packet to its end. *)
Definition demo_life : list (TcpEvent PairCidr) :=
  [EvPort 8899; EvPeer table ModeTcp (packet syn) peer_ctx 100 0 0; EvNic (packet syn_ack) nic_ctx;
   EvAccept (mkSocketAddr (IpV4 167772169) 1) (Some inet); EvState 100 ClosingSrc; EvRemove 100].

Lemma tcp_engine_safe_witness : ∃ eng, tcp_run new_engine demo_life = Some eng ∧ engine_wf eng.
Proof.
  apply (tcp_engine_safe demo_life). unfold demo_life.
  eapply events_ok_cons; [exact I|vm_compute; reflexivity|].
  eapply events_ok_cons; [by apply demo_syn_ok|vm_compute; reflexivity|].
  eapply events_ok_cons; [apply demo_packet_wf|vm_compute; reflexivity|].
  eapply events_ok_cons; [exact I|vm_compute; reflexivity|].
  eapply events_ok_cons; [split; [done|by vm_compute]|vm_compute; reflexivity|].
  eapply events_ok_cons; [exact I|vm_compute; reflexivity|exact I].
Defined.

Lemma nat_roundtrip_witness :
  ∃ q' ql' w', try_process_packet_from_nic after_syn (packet syn_ack) nic_ctx = Some (q', true) ∧
    ZCPacket.payload q' = Some ql' ∧ addresses ql' = Some w' ∧ a_src w' = 168430122 ∧ a_sport w' = 80 ∧ a_dport w' = 40000.
Proof.
  set (v := mkAddrs 4 6 167772169 168430122 40000 80 true false).
  set (w := mkAddrs 4 6 167772162 167772169 8899 1 true true).
  destruct run_syn as [[[eng' p'] act]|] eqn:E; [|by vm_compute in E].
  assert (Eeng : after_syn = eng') by (unfold after_syn; by rewrite E).
  pose proof E as E0. vm_compute in E0. injection E0 as _ Ep Ea. subst act.
  destruct (nat_roundtrip new_engine table ModeTcp (packet syn) peer_ctx 100 0 0 syn v eng' p' true
    [4; 6; 167772169; 167772162; 335544341; 1; 8899; 1; 0; 335553231]
    (mkAddrs 4 6 167772169 167772162 1 8899 true false) [] eng' (packet syn_ack) syn_ack w nic_ctx
    (PeerManagerHeader.mk 3 7 (packet_type_u8 Data) 0 1 0 0)) as (q' & hdr' & ql' & w' & H1 & _ & _ & H2 & _ & H3 & H4);
    [exact new_engine_wf|reflexivity|apply demo_packet_wf|apply demo_payload|reflexivity|exact E|by rewrite <- Ep|reflexivity|
     exact I|reflexivity|reflexivity|reflexivity|reflexivity|reflexivity|done|by intros i [= <-]|apply demo_packet_wf|
     apply demo_header|done|apply demo_payload|reflexivity|done|].
  destruct H4 as (_ & _ & E1 & _ & E2 & E3). exists q', ql', w'. rewrite Eeng. by split_and!.
Defined.

(** The tail of a fragmented packet has no TCP header: the node that proxies the network
    stops at the [expect]. *)
Example tcp_tail_panics :
  try_handle_peer_packet new_engine table ModeTcp (packet [4; 6; 167772169; 168430122; 0; 1; 2; 3]) peer_ctx 100 0 0 = None.
Proof. vm_compute. reflexivity. Qed.

End Demo.
