(* ===== verification/ProxyReply.v ===== *)
(** * Replies of the UDP and ICMP proxies

    What easytier-core/src/gateway/proxy/udp_proxy_engine.rs and icmp_proxy_engine.rs share:
    reading a request from a peer's packet and cutting a reply into IPv4 packets for the peer,
    with the callback that both hand to [compose_ipv4_packet].  The classes [CheckedIpv4],
    [UdpWire] and [IcmpWire] are the packet views of smoltcp, with the law that a view of what
    a setter wrote gives it back. *)

From stdpp Require Import base gmap list numbers sets.
From Stdlib Require Import ZArith Lia.
From S2P Require Import Prelude Packet IpReassembler.
Local Open Scope Z_scope.

(** ** Packet views of smoltcp *)

(** [Ipv4Packet::new_checked] succeeds on [checked] bytes. *)
Class CheckedIpv4 `{!Ipv4Wire} := {
  checked : list Z → bool;
  version : list Z → Z;
  next_header : list Z → Z
}.

Class CheckedIpv4Laws `{CheckedIpv4} : Prop := {
  written_checked f payload :
    fields_fit f → f_total_len f = IPV4_HEADER_LEN + len payload →
    checked (write_header f ++ payload) = true ∧ version (write_header f ++ payload) = 4 ∧
    next_header (write_header f ++ payload) = f_next_header f
}.

Definition UDP_HEADER_LEN : Z := 8.

Record UdpHdr : Type := mkUdp { udp_src_port : Z; udp_dst_port : Z; udp_body : list Z }.

(** [udp] is [UdpPacket::new_checked] with the accessors; [write_udp] sets the ports, the
    length, the payload and the checksum for the two addresses. *)
Class UdpWire := {
  udp : list Z → option UdpHdr;
  write_udp : Z → Z → list Z → Z → Z → list Z;
  write_udp_len sp dp body src dst : len (write_udp sp dp body src dst) = UDP_HEADER_LEN + len body;
  udp_written sp dp body src dst :
    is_uint 16 sp → is_uint 16 dp → UDP_HEADER_LEN + len body < 2 ^ 16 →
    udp (write_udp sp dp body src dst) = Some (mkUdp sp dp body)
}.

Definition ICMP_ECHO_HEADER_LEN : Z := 8.
Definition ECHO_REPLY : Z := 0.
Definition ECHO_REQUEST : Z := 8.

(** The fields of an echo message of at least eight bytes. *)
Class IcmpWire := {
  msg_type : list Z → Z;
  echo_ident : list Z → Z;
  echo_seq_no : list Z → Z;
  echo_data : list Z → list Z;
  write_echo_reply : Z → Z → list Z → list Z;
  echo_data_len l : ICMP_ECHO_HEADER_LEN <= len l → len (echo_data l) = len l - ICMP_ECHO_HEADER_LEN;
  write_echo_len i s d : len (write_echo_reply i s d) = ICMP_ECHO_HEADER_LEN + len d;
  echo_written i s d : is_uint 16 i → is_uint 16 s →
    msg_type (write_echo_reply i s d) = ECHO_REPLY ∧ echo_ident (write_echo_reply i s d) = i ∧
    echo_seq_no (write_echo_reply i s d) = s ∧ echo_data (write_echo_reply i s d) = d
}.

(** ** Replies *)

Section Replies.

Context `{!Ipv4Wire}.

(** The packet for the peer around one IPv4 packet; [uninit] is the content of fresh memory. *)
Definition reply_packet (uninit : list Z) (from_id to_id : Z) (no_proxy : bool) (buf : list Z) : option ZCPacket.t :=
  p ← ZCPacket.new_with_payload uninit buf;
  p ← ZCPacket.fill_peer_manager_hdr p from_id to_id (packet_type_u8 Data);
  if no_proxy then ZCPacket.update_peer_manager_header p (λ h, PeerManagerHeader.set_no_proxy h true) else Some p.

(** The callback: [None] once it has panicked. *)
Definition push_reply (uninit : list Z) (from_id to_id : Z) (no_proxy : bool)
    (st : option (list ZCPacket.t)) (buf : list Z) : option (list ZCPacket.t) * result unit unit :=
  (packets ← st; p ← reply_packet uninit from_id to_id no_proxy buf; Some (packets ++ [p]), Ok tt).

Definition compose_replies (uninit : list Z) (from_id to_id : Z) (no_proxy : bool)
    (args : ComposeIpv4PacketArgs) (buf : list Z) : option (list ZCPacket.t * result unit unit) :=
  r ← compose_ipv4_packet (push_reply uninit from_id to_id no_proxy) args buf (Some []);
  packets ← r.1; Some (packets, r.2).

(** * Properties *)

Lemma reply_packet_ok uninit from_id to_id no_proxy buf :
  is_uint 32 from_id → is_uint 32 to_id →
  ∃ z hdr, reply_packet uninit from_id to_id no_proxy buf = Some z ∧ ZCPacket.wf z ∧ ZCPacket.payload z = Some buf ∧
    ZCPacket.peer_manager_header z = Some hdr ∧ PeerManagerHeader.from_peer_id hdr = from_id ∧
    PeerManagerHeader.to_peer_id hdr = to_id ∧ PeerManagerHeader.packet_type hdr = packet_type_u8 Data ∧
    PeerManagerHeader.is_no_proxy hdr = no_proxy.
Proof.
  intros Hf Ht. unfold reply_packet.
  destruct (PacketFacts.new_with_payload_layout uninit buf) as (a & b & Ha & Hb & ->). cbn [mbind option_bind].
  rewrite (PacketFacts.fill_pm_header_spec _ _ _ _ a b buf) by done. cbn [mbind option_bind].
  set (hdr := PeerManagerHeader.mk _ _ _ _ _ _ _). set (z := ZCPacket.with_inner _ _).
  assert (Hh : PeerManagerHeader.wf hdr).
  { refine (conj Hf (conj Ht (conj _ (conj _ (conj _ (conj _ _)))))); [by split..|]. apply Z.mod_pos_bound. lia. }
  destruct (PacketFacts.buffer_views z a (PeerManagerHeader.to_bytes hdr) buf) as (Hw & Hp & Hv);
    [done|done|apply PacketFacts.pm_header_len|]. rewrite PacketFacts.pm_header_roundtrip in Hv by done.
  destruct no_proxy; [|by exists z, hdr].
  destruct (PacketFacts.update_header_ok z (λ h, PeerManagerHeader.set_no_proxy h true) Hw)
    as (z' & hdr' & E & -> & Hw' & Hp' & Hh'). rewrite Hv in E. injection E as <-.
  destruct (PacketFacts.set_no_proxy_ok hdr Hh) as [Hn1 Hn2].
  exists z', (PeerManagerHeader.set_no_proxy hdr true). rewrite Hp', Hh' by done. by split_and!.
Qed.

(** A packet of a reply. *)
Definition is_reply (from_id to_id : Z) (no_proxy : bool) (buf : list Z) (z : ZCPacket.t) : Prop :=
  ZCPacket.wf z ∧ ZCPacket.payload z = Some buf ∧
  ∃ hdr, ZCPacket.peer_manager_header z = Some hdr ∧ PeerManagerHeader.from_peer_id hdr = from_id ∧
    PeerManagerHeader.to_peer_id hdr = to_id ∧ PeerManagerHeader.packet_type hdr = packet_type_u8 Data ∧
    PeerManagerHeader.is_no_proxy hdr = no_proxy.

Lemma push_replies uninit from_id to_id no_proxy ps zs0 :
  is_uint 32 from_id → is_uint 32 to_id →
  ∃ zs, hand_over (push_reply uninit from_id to_id no_proxy) (Some zs0) ps = (Some (zs0 ++ zs), Ok tt) ∧
    Forall2 (is_reply from_id to_id no_proxy) ps zs.
Proof.
  intros Hf Ht. revert zs0. induction ps as [|p ps IH]; intros zs0; cbn; [exists []; by rewrite app_nil_r|].
  destruct (reply_packet_ok uninit from_id to_id no_proxy p Hf Ht) as (z & hdr & -> & Hw & Hp & Hrest). cbn.
  destruct (IH (zs0 ++ [z])) as (zs & -> & Hall). exists (z :: zs). rewrite <- app_assoc. split; [done|].
  constructor; [|done]. split; [done|]. split; [done|]. by exists hdr.
Qed.

Lemma compose_replies_ok uninit from_id to_id no_proxy args h payload tl :
  is_uint 32 from_id → is_uint 32 to_id →
  0 < payload_mtu args → len h = IPV4_HEADER_LEN → payload_len args = len payload →
  ∃ zs, compose_replies uninit from_id to_id no_proxy args (h ++ payload ++ tl) = Some (zs, Ok tt) ∧
    Forall2 (is_reply from_id to_id no_proxy) (piece_packets args 0 (all_pieces (payload_mtu args) payload)) zs.
Proof.
  intros Hf Ht Hm Hh Hp. unfold compose_replies. rewrite compose_in_place by done.
  destruct (push_replies uninit from_id to_id no_proxy (piece_packets args 0 (all_pieces (payload_mtu args) payload)) [] Hf Ht)
    as (zs & -> & Hall). by exists zs.
Qed.

(** The packets carry a datagram to a peer: each says where it comes from and goes to, and a
    host that gets them in any order, with repetitions, has the datagram exactly when the last
    missing one arrives. *)
Definition delivers `{!CheckedIpv4} (from_id to_id : Z) (no_proxy : bool) (src dst proto : Z) (datagram : list Z)
    (zs : list ZCPacket.t) : Prop :=
  ∃ ps id, Forall2 (is_reply from_id to_id no_proxy) ps zs ∧
    Forall (λ p, checked p = true ∧ version p = 4 ∧ next_header p = proto ∧ v_src (view p) = src ∧ v_dst (view p) = dst) ps ∧
    ps ≠ [] ∧
    ∀ r order l t, packets r !! mkKey src dst id = None →
      Forall (λ d, (d.1 < length ps)%nat) order → (l < length ps)%nat →
      l ∉ order.*1 → (∀ i, (i < length ps)%nat → i ≠ l → i ∈ order.*1) →
      receive r (deliver ps (order ++ [(l, t)])) = (r, replicate (length order) None ++ [Some datagram]).

Lemma replies_deliver `{!CheckedIpv4, !CheckedIpv4Laws} uninit from_id to_id no_proxy args h payload tl :
  is_uint 32 from_id → is_uint 32 to_id → args_fit args payload → len h = IPV4_HEADER_LEN →
  ∃ zs, compose_replies uninit from_id to_id no_proxy args (h ++ payload ++ tl) = Some (zs, Ok tt) ∧
    delivers from_id to_id no_proxy (src_v4 args) (dst_v4 args) (next_protocol args) payload zs.
Proof.
  intros Hf Ht Hfit Hh. destruct (Hfit) as (Hp & Hm & Hlen & H8 & Hid & Hs & Hd).
  destruct (compose_replies_ok uninit from_id to_id no_proxy args h payload tl Hf Ht Hm Hh Hp) as (zs & E & Hall).
  exists zs. split; [done|]. exists (piece_packets args 0 (all_pieces (payload_mtu args) payload)), (ip_id args).
  assert (Hne : payload ≠ []) by (intros ->; unfold len in Hlen; cbn in Hlen; lia).
  split_and!; [done| | |].
  - apply Forall_lookup. intros i p. rewrite piece_packets_lookup. cbn [Nat.add].
    destruct (all_pieces (payload_mtu args) payload !! i) as [f|] eqn:Ei; [|done]. intros [= <-].
    rewrite (view_piece (payload_mtu args) payload Hm ltac:(lia) args Hp eq_refl H8 Hid Hs Hd i f Ei).
    destruct (piece_fields_ok (payload_mtu args) payload Hm ltac:(lia) args Hp eq_refl H8 Hid Hs Hd i f Ei) as (Hfit' & Htl & _).
    destruct (written_checked _ (data f) Hfit' Htl) as (? & ? & ?). unfold piece_packet. by split_and!.
  - destruct (last_piece_exists (payload_mtu args) payload Hm Hne) as (f & [i Hi]%list_elem_of_lookup & _).
    intros E0. assert (Hl : piece_packets args 0 (all_pieces (payload_mtu args) payload) !! i = None) by by rewrite E0.
    rewrite piece_packets_lookup, Hi in Hl. done.
  - intros r order l t Hk Ho Hl Hn Hcov. by apply pieces_reassemble.
Qed.

End Replies.

(** ** Sample views *)

#[export] Instance sample_checked : CheckedIpv4 := {|
  checked l := IPV4_HEADER_LEN <=? len l;
  version l := nth 0 l 0 / 16;
  next_header l := nth 9 l 0
|}.

#[export] Instance sample_checked_laws : CheckedIpv4Laws.
Proof.
  split. intros f payload _ _. cbn [checked version next_header sample_checked]. split.
  - apply Z.leb_le. rewrite len_app, write_header_len. pose proof (len_nonneg payload). lia.
  - by split.
Qed.

(** Header without a checksum. *)
#[export] Program Instance sample_udp : UdpWire := {|
  udp l := if len l <? 8 then None else Some (mkUdp (from_be (take 2 l)) (from_be (take 2 (drop 2 l))) (drop 8 l));
  write_udp sp dp body _ _ := to_be 2 sp ++ to_be 2 dp ++ to_be 2 (8 + len body) ++ [0; 0] ++ body
|}.
Next Obligation. intros. cbn beta. unfold len, UDP_HEADER_LEN. rewrite !length_app, !length_to_be. cbn [length]. lia. Qed.
Next Obligation.
  intros sp dp body src dst Hs Hd _. cbn beta. clear src dst. destruct (to_be_2 sp Hs) as (a & b & -> & Ea), (to_be_2 dp Hd) as (c & d & -> & Ec).
  assert (Hl : ∀ x, ∃ e f, to_be 2 x = [e; f]) by (intros x; by eexists _, _).
  destruct (Hl (8 + len body)) as (e & f & ->). cbn [app]. rewrite (proj2 (Z.ltb_ge _ _)).
  - cbn [take drop firstn skipn]. by rewrite Ea, Ec.
  - unfold len. cbn [length]. lia.
Qed.

#[export] Program Instance sample_icmp : IcmpWire := {|
  msg_type l := nth 0 l 0;
  echo_ident l := from_be (take 2 (drop 4 l));
  echo_seq_no l := from_be (take 2 (drop 6 l));
  echo_data l := drop 8 l;
  write_echo_reply i s d := [0; 0; 0; 0] ++ to_be 2 i ++ to_be 2 s ++ d
|}.
Next Obligation. intros l Hl. unfold ICMP_ECHO_HEADER_LEN, len in *. rewrite length_drop. lia. Qed.
Next Obligation. intros. cbn beta. unfold len, ICMP_ECHO_HEADER_LEN. rewrite !length_app, !length_to_be. cbn [length]. lia. Qed.
Next Obligation.
  intros i s d Hi Hs. cbn beta. destruct (to_be_2 i Hi) as (a & b & -> & Ea), (to_be_2 s Hs) as (c & e & -> & Ec).
  split_and!; [done|exact Ea|exact Ec|done].
Qed.

(** A data packet from one peer to another around an IPv4 packet. *)
Definition sample_peer_packet (from_id to_id : Z) (buf : list Z) : ZCPacket.t :=
  match reply_packet [] from_id to_id false buf with Some z => z | None => ZCPacket.new_nic_packet end.

Lemma sample_peer_packet_ok from_id to_id buf :
  is_uint 32 from_id → is_uint 32 to_id → is_reply from_id to_id false buf (sample_peer_packet from_id to_id buf).
Proof.
  intros Hf Ht. unfold sample_peer_packet.
  destruct (reply_packet_ok [] from_id to_id false buf Hf Ht) as (z & hdr & -> & Hw & Hp & Hrest).
  split; [done|]. split; [done|]. by exists hdr.
Qed.

(** An unfragmented IPv4 packet. *)
Definition sample_ipv4 (src dst proto : Z) (payload : list Z) : list Z :=
  sample_header (mkFields (20 + len payload) 7 true false 0 src dst proto) ++ payload.
