(* ===== verification/UdpProxy.v ===== *)
(** * The UDP proxy

    Models easytier-core/src/gateway/proxy/udp_proxy_engine.rs: the table of flows from peers to
    hosts behind this node and back.  An [Arc<UdpNatEntry>] is shared by the table only, so its
    [Mutex] and [AtomicBool] are fields of the stored entry.  The table of proxied networks and
    the two questions to [UdpProxyRuntime] are arguments; calls are single steps, time is a
    number of seconds, a fresh uuid is an argument, a panic is [None].  Replies are cut into packets in ProxyReply.v. *)

From stdpp Require Import base gmap list numbers sets.
From Stdlib Require Import ZArith Lia.
From S2P Require Import Prelude Packet IpParse IpReassembler CidrTable ProxyReply.
Local Open Scope Z_scope.

(** ** Data *)

Record UdpNatKey : Type := mkNatKey { src_socket : SocketAddr; dst_socket : SocketAddr }.

#[export] Instance nat_key_eq_dec : EqDecision UdpNatKey.
Proof. solve_decision. Defined.
#[export] Instance nat_key_countable : Countable UdpNatKey.
Proof. apply (inj_countable' (λ k, (src_socket k, dst_socket k)) (λ p, mkNatKey p.1 p.2)). by intros []. Defined.

(** Uuids are numbers. *)
Definition UdpNatEntryId : Type := Z.

Record UdpNatEntry : Type := mkNatEntry {
  entry_id : UdpNatEntryId;
  src_peer_id : Z;
  my_peer_id : Z;
  entry_src_socket : SocketAddr;
  real_dst_ip : Z;
  mapped_dst_ip : Z;
  virtual_ipv4 : Z;
  last_active_time : Z;
  stopped : bool;
  denied : bool
}.

Definition new_nat_entry id (src_peer my_peer : Z) (src : SocketAddr) (real_dst mapped_dst virtual : Z) (is_denied : bool)
    (now : Z) : UdpNatEntry :=
  mkNatEntry id src_peer my_peer src real_dst mapped_dst virtual now false is_denied.

Definition mark_active (e : UdpNatEntry) (now : Z) : UdpNatEntry :=
  mkNatEntry (entry_id e) (src_peer_id e) (my_peer_id e) (entry_src_socket e) (real_dst_ip e) (mapped_dst_ip e)
    (virtual_ipv4 e) now (stopped e) (denied e).

Definition is_active (e : UdpNatEntry) (ttl now : Z) : bool := (now - last_active_time e <? ttl) && negb (stopped e).

Record UdpProxyPeerContext : Type := mkUdpContext {
  uc_virtual_ipv4 : option Z;
  uc_enable_exit_node : bool;
  uc_no_tun : bool
}.

(** What the engine asks [UdpProxyRuntime]. *)
Record UdpRuntime : Type := mkRuntime {
  is_ip_local_virtual_ip : Z → bool;
  should_deny_udp_proxy : SocketAddr → bool
}.

Inductive UdpProxyAction : Type :=
| ForwardToSocket (id : UdpNatEntryId) (dst : SocketAddr) (payload : list Z)
| UdpDrop
| UdpPass.

Record UdpProxyEngine : Type := mkUdpEngine {
  nat_table : gmap UdpNatKey UdpNatEntry;
  nat_ids : gmap UdpNatEntryId UdpNatKey;
  ip_reassembler : IpReassembler;
  entry_ttl : Z;
  next_ip_id : Z
}.

Implicit Types (eng : UdpProxyEngine) (key : UdpNatKey).

Definition new_udp_engine (fragment_timeout : Z) : UdpProxyEngine :=
  mkUdpEngine ∅ ∅ (new_reassembler fragment_timeout) 180 1.

Definition with_tables eng (table : gmap UdpNatKey UdpNatEntry) (ids : gmap UdpNatEntryId UdpNatKey) : UdpProxyEngine :=
  mkUdpEngine table ids (ip_reassembler eng) (entry_ttl eng) (next_ip_id eng).
Definition with_reassembler eng (r : IpReassembler) : UdpProxyEngine :=
  mkUdpEngine (nat_table eng) (nat_ids eng) r (entry_ttl eng) (next_ip_id eng).

Definition LOCALHOST : Z := 2130706433.

(** [Ipv4Addr::is_loopback]. *)
Definition is_loopback (ip : Z) : bool := Z.shiftr ip 24 =? 127.

(** ** Housekeeping *)

Definition entry_ids eng : list UdpNatEntryId := map fst (map_to_list (nat_ids eng)).

(** The ids of the removed entries in the order of the table. *)
Definition udp_remove_expired_entries eng (now : Z) : UdpProxyEngine * list UdpNatEntryId :=
  let removed := omap (λ ke, if is_active ke.2 (entry_ttl eng) now then None else Some (entry_id ke.2))
                   (map_to_list (nat_table eng)) in
  (with_tables eng (filter (λ ke, is_active ke.2 (entry_ttl eng) now = true) (nat_table eng))
     (foldl (λ ids id, delete id ids) (nat_ids eng) removed), removed).

Definition udp_remove_entry eng (id : UdpNatEntryId) : UdpProxyEngine :=
  match nat_ids eng !! id with
  | None => eng
  | Some key => with_tables eng (delete key (nat_table eng)) (delete id (nat_ids eng))
  end.

Definition udp_remove_expired_fragments eng (now : Z) : UdpProxyEngine :=
  with_reassembler eng (remove_expired_packets (ip_reassembler eng) now).

(** ** Packets *)

Section Packets.

Context `{!Ipv4Wire} `{!CheckedIpv4} `{!UdpWire} {C : Type} `{Ipv4Cidr C}.

(** The datagram of a packet: whole, or completed by this fragment. *)
Definition request_datagram eng (payload : list Z) (now : Z) : UdpProxyEngine * option (list Z) :=
  if is_packet_fragmented (view payload)
  then let '(r, buf) := add_fragment (ip_reassembler eng) (view payload) now in (with_reassembler eng r, buf)
  else (eng, Some (v_payload (view payload))).

(** The entry of a flow, made from the packet when there is none. *)
Definition udp_entry eng key (hdr : PeerManagerHeader.t) (real_dst origin_dst virtual : Z) (rt : UdpRuntime)
    id (now : Z) : UdpProxyEngine * UdpNatEntry :=
  match nat_table eng !! key with
  | Some e => (eng, e)
  | None =>
      let deny_dst := mkSocketAddr (IpV4 real_dst) (sa_port (dst_socket key)) in
      let e := new_nat_entry id (PeerManagerHeader.from_peer_id hdr) (PeerManagerHeader.to_peer_id hdr)
                 (src_socket key) real_dst origin_dst virtual (should_deny_udp_proxy rt deny_dst) now in
      (with_tables eng (<[key := e]> (nat_table eng)) (<[id := key]> (nat_ids eng)), e)
  end.

(** From the datagram to the end. *)
Definition forward_datagram eng (u : UdpHdr) (src origin_dst real_dst virtual : Z) (hdr : PeerManagerHeader.t)
    (rt : UdpRuntime) id (now : Z) : UdpProxyEngine * UdpProxyAction :=
  let dst := mkSocketAddr (IpV4 (if is_ip_local_virtual_ip rt real_dst then LOCALHOST else real_dst)) (udp_dst_port u) in
  let key := mkNatKey (mkSocketAddr (IpV4 src) (udp_src_port u)) (mkSocketAddr (IpV4 origin_dst) (udp_dst_port u)) in
  let '(eng, e) := udp_entry eng key hdr real_dst origin_dst virtual rt id now in
  if denied e then (eng, UdpDrop)
  else (with_tables eng (<[key := mark_active e now]> (nat_table eng)) (nat_ids eng),
        ForwardToSocket (entry_id e) dst (udp_body u)).

Definition udp_handle_peer_packet eng (table : list (ProxyCidrEntry C)) (p : ZCPacket.t) (ctx : UdpProxyPeerContext)
    (rt : UdpRuntime) id (now : Z) : option (UdpProxyEngine * UdpProxyAction) :=
  if table_is_empty table && negb (uc_enable_exit_node ctx) && negb (uc_no_tun ctx) then Some (eng, UdpPass)
  else
    match uc_virtual_ipv4 ctx, ZCPacket.peer_manager_header p with
    | Some virtual, Some hdr =>
        if negb (PeerManagerHeader.packet_type hdr =? packet_type_u8 Data) || PeerManagerHeader.is_no_proxy hdr
        then Some (eng, UdpPass)
        else
          payload ← ZCPacket.payload p;
          if negb (checked payload) then Some (eng, UdpPass)
          else if negb (version payload =? 4) || negb (next_header payload =? IP_PROTO_UDP) then Some (eng, UdpPass)
          else
            let origin_dst := v_dst (view payload) in
            let no_tun_local_virtual_ip := uc_no_tun ctx && (origin_dst =? virtual) in
            let real_dst :=
              match lookup_v4 table origin_dst with
              | Some mapped_real_ip => Some mapped_real_ip
              | None => if negb (PeerManagerHeader.is_exit_node hdr) && negb no_tun_local_virtual_ip then None
                        else Some origin_dst
              end in
            match real_dst with
            | None => Some (eng, UdpPass)
            | Some real_dst =>
                match request_datagram eng payload now with
                | (eng, None) => Some (eng, UdpDrop)
                | (eng, Some buf) =>
                    match udp buf with
                    | None => Some (eng, UdpPass)
                    | Some u => Some (forward_datagram eng u (v_src (view payload)) origin_dst real_dst virtual hdr rt id now)
                    end
                end
            end
    | _, _ => Some (eng, UdpPass)
    end.

(** ** Responses *)

(** The address a client sees. *)
Definition response_source (e : UdpNatEntry) (src : Z) : Z :=
  let has_mapped_dst := negb (real_dst_ip e =? mapped_dst_ip e) in
  let ip := if has_mapped_dst && (src =? real_dst_ip e) then mapped_dst_ip e
            else if is_loopback src then virtual_ipv4 e else src in
  if has_mapped_dst && (ip =? real_dst_ip e) then mapped_dst_ip e else ip.

(** A multiple of eight, and never zero. *)
Definition response_payload_mtu (ipv4_mtu : Z) : Z :=
  let payload_mtu := Z.max (Z.max (ipv4_mtu - IPV4_HEADER_LEN) 0) 8 in
  payload_mtu - payload_mtu mod 8.

(** [copy_from_slice] panics when the length field, of 16 bits, is not that of the payload. *)
Definition compose_udp_ipv4_response (uninit : list Z) (e : UdpNatEntry) (src_ip src_port dst_ip dst_port : Z)
    (payload : list Z) (payload_mtu id : Z) : option (list ZCPacket.t * result unit unit) :=
  if negb (payload_mtu mod 8 =? 0) then None
  else
    let udp_len := UDP_HEADER_LEN + len payload in
    if negb (wrap 16 udp_len - UDP_HEADER_LEN =? len payload) then None
    else
      let buf := replicate (Z.to_nat IPV4_HEADER_LEN) 0 ++ write_udp src_port dst_port payload src_ip dst_ip in
      compose_replies uninit (my_peer_id e) (src_peer_id e) true
        (mkArgs src_ip dst_ip IP_PROTO_UDP udp_len payload_mtu id) buf.

Definition udp_handle_socket_response eng (uninit : list Z) id (src : SocketAddr) (payload : list Z) (ipv4_mtu now : Z)
    : option (UdpProxyEngine * result (list ZCPacket.t) unit) :=
  match nat_ids eng !! id with
  | None => Some (eng, Ok [])
  | Some key =>
      match nat_table eng !! key with
      | None => Some (eng, Ok [])
      | Some e =>
          let eng := with_tables eng (<[key := mark_active e now]> (nat_table eng)) (nat_ids eng) in
          match sa_ip src, sa_ip (entry_src_socket e) with
          | IpV4 src_ip, IpV4 nat_src_ip =>
              let eng' := mkUdpEngine (nat_table eng) (nat_ids eng) (ip_reassembler eng) (entry_ttl eng)
                            (wrapping_add 16 (next_ip_id eng) 1) in
              r ← compose_udp_ipv4_response uninit e (response_source e src_ip) (sa_port src)
                    nat_src_ip (sa_port (entry_src_socket e)) payload (response_payload_mtu ipv4_mtu) (next_ip_id eng);
              Some (eng', match r.2 with Ok _ => Ok r.1 | Err err => Err err end)
          | _, _ => Some (eng, Ok [])
          end
      end
  end.

End Packets.

(** ** Calls in sequence *)

Inductive UdpEvent {C : Type} : Type :=
| UPeer (table : list (ProxyCidrEntry C)) (p : ZCPacket.t) (ctx : UdpProxyPeerContext) (rt : UdpRuntime)
    (id : UdpNatEntryId) (now : Z)
| UResponse (uninit : list Z) (id : UdpNatEntryId) (src : SocketAddr) (payload : list Z) (ipv4_mtu now : Z)
| URemove (id : UdpNatEntryId)
| UExpire (now : Z)
| UFragments (now : Z).
Arguments UdpEvent : clear implicits.

Section Events.

Context `{!Ipv4Wire} `{!CheckedIpv4} `{!UdpWire} {C : Type} `{Ipv4Cidr C}.

Definition udp_step eng (ev : UdpEvent C) : option UdpProxyEngine :=
  match ev with
  | UPeer table p ctx rt id now => fst <$> udp_handle_peer_packet eng table p ctx rt id now
  | UResponse uninit id src payload ipv4_mtu now => fst <$> udp_handle_socket_response eng uninit id src payload ipv4_mtu now
  | URemove id => Some (udp_remove_entry eng id)
  | UExpire now => Some (udp_remove_expired_entries eng now).1
  | UFragments now => Some (udp_remove_expired_fragments eng now)
  end.

Fixpoint udp_run eng (evs : list (UdpEvent C)) : option UdpProxyEngine :=
  match evs with
  | [] => Some eng
  | ev :: evs => eng' ← udp_step eng ev; udp_run eng' evs
  end.

End Events.

(** * Properties *)

Record udp_wf eng : Prop := mkUdpWf {
  u_table key e : nat_table eng !! key = Some e →
    nat_ids eng !! entry_id e = Some key ∧ entry_src_socket e = src_socket key ∧ stopped e = false ∧
    is_uint 32 (src_peer_id e) ∧ is_uint 32 (my_peer_id e) ∧ ∃ ip, sa_ip (src_socket key) = IpV4 ip;
  u_ids id key : nat_ids eng !! id = Some key → ∃ e, nat_table eng !! key = Some e ∧ entry_id e = id;
  u_ip_id : is_uint 16 (next_ip_id eng)
}.

Lemma new_udp_engine_wf timeout : udp_wf (new_udp_engine timeout).
Proof. split; cbn; [intros *; by rewrite lookup_empty..|done]. Qed.

(** Marking an entry active changes nothing else. *)
Lemma mark_wf eng key e now :
  udp_wf eng → nat_table eng !! key = Some e →
  udp_wf (with_tables eng (<[key := mark_active e now]> (nat_table eng)) (nat_ids eng)).
Proof.
  intros [H1 H2 H3] He. split; cbn; [..|done].
  - intros k x [[<- <-]|[Hne Hx]]%lookup_insert_Some; [exact (H1 key e He)|by apply H1].
  - intros id k Hk. destruct (H2 id k Hk) as (x & Hx & Hid). destruct (decide (key = k)) as [<-|Hne].
    + exists (mark_active e now). rewrite lookup_insert_eq. split; [done|]. rewrite He in Hx. by injection Hx as <-.
    + exists x. by rewrite lookup_insert_ne.
Qed.

Lemma foldl_delete (ids : gmap UdpNatEntryId UdpNatKey) l i :
  foldl (λ ids id, delete id ids) ids l !! i = if decide (i ∈ l) then None else ids !! i.
Proof.
  revert ids. induction l as [|x l IH]; intros ids; cbn; [done|]. rewrite IH.
  destruct (decide (i ∈ l)) as [Hi|Hi]; [by rewrite decide_True by (by right)|].
  destruct (decide (i = x)) as [->|Hne]; [rewrite decide_True by (by left); apply lookup_delete_eq|].
  rewrite decide_False by set_solver. by apply lookup_delete_ne.
Qed.

Lemma udp_expire_wf eng now : udp_wf eng → udp_wf (udp_remove_expired_entries eng now).1.
Proof.
  intros [H1 H2 H3]. unfold udp_remove_expired_entries. cbn zeta. set (removed := omap _ _).
  assert (Hrem : ∀ i, i ∈ removed ↔ ∃ k e, nat_table eng !! k = Some e ∧ entry_id e = i ∧ is_active e (entry_ttl eng) now = false).
  { intros i. unfold removed. rewrite list_elem_of_omap. split.
    - intros ([k e] & Hin & Hx). apply elem_of_map_to_list in Hin. cbn in Hx. exists k, e. destruct (is_active _ _ _); [done|].
      by injection Hx as ->.
    - intros (k & e & He & <- & Ha). exists (k, e). split; [by apply elem_of_map_to_list|]. cbn. by rewrite Ha. }
  split; cbn [fst with_tables nat_table nat_ids next_ip_id]; [..|done].
  - intros k e [He Ha]%map_lookup_filter_Some. cbn in Ha. destruct (H1 k e He) as (Hi & Hrest). split; [|exact Hrest].
    rewrite foldl_delete, decide_False; [done|]. rewrite Hrem. intros (k' & e' & He' & Eid & Ha').
    destruct (H1 k' e' He') as (Hi' & _). rewrite Eid, Hi in Hi'. injection Hi' as <-. congruence.
  - intros i k. rewrite foldl_delete. destruct (decide (i ∈ removed)) as [|Hn]; [done|]. intros Hi.
    destruct (H2 i k Hi) as (e & He & Eid). exists e. split; [|done]. apply map_lookup_filter_Some. split; [done|]. cbn.
    destruct (is_active e (entry_ttl eng) now) eqn:Ea; [done|]. exfalso. apply Hn, Hrem. by exists k, e.
Qed.

Lemma udp_remove_wf eng id : udp_wf eng → udp_wf (udp_remove_entry eng id).
Proof.
  intros [H1 H2 H3]. unfold udp_remove_entry. destruct (nat_ids eng !! id) as [key|] eqn:Ei; [|by split].
  destruct (H2 id key Ei) as (e & He & Eid). split; cbn; [..|done].
  - intros k x [Hne Hx]%lookup_delete_Some. destruct (H1 k x Hx) as (Hi & Hrest). split; [|exact Hrest].
    rewrite lookup_delete_ne; [done|]. intros E. rewrite <- E, Ei in Hi. congruence.
  - intros i k [Hne Hi]%lookup_delete_Some. destruct (H2 i k Hi) as (x & Hx & Ex). exists x. split; [|done].
    rewrite lookup_delete_ne; [done|]. intros ->. rewrite He in Hx. congruence.
Qed.

Lemma reassembler_wf eng r : udp_wf eng → udp_wf (with_reassembler eng r).
Proof. intros [H1 H2 H3]. by split. Qed.

Lemma request_datagram_tables `{!Ipv4Wire} eng payload now :
  nat_table (request_datagram eng payload now).1 = nat_table eng ∧ nat_ids (request_datagram eng payload now).1 = nat_ids eng ∧
  (udp_wf eng → udp_wf (request_datagram eng payload now).1).
Proof.
  unfold request_datagram. destruct (is_packet_fragmented _); [|done]. destruct (add_fragment _ _ _) as [r buf].
  split_and!; [done..|]. apply reassembler_wf.
Qed.

(** The entry of a flow: the one there is, or a new one under the fresh id. *)
Lemma udp_entry_spec eng key hdr real_dst origin_dst virtual rt id now ip :
  udp_wf eng → nat_ids eng !! id = None → PeerManagerHeader.wf hdr → sa_ip (src_socket key) = IpV4 ip →
  let '(eng', e) := udp_entry eng key hdr real_dst origin_dst virtual rt id now in
  udp_wf eng' ∧ nat_table eng' !! key = Some e ∧
  (entry_id e = id → e = new_nat_entry id (PeerManagerHeader.from_peer_id hdr) (PeerManagerHeader.to_peer_id hdr)
     (src_socket key) real_dst origin_dst virtual
     (should_deny_udp_proxy rt (mkSocketAddr (IpV4 real_dst) (sa_port (dst_socket key)))) now) ∧
  (∀ k x, nat_table eng !! k = Some x → nat_table eng' !! k = Some x).
Proof.
  intros Hwf Hid (P1 & P2 & _) Hip. unfold udp_entry. destruct (nat_table eng !! key) as [e|] eqn:Ee.
  - split_and!; [done..| |done]. intros E. destruct (u_table _ Hwf key e Ee) as (Hx & _). congruence.
  - cbn zeta. set (e := new_nat_entry _ _ _ _ _ _ _ _ _).
    split_and!; [|cbn; by rewrite lookup_insert_eq|done|].
    2: { intros k x Hx. cbn. rewrite lookup_insert_ne by congruence. done. }
    destruct Hwf as [H1 H2 H3]. split; cbn; [..|done].
    + intros k x [[<- <-]|[Hne Hx]]%lookup_insert_Some.
      * cbn [e new_nat_entry entry_id entry_src_socket stopped]. rewrite lookup_insert_eq. split_and!; [done..|by exists ip].
      * destruct (H1 k x Hx) as (Hi & Hrest). split; [|exact Hrest]. rewrite lookup_insert_ne; [done|]. congruence.
    + intros i k [[<- <-]|[Hne Hk]]%lookup_insert_Some.
      * exists e. by rewrite lookup_insert_eq.
      * destruct (H2 i k Hk) as (x & Hx & Hxi). exists x. split; [|done]. rewrite lookup_insert_ne; [done|]. congruence.
Qed.

(** Flows keep their entries: the ids of [eng] that [eng'] still has stand for the same
    entries, up to the time of the last packet. *)
Definition same_flow eng eng' (id : UdpNatEntryId) : Prop :=
  ∃ key e t, nat_ids eng !! id = Some key ∧ nat_table eng !! key = Some e ∧
    nat_ids eng' !! id = Some key ∧ nat_table eng' !! key = Some (mark_active e t).

Section Replies.

Context `{!Ipv4Wire} `{!CheckedIpv4} `{!CheckedIpv4Laws} `{!UdpWire} {C : Type} `{Ipv4Cidr C}.

(** What the client of a packet sees of its flow. *)
Definition forwarded eng (table : list (ProxyCidrEntry C)) (pl : list Z) (hdr : PeerManagerHeader.t) (ctx : UdpProxyPeerContext)
    (rt : UdpRuntime) (u : UdpHdr) (dst : SocketAddr) id : Prop :=
  ∃ e real virtual, uc_virtual_ipv4 ctx = Some virtual ∧
    real = default (v_dst (view pl)) (lookup_v4 table (v_dst (view pl))) ∧
    dst = mkSocketAddr (IpV4 (if is_ip_local_virtual_ip rt real then LOCALHOST else real)) (udp_dst_port u) ∧
    (∃ key, nat_ids eng !! id = Some key ∧ nat_table eng !! key = Some e) ∧
    src_peer_id e = PeerManagerHeader.from_peer_id hdr ∧ my_peer_id e = PeerManagerHeader.to_peer_id hdr ∧
    entry_src_socket e = mkSocketAddr (IpV4 (v_src (view pl))) (udp_src_port u) ∧
    real_dst_ip e = real ∧ mapped_dst_ip e = v_dst (view pl) ∧ virtual_ipv4 e = virtual.

Lemma forward_spec eng u src origin real virtual hdr rt id now :
  udp_wf eng → nat_ids eng !! id = None → PeerManagerHeader.wf hdr →
  let '(eng', act) := forward_datagram eng u src origin real virtual hdr rt id now in
  udp_wf eng' ∧
  match act with
  | ForwardToSocket i dst body => body = udp_body u ∧
      dst = mkSocketAddr (IpV4 (if is_ip_local_virtual_ip rt real then LOCALHOST else real)) (udp_dst_port u) ∧
      (i = id → ∃ key e, nat_ids eng' !! id = Some key ∧ nat_table eng' !! key = Some e ∧
         src_peer_id e = PeerManagerHeader.from_peer_id hdr ∧ my_peer_id e = PeerManagerHeader.to_peer_id hdr ∧
         entry_src_socket e = mkSocketAddr (IpV4 src) (udp_src_port u) ∧ real_dst_ip e = real ∧ mapped_dst_ip e = origin ∧
         virtual_ipv4 e = virtual)
  | _ => True
  end.
Proof.
  intros Hwf Hid Hh. unfold forward_datagram. cbn zeta. set (key := mkNatKey _ _).
  pose proof (udp_entry_spec eng key hdr real origin virtual rt id now src Hwf Hid Hh eq_refl) as He.
  destruct (udp_entry eng key hdr real origin virtual rt id now) as [eng1 e]. destruct He as (Hwf1 & He & Hnew & _).
  destruct (denied e); [done|]. split; [by apply mark_wf|]. split_and!; [done..|].
  intros Ei. specialize (Hnew Ei). destruct (u_table _ Hwf1 key e He) as (Hid1 & _). rewrite Ei in Hid1.
  exists key, (mark_active e now). cbn. rewrite lookup_insert_eq. rewrite Hnew. by split_and!.
Qed.

(** What a call with a packet comes to. *)
Definition udp_outcome eng (table : list (ProxyCidrEntry C)) (p : ZCPacket.t) (ctx : UdpProxyPeerContext) (rt : UdpRuntime)
    id (now : Z) (r : UdpProxyEngine * UdpProxyAction) : Prop :=
  udp_wf r.1 ∧
  ∀ dst body, r.2 = ForwardToSocket id dst body → ∃ pl hdr u, ZCPacket.payload p = Some pl ∧
    ZCPacket.peer_manager_header p = Some hdr ∧ body = udp_body u ∧ forwarded r.1 table pl hdr ctx rt u dst id ∧
    ∃ buf, (request_datagram eng pl now).2 = Some buf ∧ udp buf = Some u.

Lemma udp_handle_spec eng table p ctx rt id now :
  udp_wf eng → nat_ids eng !! id = None → ZCPacket.wf p →
  (∀ hdr, ZCPacket.peer_manager_header p = Some hdr → PeerManagerHeader.wf hdr) →
  ∃ r, udp_handle_peer_packet eng table p ctx rt id now = Some r ∧ udp_outcome eng table p ctx rt id now r.
Proof.
  intros Hwf Hid Hp Hhdr. destruct (PacketFacts.pm_split p Hp) as (_ & _ & pl & _ & _ & _ & Hpl).
  unfold udp_handle_peer_packet.
  assert (Hno : ∀ eng' act, udp_wf eng' → (∀ i d b, act ≠ ForwardToSocket i d b) →
    ∃ r, Some (eng', act) = Some r ∧ udp_outcome eng table p ctx rt id now r).
  { intros eng' act Hw Ha. exists (eng', act). split; [done|]. split; [done|]. intros d b E. by destruct (Ha id d b). }
  destruct (table_is_empty table && _ && _); [by apply Hno|]. destruct (uc_virtual_ipv4 ctx) as [virtual|] eqn:Ev; [|by apply Hno].
  destruct (ZCPacket.peer_manager_header p) as [hdr|] eqn:Eh; [|by apply Hno].
  destruct (_ || PeerManagerHeader.is_no_proxy hdr); [by apply Hno|]. rewrite Hpl. cbn [mbind option_bind].
  destruct (negb (checked pl)); [by apply Hno|]. destruct (negb (version pl =? 4) || _); [by apply Hno|]. cbn zeta.
  set (real := match lookup_v4 table (v_dst (view pl)) with Some _ => _ | None => _ end).
  destruct real as [r|] eqn:Er; [|by apply Hno].
  destruct (request_datagram_tables eng pl now) as (Ht & Hi & Hw).
  destruct (request_datagram eng pl now) as [eng1 [buf|]] eqn:Eq; cbn [fst snd] in *; [|apply Hno; [by apply Hw|done]].
  destruct (udp buf) as [u|] eqn:Eu; [|apply Hno; [by apply Hw|done]].
  pose proof (forward_spec eng1 u (v_src (view pl)) (v_dst (view pl)) r virtual hdr rt id now (Hw Hwf) ltac:(by rewrite Hi) (Hhdr hdr eq_refl)) as Hf.
  destruct (forward_datagram _ _ _ _ _ _ _ _ _ _) as [eng2 act]. destruct Hf as (Hwf2 & Hact).
  exists (eng2, act). split; [done|]. split; [done|]. cbn [fst snd]. intros dst body ->. destruct Hact as (Hb & Hd & Hent).
  destruct (Hent eq_refl) as (key & e & E1 & E2 & E3 & E4 & E5 & E6 & E7 & E8).
  exists pl, hdr, u. split_and!; [done..| |exists buf; by rewrite Eq].
  exists e, r, virtual. split_and!; try done; [|by exists key].
  unfold real in Er. destruct (lookup_v4 table (v_dst (view pl))); [by injection Er|].
  by destruct (negb _ && negb _); [|injection Er].
Qed.

(** ** Responses *)

Lemma response_payload_mtu_ok mtu : 0 < response_payload_mtu mtu ∧ response_payload_mtu mtu mod 8 = 0.
Proof.
  unfold response_payload_mtu. set (m := Z.max _ 8). assert (8 <= m) by lia.
  pose proof (Z.div_mod m 8 ltac:(done)). pose proof (Z.mod_pos_bound m 8 ltac:(done)).
  replace (m - m mod 8) with (m / 8 * 8) by lia. split; [|by apply Z.mod_mul].
  assert (1 <= m / 8) by (apply Z.div_le_lower_bound; lia). lia.
Qed.

(** The address a client sees is the one it asked for. *)
Lemma response_source_ok e rt :
  (is_ip_local_virtual_ip rt (real_dst_ip e) = true → real_dst_ip e = virtual_ipv4 e) →
  is_loopback (mapped_dst_ip e) = false →
  response_source e (if is_ip_local_virtual_ip rt (real_dst_ip e) then LOCALHOST else real_dst_ip e) = mapped_dst_ip e.
Proof.
  intros Hl Hm. unfold response_source. destruct (Z.eqb_spec (real_dst_ip e) (mapped_dst_ip e)) as [E|E]; cbn [negb andb].
  - destruct (is_ip_local_virtual_ip rt (real_dst_ip e)); [rewrite <- Hl by done; by rewrite E|].
    by rewrite E, Hm.
  - destruct (is_ip_local_virtual_ip rt (real_dst_ip e)).
    + rewrite <- Hl by done. destruct (Z.eqb_spec LOCALHOST (real_dst_ip e)) as [El|El].
      * by destruct (mapped_dst_ip e =? real_dst_ip e).
      * change (is_loopback LOCALHOST) with true. by rewrite Z.eqb_refl.
    + rewrite Z.eqb_refl. by destruct (mapped_dst_ip e =? real_dst_ip e).
Qed.

Lemma compose_response_ok uninit e src_ip src_port dst_ip dst_port payload mtu id :
  is_uint 32 (my_peer_id e) → is_uint 32 (src_peer_id e) → is_uint 32 src_ip → is_uint 32 dst_ip → is_uint 16 id →
  len payload <= 65507 →
  ∃ zs, compose_udp_ipv4_response uninit e src_ip src_port dst_ip dst_port payload (response_payload_mtu mtu) id = Some (zs, Ok tt) ∧
    delivers (my_peer_id e) (src_peer_id e) true src_ip dst_ip IP_PROTO_UDP (write_udp src_port dst_port payload src_ip dst_ip) zs.
Proof.
  intros Hm Hs Hsi Hdi Hid Hl. unfold compose_udp_ipv4_response. destruct (response_payload_mtu_ok mtu) as [Hpos H8].
  rewrite H8, Z.eqb_refl. cbn [negb]. pose proof (len_nonneg payload). unfold UDP_HEADER_LEN.
  assert (E : wrap 16 (8 + len payload) = 8 + len payload) by (unfold wrap; rewrite Z.mod_small; lia).
  rewrite E. replace (8 + len payload - 8) with (len payload) by lia. rewrite Z.eqb_refl. cbn [negb].
  set (dg := write_udp _ _ _ _ _). assert (Hdg : len dg = 8 + len payload) by apply write_udp_len.
  set (args := mkArgs _ _ _ _ _ _).
  destruct (replies_deliver uninit (my_peer_id e) (src_peer_id e) true args (replicate (Z.to_nat IPV4_HEADER_LEN) 0) dg [])
    as (zs & Hz & Hd); [done|done| |done|].
  { unfold args, args_fit. cbn [payload_len payload_mtu ip_id src_v4 dst_v4]. rewrite Hdg. split_and!; try done; lia. }
  rewrite app_nil_r in Hz. by exists zs.
Qed.

Lemma response_total eng uninit id src payload mtu now :
  udp_wf eng → len payload <= 65507 →
  ∃ eng' zs, udp_handle_socket_response eng uninit id src payload mtu now = Some (eng', Ok zs) ∧ udp_wf eng'.
Proof.
  intros Hwf Hl. unfold udp_handle_socket_response. destruct (nat_ids eng !! id) as [key|] eqn:Ei; [|by eexists _, _].
  destruct (u_ids _ Hwf id key Ei) as (e & He & _). rewrite He. cbn zeta.
  pose proof (mark_wf eng key e now Hwf He) as Hwf1.
  destruct (u_table _ Hwf key e He) as (_ & _ & _ & Hs & Hm & _).
  destruct (sa_ip src) as [src_ip|]; [|by eexists _, _]. destruct (sa_ip (entry_src_socket e)) as [nat_ip|]; [|by eexists _, _].
  unfold compose_udp_ipv4_response. destruct (response_payload_mtu_ok mtu) as [Hpos H8]. rewrite H8, Z.eqb_refl. cbn [negb].
  pose proof (len_nonneg payload). unfold UDP_HEADER_LEN.
  assert (E : wrap 16 (8 + len payload) = 8 + len payload) by (unfold wrap; rewrite Z.mod_small; lia).
  rewrite E. replace (8 + len payload - 8) with (len payload) by lia. rewrite Z.eqb_refl. cbn [negb].
  set (dg := write_udp _ _ _ _ _). set (args := mkArgs _ _ _ _ _ _).
  destruct (compose_replies_ok uninit (my_peer_id e) (src_peer_id e) true args (replicate (Z.to_nat IPV4_HEADER_LEN) 0) dg [])
    as (zs & Hz & _); [done..| |].
  { unfold args, dg. cbn [payload_len]. by rewrite write_udp_len. }
  rewrite app_nil_r in Hz. rewrite Hz. cbn [mbind option_bind fst snd]. eexists _, zs. split; [done|].
  destruct Hwf1 as [A B _]. split; [done|done|]. cbn. unfold wrapping_add. apply Z.mod_pos_bound. lia.
Qed.

(** What the code around the engine guarantees: headers of machine integers, fresh uuids, and
    datagrams of a size that UDP over IPv4 has. *)
Definition udp_event_ok eng (ev : UdpEvent C) : Prop :=
  match ev with
  | UPeer _ p _ _ id _ => nat_ids eng !! id = None ∧ ZCPacket.wf p ∧
      ∀ hdr, ZCPacket.peer_manager_header p = Some hdr → PeerManagerHeader.wf hdr
  | UResponse _ _ _ payload _ _ => len payload <= 65507
  | _ => True
  end.

Fixpoint udp_events_ok eng (evs : list (UdpEvent C)) : Prop :=
  match evs with
  | [] => True
  | ev :: evs => udp_event_ok eng ev ∧ ∀ eng', udp_step eng ev = Some eng' → udp_events_ok eng' evs
  end.

Lemma udp_step_ok eng ev : udp_wf eng → udp_event_ok eng ev → ∃ eng', udp_step eng ev = Some eng' ∧ udp_wf eng'.
Proof.
  intros Hwf Hok. destruct ev as [table p ctx rt id now|uninit id src payload mtu now|id|now|now]; cbn in *.
  - destruct Hok as (Hid & Hp & Hh). destruct (udp_handle_spec eng table p ctx rt id now Hwf Hid Hp Hh) as ([eng' act] & -> & Hw & _).
    by exists eng'.
  - destruct (response_total eng uninit id src payload mtu now Hwf Hok) as (eng' & zs & -> & Hw). by exists eng'.
  - eexists. split; [done|by apply udp_remove_wf].
  - eexists. split; [done|by apply udp_expire_wf].
  - eexists. split; [done|by apply reassembler_wf].
Qed.

(** The engine never panics: whatever packets come from peers, datagrams from sockets and
    clean-ups between them, every call returns; and the ids and the flows stay in a one to one
    correspondence, so that a socket always finds the flow it serves, or none. *)
Theorem udp_engine_safe timeout evs :
  udp_events_ok (new_udp_engine timeout) evs → ∃ eng, udp_run (new_udp_engine timeout) evs = Some eng ∧ udp_wf eng.
Proof.
  pose proof (new_udp_engine_wf timeout) as Hwf. revert Hwf. generalize (new_udp_engine timeout) as eng.
  induction evs as [|ev evs IH]; intros eng Hwf Hok; cbn in *; [by exists eng|]. destruct Hok as [Hev Hok].
  destruct (udp_step_ok eng ev Hwf Hev) as (eng1 & E1 & Hwf1). rewrite E1. cbn. by apply IH, Hok.
Qed.

(** C13: a datagram through the proxy is answered: when the first datagram of a flow has been
    forwarded, what the real host, or this node itself when the network is its own, sends back to
    the socket reaches the client that sent it, however it is cut into packets and in whatever
    order they arrive: from the address and port it asked for, marked not to be proxied again. *)
Theorem udp_reply_delivered eng table p ctx rt id now eng1 dst body pl hdr u eng2 uninit reply mtu now2 :
  udp_wf eng → nat_ids eng !! id = None → ZCPacket.wf p →
  udp_handle_peer_packet eng table p ctx rt id now = Some (eng1, ForwardToSocket id dst body) →
  ZCPacket.payload p = Some pl → ZCPacket.peer_manager_header p = Some hdr → PeerManagerHeader.wf hdr →
  is_packet_fragmented (view pl) = false → udp (v_payload (view pl)) = Some u →
  is_uint 32 (v_src (view pl)) → is_uint 32 (v_dst (view pl)) → is_uint 16 (udp_src_port u) → is_uint 16 (udp_dst_port u) →
  (∀ ip, is_ip_local_virtual_ip rt ip = true → uc_virtual_ipv4 ctx = Some ip) → is_loopback (v_dst (view pl)) = false →
  udp_wf eng2 → same_flow eng1 eng2 id → len reply <= 65507 →
  ∃ eng3 zs datagram, udp_handle_socket_response eng2 uninit id dst reply mtu now2 = Some (eng3, Ok zs) ∧
    delivers (PeerManagerHeader.to_peer_id hdr) (PeerManagerHeader.from_peer_id hdr) true
      (v_dst (view pl)) (v_src (view pl)) IP_PROTO_UDP datagram zs ∧
    udp datagram = Some (mkUdp (udp_dst_port u) (udp_src_port u) reply).
Proof.
  intros Hwf Hid Hp Hh Hpl Hhdr Hhwf Hfrag Hu Hs Hd Hsp Hdp Hrt Hlo Hwf2 Hsame Hl.
  destruct (udp_handle_spec eng table p ctx rt id now Hwf Hid Hp) as (r & E & _ & Hres).
  { intros h Eh. rewrite Hhdr in Eh. by injection Eh as <-. }
  rewrite Hh in E. injection E as <-. cbn [fst snd] in Hres.
  destruct (Hres dst body eq_refl) as (pl' & hdr' & u' & E1 & E2 & _ & Hf & buf & E3 & E4).
  rewrite Hpl in E1. injection E1 as <-. rewrite Hhdr in E2. injection E2 as <-.
  unfold request_datagram in E3. rewrite Hfrag in E3. injection E3 as <-. rewrite Hu in E4. injection E4 as <-.
  destruct Hf as (e & real & virtual & Hv & Er & Edst & (key & Hk1 & Hk2) & F1 & F2 & F3 & F4 & F5 & F6).
  destruct Hsame as (key' & e' & t & S1 & S2 & S3 & S4). rewrite Hk1 in S1. injection S1 as <-.
  rewrite Hk2 in S2. injection S2 as <-.
  unfold udp_handle_socket_response. rewrite S3, S4. cbn zeta.
  cbn [entry_src_socket mark_active]. rewrite F3, Edst. cbn [sa_ip sa_port].
  assert (Hsrc : response_source (mark_active e t) (if is_ip_local_virtual_ip rt real then LOCALHOST else real) = v_dst (view pl)).
  { rewrite <- F4, <- F5. change (mapped_dst_ip e) with (mapped_dst_ip (mark_active e t)).
    change (real_dst_ip e) with (real_dst_ip (mark_active e t)). apply response_source_ok; cbn [mark_active real_dst_ip virtual_ipv4 mapped_dst_ip].
    - intros Hl0%Hrt. rewrite Hv in Hl0. injection Hl0 as <-. congruence.
    - by rewrite F5. }
  rewrite Hsrc. cbn [next_ip_id with_tables]. destruct Hhwf as (P1 & P2 & _).
  destruct (compose_response_ok uninit (mark_active e t) (v_dst (view pl)) (udp_dst_port u) (v_src (view pl)) (udp_src_port u)
    reply mtu (next_ip_id eng2)) as (zs & Hz & Hdel);
    [cbn [mark_active my_peer_id]; by rewrite F2|cbn [mark_active src_peer_id]; by rewrite F1|done|done|apply Hwf2|done|].
  rewrite Hz. cbn [mbind option_bind fst snd]. eexists _, zs, _. split; [done|].
  cbn [mark_active my_peer_id src_peer_id] in Hdel. rewrite F1, F2 in Hdel. split; [exact Hdel|].
  apply udp_written; [done|done|]. unfold UDP_HEADER_LEN. lia.
Qed.

End Replies.

(** ** Witnesses *)

Section Demo.

(** 10.0.0.9:40000 asks 10.10.10.42:53, which is 192.168.1.42. *)
Definition query : list Z := to_be 2 40000 ++ to_be 2 53 ++ to_be 2 11 ++ [0; 0] ++ [1; 2; 3].
Definition query_from (peer : Z) : ZCPacket.t := sample_peer_packet peer 7 (sample_ipv4 167772169 168430122 17 query).
Definition demo_table : list (ProxyCidrEntry PairCidr) := from_snapshot demo_rules.
Definition demo_ctx : UdpProxyPeerContext := mkUdpContext (Some 167772162) false false.
Definition demo_rt : UdpRuntime := mkRuntime (λ ip, ip =? 167772162) (λ _, false).
Definition after_query (eng : UdpProxyEngine) (table : list (ProxyCidrEntry PairCidr)) (peer id now : Z) : UdpProxyEngine :=
  from_option fst eng (udp_handle_peer_packet eng table (query_from peer) demo_ctx demo_rt id now).
Definition host : SocketAddr := mkSocketAddr (IpV4 3232235818) 53.

Lemma udp_reply_delivered_witness :
  ∃ eng3 zs dg, udp_handle_socket_response (after_query (new_udp_engine 10) demo_table 3 100 0) [] 100 host [9; 9] 1280 5 =
      Some (eng3, Ok zs) ∧
    delivers 7 3 true 168430122 167772169 IP_PROTO_UDP dg zs ∧ udp dg = Some (mkUdp 53 40000 [9; 9]).
Proof.
  set (eng1 := after_query (new_udp_engine 10) demo_table 3 100 0).
  destruct (udp_step_ok (C := PairCidr) (new_udp_engine 10) (UPeer demo_table (query_from 3) demo_ctx demo_rt 100 0)
    (new_udp_engine_wf 10)) as (e1 & E & Hwf1).
  { cbn. split; [done|]. split; [vm_compute; intuition congruence|]. intros h Eh. vm_compute in Eh. injection Eh as <-.
    vm_compute. intuition congruence. }
  assert (E1 : e1 = eng1).
  { cbn in E. unfold eng1, after_query. destruct (udp_handle_peer_packet _ _ _ _ _ _ _) as [[x a]|]; [|done]. by injection E as <-. }
  subst e1.
  destruct (udp_reply_delivered (new_udp_engine 10) demo_table (query_from 3) demo_ctx demo_rt 100 0 eng1 host [1; 2; 3]
    (sample_ipv4 167772169 168430122 17 query) (PeerManagerHeader.mk 3 7 1 0 1 0 31) (mkUdp 40000 53 [1; 2; 3]) eng1 [] [9; 9] 1280 5) as (eng3 & zs & dg & H1 & H2 & H3).
  - apply new_udp_engine_wf.
  - done.
  - vm_compute. intuition congruence.
  - vm_compute. reflexivity.
  - vm_compute. reflexivity.
  - vm_compute. reflexivity.
  - vm_compute. intuition congruence.
  - reflexivity.
  - reflexivity.
  - vm_compute. intuition congruence.
  - vm_compute. intuition congruence.
  - vm_compute. intuition congruence.
  - vm_compute. intuition congruence.
  - intros ip. cbn. rewrite Z.eqb_eq. by intros ->.
  - reflexivity.
  - exact Hwf1.
  - eexists _, _, 0. split; [vm_compute; reflexivity|]. split; [vm_compute; reflexivity|]. by split; vm_compute.
  - vm_compute. congruence.
  - exists eng3, zs, dg. split; [exact H1|]. split; [exact H2|exact H3].
Defined.

Lemma udp_engine_safe_witness :
  ∃ eng, udp_run (new_udp_engine 10)
    [UPeer demo_table (query_from 3) demo_ctx demo_rt 100 0; UResponse [] 100 host [9; 9] 1280 5; UExpire 200; UFragments 200] =
      Some eng ∧ udp_wf eng.
Proof.
  apply (udp_engine_safe (C := PairCidr) 10). split; [|intros e1 _; split; [|intros e2 _; split; [exact I|intros e3 _]; split; [exact I|done]]].
  - cbn. split; [done|]. split; [vm_compute; intuition congruence|]. intros h Eh. vm_compute in Eh. injection Eh as <-.
    vm_compute. intuition congruence.
  - vm_compute. congruence.
Defined.

(** A client that comes back under a new peer id, as after a restart, and goes on from the same
    address and port is answered under its old id for as long as it keeps sending. *)
Example restarted_client_unanswered :
  let eng := after_query (after_query (new_udp_engine 10) demo_table 3 100 0) demo_table 4 101 60 in
  ∃ eng' z, udp_handle_socket_response eng [] 100 host [9; 9] 1280 61 = Some (eng', Ok [z]) ∧
    PeerManagerHeader.to_peer_id <$> ZCPacket.peer_manager_header z = Some 3.
Proof. eexists _, _. split; vm_compute; reflexivity. Qed.

(** 192.168.2.0/24 takes the name of 10.10.10.0/24: the flow is forwarded to the new host, whose
    answers keep its own address, which the client does not know. *)
Definition moved_table : list (ProxyCidrEntry PairCidr) :=
  from_snapshot match cidr_new 3232236032 24 with Some c => [mkRule c (cidr_new 168430080 24)] | None => [] end.

Example moved_network_untranslated :
  let eng := after_query (new_udp_engine 10) demo_table 3 100 0 in
  let new_host := mkSocketAddr (IpV4 3232236074) 53 in
  ∃ eng1 eng' z p, udp_handle_peer_packet eng moved_table (query_from 3) demo_ctx demo_rt 101 60 =
      Some (eng1, ForwardToSocket 100 new_host [1; 2; 3]) ∧
    udp_handle_socket_response eng1 [] 100 new_host [9; 9] 1280 61 = Some (eng', Ok [z]) ∧
    ZCPacket.payload z = Some p ∧ v_src (view p) = 3232236074.
Proof.
  eexists _, _, _, _. split; [vm_compute; reflexivity|]. split; [vm_compute; reflexivity|]. split; vm_compute; reflexivity.
Qed.

End Demo.
