(* ===== verification/IcmpProxy.v ===== *)
(** * The ICMP proxy

    Models easytier-core/src/gateway/proxy/icmp_proxy_engine.rs: echo requests from peers to
    hosts behind this node, their replies, and the answers of a node without a TUN device for
    its own address.  The table of proxied networks is an argument; calls are single steps and a panic is
    [None].  Replies are cut into packets in ProxyReply.v. *)

From stdpp Require Import base gmap list numbers sets.
From Stdlib Require Import ZArith Lia.
From S2P Require Import Prelude Packet IpParse IpReassembler CidrTable ProxyReply.
Local Open Scope Z_scope.

Record IcmpProxyContext : Type := mkIcmpContext {
  ic_virtual_ipv4 : option Z;
  ic_enable_exit_node : bool;
  ic_no_tun : bool
}.

Inductive IcmpProxyAction : Type :=
| IcmpPass
| SendToSocket (destination : Z) (packet : list Z)
| SendToPeer (packets : list ZCPacket.t).

Record IcmpNatKey : Type := mkIcmpKey { real_destination : Z; identifier : Z; sequence : Z }.

#[export] Instance icmp_key_eq_dec : EqDecision IcmpNatKey.
Proof. solve_decision. Defined.
#[export] Instance icmp_key_countable : Countable IcmpNatKey.
Proof.
  apply (inj_countable' (λ k, (real_destination k, identifier k, sequence k)) (λ p, mkIcmpKey p.1.1 p.1.2 p.2)). by intros [].
Defined.

Record IcmpNatEntry : Type := mkIcmpEntry {
  source_peer_id : Z;
  local_peer_id : Z;
  source_ip : Z;
  mapped_destination : Z;
  started_at : Z
}.

Record IcmpProxyEngine : Type := mkIcmpEngine {
  icmp_nat_table : gmap IcmpNatKey IcmpNatEntry;
  icmp_reassembler : IpReassembler
}.

Implicit Types (eng : IcmpProxyEngine) (key : IcmpNatKey).

Definition new_icmp_engine (fragment_timeout : Z) : IcmpProxyEngine := mkIcmpEngine ∅ (new_reassembler fragment_timeout).

Definition with_nat_table eng (m : gmap IcmpNatKey IcmpNatEntry) : IcmpProxyEngine := mkIcmpEngine m (icmp_reassembler eng).
Definition with_icmp_reassembler eng (r : IpReassembler) : IcmpProxyEngine := mkIcmpEngine (icmp_nat_table eng) r.

Definition PAYLOAD_MTU : Z := 1200.

Definition icmp_remove_expired_entries eng (max_age now : Z) : IcmpProxyEngine :=
  with_nat_table eng (filter (λ ke, now - started_at ke.2 < max_age) (icmp_nat_table eng)).

Definition icmp_remove_expired_fragments eng (now : Z) : IcmpProxyEngine :=
  with_icmp_reassembler eng (remove_expired_packets (icmp_reassembler eng) now).

Section Packets.

Context `{!Ipv4Wire} `{!CheckedIpv4} `{!IcmpWire} {C : Type} `{Ipv4Cidr C}.

(** The message of a packet: whole, or completed by this fragment. *)
Definition icmp_request_bytes eng (payload : list Z) (now : Z) : IcmpProxyEngine * option (list Z) :=
  if is_packet_fragmented (view payload)
  then let '(r, buf) := add_fragment (icmp_reassembler eng) (view payload) now in (with_icmp_reassembler eng r, buf)
  else (eng, Some (v_payload (view payload))).

(** [id] is the random identification of the reply. *)
Definition local_reply (uninit : list Z) (source destination source_peer destination_peer id : Z) (request : list Z)
    : option IcmpProxyAction :=
  let reply := write_echo_reply (echo_ident request) (echo_seq_no request) (echo_data request) in
  let buffer := replicate (Z.to_nat IPV4_HEADER_LEN) 0 ++ reply in
  r ← compose_replies uninit source_peer destination_peer false
        (mkArgs source destination IP_PROTO_ICMP (len buffer - IPV4_HEADER_LEN) PAYLOAD_MTU id) buffer;
  Some (SendToPeer r.1).

Definition icmp_handle_peer_packet eng (table : list (ProxyCidrEntry C)) (uninit : list Z) (p : ZCPacket.t)
    (ctx : IcmpProxyContext) (id now : Z) : option (IcmpProxyEngine * IcmpProxyAction) :=
  if table_is_empty table && negb (ic_enable_exit_node ctx) && negb (ic_no_tun ctx) then Some (eng, IcmpPass)
  else
    match ic_virtual_ipv4 ctx, ZCPacket.peer_manager_header p with
    | Some virtual, Some hdr =>
        if negb (PeerManagerHeader.packet_type hdr =? packet_type_u8 Data) || PeerManagerHeader.is_no_proxy hdr
        then Some (eng, IcmpPass)
        else
          payload ← ZCPacket.payload p;
          let ipv4 := view payload in
          if negb (checked payload) then Some (eng, IcmpPass)
          else if negb (version payload =? 4) || (v_header_len ipv4 <? IPV4_HEADER_LEN) ||
                  negb (next_header payload =? IP_PROTO_ICMP) then Some (eng, IcmpPass)
          else
            let mapped := v_dst ipv4 in
            let real := lookup_v4 table mapped in
            let is_local_no_tun := ic_no_tun ctx && (mapped =? virtual) in
            if bool_decide (real = None) && negb (PeerManagerHeader.is_exit_node hdr) && negb is_local_no_tun
            then Some (eng, IcmpPass)
            else
              match icmp_request_bytes eng payload now with
              | (eng, None) => Some (eng, IcmpPass)
              | (eng, Some request) =>
                  if len request <? ICMP_ECHO_HEADER_LEN then Some (eng, IcmpPass)
                  else if negb (msg_type request =? ECHO_REQUEST) then Some (eng, IcmpPass)
                  else if is_local_no_tun then
                    action ← local_reply uninit mapped (v_src ipv4) (PeerManagerHeader.to_peer_id hdr)
                               (PeerManagerHeader.from_peer_id hdr) id request;
                    Some (eng, action)
                  else
                    let real := default mapped real in
                    let entry := mkIcmpEntry (PeerManagerHeader.from_peer_id hdr) (PeerManagerHeader.to_peer_id hdr)
                                   (v_src ipv4) mapped now in
                    Some (with_nat_table eng
                            (<[mkIcmpKey real (echo_ident request) (echo_seq_no request) := entry]> (icmp_nat_table eng)),
                          SendToSocket real request)
              end
    | _, _ => Some (eng, IcmpPass)
    end.

Definition icmp_handle_socket_response eng (uninit : list Z) (peer_ip : Z) (packet : list Z)
    : option (IcmpProxyEngine * list ZCPacket.t) :=
  let ipv4 := view packet in
  let reply := v_payload ipv4 in
  if negb (checked packet) then Some (eng, [])
  else if (v_header_len ipv4 <? IPV4_HEADER_LEN) || (len reply <? ICMP_ECHO_HEADER_LEN) then Some (eng, [])
  else if negb (msg_type reply =? ECHO_REPLY) then Some (eng, [])
  else
    let key := mkIcmpKey peer_ip (echo_ident reply) (echo_seq_no reply) in
    match icmp_nat_table eng !! key with
    | None => Some (eng, [])
    | Some entry =>
        let eng := with_nat_table eng (delete key (icmp_nat_table eng)) in
        if len packet <? v_header_len ipv4 then Some (eng, [])
        else
          r ← compose_replies uninit (local_peer_id entry) (source_peer_id entry) true
                (mkArgs (mapped_destination entry) (source_ip entry) IP_PROTO_ICMP
                   (len packet - v_header_len ipv4) PAYLOAD_MTU (v_ident ipv4)) packet;
          Some (eng, r.1)
    end.

End Packets.

(** * Properties *)

Section Properties.

Context `{!Ipv4Wire} `{!CheckedIpv4} `{!CheckedIpv4Laws} `{!IcmpWire} {C : Type} `{Ipv4Cidr C}.

(** A packet with a header of [h] and [opts] bytes, which [view] reads. *)
Definition framed (packet h opts body : list Z) : Prop :=
  packet = h ++ opts ++ body ∧ len h = IPV4_HEADER_LEN ∧ checked packet = true ∧
  v_header_len (view packet) = IPV4_HEADER_LEN + len opts ∧ v_payload (view packet) = body ∧
  is_uint 16 (v_ident (view packet)).

(** What the engine relies on: the accessors return machine integers. *)
Definition entry_fits (e : IcmpNatEntry) : Prop :=
  is_uint 32 (source_peer_id e) ∧ is_uint 32 (local_peer_id e) ∧ is_uint 32 (source_ip e) ∧ is_uint 32 (mapped_destination e).

(** The header of the first piece is written over the first twenty bytes, and what follows
    them is sent: the options of the header, if any, and not the end of the message. *)
Lemma socket_response_spec eng uninit peer_ip packet h opts body e :
  framed packet h opts body → ICMP_ECHO_HEADER_LEN <= len body <= 65515 → msg_type body = ECHO_REPLY →
  icmp_nat_table eng !! mkIcmpKey peer_ip (echo_ident body) (echo_seq_no body) = Some e → entry_fits e →
  ∃ zs, icmp_handle_socket_response eng uninit peer_ip packet =
      Some (with_nat_table eng (delete (mkIcmpKey peer_ip (echo_ident body) (echo_seq_no body)) (icmp_nat_table eng)), zs) ∧
    delivers (local_peer_id e) (source_peer_id e) true (mapped_destination e) (source_ip e) IP_PROTO_ICMP
      (take (length body) (opts ++ body)) zs.
Proof.
  intros (-> & Hh & Hch & Hhl & Hpl & Hid) Hb Hty He (F1 & F2 & F3 & F4). unfold icmp_handle_socket_response. cbn zeta.
  pose proof (len_nonneg opts). unfold ICMP_ECHO_HEADER_LEN, IPV4_HEADER_LEN in *.
  rewrite Hch, Hhl, Hpl, Hty, Z.eqb_refl, He. cbn [negb].
  rewrite (proj2 (Z.ltb_ge _ _)) by lia. rewrite (proj2 (Z.ltb_ge _ _)) by lia. cbn [orb].
  rewrite !len_app, (proj2 (Z.ltb_ge _ _)) by (rewrite Hh; lia).
  set (payload := take (length body) (opts ++ body)).
  assert (Hl : len payload = len body).
  { unfold payload, len. rewrite length_take, length_app. lia. }
  assert (Hbuf : h ++ opts ++ body = h ++ payload ++ drop (length body) (opts ++ body))
    by (unfold payload; by rewrite take_drop).
  set (args := mkArgs _ _ _ _ _ _).
  destruct (replies_deliver uninit (local_peer_id e) (source_peer_id e) true args h payload (drop (length body) (opts ++ body)))
    as (zs & Hz & Hd); [done|done| |done|].
  { unfold args, args_fit. cbn [payload_len payload_mtu ip_id src_v4 dst_v4]. rewrite Hl, Hh.
    split_and!; try done; try lia. by left. }
  rewrite Hbuf, Hz. by exists zs.
Qed.

(** What a forwarded request leaves behind. *)
Lemma peer_packet_spec eng table uninit p ctx id now eng' real request pl hdr :
  icmp_handle_peer_packet eng table uninit p ctx id now = Some (eng', SendToSocket real request) →
  ZCPacket.payload p = Some pl → ZCPacket.peer_manager_header p = Some hdr →
  icmp_nat_table eng' !! mkIcmpKey real (echo_ident request) (echo_seq_no request) =
    Some (mkIcmpEntry (PeerManagerHeader.from_peer_id hdr) (PeerManagerHeader.to_peer_id hdr) (v_src (view pl))
            (v_dst (view pl)) now) ∧
  msg_type request = ECHO_REQUEST ∧ ICMP_ECHO_HEADER_LEN <= len request ∧
  real = default (v_dst (view pl)) (lookup_v4 table (v_dst (view pl))).
Proof.
  intros Hh Hpl Hhdr. unfold icmp_handle_peer_packet in Hh. rewrite Hhdr, Hpl in Hh. cbn [mbind option_bind] in Hh.
  destruct (_ && _ && _); [done|]. destruct (ic_virtual_ipv4 ctx) as [virtual|]; [|done].
  destruct (_ || PeerManagerHeader.is_no_proxy hdr); [done|]. destruct (negb (checked pl)); [done|].
  destruct (_ || _ || _); [done|]. destruct (_ && _ && _); [done|].
  destruct (icmp_request_bytes eng pl now) as [eng1 [req|]]; [|done].
  destruct (Z.ltb_spec (len req) ICMP_ECHO_HEADER_LEN); [done|].
  destruct (Z.eqb_spec (msg_type req) ECHO_REQUEST); [|done]. cbn [negb] in Hh.
  destruct (ic_no_tun ctx && _).
  - destruct (local_reply _ _ _ _ _ _ _) as [a|] eqn:El; [|done]. cbn in Hh. injection Hh as <- ->.
    unfold local_reply in El. by destruct (compose_replies _ _ _ _ _ _) as [[]|].
  - injection Hh as <- <- <-. cbn [with_nat_table icmp_nat_table]. by rewrite lookup_insert_eq.
Qed.

(** A ping through the proxy is answered: when an echo request of a client has been sent on
    to the real host, the host's reply reaches the client, however it is cut into packets and
    in whatever order they arrive: it comes from the address the client asked for and has
    the bytes of the message, as long as no other request has taken the place of this one and
    the reply has a header without options.  A second reply is dropped. *)
Theorem echo_reply_delivered eng table uninit p ctx id now eng1 real request pl hdr eng2 packet h body :
  icmp_handle_peer_packet eng table uninit p ctx id now = Some (eng1, SendToSocket real request) →
  ZCPacket.payload p = Some pl → ZCPacket.peer_manager_header p = Some hdr →
  PeerManagerHeader.wf hdr → is_uint 32 (v_src (view pl)) → is_uint 32 (v_dst (view pl)) →
  let key := mkIcmpKey real (echo_ident request) (echo_seq_no request) in
  icmp_nat_table eng2 !! key = icmp_nat_table eng1 !! key →
  framed packet h [] body → msg_type body = ECHO_REPLY → len body <= 65515 → ICMP_ECHO_HEADER_LEN <= len body →
  echo_ident body = echo_ident request → echo_seq_no body = echo_seq_no request →
  ∃ eng3 zs, icmp_handle_socket_response eng2 uninit real packet = Some (eng3, zs) ∧
    delivers (PeerManagerHeader.to_peer_id hdr) (PeerManagerHeader.from_peer_id hdr) true
      (v_dst (view pl)) (v_src (view pl)) IP_PROTO_ICMP body zs ∧
    icmp_handle_socket_response eng3 uninit real packet = Some (eng3, []).
Proof.
  intros Hh Hpl Hhdr (P1 & P2 & _) Hs Hd key Hkeep Hfr Hty Hb1 Hb2 Ei Es.
  destruct (peer_packet_spec _ _ _ _ _ _ _ _ _ _ _ _ Hh Hpl Hhdr) as (He & _). fold key in He. rewrite He in Hkeep.
  assert (Ek : key = mkIcmpKey real (echo_ident body) (echo_seq_no body)) by by rewrite Ei, Es.
  rewrite Ek in Hkeep.
  destruct (socket_response_spec eng2 uninit real packet h [] body _ Hfr (conj Hb2 Hb1) Hty Hkeep) as (zs & Hz & Hdel); [done|].
  exists (with_nat_table eng2 (delete key (icmp_nat_table eng2))), zs. rewrite Ek. split; [exact Hz|].
  split; [cbn [app] in Hdel; by rewrite firstn_all in Hdel|].
  destruct Hfr as (_ & _ & Hch & Hhl & Hbody & _). unfold icmp_handle_socket_response. cbn zeta.
  rewrite Hch, Hhl, Hbody, Hty. rewrite (proj2 (Z.ltb_ge _ _)) by done. rewrite (proj2 (Z.ltb_ge _ _)) by done. cbn [negb orb].
  rewrite Z.eqb_refl. cbn [negb]. cbn [with_nat_table icmp_nat_table]. by rewrite lookup_delete_eq.
Qed.

(** A node without a TUN device answers a ping for its own address itself. *)
Theorem own_address_answered eng table uninit p ctx id now pl hdr :
  ic_no_tun ctx = true → ic_virtual_ipv4 ctx = Some (v_dst (view pl)) →
  ZCPacket.payload p = Some pl → ZCPacket.peer_manager_header p = Some hdr → PeerManagerHeader.wf hdr →
  PeerManagerHeader.packet_type hdr = packet_type_u8 Data → PeerManagerHeader.is_no_proxy hdr = false →
  checked pl = true → version pl = 4 → IPV4_HEADER_LEN <= v_header_len (view pl) → next_header pl = IP_PROTO_ICMP →
  is_packet_fragmented (view pl) = false → msg_type (v_payload (view pl)) = ECHO_REQUEST →
  ICMP_ECHO_HEADER_LEN <= len (v_payload (view pl)) <= 65515 →
  is_uint 32 (v_src (view pl)) → is_uint 32 (v_dst (view pl)) → is_uint 16 id →
  let request := v_payload (view pl) in
  ∃ zs, icmp_handle_peer_packet eng table uninit p ctx id now = Some (eng, SendToPeer zs) ∧
    delivers (PeerManagerHeader.to_peer_id hdr) (PeerManagerHeader.from_peer_id hdr) false
      (v_dst (view pl)) (v_src (view pl)) IP_PROTO_ICMP
      (write_echo_reply (echo_ident request) (echo_seq_no request) (echo_data request)) zs.
Proof.
  intros Hnt Hv Hpl Hhdr (P1 & P2 & _) Hty Hnp Hch H4 Hhl Hicmp Hfrag Hreq Hlen Hs Hd Hid request.
  unfold icmp_handle_peer_packet. rewrite Hnt, Hv, Hhdr, Hty, Hnp, Hpl. rewrite andb_false_r.
  cbn [negb orb Z.eqb]. rewrite Z.eqb_refl. cbn [negb orb mbind option_bind]. cbn zeta.
  rewrite Hch, H4, Hicmp, Z.eqb_refl, Z.eqb_refl, (proj2 (Z.ltb_ge _ _)) by done. cbn [negb orb].
  rewrite Z.eqb_refl, andb_true_l, andb_false_r. unfold icmp_request_bytes. rewrite Hfrag. fold request.
  rewrite (proj2 (Z.ltb_ge _ _)) by apply Hlen. fold request in Hreq. rewrite Hreq, Z.eqb_refl. cbn [negb].
  unfold local_reply. set (reply := write_echo_reply _ _ _).
  assert (Hl : len reply = len request).
  { unfold reply. rewrite write_echo_len, echo_data_len by apply Hlen. lia. }
  set (z := replicate _ 0). assert (Hz : len z = IPV4_HEADER_LEN) by done.
  set (args := mkArgs _ _ _ _ _ _).
  destruct (replies_deliver uninit (PeerManagerHeader.to_peer_id hdr) (PeerManagerHeader.from_peer_id hdr) false args z reply [])
    as (zs & E & Hdel); [done|done| |done|].
  { unfold args, args_fit. cbn [payload_len payload_mtu ip_id src_v4 dst_v4]. rewrite len_app, Hz, Hl.
    unfold request in *. unfold ICMP_ECHO_HEADER_LEN in Hlen. split_and!; try done; try lia. by left. }
  rewrite app_nil_r in E. rewrite E. cbn [mbind option_bind fst]. by exists zs.
Qed.

End Properties.

(** ** Witnesses *)

Section Demo.

(** 10.0.0.9 and 10.0.0.8 ping 10.10.10.42, which is 192.168.1.42, with one identifier. *)
Definition demo_ping : list Z := [8; 0; 0; 0; 0; 1; 0; 11; 112; 105; 110; 103].
Definition demo_pong : list Z := [0; 0; 0; 0; 0; 1; 0; 11; 112; 105; 110; 103].
Definition demo_table : list (ProxyCidrEntry PairCidr) := from_snapshot demo_rules.
Definition demo_ctx : IcmpProxyContext := mkIcmpContext (Some 167772162) false false.
Definition demo_request (peer src : Z) : ZCPacket.t :=
  sample_peer_packet peer 7 (sample_ipv4 src 168430122 1 demo_ping).
Definition demo_handle (eng : IcmpProxyEngine) (p : ZCPacket.t) := icmp_handle_peer_packet eng demo_table [] p demo_ctx 5 0.
Definition after_ping (eng : IcmpProxyEngine) (p : ZCPacket.t) : IcmpProxyEngine := from_option fst eng (demo_handle eng p).
Definition demo_reply : list Z := sample_ipv4 3232235818 10 1 demo_pong.

Lemma echo_reply_delivered_witness :
  ∃ eng3 zs, icmp_handle_socket_response (after_ping (new_icmp_engine 10) (demo_request 3 167772169)) [] 3232235818 demo_reply =
      Some (eng3, zs) ∧
    delivers 7 3 true 168430122 167772169 IP_PROTO_ICMP demo_pong zs.
Proof.
  set (eng1 := after_ping (new_icmp_engine 10) (demo_request 3 167772169)).
  assert (Hw : PeerManagerHeader.wf (PeerManagerHeader.mk 3 7 1 0 1 0 32)) by (vm_compute; intuition congruence).
  destruct (echo_reply_delivered (new_icmp_engine 10) demo_table [] (demo_request 3 167772169) demo_ctx 5 0 eng1 3232235818
    demo_ping (sample_ipv4 167772169 168430122 1 demo_ping) (PeerManagerHeader.mk 3 7 1 0 1 0 32) eng1 demo_reply
    (take 20 demo_reply) demo_pong) as (eng3 & zs & H1 & H2 & _);
    [vm_compute; reflexivity|vm_compute; reflexivity|vm_compute; reflexivity|exact Hw|vm_compute; intuition congruence|
     vm_compute; intuition congruence|reflexivity|
     |reflexivity|vm_compute; intuition congruence|vm_compute; intuition congruence|reflexivity|reflexivity|].
  - vm_compute. intuition congruence.
  - exists eng3, zs. split; [exact H1|exact H2].
Defined.

(** Requests of two clients with one identifier and number share an entry: both replies go to
    the second client or are dropped, the first gets none. *)
Example second_ping_takes_the_reply :
  let eng := after_ping (after_ping (new_icmp_engine 10) (demo_request 3 167772169)) (demo_request 4 167772168) in
  ∃ eng' z, icmp_handle_socket_response eng [] 3232235818 demo_reply = Some (eng', [z]) ∧
    PeerManagerHeader.to_peer_id <$> ZCPacket.peer_manager_header z = Some 4 ∧
    icmp_handle_socket_response eng' [] 3232235818 demo_reply = Some (eng', []).
Proof. eexists _, _. split; [vm_compute; reflexivity|]. by split; vm_compute. Qed.

(** A reply with four bytes of options in its header is sent on with them at the front of the
    message and without the last four bytes. *)
Definition demo_reply_with_options : list Z :=
  [70; 0] ++ to_be 2 (24 + 12) ++ [0; 7; 64; 0; 32; 1; 0; 0] ++ to_be 4 3232235818 ++ to_be 4 10 ++ [1; 1; 1; 1] ++ demo_pong.

Example options_spoil_reply :
  ∃ eng' z p, icmp_handle_socket_response (after_ping (new_icmp_engine 10) (demo_request 3 167772169)) [] 3232235818
      demo_reply_with_options = Some (eng', [z]) ∧
    ZCPacket.payload z = Some p ∧ v_payload (view p) = [1; 1; 1; 1] ++ take 8 demo_pong.
Proof. eexists _, _, _. split; [vm_compute; reflexivity|]. split; vm_compute; reflexivity. Qed.

End Demo.
