(* ===== verification/PublicIpv6.v ===== *)
(** * The public IPv6 service

    Models easytier-core/src/peers/public_ipv6/service.rs: the allocator of addresses, the
    provider's leases with the server of its RPC calls, and the client that keeps a lease and
    tells its host of addresses and routes.  The lock of a state is held for one access
    only, and two calls await in their middle: [acquire_lease] for the reserved addresses and
    [sync_client_state] for the answer of the provider.  Both are two steps here, and what
    they read before is handed to the second.  Times are seconds, uuids are numbers.

    [Ipv6Cidr] of the [cidr] crate is the class [Prefix6]; [Ipv6Inet] is the record of its address and
    length.  [PublicIpv6RouteControl] is the record [RouteControl] with the published lease in
    the state: its snapshot depends on that lease. *)

From stdpp Require Import base gmap list numbers sets.
From Stdlib Require Import ZArith Lia.
From S2P Require Import Prelude.
Local Open Scope Z_scope.

(** ** Prefixes and addresses *)

Class Prefix6 (C : Type) := {
  prefix6_eq_dec :: EqDecision C;
  prefix_first : C → Z;
  prefix_length : C → Z;
  prefix_contains : C → Z → bool
}.

Definition prefix_size `{Prefix6 C} (c : C) : Z := 2 ^ (128 - prefix_length c).

Class Prefix6Laws (C : Type) `{Prefix6 C} : Prop := {
  prefix_length_ok c : 0 <= prefix_length c <= 128;
  prefix_contains_ok c a : prefix_contains c a = true ↔ prefix_first c <= a < prefix_first c + prefix_size c
}.

Record Ipv6Inet : Type := mkInet6 { inet6_addr : Z; inet6_len : Z }.

#[export] Instance inet6_eq_dec : EqDecision Ipv6Inet.
Proof. solve_decision. Defined.
#[export] Instance inet6_countable : Countable Ipv6Inet.
Proof. apply (inj_countable' (λ i, (inet6_addr i, inet6_len i)) (λ p, mkInet6 p.1 p.2)). by intros []. Defined.

Definition PUBLIC_IPV6_LEASE_TTL : Z := 120.
Definition PUBLIC_IPV6_RENEW_INTERVAL : Z := 40.

Section PublicIpv6.

Context {C : Type} `{Prefix6 C}.

Record PublicIpv6Provider : Type := mkProvider { pv_peer_id : Z; pv_inst_id : Z; pv_prefix : C }.

#[export] Instance provider_eq_dec : EqDecision PublicIpv6Provider.
Proof. solve_decision. Defined.

Record PublicIpv6ProviderLease : Type := mkLease {
  l_peer_id : Z;
  l_inst_id : Z;
  l_addr : Ipv6Inet;
  l_valid_until : Z;
  l_reused : bool
}.

#[export] Instance lease_eq_dec : EqDecision PublicIpv6ProviderLease.
Proof. solve_decision. Defined.

Record PublicIpv6ProviderState : Type := mkProviderState {
  ps_provider : PublicIpv6Provider;
  ps_leases : gmap Z PublicIpv6ProviderLease
}.

(** [last_error] is never set. *)
Record PublicIpv6ClientState : Type := mkClientState {
  cs_provider : PublicIpv6Provider;
  cs_lease : PublicIpv6ProviderLease
}.

#[export] Instance client_state_eq_dec : EqDecision PublicIpv6ClientState.
Proof. solve_decision. Defined.

Record PublicIpv6PeerRouteInfo : Type := mkRouteInfo {
  pi_peer_id : Z;
  pi_inst_id : option Z;
  pi_is_provider : bool;
  pi_prefix : option C;
  pi_lease : option Ipv6Inet;
  pi_reachable : bool
}.

(** The snapshot of the peers once a lease is published, and whether publishing another one
    changes the info of this node. *)
Record RouteControl : Type := mkRouteControl {
  rc_my_peer_id : Z;
  rc_snapshot : option Ipv6Inet → list PublicIpv6PeerRouteInfo;
  rc_info_changes : bool
}.

(** What the service tells its host. *)
Inductive Notice : Type :=
| LeaseChanged (old new : option Ipv6Inet)
| RoutesChanged (added removed : gset Ipv6Inet).

Record PublicIpv6Service : Type := mkPublicIpv6 {
  provider_state : option PublicIpv6ProviderState;
  client_state : option PublicIpv6ClientState;
  route_cache : gset Ipv6Inet;
  my_addr_cache : option Ipv6Inet;
  published_lease : option Ipv6Inet
}.

Implicit Types (sv : PublicIpv6Service) (peers : list PublicIpv6PeerRouteInfo) (rc : RouteControl).

Definition new_service : PublicIpv6Service := mkPublicIpv6 None None ∅ None None.

Definition set_provider_state sv (next : option PublicIpv6ProviderState) : PublicIpv6Service :=
  mkPublicIpv6 next (client_state sv) (route_cache sv) (my_addr_cache sv) (published_lease sv).

Definition set_client_state sv (next : option PublicIpv6ClientState) : PublicIpv6Service * bool :=
  if bool_decide (client_state sv = next) then (sv, false)
  else (mkPublicIpv6 (provider_state sv) next (route_cache sv) (my_addr_cache sv) (published_lease sv), true).

(** ** The provider *)

Definition provider_of (info : PublicIpv6PeerRouteInfo) : option PublicIpv6Provider :=
  if pi_is_provider info && pi_reachable info
  then inst_id ← pi_inst_id info; prefix ← pi_prefix info; Some (mkProvider (pi_peer_id info) inst_id prefix)
  else None.

(** [min_by_key]: the first of the smallest. *)
Definition smaller_provider (best : option PublicIpv6Provider) (p : PublicIpv6Provider) : option PublicIpv6Provider :=
  match best with
  | Some b => if pv_inst_id b <=? pv_inst_id p then Some b else Some p
  | None => Some p
  end.

Definition selected_provider_from_snapshot peers : option PublicIpv6Provider :=
  foldl smaller_provider None (omap provider_of peers).

Definition snapshot rc sv : list PublicIpv6PeerRouteInfo := rc_snapshot rc (published_lease sv).
Definition selected_provider rc sv : option PublicIpv6Provider := selected_provider_from_snapshot (snapshot rc sv).

Definition clear_provider_state_if_provider_changed sv (provider : option PublicIpv6Provider) : PublicIpv6Service :=
  match provider_state sv with
  | Some st => if bool_decide (provider = Some (ps_provider st)) then sv else set_provider_state sv None
  | None => sv
  end.

Definition clear_client_state_if_provider_changed sv (provider : option PublicIpv6Provider) : PublicIpv6Service * bool :=
  match client_state sv with
  | Some st => if bool_decide (provider = Some (cs_provider st)) then (sv, false) else set_client_state sv None
  | None => (sv, false)
  end.

Definition prune_expired_leases (provider : PublicIpv6Provider) (current : option PublicIpv6ProviderState) (now : Z)
    : PublicIpv6ProviderState :=
  mkProviderState provider
    (filter (λ kl, now < l_valid_until kl.2) (from_option ps_leases ∅ current)).

(** *** Addresses *)

(** The first offset from [start] on, cyclic in [1..usable], that is not used.  Only the
    used ones are passed over, so one round more than there are of them is enough. *)
Fixpoint find_offset (fuel : nat) (used : gset Z) (usable start step : Z) : option Z :=
  match fuel with
  | O => None
  | S fuel =>
      let offset := (start - 1 + step) mod usable + 1 in
      if bool_decide (offset ∈ used) then find_offset fuel used usable start (step + 1) else Some offset
  end.

Definition free_offset (used : gset Z) (usable inst_id : Z) : option Z :=
  if usable =? 0 then (if bool_decide (0 ∈ used) then None else Some 0)
  else find_offset (Z.to_nat (Z.min usable (Z.of_nat (size used) + 1))) used usable (inst_id mod usable + 1) 0.

Definition new_allocation (inst_id : Z) (addr : Ipv6Inet) (old_map : gmap Z Ipv6Inet) : PublicIpv6ProviderLease :=
  mkLease 0 inst_id addr 0 (bool_decide (old_map !! inst_id = Some addr)).

(** Whether the old address of an instance can be kept. *)
Definition kept_address (prefix : C) (used : gset Z) (old_map : gmap Z Ipv6Inet) (inst_id : Z) : option Ipv6Inet :=
  existing ← old_map !! inst_id;
  if prefix_contains prefix (inet6_addr existing) &&
     negb (bool_decide (inet6_addr existing - prefix_first prefix ∈ used))
  then Some existing else None.

Fixpoint allocate_loop (prefix : C) (used : gset Z) (old_map : gmap Z Ipv6Inet) (inst_ids : list Z)
    : list PublicIpv6ProviderLease :=
  match inst_ids with
  | [] => []
  | inst_id :: rest =>
      match kept_address prefix used old_map inst_id with
      | Some addr =>
          new_allocation inst_id addr old_map ::
            allocate_loop prefix ({[inet6_addr addr - prefix_first prefix]} ∪ used) old_map rest
      | None =>
          if prefix_length prefix =? 0 then allocate_loop prefix used old_map rest
          else
            match free_offset used (prefix_size prefix - 1) inst_id with
            | None => []
            | Some offset =>
                new_allocation inst_id (mkInet6 (prefix_first prefix + offset) 128) old_map ::
                  allocate_loop prefix ({[offset]} ∪ used) old_map rest
            end
      end
  end.

Definition used_offsets (prefix : C) (reserved : gset Z) : gset Z :=
  set_map (λ a, a - prefix_first prefix) (filter (λ a, prefix_contains prefix a = true) reserved).

Definition allocate_public_ipv6_leases (prefix : C) (inst_ids : list Z) (reserved : gset Z) (old_map : gmap Z Ipv6Inet)
    : list PublicIpv6ProviderLease :=
  allocate_loop prefix (used_offsets prefix reserved) old_map inst_ids.

(** *** Leases *)

Inductive LeaseError : Type :=
| NoActiveProvider | NotSelectedProvider | RequestedMismatch | LeaseNotFound | OwnerMismatch | NoFreeAddress.

#[export] Instance lease_error_eq_dec : EqDecision LeaseError.
Proof. solve_decision. Defined.

Record AcquireRequest : Type := mkAcquire {
  rq_peer_id : Z;
  rq_inst_id : Z;
  rq_renew_only : bool;
  rq_requested : option Ipv6Inet
}.

(** Where [acquire_lease] is: returned, or waiting with what it has read. *)
Inductive AcquireStep : Type :=
| Acquired (r : result PublicIpv6ProviderLease LeaseError)
| AwaitReserved (provider : PublicIpv6Provider) (state : PublicIpv6ProviderState).

Definition renewed (l : PublicIpv6ProviderLease) (peer_id now : Z) : PublicIpv6ProviderLease :=
  mkLease peer_id (l_inst_id l) (l_addr l) (now + PUBLIC_IPV6_LEASE_TTL) true.

Definition acquire_begin sv rc (rq : AcquireRequest) (now : Z) : PublicIpv6Service * AcquireStep :=
  match selected_provider rc sv with
  | None => (sv, Acquired (Err NoActiveProvider))
  | Some provider =>
      if negb (pv_peer_id provider =? rc_my_peer_id rc) then (sv, Acquired (Err NotSelectedProvider))
      else
        let st := prune_expired_leases provider (provider_state sv) now in
        match ps_leases st !! rq_inst_id rq with
        | Some existing =>
            if negb (bool_decide (rq_requested rq = None)) && negb (bool_decide (rq_requested rq = Some (l_addr existing)))
            then (sv, Acquired (Err RequestedMismatch))
            else
              let lease := renewed existing (rq_peer_id rq) now in
              (set_provider_state sv (Some (mkProviderState provider (<[rq_inst_id rq := lease]> (ps_leases st)))),
               Acquired (Ok lease))
        | None => if rq_renew_only rq then (sv, Acquired (Err LeaseNotFound)) else (sv, AwaitReserved provider st)
        end
  end.

Definition leased_addresses (st : PublicIpv6ProviderState) : gset Z :=
  list_to_set (map (λ kl, inet6_addr (l_addr kl.2)) (map_to_list (ps_leases st))).

Definition acquire_finish sv (rq : AcquireRequest) (provider : PublicIpv6Provider) (st : PublicIpv6ProviderState)
    (reserved : gset Z) (now : Z) : PublicIpv6Service * result PublicIpv6ProviderLease LeaseError :=
  match last (allocate_public_ipv6_leases (pv_prefix provider) [rq_inst_id rq] (reserved ∪ leased_addresses st)
                (l_addr <$> ps_leases st)) with
  | None => (sv, Err NoFreeAddress)
  | Some l =>
      let lease := mkLease (rq_peer_id rq) (l_inst_id l) (l_addr l) (now + PUBLIC_IPV6_LEASE_TTL) (l_reused l) in
      (set_provider_state sv (Some (mkProviderState provider (<[rq_inst_id rq := lease]> (ps_leases st)))), Ok lease)
  end.

(** A call that nothing interrupts. *)
Definition acquire_lease sv rc (rq : AcquireRequest) (reserved : gset Z) (now : Z)
    : PublicIpv6Service * result PublicIpv6ProviderLease LeaseError :=
  match acquire_begin sv rc rq now with
  | (sv, Acquired r) => (sv, r)
  | (sv, AwaitReserved provider st) => acquire_finish sv rq provider st reserved now
  end.

Definition release_lease sv rc (peer_id inst_id now : Z) : PublicIpv6Service * bool :=
  match selected_provider rc sv with
  | None => (sv, false)
  | Some provider =>
      if negb (pv_peer_id provider =? rc_my_peer_id rc) then (sv, false)
      else
        let st := prune_expired_leases provider (provider_state sv) now in
        match ps_leases st !! inst_id with
        | Some l =>
            if l_peer_id l =? peer_id
            then (set_provider_state sv (Some (mkProviderState provider (delete inst_id (ps_leases st)))), true)
            else (sv, false)
        | None => (sv, false)
        end
  end.

Definition get_lease sv rc (peer_id inst_id : Z) (requested : option Ipv6Inet) (now : Z)
    : result (PublicIpv6Provider * PublicIpv6ProviderLease) LeaseError :=
  match selected_provider rc sv with
  | None => Err NoActiveProvider
  | Some provider =>
      if negb (pv_peer_id provider =? rc_my_peer_id rc) then Err NotSelectedProvider
      else
        match ps_leases (prune_expired_leases provider (provider_state sv) now) !! inst_id with
        | None => Err LeaseNotFound
        | Some l =>
            if negb (l_peer_id l =? peer_id) then Err OwnerMismatch
            else if negb (bool_decide (requested = None)) && negb (bool_decide (requested = Some (l_addr l)))
            then Err RequestedMismatch
            else Ok (provider, l)
        end
  end.

Definition gc_provider_leases sv rc (now : Z) : PublicIpv6Service :=
  let provider := selected_provider rc sv in
  let sv := clear_provider_state_if_provider_changed sv provider in
  match provider with
  | None => sv
  | Some p =>
      if negb (pv_peer_id p =? rc_my_peer_id rc) then sv
      else set_provider_state sv (Some (prune_expired_leases p (provider_state sv) now))
  end.

Definition local_provider_leases sv rc (now : Z) : option (PublicIpv6Provider * gmap Z PublicIpv6ProviderLease) :=
  provider ← selected_provider rc sv;
  if negb (pv_peer_id provider =? rc_my_peer_id rc) then None
  else Some (provider, ps_leases (prune_expired_leases provider (provider_state sv) now)).

(** *** Replies of the RPC server *)

Record LeaseReply : Type := mkReply {
  rp_provider : PublicIpv6Provider;
  rp_leased_addr : option Ipv6Inet;
  rp_valid_until : option Z;
  rp_reused : bool;
  rp_error : option LeaseError
}.

Definition build_lease_reply (provider : PublicIpv6Provider) (lease : option PublicIpv6ProviderLease)
    (error : option LeaseError) : LeaseReply :=
  mkReply provider (l_addr <$> lease) (l_valid_until <$> lease) (from_option l_reused false lease) error.

(** The reply to [acquire_lease] and [renew_lease]; [None] is an RPC error. *)
Definition acquire_reply sv rc (r : result PublicIpv6ProviderLease LeaseError) : option LeaseReply :=
  provider ← selected_provider rc sv;
  Some match r with
       | Ok lease => build_lease_reply provider (Some lease) None
       | Err e => build_lease_reply provider None (Some e)
       end.

Definition get_reply sv rc (r : result (PublicIpv6Provider * PublicIpv6ProviderLease) LeaseError) : option LeaseReply :=
  match r with
  | Ok (provider, lease) => Some (build_lease_reply provider (Some lease) None)
  | Err e => provider ← selected_provider rc sv; Some (build_lease_reply provider None (Some e))
  end.

(** ** The client and its host *)

Definition collect_runtime_from_snapshot sv rc peers : option Ipv6Inet * gset Ipv6Inet :=
  foldl (λ acc info,
    match pi_lease info with
    | None => acc
    | Some lease =>
        if pi_peer_id info =? rc_my_peer_id rc then (Some lease, acc.2)
        else if pi_reachable info then (acc.1, {[lease]} ∪ acc.2) else acc
    end) (l_addr ∘ cs_lease <$> client_state sv, ∅) peers.

Definition reconcile_runtime_from_snapshot sv rc (auto : bool) peers : PublicIpv6Service * list Notice :=
  let '(addr, routes) := collect_runtime_from_snapshot sv rc peers in
  let addr := if auto then addr else None in
  let lease_notice := if bool_decide (my_addr_cache sv = addr) then [] else [LeaseChanged (my_addr_cache sv) addr] in
  let route_notice := if bool_decide (route_cache sv = routes) then []
                      else [RoutesChanged (routes ∖ route_cache sv) (route_cache sv ∖ routes)] in
  (mkPublicIpv6 (provider_state sv) (client_state sv) routes addr (published_lease sv), lease_notice ++ route_notice).

Definition reconcile_runtime sv rc (auto : bool) : PublicIpv6Service * list Notice :=
  reconcile_runtime_from_snapshot sv rc auto (snapshot rc sv).

(** [publish_self_public_ipv6_lease] of the route service. *)
Definition publish_self sv rc (lease : option Ipv6Inet) : PublicIpv6Service * bool :=
  if bool_decide (published_lease sv = lease) then (sv, false)
  else (mkPublicIpv6 (provider_state sv) (client_state sv) (route_cache sv) (my_addr_cache sv) lease, rc_info_changes rc).

Definition publish_current_client_lease sv rc : PublicIpv6Service * bool :=
  publish_self sv rc (l_addr ∘ cs_lease <$> client_state sv).

Definition clear_client_lease_state sv rc (auto state_changed : bool) : PublicIpv6Service * list Notice * bool :=
  let '(sv, changed) := set_client_state sv None in
  if state_changed || changed
  then
    let '(sv, peer_info_changed) := publish_self sv rc None in
    let '(sv, notices) := reconcile_runtime sv rc auto in
    (sv, notices, peer_info_changed)
  else (sv, [], false).

Definition handle_route_change sv rc (auto : bool) : PublicIpv6Service * list Notice * bool :=
  let peers := snapshot rc sv in
  let provider := selected_provider_from_snapshot peers in
  let sv := clear_provider_state_if_provider_changed sv provider in
  let '(sv, client_changed) := clear_client_state_if_provider_changed sv provider in
  if client_changed
  then
    let '(sv, peer_info_changed) := publish_current_client_lease sv rc in
    let '(sv, notices) := reconcile_runtime sv rc auto in
    (sv, notices, peer_info_changed)
  else
    let '(sv, notices) := reconcile_runtime_from_snapshot sv rc auto peers in
    (sv, notices, false).

(** Where [sync_client_state] is: returned, or waiting for the provider; then it has read its
    own state and whether that was cleared, and renews when it holds a lease of the provider. *)
Inductive SyncStep : Type :=
| Synced (peer_info_changed : bool)
| AwaitReply (provider : PublicIpv6Provider) (current : option PublicIpv6ClientState) (state_changed renews : bool).

Definition need_rpc (current : option PublicIpv6ClientState) (provider : PublicIpv6Provider) (now : Z) : bool :=
  match current with
  | None => true
  | Some st => negb (bool_decide (cs_provider st = provider)) || (l_valid_until (cs_lease st) <=? now + PUBLIC_IPV6_RENEW_INTERVAL)
  end.

(** [rpc] says whether the RPC manager is still there. *)
Definition sync_begin sv rc (auto rpc : bool) (now : Z) : PublicIpv6Service * list Notice * SyncStep :=
  if negb auto then
    let '(sv, cleared) := clear_client_state_if_provider_changed sv None in
    let '(sv, notices, changed) := clear_client_lease_state sv rc auto cleared in
    (sv, notices, Synced changed)
  else
    let provider := selected_provider rc sv in
    let sv := clear_provider_state_if_provider_changed sv provider in
    let '(sv, state_changed) := clear_client_state_if_provider_changed sv provider in
    match provider with
    | None => let '(sv, notices, changed) := clear_client_lease_state sv rc auto state_changed in (sv, notices, Synced changed)
    | Some p =>
        if pv_peer_id p =? rc_my_peer_id rc
        then let '(sv, notices, changed) := clear_client_lease_state sv rc auto state_changed in (sv, notices, Synced changed)
        else if negb (need_rpc (client_state sv) p now) || negb rpc
        then let '(sv, notices) := if state_changed then reconcile_runtime sv rc auto else (sv, []) in (sv, notices, Synced false)
        else (sv, [], AwaitReply p (client_state sv) state_changed
                        (from_option (λ st, bool_decide (cs_provider st = p)) false (client_state sv)))
    end.

(** A reply without an error to the renewal, else the reply to the acquisition. *)
Definition provider_reply (renews : bool) (renew acquire : option LeaseReply) : option LeaseReply :=
  match renew with
  | Some r => if renews && bool_decide (rp_error r = None) then Some r else acquire
  | None => acquire
  end.

Definition sync_finish sv rc (auto : bool) (my_inst_id : Z) (provider : PublicIpv6Provider)
    (current : option PublicIpv6ClientState) (state_changed : bool) (reply : option LeaseReply) (now : Z)
    : PublicIpv6Service * list Notice * bool :=
  let finish '(sv, changed) :=
    if state_changed || changed
    then
      let '(sv, peer_info_changed) := publish_current_client_lease sv rc in
      let '(sv, notices) := reconcile_runtime sv rc auto in
      (sv, notices, peer_info_changed)
    else (sv, [], false) in
  let failed :=
    if from_option (λ st, l_valid_until (cs_lease st) <=? now) true current
    then finish (set_client_state sv None) else finish (sv, false) in
  match reply with
  | Some r =>
      match rp_error r with
      | None =>
          match rp_leased_addr r with
          | None => (sv, [], false)
          | Some addr =>
              let lease := mkLease (rc_my_peer_id rc) my_inst_id addr
                             (default (now + PUBLIC_IPV6_LEASE_TTL) (rp_valid_until r)) (rp_reused r) in
              finish (set_client_state sv (Some (mkClientState provider lease)))
          end
      | Some _ => failed
      end
  | None => failed
  end.

Definition provider_peer_id_for_client sv : option Z := pv_peer_id ∘ cs_provider <$> client_state sv.

(** ** Calls in sequence

    [acquire_lease] runs here without an interruption. *)

Inductive Ipv6Event : Type :=
| Ev6Acquire (rc : RouteControl) (rq : AcquireRequest) (reserved : gset Z) (now : Z)
| Ev6Release (rc : RouteControl) (peer_id inst_id now : Z)
| Ev6Gc (rc : RouteControl) (now : Z)
| Ev6RouteChange (rc : RouteControl) (auto : bool)
| Ev6SyncBegin (rc : RouteControl) (auto rpc : bool) (now : Z)
| Ev6SyncFinish (rc : RouteControl) (auto : bool) (my_inst_id : Z) (provider : PublicIpv6Provider)
    (current : option PublicIpv6ClientState) (state_changed : bool) (reply : option LeaseReply) (now : Z).

Definition ipv6_step sv (ev : Ipv6Event) : PublicIpv6Service * list Notice :=
  match ev with
  | Ev6Acquire rc rq reserved now => ((acquire_lease sv rc rq reserved now).1, [])
  | Ev6Release rc peer_id inst_id now => ((release_lease sv rc peer_id inst_id now).1, [])
  | Ev6Gc rc now => (gc_provider_leases sv rc now, [])
  | Ev6RouteChange rc auto => (handle_route_change sv rc auto).1
  | Ev6SyncBegin rc auto rpc now => (sync_begin sv rc auto rpc now).1
  | Ev6SyncFinish rc auto my_inst_id provider current state_changed reply now =>
      (sync_finish sv rc auto my_inst_id provider current state_changed reply now).1
  end.

Fixpoint ipv6_run sv (evs : list Ipv6Event) : PublicIpv6Service * list Notice :=
  match evs with
  | [] => (sv, [])
  | ev :: evs =>
      let '(sv, notices) := ipv6_step sv ev in
      let '(sv, rest) := ipv6_run sv evs in
      (sv, notices ++ rest)
  end.

(** The host's copy of the address and the routes; [None] when a notice does not fit it. *)
Definition host_step (st : option Ipv6Inet * gset Ipv6Inet) (n : Notice) : option (option Ipv6Inet * gset Ipv6Inet) :=
  match n with
  | LeaseChanged old new => if bool_decide (old = st.1) then Some (new, st.2) else None
  | RoutesChanged added removed =>
      if bool_decide (added ## st.2) && bool_decide (removed ⊆ st.2) then Some (st.1, (st.2 ∪ added) ∖ removed) else None
  end.

Fixpoint host_run (st : option Ipv6Inet * gset Ipv6Inet) (ns : list Notice) : option (option Ipv6Inet * gset Ipv6Inet) :=
  match ns with
  | [] => Some st
  | n :: ns => st ← host_step st n; host_run st ns
  end.

(** * Properties *)

Context `{!Prefix6Laws C}.

(** ** Addresses *)

Lemma find_offset_spec fuel (used : gset Z) usable start step :
  0 < usable →
  match find_offset fuel used usable start step with
  | Some o => o ∉ used ∧ 1 <= o <= usable
  | None => ∀ i, 0 <= i < Z.of_nat fuel → (start - 1 + step + i) mod usable + 1 ∈ used
  end.
Proof.
  intros Hu. revert step. induction fuel as [|fuel IH]; intros step; cbn [find_offset]; [lia|].
  case_bool_decide as Hin.
  - specialize (IH (step + 1)). destruct (find_offset fuel used usable start (step + 1)); [done|].
    intros i Hi. destruct (decide (i = 0)) as [->|]; [by rewrite Z.add_0_r|].
    specialize (IH (i - 1) ltac:(lia)). by replace (start - 1 + step + i) with (start - 1 + (step + 1) + (i - 1)) by lia.
  - split; [done|]. pose proof (Z.mod_pos_bound (start - 1 + step) usable Hu). lia.
Qed.

(** Distinct offsets of a round are as many as its steps. *)
Lemma round_size (used : gset Z) usable s (n : nat) :
  0 < usable → Z.of_nat n <= usable → (∀ i, 0 <= i < Z.of_nat n → (s + i) mod usable + 1 ∈ used) → (n <= size used)%nat.
Proof.
  intros Hu Hn Hin.
  assert (Hnd : NoDup (map (λ i, (s + Z.of_nat i) mod usable + 1) (seq 0 n))).
  { apply NoDup_fmap_2_strong; [|apply NoDup_seq]. intros x y Hx%elem_of_seq Hy%elem_of_seq E.
    assert (E' : (s + Z.of_nat x) mod usable = (s + Z.of_nat y) mod usable) by lia.
    assert ((Z.of_nat x - Z.of_nat y) mod usable = 0) as Hm.
    { replace (Z.of_nat x - Z.of_nat y) with ((s + Z.of_nat x) - (s + Z.of_nat y)) by lia.
      rewrite Zminus_mod, E', Z.sub_diag. by apply Z.mod_0_l; lia. }
    apply Z.mod_divide in Hm as [q Hq]; [|lia]. assert (q < 1) by nia. assert (-1 < q) by nia. assert (q = 0) as -> by lia. lia. }
  apply (NoDup_submseteq _ (elements used)) in Hnd.
  - apply submseteq_length in Hnd. by rewrite length_map, length_seq in Hnd.
  - intros x Hx. apply elem_of_elements. apply list_elem_of_fmap in Hx as (i & -> & Hi%elem_of_seq). apply Hin. lia.
Qed.

Lemma free_offset_spec (used : gset Z) usable inst_id :
  0 <= usable →
  match free_offset used usable inst_id with
  | Some o => o ∉ used ∧ 0 <= o <= usable ∧ (usable ≠ 0 → o ≠ 0)
  | None => ∀ o, (if usable =? 0 then o = 0 else 1 <= o <= usable) → o ∈ used
  end.
Proof.
  intros Hu. unfold free_offset. destruct (Z.eqb_spec usable 0) as [->|Hne].
  { case_bool_decide; [by intros o ->|]. split; [done|]. split; [lia|done]. }
  set (fuel := Z.to_nat _). pose proof (find_offset_spec fuel used usable (inst_id mod usable + 1) 0 ltac:(lia)) as Hs.
  destruct (find_offset _ _ _ _ _) as [o|]; [destruct Hs; split; [done|]; split; lia|].
  set (s := inst_id mod usable + 1 - 1 + 0) in Hs.
  assert (Hfull : Z.of_nat fuel = usable).
  { pose proof (round_size used usable s fuel ltac:(lia) ltac:(lia) Hs). lia. }
  intros o Ho. specialize (Hs ((o - 1 - s) mod usable)).
  pose proof (Z.mod_pos_bound (o - 1 - s) usable ltac:(lia)).
  specialize (Hs ltac:(lia)). rewrite Z.add_mod_idemp_r in Hs by lia. replace (s + (o - 1 - s)) with (o - 1) in Hs by lia.
  rewrite Z.mod_small in Hs by lia. by replace (o - 1 + 1) with o in Hs by lia.
Qed.

Lemma prefix_size_pos (c : C) : 0 < prefix_size c.
Proof. unfold prefix_size. pose proof (prefix_length_ok c). apply Z.pow_pos_nonneg; lia. Qed.

Definition addr_of (l : PublicIpv6ProviderLease) : Z := inet6_addr (l_addr l).

Lemma kept_address_spec prefix (used : gset Z) old_map inst_id addr :
  kept_address prefix used old_map inst_id = Some addr →
  prefix_contains prefix (inet6_addr addr) = true ∧ inet6_addr addr - prefix_first prefix ∉ used.
Proof.
  unfold kept_address. destruct (old_map !! inst_id) as [e|]; [|done]. cbn [mbind option_bind].
  destruct (prefix_contains prefix (inet6_addr e)) eqn:Ec; [|done]. cbn [andb].
  case_bool_decide; cbn [negb]; [done|]. intros [= <-]. done.
Qed.

Lemma allocate_loop_spec prefix (used : gset Z) old_map inst_ids :
  let ls := allocate_loop prefix used old_map inst_ids in
  NoDup (map addr_of ls) ∧
  ∀ l, l ∈ ls → prefix_contains prefix (addr_of l) = true ∧ addr_of l - prefix_first prefix ∉ used.
Proof.
  cbn zeta. revert used. induction inst_ids as [|i rest IH]; intros used; cbn [allocate_loop]; [split; [constructor|by intros l ?%not_elem_of_nil]|].
  assert (Hcons : ∀ addr, prefix_contains prefix (inet6_addr addr) = true → inet6_addr addr - prefix_first prefix ∉ used →
    let ls := new_allocation i addr old_map :: allocate_loop prefix ({[inet6_addr addr - prefix_first prefix]} ∪ used) old_map rest in
    NoDup (map addr_of ls) ∧
    ∀ l, l ∈ ls → prefix_contains prefix (addr_of l) = true ∧ addr_of l - prefix_first prefix ∉ used).
  { intros addr Hc Hn. destruct (IH ({[inet6_addr addr - prefix_first prefix]} ∪ used)) as [Hnd Hall]. split.
    - cbn [map]. constructor; [|done]. intros (l & E & Hl)%list_elem_of_fmap. apply Hall in Hl as [_ Hl].
      apply Hl, elem_of_union_l, elem_of_singleton. rewrite <- E. done.
    - intros l [->|Hl]%elem_of_cons; [done|]. apply Hall in Hl as [Hl1 Hl2]. split; [done|]. set_solver. }
  destruct (kept_address prefix used old_map i) as [addr|] eqn:Ek.
  { apply kept_address_spec in Ek as [Hc Hn]. by apply Hcons. }
  destruct (Z.eqb_spec (prefix_length prefix) 0); [apply IH|].
  pose proof (prefix_size_pos prefix) as Hpos. assert (0 <= prefix_size prefix - 1) as Hu by lia.
  pose proof (free_offset_spec used (prefix_size prefix - 1) i Hu) as Hf.
  destruct (free_offset used (prefix_size prefix - 1) i) as [o|]; [|split; [constructor|by intros l ?%not_elem_of_nil]].
  destruct Hf as (Hn & Ho & _).
  assert (Eo : inet6_addr (mkInet6 (prefix_first prefix + o) 128) - prefix_first prefix = o) by (cbn; lia).
  specialize (Hcons (mkInet6 (prefix_first prefix + o) 128)). rewrite Eo in Hcons. apply Hcons; [|done].
  apply prefix_contains_ok. cbn. lia.
Qed.

(** ** Leases *)

Definition leases_of sv : gmap Z PublicIpv6ProviderLease := from_option ps_leases ∅ (provider_state sv).

Definition leases_ok (m : gmap Z PublicIpv6ProviderLease) : Prop :=
  (∀ i l, m !! i = Some l → l_inst_id l = i) ∧
  ∀ i j li lj, m !! i = Some li → m !! j = Some lj → addr_of li = addr_of lj → i = j.

Lemma leases_ok_sub m m' : leases_ok m → m' ⊆ m → leases_ok m'.
Proof.
  intros [H1 H2] Hs. split; [intros i l Hi; by apply H1, (lookup_weaken _ _ _ _ Hi)|].
  intros i j li lj Hi Hj. apply H2; by eapply lookup_weaken.
Qed.

(** A lease takes the place of the one of its instance, with the same address or a free one. *)
Lemma leases_ok_insert m i l :
  leases_ok m → l_inst_id l = i → (∀ j lj, m !! j = Some lj → addr_of lj = addr_of l → j = i) → leases_ok (<[i := l]> m).
Proof.
  intros [H1 H2] Hl Hfree. split.
  - intros j lj [[<- <-]|[_ Hj]]%lookup_insert_Some; [done|by apply H1].
  - intros j k lj lk [[<- <-]|[Hj1 Hj]]%lookup_insert_Some [[<- <-]|[Hk1 Hk]]%lookup_insert_Some E; [done| | |].
    + symmetry. by eapply Hfree.
    + by eapply Hfree.
    + by eapply H2.
Qed.

Lemma prune_sub provider current now :
  ps_leases (prune_expired_leases provider current now) ⊆ from_option ps_leases ∅ current.
Proof. apply map_filter_subseteq. Qed.

Lemma leased_addresses_spec st i l :
  ps_leases st !! i = Some l → addr_of l ∈ leased_addresses st.
Proof.
  intros Hi. unfold leased_addresses. apply elem_of_list_to_set, list_elem_of_fmap. exists (i, l).
  split; [done|]. by apply elem_of_map_to_list.
Qed.

(** What the second half of an acquisition adds: an address of the prefix that is neither
    reserved nor leased. *)
Lemma acquire_finish_spec sv rq provider st reserved now sv' lease :
  ps_leases st !! rq_inst_id rq = None →
  acquire_finish sv rq provider st reserved now = (sv', Ok lease) →
  sv' = set_provider_state sv (Some (mkProviderState provider (<[rq_inst_id rq := lease]> (ps_leases st)))) ∧
  l_inst_id lease = rq_inst_id rq ∧ l_peer_id lease = rq_peer_id rq ∧ l_valid_until lease = now + PUBLIC_IPV6_LEASE_TTL ∧
  prefix_contains (pv_prefix provider) (addr_of lease) = true ∧ addr_of lease ∉ reserved ∧
  ∀ i l, ps_leases st !! i = Some l → addr_of l ≠ addr_of lease.
Proof.
  intros Hnone. unfold acquire_finish, allocate_public_ipv6_leases. set (taken := reserved ∪ leased_addresses st).
  destruct (allocate_loop_spec (pv_prefix provider) (used_offsets (pv_prefix provider) taken) (l_addr <$> ps_leases st) [rq_inst_id rq])
    as [_ Hall].
  destruct (last _) as [l|] eqn:El; [|done].
  assert (Hl : l ∈ allocate_loop (pv_prefix provider) (used_offsets (pv_prefix provider) taken) (l_addr <$> ps_leases st) [rq_inst_id rq])
    by (apply list_elem_of_In; by apply last_Some_elem_of, list_elem_of_In in El).
  destruct (Hall l Hl) as [Hc Hn]. intros [= <- <-]. unfold addr_of in *. cbn [l_inst_id l_peer_id l_valid_until l_addr].
  assert (Hfree : inet6_addr (l_addr l) ∉ taken).
  { intros Hin. apply Hn. unfold used_offsets. apply elem_of_map. eexists. split; [reflexivity|]. by apply elem_of_filter. }
  split; [done|]. split.
  { revert Hl. cbn [allocate_loop]. unfold kept_address. rewrite lookup_fmap, Hnone. cbn [fmap option_fmap option_map mbind option_bind].
    destruct (_ =? 0); [by intros ?%not_elem_of_nil|]. destruct (free_offset _ _ _); [|by intros ?%not_elem_of_nil].
    intros ->%list_elem_of_singleton. done. }
  split; [done|]. split; [done|]. split; [done|]. split; [set_solver|].
  intros i x Hx E. apply Hfree. rewrite <- E. apply elem_of_union_r. by eapply leased_addresses_spec.
Qed.

(** A refusal: every address of the prefix but the first is taken. *)
Lemma acquire_finish_refused sv rq provider st reserved now sv' e :
  ps_leases st !! rq_inst_id rq = None →
  acquire_finish sv rq provider st reserved now = (sv', Err e) →
  sv' = sv ∧ e = NoFreeAddress ∧
  (prefix_length (pv_prefix provider) = 0 ∨
   ∀ a, prefix_first (pv_prefix provider) < a < prefix_first (pv_prefix provider) + prefix_size (pv_prefix provider) →
     a ∈ reserved ∨ ∃ i l, ps_leases st !! i = Some l ∧ addr_of l = a).
Proof.
  intros Hnone. unfold acquire_finish, allocate_public_ipv6_leases. set (taken := reserved ∪ leased_addresses st).
  destruct (last _) eqn:El; [done|]. intros [= <- <-]. do 2 (split; [done|]).
  cbn [allocate_loop] in El. unfold kept_address in El. rewrite lookup_fmap, Hnone in El. cbn [fmap option_fmap option_map mbind option_bind] in El.
  destruct (Z.eqb_spec (prefix_length (pv_prefix provider)) 0) as [|Hl]; [by left|right].
  pose proof (prefix_size_pos (pv_prefix provider)) as Hpos.
  assert (0 <= prefix_size (pv_prefix provider) - 1) as Hu by lia.
  pose proof (free_offset_spec (used_offsets (pv_prefix provider) taken) _ (rq_inst_id rq) Hu) as Hf.
  destruct (free_offset _ _ _); [done|]. intros a Ha. specialize (Hf (a - prefix_first (pv_prefix provider))).
  destruct (Z.eqb_spec (prefix_size (pv_prefix provider) - 1) 0); [lia|]. specialize (Hf ltac:(lia)).
  unfold used_offsets in Hf. apply elem_of_map in Hf as (b & Eb & [_ Hb]%elem_of_filter). assert (b = a) as -> by lia.
  apply elem_of_union in Hb as [Hb|Hb]; [by left|right]. unfold leased_addresses in Hb.
  apply elem_of_list_to_set, list_elem_of_fmap in Hb as ([i l] & -> & Hil%elem_of_map_to_list). by exists i, l.
Qed.

Lemma acquire_lease_ok sv rc rq reserved now : leases_ok (leases_of sv) → leases_ok (leases_of (acquire_lease sv rc rq reserved now).1).
Proof.
  intros Hok. unfold acquire_lease, acquire_begin. destruct (selected_provider rc sv) as [provider|]; [|done].
  destruct (negb _); [done|]. set (st := prune_expired_leases _ _ _).
  assert (Hst : leases_ok (ps_leases st)) by (eapply leases_ok_sub; [exact Hok|apply prune_sub]).
  destruct (ps_leases st !! rq_inst_id rq) as [e|] eqn:Ee.
  - destruct (_ && _); [done|]. cbn. apply leases_ok_insert; [done|exact (proj1 Hst _ _ Ee)|].
    intros j lj Hj E. exact (proj2 Hst _ _ _ _ Hj Ee E).
  - destruct (rq_renew_only rq); [done|].
    destruct (acquire_finish sv rq provider st reserved now) as [sv' [lease|e]] eqn:Ef.
    + destruct (acquire_finish_spec _ _ _ _ _ _ _ _ Ee Ef) as (-> & Hi & _ & _ & _ & _ & Hf). cbn.
      apply leases_ok_insert; [done|done|]. intros j lj Hj E. by destruct (Hf j lj Hj).
    + unfold acquire_finish in Ef. destruct (last _); [done|]. by injection Ef as <- _.
Qed.

Lemma release_lease_ok sv rc peer_id inst_id now :
  leases_ok (leases_of sv) → leases_ok (leases_of (release_lease sv rc peer_id inst_id now).1).
Proof.
  intros Hok. unfold release_lease. destruct (selected_provider rc sv) as [provider|]; [|done].
  destruct (negb _); [done|]. set (st := prune_expired_leases _ _ _).
  destruct (ps_leases st !! inst_id) as [l|]; [|done]. destruct (_ =? _); [|done]. cbn.
  eapply leases_ok_sub; [exact Hok|]. etransitivity; [apply delete_subseteq|apply map_filter_subseteq].
Qed.

Lemma clear_provider_ok sv provider :
  leases_ok (leases_of sv) → leases_ok (leases_of (clear_provider_state_if_provider_changed sv provider)).
Proof.
  intros Hok. unfold clear_provider_state_if_provider_changed. destruct (provider_state sv); [|done].
  case_bool_decide; [done|]. cbn. split; intros *; by rewrite lookup_empty.
Qed.

Lemma gc_ok sv rc now : leases_ok (leases_of sv) → leases_ok (leases_of (gc_provider_leases sv rc now)).
Proof.
  intros Hok%(clear_provider_ok sv (selected_provider rc sv)). unfold gc_provider_leases.
  set (sv1 := clear_provider_state_if_provider_changed _ _) in *. destruct (selected_provider rc sv); [|done].
  destruct (negb _); [done|]. cbn. eapply leases_ok_sub; [exact Hok|apply map_filter_subseteq].
Qed.

(** ** The client leaves the provider's leases alone *)

Definition same_leases sv sv' : Prop := provider_state sv' = provider_state sv.

Lemma set_client_same sv next : same_leases sv (set_client_state sv next).1.
Proof. unfold set_client_state. by case_bool_decide. Qed.

Lemma clear_client_same sv provider : same_leases sv (clear_client_state_if_provider_changed sv provider).1.
Proof.
  unfold clear_client_state_if_provider_changed. destruct (client_state sv); [|done].
  case_bool_decide; [done|apply set_client_same].
Qed.

Lemma reconcile_same sv rc auto peers : same_leases sv (reconcile_runtime_from_snapshot sv rc auto peers).1.
Proof. unfold reconcile_runtime_from_snapshot. by destruct (collect_runtime_from_snapshot sv rc peers). Qed.

Lemma publish_same sv rc lease : same_leases sv (publish_self sv rc lease).1.
Proof. unfold publish_self. by case_bool_decide. Qed.

(** *** The host's copy *)

(** The host has what the service has told it. *)
Definition host_agrees sv (st : option Ipv6Inet * gset Ipv6Inet) : Prop := st = (my_addr_cache sv, route_cache sv).

Definition same_caches sv sv' : Prop := my_addr_cache sv' = my_addr_cache sv ∧ route_cache sv' = route_cache sv.

Lemma reconcile_host sv rc auto peers :
  let r := reconcile_runtime_from_snapshot sv rc auto peers in
  host_run (my_addr_cache sv, route_cache sv) r.2 = Some (my_addr_cache r.1, route_cache r.1).
Proof.
  unfold reconcile_runtime_from_snapshot. destruct (collect_runtime_from_snapshot sv rc peers) as [addr routes].
  cbn zeta. set (a := if auto then addr else None).
  assert (Hr : ∀ x, host_run (x, route_cache sv)
    (if bool_decide (route_cache sv = routes) then [] else [RoutesChanged (routes ∖ route_cache sv) (route_cache sv ∖ routes)]) =
    Some (x, routes)).
  { intros x. case_bool_decide as E; cbn; [by rewrite E|]. rewrite !bool_decide_true by set_solver. cbn. do 2 f_equal.
    apply set_eq. intros y. destruct (decide (y ∈ routes)), (decide (y ∈ route_cache sv)); set_solver. }
  set (told := if bool_decide (route_cache sv = routes) then [] else _) in *. clearbody told.
  cbn [fst snd my_addr_cache route_cache]. destruct (bool_decide_reflect (my_addr_cache sv = a)) as [E|E]; cbn [app].
  - rewrite E. apply Hr.
  - cbn [host_run host_step fst]. rewrite bool_decide_true by done. apply Hr.
Qed.

(** What a call of the client comes to. *)
Definition client_step_ok sv (r : PublicIpv6Service * list Notice) : Prop :=
  same_leases sv r.1 ∧ host_run (my_addr_cache sv, route_cache sv) r.2 = Some (my_addr_cache r.1, route_cache r.1).

Lemma client_step_after sv sv1 r : same_leases sv sv1 → same_caches sv sv1 → client_step_ok sv1 r → client_step_ok sv r.
Proof. intros Hl [Ha Hr] [Hl1 Hh]. unfold client_step_ok, same_leases in *. rewrite <- Ha, <- Hr, Hl1, Hl. done. Qed.

Lemma quiet_step sv : client_step_ok sv (sv, []).
Proof. done. Qed.

Lemma set_client_caches sv next : same_caches sv (set_client_state sv next).1.
Proof. unfold set_client_state. by case_bool_decide. Qed.

Lemma clear_client_caches sv provider : same_caches sv (clear_client_state_if_provider_changed sv provider).1.
Proof.
  unfold clear_client_state_if_provider_changed. destruct (client_state sv); [|done].
  case_bool_decide; [done|apply set_client_caches].
Qed.

Lemma publish_caches sv rc lease : same_caches sv (publish_self sv rc lease).1.
Proof. unfold publish_self. by case_bool_decide. Qed.

(** Publishing, then reconciling. *)
Lemma publish_reconcile_ok sv rc auto lease :
  client_step_ok sv (let '(sv, b) := publish_self sv rc lease in let '(sv, ns) := reconcile_runtime sv rc auto in (sv, ns, b)).1.
Proof.
  pose proof (publish_same sv rc lease) as Hl. pose proof (publish_caches sv rc lease) as Hc.
  destruct (publish_self sv rc lease) as [sv1 b]. cbn [fst] in *. unfold reconcile_runtime.
  pose proof (reconcile_same sv1 rc auto (snapshot rc sv1)) as Hl1. pose proof (reconcile_host sv1 rc auto (snapshot rc sv1)) as Hh.
  destruct (reconcile_runtime_from_snapshot sv1 rc auto (snapshot rc sv1)) as [sv2 ns]. cbn [fst snd] in *.
  apply (client_step_after sv sv1); [done..|]. by split.
Qed.

Lemma clear_lease_ok sv rc auto state_changed : client_step_ok sv (clear_client_lease_state sv rc auto state_changed).1.
Proof.
  unfold clear_client_lease_state. pose proof (set_client_same sv None) as Hl. pose proof (set_client_caches sv None) as Hc.
  destruct (set_client_state sv None) as [sv1 b]. cbn [fst] in *. destruct (_ || _); [|by apply (client_step_after sv sv1)].
  apply (client_step_after sv sv1); [done..|]. apply publish_reconcile_ok.
Qed.

Lemma reconcile_ok sv rc auto peers : client_step_ok sv (reconcile_runtime_from_snapshot sv rc auto peers).
Proof. split; [apply reconcile_same|apply reconcile_host]. Qed.

Lemma clear_provider_caches sv provider : same_caches sv (clear_provider_state_if_provider_changed sv provider).
Proof.
  unfold clear_provider_state_if_provider_changed. destruct (provider_state sv); [|done]. by case_bool_decide.
Qed.

Lemma sync_finish_ok sv rc auto my_inst provider current state_changed reply now :
  client_step_ok sv (sync_finish sv rc auto my_inst provider current state_changed reply now).1.
Proof.
  unfold sync_finish.
  assert (Hfin : ∀ sv1 changed, same_leases sv sv1 → same_caches sv sv1 →
    client_step_ok sv (if state_changed || changed
      then let '(sv, b) := publish_current_client_lease sv1 rc in let '(sv, ns) := reconcile_runtime sv rc auto in (sv, ns, b)
      else (sv1, [], false)).1).
  { intros sv1 changed Hl Hc. apply (client_step_after sv sv1); [done..|]. destruct (_ || _); [|done]. apply publish_reconcile_ok. }
  assert (Hset : ∀ next, client_step_ok sv (let '(sv1, changed) := set_client_state sv next in
    if state_changed || changed
    then let '(sv, b) := publish_current_client_lease sv1 rc in let '(sv, ns) := reconcile_runtime sv rc auto in (sv, ns, b)
    else (sv1, [], false)).1).
  { intros next. pose proof (set_client_same sv next). pose proof (set_client_caches sv next).
    destruct (set_client_state sv next) as [sv1 changed]. by apply Hfin. }
  destruct reply as [r|]; [destruct (rp_error r); [|destruct (rp_leased_addr r); [apply Hset|done]]|];
    (destruct (from_option _ _ _); [apply Hset|by apply Hfin]).
Qed.

(** The calls of the client change the provider's part by dropping it at most. *)
Lemma client_after_provider sv provider r :
  leases_ok (leases_of sv) → client_step_ok (clear_provider_state_if_provider_changed sv provider) r →
  leases_ok (leases_of r.1) ∧ host_run (my_addr_cache sv, route_cache sv) r.2 = Some (my_addr_cache r.1, route_cache r.1).
Proof.
  intros Hok [Hl Hh]. destruct (clear_provider_caches sv provider) as [Ha Hr]. rewrite Ha, Hr in Hh. split; [|done].
  unfold leases_of. rewrite Hl. by apply clear_provider_ok.
Qed.

Lemma route_change_ok sv rc auto :
  leases_ok (leases_of sv) →
  let r := (handle_route_change sv rc auto).1 in
  leases_ok (leases_of r.1) ∧ host_run (my_addr_cache sv, route_cache sv) r.2 = Some (my_addr_cache r.1, route_cache r.1).
Proof.
  intros Hok. cbn zeta. apply (client_after_provider sv (selected_provider_from_snapshot (snapshot rc sv))); [done|].
  unfold handle_route_change. set (sv1 := clear_provider_state_if_provider_changed _ _).
  pose proof (clear_client_same sv1 (selected_provider_from_snapshot (snapshot rc sv))) as Hl.
  pose proof (clear_client_caches sv1 (selected_provider_from_snapshot (snapshot rc sv))) as Hc.
  destruct (clear_client_state_if_provider_changed sv1 _) as [sv2 b]. cbn [fst] in *.
  apply (client_step_after sv1 sv2); [done..|]. destruct b; [apply publish_reconcile_ok|].
  pose proof (reconcile_ok sv2 rc auto (snapshot rc sv)) as Hr. by destruct (reconcile_runtime_from_snapshot sv2 rc auto _).
Qed.

Lemma clear_lease_step sv sv1 rc auto b :
  same_leases sv sv1 → same_caches sv sv1 →
  client_step_ok sv (let '(sv, ns, changed) := clear_client_lease_state sv1 rc auto b in (sv, ns, Synced changed)).1.
Proof.
  intros Hl Hc. apply (client_step_after sv sv1); [done..|]. pose proof (clear_lease_ok sv1 rc auto b) as Hk.
  by destruct (clear_client_lease_state sv1 rc auto b) as [[sv2 ns] c].
Qed.

Lemma sync_begin_ok sv rc auto rpc now :
  leases_ok (leases_of sv) →
  let r := (sync_begin sv rc auto rpc now).1 in
  leases_ok (leases_of r.1) ∧ host_run (my_addr_cache sv, route_cache sv) r.2 = Some (my_addr_cache r.1, route_cache r.1).
Proof.
  intros Hok. cbn zeta. unfold sync_begin. destruct (negb auto).
  - pose proof (clear_client_same sv None) as Hl. pose proof (clear_client_caches sv None) as Hc.
    destruct (clear_client_state_if_provider_changed sv None) as [sv1 b]. cbn [fst] in *.
    destruct (clear_lease_step sv sv1 rc auto b Hl Hc) as [Hl' Hh]. split; [|exact Hh]. unfold leases_of. by rewrite Hl'.
  - apply (client_after_provider sv (selected_provider rc sv)); [done|].
    set (sv1 := clear_provider_state_if_provider_changed _ _).
    pose proof (clear_client_same sv1 (selected_provider rc sv)) as Hl.
    pose proof (clear_client_caches sv1 (selected_provider rc sv)) as Hc.
    destruct (clear_client_state_if_provider_changed sv1 _) as [sv2 b]. cbn [fst] in *.
    destruct (selected_provider rc sv) as [p|]; [|by apply clear_lease_step].
    destruct (pv_peer_id p =? rc_my_peer_id rc); [by apply clear_lease_step|].
    apply (client_step_after sv1 sv2); [done..|]. destruct (_ || _); [|apply quiet_step].
    destruct b; [|apply quiet_step]. pose proof (reconcile_ok sv2 rc auto (snapshot rc sv2)) as Hr.
    unfold reconcile_runtime. by destruct (reconcile_runtime_from_snapshot sv2 rc auto _).
Qed.

Lemma ipv6_step_ok sv ev :
  leases_ok (leases_of sv) →
  let r := ipv6_step sv ev in
  leases_ok (leases_of r.1) ∧ host_run (my_addr_cache sv, route_cache sv) r.2 = Some (my_addr_cache r.1, route_cache r.1).
Proof.
  intros Hok. destruct ev as [rc rq reserved now|rc peer inst now|rc now|rc auto|rc auto rpc now|rc auto my_inst p cur ch reply now];
    cbn [ipv6_step fst snd]; cbn zeta.
  - split; [by apply acquire_lease_ok|]. unfold acquire_lease, acquire_begin.
    destruct (selected_provider rc sv) as [provider|]; [|done]. destruct (negb _); [done|].
    destruct (ps_leases _ !! _); [by destruct (_ && _)|]. destruct (rq_renew_only rq); [done|].
    unfold acquire_finish. by destruct (last _).
  - split; [by apply release_lease_ok|]. unfold release_lease. destruct (selected_provider rc sv); [|done].
    destruct (negb _); [done|]. destruct (ps_leases _ !! _) as [l|]; [|done]. by destruct (l_peer_id l =? peer).
  - split; [by apply gc_ok|]. unfold gc_provider_leases.
    destruct (clear_provider_caches sv (selected_provider rc sv)) as [Ha Hr]. destruct (selected_provider rc sv) as [p|];
      [destruct (negb _)|]; cbn; by rewrite ?Ha, ?Hr.
  - by apply route_change_ok.
  - by apply sync_begin_ok.
  - destruct (sync_finish_ok sv rc auto my_inst p cur ch reply now) as [Hl Hh]. split; [|exact Hh].
    unfold leases_of. by rewrite Hl.
Qed.

Lemma host_run_app st ns ns' : host_run st (ns ++ ns') = st' ← host_run st ns; host_run st' ns'.
Proof. revert st. induction ns as [|n ns IH]; intros st; cbn; [done|]. destruct (host_step st n); cbn; [apply IH|done]. Qed.

Lemma ipv6_run_ok evs sv :
  leases_ok (leases_of sv) →
  let r := ipv6_run sv evs in
  leases_ok (leases_of r.1) ∧ host_run (my_addr_cache sv, route_cache sv) r.2 = Some (my_addr_cache r.1, route_cache r.1).
Proof.
  revert sv. induction evs as [|ev evs IH]; intros sv Hok; cbn [ipv6_run]; [done|].
  pose proof (ipv6_step_ok sv ev Hok) as [Hok1 Hh1]. destruct (ipv6_step sv ev) as [sv1 ns1]. cbn [fst snd] in *.
  specialize (IH sv1 Hok1). destruct (ipv6_run sv1 evs) as [sv2 ns2]. cbn zeta in *. cbn [fst snd] in *.
  destruct IH as [Hok2 Hh2]. split; [done|]. rewrite host_run_app, Hh1. exact Hh2.
Qed.

Lemma new_service_ok : leases_ok (leases_of new_service).
Proof. split; unfold leases_of; cbn; intros *; by rewrite lookup_empty. Qed.

(** C14: no public address is leased twice: over any run of acquisitions, each of which ends
    before the next begins, releases, renewals, clean-ups, route changes and rounds of the
    client, no two instances hold leases of one address, and every lease is kept under the
    instance it names. *)
Theorem leased_addresses_distinct evs i j li lj :
  let leases := leases_of (ipv6_run new_service evs).1 in
  leases !! i = Some li → leases !! j = Some lj → i ≠ j →
  inet6_addr (l_addr li) ≠ inet6_addr (l_addr lj) ∧ l_inst_id li = i.
Proof.
  intros leases Hi Hj Hne. destruct (ipv6_run_ok evs new_service new_service_ok) as [[H1 H2] _].
  split; [intros E; apply Hne; exact (H2 i j li lj Hi Hj E)|exact (H1 i li Hi)].
Qed.

(** An acquisition gives what it says or says why not: a granted lease runs for 120 s, is
    entered for the requester, and unless it renews the one the instance has, its address is in
    the provider's prefix, not reserved, and not leased to another; an address is refused only
    when every address of the prefix but the first is reserved or leased. *)
Theorem acquire_outcome sv rc rq reserved now provider :
  selected_provider rc sv = Some provider → pv_peer_id provider = rc_my_peer_id rc →
  let st := prune_expired_leases provider (provider_state sv) now in
  let '(sv', r) := acquire_lease sv rc rq reserved now in
  match r with
  | Ok lease =>
      leases_of sv' = <[rq_inst_id rq := lease]> (ps_leases st) ∧ l_peer_id lease = rq_peer_id rq ∧
      l_valid_until lease = now + PUBLIC_IPV6_LEASE_TTL ∧
      match ps_leases st !! rq_inst_id rq with
      | Some old => l_addr lease = l_addr old
      | None => prefix_contains (pv_prefix provider) (addr_of lease) = true ∧ addr_of lease ∉ reserved ∧
          ∀ i l, ps_leases st !! i = Some l → addr_of l ≠ addr_of lease
      end
  | Err NoFreeAddress => sv' = sv ∧
      (prefix_length (pv_prefix provider) = 0 ∨
       ∀ a, prefix_first (pv_prefix provider) < a < prefix_first (pv_prefix provider) + prefix_size (pv_prefix provider) →
         a ∈ reserved ∨ ∃ i l, ps_leases st !! i = Some l ∧ addr_of l = a)
  | Err _ => sv' = sv
  end.
Proof.
  intros Hsel Hmy st. unfold acquire_lease, acquire_begin. rewrite Hsel, Hmy, Z.eqb_refl. cbn [negb]. fold st.
  destruct (ps_leases st !! rq_inst_id rq) as [old|] eqn:Eo.
  { destruct (_ && _); [done|]. by split_and!. }
  destruct (rq_renew_only rq); [done|].
  destruct (acquire_finish sv rq provider st reserved now) as [sv' [lease|e]] eqn:Ef.
  { destruct (acquire_finish_spec _ _ _ _ _ _ _ _ Eo Ef) as (-> & _ & Hp & Hv & Hc & Hr & Hf). by split_and!. }
  by destruct (acquire_finish_refused _ _ _ _ _ _ _ _ Eo Ef) as (-> & -> & Hfull).
Qed.

(** The host is told every change: replaying the notices of any run, each fits the copy that the
    notices before it have left, and the last leaves the address and the routes the service reports. *)
Theorem host_follows_service evs :
  let r := ipv6_run new_service evs in
  host_run (None, ∅) r.2 = Some (my_addr_cache r.1, route_cache r.1).
Proof. apply (ipv6_run_ok evs new_service new_service_ok). Qed.

End PublicIpv6.

#[global] Arguments PublicIpv6Provider _ : clear implicits.
#[global] Arguments PublicIpv6ProviderState _ : clear implicits.
#[global] Arguments PublicIpv6PeerRouteInfo _ : clear implicits.
#[global] Arguments RouteControl _ : clear implicits.
#[global] Arguments PublicIpv6Service _ : clear implicits.

(** ** Witnesses *)

(** Prefixes as pairs of the first address and the length. *)
Definition PairPrefix : Type := dsig (λ p : Z * Z, 0 <= p.2 <= 128).

Lemma host_prefix_ok : 0 <= (0, 128).2 <= 128.
Proof. cbn. lia. Qed.

Definition pair_prefix_of (a n : Z) : PairPrefix :=
  match decide (0 <= (a, n).2 <= 128) with
  | left Hok => dexist (a, n) Hok
  | right _ => dexist (0, 128) host_prefix_ok
  end.

#[export] Instance pair_prefix : Prefix6 PairPrefix := {
  prefix6_eq_dec := _;
  prefix_first c := (`c).1;
  prefix_length c := (`c).2;
  prefix_contains c a := ((`c).1 <=? a) && (a <? (`c).1 + 2 ^ (128 - (`c).2))
}.

#[export] Instance pair_prefix_laws : Prefix6Laws PairPrefix.
Proof.
  split.
  - intros c. apply (proj2_dsig c).
  - intros c a. cbn. rewrite andb_true_iff, Z.leb_le, Z.ltb_lt. done.
Qed.

(** Node 7 provides a prefix of four addresses. *)
Definition demo_prefix : PairPrefix := pair_prefix_of 1024 126.
Definition demo_provider : PublicIpv6Provider PairPrefix := mkProvider 7 70 demo_prefix.
Definition demo_peers (prefix : PairPrefix) (lease : option Ipv6Inet) : list (PublicIpv6PeerRouteInfo PairPrefix) :=
  [mkRouteInfo 7 (Some 70) true (Some prefix) lease true].
Definition demo_control : RouteControl PairPrefix := mkRouteControl 7 (demo_peers demo_prefix) true.
Definition acquire_of (inst : Z) : AcquireRequest := mkAcquire inst inst false None.
Definition demo_leases : list (Ipv6Event (C := PairPrefix)) :=
  [Ev6Acquire demo_control (acquire_of 1) ∅ 0; Ev6Acquire demo_control (acquire_of 4) ∅ 5].

Lemma leased_addresses_distinct_witness :
  let leases := leases_of (ipv6_run new_service demo_leases).1 in
  ∃ li lj, leases !! 1 = Some li ∧ leases !! 4 = Some lj ∧ addr_of li = 1026 ∧ addr_of lj = 1027 ∧
    inet6_addr (l_addr li) ≠ inet6_addr (l_addr lj).
Proof.
  cbn zeta. set (leases := leases_of (ipv6_run new_service demo_leases).1).
  assert (H1 : leases !! 1 = Some (mkLease 1 1 (mkInet6 1026 128) 120 false)) by (vm_compute; reflexivity).
  assert (H4 : leases !! 4 = Some (mkLease 4 4 (mkInet6 1027 128) 125 false)) by (vm_compute; reflexivity).
  do 2 eexists. split; [exact H1|]. split; [exact H4|]. do 2 (split; [reflexivity|]).
  apply (leased_addresses_distinct demo_leases 1 4 _ _ H1 H4). discriminate.
Defined.

(** A third address is left, a fourth is not. *)
Lemma acquire_outcome_witness :
  let sv := (ipv6_run new_service (demo_leases ++ [Ev6Acquire demo_control (acquire_of 2) ∅ 6])).1 in
  acquire_lease sv demo_control (acquire_of 9) ∅ 7 = (sv, Err NoFreeAddress) ∧
  ∀ a, 1024 < a < 1028 → a ∈ (∅ : gset Z) ∨
    ∃ i l, ps_leases (prune_expired_leases demo_provider (provider_state sv) 7) !! i = Some l ∧ addr_of l = a.
Proof.
  cbn zeta. set (sv := (ipv6_run new_service (demo_leases ++ [Ev6Acquire demo_control (acquire_of 2) ∅ 6])).1).
  assert (Hsel : selected_provider demo_control sv = Some demo_provider) by (vm_compute; reflexivity).
  assert (E : acquire_lease sv demo_control (acquire_of 9) ∅ 7 = (sv, Err NoFreeAddress)) by (vm_compute; reflexivity).
  pose proof (acquire_outcome sv demo_control (acquire_of 9) ∅ 7 demo_provider Hsel eq_refl) as Ho. cbn zeta in Ho.
  rewrite E in Ho. split; [exact E|]. destruct Ho as [_ [Hl|Hfull]]; [exfalso; vm_compute in Hl; discriminate|].
  intros a Ha. apply Hfull. change (1024 < a < 1024 + 4). lia.
Defined.

(** The addresses that wait are not seen: two acquisitions that both have read the leases
    before either writes get one address, and the second write drops the first lease. *)
Example waiting_acquisitions_collide :
  let taken := match acquire_begin new_service demo_control (acquire_of 1) 0, acquire_begin new_service demo_control (acquire_of 4) 0 with
    | (sv, AwaitReserved p1 st1), (_, AwaitReserved p2 st2) =>
        let '(sv, r1) := acquire_finish sv (acquire_of 1) p1 st1 ∅ 1 in
        let '(sv, r2) := acquire_finish sv (acquire_of 4) p2 st2 ∅ 1 in
        Some (r1, r2, leases_of sv)
    | _, _ => None
    end in
  taken = Some (Ok (mkLease 1 1 (mkInet6 1026 128) 121 false), Ok (mkLease 4 4 (mkInet6 1026 128) 121 false),
                {[4 := mkLease 4 4 (mkInet6 1026 128) 121 false]}).
Proof. vm_compute. reflexivity. Qed.

(** The provider has changed its prefix and renews a lease before the route change is handled:
    the lease is entered under the new prefix with its old address, and stays. *)
Definition moved_control : RouteControl PairPrefix := mkRouteControl 7 (demo_peers (pair_prefix_of 4096 126)) true.

Example renewal_outlives_prefix :
  let sv := (ipv6_run new_service [Ev6Acquire demo_control (acquire_of 1) ∅ 0; Ev6Acquire moved_control (acquire_of 1) ∅ 10;
    Ev6RouteChange moved_control false; Ev6Gc moved_control 15]).1 in
  pv_prefix <$> (ps_provider <$> provider_state sv) = Some (pair_prefix_of 4096 126) ∧
  leases_of sv = {[1 := mkLease 1 1 (mkInet6 1026 128) 130 true]}.
Proof. vm_compute. split; reflexivity. Qed.

(** Node 3 sees the lease of node 7 and gets one of its own. *)
Definition routed_control : RouteControl PairPrefix :=
  mkRouteControl 3 (λ own, demo_peers demo_prefix (Some (mkInet6 1026 128)) ++ [mkRouteInfo 3 (Some 30) false None own true]) true.
Definition demo_host : list (Ipv6Event (C := PairPrefix)) :=
  [Ev6RouteChange routed_control true;
   Ev6SyncFinish routed_control true 30 demo_provider None false 
     (Some (build_lease_reply demo_provider (Some (mkLease 3 30 (mkInet6 1027 128) 125 false)) None)) 5].

Lemma host_follows_service_witness :
  host_run (None, ∅) (ipv6_run new_service demo_host).2 = Some (Some (mkInet6 1027 128), {[mkInet6 1026 128]}).
Proof.
  rewrite (host_follows_service demo_host). vm_compute. reflexivity.
Defined.
