(* ===== verification/UdpDatagram.v ===== *)
(** * Datagrams of the UDP session layer

    Models easytier-core/src/socket/udp/packet.rs and the codec of session.rs: the packets the
    layer sends, how a received datagram is told apart (STUN, EasyTier, WireGuard, QUIC), and
    what a session puts on the wire.  A socket carries all four, so the theorems say that each
    is taken for what it is.  As in Packet.v a panic is [None]; a [usize] has 64 bits. *)

From stdpp Require Import base gmap list numbers.
From Stdlib Require Import ZArith Lia.
From S2P Require Import Prelude Packet.
Local Open Scope Z_scope.
Local Open Scope rust_scope.

Definition MAX_UDP_SESSION_DATAGRAM_SIZE : Z := 8 * 1024.

(** ** Packets of the layer *)

Definition udp_header (ty : UdpPacketType) (conn_id length : Z) (h : UDPTunnelHeader.t) : UDPTunnelHeader.t :=
  UDPTunnelHeader.mk conn_id (udp_packet_type_u8 ty) (UDPTunnelHeader.padding h) length.

Definition new_syn_packet (conn_id magic : Z) : option ZCPacket.t :=
  new_udp_packet (udp_header UdpSyn conn_id 8) (to_le 8 magic).

Definition new_sack_packet (conn_id magic : Z) : option ZCPacket.t :=
  new_udp_packet (udp_header UdpSack conn_id 8) (to_le 8 magic).

(** The errors of the codec; both are [InvalidInput]. *)
Inductive UdpCodecError : Type := DatagramTooLarge | PayloadTooLarge.

Definition udp_session_payload_len (payload : list Z) : result Z UdpCodecError :=
  if len payload <=? uint_max 16 then Ok (len payload) else Err PayloadTooLarge.

Definition new_data_packet (conn_id : Z) (payload : list Z) : option (result ZCPacket.t UdpCodecError) :=
  match udp_session_payload_len payload with
  | Err e => Some (Err e)
  | Ok length => p ← new_udp_packet (udp_header UdpData conn_id length) payload; Some (Ok p)
  end.

Record PreferredIpv6Source : Type := mkPreferred { pref_ip : Z; pref_ifindex : Z }.

Definition V4_HOLE_PUNCH_SIZE : Z := 6.
Definition V6_HOLE_PUNCH_SIZE : Z := 38.

Definition new_v6_hole_punch_packet (ip port : Z) (preferred_src : option PreferredIpv6Source) : option ZCPacket.t :=
  let src := default (mkPreferred 0 0) preferred_src in
  new_udp_packet (udp_header UdpV6HolePunch port V6_HOLE_PUNCH_SIZE)
    (to_be 16 ip ++ to_le 2 port ++ to_be 16 (pref_ip src) ++ to_le 4 (pref_ifindex src)).

Definition new_v4_hole_punch_packet (ip port : Z) : option ZCPacket.t :=
  new_udp_packet (udp_header UdpV4HolePunch port V4_HOLE_PUNCH_SIZE) (to_be 4 ip ++ to_le 2 port).

Definition extract_dst_addr_from_v4_hole_punch_packet (buf : list Z) : option SocketAddr :=
  if len buf <? V4_HOLE_PUNCH_SIZE then None
  else Some (mkSocketAddr (IpV4 (from_be (take 4 buf))) (from_le (take 2 (drop 4 buf)))).

Definition extract_v6_hole_punch_packet (buf : list Z) : option (SocketAddr * option PreferredIpv6Source) :=
  if len buf <? V6_HOLE_PUNCH_SIZE then None
  else
    let src := from_be (take 16 (drop 18 buf)) in
    Some (mkSocketAddr (IpV6 (from_be (take 16 buf))) (from_le (take 2 (drop 16 buf))),
          if src =? 0 then None else Some (mkPreferred src (from_le (take 4 (drop 34 buf))))).

(** ** Telling datagrams apart *)

Definition STUN_COOKIE : list Z := [33; 18; 164; 66].

Definition is_stun_packet (data : list Z) : bool :=
  (UDP_TUNNEL_HEADER_SIZE <=? len data) && bool_decide (take 4 (drop 4 data) = STUN_COOKIE) &&
  (Z.land (data !!! 0%nat) 192 =? 0).

Inductive UdpSessionProtocol : Type := WireGuard | Quic.

#[export] Instance udp_session_protocol_eq_dec : EqDecision UdpSessionProtocol.
Proof. solve_decision. Defined.
#[export] Instance udp_session_protocol_countable : Countable UdpSessionProtocol.
Proof.
  apply (inj_countable' (λ p, match p with WireGuard => true | Quic => false end)
    (λ b : bool, if b then WireGuard else Quic)). by intros [].
Defined.

Inductive UdpSessionPacketKind : Type := Classified (protocol : UdpSessionProtocol) | Unknown.

Inductive EasyTierUdpPacketKind : Type := KData | KSyn | KSack | KHolePunch | KV4HolePunch | KV6HolePunch.

Definition from_msg_type (msg_type : Z) : option EasyTierUdpPacketKind :=
  if msg_type =? udp_packet_type_u8 UdpData then Some KData
  else if msg_type =? udp_packet_type_u8 UdpSyn then Some KSyn
  else if msg_type =? udp_packet_type_u8 UdpSack then Some KSack
  else if msg_type =? udp_packet_type_u8 UdpHolePunch then Some KHolePunch
  else if msg_type =? udp_packet_type_u8 UdpV4HolePunch then Some KV4HolePunch
  else if msg_type =? udp_packet_type_u8 UdpV6HolePunch then Some KV6HolePunch
  else None.

Definition is_wireguard_packet (data : list Z) : bool :=
  if len data <? 4 then false
  else
    let msg_type := from_le (take 4 data) in
    if msg_type =? 1 then len data =? 148
    else if msg_type =? 2 then len data =? 92
    else if msg_type =? 3 then len data =? 64
    else if msg_type =? 4 then 32 <=? len data
    else false.

(** The value and the size of a variable-length integer. *)
Definition parse_quic_varint (data : list Z) : option (Z * Z) :=
  first ← head data;
  let length := Z.shiftl 1 (Z.shiftr first 6) in
  if len data <? length then None
  else Some (foldl (λ value byte, Z.lor (Z.shiftl value 8) byte) (Z.land first 63)
               (take (Z.to_nat (length - 1)) (drop 1 data)), length).

Definition QUIC_MIN_INITIAL_DATAGRAM_LEN : Z := 1200.
Definition QUIC_MAX_CID_LEN : Z := 20.

(** [slice_range] and [slice_from] stand for [get], which does not panic. *)
Definition parse_quic_initial_dcid (data : list Z) : option (list Z) :=
  first ← head data;
  if negb (Z.land first 192 =? 192) || negb (Z.land first 48 =? 0) || (len data <? QUIC_MIN_INITIAL_DATAGRAM_LEN)
  then None else
  version ← slice_range data 1 5;
  if bool_decide (version = [0; 0; 0; 0]) then None else
  dcid_len ← index data 5;
  if (dcid_len =? 0) || (QUIC_MAX_CID_LEN <? dcid_len) then None else
  dcid ← slice_range data 6 (6 + dcid_len);
  scid_len ← index data (6 + dcid_len);
  if QUIC_MAX_CID_LEN <? scid_len then None else
  let token_len_offset := 6 + dcid_len + 1 + scid_len in
  token ← slice_from data token_len_offset;
  '(token_len, token_len_size) ← parse_quic_varint token;
  let packet_len_offset := token_len_offset + token_len_size + token_len in
  rest ← slice_from data packet_len_offset;
  '(packet_len, packet_len_size) ← parse_quic_varint rest;
  let packet_offset := packet_len_offset + packet_len_size in
  if (packet_len =? 0) || (saturating_sub (len data) packet_offset <? packet_len) then None else Some dcid.

Definition is_quic_packet (data : list Z) : bool := bool_decide (is_Some (parse_quic_initial_dcid data)).

Definition classify_session_udp_datagram (data : list Z) : UdpSessionPacketKind :=
  if is_wireguard_packet data then Classified WireGuard
  else if is_quic_packet data then Classified Quic
  else Unknown.

(** [Ok None]: a well-formed header of another type. *)
Inductive InspectError : Type := InspectTooSmall | InspectLenMismatch.

Definition inspect_easytier_udp_datagram (data : list Z) : result (option (EasyTierUdpPacketKind * Z)) InspectError :=
  match UDPTunnelHeader.from_prefix data with
  | None => Err InspectTooSmall
  | Some header =>
      if negb (UDPTunnelHeader.udp_len header =? len data - UDP_TUNNEL_HEADER_SIZE) then Err InspectLenMismatch
      else Ok ((λ kind, (kind, UDPTunnelHeader.conn_id header)) <$> from_msg_type (UDPTunnelHeader.msg_type header))
  end.

Inductive UdpDatagramClassification : Type :=
| CStun (datagram : list Z)
| CEasyTier (kind : EasyTierUdpPacketKind) (conn_id : Z) (packet : ZCPacket.t)
| CSession (kind : UdpSessionPacketKind) (datagram : list Z).

Definition classify_udp_datagram (datagram : list Z) : UdpDatagramClassification :=
  if is_stun_packet datagram then CStun datagram
  else
    match inspect_easytier_udp_datagram datagram with
    | Ok (Some (kind, conn_id)) => CEasyTier kind conn_id (ZCPacket.new_from_buf datagram UDP)
    | _ => CSession (classify_session_udp_datagram datagram) datagram
    end.

Definition parse_udp_session_datagram (buf : list Z) (allow_stun : bool) : result ZCPacket.t InspectError :=
  match UDPTunnelHeader.from_prefix buf with
  | None => Err InspectTooSmall
  | Some header =>
      if allow_stun && is_stun_packet (take 8 buf) then Ok (ZCPacket.new_from_buf buf UDP)
      else if negb (UDPTunnelHeader.udp_len header =? len buf - UDP_TUNNEL_HEADER_SIZE) then Err InspectLenMismatch
      else Ok (ZCPacket.new_from_buf buf UDP)
  end.

(** ** The codec of a session *)

Inductive UdpSessionCodec : Type := EasyTierData (conn_id : Z) | Identity.

Definition validate_datagram_size (codec : UdpSessionCodec) (payload_len : Z) : result unit UdpCodecError :=
  let header_len := match codec with EasyTierData _ => UDP_TUNNEL_HEADER_SIZE | Identity => 0 end in
  match checked_add 64 payload_len header_len with
  | None => Err DatagramTooLarge
  | Some datagram_len => if MAX_UDP_SESSION_DATAGRAM_SIZE <? datagram_len then Err DatagramTooLarge else Ok tt
  end.

Definition validate_payload (codec : UdpSessionCodec) (payload : list Z) : result unit UdpCodecError :=
  let? _ := validate_datagram_size codec (len payload) in
  match codec with
  | EasyTierData _ => let? _ := udp_session_payload_len payload in Ok tt
  | Identity => Ok tt
  end.

Definition encode (codec : UdpSessionCodec) (payload : list Z) : option (result (list Z) UdpCodecError) :=
  match validate_payload codec payload with
  | Err e => Some (Err e)
  | Ok _ =>
      match codec with
      | EasyTierData conn_id =>
          r ← new_data_packet conn_id payload;
          Some (let? p := r in Ok (ZCPacket.inner p))
      | Identity => Some (Ok payload)
      end
  end.

Definition encode_tunnel_packet (codec : UdpSessionCodec) (uninit : list Z) (packet : ZCPacket.t)
    : option (result (list Z) UdpCodecError) :=
  packet ← ZCPacket.convert_type uninit packet UDP;
  payload ← ZCPacket.udp_payload packet;
  match validate_datagram_size codec (len payload) with
  | Err e => Some (Err e)
  | Ok _ =>
      match codec with
      | EasyTierData conn_id =>
          match udp_session_payload_len payload with
          | Err e => Some (Err e)
          | Ok payload_len =>
              p ← ZCPacket.update_udp_tunnel_header packet
                    (λ _, UDPTunnelHeader.mk conn_id (udp_packet_type_u8 UdpData) 0 payload_len);
              Some (Ok (ZCPacket.inner p))
          end
      | Identity => Some (Ok payload)
      end
  end.

(** * Properties *)

(** A packet with a good header is an EasyTier packet: no type of the layer has the byte of the
    STUN cookie at its place. *)
Lemma built_recognised ty kind conn_id h body :
  from_msg_type (udp_packet_type_u8 ty) = Some kind → is_uint 32 conn_id → is_uint 16 (len body) →
  let p := ZCPacket.new_from_buf (UDPTunnelHeader.to_bytes (udp_header ty conn_id (len body) h) ++ body) UDP in
  classify_udp_datagram (ZCPacket.inner p) = CEasyTier kind conn_id p ∧ ZCPacket.udp_payload p = Some body.
Proof.
  intros Hk Hc Hl p. set (hdr := udp_header ty conn_id (len body) h) in p. split.
  - unfold classify_udp_datagram. cbn [p ZCPacket.inner ZCPacket.new_from_buf].
    assert (is_stun_packet (UDPTunnelHeader.to_bytes hdr ++ body) = false) as ->.
    { unfold is_stun_packet. replace (bool_decide (take 4 (drop 4 _) = STUN_COOKIE)) with false; [by rewrite andb_false_r|].
      symmetry. apply bool_decide_false. unfold hdr, udp_header. destruct ty; cbn; intros [=]; lia. }
    unfold inspect_easytier_udp_datagram. rewrite PacketFacts.udp_header_roundtrip by done.
    rewrite len_app. change (len (UDPTunnelHeader.to_bytes hdr)) with 8. unfold UDP_TUNNEL_HEADER_SIZE.
    replace (8 + len body - 8) with (len body) by lia. cbn [hdr udp_header UDPTunnelHeader.udp_len UDPTunnelHeader.msg_type UDPTunnelHeader.conn_id].
    rewrite Z.eqb_refl. cbn [negb]. by rewrite Hk.
  - exact (slice_from_app (UDPTunnelHeader.to_bytes hdr) body 8 eq_refl).
Qed.

Lemma syn_recognised conn_id magic :
  is_uint 32 conn_id → ∃ p, new_syn_packet conn_id magic = Some p ∧
    classify_udp_datagram (ZCPacket.inner p) = CEasyTier KSyn conn_id p ∧ ZCPacket.udp_payload p = Some (to_le 8 magic).
Proof.
  intros Hc. unfold new_syn_packet. rewrite PacketFacts.new_udp_packet_layout. eexists. split; [done|].
  by apply (built_recognised UdpSyn KSyn conn_id _ (to_le 8 magic)).
Qed.

Lemma sack_recognised conn_id magic :
  is_uint 32 conn_id → ∃ p, new_sack_packet conn_id magic = Some p ∧
    classify_udp_datagram (ZCPacket.inner p) = CEasyTier KSack conn_id p ∧ ZCPacket.udp_payload p = Some (to_le 8 magic).
Proof.
  intros Hc. unfold new_sack_packet. rewrite PacketFacts.new_udp_packet_layout. eexists. split; [done|].
  by apply (built_recognised UdpSack KSack conn_id _ (to_le 8 magic)).
Qed.

Lemma validate_size_spec codec n :
  0 <= n →
  validate_datagram_size codec n =
  (if MAX_UDP_SESSION_DATAGRAM_SIZE <? n + match codec with EasyTierData _ => 8 | Identity => 0 end
   then Err DatagramTooLarge else Ok tt).
Proof.
  intros Hn. unfold validate_datagram_size, UDP_TUNNEL_HEADER_SIZE, MAX_UDP_SESSION_DATAGRAM_SIZE.
  set (hl := match codec with EasyTierData _ => 8 | Identity => 0 end).
  assert (0 <= hl) by (unfold hl; by destruct codec). unfold checked_add. unfold uint_max.
  destruct (Z.leb_spec (n + hl) (2 ^ 64 - 1)) as [Hle|Hgt]; [done|]. by destruct (Z.ltb_spec (8 * 1024) (n + hl)); [|lia].
Qed.

Lemma validated_length (l : list Z) :
  len l + 8 <= MAX_UDP_SESSION_DATAGRAM_SIZE → udp_session_payload_len l = Ok (len l) ∧ is_uint 16 (len l).
Proof.
  unfold MAX_UDP_SESSION_DATAGRAM_SIZE. intros Hl. pose proof (len_nonneg l). unfold udp_session_payload_len, uint_max, is_uint.
  destruct (Z.leb_spec (len l) (2 ^ 16 - 1)); [split; [done|lia]|lia].
Qed.

Lemma frames_spec conn_id payload :
  is_uint 32 conn_id → len payload + 8 <= MAX_UDP_SESSION_DATAGRAM_SIZE →
  ∃ d p, encode (EasyTierData conn_id) payload = Some (Ok d) ∧ len d <= MAX_UDP_SESSION_DATAGRAM_SIZE ∧
    classify_udp_datagram d = CEasyTier KData conn_id p ∧ ZCPacket.udp_payload p = Some payload.
Proof.
  intros Hc Hl. destruct (validated_length payload Hl) as [Hu Hb]. unfold encode, validate_payload.
  rewrite validate_size_spec by apply len_nonneg. destruct (Z.ltb_spec MAX_UDP_SESSION_DATAGRAM_SIZE (len payload + 8)); [lia|].
  unfold new_data_packet. rewrite Hu, PacketFacts.new_udp_packet_layout. cbn [mbind option_bind].
  destruct (built_recognised UdpData KData conn_id (UDPTunnelHeader.mk 0 0 0 0) payload) as [H1 H2]; [done..|].
  do 2 eexists. split; [done|]. split; [|by split].
  cbn [ZCPacket.inner ZCPacket.new_from_buf]. rewrite len_app. change (len (UDPTunnelHeader.to_bytes _)) with 8. lia.
Qed.

(** What a session or a connecting peer sends is recognised by the receiver: the payload of a
    session comes out whole under its connection id, unless the datagram would be longer than the
    layer takes, which the sender reports; a SYN and a SACK come out with their magic number. *)
Theorem frames_recognised conn_id payload magic :
  is_uint 32 conn_id →
  (match encode (EasyTierData conn_id) payload with
   | Some (Ok d) => len d <= MAX_UDP_SESSION_DATAGRAM_SIZE ∧
       ∃ p, classify_udp_datagram d = CEasyTier KData conn_id p ∧ ZCPacket.udp_payload p = Some payload
   | Some (Err _) => MAX_UDP_SESSION_DATAGRAM_SIZE < 8 + len payload
   | None => False
   end) ∧
  ∀ kind new, (kind, new) ∈ [(KSyn, new_syn_packet); (KSack, new_sack_packet)] →
    ∃ p, new conn_id magic = Some p ∧ classify_udp_datagram (ZCPacket.inner p) = CEasyTier kind conn_id p ∧
      ZCPacket.udp_payload p = Some (to_le 8 magic).
Proof.
  intros Hc. split.
  - destruct (Z.leb_spec (len payload + 8) MAX_UDP_SESSION_DATAGRAM_SIZE) as [Hl|Hl].
    + destruct (frames_spec conn_id payload Hc Hl) as (d & p & He & Hd & Hcl & Hp). rewrite He. split; [done|]. by exists p.
    + unfold encode, validate_payload. rewrite validate_size_spec by apply len_nonneg.
      destruct (Z.ltb_spec MAX_UDP_SESSION_DATAGRAM_SIZE (len payload + 8)); lia.
  - intros kind new [[= -> ->]|[[= -> ->]|[]%not_elem_of_nil]%elem_of_cons]%elem_of_cons; [by apply syn_recognised|by apply sack_recognised].
Qed.

(** The tunnel payload of a UDP packet follows its first eight bytes. *)
Lemma udp_packet_split q tp :
  ZCPacket.packet_type q = UDP → ZCPacket.tunnel_payload q = Some tp →
  ∃ a, ZCPacket.inner q = a ++ tp ∧ len a = 8 ∧ ZCPacket.udp_payload q = Some tp.
Proof.
  unfold ZCPacket.tunnel_payload, ZCPacket.udp_payload. intros -> Htp. cbn [get_packet_offsets peer_manager_header_offset udp_tunnel_header_offset] in *.
  change (wrapping_add 64 0 UDP_TUNNEL_HEADER_SIZE) with UDP_TUNNEL_HEADER_SIZE.
  pose proof (PacketFacts.slice_from_end _ _ _ Htp) as Hl. unfold UDP_TUNNEL_HEADER_SIZE in *. pose proof (len_nonneg tp).
  destruct (len_split (ZCPacket.inner q) 8 (len tp)) as (a & b & E & Ha & Hb); [lia..|].
  rewrite E, (slice_from_app a b) in Htp by done. injection Htp as ->. exists a. split_and!; [done..|].
  by rewrite E, (slice_from_app a tp).
Qed.

Lemma update_udp_header_ok a tp f ty :
  len a = 8 → ∃ h, ZCPacket.update_udp_tunnel_header (ZCPacket.mk (a ++ tp) UDP ty) f =
    Some (ZCPacket.mk (UDPTunnelHeader.to_bytes (f h) ++ tp) UDP ty).
Proof.
  intros Ha. unfold ZCPacket.update_udp_tunnel_header, ZCPacket.udp_tunnel_header, ZCPacket.bytes_from_offset.
  cbn [ZCPacket.packet_type ZCPacket.inner get_packet_offsets udp_tunnel_header_offset].
  rewrite (slice_from_app [] (a ++ tp)) by done. cbn [mbind option_bind]. unfold UDPTunnelHeader.from_prefix.
  rewrite len_app, Ha. unfold UDP_TUNNEL_HEADER_SIZE. pose proof (len_nonneg tp). destruct (Z.ltb_spec (8 + len tp) 8); [lia|].
  cbn [mbind option_bind]. eexists. by rewrite (write_range_app [] a tp).
Qed.

(** A tunnel packet sent over a session arrives as it was: whatever tunnel it came from, the
    datagram is recognised as data of the session, and the received packet has the peer manager
    header and the payload of the sent one; it is refused only when it is too long. *)
Theorem tunnel_packet_arrives uninit p conn_id :
  ZCPacket.wf p → is_uint 32 conn_id →
  match encode_tunnel_packet (EasyTierData conn_id) uninit p with
  | Some (Ok d) =>
      ∃ q, classify_udp_datagram d = CEasyTier KData conn_id q ∧
        ZCPacket.payload q = ZCPacket.payload p ∧ ZCPacket.peer_manager_header q = ZCPacket.peer_manager_header p
  | Some (Err _) => ∃ tp, ZCPacket.tunnel_payload p = Some tp ∧ MAX_UDP_SESSION_DATAGRAM_SIZE < 8 + len tp
  | None => False
  end.
Proof.
  intros Hwf Hc. destruct (PacketFacts.convert_type_tunnel_payload uninit p UDP Hwf) as (q & Hq & Hty & _ & Htq & [tp Htp]); [done|].
  rewrite Htp in Htq. destruct (udp_packet_split q tp Hty Htq) as (a & Ea & Ha & Hpl).
  unfold encode_tunnel_packet. rewrite Hq. cbn [mbind option_bind]. rewrite Hpl. cbn [mbind option_bind].
  rewrite validate_size_spec by apply len_nonneg.
  destruct (Z.ltb_spec MAX_UDP_SESSION_DATAGRAM_SIZE (len tp + 8)) as [Hl|Hl]; [exists tp; split; [done|lia]|].
  destruct (validated_length tp Hl) as [Hu Hb]. rewrite Hu. destruct q as [buf ty fk]. cbn in Hty, Ea. subst ty buf.
  destruct (update_udp_header_ok a tp (λ _, UDPTunnelHeader.mk conn_id 3 0 (len tp)) fk Ha) as [h Hup].
  cbn [udp_packet_type_u8]. rewrite Hup. cbn [mbind option_bind ZCPacket.inner].
  destruct (built_recognised UdpData KData conn_id (UDPTunnelHeader.mk 0 0 0 0) tp) as [H1 _]; [done..|].
  eexists. split; [exact H1|]. apply (PacketFacts.same_tunnel_payload p _ tp Htp).
  exact (slice_from_app (UDPTunnelHeader.to_bytes _) tp 8 eq_refl).
Qed.

(** The addresses of the packets that ask the listener to punch a hole. *)
Lemma hole_punch_addresses ip4 ip6 port src :
  is_uint 32 ip4 → is_uint 128 ip6 → is_uint 16 port →
  from_option (λ s, is_uint 128 (pref_ip s) ∧ pref_ip s ≠ 0 ∧ is_uint 32 (pref_ifindex s)) True src →
  (∃ p b, new_v4_hole_punch_packet ip4 port = Some p ∧ classify_udp_datagram (ZCPacket.inner p) = CEasyTier KV4HolePunch port p ∧
     ZCPacket.udp_payload p = Some b ∧ extract_dst_addr_from_v4_hole_punch_packet b = Some (mkSocketAddr (IpV4 ip4) port)) ∧
  ∃ p b, new_v6_hole_punch_packet ip6 port src = Some p ∧ classify_udp_datagram (ZCPacket.inner p) = CEasyTier KV6HolePunch port p ∧
     ZCPacket.udp_payload p = Some b ∧ extract_v6_hole_punch_packet b = Some (mkSocketAddr (IpV6 ip6) port, src).
Proof.
  unfold is_uint. intros H4 H6 Hp Hs.
  assert (Hlen : ∀ n z, length (to_be n z) = n) by (intros; apply length_to_be).
  assert (Hle : ∀ n z, length (to_le n z) = n) by (intros; apply length_to_le).
  assert (Hbe : ∀ n z, 0 <= z < 256 ^ Z.of_nat n → from_be (to_be n z) = z) by (intros; rewrite from_be_to_be; by apply Z.mod_small).
  split.
  - unfold new_v4_hole_punch_packet. rewrite PacketFacts.new_udp_packet_layout. set (body := to_be 4 ip4 ++ to_le 2 port).
    assert (Hl : len body = 6) by (unfold len, body; by rewrite length_app, Hlen, Hle).
    change V4_HOLE_PUNCH_SIZE with 6. rewrite <- Hl. do 2 eexists. split; [done|].
    destruct (built_recognised UdpV4HolePunch KV4HolePunch port (UDPTunnelHeader.mk 0 0 0 0) body) as [H1 H2];
      [done|unfold is_uint; lia|by rewrite Hl|]. split; [exact H1|]. split; [exact H2|].
    unfold extract_dst_addr_from_v4_hole_punch_packet. rewrite Hl. cbn [Z.ltb Z.compare V4_HOLE_PUNCH_SIZE].
    change (6 <? V4_HOLE_PUNCH_SIZE) with false. cbn iota. unfold body. rewrite (take_app_len (to_be 4 ip4)), (drop_app_len (to_be 4 ip4)) by done.
    rewrite take_ge by (by rewrite Hle). rewrite Hbe, to_le_roundtrip by lia. done.
  - unfold new_v6_hole_punch_packet. rewrite PacketFacts.new_udp_packet_layout. set (s := default (mkPreferred 0 0) src).
    set (body := to_be 16 ip6 ++ to_le 2 port ++ to_be 16 (pref_ip s) ++ to_le 4 (pref_ifindex s)).
    assert (Hl : len body = 38) by (unfold len, body; by rewrite !length_app, !Hlen, !Hle).
    change V6_HOLE_PUNCH_SIZE with 38. rewrite <- Hl. do 2 eexists. split; [done|].
    destruct (built_recognised UdpV6HolePunch KV6HolePunch port (UDPTunnelHeader.mk 0 0 0 0) body) as [H1 H2];
      [done|unfold is_uint; lia|by rewrite Hl|]. split; [exact H1|]. split; [exact H2|].
    unfold extract_v6_hole_punch_packet. rewrite Hl. change (38 <? V6_HOLE_PUNCH_SIZE) with false. cbn iota.
    assert (Hi : 0 <= pref_ip s < 2 ^ 128 ∧ 0 <= pref_ifindex s < 2 ^ 32) by (unfold s; destruct src; cbn in *; lia).
    change 34%nat with (16 + (2 + 16))%nat. change 18%nat with (16 + 2)%nat. rewrite <- !drop_drop.
    unfold body. rewrite (take_app_len (to_be 16 ip6)), (drop_app_len (to_be 16 ip6)) by done.
    rewrite (take_app_len (to_le 2 port)), (drop_app_len (to_le 2 port)) by done.
    rewrite (take_app_len (to_be 16 (pref_ip s))), (drop_app_len (to_be 16 (pref_ip s))) by done.
    rewrite take_ge by (by rewrite Hle). rewrite !Hbe, !to_le_roundtrip by lia. f_equal. f_equal.
    unfold s. destruct src as [[i x]|]; cbn; [|done]. cbn in Hs. by destruct (Z.eqb_spec i 0); [lia|].
Qed.

(** The first packet of a QUIC connection is not mistaken for STUN or WireGuard. *)
Lemma quic_recognised d cid :
  is_bytes d → parse_quic_initial_dcid d = Some cid →
  classify_session_udp_datagram d = Classified Quic ∧ is_stun_packet d = false ∧ QUIC_MIN_INITIAL_DATAGRAM_LEN <= len d.
Proof.
  intros Hb Hq. destruct d as [|x d]; [done|]. inversion Hb as [|? ? Hx Hb']; subst.
  assert (Hx192 : Z.land x 192 = 192 ∧ QUIC_MIN_INITIAL_DATAGRAM_LEN <= len (x :: d)).
  { unfold parse_quic_initial_dcid in Hq. cbn [head mbind option_bind] in Hq.
    destruct (Z.eqb_spec (Z.land x 192) 192), (Z.ltb_spec (len (x :: d)) QUIC_MIN_INITIAL_DATAGRAM_LEN); cbn [negb orb] in Hq;
      rewrite ?orb_true_r in Hq; done. }
  destruct Hx192 as [Hx192 Hl]. split_and!; [| |done].
  - unfold classify_session_udp_datagram, is_quic_packet. rewrite Hq, (bool_decide_true (is_Some _)) by done.
    replace (is_wireguard_packet (x :: d)) with false; [done|]. symmetry. unfold is_wireguard_packet.
    assert (Hge : 192 <= x).
    { destruct (Z.leb_spec 192 x); [done|exfalso]. unfold is_byte in Hx.
      pose proof (N.land_le_l (Z.to_N x) 192) as Hle. pose proof (N2Z.inj_land (Z.to_N x) 192) as E.
      rewrite Z2N.id in E by lia. change (Z.of_N 192) with 192 in E. lia. }
    destruct (_ <? 4); [done|]. cbn [take from_le].
    assert (0 <= from_le (take 3 d)) by (apply from_le_bound; by apply Forall_take).
    assert (192 <= x + 256 * from_le (take 3 d)) by lia. bool_to_prop. split_matches; bool_to_prop; done || lia.
  - unfold is_stun_packet. cbn [lookup_total list_lookup_total]. rewrite Hx192. by rewrite andb_false_r.
Qed.

(** A WireGuard packet with a receiver index that reads as the STUN cookie is taken for STUN. *)
Example wireguard_taken_for_stun :
  let d := [4; 0; 0; 0] ++ STUN_COOKIE ++ replicate 24 0 in
  classify_session_udp_datagram d = Classified WireGuard ∧ classify_udp_datagram d = CStun d.
Proof. split; vm_compute; reflexivity. Qed.

Lemma encode_total codec payload : is_Some (encode codec payload).
Proof.
  unfold encode. destruct (validate_payload codec payload); [|by eexists]. destruct codec; [|by eexists].
  unfold new_data_packet. destruct (udp_session_payload_len payload); cbn; [|by eexists].
  rewrite PacketFacts.new_udp_packet_layout. by eexists.
Qed.

Lemma encode_tunnel_total codec uninit p : ZCPacket.wf p → is_Some (encode_tunnel_packet codec uninit p).
Proof.
  intros Hwf. destruct (PacketFacts.convert_type_tunnel_payload uninit p UDP Hwf) as (q & Hq & Hty & _ & Htq & [tp Htp]); [done|].
  rewrite Htp in Htq. destruct (udp_packet_split q tp Hty Htq) as (a & Ea & Ha & Hpl).
  unfold encode_tunnel_packet. rewrite Hq. cbn [mbind option_bind]. rewrite Hpl. cbn [mbind option_bind].
  destruct (validate_datagram_size codec (len tp)); [|by eexists]. destruct codec; [|by eexists].
  destruct (udp_session_payload_len tp); [|by eexists]. destruct q as [buf ty fk]. cbn in Hty, Ea. subst ty buf.
  match goal with |- context [ZCPacket.update_udp_tunnel_header _ ?f] => destruct (update_udp_header_ok a tp f fk Ha) as [h ->] end.
  by eexists.
Qed.

(** ** Witness *)

Lemma tunnel_packet_arrives_witness :
  let p := ZCPacket.mk (replicate 20 0 ++ [7; 8]) TCP None in
  ∃ d q, encode_tunnel_packet (EasyTierData 77) (replicate 8 9) p = Some (Ok d) ∧
    classify_udp_datagram d = CEasyTier KData 77 q ∧ ZCPacket.payload q = Some [7; 8].
Proof.
  cbn zeta. set (p := ZCPacket.mk (replicate 20 0 ++ [7; 8]) TCP None).
  assert (Hwf : ZCPacket.wf p) by (unfold ZCPacket.wf; vm_compute; discriminate).
  assert (Hc : is_uint 32 77) by (unfold is_uint; split; [discriminate|reflexivity]).
  pose proof (tunnel_packet_arrives (replicate 8 9) p 77 Hwf Hc) as Hr.
  assert (He : is_ok <$> encode_tunnel_packet (EasyTierData 77) (replicate 8 9) p = Some true) by (vm_compute; reflexivity).
  destruct (encode_tunnel_packet (EasyTierData 77) (replicate 8 9) p) as [[d|e]|]; [|discriminate..].
  destruct Hr as (q & Hq & Hpl & _). exists d, q. split; [reflexivity|]. split; [exact Hq|]. rewrite Hpl. reflexivity.
Defined.
