(* ===== verification/UdpSessions.v ===== *)
(** * The UDP session layer

    Models easytier-core/src/socket/udp/layer.rs and session.rs: one socket shared by EasyTier,
    WireGuard and QUIC sessions.  A session is a ring of received datagrams, found under the key
    of its peer; the two registries are one map here, since their keys differ.  A ring has an
    identity (the [Arc] of the source), and the handle [UdpSession] is known by it.

    The receive task, the calls of [connect] and [accept], and the tasks of the sessions are
    steps of one state ([udp_step]); each runs without an interruption, as its parts hold the
    locks of the maps.  What a step sends or tells others is its list of actions.  Random numbers,
    permits and the results of the socket are arguments; a panic is [None].  Times are numbers. *)

From stdpp Require Import base gmap list numbers sets.
From Stdlib Require Import ZArith Lia.
From S2P Require Import Prelude Packet UdpDatagram.
Local Open Scope Z_scope.

(** ** Sessions *)

Inductive SessionKey : Type :=
| EasyTierKey (peer_addr : SocketAddr) (conn_id : Z)
| ClassifiedKey (protocol : UdpSessionProtocol) (peer_addr : SocketAddr).

#[export] Instance session_key_eq_dec : EqDecision SessionKey.
Proof. solve_decision. Defined.
#[export] Instance session_key_countable : Countable SessionKey.
Proof.
  apply (inj_countable' (λ k, match k with EasyTierKey a c => inl (a, c) | ClassifiedKey p a => inr (p, a) end)
    (λ s, match s with inl (a, c) => EasyTierKey a c | inr (p, a) => ClassifiedKey p a end)). by intros [].
Defined.

Definition key_peer (k : SessionKey) : SocketAddr := match k with EasyTierKey a _ => a | ClassifiedKey _ a => a end.
Definition key_codec (k : SessionKey) : UdpSessionCodec :=
  match k with EasyTierKey _ c => EasyTierData c | ClassifiedKey _ _ => Identity end.

Inductive UdpSessionDatagramPayload : Type := PBytes (payload : list Z) | PEasyTier (packet : ZCPacket.t).
Record UdpSessionDatagram : Type := mkDatagram { dg_payload : UdpSessionDatagramPayload; dg_dst_ip : option IpAddr }.

Definition datagram_payload (d : UdpSessionDatagram) : option (list Z) :=
  match dg_payload d with PBytes b => Some b | PEasyTier p => ZCPacket.udp_payload p end.

(** The ring of received datagrams, whether its receiver is there, and the close signal. *)
Record Ring : Type := mkRing { r_items : list UdpSessionDatagram; r_open : bool; r_closed : bool }.

Definition UDP_SESSION_QUEUE_CAPACITY : Z := 128.
Definition RING_SOCKET_RESERVED_CAPACITY : Z := 4.

Inductive RingSend : Type := RingSent (ring : Ring) | RingFull | RingClosed.

Definition ring_push (capacity : Z) (ring : Ring) (d : UdpSessionDatagram) : RingSend :=
  if negb (r_open ring) then RingClosed
  else if capacity <=? len (r_items ring) then RingFull
  else RingSent (mkRing (r_items ring ++ [d]) (r_open ring) (r_closed ring)).

Definition ring_try_send : Ring → UdpSessionDatagram → RingSend :=
  ring_push (UDP_SESSION_QUEUE_CAPACITY - RING_SOCKET_RESERVED_CAPACITY).
Definition ring_force_send : Ring → UdpSessionDatagram → RingSend := ring_push UDP_SESSION_QUEUE_CAPACITY.

Inductive UdpSessionEnqueuePolicy : Type := Lossy | Reliable.

(** Whether the session is still there; a full ring drops the datagram. *)
Definition dispatch_payload_to_session (ring : Ring) (d : UdpSessionDatagram) (policy : UdpSessionEnqueuePolicy) : Ring * bool :=
  match (match policy with Lossy => ring_try_send | Reliable => ring_force_send end) ring d with
  | RingSent ring => (ring, true)
  | RingFull => (ring, true)
  | RingClosed => (ring, false)
  end.

(** ** The registry *)

Record Registry : Type := mkRegistry {
  sessions : gmap SessionKey Z;
  rings : gmap Z Ring;
  handles : gmap Z SessionKey;
  session_shutdown : bool;
  next_ring : Z
}.

Implicit Types (g : Registry) (k : SessionKey) (r : Z) (d : UdpSessionDatagram).

Definition set_sessions g (m : gmap SessionKey Z) : Registry := mkRegistry m (rings g) (handles g) (session_shutdown g) (next_ring g).
Definition set_rings g (m : gmap Z Ring) : Registry := mkRegistry (sessions g) m (handles g) (session_shutdown g) (next_ring g).
Definition set_handles g (m : gmap Z SessionKey) : Registry := mkRegistry (sessions g) (rings g) m (session_shutdown g) (next_ring g).

Definition create_udp_session_rings g : Registry * Z :=
  (mkRegistry (sessions g) (<[next_ring g := mkRing [] true false]> (rings g)) (handles g) (session_shutdown g) (next_ring g + 1),
   next_ring g).

Definition signal_close (ring : Ring) : Ring := mkRing (r_items ring) (r_open ring) true.
Definition close_ring g r : Registry := set_rings g (alter signal_close r (rings g)).

Definition close_udp_session g k : Registry :=
  match sessions g !! k with
  | Some r => close_ring (set_sessions g (delete k (sessions g))) r
  | None => g
  end.

Definition close_all_udp_sessions g : Registry :=
  set_sessions (foldr (λ kr g, close_ring g kr.2) g (map_to_list (sessions g))) ∅.

(** [UdpSessionClose::close]. *)
Definition udp_session_close g k r : Registry := close_ring (close_udp_session g k) r.

(** [UdpSession::new]: after the shutdown of the layer a new session is closed at once. *)
Definition udp_session_new g k r : Registry :=
  let g := set_handles g (<[r := k]> (handles g)) in
  if session_shutdown g then close_ring g r else g.

Definition drop_receiver (ring : Ring) : Ring := mkRing (r_items ring) false (r_closed ring).

(** Dropping the handle: the receiver goes and [UdpSessionCleanup] closes the session. *)
Definition drop_session g r : Registry :=
  match handles g !! r with
  | Some k => udp_session_close (set_rings (set_handles g (delete r (handles g))) (alter drop_receiver r (rings g))) k r
  | None => g
  end.

Definition send_to_ring g r d (policy : UdpSessionEnqueuePolicy) : Registry * bool :=
  match rings g !! r with
  | Some ring => let '(ring, sent) := dispatch_payload_to_session ring d policy in (set_rings g (<[r := ring]> (rings g)), sent)
  | None => (g, false)
  end.

(** A datagram for a registered session; a session without receiver is closed. *)
Definition dispatch_to_session g k r d (policy : UdpSessionEnqueuePolicy) : Registry :=
  let '(g, sent) := send_to_ring g r d policy in if sent then g else close_udp_session g k.

(** ** Connecting *)

Record Attempt : Type := mkAttempt {
  at_conn_id : Z;
  at_expected : SocketAddr;
  at_magic : Z;
  at_ring : Z;
  at_key : option SessionKey;
  at_sack : option SocketAddr
}.

(** The pending connects by connection id, and the calls of [connect] that wait. *)
Record Connects : Type := mkConnects {
  pending_connects : gmap Z Z;
  attempts : gmap Z Attempt;
  next_attempt : Z
}.

Implicit Types (cs : Connects).

Definition set_pending cs (m : gmap Z Z) : Connects := mkConnects m (attempts cs) (next_attempt cs).
Definition set_attempts cs (m : gmap Z Attempt) : Connects := mkConnects (pending_connects cs) m (next_attempt cs).

(** ** Observers of hole punching *)

Record ObserverEntry : Type := mkObserver { oe_source : Z; oe_expires : option Z }.

(** The registered observers by transaction, and what each has seen. *)
Record Observers : Type := mkObservers {
  entries : gmap Z ObserverEntry;
  sources : gmap Z (option SocketAddr);
  next_source : Z
}.

Implicit Types (ob : Observers).

Inductive ObserveError : Type := ListenerClosed | AlreadyObserved | RegistrationExpired.

Definition observer_insert ob (tid : Z) (expires : option Z) : Observers * Z :=
  (mkObservers (<[tid := mkObserver (next_source ob) expires]> (entries ob)) (<[next_source ob := None]> (sources ob)) (next_source ob + 1),
   next_source ob).

Definition set_entries ob (m : gmap Z ObserverEntry) : Observers := mkObservers m (sources ob) (next_source ob).

Definition observer_prepare ob (shutdown : bool) (tid now timeout : Z) : Observers * option ObserveError :=
  if shutdown then (ob, Some ListenerClosed)
  else match entries ob !! tid with
       | None => ((observer_insert ob tid (Some (now + timeout))).1, None)
       | Some _ => (ob, Some AlreadyObserved)
       end.

Definition unexpired (now : Z) (e : ObserverEntry) : bool := match oe_expires e with Some deadline => now <? deadline | None => true end.

Definition expire_prepared ob (now : Z) : Observers :=
  set_entries ob (filter (λ ke, unexpired now ke.2 = true) (entries ob)).

Definition observer_observe ob (shutdown : bool) (tid now : Z) : Observers * result Z ObserveError :=
  if shutdown then (ob, Err ListenerClosed)
  else match entries ob !! tid with
       | Some e =>
           match oe_expires e with
           | None => (ob, Err AlreadyObserved)
           | Some deadline =>
               if deadline <=? now then (set_entries ob (delete tid (entries ob)), Err RegistrationExpired)
               else (set_entries ob (<[tid := mkObserver (oe_source e) None]> (entries ob)), Ok (oe_source e))
           end
       | None => let '(ob, o) := observer_insert ob tid None in (ob, Ok o)
       end.

Definition observer_drop ob (tid o : Z) : Observers :=
  match entries ob !! tid with
  | Some e => if oe_source e =? o then set_entries ob (delete tid (entries ob)) else ob
  | None => ob
  end.

(** The first source stays. *)
Definition observer_record ob (tid : Z) (remote : SocketAddr) : Observers * bool :=
  match entries ob !! tid with
  | Some e => (mkObservers (entries ob) (alter (λ s, Some (default remote s)) (oe_source e) (sources ob)) (next_source ob), true)
  | None => (ob, false)
  end.

(** ** Accepting *)

Record Accepts : Type := mkAccepts {
  mux_reserved : gset Z;
  mux_accepted : list Z;
  classified_accepted : gmap UdpSessionProtocol (list Z);
  accept_enabled : gset UdpSessionProtocol
}.

Implicit Types (ac : Accepts).

Definition classified_queue ac (p : UdpSessionProtocol) : list Z := default [] (classified_accepted ac !! p).
Definition mux_permit ac : bool := Z.of_nat (size (mux_reserved ac)) + len (mux_accepted ac) <? UDP_SESSION_QUEUE_CAPACITY.
Definition classified_permit ac (p : UdpSessionProtocol) : bool := len (classified_queue ac p) <? UDP_SESSION_QUEUE_CAPACITY.

(** ** The layer *)

Record UdpSessionLayer : Type := mkLayer { reg : Registry; connects : Connects; observers : Observers; accepts : Accepts }.

Implicit Types (L : UdpSessionLayer).

Definition with_reg L g : UdpSessionLayer := mkLayer g (connects L) (observers L) (accepts L).
Definition with_connects L cs : UdpSessionLayer := mkLayer (reg L) cs (observers L) (accepts L).
Definition with_observers L ob : UdpSessionLayer := mkLayer (reg L) (connects L) ob (accepts L).
Definition with_accepts L ac : UdpSessionLayer := mkLayer (reg L) (connects L) (observers L) ac.

Definition new_layer : UdpSessionLayer :=
  mkLayer (mkRegistry ∅ ∅ ∅ false 0) (mkConnects ∅ ∅ 0) (mkObservers ∅ ∅ 0) (mkAccepts ∅ [] ∅ ∅).

Inductive UdpConnectControl : Type := CtlHolePunch (recv_addr : SocketAddr) | CtlInvalidPacket.

Inductive UdpSessionLayerControl : Type :=
| CtlStun (remote : SocketAddr) (datagram : list Z)
| CtlV4HolePunch (remote dst : SocketAddr)
| CtlV6HolePunch (remote dst : SocketAddr) (preferred : option PreferredIpv6Source).

(** What a step does outside of the layer.  [ASack] is a task that sends a SACK: for a new
    session, whose handle it holds, or once more. *)
Inductive Action : Type :=
| ASend (data : list Z) (to : SocketAddr)
| ASack (data : list Z) (key : SessionKey) (new : option Z)
| APunch (dst : SocketAddr) (preferred : option PreferredIpv6Source)
| AStun (datagram : list Z) (remote : SocketAddr)
| AControl (c : UdpSessionLayerControl)
| AAttempt (attempt : Z) (c : UdpConnectControl).

(** What the receive task finds: a free permit for a handler, and the local address. *)
Record Env : Type := mkEnv { permit : bool; local_addr_ok : bool }.

Implicit Types (env : Env) (remote : SocketAddr) (dst_ip : option IpAddr).

(** *** Sessions of other protocols *)

Definition push_classified ac (p : UdpSessionProtocol) (r : Z) : Accepts :=
  mkAccepts (mux_reserved ac) (mux_accepted ac) (<[p := classified_queue ac p ++ [r]]> (classified_accepted ac)) (accept_enabled ac).

Definition dispatch_classified_udp_datagram L env (p : UdpSessionProtocol) remote d : UdpSessionLayer :=
  let key := ClassifiedKey p remote in
  match sessions (reg L) !! key with
  | Some r => with_reg L (dispatch_to_session (reg L) key r d Reliable)
  | None =>
      if negb (bool_decide (p ∈ accept_enabled (accepts L))) then L
      else if negb (classified_permit (accepts L) p) || negb (local_addr_ok env) then L
      else
        let '(g, r) := create_udp_session_rings (reg L) in
        let g := set_sessions g (<[key := r]> (sessions g)) in
        let '(g, sent) := send_to_ring g r d Reliable in
        if sent
        then mkLayer (udp_session_new g key r) (connects L) (observers L) (push_classified (accepts L) p r)
        else with_reg L (close_udp_session g key)
  end.

Definition dispatch_session_udp_datagram L env remote (kind : UdpSessionPacketKind) d : UdpSessionLayer :=
  match kind with
  | Classified p => dispatch_classified_udp_datagram L env p remote d
  | Unknown => L
  end.

(** *** EasyTier packets

    The result says also whether the packet was one for this layer. *)

Definition dispatch_data_packet L remote (conn_id : Z) (packet : ZCPacket.t) dst_ip : UdpSessionLayer * bool :=
  let key := EasyTierKey remote conn_id in
  match sessions (reg L) !! key with
  | None => (L, false)
  | Some r =>
      let policy := if ZCPacket.is_lossy packet then Lossy else Reliable in
      (with_reg L (dispatch_to_session (reg L) key r (mkDatagram (PEasyTier packet) dst_ip) policy), true)
  end.

Definition reserve_mux ac (r : Z) : Accepts :=
  mkAccepts ({[r]} ∪ mux_reserved ac) (mux_accepted ac) (classified_accepted ac) (accept_enabled ac).

Definition handle_new_easy_tier_mux_connect L env remote (conn_id : Z) (packet : ZCPacket.t)
    : option (UdpSessionLayer * list Action * bool) :=
  payload ← ZCPacket.udp_payload packet;
  if negb (len payload =? 8) then Some (L, [], false)
  else
    let magic := from_le payload in
    let key := EasyTierKey remote conn_id in
    sack ← new_sack_packet conn_id magic;
    if bool_decide (is_Some (sessions (reg L) !! key)) then Some (L, [ASack (ZCPacket.inner sack) key None], true)
    else if negb (mux_permit (accepts L)) || negb (local_addr_ok env) then Some (L, [], true)
    else
      let '(g, r) := create_udp_session_rings (reg L) in
      let g := udp_session_new (set_sessions g (<[key := r]> (sessions g))) key r in
      Some (mkLayer g (connects L) (observers L) (reserve_mux (accepts L) r), [ASack (ZCPacket.inner sack) key (Some r)], true).

(** The ring of a connecting session is registered under the address the SACK comes from. *)
Definition move_pending_udp_session_sender L (a : Z) (at0 : Attempt) (new_key : SessionKey) : UdpSessionLayer * bool :=
  match at_key at0 with
  | Some k => (L, bool_decide (k = new_key))
  | None =>
      match sessions (reg L) !! new_key with
      | Some _ => (L, false)
      | None =>
          (with_connects
             (with_reg L (set_sessions (reg L) (<[new_key := at_ring at0]> (sessions (reg L)))))
             (set_attempts (connects L)
                (<[a := mkAttempt (at_conn_id at0) (at_expected at0) (at_magic at0) (at_ring at0) (Some new_key) (at_sack at0)]>
                   (attempts (connects L)))), true)
      end
  end.

Definition set_sack L (a : Z) (recv_addr : SocketAddr) : UdpSessionLayer :=
  with_connects L (set_attempts (connects L)
    (alter (λ at0, mkAttempt (at_conn_id at0) (at_expected at0) (at_magic at0) (at_ring at0) (at_key at0) (Some recv_addr)) a
       (attempts (connects L)))).

Definition pending_attempt L (conn_id : Z) : option (Z * Attempt) :=
  a ← pending_connects (connects L) !! conn_id; at0 ← attempts (connects L) !! a; Some (a, at0).

(** A pending connect and the receiver of its SACK end together. *)
Definition dispatch_sack_packet L recv_addr (conn_id : Z) (packet : ZCPacket.t) : option (UdpSessionLayer * list Action * bool) :=
  payload ← ZCPacket.udp_payload packet;
  Some
    match pending_attempt L conn_id with
    | None => (L, [], false)
    | Some (a, at0) =>
        if negb (len payload =? 8) then (L, [AAttempt a CtlInvalidPacket], true)
        else if negb ((at_magic at0 =? from_le payload) && bool_decide (at_key at0 = None))
        then (L, [AAttempt a CtlInvalidPacket], true)
        else
          let L := with_connects L (set_pending (connects L) (delete conn_id (pending_connects (connects L)))) in
          let '(L, moved) := move_pending_udp_session_sender L a at0 (EasyTierKey recv_addr conn_id) in
          if moved then (set_sack L a recv_addr, [], true) else (L, [AAttempt a CtlInvalidPacket], true)
    end.

Definition dispatch_hole_punch_packet L recv_addr : list Action :=
  omap (λ ca, at0 ← attempts (connects L) !! ca.2;
          if bool_decide (at_expected at0 = recv_addr) then Some (AAttempt ca.2 (CtlHolePunch recv_addr)) else None)
    (map_to_list (pending_connects (connects L))).

Definition ip_is_loopback (ip : IpAddr) : bool :=
  match ip with IpV4 b => Z.shiftr b 24 =? 127 | IpV6 b => b =? 1 end.

Definition dispatch_v4_hole_punch_control env remote (packet : ZCPacket.t) : option (list Action * bool) :=
  if negb (ip_is_loopback (sa_ip remote)) then Some ([], false)
  else match sa_ip remote with
       | IpV6 _ => Some ([], false)
       | IpV4 _ =>
           payload ← ZCPacket.udp_payload packet;
           Some match extract_dst_addr_from_v4_hole_punch_packet payload with
                | None => ([], false)
                | Some dst => ((if permit env then [APunch dst None] else []) ++ [AControl (CtlV4HolePunch remote dst)], true)
                end
       end.

Definition dispatch_v6_hole_punch_control env remote (packet : ZCPacket.t) : option (list Action * bool) :=
  if negb (ip_is_loopback (sa_ip remote)) then Some ([], false)
  else match sa_ip remote with
       | IpV4 _ => Some ([], false)
       | IpV6 _ =>
           payload ← ZCPacket.udp_payload packet;
           Some match extract_v6_hole_punch_packet payload with
                | None => ([], false)
                | Some (dst, src) => ((if permit env then [APunch dst src] else []) ++ [AControl (CtlV6HolePunch remote dst src)], true)
                end
       end.

Definition dispatch_easy_tier_udp_datagram L env remote (kind : EasyTierUdpPacketKind) (conn_id : Z) (packet : ZCPacket.t) dst_ip
    : option (UdpSessionLayer * list Action * bool) :=
  match kind with
  | KData => let '(L, consumed) := dispatch_data_packet L remote conn_id packet dst_ip in Some (L, [], consumed)
  | KSyn => handle_new_easy_tier_mux_connect L env remote conn_id packet
  | KSack => dispatch_sack_packet L remote conn_id packet
  | KHolePunch =>
      payload ← ZCPacket.udp_payload packet;
      let '(ob, observed) := if len payload =? HOLE_PUNCH_PACKET_BODY_LEN then observer_record (observers L) conn_id remote
                             else (observers L, false) in
      let told := dispatch_hole_punch_packet L remote in
      Some (with_observers L ob, told, negb (bool_decide (told = [])) || observed)
  | KV4HolePunch => '(acts, consumed) ← dispatch_v4_hole_punch_control env remote packet; Some (L, acts, consumed)
  | KV6HolePunch => '(acts, consumed) ← dispatch_v6_hole_punch_control env remote packet; Some (L, acts, consumed)
  end.

(** *** The receive task *)

Definition udp_receive L env remote dst_ip (payload : list Z) : option (UdpSessionLayer * list Action) :=
  if MAX_UDP_SESSION_DATAGRAM_SIZE <? len payload then Some (L, [])
  else
    let quic_key := ClassifiedKey Quic remote in
    match sessions (reg L) !! quic_key with
    | Some r => Some (with_reg L (dispatch_to_session (reg L) quic_key r (mkDatagram (PBytes payload) dst_ip) Reliable), [])
    | None =>
        match classify_udp_datagram payload with
        | CStun datagram => Some (L, (if permit env then [AStun datagram remote] else []) ++ [AControl (CtlStun remote datagram)])
        | CSession kind datagram => Some (dispatch_session_udp_datagram L env remote kind (mkDatagram (PBytes datagram) dst_ip), [])
        | CEasyTier kind conn_id packet =>
            '(L, acts, consumed) ← dispatch_easy_tier_udp_datagram L env remote kind conn_id packet dst_ip;
            if consumed : bool then Some (L, acts)
            else
              let datagram := ZCPacket.inner packet in
              Some (dispatch_session_udp_datagram L env remote (classify_session_udp_datagram datagram)
                      (mkDatagram (PBytes datagram) dst_ip), acts)
        end
    end.

(** The socket has failed, or the layer is dropped. *)
Definition udp_shutdown L : UdpSessionLayer :=
  let g := close_all_udp_sessions (reg L) in
  mkLayer (mkRegistry (sessions g) (rings g) (handles g) true (next_ring g)) (set_pending (connects L) ∅)
    (set_entries (observers L) ∅) (accepts L).

(** ** Calls of the layer *)

(** The first of the drawn ids that neither a session of the peer nor a pending connect has. *)
Definition free_conn_id L remote (drawn : list Z) : option Z :=
  head (filter (λ c, sessions (reg L) !! EasyTierKey remote c = None ∧ pending_connects (connects L) !! c = None) drawn).

(** [None]: still drawing. *)
Definition connect_begin L remote (magic : Z) (drawn : list Z) : option (UdpSessionLayer * list Action * Z) :=
  conn_id ← free_conn_id L remote drawn;
  syn ← new_syn_packet conn_id magic;
  let '(g, r) := create_udp_session_rings (reg L) in
  let a := next_attempt (connects L) in
  let cs := mkConnects (<[conn_id := a]> (pending_connects (connects L)))
              (<[a := mkAttempt conn_id remote magic r None None]> (attempts (connects L))) (a + 1) in
  Some (with_connects (with_reg L g) cs, [ASend (ZCPacket.inner syn) remote], a).

(** The SYN sent once more: by the timer to the expected address, after a hole punch packet to its sender. *)
Definition connect_resend L (a : Z) (to : SocketAddr) : option (list Action) :=
  match attempts (connects L) !! a with
  | None => Some []
  | Some at0 => syn ← new_syn_packet (at_conn_id at0) (at_magic at0); Some [ASend (ZCPacket.inner syn) to]
  end.

(** A connect that fails or is dropped: [PendingUdpSessionGuard], then the rings. *)
Definition connect_end L (a : Z) : UdpSessionLayer :=
  match attempts (connects L) !! a with
  | None => L
  | Some at0 =>
      let cs := mkConnects (delete (at_conn_id at0) (pending_connects (connects L))) (delete a (attempts (connects L)))
                  (next_attempt (connects L)) in
      let g := match at_key at0 with Some k => close_udp_session (reg L) k | None => reg L end in
      with_connects (with_reg L (set_rings g (alter drop_receiver (at_ring at0) (rings g)))) cs
  end.

(** The call goes on once there is a SACK; the result is the session's ring. *)
Definition connect_finish L (a : Z) : UdpSessionLayer * option Z :=
  match attempts (connects L) !! a with
  | Some at0 =>
      match at_sack at0 with
      | Some recv_addr =>
          let key := EasyTierKey recv_addr (at_conn_id at0) in
          if negb (bool_decide (at_key at0 = Some key)) then (connect_end L a, None)
          else
            let cs := mkConnects (delete (at_conn_id at0) (pending_connects (connects L))) (delete a (attempts (connects L)))
                        (next_attempt (connects L)) in
            (with_connects (with_reg L (udp_session_new (reg L) key (at_ring at0))) cs, Some (at_ring at0))
      | None => (L, None)
      end
  | None => (L, None)
  end.

Definition open_classified_session L (p : UdpSessionProtocol) remote : UdpSessionLayer * option Z :=
  let key := ClassifiedKey p remote in
  match sessions (reg L) !! key with
  | Some _ => (L, None)
  | None =>
      let '(g, r) := create_udp_session_rings (reg L) in
      (with_reg L (udp_session_new (set_sessions g (<[key := r]> (sessions g))) key r), Some r)
  end.

Definition accept L : UdpSessionLayer * option Z :=
  match mux_accepted (accepts L) with
  | [] => (L, None)
  | r :: q => (with_accepts L (mkAccepts (mux_reserved (accepts L)) q (classified_accepted (accepts L)) (accept_enabled (accepts L))), Some r)
  end.

Definition enable_classified_accept L (p : UdpSessionProtocol) : UdpSessionLayer :=
  let ac := accepts L in
  with_accepts L (mkAccepts (mux_reserved ac) (mux_accepted ac) (classified_accepted ac) ({[p]} ∪ accept_enabled ac)).

Definition accept_classified_session L (p : UdpSessionProtocol) : UdpSessionLayer * option Z :=
  let L := enable_classified_accept L p in
  match classified_queue (accepts L) p with
  | [] => (L, None)
  | r :: q =>
      let ac := accepts L in
      (with_accepts L (mkAccepts (mux_reserved ac) (mux_accepted ac) (<[p := q]> (classified_accepted ac)) (accept_enabled ac)), Some r)
  end.

(** The task that sends the SACK of a new session: the session is accepted, or closed and dropped. *)
Definition sack_sent L r (ok : bool) : UdpSessionLayer :=
  if negb (bool_decide (r ∈ mux_reserved (accepts L))) then L
  else
    let ac := accepts L in
    let left := mux_reserved ac ∖ {[r]} in
    if ok then with_accepts L (mkAccepts left (mux_accepted ac ++ [r]) (classified_accepted ac) (accept_enabled ac))
    else
      let g := match handles (reg L) !! r with Some k => close_udp_session (reg L) k | None => reg L end in
      with_accepts (with_reg L (drop_session g r)) (mkAccepts left (mux_accepted ac) (classified_accepted ac) (accept_enabled ac)).

Definition sack_resend_failed L k : UdpSessionLayer := with_reg L (close_udp_session (reg L) k).

(** [UdpSession::recv]. *)
Definition session_recv L r : UdpSessionLayer * option UdpSessionDatagram :=
  match rings (reg L) !! r with
  | Some ring =>
      if r_closed ring then (L, None)
      else match r_items ring with
           | [] => (L, None)
           | d :: ds => (with_reg L (set_rings (reg L) (<[r := mkRing ds (r_open ring) (r_closed ring)]> (rings (reg L)))), Some d)
           end
  | None => (L, None)
  end.

Inductive UdpSessionOutbound : Type := OutDatagram (payload : list Z) | OutTunnel (uninit : list Z) (packet : ZCPacket.t).

(** The task that sends for a session: an error of the codec or the socket closes it. *)
Definition forward_udp_session L r (out : UdpSessionOutbound) (send_ok : bool) : option (UdpSessionLayer * list Action) :=
  match handles (reg L) !! r with
  | None => Some (L, [])
  | Some k =>
      encoded ← match out with
                | OutDatagram payload => encode (key_codec k) payload
                | OutTunnel uninit packet => encode_tunnel_packet (key_codec k) uninit packet
                end;
      Some match encoded with
           | Err _ => (with_reg L (udp_session_close (reg L) k r), [])
           | Ok datagram =>
               (if send_ok then L else with_reg L (udp_session_close (reg L) k r), [ASend datagram (key_peer k)])
           end
  end.

(** The task that closes a session after the shutdown. *)
Definition close_udp_session_on_shutdown L r : UdpSessionLayer :=
  match handles (reg L) !! r, rings (reg L) !! r with
  | Some k, Some ring => if negb (r_closed ring) && session_shutdown (reg L) then with_reg L (udp_session_close (reg L) k r) else L
  | _, _ => L
  end.

(** ** Runs *)

Inductive UdpEvent : Type :=
| UReceive env remote dst_ip (payload : list Z)
| UShutdown
| UConnect remote (magic : Z) (drawn : list Z)
| UResend (a : Z) (to : SocketAddr)
| UConnectFinish (a : Z)
| UConnectEnd (a : Z)
| UOpenClassified (p : UdpSessionProtocol) remote
| UAccept
| UEnable (p : UdpSessionProtocol)
| UAcceptClassified (p : UdpSessionProtocol)
| USackSent r (ok : bool)
| USackResendFailed k
| URecv r
| UForward r (out : UdpSessionOutbound) (send_ok : bool)
| UCloseOnShutdown r
| UDrop r
| UPrepare (tid now timeout : Z)
| UExpire (now : Z)
| UObserve (tid now : Z)
| UObserverDrop (tid o : Z).

Definition udp_step L (ev : UdpEvent) : option (UdpSessionLayer * list Action) :=
  match ev with
  | UReceive env remote dst_ip payload => udp_receive L env remote dst_ip payload
  | UShutdown => Some (udp_shutdown L, [])
  | UConnect remote magic drawn =>
      if bool_decide (free_conn_id L remote drawn = None) then Some (L, [])
      else '(L, acts, _) ← connect_begin L remote magic drawn; Some (L, acts)
  | UResend a to => acts ← connect_resend L a to; Some (L, acts)
  | UConnectFinish a => Some ((connect_finish L a).1, [])
  | UConnectEnd a => Some (connect_end L a, [])
  | UOpenClassified p remote => Some ((open_classified_session L p remote).1, [])
  | UAccept => Some ((accept L).1, [])
  | UEnable p => Some (enable_classified_accept L p, [])
  | UAcceptClassified p => Some ((accept_classified_session L p).1, [])
  | USackSent r ok => Some (sack_sent L r ok, [])
  | USackResendFailed k => Some (sack_resend_failed L k, [])
  | URecv r => Some ((session_recv L r).1, [])
  | UForward r out send_ok => forward_udp_session L r out send_ok
  | UCloseOnShutdown r => Some (close_udp_session_on_shutdown L r, [])
  | UDrop r => Some (with_reg L (drop_session (reg L) r), [])
  | UPrepare tid now timeout => Some (with_observers L (observer_prepare (observers L) (session_shutdown (reg L)) tid now timeout).1, [])
  | UExpire now => Some (with_observers L (expire_prepared (observers L) now), [])
  | UObserve tid now => Some (with_observers L (observer_observe (observers L) (session_shutdown (reg L)) tid now).1, [])
  | UObserverDrop tid o => Some (with_observers L (observer_drop (observers L) tid o), [])
  end.

Fixpoint udp_run L (evs : list UdpEvent) : option UdpSessionLayer :=
  match evs with
  | [] => Some L
  | ev :: evs => '(L, _) ← udp_step L ev; udp_run L evs
  end.

(** * Properties *)

(** ** The invariant *)

Section Invariant.

(** Which datagrams are for which session, and which address has answered a connect with its magic number. *)
Context (R : SessionKey → UdpSessionDatagram → Prop) (S : SocketAddr → Z → Z → Prop).


(** The keys of a ring: registered, held by a handle, or by a connect. *)
Definition belongs g cs r k : Prop :=
  sessions g !! k = Some r ∨ handles g !! r = Some k ∨
  ∃ a at0, attempts cs !! a = Some at0 ∧ at_ring at0 = r ∧ at_key at0 = Some k.

Record attempt_ok g cs (a : Z) (at0 : Attempt) : Prop := {
  ao_ids : a < next_attempt cs ∧ at_ring at0 < next_ring g;
  ao_handle : handles g !! at_ring at0 = None;
  ao_fresh : at_key at0 = None → (∀ k, ¬ belongs g cs (at_ring at0) k) ∧
    ∃ ring, rings g !! at_ring at0 = Some ring ∧ r_items ring = [] ∧ r_closed ring = false;
  ao_key k : at_key at0 = Some k → ∃ addr, k = EasyTierKey addr (at_conn_id at0) ∧ S addr (at_conn_id at0) (at_magic at0);
  ao_sack addr : at_sack at0 = Some addr → at_key at0 = Some (EasyTierKey addr (at_conn_id at0))
}.

Record layer_ok g cs : Prop := {
  lo_ids r k : belongs g cs r k → r < next_ring g;
  lo_uniq r k k' : belongs g cs r k → belongs g cs r k' → k = k';
  lo_rings a b at1 at2 : attempts cs !! a = Some at1 → attempts cs !! b = Some at2 → at_ring at1 = at_ring at2 → a = b;
  lo_attempt a at0 : attempts cs !! a = Some at0 → attempt_ok g cs a at0;
  lo_pending c a : pending_connects cs !! c = Some a → ∃ at0, attempts cs !! a = Some at0 ∧ at_conn_id at0 = c ∧ at_key at0 = None;
  lo_items r k ring d : rings g !! r = Some ring → d ∈ r_items ring → belongs g cs r k → R k d;
  lo_live k r : sessions g !! k = Some r → ∃ ring, rings g !! r = Some ring ∧ (r_closed ring = true → session_shutdown g = true)
}.

(** A state with less in it: sessions, handles, connects and datagrams only go, and what is
    closed is no longer registered. *)
Record calmer g cs g' cs' : Prop := {
  cm_sessions : sessions g' ⊆ sessions g;
  cm_handles : handles g' ⊆ handles g;
  cm_attempts : attempts cs' ⊆ attempts cs;
  cm_pending c a : pending_connects cs' !! c = Some a → pending_connects cs !! c = Some a ∧ is_Some (attempts cs' !! a);
  cm_next : next_ring g' = next_ring g ∧ next_attempt cs' = next_attempt cs;
  cm_shutdown : session_shutdown g = true → session_shutdown g' = true;
  cm_rings r ring' : rings g' !! r = Some ring' → ∃ ring, rings g !! r = Some ring ∧ (∀ d, d ∈ r_items ring' → d ∈ r_items ring);
  cm_fresh a at0 ring : attempts cs' !! a = Some at0 → at_key at0 = None → rings g !! at_ring at0 = Some ring →
    ∃ ring', rings g' !! at_ring at0 = Some ring' ∧ (r_closed ring = false → r_closed ring' = false);
  cm_live k r ring : sessions g' !! k = Some r → rings g !! r = Some ring →
    ∃ ring', rings g' !! r = Some ring' ∧ (r_closed ring' = true → r_closed ring = true ∨ session_shutdown g' = true)
}.

Lemma calmer_belongs g cs g' cs' r k : calmer g cs g' cs' → belongs g' cs' r k → belongs g cs r k.
Proof.
  intros H [Hs|[Hh|(a & at0 & Ha & Hr)]].
  - left. by eapply lookup_weaken, cm_sessions.
  - right; left. by eapply lookup_weaken, cm_handles.
  - right; right. exists a, at0. split; [|done]. by eapply lookup_weaken, cm_attempts.
Qed.

Lemma calmer_ok g cs g' cs' : layer_ok g cs → calmer g cs g' cs' → layer_ok g' cs'.
Proof.
  intros Hok H. pose proof (fun r k => calmer_belongs g cs g' cs' r k H) as Hb. destruct (cm_next _ _ _ _ H) as [Hn Hna].
  assert (Hat : ∀ a at0, attempts cs' !! a = Some at0 → attempts cs !! a = Some at0)
    by (intros a at0 Ha; by eapply lookup_weaken, cm_attempts).
  constructor.
  - intros r k Hk%Hb. rewrite Hn. by eapply lo_ids.
  - intros r k k' Hk%Hb Hk'%Hb. by eapply lo_uniq.
  - intros a b at1 at2 Ha%Hat Hb'%Hat. by eapply lo_rings.
  - intros a at0 Ha'. pose proof (Hat _ _ Ha') as Ha. destruct (lo_attempt _ _ Hok a at0 Ha) as [Hi Hh Hf Hk Hs].
    constructor; [by rewrite Hn, Hna| | |done..].
    + destruct (handles g' !! at_ring at0) eqn:E; [|done]. eapply lookup_weaken in E; [|exact (cm_handles _ _ _ _ H)]. congruence.
    + intros Hnone. destruct (Hf Hnone) as [Hf1 (ring & Hr & Hi0 & Hc)]. split; [by intros k Hbk%Hb; apply (Hf1 k)|].
      destruct (cm_fresh _ _ _ _ H a at0 ring Ha' Hnone Hr) as (ring' & Hr' & Hc').
      exists ring'. split; [done|]. split; [|by apply Hc'].
      destruct (cm_rings _ _ _ _ H _ _ Hr') as (x & Hx & Hsub). assert (x = ring) as -> by congruence.
      destruct (r_items ring') as [|d ds]; [done|]. specialize (Hsub d (list_elem_of_here _ _)). rewrite Hi0 in Hsub. by apply not_elem_of_nil in Hsub.
  - intros c a Hp. destruct (cm_pending _ _ _ _ H c a Hp) as [Hp' [at0 Ha]].
    destruct (lo_pending _ _ Hok c a Hp') as (at2 & Ha2 & Hrest). exists at0. split; [done|]. apply Hat in Ha. congruence.
  - intros r k ring' d Hr Hd Hk%Hb. destruct (cm_rings _ _ _ _ H _ _ Hr) as (ring & Hring & Hsub). eapply lo_items; eauto.
  - intros k r Hk. assert (Hk0 : sessions g !! k = Some r) by (by eapply lookup_weaken, cm_sessions).
    destruct (lo_live _ _ Hok k r Hk0) as (ring & Hring & Hc). destruct (cm_live _ _ _ _ H k r ring Hk Hring) as (ring' & Hr' & Hc').
    exists ring'. split; [done|]. intros Hcl. destruct (Hc' Hcl) as [Hcl'|]; [|done]. apply (cm_shutdown _ _ _ _ H). by apply Hc.
Qed.

Lemma calmer_refl g cs : layer_ok g cs → calmer g cs g cs.
Proof.
  intros Hok. constructor; try done.
  - intros c a Hp. destruct (lo_pending _ _ Hok c a Hp) as (at0 & Ha & _). by split.
  - intros r ring Hr. by exists ring.
  - intros a at0 ring _ _ Hr. by exists ring.
  - intros k r ring _ Hr. exists ring. split; [done|]. by left.
Qed.

(** ** Steps that only take away *)

Lemma close_ring_ok g cs r :
  layer_ok g cs → (∀ k, sessions g !! k ≠ Some r) →
  (∀ a at0, attempts cs !! a = Some at0 → at_ring at0 = r → at_key at0 ≠ None) → layer_ok (close_ring g r) cs.
Proof.
  intros Hok Hno Hat. apply (calmer_ok g cs); [done|]. destruct (calmer_refl g cs Hok) as [? ? ? ? ? ? ? ? ?]. constructor; try done.
  - intros r' ring' Hr. cbn in Hr. apply lookup_alter_Some in Hr as [(-> & ring & Hr & ->)|[_ Hr]]; eauto.
  - intros a at0 ring Ha Hk Hr. exists ring. cbn. rewrite lookup_alter_ne; [done|]. intros E. by apply (Hat a at0 Ha (eq_sym E)).
  - intros k r' ring Hk Hr. cbn in Hk |- *. exists ring. rewrite lookup_alter_ne; [split; [done|by left]|].
    intros <-. by apply (Hno k).
Qed.

Ltac keep_rings := try (intros ? ring ?; by exists ring); try (intros ? ? ring ? ? ?; by exists ring); try (intros ? ? ring ? ?; exists ring; split; [done|by left]).

Lemma forget_session_ok g cs k : layer_ok g cs → layer_ok (set_sessions g (delete k (sessions g))) cs.
Proof.
  intros Hok. apply (calmer_ok g cs); [done|]. destruct (calmer_refl g cs Hok) as [? ? ? ? ? ? ? ? ?]. constructor; try done; keep_rings.
  cbn. apply delete_subseteq.
Qed.

Lemma owned_not_fresh g cs r k a at0 :
  layer_ok g cs → belongs g cs r k → attempts cs !! a = Some at0 → at_ring at0 = r → at_key at0 ≠ None.
Proof. intros Hok Hk Ha <- Hn. destruct (ao_fresh _ _ _ _ (lo_attempt _ _ Hok a at0 Ha) Hn) as [Hf _]. by apply (Hf k). Qed.

Lemma close_session_ok g cs k : layer_ok g cs → layer_ok (close_udp_session g k) cs.
Proof.
  intros Hok. unfold close_udp_session. destruct (sessions g !! k) as [r|] eqn:E; [|done].
  apply close_ring_ok; [by apply forget_session_ok| |].
  - intros k' Hk'. cbn in Hk'. apply lookup_delete_Some in Hk' as [Hne Hk'].
    apply Hne. eapply (lo_uniq _ _ Hok r); by left.
  - intros a at0. apply (owned_not_fresh g cs r k); [done|by left].
Qed.

Lemma close_session_handles g k : handles (close_udp_session g k) = handles g.
Proof. unfold close_udp_session. by destruct (sessions g !! k). Qed.

Lemma close_session_gone g k k' r :
  sessions (close_udp_session g k) !! k' = Some r → sessions g !! k' = Some r ∧ k' ≠ k.
Proof.
  unfold close_udp_session. destruct (sessions g !! k) as [r'|] eqn:E; cbn.
  - intros [Hne Hk']%lookup_delete_Some. done.
  - intros Hk'. split; [done|]. intros ->. congruence.
Qed.

(** Closing a session under the key of its ring. *)
Lemma close_handle_ok g cs k r :
  layer_ok g cs → (∀ k', sessions g !! k' = Some r → k' = k) →
  (∀ a at0, attempts cs !! a = Some at0 → at_ring at0 ≠ r) → layer_ok (udp_session_close g k r) cs.
Proof.
  intros Hok Hk Hat. apply close_ring_ok; [by apply close_session_ok| |].
  - intros k' [Hk' Hne]%close_session_gone. by apply Hne, Hk.
  - intros a at0 Ha E. by destruct (Hat a at0 Ha).
Qed.

Lemma handle_not_connecting g cs r k a at0 :
  layer_ok g cs → handles g !! r = Some k → attempts cs !! a = Some at0 → at_ring at0 ≠ r.
Proof. intros Hok Hh Ha <-. pose proof (ao_handle _ _ _ _ (lo_attempt _ _ Hok a at0 Ha)). congruence. Qed.

Lemma alter_receiver_ok g cs r : layer_ok g cs → layer_ok (set_rings g (alter drop_receiver r (rings g))) cs.
Proof.
  intros Hok. apply (calmer_ok g cs); [done|]. destruct (calmer_refl g cs Hok) as [? ? ? ? ? ? ? ? ?]. constructor; try done.
  - intros r' ring' Hr. cbn in Hr. apply lookup_alter_Some in Hr as [(-> & ring & Hr & ->)|[_ Hr]]; eauto.
  - intros a at0 ring _ _ Hr. cbn. destruct (decide (r = at_ring at0)) as [E|Hne].
    + rewrite <- E in *. rewrite lookup_alter, decide_True, Hr by done. by eexists.
    + rewrite lookup_alter_ne by done. by exists ring.
  - intros k r' ring Hk Hr. cbn. destruct (decide (r = r')) as [<-|Hne].
    + rewrite lookup_alter, decide_True, Hr by done. eexists. split; [done|by left].
    + rewrite lookup_alter_ne by done. exists ring. split; [done|by left].
Qed.

Lemma forget_handle_ok g cs r : layer_ok g cs → layer_ok (set_handles g (delete r (handles g))) cs.
Proof.
  intros Hok. apply (calmer_ok g cs); [done|]. destruct (calmer_refl g cs Hok) as [? ? ? ? ? ? ? ? ?]. constructor; try done; keep_rings.
  cbn. apply delete_subseteq.
Qed.

Lemma drop_session_ok g cs r : layer_ok g cs → layer_ok (drop_session g r) cs.
Proof.
  intros Hok. unfold drop_session. destruct (handles g !! r) as [k|] eqn:E; [|done].
  apply close_handle_ok.
  - by apply (alter_receiver_ok (set_handles g (delete r (handles g)))), forget_handle_ok.
  - intros k' Hk'. cbn in Hk'. eapply (lo_uniq _ _ Hok r); [by left|by right; left].
  - intros a at0. by apply (handle_not_connecting g cs r k).
Qed.

Definition without_attempt cs (c a : Z) : Connects :=
  mkConnects (delete c (pending_connects cs)) (delete a (attempts cs)) (next_attempt cs).

Lemma forget_attempt_ok g cs a at0 :
  layer_ok g cs → attempts cs !! a = Some at0 → layer_ok g (without_attempt cs (at_conn_id at0) a).
Proof.
  intros Hok Ha. apply (calmer_ok g cs); [done|]. destruct (calmer_refl g cs Hok) as [? ? ? ? ? ? ? ? ?]. constructor; try done; keep_rings.
  - cbn. apply delete_subseteq.
  - cbn. intros c b [Hne Hp]%lookup_delete_Some. split; [done|]. destruct (lo_pending _ _ Hok c b Hp) as (bt & Hb & Hc & _).
    rewrite lookup_delete_ne; [by exists bt|]. intros <-. apply Hne. congruence.
Qed.

Lemma forget_pending_ok g cs c : layer_ok g cs → layer_ok g (set_pending cs (delete c (pending_connects cs))).
Proof.
  intros Hok. apply (calmer_ok g cs); [done|]. destruct (calmer_refl g cs Hok) as [? ? ? Hp ? ? ? ? ?]. constructor; try done; keep_rings.
  cbn. intros c' b [_ Hb]%lookup_delete_Some. by apply Hp.
Qed.

Lemma foldr_close_spec (l : list (SessionKey * Z)) g :
  let g' := foldr (λ kr g, close_ring g kr.2) g l in
  sessions g' = sessions g ∧ handles g' = handles g ∧ next_ring g' = next_ring g ∧ session_shutdown g' = session_shutdown g ∧
  (∀ r ring', rings g' !! r = Some ring' → ∃ ring, rings g !! r = Some ring ∧ r_items ring' = r_items ring) ∧
  ∀ r, r ∉ map snd l → rings g' !! r = rings g !! r.
Proof.
  induction l as [|[k r0] l IH]; cbn [foldr map]; [split_and!; try done; intros r ring ?; by exists ring|].
  cbn zeta in *. destruct IH as (H1 & H2 & H3 & H4 & IH & IHr). split_and!; try done.
  2: { intros r [Hr Hn]%not_elem_of_cons. cbn. rewrite lookup_alter_ne by done. by apply IHr. }
  intros r ring' Hr. cbn in Hr.
  apply lookup_alter_Some in Hr as [(_ & ring & Hr & ->)|[_ Hr]]; exact (IH _ _ Hr).
Qed.

Lemma shutdown_ok L : layer_ok (reg L) (connects L) → layer_ok (reg (udp_shutdown L)) (connects (udp_shutdown L)).
Proof.
  intros Hok. apply (calmer_ok (reg L) (connects L)); [done|]. cbn.
  destruct (foldr_close_spec (map_to_list (sessions (reg L))) (reg L)) as (H1 & H2 & H3 & H4 & H5 & H6).
  constructor; cbn; try done.
  - apply map_empty_subseteq.
  - by rewrite H2.
  - intros r ring' Hr. destruct (H5 r ring' Hr) as (ring & Hring & E). exists ring. split; [done|]. by rewrite E.
  - intros a at0 ring Ha Hk Hr. exists ring. rewrite H6; [done|]. intros ([k r] & E & Hin%elem_of_map_to_list)%list_elem_of_fmap.
    cbn in E. subst r. by apply (owned_not_fresh _ _ _ k a at0 Hok (or_introl Hin) Ha).
Qed.

(** ** Steps that add *)

Lemma set_ring_ok g cs r ring ring' :
  layer_ok g cs → rings g !! r = Some ring → r_closed ring' = r_closed ring →
  (∀ d, d ∈ r_items ring' → d ∈ r_items ring ∨ ∃ k, belongs g cs r k ∧ R k d) →
  layer_ok (set_rings g (<[r := ring']> (rings g))) cs.
Proof.
  intros Hok Hr Hc Hd. destruct Hok as [Hids Huniq Hrings Hat Hpend Hitems Hlive]. constructor; try done.
  - intros a at0 Ha. destruct (Hat a at0 Ha) as [? ? Hf ? ?]. constructor; try done. intros Hnone.
    destruct (Hf Hnone) as [Hf1 (x & Hx & Hi & Hxc)]. split; [done|]. cbn. destruct (decide (r = at_ring at0)) as [E|Hne].
    + rewrite <- E in *. exists ring'. rewrite lookup_insert, decide_True by done. assert (x = ring) as -> by congruence.
      split; [done|]. split; [|by rewrite Hc]. destruct (r_items ring') as [|d ds]; [done|].
      destruct (Hd d (list_elem_of_here _ _)) as [Hin|(k & Hk & _)]; [rewrite Hi in Hin; by apply not_elem_of_nil in Hin|by destruct (Hf1 k)].
    + exists x. by rewrite lookup_insert_ne.
  - cbn. intros r' k x d [[<- <-]|[_ Hx]]%lookup_insert_Some Hin Hk; [|by apply (Hitems r' k x)].
    destruct (Hd d Hin) as [Hin'|(k' & Hk' & HR)]; [by apply (Hitems r k ring)|]. by rewrite (Huniq r k k').
  - intros k r' Hk. destruct (Hlive k r' Hk) as (x & Hx & Hcl). cbn. destruct (decide (r = r')) as [<-|Hne].
    + exists ring'. rewrite lookup_insert, decide_True by done. split; [done|]. rewrite Hc. assert (x = ring) as -> by congruence. done.
    + exists x. by rewrite lookup_insert_ne.
Qed.

Lemma send_to_ring_ok g cs r k d policy :
  layer_ok g cs → belongs g cs r k → R k d → layer_ok (send_to_ring g r d policy).1 cs.
Proof.
  intros Hok Hk HR. unfold send_to_ring. destruct (rings g !! r) as [ring|] eqn:E; [|done].
  unfold dispatch_payload_to_session.
  assert (Hpush : ∀ cap, layer_ok (let '(x, sent) := match ring_push cap ring d with
      | RingSent x => (x, true) | RingFull => (ring, true) | RingClosed => (ring, false) end in
    (set_rings g (<[r := x]> (rings g)), sent)).1 cs).
  { intros cap. unfold ring_push. destruct (negb _); [by apply (set_ring_ok g cs r ring); auto|].
    destruct (_ <=? _); [by apply (set_ring_ok g cs r ring); auto|]. apply (set_ring_ok g cs r ring); [done..|]. cbn.
    intros d' [Hin|E'%list_elem_of_singleton]%elem_of_app; [by left|right]. exists k. by rewrite E'. }
  destruct policy; apply Hpush.
Qed.

Lemma dispatch_to_session_ok g cs k r d policy :
  layer_ok g cs → sessions g !! k = Some r → R k d → layer_ok (dispatch_to_session g k r d policy) cs.
Proof.
  intros Hok Hk HR. unfold dispatch_to_session.
  pose proof (send_to_ring_ok g cs r k d policy Hok (or_introl Hk) HR) as Hok'. destruct (send_to_ring g r d policy) as [g' [|]]; [done|].
  by apply close_session_ok.
Qed.

Lemma create_ring_ok g cs : layer_ok g cs → layer_ok (create_udp_session_rings g).1 cs.
Proof.
  intros [Hids Huniq Hrings Hat Hpend Hitems Hlive].
  assert (Hfresh : ∀ r k, belongs g cs r k → r ≠ next_ring g) by (intros r k Hk ->; specialize (Hids _ _ Hk); lia).
  constructor; try done.
  - intros r k Hk. specialize (Hids r k Hk). cbn. lia.
  - intros a at0 Ha. destruct (Hat a at0 Ha) as [Hi ? Hf ? ?]. constructor; try done; [cbn; lia|].
    intros Hnone. destruct (Hf Hnone) as [Hf1 (x & Hx & Hrest)]. split; [done|]. exists x. cbn. rewrite lookup_insert_ne; [done|]. lia.
  - cbn. intros r k x d [[<- <-]|[_ Hx]]%lookup_insert_Some Hin Hk; [by apply not_elem_of_nil in Hin|by apply (Hitems r k x)].
  - cbn. intros k r Hk. destruct (Hlive k r Hk) as (x & Hx & Hc). exists x. rewrite lookup_insert_ne; [done|].
    intros <-. by destruct (Hfresh _ k (or_introl Hk)).
Qed.

Lemma create_fresh g cs k : layer_ok g cs → ¬ belongs (create_udp_session_rings g).1 cs (next_ring g) k.
Proof. intros Hok Hk. assert (belongs g cs (next_ring g) k) as Hb by done. apply (lo_ids _ _ Hok) in Hb. lia. Qed.

(** Registering a ring: no other key has it, and no connect still waits to register it. *)
Lemma register_ring_ok g cs k r ring :
  layer_ok g cs → sessions g !! k = None → rings g !! r = Some ring → r_closed ring = false → r < next_ring g →
  (∀ k', belongs g cs r k' → k' = k) → (∀ a at0, attempts cs !! a = Some at0 → at_ring at0 = r → at_key at0 ≠ None) →
  (∀ d, d ∈ r_items ring → R k d) → layer_ok (set_sessions g (<[k := r]> (sessions g))) cs.
Proof.
  intros [Hids Huniq Hrings Hat Hpend Hitems Hlive] Hnone Hr Hc Hlt Hown Hatt HR.
  assert (Hb : ∀ r' k', belongs (set_sessions g (<[k := r]> (sessions g))) cs r' k' → belongs g cs r' k' ∨ r' = r ∧ k' = k).
  { intros r' k' [Hs|Hrest]; [|left; by right]. cbn in Hs. apply lookup_insert_Some in Hs as [[<- <-]|[_ Hs]]; [by right|left; by left]. }
  constructor; try done.
  - intros r' k' [Hk|[-> _]]%Hb; [by eapply Hids|done].
  - intros r' k1 k2 [H1|[E1 ->]]%Hb [H2|[E2 ->]]%Hb; [by eapply Huniq| | |done].
    + subst. by apply Hown.
    + subst. symmetry. by apply Hown.
  - intros a at0 Ha. destruct (Hat a at0 Ha) as [? ? Hf ? ?]. constructor; try done. intros Hkn. destruct (Hf Hkn) as [Hf1 Hf2].
    split; [|done]. intros k' [Hk'|[E _]]%Hb; [by destruct (Hf1 k')|by destruct (Hatt a at0 Ha E)].
  - intros r' k' x d Hx Hin [Hk'|[-> ->]]%Hb; [by apply (Hitems r' k' x)|]. apply HR. assert (x = ring) as -> by (cbn in Hx; congruence). done.
  - cbn. intros k' r' [[<- <-]|[_ Hk']]%lookup_insert_Some; [|by apply (Hlive k')]. exists ring. split; [done|]. by rewrite Hc.
Qed.

(** A handle for a ring of the session. *)
Lemma handle_ok g cs k r :
  layer_ok g cs → r < next_ring g → (∀ k', belongs g cs r k' → k' = k) → (∀ a at0, attempts cs !! a = Some at0 → at_ring at0 ≠ r) →
  (∀ ring d, rings g !! r = Some ring → d ∈ r_items ring → R k d) → layer_ok (udp_session_new g k r) cs.
Proof.
  intros Hok Hlt Hown Hatt HR. assert (Hok1 : layer_ok (set_handles g (<[r := k]> (handles g))) cs).
  { destruct Hok as [Hids Huniq Hrings Hat Hpend Hitems Hlive].
    assert (Hb : ∀ r' k', belongs (set_handles g (<[r := k]> (handles g))) cs r' k' → belongs g cs r' k' ∨ r' = r ∧ k' = k).
    { intros r' k' [Hs|[Hs|Hrest]]; [left; by left| |left; by right; right]. cbn in Hs.
      apply lookup_insert_Some in Hs as [[<- <-]|[_ Hs]]; [by right|left; by right; left]. }
    constructor; try done.
    - intros r' k' [Hk|[-> _]]%Hb; [by eapply Hids|done].
    - intros r' k1 k2 [H1|[E1 ->]]%Hb [H2|[E2 ->]]%Hb; [by eapply Huniq| | |done].
      + subst. by apply Hown.
      + subst. symmetry. by apply Hown.
    - intros a at0 Ha. specialize (Hatt a at0 Ha). destruct (Hat a at0 Ha) as [? Hh Hf ? ?]. constructor; try done.
      + cbn. by rewrite lookup_insert_ne.
      + intros Hkn. destruct (Hf Hkn) as [Hf1 Hf2]. split; [|done]. intros k' [Hk'|[E _]]%Hb; [by destruct (Hf1 k')|done].
    - intros r' k' x d Hx Hin [Hk'|[-> ->]]%Hb; [by apply (Hitems r' k' x)|by apply (HR x)]. }
  unfold udp_session_new. destruct (session_shutdown _) eqn:Es; [|done].
  set (g1 := set_handles g _) in *. apply (calmer_ok g1 cs); [done|]. destruct (calmer_refl g1 cs Hok1) as [? ? ? ? ? ? ? ? ?]. constructor; try done.
  - intros r' ring' Hr. cbn in Hr. apply lookup_alter_Some in Hr as [(-> & x & Hr & ->)|[_ Hr]]; eauto.
  - intros a at0 x Ha _ Hr. exists x. cbn. rewrite lookup_alter_ne; [done|]. intros E. by apply (Hatt a at0 Ha).
  - intros k' r' x Hk Hr. cbn. destruct (decide (r = r')) as [<-|Hne].
    + rewrite lookup_alter, decide_True by done. cbn in Hr. rewrite Hr. eexists. split; [done|]. intros _. right. exact Es.
    + rewrite lookup_alter_ne by done. exists x. split; [done|by left].
Qed.

Lemma handle_registered_ok g cs k r :
  layer_ok g cs → sessions g !! k = Some r → (∀ a at0, attempts cs !! a = Some at0 → at_ring at0 ≠ r) →
  layer_ok (udp_session_new g k r) cs.
Proof.
  intros Hok Hk Hat. apply handle_ok; try done.
  - apply (lo_ids _ _ Hok r k). by left.
  - intros k' Hk'. apply (lo_uniq _ _ Hok r k' k Hk'). by left.
  - intros ring d Hr Hd. apply (lo_items _ _ Hok r k ring d Hr Hd). by left.
Qed.

(** A new ring under a vacant key. *)
Lemma register_new_ok g cs k :
  layer_ok g cs → sessions g !! k = None →
  let g1 := (create_udp_session_rings g).1 in
  layer_ok (set_sessions g1 (<[k := next_ring g]> (sessions g1))) cs ∧
  ∀ a at0, attempts cs !! a = Some at0 → at_ring at0 ≠ next_ring g.
Proof.
  intros Hok Hk. cbn zeta.
  assert (Hat : ∀ a at0, attempts cs !! a = Some at0 → at_ring at0 ≠ next_ring g).
  { intros a at0 Ha E. pose proof (ao_ids _ _ _ _ (lo_attempt _ _ Hok a at0 Ha)). lia. }
  split; [|done]. apply (register_ring_ok _ _ k _ (mkRing [] true false)); try done; try (by apply create_ring_ok).
  - cbn. by rewrite lookup_insert, decide_True.
  - cbn. lia.
  - intros k' Hk'. by destruct (create_fresh g cs k' Hok).
  - intros a at0 Ha E. by destruct (Hat a at0 Ha).
  - intros d Hd. by apply not_elem_of_nil in Hd.
Qed.

Lemma send_to_ring_sessions g r d policy : sessions (send_to_ring g r d policy).1 = sessions g.
Proof. unfold send_to_ring. destruct (rings g !! r) as [ring|]; [|done]. by destruct (dispatch_payload_to_session ring d policy). Qed.

Definition ok L : Prop := layer_ok (reg L) (connects L).

Lemma dispatch_classified_ok L env p remote d : ok L → R (ClassifiedKey p remote) d → ok (dispatch_classified_udp_datagram L env p remote d).
Proof.
  unfold ok. intros Hok HR. unfold dispatch_classified_udp_datagram. destruct (sessions (reg L) !! _) as [r|] eqn:E;
    [by apply dispatch_to_session_ok|]. destruct (negb _); [done|]. destruct (negb _ || _); [done|].
  destruct (register_new_ok _ _ _ Hok E) as [Hok1 Hat]. cbn zeta in Hok1.
  destruct (create_udp_session_rings (reg L)) as [g1 r] eqn:Ec. injection Ec as Eg Er. cbn [fst] in Hok1. rewrite Er in *. clear Eg Er.
  set (g2 := set_sessions g1 _) in *.
  assert (Hk2 : sessions g2 !! ClassifiedKey p remote = Some r) by (cbn; by rewrite lookup_insert, decide_True).
  pose proof (send_to_ring_ok g2 _ r _ d Reliable Hok1 (or_introl Hk2) HR) as Hok2.
  pose proof (send_to_ring_sessions g2 r d Reliable) as Hs. destruct (send_to_ring g2 r d Reliable) as [g3 [|]]; cbn [fst] in *.
  - apply handle_registered_ok; [done| |done]. by rewrite Hs.
  - by apply close_session_ok.
Qed.

Lemma dispatch_session_ok L env remote kind d :
  ok L → (∀ p, R (ClassifiedKey p remote) d) → ok (dispatch_session_udp_datagram L env remote kind d).
Proof. intros Hok HR. destruct kind; [by apply dispatch_classified_ok|done]. Qed.

Lemma dispatch_data_ok L remote c p dst_ip :
  ok L → R (EasyTierKey remote c) (mkDatagram (PEasyTier p) dst_ip) → ok (dispatch_data_packet L remote c p dst_ip).1.
Proof.
  intros Hok HR. unfold dispatch_data_packet. destruct (sessions (reg L) !! _) as [r|] eqn:E; [|done]. by apply dispatch_to_session_ok.
Qed.

Lemma new_mux_ok L env remote c p L' acts b :
  ok L → handle_new_easy_tier_mux_connect L env remote c p = Some (L', acts, b) → ok L'.
Proof.
  intros Hok. unfold handle_new_easy_tier_mux_connect. destruct (ZCPacket.udp_payload p) as [pl|]; [|done]. cbn [mbind option_bind].
  destruct (negb (len pl =? 8)); [by intros [= <- <- <-]|]. destruct (new_sack_packet c (from_le pl)) as [sk|]; [|done]. cbn [mbind option_bind].
  case_bool_decide as E; [by intros [= <- <- <-]|]. destruct (negb _ || _); [by intros [= <- <- <-]|]. intros [= <- _ _].
  assert (E' : sessions (reg L) !! EasyTierKey remote c = None) by (apply eq_None_not_Some; done).
  destruct (register_new_ok _ _ _ Hok E') as [Hok1 Hat]. apply handle_registered_ok; [done| |done]. cbn. by rewrite lookup_insert, decide_True.
Qed.

Definition sacked_attempt (at0 : Attempt) (addr : SocketAddr) : Attempt :=
  mkAttempt (at_conn_id at0) (at_expected at0) (at_magic at0) (at_ring at0) (Some (EasyTierKey addr (at_conn_id at0))) (Some addr).

Lemma sacked_attempt_ok g cs a at0 addr :
  layer_ok g cs → attempts cs !! a = Some at0 → at_key at0 = None → (∀ c, pending_connects cs !! c ≠ Some a) →
  S addr (at_conn_id at0) (at_magic at0) → layer_ok g (set_attempts cs (<[a := sacked_attempt at0 addr]> (attempts cs))).
Proof.
  intros Hok Ha Hnone Hp HS. destruct (lo_attempt _ _ Hok a at0 Ha) as [Hi Hh Hf _ _].
  destruct (Hf Hnone) as [Hf1 (x & Hx & Hx0 & Hxc)]. destruct Hok as [Hids Huniq Hrings Hat Hpend Hitems Hlive].
  set (key := EasyTierKey addr (at_conn_id at0)).
  assert (Hb : ∀ r k, belongs g (set_attempts cs (<[a := sacked_attempt at0 addr]> (attempts cs))) r k →
    belongs g cs r k ∨ r = at_ring at0 ∧ k = key).
  { intros r k [Hs|[Hs|(b & bt & Hb & Hr & Hk)]]; [left; by left|left; by right; left|]. cbn in Hb.
    apply lookup_insert_Some in Hb as [[<- <-]|[_ Hb]]; [right; cbn in Hr, Hk; by injection Hk as <-|].
    left. right. right. by exists b, bt. }
  assert (Hring : ∀ b bt, (<[a := sacked_attempt at0 addr]> (attempts cs)) !! b = Some bt →
    ∃ bt0, attempts cs !! b = Some bt0 ∧ at_ring bt0 = at_ring bt).
  { intros b bt [[<- <-]|[_ Hb']]%lookup_insert_Some; [by exists at0|by exists bt]. }
  constructor; try done.
  - intros r k [Hk|[-> _]]%Hb; [by eapply Hids|apply Hi].
  - intros r k k' [Hk|[E1 ->]]%Hb [Hk'|[E2 ->]]%Hb; [by eapply Huniq| | |done]; subst r; by edestruct Hf1.
  - intros b c bt ct (bt0 & Hb0 & E1)%Hring (ct0 & Hc0 & E2)%Hring E. apply (Hrings b c bt0 ct0); congruence.
  - cbn. intros b bt [[<- <-]|[Hne Hb']]%lookup_insert_Some.
    + constructor; try done. intros k [= <-]. by exists addr. by intros addr' [= <-].
    + destruct (Hat b bt Hb') as [? ? Hfb ? ?]. constructor; try done. intros Hkn. destruct (Hfb Hkn) as [Hfb1 Hfb2].
      split; [|done]. intros k [Hk|[E _]]%Hb; [by apply (Hfb1 k)|]. by apply Hne, (Hrings a b at0 bt).
  - cbn. intros c b Hc. destruct (Hpend c b Hc) as (bt & Hb' & ? & ?). exists bt.
    rewrite lookup_insert_ne; [done|]. intros ->. by apply (Hp c).
  - intros r k ring d Hr Hd [Hk|[-> ->]]%Hb; [by apply (Hitems r k ring)|]. assert (ring = x) as -> by congruence.
    rewrite Hx0 in Hd. by apply not_elem_of_nil in Hd.
Qed.

Lemma pending_attempt_spec L c a at0 :
  ok L → pending_attempt L c = Some (a, at0) →
  pending_connects (connects L) !! c = Some a ∧ attempts (connects L) !! a = Some at0 ∧ at_conn_id at0 = c ∧ at_key at0 = None.
Proof.
  intros Hok. unfold pending_attempt. destruct (_ !! c) as [a'|] eqn:Ep; [|done]. cbn [mbind option_bind].
  destruct (attempts (connects L) !! a') as [at'|] eqn:Ea; [|done]. intros [= <- <-].
  destruct (lo_pending _ _ Hok c a' Ep) as (bt & Hb & Hc & Hk). assert (bt = at') as -> by congruence. done.
Qed.

Lemma dispatch_sack_ok L recv_addr c p L' acts b :
  ok L → (∀ pl, ZCPacket.udp_payload p = Some pl → len pl = 8 → S recv_addr c (from_le pl)) →
  dispatch_sack_packet L recv_addr c p = Some (L', acts, b) → ok L'.
Proof.
  intros Hok HS. unfold dispatch_sack_packet. destruct (ZCPacket.udp_payload p) as [pl|]; [|done]. cbn [mbind option_bind].
  specialize (HS pl eq_refl). destruct (pending_attempt L c) as [[a at0]|] eqn:Ep; [|by intros [= <- _ _]].
  apply pending_attempt_spec in Ep as (Hp & Ha & Hc & Hk); [|done].
  destruct (Z.eqb_spec (len pl) 8) as [Hl|]; cbn [negb]; [|by intros [= <- _ _]].
  destruct (Z.eqb_spec (at_magic at0) (from_le pl)) as [Hm|]; cbn [andb negb]; [|by intros [= <- _ _]].
  rewrite (bool_decide_true (at_key at0 = None)) by done. cbn [negb]. unfold move_pending_udp_session_sender. rewrite Hk.
  set (L1 := with_connects L _). pose proof (forget_pending_ok _ _ c Hok) as Hok1.
  change (sessions (reg L1)) with (sessions (reg L)). destruct (sessions (reg L) !! EasyTierKey recv_addr c) as [r|] eqn:Es;
    [by intros [= <- _ _]|]. intros [= <- _ _].
  assert (Hp1 : ∀ c', delete c (pending_connects (connects L)) !! c' ≠ Some a).
  { intros c' [Hne Hc']%lookup_delete_Some. destruct (lo_pending _ _ Hok c' a Hc') as (bt & Hb & Hbc & _). congruence. }
  pose proof (sacked_attempt_ok _ _ a at0 recv_addr Hok1 Ha Hk Hp1) as Hok2. rewrite Hc, Hm in Hok2. specialize (Hok2 (HS Hl)).
  destruct (lo_attempt _ _ Hok a at0 Ha) as [Hi _ Hf _ _]. destruct (Hf Hk) as [_ (x & Hx & Hx0 & Hxc)].
  unfold ok, set_sack. cbn [reg connects with_connects with_reg set_attempts attempts pending_connects next_attempt].
  set (cs2 := set_attempts _ _) in Hok2.
  match goal with |- layer_ok _ ?cs => replace cs with cs2 end.
  2: { unfold cs2, set_attempts, sacked_attempt. cbn. f_equal. by rewrite Hc, alter_insert_eq. }
  assert (Hb2 : belongs (reg L) cs2 (at_ring at0) (EasyTierKey recv_addr c)).
  { right. right. exists a, (sacked_attempt at0 recv_addr). cbn. rewrite lookup_insert, decide_True by done. by rewrite Hc. }
  apply (register_ring_ok (reg L) cs2 _ _ x); try done.
  - apply Hi.
  - intros k' Hk'. by apply (lo_uniq _ _ Hok2 (at_ring at0)).
  - intros b0 bt Hb0 E. by apply (owned_not_fresh (reg L) cs2 (at_ring at0) _ b0 bt Hok2 Hb2).
  - rewrite Hx0. intros d Hd. by apply not_elem_of_nil in Hd.
Qed.

Lemma classify_packet payload kind c p : classify_udp_datagram payload = CEasyTier kind c p → ZCPacket.inner p = payload.
Proof.
  unfold classify_udp_datagram. destruct (is_stun_packet payload); [done|].
  destruct (inspect_easytier_udp_datagram payload) as [[[k0 c0]|]|]; [by intros [= _ _ <-]|done..].
Qed.

Lemma classify_session_payload payload kind (d : list Z) : classify_udp_datagram payload = CSession kind d → d = payload.
Proof.
  unfold classify_udp_datagram. destruct (is_stun_packet payload); [done|].
  by destruct (inspect_easytier_udp_datagram payload) as [[[k0 c0]|]|]; [|intros [= _ <-]..].
Qed.

Lemma receive_ok L env remote dst_ip payload L' acts :
  ok L → (∀ p, R (ClassifiedKey p remote) (mkDatagram (PBytes payload) dst_ip)) →
  (∀ c p, classify_udp_datagram payload = CEasyTier KData c p → R (EasyTierKey remote c) (mkDatagram (PEasyTier p) dst_ip)) →
  (∀ c p pl, classify_udp_datagram payload = CEasyTier KSack c p → ZCPacket.udp_payload p = Some pl → len pl = 8 →
     S remote c (from_le pl)) →
  udp_receive L env remote dst_ip payload = Some (L', acts) → ok L'.
Proof.
  intros Hok H1 H2 H3. unfold udp_receive. destruct (_ <? _); [by intros [= <- _]|].
  destruct (sessions (reg L) !! ClassifiedKey Quic remote) as [r|] eqn:Eq.
  { intros [= <- _]. by apply dispatch_to_session_ok. }
  destruct (classify_udp_datagram payload) as [dg|kind c p|kind dg] eqn:Ec; [by intros [= <- _]| |].
  2: { intros [= <- _]. rewrite (classify_session_payload _ _ _ Ec). by apply dispatch_session_ok. }
  destruct (dispatch_easy_tier_udp_datagram L env remote kind c p dst_ip) as [[[L1 acts1] consumed]|] eqn:Ed; [|done].
  cbn [mbind option_bind]. rewrite (classify_packet _ _ _ _ Ec).
  assert (Hok1 : ok L1).
  { destruct kind; cbn [dispatch_easy_tier_udp_datagram] in Ed.
    - pose proof (dispatch_data_ok L remote c p dst_ip Hok (H2 c p eq_refl)) as Hd.
      destruct (dispatch_data_packet L remote c p dst_ip) as [L2 b]. by injection Ed as <- _ _.
    - by apply (new_mux_ok _ _ _ _ _ _ _ _ Hok Ed).
    - apply (dispatch_sack_ok _ _ _ _ _ _ _ Hok (λ pl, H3 c p pl eq_refl) Ed).
    - destruct (ZCPacket.udp_payload p) as [pl|]; [|done]. cbn [mbind option_bind] in Ed.
      destruct (if _ =? _ then _ else _) as [ob b]. by injection Ed as <- _ _.
    - destruct (dispatch_v4_hole_punch_control env remote p) as [[a b]|]; [|done]. by injection Ed as <- _ _.
    - destruct (dispatch_v6_hole_punch_control env remote p) as [[a b]|]; [|done]. by injection Ed as <- _ _. }
  destruct consumed; intros [= <- _]; [done|]. by apply dispatch_session_ok.
Qed.

Lemma free_conn_id_spec L remote drawn c :
  free_conn_id L remote drawn = Some c →
  sessions (reg L) !! EasyTierKey remote c = None ∧ pending_connects (connects L) !! c = None ∧ c ∈ drawn.
Proof.
  unfold free_conn_id. intros Hc%head_Some_elem_of. apply list_elem_of_filter in Hc as [[? ?] ?]. done.
Qed.

Lemma connect_begin_ok L remote magic drawn L' acts a : ok L → connect_begin L remote magic drawn = Some (L', acts, a) → ok L'.
Proof.
  intros Hok. unfold connect_begin. destruct (free_conn_id L remote drawn) as [c|] eqn:Ec; [|done]. cbn [mbind option_bind].
  apply free_conn_id_spec in Ec as (Hs & Hp & _). destruct (new_syn_packet c magic) as [syn|]; [|done].
  cbn [mbind option_bind create_udp_session_rings]. intros [= <- _ _]. pose proof (create_ring_ok _ _ Hok) as Hok1.
  pose proof (fun k => create_fresh _ _ k Hok) as Hfresh. unfold ok. cbn [reg connects with_connects with_reg].
  change (mkRegistry _ _ _ _ _) with (create_udp_session_rings (reg L)).1. set (g := (create_udp_session_rings (reg L)).1) in *.
  set (cs := connects L) in *. set (at0 := mkAttempt c remote magic (next_ring (reg L)) None None).
  assert (Hat0 : ∀ b bt, attempts cs !! b = Some bt → b < next_attempt cs ∧ at_ring bt < next_ring (reg L)).
  { intros b bt Hb. apply (ao_ids _ _ _ _ (lo_attempt _ _ Hok b bt Hb)). }
  assert (Ha : attempts cs !! next_attempt cs = None).
  { destruct (attempts cs !! next_attempt cs) as [bt|] eqn:E; [|done]. apply Hat0 in E. lia. }
  assert (Hb : ∀ r k, belongs g (mkConnects (<[c := next_attempt cs]> (pending_connects cs)) (<[next_attempt cs := at0]> (attempts cs)) (next_attempt cs + 1)) r k →
    belongs g cs r k).
  { intros r k [H|[H|(b & bt & Hbt & Hr & Hk)]]; [by left|by right; left|]. cbn in Hbt.
    apply lookup_insert_Some in Hbt as [[<- <-]|[_ Hbt]]; [done|]. right. right. by exists b, bt. }
  destruct Hok1 as [Hids Huniq Hrings Hat Hpend Hitems Hlive]. constructor.
  - intros r k Hk%Hb. by eapply Hids.
  - intros r k k' Hk%Hb Hk'%Hb. by eapply Huniq.
  - cbn. intros b1 b2 bt1 bt2 [[<- <-]|[Hn1 Hb1]]%lookup_insert_Some [[<- <-]|[Hn2 Hb2]]%lookup_insert_Some; [done| | |].
    + intros E. apply Hat0 in Hb2. cbn in E. lia.
    + intros E. apply Hat0 in Hb1. cbn in E. lia.
    + by apply (Hrings b1 b2 bt1 bt2).
  - cbn. intros b bt [[<- <-]|[Hn Hbt]]%lookup_insert_Some.
    + constructor; try done.
      * cbn. lia.
      * cbn. destruct (handles (reg L) !! next_ring (reg L)) as [k|] eqn:E; [|done].
        exfalso. apply (Hfresh k). right. left. exact E.
      * intros _. split; [intros k Hk%Hb; by apply (Hfresh k)|]. exists (mkRing [] true false). cbn. by rewrite lookup_insert, decide_True.
    + destruct (Hat b bt Hbt) as [? ? Hf ? ?]. constructor; try done; [destruct (Hat0 b bt Hbt); cbn; lia|]. intros Hkn. destruct (Hf Hkn) as [Hf1 Hf2].
      split; [|done]. intros k Hk%Hb. by apply (Hf1 k).
  - cbn. intros c' b [[<- <-]|[Hn Hc']]%lookup_insert_Some.
    + exists at0. by rewrite lookup_insert, decide_True.
    + destruct (Hpend c' b Hc') as (bt & Hbt & Hrest). exists bt. rewrite lookup_insert_ne; [done|]. intros E. rewrite <- E in Hbt.
      rewrite Ha in Hbt. done.
  - intros r k ring d Hr Hd Hk%Hb. by apply (Hitems r k ring).
  - exact Hlive.
Qed.

Lemma connect_end_ok L a : ok L → ok (connect_end L a).
Proof.
  intros Hok. unfold connect_end. destruct (attempts (connects L) !! a) as [at0|] eqn:Ea; [|done].
  unfold ok. cbn [reg connects with_connects with_reg]. apply alter_receiver_ok.
  pose proof (forget_attempt_ok _ _ a at0 Hok Ea) as Hok1. unfold without_attempt in Hok1.
  destruct (at_key at0); [by apply close_session_ok|done].
Qed.

Lemma connect_finish_ok L a : ok L → ok (connect_finish L a).1.
Proof.
  intros Hok. unfold connect_finish. destruct (attempts (connects L) !! a) as [at0|] eqn:Ea; [|done].
  destruct (at_sack at0) as [addr|] eqn:Es; [|done]. destruct (negb _); [by apply connect_end_ok|].
  unfold ok. cbn [reg connects with_connects with_reg fst]. pose proof (forget_attempt_ok _ _ a at0 Hok Ea) as Hok1.
  unfold without_attempt in Hok1. destruct (lo_attempt _ _ Hok a at0 Ea) as [Hi Hh _ _ Hsk]. specialize (Hsk addr Es).
  assert (Hb : belongs (reg L) (connects L) (at_ring at0) (EasyTierKey addr (at_conn_id at0))) by (right; right; by exists a, at0).
  assert (Hown : ∀ k', belongs (reg L) (without_attempt (connects L) (at_conn_id at0) a) (at_ring at0) k' →
    k' = EasyTierKey addr (at_conn_id at0)).
  { intros k' Hk'. apply (lo_uniq _ _ Hok (at_ring at0)); [|done]. destruct Hk' as [H|[H|(b & bt & Hbt & Hr & Hk)]]; [by left|by right; left|].
    cbn in Hbt. apply lookup_delete_Some in Hbt as [_ Hbt]. right. right. by exists b, bt. }
  apply handle_ok; [done|apply Hi|exact Hown| |].
  - cbn. intros b bt [Hne Hbt]%lookup_delete_Some E. by apply Hne, (lo_rings _ _ Hok a b at0 bt).
  - intros ring d Hr Hd. by apply (lo_items _ _ Hok (at_ring at0) _ ring).
Qed.

Lemma open_classified_ok L p remote : ok L → ok (open_classified_session L p remote).1.
Proof.
  intros Hok. unfold open_classified_session. destruct (sessions (reg L) !! _) as [r|] eqn:E; [done|].
  destruct (register_new_ok _ _ _ Hok E) as [Hok1 Hat]. apply handle_registered_ok; [done| |done]. cbn. by rewrite lookup_insert, decide_True.
Qed.

Lemma close_by_handle_ok L k r : ok L → handles (reg L) !! r = Some k → ok (with_reg L (udp_session_close (reg L) k r)).
Proof.
  intros Hok Hk. apply close_handle_ok; [done| |].
  - intros k' Hk'. apply (lo_uniq _ _ Hok r); [by left|by right; left].
  - intros a at0. by apply (handle_not_connecting (reg L) _ r k).
Qed.

Lemma sack_sent_ok L r b : ok L → ok (sack_sent L r b).
Proof.
  intros Hok. unfold sack_sent. destruct (negb _); [done|]. destruct b; [done|]. unfold ok. cbn.
  apply drop_session_ok. destruct (handles (reg L) !! r); [by apply close_session_ok|done].
Qed.

Lemma session_recv_ok L r : ok L → ok (session_recv L r).1.
Proof.
  intros Hok. unfold session_recv. destruct (rings (reg L) !! r) as [ring|] eqn:E; [|done]. destruct (r_closed ring) eqn:Ec; [done|].
  destruct (r_items ring) as [|d ds] eqn:Ei; [done|]. apply (set_ring_ok _ _ r ring); [done..|].
  intros d' Hd. left. rewrite Ei. by right.
Qed.

Lemma forward_ok L r out send_ok L' acts : ok L → forward_udp_session L r out send_ok = Some (L', acts) → ok L'.
Proof.
  intros Hok. unfold forward_udp_session. destruct (handles (reg L) !! r) as [k|] eqn:Ek; [|by intros [= <- _]].
  destruct (match out with OutDatagram _ => _ | OutTunnel _ _ => _ end) as [[d|e]|]; [| |done]; cbn [mbind option_bind].
  - intros [= <- _]. destruct send_ok; [done|]. by apply close_by_handle_ok.
  - intros [= <- _]. by apply close_by_handle_ok.
Qed.

Lemma close_on_shutdown_ok L r : ok L → ok (close_udp_session_on_shutdown L r).
Proof.
  intros Hok. unfold close_udp_session_on_shutdown. destruct (handles (reg L) !! r) as [k|] eqn:Ek; [|done].
  destruct (rings (reg L) !! r); [|done]. destruct (_ && _); [|done]. by apply close_by_handle_ok.
Qed.

(** What a received datagram has to be for the invariant. *)
Definition event_ok (ev : UdpEvent) : Prop :=
  match ev with
  | UReceive _ remote dst_ip payload =>
      (∀ p, R (ClassifiedKey p remote) (mkDatagram (PBytes payload) dst_ip)) ∧
      (∀ c p, classify_udp_datagram payload = CEasyTier KData c p → R (EasyTierKey remote c) (mkDatagram (PEasyTier p) dst_ip)) ∧
      ∀ c p pl, classify_udp_datagram payload = CEasyTier KSack c p → ZCPacket.udp_payload p = Some pl → len pl = 8 →
        S remote c (from_le pl)
  | _ => True
  end.

Lemma layer_step_ok L ev L' acts : ok L → event_ok ev → udp_step L ev = Some (L', acts) → ok L'.
Proof.
  intros Hok Hev. destruct ev; cbn [udp_step event_ok] in *.
  - destruct Hev as (H1 & H2 & H3). by apply receive_ok.
  - intros [= <- _]. by apply shutdown_ok.
  - case_bool_decide; [by intros [= <- _]|]. destruct (connect_begin L remote magic drawn) as [[[L1 a1] a]|] eqn:E; [|done].
    intros [= <- _]. by apply (connect_begin_ok _ _ _ _ _ _ _ Hok E).
  - destruct (connect_resend L a to); [|done]. by intros [= <- _].
  - intros [= <- _]. by apply connect_finish_ok.
  - intros [= <- _]. by apply connect_end_ok.
  - intros [= <- _]. by apply open_classified_ok.
  - intros [= <- _]. unfold accept. by destruct (mux_accepted (accepts L)).
  - by intros [= <- _].
  - intros [= <- _]. unfold accept_classified_session. by destruct (classified_queue _ _).
  - intros [= <- _]. by apply sack_sent_ok.
  - intros [= <- _]. by apply close_session_ok.
  - intros [= <- _]. by apply session_recv_ok.
  - by apply forward_ok.
  - intros [= <- _]. by apply close_on_shutdown_ok.
  - intros [= <- _]. by apply drop_session_ok.
  - by intros [= <- _].
  - by intros [= <- _].
  - by intros [= <- _].
  - by intros [= <- _].
Qed.

Lemma udp_run_ok evs L L' : ok L → Forall event_ok evs → udp_run L evs = Some L' → ok L'.
Proof.
  intros Hok Hevs. revert L Hok. induction Hevs as [|ev evs Hev _ IH]; intros L Hok; cbn [udp_run]; [by intros [= <-]|].
  destruct (udp_step L ev) as [[L1 acts]|] eqn:E; [|done]. cbn [mbind option_bind]. apply IH. by apply (layer_step_ok _ _ _ _ Hok Hev E).
Qed.

Lemma new_layer_ok : ok new_layer.
Proof.
  constructor; try done.
  - intros r k [H|[H|(a & at0 & H & _)]]; by cbn in H; rewrite lookup_empty in H.
  - intros r k k' [H|[H|(a & at0 & H & _)]]; by cbn in H; rewrite lookup_empty in H.
Qed.

End Invariant.

(** ** Properties of runs *)

(** A datagram received from the peer of a session, in the form the session gets it. *)
Definition received (evs : list UdpEvent) k d : Prop :=
  ∃ env payload, UReceive env (key_peer k) (dg_dst_ip d) payload ∈ evs ∧
    match k with
    | EasyTierKey _ c => ∃ p, classify_udp_datagram payload = CEasyTier KData c p ∧ dg_payload d = PEasyTier p
    | ClassifiedKey _ _ => dg_payload d = PBytes payload
    end.

(** A SACK for the connection received from an address. *)
Definition sacked (evs : list UdpEvent) (addr : SocketAddr) (conn_id magic : Z) : Prop :=
  ∃ env dst_ip payload p pl, UReceive env addr dst_ip payload ∈ evs ∧ classify_udp_datagram payload = CEasyTier KSack conn_id p ∧
    ZCPacket.udp_payload p = Some pl ∧ len pl = 8 ∧ from_le pl = magic.

Lemma layer_run_ok evs L : udp_run new_layer evs = Some L → ok (received evs) (sacked evs) L.
Proof.
  apply udp_run_ok; [apply new_layer_ok|]. apply Forall_forall. intros ev Hev. destruct ev; try done. cbn. split_and!.
  - intros p. by exists env, payload.
  - intros c p Hc. exists env, payload. split; [done|]. by exists p.
  - intros c p pl Hc Hp Hl. by exists env, dst_ip, payload, p, pl.
Qed.

(** C15: sessions over one socket are kept apart: along any run of received datagrams, connects,
    closed and dropped sessions, what waits in the ring of a session came from its peer, for an
    EasyTier session as data of its connection; no two keys have one ring, and a session that is
    found under its key is not closed, as long as the layer is up. *)
Theorem sessions_kept_apart evs L :
  udp_run new_layer evs = Some L →
  (∀ r k ring d, handles (reg L) !! r = Some k → rings (reg L) !! r = Some ring → d ∈ r_items ring → received evs k d) ∧
  ∀ k r, sessions (reg L) !! k = Some r →
    (∀ k', sessions (reg L) !! k' = Some r → k' = k) ∧
    ∃ ring, rings (reg L) !! r = Some ring ∧ (session_shutdown (reg L) = false → r_closed ring = false).
Proof.
  intros Hok%layer_run_ok. split.
  - intros r k ring d Hk Hr Hd. apply (lo_items _ _ _ _ Hok r k ring d Hr Hd). by right; left.
  - intros k r Hk. split; [intros k' Hk'; apply (lo_uniq _ _ _ _ Hok r); by left|].
    destruct (lo_live _ _ _ _ Hok k r Hk) as (ring & Hr & Hc). exists ring. split; [done|]. intros Hs.
    destruct (r_closed ring); [|done]. rewrite Hc in Hs by done. done.
Qed.

(** A connect succeeds only by an answer: the session it returns has the address as its peer
    that a SACK came from with the connection id and the magic number of the attempt. *)
Theorem connect_needs_sack evs L a r :
  udp_run new_layer evs = Some L → (connect_finish L a).2 = Some r →
  ∃ at0 addr, attempts (connects L) !! a = Some at0 ∧ at_ring at0 = r ∧
    handles (reg (connect_finish L a).1) !! r = Some (EasyTierKey addr (at_conn_id at0)) ∧
    sacked evs addr (at_conn_id at0) (at_magic at0).
Proof.
  intros Hok%layer_run_ok. unfold connect_finish. destruct (attempts (connects L) !! a) as [at0|] eqn:Ea; [|done].
  destruct (at_sack at0) as [addr|] eqn:Es; [|done]. destruct (lo_attempt _ _ _ _ Hok a at0 Ea) as [_ _ _ Hk Hs].
  specialize (Hs addr Es). rewrite Hs, bool_decide_true by done. cbn [negb snd fst]. intros [= <-].
  exists at0, addr. split_and!; try done.
  - unfold udp_session_new. cbn. destruct (session_shutdown (reg L)); cbn; by rewrite lookup_insert, decide_True.
  - destruct (Hk _ Hs) as (addr' & [= <-] & HS). done.
Qed.

(** A packet from a peer without a QUIC session is classified. *)
Lemma receive_easytier L env remote dst_ip (d : list Z) kind c p :
  sessions (reg L) !! ClassifiedKey Quic remote = None → len d <= MAX_UDP_SESSION_DATAGRAM_SIZE →
  classify_udp_datagram d = CEasyTier kind c p →
  udp_receive L env remote dst_ip d =
    '(L, acts, consumed) ← dispatch_easy_tier_udp_datagram L env remote kind c p dst_ip;
    if consumed : bool then Some (L, acts)
    else Some (dispatch_session_udp_datagram L env remote (classify_session_udp_datagram (ZCPacket.inner p))
                 (mkDatagram (PBytes (ZCPacket.inner p)) dst_ip), acts).
Proof.
  intros Hq Hl Hc. unfold udp_receive. destruct (Z.ltb_spec MAX_UDP_SESSION_DATAGRAM_SIZE (len d)); [lia|]. by rewrite Hq, Hc.
Qed.

Lemma built_len new c magic p : (new = new_syn_packet ∨ new = new_sack_packet) → new c magic = Some p → len (ZCPacket.inner p) = 16.
Proof. intros [-> | ->]; unfold new_syn_packet, new_sack_packet; rewrite PacketFacts.new_udp_packet_layout; by intros [= <-]. Qed.

Lemma session_new_sessions g k r : sessions (udp_session_new g k r) = sessions g.
Proof. unfold udp_session_new. by destruct (session_shutdown _). Qed.

Lemma session_new_handle g k r : handles (udp_session_new g k r) !! r = Some k.
Proof. unfold udp_session_new. destruct (session_shutdown _); cbn; by rewrite lookup_insert, decide_True. Qed.

(** The SYN of a connect opens a session at a listener with room for it. *)
Lemma syn_opens_session server env remote dst_ip c magic syn :
  is_uint 32 c → is_uint 64 magic → new_syn_packet c magic = Some syn →
  sessions (reg server) !! ClassifiedKey Quic remote = None → sessions (reg server) !! EasyTierKey remote c = None →
  mux_permit (accepts server) = true → local_addr_ok env = true →
  ∃ L sack, new_sack_packet c magic = Some sack ∧
    udp_receive server env remote dst_ip (ZCPacket.inner syn) = Some (L, [ASack (ZCPacket.inner sack) (EasyTierKey remote c) (Some (next_ring (reg server)))]) ∧
    sessions (reg L) !! EasyTierKey remote c = Some (next_ring (reg server)) ∧
    handles (reg L) !! next_ring (reg server) = Some (EasyTierKey remote c) ∧
    accepts L = reserve_mux (accepts server) (next_ring (reg server)).
Proof.
  intros Hc Hm Hsyn Hq Hs Hp Hl. destruct (syn_recognised c magic Hc) as (p & Ep & Hcl & Hpl).
  assert (p = syn) as -> by congruence. pose proof (built_len _ _ _ _ (or_introl eq_refl) Hsyn) as Hlen.
  rewrite (receive_easytier _ _ _ _ _ _ _ _ Hq ltac:(rewrite Hlen; done) Hcl). cbn [dispatch_easy_tier_udp_datagram].
  unfold handle_new_easy_tier_mux_connect. rewrite Hpl. cbn [mbind option_bind]. rewrite len_to_le. cbn [negb Z.eqb Z.of_nat Pos.eqb Pos.of_succ_nat Pos.succ].
  rewrite to_le_roundtrip by done. destruct (sack_recognised c magic Hc) as (sk & Esk & _). rewrite Esk. cbn [mbind option_bind].
  rewrite bool_decide_false by (rewrite Hs; by intros [? ?]). rewrite Hp, Hl. cbn [negb orb create_udp_session_rings].
  do 2 eexists. split; [done|]. split; [done|]. cbn [reg accepts]. rewrite session_new_sessions, session_new_handle. cbn.
  by rewrite lookup_insert, decide_True.
Qed.

(** Its answer registers the ring of the connect. *)
Lemma sack_resolves_connect L env remote dst_ip c a at0 magic sack :
  is_uint 32 c → is_uint 64 magic → new_sack_packet c magic = Some sack →
  pending_attempt L c = Some (a, at0) → at_key at0 = None → at_magic at0 = magic → at_conn_id at0 = c →
  sessions (reg L) !! ClassifiedKey Quic remote = None → sessions (reg L) !! EasyTierKey remote c = None →
  ∃ L', udp_receive L env remote dst_ip (ZCPacket.inner sack) = Some (L', []) ∧
    attempts (connects L') !! a = Some (sacked_attempt at0 remote) ∧ sessions (reg L') !! EasyTierKey remote c = Some (at_ring at0).
Proof.
  intros Hc Hm Hsack Hp Hk Hmag Hcid Hq Hs. destruct (sack_recognised c magic Hc) as (p & Ep & Hcl & Hpl).
  assert (p = sack) as -> by congruence. pose proof (built_len _ _ _ _ (or_intror eq_refl) Hsack) as Hlen.
  rewrite (receive_easytier _ _ _ _ _ _ _ _ Hq ltac:(rewrite Hlen; done) Hcl). cbn [dispatch_easy_tier_udp_datagram].
  unfold dispatch_sack_packet. rewrite Hpl. cbn [mbind option_bind]. rewrite Hp, len_to_le, to_le_roundtrip by done.
  cbn [negb Z.eqb Z.of_nat Pos.eqb Pos.of_succ_nat Pos.succ]. rewrite Hmag, !Z.eqb_refl, bool_decide_true by done. cbn [andb negb].
  unfold move_pending_udp_session_sender. rewrite Hk. cbn [with_connects reg]. rewrite Hs. cbn iota beta. eexists. split; [done|].
  cbn. rewrite alter_insert_eq, !lookup_insert, !decide_True by done. split; [|done]. unfold sacked_attempt. cbn. by rewrite Hcid.
Qed.

(** Connecting works: a connect whose SYN reaches a listener with room, and whose SACK comes
    back, ends with a session on both sides, under the address of the other and one connection
    id, and the session waits at the listener to be accepted. *)
Theorem handshake_connects client server to from magic drawn env env' dst dst' L1 acts a :
  connect_begin client to magic drawn = Some (L1, acts, a) → is_uint 64 magic → Forall (is_uint 32) drawn →
  sessions (reg client) !! ClassifiedKey Quic to = None →
  sessions (reg server) !! ClassifiedKey Quic from = None →
  (∀ c, c ∈ drawn → sessions (reg server) !! EasyTierKey from c = None) →
  mux_permit (accepts server) = true → local_addr_ok env = true →
  ∃ c syn sack L2 r2 L3 r1,
    acts = [ASend syn to] ∧
    udp_receive server env from dst syn = Some (L2, [ASack sack (EasyTierKey from c) (Some r2)]) ∧
    udp_receive L1 env' to dst' sack = Some (L3, []) ∧
    let L4 := sack_sent L2 r2 true in
    let '(L5, res) := connect_finish L3 a in
    res = Some r1 ∧
    sessions (reg L5) !! EasyTierKey to c = Some r1 ∧ handles (reg L5) !! r1 = Some (EasyTierKey to c) ∧
    sessions (reg L4) !! EasyTierKey from c = Some r2 ∧ handles (reg L4) !! r2 = Some (EasyTierKey from c) ∧
    mux_accepted (accepts L4) = mux_accepted (accepts server) ++ [r2].
Proof.
  unfold connect_begin. destruct (free_conn_id client to drawn) as [c|] eqn:Ec; [|done]. cbn [mbind option_bind].
  apply free_conn_id_spec in Ec as (Hs1 & Hp1 & Hin). destruct (new_syn_packet c magic) as [syn|] eqn:Esyn; [|done].
  cbn [mbind option_bind create_udp_session_rings]. intros [= <- <- <-] Hm Hd Hq1 Hq2 Hs2 Hpm Hl.
  assert (Hc : is_uint 32 c) by (by eapply Forall_forall in Hd).
  destruct (syn_opens_session server env from dst c magic syn Hc Hm Esyn Hq2 (Hs2 c Hin) Hpm Hl) as (L2 & sack & Esack & Hr2 & Hses2 & Hh2 & Hac2).
  set (r1 := next_ring (reg client)). set (at0 := mkAttempt c to magic r1 None None). set (a := next_attempt (connects client)).
  match goal with |- context [udp_receive ?L env' to dst' _] => set (L1 := L) end.
  assert (Hpend : pending_attempt L1 c = Some (a, at0)).
  { unfold pending_attempt, L1. cbn. rewrite lookup_insert, decide_True by done. cbn. by rewrite lookup_insert, decide_True. }
  destruct (sack_resolves_connect L1 env' to dst' c a at0 magic sack Hc Hm Esack Hpend) as (L3 & Hr3 & Ha3 & Hses3); [done..|].
  exists c, (ZCPacket.inner syn), (ZCPacket.inner sack), L2, (next_ring (reg server)), L3, r1. split; [done|]. split; [exact Hr2|].
  split; [exact Hr3|]. cbn zeta. unfold connect_finish. rewrite Ha3. cbn [sacked_attempt at_sack at_key at_conn_id at_ring at0].
  rewrite bool_decide_true by done. cbn [negb]. split; [done|]. cbn [reg with_connects with_reg].
  rewrite session_new_sessions, session_new_handle. split; [exact Hses3|]. split; [done|].
  unfold sack_sent. rewrite Hac2, bool_decide_true by (cbn; set_solver). cbn [negb]. done.
Qed.

(** What one side of a session sends arrives in the ring of the other. *)
Theorem session_data_arrives L r peer c payload L' env remote dst r' ring :
  handles (reg L) !! r = Some (EasyTierKey peer c) → is_uint 32 c → 8 + len payload <= MAX_UDP_SESSION_DATAGRAM_SIZE →
  sessions (reg L') !! ClassifiedKey Quic remote = None → sessions (reg L') !! EasyTierKey remote c = Some r' →
  rings (reg L') !! r' = Some ring → r_open ring = true →
  len (r_items ring) < UDP_SESSION_QUEUE_CAPACITY - RING_SOCKET_RESERVED_CAPACITY →
  ∃ (d : list Z) L'' x, forward_udp_session L r (OutDatagram payload) true = Some (L, [ASend d peer]) ∧
    udp_receive L' env remote dst d = Some (L'', []) ∧ datagram_payload x = Some payload ∧
    rings (reg L'') !! r' = Some (mkRing (r_items ring ++ [x]) true (r_closed ring)).
Proof.
  intros Hh Hc Hl Hq Hs Hr Ho Hroom. destruct (frames_spec c payload Hc) as (d & p & He & Hd & Hcl & Hpl); [lia|].
  exists d. eexists _, (mkDatagram (PEasyTier p) dst). unfold forward_udp_session. rewrite Hh. cbn [key_codec key_peer]. rewrite He.
  cbn [mbind option_bind]. split; [done|]. rewrite (receive_easytier _ _ _ _ _ _ _ _ Hq Hd Hcl).
  cbn [dispatch_easy_tier_udp_datagram]. unfold dispatch_data_packet. rewrite Hs. cbn [mbind option_bind].
  split; [done|]. split; [exact Hpl|]. unfold dispatch_to_session, send_to_ring. rewrite Hr. unfold dispatch_payload_to_session.
  assert (Hpush : ∀ cap, UDP_SESSION_QUEUE_CAPACITY - RING_SOCKET_RESERVED_CAPACITY <= cap →
    ring_push cap ring (mkDatagram (PEasyTier p) dst) = RingSent (mkRing (r_items ring ++ [mkDatagram (PEasyTier p) dst]) true (r_closed ring))).
  { intros cap Hcap. unfold ring_push. rewrite Ho. cbn [negb]. by destruct (Z.leb_spec cap (len (r_items ring))); [lia|]. }
  unfold ring_try_send, ring_force_send.
  destruct (ZCPacket.is_lossy p); rewrite Hpush by done; cbn; by rewrite lookup_insert, decide_True.
Qed.

(** ** No step panics *)

Lemma easytier_has_payload (d : list Z) kind c p : classify_udp_datagram d = CEasyTier kind c p → is_Some (ZCPacket.udp_payload p).
Proof.
  unfold classify_udp_datagram. destruct (is_stun_packet d); [done|]. unfold inspect_easytier_udp_datagram, UDPTunnelHeader.from_prefix.
  destruct (Z.ltb_spec (len d) UDP_TUNNEL_HEADER_SIZE) as [|Hl]; [done|]. destruct (negb _); [done|].
  destruct (from_msg_type _); [|done]. cbn. intros [= _ _ <-]. unfold ZCPacket.udp_payload. cbn.
  change (wrapping_add 64 0 UDP_TUNNEL_HEADER_SIZE) with UDP_TUNNEL_HEADER_SIZE.
  rewrite slice_from_Some; [by eexists|]. unfold UDP_TUNNEL_HEADER_SIZE in *. lia.
Qed.

Lemma syn_built c magic : is_Some (new_syn_packet c magic).
Proof. unfold new_syn_packet. rewrite PacketFacts.new_udp_packet_layout. by eexists. Qed.

Lemma sack_built c magic : is_Some (new_sack_packet c magic).
Proof. unfold new_sack_packet. rewrite PacketFacts.new_udp_packet_layout. by eexists. Qed.

Lemma receive_total L env remote dst_ip payload : is_Some (udp_receive L env remote dst_ip payload).
Proof.
  unfold udp_receive. destruct (_ <? _); [by eexists|]. destruct (sessions (reg L) !! _); [by eexists|].
  destruct (classify_udp_datagram payload) as [dg|kind c p|kind dg] eqn:Ec; [by eexists| |by eexists].
  assert (is_Some (dispatch_easy_tier_udp_datagram L env remote kind c p dst_ip)) as [[[L1 acts] b] ->].
  { destruct (easytier_has_payload _ _ _ _ Ec) as [pl Hpl]. destruct kind; cbn [dispatch_easy_tier_udp_datagram].
    - destruct (dispatch_data_packet L remote c p dst_ip). by eexists.
    - unfold handle_new_easy_tier_mux_connect. rewrite Hpl. cbn [mbind option_bind]. destruct (negb _); [by eexists|].
      destruct (sack_built c (from_le pl)) as [sk ->]. cbn [mbind option_bind create_udp_session_rings].
      destruct (bool_decide _); [by eexists|]. destruct (negb _ || _); by eexists.
    - unfold dispatch_sack_packet. rewrite Hpl. by eexists.
    - rewrite Hpl. cbn [mbind option_bind]. destruct (if _ =? _ then _ else _). by eexists.
    - unfold dispatch_v4_hole_punch_control. destruct (negb _); [by eexists|]. destruct (sa_ip remote); [|by eexists].
      rewrite Hpl. cbn. destruct (extract_dst_addr_from_v4_hole_punch_packet pl); by eexists.
    - unfold dispatch_v6_hole_punch_control. destruct (negb _); [by eexists|]. destruct (sa_ip remote); [by eexists|].
      rewrite Hpl. cbn. destruct (extract_v6_hole_punch_packet pl) as [[? ?]|]; by eexists. }
  cbn [mbind option_bind]. destruct b; by eexists.
Qed.

(** The packets of the tunnels are well formed. *)
Definition outbound_ok (ev : UdpEvent) : Prop :=
  match ev with UForward _ (OutTunnel _ p) _ => ZCPacket.wf p | _ => True end.

Lemma step_total L ev : outbound_ok ev → is_Some (udp_step L ev).
Proof.
  destruct ev; cbn [udp_step outbound_ok]; try (by eexists).
  - intros _. apply receive_total.
  - intros _. case_bool_decide as Hn; [by eexists|]. unfold connect_begin. destruct (free_conn_id L remote drawn) as [c|]; [|done].
    cbn [mbind option_bind]. destruct (syn_built c magic) as [syn ->]. by eexists.
  - intros _. unfold connect_resend. destruct (attempts (connects L) !! a); [|by eexists].
    destruct (syn_built (at_conn_id a0) (at_magic a0)) as [syn ->]. by eexists.
  - intros Hwf. unfold forward_udp_session. destruct (handles (reg L) !! r) as [k|]; [|by eexists].
    assert (is_Some match out with OutDatagram pl => encode (key_codec k) pl | OutTunnel u p => encode_tunnel_packet (key_codec k) u p end)
      as [x ->]; [|cbn; destruct x; by eexists].
    destruct out as [pl|u p]; [apply encode_total|by apply encode_tunnel_total].
Qed.

(** The layer never panics, whatever its socket receives. *)
Theorem layer_never_panics evs L : Forall outbound_ok evs → is_Some (udp_run L evs).
Proof.
  intros Hevs. revert L. induction Hevs as [|ev evs Hev _ IH]; intros L; cbn [udp_run]; [by eexists|].
  destruct (step_total L ev Hev) as [[L1 acts] ->]. apply IH.
Qed.

(** ** QUIC and hole punching *)

Lemma send_to_fresh g r d :
  rings g !! r = Some (mkRing [] true false) →
  send_to_ring g r d Reliable = (set_rings g (<[r := mkRing [d] true false]> (rings g)), true).
Proof. intros Hr. unfold send_to_ring. by rewrite Hr. Qed.

(** The first packet of a QUIC connection from an address without sessions opens a session where
    QUIC is accepted and no connect is pending, although it may read as a packet of EasyTier. *)
Theorem quic_initial_accepted L env remote dst_ip (d : list Z) cid :
  is_bytes d → parse_quic_initial_dcid d = Some cid → len d <= MAX_UDP_SESSION_DATAGRAM_SIZE →
  (∀ k, is_Some (sessions (reg L) !! k) → key_peer k ≠ remote) → pending_connects (connects L) = ∅ →
  ip_is_loopback (sa_ip remote) = false →
  Quic ∈ accept_enabled (accepts L) → classified_permit (accepts L) Quic = true → local_addr_ok env = true →
  ∃ L' acts r, udp_receive L env remote dst_ip d = Some (L', acts) ∧ sessions (reg L') !! ClassifiedKey Quic remote = Some r ∧
    r_items <$> rings (reg L') !! r = Some [mkDatagram (PBytes d) dst_ip] ∧
    classified_queue (accepts L') Quic = classified_queue (accepts L) Quic ++ [r].
Proof.
  intros Hb Hq Hlen Hno Hat Hlo Hen Hper Hla. destruct (quic_recognised d cid Hb Hq) as (Hcl & Hst & Hmin).
  assert (Hq0 : ∀ k, key_peer k = remote → sessions (reg L) !! k = None).
  { intros k Hk. apply eq_None_not_Some. intros Hs. by apply (Hno k). }
  assert (Hdisp : ∀ ob, ∃ r, let L' := dispatch_session_udp_datagram (with_observers L ob) env remote (Classified Quic) (mkDatagram (PBytes d) dst_ip) in
    sessions (reg L') !! ClassifiedKey Quic remote = Some r ∧ r_items <$> rings (reg L') !! r = Some [mkDatagram (PBytes d) dst_ip] ∧
    classified_queue (accepts L') Quic = classified_queue (accepts L) Quic ++ [r]).
  { intros ob. exists (next_ring (reg L)). cbn zeta. unfold dispatch_session_udp_datagram, dispatch_classified_udp_datagram.
    cbn [reg accepts with_observers]. rewrite Hq0 by done. rewrite bool_decide_true by done. rewrite Hper, Hla. cbn [negb orb create_udp_session_rings].
    set (g2 := set_sessions _ _). rewrite (send_to_fresh g2) by (unfold g2; cbn; by rewrite lookup_insert, decide_True).
    cbn iota beta. cbn [reg accepts]. rewrite session_new_sessions.
    split; [cbn; by rewrite lookup_insert, decide_True|]. split.
    - unfold udp_session_new. destruct (session_shutdown _); cbn; rewrite ?lookup_alter, lookup_insert, ?decide_True by done; done.
    - unfold classified_queue, push_classified. cbn. by rewrite lookup_insert, decide_True. }
  unfold udp_receive. destruct (Z.ltb_spec MAX_UDP_SESSION_DATAGRAM_SIZE (len d)); [lia|]. rewrite Hq0 by done.
  assert (HL : with_observers L (observers L) = L) by (by destruct L).
  destruct (classify_udp_datagram d) as [dg|kind c p|kind dg] eqn:Ec.
  - unfold classify_udp_datagram in Ec. rewrite Hst in Ec. destruct (inspect_easytier_udp_datagram d) as [[[? ?]|]|]; done.
  - pose proof (classify_packet _ _ _ _ Ec) as Ep. destruct (easytier_has_payload _ _ _ _ Ec) as [pl Hpl].
    assert (Hlong : len pl ≠ 8 ∧ len pl ≠ 16).
    { unfold ZCPacket.udp_payload in Hpl. apply PacketFacts.slice_from_end in Hpl. rewrite Ep in Hpl.
      assert (ZCPacket.packet_type p = UDP) as Ht.
      { unfold classify_udp_datagram in Ec. rewrite Hst in Ec. destruct (inspect_easytier_udp_datagram d) as [[[? ?]|]|]; try done. by injection Ec as _ _ <-. }
      rewrite Ht in Hpl. change (wrapping_add 64 (udp_tunnel_header_offset (get_packet_offsets UDP)) UDP_TUNNEL_HEADER_SIZE) with 8 in Hpl.
      unfold QUIC_MIN_INITIAL_DATAGRAM_LEN in Hmin. lia. }
    destruct Hlong as [Hl8 Hl16]. apply Z.eqb_neq in Hl8, Hl16.
    assert (Hpun : dispatch_hole_punch_packet L remote = []).
    { unfold dispatch_hole_punch_packet. by rewrite Hat, map_to_list_empty. }
    assert (∃ acts, dispatch_easy_tier_udp_datagram L env remote kind c p dst_ip = Some (L, acts, false)) as [acts ->].
    { destruct kind; cbn [dispatch_easy_tier_udp_datagram].
      - unfold dispatch_data_packet. rewrite Hq0 by done. by eexists.
      - unfold handle_new_easy_tier_mux_connect. rewrite Hpl. cbn [mbind option_bind]. rewrite Hl8. by eexists.
      - unfold dispatch_sack_packet. rewrite Hpl. cbn [mbind option_bind]. unfold pending_attempt. rewrite Hat, lookup_empty. by eexists.
      - rewrite Hpl. cbn [mbind option_bind]. unfold HOLE_PUNCH_PACKET_BODY_LEN. rewrite Hl16, Hpun, HL. by eexists.
      - unfold dispatch_v4_hole_punch_control. rewrite Hlo. by eexists.
      - unfold dispatch_v6_hole_punch_control. rewrite Hlo. by eexists. }
    cbn [mbind option_bind]. rewrite Ep, Hcl. destruct (Hdisp (observers L)) as [r Hr]. rewrite HL in Hr. do 3 eexists. split; [done|]. exact Hr.
  - rewrite (classify_session_payload _ _ _ Ec) in *. 
    assert (kind = Classified Quic) as ->.
    { unfold classify_udp_datagram in Ec. rewrite Hst in Ec. destruct (inspect_easytier_udp_datagram d) as [[[? ?]|]|]; try done; by injection Ec as <-. }
    destruct (Hdisp (observers L)) as [r Hr]. rewrite HL in Hr. do 3 eexists. split; [done|]. exact Hr.
Qed.

(** ** Witnesses and findings *)

Definition demo_env : Env := mkEnv true true.
Definition demo_peer : SocketAddr := mkSocketAddr (IpV4 3232235777) 11010.
Definition demo_other : SocketAddr := mkSocketAddr (IpV4 3232235778) 11011.
Definition bytes_of (p : option ZCPacket.t) : list Z := from_option ZCPacket.inner [] p.
Definition demo_data : list Z := match encode (EasyTierData 7) [1; 2; 3] with Some (Ok d) => d | _ => [] end.

(** A listener: a SYN, the accepted session, and three bytes for it. *)
Definition demo_listener : list UdpEvent :=
  [UReceive demo_env demo_peer None (bytes_of (new_syn_packet 7 99)); USackSent 0 true; UAccept;
   UReceive demo_env demo_peer None demo_data].

Lemma sessions_kept_apart_witness :
  ∃ L ring d, udp_run new_layer demo_listener = Some L ∧ rings (reg L) !! 0 = Some ring ∧ r_items ring = [d] ∧
    datagram_payload d = Some [1; 2; 3] ∧ received demo_listener (EasyTierKey demo_peer 7) d.
Proof.
  destruct (udp_run new_layer demo_listener) as [L|] eqn:E; [|vm_compute in E; discriminate].
  pose proof (sessions_kept_apart demo_listener L E) as [Hr _]. exists L.
  assert (Hh : handles (reg L) !! 0 = Some (EasyTierKey demo_peer 7)) by (vm_compute in E; injection E as <-; vm_compute; reflexivity).
  assert (Hi : (r_items <$> rings (reg L) !! 0) = Some [mkDatagram (PEasyTier (ZCPacket.new_from_buf demo_data UDP)) None])
    by (vm_compute in E; injection E as <-; vm_compute; reflexivity).
  destruct (rings (reg L) !! 0) as [ring|] eqn:Er; [|discriminate]. injection Hi as Hi. do 2 eexists. split; [reflexivity|].
  split; [reflexivity|]. split; [exact Hi|]. split; [vm_compute; reflexivity|]. apply (Hr 0 _ ring _ Hh Er). rewrite Hi. left.
Defined.

Definition demo_connect : list UdpEvent :=
  [UConnect demo_other 99 [7]; UReceive demo_env demo_other None (bytes_of (new_sack_packet 7 99))].

Lemma connect_needs_sack_witness :
  ∃ L, udp_run new_layer demo_connect = Some L ∧ (connect_finish L 0).2 = Some 0 ∧ sacked demo_connect demo_other 7 99.
Proof.
  destruct (udp_run new_layer demo_connect) as [L|] eqn:E; [|vm_compute in E; discriminate].
  assert (Hf : (connect_finish L 0).2 = Some 0) by (vm_compute in E; injection E as <-; vm_compute; reflexivity).
  destruct (connect_needs_sack demo_connect L 0 0 E Hf) as (at0 & addr & Ha & _ & Hh & Hs).
  exists L. split; [reflexivity|]. split; [exact Hf|]. vm_compute in E. injection E as <-. vm_compute in Ha. injection Ha as <-.
  vm_compute in Hh. injection Hh as <-. exact Hs.
Defined.

Lemma handshake_connects_witness :
  ∃ L1 acts a c syn sack L2 r2 L3, connect_begin new_layer demo_other 99 [7] = Some (L1, acts, a) ∧ acts = [ASend syn demo_other] ∧
    udp_receive new_layer demo_env demo_peer None syn = Some (L2, [ASack sack (EasyTierKey demo_peer c) (Some r2)]) ∧
    udp_receive L1 demo_env demo_other None sack = Some (L3, []) ∧ (connect_finish L3 a).2 = Some 0.
Proof.
  destruct (connect_begin new_layer demo_other 99 [7]) as [[[L1 acts] a]|] eqn:E; [|vm_compute in E; discriminate].
  destruct (handshake_connects new_layer new_layer demo_other demo_peer 99 [7] demo_env demo_env None None L1 acts a E)
    as (c & syn & sack & L2 & r2 & L3 & r1 & H1 & H2 & H3 & H4).
  - unfold is_uint. split; [discriminate|reflexivity].
  - constructor; [unfold is_uint; split; [discriminate|reflexivity]|constructor].
  - reflexivity.
  - reflexivity.
  - intros c _. reflexivity.
  - reflexivity.
  - reflexivity.
  - exists L1, acts, a, c, syn, sack, L2, r2, L3. split; [reflexivity|]. split; [exact H1|]. split; [exact H2|]. split; [exact H3|].
    destruct (connect_finish L3 a) as [L5 res] eqn:Ef. destruct H4 as (-> & Hs & _). cbn [snd].
    vm_compute in E. injection E as <- <- <-. injection H1 as <-.
    vm_compute in H2. injection H2 as <- <- <-  <-.
    vm_compute in H3. injection H3 as <-. vm_compute in Ef. injection Ef as _ <-. reflexivity.
Defined.

(** A session closed by an error of the socket and dropped later takes the session with it that
    has come under its key meanwhile: the key is removed whatever ring it has. *)
Definition demo_wireguard : list Z := [1; 0; 0; 0] ++ replicate 144 0.
Definition demo_replaced : list UdpEvent :=
  [UEnable WireGuard; UReceive demo_env demo_peer None demo_wireguard; UAcceptClassified WireGuard;
   UForward 0 (OutDatagram [1]) false; UReceive demo_env demo_peer None demo_wireguard; UAcceptClassified WireGuard].

Example late_drop_closes_replacement :
  let key := ClassifiedKey WireGuard demo_peer in
  let view L := (sessions (reg L) !! key, handles (reg L) !! 1, r_closed <$> rings (reg L) !! 1) in
  view <$> udp_run new_layer demo_replaced = Some (Some 1, Some key, Some false) ∧
  view <$> udp_run new_layer (demo_replaced ++ [UDrop 0]) = Some (None, Some key, Some true).
Proof. vm_compute. split; reflexivity. Qed.

(** An observer that is dropped late leaves the one that has taken its transaction; the first source stays. *)
Example observer_keeps_first_source :
  let ob := (observer_prepare (mkObservers ∅ ∅ 0) false 5 0 10).1 in
  let '(ob, r) := observer_observe ob false 5 3 in
  let ob := (observer_record (observer_record ob 5 demo_peer).1 5 demo_other).1 in
  r = Ok 0 ∧ sources ob !! 0 = Some (Some demo_peer) ∧
  let '(ob, r') := observer_observe (observer_drop ob 5 0) false 5 4 in
  r' = Ok 1 ∧ entries (observer_drop ob 5 0) !! 5 = Some (mkObserver 1 None).
Proof. vm_compute. repeat split; reflexivity. Qed.
