(* ===== verification/PeerLiveness.v ===== *)
(** * Probes, pings and the life of a connection

    Models easytier-core/src/peers/conn/peer_conn_liveness.rs, the pinger of
    peer_conn_ping.rs and the sliding average of tunnel/stats.rs.

    The liveness filter marks packets with one-byte tokens: a probe asks for its token back,
    an echo returns it.  The pinger, the reader and the writer of a connection share its
    atomics; a method that accesses them twice is split into its atomic parts, the whole method
    is their composition, and [link_step] interleaves the parts of two ends over a network that
    loses, repeats and reorders packets.  A response of the pinger is an argument, as are the
    coin and the counters of the tunnel; times are whole seconds. *)

From stdpp Require Import base gmap list numbers strings sets.
From Stdlib Require Import ZArith Lia.
From S2P Require Import Prelude Packet.
Local Open Scope Z_scope.
Import PeerManagerHeader (liveness_probe_token, liveness_echo_token, clear_liveness_marker, set_liveness_probe,
  set_liveness_echo).

(** ** The liveness filter *)

Definition FEATURE : string := "liveness-echo-v1".

Record PeerConnLiveness : Type := mkLiveness {
  enabled : bool; next_token : Z; active_probe_raw : Z; acknowledged_probe : Z; pending_echo : Z }.

Definition new_liveness : PeerConnLiveness := mkLiveness false 0 0 0 0.

Definition with_active (L : PeerConnLiveness) (v : Z) : PeerConnLiveness :=
  mkLiveness (enabled L) (next_token L) v (acknowledged_probe L) (pending_echo L).
Definition with_acknowledged (L : PeerConnLiveness) (v : Z) : PeerConnLiveness :=
  mkLiveness (enabled L) (next_token L) (active_probe_raw L) v (pending_echo L).
Definition with_pending (L : PeerConnLiveness) (v : Z) : PeerConnLiveness :=
  mkLiveness (enabled L) (next_token L) (active_probe_raw L) (acknowledged_probe L) v.

Definition set_enabled (L : PeerConnLiveness) (b : bool) : PeerConnLiveness :=
  if b then mkLiveness true (next_token L) (active_probe_raw L) (acknowledged_probe L) (pending_echo L)
  else mkLiveness false (next_token L) 0 0 0.

Definition set_remote_features (L : PeerConnLiveness) (features : list string) : PeerConnLiveness :=
  set_enabled L (existsb (String.eqb FEATURE) features).

Definition encode_probe (token : Z) : Z := token + 1.
Definition decode_probe (probe : Z) : Z := wrap 8 (probe - 1).

(** [start_probe]: an active probe goes on; otherwise the acknowledgement is reset
    ([probe_allocate], the flag tells that the token is new) and the token made active. *)
Definition probe_allocate (L : PeerConnLiveness) : PeerConnLiveness * option (Z * bool) :=
  if enabled L then
    if active_probe_raw L =? 0 then
      let token := wrapping_add 8 (next_token L) 1 in
      (mkLiveness (enabled L) token (active_probe_raw L) 0 (pending_echo L), Some (token, true))
    else (L, Some (decode_probe (active_probe_raw L), false))
  else (L, None).

Definition probe_publish (L : PeerConnLiveness) (token : Z) : PeerConnLiveness := with_active L (encode_probe token).

Definition start_probe (L : PeerConnLiveness) : PeerConnLiveness * option Z :=
  match probe_allocate L with
  | (L1, Some (token, true)) => (probe_publish L1 token, Some token)
  | (L1, Some (token, false)) => (L1, Some token)
  | (L1, None) => (L1, None)
  end.

(** What [wait_for_echo] waits for. *)
Definition echo_arrived (L : PeerConnLiveness) (token : Z) : bool := acknowledged_probe L =? encode_probe token.

(** The two exchanges of [finish_probe]. *)
Definition finish_active (L : PeerConnLiveness) (token : Z) : PeerConnLiveness :=
  if active_probe_raw L =? encode_probe token then with_active L 0 else L.
Definition finish_acknowledged (L : PeerConnLiveness) (token : Z) : PeerConnLiveness :=
  if acknowledged_probe L =? encode_probe token then with_acknowledged L 0 else L.
Definition finish_probe (L : PeerConnLiveness) (token : Z) : PeerConnLiveness :=
  finish_acknowledged (finish_active L token) token.

Definition active_probe (L : PeerConnLiveness) : option Z :=
  if active_probe_raw L =? 0 then None else Some (decode_probe (active_probe_raw L)).

Definition queue_echo (L : PeerConnLiveness) (token : Z) : PeerConnLiveness := with_pending L (encode_probe token).

Definition take_echo (L : PeerConnLiveness) : PeerConnLiveness * option Z :=
  (with_pending L 0, if pending_echo L =? 0 then None else Some (decode_probe (pending_echo L))).

(** [acknowledge]: whoever takes the active probe stores the acknowledgement. *)
Definition claim_probe (L : PeerConnLiveness) (token : Z) : PeerConnLiveness * bool :=
  if active_probe_raw L =? encode_probe token then (with_active L 0, true) else (L, false).
Definition confirm_probe (L : PeerConnLiveness) (token : Z) : PeerConnLiveness := with_acknowledged L (encode_probe token).
Definition acknowledge (L : PeerConnLiveness) (token : Z) : PeerConnLiveness :=
  let '(L1, claimed) := claim_probe L token in if claimed then confirm_probe L1 token else L1.

(** The marker that [before_send] writes: an echo goes before a probe. *)
Definition mark_header (echo probe : option Z) (h : PeerManagerHeader.t) : PeerManagerHeader.t :=
  let h := clear_liveness_marker h in
  match echo, probe with
  | Some token, _ => set_liveness_echo h token
  | None, Some token => set_liveness_probe h token
  | None, None => h
  end.

Definition mark_packet (p : ZCPacket.t) (echo probe : option Z) : ZCPacket.t :=
  default p (ZCPacket.update_peer_manager_header p (mark_header echo probe)).

(** [before_send]: the echo is taken first ([send_take]), then the packet is marked. *)
Definition send_take (L : PeerConnLiveness) (p : ZCPacket.t) : PeerConnLiveness * option Z :=
  if enabled L then match ZCPacket.peer_manager_header p with None => (L, None) | Some _ => take_echo L end
  else (L, None).

Definition send_mark (L : PeerConnLiveness) (p : ZCPacket.t) (echo : option Z) : ZCPacket.t :=
  if enabled L then mark_packet p echo (active_probe L) else p.

Definition before_send (L : PeerConnLiveness) (p : ZCPacket.t) : PeerConnLiveness * ZCPacket.t :=
  let '(L1, echo) := send_take L p in (L1, send_mark L1 p echo).

(** [after_received] up to the second half of [acknowledge]: the packet without its marker, and
    the token that was claimed. *)
Definition receive_marker (L : PeerConnLiveness) (p : ZCPacket.t) : PeerConnLiveness * ZCPacket.t * option Z :=
  if negb (enabled L) then (L, p, None)
  else match ZCPacket.peer_manager_header p, ZCPacket.update_peer_manager_header p clear_liveness_marker with
  | Some h, Some p' =>
      match liveness_probe_token h, liveness_echo_token h with
      | Some token, None => (queue_echo L token, p', None)
      | None, Some token =>
          let '(L1, claimed) := claim_probe L token in (L1, p', if claimed then Some token else None)
      | _, _ => (L, p', None)
      end
  | _, _ => (L, p, None)
  end.

Definition after_received {E} (L : PeerConnLiveness) (data : result ZCPacket.t E)
    : PeerConnLiveness * result ZCPacket.t E :=
  match data with
  | Err e => (L, Err e)
  | Ok p =>
      let '(L1, p', claimed) := receive_marker L p in
      (match claimed with Some token => confirm_probe L1 token | None => L1 end, Ok p')
  end.

(** ** Two ends of a connection

    The pinger of an end starts and finishes probes, its writer sends and its reader receives,
    each a part at a time.  Any packet that was ever sent may arrive at any time, in the frame of the
    receiving tunnel but with its peer manager header. *)

#[export] Instance pm_header_eq_dec : EqDecision PeerManagerHeader.t.
Proof. solve_decision. Defined.

Record End : Type := mkEnd {
  live : PeerConnLiveness;
  starting : option Z;                     (* the pinger, between the parts of start_probe *)
  sending : option (ZCPacket.t * option Z);  (* the writer, between the parts of before_send *)
  claimed : option Z;                      (* the reader, between the parts of acknowledge *)
  sent : list ZCPacket.t }.

Inductive EndEvent : Type :=
| Start | Publish | FinishActive (token : Z) | FinishAcknowledged (token : Z)
| Send (p : ZCPacket.t) | Mark
| Receive (i : nat) (p : ZCPacket.t) | Confirm.

Definition with_live (e : End) (L : PeerConnLiveness) : End := mkEnd L (starting e) (sending e) (claimed e) (sent e).

(** A step of one end, given what the other has sent; [None] when it cannot happen. *)
Definition end_step (peer_sent : list ZCPacket.t) (e : End) (ev : EndEvent) : option End :=
  match ev, starting e, sending e, claimed e with
  | Start, None, _, _ =>
      match probe_allocate (live e) with
      | (L, Some (token, true)) => Some (mkEnd L (Some token) (sending e) (claimed e) (sent e))
      | (L, _) => Some (with_live e L)
      end
  | Publish, Some token, _, _ => Some (mkEnd (probe_publish (live e) token) None (sending e) (claimed e) (sent e))
  | FinishActive token, None, _, _ => Some (with_live e (finish_active (live e) token))
  | FinishAcknowledged token, None, _, _ => Some (with_live e (finish_acknowledged (live e) token))
  | Send p, _, None, _ =>
      let '(L, echo) := send_take (live e) p in Some (mkEnd L (starting e) (Some (p, echo)) (claimed e) (sent e))
  | Mark, _, Some (p, echo), _ =>
      Some (mkEnd (live e) (starting e) None (claimed e) (sent e ++ [send_mark (live e) p echo]))
  | Receive i p, _, _, None =>
      if bool_decide (ZCPacket.peer_manager_header <$> peer_sent !! i = Some (ZCPacket.peer_manager_header p)) then
        let '(L, _, claim) := receive_marker (live e) p in Some (mkEnd L (starting e) (sending e) claim (sent e))
      else None
  | Confirm, _, _, Some token => Some (mkEnd (confirm_probe (live e) token) (starting e) (sending e) None (sent e))
  | _, _, _, _ => None
  end.

Inductive Side : Type := Here | There.

Record Link : Type := mkLink { here : End; there : End }.

Definition new_end : End := mkEnd (set_enabled new_liveness true) None None None [].
Definition new_link : Link := mkLink new_end new_end.

Definition link_step (s : Link) (ev : Side * EndEvent) : option Link :=
  match ev with
  | (Here, ev) => e ← end_step (sent (there s)) (here s) ev; Some (mkLink e (there s))
  | (There, ev) => e ← end_step (sent (here s)) (there s) ev; Some (mkLink (here s) e)
  end.

Definition link_run : Link → list (Side * EndEvent) → option Link := λ s evs, try_fold link_step evs s.

(** How far the token [t] of this end has come: 1, it was drawn; 2, the other end has received it
    on a probe since; 3, the other end has sent it on an echo since; 4, that echo has arrived. *)
Definition probe_of (p : ZCPacket.t) : option Z := h ← ZCPacket.peer_manager_header p; liveness_probe_token h.
Definition echo_of (p : ZCPacket.t) : option Z := h ← ZCPacket.peer_manager_header p; liveness_echo_token h.

Definition progress (s s' : Link) (ev : Side * EndEvent) (t : Z) (n : nat) : nat :=
  match ev with
  | (Here, Start) =>
      match starting (here s') with Some t' => if t' =? t then 1%nat else n | None => n end
  | (There, Receive _ p) => if bool_decide (probe_of p = Some t) && (1 <=? n)%nat then Nat.max n 2 else n
  | (There, Mark) =>
      if bool_decide (last (sent (there s')) ≫= echo_of = Some t) && (2 <=? n)%nat then Nat.max n 3 else n
  | (Here, Receive _ p) => if bool_decide (echo_of p = Some t) && (3 <=? n)%nat then 4%nat else n
  | _ => n
  end.

Fixpoint stage (s : Link) (evs : list (Side * EndEvent)) (t : Z) (n : nat) : nat :=
  match evs with
  | [] => n
  | ev :: evs => match link_step s ev with Some s' => stage s' evs t (progress s s' ev t n) | None => n end
  end.

Definition is_start (ev : Side * EndEvent) : bool := match ev with (Here, Start) => true | _ => false end.
Definition starts (evs : list (Side * EndEvent)) : nat := length (List.filter is_start evs).

(** Buffers hold bytes. *)
Definition event_bytes (ev : Side * EndEvent) : Prop :=
  match ev.2 with Send p | Receive _ p => is_bytes (ZCPacket.inner p) | _ => True end.

(** ** The sliding average of tunnel/stats.rs *)

Record WindowLatency : Type := mkWindow {
  latency_us_window : list Z; latency_us_window_index : Z; latency_us_window_size : Z; latency_sum : Z; count : Z }.

Definition new_window (size : Z) : WindowLatency := mkWindow (replicate (Z.to_nat size) 0) 0 size 0 0.

(** [None] is the remainder by a size of zero. *)
Definition record_latency (w : WindowLatency) (latency_us : Z) : option WindowLatency :=
  let i := latency_us_window_index w in
  let n := latency_us_window_size w in
  let c := if count w <? n then wrapping_add 32 (count w) 1 else count w in
  if n =? 0 then None
  else
    old_lat ← index (latency_us_window w) (i mod n);
    Some (mkWindow (<[Z.to_nat (i mod n) := latency_us]> (latency_us_window w)) (wrapping_add 32 i 1) n
      (if old_lat <? latency_us then wrapping_add 32 (latency_sum w) (latency_us - old_lat)
       else wrapping_sub 32 (latency_sum w) (old_lat - latency_us)) c).

(** For an integer type; the loss rate takes the same quotient as a float. *)
Definition get_latency_us (w : WindowLatency) : Z := if count w =? 0 then 0 else latency_sum w / count w.

(** ** The pinger *)

(** When to ping.  [Instant]s and intervals are whole seconds of the controller's clock. *)
Record PingIntervalController : Type := mkController {
  max_interval : Z; logic_time : Z; last_send_logic_time : Z; backoff_idx : Z; last_tx : Z; last_rx : Z }.

Definition max_backoff_idx : Z := 5.

Definition new_controller (interval tx rx : Z) : PingIntervalController := mkController interval 0 0 0 tx rx.

Definition tick (c : PingIntervalController) : PingIntervalController :=
  mkController (max_interval c) (wrapping_add 64 (logic_time c) 1) (last_send_logic_time c) (backoff_idx c)
    (last_tx c) (last_rx c).

Definition with_max_interval (c : PingIntervalController) (interval : Z) : PingIntervalController :=
  mkController interval (logic_time c) (last_send_logic_time c) (backoff_idx c) (last_tx c) (last_rx c).

(** [tx] and [rx] are the packet counters of the tunnel, [coin] is [gen_bool(0.2)]. *)
Definition should_send_ping (c : PingIntervalController) (losses tx rx : Z) (coin : bool) : PingIntervalController * bool :=
  let idx := if 0 <? losses then 0 else if (last_tx c <? tx) && negb (last_rx c <? rx) then 0 else backoff_idx c in
  let send_interval := Z.min (wrap 64 (Z.shiftl 1 idx)) (max_interval c) in
  if wrapping_sub 64 (logic_time c) (last_send_logic_time c) <? send_interval
  then (mkController (max_interval c) (logic_time c) (last_send_logic_time c) idx tx rx, false)
  else
    let idx := Z.min (idx + 1) max_backoff_idx in
    let idx := if (max_backoff_idx - 2 <? idx) && coin then idx - 1 else idx in
    (mkController (max_interval c) (logic_time c) (logic_time c) idx tx rx, true).

(** A round of the controller task. *)
Record PingRound : Type := mkRound { fast_ping : bool; losses : Z; tx_packets : Z; rx_packets : Z; coin : bool }.

Definition controller_round (interval : Z) (c : PingIntervalController) (r : PingRound) : PingIntervalController * bool :=
  should_send_ping (with_max_interval (tick c) (if fast_ping r then 1 else interval))
    (losses r) (tx_packets r) (rx_packets r) (coin r).

Fixpoint controller_run (interval : Z) (c : PingIntervalController) (rs : list PingRound) : PingIntervalController * list bool :=
  match rs with
  | [] => (c, [])
  | r :: rs =>
      let '(c, sends) := controller_round interval c r in
      let '(c, rest) := controller_run interval c rs in (c, sends :: rest)
  end.

Inductive PingResponse : Type := PongAfter (latency_us : Z) | LivenessEcho.
Inductive PingError : Type := SendError | RecvError | WaitTimeout.

(** [new_ping_packet]: the buffer of [set_len] is [uninit]. *)
Definition new_ping_packet (uninit : list Z) (my_node_id peer_id seq : Z) : option ZCPacket.t :=
  packet ← ZCPacket.new_with_payload uninit (to_le 4 seq);
  ZCPacket.fill_peer_manager_hdr packet my_node_id peer_id (packet_type_u8 Ping).

(** The reader's answer to a request: the packet goes back as a pong. *)
Definition answer_ping (zc_packet : ZCPacket.t) : option ZCPacket.t :=
  ZCPacket.update_peer_manager_header zc_packet (λ h, PeerManagerHeader.with_packet_type h (packet_type_u8 Pong)).

(** What [do_pingpong_once] sees within its two seconds: pongs with the time since the request
    was made, an error of the channel, the acknowledgement of its token. *)
Inductive Arrival : Type := PongPacket (p : ZCPacket.t) (elapsed_us : Z) | ChannelError | EchoSeen.

(** [None] is the panic on a payload shorter than a sequence number. *)
Fixpoint await_response (seq : Z) (liveness_token : option Z) (arrivals : list Arrival)
    : option (result PingResponse PingError) :=
  match arrivals with
  | [] => Some (Err WaitTimeout)
  | PongPacket p elapsed :: arrivals =>
      payload ← ZCPacket.payload p;
      seq_buf ← slice_range payload 0 4;
      if from_le seq_buf =? seq then Some (Ok (PongAfter elapsed)) else await_response seq liveness_token arrivals
  | ChannelError :: _ => Some (Err RecvError)
  | EchoSeen :: arrivals =>
      match liveness_token with Some _ => Some (Ok LivenessEcho) | None => await_response seq liveness_token arrivals end
  end.

Definition do_pingpong_once (sent : bool) (seq : Z) (liveness_token : option Z) (arrivals : list Arrival)
    : option (result PingResponse PingError) :=
  if sent then await_response seq liveness_token arrivals else Some (Err SendError).

(** The loop of [pingpong] around a request; its float of the loss rate is left out, the window it
    is taken from is not. *)
Record PeerConnPinger : Type := mkPinger {
  req_seq : Z; loss_counter : Z; loss_rate_stats_1 : WindowLatency; latency_stats : WindowLatency }.

Definition new_pinger (latencies : WindowLatency) : PeerConnPinger := mkPinger 0 0 (new_window 100) latencies.

Definition ping_begin (st : PeerConnPinger) (L : PeerConnLiveness) : PeerConnLiveness * option Z :=
  if 0 <? loss_counter st then start_probe L else (L, None).

(** The flag tells that the connection is closed. *)
Definition ping_end (st : PeerConnPinger) (L : PeerConnLiveness) (liveness_token : option Z)
    (ret : result PingResponse PingError) : option (PeerConnPinger * PeerConnLiveness * bool) :=
  let seq := wrapping_add 32 (req_seq st) 1 in
  match ret with
  | Ok response =>
      latencies ← match response with
                  | PongAfter lat => record_latency (latency_stats st) (wrap 32 lat)
                  | LivenessEcho => Some (latency_stats st)
                  end;
      rates ← record_latency (loss_rate_stats_1 st) 0;
      Some (mkPinger seq 0 rates latencies,
            match liveness_token with Some token => finish_probe L token | None => L end, false)
  | Err _ =>
      rates ← record_latency (loss_rate_stats_1 st) 1;
      let counter := wrapping_add 32 (loss_counter st) 1 in
      Some (mkPinger seq counter rates (latency_stats st), L, 5 <=? counter)
  end.

(** The requests one after the other; each is the liveness state that the other tasks leave it
    when it ends, and its outcome.  [true]: the connection was closed. *)
Fixpoint pingpong (st : PeerConnPinger) (L : PeerConnLiveness)
    (rounds : list ((PeerConnLiveness → PeerConnLiveness) * result PingResponse PingError)) : option (PeerConnPinger * bool) :=
  match rounds with
  | [] => Some (st, false)
  | (others, ret) :: rounds =>
      let '(L, token) := ping_begin st L in
      match ping_end st (others L) token ret with
      | Some (st, L, closed) => if closed then Some (st, true) else pingpong st L rounds
      | None => None
      end
  end.

(** ** Markers in packets *)

Lemma header_of_bytes l h : is_bytes l → PeerManagerHeader.from_prefix l = Some h → PeerManagerHeader.wf h.
Proof.
  unfold PeerManagerHeader.from_prefix, PEER_MANAGER_HEADER_SIZE. intros Hl.
  destruct (Z.ltb_spec (len l) 16); [done|]. intros [= <-].
  assert (Hle : ∀ k, length (take 4 (drop k l)) = 4%nat → is_uint 32 (from_le (take 4 (drop k l)))).
  { intros k Hk. unfold is_uint. change (2 ^ 32) with (256 ^ Z.of_nat 4). rewrite <- Hk at 3.
    apply from_le_bound. by apply Forall_take, Forall_drop. }
  unfold PeerManagerHeader.wf, len in *. cbn.
  split_and!; try (apply is_bytes_lookup; [done|lia]).
  - apply (Hle 0%nat). rewrite drop_0, length_take. lia.
  - apply Hle. rewrite length_take, length_drop. lia.
  - apply Hle. rewrite length_take, length_drop. lia.
Qed.

Lemma packet_header_wf p h :
  is_bytes (ZCPacket.inner p) → ZCPacket.peer_manager_header p = Some h → ZCPacket.wf p ∧ PeerManagerHeader.wf h.
Proof.
  intros Hb. unfold ZCPacket.peer_manager_header, ZCPacket.bytes_from_offset.
  destruct (slice_from _ _) as [l|] eqn:E; [|done]. cbn. intros Hh.
  assert (Hl : is_bytes l).
  { unfold slice_from in E. destruct (_ && _); [|done]. injection E as <-. by apply Forall_drop. }
  split; [|by eapply header_of_bytes]. unfold ZCPacket.wf, ZCPacket.payload_offset. rewrite PacketFacts.payload_after_header.
  apply PacketFacts.slice_from_end in E. unfold PeerManagerHeader.from_prefix in Hh.
  destruct (Z.ltb_spec (len l) PEER_MANAGER_HEADER_SIZE); [done|]. lia.
Qed.

Lemma ldiff_byte a b : is_byte a → 0 <= b → is_byte (Z.ldiff a b).
Proof.
  intros Ha Hb. apply byte_of_testbit; [apply Z.ldiff_nonneg; unfold is_byte in Ha; lia|].
  intros i Hi. by rewrite Z.ldiff_spec, byte_testbit_high.
Qed.

Lemma clear_marker_wf h : PeerManagerHeader.wf h → PeerManagerHeader.wf (clear_liveness_marker h).
Proof.
  intros (? & ? & ? & ? & ? & ? & ?). unfold PeerManagerHeader.wf. cbn. split_and!; try done.
  - by apply ldiff_byte.
Qed.

Definition byte_token (o : option Z) : Prop := ∀ t, o = Some t → is_byte t.

Lemma mark_header_wf echo probe h :
  PeerManagerHeader.wf h → byte_token echo → byte_token probe → PeerManagerHeader.wf (mark_header echo probe h).
Proof.
  intros Hh He Hp. apply clear_marker_wf in Hh as Hc. unfold mark_header.
  destruct echo as [t|]; [|destruct probe as [t|]; [|done]];
    apply clear_marker_wf in Hc as (? & ? & ? & ? & ? & ? & ?); split_and!; try done;
    first [by apply lor_byte | by apply He | by apply Hp].
Qed.

Lemma cleared_tokens h :
  liveness_probe_token (clear_liveness_marker h) = None ∧ liveness_echo_token (clear_liveness_marker h) = None.
Proof.
  unfold liveness_probe_token, liveness_echo_token. change Flags.LIVENESS_PROBE with (2 ^ 5).
  change Flags.LIVENESS_ECHO with (2 ^ 7).
  rewrite !PacketFacts.contains_pow2, !PacketFacts.clear_marker_flags by lia. done.
Qed.

Lemma mark_header_tokens echo probe h :
  liveness_echo_token (mark_header echo probe h) = echo ∧
  liveness_probe_token (mark_header echo probe h) = match echo with Some _ => None | None => probe end.
Proof.
  unfold mark_header. destruct echo as [t|]; [|destruct probe as [t|]].
  1,2: by destruct (PacketFacts.liveness_marker_exclusive (clear_liveness_marker h) t) as [(? & ? & ? & ?) _].
  split; apply cleared_tokens.
Qed.

(** A packet that was marked carries the token it was marked with and no other. *)
Lemma marked_tokens p echo probe t :
  is_bytes (ZCPacket.inner p) → byte_token echo → byte_token probe →
  (echo_of (mark_packet p echo probe) = Some t → echo = Some t) ∧
  (probe_of (mark_packet p echo probe) = Some t → probe = Some t).
Proof.
  intros Hb He Hp. unfold echo_of, probe_of, mark_packet.
  destruct (ZCPacket.peer_manager_header p) as [h|] eqn:Eh.
  - destruct (packet_header_wf p h Hb Eh) as [Hw Hh].
    destruct (PacketFacts.update_header_ok p (mark_header echo probe) Hw) as (p' & h' & Eh' & -> & _ & _ & Hr).
    rewrite Eh in Eh'. injection Eh' as <-. cbn. rewrite Hr by by apply mark_header_wf. cbn.
    destruct (mark_header_tokens echo probe h) as [-> ->]. split; [done|]. by destruct echo.
  - unfold ZCPacket.update_peer_manager_header. rewrite Eh. cbn. by rewrite Eh.
Qed.

(** What the reader passes on has no marker and the payload it came with. *)
Lemma received_unmarked {E} L p :
  enabled L = true → is_bytes (ZCPacket.inner p) →
  ∃ L' p', after_received (E := E) L (Ok p) = (L', Ok p') ∧ probe_of p' = None ∧ echo_of p' = None ∧
    ZCPacket.payload p' = ZCPacket.payload p.
Proof.
  intros He Hb. unfold after_received, receive_marker. rewrite He. cbn [negb].
  destruct (ZCPacket.peer_manager_header p) as [h|] eqn:Eh.
  - destruct (packet_header_wf p h Hb Eh) as [Hw Hh].
    destruct (PacketFacts.update_header_ok p clear_liveness_marker Hw) as (p' & h' & Eh' & -> & _ & Hpl & Hr).
    rewrite Eh in Eh'. injection Eh' as <-. specialize (Hr (clear_marker_wf h Hh)).
    assert (probe_of p' = None ∧ echo_of p' = None) as []
      by (unfold probe_of, echo_of; rewrite Hr; cbn; apply cleared_tokens).
    destruct (liveness_probe_token h), (liveness_echo_token h); try (do 2 eexists; by split_and!).
    destruct (claim_probe L _). do 2 eexists. by split_and!.
  - do 2 eexists. split_and!; [done| | |done]; unfold probe_of, echo_of; by rewrite Eh.
Qed.

(** ** Echoes prove round trips *)

(** A probe word holds no token, or one that has come to stage [n]. *)
Definition raw_ok (ph : Z → nat) (n : nat) (v : Z) : Prop :=
  v = 0 ∨ ∃ t, is_byte t ∧ v = encode_probe t ∧ (n ≤ ph t)%nat.

Definition token_ok (ph : Z → nat) (n : nat) (o : option Z) : Prop := ∀ t, o = Some t → is_byte t ∧ (n ≤ ph t)%nat.

(** The stages that tokens must have reached: [a] where they are asked for, [q] where an echo is
    due, [x] on an echo that was sent, [c] where they are acknowledged. *)
Record end_ok (ph : Z → nat) (a q x c : nat) (e : End) : Prop := {
  eo_enabled : enabled (live e) = true;
  eo_next : is_byte (next_token (live e));
  eo_active : raw_ok ph a (active_probe_raw (live e));
  eo_starting : token_ok ph a (starting e);
  eo_pending : raw_ok ph q (pending_echo (live e));
  eo_sending : ∀ p o, sending e = Some (p, o) → is_bytes (ZCPacket.inner p) ∧ token_ok ph q o;
  eo_ack : raw_ok ph c (acknowledged_probe (live e));
  eo_claimed : token_ok ph c (claimed e);
  eo_probes : ∀ p, p ∈ sent e → ∀ t, probe_of p = Some t → (a ≤ ph t)%nat;
  eo_echoes : ∀ p, p ∈ sent e → ∀ t, echo_of p = Some t → (x ≤ ph t)%nat }.

Lemma raw_ok_mono ph ph' n v : (∀ t, (ph t ≤ ph' t)%nat) → raw_ok ph n v → raw_ok ph' n v.
Proof. intros Hm [->|(t & ? & -> & ?)]; [by left|]. right. exists t. split_and!; [done..|]. specialize (Hm t). lia. Qed.

Lemma token_ok_mono ph ph' n o : (∀ t, (ph t ≤ ph' t)%nat) → token_ok ph n o → token_ok ph' n o.
Proof. intros Hm Ho t Ht. destruct (Ho t Ht). specialize (Hm t). split; [done|lia]. Qed.

Lemma end_ok_mono ph ph' a q x c e : (∀ t, (ph t ≤ ph' t)%nat) → end_ok ph a q x c e → end_ok ph' a q x c e.
Proof.
  intros Hm []. split; try done; try by eapply raw_ok_mono. 1,3: by eapply token_ok_mono.
  - intros p o Hs. destruct (eo_sending0 p o Hs). split; [done|]. by eapply token_ok_mono.
  - intros p Hp t Ht. specialize (eo_probes0 p Hp t Ht). specialize (Hm t). lia.
  - intros p Hp t Ht. specialize (eo_echoes0 p Hp t Ht). specialize (Hm t). lia.
Qed.

Lemma raw_ok_encode ph n t : is_byte t → (n ≤ ph t)%nat → raw_ok ph n (encode_probe t).
Proof. intros. right. by exists t. Qed.

Lemma decode_encode t : is_byte t → decode_probe (encode_probe t) = t.
Proof. unfold decode_probe, encode_probe, is_byte. intros. replace (t + 1 - 1) with t by lia. by apply Z.mod_small. Qed.

Lemma raw_ok_decode ph n v : raw_ok ph n v → token_ok ph n (if v =? 0 then None else Some (decode_probe v)).
Proof. intros [->|(t & Hb & -> & Hn)] t'; [done|]. case_match; [done|]. intros [= <-]. by rewrite decode_encode. Qed.

Lemma token_ok_byte ph n o : token_ok ph n o → byte_token o.
Proof. intros Ho t Ht. by destruct (Ho t Ht). Qed.

(** What the step of an end asks of the stages after it. *)
Definition end_due (ph : Z → nat) (a q x c : nat) (e' : End) (ev : EndEvent) : Prop :=
  match ev with
  | Start => ∀ t, starting e' = Some t → (a ≤ ph t)%nat
  | Mark => ∀ p t, last (sent e') = Some p → echo_of p = Some t → (x ≤ ph t)%nat
  | Receive _ p => (∀ t, probe_of p = Some t → (q ≤ ph t)%nat) ∧ (∀ t, echo_of p = Some t → (c ≤ ph t)%nat)
  | _ => True
  end.

Lemma claim_probe_spec L t L1 b :
  claim_probe L t = (L1, b) → (L1 = L ∧ b = false) ∨ (L1 = with_active L 0 ∧ b = true).
Proof. unfold claim_probe. case_match; intros [= <- <-]; auto. Qed.

Lemma received_tokens p h :
  is_bytes (ZCPacket.inner p) → ZCPacket.peer_manager_header p = Some h →
  byte_token (liveness_probe_token h) ∧ byte_token (liveness_echo_token h) ∧
  probe_of p = liveness_probe_token h ∧ echo_of p = liveness_echo_token h.
Proof.
  intros Hb Eh. destruct (packet_header_wf p h Hb Eh) as [_ (_ & _ & _ & _ & _ & Hr & _)].
  unfold probe_of, echo_of. rewrite Eh. split_and!; try done; intros t; unfold liveness_probe_token, liveness_echo_token;
    (case_match; [by intros [= <-]|done]).
Qed.

Lemma end_receive_ok ph a q x c e i p L p1 claim :
  end_ok ph a q x c e → is_bytes (ZCPacket.inner p) → claimed e = None → end_due ph a q x c e (Receive i p) →
  receive_marker (live e) p = (L, p1, claim) →
  end_ok ph a q x c (mkEnd L (starting e) (sending e) claim (sent e)).
Proof.
  intros [] Hb Hc [Hq Ha]. unfold receive_marker. rewrite eo_enabled0. cbn [negb].
  assert (Hsame : end_ok ph a q x c (mkEnd (live e) (starting e) (sending e) None (sent e))) by (split; done).
  destruct (ZCPacket.peer_manager_header p) as [h|] eqn:Eh; [|by intros [= <- <- <-]].
  destruct (received_tokens p h Hb Eh) as (Hpb & Heb & Ep & Ee). rewrite Ep in Hq. rewrite Ee in Ha.
  destruct (ZCPacket.update_peer_manager_header p _) as [p'|]; [|by intros [= <- <- <-]].
  destruct (liveness_probe_token h) as [tp|], (liveness_echo_token h) as [te|]; try by intros [= <- <- <-].
  - intros [= <- <- <-]. split; try done; cbn. apply raw_ok_encode; auto.
  - destruct (claim_probe (live e) te) as [L1 b] eqn:Ec.
    apply claim_probe_spec in Ec as [[-> ->]|[-> ->]]; intros [= <- <- <-]; [done|].
    split; try done; cbn; [by left|]. intros t [= <-]. auto.
Qed.

Lemma allocate_spec L L1 o :
  probe_allocate L = (L1, o) →
  (∃ token, o = Some (token, true) ∧ is_byte token ∧ active_probe_raw L = 0 ∧ token = wrapping_add 8 (next_token L) 1 ∧
    L1 = mkLiveness (enabled L) token (active_probe_raw L) 0 (pending_echo L)) ∨
  (L1 = L ∧ ∀ token, o ≠ Some (token, true)).
Proof.
  unfold probe_allocate. repeat case_match; intros [= <- <-]; [left|by right..].
  eexists. split_and!; try done; [apply wrap_byte|by apply Z.eqb_eq].
Qed.

Lemma take_ok ph a q x c e p :
  end_ok ph a q x c e → is_bytes (ZCPacket.inner p) →
  let '(L, echo) := send_take (live e) p in end_ok ph a q x c (mkEnd L (starting e) (Some (p, echo)) (claimed e) (sent e)).
Proof.
  intros [] Hb. unfold send_take. rewrite eo_enabled0.
  destruct (ZCPacket.peer_manager_header p); cbn [take_echo].
  - split; try done; cbn; [by left|]. intros p' o [= <- <-]. split; [done|]. by apply raw_ok_decode.
  - split; try done. intros p' o [= <- <-]. by split.
Qed.

Lemma mark_ok ph a q x c e p echo :
  end_ok ph a q x c e → sending e = Some (p, echo) →
  (∀ t, echo_of (send_mark (live e) p echo) = Some t → (x ≤ ph t)%nat) →
  end_ok ph a q x c (mkEnd (live e) (starting e) None (claimed e) (sent e ++ [send_mark (live e) p echo])).
Proof.
  intros [] Hs Hx. destruct (eo_sending0 p echo Hs) as [Hb He].
  assert (Hp : token_ok ph a (active_probe (live e))) by by apply raw_ok_decode.
  split; try done; cbn.
  - intros p' [Hp'| ->%list_elem_of_singleton]%elem_of_app t Ht; [by eapply eo_probes0|].
    unfold send_mark in Ht. rewrite eo_enabled0 in Ht.
    destruct (marked_tokens p echo (active_probe (live e)) t Hb) as [_ Hm]; [by eapply token_ok_byte..|].
    by apply Hp, Hm.
  - intros p' [Hp'| ->%list_elem_of_singleton]%elem_of_app t Ht; [by eapply eo_echoes0|by apply Hx].
Qed.

Lemma end_step_ok ph a q x c others e ev e' :
  end_ok ph a q x c e → end_step others e ev = Some e' → event_bytes (Here, ev) →
  end_due ph a q x c e' ev → end_ok ph a q x c e'.
Proof.
  intros Hok Hs Hb Hd. destruct ev; cbn in Hs, Hb.
  - destruct (starting e) eqn:Est; [done|]. destruct (probe_allocate (live e)) as [L o] eqn:Ea. pose proof Hok as [].
    apply allocate_spec in Ea as [(token & -> & Ht & Hz & -> & ->)|[-> Ho]].
    + injection Hs as <-. cbn in Hd. split; try done; cbn; [by intros t [= <-]; auto|by left].
    + assert (e' = with_live e (live e)) as -> by (destruct o as [[token []]|]; [by destruct (Ho token)|by simplify_eq..]). by split; rewrite ?Est.
  - destruct (starting e) as [token|] eqn:Est; simplify_eq. pose proof Hok as [].
    destruct (eo_starting0 token Est). split; try done; cbn. by apply raw_ok_encode.
  - destruct (starting e) eqn:Est; simplify_eq. pose proof Hok as [].
    unfold with_live, finish_active. rewrite Est. case_match; split; try done; cbn; by left.
  - destruct (starting e) eqn:Est; simplify_eq. pose proof Hok as [].
    unfold with_live, finish_acknowledged. rewrite Est. case_match; split; try done; cbn; by left.
  - pose proof (take_ok ph a q x c e p Hok Hb) as Ht. destruct (send_take (live e) p). destruct (starting e), (sending e); by simplify_eq.
  - destruct (sending e) as [[p echo]|] eqn:Es; [|by destruct (starting e)].
    assert (e' = mkEnd (live e) (starting e) None (claimed e) (sent e ++ [send_mark (live e) p echo])) as ->
      by (destruct (starting e); by simplify_eq).
    apply (mark_ok _ _ _ _ _ _ _ _ Hok Es). intros t. apply (Hd _ t). cbn. by rewrite last_snoc.
  - destruct (claimed e) eqn:Ec; [by destruct (starting e), (sending e)|].
    destruct (receive_marker (live e) p) as [[L p1] claim] eqn:Er.
    assert (e' = mkEnd L (starting e) (sending e) claim (sent e)) as ->
      by (destruct (starting e), (sending e); case_bool_decide; by simplify_eq).
    by apply (end_receive_ok ph a q x c e i p L p1 claim).
  - destruct (claimed e) as [token|] eqn:Ec; [|by destruct (starting e), (sending e)].
    assert (e' = mkEnd (confirm_probe (live e) token) (starting e) (sending e) None (sent e)) as ->
      by (destruct (starting e), (sending e); by simplify_eq).
    pose proof Hok as []. destruct (eo_claimed0 token Ec). split; try done; cbn. by apply raw_ok_encode.
Qed.

(** [k] counts the tokens drawn. *)
Record link_inv (ph : Z → nat) (k : nat) (s : Link) : Prop := {
  li_here : end_ok ph 1 0 0 4 (here s);
  li_there : end_ok ph 0 2 3 0 (there s);
  li_next : next_token (live (here s)) = Z.of_nat k mod 256;
  li_drawn : ∀ t, (1 ≤ ph t)%nat → ∃ j, (1 ≤ j ≤ k)%nat ∧ t = Z.of_nat j mod 256;
  li_bound : ∀ t, (ph t ≤ 4)%nat }.

Lemma received_from others e i p e' :
  end_step others e (Receive i p) = Some e' →
  ∃ q, q ∈ others ∧ probe_of p = probe_of q ∧ echo_of p = echo_of q.
Proof.
  cbn. intros Hs. assert (Hg : ZCPacket.peer_manager_header <$> others !! i = Some (ZCPacket.peer_manager_header p))
    by (destruct (starting e), (sending e), (claimed e); try done; case_bool_decide; done).
  destruct (others !! i) as [q|] eqn:Eq; [|done]. injection Hg as Hg. exists q.
  split; [by eapply list_elem_of_lookup_2|]. unfold probe_of, echo_of. by rewrite Hg.
Qed.

(** Only drawing a token changes what was drawn. *)
Lemma end_step_tokens others e ev e' :
  end_step others e ev = Some e' →
  next_token (live e') = next_token (live e) ∨
  (ev = Start ∧ starting e' = Some (wrapping_add 8 (next_token (live e)) 1) ∧
   next_token (live e') = wrapping_add 8 (next_token (live e)) 1).
Proof.
  intros Hs. destruct ev; cbn in Hs.
  - destruct (starting e) eqn:Est; [done|]. destruct (probe_allocate (live e)) as [L o] eqn:Ea.
    apply allocate_spec in Ea as [(token & -> & _ & _ & -> & ->)|[-> Ho]]; [injection Hs as <-; by right|].
    left. destruct o as [[token []]|]; [by destruct (Ho token)|by simplify_eq..].
  - destruct (starting e); simplify_eq. by left.
  - destruct (starting e); simplify_eq. left. cbn. unfold finish_active. by case_match.
  - destruct (starting e); simplify_eq. left. cbn. unfold finish_acknowledged. by case_match.
  - left. unfold send_take, take_echo in Hs. destruct (starting e), (sending e); repeat case_match; by simplify_eq.
  - left. destruct (starting e), (sending e) as [[]|]; by simplify_eq.
  - left. destruct (receive_marker (live e) p) as [[L p1] claim] eqn:Er.
    assert (live e' = L) as -> by (destruct (starting e), (sending e), (claimed e); try done; case_bool_decide; by simplify_eq).
    unfold receive_marker, claim_probe in Er. repeat case_match; by simplify_eq.
  - left. destruct (starting e), (sending e), (claimed e); by simplify_eq.
Qed.

Lemma start_starting others e e' :
  end_step others e Start = Some e' → starting e = None ∧
  (starting e' = None ∨ starting e' = Some (wrapping_add 8 (next_token (live e)) 1) ∧
   next_token (live e') = wrapping_add 8 (next_token (live e)) 1).
Proof.
  cbn. intros Hs. destruct (starting e) eqn:Est; [done|]. split; [done|]. destruct (probe_allocate (live e)) as [L o] eqn:Ea.
  apply allocate_spec in Ea as [(token & -> & _ & _ & -> & ->)|[-> Ho]]; [injection Hs as <-; by right|].
  left. destruct o as [[token []]|]; [by destruct (Ho token)|by simplify_eq..].
Qed.

Lemma wrapping_succ k : wrapping_add 8 (Z.of_nat k mod 256) 1 = Z.of_nat (S k) mod 256.
Proof. unfold wrapping_add, wrap. change (2 ^ 8) with 256. rewrite Zplus_mod_idemp_l. f_equal. lia. Qed.

Lemma fresh_stage ph k s t :
  link_inv ph k s → (k < 256)%nat → t = Z.of_nat (S k) mod 256 → ph t = 0%nat.
Proof.
  intros Hi Hk Ht. destruct (ph t) eqn:E; [done|]. destruct (li_drawn _ _ _ Hi t) as (j & Hj & Hjt); [lia|]. exfalso.
  assert (∀ n, (1 ≤ n ≤ 256)%nat → Z.of_nat n mod 256 = if (n =? 256)%nat then 0 else Z.of_nat n) as Hmod.
  { intros m Hm. destruct (Nat.eqb_spec m 256) as [->|]; [done|]. apply Z.mod_small. lia. }
  rewrite Ht, !Hmod in Hjt by lia. destruct (Nat.eqb_spec (S k) 256), (Nat.eqb_spec j 256); lia.
Qed.

Lemma progress_other s s' ev t n :
  is_start ev = false → (n ≤ 4)%nat →
  (n ≤ progress s s' ev t n ≤ 4)%nat ∧ (1 ≤ progress s s' ev t n → 1 ≤ n)%nat.
Proof.
  intros Hs Hn. destruct ev as [[] []]; try done; cbn [progress]; try lia;
    (destruct (bool_decide _ && (_ <=? n)%nat) eqn:E; [apply andb_prop in E as [_ E%Nat.leb_le]|]; lia).
Qed.

Lemma link_step_start ph k s s' :
  link_inv ph k s → link_step s (Here, Start) = Some s' → (k < 256)%nat →
  there s' = there s ∧
  ((starting (here s') = None ∧ next_token (live (here s')) = next_token (live (here s))) ∨
   ∃ t, t = Z.of_nat (S k) mod 256 ∧ starting (here s') = Some t ∧ ph t = 0%nat ∧ next_token (live (here s')) = t).
Proof.
  intros Hi Hs Hk. unfold link_step in Hs. destruct (end_step _ (here s) Start) as [e|] eqn:Ee; [|done]. injection Hs as <-.
  split; [done|]. destruct (start_starting _ _ _ Ee) as [_ [?|[Hst Hn]]]; cbn.
  - left. split; [done|]. destruct (end_step_tokens _ _ _ _ Ee) as [|(_ & ? & _)]; [done|congruence].
  - right. rewrite (li_next _ _ _ Hi), wrapping_succ in Hst, Hn. eexists. split; [reflexivity|]. split; [exact Hst|].
    split; [by apply (fresh_stage ph k s)|done].
Qed.

Lemma progress_mono ph k s ev s' t :
  link_inv ph k s → link_step s ev = Some s' → (k + (if is_start ev then 1 else 0) ≤ 256)%nat →
  (ph t ≤ progress s s' ev t (ph t) ≤ 4)%nat.
Proof.
  intros Hi Hs Hk. pose proof (li_bound _ _ _ Hi t). destruct (is_start ev) eqn:E; [|by apply progress_other].
  destruct ev as [[] []]; try done. cbn [progress].
  destruct (link_step_start ph k s s' Hi Hs) as [_ [[-> _]|(t' & _ & -> & H0 & _)]]; [lia|lia|].
  destruct (Z.eqb_spec t' t) as [<-|]; lia.
Qed.

Lemma drawn_step ph k s ev s' :
  link_inv ph k s → link_step s ev = Some s' → (k + (if is_start ev then 1 else 0) ≤ 256)%nat →
  ∃ k', (k' ≤ k + (if is_start ev then 1 else 0))%nat ∧ next_token (live (here s')) = Z.of_nat k' mod 256 ∧
    ∀ t, (1 ≤ progress s s' ev t (ph t))%nat → ∃ j, (1 ≤ j ≤ k')%nat ∧ t = Z.of_nat j mod 256.
Proof.
  intros Hi Hs Hk. destruct (is_start ev) eqn:E.
  - destruct ev as [[] []]; try done. cbn [progress].
    destruct (link_step_start ph k s s' Hi Hs) as [_ [[-> Hn]|(t' & Ht' & -> & _ & Hn)]]; [lia| |].
    + exists k. split; [lia|]. split; [by rewrite Hn, (li_next _ _ _ Hi)|]. apply (li_drawn _ _ _ Hi).
    + exists (S k). split; [lia|]. split; [congruence|]. intros t. destruct (Z.eqb_spec t' t) as [<-|].
      * exists (S k). split; [lia|done].
      * intros Ht. destruct (li_drawn _ _ _ Hi t Ht) as (j & ? & ->). exists j. split; [lia|done].
  - exists k. split; [lia|]. split.
    + rewrite <- (li_next _ _ _ Hi). destruct ev as [[] ev]; unfold link_step in Hs.
      * destruct (end_step _ _ ev) as [e|] eqn:Ee; [|done]. injection Hs as <-.
        destruct (end_step_tokens _ _ _ _ Ee) as [|[-> _]]; done.
      * destruct (end_step _ _ ev) as [e|] eqn:Ee; [|done]. by injection Hs as <-.
    + intros t Ht. apply (li_drawn _ _ _ Hi). by apply progress_other in Ht; [|done|apply (li_bound _ _ _ Hi)].
Qed.

Lemma link_step_ok ph k s ev s' :
  link_inv ph k s → link_step s ev = Some s' → event_bytes ev → (k + (if is_start ev then 1 else 0) ≤ 256)%nat →
  ∃ k', (k' ≤ k + (if is_start ev then 1 else 0))%nat ∧ link_inv (λ t, progress s s' ev t (ph t)) k' s'.
Proof.
  intros Hi Hs Hb Hk. pose proof (λ t, progress_mono ph k s ev s' t Hi Hs Hk) as Hm.
  destruct (drawn_step ph k s ev s' Hi Hs Hk) as (k' & Hk' & Hn & Hd). exists k'. split; [done|].
  set (ph' := λ t, progress s s' ev t (ph t)) in *.
  pose proof (end_ok_mono _ ph' _ _ _ _ _ (λ t, proj1 (Hm t)) (li_here _ _ _ Hi)) as Hh.
  pose proof (end_ok_mono _ ph' _ _ _ _ _ (λ t, proj1 (Hm t)) (li_there _ _ _ Hi)) as Ht.
  split; try done; [| |intros t; apply Hm]; destruct ev as [[] ev]; unfold link_step in Hs.
  - destruct (end_step (sent (there s)) (here s) ev) as [e|] eqn:Ee; [|done]. injection Hs as <-.
    apply (end_step_ok _ _ _ _ _ _ _ _ _ Hh Ee Hb). destruct ev; cbn [end_due]; try done; try (intros; lia).
    + intros t Ht'. unfold ph'. cbn. rewrite Ht', Z.eqb_refl. lia.
    + split; [intros; lia|]. intros t Et. destruct (received_from _ _ _ _ _ Ee) as (q & Hq & _ & Eq).
      pose proof Et as Et'. rewrite Eq in Et'. pose proof (eo_echoes _ _ _ _ _ _ (li_there _ _ _ Hi) q Hq t Et').
      unfold ph'. cbn [progress]. rewrite bool_decide_true by done. destruct (Nat.leb_spec 3 (ph t)); cbn; lia.
  - destruct (end_step _ _ ev) as [e|] eqn:Ee; [|done]. by injection Hs as <-.
  - destruct (end_step _ _ ev) as [e|] eqn:Ee; [|done]. by injection Hs as <-.
  - destruct (end_step (sent (here s)) (there s) ev) as [e|] eqn:Ee; [|done]. injection Hs as <-.
    apply (end_step_ok _ _ _ _ _ _ _ _ _ Ht Ee Hb). destruct ev; cbn [end_due]; try done; try (intros; lia).
    + intros p t Hl Et. unfold ph'. cbn [progress there]. rewrite Hl. cbn [mbind option_bind].
      rewrite bool_decide_true by done.
      assert (2 ≤ ph t)%nat; [|destruct (Nat.leb_spec 2 (ph t)); cbn; lia].
      cbn in Ee. destruct (sending (there s)) as [[p0 echo]|] eqn:Es; [|by destruct (starting (there s))].
      assert (e = mkEnd (live (there s)) (starting (there s)) None (claimed (there s))
        (sent (there s) ++ [send_mark (live (there s)) p0 echo])) as -> by (destruct (starting (there s)); by simplify_eq).
      cbn in Hl. rewrite last_snoc in Hl. injection Hl as <-.
      destruct (eo_sending _ _ _ _ _ _ (li_there _ _ _ Hi) p0 echo Es) as [Hb0 He0].
      pose proof (raw_ok_decode _ _ _ (eo_active _ _ _ _ _ _ (li_there _ _ _ Hi))) as Ha0.
      unfold send_mark in Et. rewrite (eo_enabled _ _ _ _ _ _ (li_there _ _ _ Hi)) in Et.
      destruct (marked_tokens p0 echo (active_probe (live (there s))) t Hb0) as [Hm' _]; [by eapply token_ok_byte..|].
      by apply He0, Hm'.
    + split; [|intros; lia]. intros t Et. destruct (received_from _ _ _ _ _ Ee) as (q & Hq & Eq & _).
      pose proof Et as Et'. rewrite Eq in Et'. pose proof (eo_probes _ _ _ _ _ _ (li_here _ _ _ Hi) q Hq t Et').
      unfold ph'. cbn [progress]. rewrite bool_decide_true by done. destruct (Nat.leb_spec 1 (ph t)); cbn; lia.
Qed.

Lemma link_run_ok evs ph k s s' :
  link_inv ph k s → link_run s evs = Some s' → Forall event_bytes evs → (k + starts evs ≤ 256)%nat →
  ∃ ph' k', link_inv ph' k' s' ∧ ∀ t, stage s evs t (ph t) = ph' t.
Proof.
  revert ph k s. induction evs as [|ev evs IH]; intros ph k s Hi Hr Hb Hk; cbn in Hr.
  - injection Hr as <-. by exists ph, k.
  - destruct (link_step s ev) as [s1|] eqn:Es; [|done]. apply Forall_cons in Hb as [Hb1 Hb].
    assert (starts (ev :: evs) = (if is_start ev then 1 else 0) + starts evs)%nat as Hst
      by (unfold starts; cbn; by destruct (is_start ev)).
    destruct (link_step_ok ph k s ev s1 Hi Es Hb1) as (k1 & Hk1 & Hi1); [lia|].
    destruct (IH _ k1 s1 Hi1 Hr Hb) as (ph' & k' & Hi' & Hp); [lia|]. exists ph', k'. split; [done|].
    intros t. cbn. by rewrite Es, Hp.
Qed.


(** A packet of the other end's traffic, and a round trip with it. *)
Definition demo_packet : ZCPacket.t :=
  default ZCPacket.new_nic_packet
    (p ← ZCPacket.new_with_payload [] [1; 2; 3]; ZCPacket.fill_peer_manager_hdr p 1 2 (packet_type_u8 Data)).
Definition on_packet (f : PeerManagerHeader.t → PeerManagerHeader.t) : ZCPacket.t :=
  default demo_packet (ZCPacket.update_peer_manager_header demo_packet f).
Definition probe_packet (t : Z) : ZCPacket.t := on_packet (λ h, set_liveness_probe h t).
Definition echo_packet (t : Z) : ZCPacket.t := on_packet (λ h, set_liveness_echo h t).

Definition round_trip (t : Z) (i : nat) : list (Side * EndEvent) :=
  [(Here, Start); (Here, Publish); (Here, Send demo_packet); (Here, Mark); (There, Receive i (probe_packet t));
   (There, Send demo_packet); (There, Mark); (Here, Receive i (echo_packet t)); (Here, Confirm)].


(** Tokens are bytes: after 256 more probes an echo that was under way all the time answers the
    new probe with the old token, which has reached nobody. *)
Example reused_token_takes_old_echo :
  let evs := [(Here, Start); (Here, Publish); (Here, Send demo_packet); (Here, Mark); (There, Receive 0 (probe_packet 1));
    (There, Send demo_packet); (There, Mark)] ++
    concat (map (λ j, [(Here, FinishActive (Z.of_nat j mod 256)); (Here, Start); (Here, Publish)]) (seq 1 256)) ++
    [(Here, Receive 0 (echo_packet 1)); (Here, Confirm)] in
  stage new_link evs 1 0 = 1%nat ∧ starts evs = 257%nat ∧
  (λ s, echo_arrived (live (here s)) 1) <$> link_run new_link evs = Some true.
Proof. vm_compute. split_and!; reflexivity. Qed.

(** ** The average of the last samples *)

(** The last [n] samples, with zeros before the first. *)
Definition recent (n : nat) (ls : list Z) : list Z := drop (length ls) (replicate n 0 ++ ls).
Definition total (l : list Z) : Z := foldr Z.add 0 l.

Lemma recent_length n ls : length (recent n ls) = n.
Proof. unfold recent. rewrite length_drop, length_app, length_replicate. lia. Qed.

Lemma recent_snoc n ls x old r : recent n ls = old :: r → recent n (ls ++ [x]) = r ++ [x].
Proof.
  intros Hr. pose proof (recent_length n ls) as Hn. rewrite Hr in Hn. cbn in Hn. unfold recent in *.
  rewrite app_assoc, length_app, drop_app_le by (rewrite !length_app, length_replicate; cbn; lia). f_equal.
  cbn [length]. by rewrite <- drop_drop, Hr.
Qed.

Lemma window_total_app l l' : total (l ++ l') = total l + total l'.
Proof. unfold total. induction l as [|x l IH]; cbn; [done|]. rewrite IH. lia. Qed.

(** The window after the samples [ls] is the recent samples, rotated. *)
Record window_ok (n : Z) (ls : list Z) (w : WindowLatency) : Prop := {
  wo_size : latency_us_window_size w = n;
  wo_index : latency_us_window_index w = len ls;
  wo_count : count w = Z.min (len ls) n;
  wo_window : ∃ a b, latency_us_window w = a ++ b ∧ len a = len ls mod n ∧ recent (Z.to_nat n) ls = b ++ a;
  wo_sum : latency_sum w = wrap 32 (total (recent (Z.to_nat n) ls)) }.

Lemma total_zeros n : total (replicate n 0) = 0.
Proof. unfold total. induction n as [|n IH]; cbn; [done|]. by rewrite IH. Qed.

Lemma new_window_ok n : 0 < n → window_ok n [] (new_window n).
Proof.
  intros Hn. assert (Hr : recent (Z.to_nat n) [] = replicate (Z.to_nat n) 0) by (unfold recent; cbn; by rewrite app_nil_r).
  split; try done; cbn [new_window count latency_us_window latency_sum].
  - unfold len. cbn. lia.
  - exists [], (replicate (Z.to_nat n) 0). by rewrite Hr, app_nil_r.
  - by rewrite Hr, total_zeros.
Qed.

Lemma record_latency_ok n ls w x :
  0 < n < 2 ^ 32 → len ls + 1 < 2 ^ 32 → window_ok n ls w →
  ∃ w', record_latency w x = Some w' ∧ window_ok n (ls ++ [x]) w'.
Proof.
  intros Hn Hl [Hs Hi Hc (a & b & Hw & Ha & Hr) Hsum]. pose proof (len_nonneg ls).
  pose proof (Z.mod_pos_bound (len ls) n ltac:(lia)) as Hm.
  assert (Hab : len b + len a = n).
  { pose proof (recent_length (Z.to_nat n) ls) as Hx. rewrite Hr, length_app in Hx. unfold len in *. lia. }
  destruct b as [|old b]; [change (len (@nil Z)) with 0 in Hab; lia|]. rewrite len_cons in Hab.
  assert (Hx : Z.to_nat (len ls mod n) = length a) by (unfold len in *; lia).
  unfold record_latency. rewrite Hs, Hi, Hw, Hc. destruct (Z.eqb_spec n 0); [lia|].
  unfold index. rewrite (proj2 (Z.leb_le 0 (len ls mod n))) by lia. rewrite Hx, list_lookup_middle by done. cbn [mbind option_bind].
  rewrite insert_app_r_alt, Nat.sub_diag by lia. cbn [list_insert]. eexists. split; [done|].
  assert (Hr' : recent (Z.to_nat n) (ls ++ [x]) = b ++ a ++ [x]) by (rewrite app_assoc; eapply recent_snoc, Hr).
  assert (Htot : total (b ++ a ++ [x]) = total (recent (Z.to_nat n) ls) - old + x)
    by (rewrite Hr; change (total ((old :: b) ++ a)) with (old + total (b ++ a)); rewrite app_assoc, !window_total_app; cbn; lia).
  split; cbn [latency_us_window_size latency_us_window_index count latency_us_window latency_sum]; try done.
  - rewrite len_snoc. apply wrapping_add_small. unfold is_uint. lia.
  - rewrite len_snoc. destruct (Z.ltb_spec (Z.min (len ls) n) n); [|lia]. rewrite wrapping_add_small by (unfold is_uint; lia). lia.
  - rewrite len_snoc, Hr'. destruct b as [|old' b].
    + exists [], (a ++ [x]). split; [done|]. split; [|by rewrite app_nil_r].
      cbn. replace (len ls + 1) with ((len ls / n + 1) * n); [by rewrite Z.mod_mul by lia|].
      pose proof (Z.div_mod (len ls) n). change (len (@nil Z)) with 0 in Hab. lia.
    + exists (a ++ [x]), (old' :: b). split; [by rewrite <- app_assoc|]. split; [|done].
      rewrite len_snoc, Ha. rewrite len_cons in Hab. pose proof (len_nonneg b).
      symmetry. rewrite <- (Z.mod_small (len ls mod n + 1) n) by lia. by rewrite Zplus_mod_idemp_l.
  - rewrite Hr', Htot, Hsum. unfold wrapping_add, wrapping_sub, wrap.
    destruct (old <? x); [rewrite Zplus_mod_idemp_l|rewrite Zminus_mod_idemp_l]; f_equal; lia.
Qed.

Definition record_all (w : WindowLatency) (ls : list Z) : option WindowLatency := try_fold record_latency ls w.

Lemma record_all_ok n ls :
  0 < n < 2 ^ 32 → len ls < 2 ^ 32 → ∃ w, record_all (new_window n) ls = Some w ∧ window_ok n ls w.
Proof.
  intros Hn. induction ls as [|x ls IH] using rev_ind; intros Hl.
  - eexists. split; [done|]. apply new_window_ok. lia.
  - rewrite len_snoc in Hl. destruct IH as (w & E & Hw); [lia|].
    destruct (record_latency_ok n ls w x Hn) as (w' & E' & Hw'); [lia|done|]. exists w'. split; [|done].
    unfold record_all in *. rewrite try_fold_app, E. cbn. by rewrite E'.
Qed.

(** The average of a connection is that of its last samples, 15 of them, or of all while there are
    fewer: it counts no sample twice and forgets none too early. *)
Theorem average_of_recent n ls :
  0 < n < 2 ^ 32 → len ls < 2 ^ 32 → 0 <= total (recent (Z.to_nat n) ls) < 2 ^ 32 →
  ∃ w, record_all (new_window n) ls = Some w ∧
    get_latency_us w = if len ls =? 0 then 0 else total (recent (Z.to_nat n) ls) / Z.min (len ls) n.
Proof.
  intros Hn Hl Ht. destruct (record_all_ok n ls Hn Hl) as (w & E & Hw). exists w. split; [done|].
  unfold get_latency_us. rewrite (wo_count _ _ _ Hw), (wo_sum _ _ _ Hw). unfold wrap. rewrite Z.mod_small by done.
  pose proof (len_nonneg ls). destruct (Z.eqb_spec (Z.min (len ls) n) 0), (Z.eqb_spec (len ls) 0); try done; lia.
Qed.

Lemma average_of_recent_witness :
  get_latency_us <$> record_all (new_window 3) [900; 10; 20; 60] = Some 30.
Proof.
  destruct (average_of_recent 3 [900; 10; 20; 60]) as (w & -> & Hw); [lia|vm_compute; reflexivity|vm_compute; split; congruence|].
  cbn [fmap option_fmap option_map]. rewrite Hw. vm_compute. reflexivity.
Defined.

(** ** Pings keep coming *)

Definition gap (c : PingIntervalController) : Z := wrapping_sub 64 (logic_time c) (last_send_logic_time c).

Record controller_ok (interval : Z) (c : PingIntervalController) : Prop := {
  co_idx : 0 <= backoff_idx c <= 5;
  co_gap : 0 <= gap c < Z.min 32 interval }.

Lemma gap_tick c : 0 <= gap c < 32 → gap (tick c) = gap c + 1.
Proof.
  unfold gap, tick, wrapping_sub, wrapping_add, wrap. cbn [logic_time last_send_logic_time]. intros Hg.
  rewrite Zminus_mod_idemp_l. replace (logic_time c + 1 - last_send_logic_time c) with (logic_time c - last_send_logic_time c + 1) by lia.
  rewrite <- Zplus_mod_idemp_l. apply Z.mod_small. lia.
Qed.

Lemma backoff_interval idx : 0 <= idx <= 5 → 1 <= wrap 64 (Z.shiftl 1 idx) <= 32.
Proof.
  intros Hi. assert (idx = 0 ∨ idx = 1 ∨ idx = 2 ∨ idx = 3 ∨ idx = 4 ∨ idx = 5) as Hc by lia.
  destruct Hc as [->|[->|[->|[->|[->| ->]]]]]; vm_compute; split; discriminate.
Qed.

(** A round with losses, with fast pings or after a long enough pause sends. *)
Lemma controller_round_ok interval c r :
  1 <= interval → controller_ok interval c →
  let '(c', sends) := controller_round interval c r in
  controller_ok interval c' ∧ (if sends then gap c' = 0 else gap c' = gap c + 1) ∧
  (fast_ping r || (0 <? losses r) = true → sends = true).
Proof.
  intros Hi [Hidx Hgap]. assert (Ht : gap (tick c) = gap c + 1) by (apply gap_tick; lia).
  unfold controller_round, should_send_ping. cbn [with_max_interval max_interval logic_time last_send_logic_time last_tx last_rx backoff_idx].
  change (wrapping_sub 64 (logic_time (tick c)) (last_send_logic_time (tick c))) with (gap (tick c)). rewrite Ht.
  set (idx := if 0 <? losses r then 0 else _).
  assert (Hx : 0 <= idx <= 5) by (unfold idx; repeat case_match; cbn; lia).
  pose proof (backoff_interval idx Hx) as Hb.
  assert (Hz : fast_ping r || (0 <? losses r) = true → Z.min (wrap 64 (Z.shiftl 1 idx)) (if fast_ping r then 1 else interval) = 1).
  { intros Hf. destruct (fast_ping r); [lia|]. cbn in Hf. unfold idx. rewrite Hf. change (wrap 64 (Z.shiftl 1 0)) with 1. lia. }
  set (limit := Z.min (wrap 64 (Z.shiftl 1 idx)) (if fast_ping r then 1 else interval)) in *. assert (Hlim : limit <= Z.min 32 interval) by (unfold limit; destruct (fast_ping r); lia).
  destruct (Z.ltb_spec (gap c + 1) limit) as [Hlt|Hge].
  - split; [|split; [|intros Hf; specialize (Hz Hf); lia]].
    + split; [done|]. change (gap _) with (gap (tick c)). lia.
    + exact Ht.
  - set (idx' := if (_ <? _) && coin r then _ else _).
    assert (0 <= idx' <= 5) by (unfold idx', max_backoff_idx; case_match; bool_to_prop; lia).
    assert (Hg0 : ∀ i a b d, gap (mkController i a a b d (rx_packets r)) = 0)
      by (intros; unfold gap, wrapping_sub; cbn; by rewrite Z.sub_diag).
    split; [split; [done|rewrite Hg0; lia]|]. split; [apply Hg0|done].
Qed.

Lemma controller_run_ok interval rs c :
  1 <= interval → controller_ok interval c →
  let '(c', sends) := controller_run interval c rs in
  controller_ok interval c' ∧ (true ∉ sends → gap c' = gap c + len rs).
Proof.
  intros Hi. revert c. induction rs as [|r rs IH]; intros c Hc; cbn [controller_run].
  - split; [done|]. intros _. change (len (@nil PingRound)) with 0. lia.
  - pose proof (controller_round_ok interval c r Hi Hc) as Hr. destruct (controller_round interval c r) as [c1 b].
    destruct Hr as (Hc1 & Hg & _). specialize (IH c1 Hc1). destruct (controller_run interval c1 rs) as [c2 bs].
    destruct IH as [Hc2 Hn]. split; [done|]. intros Hs. rewrite len_cons. destruct b; [by destruct Hs; left|].
    rewrite Hn by (intros ?; apply Hs; by right). lia.
Qed.

(** The connection is pinged for ever: however the counters, the coin and the losses come, in
    any [min(32, max_interval)] rounds of one second in a row there is a ping, and a round with fast
    pings or after a loss has one itself. *)
Theorem pings_keep_coming interval tx rx before rs :
  1 <= interval →
  let c := (controller_run interval (new_controller interval tx rx) before).1 in
  (Z.min 32 interval <= len rs → true ∈ (controller_run interval c rs).2) ∧
  ∀ r, fast_ping r || (0 <? losses r) = true → (controller_round interval c r).2 = true.
Proof.
  intros Hi c. assert (Hc : controller_ok interval c).
  { pose proof (controller_run_ok interval before (new_controller interval tx rx) Hi) as Hr.
    unfold c. destruct (controller_run _ _ before). apply Hr.
    split; [cbn; lia|]. change (gap (new_controller interval tx rx)) with 0. lia. }
  split.
  - intros Hl. pose proof (controller_run_ok interval rs c Hi Hc) as Hr. destruct (controller_run interval c rs) as [c' sends].
    destruct Hr as [[_ Hg] Hn]. destruct (decide (true ∈ sends)) as [|Hs]; [done|]. specialize (Hn Hs).
    destruct Hc as [_ Hgc]. lia.
  - intros r Hf. pose proof (controller_round_ok interval c r Hi Hc) as Hr. destruct (controller_round interval c r) as [c' sends].
    by apply Hr.
Qed.

(** Quiet connections: pings after 1, 3 and 7 seconds. *)
Definition quiet : PingRound := mkRound false 0 0 0 false.

Lemma pings_keep_coming_witness :
  (controller_run 32 (new_controller 32 0 0) (repeat quiet 8)).2 = [true; false; true; false; false; false; true; false] ∧
  true ∈ (controller_run 32 (controller_run 32 (new_controller 32 0 0) (repeat quiet 7)).1 (repeat quiet 32)).2.
Proof.
  split; [vm_compute; reflexivity|]. apply (pings_keep_coming 32 0 0 (repeat quiet 7) (repeat quiet 32)); [lia|].
  vm_compute. discriminate.
Defined.

(** ** A dead peer is given up *)

(** The first [k] outcomes are failures. *)
Definition lost {A E} (k : nat) (rets : list (result A E)) : Prop :=
  (k ≤ length rets)%nat ∧ Forall (λ r, is_ok r = false) (take k rets).

Definition five_lost {A E} (rets : list (result A E)) : Prop := ∃ i, lost 5 (drop i rets).

Lemma lost_cons {A E} k (r : result A E) rets : lost (S k) (r :: rets) ↔ is_ok r = false ∧ lost k rets.
Proof. unfold lost. cbn. rewrite Forall_cons. split; intros; (split_and!; try tauto; lia). Qed.

Lemma lost_le {A E} k k' (rets : list (result A E)) : (k ≤ k')%nat → lost k' rets → lost k rets.
Proof.
  intros Hk [Hl Hf]. split; [lia|]. replace (take k rets) with (take k (take k' rets)) by (rewrite take_take; f_equal; lia).
  by apply Forall_take.
Qed.

Lemma five_lost_cons {A E} (r : result A E) rets : five_lost (r :: rets) ↔ lost 5 (r :: rets) ∨ five_lost rets.
Proof.
  split.
  - intros [[|i] Hi]; [by left|]. right. by exists i.
  - intros [H|[i Hi]]; [by exists 0%nat|by exists (S i)].
Qed.

Definition window_wf (w : WindowLatency) : Prop :=
  0 < latency_us_window_size w ∧ len (latency_us_window w) = latency_us_window_size w.

Lemma record_latency_total w x : window_wf w → ∃ w', record_latency w x = Some w' ∧ window_wf w'.
Proof.
  intros [Hn Hl]. unfold record_latency. destruct (Z.eqb_spec (latency_us_window_size w) 0); [lia|].
  pose proof (Z.mod_pos_bound (latency_us_window_index w) (latency_us_window_size w) Hn).
  destruct (index_Some (latency_us_window w) (latency_us_window_index w mod latency_us_window_size w)) as (old & -> & _); [lia|].
  eexists. split; [done|]. split; [done|]. cbn. unfold len in *. by rewrite length_insert.
Qed.

Lemma new_window_wf n : 0 < n → window_wf (new_window n).
Proof. intros. split; [done|]. cbn. unfold len. rewrite length_replicate. lia. Qed.

Definition pinger_ok (k : nat) (st : PeerConnPinger) : Prop :=
  loss_counter st = 5 - Z.of_nat k ∧ window_wf (loss_rate_stats_1 st) ∧ window_wf (latency_stats st).

Lemma ping_end_ok k st L token ret :
  pinger_ok (S k) st → (k < 5)%nat →
  ∃ st' L' closed, ping_end st L token ret = Some (st', L', closed) ∧
    (if is_ok ret then closed = false ∧ pinger_ok 5 st' else closed = (k =? 0)%nat ∧ pinger_ok k st').
Proof.
  intros (Hc & Hr & Hl) Hk. unfold ping_end. destruct ret as [response|e]; cbn [is_ok].
  - destruct (record_latency_total _ 0 Hr) as (rates & -> & Hr').
    destruct response as [lat|].
    + destruct (record_latency_total _ (wrap 32 lat) Hl) as (ls & -> & Hl'). do 3 eexists. split; [done|].
      split; [done|]. split; [done|by split].
    + do 3 eexists. split; [done|]. split; [done|]. split; [done|by split].
  - destruct (record_latency_total _ 1 Hr) as (rates & -> & Hr'). do 3 eexists. split; [done|].
    rewrite Hc, wrapping_add_small by (unfold is_uint; lia). split; [|split; [cbn; lia|by split]].
    destruct (Nat.eqb_spec k 0), (Z.leb_spec 5 (5 - Z.of_nat (S k) + 1)); done || lia.
Qed.

Lemma pingpong_ok rounds k st L :
  pinger_ok (S k) st → (k < 5)%nat →
  ∃ st' closed, pingpong st L rounds = Some (st', closed) ∧
    (closed = true ↔ lost (S k) rounds.*2 ∨ five_lost rounds.*2).
Proof.
  revert k st L. induction rounds as [|[others ret] rounds IH]; intros k st L Hst Hk; cbn [pingpong].
  - exists st, false. split; [done|]. split; [done|]. intros [[Hl _]|[i [Hl _]]]; [cbn in Hl; lia|].
    change ((@nil ((PeerConnLiveness → PeerConnLiveness) * result PingResponse PingError)).*2) with (@nil (result PingResponse PingError)) in Hl.
    rewrite drop_nil in Hl. cbn in Hl. lia.
  - destruct (ping_begin st L) as [L1 token].
    destruct (ping_end_ok k st (others L1) token ret Hst Hk) as (st' & L' & closed & -> & Hr).
    rewrite fmap_cons. cbn [snd]. pose proof (five_lost_cons ret rounds.*2) as F5.
    rewrite lost_cons in F5. pose proof (lost_cons k ret rounds.*2) as Fk. destruct (is_ok ret) eqn:Er.
    + destruct Hr as [-> Hst']. destruct (IH 4%nat st' L' Hst') as (st2 & c2 & -> & Hc); [lia|].
      exists st2, c2. split; [done|]. rewrite Hc, F5, Fk. split; [|naive_solver].
      intros [Hl|Hl]; right; right; [by exists 0%nat|done].
    + destruct Hr as [-> Hst']. destruct k as [|k]; cbn [Nat.eqb].
      * exists st', true. split; [done|]. split; [|done]. intros _. left. apply Fk. split; [done|]. split; [lia|constructor].
      * destruct (IH k st' L' Hst') as (st2 & c2 & -> & Hc); [lia|]. exists st2, c2. split; [done|]. rewrite Hc, F5, Fk.
        split; [naive_solver|]. intros [[_ Hl]|[[_ Hl]|Hl]]; [by left| |by right]. left. eapply lost_le; [|done]. lia.
Qed.


(** Three losses, an echo, then five losses. *)
Definition lossy_rounds : list ((PeerConnLiveness → PeerConnLiveness) * result PingResponse PingError) :=
  let fails := repeat (id, Err WaitTimeout) in fails 3%nat ++ [(id, Ok LivenessEcho)] ++ fails 5%nat ++ [(id, Ok (PongAfter 9))].


(** ** Requests and answers *)

(** A measured round trip belongs to the request: some pong that arrived begins with its number. *)
Lemma pong_has_sequence seq token arrivals lat :
  await_response seq token arrivals = Some (Ok (PongAfter lat)) →
  ∃ p payload seq_buf, PongPacket p lat ∈ arrivals ∧ ZCPacket.payload p = Some payload ∧
    slice_range payload 0 4 = Some seq_buf ∧ from_le seq_buf = seq.
Proof.
  induction arrivals as [|[p elapsed| |] arrivals IH]; cbn [await_response]; [done| |done|].
  - destruct (ZCPacket.payload p) as [payload|] eqn:Ep; cbn; [|done].
    destruct (slice_range payload 0 4) as [buf|] eqn:Es; cbn; [|done].
    destruct (Z.eqb_spec (from_le buf) seq) as [Hseq|].
    + intros [= ->]. exists p, payload, buf. split_and!; try done. by left.
    + intros H. destruct (IH H) as (q & ? & ? & Hin & ?). do 3 eexists. split; [by right|done].
  - destruct token; [done|]. intros H. destruct (IH H) as (q & ? & ? & Hin & ?). do 3 eexists. split; [by right|done].
Qed.

(** A pong without the four bytes panics the pinger, whose connection is then neither pinged
    nor closed. *)
Example short_pong_panics :
  (p ← ZCPacket.new_with_payload [] [7; 7]; await_response 0 None [PongPacket p 1000]) = None ∧
  is_Some (ZCPacket.new_with_payload [] [7; 7]).
Proof. split; [vm_compute; reflexivity|]. vm_compute. eauto. Qed.

(** A request that is answered counts as answered. *)
Lemma ping_answered uninit me peer seq elapsed :
  is_uint 32 seq →
  ∃ ping pong, new_ping_packet uninit me peer seq = Some ping ∧ answer_ping ping = Some pong ∧
    await_response seq None [PongPacket pong elapsed] = Some (Ok (PongAfter elapsed)).
Proof.
  intros Hs. destruct (PacketFacts.new_with_payload_layout uninit (to_le 4 seq)) as (a & b & Ha & Hb & E).
  set (p := ZCPacket.mk (a ++ b ++ to_le 4 seq) NIC None) in *.
  set (hdr := PeerManagerHeader.mk me peer (packet_type_u8 Ping) 0 1 0 (wrap 32 (ZCPacket.payload_len p))).
  pose proof (PacketFacts.fill_pm_header_spec p me peer (packet_type_u8 Ping) a b (to_le 4 seq) eq_refl Ha Hb) as Ef.
  set (ping := ZCPacket.with_inner p (a ++ PeerManagerHeader.to_bytes hdr ++ to_le 4 seq)).
  destruct (PacketFacts.update_pm_header_spec ping (λ h, PeerManagerHeader.with_packet_type h (packet_type_u8 Packet.Pong))
    a (PeerManagerHeader.to_bytes hdr) (to_le 4 seq) eq_refl Ha (PacketFacts.pm_header_len hdr)) as (h & _ & Eu).
  eexists ping, _. split; [|split; [exact Eu|]].
  - unfold new_ping_packet. rewrite E. exact Ef.
  - edestruct PacketFacts.buffer_views as (_ & Hpl & _); [| | |cbn [await_response]; rewrite Hpl]; [reflexivity|exact Ha|apply PacketFacts.pm_header_len|].
    cbn [mbind option_bind]. rewrite <- (app_nil_r (to_le 4 seq)).
    rewrite (slice_range_app [] (to_le 4 seq) []) by (rewrite ?len_to_le; done).
    cbn [mbind option_bind]. rewrite to_le_roundtrip by exact Hs. by rewrite Z.eqb_refl.
Qed.
