(* ===== verification/PeerConns.v ===== *)
(** * The connections of a peer

    Models easytier-core/src/peers/conn/peer.rs and peer_flow.rs: the connections over which one
    peer is reached, the cached default among them, and the binding of flows to connections.

    A connection is shared by one [Arc], so its id stands for the pointer: [arcs] holds what the
    ids lead to, [conns] the ids in the map of the peer.  The calls, the tasks and the drivers of the connections
    interleave: [peer_step] runs one of them up to its next access of shared state; what runs
    under a lock is one step.  A step that is not possible is [None].  The hash of a flow, the order of
    a map, the clock and the result of a send are arguments. *)

From stdpp Require Import base gmap list numbers sets.
From Stdlib Require Import ZArith Lia.
From S2P Require Import Prelude Packet RouteService.
Local Open Scope Z_scope.

(** ** Connections *)

Inductive PeerConnectionOrigin : Type := Manual | Direct | Listener | TcpHolePunch | UdpHolePunch | Attached.

#[export] Instance origin_eq_dec : EqDecision PeerConnectionOrigin.
Proof. solve_decision. Defined.

(** What a peer knows of a connection; [latency_us] is the average of its last pings. *)
Record PeerConn : Type := mkConn {
  conn_id : Z; get_peer_id : Z; get_peer_identity_type : PeerIdentityType; noise_remote_static_pubkey : list Z;
  origin : PeerConnectionOrigin; is_closed : bool; latency_us : Z; fast_ping : bool }.

Definition is_attached (c : PeerConn) : bool := bool_decide (origin c = Attached).
Definition is_hole_punched (c : PeerConn) : bool :=
  match origin c with TcpHolePunch | UdpHolePunch => true | _ => false end.
Definition max_ping_interval (c : PeerConn) : Z := match origin c with TcpHolePunch => 1 | _ => 32 end.

Definition notify_close (c : PeerConn) : PeerConn :=
  mkConn (conn_id c) (get_peer_id c) (get_peer_identity_type c) (noise_remote_static_pubkey c) (origin c) true
    (latency_us c) (fast_ping c).
Definition with_latency (c : PeerConn) (latency : Z) : PeerConn :=
  mkConn (conn_id c) (get_peer_id c) (get_peer_identity_type c) (noise_remote_static_pubkey c) (origin c) (is_closed c)
    latency (fast_ping c).
Definition with_fast_ping (c : PeerConn) (fast : bool) : PeerConn :=
  mkConn (conn_id c) (get_peer_id c) (get_peer_identity_type c) (noise_remote_static_pubkey c) (origin c) (is_closed c)
    (latency_us c) fast.

(** Measured connections first, by latency; hole punched ones last until they are measured. *)
Definition conn_selection_key (c : PeerConn) : Z * Z :=
  (if 0 <? latency_us c then 0 else if is_hole_punched c then 2 else 1, latency_us c).

Definition key_lt (a b : Z * Z) : bool := (a.1 <? b.1) || ((a.1 =? b.1) && (a.2 <? b.2)).

(** [min_by_key]: the first of the least. *)
Fixpoint min_by_key {A} (key : A → Z * Z) (l : list A) : option A :=
  match l with
  | [] => None
  | a :: l =>
      match min_by_key key l with
      | Some b => if key_lt (key b) (key a) then Some b else Some a
      | None => Some a
      end
  end.

(** ** Flow bindings *)

Record FlowBinding : Type := mkBinding { fb_conn_id : Z; last_active : Z }.

Definition BUCKETS : Z := 4096.
Definition IDLE_TIMEOUT : Z := 120.

(** ** The peer *)

(** Where a call of [add_peer_conn] is: before the load of the identity, before its store, before
    the check of the key, before the insertion, before its last task is started. *)
Inductive AddStage : Type := LoadIdentity | StoreIdentity | CheckKey | InsertConn | SpawnWatcher.

(** The listener of the close events: waiting, before [is_empty], before the store of the
    identity, before that of the key. *)
Inductive ListenerStage : Type := Idle | CheckEmpty | ResetIdentity | ResetKey.

Record Peer : Type := mkPeer {
  arcs : gmap Z PeerConn;
  conns : gset Z;
  default_conn : option Z;
  flow_bindings : gmap Z FlowBinding;
  data_active : bool;
  peer_identity_type : option PeerIdentityType;
  peer_public_key : option (list Z);
  close_events : list Z;
  watchers : gset Z;                 (* connections whose close is waited for *)
  listener : ListenerStage;
  adding : gmap Z AddStage           (* the calls under way, by their connection *) }.

Definition new_peer : Peer := mkPeer ∅ ∅ None ∅ false None None [] ∅ Idle ∅.

Definition CLOSE_EVENTS : Z := 10.

Section Fields.
Context (p : Peer).
Definition set_arcs v := mkPeer v (conns p) (default_conn p) (flow_bindings p) (data_active p) (peer_identity_type p)
  (peer_public_key p) (close_events p) (watchers p) (listener p) (adding p).
Definition set_conns v := mkPeer (arcs p) v (default_conn p) (flow_bindings p) (data_active p) (peer_identity_type p)
  (peer_public_key p) (close_events p) (watchers p) (listener p) (adding p).
Definition set_default v := mkPeer (arcs p) (conns p) v (flow_bindings p) (data_active p) (peer_identity_type p)
  (peer_public_key p) (close_events p) (watchers p) (listener p) (adding p).
Definition set_bindings v := mkPeer (arcs p) (conns p) (default_conn p) v (data_active p) (peer_identity_type p)
  (peer_public_key p) (close_events p) (watchers p) (listener p) (adding p).
Definition set_active v := mkPeer (arcs p) (conns p) (default_conn p) (flow_bindings p) v (peer_identity_type p)
  (peer_public_key p) (close_events p) (watchers p) (listener p) (adding p).
Definition set_identity v := mkPeer (arcs p) (conns p) (default_conn p) (flow_bindings p) (data_active p) v
  (peer_public_key p) (close_events p) (watchers p) (listener p) (adding p).
Definition set_key v := mkPeer (arcs p) (conns p) (default_conn p) (flow_bindings p) (data_active p) (peer_identity_type p)
  v (close_events p) (watchers p) (listener p) (adding p).
Definition set_events v := mkPeer (arcs p) (conns p) (default_conn p) (flow_bindings p) (data_active p) (peer_identity_type p)
  (peer_public_key p) v (watchers p) (listener p) (adding p).
Definition set_watchers v := mkPeer (arcs p) (conns p) (default_conn p) (flow_bindings p) (data_active p)
  (peer_identity_type p) (peer_public_key p) (close_events p) v (listener p) (adding p).
Definition set_listener v := mkPeer (arcs p) (conns p) (default_conn p) (flow_bindings p) (data_active p)
  (peer_identity_type p) (peer_public_key p) (close_events p) (watchers p) v (adding p).
Definition set_adding v := mkPeer (arcs p) (conns p) (default_conn p) (flow_bindings p) (data_active p)
  (peer_identity_type p) (peer_public_key p) (close_events p) (watchers p) (listener p) v.
End Fields.

Definition update_arc (p : Peer) (id : Z) (f : PeerConn → PeerConn) : Peer := set_arcs p (alter f id (arcs p)).

Definition arc_open (p : Peer) (id : Z) : bool := from_option (λ c, negb (is_closed c)) false (arcs p !! id).

(** *** Adding a connection *)

Inductive AddOutcome : Type := Continue (stage : AddStage) | Return (ok : bool).

(** The stages of [add_peer_conn]; [Return false] is the error of a secret key. *)
Definition add_action (p : Peer) (c : PeerConn) (stage : AddStage) : Peer * AddOutcome :=
  match stage with
  | LoadIdentity =>
      match peer_identity_type p with
      | Some t => if bool_decide (t = get_peer_identity_type c) then (p, Continue CheckKey) else (p, Return false)
      | None => (p, Continue StoreIdentity)
      end
  | StoreIdentity => (set_identity p (Some (get_peer_identity_type c)), Continue CheckKey)
  | CheckKey =>
      match peer_public_key p with
      | Some k => if bool_decide (k = noise_remote_static_pubkey c) then (p, Continue InsertConn) else (p, Return false)
      | None => (set_key p (Some (noise_remote_static_pubkey c)), Continue InsertConn)
      end
  | InsertConn => (set_conns p ({[conn_id c]} ∪ conns p), Continue SpawnWatcher)
  | SpawnWatcher => (set_watchers p ({[conn_id c]} ∪ watchers p), Return true)
  end.

(** A refused connection is dropped, which closes it. *)
Definition add_step (p : Peer) (id : Z) : option (Peer * option bool) :=
  stage ← adding p !! id;
  c ← arcs p !! id;
  match add_action p c stage with
  | (p, Continue stage) => Some (set_adding p (<[id := stage]> (adding p)), None)
  | (p, Return ok) =>
      let p := set_adding p (delete id (adding p)) in
      Some (if ok then p else update_arc p id notify_close, Some ok)
  end.

(** The call begins; a version 4 id is not drawn twice. *)
Definition add_begin (p : Peer) (c : PeerConn) : option Peer :=
  match arcs p !! conn_id c with
  | Some _ => None
  | None => Some (set_adding (set_arcs p (<[conn_id c := c]> (arcs p))) (<[conn_id c := LoadIdentity]> (adding p)))
  end.

(** The whole call, without an interruption: five stages at most. *)
Fixpoint add_rest (fuel : nat) (p : Peer) (id : Z) : option (Peer * bool) :=
  match fuel with
  | O => None
  | S fuel =>
      match add_step p id with
      | Some (p, Some ok) => Some (p, ok)
      | Some (p, None) => add_rest fuel p id
      | None => None
      end
  end.

Definition add_peer_conn (p : Peer) (c : PeerConn) : option (Peer * bool) := p ← add_begin p c; add_rest 5 p (conn_id c).

(** *** Closing *)

Definition push_event (p : Peer) (id : Z) : option Peer :=
  if len (close_events p) <? CLOSE_EVENTS then Some (set_events p (close_events p ++ [id])) else None.

(** The task of a connection, when it is closed. *)
Definition watcher_step (p : Peer) (id : Z) : option Peer :=
  if bool_decide (id ∈ watchers p) && negb (arc_open p id) then push_event (set_watchers p (watchers p ∖ {[id]})) id else None.

(** [Ok (None)] waits for room in the channel. *)
Definition close_peer_conn (p : Peer) (id : Z) : option (Peer * bool) :=
  if bool_decide (id ∈ conns p) then p ← push_event p id; Some (p, true) else Some (p, false).

Definition listener_step (p : Peer) : option Peer :=
  match listener p with
  | Idle =>
      match close_events p with
      | [] => None
      | id :: rest =>
          let p := set_events p rest in
          Some (if bool_decide (id ∈ conns p) then
                  let p := set_conns p (conns p ∖ {[id]}) in
                  let p := if bool_decide (default_conn p = Some id) then set_default p None else p in
                  set_listener p CheckEmpty
                else p)
      end
  | CheckEmpty => Some (set_listener p (if bool_decide (conns p = ∅) then ResetIdentity else Idle))
  | ResetIdentity => Some (set_listener (set_identity p None) ResetKey)
  | ResetKey => Some (set_listener (set_key p None) Idle)
  end.

(** The task that runs every five seconds. *)
Definition clear_step (p : Peer) : Peer :=
  let many := (1 <? size (conns p))%nat in
  let p := if many then set_default p None else p in
  let fast := many && data_active p in
  set_arcs (set_active p false)
    (map_imap (λ id c, Some (if bool_decide (id ∈ conns p) then with_fast_ping c fast else c)) (arcs p)).

(** *** Choosing a connection *)

Section Choose.
Context `{HashIter} (hash_one : FlowKey → Z).

(** The connections in the order of the map. *)
Definition listed (p : Peer) : list PeerConn := omap (λ e, arcs p !! e.1) (iter (gset_to_gmap () (conns p))).

Definition best_conn (p : Peer) : option Z :=
  conn_id <$> min_by_key conn_selection_key (List.filter (λ c, negb (is_closed c)) (listed p)).

Definition usable_default (p : Peer) : option Z :=
  match default_conn p with Some id => if arc_open p id then Some id else None | None => None end.

Definition select_conn (p : Peer) : Peer * option Z :=
  match usable_default p with
  | Some id => (p, Some id)
  | None => (match best_conn p with Some id => set_default p (Some id) | None => p end, best_conn p)
  end.

Definition bucket (key : FlowKey) : Z := hash_one key mod BUCKETS.

Definition bind (p : Peer) (b id now : Z) : Peer := set_bindings p (<[b := mkBinding id now]> (flow_bindings p)).

(** The connection that the flow's bucket is bound to, when it may be used. *)
Definition bound_conn (p : Peer) (b now : Z) : option Z :=
  match flow_bindings p !! b with
  | Some fb =>
      if (saturating_sub now (last_active fb) <? IDLE_TIMEOUT) && bool_decide (fb_conn_id fb ∈ conns p) && arc_open p (fb_conn_id fb)
      then Some (fb_conn_id fb) else None
  | None => None
  end.

Definition select_flow_conn (p : Peer) (key : FlowKey) (now : Z) : Peer * option Z :=
  let b := bucket key in
  match bound_conn p b now with
  | Some id => (bind p b id now, Some id)
  | None =>
      let '(p, selected) := select_conn p in
      (match selected with Some id => bind p b id now | None => p end, selected)
  end.

(** The connection that [try_send_msg] sends on; [None] gives the packet back. *)
Definition choose_conn (p : Peer) (flow_key : option FlowKey) (is_data : bool) (now : Z) : Peer * option Z :=
  let p := if is_data then set_active p true else p in
  match flow_key with
  | Some key => select_flow_conn p key now
  | None =>
      match usable_default p with
      | Some id => (p, Some id)
      | None => select_conn p
      end
  end.

Inductive SendResult : Type := SentOver (id : Z) | SendFailed (id : Z) | NoConnection.

(** [sink_ok]: the tunnel takes the packet; otherwise the connection is closed. *)
Definition try_send_msg (p : Peer) (flow_key : option FlowKey) (is_data : bool) (now : Z) (sink_ok : bool) : Peer * SendResult :=
  match choose_conn p flow_key is_data now with
  | (p, Some id) => if sink_ok then (p, SentOver id) else (update_arc p id notify_close, SendFailed id)
  | (p, None) => (p, NoConnection)
  end.

(** *** Questions *)

Definition has_live_conns (p : Peer) : bool :=
  from_option (arc_open p) false (default_conn p) || existsb (λ c, negb (is_closed c)) (listed p).
Definition has_directly_connected_conn (p : Peer) : bool :=
  existsb (λ c, negb (is_closed c) && negb (is_hole_punched c)) (listed p).
Definition has_direct_attached_conn (p : Peer) : bool :=
  existsb (λ c, negb (is_closed c) && negb (is_hole_punched c) && is_attached c) (listed p).
Definition get_directly_connections (p : Peer) : gset Z :=
  list_to_set (map conn_id (List.filter (λ c, negb (is_hole_punched c)) (listed p))).
(** The nil uuid when there is none. *)
Definition get_default_conn_id (p : Peer) : Z := default 0 (default_conn p).

(** [list_peer_conns]: the open connections; a close event for each other one. *)
Definition list_peer_conns (p : Peer) : option (Peer * list PeerConn) :=
  p' ← try_fold (λ p c, if is_closed c then fst <$> close_peer_conn p (conn_id c) else Some p) (listed p) p;
  Some (p', List.filter (λ c, negb (is_closed c)) (listed p)).

(** *** Interleavings *)

Inductive PeerEvent : Type :=
| AddBegin (c : PeerConn) | AddStep (id : Z)
| ConnClosed (id : Z)                    (* its reader, its pinger or a failed send *)
| Measured (id latency : Z)
| WatcherStep (id : Z) | ListenerStep | ClearStep
| ClosePeerConn (id : Z)
| TrySend (flow_key : option FlowKey) (is_data : bool) (now : Z) (sink_ok : bool).

Definition peer_step (p : Peer) (ev : PeerEvent) : option Peer :=
  match ev with
  | AddBegin c => add_begin p c
  | AddStep id => fst <$> add_step p id
  | ConnClosed id => Some (update_arc p id notify_close)
  | Measured id latency => Some (update_arc p id (λ c, with_latency c latency))
  | WatcherStep id => watcher_step p id
  | ListenerStep => listener_step p
  | ClearStep => Some (clear_step p)
  | ClosePeerConn id => fst <$> close_peer_conn p id
  | TrySend flow_key is_data now sink_ok => Some (try_send_msg p flow_key is_data now sink_ok).1
  end.

Definition peer_run : Peer → list PeerEvent → option Peer := λ p evs, try_fold peer_step evs p.

End Choose.

(** ** What holds in every interleaving *)

Record peer_inv (p : Peer) : Prop := {
  pi_arcs : ∀ id c, arcs p !! id = Some c → conn_id c = id;
  pi_listed : ∀ id, id ∈ conns p → is_Some (arcs p !! id);
  pi_default : ∀ id, default_conn p = Some id → id ∈ conns p;
  pi_adding : ∀ id st, adding p !! id = Some st → is_Some (arcs p !! id);
  pi_early : ∀ id st, adding p !! id = Some st → st ≠ SpawnWatcher → id ∉ conns p;
  pi_watched : ∀ id, id ∈ conns p → id ∈ watchers p ∨ id ∈ close_events p ∨ adding p !! id = Some SpawnWatcher;
  pi_buckets : ∀ b fb, flow_bindings p !! b = Some fb → 0 <= b < BUCKETS }.

Lemma new_peer_inv : peer_inv new_peer.
Proof. split; cbn; try done; set_solver. Qed.

(** Updates that leave everything but the named parts. *)
Lemma update_arc_inv p id f : (∀ c, conn_id (f c) = conn_id c) → peer_inv p → peer_inv (update_arc p id f).
Proof.
  intros Hf []. split; try done; unfold update_arc; cbn.
  - intros id' c. rewrite lookup_alter_Some. intros [[-> (c0 & Hc & ->)]|[_ Hc]]; [rewrite Hf; auto|auto].
  - intros id' Hid. rewrite lookup_alter_is_Some. auto.
  - intros id' st Hid. rewrite lookup_alter_is_Some. eauto.
Qed.

Lemma add_begin_inv p c p' : peer_inv p → add_begin p c = Some p' → peer_inv p'.
Proof.
  intros []. unfold add_begin. destruct (arcs p !! conn_id c) eqn:Ec; [done|]. intros [= <-].
  split; try done; unfold set_adding, set_arcs; cbn.
  - intros id c'. rewrite lookup_insert_Some. intros [[<- ->]|[_ ?]]; auto.
  - intros id Hid. rewrite lookup_insert_is_Some'. auto.
  - intros id st. rewrite lookup_insert_Some, lookup_insert_is_Some'. naive_solver.
  - intros id st. rewrite lookup_insert_Some. intros [[<- _]|[_ ?]]; [|eauto].
    intros _ Hin. destruct (pi_listed0 _ Hin). congruence.
  - intros id Hid. destruct (pi_watched0 id Hid) as [?|[?|Ha]]; auto. right; right.
    rewrite lookup_insert_ne; [done|]. intros <-. destruct (pi_adding0 _ _ Ha). congruence.
Qed.

(** A call goes on, or ends. *)
Lemma advance_inv p id st' : peer_inv p → is_Some (arcs p !! id) → id ∉ conns p →
  peer_inv (set_adding p (<[id := st']> (adding p))).
Proof.
  intros [] Hid Hst. split; try done; unfold set_adding; cbn.
  - intros id' st. rewrite lookup_insert_Some. intros [[<- _]|[_ ?]]; eauto.
  - intros id' st. rewrite lookup_insert_Some. intros [[<- _]|[_ ?]]; eauto.
  - intros id' Hin. destruct (pi_watched0 id' Hin) as [?|[?|Hx]]; auto. right; right.
    rewrite lookup_insert_ne; [done|]. by intros <-.
Qed.

Lemma end_call_inv p id : peer_inv p → (id ∈ conns p → id ∈ watchers p ∨ id ∈ close_events p) →
  peer_inv (set_adding p (delete id (adding p))).
Proof.
  intros [] Hq. split; try done; unfold set_adding; cbn.
  - intros id' st. rewrite lookup_delete_Some. intros [_ ?]; eauto.
  - intros id' st. rewrite lookup_delete_Some. intros [_ ?]; eauto.
  - intros id' Hin. destruct (decide (id' = id)) as [->|]; [destruct (Hq Hin); auto|].
    destruct (pi_watched0 id' Hin) as [?|[?|Hx]]; auto. right; right. by rewrite lookup_delete_ne.
Qed.

Lemma insert_conn_inv p id : peer_inv p → is_Some (arcs p !! id) →
  peer_inv (set_adding (set_conns p ({[id]} ∪ conns p)) (<[id := SpawnWatcher]> (adding p))).
Proof.
  intros [] Hid. split; try done; unfold set_adding, set_conns; cbn.
  - set_solver.
  - set_solver.
  - intros id' st. rewrite lookup_insert_Some. intros [[<- _]|[_ ?]]; eauto.
  - intros id' st. rewrite lookup_insert_Some. intros [[<- <-]|[? Ha]] Hst; [done|].
    specialize (pi_early0 id' st Ha Hst). set_solver.
  - intros id' Hin. destruct (decide (id' = id)) as [->|]; [right; right; by rewrite lookup_insert_eq|].
    destruct (pi_watched0 id') as [?|[?|Hx]]; [set_solver|auto|auto|]. right; right. by rewrite lookup_insert_ne.
Qed.

Lemma add_step_inv p id p' r : peer_inv p → add_step p id = Some (p', r) → peer_inv p'.
Proof.
  intros Hi. pose proof Hi as []. unfold add_step.
  destruct (adding p !! id) as [st|] eqn:Est; [|done]. destruct (arcs p !! id) as [c|] eqn:Ec; [|done]. cbn [mbind option_bind].
  pose proof (pi_arcs0 id c Ec) as Hc.
  assert (Hns : st ≠ SpawnWatcher → id ∈ conns p → id ∈ watchers p ∨ id ∈ close_events p)
    by (intros Hst Hin; destruct (pi_watched0 id Hin) as [?|[?|?]]; [auto..|congruence]).
  unfold add_action. destruct st; [destruct (peer_identity_type p); [case_bool_decide|]| |destruct (peer_public_key p); [case_bool_decide|]| |];
    rewrite ?Hc; intros [= <- <-].
  all: try (apply (advance_inv p id); [done|by eexists|by eapply pi_early0]).
  all: try (apply update_arc_inv; [done|]; apply (end_call_inv p id); [done|by apply Hns]).
  - apply (advance_inv (set_identity p (Some (get_peer_identity_type c))) id); [by split|by eexists|by eapply pi_early0].
  - apply (advance_inv (set_key p (Some (noise_remote_static_pubkey c))) id); [by split|by eexists|by eapply pi_early0].
  - apply insert_conn_inv; [done|by eexists].
  - apply (end_call_inv (set_watchers p ({[id]} ∪ watchers p)) id); [split; try done|left]; cbn; [|set_solver].
    intros id' Hin. destruct (pi_watched0 id' Hin) as [?|[?|?]]; set_solver.
Qed.

Lemma watcher_step_inv p id p' : peer_inv p → watcher_step p id = Some p' → peer_inv p'.
Proof.
  intros []. unfold watcher_step, push_event. destruct (bool_decide _ && _); [|done].
  case_match; [|done]. intros [= <-]. split; try done; cbn. intros id' Hin.
  destruct (pi_watched0 id' Hin) as [?|[?|?]]; [|set_solver..]. destruct (decide (id' = id)) as [->|]; set_solver.
Qed.

Lemma close_peer_conn_inv p id p' ok : peer_inv p → close_peer_conn p id = Some (p', ok) → peer_inv p'.
Proof.
  intros Hi. pose proof Hi as []. unfold close_peer_conn, push_event. case_bool_decide; [|by intros [= <- <-]].
  case_match; cbn; [|done]. intros [= <- <-]. split; try done; cbn. intros id' Hin.
  destruct (pi_watched0 id' Hin) as [?|[?|?]]; set_solver.
Qed.

Lemma listener_step_inv p p' : peer_inv p → listener_step p = Some p' → peer_inv p'.
Proof.
  intros []. unfold listener_step. destruct (listener p).
  - destruct (close_events p) as [|id rest]; [done|]. intros [= <-]. cbn. case_bool_decide as Hid.
    + case_bool_decide as Hd; split; try done; cbn; try set_solver; intros id' Hin;
        (destruct (pi_watched0 id') as [?|[[->|?]%elem_of_cons|?]]; [set_solver|auto|set_solver|auto|auto]).
    + split; try done; cbn. intros id' Hin.
      destruct (pi_watched0 id' Hin) as [?|[[->|?]%elem_of_cons|?]]; [auto|done|auto..].
  - intros [= <-]. by split.
  - intros [= <-]. by split.
  - intros [= <-]. by split.
Qed.

Lemma fast_ping_inv p (S : gset Z) fast :
  peer_inv p → peer_inv (set_arcs p (map_imap (λ id c, Some (if bool_decide (id ∈ S) then with_fast_ping c fast else c)) (arcs p))).
Proof.
  assert (Hl : ∀ m id, map_imap (λ id c, Some (if bool_decide (id ∈ S) then with_fast_ping c fast else c)) m !! id =
    (λ c, if bool_decide (id ∈ S) then with_fast_ping c fast else c) <$> m !! id)
    by (intros m id; rewrite map_lookup_imap; by destruct (m !! id)).
  intros []. split; try done; unfold set_arcs; cbn.
  - intros id c. rewrite Hl. intros (c0 & Hc & ->)%fmap_Some. rewrite <- (pi_arcs0 id c0 Hc). by case_bool_decide.
  - intros id Hid. rewrite Hl, fmap_is_Some. auto.
  - intros id st Ha. rewrite Hl, fmap_is_Some. eauto.
Qed.

Lemma clear_step_inv p : peer_inv p → peer_inv (clear_step p).
Proof.
  intros Hi. pose proof Hi as []. unfold clear_step. destruct (1 <? size (conns p))%nat.
  - apply (fast_ping_inv (set_active (set_default p None) false)). by split.
  - apply (fast_ping_inv (set_active p false)). by split.
Qed.

Section ChooseFacts.
Context `{HashIter} (hash_one : FlowKey → Z).

Lemma listed_spec p c : c ∈ listed p ↔ ∃ id, id ∈ conns p ∧ arcs p !! id = Some c.
Proof.
  unfold listed. rewrite list_elem_of_omap. split.
  - intros ([id []] & Hin & Hc). rewrite iter_perm, elem_of_map_to_list, lookup_gset_to_gmap_Some in Hin. exists id. by destruct Hin.
  - intros (id & Hin & Hc). exists (id, ()). rewrite iter_perm, elem_of_map_to_list, lookup_gset_to_gmap_Some. done.
Qed.

Lemma conn_key_trans a b c : key_lt b a = false → key_lt c b = false → key_lt c a = false.
Proof.
  unfold key_lt. destruct a as [a1 a2], b as [b1 b2], c as [c1 c2]. cbn. intros.
  destruct (Z.ltb_spec b1 a1), (Z.ltb_spec c1 b1), (Z.ltb_spec c1 a1), (Z.eqb_spec b1 a1), (Z.eqb_spec c1 b1), (Z.eqb_spec c1 a1); cbn in *;
    try done; try lia. all: bool_to_prop; try apply Z.ltb_ge; lia.
Qed.

Lemma conn_key_asym a b : key_lt a b = true → key_lt b a = false.
Proof.
  unfold key_lt. destruct a as [a1 a2], b as [b1 b2]. cbn. intros.
  destruct (Z.ltb_spec a1 b1), (Z.ltb_spec b1 a1), (Z.eqb_spec a1 b1), (Z.eqb_spec b1 a1); cbn in *; try done; try lia.
  all: bool_to_prop; try apply Z.ltb_ge; lia.
Qed.

Lemma min_conn_spec {A} (key : A → Z * Z) l :
  match min_by_key key l with
  | Some a => a ∈ l ∧ ∀ b, b ∈ l → key_lt (key b) (key a) = false
  | None => l = []
  end.
Proof.
  induction l as [|x l IH]; cbn; [done|]. destruct (min_by_key key l) as [m|].
  - destruct IH as [Hm Hle]. destruct (key_lt (key m) (key x)) eqn:E.
    + split; [by right|]. intros b [->|Hb]%elem_of_cons; [by apply conn_key_asym|auto].
    + split; [by left|]. intros b [->|Hb]%elem_of_cons.
      * destruct (key x) as [k1 k2]. unfold key_lt. cbn. rewrite !Z.ltb_irrefl. apply andb_false_r.
      * by eapply conn_key_trans, Hle.
  - subst l. split; [by left|]. intros b [->|Hb]%elem_of_cons; [|by apply elem_of_nil in Hb].
    destruct (key x) as [k1 k2]. unfold key_lt. cbn. rewrite !Z.ltb_irrefl. apply andb_false_r.
Qed.

Lemma arc_open_spec p id : arc_open p id = true ↔ ∃ c, arcs p !! id = Some c ∧ is_closed c = false.
Proof.
  unfold arc_open. destruct (arcs p !! id) as [c|]; cbn; [|naive_solver]. rewrite negb_true_iff. naive_solver.
Qed.

Lemma elem_of_filter_open (p : Peer) c :
  c ∈ List.filter (λ c, negb (is_closed c)) (listed p) ↔ is_closed c = false ∧ ∃ id, id ∈ conns p ∧ arcs p !! id = Some c.
Proof. rewrite list_elem_of_In, filter_In, <- list_elem_of_In, listed_spec, negb_true_iff. tauto. Qed.

(** The scan finds an open connection of least key, if there is an open one. *)
Lemma best_conn_spec p :
  peer_inv p →
  match best_conn p with
  | Some id => id ∈ conns p ∧ ∃ c, arcs p !! id = Some c ∧ is_closed c = false ∧
      ∀ id' c', id' ∈ conns p → arcs p !! id' = Some c' → is_closed c' = false →
        key_lt (conn_selection_key c') (conn_selection_key c) = false
  | None => ∀ id, id ∈ conns p → arc_open p id = false
  end.
Proof.
  intros Hi. unfold best_conn. set (l := List.filter _ _).
  pose proof (min_conn_spec conn_selection_key l) as Hm. destruct (min_by_key conn_selection_key l) as [c|]; cbn.
  - destruct Hm as [Hin Hle]. unfold l in Hin. rewrite elem_of_filter_open in Hin. destruct Hin as (Hc & id & Hid & Ha).
    rewrite (pi_arcs p Hi id c Ha). split; [done|]. exists c. split_and!; try done. intros id' c' Hid' Ha' Hc'.
    apply Hle. unfold l. rewrite elem_of_filter_open. eauto.
  - intros id Hid. destruct (arc_open p id) eqn:E; [|done]. apply arc_open_spec in E as (c & Ha & Hc).
    assert (c ∈ l) by (unfold l; rewrite elem_of_filter_open; eauto). rewrite Hm in *. by apply elem_of_nil in H0.
Qed.

Definition usable (p : Peer) (id : Z) : Prop := id ∈ conns p ∧ arc_open p id = true.

Lemma usable_default_spec p id : peer_inv p → usable_default p = Some id → usable p id ∧ default_conn p = Some id.
Proof.
  intros Hi. unfold usable_default. destruct (default_conn p) as [d|] eqn:E; [|done]. destruct (arc_open p d) eqn:Eo; [|done].
  intros [= <-]. split; [|done]. split; [by apply (pi_default p Hi)|done].
Qed.

Lemma select_conn_spec p :
  peer_inv p →
  match select_conn p with
  | (p', Some id) => usable p id ∧ p' = set_default p (Some id)
  | (p', None) => (∀ id, id ∈ conns p → arc_open p id = false) ∧ p' = p
  end.
Proof.
  intros Hi. unfold select_conn. destruct (usable_default p) as [d|] eqn:Ed.
  - destruct (usable_default_spec p d Hi Ed) as [Hu Hd]. split; [done|]. rewrite <- Hd. by destruct p.
  - pose proof (best_conn_spec p Hi) as Hb. destruct (best_conn p) as [id|]; [|done].
    destruct Hb as (Hid & c & Ha & Hc & _). split; [|done]. split; [done|]. apply arc_open_spec. eauto.
Qed.

Lemma bound_conn_spec p b now id :
  bound_conn p b now = Some id ↔
  ∃ fb, flow_bindings p !! b = Some fb ∧ fb_conn_id fb = id ∧ saturating_sub now (last_active fb) < IDLE_TIMEOUT ∧ usable p id.
Proof.
  unfold bound_conn, usable. destruct (flow_bindings p !! b) as [fb|]; [|naive_solver].
  destruct (Z.ltb_spec (saturating_sub now (last_active fb)) IDLE_TIMEOUT), (decide (fb_conn_id fb ∈ conns p)), (arc_open p (fb_conn_id fb)) eqn:Eo;
    rewrite ?bool_decide_true, ?bool_decide_false by done; cbn; split; try (by intros [= <-]; eauto 10); try done;
    intros (fb' & [= <-] & <- & ? & ? & ?); first [done | congruence | lia].
Qed.
Lemma set_default_inv p id : peer_inv p → id ∈ conns p → peer_inv (set_default p (Some id)).
Proof. intros [] Hid. split; try done; cbn. by intros ? [= <-]. Qed.

Lemma bucket_range key : 0 <= bucket hash_one key < BUCKETS.
Proof. apply Z.mod_pos_bound. done. Qed.

Lemma bind_inv p b id now : peer_inv p → 0 <= b < BUCKETS → peer_inv (bind p b id now).
Proof. intros [] Hb. split; try done; cbn. intros b' fb. rewrite lookup_insert_Some. naive_solver. Qed.

(** What a choice changes: the default, a binding, the activity. *)
Definition same_conns (p p' : Peer) : Prop :=
  arcs p' = arcs p ∧ conns p' = conns p ∧ close_events p' = close_events p ∧ watchers p' = watchers p ∧ adding p' = adding p ∧
  listener p' = listener p ∧ peer_identity_type p' = peer_identity_type p ∧ peer_public_key p' = peer_public_key p.

Definition chosen (p : Peer) (r : option Z) : Prop :=
  match r with Some id => usable p id | None => ∀ id, id ∈ conns p → arc_open p id = false end.

Lemma select_conn_ok p : peer_inv p →
  let '(p', r) := select_conn p in peer_inv p' ∧ chosen p r ∧ same_conns p p' ∧ flow_bindings p' = flow_bindings p.
Proof.
  intros Hi. pose proof (select_conn_spec p Hi) as Hs. destruct (select_conn p) as [p' [id|]].
  - destruct Hs as [Hu ->]. split; [by apply set_default_inv; [|apply Hu]|]. by split.
  - destruct Hs as [Hn ->]. by split.
Qed.

Lemma select_flow_conn_ok p key now : peer_inv p →
  let '(p', r) := select_flow_conn hash_one p key now in
  peer_inv p' ∧ chosen p r ∧ same_conns p p' ∧
  match r with
  | Some id => flow_bindings p' = <[bucket hash_one key := mkBinding id now]> (flow_bindings p)
  | None => flow_bindings p' = flow_bindings p
  end ∧ (∀ id, bound_conn p (bucket hash_one key) now = Some id → r = Some id).
Proof.
  intros Hi. unfold select_flow_conn. destruct (bound_conn p _ now) as [id|] eqn:Eb.
  - split; [apply bind_inv; [done|apply bucket_range]|]. split; [|split; [done|split; [done|by intros ? [= <-]]]].
    apply bound_conn_spec in Eb as (fb & _ & _ & _ & Hu). done.
  - pose proof (select_conn_ok p Hi) as Hs. destruct (select_conn p) as [p' r]. destruct Hs as (Hi' & Hc & Hf & Hb).
    destruct r as [id|]; [|by split].
    split; [apply bind_inv; [done|apply bucket_range]|]. split; [done|]. split; [done|]. split; [by cbn; rewrite Hb|done].
Qed.

Lemma choose_conn_ok p fk is_data now : peer_inv p →
  let '(p', r) := choose_conn hash_one p fk is_data now in
  peer_inv p' ∧ chosen p r ∧ same_conns p p' ∧
  match fk, r with
  | Some key, Some id => flow_bindings p' = <[bucket hash_one key := mkBinding id now]> (flow_bindings p)
  | _, _ => flow_bindings p' = flow_bindings p
  end ∧ (∀ key id, fk = Some key → bound_conn p (bucket hash_one key) now = Some id → r = Some id).
Proof.
  intros Hi. unfold choose_conn. set (q := if is_data then set_active p true else p).
  assert (Hq : peer_inv q) by (unfold q; destruct is_data; [|done]; destruct Hi; by split).
  assert (Hs : same_conns p q ∧ flow_bindings q = flow_bindings p) by (unfold q; by destruct is_data).
  assert (Hch : ∀ r, chosen q r → chosen p r) by (unfold q; by destruct is_data).
  assert (Hbd : ∀ b n, bound_conn p b n = bound_conn q b n) by (unfold q; by destruct is_data).
  assert (Hsc : ∀ p', same_conns q p' → same_conns p p') by (unfold q; by destruct is_data).
  destruct Hs as [Hs Hf]. rewrite <- Hf. clearbody q. destruct fk as [key|].
  - pose proof (select_flow_conn_ok q key now Hq) as Ho. destruct (select_flow_conn hash_one q key now) as [p' r].
    destruct Ho as (? & ? & ? & Hb & Hk). split_and!; auto. intros key' id [= <-]. rewrite Hbd. auto.
  - destruct (usable_default q) as [id|] eqn:Ed.
    + split; [done|]. split; [|by split_and!]. apply Hch. by apply usable_default_spec.
    + pose proof (select_conn_ok q Hq) as Ho. destruct (select_conn q) as [p' r]. destruct Ho as (? & ? & ? & Hb).
      split_and!; auto; done.
Qed.

Lemma peer_step_inv p ev p' : peer_inv p → peer_step hash_one p ev = Some p' → peer_inv p'.
Proof.
  intros Hi. destruct ev; cbn.
  - by apply add_begin_inv.
  - intros ([q r] & Hs & ->)%fmap_Some. by eapply add_step_inv.
  - intros [= <-]. by apply update_arc_inv.
  - intros [= <-]. by apply update_arc_inv.
  - by apply watcher_step_inv.
  - by apply listener_step_inv.
  - intros [= <-]. by apply clear_step_inv.
  - intros ([q r] & Hs & ->)%fmap_Some. by eapply close_peer_conn_inv.
  - intros [= <-]. unfold try_send_msg. pose proof (choose_conn_ok p flow_key is_data now Hi) as Ho.
    destruct (choose_conn hash_one p flow_key is_data now) as [q [id|]]; [|apply Ho].
    destruct sink_ok; [apply Ho|]. cbn. apply update_arc_inv; [done|apply Ho].
Qed.

Lemma peer_run_inv evs p p' : peer_inv p → peer_run hash_one p evs = Some p' → peer_inv p'.
Proof.
  revert p. induction evs as [|ev evs IH]; cbn; intros p Hi; [by intros [= <-]|].
  destruct (peer_step hash_one p ev) as [q|] eqn:Es; [|done]. apply IH. by eapply peer_step_inv.
Qed.


(** *** Flows keep their connection *)

(** The uses of the bucket come before it has been idle for two minutes, the first after [t]. *)
Fixpoint keeps_active (b t : Z) (evs : list PeerEvent) : Prop :=
  match evs with
  | [] => True
  | TrySend (Some key) _ now _ :: evs =>
      if bool_decide (bucket hash_one key = b) then saturating_sub now t < IDLE_TIMEOUT ∧ keeps_active b now evs
      else keeps_active b t evs
  | _ :: evs => keeps_active b t evs
  end.

(** The time of the last use. *)
Fixpoint last_use (b t : Z) (evs : list PeerEvent) : Z :=
  match evs with
  | [] => t
  | TrySend (Some key) _ now _ :: evs => if bool_decide (bucket hash_one key = b) then last_use b now evs else last_use b t evs
  | _ :: evs => last_use b t evs
  end.

(** A connection whose insertion is over. *)
Definition inserted (p : Peer) (id : Z) : Prop :=
  is_Some (arcs p !! id) ∧ ∀ st, adding p !! id = Some st → st = SpawnWatcher.

(** What only loses usable connections. *)
Definition shrinks (p p' : Peer) (id : Z) : Prop :=
  is_Some (arcs p' !! id) ∧ (∀ st, adding p' !! id = Some st → adding p !! id = Some st) ∧
  (id ∈ conns p' → id ∈ conns p) ∧ (arc_open p' id = true → arc_open p id = true).

Lemma update_arc_shrinks p id' f id :
  (∀ c, is_closed c = true → is_closed (f c) = true) → is_Some (arcs p !! id) → shrinks p (update_arc p id' f) id.
Proof.
  intros Hf Hid. unfold shrinks, arc_open, update_arc. cbn. rewrite lookup_alter_is_Some. split_and!; try done.
  rewrite lookup_alter. case_decide; [|done]. subst. destruct (arcs p !! id) as [c|]; cbn; [|done].
  destruct (is_closed c) eqn:E; [by rewrite Hf|done].
Qed.

Lemma same_conns_shrinks p p' id : same_conns p p' → is_Some (arcs p !! id) → shrinks p p' id.
Proof. intros (Ha & Hc & _ & _ & Hd & _) Hid. unfold shrinks, arc_open. rewrite Ha, Hc, Hd. by split_and!. Qed.
Lemma add_step_shrinks p id' p' r id :
  peer_inv p → inserted p id → add_step p id' = Some (p', r) → shrinks p p' id.
Proof.
  intros Hi [Ha Hst]. unfold add_step. destruct (adding p !! id') as [st|] eqn:Est; [|done].
  destruct (arcs p !! id') as [c|] eqn:Ec; [|done]. cbn [mbind option_bind]. pose proof (pi_arcs p Hi id' c Ec) as Hc.
  assert (Hne : st ≠ SpawnWatcher → id ≠ id') by (intros ? ->; by rewrite (Hst st Est) in *).
  assert (Hadv : ∀ q st', arcs q = arcs p → conns q = conns p → adding q = adding p → id ≠ id' →
    shrinks p (set_adding q (<[id' := st']> (adding q))) id).
  { intros q st' Hq1 Hq2 Hq3 Hn. unfold shrinks, arc_open, set_adding. cbn. rewrite Hq1, Hq2, Hq3. split_and!; try done.
    intros st0. by rewrite lookup_insert_ne. }
  assert (Hend : ∀ q, arcs q = arcs p → conns q = conns p → adding q = adding p →
    shrinks p (set_adding q (delete id' (adding q))) id).
  { intros q Hq1 Hq2 Hq3. unfold shrinks, arc_open, set_adding. cbn. rewrite Hq1, Hq2, Hq3. split_and!; try done.
    intros st0. rewrite lookup_delete_Some. naive_solver. }
  assert (Hfail : shrinks p (update_arc (set_adding p (delete id' (adding p))) id' notify_close) id).
  { destruct (Hend p eq_refl eq_refl eq_refl) as (H1 & H2 & H3 & H4).
    destruct (update_arc_shrinks (set_adding p (delete id' (adding p))) id' notify_close id) as (K1 & K2 & K3 & K4); [done|done|].
    split_and!; auto. }
  unfold add_action. destruct st; [destruct (peer_identity_type p); [case_bool_decide|]| |destruct (peer_public_key p); [case_bool_decide|]| |];
    intros [= <- <-]; try done; try (apply Hadv; by try apply Hne); try by apply Hend.
  - by apply (Hadv (set_identity p (Some (get_peer_identity_type c))) CheckKey), Hne.
  - by apply (Hadv (set_key p (Some (noise_remote_static_pubkey c))) InsertConn), Hne.
  - specialize (Hne ltac:(done)). unfold shrinks, arc_open, set_adding, set_conns. cbn. split_and!; try done; [|set_solver].
    intros st0. by rewrite lookup_insert_ne.
  - by apply (Hend (set_watchers p ({[conn_id c]} ∪ watchers p))).
Qed.

Lemma step_shrinks p ev p' id :
  peer_inv p → inserted p id → peer_step hash_one p ev = Some p' → shrinks p p' id.
Proof.
  intros Hi [Ha Hst]. assert (Hrefl : shrinks p p id) by by split_and!. destruct ev; cbn.
  - unfold add_begin. destruct (arcs p !! conn_id c) eqn:Ec; [done|]. intros [= <-].
    assert (conn_id c ≠ id) by (intros Hx; rewrite Hx in Ec; destruct Ha; congruence).
    unfold shrinks, arc_open, set_adding, set_arcs. cbn. rewrite !lookup_insert_ne by done. by split_and!.
  - intros ([q r] & Hs & ->)%fmap_Some. by apply (add_step_shrinks p id0 q r).
  - intros [= <-]. by apply update_arc_shrinks.
  - intros [= <-]. by apply update_arc_shrinks.
  - unfold watcher_step, push_event. destruct (bool_decide _ && _); [|done]. case_match; [|done]. intros [= <-]. by split_and!.
  - unfold listener_step. destruct (listener p); [destruct (close_events p); [done|]|..]; intros [= <-]; try by split_and!.
    cbn. case_bool_decide; [case_bool_decide|]; unfold shrinks, arc_open; cbn; split_and!; try done; set_solver.
  - intros [= <-]. unfold clear_step, shrinks, arc_open. destruct (1 <? size (conns p))%nat; cbn;
      rewrite map_lookup_imap; destruct Ha as [c Ha]; rewrite Ha; cbn; split_and!; try done; by case_bool_decide.
  - intros ([q r] & Hs & ->)%fmap_Some. unfold close_peer_conn, push_event in Hs. case_bool_decide; [|by simplify_eq].
    case_match; [|done]. cbn in Hs. simplify_eq. by split_and!.
  - intros [= <-]. unfold try_send_msg. pose proof (choose_conn_ok p flow_key is_data now Hi) as Ho.
    destruct (choose_conn hash_one p flow_key is_data now) as [q [id'|]]; destruct Ho as (_ & _ & Hs & _);
      pose proof (same_conns_shrinks p q id Hs Ha) as (K1 & K2 & K3 & K4); [|by split_and!].
    destruct sink_ok; [by split_and!|]. cbn.
    destruct (update_arc_shrinks q id' notify_close id) as (L1 & L2 & L3 & L4); [done|done|]. split_and!; auto.
Qed.

Lemma run_shrinks evs p p' id :
  peer_inv p → inserted p id → peer_run hash_one p evs = Some p' → usable p' id → usable p id.
Proof.
  revert p. induction evs as [|ev evs IH]; cbn; intros p Hi Hin; [by intros [= <-]|].
  destruct (peer_step hash_one p ev) as [q|] eqn:Es; [|done]. intros Hr Hu.
  destruct (step_shrinks p ev q id Hi Hin Es) as (H1 & H2 & H3 & H4).
  destruct (IH q) as [Hu1 Hu2]; [by eapply peer_step_inv| |done|done|].
  - split; [done|]. intros st Hst. destruct Hin as [_ Hin]. by apply Hin, H2.
  - split; auto.
Qed.

(** A step that is no use of the bucket leaves its binding. *)
Lemma step_binding p ev p' b :
  peer_inv p → peer_step hash_one p ev = Some p' →
  match ev with
  | TrySend (Some key) _ now _ =>
      if bool_decide (bucket hash_one key = b)
      then ∀ id, bound_conn p b now = Some id → flow_bindings p' !! b = Some (mkBinding id now)
      else flow_bindings p' !! b = flow_bindings p !! b
  | _ => flow_bindings p' = flow_bindings p
  end.
Proof.
  intros Hi. destruct ev; cbn.
  - unfold add_begin. case_match; [done|]. by intros [= <-].
  - intros ([q r] & Hs & ->)%fmap_Some. unfold add_step, add_action in Hs. destruct (adding p !! id) as [st|]; [|done].
    destruct (arcs p !! id); [|done]. cbn in Hs. destruct st; repeat case_match; by simplify_eq.
  - by intros [= <-].
  - by intros [= <-].
  - unfold watcher_step, push_event. repeat case_match; by intros [= <-].
  - unfold listener_step. repeat case_match; intros [= <-]; try done; cbn; by repeat case_bool_decide.
  - intros [= <-]. unfold clear_step. by case_match.
  - intros ([q r] & Hs & ->)%fmap_Some. unfold close_peer_conn, push_event in Hs. case_bool_decide; [|by simplify_eq].
    case_match; [|done]. cbn in Hs. by simplify_eq.
  - intros [= <-]. unfold try_send_msg. pose proof (choose_conn_ok p flow_key is_data now Hi) as Ho.
    destruct (choose_conn hash_one p flow_key is_data now) as [q r]; destruct Ho as (_ & _ & _ & Hb & Hk).
    assert (Hres : flow_bindings match r with Some id => if sink_ok then (q, SentOver id) else (update_arc q id notify_close, SendFailed id)
      | None => (q, NoConnection) end.1 = flow_bindings q) by (destruct r; [by destruct sink_ok|done]).
    rewrite Hres. destruct flow_key as [key|]; [|by destruct r].
    case_bool_decide as Hkey.
    + intros id Hid. rewrite <- Hkey in *. rewrite (Hk key id eq_refl Hid) in Hb. rewrite Hb. by rewrite lookup_insert_eq.
    + destruct r; rewrite Hb; [by rewrite lookup_insert_ne|done].
Qed.
Lemma inserted_of_listed p id : peer_inv p → id ∈ conns p → inserted p id.
Proof.
  intros Hi Hid. split; [by apply (pi_listed p Hi)|]. intros st Hst.
  destruct st; try done; by destruct (pi_early p Hi id _ Hst).
Qed.

Lemma binding_kept evs p b id t p' :
  peer_inv p → flow_bindings p !! b = Some (mkBinding id t) → inserted p id →
  peer_run hash_one p evs = Some p' → usable p' id → keeps_active b t evs →
  flow_bindings p' !! b = Some (mkBinding id (last_use b t evs)).
Proof.
  revert p t. induction evs as [|ev evs IH]; intros p t Hi Hb Hin Hr Hu Hk; cbn in Hr; [by injection Hr as <-|].
  destruct (peer_step hash_one p ev) as [q|] eqn:Es; [|done].
  pose proof (peer_step_inv p ev q Hi Es) as Hq. pose proof (step_binding p ev q b Hi Es) as Hs.
  destruct (step_shrinks p ev q id Hi Hin Es) as (H1 & H2 & H3 & H4).
  assert (Hin' : inserted q id) by (split; [done|]; intros st Hst; by apply Hin, H2).
  assert (Hup : usable p id) by (destruct (run_shrinks evs q p' id Hq Hin' Hr Hu); split; auto).
  destruct ev as [| | | | | | | |[key|] d now ok]; try (apply (IH q); [done|by rewrite Hs|done|done|done|exact Hk]).
  cbn in Hk |- *. case_bool_decide as Hkey; [|apply (IH q); [done|by rewrite Hs|done|done|done|exact Hk]].
  destruct Hk as [Hlt Hk]. apply (IH q); [done| |done|done|done|done]. apply Hs, bound_conn_spec.
  exists (mkBinding id t). by split_and!.
Qed.

(** C19: an active flow does not move: while its bucket is used at least every two minutes and the
    connection it is bound to stays open and in the map, every packet of the flow is given that
    connection, in any interleaving, whatever better connections come and whatever other flows do. *)
Theorem active_flow_stays before p b id t evs p' :
  peer_run hash_one new_peer before = Some p → flow_bindings p !! b = Some (mkBinding id t) → id ∈ conns p →
  peer_run hash_one p evs = Some p' → id ∈ conns p' → arc_open p' id = true → keeps_active b t evs →
  ∀ key is_data now, bucket hash_one key = b → saturating_sub now (last_use b t evs) < IDLE_TIMEOUT →
    (choose_conn hash_one p' (Some key) is_data now).2 = Some id.
Proof.
  intros Hp%peer_run_inv Hb Hid Hr Hid' Ho Hk key is_data now Hkey Hnow; [|apply new_peer_inv].
  pose proof (binding_kept evs p b id t p' Hp Hb (inserted_of_listed p id Hp Hid) Hr (conj Hid' Ho) Hk) as Hb'.
  pose proof (peer_run_inv evs p p' Hp Hr) as Hp'.
  pose proof (choose_conn_ok p' (Some key) is_data now Hp') as Hc.
  destruct (choose_conn hash_one p' (Some key) is_data now) as [q r]. destruct Hc as (_ & _ & _ & _ & Hc). cbn.
  apply (Hc key); [done|]. rewrite Hkey. apply bound_conn_spec. exists (mkBinding id (last_use b t evs)). by split_and!.
Qed.

(** *** Closed connections go *)

Definition listener_weight (s : ListenerStage) : nat := match s with Idle => 0 | CheckEmpty => 3 | ResetIdentity => 2 | ResetKey => 1 end.

(** The work left to the watchers and the listener. *)
Definition cleanup_left (p : Peer) : nat :=
  (8 * size (watchers p) + 4 * length (close_events p) + listener_weight (listener p))%nat.

Lemma watcher_step_left p id p' : watcher_step p id = Some p' → (cleanup_left p' < cleanup_left p)%nat.
Proof.
  unfold watcher_step, push_event. destruct (bool_decide _ && _) eqn:E; [|done]. case_match; [|done]. intros [= <-].
  apply andb_prop in E as [Hid%bool_decide_eq_true _].
  assert (0 < size (watchers p))%nat by (assert (size (watchers p) ≠ 0)%nat; [|lia]; intros ?%size_empty_inv; set_solver).
  unfold cleanup_left. cbn. rewrite size_difference by set_solver. rewrite size_singleton, length_app. cbn [length]. lia.
Qed.

Lemma listener_step_left p p' : listener_step p = Some p' → (cleanup_left p' < cleanup_left p)%nat.
Proof.
  unfold listener_step, cleanup_left. destruct (listener p) eqn:El; [destruct (close_events p) as [|id rest] eqn:Ee; [done|]|..];
    intros [= <-]; cbn; try lia.
  - case_bool_decide; [case_bool_decide|]; cbn; rewrite ?El; cbn; lia.
  - case_bool_decide; cbn; lia.
Qed.

(** Closed connections are removed: in any interleaving, when neither a watcher nor the listener
    nor a call can go on, every connection in the map is open; and watchers and listener go on for a
    bounded number of steps only. *)
Theorem closed_conns_removed evs p :
  peer_run hash_one new_peer evs = Some p →
  (listener_step p = None → (∀ id, watcher_step p id = None) → (∀ id, add_step p id = None) →
    ∀ id, id ∈ conns p → arc_open p id = true) ∧
  (∀ p', listener_step p = Some p' ∨ (∃ id, watcher_step p id = Some p') → (cleanup_left p' < cleanup_left p)%nat).
Proof.
  intros Hr%peer_run_inv; [|apply new_peer_inv]. split.
  - intros Hl Hw Ha id Hid. pose proof Hr as [].
    assert (listener p = Idle ∧ close_events p = []) as [Hidle Hev]
      by (unfold listener_step in Hl; destruct (listener p), (close_events p); done).
    destruct (pi_watched0 id Hid) as [Hwa|[Hq|Hs]].
    + specialize (Hw id). unfold watcher_step, push_event in Hw. cbn in Hw. rewrite bool_decide_true, Hev in Hw by done.
      by destruct (arc_open p id).
    + rewrite Hev in Hq. by apply elem_of_nil in Hq.
    + specialize (Ha id). unfold add_step in Ha. rewrite Hs in Ha. destruct (pi_listed0 id Hid) as [c Hc]. by rewrite Hc in Ha.
  - intros p' [Hl|[id Hw]]; [by apply listener_step_left|by eapply watcher_step_left].
Qed.
(** *** One identity per peer *)

(** A close event, handled to its end. *)
Fixpoint listener_rest (fuel : nat) (p : Peer) : option Peer :=
  match listener p, fuel with
  | Idle, _ => Some p
  | _, O => None
  | _, S fuel => p ← listener_step p; listener_rest fuel p
  end.
Definition listener_round (p : Peer) : option Peer := p ← listener_step p; listener_rest 3 p.

(** Additions and close events one after the other; the rest as before. *)
Inductive SeqEvent : Type := SeqAdd (c : PeerConn) | SeqListen | SeqOther (ev : PeerEvent).

Definition seq_step (p : Peer) (ev : SeqEvent) : option Peer :=
  match ev with
  | SeqAdd c => fst <$> add_peer_conn p c
  | SeqListen => listener_round p
  | SeqOther (AddBegin _ | AddStep _ | ListenerStep) => None
  | SeqOther ev => peer_step hash_one p ev
  end.

Definition seq_run (p : Peer) (evs : list SeqEvent) : option Peer := try_fold seq_step evs p.

Record agreed (p : Peer) : Prop := {
  ag_idle : listener p = Idle;
  ag_adding : adding p = ∅;
  ag_none : conns p = ∅ → peer_identity_type p = None ∧ peer_public_key p = None;
  ag_some : ∀ id c, id ∈ conns p → arcs p !! id = Some c →
    peer_identity_type p = Some (get_peer_identity_type c) ∧ peer_public_key p = Some (noise_remote_static_pubkey c) }.

(** Two connections that may belong to one peer. *)
Definition same_identity (c c' : PeerConn) : Prop :=
  get_peer_identity_type c = get_peer_identity_type c' ∧ noise_remote_static_pubkey c = noise_remote_static_pubkey c'.

Lemma add_step_at p id c st :
  adding p !! id = Some st → arcs p !! id = Some c →
  add_step p id = match add_action p c st with
    | (p, Continue stage) => Some (set_adding p (<[id := stage]> (adding p)), None)
    | (p, Return ok) =>
        let p := set_adding p (delete id (adding p)) in
        Some (if ok then p else update_arc p id notify_close, Some ok)
    end.
Proof. intros Hst Hc. unfold add_step. by rewrite Hst, Hc. Qed.

(** The checks of the whole call, and what it does. *)
Definition fits (p : Peer) (c : PeerConn) : bool :=
  from_option (λ t, bool_decide (t = get_peer_identity_type c)) true (peer_identity_type p) &&
  from_option (λ k, bool_decide (k = noise_remote_static_pubkey c)) true (peer_public_key p).

(** The call for [c] on [p] has come to [st]. *)
Record at_stage (p : Peer) (c : PeerConn) (st : AddStage) (q : Peer) : Prop := {
  as_adding : adding q = {[conn_id c := st]};
  as_conns : conns q = conns p;
  as_arcs : arcs q = <[conn_id c := c]> (arcs p);
  as_listener : listener q = listener p }.

Lemma add_rest_at p c st q n :
  at_stage p c st q →
  add_rest (S n) q (conn_id c) = match add_action q c st with
    | (q, Continue stage) => add_rest n (set_adding q (<[conn_id c := stage]> (adding q))) (conn_id c)
    | (q, Return ok) =>
        let q := set_adding q (delete (conn_id c) (adding q)) in
        Some (if ok then q else update_arc q (conn_id c) notify_close, ok)
    end.
Proof.
  intros [Ha _ Hc _]. cbn [add_rest]. rewrite (add_step_at q (conn_id c) c st); [|by rewrite Ha, lookup_singleton_eq|by rewrite Hc, lookup_insert_eq].
  by destruct (add_action q c st) as [? [|]].
Qed.

Lemma at_stage_next p c st st' q q' :
  at_stage p c st q → adding q' = adding q → conns q' = conns q → arcs q' = arcs q → listener q' = listener q →
  at_stage p c st' (set_adding q' (<[conn_id c := st']> (adding q'))).
Proof. intros [Ha Hc Hr Hl] H1 H2 H3 H4. split; cbn; try congruence. by rewrite H1, Ha, insert_singleton_eq. Qed.

Lemma rest_insert p c q :
  at_stage p c InsertConn q →
  ∃ p', add_rest 2 q (conn_id c) = Some (p', true) ∧ listener p' = listener p ∧ adding p' = ∅ ∧
    conns p' = {[conn_id c]} ∪ conns p ∧ arcs p' = <[conn_id c := c]> (arcs p) ∧
    peer_identity_type p' = peer_identity_type q ∧ peer_public_key p' = peer_public_key q.
Proof.
  intros [Ha Hc Hr Hl]. cbn [add_rest]. rewrite (add_step_at q (conn_id c) c InsertConn); [|by rewrite Ha, lookup_singleton_eq|by rewrite Hr, lookup_insert_eq].
  cbn [add_action]. erewrite add_step_at; [|cbn; by rewrite lookup_insert_eq|cbn; by rewrite Hr, lookup_insert_eq]. cbn [add_action].
  eexists. split; [done|]. cbn. rewrite Ha, Hc, Hr. split_and!; try done. by rewrite delete_insert_eq, delete_singleton_eq.
Qed.

(** A refusal closes the new connection and changes nothing else. *)
Definition refused (p : Peer) (c : PeerConn) (p' : Peer) : Prop :=
  conns p' = conns p ∧ (∀ id, id ≠ conn_id c → arcs p' !! id = arcs p !! id).

Lemma rest_refused p c q st :
  at_stage p c st q →
  let p' := update_arc (set_adding q (delete (conn_id c) (adding q))) (conn_id c) notify_close in
  listener p' = listener p ∧ adding p' = ∅ ∧ refused p c p'.
Proof.
  intros [Ha Hc Hr Hl]. cbn. rewrite Ha, delete_singleton_eq. split_and!; try done. split; [done|].
  intros id Hne. cbn. by rewrite Hr, lookup_alter_ne, lookup_insert_ne.
Qed.

Lemma rest_check p c q :
  at_stage p c CheckKey q →
  let ok := from_option (λ k, bool_decide (k = noise_remote_static_pubkey c)) true (peer_public_key q) in
  ∃ p', add_rest 3 q (conn_id c) = Some (p', ok) ∧ listener p' = listener p ∧ adding p' = ∅ ∧
    peer_identity_type p' = peer_identity_type q ∧
    if ok
    then conns p' = {[conn_id c]} ∪ conns p ∧ arcs p' = <[conn_id c := c]> (arcs p) ∧ peer_public_key p' = Some (noise_remote_static_pubkey c)
    else refused p c p' ∧ peer_public_key p' = peer_public_key q.
Proof.
  intros Hs ok. rewrite (add_rest_at p c CheckKey q 2 Hs). cbn [add_action]. unfold ok.
  destruct (peer_public_key q) as [k|] eqn:Ek; cbn [from_option]; [case_bool_decide as Hk|].
  - destruct (rest_insert p c (set_adding q (<[conn_id c := InsertConn]> (adding q)))) as (p' & E & ? & ? & ? & ? & ? & Hkey);
      [by eapply at_stage_next|]. exists p'. rewrite Hkey. cbn. rewrite Ek, Hk. by split_and!.
  - eexists. split; [done|]. destruct (rest_refused p c q CheckKey Hs) as (? & ? & ?). by split_and!.
  - destruct (rest_insert p c (set_adding (set_key q (Some (noise_remote_static_pubkey c))) (<[conn_id c := InsertConn]> (adding q))))
      as (p' & E & ? & ? & ? & ? & ? & Hkey); [by apply (at_stage_next p c CheckKey InsertConn q (set_key q (Some (noise_remote_static_pubkey c))))|].
    exists p'. by split_and!.
Qed.

Lemma add_rest_mono n p id r : add_rest n p id = Some r → add_rest (S n) p id = Some r.
Proof.
  revert p. induction n as [|n IH]; intros p; [done|]. cbn. destruct (add_step p id) as [[q [ok|]]|]; [done| |done].
  intros Hr. by apply IH in Hr.
Qed.

Lemma add_peer_conn_result p c :
  adding p = ∅ → arcs p !! conn_id c = None → (peer_identity_type p = None → peer_public_key p = None) →
  ∃ p', add_peer_conn p c = Some (p', fits p c) ∧ listener p' = listener p ∧ adding p' = ∅ ∧
    if fits p c
    then conns p' = {[conn_id c]} ∪ conns p ∧ arcs p' = <[conn_id c := c]> (arcs p) ∧
      peer_identity_type p' = Some (get_peer_identity_type c) ∧ peer_public_key p' = Some (noise_remote_static_pubkey c)
    else refused p c p' ∧ peer_identity_type p' = peer_identity_type p ∧ peer_public_key p' = peer_public_key p.
Proof.
  intros Hadd Ha Hnone. unfold add_peer_conn, add_begin. rewrite Ha, Hadd. cbn [mbind option_bind].
  set (q := set_adding _ _).
  assert (Hq : at_stage p c LoadIdentity q) by (split; try done; by cbn).
  rewrite (add_rest_at p c LoadIdentity q 4 Hq). cbn [add_action]. change (peer_identity_type q) with (peer_identity_type p).
  unfold fits. destruct (peer_identity_type p) as [t|] eqn:Et; cbn [from_option]; [case_bool_decide as Ht; cbn [andb]|].
  - set (q1 := set_adding q _). assert (H1 : at_stage p c CheckKey q1) by (by eapply at_stage_next).
    destruct (rest_check p c q1 H1) as (p' & E & Hl & Had & Hi & Hok). exists p'.
    change (peer_public_key q1) with (peer_public_key p) in *. split; [by apply add_rest_mono|].
    change (peer_identity_type q1) with (peer_identity_type p) in Hi. rewrite Et in Hi.
    split; [done|]. split; [done|].
    destruct (from_option _ _ _); [destruct Hok as (? & ? & ?)|destruct Hok]; split_and!; congruence.
  - eexists. split; [done|]. destruct (rest_refused p c q LoadIdentity Hq) as (? & ? & ?). by split_and!.
  - cbn [andb]. set (q1 := set_adding q _). assert (H1 : at_stage p c StoreIdentity q1) by (by eapply at_stage_next).
    rewrite (add_rest_at p c StoreIdentity q1 3 H1). cbn [add_action]. set (q2 := set_adding _ _).
    assert (H2 : at_stage p c CheckKey q2)
      by (by apply (at_stage_next p c StoreIdentity CheckKey q1 (set_identity q1 (Some (get_peer_identity_type c))))).
    destruct (rest_check p c q2 H2) as (p' & E & Hl & Had & Hi & Hok). exists p'.
    change (peer_public_key q2) with (peer_public_key p) in *. rewrite Hnone in * by done. cbn in E, Hok |- *.
    split_and!; try done; apply Hok.
Qed.

Lemma agreed_frame p p' :
  agreed p → listener p' = listener p → adding p' = adding p → conns p' = conns p →
  peer_identity_type p' = peer_identity_type p → peer_public_key p' = peer_public_key p →
  (∀ id c, id ∈ conns p → arcs p' !! id = Some c → ∃ c', arcs p !! id = Some c' ∧ same_identity c' c) → agreed p'.
Proof.
  intros [Hl Ha Hn Hs] E1 E2 E3 E4 E5 Harc. split; [congruence|congruence|by rewrite E3, E4, E5|].
  rewrite E3, E4, E5. intros id c Hid Hc. destruct (Harc id c Hid Hc) as (c' & Hc' & Hi & Hk). rewrite <- Hi, <- Hk. by apply (Hs id).
Qed.

Lemma update_arc_agreed p id f : (∀ c, same_identity c (f c)) → agreed p → agreed (update_arc p id f).
Proof.
  intros Hf Hag. apply (agreed_frame p); try done. intros id' c _. cbn. rewrite lookup_alter_Some.
  intros [[-> (c' & Hc' & ->)]|[_ Hc]]; [eauto|]. exists c. by split.
Qed.

Lemma listener_round_agreed p p' : peer_inv p → agreed p → listener_round p = Some p' → agreed p'.
Proof.
  intros Hi Hag. pose proof Hag as [Hl Ha Hn Hs]. unfold listener_round, listener_step at 1. rewrite Hl.
  destruct (close_events p) as [|id rest]; [done|]. cbn [mbind option_bind set_events conns].
  case_bool_decide as Hid.
  - set (q := set_listener _ _).
    assert (Hq : listener q = CheckEmpty ∧ adding q = ∅ ∧ conns q = conns p ∖ {[id]} ∧ arcs q = arcs p ∧
      peer_identity_type q = peer_identity_type p ∧ peer_public_key q = peer_public_key p) by (unfold q; by case_bool_decide).
    clearbody q. destruct Hq as (Ql & Qa & Qc & Qr & Qi & Qk).
    assert (E1 : listener_step q = Some (set_listener q (if bool_decide (conns q = ∅) then ResetIdentity else Idle)))
      by (unfold listener_step; by rewrite Ql).
    cbn [listener_rest]. rewrite Ql, E1. cbn [mbind option_bind]. case_bool_decide as He.
    + cbn. rewrite Qc in He. intros [= <-]. split; cbn; try done. intros id' c Hid'. rewrite Qc, He in Hid'. set_solver.
    + cbn. intros [= <-]. split; cbn; [done|done|done|]. rewrite Qc, Qr, Qi, Qk. intros id' c Hid'. apply Hs. set_solver.
  - cbn. rewrite Hl. intros [= <-]. by apply (agreed_frame p); try done; intros id' c _ Hc; exists c.
Qed.
Lemma add_rest_inv n p id p' ok : peer_inv p → add_rest n p id = Some (p', ok) → peer_inv p'.
Proof.
  revert p. induction n as [|n IH]; intros p Hi; [done|]. cbn [add_rest].
  destruct (add_step p id) as [[q [ok'|]]|] eqn:E; [|apply IH; by eapply add_step_inv|done].
  intros [= -> ->]. by eapply add_step_inv.
Qed.

Lemma listener_rest_inv n p p' : peer_inv p → listener_rest n p = Some p' → peer_inv p'.
Proof.
  revert p. induction n as [|n IH]; intros p Hi; cbn [listener_rest]; destruct (listener p); try done; try (by intros [= <-]);
    (destruct (listener_step p) as [q|] eqn:E; [|done]); cbn; apply IH; by eapply listener_step_inv.
Qed.

Lemma seq_step_ok p ev p' : peer_inv p → agreed p → seq_step p ev = Some p' → peer_inv p' ∧ agreed p'.
Proof.
  intros Hi Hag. destruct ev as [c| |ev]; cbn [seq_step].
  - intros ([q ok] & Hs & ->)%fmap_Some. cbn [fst]. destruct (arcs p !! conn_id c) as [|] eqn:Ec.
    { unfold add_peer_conn, add_begin in Hs. by rewrite Ec in Hs. }
    split.
    + unfold add_peer_conn in Hs. destruct (add_begin p c) as [p1|] eqn:E1; [|done]. cbn [mbind option_bind] in Hs.
      apply (add_rest_inv 5 p1 (conn_id c) q ok); [by eapply add_begin_inv|done].
    + destruct (add_peer_conn_result p c) as (p' & E & Hl & Ha & Hr); [apply Hag|done| |].
      * intros Hnone. destruct (decide (conns p = ∅)) as [He|Hne]; [by apply Hag|].
        apply set_choose_L in Hne as [id Hid]. destruct (pi_listed p Hi id Hid) as [c' Hc'].
        destruct (ag_some p Hag id c' Hid Hc') as [? _]. congruence.
      * rewrite Hs in E. injection E as -> Hok. destruct (fits p c) eqn:Ef.
        -- destruct Hr as (Hc & Hr & Hid & Hk). split; [by rewrite Hl; apply Hag|done|rewrite Hc; set_solver|].
           rewrite Hc, Hr, Hid, Hk. intros id c' Hin. destruct (decide (id = conn_id c)) as [->|Hne].
           ++ rewrite lookup_insert_eq. by intros [= ->].
           ++ rewrite lookup_insert_ne by done. intros Hc'.
              destruct (ag_some p Hag id c') as [H1 H2]; [set_solver|done|]. unfold fits in Ef. rewrite H1, H2 in Ef. cbn in Ef.
              apply andb_prop in Ef as [->%bool_decide_eq_true ->%bool_decide_eq_true]. done.
        -- destruct Hr as ([Hc Hr] & Hid & Hk). apply (agreed_frame p); try done; [by rewrite (ag_adding p Hag)|].
           intros id c' Hin Hc'. exists c'. split; [|by split]. rewrite <- Hr; [done|]. intros ->.
           destruct (pi_listed p Hi _ Hin). congruence.
  - intros Hs. split; [|by eapply listener_round_agreed].
    unfold listener_round in Hs. destruct (listener_step p) as [p1|] eqn:E1; [|done]. cbn [mbind option_bind] in Hs.
    apply (listener_rest_inv 3 p1 p'); [by eapply listener_step_inv|done].
  - intros Hs. split; [destruct ev; try done; by eapply peer_step_inv|].
    destruct ev; try done; cbn in Hs.
    + injection Hs as <-. by apply update_arc_agreed.
    + injection Hs as <-. by apply update_arc_agreed.
    + unfold watcher_step, push_event in Hs. destruct (bool_decide _ && _); [|done]. case_match; [|done]. injection Hs as <-.
      apply (agreed_frame p); try done. intros id' c _ Hc. by exists c.
    + injection Hs as <-. apply (agreed_frame p); try done; unfold clear_step; try by case_match.
      intros id' c _. destruct (1 <? size (conns p))%nat; cbn; rewrite map_lookup_imap; destruct (arcs p !! id') as [c'|]; cbn; try done;
        intros [= <-]; exists c'; split; try done; by case_bool_decide.
    + apply fmap_Some in Hs as ([q ok] & Hs & ->). unfold close_peer_conn, push_event in Hs. case_bool_decide; [|by simplify_eq].
      case_match; [|done]. cbn in Hs. simplify_eq. apply (agreed_frame p); try done. intros id' c _ Hc. by exists c.
    + injection Hs as <-. unfold try_send_msg. pose proof (choose_conn_ok p flow_key is_data now Hi) as Ho.
      destruct (choose_conn hash_one p flow_key is_data now) as [q r]. destruct Ho as (_ & _ & (Ha & Hc & _ & _ & Hd & Hl & Hid & Hk) & _).
      assert (Hq : agreed q).
      { apply (agreed_frame p); try done. intros id' c _ Hc'. exists c. split; [by rewrite <- Ha|done]. }
      destruct r as [id|]; [|done]. destruct sink_ok; [done|]. by apply update_arc_agreed.
Qed.

(** C20: a peer has one identity: when additions and close events are handled one after the other,
    all connections of the map have the identity type and the public key that the peer records, and
    a new connection is accepted exactly if it agrees with all of them. *)
Theorem conns_share_identity evs p :
  seq_run new_peer evs = Some p →
  (∀ id c, id ∈ conns p → arcs p !! id = Some c →
    peer_identity_type p = Some (get_peer_identity_type c) ∧ peer_public_key p = Some (noise_remote_static_pubkey c)) ∧
  ∀ c, arcs p !! conn_id c = None →
    ∃ p' ok, add_peer_conn p c = Some (p', ok) ∧
      (ok = true ↔ ∀ id c', id ∈ conns p → arcs p !! id = Some c' → same_identity c' c).
Proof.
  intros Hr. assert (Hok : peer_inv p ∧ agreed p).
  { revert p Hr. induction evs as [|ev evs IH] using rev_ind; intros p.
    - intros [= <-]. split; [apply new_peer_inv|]. by split.
    - unfold seq_run in *. rewrite try_fold_app. destruct (try_fold seq_step evs new_peer) as [q|] eqn:Eq; [|done]. cbn.
      destruct (seq_step q ev) as [q'|] eqn:Es; [|done]. cbn. intros [= <-]. destruct (IH q eq_refl). by eapply seq_step_ok. }
  destruct Hok as [Hi Hag]. split; [apply Hag|]. intros c Hc.
  destruct (add_peer_conn_result p c) as (p' & E & _); [apply Hag|done| |].
  - intros Hnone. destruct (decide (conns p = ∅)) as [He|Hne]; [by apply Hag|].
    apply set_choose_L in Hne as [id Hid]. destruct (pi_listed p Hi id Hid) as [c' Hc'].
    destruct (ag_some p Hag id c' Hid Hc') as [? _]. congruence.
  - exists p', (fits p c). split; [done|]. unfold fits. destruct (decide (conns p = ∅)) as [He|Hne].
    + destruct (ag_none p Hag He) as [-> ->]. split; [|done]. intros _ id c' Hid. rewrite He in Hid. set_solver.
    + apply set_choose_L in Hne as [id Hid]. destruct (pi_listed p Hi id Hid) as [c' Hc'].
      destruct (ag_some p Hag id c' Hid Hc') as [-> ->]. cbn. rewrite andb_true_iff, !bool_decide_eq_true. split.
      * intros [H1 H2] id2 c2 Hid2 Hc2. destruct (ag_some p Hag id2 c2 Hid2 Hc2) as [Ha Hb].
        destruct (ag_some p Hag id c' Hid Hc') as [Ha' Hb']. split; congruence.
      * intros Hall. by destruct (Hall id c' Hid Hc').
Qed.

End ChooseFacts.

(** ** Witnesses *)

Definition demo_conn (id latency : Z) (o : PeerConnectionOrigin) : PeerConn := mkConn id 2 Admin [1] o false latency false.
(** The steps of a call; the identity is stored by the first only. *)
Definition added_first (c : PeerConn) : list PeerEvent := AddBegin c :: repeat (AddStep (conn_id c)) 5.
Definition added (c : PeerConn) : list PeerEvent := AddBegin c :: repeat (AddStep (conn_id c)) 4.
Definition demo_hash (key : FlowKey) : Z := fk_protocol key.
Definition demo_flow : FlowKey := mkFlowKey (mkSocketAddr (IpV4 1) 10) (mkSocketAddr (IpV4 2) 20) 17.
Notation demo_run := (peer_run demo_hash new_peer).

(** A slow connection, one that is not measured and a hole punched one. *)
Definition three_conns : list PeerEvent :=
  added_first (demo_conn 1 20000 Manual) ++ added (demo_conn 2 0 Manual) ++ added (demo_conn 3 0 UdpHolePunch).


(** The flow begins on the slow connection, a fast one comes, the default is cleared, and others send. *)
Definition before_flow : list PeerEvent := added_first (demo_conn 1 20000 Manual) ++ [TrySend (Some demo_flow) true 0 true].
Definition during_flow : list PeerEvent :=
  added (demo_conn 2 1000 Manual) ++ [ClearStep; TrySend None true 50 true; TrySend (Some demo_flow) true 100 true; Measured 1 500000].

Lemma active_flow_stays_witness :
  ∃ p p', demo_run before_flow = Some p ∧ peer_run demo_hash p during_flow = Some p' ∧
    (choose_conn demo_hash p' None true 219).2 = Some 2 ∧ (choose_conn demo_hash p' (Some demo_flow) true 219).2 = Some 1.
Proof.
  destruct (demo_run before_flow) as [p|] eqn:E; [|vm_compute in E; discriminate].
  destruct (peer_run demo_hash p during_flow) as [p'|] eqn:E'; [|vm_compute in E; injection E as <-; vm_compute in E'; discriminate].
  exists p, p'. split; [reflexivity|]. split; [exact E'|].
  assert (Hb : flow_bindings p !! 17 = Some (mkBinding 1 0) ∧ bool_decide (1 ∈ conns p) = true)
    by (vm_compute in E; injection E as <-; vm_compute; split; reflexivity).
  assert (Hp : bool_decide (1 ∈ conns p') = true ∧ arc_open p' 1 = true ∧ (choose_conn demo_hash p' None true 219).2 = Some 2)
    by (vm_compute in E; injection E as <-; vm_compute in E'; injection E' as <-; vm_compute; split; [|split]; reflexivity).
  destruct Hb as [Hb Hid], Hp as (Hid' & Ho & Hd). split; [exact Hd|].
  apply bool_decide_eq_true in Hid, Hid'.
  apply (active_flow_stays demo_hash before_flow p 17 1 0 during_flow p' E Hb Hid E' Hid' Ho);
    [vm_compute; repeat split|reflexivity|reflexivity].
Defined.

(** One of three connections is closed and cleaned up. *)
Lemma closed_conns_removed_witness :
  ∃ p, demo_run (three_conns ++ [ConnClosed 2; WatcherStep 2; ListenerStep; ListenerStep]) = Some p ∧
    conns p = {[1; 3]} ∧ arc_open p 1 = true.
Proof.
  set (evs := three_conns ++ _). destruct (demo_run evs) as [p|] eqn:E; [|vm_compute in E; discriminate].
  exists p. split; [reflexivity|].
  assert (Hc : conns p = {[1; 3]} ∧ listener_step p = None ∧ adding p = ∅ ∧ watchers p = {[1; 3]} ∧ arc_open p 1 = true ∧ arc_open p 3 = true)
    by (vm_compute in E; injection E as <-; vm_compute; repeat split; reflexivity).
  destruct Hc as (Hc & Hl & Ha & Hw & H1 & H3). split; [exact Hc|].
  apply (proj1 (closed_conns_removed demo_hash evs p E)); [exact Hl| | |rewrite Hc; set_solver].
  - intros id. unfold watcher_step. rewrite Hw. case_bool_decide as Hid; [|reflexivity].
    apply elem_of_union in Hid as [->%elem_of_singleton| ->%elem_of_singleton]; [rewrite H1|rewrite H3]; reflexivity.
  - intros id. unfold add_step. rewrite Ha. reflexivity.
Defined.

(** A connection with another key is refused while the first is there. *)
Definition other_conn : PeerConn := mkConn 9 2 Credential [7] Manual false 0 false.

Lemma conns_share_identity_witness :
  ∃ p p' ok, seq_run demo_hash new_peer [SeqAdd (demo_conn 1 0 Manual)] = Some p ∧
    add_peer_conn p other_conn = Some (p', ok) ∧ ok ≠ true.
Proof.
  destruct (seq_run demo_hash new_peer [SeqAdd (demo_conn 1 0 Manual)]) as [p|] eqn:E; [|vm_compute in E; discriminate].
  destruct (conns_share_identity demo_hash _ p E) as [_ Hadd].
  destruct (Hadd other_conn) as (p' & ok & Ep & Hok); [vm_compute in E; injection E as <-; vm_compute; reflexivity|].
  exists p, p', ok. split; [reflexivity|]. split; [exact Ep|]. rewrite Hok. intros Hall.
  specialize (Hall 1 (demo_conn 1 0 Manual)). destruct Hall as [Ht _]; [..|discriminate Ht];
    vm_compute in E; injection E as <-; [apply (bool_decide_eq_true_1 _); vm_compute; reflexivity|vm_compute; reflexivity].
Defined.

(** The checks of a new connection and its insertion are apart: when the last connection of the peer
    goes in between, the identity is reset after it was checked, and the next connection may have
    another one. *)
Example identities_mix :
  let evs := added_first (demo_conn 1 0 Manual) ++ [ConnClosed 1; WatcherStep 1] ++
    [AddBegin (demo_conn 2 0 Manual); AddStep 2; AddStep 2] ++ [ListenerStep; ListenerStep; ListenerStep; ListenerStep] ++
    [AddStep 2; AddStep 2] ++ added_first other_conn in
  (λ p, (conns p, get_peer_identity_type <$> arcs p !! 2, get_peer_identity_type <$> arcs p !! 9, arc_open p 2 && arc_open p 9))
    <$> demo_run evs = Some ({[2; 9]}, Some Admin, Some Credential, true).
Proof. vm_compute. reflexivity. Qed.
