(* ===== verification/PeerMap.v ===== *)
(** * The peers, and the way to them

    Models easytier-core/src/peers/conn/peer_map.rs, peers/foreign_network/client.rs and
    [send_msg_internal] of peers/peer_manager.rs: which connection, neighbour or relay a packet is
    handed to.

    A call is one step, except where the code lets calls overlap: a call that adds a connection goes
    on with the view of the map it began with ([AddSaw]), and the clean-up is given in its two
    parts.  A route is the function of its next hops; a packet for the relay sessions is a result.
    The clock and the results of the tunnels are arguments; a panic is [None]. *)

From stdpp Require Import base gmap list numbers sets.
From Stdlib Require Import ZArith Lia.
From S2P Require Import Prelude Packet RouteTable RouteService PeerConns.
Local Open Scope Z_scope.

(** ** What a packet is *)

Inductive TrafficKind : Type := DataTraffic | ControlTraffic.

#[export] Instance traffic_kind_eq_dec : EqDecision TrafficKind.
Proof. solve_decision. Defined.

Definition traffic_kind (packet_type : Z) : TrafficKind :=
  if existsb (λ t, packet_type =? packet_type_u8 t)
       [Data; KcpSrc; KcpDst; QuicSrc; QuicDst; DataWithKcpSrcModified; DataWithQuicSrcModified]
  then DataTraffic else ControlTraffic.

(** The outer option is a panic, the inner one the returned [Option]. *)
Definition data_packet_payload_len (packet : ZCPacket.t) : option (option Z) :=
  match ZCPacket.peer_manager_header packet with
  | None => Some None
  | Some header =>
      let whole := Some (Some (ZCPacket.payload_len packet)) in
      if PeerManagerHeader.packet_type header =? packet_type_u8 ForeignNetworkPacket then
        if PeerManagerHeader.is_encrypted header then whole
        else
          info ← ZCPacket.foreign_network_inner_packet_info packet;
          match info with
          | Some (inner_header, payload_len) =>
              if bool_decide (traffic_kind (PeerManagerHeader.packet_type inner_header) = DataTraffic)
              then Some (Some payload_len) else Some None
          | None => whole
          end
      else if bool_decide (traffic_kind (PeerManagerHeader.packet_type header) = DataTraffic) then whole else Some None
  end.

#[export] Instance policy_eq_dec : EqDecision NextHopPolicy.
Proof. solve_decision. Defined.

Definition get_next_hop_policy (is_latency_first : bool) : NextHopPolicy := if is_latency_first then LeastCost else LeastHop.

Inductive PeerError : Type := SecretKeyError | PeerNoConnectionError (peer : Z) | RouteError | NotFound | TunnelError.

(** ** The map *)

Section PeerMap.
Context `{HashIter} (hash_one : FlowKey → Z).

(** [get_next_hop_with_policy]. *)
Definition NextHops : Type := Z → NextHopPolicy → option Z.

(** [Url] numbers; the connections made by this node for an address, while they are alive. *)
Record PeerMap : Type := mkPeerMap {
  my_peer_id : Z; peer_map : gmap Z Peer; routes : list NextHops; alive_client_urls : gmap Z (gset Z) }.

Definition set_peers (m : PeerMap) (ps : gmap Z Peer) : PeerMap := mkPeerMap (my_peer_id m) ps (routes m) (alive_client_urls m).
Definition set_urls (m : PeerMap) (urls : gmap Z (gset Z)) : PeerMap := mkPeerMap (my_peer_id m) (peer_map m) (routes m) urls.

Definition maintain_alive_client_urls (m : PeerMap) (client_url : option Z) (id : Z) : PeerMap :=
  match client_url with
  | None => m
  | Some url => set_urls m (<[url := {[id]} ∪ default ∅ (alive_client_urls m !! url)]> (alive_client_urls m))
  end.

(** The task of a client connection, when it is closed. *)
Definition client_closed (m : PeerMap) (url id : Z) : PeerMap :=
  match alive_client_urls m !! url with
  | None => m
  | Some ids =>
      let ids := ids ∖ {[id]} in
      set_urls m (if bool_decide (ids = ∅) then delete url (alive_client_urls m) else <[url := ids]> (alive_client_urls m))
  end.

Definition is_client_url_alive (m : PeerMap) (url : Z) : bool := bool_decide (is_Some (alive_client_urls m !! url)).

(** [add_new_peer_conn]: the look for an entry, and what follows for either answer.  The peer of a
    new entry is made and given its connection before it is inserted. *)
Definition no_entry (m : PeerMap) (c : PeerConn) : bool := bool_decide (peer_map m !! get_peer_id c = None).

Definition add_to_new (m : PeerMap) (c : PeerConn) : option (PeerMap * result unit PeerError) :=
  match add_peer_conn new_peer c with
  | Some (p, true) => Some (set_peers m (<[get_peer_id c := p]> (peer_map m)), Ok ())
  | Some (_, false) => Some (m, Err SecretKeyError)
  | None => None
  end.

(** [None] is also the panic of [unwrap] when the entry has gone. *)
Definition add_to_existing (m : PeerMap) (c : PeerConn) : option (PeerMap * result unit PeerError) :=
  p ← peer_map m !! get_peer_id c;
  match add_peer_conn p c with
  | Some (p, ok) => Some (set_peers m (<[get_peer_id c := p]> (peer_map m)), if ok : bool then Ok () else Err SecretKeyError)
  | None => None
  end.

Definition add_new_peer_conn (m : PeerMap) (c : PeerConn) (client_url : option Z) : option (PeerMap * result unit PeerError) :=
  let m := maintain_alive_client_urls m client_url (conn_id c) in
  if no_entry m c then add_to_new m c else add_to_existing m c.

Definition get_peer_by_id (m : PeerMap) (id : Z) : option Peer := peer_map m !! id.
Definition is_self (m : PeerMap) (id : Z) : bool := id =? my_peer_id m.
Definition has_peer (m : PeerMap) (id : Z) : bool := is_self m id || bool_decide (is_Some (peer_map m !! id)).
Definition has_direct_attached_peer (m : PeerMap) (id : Z) : bool := from_option has_direct_attached_conn false (peer_map m !! id).
Definition list_peers (m : PeerMap) : list Z := map fst (iter (peer_map m)).
Definition list_peers_with_conn (m : PeerMap) : list Z := map fst (List.filter (λ e, has_live_conns e.2) (iter (peer_map m))).

Definition get_directly_connections_by_peer_id (m : PeerMap) (id : Z) : gset Z := from_option get_directly_connections ∅ (peer_map m !! id).
Definition get_peer_default_conn_id (m : PeerMap) (id : Z) : option Z := get_default_conn_id <$> peer_map m !! id.
Definition get_peer_identity_type (m : PeerMap) (id : Z) : option PeerIdentityType := p ← peer_map m !! id; peer_identity_type p.
Definition get_peer_public_key (m : PeerMap) (id : Z) : option (list Z) := p ← peer_map m !! id; peer_public_key p.

Definition get_gateway_peer_id (m : PeerMap) (dst : Z) (policy : NextHopPolicy) : option Z :=
  if is_self m dst then Some dst
  else if bool_decide (policy = LeastHop) && from_option has_live_conns false (peer_map m !! dst) then Some dst
  else find_map (λ route, route dst policy) (routes m).

Definition need_relay_by_foreign_network (m : PeerMap) (dst : Z) : result bool PeerError :=
  match get_gateway_peer_id m dst LeastHop with
  | Some gateway => Ok (negb (has_peer m gateway))
  | None => Err RouteError
  end.

(** ** Sending *)

(** How a packet left: over a connection, to this node itself. *)
Inductive Departure : Type := OverConn (peer conn : Z) | ToSelf.

(** [Peer::send_msg]. *)
Definition peer_send (m : PeerMap) (dst : Z) (p : Peer) (fk : option FlowKey) (is_data : bool) (now : Z) (sink_ok : bool)
    : PeerMap * result Departure PeerError :=
  let '(p, r) := try_send_msg hash_one p fk is_data now sink_ok in
  (set_peers m (<[dst := p]> (peer_map m)),
   match r with SentOver id => Ok (OverConn dst id) | SendFailed _ => Err TunnelError | NoConnection => Err (PeerNoConnectionError dst) end).

Definition send_msg_directly (m : PeerMap) (dst : Z) (fk : option FlowKey) (is_data : bool) (now : Z) (sink_ok : bool)
    : PeerMap * result Departure PeerError :=
  if is_self m dst then (m, Ok ToSelf)
  else match peer_map m !! dst with
  | Some p => peer_send m dst p fk is_data now sink_ok
  | None => (m, Err RouteError)
  end.

Definition send_msg (m : PeerMap) (dst : Z) (policy : NextHopPolicy) (fk : option FlowKey) (is_data : bool) (now : Z) (sink_ok : bool)
    : PeerMap * result Departure PeerError :=
  match get_gateway_peer_id m dst policy with
  | Some gateway => send_msg_directly m gateway fk is_data now sink_ok
  | None => (m, Err RouteError)
  end.

(** ** Closing *)

(** [close_peer_conn] of the map; the outer [None] waits for room in the channel of the peer. *)
Definition map_close_peer_conn (m : PeerMap) (id conn : Z) : option (PeerMap * result unit PeerError) :=
  match peer_map m !! id with
  | Some p =>
      r ← close_peer_conn p conn;
      Some (set_peers m (<[id := r.1]> (peer_map m)), if r.2 : bool then Ok () else Err NotFound)
  | None => Some (m, Err NotFound)
  end.

Definition close_peer (m : PeerMap) (id : Z) : PeerMap := set_peers m (delete id (peer_map m)).

(** The clean-up: the peers listed without an open connection; listing closes the others' dead
    connections, [None] when it has to wait. *)
Definition clean_one (st : PeerMap * list Z) (id : Z) : option (PeerMap * list Z) :=
  let '(m, to_remove) := st in
  match peer_map m !! id with
  | None => Some (m, to_remove ++ [id])
  | Some p =>
      match list_peer_conns p with
      | Some (p, open_conns) =>
          Some (set_peers m (<[id := p]> (peer_map m)), match open_conns with [] => to_remove ++ [id] | _ => to_remove end)
      | None => None
      end
  end.

Definition clean_list (m : PeerMap) : option (PeerMap * list Z) := try_fold clean_one (list_peers m) (m, []).
Definition clean_remove (m : PeerMap) (to_remove : list Z) : PeerMap := foldl close_peer m to_remove.
Definition clean_peer_without_conn (m : PeerMap) : option PeerMap :=
  r ← clean_list m; Some (clean_remove r.1 r.2).

(** ** The report for the peer center *)

Definition min_measured_latency_us (latencies : list Z) : option Z :=
  match List.filter (λ l, 0 <? l) latencies with [] => None | l :: ls => Some (foldl Z.min l ls) end.

(** The peers of the maps in order with their least latency in ms; a peer is looked up in the first
    map that has it. *)
Definition direct_peer_latency (maps : list PeerMap) (peer : Z) : option Z :=
  p ← find_map (λ m, peer_map m !! peer) maps;
  min_lat ← min_measured_latency_us (map latency_us (List.filter (λ c, negb (is_closed c)) (listed p)));
  Some (Z.max 1 (wrap 32 min_lat / 1000)).

Definition direct_peer_info (maps : list PeerMap) : gmap Z Z :=
  let peers := foldl (λ s m, list_to_set (list_peers m) ∪ s) (∅ : gset Z) maps in
  map_imap (λ peer _, direct_peer_latency maps peer) (gset_to_gmap () peers).

(** ** The client of foreign networks *)

Definition fc_get_next_hop (fc : PeerMap) (peer : Z) : option Z := if has_peer fc peer then Some peer else None.
Definition fc_has_next_hop (fc : PeerMap) (peer : Z) : bool := bool_decide (is_Some (fc_get_next_hop fc peer)).

Definition fc_send_msg (fc : PeerMap) (peer : Z) (fk : option FlowKey) (is_data : bool) (now : Z) (sink_ok : bool)
    : PeerMap * result Departure PeerError :=
  match fc_get_next_hop fc peer with
  | Some next_hop => send_msg_directly fc next_hop fk is_data now sink_ok
  | None => (fc, Err RouteError)
  end.

(** ** [send_msg_internal] *)

(** Where a packet goes; a relayed one goes on through the relay sessions. *)
Inductive Way : Type := Direct (d : Departure) | Foreign (d : Departure) | Relayed (dst : Z) (policy : NextHopPolicy).

Definition as_way (f : Departure → Way) (r : result Departure PeerError) : result Way PeerError :=
  match r with Ok d => Ok (f d) | Err e => Err e end.

Definition reaches (m fc : PeerMap) (gateway : Z) : bool := has_peer m gateway || fc_has_next_hop fc gateway.

Definition send_onward (m fc : PeerMap) (dst : Z) (policy : NextHopPolicy) (fk : option FlowKey) (is_data : bool) (now : Z) (sink_ok : bool)
    : PeerMap * PeerMap * result Way PeerError :=
  if is_self m dst then let '(m, r) := send_msg_directly m dst fk is_data now sink_ok in (m, fc, as_way Direct r)
  else if fc_has_next_hop fc dst then let '(fc, r) := fc_send_msg fc dst fk is_data now sink_ok in (m, fc, as_way Foreign r)
  else match get_gateway_peer_id m dst policy with
  | Some gateway => if reaches m fc gateway then (m, fc, Ok (Relayed dst policy)) else (m, fc, Err RouteError)
  | None =>
      if fc_has_next_hop fc dst then let '(fc, r) := fc_send_msg fc dst fk is_data now sink_ok in (m, fc, as_way Foreign r)
      else (m, fc, Err RouteError)
  end.

(** The connection of the peer itself before any way around; [p2p_only] ends here when there is one. *)
Definition send_nearest (m fc : PeerMap) (dst : Z) (policy : NextHopPolicy) (p2p_only : bool) (fk : option FlowKey)
    (is_data : bool) (now : Z) (sink_ok : bool) : PeerMap * PeerMap * result Way PeerError :=
  match peer_map m !! dst with
  | Some p =>
      match peer_send m dst p fk is_data now sink_ok with
      | (m, Err (PeerNoConnectionError _)) =>
          if p2p_only then (m, fc, Err (PeerNoConnectionError dst)) else send_onward m fc dst policy fk is_data now sink_ok
      | (m, r) => (m, fc, as_way Direct r)
      end
  | None => send_onward m fc dst policy fk is_data now sink_ok
  end.

(** [None]: the packet has no header. *)
Definition send_msg_internal (m fc : PeerMap) (msg : ZCPacket.t) (dst : Z) (p2p_only : bool) (now : Z) (sink_ok : bool)
    : option (PeerMap * PeerMap * result Way PeerError) :=
  header ← ZCPacket.peer_manager_header msg;
  payload_len ← data_packet_payload_len msg;
  let is_data := bool_decide (is_Some payload_len) in
  let is_latency_first := PeerManagerHeader.is_latency_first header in
  let policy := get_next_hop_policy is_latency_first in
  let latency_first_gateway :=
    if is_latency_first
    then gateway ← get_gateway_peer_id m dst policy; if gateway =? dst then None else Some gateway
    else None in
  Some (if from_option (reaches m fc) false latency_first_gateway then (m, fc, Ok (Relayed dst policy))
        else send_nearest m fc dst policy p2p_only (ZCPacket.flow_key msg) is_data now sink_ok).

(** *** Interleavings *)

(** A call that adds a connection goes on as it saw the map, which may have changed since. *)
Inductive MapEvent : Type :=
| AddSaw (saw_none : bool) (c : PeerConn) (client_url : option Z)
| ClientClosed (url id : Z)
| InPeer (id : Z) (ev : PeerEvent)             (* the calls, the tasks and the drivers of a peer *)
| SendTo (dst : Z) (policy : NextHopPolicy) (fk : option FlowKey) (is_data : bool) (now : Z) (sink_ok : bool)
| ClosePeer (id : Z) | CleanUp
| AddRoute (route : NextHops) | ClearResources.

Definition add_route (m : PeerMap) (route : NextHops) : PeerMap :=
  mkPeerMap (my_peer_id m) (peer_map m) (route :: routes m) (alive_client_urls m).

Definition clear_resources (m : PeerMap) : PeerMap :=
  let m := foldl close_peer m (list_peers m) in mkPeerMap (my_peer_id m) (peer_map m) [] ∅.

Definition map_step (m : PeerMap) (ev : MapEvent) : option PeerMap :=
  match ev with
  | AddSaw saw_none c client_url =>
      let m := maintain_alive_client_urls m client_url (conn_id c) in
      fst <$> (if saw_none then add_to_new m c else add_to_existing m c)
  | ClientClosed url id => Some (client_closed m url id)
  | InPeer id ev =>
      match ev with
      | AddBegin _ => None             (* only through [AddSaw] *)
      | _ => p ← peer_map m !! id; p ← peer_step hash_one p ev; Some (set_peers m (<[id := p]> (peer_map m)))
      end
  | SendTo dst policy fk is_data now sink_ok => Some (send_msg m dst policy fk is_data now sink_ok).1
  | ClosePeer id => Some (close_peer m id)
  | CleanUp => clean_peer_without_conn m
  | AddRoute route => Some (add_route m route)
  | ClearResources => Some (clear_resources m)
  end.

Definition new_map (id : Z) : PeerMap := mkPeerMap id ∅ [] ∅.
Definition map_run (id : Z) (evs : list MapEvent) : option PeerMap := try_fold map_step evs (new_map id).

(** ** What the map holds *)

(** Every peer is as its calls leave it, and its connections were made with it. *)
Definition peer_ok (id : Z) (p : Peer) : Prop :=
  peer_inv p ∧ ∀ cid c, arcs p !! cid = Some c → get_peer_id c = id.

Definition map_ok (m : PeerMap) : Prop := ∀ id p, peer_map m !! id = Some p → peer_ok id p.

(** A peer with an open connection. *)
Definition live (m : PeerMap) (dst : Z) : Prop := ∃ p id, peer_map m !! dst = Some p ∧ usable p id.

Lemma has_live_conns_spec p : peer_inv p → has_live_conns p = true ↔ ∃ id, usable p id.
Proof.
  intros Hi. unfold has_live_conns. rewrite orb_true_iff. split.
  - intros [Hd|He].
    + destruct (default_conn p) as [id|] eqn:Ed; [|done]. exists id. split; [by apply (pi_default p Hi)|done].
    + apply existsb_exists in He as (c & Hc & Ho). rewrite <- list_elem_of_In, listed_spec in Hc. destruct Hc as (id & Hid & Hc).
      exists id. split; [done|]. apply arc_open_spec. exists c. split; [done|]. by apply negb_true_iff.
  - intros (id & Hid & Ho). right. apply arc_open_spec in Ho as (c & Hc & Ho). apply existsb_exists. exists c.
    rewrite <- list_elem_of_In, listed_spec. split; [eauto|]. by rewrite Ho.
Qed.

Lemma no_live_conns p : peer_inv p → has_live_conns p = false ↔ ∀ id, id ∈ conns p → arc_open p id = false.
Proof.
  intros Hi. rewrite <- not_true_iff_false, has_live_conns_spec by done. split.
  - intros Hn id Hid. destruct (arc_open p id) eqn:Eo; [|done]. exfalso. apply Hn. by exists id.
  - intros Hn (id & Hid & Ho). rewrite Hn in Ho; done.
Qed.

Lemma live_spec m dst : map_ok m → live m dst ↔ from_option has_live_conns false (peer_map m !! dst) = true.
Proof.
  intros Hm. unfold live. destruct (peer_map m !! dst) as [p|] eqn:Ep; cbn.
  - rewrite has_live_conns_spec by apply (Hm _ _ Ep). naive_solver.
  - naive_solver.
Qed.

(** Sending to a peer keeps its connections, and finds an open one if there is one. *)
Lemma peer_send_spec m dst p fk is_data now ok m' r :
  map_ok m → peer_map m !! dst = Some p → peer_send m dst p fk is_data now ok = (m', r) →
  map_ok m' ∧ my_peer_id m' = my_peer_id m ∧ routes m' = routes m ∧ alive_client_urls m' = alive_client_urls m ∧
  (∀ id, id ≠ dst → peer_map m' !! id = peer_map m !! id) ∧ is_Some (peer_map m' !! dst) ∧
  match r with
  | Ok (OverConn d id) => d = dst ∧ usable p id ∧ ok = true
  | Err TunnelError => live m dst ∧ ok = false
  | Err (PeerNoConnectionError d) => d = dst ∧ ¬ live m dst ∧ ¬ live m' dst
  | _ => False
  end.
Proof.
  intros Hm Hp. destruct (Hm _ _ Hp) as [Hi Hid]. unfold peer_send, try_send_msg.
  pose proof (choose_conn_ok hash_one p fk is_data now Hi) as Hc.
  destruct (choose_conn hash_one p fk is_data now) as [q r0]. destruct Hc as (Hq & Hch & Hs & _).
  pose proof Hs as (Ha & Hcn & _).
  assert (Hset : ∀ p', peer_ok dst p' → map_ok (set_peers m (<[dst := p']> (peer_map m)))).
  { intros p' Hp' id p0. cbn. rewrite lookup_insert_Some. intros [[<- <-]|[_ Hp0]]; [done|]. by apply Hm. }
  assert (Hqok : peer_ok dst q) by (split; [done|]; intros cid c; rewrite Ha; apply Hid).
  assert (Hfr : ∀ p', (∀ id, id ≠ dst → peer_map (set_peers m (<[dst := p']> (peer_map m))) !! id = peer_map m !! id) ∧
    is_Some (peer_map (set_peers m (<[dst := p']> (peer_map m))) !! dst))
    by (intros p'; cbn; split; [intros id Hne; by rewrite lookup_insert_ne|by rewrite lookup_insert_eq]).
  destruct r0 as [id|].
  - destruct ok; intros [= <- <-]; destruct (Hfr (if true then q else q)) as [F1 F2].
    + split; [by apply Hset|]. do 3 (split; [done|]). split; [apply Hfr|]. split; [apply Hfr|]. by split_and!.
    + split.
      { apply Hset. split; [by apply update_arc_inv|]. intros cid c. cbn. rewrite lookup_alter_Some, Ha.
        intros [[-> (c0 & Hc0 & ->)]|[_ Hc0]]; [cbn|]; by eapply Hid. }
      do 3 (split; [done|]). split; [apply Hfr|]. split; [apply Hfr|]. split; [by exists p, id|done].
  - intros [= <- <-]. split; [by apply Hset|]. do 3 (split; [done|]). split; [apply Hfr|]. split; [apply Hfr|].
    split; [done|]. assert (Hn : ∀ id, ¬ usable p id) by (intros id [Hin Ho]; by rewrite Hch in Ho).
    split; [intros (p0 & id & Hp0 & Hu); rewrite Hp in Hp0; injection Hp0 as <-; by eapply Hn|].
    intros (p0 & id & Hp0 & [Hin Ho]). cbn in Hp0. rewrite lookup_insert_eq in Hp0. injection Hp0 as <-.
    apply (Hn id). split; [by rewrite <- Hcn|]. unfold arc_open in *. by rewrite <- Ha.
Qed.

(** *** Connections stay with their peer *)

Definition of_peer (id : Z) (p : Peer) : Prop := ∀ cid c, arcs p !! cid = Some c → get_peer_id c = id.

Lemma of_peer_arcs id p p' : arcs p' = arcs p → of_peer id p → of_peer id p'.
Proof. intros E Ho cid c. rewrite E. apply Ho. Qed.

Lemma of_peer_update id p cid f : (∀ c, get_peer_id (f c) = get_peer_id c) → of_peer id p → of_peer id (update_arc p cid f).
Proof.
  intros Hf Ho cid' c. cbn. rewrite lookup_alter_Some. intros [[-> (c0 & Hc & ->)]|[_ Hc]]; [rewrite Hf|]; by eapply Ho.
Qed.

Lemma of_peer_begin id p c p' : of_peer id p → get_peer_id c = id → add_begin p c = Some p' → of_peer id p'.
Proof.
  intros Ho Hc. unfold add_begin. destruct (arcs p !! conn_id c); [done|]. intros [= <-] cid c'. cbn.
  rewrite lookup_insert_Some. intros [[_ <-]|[_ Hc']]; [done|by eapply Ho].
Qed.

Lemma of_peer_add_step id p cid p' r : of_peer id p → add_step p cid = Some (p', r) → of_peer id p'.
Proof.
  intros Ho. unfold add_step. destruct (adding p !! cid) as [st|]; [|done]. destruct (arcs p !! cid) as [c|]; [|done]. cbn [mbind option_bind].
  assert (Ha : arcs (add_action p c st).1 = arcs p)
    by (unfold add_action; destruct st; [destruct (peer_identity_type p); [case_bool_decide|]| |destruct (peer_public_key p); [case_bool_decide|]| |]; done).
  destruct (add_action p c st) as [q [st'|[]]]; cbn in Ha; intros [= <- <-]; try (by eapply of_peer_arcs).
  apply of_peer_update; [done|]. by eapply of_peer_arcs.
Qed.

Lemma of_peer_add_rest id n p cid p' ok : of_peer id p → add_rest n p cid = Some (p', ok) → of_peer id p'.
Proof.
  revert p. induction n as [|n IH]; intros p Ho; [done|]. cbn [add_rest].
  destruct (add_step p cid) as [[q [ok'|]]|] eqn:E; [|apply IH; by eapply of_peer_add_step|done].
  intros [= -> ->]. by eapply of_peer_add_step.
Qed.

Lemma add_peer_conn_ok p c p' ok : peer_ok (get_peer_id c) p → add_peer_conn p c = Some (p', ok) → peer_ok (get_peer_id c) p'.
Proof.
  intros [Hi Ho]. unfold add_peer_conn. destruct (add_begin p c) as [q|] eqn:Eb; [|done]. cbn [mbind option_bind]. intros Hr.
  split; [eapply add_rest_inv; [|done]; by eapply add_begin_inv|]. eapply of_peer_add_rest; [|done]. by eapply of_peer_begin.
Qed.

Lemma close_peer_conn_arcs p cid p' ok : close_peer_conn p cid = Some (p', ok) → arcs p' = arcs p ∧ conns p' = conns p.
Proof.
  unfold close_peer_conn, push_event. case_bool_decide; [|by intros [= <- <-]].
  destruct (len (close_events p) <? CLOSE_EVENTS); [|done]. by intros [= <- <-].
Qed.

Lemma peer_step_of_peer id p ev p' :
  match ev with AddBegin _ => False | _ => True end → of_peer id p → peer_step hash_one p ev = Some p' → of_peer id p'.
Proof.
  intros Hev Ho. destruct ev; cbn; [done|..].
  - intros ([q r] & Hs & ->)%fmap_Some. by eapply of_peer_add_step.
  - intros [= <-]. by apply of_peer_update.
  - intros [= <-]. by apply of_peer_update.
  - unfold watcher_step, push_event. destruct (_ && _); [|done]. case_match; [|done]. by intros [= <-].
  - unfold listener_step. destruct (listener p); [destruct (close_events p); [done|]|..]; intros [= <-]; try done.
    case_bool_decide; [|done]. by case_bool_decide.
  - intros [= <-] cid c. unfold clear_step. destruct (1 <? size (conns p))%nat; cbn; rewrite map_lookup_imap;
      (destruct (arcs p !! cid) as [c0|] eqn:Ec; [|done]); cbn; case_bool_decide; intros [= <-]; cbn; by eapply Ho.
  - intros ([q r] & Hs & ->)%fmap_Some. apply close_peer_conn_arcs in Hs as [Hs _]. by eapply of_peer_arcs.
  - intros [= <-]. unfold try_send_msg.
    assert (Ha : arcs (choose_conn hash_one p flow_key is_data now).1 = arcs p).
    { clear. unfold choose_conn, select_flow_conn, select_conn.
      destruct is_data, flow_key; repeat case_match; simplify_eq/=; done. }
    destruct (choose_conn hash_one p flow_key is_data now) as [q [cid|]]; cbn in Ha; [|by eapply of_peer_arcs].
    destruct sink_ok; [by eapply of_peer_arcs|]. apply of_peer_update; [done|by eapply of_peer_arcs].
Qed.

(** *** The clean-up and the invariant of runs *)

(** Maps that differ in what a peer remembers of its connections. *)
Definition alike (m m' : PeerMap) : Prop :=
  my_peer_id m' = my_peer_id m ∧ routes m' = routes m ∧ alive_client_urls m' = alive_client_urls m ∧
  ∀ id, match peer_map m !! id, peer_map m' !! id with
        | Some p, Some p' => arcs p' = arcs p ∧ conns p' = conns p
        | None, None => True
        | _, _ => False
        end.

Lemma alike_refl m : alike m m.
Proof. do 3 (split; [done|]). intros id. by destruct (peer_map m !! id). Qed.

Lemma alike_trans m1 m2 m3 : alike m1 m2 → alike m2 m3 → alike m1 m3.
Proof.
  intros (A1 & B1 & C1 & D1) (A2 & B2 & C2 & D2). do 3 (split; [congruence|]). intros id. specialize (D1 id). specialize (D2 id).
  destruct (peer_map m1 !! id), (peer_map m2 !! id), (peer_map m3 !! id); try done. destruct D1, D2. split; congruence.
Qed.

Lemma alike_live m m' id : alike m m' → live m id ↔ live m' id.
Proof.
  intros (_ & _ & _ & Hd). specialize (Hd id). unfold live, usable, arc_open.
  destruct (peer_map m !! id) as [p|], (peer_map m' !! id) as [p'|]; [|done..|].
  - destruct Hd as [Ha Hc]. split; intros (q & cid & [= <-] & Hu); [exists p'|exists p]; exists cid; (split; [done|]); rewrite Ha, Hc in *; done.
  - split; intros (q & cid & ? & _); done.
Qed.

Lemma set_peer_alike m id p p' :
  peer_map m !! id = Some p → arcs p' = arcs p → conns p' = conns p → alike m (set_peers m (<[id := p']> (peer_map m))).
Proof.
  intros Hp Ha Hc. do 3 (split; [done|]). intros id'. cbn. destruct (decide (id = id')) as [<-|Hne].
  - rewrite Hp, lookup_insert_eq. done.
  - rewrite lookup_insert_ne by done. by destruct (peer_map m !! id').
Qed.

Lemma map_ok_insert m id p : map_ok m → peer_ok id p → map_ok (set_peers m (<[id := p]> (peer_map m))).
Proof. intros Hm Hp id' p'. cbn. rewrite lookup_insert_Some. intros [[<- <-]|[_ Hp']]; [done|by apply Hm]. Qed.

Lemma list_peer_conns_spec p p' open_conns : peer_inv p → list_peer_conns p = Some (p', open_conns) →
  peer_inv p' ∧ arcs p' = arcs p ∧ conns p' = conns p ∧ (open_conns = [] ↔ ∀ id, ¬ usable p id).
Proof.
  intros Hi. unfold list_peer_conns. destruct (try_fold _ _ _) as [q|] eqn:Eq; [|done]. cbn [mbind option_bind]. intros [= <- <-].
  apply (try_fold_pres (λ _ q, peer_inv q ∧ arcs q = arcs p ∧ conns q = conns p)) in Eq; [|done|].
  - destruct Eq as (? & ? & ?). do 3 (split; [done|]). split.
    + intros Hn id [Hid Ho]. apply arc_open_spec in Ho as (c & Hc & Hcl).
      assert (Hin : c ∈ List.filter (λ c, negb (is_closed c)) (listed p)) by (apply elem_of_filter_open; eauto).
      rewrite Hn in Hin. by apply elem_of_nil in Hin.
    + intros Hn. destruct (List.filter _ _) as [|c l] eqn:El; [done|]. exfalso.
      assert (Hin : c ∈ List.filter (λ c, negb (is_closed c)) (listed p)) by (rewrite El; by left).
      apply elem_of_filter_open in Hin as (Ho & id & Hid & Hc). apply (Hn id). split; [done|]. apply arc_open_spec. eauto.
  - clear Eq q. intros dn c q q' _ (Hq & Ha & Hc). destruct (is_closed c); [|by intros [= <-]].
    intros ([q1 r] & Hs & ->)%fmap_Some. destruct (close_peer_conn_arcs _ _ _ _ Hs) as [E1 E2].
    split; [by eapply close_peer_conn_inv|]. cbn. split; congruence.
Qed.

Lemma live_usable m id p : peer_map m !! id = Some p → live m id ↔ ∃ cid, usable p cid.
Proof. unfold live. intros Hp. rewrite Hp. split; [intros (q & cid & [= <-] & ?); eauto|intros [cid ?]; eauto]. Qed.

Lemma clean_list_spec m m' gone : map_ok m → clean_list m = Some (m', gone) →
  map_ok m' ∧ alike m m' ∧ ∀ id, id ∈ gone ↔ id ∈ list_peers m ∧ ¬ live m id.
Proof.
  intros Hm. unfold clean_list.
  apply (try_fold_pres (λ dn st, map_ok st.1 ∧ alike m st.1 ∧ ∀ id, id ∈ st.2 ↔ id ∈ dn ∧ ¬ live m id) clean_one _ _ (m', gone)).
  { split; [done|]. split; [apply alike_refl|]. cbn. set_solver. }
  intros dn id [q rem] [q' rem'] _ (Hq & Ha & Hr). cbn [fst snd] in *. unfold clean_one.
  assert (Hl := alike_live m q id Ha). destruct (peer_map q !! id) as [p|] eqn:Ep.
  - destruct (list_peer_conns p) as [[p' open_conns]|] eqn:El; [|done]. intros [= <- <-].
    destruct (Hq _ _ Ep) as [Hpi Hpo]. destruct (list_peer_conns_spec p p' open_conns Hpi El) as (Hi & Harc & Hcn & Hop).
    rewrite (live_usable q id p Ep) in Hl.
    split; [apply map_ok_insert; [done|split; [done|by eapply of_peer_arcs]]|].
    split; [eapply alike_trans; [done|by eapply set_peer_alike]|]. intros id'.
    destruct open_conns as [|o os].
    + assert (¬ live m id) by (rewrite Hl; intros [cid Hu]; by apply (proj1 Hop eq_refl cid)). set_solver.
    + assert (live m id).
      { rewrite Hl. destruct (has_live_conns p) eqn:Eh; [by apply has_live_conns_spec|]. exfalso.
        assert (o :: os = []); [|done]. apply Hop. intros cid Hu. assert (has_live_conns p = true); [|congruence].
        apply has_live_conns_spec; [done|]. by exists cid. }
      set_solver.
  - intros [= <- <-]. split; [done|]. split; [done|]. intros id'.
    assert (¬ live m id) by (rewrite Hl; intros (p & cid & ? & _); congruence). set_solver.
Qed.

Lemma foldl_close l m id : peer_map (foldl close_peer m l) !! id = if bool_decide (id ∈ l) then None else peer_map m !! id.
Proof.
  revert m. induction l as [|x l IH]; intros m; cbn [foldl]; [done|]. rewrite IH. cbn. case_bool_decide as Hin.
  - by rewrite bool_decide_eq_true_2 by by right.
  - destruct (decide (x = id)) as [->|Hne].
    + rewrite lookup_delete_eq. by rewrite bool_decide_eq_true_2 by by left.
    + rewrite lookup_delete_ne by done. rewrite bool_decide_eq_false_2; [done|]. by intros [->|?]%elem_of_cons.
Qed.

Lemma foldl_close_ok l m : map_ok m → map_ok (foldl close_peer m l).
Proof. intros Hm id p. rewrite foldl_close. case_bool_decide; [done|]. by apply Hm. Qed.

Lemma elem_of_list_peers m id : id ∈ list_peers m ↔ is_Some (peer_map m !! id).
Proof.
  unfold list_peers. rewrite list_elem_of_fmap. split.
  - intros ([k p] & -> & Hin). rewrite iter_perm, elem_of_map_to_list in Hin. eauto.
  - intros [p Hp]. exists (id, p). split; [done|]. by rewrite iter_perm, elem_of_map_to_list.
Qed.

Lemma new_peer_ok id : peer_ok id new_peer.
Proof. split; [apply new_peer_inv|done]. Qed.

Lemma peer_send_ok m dst p fk is_data now ok : map_ok m → peer_map m !! dst = Some p → map_ok (peer_send m dst p fk is_data now ok).1.
Proof.
  intros Hm Hp. destruct (peer_send m dst p fk is_data now ok) as [m' r] eqn:E. by eapply peer_send_spec.
Qed.

Lemma map_step_ok m ev m' : map_ok m → map_step m ev = Some m' → map_ok m'.
Proof.
  intros Hm. destruct ev as [saw c url|url id|id ev|dst policy fk is_data now ok|id| |route|]; cbn [map_step].
  - set (n := maintain_alive_client_urls m url (conn_id c)).
    assert (Hn : map_ok n) by (unfold n; by destruct url). clearbody n. intros ([n' r] & Hs & ->)%fmap_Some. cbn.
    destruct saw; revert Hs; [unfold add_to_new|unfold add_to_existing].
    + destruct (add_peer_conn new_peer c) as [[p []]|] eqn:Ea; [..|done]; intros [= <- <-]; [|done].
      apply map_ok_insert; [done|]. by eapply add_peer_conn_ok; [apply new_peer_ok|].
    + destruct (peer_map n !! get_peer_id c) as [p|] eqn:Ep; [|done]. cbn [mbind option_bind].
      destruct (add_peer_conn p c) as [[p' ok]|] eqn:Ea; [|done]. intros [= <- <-].
      apply map_ok_insert; [done|]. eapply add_peer_conn_ok; [|done]. by apply Hn.
  - intros [= <-]. unfold client_closed. by destruct (alive_client_urls m !! url).
  - assert (Hs : match ev with AddBegin _ => False | _ => True end →
      (p ← peer_map m !! id; p ← peer_step hash_one p ev; Some (set_peers m (<[id := p]> (peer_map m)))) = Some m' → map_ok m').
    { intros Hev. destruct (peer_map m !! id) as [p|] eqn:Ep; [|done]. cbn [mbind option_bind].
      destruct (peer_step hash_one p ev) as [p'|] eqn:Es; [|done]. cbn [mbind option_bind]. intros [= <-]. destruct (Hm _ _ Ep) as [Hi Ho].
      apply map_ok_insert; [done|]. split; [by eapply peer_step_inv|by eapply peer_step_of_peer]. }
    destruct ev; [done|..]; by apply Hs.
  - intros [= <-]. unfold send_msg, send_msg_directly. destruct (get_gateway_peer_id m dst policy) as [g|]; [|done].
    destruct (is_self m g); [done|]. destruct (peer_map m !! g) as [p|] eqn:Ep; [|done]. by apply peer_send_ok.
  - intros [= <-]. by apply (foldl_close_ok [id]).
  - unfold clean_peer_without_conn. destruct (clean_list m) as [[n gone]|] eqn:Ec; [|done]. cbn. intros [= <-].
    apply foldl_close_ok. by eapply clean_list_spec.
  - intros [= <-]. exact Hm.
  - intros [= <-]. intros id p. cbn. by apply (foldl_close_ok (list_peers m) m Hm).
Qed.

Lemma map_run_ok id evs m : map_run id evs = Some m → map_ok m.
Proof.
  intros Hr. apply (try_fold_pres (λ _ m, map_ok m) map_step evs (new_map id) m); [done| |done].
  intros _ ev a a' _. apply map_step_ok.
Qed.

(** C26: the clean-up removes the dead peers and only them: after any interleaving of calls, each with the
    view of the map it began with, the peers that are left are those with an open connection, each
    connection still with the peer it was made with. *)
Theorem clean_keeps_live my_id evs m m' :
  map_run my_id evs = Some m → clean_peer_without_conn m = Some m' →
  (∀ id, is_Some (peer_map m' !! id) ↔ live m id) ∧ (∀ id, live m' id ↔ live m id) ∧
  ∀ id p cid c, peer_map m' !! id = Some p → arcs p !! cid = Some c → get_peer_id c = id.
Proof.
  intros Hm%map_run_ok. unfold clean_peer_without_conn. destruct (clean_list m) as [[n gone]|] eqn:Ec; [|done]. cbn. intros [= <-].
  destruct (clean_list_spec m n gone Hm Ec) as (Hn & Ha & Hg). unfold clean_remove.
  assert (Hkey : ∀ id, is_Some (peer_map (foldl close_peer n gone) !! id) ↔ live m id).
  { intros id. rewrite foldl_close. pose proof Ha as (_ & _ & _ & Hd). specialize (Hd id). case_bool_decide as Hin.
    - apply Hg in Hin as [_ Hl]. split; [by intros []|done].
    - split.
      + intros Hs. destruct (decide (id ∈ list_peers m)) as [Hl|Hl].
        * rewrite live_spec by done. destruct (from_option _ _ _) eqn:E; [done|]. exfalso. apply Hin, Hg. split; [done|].
          rewrite live_spec by done. by rewrite E.
        * rewrite elem_of_list_peers in Hl. destruct (peer_map m !! id); [by destruct Hl|]. by destruct Hs as [? Hs]; rewrite Hs in Hd.
      + intros (p & cid & Hp & _). rewrite Hp in Hd. by destruct (peer_map n !! id). }
  split; [done|]. split.
  - intros id. rewrite (alike_live m n id Ha). unfold live. rewrite foldl_close. case_bool_decide as Hin; [|done].
    apply Hg in Hin as [_ Hl]. rewrite (alike_live m n id Ha) in Hl. unfold live in Hl. split; [by intros (? & ? & ? & _)|done].
  - intros id p cid c Hp Hc. by eapply (foldl_close_ok gone n Hn id p).
Qed.

(** *** The way of a packet *)

Lemma map_run_id id evs m : map_run id evs = Some m → my_peer_id m = id.
Proof.
  intros Hr. apply (try_fold_pres (λ _ m, my_peer_id m = id) map_step evs (new_map id) m); [done| |done].
  intros _ ev a a' _ Ha. rewrite <- Ha. clear. destruct ev as [saw c url|url cid|pid ev|dst policy fk is_data now ok|pid| |route|]; cbn [map_step].
  - set (n := maintain_alive_client_urls a url (conn_id c)). assert (Hn : my_peer_id n = my_peer_id a) by (unfold n; by destruct url).
    clearbody n. intros ([n' r] & Hs & ->)%fmap_Some. rewrite <- Hn. revert Hs. destruct saw; [unfold add_to_new|unfold add_to_existing].
    + destruct (add_peer_conn new_peer c) as [[p []]|]; [..|done]; by intros [= <- <-].
    + destruct (peer_map n !! get_peer_id c) as [p|]; [|done]. cbn [mbind option_bind].
      destruct (add_peer_conn p c) as [[p' ok]|]; [|done]. by intros [= <- <-].
  - intros [= <-]. unfold client_closed. by destruct (alive_client_urls a !! url).
  - destruct ev; [done|..]; (destruct (peer_map a !! pid); [|done]); cbn [mbind option_bind];
      (destruct (peer_step _ _ _); [|done]); cbn [mbind option_bind]; by intros [= <-].
  - intros [= <-]. unfold send_msg, send_msg_directly, peer_send. destruct (get_gateway_peer_id a dst policy) as [g|]; [|done].
    destruct (is_self a g); [done|]. destruct (peer_map a !! g) as [p|]; [|done]. by destruct (try_send_msg _ _ _ _ _ _) as [q []].
  - by intros [= <-].
  - unfold clean_peer_without_conn. destruct (clean_list a) as [[n gone]|] eqn:Ec; [|done]. cbn. intros [= <-].
    assert (Hn : my_peer_id n = my_peer_id a).
    { apply (try_fold_pres (λ _ st, my_peer_id st.1 = my_peer_id a) clean_one (list_peers a) (a, []) (n, gone)); [done| |done].
      intros _ x [b rem] [b' rem'] _ Hb. unfold clean_one. cbn in *. destruct (peer_map b !! x); [|by intros [= <- <-]].
      destruct (list_peer_conns _) as [[]|]; [|done]. by intros [= <- <-]. }
    rewrite <- Hn. unfold clean_remove. clear. revert n. induction gone as [|x l IH]; intros n; cbn; [done|]. by rewrite IH.
  - by intros [= <-].
  - intros [= <-]. cbn. generalize (list_peers a). intros l. clear. revert a. induction l as [|x l IH]; intros n; cbn; [done|]. by rewrite IH.
Qed.

(** What an outcome says of the maps. *)
Definition outcome_fits (m fc : PeerMap) (dst : Z) (policy : NextHopPolicy) (p2p_only ok : bool) (r : result Way PeerError) : Prop :=
  match r with
  | Ok (Direct (OverConn d id)) => d = dst ∧ ok = true ∧ ∃ p, peer_map m !! dst = Some p ∧ usable p id
  | Ok (Direct ToSelf) => dst = my_peer_id m ∧ ¬ live m dst
  | Ok (Foreign (OverConn d id)) => d = dst ∧ ok = true ∧ ¬ live m dst ∧ dst ≠ my_peer_id m ∧ ∃ p, peer_map fc !! dst = Some p ∧ usable p id
  | Ok (Foreign ToSelf) => False
  | Ok (Relayed d pol) =>
      d = dst ∧ pol = policy ∧ ¬ live m dst ∧ dst ≠ my_peer_id m ∧ peer_map fc !! dst = None ∧
      (p2p_only = true → peer_map m !! dst = None) ∧ ∃ gw, get_gateway_peer_id m dst policy = Some gw ∧ reaches m fc gw = true
  | Err RouteError =>
      ¬ live m dst ∧ dst ≠ my_peer_id m ∧ peer_map fc !! dst = None ∧
      ∀ gw, get_gateway_peer_id m dst policy = Some gw → reaches m fc gw = false
  | Err (PeerNoConnectionError d) => d = dst ∧ ¬ live m dst ∧ (p2p_only = true ∨ dst ≠ my_peer_id m ∧ is_Some (peer_map fc !! dst) ∧ ¬ live fc dst)
  | Err TunnelError => ok = false ∧ (live m dst ∨ live fc dst)
  | Err _ => False
  end.

Lemma fc_has_next_hop_spec fc dst : dst ≠ my_peer_id fc → fc_has_next_hop fc dst = true ↔ is_Some (peer_map fc !! dst).
Proof.
  intros Hne. unfold fc_has_next_hop, fc_get_next_hop, has_peer, is_self. apply Z.eqb_neq in Hne. rewrite Hne. cbn.
  rewrite bool_decide_eq_true. case_bool_decide; naive_solver.
Qed.

Lemma fc_send_spec m fc dst policy p2p_only fk is_data now ok fc' r :
  map_ok fc → my_peer_id fc = my_peer_id m → dst ≠ my_peer_id m → ¬ live m dst → fc_has_next_hop fc dst = true →
  fc_send_msg fc dst fk is_data now ok = (fc', r) → outcome_fits m fc dst policy p2p_only ok (as_way Foreign r).
Proof.
  intros Hf Hid Hne Hl Hh. apply fc_has_next_hop_spec in Hh as Hs; [|congruence]. destruct Hs as [p Hp].
  unfold fc_send_msg. assert (Hnext : fc_get_next_hop fc dst = Some dst).
  { unfold fc_has_next_hop, fc_get_next_hop in *. by destruct (has_peer fc dst). }
  rewrite Hnext. unfold send_msg_directly, is_self. rewrite Hid. rewrite (proj2 (Z.eqb_neq _ _) Hne), Hp.
  intros Hs. destruct (peer_send_spec _ _ _ _ _ _ _ _ _ Hf Hp Hs) as (_ & _ & _ & _ & _ & _ & Hr).
  destruct r as [[d id|]|[]]; cbn; try done; naive_solver.
Qed.

Lemma send_onward_spec m fc m0 dst policy p2p_only fk is_data now ok m' fc' r :
  map_ok fc → my_peer_id fc = my_peer_id m → ¬ live m0 dst → my_peer_id m = my_peer_id m0 →
  (∀ gw, has_peer m gw = has_peer m0 gw) → get_gateway_peer_id m dst policy = get_gateway_peer_id m0 dst policy →
  (p2p_only = true → peer_map m0 !! dst = None) →
  send_onward m fc dst policy fk is_data now ok = (m', fc', r) → outcome_fits m0 fc dst policy p2p_only ok r.
Proof.
  intros Hf Hid Hl Hme Hhas Hgw Hp2p. unfold send_onward. destruct (is_self m dst) eqn:Es.
  - unfold send_msg_directly. rewrite Es. intros [= <- <- <-]. cbn. split; [apply Z.eqb_eq in Es; congruence|done].
  - apply Z.eqb_neq in Es. destruct (fc_has_next_hop fc dst) eqn:Eh.
    + destruct (fc_send_msg _ _ _ _ _ _) as [fc1 r1] eqn:Ef. intros [= <- <- <-].
      eapply fc_send_spec; [done| | |done|done|done]; congruence.
    + assert (Hfn : peer_map fc !! dst = None).
      { apply eq_None_not_Some. intros Hs. apply fc_has_next_hop_spec in Hs; [|congruence]. congruence. }
      assert (Hr : ∀ gw, reaches m fc gw = reaches m0 fc gw) by (intros gw; unfold reaches; by rewrite Hhas).
      rewrite Hgw. destruct (get_gateway_peer_id m0 dst policy) as [gw|] eqn:Eg.
      * rewrite Hr. destruct (reaches m0 fc gw) eqn:Er; intros [= <- <- <-]; cbn; rewrite Hme in Es; rewrite ?Eg; split_and!; try done; naive_solver.
      * intros [= <- <- <-]. cbn. rewrite Hme in Es. rewrite Eg. split_and!; done.
Qed.

(** What a send that found no open connection leaves: the same look-ups. *)
Lemma after_dead_peer m dst p fk is_data now ok m' d policy :
  map_ok m → peer_map m !! dst = Some p → peer_send m dst p fk is_data now ok = (m', Err (PeerNoConnectionError d)) →
  my_peer_id m' = my_peer_id m ∧ (∀ gw, has_peer m' gw = has_peer m gw) ∧
  get_gateway_peer_id m' dst policy = get_gateway_peer_id m dst policy.
Proof.
  intros Hm Hp Hs. destruct (peer_send_spec _ _ _ _ _ _ _ _ _ Hm Hp Hs) as (Hm' & Hid & Hro & _ & Hfr & [p' Hp'] & _ & Hl & Hl').
  split; [done|]. split.
  - intros gw. unfold has_peer, is_self. rewrite Hid. destruct (decide (gw = dst)) as [->|Hne]; [by rewrite Hp, Hp'|by rewrite Hfr].
  - unfold get_gateway_peer_id, is_self. rewrite Hid, Hro. rewrite live_spec in Hl, Hl' by done. apply not_true_iff_false in Hl, Hl'.
    by rewrite Hl, Hl'.
Qed.

(** C21: the nearest way is taken: a latency first packet goes to a relay when the cheapest route begins with
    another neighbour that is reached; every other packet goes over an open connection of its destination
    whenever there is one, then to this node itself, then over the foreign network, and is relayed only
    when none of these is there and the route's next hop is reached; each error says which of them failed. *)
Theorem way_is_nearest my_id evs evs_fc m fc msg header dst p2p_only now ok :
  map_run my_id evs = Some m → map_run my_id evs_fc = Some fc → ZCPacket.peer_manager_header msg = Some header →
  data_packet_payload_len msg ≠ None →
  let policy := get_next_hop_policy (PeerManagerHeader.is_latency_first header) in
  let detour := PeerManagerHeader.is_latency_first header = true ∧
    ∃ gw, get_gateway_peer_id m dst LeastCost = Some gw ∧ gw ≠ dst ∧ reaches m fc gw = true in
  ∃ m' fc' r, send_msg_internal m fc msg dst p2p_only now ok = Some (m', fc', r) ∧
    (detour → r = Ok (Relayed dst LeastCost)) ∧ (¬ detour → outcome_fits m fc dst policy p2p_only ok r).
Proof.
  intros Hrm Hrf Hh Hlen policy detour. pose proof (map_run_ok _ _ _ Hrm) as Hm. pose proof (map_run_ok _ _ _ Hrf) as Hf.
  assert (Hid : my_peer_id fc = my_peer_id m) by (rewrite (map_run_id _ _ _ Hrm); by apply map_run_id in Hrf).
  unfold send_msg_internal. rewrite Hh. cbn [mbind option_bind]. destruct (data_packet_payload_len msg) as [len|]; [|done].
  cbn [mbind option_bind]. fold policy. set (lfg := if PeerManagerHeader.is_latency_first header then _ else None).
  assert (Hd : from_option (reaches m fc) false lfg = true ↔ detour).
  { unfold detour, lfg, policy. destruct (PeerManagerHeader.is_latency_first header); cbn [get_next_hop_policy]; [|naive_solver].
    destruct (get_gateway_peer_id m dst LeastCost) as [gw|]; cbn; [|naive_solver].
    destruct (gw =? dst) eqn:Eg; cbn; [apply Z.eqb_eq in Eg|apply Z.eqb_neq in Eg]; naive_solver. }
  assert (Hp : from_option (reaches m fc) false lfg = true → policy = LeastCost)
    by (intros [Hl _]%Hd; unfold policy; by rewrite Hl).
  clearbody lfg detour. destruct (from_option (reaches m fc) false lfg) eqn:Ed.
  { exists m, fc, (Ok (Relayed dst policy)). rewrite Hp by done. split; [done|]. split; [done|]. intros Hn. exfalso. by apply Hn, Hd. }
  destruct (send_nearest _ _ _ _ _ _ _ _ _) as [[m' fc'] r] eqn:Es. exists m', fc', r. split; [done|].
  split; [intros Hdt%Hd; done|]. intros _. revert Es. unfold send_nearest.
  destruct (peer_map m !! dst) as [p|] eqn:Epm.
  - destruct (peer_send _ _ _ _ _ _ _) as [m1 r1] eqn:Eps.
    destruct (peer_send_spec _ _ _ _ _ _ _ _ _ Hm Epm Eps) as (Hm1 & Hid1 & _ & _ & _ & _ & Hr).
    assert (Hal : my_peer_id m1 = my_peer_id m) by done.
    destruct r1 as [[d id|]|[|d| | |]]; try done.
    + intros [= <- <- <-]. cbn. destruct Hr as (? & ? & ?). split_and!; [done..|]. eauto.
    + destruct Hr as (-> & Hl & Hl'). destruct p2p_only.
      * intros [= <- <- <-]. cbn. split_and!; auto.
      * destruct (after_dead_peer _ _ _ _ _ _ _ _ _ policy Hm Epm Eps) as (A1 & A2 & A3).
        intros Hs. eapply send_onward_spec; [exact Hf| |exact Hl|exact A1|exact A2|exact A3|done|exact Hs]. congruence.
    + intros [= <- <- <-]. cbn. naive_solver.
  - intros Hs. eapply send_onward_spec; [exact Hf|done| |done|done|done|done|exact Hs].
    intros (p & ? & Hp' & _). congruence.
Qed.

End PeerMap.

(** ** Witnesses and examples *)

Definition conn_to (id peer latency : Z) : PeerConn := mkConn id peer Admin [1] Manual false latency false.
Definition data_to (dst : Z) (latency_first : bool) : option ZCPacket.t :=
  p ← ZCPacket.new_with_payload (replicate 64 0) (replicate 8 7);
  p ← ZCPacket.fill_peer_manager_hdr p 1 dst (packet_type_u8 Data);
  ZCPacket.update_peer_manager_header p (λ header, PeerManagerHeader.set_latency_first header latency_first).

(** Peers 2 and 3 are added; the connection to 2 is closed later; a route reaches 2 and 4 over 3. *)
Definition over_3 : NextHops := λ dst _, if (dst =? 2) || (dst =? 4) then Some 3 else None.
Definition two_peers : list MapEvent := [AddSaw true (conn_to 11 2 9000) None; AddSaw true (conn_to 12 3 2000) (Some 5); AddRoute over_3].
Definition lost_2 : list MapEvent := two_peers ++ [InPeer 2 (ConnClosed 11)].

Lemma clean_keeps_live_witness :
  ∃ m m', map_run demo_hash 1 lost_2 = Some m ∧ clean_peer_without_conn m = Some m' ∧
    is_Some (peer_map m !! 2) ∧ peer_map m' !! 2 = None ∧ is_Some (peer_map m' !! 3).
Proof.
  destruct (map_run demo_hash 1 lost_2) as [m|] eqn:E; [|vm_compute in E; discriminate].
  destruct (clean_peer_without_conn m) as [m'|] eqn:E'; [|vm_compute in E; injection E as <-; vm_compute in E'; discriminate].
  exists m, m'. split; [reflexivity|]. split; [exact E'|].
  destruct (clean_keeps_live demo_hash 1 lost_2 m m' E E') as (Hk & _ & _).
  split; [vm_compute in E; injection E as <-; vm_compute; eexists; reflexivity|]. split.
  - apply eq_None_not_Some. intros Hs. apply Hk in Hs as (p & cid & Hp & Hin & Ho).
    assert (Hall : default false ((λ p, bool_decide (conns p = {[11]}) && negb (arc_open p 11)) <$> peer_map m !! 2) = true)
      by (vm_compute in E; injection E as <-; vm_compute; reflexivity).
    rewrite Hp in Hall. cbn in Hall. apply andb_true_iff in Hall as [Hc Hn]. apply bool_decide_eq_true in Hc.
    rewrite Hc in Hin. apply elem_of_singleton in Hin as ->. rewrite Ho in Hn. discriminate.
  - apply Hk. assert (Hall : default false ((λ p, bool_decide (12 ∈ conns p) && arc_open p 12) <$> peer_map m !! 3) = true)
      by (vm_compute in E; injection E as <-; vm_compute; reflexivity).
    destruct (peer_map m !! 3) as [p|] eqn:Hp; [|discriminate]. cbn in Hall. apply andb_true_iff in Hall as [Hc Ho].
    apply bool_decide_eq_true in Hc. exists p, 12. split; [exact Hp|]. split; [exact Hc|exact Ho].
Defined.

(** Packets to 2 take its connection, and the route over 3 when that has gone, before any clean-up. *)
Definition way_of (evs : list MapEvent) (dst : Z) (latency_first : bool) : option (result Way PeerError) :=
  m ← map_run demo_hash 1 evs; msg ← data_to dst latency_first;
  snd <$> send_msg_internal demo_hash m (new_map 1) msg dst false 0 true.

Example ways :
  (way_of two_peers 2 false, way_of lost_2 2 false, way_of two_peers 2 true, way_of two_peers 4 false, way_of two_peers 1 false, way_of two_peers 9 false) =
  (Some (Ok (Direct (OverConn 2 11))), Some (Ok (Relayed 2 LeastHop)), Some (Ok (Relayed 2 LeastCost)), Some (Ok (Relayed 4 LeastHop)),
   Some (Ok (Direct ToSelf)), Some (Err RouteError)).
Proof. vm_compute. reflexivity. Qed.

Lemma way_is_nearest_witness :
  ∃ m msg m' fc' r, map_run demo_hash 1 lost_2 = Some m ∧ data_to 2 false = Some msg ∧
    send_msg_internal demo_hash m (new_map 1) msg 2 false 0 true = Some (m', fc', r) ∧ ¬ live m 2 ∧
    reaches m (new_map 1) 3 = true.
Proof.
  destruct (map_run demo_hash 1 lost_2) as [m|] eqn:E; [|vm_compute in E; discriminate].
  destruct (data_to 2 false) as [msg|] eqn:Em; [|vm_compute in Em; discriminate].
  destruct (ZCPacket.peer_manager_header msg) as [header|] eqn:Eh; [|vm_compute in Em; injection Em as <-; vm_compute in Eh; discriminate].
  destruct (way_is_nearest demo_hash 1 lost_2 [] m (new_map 1) msg header 2 false 0 true E eq_refl Eh) as (m' & fc' & r & Es & _ & Hn).
  { vm_compute in Em. injection Em as <-. vm_compute. discriminate. }
  exists m, msg, m', fc', r. split; [reflexivity|]. split; [reflexivity|]. split; [exact Es|].
  assert (Hlf : PeerManagerHeader.is_latency_first header = false)
    by (vm_compute in Em; injection Em as <-; vm_compute in Eh; injection Eh as <-; vm_compute; reflexivity).
  assert (Hr : r = Ok (Relayed 2 LeastHop)).
  { vm_compute in Em. injection Em as <-. vm_compute in E. injection E as <-. vm_compute in Es. injection Es as _ _ <-. reflexivity. }
  subst r. destruct Hn as (_ & _ & Hl & _ & _ & _ & gw & Hg & Hrc); [rewrite Hlf; intros [Hx _]; discriminate Hx|].
  split; [exact Hl|]. assert (gw = 3); [|subst gw; exact Hrc].
  clear -E Hg Hlf. rewrite Hlf in Hg. vm_compute in E. injection E as <-. vm_compute in Hg. injection Hg as <-. reflexivity.
Defined.

(** Two first connections of a peer at once: both calls see no entry and succeed, the second one's
    entry replaces the first one's, whose connection is dropped with it. *)
Example overlapping_adds_lose_conn :
  (λ m, conns <$> peer_map m !! 2) <$> map_run demo_hash 1 [AddSaw true (conn_to 11 2 0) None; AddSaw true (conn_to 12 2 0) None]
  = Some (Some {[12]}).
Proof. vm_compute. reflexivity. Qed.

(** The clean-up lists a dead peer; a connection that is added before it removes the peer goes too. *)
Example cleanup_drops_new_conn :
  (m ← map_run demo_hash 1 lost_2; r ← clean_list m;
   m ← add_new_peer_conn r.1 (conn_to 13 2 0) None;
   Some (m.2, from_option has_live_conns false (peer_map m.1 !! 2), has_peer (clean_remove m.1 r.2) 2)) = Some (Ok (), true, false).
Proof. vm_compute. reflexivity. Qed.

(** An entry that goes between the two look-ups of the call makes it panic. *)
Example vanished_peer_panics : map_run demo_hash 1 (two_peers ++ [ClosePeer 2; AddSaw false (conn_to 13 2 0) None]) = None.
Proof. vm_compute. reflexivity. Qed.

(** A peer of two maps is reported with the latency of the first, not with the lowest; without a measured
    connection there it is not reported at all. *)
Example first_map_reported :
  (m1 ← map_run demo_hash 1 [AddSaw true (conn_to 11 2 50000) None; AddSaw true (conn_to 12 3 0) None];
   m2 ← map_run demo_hash 1 [AddSaw true (conn_to 21 2 3000) None; AddSaw true (conn_to 22 3 4000) None];
   Some (map_to_list (direct_peer_info [m1; m2]))) = Some [(2, 50)].
Proof. vm_compute. reflexivity. Qed.
