(* ===== verification/PacketRouter.v ===== *)
(** * The packet router of the peer manager

    Models the packet paths of easytier-core/src/peers/peer_manager.rs: what becomes of a packet from a
    peer ([PeerPacketRouter]), where a packet of the host goes ([PeerOutboundPacketRouter]), the pipeline of
    peer filters and the tracker of recent traffic.

    The routers compose PeerMap (the way of a packet), AclFilter and Compressor.  A call is one step.
    What the relay sessions and the foreign networks do with a packet is an argument or a result; the
    ciphers are arguments, and so are what the routes know, the filters and the clocks.  Counters and log
    lines are left out.  A panic is [None]. *)

From stdpp Require Import base gmap list numbers sets.
From Stdlib Require Import ZArith Lia.
From S2P Require Import Prelude Packet IpParse Compressor Acl AclFilter Dhcp RouteTable RouteService PeerConns PeerLiveness PeerMap.
Local Open Scope Z_scope.

(** ** Relay data *)

(** Where a packet came from. *)
Inductive PeerPacketIngress : Type := Local | FromPeer (peer conn : Z) (origin : PeerConnectionOrigin).

Definition ingress_is_attached (i : PeerPacketIngress) : bool :=
  match i with FromPeer _ _ Attached => true | _ => false end.

Definition is_relay_data_packet_type (packet_type : Z) : bool :=
  bool_decide (traffic_kind packet_type = DataTraffic) || (packet_type =? packet_type_u8 ForeignNetworkPacket).

Definition is_relay_data_zc_packet (packet : ZCPacket.t) : option bool :=
  match ZCPacket.peer_manager_header packet with
  | None => Some false
  | Some hdr =>
      if PeerManagerHeader.packet_type hdr =? packet_type_u8 ForeignNetworkPacket then
        inner ← ZCPacket.foreign_network_inner_packet_type packet;
        Some (match inner with Some t => is_relay_data_packet_type t | None => true end)
      else Some (is_relay_data_packet_type (PeerManagerHeader.packet_type hdr))
  end.

Definition should_drop_relay_data (disable_relay_data : bool) (packet : ZCPacket.t) (my_peer_id : Z)
    (ingress : PeerPacketIngress) (destination_is_attached : bool) : option bool :=
  if negb disable_relay_data then Some false
  else
    is_data ← is_relay_data_zc_packet packet;
    Some (if is_data : bool then
            let is_forwarded := from_option (λ h, negb (PeerManagerHeader.to_peer_id h =? my_peer_id)) false
              (ZCPacket.peer_manager_header packet) in
            is_forwarded && negb (ingress_is_attached ingress) && negb destination_is_attached
          else false).

(** ** The pipeline of peer filters *)

Inductive PeerPacketFilterResult : Type := Consumed | Pass (p : ZCPacket.t) | PassBatch (ps : list ZCPacket.t).

Section Pipeline.
(** [St] is what the filters keep. *)
Context {St : Type}.

(** [filter_if_active] reads the flag when the entry's turn comes. *)
Record PeerPipelineEntry : Type := mkEntry {
  active : St → bool;
  try_process_packet_from_peer : St → ZCPacket.t → St * PeerPacketFilterResult }.

Context (pipelines : list PeerPipelineEntry).

(** The inner loop, from the entry [next - 1] down: [inl] is a packet that no filter took, [inr] the
    packets to resume, with the number of entries that are left for them. *)
Fixpoint run_filters (next : nat) (st : St) (packet : ZCPacket.t) : St * (ZCPacket.t + list (ZCPacket.t * nat)) :=
  match next with
  | O => (st, inl packet)
  | S index =>
      match pipelines !! index with
      | None => run_filters index st packet
      | Some entry =>
          if active entry st then
            match try_process_packet_from_peer entry st packet with
            | (st, Consumed) => (st, inr [])
            | (st, Pass packet) => run_filters index st packet
            | (st, PassBatch packets) => (st, inr (map (λ p, (p, index)) packets))
            end
          else run_filters index st packet
      end
  end.

(** The outer loop; [pending] is the stack, its top first.  The result has the unhandled packets. *)
Fixpoint process_loop (fuel : nat) (st : St) (pending : list (ZCPacket.t * nat)) (unhandled : list ZCPacket.t)
    : option (St * list ZCPacket.t) :=
  match pending, fuel with
  | [], _ => Some (st, unhandled)
  | _, O => None
  | (packet, next) :: pending, S fuel =>
      match run_filters next st packet with
      | (st, inl packet) => process_loop fuel st pending (unhandled ++ [packet])
      | (st, inr packets) => process_loop fuel st (packets ++ pending) unhandled
      end
  end.

Definition process_peer_packet (fuel : nat) (st : St) (packet : ZCPacket.t) : option (St * list ZCPacket.t) :=
  process_loop fuel st [(packet, length pipelines)] [].

(** What the pipeline means: each packet goes down the entries; the packets of a batch go on one
    after the other, each to its end. *)
Fixpoint deliver (next : nat) (st : St) (packet : ZCPacket.t) : St * list ZCPacket.t :=
  match next with
  | O => (st, [packet])
  | S index =>
      match pipelines !! index with
      | None => deliver index st packet
      | Some entry =>
          if active entry st then
            match try_process_packet_from_peer entry st packet with
            | (st, Consumed) => (st, [])
            | (st, Pass packet) => deliver index st packet
            | (st, PassBatch packets) =>
                foldl (λ acc p, let '(st, out) := deliver index acc.1 p in (st, acc.2 ++ out)) (st, []) packets
            end
          else deliver index st packet
      end
  end.

Definition deliver_all (next : nat) (st : St) (packets : list ZCPacket.t) : St * list ZCPacket.t :=
  foldl (λ acc p, let '(st, out) := deliver next acc.1 p in (st, acc.2 ++ out)) (st, []) packets.

Lemma deliver_all_acc next st out packets :
  foldl (λ acc p, let '(st, o) := deliver next acc.1 p in (st, acc.2 ++ o)) (st, out) packets =
  let '(st', o) := deliver_all next st packets in (st', out ++ o).
Proof.
  unfold deliver_all. revert st out. induction packets as [|p ps IH]; intros st out; cbn [foldl]; [by rewrite app_nil_r|].
  cbn [fst snd]. destruct (deliver next st p) as [st1 o1]. rewrite (IH st1 (out ++ o1)), (IH st1 ([] ++ o1)).
  destruct (foldl _ _ ps) as [st2 o2]. cbn. by rewrite app_assoc.
Qed.

(** A loop that ends after a packet is done for ends with the packet before it. *)
Lemma process_one next : ∀ st packet pending unhandled res,
  (let '(st', out) := deliver next st packet in ∃ fuel, process_loop fuel st' pending (unhandled ++ out) = Some res) →
  ∃ fuel, process_loop fuel st ((packet, next) :: pending) unhandled = Some res.
Proof.
  induction next as [|index IH]; intros st packet pending unhandled res; [intros [f Hf]; by exists (S f)|].
  assert (Hpass : ∀ st' packet', run_filters (S index) st packet = run_filters index st' packet' →
    deliver (S index) st packet = deliver index st' packet' →
    (let '(st1, out) := deliver (S index) st packet in ∃ fuel, process_loop fuel st1 pending (unhandled ++ out) = Some res) →
    ∃ fuel, process_loop fuel st ((packet, S index) :: pending) unhandled = Some res).
  { intros st' packet' Hr -> Hd. destruct (IH _ _ _ _ _ Hd) as [[|f] Hf]; [done|]. exists (S f).
    cbn [process_loop] in *. by rewrite Hr. }
  assert (Hmany : ∀ ps st0 u, (let '(st1, out) := deliver_all index st0 ps in ∃ fuel, process_loop fuel st1 pending (u ++ out) = Some res) →
    ∃ fuel, process_loop fuel st0 (map (λ p, (p, index)) ps ++ pending) u = Some res).
  { intros ps. induction ps as [|p ps IHps]; intros st0 u; unfold deliver_all; cbn [foldl map app fst snd].
    - rewrite app_nil_r. done.
    - destruct (deliver index st0 p) as [st1 o1] eqn:Ed. rewrite deliver_all_acc. cbn [app].
      destruct (deliver_all index st1 ps) as [st2 o2] eqn:Eall. intros Hf. apply IH. rewrite Ed. apply IHps. rewrite Eall.
      by rewrite <- app_assoc. }
  destruct (pipelines !! index) as [entry|] eqn:Ee.
  2: { apply (Hpass st packet); cbn; by rewrite Ee. }
  destruct (active entry st) eqn:Ea.
  2: { apply (Hpass st packet); cbn; by rewrite Ee, Ea. }
  destruct (try_process_packet_from_peer entry st packet) as [st' [|packet'|packets]] eqn:Et.
  - cbn [deliver]. rewrite Ee, Ea, Et. rewrite app_nil_r. intros [f Hf]. exists (S f). cbn [process_loop run_filters]. by rewrite Ee, Ea, Et.
  - apply (Hpass st' packet'); cbn; by rewrite Ee, Ea, Et.
  - cbn [deliver]. rewrite Ee, Ea, Et. intros Hd. destruct (Hmany packets st' unhandled Hd) as [f Hf]. exists (S f).
    cbn [process_loop run_filters]. by rewrite Ee, Ea, Et.
Qed.

Lemma process_more fuel fuel' st pending unhandled res :
  process_loop fuel st pending unhandled = Some res → (fuel ≤ fuel')%nat → process_loop fuel' st pending unhandled = Some res.
Proof.
  revert fuel' st pending unhandled. induction fuel as [|fuel IH]; intros fuel' st pending unhandled; destruct pending as [|[packet next] pending];
    cbn [process_loop]; try done.
  - by destruct fuel'.
  - by destruct fuel'.
  - destruct fuel' as [|fuel']; [lia|]. cbn [process_loop]. destruct (run_filters next st packet) as [st' []]; intros Hr Hle; apply IH; [done|lia|done|lia].
Qed.

(** C25: the pipeline is what it means: whatever the filters do, the loop over the stack of pending packets
    ends, and leaves the filters and the unhandled packets as the recursive delivery does, where the packets
    that a filter returns go on after it, one after the other, each to its end. *)
Theorem pipeline_delivers_in_order st packet :
  ∃ n, ∀ fuel, (n ≤ fuel)%nat → process_peer_packet fuel st packet = Some (deliver (length pipelines) st packet).
Proof.
  destruct (process_one (length pipelines) st packet [] [] (deliver (length pipelines) st packet)) as [n Hn].
  - destruct (deliver _ st packet) as [st' out]. by exists 0%nat.
  - exists n. intros fuel. by apply process_more.
Qed.

End Pipeline.

(** ** The last filters of the pipeline *)

(** Where a packet ends; the channels are unbounded or drop when they are full. *)
Inductive Taken : Type := ToNic (p : ZCPacket.t) | ToRpc (p : ZCPacket.t).

(** [NicPacketProcessor] and [PeerRpcPacketProcessor]; [None] is a packet without a header. *)
Definition nic_packet_processor (packet : ZCPacket.t) : option (list Taken * PeerPacketFilterResult) :=
  hdr ← ZCPacket.peer_manager_header packet;
  Some (if (PeerManagerHeader.packet_type hdr =? packet_type_u8 Data) && negb (Flags.contains (PeerManagerHeader.flags hdr) Flags.NOT_SEND_TO_TUN) then
          (if PeerManagerHeader.is_encrypted hdr || PeerManagerHeader.is_compressed hdr then [] else [ToNic packet], Consumed)
        else ([], Pass packet)).

Definition rpc_packet_processor (packet : ZCPacket.t) : option (list Taken * PeerPacketFilterResult) :=
  hdr ← ZCPacket.peer_manager_header packet;
  Some (if existsb (λ t, PeerManagerHeader.packet_type hdr =? packet_type_u8 t) [TaRpc; RpcReq; RpcResp]
        then ([ToRpc packet], Consumed) else ([], Pass packet)).

(** ** Recent traffic *)

Definition RECENT_HAVE_TRAFFIC_TTL : Z := 30 * NANOS.

Definition should_mark_recent_traffic_for_fanout (total_dst_peers : Z) : bool := total_dst_peers <=? 1.

(** The times in nanoseconds; [notified] counts the wake-ups of the tasks that connect on demand. *)
Record RecentTrafficTracker : Type := mkTracker { tracker_peer_id : Z; recent_have_traffic : gmap Z Z; notified : Z }.

Definition new_tracker (id : Z) : RecentTrafficTracker := mkTracker id ∅ 0.

Section Tracker.
Context (has_directly_connected_conn : Z → bool).

Definition mark_traffic (t : RecentTrafficTracker) (dst : Z) (disable_p2p lazy_p2p : bool) (now : Z) : RecentTrafficTracker :=
  if dst =? tracker_peer_id t then t
  else if disable_p2p || negb lazy_p2p || has_directly_connected_conn dst then t
  else
    let seen := <[dst := now]> (recent_have_traffic t) in
    match recent_have_traffic t !! dst with
    | Some last_seen =>
        mkTracker (tracker_peer_id t) seen
          (if RECENT_HAVE_TRAFFIC_TTL <? saturating_sub now last_seen then notified t + 1 else notified t)
    | None => mkTracker (tracker_peer_id t) seen (notified t + 1)
    end.

Definition has_traffic (t : RecentTrafficTracker) (peer now : Z) : bool :=
  if has_directly_connected_conn peer then false
  else from_option (λ last_seen, saturating_sub now last_seen <=? RECENT_HAVE_TRAFFIC_TTL) false (recent_have_traffic t !! peer).

Definition clear_traffic (t : RecentTrafficTracker) (peer : Z) : RecentTrafficTracker :=
  mkTracker (tracker_peer_id t) (delete peer (recent_have_traffic t)) (notified t).

Definition gc_traffic (t : RecentTrafficTracker) (now : Z) : RecentTrafficTracker :=
  mkTracker (tracker_peer_id t)
    (filter (λ kv, ¬ (RECENT_HAVE_TRAFFIC_TTL <? saturating_sub now kv.2) || has_directly_connected_conn kv.1 = true) (recent_have_traffic t))
    (notified t).

(** The clean-up is not seen: no answer changes while the direct connections stay. *)
Lemma gc_keeps_demand t now now' peer : now <= now' → has_traffic (gc_traffic t now) peer now' = has_traffic t peer now'.
Proof.
  intros Hle. unfold has_traffic. destruct (has_directly_connected_conn peer) eqn:Ed; [done|]. cbn.
  destruct (recent_have_traffic t !! peer) as [last|] eqn:El; cbn.
  - destruct (filter _ _ !! peer) as [x|] eqn:Ef; cbn.
    + apply map_lookup_filter_Some in Ef as [Ex _]. congruence.
    + rewrite map_lookup_filter_None in Ef. destruct Ef as [Ef|Ef]; [congruence|]. specialize (Ef last El). cbn in Ef.
      rewrite Ed, orb_false_r in Ef. symmetry. unfold saturating_sub in *.
      destruct (Z.ltb_spec RECENT_HAVE_TRAFFIC_TTL (Z.max 0 (now - last))); [|by destruct Ef]. apply Z.leb_gt. lia.
  - destruct (filter _ _ !! peer) as [x|] eqn:Ef; [|done]. apply map_lookup_filter_Some in Ef as [Ex _]. congruence.
Qed.

End Tracker.

(** ** The destinations of an address *)

(** What the routes answer: the owner of an address, the peers of [list_route_infos] with whether they
    have an IPv4 address, the peers of [list_routes], and the gateway of the public IPv6 prefix. *)
Record RouteAnswers : Type := mkAnswers {
  get_peer_id_by_ip : IpAddr → option Z; route_infos : list (Z * bool); listed_routes : list Z; get_public_ipv6_gateway_peer_id : option Z }.

Section Destinations.
Context {V4 V6 : Type} `{Inet V4} `{Inet V6}.

(** The configuration a router reads, [local_exit_node_fallback] from the host routing policy. *)
Record RouterConfig : Type := mkConfig {
  router_peer_id : Z; own_ipv4 : option V4; own_ipv6 : option V6; exit_nodes : list IpAddr; local_exit_node_fallback : bool;
  public_ipv6_lease_contains : Z → bool }.

Implicit Types cfg : RouterConfig.

Definition contains {T} `{Inet T} (network : T) (a : Z) : bool := (first_address network <=? a) && (a <=? last_address network).

Definition is_ip_in_same_network cfg (ip : IpAddr) : bool :=
  match ip with
  | IpV4 a => from_option (λ n, contains n a) false (own_ipv4 cfg)
  | IpV6 a => from_option (λ n, contains n a) false (own_ipv6 cfg)
  end.

Definition is_ip_local_ipv6 cfg (a : Z) : bool :=
  from_option (λ n, address n =? a) false (own_ipv6 cfg) || public_ipv6_lease_contains cfg a.

Definition is_ip_local_virtual_ip cfg (ip : IpAddr) : bool :=
  match ip with
  | IpV4 a => from_option (λ n, address n =? a) false (own_ipv4 cfg)
  | IpV6 a => is_ip_local_ipv6 cfg a
  end.

(** 255.255.255.255, 224.0.0.0/4, ff00::/8 and fe80::/10. *)
Definition is_broadcast_v4 (a : Z) : bool := a =? 2 ^ 32 - 1.
Definition is_multicast_v4 (a : Z) : bool := Z.shiftr a 28 =? 14.
Definition is_multicast_v6 (a : Z) : bool := Z.shiftr a 120 =? 255.
Definition is_unicast_link_local (a : Z) : bool := Z.shiftr a 118 =? 1018.

(** [None] is the [unwrap] of a prefix length that is too long. *)
Definition is_all_peers_broadcast_ipv4 cfg (a : Z) : option bool :=
  ipv4_inet ← inet_new (T := V4) a (from_option network_length 24 (own_ipv4 cfg));
  Some (is_broadcast_v4 a || is_multicast_v4 a || (a =? last_address ipv4_inet)).

Definition is_all_peers_broadcast_ipv6 cfg (a : Z) : option bool :=
  ipv6_inet ← inet_new (T := V6) a (from_option network_length 64 (own_ipv6 cfg));
  Some (is_multicast_v6 a || (a =? last_address ipv6_inet)).

Definition select_ipv4_broadcast_peers (routes : list (Z * bool)) (my_peer_id : Z) : list Z :=
  omap (λ r, if negb (r.1 =? my_peer_id) && r.2 then Some r.1 else None) routes.

(** The first exit node of the family with an owner. *)
Definition exit_node_v4 cfg (r : RouteAnswers) : option Z :=
  find_map (λ ip, match ip with IpV4 _ => get_peer_id_by_ip r ip | IpV6 _ => None end) (exit_nodes cfg).
Definition exit_node_v6 cfg (r : RouteAnswers) : option Z :=
  find_map (λ ip, match ip with IpV6 _ => get_peer_id_by_ip r ip | IpV4 _ => None end) (exit_nodes cfg).

Definition get_msg_dst_peer_ipv4 cfg (r : RouteAnswers) (a : Z) : option (list Z * bool) :=
  is_broadcast ← is_all_peers_broadcast_ipv4 cfg a;
  let '(dst_peers, is_exit_node) :=
    if is_broadcast : bool then (select_ipv4_broadcast_peers (route_infos r) (router_peer_id cfg), false)
    else match get_peer_id_by_ip r (IpV4 a) with
    | Some peer_id => ([peer_id], false)
    | None =>
        if is_ip_in_same_network cfg (IpV4 a) then ([], false)
        else match exit_node_v4 cfg r with Some peer_id => ([peer_id], true) | None => ([], false) end
    end in
  Some (if local_exit_node_fallback cfg && bool_decide (dst_peers = []) && negb (is_ip_in_same_network cfg (IpV4 a))
        then ([router_peer_id cfg], true) else (dst_peers, is_exit_node)).

Definition get_msg_dst_peer_ipv6 cfg (r : RouteAnswers) (a : Z) : option (list Z * bool) :=
  is_broadcast ← is_all_peers_broadcast_ipv6 cfg a;
  Some (if is_broadcast : bool then (listed_routes r, false)
        else match get_peer_id_by_ip r (IpV6 a) with
        | Some peer_id => ([peer_id], false)
        | None =>
            if is_unicast_link_local a then ([], false)
            else match get_public_ipv6_gateway_peer_id r with
            | Some peer_id => ([peer_id], false)
            | None => match exit_node_v6 cfg r with Some peer_id => ([peer_id], true) | None => ([], false) end
            end
        end).

Definition get_msg_dst_peer cfg (r : RouteAnswers) (ip : IpAddr) : option (list Z * bool) :=
  match ip with IpV4 a => get_msg_dst_peer_ipv4 cfg r a | IpV6 a => get_msg_dst_peer_ipv6 cfg r a end.

Context `{!InetLaws V4} `{!InetLaws V6}.

(** An address is a broadcast to all peers when its host bits are all ones: for a node whose network is
    its own address alone, every address is. *)
Lemma single_address_network_broadcasts cfg own a :
  own_ipv4 cfg = Some own → network_length own = width (T := V4) → inet_new (T := V4) a (width (T := V4)) ≠ None →
  is_all_peers_broadcast_ipv4 cfg a = Some true.
Proof.
  intros Ho Hl Hn. unfold is_all_peers_broadcast_ipv4. rewrite Ho. cbn [from_option]. rewrite Hl.
  destruct (inet_new a width) as [i|] eqn:Ei; [|done]. cbn [mbind option_bind].
  destruct (inet_new_spec a width i Ei) as [Ha Hw]. pose proof (inet_span i) as Hs. pose proof (inet_bounds i) as Hb.
  rewrite Hw, Z.sub_diag in Hs. cbn in Hs.
  assert (Hx : a =? last_address i = true) by (apply Z.eqb_eq; lia). rewrite Hx. by rewrite !orb_true_r.
Qed.

Lemma elem_of_broadcast_peers routes me p : p ∈ select_ipv4_broadcast_peers routes me ↔ p ≠ me ∧ (p, true) ∈ routes.
Proof.
  unfold select_ipv4_broadcast_peers. rewrite list_elem_of_omap. split.
  - intros ([q b] & Hq & E). cbn in E. destruct (Z.eqb_spec q me) as [->|Hne]; cbn in E; [done|]. destruct b; [|done]. by injection E as <-.
  - intros [Hne Hp]. exists (p, true). split; [done|]. cbn. by rewrite (proj2 (Z.eqb_neq p me) Hne).
Qed.

Lemma broadcast_peers_NoDup routes me : NoDup (map fst routes) → NoDup (select_ipv4_broadcast_peers routes me).
Proof.
  induction routes as [|[p b] l IH]; [constructor|]. cbn [map]. intros [Hp Hl]%NoDup_cons.
  unfold select_ipv4_broadcast_peers in *. cbn [omap list_omap fst snd]. destruct (_ && _); [|by apply IH].
  constructor; [|by apply IH]. intros [_ Hin]%(elem_of_broadcast_peers l me). apply Hp, list_elem_of_fmap. by exists (p, true).
Qed.

(** What is known of the destinations without a broadcast. *)
Definition goes_to (cfg : RouterConfig) (r : RouteAnswers) (ip : IpAddr) (dsts : list Z) (is_exit : bool) : Prop :=
  match get_peer_id_by_ip r ip with
  | Some p => dsts = [p] ∧ is_exit = false
  | None =>
      dsts = [] ∧ is_exit = false ∨
      (∃ p, dsts = [p] ∧
        match ip with IpV4 _ => is_ip_in_same_network cfg ip = false | IpV6 a => is_unicast_link_local a = false end ∧
        (is_exit = false ∧ get_public_ipv6_gateway_peer_id r = Some p ∨
         is_exit = true ∧ (p = router_peer_id cfg ∧ local_exit_node_fallback cfg = true ∨
           ∃ e, e ∈ exit_nodes cfg ∧ get_peer_id_by_ip r e = Some p)))
  end.

Lemma exit_node_owner cfg r p : exit_node_v4 cfg r = Some p ∨ exit_node_v6 cfg r = Some p →
  ∃ e, e ∈ exit_nodes cfg ∧ get_peer_id_by_ip r e = Some p.
Proof. intros [(e & He & Hp)%find_map_Some|(e & He & Hp)%find_map_Some]; exists e; by destruct e. Qed.


End Destinations.

(** ** Packets from the peers *)

Record PeerPacketPolicy : Type := mkPolicy {
  disable_relay_data : bool; p2p_only : bool; latency_first : bool; disable_p2p : bool; lazy_p2p : bool }.

Definition from_flags (f_disable_relay_data f_p2p_only f_latency_first f_disable_p2p f_lazy_p2p : bool) : PeerPacketPolicy :=
  mkPolicy f_disable_relay_data f_p2p_only (f_latency_first && negb f_p2p_only) f_disable_p2p f_lazy_p2p.

Section Routers.
Context `{HashIter} (hash_one : FlowKey → Z).
Context {V4Cidr V6Cidr : Type} (v4_contains : V4Cidr → Z → bool) (v6_contains : V6Cidr → Z → bool) (ip_to_text : IpAddr → Text).
Context (zstd_available : bool) (zstd_compress : list Z → result (list Z) ZstdError) (zstd_decompress : list Z → Z → result (list Z) ZstdError).
(** The cipher of the network secret changes the packet and says whether it succeeded. *)
Context (encrypt decrypt : ZCPacket.t → ZCPacket.t * bool).
(** What [decrypt_if_needed] of the relay sessions makes of an encrypted packet. *)
Context (session_decrypt : ZCPacket.t → option ZCPacket.t).
Context {St : Type}.

Definition try_compress_and_encrypt (compress_algo : CompressorAlgo) (msg : ZCPacket.t) (secure_mode_enabled : bool)
    : option (ZCPacket.t * bool) :=
  r ← compress zstd_available zstd_compress msg compress_algo;
  let '(msg, res) := r in
  Some (match res with
        | Err _ => (msg, false)
        | Ok _ => if secure_mode_enabled then (msg, true) else encrypt msg
        end).

Record PeerPacketRouter : Type := mkRouter {
  my_peer_id : Z; secure_mode_enabled : bool; is_credential_node : bool; compress_algo : CompressorAlgo;
  peer_packet_process_pipeline : list (@PeerPipelineEntry St) }.

Record RouterState : Type := mkRouterState {
  peers : PeerMap; foreign_client : PeerMap; acl_filter : AclFilter V4Cidr V6Cidr; filters : St }.

(** What a call reads: its addresses, the groups of the peers, the clocks, and the result of a tunnel. *)
Record RouterEnv : Type := mkEnv {
  env_ipv4 : option Z; env_local_ipv6 : Z → bool; env_groups : Z → list Text; env_now : Z; env_secs : Z; env_sink_ok : bool }.

Implicit Types (c : PeerPacketRouter) (st : RouterState) (e : RouterEnv).

(** What became of a packet. *)
Inductive Handled : Type :=
| InvalidPacket | RelayDataDropped | HopsExceeded | HandshakeDropped
| ForwardedOn (msg : ZCPacket.t) (way : result Way PeerError)
| RelayHandshakePacket | DecryptFailed | DecompressFailed | AclDenied
| DeliveredTo (unhandled : list ZCPacket.t).

Definition is_handshake_type (packet_type : Z) : bool :=
  existsb (λ t, packet_type =? packet_type_u8 t) [HandShake; NoiseHandshakeMsg1; NoiseHandshakeMsg2; NoiseHandshakeMsg3].

Definition with_forward_counter (h : PeerManagerHeader.t) (n : Z) : PeerManagerHeader.t :=
  PeerManagerHeader.mk (PeerManagerHeader.from_peer_id h) (PeerManagerHeader.to_peer_id h) (PeerManagerHeader.packet_type h)
    (PeerManagerHeader.flags h) n (PeerManagerHeader.reserved h) (PeerManagerHeader.hdr_len h).

(** The checks of a packet that goes on, and its header. *)
Definition forward_header c (hdr : PeerManagerHeader.t) : Handled + PeerManagerHeader.t :=
  let counter := PeerManagerHeader.forward_counter hdr in
  if 7 <? counter then inl HopsExceeded
  else if is_credential_node c && is_handshake_type (PeerManagerHeader.packet_type hdr) then inl HandshakeDropped
  else
    let hdr := if (2 <? counter) && PeerManagerHeader.is_latency_first hdr then PeerManagerHeader.set_latency_first hdr false else hdr in
    inr (with_forward_counter hdr (wrapping_add 8 counter 1)).

Definition forward_packet c st (ret : ZCPacket.t) (hdr : PeerManagerHeader.t) e : option (RouterState * Handled) :=
  match forward_header c hdr with
  | inl h => Some (st, h)
  | inr hdr' =>
      ret ← ZCPacket.update_peer_manager_header ret (λ _, hdr');
      ret ← (if (PeerManagerHeader.from_peer_id hdr =? my_peer_id c) &&
               existsb (λ t, PeerManagerHeader.packet_type hdr =? packet_type_u8 t) [Data; KcpSrc; KcpDst]
             then fst <$> try_compress_and_encrypt (compress_algo c) ret (secure_mode_enabled c) else Some ret);
      r ← send_msg_internal hash_one (peers st) (foreign_client st) ret (PeerManagerHeader.to_peer_id hdr) false (env_now e) (env_sink_ok e);
      let '(m, fc, way) := r in
      Some (mkRouterState m fc (acl_filter st) (filters st), ForwardedOn ret way)
  end.

(** A decrypted packet for this node. *)
Definition take_packet c st (ret : ZCPacket.t) e : option (RouterState * Handled) :=
  r ← decompress zstd_available zstd_decompress ret;
  match r with
  | (_, Err _) => Some (st, DecompressFailed)
  | (ret, Ok _) =>
      a ← process_packet_with_acl v4_contains v6_contains ip_to_text (acl_filter st)
            (mkCall ret true (env_ipv4 e) (env_local_ipv6 e) (env_groups e) (env_now e) (env_secs e));
      let '(acl, allowed) := a in
      Some (if allowed : bool then
              let '(fs, unhandled) := deliver (peer_packet_process_pipeline c) (length (peer_packet_process_pipeline c)) (filters st) ret in
              (mkRouterState (peers st) (foreign_client st) acl fs, DeliveredTo unhandled)
            else (mkRouterState (peers st) (foreign_client st) acl (filters st), AclDenied))
  end.

Definition receive_packet c st (ret : ZCPacket.t) (hdr : PeerManagerHeader.t) e : option (RouterState * Handled) :=
  if existsb (λ t, PeerManagerHeader.packet_type hdr =? packet_type_u8 t) [RelayHandshake; RelayHandshakeAck] then Some (st, RelayHandshakePacket)
  else if negb (secure_mode_enabled c) then
    match decrypt ret with (ret, true) => take_packet c st ret e | (_, false) => Some (st, DecryptFailed) end
  else if PeerManagerHeader.is_encrypted hdr then
    match session_decrypt ret with Some ret => take_packet c st ret e | None => Some (st, DecryptFailed) end
  else take_packet c st ret e.

Definition destination_is_attached st (packet : ZCPacket.t) : bool :=
  from_option (λ h, has_direct_attached_peer (peers st) (PeerManagerHeader.to_peer_id h)) false (ZCPacket.peer_manager_header packet).

Definition handle_packet c st (ret : ZCPacket.t) (disable_relay : bool) (ingress : PeerPacketIngress) e : option (RouterState * Handled) :=
  drop_relay_data ← should_drop_relay_data disable_relay ret (my_peer_id c) ingress (destination_is_attached st ret);
  match ZCPacket.peer_manager_header ret with
  | None => Some (st, InvalidPacket)
  | Some hdr =>
      if negb (PeerManagerHeader.to_peer_id hdr =? my_peer_id c) then
        if drop_relay_data : bool then Some (st, RelayDataDropped) else forward_packet c st ret hdr e
      else receive_packet c st ret hdr e
  end.

(** ** Packets of foreign networks *)

(** [Continue] gives the packet back to [handle_packet]; [ToForeignNetwork] hands the inner packet to
    the manager of the foreign networks. *)
Inductive ForeignOutcome : Type :=
| Continue (packet : ZCPacket.t) | ForeignDropped
| ToForeignNetwork (name : list Z) (peer : Z) (inner : ZCPacket.t) | ForeignSent (r : result Departure PeerError).

Section Foreign.
Context (utf8_valid : list Z → bool).
(** What the foreign networks and the routes know. *)
Context (get_network_peer_id : list Z → option Z) (get_origin_my_peer_id : list Z → Z → option Z).

Definition try_handle_foreign_network_packet (me : Z) (m : PeerMap) (packet : ZCPacket.t) (drop_relay_data : bool) (now : Z) (sink_ok : bool)
    : option (PeerMap * ForeignOutcome) :=
  pm_header ← ZCPacket.peer_manager_header packet;
  if negb (PeerManagerHeader.packet_type pm_header =? packet_type_u8 ForeignNetworkPacket) then Some (m, Continue packet)
  else if drop_relay_data then Some (m, ForeignDropped)
  else
    mhdr ← ZCPacket.foreign_network_hdr packet;
    foreign_hdr ← mhdr;
    payload ← ZCPacket.payload packet;
    name ← ForeignNetworkPacketHeader.get_network_name utf8_valid foreign_hdr payload;
    let foreign_peer_id := ForeignNetworkPacketHeader.get_dst_peer_id foreign_hdr in
    let to_peer_id := PeerManagerHeader.to_peer_id pm_header in
    if to_peer_id =? me then
      inner ← ZCPacket.foreign_network_packet packet; Some (m, ToForeignNetwork name foreign_peer_id inner)
    else if bool_decide (Some (PeerManagerHeader.from_peer_id pm_header) = get_network_peer_id name) then
      match get_origin_my_peer_id name to_peer_id with
      | None => Some (m, Continue packet)
      | Some to_peer_id =>
          packet ← ZCPacket.update_peer_manager_header packet (λ h, PeerManagerHeader.mk (PeerManagerHeader.from_peer_id h) to_peer_id
            (PeerManagerHeader.packet_type h) (PeerManagerHeader.flags h) (PeerManagerHeader.forward_counter h)
            (PeerManagerHeader.reserved h) (PeerManagerHeader.hdr_len h));
          payload_len ← data_packet_payload_len packet;
          let '(m, r) := send_msg hash_one m to_peer_id LeastHop (ZCPacket.flow_key packet) (bool_decide (is_Some payload_len)) now sink_ok in
          Some (m, ForeignSent r)
      end
    else Some (m, Continue packet).

(** A round of [run]. *)
Inductive Routed : Type := ByForeign (o : ForeignOutcome) | ByRouter (h : Handled).

Definition route_packet c st (ret : ZCPacket.t) (disable_relay : bool) (ingress : PeerPacketIngress) e : option (RouterState * Routed) :=
  is_data ← (if disable_relay then is_relay_data_zc_packet ret else Some false);
  let drop_foreign := is_data && negb (ingress_is_attached ingress) && negb (destination_is_attached st ret) in
  r ← try_handle_foreign_network_packet (my_peer_id c) (peers st) ret drop_foreign (env_now e) (env_sink_ok e);
  let '(m, o) := r in
  let st := mkRouterState m (foreign_client st) (acl_filter st) (filters st) in
  match o with
  | Continue ret => '(st, h) ← handle_packet c st ret disable_relay ingress e; Some (st, ByRouter h)
  | _ => Some (st, ByForeign o)
  end.

(** Relay data is refused: a node that relays no data gives none on unless one end is attached to it. *)
Lemma relay_data_refused c st p h ingress e :
  is_relay_data_zc_packet p = Some true → ZCPacket.peer_manager_header p = Some h →
  PeerManagerHeader.to_peer_id h ≠ my_peer_id c → ingress_is_attached ingress = false → destination_is_attached st p = false →
  ∃ o, route_packet c st p true ingress e = Some (st, o) ∧ (o = ByForeign ForeignDropped ∨ o = ByRouter RelayDataDropped).
Proof.
  intros Hd Hh Hto Hi Ha. unfold route_packet, try_handle_foreign_network_packet. rewrite Hd, Hh. cbn [mbind option_bind]. rewrite Hi, Ha.
  cbn [andb negb]. destruct st as [m fc acl fs]. destruct (negb _); cbn [peers foreign_client acl_filter filters mbind option_bind]; [|eauto].
  unfold handle_packet, should_drop_relay_data. cbn [negb]. rewrite Hd, Hh. cbn [mbind option_bind from_option]. rewrite Hi, Ha.
  rewrite (proj2 (Z.eqb_neq _ _) Hto). cbn. eauto.
Qed.

End Foreign.

(** ** Hops *)

(** A node sends the packet [p] on as [q]. *)
Definition forwarded_by c (p q : ZCPacket.t) : Prop :=
  ∃ st st' disable_relay ingress e way, handle_packet c st p disable_relay ingress e = Some (st', ForwardedOn q way).

(** [n] nodes after each other send a packet of another node on. *)
Inductive travels : nat → ZCPacket.t → ZCPacket.t → Prop :=
| TravelsNone p : travels 0 p p
| TravelsOn n c p h q r :
    ZCPacket.peer_manager_header p = Some h → PeerManagerHeader.from_peer_id h ≠ my_peer_id c →
    forwarded_by c p q → travels n q r → travels (S n) p r.

Lemma with_latency_wf h b : PeerManagerHeader.wf h → PeerManagerHeader.wf (PeerManagerHeader.set_latency_first h b).
Proof.
  unfold PeerManagerHeader.wf, PeerManagerHeader.set_latency_first, PeerManagerHeader.with_flags, Flags.put, Flags.insert, Flags.remove.
  cbn. intros (? & ? & ? & Hf & ? & ? & ?). split_and!; try done. destruct b; [by apply lor_byte|by apply ldiff_byte].
Qed.

Lemma latency_set h b : PeerManagerHeader.is_latency_first (PeerManagerHeader.set_latency_first h b) = b.
Proof.
  change (Flags.contains (Flags.put (PeerManagerHeader.flags h) (2 ^ 1) b) (2 ^ 1) = b). by rewrite PacketFacts.flag_put_contains.
Qed.

Lemma forwarded_spec c p q h :
  ZCPacket.wf p → ZCPacket.peer_manager_header p = Some h → PeerManagerHeader.wf h → PeerManagerHeader.from_peer_id h ≠ my_peer_id c →
  forwarded_by c p q →
  PeerManagerHeader.forward_counter h <= 7 ∧ ZCPacket.wf q ∧ ZCPacket.payload q = ZCPacket.payload p ∧
  ∃ h', ZCPacket.peer_manager_header q = Some h' ∧ PeerManagerHeader.wf h' ∧
    PeerManagerHeader.from_peer_id h' = PeerManagerHeader.from_peer_id h ∧ PeerManagerHeader.to_peer_id h' = PeerManagerHeader.to_peer_id h ∧
    PeerManagerHeader.forward_counter h' = PeerManagerHeader.forward_counter h + 1 ∧
    (3 < PeerManagerHeader.forward_counter h' → PeerManagerHeader.is_latency_first h' = false).
Proof.
  intros Hw Hh Hwf Hfrom (st & st' & dis & ing & e & way & Hs). unfold handle_packet in Hs.
  destruct (should_drop_relay_data _ _ _ _ _) as [drop|]; [|done]. cbn [mbind option_bind] in Hs. rewrite Hh in Hs.
  destruct (negb _).
  2: { unfold receive_packet, take_packet in Hs. repeat (case_match; try done; simplify_option_eq). }
  destruct drop; [done|]. unfold forward_packet in Hs. destruct (forward_header c h) as [k|h'] eqn:Ef; [unfold forward_header in Ef; repeat case_match; simplify_eq|].
  destruct (PacketFacts.update_header_ok p (λ _, h') Hw) as (p' & h0 & Hh0 & Hup & Hw' & Hpl & Hrd). rewrite Hup in Hs. cbn [mbind option_bind] in Hs.
  rewrite (proj2 (Z.eqb_neq _ _) Hfrom) in Hs. cbn [andb mbind option_bind] in Hs.
  destruct (send_msg_internal _ _ _ _ _ _ _ _) as [[[m fc] w]|]; [|done]. cbn in Hs. injection Hs as _ <- _.
  unfold forward_header in Ef. destruct (Z.ltb_spec 7 (PeerManagerHeader.forward_counter h)) as [|Hc]; [done|]. destruct (_ && _); [done|]. injection Ef as Ef.
  pose proof Hwf as (W1 & W2 & W3 & W4 & W5 & W6 & W7). unfold is_byte in W5.
  assert (Hn : wrapping_add 8 (PeerManagerHeader.forward_counter h) 1 = PeerManagerHeader.forward_counter h + 1)
    by (unfold wrapping_add, wrap; apply Z.mod_small; lia).
  set (h1 := if _ && _ then _ else h) in Ef.
  assert (H1 : PeerManagerHeader.wf h1 ∧ PeerManagerHeader.from_peer_id h1 = PeerManagerHeader.from_peer_id h ∧
    PeerManagerHeader.to_peer_id h1 = PeerManagerHeader.to_peer_id h ∧
    (2 < PeerManagerHeader.forward_counter h → PeerManagerHeader.is_latency_first h1 = false)).
  { unfold h1. destruct (Z.ltb_spec 2 (PeerManagerHeader.forward_counter h)); cbn [andb]; [|split_and!; try done; lia].
    destruct (PeerManagerHeader.is_latency_first h) eqn:El; [|done]. split; [by apply with_latency_wf|]. split; [done|]. split; [done|]. intros _.
    apply latency_set. }
  clearbody h1. subst h'. destruct H1 as (V & F1 & F2 & F3). split; [done|]. split; [done|]. split; [done|].
  exists (with_forward_counter h1 (wrapping_add 8 (PeerManagerHeader.forward_counter h) 1)).
  assert (Hwf1 : PeerManagerHeader.wf (with_forward_counter h1 (wrapping_add 8 (PeerManagerHeader.forward_counter h) 1))).
  { rewrite Hn. destruct V as (V1 & V2 & V3 & V4 & V5 & V6 & V7). unfold PeerManagerHeader.wf, with_forward_counter. cbn. unfold is_byte in *. split_and!; try done; lia. }
  split; [by apply Hrd|]. split; [done|]. cbn. rewrite Hn. split_and!; try done. intros Hl. apply F3. lia.
Qed.

(** C22: packets do not circle: a packet that other nodes send on, whatever their routes say, goes through eight
    nodes at most, seven of them when it begins with the counter of [fill_peer_manager_hdr]; each counts, none
    changes the payload or the ends, and a node that passes the count of three stops preferring the cheapest
    way to the shortest. *)
Theorem packet_hops_bounded n p q h :
  travels n p q → is_bytes (ZCPacket.inner p) → ZCPacket.peer_manager_header p = Some h →
  (n = 0%nat ∨ Z.of_nat n + PeerManagerHeader.forward_counter h <= 8) ∧ ZCPacket.payload q = ZCPacket.payload p ∧
  ∃ h', ZCPacket.peer_manager_header q = Some h' ∧
    PeerManagerHeader.from_peer_id h' = PeerManagerHeader.from_peer_id h ∧ PeerManagerHeader.to_peer_id h' = PeerManagerHeader.to_peer_id h ∧
    PeerManagerHeader.forward_counter h' = PeerManagerHeader.forward_counter h + Z.of_nat n ∧
    (n ≠ 0%nat → 3 < PeerManagerHeader.forward_counter h' → PeerManagerHeader.is_latency_first h' = false).
Proof.
  intros Ht Hb Hh. destruct (packet_header_wf p h Hb Hh) as [Hw Hwf]. clear Hb. revert h Hh Hw Hwf.
  induction Ht as [p|n c p h0 q r Hh0 Hne Hf Ht IH]; intros h Hh Hw Hwf.
  - split; [by left|]. split; [done|]. exists h. split_and!; try done. lia.
  - assert (h0 = h) as -> by congruence. destruct (forwarded_spec c p q h Hw Hh Hwf Hne Hf) as (Hc & Hw' & Hpl & h1 & Hh1 & Hwf1 & F1 & F2 & F3 & F4).
    destruct (IH h1 Hh1 Hw' Hwf1) as (Hn & Hpl' & h2 & Hh2 & G1 & G2 & G3 & G4). split; [right; lia|]. split; [congruence|].
    exists h2. split; [done|]. split; [congruence|]. split; [congruence|]. split; [lia|]. intros _ Hl.
    destruct n as [|n]; [|by apply G4]. inversion Ht; subst. assert (h2 = h1) as -> by congruence. by apply F4.
Qed.

End Routers.

(** ** Packets of the host *)

(** [parse_ip_packet] of instance/packet_io.rs: the destination of a whole IP packet. *)
Definition ip_destination (packet : list Z) : option IpAddr :=
  b0 ← packet !! 0%nat;
  let version := Z.shiftr b0 4 in
  if version =? 4 then
    if len packet <? 20 then None
    else
      let header_len := Z.land b0 15 * 4 in
      let total_len := from_be (take 2 (drop 2 packet)) in
      if (header_len <? 20) || (total_len <? header_len) || negb (total_len =? len packet) then None
      else Some (IpV4 (from_be (take 4 (drop 16 packet))))
  else if version =? 6 then
    if len packet <? 40 then None
    else
      let payload_len := from_be (take 2 (drop 4 packet)) in
      if (payload_len =? 0) && negb (len packet =? 40) || negb (payload_len =? 0) && negb (40 + payload_len =? len packet) then None
      else Some (IpV6 (from_be (take 16 (drop 24 packet))))
  else None.

Section Outbound.
Context `{HashIter} (hash_one : FlowKey → Z).
Context {V4Cidr V6Cidr : Type} (v4_contains : V4Cidr → Z → bool) (v6_contains : V6Cidr → Z → bool) (ip_to_text : IpAddr → Text).
Context (zstd_available : bool) (zstd_compress : list Z → result (list Z) ZstdError).
Context (encrypt : ZCPacket.t → ZCPacket.t * bool).
Context {V4 V6 : Type} `{Inet V4} `{Inet V6}.
Context {St : Type}.

(** An entry of the pipeline behind the virtual device; it may rewrite the packet. *)
Record NicPipelineEntry : Type := mkNicEntry {
  nic_active : St → bool; try_process_packet_from_nic : St → ZCPacket.t → St * ZCPacket.t }.

Record PeerOutboundPacketRouter : Type := mkOutbound {
  out_config : RouterConfig (V4 := V4) (V6 := V6); out_secure : bool; data_compress_algo : CompressorAlgo;
  nic_packet_process_pipeline : list NicPipelineEntry }.

Record OutboundState : Type := mkOutState {
  out_peers : PeerMap; out_foreign : PeerMap; out_acl : AclFilter V4Cidr V6Cidr; out_filters : St; recent_traffic : RecentTrafficTracker }.

Implicit Types (o : PeerOutboundPacketRouter) (st : OutboundState) (e : RouterEnv) (policy : PeerPacketPolicy).

Definition out_me o : Z := router_peer_id (out_config o).

Definition peer_directly_connected st (id : Z) : bool :=
  match get_peer_by_id (out_peers st) id with
  | Some peer => has_directly_connected_conn peer
  | None => has_peer (out_foreign st) id
  end.

Definition with_maps st (m fc : PeerMap) : OutboundState := mkOutState m fc (out_acl st) (out_filters st) (recent_traffic st).

Definition mark_recent_traffic_with_policy st (dst : Z) policy (now : Z) : OutboundState :=
  mkOutState (out_peers st) (out_foreign st) (out_acl st) (out_filters st)
    (mark_traffic (peer_directly_connected st) (recent_traffic st) dst (disable_p2p policy) (lazy_p2p policy) now).

(** [true]: the packet may go. *)
Definition check_p2p_only_before_send st (dst : Z) policy : bool := negb (p2p_only policy && negb (has_peer (out_peers st) dst)).

(** The ACL first; [None] of the inner option: it denies the packet. *)
Definition run_nic_packet_process_pipeline o st (data : ZCPacket.t) e : option (OutboundState * option ZCPacket.t) :=
  a ← process_packet_with_acl v4_contains v6_contains ip_to_text (out_acl st)
        (mkCall data false None (λ _, false) (env_groups e) (env_now e) (env_secs e));
  let '(acl, allowed) := a in
  if allowed : bool then
    let '(fs, data) := foldr (λ entry '(fs, data), if nic_active entry fs then try_process_packet_from_nic entry fs data else (fs, data))
      (out_filters st, data) (nic_packet_process_pipeline o) in
    Some (mkOutState (out_peers st) (out_foreign st) acl fs (recent_traffic st), Some data)
  else Some (mkOutState (out_peers st) (out_foreign st) acl (out_filters st) (recent_traffic st), None).

(** What happened to the packet at one destination. *)
Inductive SendOutcome : Type := NotDirect | NotEncoded | Went (msg : ZCPacket.t) (way : result Way PeerError).

Inductive ByIp : Type :=
| DeniedByAcl | NoDestination | EncodeFailed
| SentByFilter (to_peer_id : Z) (way : result Way PeerError)
| SentTo (outcomes : list (Z * SendOutcome)).

Definition set_destination (not_to_tun : bool) (dst : Z) (h : PeerManagerHeader.t) : PeerManagerHeader.t :=
  let h := PeerManagerHeader.mk (PeerManagerHeader.from_peer_id h) dst (PeerManagerHeader.packet_type h) (PeerManagerHeader.flags h)
    (PeerManagerHeader.forward_counter h) (PeerManagerHeader.reserved h) (PeerManagerHeader.hdr_len h) in
  if not_to_tun then
    PeerManagerHeader.set_no_proxy (PeerManagerHeader.with_flags h (Flags.put (PeerManagerHeader.flags h) Flags.NOT_SEND_TO_TUN true)) true
  else h.

(** A round of the loop over the destinations. *)
Definition send_to_one o (msg : ZCPacket.t) (ip : IpAddr) (not_send_to_self mark : bool) policy e
    (acc : OutboundState * list (Z * SendOutcome)) (dst : Z) : option (OutboundState * list (Z * SendOutcome)) :=
  let '(st, done) := acc in
  let st := if mark then mark_recent_traffic_with_policy st dst policy (env_now e) else st in
  if negb (check_p2p_only_before_send st dst policy) then Some (st, done ++ [(dst, NotDirect)])
  else
    let not_to_tun := negb (local_exit_node_fallback (out_config o)) && not_send_to_self && (dst =? out_me o) &&
      negb (is_ip_local_virtual_ip (out_config o) ip) in
    msg ← ZCPacket.update_peer_manager_header msg (set_destination not_to_tun dst);
    r ← send_msg_internal hash_one (out_peers st) (out_foreign st) msg dst (p2p_only policy) (env_now e) (env_sink_ok e);
    let '(m, fc, way) := r in
    Some (with_maps st m fc, done ++ [(dst, Went msg way)]).

Definition send_msg_by_ip o st (msg : ZCPacket.t) (ip : IpAddr) (not_send_to_self : bool) policy (r : RouteAnswers) e
    : option (OutboundState * ByIp) :=
  msg ← ZCPacket.fill_peer_manager_hdr msg (out_me o) 0 (packet_type_u8 Data);
  n ← run_nic_packet_process_pipeline o st msg e;
  let '(st, filtered) := n in
  match filtered with
  | None => Some (st, DeniedByAcl)
  | Some msg =>
      payload ← ZCPacket.payload msg;
      let ip := match nic_packet_process_pipeline o with [] => ip | _ => default ip (ip_destination payload) end in
      key ← parse_flow_key msg;
      let msg := ZCPacket.mk (ZCPacket.inner msg) (ZCPacket.packet_type msg) key in
      hdr ← ZCPacket.peer_manager_header msg;
      let cur_to_peer_id := PeerManagerHeader.to_peer_id hdr in
      if negb (cur_to_peer_id =? 0) then
        let st := mark_recent_traffic_with_policy st cur_to_peer_id policy (env_now e) in
        s ← send_msg_internal hash_one (out_peers st) (out_foreign st) msg cur_to_peer_id (p2p_only policy) (env_now e) (env_sink_ok e);
        let '(m, fc, way) := s in Some (with_maps st m fc, SentByFilter cur_to_peer_id way)
      else
        d ← get_msg_dst_peer (out_config o) r ip;
        let '(dst_peers, is_exit_node) := d in
        match dst_peers with
        | [] => Some (st, NoDestination)
        | _ =>
            c ← try_compress_and_encrypt zstd_available zstd_compress encrypt (data_compress_algo o) msg (out_secure o);
            match c with
            | (_, false) => Some (st, EncodeFailed)
            | (msg, true) =>
                msg ← ZCPacket.update_peer_manager_header msg
                  (λ h, PeerManagerHeader.set_exit_node (PeerManagerHeader.set_latency_first h (latency_first policy)) is_exit_node);
                let mark := should_mark_recent_traffic_for_fanout (len dst_peers) in
                s ← try_fold (send_to_one o msg ip not_send_to_self mark policy e) dst_peers (st, []);
                Some (s.1, SentTo s.2)
            end
        end
  end.

(** A packet of a local proxy to a peer. *)
Definition send_msg_for_proxy o st (msg : ZCPacket.t) (dst : Z) policy e : option (OutboundState * SendOutcome) :=
  let st := mark_recent_traffic_with_policy st dst policy (env_now e) in
  if negb (check_p2p_only_before_send st dst policy) then Some (st, NotDirect)
  else
    hdr ← ZCPacket.peer_manager_header msg;
    key ← (if PeerManagerHeader.packet_type hdr =? packet_type_u8 Data then parse_flow_key msg else Some (ZCPacket.flow_key msg));
    let msg := ZCPacket.mk (ZCPacket.inner msg) (ZCPacket.packet_type msg) key in
    c ← try_compress_and_encrypt zstd_available zstd_compress encrypt (data_compress_algo o) msg (out_secure o);
    match c with
    | (_, false) => Some (st, NotEncoded)
    | (msg, true) =>
        s ← send_msg_internal hash_one (out_peers st) (out_foreign st) msg dst (p2p_only policy) (env_now e) (env_sink_ok e);
        let '(m, fc, way) := s in Some (with_maps st m fc, Went msg way)
    end.

(** *** Direct connections only *)

Definition not_relayed (way : result Way PeerError) : Prop := match way with Ok (Relayed _ _) | Ok (Foreign _) => False | _ => True end.

Lemma has_peer_nearest m fc dst hop fk is_data now ok m' fc' way :
  has_peer m dst = true → send_nearest hash_one m fc dst hop true fk is_data now ok = (m', fc', way) → not_relayed way.
Proof.
  unfold has_peer, send_nearest. intros Hp. destruct (peer_map m !! dst) as [p|].
  - destruct (peer_send hash_one m dst p fk is_data now ok) as [m1 [d|[|d| | |]]]; intros [= <- <- <-]; done.
  - rewrite bool_decide_eq_false_2, orb_false_r in Hp by (by intros []). unfold send_onward, send_msg_directly. rewrite Hp.
    by intros [= <- <- <-].
Qed.

Lemma updated_flags p f q : ZCPacket.update_peer_manager_header p f = Some q →
  ∃ h h', ZCPacket.peer_manager_header p = Some h ∧ ZCPacket.peer_manager_header q = Some h' ∧
    PeerManagerHeader.flags h' = PeerManagerHeader.flags (f h).
Proof.
  intros Hu. assert (Hw : ZCPacket.wf p).
  { unfold ZCPacket.update_peer_manager_header in Hu. destruct (ZCPacket.peer_manager_header p) as [h|] eqn:Eh; [|done].
    unfold ZCPacket.peer_manager_header, ZCPacket.bytes_from_offset in Eh. destruct (slice_from _ _) as [l|] eqn:E; [|done]. cbn in Eh.
    unfold ZCPacket.wf, ZCPacket.payload_offset. rewrite PacketFacts.payload_after_header. apply PacketFacts.slice_from_end in E.
    unfold PeerManagerHeader.from_prefix in Eh. destruct (Z.ltb_spec (len l) PEER_MANAGER_HEADER_SIZE); [done|]. lia. }
  destruct (PacketFacts.pm_split p Hw) as (a & b & pl & Hi & Ha & Hb & _).
  destruct (PacketFacts.buffer_views p a b pl Hi Ha Hb) as (_ & _ & Hh).
  destruct (PacketFacts.update_pm_header_spec p f a b pl Hi Ha Hb) as (h & Eh & Eu). rewrite Eu in Hu. injection Hu as <-.
  destruct (PacketFacts.buffer_views (ZCPacket.with_inner p (a ++ PeerManagerHeader.to_bytes (f h) ++ pl)) a
    (PeerManagerHeader.to_bytes (f h)) pl) as (_ & _ & Hh'); [done|done|apply PacketFacts.pm_header_len|].
  exists h. unfold PeerManagerHeader.from_prefix in Hh'.
  rewrite (proj2 (Z.ltb_ge _ _)) in Hh' by (rewrite len_app, PacketFacts.pm_header_len; pose proof (len_nonneg pl); lia).
  eexists. split; [congruence|]. split; [exact Hh'|]. done.
Qed.

Lemma latency_kept not_to_tun dst h :
  PeerManagerHeader.is_latency_first (set_destination not_to_tun dst h) = PeerManagerHeader.is_latency_first h.
Proof.
  unfold set_destination. destruct not_to_tun; [|done].
  change (Flags.contains (Flags.put (Flags.put (PeerManagerHeader.flags h) (2 ^ 6) true) (2 ^ 3) true) (2 ^ 1) =
    Flags.contains (PeerManagerHeader.flags h) (2 ^ 1)). by rewrite !PacketFacts.flag_put_contains.
Qed.

Lemma latency_exit_node h b : PeerManagerHeader.is_latency_first (PeerManagerHeader.set_exit_node h b) = PeerManagerHeader.is_latency_first h.
Proof.
  change (Flags.contains (Flags.put (PeerManagerHeader.flags h) (2 ^ 2) b) (2 ^ 1) = Flags.contains (PeerManagerHeader.flags h) (2 ^ 1)).
  by rewrite PacketFacts.flag_put_contains.
Qed.

Lemma latency_by_flags h h' : PeerManagerHeader.flags h = PeerManagerHeader.flags h' →
  PeerManagerHeader.is_latency_first h = PeerManagerHeader.is_latency_first h'.
Proof. unfold PeerManagerHeader.is_latency_first. by intros ->. Qed.

(** The connections a packet went over. *)
Definition stays_direct (x : Z * SendOutcome) : Prop := match x.2 with Went _ way => not_relayed way | _ => True end.

Lemma send_to_one_direct o msg ip to_self mark policy e acc dst acc' :
  p2p_only policy = true → (∃ h, ZCPacket.peer_manager_header msg = Some h ∧ PeerManagerHeader.is_latency_first h = false) →
  Forall stays_direct acc.2 → send_to_one o msg ip to_self mark policy e acc dst = Some acc' → Forall stays_direct acc'.2.
Proof.
  intros Hp (h & Hh & Hl) Hall. unfold send_to_one. destruct acc as [sa outs], acc' as [sb outs']. cbn in Hall |- *.
  set (sm := if mark then _ else sa). destruct (check_p2p_only_before_send sm dst policy) eqn:Ec; cbn [negb].
  2: { intros [= <- <-]. apply Forall_app. split; [done|]. by repeat constructor. }
  destruct (ZCPacket.update_peer_manager_header msg _) as [m5|] eqn:Eu; [|done]. cbn [mbind option_bind].
  destruct (send_msg_internal _ _ _ _ _ _ _ _) as [[[m fc] way]|] eqn:Es; [|done]. cbn [mbind option_bind]. intros [= <- <-].
  apply Forall_app. split; [done|]. constructor; [|constructor]. cbn.
  assert (Hhas : has_peer (out_peers sm) dst = true).
  { unfold check_p2p_only_before_send in Ec. rewrite Hp in Ec. apply negb_true_iff in Ec. by apply negb_false_iff in Ec. }
  destruct (updated_flags _ _ _ Eu) as (h' & h5 & Hh' & Hh5 & Hf). assert (h' = h) as -> by congruence.
  revert Es. unfold send_msg_internal. rewrite Hh5. cbn [mbind option_bind]. destruct (data_packet_payload_len m5); [|done]. cbn [mbind option_bind].
  rewrite (latency_by_flags _ _ Hf), latency_kept, Hl, Hp. cbn [from_option]. intros [= Es]. by eapply has_peer_nearest.
Qed.

(** C23: with direct connections only, no packet is relayed: under the policy of the flags [p2p_only] and any
    other flags, a packet of the host that no filter has addressed goes to each of its destinations over
    a connection of that peer, to this node itself, or fails; none goes over a relay or the foreign
    network. *)
Theorem p2p_only_never_relays o st msg ip not_send_to_self f_relay f_latency f_p2p f_lazy r e st' outcomes :
  send_msg_by_ip o st msg ip not_send_to_self (from_flags f_relay true f_latency f_p2p f_lazy) r e = Some (st', SentTo outcomes) →
  Forall stays_direct outcomes.
Proof.
  unfold send_msg_by_ip. destruct (ZCPacket.fill_peer_manager_hdr _ _ _ _) as [m0|]; [|done]. cbn [mbind option_bind].
  destruct (run_nic_packet_process_pipeline o st m0 e) as [[st1 [m1|]]|]; [|done..]. cbn [mbind option_bind].
  destruct (ZCPacket.payload m1) as [pl|]; [|done]. cbn [mbind option_bind]. destruct (parse_flow_key m1) as [key|]; [|done]. cbn [mbind option_bind].
  set (m2 := ZCPacket.mk _ _ key). set (ip' := match nic_packet_process_pipeline o with [] => ip | _ => _ end). clearbody m2 ip'.
  destruct (ZCPacket.peer_manager_header m2) as [h2|]; [|done]. cbn [mbind option_bind]. destruct (negb _).
  { destruct (send_msg_internal _ _ _ _ _ _ _ _) as [[[m fc] way]|]; [|done]. done. }
  destruct (get_msg_dst_peer (out_config o) r ip') as [[dsts is_exit]|]; [|done]. cbn [mbind option_bind]. destruct dsts as [|d ds]; [done|].
  destruct (try_compress_and_encrypt _ _ _ _ _ _) as [[m3 []]|]; [|done..]. cbn [mbind option_bind].
  destruct (ZCPacket.update_peer_manager_header m3 _) as [m4|] eqn:Eu; [|done]. cbn [mbind option_bind].
  assert (Hlf : ∃ h4, ZCPacket.peer_manager_header m4 = Some h4 ∧ PeerManagerHeader.is_latency_first h4 = false).
  { destruct (updated_flags _ _ _ Eu) as (h3 & h4 & _ & Hh4 & Hf). exists h4. split; [done|]. rewrite (latency_by_flags _ _ Hf), latency_exit_node, latency_set.
    cbn. by rewrite andb_false_r. }
  clear Eu. destruct (try_fold _ _ _) as [[st2 outs]|] eqn:Es; [|done]. cbn [mbind option_bind fst snd]. intros [= <- <-].
  set (policy := from_flags _ _ _ _ _) in *. set (mark := should_mark_recent_traffic_for_fanout _) in *. clearbody mark.
  apply (try_fold_pres (λ _ acc, Forall stays_direct acc.2) _ (d :: ds) (st1, []) (st2, outs)) in Es; [done|constructor|].
  intros _ dst acc acc' _. apply (send_to_one_direct o m4); [done|]. by destruct Hlf as (h4 & Hh4 & Hl4); exists h4.
Qed.

End Outbound.

(** ** Witnesses and examples *)

Definition demo_env : RouterEnv := mkEnv (Some 1) (λ _, false) (λ _, []) 0 0 true.
Definition no_zstd (l : list Z) : result (list Z) ZstdError := Ok l.
Definition demo_router (me : Z) (secure : bool) : PeerPacketRouter (St := unit) := mkRouter me secure false CompressNone [].

Definition demo_handle c st p ingress :=
  handle_packet demo_hash (λ _ _ : Z, false) (λ _ _ : Z, false) (λ _, []) false no_zstd (λ l _, Ok l) (λ p, (p, true)) (λ p, (p, true))
    (λ _, None) (V4Cidr := Z) (V6Cidr := Z) (St := unit) c st p false ingress demo_env.

Definition demo_maps (me : Z) : PeerMap := default (new_map me) (map_run demo_hash me [AddSaw true (conn_to 11 3 2000) None; AddRoute over_3]).
Definition demo_state (me : Z) : RouterState (V4Cidr := Z) (V6Cidr := Z) (St := unit) :=
  mkRouterState (demo_maps me) (new_map me) (new_filter toy_parse) ().

(** Node 2 sends a packet of node 1 to node 4 on, over 3. *)
Definition hop_result : option (RouterState (St := unit) * Handled) :=
  p ← data_to 4 true; demo_handle (demo_router 2 false) (demo_state 2) p (FromPeer 1 21 Manual).

Lemma packet_hops_bounded_witness :
  ∃ p q, data_to 4 true = Some p ∧
    travels demo_hash (λ _ _ : Z, false) (λ _ _ : Z, false) (λ _, []) false no_zstd (λ l _, Ok l) (λ p, (p, true)) (λ p, (p, true))
      (λ _, None) (St := unit) 1 p q ∧ ∃ h', ZCPacket.peer_manager_header q = Some h' ∧ PeerManagerHeader.forward_counter h' = 2.
Proof.
  destruct (data_to 4 true) as [p|] eqn:Ep; [|vm_compute in Ep; discriminate].
  destruct (ZCPacket.peer_manager_header p) as [h|] eqn:Eh; [|vm_compute in Ep; injection Ep as <-; vm_compute in Eh; discriminate].
  destruct (demo_handle (demo_router 2 false) (demo_state 2) p (FromPeer 1 21 Manual)) as [[st' [| | | |q way| | | | |]]|] eqn:Ef;
    try (vm_compute in Ep; injection Ep as <-; vm_compute in Ef; discriminate).
  assert (Hh : PeerManagerHeader.from_peer_id h = 1 ∧ PeerManagerHeader.forward_counter h = 1)
    by (vm_compute in Ep; injection Ep as <-; vm_compute in Eh; injection Eh as <-; split; reflexivity).
  destruct Hh as [Hfrom Hc]. assert (Hne : PeerManagerHeader.from_peer_id h ≠ my_peer_id (demo_router 2 false)) by (rewrite Hfrom; discriminate).
  assert (Hf : forwarded_by demo_hash (λ _ _ : Z, false) (λ _ _ : Z, false) (λ _, []) false no_zstd (λ l _, Ok l) (λ p, (p, true))
    (λ p, (p, true)) (λ _, None) (demo_router 2 false) p q) by (exists (demo_state 2), st', false, (FromPeer 1 21 Manual), demo_env, way; exact Ef).
  exists p, q. split; [reflexivity|].
  pose proof (TravelsOn demo_hash (λ _ _ : Z, false) (λ _ _ : Z, false) (λ _, []) false no_zstd (λ l _, Ok l) (λ p, (p, true)) (λ p, (p, true))
    (λ _, None) 0 (demo_router 2 false) p h q q Eh Hne Hf (TravelsNone _ _ _ _ _ _ _ _ _ _ q)) as Ht.
  split; [exact Ht|].
  destruct (packet_hops_bounded demo_hash _ _ _ _ _ _ _ _ _ 1 p q h Ht) as (_ & _ & h' & Hh' & _ & _ & Hn & _);
    [vm_compute in Ep; injection Ep as <-; apply (bool_decide_eq_true_1 _); vm_compute; reflexivity|exact Eh|].
  exists h'. split; [exact Hh'|]. rewrite Hn, Hc. reflexivity.
Defined.

(** In secure mode a packet for this node that is not encrypted is taken as it is, whoever sent it. *)
Example plain_packet_taken :
  (p ← data_to 2 false; snd <$> demo_handle (demo_router 2 true) (demo_state 2) p (FromPeer 3 11 Manual)) =
  (p ← data_to 2 false; Some (DeliveredTo [p])) ∧ is_Some (data_to 2 false).
Proof. split; [vm_compute; reflexivity|]. vm_compute. eexists. reflexivity. Qed.

(** A packet of a foreign network that is shorter than its header panics the router, also when
    it is for another node. *)
Definition short_foreign (to : Z) : option ZCPacket.t :=
  p ← ZCPacket.new_with_payload (replicate 64 0) (replicate 8 7);
  ZCPacket.fill_peer_manager_hdr p 3 to (packet_type_u8 ForeignNetworkPacket).

Example short_foreign_panics :
  (p ← short_foreign 4;
   Some (route_packet demo_hash (λ _ _ : Z, false) (λ _ _ : Z, false) (λ _, []) false no_zstd (λ l _, Ok l) (λ p, (p, true)) (λ p, (p, true))
     (λ _, None) (λ _, true) (λ _, None) (λ _ _, None) (demo_router 2 false) (demo_state 2) p false (FromPeer 3 11 Manual) demo_env))
  = Some None.
Proof. vm_compute. reflexivity. Qed.

(** 10.0.0.1 with a prefix length, a peer 3 that owns 10.0.0.3 and an exit node there. *)
Definition demo_config (n : Z) : RouterConfig (V4 := WideInet 32) (V6 := WideInet 128) :=
  mkConfig 1 (inet_new 167772161 n) None [IpV4 167772163] false (λ _, false).
Definition demo_answers : RouteAnswers :=
  mkAnswers (λ ip, if bool_decide (ip = IpV4 167772163) then Some 3 else None) [(1, true); (2, true); (3, true); (4, false)] [2; 3; 4] None.

(** 8.8.8.8 goes to the exit node, 8.8.8.255 to every peer with an IPv4 address. *)
Example outside_address_broadcast :
  (get_msg_dst_peer (demo_config 24) demo_answers (IpV4 134744072), get_msg_dst_peer (demo_config 24) demo_answers (IpV4 134744319)) =
  (Some ([3], true), Some ([2; 3], false)).
Proof. vm_compute. reflexivity. Qed.

(** With the network 10.0.0.1/32 a packet for 10.0.0.3 goes to every peer with an IPv4 address. *)
Example single_address_network : get_msg_dst_peer (demo_config 32) demo_answers (IpV4 167772163) = Some ([2; 3], false).
Proof. vm_compute. reflexivity. Qed.


(** A packet of the host for 10.0.0.3, under direct connections only. *)
Definition host_packet : list Z := [69; 0; 0; 28; 0; 0; 0; 0; 64; 17; 0; 0; 10; 0; 0; 1; 10; 0; 0; 3; 0; 10; 0; 20; 0; 8; 0; 0].
Definition demo_outbound : PeerOutboundPacketRouter (V4 := WideInet 32) (V6 := WideInet 128) (St := unit) :=
  mkOutbound (demo_config 24) false CompressNone [].
Definition demo_out_state : OutboundState (V4Cidr := Z) (V6Cidr := Z) (St := unit) :=
  mkOutState (demo_maps 1) (new_map 1) (new_filter toy_parse) () (new_tracker 1).
Definition demo_send (ip : IpAddr) (direct_only : bool) :=
  msg ← ZCPacket.new_with_payload (replicate 64 0) host_packet;
  send_msg_by_ip demo_hash (λ _ _ : Z, false) (λ _ _ : Z, false) (λ _, []) false no_zstd (λ p, (p, true)) demo_outbound demo_out_state msg ip false
    (from_flags false direct_only true false true) demo_answers demo_env.

Definition way_taken (x : Z * SendOutcome) : Z * option (result Way PeerError) := (x.1, match x.2 with Went _ way => Some way | _ => None end).

Lemma p2p_only_never_relays_witness :
  ∃ st outcomes, demo_send (IpV4 167772163) true = Some (st, SentTo outcomes) ∧
    map way_taken outcomes = [(3, Some (Ok (Direct (OverConn 3 11))))] ∧ Forall stays_direct outcomes.
Proof.
  destruct (demo_send (IpV4 167772163) true) as [[st [| | | |outcomes]]|] eqn:E; try (vm_compute in E; discriminate).
  exists st, outcomes. split; [reflexivity|]. split; [vm_compute in E; injection E as _ <-; vm_compute; reflexivity|].
  unfold demo_send in E. destruct (ZCPacket.new_with_payload (replicate 64 0) host_packet) as [msg|]; [|discriminate].
  cbn [mbind option_bind] in E. exact (p2p_only_never_relays _ _ _ _ _ _ _ _ _ _ _ _ _ _ _ _ _ _ _ _ E).
Defined.

(** A broadcast under direct connections only leaves out the peer without a connection. *)
Example broadcast_skips_far_peer :
  (match snd <$> demo_send (IpV4 167772415) true with Some (SentTo outs) => Some (map way_taken outs) | _ => None end) =
  Some [(2, None); (3, Some (Ok (Direct (OverConn 3 11))))].
Proof. vm_compute. reflexivity. Qed.
